(* ===== verification/_CoqProject ===== *)
-Q . S2P
Prelude.v
MessageQueue.v
Timer.v
Lock.v
Handle.v
Netpack.v
Des.v
Crypt.v
DataBuffer.v
Sha1.v
Seri.v
Sproto.v
SprotoCodec.v
SprotoEncode.v
Hashid.v
Gate.v
Kernel.v
Cluster.v
Threads.v
Text.v
Harbor.v
HarborLink.v
Queues.v
Server.v
ServerInv.v
ServerParts.v
ServerSteps.v
ServerSpecs.v
ServerSafety.v
SocketServer.v
SocketStreams.v
SocketWorld.v
