(* ===== verification/Prelude.v ===== *)
(** * The core of fkserver, verified

    fkserver is a game server: Lua services that run on skynet, a C runtime that
    schedules services as actors.  This library models the C code of that
    runtime which keeps state of its own, and proves what it is meant to do.
    The Lua services (rules of games, login, databases) are not modelled.

    ** How a program of this kind works

    A service is a context with a handle and a message queue.  Worker threads
    take queues from a global queue and run the callback of their service on
    one message at a time.  Services reach each other by handle or name, ask
    for time-outs, and talk to clients through gates: a socket server hands
    received bytes to a gate, which cuts them into packages and forwards them.
    Messages between services are Lua values packed into blocks of bytes;
    messages to clients are packed by sproto and may be encrypted and signed.

    ** The files

    - [Prelude]: failing code, machine integers, checked arrays, loops, and the
      lemmas and tactics the other files share.
    - [MessageQueue]: skynet-src/skynet_mq.c.  The ring of a service
      ([mq_pop], [mq_enqueue]) against a list, and the global queue with the
      threads that hold queues, as a step relation.
    - [Timer]: skynet-src/skynet_timer.c.  The timing wheel ([add_node],
      [timer_shift], [timer_update]) against the multiset of pending time-outs.
    - [Lock]: skynet-src/rwlock.h, spinlock.h and atomic.h.  One access of one
      thread is one step.
    - [Handle]: skynet-src/skynet_handle.c.  The table of contexts and the sorted
      names, against a map from names to handles.
    - [Netpack]: lualib-src/lua-netpack.c.  Packages with 2-byte headers cut out
      of streams of sockets.
    - [Des], [Crypt]: lualib-src/lua-crypt.c.  DES with its paddings; hashes,
      key exchange, hexadecimal and base64 text.
    - [DataBuffer]: service-src/databuffer.h.  Byte queues over a shared pool.
    - [Sha1]: lualib-src/lsha1.c, against the standard (module [Fips]).
    - [Seri]: lualib-src/lua-seri.c.  Lua values as bytes, over a store of tables
      (class [LuaTables]).
    - [Sproto]: the zero packing of lualib-src/sproto/sproto.c and lsproto.c.
    - [Cluster]: lualib-src/lua-cluster.c.  Requests and responses between clusters
      as packages, and the receiver that puts their parts together ([agent]).
    - [Harbor]: service-src/service_harbor.c.  The connections to other nodes and the
      messages that wait for them or for global names.  [HarborLink]: two of these
      services and the bytes between them.
    - [Hashid], [Gate]: service-src/hashid.h and service_gate.c.  The gate over
      its table of ids, its data buffers and its text commands, against a map
      from socket ids to streams.

    - [Threads]: threads as trees of atomic steps, pools of them, and the proof
      rules for pools.  [Text]: the conversions of printf and strtol.  [Queues]: the
      rules of [MessageQueue] for threads that hold queues.
    - [Server]: skynet-src/skynet_server.c with all it calls: skynet_harbor.c,
      skynet_error.c, skynet_env.c, skynet_monitor.c, skynet_log.c, the threads of
      skynet_start.c and [forward_message] of skynet_socket.c.  The state is [node];
      each function is a [prog] of atomic steps; the code of services is a tree of
      API calls ([client]), the work of a thread a [job].
    - [ServerInv]: the invariant of the node, over the tokens that threads own (a
      reference, a block of memory, a queue that is being run, an open log file).
      [ServerParts]: how each part of the invariant changes.  [ServerSteps]: one
      triple per atomic step.  [ServerSpecs]: one triple per function, and the rules
      that services keep.  [ServerSafety]: the theorems about pools of threads.

    - [Kernel], [SocketServer]: skynet-src/socket_server.c over the answers of the
      operating system, in a monad with a trace of the calls.
    - [SocketStreams], [SocketWorld]: what that server writes to its sockets, one
      socket at a time ([sock_inv]) and for programs of calls and rounds of the
      poll loop ([world], [session]).

    Each file keeps the names of the C code: a struct is a [Record] with an [Eta]
    instance for [r <| field := v |>], a function is a [Definition] or [Fixpoint]
    on the state, a loop is [for_range], [while_loop] or a [Fixpoint] of its own.

    ** Conventions

    A function that can abort is a function into [option]: [None] is a failed
    [assert], an access outside an object, a use of uninitialised or freed
    memory, or a signed overflow.  An error raised into Lua is a value of
    [result].  A function that calls the system is one into [outcome], which adds
    the case that the system gives no further answer; [wp] is its weakest
    precondition ([Kernel]).  Integers are [Z] with the wrap-around of their width written out
    ([u32], [s32], [int_add] that fails on overflow).  Bytes are [Z]s from 0 to
    255; memory that [malloc] returned is a list of [option Z].  A pointer into a
    structure is an index, or a key of a heap where objects are created and
    freed one by one ([MessageQueue]).  What other code answers (the clock, the
    environment, [lua_next], the name service) is a parameter.

    A theorem that a function does its work states that it returns [Some]: fuel
    never runs out and nothing aborts.  Loops get as much fuel as they can need
    by construction (the length of the list they walk, the bytes of the buffer
    they read), or a constant: 64 doublings of a threshold, 32 of an [int], 3
    rounds of [timer_execute] for calls made while events are dispatched.

    The functions of skynet_server.c run in several threads at once.  What other
    threads may see in between is a step of its own: a locked section, an atomic
    operation, an access to a field.  The theorems about the node are for runs
    through states that are [nominal]: no context is freed while its launcher still
    reads it, no log file is closed between the load of its pointer and the write,
    no thread looks up a handle before its queue is stored, fewer than 2^24 handles, 2^29
    names and 2^30 messages in a queue.  Each of the first three is a race in the
    code (see the findings; [race_jobs] runs into the first).  The stores of a
    struct that [context_create] makes under no lock are one step with the
    registration; [Handle] proves what happens in between.

    ** What the theorems show

    - Safety of the node: with services that keep to the rules of the API
      ([callbacks_ok]), no interleaving of workers, timer, monitor, socket thread and
      launches fails an assertion, frees twice or uses what is freed; each
      message sent to a service is handled, dropped with its queue or still
      waiting, in order; when all threads have ended exactly the references of
      the table of handles are left.

    - Refinement of an abstract state: the ring is a FIFO, the timer a multiset
      of time-outs, names a map, data buffers and the package filter byte
      streams, the table of connections a map, the gate a map of streams,
      packing of Lua values a grammar of bytes, each TCP socket a stream of the
      buffers its users sent.
    - Invariants over every interleaving: a queue is held by at most one thread
      and never lost; the read-write lock and the spin lock exclude.
    - Round trips: packages, DES, base64, the text of handles, Lua values, sproto
      packing, cluster messages, also in parts and interleaved, and the messages
      between two nodes, those sent before their connection included.
    - Equivalence with a standard: SHA-1 and HMAC-SHA-1.
    - Time-outs fire exactly on time, and loops that could run for ever end
      ([skynet_handle_retireall], [luaseri_unpack] on any bytes).
    - No assertion of the socket server fails, whatever the system answers, for
      callers that use an id only after it was given out and opened.
    - Where the code falls short, a theorem shows the state that does it: the
      read-write lock built on C11 atomics, registrations after the handles wrap
      or from two threads, a kill during a launch, the padding check of DES,
      hexadecimal decoding, 4-byte headers from 2^31 on, SHA-1 of 512 MB in one
      call, sockets that are not closed after a direct write that was cut,
      cluster requests that announce 2 GB, and messages between nodes that lose
      their handle, are too short, or go to a closed socket.

    ** Not modelled, and the plan

    Next: sproto_encode and sproto_decode.  Not planned: dlopen, signals, files, the
    allocator and OpenSSL bindings, which keep little state of their own; the
    vendored Lua, LPeg, MD5 and RSA; the Lua programs. *)

From stdpp Require Export base tactics option list numbers fin_maps gmap strings.
From Stdlib Require Export ZArith Lia.

Declare Scope skynet_scope.
Delimit Scope skynet_scope with sky.
Open Scope Z_scope.
Open Scope skynet_scope.

(** ** Failing code

    A C function that can run into an [assert], an out-of-range access, a
    signed overflow or a read of a dead object is a function into [option]:
    [None] is the abort.  [x ← e; k] runs [e] first and [k] on its result. *)

Notation "x ← y ; z" := (match y with Some x => z | None => None end)
  (at level 20, y at level 100, z at level 200, only parsing) : skynet_scope.
Notation "' x ← y ; z" := (match y with Some x => z | None => None end)
  (at level 20, x pattern, y at level 100, z at level 200, only parsing) : skynet_scope.
Notation "'assert!' b ; k" := (if b then k else None)
  (at level 100, b at level 80, k at level 200, right associativity) : skynet_scope.

(** A function called from Lua may also raise an error with [luaL_error]:
    [x ⇐ e; k] stops at the first error. *)
Inductive result (A : Type) := Return (x : A) | Error (msg : string).
Arguments Return {A} x.
Arguments Error {A} msg%_string.

Notation "x ⇐ y ; z" := (match y with Some (Return x) => z | Some (Error m) => Some (Error m) | None => None end)
  (at level 20, y at level 100, z at level 200, only parsing) : skynet_scope.
Notation "' x ⇐ y ; z" := (match y with Some (Return x) => z | Some (Error m) => Some (Error m) | None => None end)
  (at level 20, x pattern, y at level 100, z at level 200, only parsing) : skynet_scope.

(** ** Record update

    [r <| f := v |>] is the C assignment [r.f = v] on a record value: the
    record's [Eta] instance rebuilt with the field replaced.  The notation is
    expanded when a definition is read, so nothing of it is left in terms. *)

Class Eta (T : Type) := eta : T → T.

Ltac record_set r f v :=
  let T := type of r in
  let T := eval hnf in T in
  let i := constr:(_ : Eta T) in
  let e := eval hnf in i in
  let e := eval cbv beta in (e r) in
  lazymatch eval pattern (f r) in e with
  | ?F _ => let t := constr:(F v) in let t := eval cbv beta in t in exact t
  end.

Notation "r '<|' f := v '|>'" := (ltac:(record_set r f v))
  (at level 1, left associativity, only parsing) : skynet_scope.

(** ** Automation *)

(** Case analysis on every integer comparison of the goal. *)
Ltac zcases := repeat match goal with
  | |- context [?a <=? ?b] => destruct (Z.leb_spec a b)
  | |- context [?a <? ?b] => destruct (Z.ltb_spec a b)
  | |- context [?a =? ?b] => destruct (Z.eqb_spec a b)
  end.

(** Open the next [x ← e; k] of hypothesis [H]. *)
Ltac bind_inv H :=
  lazymatch type of H with
  | context [match ?e with Some _ => _ | None => None end] =>
      let E := fresh "E" in destruct e eqn:E; [|discriminate H]
  end.

(** ** Machine integers *)

Definition u8 (x : Z) : Z := x mod 2 ^ 8.
Definition u16 (x : Z) : Z := x mod 2 ^ 16.
Definition u32 (x : Z) : Z := x mod 2 ^ 32.
Definition u64 (x : Z) : Z := x mod 2 ^ 64.

(** The value of an [int] (a [int64_t]) that holds the low bits of [x]. *)
Definition s32 (x : Z) : Z := (x + 2 ^ 31) mod 2 ^ 32 - 2 ^ 31.
Definition s64 (x : Z) : Z := (x + 2 ^ 63) mod 2 ^ 64 - 2 ^ 63.

Definition INT_MAX : Z := 2 ^ 31 - 1.
Definition INT_MIN : Z := - 2 ^ 31.
Definition INT64_MAX : Z := 2 ^ 63 - 1.
Definition INT64_MIN : Z := - 2 ^ 63.

(** Signed [int] arithmetic is defined only while the result fits. *)
Definition int_fits (x : Z) : bool := (INT_MIN <=? x) && (x <=? INT_MAX).
Definition int_chk (x : Z) : option Z := if int_fits x then Some x else None.
Definition int_add (x y : Z) : option Z := int_chk (x + y).
Definition int_sub (x y : Z) : option Z := int_chk (x - y).
Definition int_mul (x y : Z) : option Z := int_chk (x * y).

(** C's operators on [uint32_t], with their precedences. *)
Notation "x '<<ᵤ' k" := (u32 (Z.shiftl x k)) (at level 52, left associativity) : skynet_scope.
Notation "x '>>ᵤ' k" := (Z.shiftr x k) (at level 52, left associativity) : skynet_scope.
Notation "x '&ᵤ' y" := (Z.land x y) (at level 54, left associativity) : skynet_scope.
Notation "x '^ᵤ' y" := (Z.lxor x y) (at level 56, left associativity) : skynet_scope.
Notation "x '|ᵤ' y" := (Z.lor x y) (at level 58, left associativity) : skynet_scope.

(** [<<] on an [int] keeps the low bits, as GCC defines it. *)
Notation "x '<<ₛ' k" := (s32 (Z.shiftl x k)) (at level 52, left associativity) : skynet_scope.

(** A sequence of [uint8_t]s. *)
Definition bytes (l : list Z) : Prop := Forall (λ b, 0 ≤ b < 256) l.

(** The truth value of an [int]. *)
Definition truth (x : Z) : bool := negb (x =? 0).
Definition of_bool (b : bool) : Z := if b then 1 else 0.

(** ** Arrays: access is checked *)

Definition len {A} (l : list A) : Z := Z.of_nat (length l).
Definition arr_get {A} (l : list A) (i : Z) : option A :=
  if 0 <=? i then l !! Z.to_nat i else None.
Definition arr_set {A} (l : list A) (i : Z) (x : A) : option (list A) :=
  if (0 <=? i) && (i <? len l) then Some (<[Z.to_nat i := x]> l) else None.

Notation "l .[ i ]" := (arr_get l i)
  (at level 1, left associativity, format "l .[ i ]") : skynet_scope.
Notation "l .[ i <- x ]" := (arr_set l i x)
  (at level 1, left associativity, format "l .[ i <- x ]") : skynet_scope.

(** [memcpy] out of and into a block: a range outside the block aborts. *)
Definition mem_read {A} (l : list A) (off n : Z) : option (list A) :=
  if (0 <=? off) && (0 <=? n) && (off + n <=? len l)
  then Some (take (Z.to_nat n) (drop (Z.to_nat off) l)) else None.
Definition mem_write {A} (l : list A) (off : Z) (x : list A) : option (list A) :=
  if (0 <=? off) && (off + len x <=? len l)
  then Some (take (Z.to_nat off) l ++ x ++ drop (Z.to_nat (off + len x)) l) else None.

(** [p += n] on a pointer to the rest of a block. *)
Definition advance {A} (n : Z) (l : list A) : list A := drop (Z.to_nat n) l.

(** What [malloc(n)] returns: [n] bytes that are not initialised. *)
Abbreviation block := (list (option Z)).
Definition malloc (n : Z) : block := replicate (Z.to_nat n) None.

(** ** Loops *)

(** [for (i = lo; i < lo + n; i++) s = body(i, s)]. *)
Fixpoint for_loop {S} (n : nat) (lo : Z) (body : Z → S → option S) (s : S) : option S :=
  match n with
  | O => Some s
  | S n' => s' ← body lo s; for_loop n' (lo + 1) body s'
  end.

(** [for (i = lo; i < hi; i++) s = body(i, s)]. *)
Definition for_range {S} (lo hi : Z) (body : Z → S → option S) (s : S) : option S :=
  for_loop (Z.to_nat (hi - lo)) lo body s.

(** [for (i = lo; i < hi; i += step) s = body(i, s)]. *)
Definition for_step {S} (lo hi step : Z) (body : Z → S → option S) (s : S) : option S :=
  for_loop (Z.to_nat ((hi - lo + step - 1) / step)) 0 (λ j, body (lo + j * step)) s.

(** [for (i = hi; i > lo; i--) s = body(i, s)]. *)
Fixpoint for_down {S} (n : nat) (hi : Z) (body : Z → S → option S) (s : S) : option S :=
  match n with
  | O => Some s
  | S n' => s' ← body hi s; for_down n' (hi - 1) body s'
  end.

(** [while (cond(s)) s = body(s)], given up after [fuel] rounds. *)
Fixpoint while_loop {S} (fuel : nat) (cond : S → bool) (body : S → option S) (s : S) : option S :=
  match fuel with
  | O => None
  | S f => if cond s then s' ← body s; while_loop f cond body s' else Some s
  end.

(** ** Lemmas on machine integers *)

Create HintDb word.
Create Rewrite HintDb wordr.

Lemma u8_range x : 0 ≤ u8 x < 2 ^ 8.
Proof. unfold u8. apply Z.mod_pos_bound. lia. Qed.
Lemma u16_range x : 0 ≤ u16 x < 2 ^ 16.
Proof. unfold u16. apply Z.mod_pos_bound. lia. Qed.
Lemma u32_range x : 0 ≤ u32 x < 2 ^ 32.
Proof. unfold u32. apply Z.mod_pos_bound. lia. Qed.
Lemma u64_range x : 0 ≤ u64 x < 2 ^ 64.
Proof. unfold u64. apply Z.mod_pos_bound. lia. Qed.

Lemma u8_small x : 0 ≤ x < 2 ^ 8 → u8 x = x.
Proof. apply Z.mod_small. Qed.
Lemma u16_small x : 0 ≤ x < 2 ^ 16 → u16 x = x.
Proof. apply Z.mod_small. Qed.
Lemma u32_small x : 0 ≤ x < 2 ^ 32 → u32 x = x.
Proof. apply Z.mod_small. Qed.
Lemma u64_small x : 0 ≤ x < 2 ^ 64 → u64 x = x.
Proof. apply Z.mod_small. Qed.

Lemma s32_small x : - 2 ^ 31 ≤ x < 2 ^ 31 → s32 x = x.
Proof. intros H. unfold s32. rewrite Z.mod_small; lia. Qed.
Lemma s32_range x : - 2 ^ 31 ≤ s32 x < 2 ^ 31.
Proof. unfold s32. pose proof (Z.mod_pos_bound (x + 2 ^ 31) (2 ^ 32)). lia. Qed.
Lemma s64_small x : - 2 ^ 63 ≤ x < 2 ^ 63 → s64 x = x.
Proof. intros H. unfold s64. rewrite Z.mod_small; lia. Qed.

#[export] Hint Resolve u8_range u16_range u32_range u64_range s32_range : word.
#[export] Hint Rewrite u8_small u16_small u32_small u64_small s32_small s64_small
  using lia : wordr.

Lemma int_chk_Some x : INT_MIN ≤ x ≤ INT_MAX → int_chk x = Some x.
Proof.
  intros [H1 H2]. unfold int_chk, int_fits.
  apply Z.leb_le in H1, H2. by rewrite H1, H2.
Qed.
Lemma int_chk_inv x y : int_chk x = Some y → y = x ∧ INT_MIN ≤ x ≤ INT_MAX.
Proof.
  unfold int_chk, int_fits. destruct (_ && _) eqn:E; [|done].
  intros [= <-]. apply andb_prop in E as [H1 H2]. split; [done|lia].
Qed.

(** Disjoint bits add up. *)
Lemma lor_high a h k : 0 ≤ k → 0 ≤ a < 2 ^ k → Z.lor a (h * 2 ^ k) = a + h * 2 ^ k.
Proof.
  intros Hk Ha. symmetry. apply Z.add_nocarry_lor.
  rewrite <- (Z.mod_small a (2 ^ k)), <- Z.land_ones, <- Z.land_assoc by lia.
  rewrite (Z.land_comm (Z.ones k)), Z.land_ones, Z_mod_mult by done. apply Z.land_0_r.
Qed.

(** [a << 8 | b] on bytes. *)
Lemma lor_bytes a b : 0 ≤ b < 256 → Z.lor (Z.shiftl a 8) b = a * 256 + b.
Proof.
  intros Hb. rewrite Z.shiftl_mul_pow2, Z.lor_comm, lor_high by lia.
  change (2 ^ 8) with 256. lia.
Qed.

(** Masks are remainders and shifts are quotients. *)
Lemma land_mask x k : 0 ≤ k → Z.land x (2 ^ k - 1) = x mod 2 ^ k.
Proof. intros Hk. rewrite <- Z.land_ones by lia. by rewrite Z.ones_equiv. Qed.

Lemma lor_mask x k : 0 ≤ k → Z.lor x (2 ^ k - 1) = x / 2 ^ k * 2 ^ k + (2 ^ k - 1).
Proof.
  intros Hk. pose proof (Z.add_lor_land x (2 ^ k - 1)) as H.
  rewrite land_mask in H by done.
  pose proof (Z.div_mod x (2 ^ k)). pose proof (Z.pow_pos_nonneg 2 k). lia.
Qed.

Lemma lor_mask_eq x y k : 0 ≤ k →
  Z.lor x (2 ^ k - 1) = Z.lor y (2 ^ k - 1) ↔ x / 2 ^ k = y / 2 ^ k.
Proof.
  intros Hk. rewrite !lor_mask by done. pose proof (Z.pow_pos_nonneg 2 k).
  split; [|by intros ->]. intros E. apply (Z.mul_reg_r _ _ (2 ^ k)); lia.
Qed.

(** A word and its four bytes. *)
Lemma lor4 a b c d : 0 ≤ b < 256 → 0 ≤ c < 256 → 0 ≤ d < 256 →
  Z.lor (Z.lor (Z.lor (Z.shiftl a 24) (Z.shiftl b 16)) (Z.shiftl c 8)) d =
  a * 2 ^ 24 + b * 2 ^ 16 + c * 2 ^ 8 + d.
Proof.
  intros Hb Hc Hd. rewrite !Z.shiftl_mul_pow2 by lia.
  replace (Z.lor (a * 2 ^ 24) (b * 2 ^ 16)) with ((a * 2 ^ 8 + b) * 2 ^ 16); cycle 1.
  { rewrite Z.lor_comm. replace (a * 2 ^ 24) with (a * 2 ^ 8 * 2 ^ 16) by lia.
    rewrite <- !Z.shiftl_mul_pow2, <- Z.shiftl_lor, !Z.shiftl_mul_pow2 by lia.
    rewrite lor_high by lia. lia. }
  replace (Z.lor ((a * 2 ^ 8 + b) * 2 ^ 16) (c * 2 ^ 8))
    with (((a * 2 ^ 8 + b) * 2 ^ 8 + c) * 2 ^ 8); cycle 1.
  { rewrite Z.lor_comm. replace ((a * 2 ^ 8 + b) * 2 ^ 16) with ((a * 2 ^ 8 + b) * 2 ^ 8 * 2 ^ 8) by lia.
    rewrite <- !(Z.shiftl_mul_pow2 _ 8) by lia. rewrite <- Z.shiftl_lor, !Z.shiftl_mul_pow2 by lia.
    rewrite lor_high by lia. lia. }
  rewrite Z.lor_comm, lor_high by lia. lia.
Qed.

(** ** Lemmas on arrays *)

Lemma len_nonneg {A} (l : list A) : 0 ≤ len l.
Proof. unfold len. lia. Qed.

Lemma len_app {A} (l k : list A) : len (l ++ k) = len l + len k.
Proof. unfold len. rewrite length_app. lia. Qed.

Lemma len_le0 {A} (l : list A) : len l ≤ 0 → l = [].
Proof. destruct l; [done|]. unfold len. cbn. lia. Qed.

Lemma len_cons {A} (x : A) l : len (x :: l) = 1 + len l.
Proof. unfold len. simpl. lia. Qed.

Lemma arr_get_of_nat {A} (l : list A) (i : nat) : l.[Z.of_nat i] = l !! i.
Proof. unfold arr_get. rewrite (proj2 (Z.leb_le _ _)) by lia. by rewrite Nat2Z.id. Qed.

Lemma arr_get_nonneg {A} (l : list A) i : 0 ≤ i → l.[i] = l !! Z.to_nat i.
Proof. intros H. unfold arr_get. by rewrite (proj2 (Z.leb_le _ _)) by lia. Qed.

Lemma arr_get_Some {A} (l : list A) i x : l.[i] = Some x → 0 ≤ i < len l.
Proof.
  unfold arr_get. destruct (0 <=? i) eqn:E; [|done]. intros H.
  apply lookup_lt_Some in H. unfold len. lia.
Qed.

Lemma arr_get_is_Some {A} (l : list A) i : 0 ≤ i < len l → ∃ x, l.[i] = Some x.
Proof.
  intros H. rewrite arr_get_nonneg by lia. apply lookup_lt_is_Some. unfold len in H. lia.
Qed.

Lemma arr_set_Some {A} (l : list A) i x : 0 ≤ i < len l →
  l.[i <- x] = Some (<[Z.to_nat i := x]> l).
Proof.
  intros H. unfold arr_set.
  by rewrite (proj2 (Z.leb_le _ _)), (proj2 (Z.ltb_lt _ _)) by lia.
Qed.

Lemma arr_set_is_Some {A} (l : list A) i x : 0 ≤ i < len l → ∃ l', l.[i <- x] = Some l'.
Proof. intros H. eexists. by apply arr_set_Some. Qed.

Lemma arr_set_inv {A} (l l' : list A) i x : l.[i <- x] = Some l' →
  0 ≤ i < len l ∧ l' = <[Z.to_nat i := x]> l.
Proof.
  unfold arr_set. destruct (_ && _) eqn:E; [|done]. intros [= <-].
  apply andb_prop in E as [H1 H2]. split; [lia|done].
Qed.

Lemma arr_set_len {A} (l l' : list A) i x : l.[i <- x] = Some l' → len l' = len l.
Proof. intros [_ ->]%arr_set_inv. unfold len. by rewrite length_insert. Qed.

Lemma arr_get_set_eq {A} (l l' : list A) i x : l.[i <- x] = Some l' → l'.[i] = Some x.
Proof.
  intros [H ->]%arr_set_inv. rewrite arr_get_nonneg by lia.
  apply list_lookup_insert_eq. unfold len in H. lia.
Qed.

Lemma arr_get_set_ne {A} (l l' : list A) i j x :
  l.[i <- x] = Some l' → i ≠ j → l'.[j] = l.[j].
Proof.
  intros [H ->]%arr_set_inv Hne. unfold arr_get. destruct (0 <=? j) eqn:E; [|done].
  apply list_lookup_insert_ne. lia.
Qed.

Lemma arr_get_Forall {A} (P : A → Prop) (l : list A) i x :
  Forall P l → l.[i] = Some x → P x.
Proof.
  intros HF H. unfold arr_get in H. destruct (0 <=? i); [|done].
  by eapply Forall_lookup_1.
Qed.

Lemma arr_ext {A} (l k : list A) :
  len l = len k → (∀ i, 0 ≤ i < len l → l.[i] = k.[i]) → l = k.
Proof.
  intros Hl H. apply list_eq. intros i. destruct (decide (i < length l)%nat) as [Hi|Hi].
  - rewrite <- !arr_get_of_nat. apply H. unfold len. lia.
  - unfold len in Hl. rewrite !lookup_ge_None_2; [done|lia|lia].
Qed.

Lemma mem_read_app {A} (a b c : list A) off n : off = len a → n = len b →
  mem_read (a ++ b ++ c) off n = Some b.
Proof.
  intros -> ->. unfold mem_read, len. rewrite !length_app.
  rewrite !(proj2 (Z.leb_le _ _)) by lia. simpl. rewrite !Nat2Z.id, drop_app_length.
  by rewrite take_app_length.
Qed.

Lemma mem_read_prefix {A} (b c : list A) n : n = len b → mem_read (b ++ c) 0 n = Some b.
Proof. intros ->. by apply (mem_read_app []). Qed.

Lemma mem_read_whole {A} (b : list A) n : n = len b → mem_read b 0 n = Some b.
Proof. intros ->. rewrite <- (app_nil_r b) at 1. by apply mem_read_prefix. Qed.

Lemma mem_read_inv {A} (l x : list A) off n : mem_read l off n = Some x →
  ∃ a c, l = a ++ x ++ c ∧ len a = off ∧ len x = n.
Proof.
  unfold mem_read. destruct (_ && _) eqn:E; [|done]. intros [= <-].
  apply andb_prop in E as [[E1 E2]%andb_prop E3].
  exists (take (Z.to_nat off) l), (drop (Z.to_nat n) (drop (Z.to_nat off) l)).
  rewrite take_drop, take_drop. split; [done|]. unfold len in *.
  rewrite !length_take, length_drop. lia.
Qed.

Lemma mem_write_app {A} (a b c x : list A) off : off = len a → len x = len b →
  mem_write (a ++ b ++ c) off x = Some (a ++ x ++ c).
Proof.
  intros -> Hx. unfold mem_write. rewrite Hx, !len_app.
  pose proof (len_nonneg a). pose proof (len_nonneg b). pose proof (len_nonneg c).
  rewrite !(proj2 (Z.leb_le _ _)) by lia. simpl. unfold len.
  rewrite Nat2Z.id, take_app_length.
  replace (Z.to_nat _) with (length a + length b)%nat by lia.
  by rewrite <- drop_drop, drop_app_length, drop_app_length.
Qed.

Lemma mem_write_prefix {A} (b c x : list A) : len x = len b →
  mem_write (b ++ c) 0 x = Some (x ++ c).
Proof. by apply (mem_write_app []). Qed.

Lemma advance_app {A} (a b : list A) n : n = len a → advance n (a ++ b) = b.
Proof. intros ->. unfold advance, len. by rewrite Nat2Z.id, drop_app_length. Qed.

Lemma len_replicate {A} n (x : A) : 0 ≤ n → len (replicate (Z.to_nat n) x) = n.
Proof. intros H. unfold len. rewrite length_replicate. lia. Qed.

Lemma len_map {A B} (f : A → B) l : len (map f l) = len l.
Proof. unfold len. by rewrite length_map. Qed.

Lemma mapM_id_Some {A} (l : list A) : mapM id (map Some l) = Some l.
Proof. induction l as [|x l IH]; [done|]. cbn. by rewrite IH. Qed.

(** A buffer of [n] bytes whose first ones are [out]. *)
Definition filled (n : Z) (buf : block) (out : list Z) : Prop :=
  len buf = n ∧ ∃ rest, buf = map Some out ++ rest.

Lemma filled_malloc n : 0 ≤ n → filled n (malloc n) [].
Proof. intros H. split; [by apply len_replicate|by eexists]. Qed.

Lemma filled_read n buf out k : filled n buf out → k = len out →
  mem_read buf 0 k = Some (map Some out).
Proof. intros [_ [rest ->]] ->. apply mem_read_prefix. by rewrite len_map. Qed.

Lemma filled_len n buf out : filled n buf out → len out ≤ n.
Proof.
  intros [<- [rest ->]]. rewrite len_app, len_map. pose proof (len_nonneg rest). lia.
Qed.

Lemma filled_write n buf out x k : filled n buf out → k = len out → len out + len x ≤ n →
  ∃ buf', mem_write buf k (map Some x) = Some buf' ∧ filled n buf' (out ++ x).
Proof.
  intros [<- [rest ->]] -> Hx. rewrite len_app, len_map in Hx.
  rewrite <- (take_drop (Z.to_nat (len x)) rest). pose proof (len_nonneg x).
  assert (len (map Some x) = len (take (Z.to_nat (len x)) rest)) as Hl.
  { rewrite len_map. unfold len in *. rewrite length_take. lia. }
  rewrite mem_write_app; [|by rewrite len_map|done].
  eexists. split; [done|]. split.
  - by rewrite !len_app, Hl.
  - eexists. by rewrite map_app, <- app_assoc.
Qed.

Lemma arr_set_mem {A} (l : list A) i x : l.[i <- x] = mem_write l i [x].
Proof.
  unfold arr_set, mem_write. change (len [x]) with 1.
  replace (i <? len l) with (i + 1 <=? len l) by (zcases; lia).
  destruct (_ && _) eqn:E; [|done]. apply andb_prop in E as [E1 E2].
  assert (Z.to_nat i < length l)%nat as Hlt by (unfold len in *; lia).
  rewrite insert_take_drop by done.
  by replace (Z.to_nat (i + 1)) with (S (Z.to_nat i)) by lia.
Qed.

(** [buf[k] = b] behind what is filled. *)
Lemma filled_set n buf out b k : filled n buf out → k = len out → k < n →
  ∃ buf', buf.[k <- Some b] = Some buf' ∧ filled n buf' (out ++ [b]).
Proof.
  intros Hf -> Hk. rewrite arr_set_mem. apply (filled_write n buf out [b]); [done..|].
  change (len [b]) with 1. lia.
Qed.

(** Insertion into a list at a position. *)
Definition ins {A} (k : Z) (x : A) (l : list A) : list A :=
  take (Z.to_nat k) l ++ x :: drop (Z.to_nat k) l.

Lemma len_ins {A} k (x : A) l : 0 ≤ k ≤ len l → len (ins k x l) = len l + 1.
Proof.
  intros H. unfold ins, len in *. rewrite length_app, length_take. simpl. rewrite length_drop. lia.
Qed.

Lemma arr_get_ins {A} k (x : A) l i : 0 ≤ k ≤ len l → 0 ≤ i →
  (ins k x l).[i] = if i <? k then l.[i] else if i =? k then Some x else l.[i - 1].
Proof.
  intros Hk Hi. unfold ins, len in *. rewrite arr_get_nonneg by done.
  destruct (Z.ltb_spec i k).
  - rewrite lookup_app_l by (rewrite length_take; lia).
    rewrite lookup_take, arr_get_nonneg by lia. by rewrite decide_True by lia.
  - rewrite lookup_app_r by (rewrite length_take; lia). rewrite length_take.
    destruct (Z.eqb_spec i k) as [->|Hne].
    + by replace (Z.to_nat k - Z.to_nat k `min` length l)%nat with 0%nat by lia.
    + rewrite arr_get_nonneg by lia.
      replace (Z.to_nat i - Z.to_nat k `min` length l)%nat
        with (S (Z.to_nat (i - 1) - Z.to_nat k)) by lia.
      simpl. rewrite lookup_drop. f_equal. lia.
Qed.

(** Different indices of a list are no more than its elements. *)
Lemma cells_bound {A} (c : list A) (l : list Z) : NoDup l → (∀ p, p ∈ l → 0 ≤ p < len c) → (length l ≤ length c)%nat.
Proof.
  intros Hd Hb. transitivity (length (map Z.of_nat (seq 0 (length c)))).
  - apply submseteq_length, NoDup_submseteq; [done|]. intros p Hp. apply list_elem_of_In, List.in_map_iff.
    exists (Z.to_nat p). specialize (Hb p Hp). split; [lia|]. apply List.in_seq. unfold len in Hb. lia.
  - by rewrite length_map, length_seq.
Qed.

Lemma cell_outside {A} (c : list A) (l : list Z) : (length l < length c)%nat → ∃ p, 0 ≤ p < len c ∧ p ∉ l.
Proof.
  intros Hl. destruct (decide (Forall (λ p, p ∈ l) (map Z.of_nat (seq 0 (length c))))) as [H|H].
  - exfalso. apply (Nat.lt_irrefl (length l)). apply (Nat.lt_le_trans _ _ _ Hl).
    rewrite <- (length_seq (length c) 0), <- (length_map Z.of_nat). apply submseteq_length, NoDup_submseteq.
    + apply NoDup_fmap_2; [apply _|apply NoDup_seq].
    + intros p. apply (proj1 (Forall_forall _ _) H).
  - apply not_Forall_Exists, Exists_exists in H as (p & Hp & Hn); [|apply _]. exists p. split; [|done].
    apply list_elem_of_In, List.in_map_iff in Hp as (i & <- & Hi%List.in_seq). unfold len. lia.
Qed.

(** ** Lemmas on loops *)

Lemma for_loop_inv {S} (P : Z → S → Prop) n lo (body : Z → S → option S) s :
  P lo s →
  (∀ i s, lo ≤ i < lo + Z.of_nat n → P i s → ∃ s', body i s = Some s' ∧ P (i + 1) s') →
  ∃ s', for_loop n lo body s = Some s' ∧ P (lo + Z.of_nat n) s'.
Proof.
  revert lo s. induction n as [|n IH]; intros lo s HP Hb; simpl.
  - exists s. split; [done|]. by rewrite Z.add_0_r.
  - destruct (Hb lo s) as (s1 & E & HP1); [lia|done|]. rewrite E. simpl.
    destruct (IH (lo + 1) s1) as (s2 & E2 & HP2); [done| |].
    + intros i s' Hi. apply Hb. lia.
    + exists s2. split; [done|]. by replace (lo + Z.of_nat (Datatypes.S n)) with (lo + 1 + Z.of_nat n) by lia.
Qed.

Lemma for_range_inv {S} (P : Z → S → Prop) lo hi (body : Z → S → option S) s :
  lo ≤ hi → P lo s →
  (∀ i s, lo ≤ i < hi → P i s → ∃ s', body i s = Some s' ∧ P (i + 1) s') →
  ∃ s', for_range lo hi body s = Some s' ∧ P hi s'.
Proof.
  intros Hle HP Hb. unfold for_range.
  destruct (for_loop_inv P (Z.to_nat (hi - lo)) lo body s) as (s' & E & H); [done| |].
  - intros i s1 Hi. apply Hb. lia.
  - exists s'. split; [done|]. by replace hi with (lo + Z.of_nat (Z.to_nat (hi - lo))) by lia.
Qed.

Lemma for_down_inv {S} (P : Z → S → Prop) n hi (body : Z → S → option S) s :
  P hi s →
  (∀ i s, hi - Z.of_nat n < i ≤ hi → P i s → ∃ s', body i s = Some s' ∧ P (i - 1) s') →
  ∃ s', for_down n hi body s = Some s' ∧ P (hi - Z.of_nat n) s'.
Proof.
  revert hi s. induction n as [|n IH]; intros hi s HP Hb; simpl.
  - exists s. split; [done|]. by rewrite Z.sub_0_r.
  - destruct (Hb hi s) as (s1 & E & HP1); [lia|done|]. rewrite E.
    destruct (IH (hi - 1) s1) as (s2 & E2 & HP2); [done| |].
    + intros i s' Hi. apply Hb. lia.
    + exists s2. split; [done|]. by replace (hi - Z.of_nat (Datatypes.S n)) with (hi - 1 - Z.of_nat n) by lia.
Qed.

Lemma for_step_inv {S} (P : Z → S → Prop) lo hi step (body : Z → S → option S) s n :
  n = (hi - lo + step - 1) / step → 0 < step → 0 ≤ n → P 0 s →
  (∀ j s, 0 ≤ j < n → P j s → ∃ s', body (lo + j * step) s = Some s' ∧ P (j + 1) s') →
  ∃ s', for_step lo hi step body s = Some s' ∧ P n s'.
Proof.
  intros E Hs Hn HP Hb. unfold for_step. rewrite <- E.
  destruct (for_loop_inv P (Z.to_nat n) 0 (λ j, body (lo + j * step)) s) as (s' & E' & H); [done| |].
  - intros j s1 Hj. apply Hb. lia.
  - exists s'. split; [done|]. by replace n with (0 + Z.of_nat (Z.to_nat n)) by lia.
Qed.

(** A loop whose measure drops at each round ends in fewer rounds than it starts with. *)
Lemma while_loop_inv {S} (P : S → Prop) (m : S → Z) cond body fuel (s : S) :
  P s → m s + 1 < Z.of_nat fuel →
  (∀ s, P s → cond s = true → 0 ≤ m s ∧ ∃ s', body s = Some s' ∧ P s' ∧ m s' < m s) →
  (0 < fuel)%nat →
  ∃ s', while_loop fuel cond body s = Some s' ∧ P s' ∧ cond s' = false.
Proof.
  revert s. induction fuel as [|fuel IH]; intros s HP Hm Hb Hf; [lia|]. simpl.
  destruct (cond s) eqn:E; [|by exists s].
  destruct (Hb s HP E) as (H0 & s1 & -> & HP1 & Hlt). simpl.
  apply IH; [done|lia|done|lia].
Qed.

(** ** Arithmetic *)

(** The index of a ring buffer: one wrap is enough. *)
Lemma mod_wrap x c : 0 ≤ x < 2 * c → x mod c = if x <? c then x else x - c.
Proof.
  intros H. destruct (Z.ltb_spec x c); [apply Z.mod_small; lia|].
  symmetry. apply Z.mod_unique with 1; lia.
Qed.

(** ** Ring buffers *)

(** [cap] slots hold [l] from slot [head] on. *)
Record ring {A} (cap head : Z) (slots : list (option A)) (l : list A) : Prop := {
  ring_cap : len slots = cap;
  ring_head : 0 ≤ head < cap;
  ring_fits : len l ≤ cap;
  ring_slot i x : l.[i] = Some x → slots.[(head + i) mod cap] = Some (Some x)
}.

Lemma ring_push {A} cap head (slots slots' : list (option A)) l x :
  ring cap head slots l → len l < cap →
  slots.[(head + len l) mod cap <- Some x] = Some slots' → ring cap head slots' (l ++ [x]).
Proof.
  intros [Hc Hh Hf Hs] Hl E. split; [by erewrite arr_set_len|done|rewrite len_app; unfold len at 2; simpl; lia|].
  intros i y Hi. pose proof (arr_get_Some _ _ _ Hi) as Hr. rewrite len_app in Hr.
  unfold len at 2 in Hr. simpl in Hr.
  rewrite arr_get_nonneg in Hi by lia. rewrite lookup_app_Some in Hi.
  destruct Hi as [Hi|[Hge Hi]].
  - pose proof (lookup_lt_Some _ _ _ Hi). rewrite <- arr_get_nonneg in Hi by lia.
    erewrite arr_get_set_ne; [by apply Hs|done|].
    unfold len in *. rewrite !mod_wrap by lia. zcases; lia.
  - assert (i = len l) as -> by (unfold len in *; lia).
    unfold len in Hi. rewrite Nat2Z.id, Nat.sub_diag in Hi. injection Hi as <-.
    by eapply arr_get_set_eq.
Qed.

Lemma ring_pop {A} cap head (slots : list (option A)) l x :
  ring cap head slots (x :: l) →
  slots.[head] = Some (Some x) ∧ ring cap (if cap <=? head + 1 then 0 else head + 1) slots l.
Proof.
  intros [Hc Hh Hf Hs]. rewrite len_cons in Hf. pose proof (len_nonneg l).
  assert ((if cap <=? head + 1 then 0 else head + 1) = (head + 1) mod cap) as ->.
  { rewrite mod_wrap by lia. zcases; lia. }
  split.
  - specialize (Hs 0 x eq_refl). by rewrite Z.add_0_r, Z.mod_small in Hs.
  - split; [done|apply Z.mod_pos_bound; lia|lia|].
    intros i y Hi. pose proof (arr_get_Some _ _ _ Hi).
    rewrite Zplus_mod_idemp_l, <- Z.add_assoc. apply Hs.
    rewrite arr_get_nonneg in Hi |- * by lia.
    by replace (Z.to_nat (1 + i)) with (S (Z.to_nat i)) by lia.
Qed.

(** ** Filters *)

Lemma filter_all {A} (P : A → Prop) `{∀ x, Decision (P x)} (l : list A) :
  Forall P l → filter P l = l.
Proof. induction 1 as [|x l Hx _ IH]; [done|]. by rewrite filter_cons_True, IH. Qed.

Lemma filter_none {A} (P : A → Prop) `{∀ x, Decision (P x)} (l : list A) :
  Forall (λ x, ¬ P x) l → filter P l = [].
Proof. induction 1 as [|x l Hx _ IH]; [done|]. by rewrite filter_cons_False. Qed.

Lemma filter_iff {A} (P Q : A → Prop) `{∀ x, Decision (P x)} `{∀ x, Decision (Q x)} (l : list A) :
  (∀ x, x ∈ l → P x ↔ Q x) → filter P l = filter Q l.
Proof.
  induction l as [|x l IH]; intros H1; [done|]. rewrite !filter_cons.
  assert (P x ↔ Q x) as Hx by (apply H1; by left).
  rewrite IH by (intros y Hy; apply H1; by right).
  destruct (decide (P x)), (decide (Q x)); done || tauto.
Qed.

(** A split of a list by a predicate is the predicate's two filters. *)
Lemma filter_split {A} (P : A → Prop) `{∀ x, Decision (P x)} (l d r : list A) :
  l ≡ₚ d ++ r → Forall P d → Forall (λ x, ¬ P x) r →
  filter P l ≡ₚ d ∧ filter (λ x, ¬ P x) l ≡ₚ r.
Proof.
  intros Hp Hd Hr. rewrite !Hp, !filter_app.
  rewrite (filter_all P d), (filter_none P r), (filter_all _ r), (filter_none _ d); try done.
  - by rewrite app_nil_r.
  - eapply Forall_impl; [exact Hd|]. intros x Hx HN. by apply HN.
Qed.

(** ** Concatenation up to permutation *)

Lemma concat_insert {A} (ll : list (list A)) i x y :
  ll !! i = Some x → concat (<[i:=y]> ll) ++ x ≡ₚ concat ll ++ y.
Proof.
  revert i. induction ll as [|z ll IH]; intros [|i]; simpl; try done.
  - intros [= ->]. rewrite <- !app_assoc, (Permutation_app_comm y), (Permutation_app_comm x).
    rewrite <- !app_assoc. f_equiv. apply Permutation_app_comm.
  - intros H. rewrite <- !app_assoc. by rewrite IH.
Qed.

Lemma concat_Permutation {A} (l k : list (list A)) : l ≡ₚ k → concat l ≡ₚ concat k.
Proof.
  induction 1 as [|x l k _ IH|x y l|l k m _ IH1 _ IH2]; simpl; [done|by rewrite IH| |by etrans].
  by rewrite !app_assoc, (Permutation_app_comm x).
Qed.

(** ** Integers in memory *)

(** The [n] low bytes of [x], the lowest first; a negative [x] in two's
    complement. *)
Fixpoint le_bytes (n : nat) (x : Z) : list Z :=
  match n with O => [] | S n => x mod 256 :: le_bytes n (x / 256) end.

(** The unsigned integer stored in a sequence of bytes. *)
Fixpoint of_le (l : list Z) : Z :=
  match l with [] => 0 | b :: l => b + 256 * of_le l end.

Lemma length_le n x : length (le_bytes n x) = n.
Proof. revert x. induction n as [|n IH]; intros x; simpl; [done|by rewrite IH]. Qed.

Lemma len_le n x : len (le_bytes n x) = Z.of_nat n.
Proof. unfold len. by rewrite length_le. Qed.

Lemma le_bytes_range n x : bytes (le_bytes n x).
Proof.
  revert x. induction n as [|n IH]; intros x; simpl; [constructor|].
  constructor; [apply Z.mod_pos_bound; lia|apply IH].
Qed.

Lemma of_le_bytes n x : of_le (le_bytes n x) = x mod 256 ^ Z.of_nat n.
Proof.
  revert x. induction n as [|n IH]; intros x; [by rewrite Z.mod_1_r|].
  cbn [le_bytes of_le]. rewrite IH, Nat2Z.inj_succ, Z.pow_succ_r by lia.
  by rewrite Z.rem_mul_r by lia.
Qed.

Lemma of_le_range l : bytes l → 0 ≤ of_le l < 256 ^ len l.
Proof.
  induction 1 as [|b l Hb _ IH]; [by split|]. cbn [of_le].
  rewrite len_cons, Z.pow_add_r by (pose proof (len_nonneg l); lia). lia.
Qed.

(** The bytes of a [uint32_t], put together with shifts of [int]s. *)
Lemma u32_lor_s32 a y : 0 ≤ a < 2 ^ 32 → u32 (Z.lor a (s32 y)) = Z.lor a (u32 y).
Proof.
  intros Ha. assert (u32 (s32 y) = u32 y) as E.
  { unfold u32, s32. rewrite Zminus_mod, Z.mod_mod, <- Zminus_mod by lia. f_equal. lia. }
  rewrite <- E. unfold u32. rewrite <- !Z.land_ones by lia. apply Z.bits_inj'. intros i Hi.
  rewrite !Z.land_spec, !Z.lor_spec, !Z.land_spec.
  destruct (Z.ltb_spec i 32).
  - rewrite Z.ones_spec_low, !andb_true_r by lia. done.
  - rewrite Z.ones_spec_high, !andb_false_r by lia.
    rewrite <- (Z.mod_small a (2 ^ 32)), Z.mod_pow2_bits_high by lia. done.
Qed.

Lemma word_of_bytes a b c d : bytes [a; b; c; d] →
  u32 (a |ᵤ b <<ₛ 8 |ᵤ c <<ₛ 16 |ᵤ d <<ₛ 24) = of_le [a; b; c; d].
Proof.
  intros H. unfold bytes in H. rewrite !Forall_cons in H. destruct H as (Ha & Hb & Hc & Hd & _).
  rewrite (s32_small (Z.shiftl b 8)), (s32_small (Z.shiftl c 16)) by (rewrite Z.shiftl_mul_pow2 by lia; lia).
  assert (Z.lor (Z.lor a (Z.shiftl b 8)) (Z.shiftl c 16) = a + b * 2 ^ 8 + c * 2 ^ 16) as E.
  { rewrite !Z.shiftl_mul_pow2 by lia. rewrite (lor_high a b 8), lor_high by lia. lia. }
  rewrite E, u32_lor_s32, u32_small by (rewrite ?Z.shiftl_mul_pow2; lia).
  rewrite Z.shiftl_mul_pow2, lor_high by lia. cbn [of_le]. lia.
Qed.

#[export] Hint Resolve le_bytes_range : word.
#[export] Hint Rewrite len_le of_le_bytes : wordr.

(** ** Bytes and cells of packages *)

Lemma len_nil {A} : len (@nil A) = 0.
Proof. done. Qed.

(** Lengths of concatenations. *)
Ltac lens := repeat first [rewrite len_app|rewrite len_cons|rewrite len_le|rewrite len_map|rewrite len_nil]; try lia.

Lemma low_byte x : Z.land x 0xff = x mod 256.
Proof. change 0xff with (2 ^ 8 - 1). by rewrite land_mask by lia. Qed.

Lemma byte_at x k : 0 ≤ k → Z.land (Z.shiftr x k) 0xff = x / 2 ^ k mod 256.
Proof. intros Hk. by rewrite low_byte, Z.shiftr_div_pow2 by done. Qed.

Lemma word_cells x : [Z.land x 0xff; Z.land (Z.shiftr x 8) 0xff; Z.land (Z.shiftr x 16) 0xff; Z.land (Z.shiftr x 24) 0xff] = le_bytes 4 x.
Proof.
  rewrite !byte_at, low_byte by lia. cbn [le_bytes]. rewrite !Z.div_div by lia. done.
Qed.

Lemma set_cell {A} (a c : list A) y x k : k = len a → (a ++ y :: c).[k <- x] = Some (a ++ x :: c).
Proof. intros ->. rewrite arr_set_mem. by apply (mem_write_app a [y] c [x]). Qed.

Lemma get_cell {A} (a c : list A) y k : k = len a → (a ++ y :: c).[k] = Some y.
Proof.
  intros ->. rewrite arr_get_nonneg by apply len_nonneg. unfold len. rewrite Nat2Z.id. by apply list_lookup_middle.
Qed.

(** For a list that is only convertible to such a concatenation. *)
Lemma read_at {A} (l a b c : list A) k n : l = a ++ b ++ c → k = len a → n = len b → mem_read l k n = Some b.
Proof. intros ->. apply mem_read_app. Qed.

Lemma mem_read_some {A} (l : list A) k n : 0 ≤ k → 0 ≤ n → k + n ≤ len l → ∃ x, mem_read l k n = Some x.
Proof. intros H1 H2 H3. unfold mem_read. rewrite !(proj2 (Z.leb_le _ _)) by lia. by eexists. Qed.

Lemma mem_read_map {A B} (f : A → B) (a b c : list A) off n : off = len a → n = len b →
  mem_read (map f (a ++ b ++ c)) off n = Some (map f b).
Proof. intros -> ->. rewrite !map_app. apply mem_read_app; by rewrite len_map. Qed.

(** Concatenations that only differ in their brackets. *)
Ltac glue := repeat rewrite <- app_assoc; reflexivity.

(** ** Text *)

(** The bytes of a string constant. *)
Definition str (s : string) : list Z := map (λ c, Z.of_nat (Ascii.nat_of_ascii c)) (String.list_ascii_of_string s).

(** ** Reachability *)

(** What a step keeps holds wherever a run can get. *)
Lemma rtc_invariant {A} (R : relation A) (I : A → Prop) x y :
  I x → (∀ a b, I a → R a b → I b) → rtc R x y → I y.
Proof. intros Hx Hs H. induction H as [|x y z Hr _ IH]; [done|]. apply IH. by eapply Hs. Qed.
