(* ===== verification/MessageQueue.v ===== *)
(** * Message queues: skynet-src/skynet_mq.c

    Each service owns a [message_queue], a ring buffer of [skynet_message]s
    that doubles when it is full; the queues that have work are chained by
    their [next] pointers in one [global_queue].  The state is the heap of
    queues with the two global pointers; an operation is a function on it that
    is [None] where the C code would fail an assertion, overflow an [int] or
    read outside a block.  The spin locks make each operation one step, so
    the concurrent part is a step relation over these operations.  *)

From S2P Require Import Prelude.

Definition DEFAULT_QUEUE_SIZE : Z := 64.
Definition MQ_IN_GLOBAL : Z := 1.
Definition MQ_OVERLOAD : Z := 1024.

Record skynet_message := Message {
  msg_source : Z; msg_session : Z; msg_data : Z; msg_sz : Z
}.

(** A slot of the freshly allocated array is [None]: it is not initialised. *)
Record message_queue := MQ {
  mq_handle : Z;
  mq_cap : Z;
  mq_head : Z;
  mq_tail : Z;
  mq_release : Z;
  mq_in_global : Z;
  mq_overload : Z;
  mq_overload_threshold : Z;
  mq_queue : list (option skynet_message);
  mq_next : option positive
}.

#[export] Instance eta_message_queue : Eta message_queue := λ q,
  MQ (mq_handle q) (mq_cap q) (mq_head q) (mq_tail q) (mq_release q) (mq_in_global q)
     (mq_overload q) (mq_overload_threshold q) (mq_queue q) (mq_next q).

(** The heap of queues and [struct global_queue]. *)
Record mq_state := MQS {
  heap : gmap positive message_queue;
  gq_head : option positive;
  gq_tail : option positive
}.

#[export] Instance eta_mq_state : Eta mq_state := λ s, MQS (heap s) (gq_head s) (gq_tail s).

(** ** One queue *)

Definition mq_new (handle : Z) : message_queue :=
  {| mq_handle := handle;
     mq_cap := DEFAULT_QUEUE_SIZE;
     mq_head := 0;
     mq_tail := 0;
     mq_in_global := MQ_IN_GLOBAL;
     mq_release := 0;
     mq_overload := 0;
     mq_overload_threshold := MQ_OVERLOAD;
     mq_queue := replicate (Z.to_nat DEFAULT_QUEUE_SIZE) None;
     mq_next := None |}.

Definition skynet_mq_length (q : message_queue) : Z :=
  if mq_head q <=? mq_tail q then mq_tail q - mq_head q
  else mq_tail q + mq_cap q - mq_head q.

Definition skynet_mq_overload (q : message_queue) : Z * message_queue :=
  if truth (mq_overload q) then (mq_overload q, q <| mq_overload := 0 |>) else (0, q).

(** [while (length > q->overload_threshold)] of [skynet_mq_pop]. *)
Definition overload_loop (length : Z) : message_queue → option message_queue :=
  while_loop 64 (λ q, mq_overload_threshold q <? length)
    (λ q, t ← int_mul (mq_overload_threshold q) 2;
          Some (q <| mq_overload := length |> <| mq_overload_threshold := t |>)).

(** [ret] is 0 with a message, or 1. *)
Definition mq_pop (q : message_queue) : option (Z * option skynet_message * message_queue) :=
  if negb (mq_head q =? mq_tail q) then
    slot ← (mq_queue q).[mq_head q];
    message ← slot;
    head ← int_add (mq_head q) 1;
    let q := q <| mq_head := head |> in
    let tail := mq_tail q in
    let cap := mq_cap q in
    let head := if cap <=? head then 0 else head in
    let q := q <| mq_head := head |> in
    let length := tail - head in
    let length := if length <? 0 then length + cap else length in
    q ← overload_loop length q;
    Some (0, Some message, q)
  else
    let q := q <| mq_overload_threshold := MQ_OVERLOAD |> in
    Some (1, None, q <| mq_in_global := 0 |>).

Definition expand_queue (q : message_queue) : option message_queue :=
  cap2 ← int_mul (mq_cap q) 2;
  let new_queue : list (option skynet_message) := replicate (Z.to_nat cap2) None in
  new_queue ← for_range 0 (mq_cap q) (λ i new_queue,
    j ← int_add (mq_head q) i;
    slot ← (mq_queue q).[Z.rem j (mq_cap q)];
    new_queue.[i <- slot]) new_queue;
  let q := q <| mq_head := 0 |> in
  let q := q <| mq_tail := mq_cap q |> in
  let q := q <| mq_cap := cap2 |> in
  Some (q <| mq_queue := new_queue |>).

(** The part of [skynet_mq_push] before the queue is made global. *)
Definition mq_enqueue (q : message_queue) (message : skynet_message) : option message_queue :=
  queue ← (mq_queue q).[mq_tail q <- Some message];
  let q := q <| mq_queue := queue |> in
  tail ← int_add (mq_tail q) 1;
  let q := q <| mq_tail := tail |> in
  let q := if mq_cap q <=? mq_tail q then q <| mq_tail := 0 |> else q in
  if mq_head q =? mq_tail q then expand_queue q else Some q.

(** ** The heap and the global queue *)

Definition deref (p : positive) (s : mq_state) : option message_queue := heap s !! p.

Definition store (p : positive) (q : message_queue) (s : mq_state) : mq_state :=
  s <| heap := <[p := q]> (heap s) |>.

Definition skynet_globalmq_push (queue : positive) (s : mq_state) : option mq_state :=
  q ← deref queue s;
  assert! negb (bool_decide (is_Some (mq_next q)));
  match gq_tail s with
  | Some tail =>
      t ← deref tail s;
      let s := store tail (t <| mq_next := Some queue |>) s in
      Some (s <| gq_tail := Some queue |>)
  | None => Some (s <| gq_tail := Some queue |> <| gq_head := Some queue |>)
  end.

Definition skynet_globalmq_pop (s : mq_state) : option (option positive * mq_state) :=
  match gq_head s with
  | Some mq =>
      q ← deref mq s;
      let s := s <| gq_head := mq_next q |> in
      s ← match gq_head s with
          | None => assert! bool_decide (gq_tail s = Some mq);
                    Some (s <| gq_tail := (None : option positive) |>)
          | Some _ => Some s
          end;
      Some (Some mq, store mq (q <| mq_next := (None : option positive) |>) s)
  | None => Some (None, s)
  end.

Definition skynet_mq_create (handle : Z) (s : mq_state) : positive * mq_state :=
  let q := fresh (dom (heap s)) in
  (q, store q (mq_new handle) s).

Definition _release (p : positive) (s : mq_state) : option mq_state :=
  q ← deref p s;
  assert! negb (bool_decide (is_Some (mq_next q)));
  Some (s <| heap := delete p (heap s) |>).

Definition skynet_mq_pop (p : positive) (s : mq_state)
    : option (Z * option skynet_message * mq_state) :=
  q ← deref p s;
  '(ret, message, q) ← mq_pop q;
  Some (ret, message, store p q s).

Definition skynet_mq_push (p : positive) (message : skynet_message) (s : mq_state)
    : option mq_state :=
  q ← deref p s;
  q ← mq_enqueue q message;
  if mq_in_global q =? 0 then
    skynet_globalmq_push p (store p (q <| mq_in_global := MQ_IN_GLOBAL |>) s)
  else Some (store p q s).

Definition skynet_mq_init : mq_state := {| heap := ∅; gq_head := None; gq_tail := None |}.

Definition skynet_mq_mark_release (p : positive) (s : mq_state) : option mq_state :=
  q ← deref p s;
  assert! mq_release q =? 0;
  let q := q <| mq_release := 1 |> in
  let s := store p q s in
  if negb (mq_in_global q =? MQ_IN_GLOBAL) then skynet_globalmq_push p s else Some s.

(** [drop_func] is called on each message: the calls are returned in order.
    The loop ends within as many rounds as the queue has messages, so [fuel]
    is the length of the queue plus one. *)
Fixpoint drop_loop (fuel : nat) (p : positive) (s : mq_state)
    : option (list skynet_message * mq_state) :=
  match fuel with
  | O => None
  | S fuel =>
      '(_, message, s) ← skynet_mq_pop p s;
      match message with
      | Some msg => '(rest, s) ← drop_loop fuel p s; Some (msg :: rest, s)
      | None => Some ([], s)
      end
  end.

Definition _drop_queue (p : positive) (s : mq_state)
    : option (list skynet_message * mq_state) :=
  q ← deref p s;
  '(dropped, s) ← drop_loop (S (Z.to_nat (skynet_mq_length q))) p s;
  s ← _release p s;
  Some (dropped, s).

Definition skynet_mq_release (p : positive) (s : mq_state)
    : option (list skynet_message * mq_state) :=
  q ← deref p s;
  if truth (mq_release q) then _drop_queue p s
  else s ← skynet_globalmq_push p s; Some ([], s).

(** ** The queue as a list of messages *)

(** The block has [cap] slots, [cap] is a power of two that fits an [int] and
    the indices are inside. *)
Record mq_wf (q : message_queue) : Prop := {
  wf_cap : ∃ k, 6 ≤ k ≤ 30 ∧ mq_cap q = 2 ^ k;
  wf_len : len (mq_queue q) = mq_cap q;
  wf_head : 0 ≤ mq_head q < mq_cap q;
  wf_tail : 0 ≤ mq_tail q < mq_cap q;
  wf_threshold : 0 < mq_overload_threshold q
}.

(** [q] holds the messages [l], oldest first: the live slots run from [head]
    to [tail] around the ring and each is initialised. *)
Record mq_repr (q : message_queue) (l : list skynet_message) : Prop := {
  repr_wf : mq_wf q;
  repr_len : len l = skynet_mq_length q;
  repr_slot i m : l.[i] = Some m →
    (mq_queue q).[(mq_head q + i) mod mq_cap q] = Some (Some m)
}.

Lemma wf_cap_bounds q : mq_wf q → 64 ≤ mq_cap q ≤ 2 ^ 30.
Proof.
  intros H. destruct (wf_cap q H) as (k & Hk & ->).
  change 64 with (2 ^ 6). split; apply Z.pow_le_mono_r; lia.
Qed.

Lemma length_bounds q : mq_wf q → 0 ≤ skynet_mq_length q < mq_cap q.
Proof.
  intros H. pose proof (wf_head q H). pose proof (wf_tail q H).
  unfold skynet_mq_length. destruct (Z.leb_spec (mq_head q) (mq_tail q)); lia.
Qed.

Lemma length_0 q : mq_wf q → skynet_mq_length q = 0 ↔ mq_head q = mq_tail q.
Proof.
  intros H. pose proof (wf_head q H). pose proof (wf_tail q H).
  unfold skynet_mq_length. destruct (Z.leb_spec (mq_head q) (mq_tail q)); lia.
Qed.

(** [tail] is [length] slots after [head]. *)
Lemma tail_spec q : mq_wf q → (mq_head q + skynet_mq_length q) mod mq_cap q = mq_tail q.
Proof.
  intros H. pose proof (wf_head q H). pose proof (wf_tail q H).
  pose proof (length_bounds q H). rewrite mod_wrap by lia.
  unfold skynet_mq_length in *. zcases; lia.
Qed.

Lemma repr_functional q l1 l2 : mq_repr q l1 → mq_repr q l2 → l1 = l2.
Proof.
  intros H1 H2. apply arr_ext; [by rewrite (repr_len _ _ H1), (repr_len _ _ H2)|].
  intros i Hi. destruct (arr_get_is_Some l1 i Hi) as [m1 E1].
  rewrite (repr_len _ _ H1), <- (repr_len _ _ H2) in Hi.
  destruct (arr_get_is_Some l2 i Hi) as [m2 E2].
  pose proof (repr_slot _ _ H1 _ _ E1). pose proof (repr_slot _ _ H2 _ _ E2). congruence.
Qed.

Lemma mq_new_repr handle : mq_repr (mq_new handle) [].
Proof.
  split; [split; simpl; try (unfold MQ_OVERLOAD, DEFAULT_QUEUE_SIZE; lia)|done|].
  - exists 6. unfold DEFAULT_QUEUE_SIZE. lia.
  - done.
  - intros i m. unfold arr_get. by destruct (0 <=? i).
Qed.

Lemma repr_nil q : mq_repr q [] ↔ mq_wf q ∧ mq_head q = mq_tail q.
Proof.
  split.
  - intros H. split; [apply H|]. apply length_0; [apply H|].
    by rewrite <- (repr_len _ _ H).
  - intros [H E]. split; [done|by rewrite (proj2 (length_0 q H) E)|].
    intros i m. unfold arr_get. by destruct (0 <=? i).
Qed.

(** ** [skynet_mq_push] appends *)

Definition ring_next (q : message_queue) (i : Z) : Z := if mq_cap q <=? i + 1 then 0 else i + 1.

Lemma ring_next_mod q i : 0 ≤ i < mq_cap q → ring_next q i = (i + 1) mod mq_cap q.
Proof.
  intros H. unfold ring_next. destruct (Z.leb_spec (mq_cap q) (i + 1)).
  - replace (i + 1) with (mq_cap q) by lia. symmetry. apply Z.mod_same. lia.
  - symmetry. apply Z.mod_small. lia.
Qed.

(** Doubling a full ring lays the messages out from slot 0. *)
Lemma expand_queue_repr q l :
  mq_wf q → mq_head q = mq_tail q → mq_cap q < 2 ^ 30 →
  len l = mq_cap q →
  (∀ i m, l.[i] = Some m → (mq_queue q).[(mq_head q + i) mod mq_cap q] = Some (Some m)) →
  ∃ q', expand_queue q = Some q' ∧ mq_repr q' l ∧ mq_cap q' = 2 * mq_cap q
        ∧ mq_in_global q' = mq_in_global q ∧ mq_release q' = mq_release q
        ∧ mq_next q' = mq_next q ∧ mq_handle q' = mq_handle q.
Proof.
  intros Hwf Hht Hcap Hl Hslot. pose proof (wf_cap_bounds q Hwf) as Hc.
  pose proof (wf_head q Hwf) as Hh. unfold expand_queue.
  unfold int_mul. rewrite int_chk_Some by (unfold INT_MIN, INT_MAX; lia).
  edestruct (for_range_inv (λ i nq, len nq = mq_cap q * 2 ∧
      ∀ j m, 0 ≤ j < i → l.[j] = Some m → nq.[j] = Some (Some m)))
    as (nq & E & Hlen & Hnq); cycle 3.
  - erewrite E. eexists. split; [done|]. simpl.
    split; [|repeat split; simpl; lia].
    split; simpl.
    + destruct (wf_cap q Hwf) as (k & Hk & Ek). split; simpl; try lia.
      * exists (k + 1). rewrite Ek in Hcap |- *.
        apply Z.pow_lt_mono_r_iff in Hcap; [|lia|lia].
        rewrite Z.pow_add_r by lia. lia.
      * apply (wf_threshold q Hwf).
    + unfold skynet_mq_length. simpl. rewrite (proj2 (Z.leb_le _ _)) by lia. lia.
    + intros i m Hi. pose proof (arr_get_Some _ _ _ Hi).
      rewrite Z.mod_small by lia. apply Hnq; [lia|done].
  - lia.
  - split; [|lia]. unfold len. rewrite length_replicate. lia.
  - intros i nq Hi (Hlen & Hnq).
    unfold int_add. rewrite int_chk_Some by (unfold INT_MIN, INT_MAX; lia).
    rewrite Z.rem_mod_nonneg by lia.
    destruct (arr_get_is_Some l i) as [m Em]; [lia|].
    rewrite (Hslot i m Em).
    rewrite arr_set_Some by lia. eexists. split; [done|]. split.
    + unfold len in *. by rewrite length_insert.
    + intros j m' Hj Em'. destruct (decide (j = i)) as [->|Hne].
      * erewrite arr_get_set_eq; [|apply arr_set_Some; lia]. congruence.
      * erewrite arr_get_set_ne; [|apply (arr_set_Some _ i); lia|done]. apply Hnq; [lia|done].
Qed.

(** The slots after the store at [tail], read from [head]. *)
Lemma enqueue_slots q l m queue :
  mq_repr q l → (mq_queue q).[mq_tail q <- Some m] = Some queue →
  ∀ i m', (l ++ [m]).[i] = Some m' →
  queue.[(mq_head q + i) mod mq_cap q] = Some (Some m').
Proof.
  intros H Hset i m' Hi. pose proof (repr_wf _ _ H) as Hwf.
  pose proof (length_bounds q Hwf) as Hb. pose proof (repr_len _ _ H) as Hl.
  pose proof (arr_get_Some _ _ _ Hi) as Hr. rewrite len_app, len_cons in Hr.
  change (len (@nil skynet_message)) with 0 in Hr.
  rewrite arr_get_nonneg in Hi by lia. rewrite lookup_app_Some in Hi.
  destruct Hi as [Hi|[Hge Hi]].
  - pose proof (lookup_lt_Some _ _ _ Hi) as Hlt.
    rewrite <- arr_get_nonneg in Hi by lia.
    erewrite arr_get_set_ne; [by apply (repr_slot _ _ H)|done|].
    rewrite <- (tail_spec q Hwf). pose proof (wf_head q Hwf).
    unfold len in *. rewrite !mod_wrap by lia. zcases; lia.
  - assert (i = len l) as -> by (unfold len in *; lia).
    unfold len in Hi. rewrite Nat2Z.id, Nat.sub_diag in Hi. injection Hi as <-.
    rewrite Hl, tail_spec by done. by eapply arr_get_set_eq.
Qed.

Lemma mq_enqueue_repr q l m :
  mq_repr q l → len l + 1 < 2 ^ 30 →
  ∃ q', mq_enqueue q m = Some q' ∧ mq_repr q' (l ++ [m])
        ∧ mq_in_global q' = mq_in_global q ∧ mq_release q' = mq_release q
        ∧ mq_next q' = mq_next q ∧ mq_handle q' = mq_handle q.
Proof.
  intros H Hmax. pose proof (repr_wf _ _ H) as Hwf.
  pose proof (wf_cap_bounds q Hwf) as Hc. pose proof (wf_tail q Hwf) as Ht.
  pose proof (wf_head q Hwf) as Hh. pose proof (length_bounds q Hwf) as Hb.
  pose proof (repr_len _ _ H) as Hl.
  unfold mq_enqueue.
  destruct (mq_queue q).[mq_tail q <- Some m] as [queue|] eqn:Eset; cycle 1.
  { rewrite arr_set_Some in Eset by (rewrite (wf_len q Hwf); lia). done. }
  pose proof (enqueue_slots q l m queue H Eset) as Hslots.
  pose proof (arr_set_len _ _ _ _ Eset) as Hql. rewrite (wf_len q Hwf) in Hql.
  unfold int_add. simpl. rewrite int_chk_Some by (unfold INT_MIN, INT_MAX; lia). simpl.
  pose proof (tail_spec q Hwf) as Hts. rewrite mod_wrap in Hts by lia.
  set (q1 := if mq_cap q <=? mq_tail q + 1 then _ else _).
  assert (mq_tail q1 = ring_next q (mq_tail q) ∧ mq_head q1 = mq_head q ∧ mq_cap q1 = mq_cap q
    ∧ mq_queue q1 = queue ∧ mq_in_global q1 = mq_in_global q ∧ mq_release q1 = mq_release q
    ∧ mq_next q1 = mq_next q ∧ mq_handle q1 = mq_handle q
    ∧ mq_overload_threshold q1 = mq_overload_threshold q)
    as (E1 & E2 & E3 & E4 & E5 & E6 & E7 & E8 & E9).
  { subst q1. unfold ring_next. destruct (mq_cap q <=? _); repeat split. }
  clearbody q1. unfold ring_next in E1.
  assert (mq_wf q1) as Hwf1.
  { split; [rewrite E3; apply (wf_cap q Hwf)|rewrite E4, E3; done|lia| |rewrite E9; apply Hwf].
    rewrite E1, E3. zcases; lia. }
  assert (len (l ++ [m]) = len l + 1) as Hl1 by (rewrite len_app; done).
  destruct (Z.eqb_spec (mq_head q1) (mq_tail q1)) as [Efull|Enf].
  - assert (len l + 1 = mq_cap q) as Hfull.
    { revert Hts E1. zcases; lia. }
    destruct (expand_queue_repr q1 (l ++ [m])) as (q' & -> & Hr & _ & F1 & F2 & F3 & F4);
      [done|done|lia|lia|rewrite E4, E3, E2; done|].
    exists q'. split; [done|]. split; [done|]. repeat split; congruence.
  - exists q1. split; [done|]. split; [|done].
    split; [done| |rewrite E4, E3, E2; done].
    rewrite Hl1, Hl. unfold skynet_mq_length in *. revert Hts Enf. rewrite E2, E3, E1.
    zcases; lia.
Qed.

(** ** [skynet_mq_pop] takes the oldest message *)

(** The loop ends and its threshold has caught up; it only writes the two
    overload fields. *)
Lemma overload_loop_spec length q :
  length < 2 ^ 30 → 0 < mq_overload_threshold q →
  ∃ q', overload_loop length q = Some q'
   ∧ length ≤ mq_overload_threshold q' ∧ mq_overload_threshold q ≤ mq_overload_threshold q'
   ∧ q' = q <| mq_overload := if mq_overload_threshold q <? length then length else mq_overload q |>
            <| mq_overload_threshold := mq_overload_threshold q' |>.
Proof.
  intros Hl Ht. unfold overload_loop.
  destruct (while_loop_inv
    (λ q', mq_overload_threshold q ≤ mq_overload_threshold q' ∧
       q' = q <| mq_overload := if mq_overload_threshold q <? mq_overload_threshold q'
                                then length else mq_overload q |>
              <| mq_overload_threshold := mq_overload_threshold q' |> ∧
       (mq_overload_threshold q < mq_overload_threshold q' → mq_overload_threshold q < length))
    (λ q', 31 - Z.log2 (mq_overload_threshold q'))
    (λ q', mq_overload_threshold q' <? length)
    (λ q', t ← int_mul (mq_overload_threshold q') 2;
           Some (q' <| mq_overload := length |> <| mq_overload_threshold := t |>))
    64 q) as (q' & E & (H1 & H2 & H3) & H4).
  - rewrite Z.ltb_irrefl. destruct q. simpl. repeat split; lia.
  - pose proof (Z.log2_nonneg (mq_overload_threshold q)). lia.
  - intros q1 (H1 & H2 & H3) Hc. apply Z.ltb_lt in Hc.
    assert (Z.log2 (mq_overload_threshold q1) < 30) by (apply Z.log2_lt_pow2; lia).
    split; [lia|]. unfold int_mul. rewrite int_chk_Some by (unfold INT_MIN, INT_MAX; lia).
    eexists. split; [done|]. simpl.
    rewrite (Z.mul_comm _ 2), Z.log2_double by lia.
    split; [|lia]. rewrite (proj2 (Z.ltb_lt _ _)) by lia.
    split; [lia|]. split; [|lia]. rewrite H2. simpl. done.
  - lia.
  - apply Z.ltb_ge in H4. exists q'. split; [done|]. split; [lia|]. split; [lia|].
    rewrite H2 at 1. f_equal.
    destruct (Z.ltb_spec (mq_overload_threshold q) length); zcases; try done; lia.
Qed.

Lemma mq_pop_repr_nil q :
  mq_repr q [] →
  ∃ q', mq_pop q = Some (1, None, q') ∧ mq_repr q' []
        ∧ mq_in_global q' = 0 ∧ mq_release q' = mq_release q
        ∧ mq_next q' = mq_next q ∧ mq_handle q' = mq_handle q
        ∧ mq_overload_threshold q' = MQ_OVERLOAD.
Proof.
  intros [Hwf E]%repr_nil. unfold mq_pop. rewrite (proj2 (Z.eqb_eq _ _) E). simpl.
  eexists. split; [done|]. split; [|done]. apply repr_nil. split; [|done].
  destruct Hwf. split; simpl; [done..|]. unfold MQ_OVERLOAD. lia.
Qed.

Lemma mq_pop_repr_cons q m l :
  mq_repr q (m :: l) →
  ∃ q', mq_pop q = Some (0, Some m, q') ∧ mq_repr q' l
        ∧ mq_in_global q' = mq_in_global q ∧ mq_release q' = mq_release q
        ∧ mq_next q' = mq_next q ∧ mq_handle q' = mq_handle q
        ∧ len l ≤ mq_overload_threshold q'
        ∧ mq_overload q' = (if mq_overload_threshold q <? len l then len l else mq_overload q).
Proof.
  intros H. pose proof (repr_wf _ _ H) as Hwf. pose proof (repr_len _ _ H) as Hl.
  rewrite len_cons in Hl. pose proof (len_nonneg l).
  pose proof (wf_cap_bounds q Hwf). pose proof (wf_head q Hwf). pose proof (wf_tail q Hwf).
  pose proof (length_0 q Hwf) as Hl0. pose proof (length_bounds q Hwf).
  assert (mq_head q ≠ mq_tail q) as Hne by lia.
  unfold mq_pop. rewrite (proj2 (Z.eqb_neq _ _) Hne). simpl.
  pose proof (repr_slot _ _ H 0 m eq_refl) as Hs. rewrite Z.add_0_r, Z.mod_small in Hs by done.
  rewrite Hs. unfold int_add. rewrite int_chk_Some by (unfold INT_MIN, INT_MAX; lia). simpl.
  fold (ring_next q (mq_head q)).
  set (n := if mq_tail q - ring_next q (mq_head q) <? 0 then _ else _).
  assert (n = len l) as ->.
  { subst n. unfold ring_next, skynet_mq_length in *. revert Hl Hne. zcases; lia. }
  match goal with |- context [overload_loop _ ?x] => set (q1 := x) end.
  destruct (overload_loop_spec (len l) q1) as (q' & -> & T1 & T2 & ->);
    [lia|apply (wf_threshold q Hwf)|].
  eexists. split; [done|]. simpl in *.
  split; [|repeat split; lia].
  pose proof (ring_next_mod q (mq_head q)) as Hrn.
  assert (0 ≤ ring_next q (mq_head q) < mq_cap q) by (unfold ring_next; zcases; lia).
  split; simpl.
  - destruct Hwf. split; simpl; [done..|lia].
  - unfold skynet_mq_length in *. unfold ring_next in *. simpl. revert Hl Hne. zcases; lia.
  - intros i m' Hi. pose proof (arr_get_Some _ _ _ Hi).
    rewrite Hrn, Zplus_mod_idemp_l, <- Z.add_assoc by done. apply (repr_slot _ _ H).
    rewrite arr_get_nonneg in Hi |- * by lia.
    by replace (Z.to_nat (1 + i)) with (S (Z.to_nat i)) by lia.
Qed.

(** ** The global queue as a list of queues *)

(** Equality of queues up to the link field. *)
Definition mq_sim (q q' : message_queue) : Prop := q' = q <| mq_next := mq_next q' |>.

#[export] Instance mq_sim_equiv : Equivalence mq_sim.
Proof.
  unfold mq_sim. split.
  - intros []. done.
  - intros [] [] H. simpl in *. congruence.
  - intros [] [] [] H1 H2. simpl in *. congruence.
Qed.

Definition heap_sim (h h' : gmap positive message_queue) : Prop :=
  ∀ p, option_Forall2 mq_sim (h !! p) (h' !! p).

#[export] Instance heap_sim_equiv : Equivalence heap_sim.
Proof.
  unfold heap_sim. split.
  - intros h p. reflexivity.
  - intros h h' H p. symmetry. apply H.
  - intros h1 h2 h3 H1 H2 p. etransitivity; [apply H1|apply H2].
Qed.

#[export] Instance mq_repr_proper : Proper (mq_sim ==> eq ==> iff) mq_repr.
Proof.
  assert (∀ q q' l, mq_sim q q' → mq_repr q l → mq_repr q' l) as H.
  { intros q q' l -> [[] ? ?]. by do 2 (split; simpl; try done). }
  intros q q' E l ? <-. split; apply H; [done|by symmetry].
Qed.

Lemma heap_sim_store_next s p (q : message_queue) (n : option positive) :
  heap s !! p = Some q → heap_sim (heap s) (heap (store p (q <| mq_next := n |>) s)).
Proof.
  intros H p'. simpl. destruct (decide (p = p')) as [<-|Hne].
  - rewrite lookup_insert_eq, H. by constructor.
  - rewrite lookup_insert_ne by done. reflexivity.
Qed.

(** The queues linked from [start]. *)
Fixpoint chain (h : gmap positive message_queue) (start : option positive) (l : list positive) : Prop :=
  match l with
  | [] => start = None
  | p :: l => start = Some p ∧ ∃ q, h !! p = Some q ∧ chain h (mq_next q) l
  end.

Record gq_ok (s : mq_state) (l : list positive) : Prop := {
  gq_chain : chain (heap s) (gq_head s) l;
  gq_last : gq_tail s = last l;
  gq_nodup : NoDup l;
  gq_out p q : heap s !! p = Some q → p ∉ l → mq_next q = None
}.

Lemma chain_frame h start l p q :
  p ∉ l → chain h start l → chain (<[p:=q]> h) start l.
Proof.
  revert start. induction l as [|p' l IH]; intros start Hp; simpl; [done|].
  apply not_elem_of_cons in Hp as [Hne Hp]. intros (-> & q' & E & H). split; [done|].
  exists q'. rewrite lookup_insert_ne by done. by split; [|apply IH].
Qed.

(** Writing a queue without its link keeps the chain. *)
Lemma chain_same_next h start l p q q' :
  h !! p = Some q → mq_next q' = mq_next q →
  chain h start l → chain (<[p:=q']> h) start l.
Proof.
  intros Hp Hn. revert start. induction l as [|p' l IH]; intros start; simpl; [done|].
  intros (-> & q0 & E & H). split; [done|]. destruct (decide (p = p')) as [<-|Hne].
  - exists q'. rewrite lookup_insert_eq. split; [done|]. rewrite Hn.
    assert (q0 = q) as <- by congruence. by apply IH.
  - exists q0. rewrite lookup_insert_ne by done. by split; [|apply IH].
Qed.

Lemma chain_dom h start l p : chain h start l → p ∈ l → is_Some (h !! p).
Proof.
  revert start. induction l as [|p' l IH]; intros start; simpl.
  - intros _ H. by apply not_elem_of_nil in H.
  - intros (_ & q & E & H) [->|Hin]%elem_of_cons; eauto.
Qed.

(** Linking [p] behind the last queue extends the chain. *)
Lemma chain_snoc h start l t p (q qt : message_queue) :
  last l = Some t → NoDup (l ++ [p]) → h !! t = Some qt → h !! p = Some q →
  mq_next q = None → chain h start l →
  chain (<[t := qt <| mq_next := Some p |>]> h) start (l ++ [p]).
Proof.
  revert start. induction l as [|p' l IH]; intros start Hl Hnd Ht Hp Hq; [done|].
  rewrite <- app_comm_cons in *. intros (-> & q0 & E & H). split; [done|].
  apply NoDup_cons in Hnd as [Hp' Hnd].
  destruct l as [|p2 l].
  - injection Hl as ->. assert (t ≠ p) as Hne by set_solver.
    exists (qt <| mq_next := Some p |>). rewrite lookup_insert_eq. split; [done|].
    split; [done|]. exists q. rewrite lookup_insert_ne by done. by split.
  - exists q0. assert (t ≠ p') as Hne.
    { intros ->. apply Hp'. apply elem_of_app. left. by apply last_Some_elem_of. }
    rewrite lookup_insert_ne by done. split; [done|]. by apply IH.
Qed.

Lemma globalmq_push_ok s l p q :
  gq_ok s l → p ∉ l → heap s !! p = Some q →
  ∃ s', skynet_globalmq_push p s = Some s' ∧ gq_ok s' (l ++ [p]) ∧ heap_sim (heap s) (heap s').
Proof.
  intros [Hc Hl Hnd Hout] Hp Hq. pose proof (Hout p q Hq Hp) as Hn.
  unfold skynet_globalmq_push, deref. rewrite Hq, Hn. simpl.
  assert (NoDup (l ++ [p])) as Hnd'.
  { apply NoDup_app. split; [done|]. split; [set_solver|apply NoDup_singleton]. }
  rewrite Hl. destruct (last l) as [t|] eqn:El.
  - destruct (chain_dom _ _ _ t Hc) as [qt Et]; [by apply last_Some_elem_of|].
    rewrite Et. eexists. split; [done|]. split; [|by apply heap_sim_store_next].
    split; simpl.
    + by eapply chain_snoc.
    + by rewrite last_snoc.
    + done.
    + intros p' q'. destruct (decide (t = p')) as [<-|Hne].
      * intros _ Hx. destruct Hx. apply elem_of_app. left. by apply last_Some_elem_of.
      * rewrite lookup_insert_ne by done. intros E Hx. apply (Hout p' q' E). set_solver.
  - apply last_None in El as ->. eexists. split; [done|]. split; [|reflexivity].
    split; simpl; [|done|done|].
    + split; [done|]. by exists q.
    + intros p' q' E Hx. apply (Hout p' q' E). set_solver.
Qed.

Lemma globalmq_pop_ok s l :
  gq_ok s l →
  ∃ s', skynet_globalmq_pop s = Some (head l, s') ∧ gq_ok s' (tail l)
        ∧ heap_sim (heap s) (heap s').
Proof.
  intros [Hc Hl Hnd Hout]. unfold skynet_globalmq_pop, deref.
  destruct l as [|p l]; simpl in Hc.
  - rewrite Hc. exists s. split; [done|]. split; [|reflexivity]. by split.
  - destruct Hc as (-> & q & E & Hc). rewrite E. apply NoDup_cons in Hnd as [Hp Hnd].
    assert (∀ gt, gt = last l →
      gq_ok (store p (q <| mq_next := (None : option positive) |>)
        {| heap := heap s; gq_head := mq_next q; gq_tail := gt |}) l) as Hok.
    { intros gt ->. split; simpl; [by apply chain_frame|done|done|].
      intros p' q' E' Hx. destruct (decide (p = p')) as [<-|Hne].
      - rewrite lookup_insert_eq in E'. by injection E' as <-.
      - rewrite lookup_insert_ne in E' by done. apply (Hout p' q' E'). set_solver. }
    simpl. destruct (mq_next q) as [n|] eqn:En.
    + eexists. split; [done|]. split; [|by apply (heap_sim_store_next s)].
      rewrite <- En. rewrite En. apply Hok. rewrite Hl. destruct l; [|done].
      simpl in Hc. congruence.
    + destruct l as [|p2 l]; [|simpl in Hc; destruct Hc; congruence].
      rewrite bool_decide_eq_true_2 by done.
      eexists. split; [done|]. split; [|by apply (heap_sim_store_next s)]. by apply Hok.
Qed.

(** ** Who may touch which queue

    A queue leaves [skynet_mq_create] and [skynet_globalmq_pop] in the hands of
    one thread, which gives it up by publishing it, by finding it empty or by
    releasing it.  [held] is the set of (thread, queue) pairs.  A thread only
    pops messages or finds the queue empty while it has a reference to the
    service, so before [skynet_mq_mark_release]; the same holds for a push. *)

Record mq_threads := MQT { mq_st : mq_state; held : gset (nat * positive) }.

Definition alive (p : positive) (s : mq_state) : Prop :=
  ∃ q, heap s !! p = Some q ∧ mq_release q = 0.

(** A push needs room: the ring doubles up to [2^30] slots and no further. *)
Definition has_room (p : positive) (s : mq_state) : Prop :=
  ∃ q, heap s !! p = Some q ∧ skynet_mq_length q + 1 < 2 ^ 30.

Inductive mq_step : mq_threads → mq_threads → Prop :=
| step_create w handle s D p s' :
    skynet_mq_create handle s = (p, s') →
    mq_step (MQT s D) (MQT s' ({[(w, p)]} ∪ D))
| step_take w s D p s' :
    skynet_globalmq_pop s = Some (Some p, s') →
    mq_step (MQT s D) (MQT s' ({[(w, p)]} ∪ D))
| step_publish w p s D s' :
    (w, p) ∈ D → skynet_globalmq_push p s = Some s' →
    mq_step (MQT s D) (MQT s' (D ∖ {[(w, p)]}))
| step_pop w p m s D s' :
    (w, p) ∈ D → alive p s → skynet_mq_pop p s = Some (0, Some m, s') →
    mq_step (MQT s D) (MQT s' D)
| step_idle w p s D s' :
    (w, p) ∈ D → alive p s → skynet_mq_pop p s = Some (1, None, s') →
    mq_step (MQT s D) (MQT s' (D ∖ {[(w, p)]}))
| step_push p m s D s' :
    alive p s → has_room p s → skynet_mq_push p m s = Some s' →
    mq_step (MQT s D) (MQT s' D)
| step_mark p s D s' :
    skynet_mq_mark_release p s = Some s' →
    mq_step (MQT s D) (MQT s' D)
| step_release w p s D dropped s' :
    (w, p) ∈ D → skynet_mq_release p s = Some (dropped, s') →
    mq_step (MQT s D) (MQT s' (D ∖ {[(w, p)]})).

Definition mq_reachable (t : mq_threads) : Prop := rtc mq_step (MQT skynet_mq_init ∅) t.

(** What holds of one queue, given whether some thread or the global queue has it. *)
Record queue_ok (q : message_queue) (owned : Prop) : Prop := {
  ok_repr : ∃ msgs, mq_repr q msgs ∧ (mq_in_global q = 0 → mq_release q = 0 → msgs = []);
  ok_flag : mq_in_global q = 0 ∨ mq_in_global q = 1;
  ok_rel : mq_release q = 0 ∨ mq_release q = 1;
  ok_idle : mq_in_global q = 0 → mq_release q = 0 → ¬ owned;
  ok_owned : mq_in_global q = 1 ∨ mq_release q = 1 → owned
}.

Definition owned (p : positive) (l : list positive) (D : gset (nat * positive)) : Prop :=
  p ∈ l ∨ ∃ w, (w, p) ∈ D.

Record mq_inv (t : mq_threads) (l : list positive) : Prop := {
  inv_gq : gq_ok (mq_st t) l;
  inv_queues p q : heap (mq_st t) !! p = Some q → queue_ok q (owned p l (held t));
  inv_held w p : (w, p) ∈ held t → is_Some (heap (mq_st t) !! p) ∧ p ∉ l;
  inv_excl w1 w2 p : (w1, p) ∈ held t → (w2, p) ∈ held t → w1 = w2
}.

#[export] Instance queue_ok_proper : Proper (mq_sim ==> iff ==> iff) queue_ok.
Proof.
  assert (∀ q q' (P P' : Prop), mq_sim q q' → (P ↔ P') → queue_ok q P → queue_ok q' P') as H.
  { intros q q' P P' E HP [(msgs & Hm & Hm0) ? ? ? ?].
    rewrite E in Hm. pose proof E as E'. rewrite E'. split; simpl; try tauto.
    exists msgs. split; [|done]. by rewrite <- E'. }
  intros q q' E P P' HP. split; apply H; [done..|by symmetry|by symmetry].
Qed.

(** The invariant after an operation that only relinks queues and moves ownership. *)
Lemma mq_inv_relink s D l s' D' l' :
  mq_inv (MQT s D) l → gq_ok s' l' → heap_sim (heap s) (heap s') →
  (∀ p, owned p l D ↔ owned p l' D') →
  (∀ w p, (w, p) ∈ D' → is_Some (heap s !! p) ∧ p ∉ l') →
  (∀ w1 w2 p, (w1, p) ∈ D' → (w2, p) ∈ D' → w1 = w2) →
  mq_inv (MQT s' D') l'.
Proof.
  intros [Hg Hq Hh He] Hg' Hsim Hown Hheld Hex. split; simpl in *.
  - done.
  - intros p q' E'. specialize (Hsim p). rewrite E' in Hsim.
    inversion Hsim as [q ? Hs E|]; subst. rewrite <- Hs, <- Hown. by apply Hq.
  - intros w p Hw. destruct (Hheld w p Hw) as [[q Eq] Hn]. split; [|done].
    specialize (Hsim p). rewrite Eq in Hsim. inversion Hsim; eauto.
  - done.
Qed.

(** Writing one queue, links untouched. *)
Lemma gq_ok_store s l p q q' :
  gq_ok s l → heap s !! p = Some q → mq_next q' = mq_next q → gq_ok (store p q' s) l.
Proof.
  intros [Hc Hl Hn Ho] Hp Hnx. split; simpl; [by eapply chain_same_next|done|done|].
  intros p' q2 E Hx. destruct (decide (p = p')) as [<-|Hne].
  - rewrite lookup_insert_eq in E. injection E as <-. rewrite Hnx. by eapply Ho.
  - rewrite lookup_insert_ne in E by done. by eapply Ho.
Qed.

Lemma mq_inv_store s D D' l p q q' :
  mq_inv (MQT s D) l → heap s !! p = Some q → mq_next q' = mq_next q →
  queue_ok q' (owned p l D') → D' ⊆ D →
  (∀ p', p' ≠ p → owned p' l D ↔ owned p' l D') →
  mq_inv (MQT (store p q' s) D') l.
Proof.
  intros [Hg Hq Hh He] Hp Hnx Hok HD Hown. split; simpl in *.
  - by eapply gq_ok_store.
  - intros p' q2 E. destruct (decide (p = p')) as [<-|Hne].
    + rewrite lookup_insert_eq in E. by injection E as <-.
    + rewrite lookup_insert_ne in E by done. rewrite <- Hown by done. by apply Hq.
  - intros w p' Hw. destruct (Hh w p') as [[q2 E] Hn]; [set_solver|]. split; [|done].
    destruct (decide (p = p')) as [<-|Hne].
    + rewrite lookup_insert_eq. by eexists.
    + rewrite lookup_insert_ne by done. by eexists.
  - intros w1 w2 p' H1 H2. apply (He w1 w2 p'); set_solver.
Qed.

(** Losing its only holder takes a queue out of [owned]. *)
Lemma owned_drop w p l D :
  (∀ w1 w2 p, (w1, p) ∈ D → (w2, p) ∈ D → w1 = w2) → (w, p) ∈ D → p ∉ l →
  ¬ owned p l (D ∖ {[(w, p)]}) ∧
  (∀ p', p' ≠ p → owned p' l D ↔ owned p' l (D ∖ {[(w, p)]})).
Proof.
  intros He Hw Hl. split.
  - intros [?|[w' H]]; [done|]. apply elem_of_difference in H as [H Hne].
    rewrite (He w' w p H Hw) in Hne. set_solver.
  - intros p' Hne. split; intros [?|[w' H]]; [by left| |by left|]; right; exists w'; set_solver.
Qed.

Lemma deref_store_eq p q s : deref p (store p q s) = Some q.
Proof. apply lookup_insert_eq. Qed.

Lemma store_store p q q' s : store p q' (store p q s) = store p q' s.
Proof. unfold store. simpl. by rewrite insert_insert_eq. Qed.

Lemma drop_loop_S fuel p s :
  drop_loop (S fuel) p s =
  ('(_, message, s) ← skynet_mq_pop p s;
   match message with
   | Some msg => '(rest, s) ← drop_loop fuel p s; Some (msg :: rest, s)
   | None => Some ([], s)
   end).
Proof. done. Qed.

(** [_drop_queue] hands every message left, in order, to [drop_func]. *)
Lemma drop_loop_repr msgs : ∀ s p q,
  deref p s = Some q → mq_repr q msgs →
  ∃ q', drop_loop (S (length msgs)) p s = Some (msgs, store p q' s)
        ∧ mq_next q' = mq_next q ∧ mq_repr q' [].
Proof.
  induction msgs as [|m msgs IH]; intros s p q Hp Hr; cbn [length]; rewrite drop_loop_S;
    unfold skynet_mq_pop; rewrite Hp.
  - destruct (mq_pop_repr_nil q Hr) as (q' & -> & Hr' & _ & _ & Hn & _). by exists q'.
  - destruct (mq_pop_repr_cons q m msgs Hr) as (q' & -> & Hr' & _ & _ & Hn & _).
    destruct (IH _ p q' (deref_store_eq p q' s)) as (q2 & E & Hn2 & Hr2); [done|].
    rewrite E, store_store. exists q2. split; [done|]. split; [congruence|done].
Qed.

Lemma release_ok s l p q msgs :
  gq_ok s l → deref p s = Some q → p ∉ l → mq_release q = 1 → mq_repr q msgs →
  skynet_mq_release p s = Some (msgs, s <| heap := delete p (heap s) |>).
Proof.
  intros Hg Hp Hl Hrel Hr. unfold skynet_mq_release, _drop_queue.
  rewrite Hp, Hrel. cbn [truth negb Z.eqb]. rewrite <- (repr_len _ _ Hr). unfold len. rewrite Nat2Z.id.
  destruct (drop_loop_repr msgs s p q Hp Hr) as (q' & -> & Hn & _).
  unfold _release. rewrite deref_store_eq, Hn, (gq_out _ _ Hg p q Hp Hl).
  simpl. by rewrite delete_insert_eq.
Qed.

(** ** Every step keeps the invariant *)

Lemma inv_create w handle s D l p s' :
  mq_inv (MQT s D) l → skynet_mq_create handle s = (p, s') →
  mq_inv (MQT s' ({[(w, p)]} ∪ D)) l.
Proof.
  intros [Hg Hq Hh He] [= Hp <-]. simpl in *.
  assert (heap s !! p = None) as Hf.
  { subst p. apply not_elem_of_dom, is_fresh. }
  assert (∀ w', (w', p) ∉ D) as HD.
  { intros w' H. destruct (Hh w' p H) as [[q E] _]. congruence. }
  assert (p ∉ l) as Hl.
  { intros H. destruct (chain_dom _ _ _ p (gq_chain _ _ Hg) H). congruence. }
  rewrite Hp. split; simpl.
  - destruct Hg as [Hc Hla Hn Ho]. split; simpl; [by apply chain_frame|done|done|].
    intros p' q E Hx. destruct (decide (p = p')) as [<-|Hne].
    + rewrite lookup_insert_eq in E. by injection E as <-.
    + rewrite lookup_insert_ne in E by done. by eapply Ho.
  - intros p' q E. destruct (decide (p = p')) as [<-|Hne].
    + rewrite lookup_insert_eq in E. injection E as <-.
      split; simpl; [|by right|by left|done|].
      * exists []. by split; [apply mq_new_repr|].
      * intros _. right. exists w. set_solver.
    + rewrite lookup_insert_ne in E by done. eapply queue_ok_proper; [reflexivity| |by apply Hq].
      unfold owned. split; intros [?|[w' H]]; [by left| |by left|]; right; exists w'; set_solver.
  - intros w' p' Hw. destruct (decide (p = p')) as [<-|Hne].
    + rewrite lookup_insert_eq. by eauto.
    + rewrite lookup_insert_ne by done. apply (Hh w' p'). set_solver.
  - intros w1 w2 p' H1 H2. destruct (decide (p = p')) as [<-|Hne]; [set_solver|].
    apply (He w1 w2 p'); set_solver.
Qed.

Lemma inv_take w s D l p s' :
  mq_inv (MQT s D) l → skynet_globalmq_pop s = Some (Some p, s') →
  mq_inv (MQT s' ({[(w, p)]} ∪ D)) (tail l) ∧ head l = Some p.
Proof.
  intros Hi E. destruct (globalmq_pop_ok s l (inv_gq _ _ Hi)) as (s2 & E2 & Hg2 & Hs).
  rewrite E in E2. injection E2 as Eh <-. destruct l as [|p' l]; [done|].
  injection Eh as <-. split; [|done]. simpl in *.
  pose proof (gq_nodup _ _ (inv_gq _ _ Hi)) as Hnd. apply NoDup_cons in Hnd as [Hp Hnd].
  assert (∀ w', (w', p) ∉ D) as HD.
  { intros w' H. destruct (inv_held _ _ Hi w' p H) as [_ Hx]. set_solver. }
  eapply mq_inv_relink; [done..| | |].
  - intros p'. unfold owned. split.
    + intros [[->|?]%elem_of_cons|[w' H]]; [right; exists w; set_solver|by left|].
      right. exists w'. set_solver.
    + intros [?|[w' H]]; [left; set_solver|].
      apply elem_of_union in H as [[= -> ->]%elem_of_singleton|H]; [left; set_solver|].
      right. by exists w'.
  - intros w' p' [[= -> ->]%elem_of_singleton|H]%elem_of_union.
    + split; [|done]. eapply chain_dom; [apply (gq_chain _ _ (inv_gq _ _ Hi))|set_solver].
    + destruct (inv_held _ _ Hi w' p' H) as [? Hx]. split; [done|set_solver].
  - intros w1 w2 p' H1 H2. destruct (decide (p = p')) as [<-|Hne]; [set_solver|].
    apply (inv_excl _ _ Hi w1 w2 p'); set_solver.
Qed.

Lemma inv_publish w p s D l :
  mq_inv (MQT s D) l → (w, p) ∈ D →
  ∃ s', skynet_globalmq_push p s = Some s' ∧ mq_inv (MQT s' (D ∖ {[(w, p)]})) (l ++ [p]).
Proof.
  intros Hi Hw. destruct (inv_held _ _ Hi w p Hw) as [[q Hq] Hl]. simpl in *.
  destruct (globalmq_push_ok s l p q (inv_gq _ _ Hi) Hl Hq) as (s' & E & Hg & Hs).
  exists s'. split; [done|].
  destruct (owned_drop w p l D (inv_excl _ _ Hi) Hw Hl) as [_ Hoth].
  eapply mq_inv_relink; [done..| | |].
  - intros p'. destruct (decide (p' = p)) as [->|Hne].
    + split; intros _; [left; set_solver|right; by exists w].
    + rewrite Hoth by done. unfold owned. rewrite elem_of_app, list_elem_of_singleton.
      split; [intros [?|?]; [by do 2 left|by right]|intros [[?|?]|?]; [by left|done|by right]].
  - intros w' p' [H Hne]%elem_of_difference. destruct (inv_held _ _ Hi w' p' H) as [Hs' Hl'].
    split; [done|]. simpl in Hl'. rewrite elem_of_app, list_elem_of_singleton.
    intros [?| ->]; [done|]. rewrite (inv_excl _ _ Hi w' w p H Hw) in Hne. set_solver.
  - intros w1 w2 p' [H1 _]%elem_of_difference [H2 _]%elem_of_difference.
    by apply (inv_excl _ _ Hi w1 w2 p').
Qed.

(** What a holder that finds its queue alive knows of it. *)
Lemma held_alive w p s D l :
  mq_inv (MQT s D) l → (w, p) ∈ D → alive p s →
  ∃ q msgs, deref p s = Some q ∧ mq_repr q msgs ∧ mq_release q = 0 ∧ mq_in_global q = 1 ∧ p ∉ l.
Proof.
  intros Hi Hw (q & Hq & Hr). pose proof (inv_queues _ _ Hi p q Hq) as Hok. simpl in Hok.
  destruct (ok_repr _ _ Hok) as (msgs & Hm & _). exists q, msgs.
  destruct (ok_flag _ _ Hok) as [H0|H1].
  - destruct (ok_idle _ _ Hok H0 Hr). right. by exists w.
  - destruct (inv_held _ _ Hi w p Hw). by split_and!.
Qed.

Lemma inv_pop w p s D l :
  mq_inv (MQT s D) l → (w, p) ∈ D → alive p s →
  ∃ ret message s', skynet_mq_pop p s = Some (ret, message, s') ∧
    (if ret =? 0 then is_Some message ∧ mq_inv (MQT s' D) l
     else message = None ∧ mq_inv (MQT s' (D ∖ {[(w, p)]})) l).
Proof.
  intros Hi Hw Ha.
  destruct (held_alive _ _ _ _ _ Hi Hw Ha) as (q & msgs & Hq & Hm & Hrel & Hin & Hl).
  pose proof (inv_queues _ _ Hi p q Hq) as Hok. simpl in Hok.
  unfold skynet_mq_pop. rewrite Hq. destruct msgs as [|m msgs].
  - destruct (mq_pop_repr_nil q Hm) as (q' & -> & Hr & H0 & Hrel' & Hn & _).
    do 3 eexists. split; [done|]. simpl. split; [done|].
    destruct (owned_drop w p l D (inv_excl _ _ Hi) Hw Hl) as [Hno Hoth].
    eapply mq_inv_store; [done..| |set_solver|done].
    split; [by exists []|by left|left; congruence|done|].
    intros [H|H]; exfalso; [rewrite H0 in H|rewrite Hrel', Hrel in H]; done.
  - destruct (mq_pop_repr_cons q m msgs Hm) as (q' & -> & Hr & Hg' & Hrel' & Hn & _).
    do 3 eexists. split; [done|]. simpl. split; [done|].
    eapply mq_inv_store; [done..| |done|done].
    rewrite Hin in Hg'. split; [exists msgs; split; [done|congruence]|by right|left; congruence| |].
    + congruence.
    + intros _. apply (ok_owned _ _ Hok). by left.
Qed.

(** Publishing a queue nobody owns: the end of a push and of a mark. *)
Lemma inv_publish_store p q q1 s D l :
  mq_inv (MQT s D) l → heap s !! p = Some q → ¬ owned p l D → mq_next q1 = mq_next q →
  queue_ok q1 True →
  ∃ s', skynet_globalmq_push p (store p q1 s) = Some s' ∧ mq_inv (MQT s' D) (l ++ [p]).
Proof.
  intros Hi Hq Hno Hn Hok1.
  assert (p ∉ l) as Hl by (intros ?; apply Hno; by left).
  pose proof (gq_ok_store s l p q q1 (inv_gq _ _ Hi) Hq Hn) as Hg1.
  destruct (globalmq_push_ok _ l p q1 Hg1 Hl) as (s' & Es & Hg & Hs); [apply lookup_insert_eq|].
  exists s'. split; [done|]. split; simpl.
  - done.
  - intros p' q2 E2. specialize (Hs p'). rewrite E2 in Hs. simpl in Hs.
    destruct (decide (p = p')) as [<-|Hne].
    + rewrite lookup_insert_eq in Hs. inversion Hs as [? ? Hs'|]; subst.
      rewrite <- Hs'. eapply queue_ok_proper; [reflexivity| |exact Hok1].
      unfold owned. set_solver.
    + rewrite lookup_insert_ne in Hs by done. inversion Hs as [? ? Hs' Eq|]; subst.
      rewrite <- Hs'. eapply queue_ok_proper; [reflexivity| |by apply (inv_queues _ _ Hi)].
      unfold owned. simpl. set_solver.
  - intros w p' Hw. destruct (inv_held _ _ Hi w p' Hw) as [[q2 E2] Hx]. simpl in *.
    assert (p ≠ p') as Hne by (intros ->; apply Hno; right; by exists w).
    split; [|set_solver]. specialize (Hs p'). simpl in Hs.
    rewrite lookup_insert_ne, E2 in Hs by done. inversion Hs; eauto.
  - apply (inv_excl _ _ Hi).
Qed.

Lemma inv_push p m s D l :
  mq_inv (MQT s D) l → alive p s → has_room p s →
  ∃ s' l', skynet_mq_push p m s = Some s' ∧ mq_inv (MQT s' D) l'.
Proof.
  intros Hi (q & Hq & Hr) (q0 & Hq0 & Hroom).
  assert (q0 = q) as -> by congruence. clear Hq0.
  pose proof (inv_queues _ _ Hi p q Hq) as Hok. simpl in *.
  destruct (ok_repr _ _ Hok) as (msgs & Hm & _).
  rewrite <- (repr_len _ _ Hm) in Hroom.
  destruct (mq_enqueue_repr q msgs m Hm Hroom) as (q' & E & Hm' & Hg' & Hrel' & Hn & _).
  unfold skynet_mq_push, deref. rewrite Hq, E, Hg'.
  destruct (ok_flag _ _ Hok) as [H0|H1].
  - rewrite H0. simpl. set (q1 := q' <| mq_in_global := MQ_IN_GLOBAL |>).
    destruct (inv_publish_store p q q1 s D l) as (s' & Es & Hi');
      [done|done|by apply (ok_idle _ _ Hok)|done| |by exists s', (l ++ [p])].
    split; [|by right|left; simpl; congruence|done|done].
    exists (msgs ++ [m]). split; [|done]. destruct Hm' as [[] ? ?]. by do 2 (split; simpl; try done).
  - rewrite H1. simpl. exists (store p q' s), l. split; [done|].
    eapply mq_inv_store; [done..| |done|done].
    rewrite H1 in Hg'. split; [exists (msgs ++ [m]); split; [done|congruence]|by right|left; congruence|congruence|].
    intros _. apply (ok_owned _ _ Hok). by left.
Qed.

Lemma inv_mark p s D l :
  mq_inv (MQT s D) l → alive p s →
  ∃ s' l', skynet_mq_mark_release p s = Some s' ∧ mq_inv (MQT s' D) l'.
Proof.
  intros Hi (q & Hq & Hr). pose proof (inv_queues _ _ Hi p q Hq) as Hok. simpl in *.
  unfold skynet_mq_mark_release, deref. rewrite Hq, Hr. simpl.
  set (q1 := q <| mq_release := 1 |>).
  destruct (ok_repr _ _ Hok) as (msgs & Hm & H0').
  assert (∃ msgs, mq_repr q1 msgs ∧ (mq_in_global q1 = 0 → mq_release q1 = 0 → msgs = [])) as Hm1.
  { exists msgs. split; [|done]. destruct Hm as [[] ? ?]. by do 2 (split; simpl; try done). }
  destruct (ok_flag _ _ Hok) as [H0|H1].
  - rewrite H0. simpl. destruct (inv_publish_store p q q1 s D l) as (s' & E & Hi');
      [done|done|by apply (ok_idle _ _ Hok)|done|split; [done|by left|by right|done|done]|].
    by exists s', (l ++ [p]).
  - rewrite H1. simpl. exists (store p q1 s), l. split; [done|].
    eapply mq_inv_store; [done..| |done|done].
    split; [done|by right|by right|simpl; congruence|].
    intros _. apply (ok_owned _ _ Hok). by left.
Qed.

Lemma inv_free w p s D l :
  mq_inv (MQT s D) l → (w, p) ∈ D →
  mq_inv (MQT (s <| heap := delete p (heap s) |>) (D ∖ {[(w, p)]})) l.
Proof.
  intros Hi Hw. destruct (inv_held _ _ Hi w p Hw) as [_ Hl]. simpl in Hl.
  destruct (owned_drop w p l D (inv_excl _ _ Hi) Hw Hl) as [_ Hoth].
  destruct Hi as [[Hc Hla Hn Ho] Hq Hh He]. split; simpl in *.
  - split; simpl; [|done|done|].
    + clear -Hc Hl. revert Hc. generalize (gq_head s).
      induction l as [|p' l IH]; intros start; simpl; [done|].
      apply not_elem_of_cons in Hl as [Hne Hl]. intros (-> & q & E & H). split; [done|].
      exists q. rewrite lookup_delete_ne by done. split; [done|]. by apply IH.
    + intros p' q [_ E]%lookup_delete_Some. by apply Ho.
  - intros p' q [Hne E]%lookup_delete_Some. rewrite <- Hoth by done. by apply Hq.
  - intros w' p' [H Hne]%elem_of_difference. rewrite lookup_delete_ne; [by apply (Hh w')|].
    intros ->. rewrite (He w' w p' H Hw) in Hne. set_solver.
  - intros w1 w2 p' [H1 _]%elem_of_difference [H2 _]%elem_of_difference. by apply (He w1 w2 p').
Qed.

(** Releasing a marked queue frees it; an unmarked one goes back to the global queue. *)
Lemma inv_release w p s D l :
  mq_inv (MQT s D) l → (w, p) ∈ D →
  ∃ dropped s' l', skynet_mq_release p s = Some (dropped, s') ∧
    mq_inv (MQT s' (D ∖ {[(w, p)]})) l'.
Proof.
  intros Hi Hw. destruct (inv_held _ _ Hi w p Hw) as [[q Hq] Hl]. simpl in *.
  pose proof (inv_queues _ _ Hi p q Hq) as Hok. simpl in Hok.
  destruct (ok_rel _ _ Hok) as [H0|H1].
  - destruct (inv_publish w p s D l Hi Hw) as (s' & E & Hi').
    unfold skynet_mq_release, deref. rewrite Hq, H0. simpl. rewrite E. by exists [], s', (l ++ [p]).
  - destruct (ok_repr _ _ Hok) as (msgs & Hm & _).
    exists msgs. do 2 eexists. split; [|by apply inv_free].
    eapply release_ok; [apply (inv_gq _ _ Hi)|done..].
Qed.

Lemma inv_init : mq_inv (MQT skynet_mq_init ∅) [].
Proof. split; [split; simpl; [done|done|constructor|done]|done|set_solver|set_solver]. Qed.

Lemma mq_step_inv t t' l : mq_inv t l → mq_step t t' → ∃ l', mq_inv t' l'.
Proof.
  intros Hi H. destruct H as [w h s D p s' E|w s D p s' E|w p s D s' Hw E|w p m s D s' Hw Ha E
    |w p s D s' Hw Ha E|p m s D s' Ha Hr E|p s D s' E|w p s D dr s' Hw E].
  - exists l. by eapply inv_create.
  - exists (tail l). by eapply inv_take.
  - destruct (inv_publish w p s D l Hi Hw) as (s2 & E2 & Hi'). rewrite E in E2.
    injection E2 as <-. by exists (l ++ [p]).
  - destruct (inv_pop w p s D l Hi Hw Ha) as (r & m' & s2 & E2 & Hr). rewrite E in E2.
    injection E2 as <- <- <-. exists l. apply Hr.
  - destruct (inv_pop w p s D l Hi Hw Ha) as (r & m' & s2 & E2 & Hr). rewrite E in E2.
    injection E2 as <- <- <-. exists l. apply Hr.
  - destruct (inv_push p m s D l Hi Ha Hr) as (s2 & l' & E2 & Hi'). rewrite E in E2.
    injection E2 as <-. by exists l'.
  - assert (alive p s) as Ha.
    { unfold skynet_mq_mark_release in E. destruct (deref p s) as [q|] eqn:Eq; [|done].
      destruct (Z.eqb_spec (mq_release q) 0); [by exists q|done]. }
    destruct (inv_mark p s D l Hi Ha) as (s2 & l' & E2 & Hi'). rewrite E in E2.
    injection E2 as <-. by exists l'.
  - destruct (inv_release w p s D l Hi Hw) as (d & s2 & l' & E2 & Hi'). rewrite E in E2.
    injection E2 as <- <-. by exists l'.
Qed.

Lemma mq_reachable_inv t : mq_reachable t → ∃ l, mq_inv t l.
Proof.
  intros H. unfold mq_reachable in H.
  assert (∀ t0 l, mq_inv t0 l → rtc mq_step t0 t → ∃ l', mq_inv t l') as Hg.
  { intros t0 l Hi Hs. revert l Hi. induction Hs as [|t0 t1 t2 Hs _ IH]; intros l Hi; [by exists l|].
    destruct (mq_step_inv _ _ _ Hi Hs) as [l1 Hi1]. by eapply IH. }
  eapply Hg; [apply inv_init|done].
Qed.

(** ** Properties *)

(** A client's view of one queue: calls and what they return. *)
Inductive mq_op := Push (m : skynet_message) | Pop.

Fixpoint run_ring (ops : list mq_op) (q : message_queue)
    : option (list (option skynet_message) * message_queue) :=
  match ops with
  | [] => Some ([], q)
  | Push m :: ops => q ← mq_enqueue q m; run_ring ops q
  | Pop :: ops =>
      '(_, message, q) ← mq_pop q;
      '(outs, q) ← run_ring ops q;
      Some (message :: outs, q)
  end.

(** The specification: a first-in first-out list. *)
Fixpoint run_fifo (ops : list mq_op) (l : list skynet_message)
    : list (option skynet_message) * list skynet_message :=
  match ops with
  | [] => ([], l)
  | Push m :: ops => run_fifo ops (l ++ [m])
  | Pop :: ops => let '(outs, l') := run_fifo ops (tail l) in (head l :: outs, l')
  end.

Lemma run_ring_refines ops : ∀ q l,
  mq_repr q l → len l + len ops < 2 ^ 30 →
  ∃ q', run_ring ops q = Some ((run_fifo ops l).1, q') ∧ mq_repr q' (run_fifo ops l).2.
Proof.
  induction ops as [|[m|] ops IH]; intros q l Hr Hb; [by exists q|..];
    rewrite len_cons in Hb; pose proof (len_nonneg ops); pose proof (len_nonneg l); simpl.
  - destruct (mq_enqueue_repr q l m Hr) as (q1 & -> & Hr1 & _); [lia|].
    apply IH; [done|]. rewrite len_app, len_cons. change (len (@nil skynet_message)) with 0. lia.
  - destruct l as [|m l].
    + destruct (mq_pop_repr_nil q Hr) as (q1 & -> & Hr1 & _).
      destruct (IH q1 [] Hr1) as (q2 & -> & Hr2); [unfold len in *; simpl in *; lia|].
      exists q2. simpl. by destruct (run_fifo ops []).
    + rewrite len_cons in Hb.
      destruct (mq_pop_repr_cons q m l Hr) as (q1 & -> & Hr1 & _).
      destruct (IH q1 l Hr1) as (q2 & -> & Hr2); [lia|].
      exists q2. simpl. by destruct (run_fifo ops l).
Qed.

(** C3: a queue made by [skynet_mq_create] behaves as a first-in first-out list:
    any run of fewer than 2^30 pushes and pops, whatever doublings and
    wrap-arounds of the ring it causes, returns the messages of the list
    specification and never reads an uninitialised slot, leaves the block or
    overflows an [int]. *)
Theorem mq_ring_is_fifo handle ops :
  len ops < 2 ^ 30 →
  ∃ q', run_ring ops (mq_new handle) = Some ((run_fifo ops []).1, q')
        ∧ mq_repr q' (run_fifo ops []).2.
Proof. intros H. apply run_ring_refines; [apply mq_new_repr|]. unfold len in *. simpl. lia. Qed.

Lemma mq_ring_is_fifo_witness :
  let m := Message 1 2 3 4 in
  let ops := repeat (Push m) 70 ++ repeat Pop 71 in
  len ops < 2 ^ 30 ∧
  ∃ q', run_ring ops (mq_new 9) = Some ((run_fifo ops []).1, q')
        ∧ mq_repr q' (run_fifo ops []).2.
Proof. split; [vm_compute; reflexivity|]. apply mq_ring_is_fifo. vm_compute. reflexivity. Defined.

(** C4: whatever the interleaving of the threads' operations, a queue is never in
    the hands of two threads, never both in a thread's hands and in the global
    queue, and a live queue that still has messages is in one of the two, so
    no message is stranded. *)
Theorem mq_exclusive t :
  mq_reachable t →
  ∃ l, gq_ok (mq_st t) l ∧
    (∀ w1 w2 p, (w1, p) ∈ held t → (w2, p) ∈ held t → w1 = w2) ∧
    (∀ w p, (w, p) ∈ held t → p ∉ l) ∧
    (∀ p q, heap (mq_st t) !! p = Some q → skynet_mq_length q ≠ 0 →
       p ∈ l ∨ ∃ w, (w, p) ∈ held t).
Proof.
  intros [l Hi]%mq_reachable_inv. exists l. split; [apply Hi|]. split; [apply (inv_excl _ _ Hi)|].
  split; [intros w p H; by apply (inv_held _ _ Hi w p)|].
  intros p q Hq Hlen. pose proof (inv_queues _ _ Hi p q Hq) as Hok.
  destruct (ok_repr _ _ Hok) as (msgs & Hm & H0).
  destruct (ok_flag _ _ Hok) as [E0|E1]; [|by apply (ok_owned _ _ Hok); left].
  destruct (ok_rel _ _ Hok) as [R0|R1]; [|by apply (ok_owned _ _ Hok); right].
  rewrite <- (repr_len _ _ Hm), (H0 E0 R0) in Hlen. done.
Qed.

(** A run with two threads: thread 0 creates a queue, a message arrives, the
    queue is published and thread 1 takes it. *)
Definition demo_message : skynet_message := Message 7 1 0 3.

Definition demo_state : mq_state :=
  let '(p, s) := skynet_mq_create 16 skynet_mq_init in
  match skynet_mq_push p demo_message s with
  | Some s => match skynet_globalmq_push p s with
              | Some s => match skynet_globalmq_pop s with Some (_, s) => s | None => s end
              | None => s
              end
  | None => s
  end.

Lemma demo_reachable : mq_reachable (MQT demo_state {[(1%nat, 1%positive)]}).
Proof.
  eapply rtc_l; [by apply (step_create 0 16)|].
  eapply rtc_l; [eapply (step_push 1 demo_message);
    [by eexists|eexists; split; [done|vm_compute; reflexivity]|vm_compute; reflexivity]|].
  eapply rtc_l; [eapply (step_publish 0 1); [set_solver|vm_compute; reflexivity]|].
  eapply rtc_l; [eapply (step_take 1); vm_compute; reflexivity|].
  match goal with |- rtc _ (MQT ?s ?D) (MQT ?s' ?D') =>
    replace D with D' by (by vm_compute); replace s with s' by (by vm_compute) end.
  apply rtc_refl.
Qed.

Lemma mq_exclusive_witness :
  mq_reachable (MQT demo_state {[(1%nat, 1%positive)]}) ∧
  ∃ l, gq_ok demo_state l ∧ 1%positive ∉ l.
Proof.
  split; [apply demo_reachable|].
  destruct (mq_exclusive _ demo_reachable) as (l & Hg & _ & Hl & _).
  exists l. split; [exact Hg|]. apply (Hl 1%nat). set_solver.
Defined.

(** C20: in every reachable state no operation runs into a failed assertion, a
    stale pointer, an uninitialised slot or an [int] overflow: taking from
    the global queue, publishing, popping and releasing a held queue, and
    pushing to (with fewer than 2^30 - 1 messages waiting) and marking a live
    queue all return. *)
Theorem mq_no_failure t :
  mq_reachable t →
  is_Some (skynet_globalmq_pop (mq_st t)) ∧
  (∀ w p, (w, p) ∈ held t → is_Some (skynet_globalmq_push p (mq_st t))
     ∧ is_Some (skynet_mq_release p (mq_st t))
     ∧ (alive p (mq_st t) → is_Some (skynet_mq_pop p (mq_st t)))) ∧
  (∀ p, alive p (mq_st t) → is_Some (skynet_mq_mark_release p (mq_st t))
     ∧ (has_room p (mq_st t) → ∀ m, is_Some (skynet_mq_push p m (mq_st t)))).
Proof.
  destruct t as [s D]. intros [l Hi]%mq_reachable_inv. simpl. split; [|split].
  - destruct (globalmq_pop_ok s l (inv_gq _ _ Hi)) as (s' & -> & _). by eexists.
  - intros w p Hw. split; [|split].
    + destruct (inv_publish w p s D l Hi Hw) as (s' & -> & _). by eexists.
    + destruct (inv_release w p s D l Hi Hw) as (d & s' & l' & -> & _). by eexists.
    + intros Ha. destruct (inv_pop w p s D l Hi Hw Ha) as (r & m & s' & -> & _). by eexists.
  - intros p Ha. split.
    + destruct (inv_mark p s D l Hi Ha) as (s' & l' & -> & _). by eexists.
    + intros Hr m. destruct (inv_push p m s D l Hi Ha Hr) as (s' & l' & -> & _). by eexists.
Qed.

Lemma mq_no_failure_witness :
  mq_reachable (MQT demo_state {[(1%nat, 1%positive)]}) ∧
  is_Some (skynet_mq_pop 1 demo_state).
Proof.
  split; [apply demo_reachable|].
  destruct (mq_no_failure _ demo_reachable) as (_ & H & _).
  destruct (H 1%nat 1%positive) as (_ & _ & H1); [set_solver|].
  apply H1. by eexists.
Defined.

(** Popping from a queue of messages [m :: l] returns [m], leaves [l], and
    raises the overload mark to the number of waiting messages exactly when
    it exceeds the threshold, which then has caught up; popping from the
    empty queue resets the threshold and gives the queue up. *)
Theorem mq_pop_overload q l :
  mq_repr q l →
  ∃ q', mq_pop q = Some (match l with
                         | [] => (1, None, q')
                         | m :: _ => (0, Some m, q')
                         end)
   ∧ mq_repr q' (tail l)
   ∧ match l with
     | [] => mq_overload_threshold q' = MQ_OVERLOAD ∧ mq_in_global q' = 0
     | _ :: l => len l ≤ mq_overload_threshold q' ∧ mq_in_global q' = mq_in_global q
         ∧ mq_overload q' = (if mq_overload_threshold q <? len l then len l else mq_overload q)
     end.
Proof.
  intros H. destruct l as [|m l].
  - destruct (mq_pop_repr_nil q H) as (q' & E & Hr & ? & _ & _ & _ & ?). by exists q'.
  - destruct (mq_pop_repr_cons q m l H) as (q' & E & Hr & ? & _ & _ & _ & ? & ?). by exists q'.
Qed.

Lemma mq_pop_overload_witness :
  mq_repr (mq_new 3) [] ∧ ∃ q', mq_pop (mq_new 3) = Some (1, None, q') ∧ mq_in_global q' = 0.
Proof.
  split; [apply mq_new_repr|].
  destruct (mq_pop_overload (mq_new 3) [] (mq_new_repr 3)) as (q' & E & _ & _ & H).
  exists q'. by split.
Defined.

(** Releasing a marked queue hands every waiting message, oldest first, to the
    drop function and frees the queue; releasing one that is not marked yet
    drops nothing and puts it at the end of the global queue. *)
Theorem skynet_mq_release_drains t w p q msgs :
  mq_reachable t → (w, p) ∈ held t → heap (mq_st t) !! p = Some q → mq_repr q msgs →
  ∃ s', skynet_mq_release p (mq_st t) = Some (if truth (mq_release q) then msgs else [], s')
    ∧ if truth (mq_release q) then heap s' = delete p (heap (mq_st t))
      else ∃ l, gq_ok (mq_st t) l ∧ gq_ok s' (l ++ [p]).
Proof.
  destruct t as [s D]. intros [l Hi]%mq_reachable_inv Hw Hq Hm. simpl in *.
  destruct (inv_held _ _ Hi w p Hw) as [_ Hl]. simpl in Hl.
  pose proof (inv_queues _ _ Hi p q Hq) as Hok. destruct (ok_rel _ _ Hok) as [H0|H1].
  - rewrite H0. simpl. destruct (globalmq_push_ok s l p q (inv_gq _ _ Hi) Hl Hq) as (s' & E & Hg & _).
    exists s'. unfold skynet_mq_release, deref. rewrite Hq, H0. simpl. rewrite E.
    split; [done|]. exists l. split; [apply Hi|done].
  - rewrite H1. simpl. eexists. split; [eapply release_ok; [apply (inv_gq _ _ Hi)|done..]|done].
Qed.

Lemma skynet_mq_release_drains_witness :
  ∃ q s', heap demo_state !! 1%positive = Some q ∧ mq_repr q [demo_message] ∧
    skynet_mq_release 1 demo_state = Some ([], s').
Proof.
  destruct (heap demo_state !! 1%positive) as [q|] eqn:Hq; [|by vm_compute in Hq].
  assert (mq_repr q [demo_message]) as Hm.
  { destruct (mq_enqueue_repr (mq_new 16) [] demo_message (mq_new_repr 16)) as (q' & E & Hr & _);
      [done|]. vm_compute in E, Hq. injection E as <-. by injection Hq as <-. }
  destruct (skynet_mq_release_drains _ 1%nat 1%positive q [demo_message] demo_reachable) as (s' & E & _);
    [set_solver|done|exact Hm|].
  exists q, s'. split; [done|]. split; [done|]. cbn [mq_st] in E. rewrite E.
  vm_compute in Hq. by injection Hq as <-.
Defined.
