(* ===== verification/Timer.v ===== *)
(** * The timer wheel: skynet-src/skynet_timer.c

    Pending timeouts sit in a hierarchical wheel: 256 [near] lists for the
    current block of 256 ticks and four levels [t] of 64 lists for later
    ones; each tick may move one list down.  A [link_list] is modelled as the
    list of its nodes: [link] appends and [link_clear] takes everything.  What
    [dispatch_list] pushes to services is returned as a list.  While it runs
    the lock is free, so the additions of other threads in that window are an
    argument of [timer_execute]. *)

From S2P Require Import Prelude MessageQueue.

Definition TIME_NEAR_SHIFT : Z := 8.
Definition TIME_NEAR : Z := Z.shiftl 1 TIME_NEAR_SHIFT.
Definition TIME_LEVEL_SHIFT : Z := 6.
Definition TIME_LEVEL : Z := Z.shiftl 1 TIME_LEVEL_SHIFT.
Definition TIME_NEAR_MASK : Z := TIME_NEAR - 1.
Definition TIME_LEVEL_MASK : Z := TIME_LEVEL - 1.

(** From skynet.h and skynet_mq.h, for an 8-byte [size_t]. *)
Definition PTYPE_RESPONSE : Z := 1.
Definition MESSAGE_TYPE_SHIFT : Z := (8 - 1) * 8.

Record timer_event := TimerEvent { ev_handle : Z; ev_session : Z }.

(** A [timer_node] with the [timer_event] stored behind it. *)
Record timer_node := TimerNode { expire : Z; node_event : timer_event }.

Abbreviation link_list := (list timer_node).

Record timer := Timer {
  near : list link_list;
  t : list (list link_list);
  time : Z;
  starttime : Z;
  current : Z;
  current_point : Z
}.

#[export] Instance eta_timer : Eta timer := λ T,
  Timer (near T) (t T) (time T) (starttime T) (current T) (current_point T).

Definition link_clear (l : link_list) : list timer_node * link_list := (l, []).
Definition link (l : link_list) (node : timer_node) : link_list := l ++ [node].

(** [for (i=0;i<3;i++) { if (...) break; mask <<= TIME_LEVEL_SHIFT; }]. *)
Fixpoint level_loop (n : nat) (i mask time current_time : Z) : Z :=
  match n with
  | O => i
  | S n =>
      if Z.lor time (mask - 1) =? Z.lor current_time (mask - 1) then i
      else level_loop n (i + 1) (u32 (Z.shiftl mask TIME_LEVEL_SHIFT)) time current_time
  end.

Definition add_node (T : timer) (node : timer_node) : option timer :=
  let tm := expire node in
  let current_time := time T in
  if Z.lor tm TIME_NEAR_MASK =? Z.lor current_time TIME_NEAR_MASK then
    let j := Z.land tm TIME_NEAR_MASK in
    l ← (near T).[j];
    near' ← (near T).[j <- link l node];
    Some (T <| near := near' |>)
  else
    let mask := Z.shiftl TIME_NEAR TIME_LEVEL_SHIFT in
    let i := level_loop 3 0 mask tm current_time in
    let j := Z.land (Z.shiftr tm (TIME_NEAR_SHIFT + i * TIME_LEVEL_SHIFT)) TIME_LEVEL_MASK in
    row ← (t T).[i];
    l ← row.[j];
    row' ← row.[j <- link l node];
    t' ← (t T).[i <- row'];
    Some (T <| t := t' |>).

Definition timer_add (T : timer) (arg : timer_event) (tm : Z) : option timer :=
  add_node T {| expire := u32 (tm + time T); node_event := arg |}.

(** [while (current)] of [move_list]. *)
Fixpoint add_nodes (T : timer) (current : list timer_node) : option timer :=
  match current with
  | [] => Some T
  | node :: temp => T ← add_node T node; add_nodes T temp
  end.

Definition move_list (T : timer) (level idx : Z) : option timer :=
  row ← (t T).[level];
  l ← row.[idx];
  let '(current, l) := link_clear l in
  row ← row.[idx <- l];
  t' ← (t T).[level <- row];
  add_nodes (T <| t := t' |>) current.

(** [while ((ct & (mask-1))==0)] of [timer_shift]. *)
Fixpoint shift_loop (fuel : nat) (T : timer) (ct mask tm i : Z) : option timer :=
  match fuel with
  | O => None
  | S fuel =>
      if Z.land ct (mask - 1) =? 0 then
        let idx := Z.land tm TIME_LEVEL_MASK in
        if negb (idx =? 0) then move_list T i idx
        else
          mask ← int_chk (Z.shiftl mask TIME_LEVEL_SHIFT);
          shift_loop fuel T ct mask (Z.shiftr tm TIME_LEVEL_SHIFT) (i + 1)
      else Some T
  end.

Definition timer_shift (T : timer) : option timer :=
  let mask := TIME_NEAR in
  let ct := u32 (time T + 1) in
  let T := T <| time := ct |> in
  if ct =? 0 then move_list T 3 0
  else
    let tm := Z.shiftr ct TIME_NEAR_SHIFT in
    shift_loop 5 T ct mask tm 0.

(** The message of one node: what [dispatch_list] hands to [skynet_context_push]. *)
Definition timer_message (event : timer_event) : Z * skynet_message :=
  (ev_handle event,
   {| msg_source := 0;
      msg_session := ev_session event;
      msg_data := 0;
      msg_sz := Z.shiftl PTYPE_RESPONSE MESSAGE_TYPE_SHIFT |}).

Definition dispatch_list (current : list timer_node) : list (Z * skynet_message) :=
  map (λ node, timer_message (node_event node)) current.

Definition timeout_call := (Z * timer_event)%type.

(** Calls of [timer_add] by other threads. *)
Fixpoint run_adds (T : timer) (adds : list timeout_call) : option timer :=
  match adds with
  | [] => Some T
  | (tm, arg) :: adds => T ← timer_add T arg tm; run_adds T adds
  end.

(** [env] lists what other threads add while round 1, 2, ... dispatches. *)
Fixpoint timer_execute (fuel : nat) (env : list (list timeout_call)) (T : timer)
    : option (list (Z * skynet_message) * timer) :=
  match fuel with
  | O => None
  | S fuel =>
      let idx := Z.land (time T) TIME_NEAR_MASK in
      l ← (near T).[idx];
      match l with
      | [] => Some ([], T)
      | _ :: _ =>
          let '(current, l') := link_clear l in
          near' ← (near T).[idx <- l'];
          T ← run_adds (T <| near := near' |>) (hd [] env);
          '(out, T) ← timer_execute fuel (tail env) T;
          Some (dispatch_list current ++ out, T)
      end
  end.

Definition execute_fuel : nat := 3.

(** [env0] and [env] are the additions during the two dispatches. *)
Definition timer_update (env0 env : list (list timeout_call)) (T : timer)
    : option (list (Z * skynet_message) * timer) :=
  '(out1, T) ← timer_execute execute_fuel env0 T;
  T ← timer_shift T;
  '(out2, T) ← timer_execute execute_fuel env T;
  Some (out1 ++ out2, T).

Definition timer_create_timer : timer :=
  {| near := replicate (Z.to_nat TIME_NEAR) [];
     t := replicate 4 (replicate (Z.to_nat TIME_LEVEL) []);
     time := 0; starttime := 0; current := 0; current_point := 0 |}.

(** The result and the pushes made; [push_ok] tells whether
    [skynet_context_push] finds the service. *)
Definition skynet_timeout (push_ok : Z → bool) (handle tm session : Z) (T : timer)
    : option (Z * list (Z * skynet_message) * timer) :=
  let event := {| ev_handle := handle; ev_session := session |} in
  if tm <=? 0 then
    if push_ok handle then Some (session, [timer_message event], T)
    else Some (-1, [], T)
  else T ← timer_add T event tm; Some (session, [], T).

Record timespec := Timespec { tv_sec : Z; tv_nsec : Z }.

Definition systime (ti : timespec) : Z * Z :=
  (u32 (tv_sec ti), u32 (Z.quot (tv_nsec ti) 10000000)).

Definition gettime (ti : timespec) : Z :=
  u64 (u64 (u64 (tv_sec ti) * 100) + Z.quot (tv_nsec ti) 10000000).

(** [for (i=0;i<diff;i++) timer_update(TI)], with the pushes of each tick. *)
Fixpoint update_loop (n : nat) (T : timer) : option (list (list (Z * skynet_message)) * timer) :=
  match n with
  | O => Some ([], T)
  | S n =>
      '(out, T) ← timer_update [] [] T;
      '(outs, T) ← update_loop n T;
      Some (out :: outs, T)
  end.

Definition skynet_updatetime (ti : timespec) (TI : timer)
    : option (list (list (Z * skynet_message)) * timer) :=
  let cp := gettime ti in
  if cp <? current_point TI then Some ([], TI <| current_point := cp |>)
  else if negb (cp =? current_point TI) then
    let diff := u32 (cp - current_point TI) in
    let TI := TI <| current_point := cp |> in
    let TI := TI <| current := u64 (current TI + diff) |> in
    update_loop (Z.to_nat diff) TI
  else Some ([], TI).

Definition skynet_timer_init (wall mono : timespec) : timer :=
  let TI := timer_create_timer in
  let '(sec, cs) := systime wall in
  let TI := TI <| starttime := sec |> in
  let TI := TI <| current := cs |> in
  TI <| current_point := gettime mono |>.

Definition NANOSEC : Z := 1000000000.
Definition MICROSEC : Z := 1000000.

Definition skynet_thread_time (ti : timespec) : Z :=
  u64 (u64 (u64 (tv_sec ti) * MICROSEC) + Z.quot (u64 (tv_nsec ti)) (Z.quot NANOSEC MICROSEC)).

(** ** Where a node belongs *)

Inductive slot := Near (j : Z) | Level (i j : Z).

#[export] Instance slot_eq_dec : EqDecision slot.
Proof. solve_decision. Defined.

(** The list for expiry [e] at tick [ct], by quotients instead of masks. *)
Definition slot_of (ct e : Z) : slot :=
  if e / 2 ^ 8 =? ct / 2 ^ 8 then Near (e mod 2 ^ 8)
  else if e / 2 ^ 14 =? ct / 2 ^ 14 then Level 0 ((e / 2 ^ 8) mod 2 ^ 6)
  else if e / 2 ^ 20 =? ct / 2 ^ 20 then Level 1 ((e / 2 ^ 14) mod 2 ^ 6)
  else if e / 2 ^ 26 =? ct / 2 ^ 26 then Level 2 ((e / 2 ^ 20) mod 2 ^ 6)
  else Level 3 ((e / 2 ^ 26) mod 2 ^ 6).

Definition slot_valid (s : slot) : Prop :=
  match s with
  | Near j => 0 ≤ j < 2 ^ 8
  | Level i j => 0 ≤ i < 4 ∧ 0 ≤ j < 2 ^ 6
  end.

Definition slot_list (T : timer) (s : slot) : list timer_node :=
  match s with
  | Near j => default [] (near T).[j]
  | Level i j => default [] (default [] (t T).[i]).[j]
  end.

Definition all_nodes (T : timer) : list timer_node := concat (near T) ++ concat (concat (t T)).

Record wheel_shape (T : timer) : Prop := {
  shape_near : len (near T) = 2 ^ 8;
  shape_t : len (t T) = 4;
  shape_rows : Forall (λ row, len row = 2 ^ 6) (t T);
  shape_time : 0 ≤ time T < 2 ^ 32
}.

(** Ticks left until [e], at tick [ct] of the 32-bit clock. *)
Definition remaining (ct e : Z) : Z := u32 (e - ct).

(** Every node is on the list its expiry calls for and has at least [lo] ticks left. *)
Record wheel (lo : Z) (T : timer) : Prop := {
  wheel_is : wheel_shape T;
  wheel_nodes s n : slot_valid s → n ∈ slot_list T s →
    0 ≤ expire n < 2 ^ 32 ∧ slot_of (time T) (expire n) = s ∧
    lo ≤ remaining (time T) (expire n) < 2 ^ 31
}.

Lemma level_loop_spec e ct :
  slot_of ct e = (if Z.lor e TIME_NEAR_MASK =? Z.lor ct TIME_NEAR_MASK
    then Near (Z.land e TIME_NEAR_MASK)
    else let i := level_loop 3 0 (Z.shiftl TIME_NEAR TIME_LEVEL_SHIFT) e ct in
         Level i (Z.land (Z.shiftr e (TIME_NEAR_SHIFT + i * TIME_LEVEL_SHIFT)) TIME_LEVEL_MASK)).
Proof.
  assert (∀ k, 0 ≤ k → (Z.lor e (2 ^ k - 1) =? Z.lor ct (2 ^ k - 1)) = (e / 2 ^ k =? ct / 2 ^ k)) as Hm.
  { intros k Hk. pose proof (lor_mask_eq e ct k Hk).
    destruct (Z.eqb_spec (e / 2 ^ k) (ct / 2 ^ k)); [apply Z.eqb_eq|apply Z.eqb_neq]; tauto. }
  change TIME_NEAR_MASK with (2 ^ 8 - 1). change TIME_LEVEL_MASK with (2 ^ 6 - 1).
  rewrite Hm, land_mask by lia. unfold slot_of. destruct (e / 2 ^ 8 =? ct / 2 ^ 8); [done|].
  unfold level_loop. change (Z.shiftl TIME_NEAR TIME_LEVEL_SHIFT) with (2 ^ 14).
  change (u32 (Z.shiftl (2 ^ 14) TIME_LEVEL_SHIFT)) with (2 ^ 20).
  change (u32 (Z.shiftl (2 ^ 20) TIME_LEVEL_SHIFT)) with (2 ^ 26).
  rewrite !Hm by lia.
  destruct (e / 2 ^ 14 =? ct / 2 ^ 14), (e / 2 ^ 20 =? ct / 2 ^ 20), (e / 2 ^ 26 =? ct / 2 ^ 26);
    cbv zeta;
    rewrite land_mask, Z.shiftr_div_pow2 by (try done; unfold TIME_NEAR_SHIFT, TIME_LEVEL_SHIFT; lia);
    reflexivity.
Qed.

Lemma slot_of_valid ct e : slot_valid (slot_of ct e).
Proof.
  unfold slot_of. repeat case_match; simpl; repeat split; try lia; apply Z.mod_pos_bound; lia.
Qed.

(** ** Writing one list *)

Definition put (T : timer) (s : slot) (l : list timer_node) : timer :=
  match s with
  | Near j => T <| near := <[Z.to_nat j := l]> (near T) |>
  | Level i j =>
      T <| t := <[Z.to_nat i := <[Z.to_nat j := l]> (default [] (t T).[i])]> (t T) |>
  end.

(** What is moved out of one list and into another. *)
Lemma perm_exchange {A} (a b c d x l : list A) :
  a ++ b ≡ₚ c ++ d → d ++ x ≡ₚ b ++ l → a ++ x ≡ₚ c ++ l.
Proof.
  intros H1 H2. apply (Permutation_app_inv_r b).
  rewrite <- !app_assoc, (Permutation_app_comm x), (Permutation_app_comm l), <- H2, !app_assoc.
  by rewrite H1.
Qed.

Lemma row_get T i j : wheel_shape T → slot_valid (Level i j) →
  ∃ row, (t T).[i] = Some row ∧ len row = 2 ^ 6.
Proof.
  intros Hs [Hi Hj]. destruct (arr_get_is_Some (t T) i) as [row E]; [rewrite (shape_t _ Hs); lia|].
  exists row. split; [done|]. exact (arr_get_Forall _ _ _ _ (shape_rows _ Hs) E).
Qed.

Lemma put_shape T s l : wheel_shape T → slot_valid s → wheel_shape (put T s l).
Proof.
  intros Hs Hv. destruct s as [j|i j]; simpl.
  - destruct Hs. split; simpl; try done. unfold len in *. by rewrite length_insert.
  - destruct (row_get T i j Hs Hv) as (row & E & Hl). rewrite E. destruct Hs. split; simpl; try done.
    + unfold len in *. by rewrite length_insert.
    + apply Forall_insert; [done|]. unfold len in *. by rewrite length_insert.
Qed.

Lemma put_slot T s l s' : wheel_shape T → slot_valid s → slot_valid s' →
  slot_list (put T s l) s' = if decide (s = s') then l else slot_list T s'.
Proof.
  intros Hs Hv Hv'. destruct s as [j|i j].
  - destruct s' as [j'|i' j']; [|done]. cbn [put slot_list near].
    destruct (decide (Near j = Near j')) as [[= <-]|Hne].
    + erewrite arr_get_set_eq; [done|]. apply arr_set_Some. rewrite (shape_near _ Hs). apply Hv.
    + erewrite arr_get_set_ne;
        [done|apply arr_set_Some; rewrite (shape_near _ Hs); apply Hv|congruence].
  - destruct s' as [j'|i' j']; [done|]. cbn [put slot_list t].
    destruct (row_get T i j Hs Hv) as (row & E & Hl). rewrite E. destruct Hv as [Hi Hj].
    destruct (decide (i = i')) as [<-|Hni].
    + erewrite (arr_get_set_eq (t T)); [|apply arr_set_Some; rewrite (shape_t _ Hs); lia].
      rewrite E. cbn [default from_option].
      destruct (decide (Level i j = Level i j')) as [[= <-]|Hne]; simpl.
      * erewrite arr_get_set_eq; [done|]. apply arr_set_Some. lia.
      * erewrite arr_get_set_ne; [done|apply arr_set_Some; lia|congruence].
    + erewrite (arr_get_set_ne (t T)); [|apply arr_set_Some; rewrite (shape_t _ Hs); lia|done].
      by rewrite decide_False by congruence.
Qed.

Lemma put_nodes T s l : wheel_shape T → slot_valid s →
  all_nodes (put T s l) ++ slot_list T s ≡ₚ all_nodes T ++ l.
Proof.
  intros Hs Hv. unfold all_nodes. destruct s as [j|i j]; cbn [put slot_list near t].
  - destruct (arr_get_is_Some (near T) j) as [x E]; [rewrite (shape_near _ Hs); apply Hv|].
    rewrite E. simpl. rewrite arr_get_nonneg in E by (simpl in Hv; lia).
    pose proof (concat_insert _ _ _ l E) as H.
    rewrite <- !app_assoc, (Permutation_app_comm _ x), (Permutation_app_comm _ l), !app_assoc.
    by rewrite H.
  - destruct (row_get T i j Hs Hv) as (row & E & Hl). rewrite E. destruct Hv as [Hi Hj]. simpl.
    destruct (arr_get_is_Some row j) as [x Ex]; [lia|]. rewrite Ex. simpl.
    rewrite arr_get_nonneg in E by lia. rewrite arr_get_nonneg in Ex by lia.
    pose proof (concat_insert _ _ _ (<[Z.to_nat j:=l]> row) E) as H1.
    pose proof (concat_insert _ _ _ l Ex) as H2.
    rewrite <- !app_assoc. f_equiv. eapply perm_exchange; [|exact H2].
    rewrite <- !concat_app. by apply concat_Permutation.
Qed.

(** ** What the operations do to the lists *)

Lemma add_node_put T n : wheel_shape T →
  add_node T n = Some (put T (slot_of (time T) (expire n))
                        (slot_list T (slot_of (time T) (expire n)) ++ [n])).
Proof.
  intros Hs. pose proof (slot_of_valid (time T) (expire n)) as Hv.
  unfold add_node. rewrite level_loop_spec in *.
  destruct (_ =? _).
  - simpl in Hv. destruct (arr_get_is_Some (near T) (Z.land (expire n) TIME_NEAR_MASK)) as [l E];
      [rewrite (shape_near _ Hs); done|].
    rewrite E. cbn [put slot_list]. rewrite E. rewrite arr_set_Some by (by eapply arr_get_Some).
    done.
  - cbv zeta in *. set (i := level_loop _ _ _ _ _) in *. clearbody i.
    set (j := Z.land (Z.shiftr _ _) _) in *. clearbody j.
    destruct (row_get T i j Hs Hv) as (row & E & Hl). rewrite E. destruct Hv as [Hi Hj].
    destruct (arr_get_is_Some row j) as [l El]; [lia|]. rewrite El.
    rewrite (arr_set_Some row) by lia. rewrite (arr_set_Some (t T)) by (rewrite (shape_t _ Hs); lia).
    cbn [put slot_list]. rewrite E. simpl. by rewrite El.
Qed.

Lemma put_time T s l : time (put T s l) = time T.
Proof. by destruct s. Qed.

(** Nodes are on the wheel exactly when they are on a valid list. *)
Lemma elem_of_all_nodes T n : wheel_shape T →
  n ∈ all_nodes T ↔ ∃ s, slot_valid s ∧ n ∈ slot_list T s.
Proof.
  intros Hs. unfold all_nodes. rewrite elem_of_app, !list_elem_of_In, !in_concat. split.
  - intros [(l & Hl & Hn)|(l & Hl & Hn)]; rewrite <- list_elem_of_In in Hl; rewrite <- list_elem_of_In in Hn.
    + apply list_elem_of_lookup in Hl as [j Ej]. exists (Near (Z.of_nat j)).
      pose proof (lookup_lt_Some _ _ _ Ej). pose proof (shape_near _ Hs) as Hl. unfold len in Hl.
      split; [simpl; lia|]. cbn [slot_list]. by rewrite arr_get_of_nat, Ej.
    + rewrite list_elem_of_In, in_concat in Hl. destruct Hl as (row & Hr & Hl).
      rewrite <- list_elem_of_In in Hr; rewrite <- list_elem_of_In in Hl.
      apply list_elem_of_lookup in Hr as [i Ei]. apply list_elem_of_lookup in Hl as [j Ej].
      exists (Level (Z.of_nat i) (Z.of_nat j)).
      pose proof (lookup_lt_Some _ _ _ Ei). pose proof (lookup_lt_Some _ _ _ Ej).
      pose proof (shape_t _ Hs) as Hl. unfold len in Hl.
      pose proof (Forall_lookup_1 _ _ _ _ (shape_rows _ Hs) Ei) as Hlr. unfold len in Hlr.
      split; [simpl; lia|]. cbn [slot_list]. rewrite (arr_get_of_nat (t T)), Ei. simpl.
      by rewrite arr_get_of_nat, Ej.
  - intros ([j|i j] & Hv & Hn); cbn [slot_list] in Hn.
    + left. destruct (near T).[j] as [l|] eqn:E; [|by apply not_elem_of_nil in Hn].
      exists l. rewrite <- !list_elem_of_In. split; [|done].
      rewrite arr_get_nonneg in E by (simpl in Hv; lia). by eapply list_elem_of_lookup_2.
    + right. destruct (row_get T i j Hs Hv) as (row & E & Hl). rewrite E in Hn. simpl in Hn.
      destruct row.[j] as [l|] eqn:El; [|by apply not_elem_of_nil in Hn].
      exists l. rewrite <- !list_elem_of_In. split; [|done].
      rewrite list_elem_of_In, in_concat. exists row. rewrite <- !list_elem_of_In.
      destruct Hv. rewrite arr_get_nonneg in E by lia. rewrite arr_get_nonneg in El by lia.
      split; by eapply list_elem_of_lookup_2.
Qed.

(** ** One tick *)

(** The list that [timer_shift] redistributes when the clock reaches [ct]. *)
Definition moved (ct : Z) : option slot :=
  if ct =? 0 then Some (Level 3 0)
  else if negb (ct mod 2 ^ 8 =? 0) then None
  else if negb ((ct / 2 ^ 8) mod 2 ^ 6 =? 0) then Some (Level 0 ((ct / 2 ^ 8) mod 2 ^ 6))
  else if negb ((ct / 2 ^ 14) mod 2 ^ 6 =? 0) then Some (Level 1 ((ct / 2 ^ 14) mod 2 ^ 6))
  else if negb ((ct / 2 ^ 20) mod 2 ^ 6 =? 0) then Some (Level 2 ((ct / 2 ^ 20) mod 2 ^ 6))
  else Some (Level 3 ((ct / 2 ^ 26) mod 2 ^ 6)).

Lemma remaining_tick ct e : 1 ≤ remaining ct e → remaining (u32 (ct + 1)) e = remaining ct e - 1.
Proof.
  unfold remaining, u32. intros H. rewrite Zminus_mod_idemp_r.
  replace (e - (ct + 1)) with ((e - ct) + -1) by lia.
  rewrite <- Zplus_mod_idemp_l. pose proof (Z.mod_pos_bound (e - ct) (2 ^ 32)).
  rewrite Z.mod_small; lia.
Qed.

(** Linear arithmetic with quotients by constants. *)
Ltac qlia := Z.div_mod_to_equations; lia.

(** The clock wraps, or it does not and the expiry is ahead of it or far behind. *)
Lemma remaining_cases ct e :
  0 ≤ ct < 2 ^ 32 → 0 ≤ e < 2 ^ 32 → 1 ≤ remaining ct e < 2 ^ 31 →
  (ct = 2 ^ 32 - 1 ∧ u32 (ct + 1) = 0 ∧ e < 2 ^ 31) ∨
  (ct < 2 ^ 32 - 1 ∧ u32 (ct + 1) = ct + 1 ∧ (ct < e ∨ e + 2 ^ 31 < ct)).
Proof.
  intros Hct He Hr. unfold remaining, u32 in *. destruct (decide (ct = 2 ^ 32 - 1)) as [->|].
  - left. rewrite Z.mod_same by lia. split_and!; try lia.
    destruct (decide (e < 2 ^ 31)); [done|]. exfalso.
    replace (e - (2 ^ 32 - 1)) with (e + 1 + (-1) * 2 ^ 32) in Hr by lia.
    rewrite Z_mod_plus_full in Hr. destruct (decide (e + 1 = 2 ^ 32)) as [E|].
    + rewrite E, Z.mod_same in Hr; lia.
    + rewrite Z.mod_small in Hr; lia.
  - right. rewrite Z.mod_small by lia. split_and!; try lia.
    destruct (decide (ct < e)); [by left|right].
    destruct (decide (ct = e)) as [->|]; [rewrite Z.sub_diag, Z.mod_0_l in Hr; lia|].
    replace (e - ct) with (e - ct + 2 ^ 32 + (-1) * 2 ^ 32) in Hr by lia.
    rewrite Z_mod_plus_full, Z.mod_small in Hr; lia.
Qed.

Lemma slot_of_wrap e :
  0 ≤ e < 2 ^ 31 → slot_of 0 e = slot_of (2 ^ 32 - 1) e ∨ moved 0 = Some (slot_of (2 ^ 32 - 1) e).
Proof.
  intros He. unfold slot_of, moved. change (0 =? 0) with true. cbv iota.
  change ((2 ^ 32 - 1) / 2 ^ 8) with (2 ^ 24 - 1). change ((2 ^ 32 - 1) / 2 ^ 14) with (2 ^ 18 - 1).
  change ((2 ^ 32 - 1) / 2 ^ 20) with (2 ^ 12 - 1). change ((2 ^ 32 - 1) / 2 ^ 26) with (2 ^ 6 - 1).
  rewrite !Z.div_0_l by lia.
  zcases; first [by left | right; do 2 f_equal; qlia | exfalso; qlia].
Qed.

Lemma slot_of_step ct e :
  0 ≤ ct < 2 ^ 32 - 1 → 0 ≤ e < 2 ^ 32 → ct < e ∨ e + 2 ^ 31 < ct →
  slot_of (ct + 1) e = slot_of ct e ∨ moved (ct + 1) = Some (slot_of ct e).
Proof.
  intros Hct He Hd.
  assert (ct + 1 ≠ 0) by lia. unfold slot_of, moved.
  rewrite (proj2 (Z.eqb_neq (ct + 1) 0)) by done.
  destruct (Z.eqb_spec ((ct + 1) mod 2 ^ 8) 0) as [E0|E0]; cbn [negb].
  2: { left. assert ((ct + 1) / 2 ^ 8 = ct / 2 ^ 8) as -> by qlia.
    assert ((ct + 1) / 2 ^ 14 = ct / 2 ^ 14) as -> by qlia.
    assert ((ct + 1) / 2 ^ 20 = ct / 2 ^ 20) as -> by qlia.
    assert ((ct + 1) / 2 ^ 26 = ct / 2 ^ 26) as -> by qlia. done. }
  rewrite (proj2 (Z.eqb_neq (e / 2 ^ 8) (ct / 2 ^ 8))) by qlia.
  destruct (Z.eqb_spec (((ct + 1) / 2 ^ 8) mod 2 ^ 6) 0) as [E1|E1]; cbn [negb].
  2: { assert ((ct + 1) / 2 ^ 14 = ct / 2 ^ 14) as -> by qlia.
    assert ((ct + 1) / 2 ^ 20 = ct / 2 ^ 20) as -> by qlia.
    assert ((ct + 1) / 2 ^ 26 = ct / 2 ^ 26) as -> by qlia.
    destruct (Z.eqb_spec (e / 2 ^ 8) ((ct + 1) / 2 ^ 8)) as [E|E]; [|by left].
    right. rewrite (proj2 (Z.eqb_eq (e / 2 ^ 14) (ct / 2 ^ 14))) by qlia.
    by rewrite E. }
  rewrite (proj2 (Z.eqb_neq (e / 2 ^ 14) (ct / 2 ^ 14))) by qlia.
  destruct (Z.eqb_spec (e / 2 ^ 14) ((ct + 1) / 2 ^ 14)) as [E14|E14].
  2: { rewrite (proj2 (Z.eqb_neq (e / 2 ^ 8) ((ct + 1) / 2 ^ 8))) by qlia.
    destruct (Z.eqb_spec (((ct + 1) / 2 ^ 14) mod 2 ^ 6) 0) as [E2|E2]; cbn [negb].
    2: { left. assert ((ct + 1) / 2 ^ 20 = ct / 2 ^ 20) as -> by qlia.
      assert ((ct + 1) / 2 ^ 26 = ct / 2 ^ 26) as -> by qlia. done. }
    rewrite (proj2 (Z.eqb_neq (e / 2 ^ 20) (ct / 2 ^ 20))) by qlia.
    destruct (Z.eqb_spec (e / 2 ^ 20) ((ct + 1) / 2 ^ 20)) as [E20|E20].
    2: { destruct (Z.eqb_spec (((ct + 1) / 2 ^ 20) mod 2 ^ 6) 0) as [E3|E3]; cbn [negb].
      2: { left. assert ((ct + 1) / 2 ^ 26 = ct / 2 ^ 26) as -> by qlia. done. }
      rewrite (proj2 (Z.eqb_neq (e / 2 ^ 26) (ct / 2 ^ 26))) by qlia.
      destruct (Z.eqb_spec (e / 2 ^ 26) ((ct + 1) / 2 ^ 26)) as [E26|E26]; [|by left].
      right. by rewrite E26. }
    destruct (Z.eqb_spec (((ct + 1) / 2 ^ 20) mod 2 ^ 6) 0) as [E3|E3]; cbn [negb].
    - right. rewrite (proj2 (Z.eqb_neq (e / 2 ^ 26) (ct / 2 ^ 26))) by qlia.
      do 2 f_equal. qlia.
    - right. rewrite (proj2 (Z.eqb_eq (e / 2 ^ 26) (ct / 2 ^ 26))) by qlia.
      by rewrite E20. }
  right. destruct (Z.eqb_spec (((ct + 1) / 2 ^ 14) mod 2 ^ 6) 0) as [E2|E2]; cbn [negb].
  2: { rewrite (proj2 (Z.eqb_eq (e / 2 ^ 20) (ct / 2 ^ 20))) by qlia.
    by rewrite E14. }
  rewrite (proj2 (Z.eqb_neq (e / 2 ^ 20) (ct / 2 ^ 20))) by qlia.
  destruct (Z.eqb_spec (((ct + 1) / 2 ^ 20) mod 2 ^ 6) 0) as [E3|E3]; cbn [negb].
  2: { rewrite (proj2 (Z.eqb_eq (e / 2 ^ 26) (ct / 2 ^ 26))) by qlia.
    do 2 f_equal. qlia. }
  rewrite (proj2 (Z.eqb_neq (e / 2 ^ 26) (ct / 2 ^ 26))) by qlia.
  do 2 f_equal. qlia.
Qed.

(** A node not yet due keeps its list when the clock advances, unless its list
    is the one redistributed. *)
Lemma slot_of_tick ct e :
  0 ≤ ct < 2 ^ 32 → 0 ≤ e < 2 ^ 32 → 1 ≤ remaining ct e < 2 ^ 31 →
  slot_of (u32 (ct + 1)) e = slot_of ct e ∨ moved (u32 (ct + 1)) = Some (slot_of ct e).
Proof.
  intros Hct He Hr. destruct (remaining_cases ct e Hct He Hr) as [(-> & -> & ?)|(? & -> & ?)].
  - apply slot_of_wrap. lia.
  - apply slot_of_step; [lia|done|done].
Qed.

(** ** The operations keep the wheel *)

Lemma wheel_add lo T n :
  wheel lo T → 0 ≤ expire n < 2 ^ 32 → lo ≤ remaining (time T) (expire n) < 2 ^ 31 →
  ∃ T', add_node T n = Some T' ∧ wheel lo T' ∧ time T' = time T
    ∧ all_nodes T' ≡ₚ n :: all_nodes T
    ∧ (∀ s, slot_valid s → s ≠ slot_of (time T) (expire n) → slot_list T' s = slot_list T s).
Proof.
  intros [Hs Hn] He Hr. pose proof (slot_of_valid (time T) (expire n)) as Hv.
  rewrite add_node_put by done. eexists. split; [done|].
  split; [|split; [apply put_time|split]].
  - split; [by apply put_shape|]. intros s n' Hvs. rewrite put_slot, put_time by done.
    case_decide as E; [|by apply Hn]. rewrite elem_of_app, list_elem_of_singleton.
    intros [H| ->]; [rewrite E in H; by apply Hn|]. split; [done|]. by split.
  - apply (Permutation_app_inv_r (slot_list T (slot_of (time T) (expire n)))).
    rewrite put_nodes by done. rewrite (Permutation_app_comm _ [n]), app_assoc.
    by rewrite (Permutation_app_comm _ [n]).
  - intros s Hvs Hne. rewrite put_slot by done. by rewrite decide_False.
Qed.

Lemma wheel_adds lo l : ∀ T,
  wheel lo T →
  Forall (λ n, 0 ≤ expire n < 2 ^ 32 ∧ lo ≤ remaining (time T) (expire n) < 2 ^ 31) l →
  ∃ T', add_nodes T l = Some T' ∧ wheel lo T' ∧ time T' = time T ∧ all_nodes T' ≡ₚ l ++ all_nodes T.
Proof.
  induction l as [|n l IH]; intros T Hw HF; [by exists T|].
  apply Forall_cons in HF as [[He Hr] HF].
  destruct (wheel_add lo T n Hw He Hr) as (T1 & E & Hw1 & Ht & Hp & _).
  destruct (IH T1 Hw1) as (T2 & E2 & Hw2 & Ht2 & Hp2); [by rewrite Ht|].
  exists T2. simpl. rewrite E. split; [done|]. split; [done|]. split; [congruence|].
  rewrite Hp2, Hp. symmetry. apply Permutation_middle.
Qed.

(** Taking a whole list off the wheel. *)
Lemma wheel_clear lo T s :
  wheel lo T → slot_valid s →
  wheel lo (put T s []) ∧ all_nodes T ≡ₚ slot_list T s ++ all_nodes (put T s []).
Proof.
  intros [Hs Hn] Hv. split.
  - split; [by apply put_shape|]. intros s' n Hv'. rewrite put_slot, put_time by done.
    case_decide; [|by apply Hn]. intros Hx. by apply not_elem_of_nil in Hx.
  - pose proof (put_nodes T s [] Hs Hv) as H. rewrite app_nil_r in H. rewrite <- H.
    apply Permutation_app_comm.
Qed.

(** A row of the wheel read and rewritten, as [move_list] does. *)
Lemma move_list_put T i j :
  wheel_shape T → slot_valid (Level i j) →
  move_list T i j = add_nodes (put T (Level i j) []) (slot_list T (Level i j)).
Proof.
  intros Hs Hv. destruct (row_get T i j Hs Hv) as (row & E & Hl). destruct Hv as [Hi Hj].
  unfold move_list. rewrite E. destruct (arr_get_is_Some row j) as [l El]; [lia|]. rewrite El.
  cbn [link_clear]. rewrite (arr_set_Some row) by lia.
  rewrite (arr_set_Some (t T)) by (rewrite (shape_t _ Hs); lia).
  cbn [put slot_list]. rewrite E. simpl. by rewrite El.
Qed.

(** One round of the loop, by quotients. *)
Lemma shift_loop_step fuel T ct k i :
  0 ≤ k → ct mod 2 ^ k = 0 →
  shift_loop (S fuel) T ct (2 ^ k) (ct / 2 ^ k) i =
  if (ct / 2 ^ k) mod 2 ^ 6 =? 0 then
    (mask ← int_chk (2 ^ (k + 6)); shift_loop fuel T ct mask (ct / 2 ^ (k + 6)) (i + 1))
  else move_list T i ((ct / 2 ^ k) mod 2 ^ 6).
Proof.
  intros Hk E. cbn [shift_loop]. change TIME_LEVEL_MASK with (2 ^ 6 - 1).
  rewrite !land_mask, E by lia. cbn [Z.eqb]. unfold TIME_LEVEL_SHIFT.
  rewrite Z.shiftl_mul_pow2, Z.shiftr_div_pow2, Z.div_div, <- Z.pow_add_r by lia.
  by destruct ((ct / 2 ^ k) mod 2 ^ 6 =? 0).
Qed.

Lemma mod_next ct k : 0 ≤ k →
  ct mod 2 ^ k = 0 → (ct / 2 ^ k) mod 2 ^ 6 = 0 → ct mod 2 ^ (k + 6) = 0.
Proof.
  intros Hk H1 H2. rewrite Z.pow_add_r, Z.rem_mul_r by lia. lia.
Qed.

(** The masks of [timer_shift] pick the list [moved] names; the [int] mask
    never overflows. *)
Lemma timer_shift_moved T :
  wheel_shape T →
  let T1 := T <| time := u32 (time T + 1) |> in
  timer_shift T = match moved (time T1) with
                  | None => Some T1
                  | Some s => add_nodes (put T1 s []) (slot_list T1 s)
                  end.
Proof.
  intros Hs T1. pose proof (u32_range (time T + 1)) as Hct.
  assert (wheel_shape T1) as Hs1 by (destruct Hs; split; simpl; done).
  assert (∀ i x, 0 ≤ i < 4 → move_list T1 i (x mod 2 ^ 6) =
    add_nodes (put T1 (Level i (x mod 2 ^ 6)) []) (slot_list T1 (Level i (x mod 2 ^ 6)))) as Hm.
  { intros i x Hi. apply move_list_put; [done|]. split; [done|]. apply Z.mod_pos_bound. lia. }
  unfold timer_shift. change (time T1) with (u32 (time T + 1)). fold T1.
  set (ct := u32 (time T + 1)) in *. clearbody ct T1. unfold moved.
  destruct (Z.eqb_spec ct 0) as [->|Hne]; [apply (Hm 3 0); lia|].
  unfold TIME_NEAR_SHIFT. rewrite Z.shiftr_div_pow2 by lia. change TIME_NEAR with (2 ^ 8).
  destruct (Z.eqb_spec (ct mod 2 ^ 8) 0) as [E0|E0]; cbn [negb].
  2: { cbn [shift_loop]. rewrite land_mask by lia. by rewrite (proj2 (Z.eqb_neq _ _) E0). }
  rewrite shift_loop_step by done.
  destruct (Z.eqb_spec ((ct / 2 ^ 8) mod 2 ^ 6) 0) as [E1|E1]; cbn [negb]; [|apply Hm; lia].
  apply mod_next in E1; [|lia|done]. change (int_chk (2 ^ (8 + 6))) with (Some (2 ^ (8 + 6))).
  cbv iota beta. rewrite shift_loop_step by (done || lia).
  destruct (Z.eqb_spec ((ct / 2 ^ 14) mod 2 ^ 6) 0) as [E2|E2]; cbn [negb].
  2: { change (8 + 6) with 14. rewrite (proj2 (Z.eqb_neq _ _) E2). apply Hm. lia. }
  change (8 + 6) with 14 in *. rewrite E2. cbn [Z.eqb].
  apply mod_next in E2; [|lia|done]. change (int_chk (2 ^ (14 + 6))) with (Some (2 ^ (14 + 6))).
  cbv iota beta. rewrite shift_loop_step by (done || lia). change (14 + 6) with 20 in *.
  destruct (Z.eqb_spec ((ct / 2 ^ 20) mod 2 ^ 6) 0) as [E3|E3]; cbn [negb]; [|apply Hm; lia].
  apply mod_next in E3; [|lia|done]. change (int_chk (2 ^ (20 + 6))) with (Some (2 ^ (20 + 6))).
  cbv iota beta. rewrite shift_loop_step by (done || lia). change (20 + 6) with 26 in *.
  rewrite (proj2 (Z.eqb_neq ((ct / 2 ^ 26) mod 2 ^ 6) 0)) by qlia. apply Hm. lia.
Qed.

Lemma moved_valid ct s : moved ct = Some s → slot_valid s.
Proof.
  unfold moved. repeat case_match; intros [= <-]; simpl; repeat split; try lia;
    apply Z.mod_pos_bound; lia.
Qed.

Lemma slot_list_time T ct s : slot_list (T <| time := ct |>) s = slot_list T s.
Proof. by destruct s. Qed.

(** The tick itself loses nothing and leaves every node where it belongs. *)
Lemma wheel_shift T :
  wheel 1 T →
  ∃ T', timer_shift T = Some T' ∧ wheel 0 T' ∧ time T' = u32 (time T + 1)
    ∧ all_nodes T' ≡ₚ all_nodes T.
Proof.
  intros [Hs Hn]. rewrite timer_shift_moved by done. cbv zeta.
  set (T1 := T <| time := u32 (time T + 1) |>).
  assert (wheel_shape T1) as Hs1.
  { pose proof (u32_range (time T + 1)). destruct Hs. split; simpl; done. }
  assert (∀ s n, slot_valid s → n ∈ slot_list T1 s → 0 ≤ expire n < 2 ^ 32 ∧
    0 ≤ remaining (time T1) (expire n) < 2 ^ 31 ∧
    (slot_of (time T1) (expire n) = s ∨ moved (time T1) = Some s)) as Hn1.
  { intros s n Hv H. destruct (Hn s n Hv) as (He & Hso & Hr); [by destruct s|].
    split; [done|]. change (time T1) with (u32 (time T + 1)).
    rewrite remaining_tick by lia. split; [lia|]. rewrite <- Hso.
    by apply slot_of_tick; [apply (shape_time _ Hs)|..]. }
  destruct (moved (time T1)) as [s|] eqn:Em.
  - pose proof (moved_valid _ _ Em) as Hv.
    assert (wheel 0 (put T1 s [])) as Hw.
    { split; [by apply put_shape|]. intros s' n Hv'. rewrite put_slot, put_time by done.
      case_decide as E; [intros H; by apply not_elem_of_nil in H|].
      intros H. destruct (Hn1 s' n Hv' H) as (? & ? & [?|[= ?]]); [|done]. by split. }
    destruct (wheel_adds 0 (slot_list T1 s) _ Hw) as (T' & E & Hw' & Ht & Hp).
    { rewrite put_time. apply Forall_forall. intros n H. destruct (Hn1 s n Hv H) as (? & ? & _). by split. }
    exists T'. split; [done|]. split; [done|]. rewrite Ht, put_time. split; [done|].
    rewrite Hp. symmetry. change (all_nodes T) with (all_nodes T1).
    pose proof (put_nodes T1 s [] Hs1 Hv) as H. rewrite app_nil_r in H. rewrite <- H.
    apply Permutation_app_comm.
  - exists T1. split; [done|]. split; [|done]. split; [done|]. intros s n Hv H.
    destruct (Hn1 s n Hv H) as (? & ? & [?|?]); [by split|done].
Qed.

(** The list executed at the current tick: on a wheel, the nodes due now. *)
Definition due (T : timer) : list timer_node := slot_list T (Near (time T mod 2 ^ 8)).

Lemma due_slot ct e : slot_of ct e = Near (ct mod 2 ^ 8) ↔ e = ct.
Proof.
  split; [|intros ->; unfold slot_of; by rewrite Z.eqb_refl].
  unfold slot_of. destruct (Z.eqb_spec (e / 2 ^ 8) (ct / 2 ^ 8)) as [E|E].
  - intros [= H]. qlia.
  - by repeat case_match.
Qed.

Lemma remaining_0 ct e : 0 ≤ ct < 2 ^ 32 → 0 ≤ e < 2 ^ 32 → remaining ct e = 0 ↔ e = ct.
Proof.
  intros Hc He. unfold remaining, u32. split; [|intros ->; by rewrite Z.sub_diag].
  intros H. destruct (decide (ct ≤ e)).
  - rewrite Z.mod_small in H; lia.
  - replace (e - ct) with (e - ct + 2 ^ 32 + (-1) * 2 ^ 32) in H by lia.
    rewrite Z_mod_plus_full, Z.mod_small in H; lia.
Qed.

Lemma due_valid T : slot_valid (Near (time T mod 2 ^ 8)).
Proof. apply Z.mod_pos_bound. lia. Qed.

Lemma wheel_due lo T n : wheel lo T → n ∈ all_nodes T → n ∈ due T ↔ expire n = time T.
Proof.
  intros [Hs Hn] (s & Hv & H)%elem_of_all_nodes; [|done].
  destruct (Hn s n Hv H) as (He & Hso & Hr). unfold due. split.
  - intros Hd. destruct (Hn _ n (due_valid T) Hd) as (_ & E & _). by apply due_slot in E.
  - intros E. apply due_slot in E. rewrite E in Hso. by subst s.
Qed.

Lemma wheel_1_due T : wheel 1 T → due T = [].
Proof.
  intros [Hs Hn]. destruct (due T) as [|n l] eqn:E; [done|].
  destruct (Hn (Near (time T mod 2 ^ 8)) n (due_valid T)) as (He & Hso & Hr).
  { unfold due in E. rewrite E. by left. }
  apply due_slot in Hso. apply (remaining_0 (time T) (expire n)) in Hso; [lia|apply (shape_time _ Hs)|done].
Qed.

(** With the due list gone every node left has a tick to wait. *)
Lemma wheel_0_cleared T : wheel 0 T → wheel 1 (put T (Near (time T mod 2 ^ 8)) []).
Proof.
  intros [Hs Hn]. pose proof (due_valid T) as Hd. split; [by apply put_shape|].
  intros s n Hv. rewrite put_slot, put_time by done.
  case_decide as E; [intros H; by apply not_elem_of_nil in H|].
  intros H. destruct (Hn s n Hv H) as (He & Hso & Hr). split; [done|]. split; [done|].
  destruct (decide (remaining (time T) (expire n) = 0)) as [E0|]; [|lia].
  apply (remaining_0 (time T) (expire n)) in E0; [|apply (shape_time _ Hs)|done]. apply due_slot in E0. congruence.
Qed.

(** A timeout another thread may ask for: a positive [int], below 2^31. *)
Definition call_ok (c : timeout_call) : Prop := 1 ≤ c.1 < 2 ^ 31.

Definition new_node (ct : Z) (c : timeout_call) : timer_node :=
  {| expire := u32 (c.1 + ct); node_event := c.2 |}.

Lemma remaining_new ct tm : 0 ≤ tm < 2 ^ 32 → remaining ct (u32 (tm + ct)) = tm.
Proof.
  intros H. unfold remaining, u32. rewrite Zminus_mod_idemp_l.
  replace (tm + ct - ct) with tm by lia. by apply Z.mod_small.
Qed.

Lemma wheel_timer_add T tm arg :
  wheel 1 T → 1 ≤ tm < 2 ^ 31 →
  ∃ T', timer_add T arg tm = Some T' ∧ wheel 1 T' ∧ time T' = time T
    ∧ all_nodes T' ≡ₚ new_node (time T) (tm, arg) :: all_nodes T.
Proof.
  intros Hw Htm. destruct (wheel_add 1 T (new_node (time T) (tm, arg)) Hw) as (T' & E & Hw' & Ht & Hp & _).
  - apply u32_range.
  - simpl. rewrite remaining_new; lia.
  - by exists T'.
Qed.

Lemma wheel_run_adds adds : ∀ T,
  wheel 1 T → Forall call_ok adds →
  ∃ T', run_adds T adds = Some T' ∧ wheel 1 T' ∧ time T' = time T
    ∧ all_nodes T' ≡ₚ map (new_node (time T)) adds ++ all_nodes T.
Proof.
  induction adds as [|[tm arg] adds IH]; intros T Hw HF; [by exists T|].
  apply Forall_cons in HF as [Hc HF].
  destruct (wheel_timer_add T tm arg Hw Hc) as (T1 & E & Hw1 & Ht & Hp).
  destruct (IH T1 Hw1 HF) as (T2 & E2 & Hw2 & Ht2 & Hp2).
  exists T2. simpl. rewrite E. split; [done|]. split; [done|]. split; [congruence|].
  rewrite Hp2, Hp, Ht. symmetry. apply Permutation_middle.
Qed.

Lemma timer_execute_idle fuel env T : wheel 1 T → timer_execute (S fuel) env T = Some ([], T).
Proof.
  intros Hw. pose proof (wheel_1_due T Hw) as Hd. unfold due, slot_list in Hd. simpl.
  change TIME_NEAR_MASK with (2 ^ 8 - 1). rewrite land_mask by lia.
  destruct (arr_get_is_Some (near T) (time T mod 2 ^ 8)) as [l E].
  { rewrite (shape_near _ (wheel_is _ _ Hw)). apply Z.mod_pos_bound. lia. }
  rewrite E in Hd |- *. simpl in Hd. by subst l.
Qed.

Definition expires_at (e : Z) (n : timer_node) : Prop := expire n = e.
#[export] Instance expires_at_dec e n : Decision (expires_at e n).
Proof. unfold expires_at. apply _. Defined.

Lemma wheel_1_not_due T : wheel 1 T → Forall (λ n, ¬ expires_at (time T) n) (all_nodes T).
Proof.
  intros Hw. apply Forall_forall. intros n H E. apply (wheel_due 1 T n Hw H) in E.
  rewrite wheel_1_due in E by done. by apply not_elem_of_nil in E.
Qed.

(** One execution dispatches the due list, once, in list order. *)
Lemma wheel_execute fuel env T :
  wheel 0 T → Forall call_ok (hd [] env) →
  ∃ T', timer_execute (S (S fuel)) env T = Some (dispatch_list (due T), T')
    ∧ wheel 1 T' ∧ time T' = time T
    ∧ ∃ rest, all_nodes T ≡ₚ due T ++ rest ∧ Forall (λ n, ¬ expires_at (time T) n) rest
    ∧ all_nodes T' ≡ₚ match due T with [] => [] | _ => map (new_node (time T)) (hd [] env) end ++ rest.
Proof.
  intros Hw HF. pose proof (due_valid T) as Hv.
  destruct (wheel_clear 0 T _ Hw Hv) as [_ Hp]. fold (due T) in Hp.
  pose proof (wheel_0_cleared T Hw) as Hw1.
  set (T1 := put T _ []) in *.
  destruct (arr_get_is_Some (near T) (time T mod 2 ^ 8)) as [l E].
  { rewrite (shape_near _ (wheel_is _ _ Hw)). apply Z.mod_pos_bound. lia. }
  assert (due T = l) as Hdl by (unfold due, slot_list; by rewrite E).
  remember (S fuel) as f eqn:Ef. cbn [timer_execute].
  change TIME_NEAR_MASK with (2 ^ 8 - 1). rewrite land_mask, E by lia. rewrite Hdl in *.
  destruct l as [|n l].
  - assert (wheel 1 T) as HwT.
    { destruct Hw as [Hs Hn]. split; [done|]. intros s n Hvs H.
      destruct (Hn s n Hvs H) as (He & Hso & Hr). split; [done|]. split; [done|].
      destruct (decide (remaining (time T) (expire n) = 0)) as [E0|]; [|lia].
      apply (remaining_0 (time T) (expire n)) in E0; [|apply (shape_time _ Hs)|done].
      apply due_slot in E0. rewrite E0 in Hso. subst s.
      fold (due T) in H. rewrite Hdl in H. by apply not_elem_of_nil in H. }
    exists T. split; [done|]. split; [done|]. split; [done|].
    exists (all_nodes T). split; [done|]. split; [by apply wheel_1_not_due|done].
  - cbn [link_clear]. rewrite arr_set_Some by (by eapply arr_get_Some).
    change (T <| near := <[Z.to_nat (time T mod 2 ^ 8) := []]> (near T) |>) with T1.
    assert (time T1 = time T) as Ht1 by apply put_time.
    destruct (wheel_run_adds (hd [] env) T1 Hw1 HF) as (T2 & -> & Hw2 & Ht2 & Hp2).
    subst f. rewrite timer_execute_idle by done. rewrite app_nil_r.
    exists T2. split; [done|]. split; [done|]. split; [congruence|].
    exists (all_nodes T1). split; [done|]. split; [|by rewrite Hp2, Ht1].
    rewrite <- Ht1. by apply wheel_1_not_due.
Qed.

#[export] Instance dispatch_list_proper : Proper ((≡ₚ) ==> (≡ₚ)) dispatch_list.
Proof. intros l k H. by apply Permutation_map. Qed.

Lemma wheel_due_Forall T : wheel 0 T → Forall (expires_at (time T)) (due T).
Proof.
  intros Hw. apply Forall_forall. intros n H. apply (wheel_due 0 T n Hw); [|done].
  apply elem_of_all_nodes; [apply (wheel_is _ _ Hw)|]. eexists. split; [apply due_valid|exact H].
Qed.

(** ** Properties *)

(** C21: one [timer_update] on a well-formed wheel cannot fail; it advances the
    32-bit clock by one, dispatches exactly the nodes whose expiry is the new
    tick, keeps all others, takes in what other threads add while it
    dispatches (positive timeouts below 2^31), and leaves a well-formed wheel. *)
Theorem timer_update_refines env0 env T :
  wheel 1 T → Forall call_ok (hd [] env) →
  ∃ out T', timer_update env0 env T = Some (out, T') ∧ wheel 1 T'
    ∧ time T' = u32 (time T + 1)
    ∧ let fired := filter (expires_at (time T')) (all_nodes T) in
      let rest := filter (λ n, ¬ expires_at (time T') n) (all_nodes T) in
      out ≡ₚ dispatch_list fired
      ∧ all_nodes T' ≡ₚ match fired with
                        | [] => rest
                        | _ => map (new_node (time T')) (hd [] env) ++ rest
                        end.
Proof.
  intros Hw HF. unfold timer_update, execute_fuel. rewrite timer_execute_idle by done.
  destruct (wheel_shift T Hw) as (T1 & -> & Hw1 & Ht1 & Hp1).
  destruct (wheel_execute 1 env T1 Hw1 HF) as (T2 & -> & Hw2 & Ht2 & rest & Hp & Hr & Hp2).
  exists (dispatch_list (due T1)), T2. rewrite Ht2. split; [done|]. split; [done|]. split; [done|].
  pose proof (wheel_due_Forall T1 Hw1) as Hd. cbv zeta.
  destruct (filter_split (expires_at (time T1)) (all_nodes T) (due T1) rest) as [Hf Hfr];
    [by rewrite <- Hp1|done|done|].
  split; [by rewrite Hf|]. rewrite Hp2.
  destruct (due T1) as [|n l] eqn:E.
  - apply Permutation_nil_r in Hf as ->. by rewrite Hfr.
  - destruct (filter (expires_at (time T1)) (all_nodes T)).
    + by apply Permutation_nil_l in Hf.
    + by rewrite Hfr.
Qed.

Definition due_in (ct k : Z) (n : timer_node) : Prop := remaining ct (expire n) = k.
#[export] Instance due_in_dec ct k n : Decision (due_in ct k n).
Proof. unfold due_in. apply _. Defined.

(** Any number of ticks: tick [k] dispatches the nodes with [k] ticks left. *)
Lemma update_loop_schedule n : ∀ T,
  wheel 1 T →
  ∃ outs T', update_loop n T = Some (outs, T') ∧ wheel 1 T' ∧ length outs = n ∧
    ∀ k out, outs !! k = Some out →
      out ≡ₚ dispatch_list (filter (due_in (time T) (Z.of_nat k + 1)) (all_nodes T)).
Proof.
  induction n as [|n IH]; intros T Hw; [by exists [], T|].
  destruct (timer_update_refines [] [] T Hw) as (out & T1 & E & Hw1 & Ht & Hout & Hrest); [constructor|].
  destruct (IH T1 Hw1) as (outs & T2 & E2 & Hw2 & Hl & Hs).
  exists (out :: outs), T2. simpl. rewrite E, E2. split; [done|]. split; [done|].
  split; [by rewrite Hl|].
  pose proof (wheel_is _ _ Hw) as Hsh. pose proof (shape_time _ Hsh) as Hct.
  assert (∀ m, m ∈ all_nodes T → 0 ≤ expire m < 2 ^ 32 ∧ 1 ≤ remaining (time T) (expire m)) as Hm.
  { intros m (s & Hv & H)%elem_of_all_nodes; [|done].
    destruct (wheel_nodes _ _ Hw s m Hv H) as (? & _ & ?). split; [done|lia]. }
  assert (∀ m, m ∈ all_nodes T → remaining (time T1) (expire m) = remaining (time T) (expire m) - 1)
    as Hrem by (intros m H; rewrite Ht; apply remaining_tick; by apply Hm).
  assert (0 ≤ time T1 < 2 ^ 32) as Hct1 by (rewrite Ht; apply u32_range).
  assert (∀ m, m ∈ all_nodes T → expires_at (time T1) m ↔ due_in (time T) 1 m) as Hdue.
  { intros m H. unfold expires_at, due_in. destruct (Hm m H).
    rewrite <- (remaining_0 (time T1) (expire m)) by done. rewrite Hrem by done. lia. }
  intros [|k] o.
  - intros [= <-]. rewrite Hout. by rewrite (filter_iff _ (due_in (time T) 1) _ Hdue).
  - intros H. simpl in H. rewrite (Hs k o H). apply dispatch_list_proper.
    assert (all_nodes T1 ≡ₚ filter (λ n, ¬ expires_at (time T1) n) (all_nodes T)) as ->.
    { rewrite Hrest. by destruct (filter _ _). }
    rewrite list_filter_filter. rewrite (filter_iff _ (due_in (time T) (Z.of_nat (S k) + 1))); [done|].
    intros m H'. specialize (Hdue m H'). specialize (Hrem m H'). unfold due_in in *.
    destruct (decide (expires_at (time T1) m)) as [Hx|Hx].
    + split; [by intros [_ ?]|]. apply Hdue in Hx. lia.
    + rewrite Hrem. split; [intros [? _]; lia|]. split; [lia|done].
Qed.

(** C7: a timeout of [tm] ticks (0 < tm < 2^31) set on a well-formed wheel is
    answered by its message in tick number [tm] from now and in no other,
    also when the 32-bit clock wraps in between, and the other pending
    timeouts fire in the ticks they were due in before. *)
Theorem skynet_timeout_on_time push_ok handle tm session T n :
  wheel 1 T → 1 ≤ tm < 2 ^ 31 →
  ∃ T1 outs T2, skynet_timeout push_ok handle tm session T = Some (session, [], T1)
    ∧ update_loop n T1 = Some (outs, T2) ∧ length outs = n
    ∧ ∀ k out, outs !! k = Some out →
        out ≡ₚ (if Z.of_nat k + 1 =? tm then [timer_message (TimerEvent handle session)] else [])
               ++ dispatch_list (filter (due_in (time T) (Z.of_nat k + 1)) (all_nodes T)).
Proof.
  intros Hw Htm.
  destruct (wheel_timer_add T tm (TimerEvent handle session) Hw Htm) as (T1 & E & Hw1 & Ht & Hp).
  destruct (update_loop_schedule n T1 Hw1) as (outs & T2 & E2 & _ & Hl & Hs).
  exists T1, outs, T2. unfold skynet_timeout. destruct (Z.leb_spec tm 0); [lia|].
  rewrite E. split; [done|]. split; [done|]. split; [done|].
  intros k out Hk. rewrite (Hs k out Hk), Ht, Hp.
  assert (due_in (time T) (Z.of_nat k + 1) (new_node (time T) (tm, TimerEvent handle session))
    ↔ tm = Z.of_nat k + 1) as Hn.
  { unfold due_in. simpl. rewrite remaining_new; lia. }
  destruct (Z.eqb_spec (Z.of_nat k + 1) tm) as [Ek|Ek].
  - rewrite filter_cons_True by (apply Hn; lia). done.
  - rewrite filter_cons_False by (rewrite Hn; lia). done.
Qed.

Lemma wheel_create : wheel 1 timer_create_timer.
Proof.
  split; [split; try done; repeat constructor|].
  intros s n Hv H. exfalso. revert H.
  assert (slot_list timer_create_timer s = []) as ->; [|apply not_elem_of_nil].
  assert (∀ (l : list (list timer_node)) n j, l = replicate n [] → default [] l.[j] = []) as Hr.
  { intros l m j ->. destruct (replicate m []).[j] as [x|] eqn:E; [|done]. unfold arr_get in E.
    destruct (0 <=? j); [|done]. by apply lookup_replicate_1 in E as [-> _]. }
  destruct s as [j|i j]; cbn [slot_list]; [by eapply Hr|].
  destruct (t timer_create_timer).[i] as [row|] eqn:E; [|by apply (Hr [] 0%nat)].
  unfold arr_get in E. destruct (0 <=? i); [|done].
  apply lookup_replicate_1 in E as [-> _]. by eapply Hr.
Qed.

(** The wheel just before the clock wraps, with one timeout for after it. *)
Lemma wheel_clock lo T ct : all_nodes T = [] → 0 ≤ ct < 2 ^ 32 → wheel lo T → wheel lo (T <| time := ct |>).
Proof.
  intros Ha Hct [Hs Hn]. split; [by destruct Hs|]. intros s n Hv H. exfalso.
  assert (n ∈ all_nodes T) as Hx; [|rewrite Ha in Hx; by apply not_elem_of_nil in Hx].
  apply elem_of_all_nodes; [done|]. exists s. split; [done|]. by destruct s.
Qed.

Lemma skynet_timeout_on_time_witness :
  let T := timer_create_timer <| time := 2 ^ 32 - 2 |> in
  wheel 1 T ∧ ∃ T1 outs T2,
    skynet_timeout (λ _, true) 5 7 9 T = Some (9, [], T1) ∧
    update_loop 8 T1 = Some (outs, T2) ∧ outs !! 6%nat = Some [timer_message (TimerEvent 5 9)].
Proof.
  intros T. assert (wheel 1 T) as Hw.
  { apply (wheel_clock 1 timer_create_timer (2 ^ 32 - 2)); [done|lia|apply wheel_create]. }
  split; [exact Hw|].
  destruct (skynet_timeout_on_time (λ _, true) 5 7 9 T 8 Hw) as (T1 & outs & T2 & E1 & E2 & Hl & Hs);
    [lia|].
  exists T1, outs, T2. split; [exact E1|]. split; [exact E2|].
  destruct (outs !! 6%nat) as [out|] eqn:E.
  - apply Hs in E. change (all_nodes T) with (@nil timer_node) in E. simpl in E.
    symmetry in E. apply Permutation_length_1_inv in E as ->. done.
  - apply lookup_ge_None in E. lia.
Defined.

Lemma timer_update_refines_witness :
  wheel 1 timer_create_timer ∧ Forall call_ok (hd [] [[(5, TimerEvent 1 2)]]) ∧
  ∃ out T', timer_update [] [[(5, TimerEvent 1 2)]] timer_create_timer = Some (out, T') ∧ wheel 1 T'.
Proof.
  pose proof wheel_create as Hw.
  assert (Forall call_ok (hd [] [[(5, TimerEvent 1 2)]])) as HF.
  { repeat constructor; simpl; lia. }
  split; [exact Hw|]. split; [exact HF|].
  destruct (timer_update_refines [] [[(5, TimerEvent 1 2)]] _ Hw HF) as (out & T' & E & Hw' & _).
  by exists out, T'.
Defined.

(** ** The wall clock of the timer thread *)

(** The wheel operations leave the clock readings alone. *)
Definition clock (T : timer) : Z * Z * Z := (starttime T, current T, current_point T).

Ltac step_inv H :=
  repeat match type of H with
  | None = Some _ => discriminate H
  | Some _ = Some _ => injection H as <-
  | Some (_, _) = Some (_, _) => injection H as <- <-
  | match ?e with _ => _ end = Some _ => let E := fresh "E" in destruct e eqn:E
  end.

Lemma add_node_clock T n T' : add_node T n = Some T' → clock T' = clock T.
Proof. unfold add_node. cbv zeta. intros H. step_inv H; done. Qed.

Lemma add_nodes_clock l : ∀ T T', add_nodes T l = Some T' → clock T' = clock T.
Proof.
  induction l as [|n l IH]; intros T T' H; simpl in H; [by injection H as <-|].
  bind_inv H. etrans; [by eapply IH|by eapply add_node_clock].
Qed.

Lemma move_list_clock T i j T' : move_list T i j = Some T' → clock T' = clock T.
Proof.
  unfold move_list. intros H. do 2 bind_inv H. cbn [link_clear] in H. do 2 bind_inv H.
  by apply add_nodes_clock in H.
Qed.

Lemma shift_loop_clock fuel : ∀ T ct mask tm i T',
  shift_loop fuel T ct mask tm i = Some T' → clock T' = clock T.
Proof.
  induction fuel as [|fuel IH]; intros T ct mask tm i T' H; [done|]. cbn [shift_loop] in H.
  destruct (_ =? 0); [|by injection H as <-]. destruct (negb _); [by eapply move_list_clock|].
  bind_inv H. by eapply IH.
Qed.

Lemma timer_shift_clock T T' : timer_shift T = Some T' → clock T' = clock T.
Proof.
  unfold timer_shift. destruct (_ =? 0); intros H.
  - by apply move_list_clock in H.
  - by apply shift_loop_clock in H.
Qed.

Lemma run_adds_clock adds : ∀ T T', run_adds T adds = Some T' → clock T' = clock T.
Proof.
  induction adds as [|[tm arg] adds IH]; intros T T' H; simpl in H; [by injection H as <-|].
  bind_inv H. etrans; [by eapply IH|by eapply add_node_clock].
Qed.

Lemma timer_execute_clock fuel : ∀ env T out T',
  timer_execute fuel env T = Some (out, T') → clock T' = clock T.
Proof.
  induction fuel as [|fuel IH]; intros env T out T' H; [done|]. cbn [timer_execute] in H.
  bind_inv H. destruct l as [|n l]; [by injection H as _ <-|]. cbn [link_clear] in H.
  do 2 bind_inv H. bind_inv H. destruct p as [out2 T2]. injection H as _ <-.
  etrans; [by eapply IH|]. apply run_adds_clock in E1. done.
Qed.

Lemma update_loop_clock n : ∀ T outs T', update_loop n T = Some (outs, T') → clock T' = clock T.
Proof.
  induction n as [|n IH]; intros T outs T' H; [by injection H as _ <-|]. cbn [update_loop] in H.
  bind_inv H. destruct p as [o T1]. bind_inv H. destruct p as [os T2]. injection H as _ <-.
  etrans; [by eapply IH|]. unfold timer_update in E.
  bind_inv E. destruct p as [o1 Ta]. bind_inv E. bind_inv E. destruct p as [o2 Tb].
  injection E as _ <-. etrans; [by eapply timer_execute_clock|].
  etrans; [by eapply timer_shift_clock|by eapply timer_execute_clock].
Qed.

(** A [timespec] as the kernel fills it. *)
Definition ts_ok (ti : timespec) : Prop := 0 ≤ tv_sec ti < 2 ^ 56 ∧ 0 ≤ tv_nsec ti < NANOSEC.
Definition nanoseconds (ti : timespec) : Z := tv_sec ti * NANOSEC + tv_nsec ti.

Lemma gettime_exact ti : ts_ok ti → gettime ti = nanoseconds ti / 10000000.
Proof.
  intros [Hs Hn]. unfold nanoseconds, NANOSEC in *. unfold gettime.
  rewrite Z.quot_div_nonneg by lia.
  assert (0 ≤ tv_nsec ti / 10000000 < 100) by qlia.
  rewrite (u64_small (tv_sec ti)), (u64_small (tv_sec ti * 100)), u64_small by lia. qlia.
Qed.

(** With a monotonic clock, [skynet_updatetime] runs one [timer_update] per
    elapsed centisecond (fewer than 2^32 of them), moves [current] and the
    reference point by exactly that much, never takes the time-error branch,
    and dispatches every pending timeout with [k] ticks left in its [k]-th
    update. *)
Theorem skynet_updatetime_ticks ti0 ti T :
  wheel 1 T → ts_ok ti0 → ts_ok ti → nanoseconds ti0 ≤ nanoseconds ti →
  current_point T = gettime ti0 → gettime ti - gettime ti0 < 2 ^ 32 → 0 ≤ current T < 2 ^ 63 →
  ∃ outs T', skynet_updatetime ti T = Some (outs, T') ∧ wheel 1 T'
    ∧ Z.of_nat (length outs) = gettime ti - gettime ti0
    ∧ current_point T' = gettime ti ∧ current T' = current T + (gettime ti - gettime ti0)
    ∧ (∀ k out, outs !! k = Some out →
        out ≡ₚ dispatch_list (filter (due_in (time T) (Z.of_nat k + 1)) (all_nodes T))).
Proof.
  intros Hw H0 H1 Hle Hcp Hd Hc.
  pose proof (gettime_exact ti0 H0) as G0. pose proof (gettime_exact ti H1) as G1.
  assert (gettime ti0 ≤ gettime ti) as Hg by (rewrite G0, G1; apply Z.div_le_mono; lia).
  unfold skynet_updatetime. rewrite Hcp. destruct (Z.ltb_spec (gettime ti) (gettime ti0)); [lia|].
  destruct (Z.eqb_spec (gettime ti) (gettime ti0)) as [E|E]; cbn [negb].
  - exists [], T. rewrite E, Hcp. split; [done|]. split; [done|]. split; [simpl; lia|].
    split; [done|]. split; [lia|]. intros k out Hx. done.
  - rewrite u32_small by lia.
    set (T1 := T <| current_point := gettime ti |> <| current := u64 (current T + (gettime ti - gettime ti0)) |>).
    assert (wheel 1 T1) as Hw1.
    { destruct Hw as [[] Hn]. split; [by split|]. intros s n Hv Hx.
      apply (Hn s n Hv). by destruct s. }
    destruct (update_loop_schedule (Z.to_nat (gettime ti - gettime ti0)) T1 Hw1)
      as (outs & T' & EL & Hw' & Hl & Hs).
    exists outs, T'. split; [exact EL|]. split; [done|]. split; [lia|].
    apply update_loop_clock in EL. injection EL as _ E1 E2. rewrite E1, E2. simpl.
    rewrite u64_small by lia. by split.
Qed.

Lemma skynet_updatetime_ticks_witness :
  let T := skynet_timer_init (Timespec 0 0) (Timespec 10 0) in
  wheel 1 T ∧ ∃ outs T', skynet_updatetime (Timespec 10 30000000) T = Some (outs, T')
    ∧ current_point T' = 1003.
Proof.
  intros T.
  assert (wheel 1 T) as Hw.
  { destruct wheel_create as [[] Hn]. split; [by split|]. intros s n Hv Hx.
    apply (Hn s n Hv). by destruct s. }
  split; [exact Hw|].
  destruct (skynet_updatetime_ticks (Timespec 10 0) (Timespec 10 30000000) T) as (outs & T' & E & _ & _ & Ep & _);
    [exact Hw|split; simpl; unfold NANOSEC; lia..|vm_compute; done|done|vm_compute; done|split; vm_compute; done|].
  exists outs, T'. split; [exact E|exact Ep].
Defined.
