(* ===== verification/Lock.v ===== *)
(** * The locks: skynet-src/rwlock.h, spinlock.h and atomic.h

    Each atomic access is one step of an interleaving semantics; a thread is
    its program counter inside the lock functions.  atomic.h defines
    [ATOM_CAS] twice: by [__sync_bool_compare_and_swap], which leaves the
    expected value alone, and by C11's [atomic_compare_exchange_weak(ptr,
    &(oval), nval)], which stores the value it found into [oval] when it
    fails.  The development keeps both, as the argument [c11]. *)

From S2P Require Import Prelude.

(** ** The reader-writer lock *)

Inductive rw_pc :=
| Idle                (* outside the lock functions, holding nothing *)
| RSpin               (* rwlock_rlock: while (ATOM_LOAD(&lock->write)) {} *)
| RInc                (* ATOM_FINC(&lock->read) *)
| RCheck              (* if (ATOM_LOAD(&lock->write)) *)
| RDec                (* ATOM_FDEC(&lock->read), then round again *)
| RHeld               (* returned from rwlock_rlock *)
| WCas (clear : Z)    (* rwlock_wlock: while (!ATOM_CAS(&lock->write,clear,1)) {} *)
| WDrain              (* while(ATOM_LOAD(&lock->read)) {} *)
| WHeld.              (* returned from rwlock_wlock *)

#[export] Instance rw_pc_eq_dec : EqDecision rw_pc.
Proof. solve_decision. Defined.

Record rwlock := RW { write : Z; read : Z }.

Definition rwlock_init : rwlock := {| write := 0; read := 0 |}.

(** [ATOM_CAS(ptr, oval, nval)]: success flag, the variable, [oval]. *)
Definition ATOM_CAS (c11 : bool) (v oval nval : Z) : bool * Z * Z :=
  if v =? oval then (true, nval, oval)
  else (false, v, if c11 then v else oval).

(** A weak compare-and-swap may also fail for no reason. *)
Definition cas_spurious (c11 : bool) (v oval : Z) : Z := if c11 then v else oval.

(** The next access of [rwlock_rlock]. *)
Definition rwlock_rlock (l : rwlock) (pc : rw_pc) : option (rwlock * rw_pc) :=
  match pc with
  | Idle => Some (l, RSpin)
  | RSpin => Some (l, if truth (write l) then RSpin else RInc)
  | RInc => Some (RW (write l) (read l + 1), RCheck)
  | RCheck => Some (l, if truth (write l) then RDec else RHeld)
  | RDec => Some (RW (write l) (read l - 1), RSpin)
  | _ => None
  end.

(** The next access of [rwlock_wlock]. *)
Definition rwlock_wlock (c11 : bool) (l : rwlock) (pc : rw_pc) : option (rwlock * rw_pc) :=
  match pc with
  | Idle => let clear := 0 in Some (l, WCas clear)
  | WCas clear =>
      let '(ok, w, clear) := ATOM_CAS c11 (write l) clear 1 in
      Some (RW w (read l), if ok then WDrain else WCas clear)
  | WDrain => Some (l, if truth (read l) then WDrain else WHeld)
  | _ => None
  end.

Definition rwlock_wunlock (l : rwlock) : rwlock := RW 0 (read l).
Definition rwlock_runlock (l : rwlock) : rwlock := RW (write l) (read l - 1).

(** One access by one thread.  The program calls the functions in pairs:
    lock, then the unlock of what it holds. *)
Inductive rw_step (c11 : bool) : rwlock * rw_pc → rwlock * rw_pc → Prop :=
| rw_rlock l pc l' pc' :
    rwlock_rlock l pc = Some (l', pc') → rw_step c11 (l, pc) (l', pc')
| rw_wlock l pc l' pc' :
    rwlock_wlock c11 l pc = Some (l', pc') → rw_step c11 (l, pc) (l', pc')
| rw_weak l clear : c11 = true →
    rw_step c11 (l, WCas clear) (l, WCas (cas_spurious c11 (write l) clear))
| rw_runlock l : rw_step c11 (l, RHeld) (rwlock_runlock l, Idle)
| rw_wunlock l : rw_step c11 (l, WHeld) (rwlock_wunlock l, Idle).

(** Threads run one at a time, in any order. *)
Inductive rw_system_step (c11 : bool) : rwlock * list rw_pc → rwlock * list rw_pc → Prop :=
| rw_thread l l' pcs i pc pc' :
    pcs !! i = Some pc → rw_step c11 (l, pc) (l', pc') →
    rw_system_step c11 (l, pcs) (l', <[i := pc']> pcs).

Definition rw_reachable (c11 : bool) (n : nat) (st : rwlock * list rw_pc) : Prop :=
  rtc (rw_system_step c11) (rwlock_init, replicate n Idle) st.

(** ** The spin lock *)

Inductive spin_pc := SIdle | STry | SHeld.

(** [atomic_flag_test_and_set]: the old value, and the flag is set. *)
Definition test_and_set (lock : bool) : bool * bool := (lock, true).

(** One round of [while (test_and_set) {}]. *)
Definition spinlock_lock (lock : bool) : bool * spin_pc :=
  let '(old, lock) := test_and_set lock in (lock, if old then STry else SHeld).

Definition spinlock_trylock (lock : bool) : bool * spin_pc :=
  let '(old, lock) := test_and_set lock in (lock, if old then SIdle else SHeld).

Definition spinlock_init : bool := false.
Definition spinlock_unlock (lock : bool) : bool := false.

Inductive spin_step : bool * spin_pc → bool * spin_pc → Prop :=
| spin_call lock : spin_step (lock, SIdle) (lock, STry)
| spin_round lock : spin_step (lock, STry) (spinlock_lock lock)
| spin_trylock lock : spin_step (lock, SIdle) (spinlock_trylock lock)
| spin_release lock : spin_step (lock, SHeld) (spinlock_unlock lock, SIdle).

Inductive spin_system_step : bool * list spin_pc → bool * list spin_pc → Prop :=
| spin_thread l l' pcs i pc pc' :
    pcs !! i = Some pc → spin_step (l, pc) (l', pc') →
    spin_system_step (l, pcs) (l', <[i := pc']> pcs).

Definition spin_reachable (n : nat) (st : bool * list spin_pc) : Prop :=
  rtc spin_system_step (spinlock_init, replicate n SIdle) st.

(** ** Counting threads *)

Section count.
  Context {A : Type} (P : A → bool).

Fixpoint count (l : list A) : Z :=
    match l with
    | [] => 0
    | x :: l => of_bool (P x) + count l
    end.

Lemma count_nonneg l : 0 ≤ count l.
  Proof. induction l; simpl; [done|]. destruct (P a); simpl; lia. Qed.

Lemma count_insert l i x y :
    l !! i = Some x → count (<[i:=y]> l) = count l - of_bool (P x) + of_bool (P y).
  Proof.
    revert i. induction l as [|z l IH]; intros [|i]; simpl; try done.
    - intros [= ->]. lia.
    - intros H. rewrite (IH i H). lia.
  Qed.

Lemma count_replicate n x : P x = false → count (replicate n x) = 0.
  Proof. intros H. induction n; simpl; [done|]. by rewrite H, IHn. Qed.

Lemma count_lookup l i x : l !! i = Some x → P x = true → 1 ≤ count l.
  Proof.
    revert i. induction l as [|z l IH]; intros [|i]; simpl; try done.
    - intros [= ->] ->. pose proof (count_nonneg l). simpl. lia.
    - intros H Hx. specialize (IH i H Hx). destruct (P z); simpl; lia.
  Qed.

Lemma count_unique l i j x y :
    count l ≤ 1 → l !! i = Some x → l !! j = Some y → P x = true → P y = true → i = j.
  Proof.
    revert i j. induction l as [|z l IH]; intros [|i] [|j]; simpl; try done.
    - intros Hc [= ->] Hj Hx Hy. rewrite Hx in Hc. pose proof (count_lookup l j y Hj Hy). simpl in Hc. lia.
    - intros Hc Hi [= ->] Hx Hy. rewrite Hy in Hc. pose proof (count_lookup l i x Hi Hx). simpl in Hc. lia.
    - intros Hc Hi Hj Hx Hy. f_equal. eapply IH; eauto. destruct (P z); simpl in Hc; lia.
  Qed.
End count.

(** ** Mutual exclusion *)

Definition in_write (pc : rw_pc) : bool := match pc with WDrain | WHeld => true | _ => false end.
Definition in_read (pc : rw_pc) : bool := match pc with RCheck | RDec | RHeld => true | _ => false end.
Definition cas_zero (pc : rw_pc) : Prop := match pc with WCas clear => clear = 0 | _ => True end.

Record rw_inv (l : rwlock) (pcs : list rw_pc) : Prop := {
  rwi_write : write l = count in_write pcs;
  rwi_one : write l = 0 ∨ write l = 1;
  rwi_read : read l = count in_read pcs;
  rwi_cas : Forall cas_zero pcs;
  rwi_excl i j : pcs !! i = Some WHeld → pcs !! j = Some RHeld → False
}.

Lemma rw_inv_init n : rw_inv rwlock_init (replicate n Idle).
Proof.
  split; simpl; [by rewrite count_replicate|by left|by rewrite count_replicate| |].
  - by apply Forall_replicate.
  - intros i j H. by apply lookup_replicate_1 in H as [? _].
Qed.

(** A thread moves from [pc] to [pc']; the counters follow. *)
Lemma rw_inv_move l l' pcs i pc pc' :
  rw_inv l pcs → pcs !! i = Some pc →
  write l' = write l - of_bool (in_write pc) + of_bool (in_write pc') →
  (write l' = 0 ∨ write l' = 1) →
  read l' = read l - of_bool (in_read pc) + of_bool (in_read pc') →
  cas_zero pc' →
  (pc' = WHeld → read l = 0) → (pc' = RHeld → write l = 0) →
  rw_inv l' (<[i:=pc']> pcs).
Proof.
  intros [Hw H1 Hr Hc He] Hi Ew Ew1 Er Ec HW HR. split.
  - rewrite (count_insert _ _ _ _ _ Hi). lia.
  - done.
  - rewrite (count_insert _ _ _ _ _ Hi). lia.
  - by apply Forall_insert.
  - intros j k Hj Hk. rewrite list_lookup_insert in Hj, Hk.
    destruct (decide (i = j ∧ _)) as [[<- ?]|Hnj], (decide (i = k ∧ _)) as [[<- ?]|Hnk].
    + congruence.
    + injection Hj as ->. pose proof (count_lookup in_read pcs k RHeld Hk eq_refl). specialize (HW eq_refl). lia.
    + injection Hk as ->. pose proof (count_lookup in_write pcs j WHeld Hj eq_refl). specialize (HR eq_refl). lia.
    + by eapply He.
Qed.

Ltac rw_move := eapply rw_inv_move; [eassumption|eassumption|..]; simpl; try done; lia.

Lemma rw_step_inv l pcs i pc l' pc' :
  rw_inv l pcs → pcs !! i = Some pc → rw_step false (l, pc) (l', pc') →
  rw_inv l' (<[i:=pc']> pcs).
Proof.
  intros Hi Hl Hs. pose proof (rwi_one _ _ Hi) as H1.
  assert (cas_zero pc) as Hc by (eapply Forall_lookup_1; [apply (rwi_cas _ _ Hi)|done]).
  inversion Hs as [? ? ? ? E|? ? ? ? E| |?|?]; subst; try done.
  - destruct H1 as [H1|H1]; destruct pc; try done; simpl in E; rewrite ?H1 in E; simpl in E;
      injection E as <- <-; rw_move.
  - destruct pc; try done; simpl in E.
    + injection E as <- <-. rw_move.
    + simpl in Hc. subst clear. unfold ATOM_CAS in E.
      destruct H1 as [H1|H1]; rewrite H1 in E; simpl in E; injection E as <- <-;
        rw_move.
    + injection E as <- <-. unfold truth.
      destruct (Z.eqb_spec (read l) 0); rw_move.
  - rw_move.
  - pose proof (count_lookup in_write pcs i WHeld Hl eq_refl) as Hcw.
    rewrite <- (rwi_write _ _ Hi) in Hcw.
    rw_move.
Qed.

Lemma rw_reachable_inv n st : rw_reachable false n st → rw_inv st.1 st.2.
Proof.
  apply (rtc_invariant _ (λ st, rw_inv st.1 st.2)); [apply rw_inv_init|].
  intros a b Hi Hs. destruct Hs. by eapply rw_step_inv.
Qed.

(** C15: with the compare-and-swap of [__sync_bool_compare_and_swap], at most one
    thread is past [rwlock_wlock], and while it is no thread is past
    [rwlock_rlock], for any number of threads and any interleaving. *)
Theorem rwlock_excludes n l pcs i j :
  rw_reachable false n (l, pcs) → pcs !! i = Some WHeld →
  (pcs !! j = Some WHeld → i = j) ∧ pcs !! j ≠ Some RHeld.
Proof.
  intros Hi%rw_reachable_inv Hw. simpl in Hi. split.
  - intros Hj. apply (count_unique in_write pcs i j WHeld WHeld); try done.
    rewrite <- (rwi_write _ _ Hi). destruct (rwi_one _ _ Hi); lia.
  - intros Hj. by apply (rwi_excl _ _ Hi i j).
Qed.

(** A run as a list of (thread, new program counter): the executable side of
    the step relation. *)
Definition rw_next (c11 : bool) (l : rwlock) (pc : rw_pc) (write_side : bool) : option (rwlock * rw_pc) :=
  match pc with
  | RHeld => Some (rwlock_runlock l, Idle)
  | WHeld => Some (rwlock_wunlock l, Idle)
  | _ => if write_side then rwlock_wlock c11 l pc else rwlock_rlock l pc
  end.

Fixpoint rw_run (c11 : bool) (sched : list (nat * bool)) (st : rwlock * list rw_pc)
    : option (rwlock * list rw_pc) :=
  match sched with
  | [] => Some st
  | (i, ws) :: sched =>
      pc ← st.2 !! i;
      '(l, pc) ← rw_next c11 st.1 pc ws;
      rw_run c11 sched (l, <[i:=pc]> st.2)
  end.

Lemma rw_next_step c11 l pc ws r : rw_next c11 l pc ws = Some r → rw_step c11 (l, pc) r.
Proof.
  destruct r as [l' pc']. unfold rw_next. destruct pc, ws; intros H;
    first [by apply rw_wlock | by apply rw_rlock | injection H as <- <-; (apply rw_runlock || apply rw_wunlock) | done].
Qed.

Lemma rw_run_reachable c11 sched : ∀ st st',
  rw_run c11 sched st = Some st' → rtc (rw_system_step c11) st st'.
Proof.
  induction sched as [|[i ws] sched IH]; intros [l pcs] st' H; simpl in H.
  - injection H as <-. apply rtc_refl.
  - destruct (pcs !! i) as [pc|] eqn:E; [|done].
    destruct (rw_next c11 l pc ws) as [[l' pc']|] eqn:En; [|done].
    eapply rtc_l; [|by apply IH]. eapply rw_thread; [done|]. by eapply rw_next_step.
Qed.

Lemma rwlock_excludes_witness :
  rw_reachable false 2 (RW 1 0, [WHeld; RSpin]) ∧ [WHeld; RSpin] !! 1%nat ≠ Some RHeld.
Proof.
  assert (rw_reachable false 2 (RW 1 0, [WHeld; RSpin])) as H.
  { apply (rw_run_reachable false [(0%nat, true); (0%nat, true); (0%nat, true); (1%nat, false)]). reflexivity. }
  split; [exact H|]. apply (rwlock_excludes 2 (RW 1 0) [WHeld; RSpin] 0 1 H). reflexivity.
Defined.

(** C33: with C11's [atomic_compare_exchange_weak], which atomic.h uses wherever
    <stdatomic.h> exists, a failed attempt of [rwlock_wlock] leaves the
    value 1 in [clear], the next attempt succeeds against the holder's 1, and
    two writers hold the lock at once; when one of them unlocks, a reader
    enters next to the other. *)
Theorem rwlock_c11_broken :
  rw_reachable true 3 (RW 1 0, [WHeld; WHeld; Idle]) ∧
  rw_reachable true 3 (RW 0 1, [Idle; WHeld; RHeld]).
Proof.
  split.
  - apply (rw_run_reachable true
      [(0, true); (0, true); (0, true); (1, true); (1, true); (1, true); (1, true)]%nat). reflexivity.
  - apply (rw_run_reachable true
      [(0, true); (0, true); (0, true); (1, true); (1, true); (1, true); (1, true);
       (0, true); (2, false); (2, false); (2, false); (2, false)]%nat). reflexivity.
Qed.

(** ** The spin lock excludes *)

Definition spin_held (pc : spin_pc) : bool := match pc with SHeld => true | _ => false end.

Lemma spin_reachable_inv n st : spin_reachable n st → of_bool st.1 = count spin_held st.2.
Proof.
  apply (rtc_invariant _ (λ st, of_bool st.1 = count spin_held st.2)).
  - simpl. by rewrite count_replicate.
  - intros a b Hi Hs. destruct Hs as [l l' pcs i pc pc' Hl Hs]. simpl in *.
    rewrite (count_insert _ _ _ _ _ Hl). rewrite <- Hi.
    pose proof (count_nonneg spin_held pcs).
    destruct l; inversion Hs; subst; simpl in *; try lia.
    pose proof (count_lookup spin_held pcs i SHeld Hl eq_refl). lia.
Qed.

(** At most one thread is between [spinlock_lock] (or a successful
    [spinlock_trylock]) and [spinlock_unlock], so the operations the other
    components run under a spin lock are atomic steps. *)
Theorem spinlock_excludes n l pcs i j :
  spin_reachable n (l, pcs) → pcs !! i = Some SHeld → pcs !! j = Some SHeld → i = j.
Proof.
  intros Hi%spin_reachable_inv H1 H2. simpl in Hi.
  apply (count_unique spin_held pcs i j SHeld SHeld); try done.
  rewrite <- Hi. destruct l; simpl; lia.
Qed.

Lemma spinlock_excludes_witness :
  spin_reachable 2 (true, [SHeld; STry]) ∧ 0%nat = 0%nat.
Proof.
  assert (spin_reachable 2 (true, [SHeld; STry])) as H.
  { eapply rtc_l; [apply (spin_thread _ false [SIdle; SIdle] 0 SIdle STry); [done|constructor]|].
    eapply rtc_l; [apply (spin_thread _ true [STry; SIdle] 0 STry SHeld); [done|apply (spin_round false)]|].
    eapply rtc_l; [apply (spin_thread _ true [SHeld; SIdle] 1 SIdle STry); [done|constructor]|].
    apply rtc_refl. }
  split; [exact H|]. exact (spinlock_excludes 2 true [SHeld; STry] 0 0 H eq_refl eq_refl).
Defined.
