(* ===== verification/Handle.v ===== *)
(** * Handles and local names: skynet-src/skynet_handle.c

    [handle_storage] is a table of contexts indexed by the low bits of their
    handle, doubled when full, and an array of (name, handle) pairs sorted by
    [strcmp].  The table holds pointers, and [ctx->handle] is written by
    [skynet_context_new] only after [skynet_handle_register] has returned and
    dropped the lock, so contexts live in a store of their own.  [None] is a
    failed assertion, a null or dangling pointer, or an out-of-range access. *)

From S2P Require Import Prelude.

Definition DEFAULT_SLOT_SIZE : Z := 4.
Definition MAX_SLOT_SIZE : Z := 0x40000000.
Definition HANDLE_MASK : Z := 0xffffff.
Definition HANDLE_REMOTE_SHIFT : Z := 24.

(** A C string without its terminator: bytes from 1 to 255. *)
Abbreviation cstring := (list Z).

(** The sign of [strcmp]. *)
Fixpoint strcmp (a b : cstring) : Z :=
  match a, b with
  | [], [] => 0
  | [], _ :: _ => -1
  | _ :: _, [] => 1
  | x :: a, y :: b => if x <? y then -1 else if y <? x then 1 else strcmp a b
  end.

Record handle_name := HandleName { hn_name : cstring; hn_handle : Z }.

Record handle_storage := HS {
  harbor : Z;
  handle_index : Z;
  slot_size : Z;
  slot : list (option positive);
  name_cap : Z;
  name_count : Z;
  name : list (option handle_name)
}.

#[export] Instance eta_handle_storage : Eta handle_storage := λ s,
  HS (harbor s) (handle_index s) (slot_size s) (slot s) (name_cap s) (name_count s) (name s).

(** The fields of [skynet_context] this file reads and writes. *)
Record context := Context { ctx_handle : Z; ctx_ref : Z }.

#[export] Instance eta_context : Eta context := λ c, Context (ctx_handle c) (ctx_ref c).

(** The storage [H] points to, and the heap of contexts. *)
Record hs_state := HState { H : handle_storage; ctxs : gmap positive context }.

Definition get_ctx (p : positive) (st : hs_state) : option context := ctxs st !! p.
Definition set_ctx (p : positive) (c : context) (st : hs_state) : hs_state :=
  HState (H st) (<[p := c]> (ctxs st)).
Definition set_H (s : handle_storage) (st : hs_state) : hs_state := HState s (ctxs st).

(** ** skynet_context_* *)

Definition skynet_context_handle (p : positive) (st : hs_state) : option Z :=
  c ← get_ctx p st; Some (ctx_handle c).

Definition skynet_context_grab (p : positive) (st : hs_state) : option hs_state :=
  c ← get_ctx p st; Some (set_ctx p (c <| ctx_ref := ctx_ref c + 1 |>) st).

(** The context is freed when the last reference goes. *)
Definition skynet_context_release (p : positive) (st : hs_state) : option hs_state :=
  c ← get_ctx p st;
  if ctx_ref c =? 1 then Some (HState (H st) (delete p (ctxs st)))
  else Some (set_ctx p (c <| ctx_ref := ctx_ref c - 1 |>) st).

(** ** Registration *)

(** [for (i=0;i<s->slot_size;i++,handle++)]: the first handle with a free slot. *)
Fixpoint probe (n : nat) (s : handle_storage) (handle : Z) : option (option Z) :=
  match n with
  | O => Some None
  | S n =>
      let handle := if HANDLE_MASK <? handle then 1 else handle in
      let hash := Z.land handle (slot_size s - 1) in
      c ← (slot s).[hash];
      match c with
      | None => Some (Some handle)
      | Some _ => probe n s (u32 (handle + 1))
      end
  end.

(** Rehash every context into a table of twice the size. *)
Definition grow_slots (st : hs_state) : option hs_state :=
  let s := H st in
  assert! slot_size s * 2 - 1 <=? HANDLE_MASK;
  let new_slot : list (option positive) := replicate (Z.to_nat (slot_size s * 2)) None in
  new_slot ← for_range 0 (slot_size s) (λ i new_slot,
    c ← (slot s).[i];
    p ← c;
    handle ← skynet_context_handle p st;
    let hash := Z.land handle (slot_size s * 2 - 1) in
    old ← new_slot.[hash];
    assert! negb (bool_decide (is_Some old));
    new_slot.[hash <- Some p]) new_slot;
  let s := s <| slot := new_slot |> in
  let s := s <| slot_size := slot_size s * 2 |> in
  Some (set_H s st).

(** [for (;;)]: [fuel] rounds of probing. *)
Fixpoint skynet_handle_register (fuel : nat) (ctx : positive) (st : hs_state)
    : option (Z * hs_state) :=
  match fuel with
  | O => None
  | S fuel =>
      let s := H st in
      found ← probe (Z.to_nat (slot_size s)) s (handle_index s);
      match found with
      | Some handle =>
          let hash := Z.land handle (slot_size s - 1) in
          slot' ← (slot s).[hash <- Some ctx];
          let s := s <| slot := slot' |> in
          let s := s <| handle_index := u32 (handle + 1) |> in
          Some (Z.lor handle (harbor s), set_H s st)
      | None => st ← grow_slots st; skynet_handle_register fuel ctx st
      end
  end.

(** One table doubling at most. *)
Definition register_fuel : nat := 2.

(** [ctx->handle = 0; ctx->handle = skynet_handle_register(ctx);] of
    [skynet_context_new]; the context has just been allocated with two
    references. *)
Definition context_register (ctx : positive) (st : hs_state) : option (Z * hs_state) :=
  let st := set_ctx ctx {| ctx_handle := 0; ctx_ref := 2 |} st in
  '(handle, st) ← skynet_handle_register register_fuel ctx st;
  c ← get_ctx ctx st;
  Some (handle, set_ctx ctx (c <| ctx_handle := handle |>) st).

(** ** Retiring *)

(** The compaction loop over the names: [j] is where the next kept entry goes. *)
Definition drop_names (handle : Z) (s : handle_storage) : option handle_storage :=
  '(names, j) ← for_range 0 (name_count s) (λ i '(names, j),
    e ← names.[i];
    n ← e;
    if hn_handle n =? handle then Some (names, j)
    else if negb (i =? j) then
      names ← names.[j <- Some n]; Some (names, j + 1)
    else Some (names, j + 1)) (name s, 0);
  let s := s <| name := names |> in
  Some (s <| name_count := j |>).

(** The part under the write lock: the context to release. *)
Definition retire_slot (handle : Z) (st : hs_state) : option (option positive * hs_state) :=
  let s := H st in
  let hash := Z.land handle (slot_size s - 1) in
  c ← (slot s).[hash];
  match c with
  | Some ctx =>
      h ← skynet_context_handle ctx st;
      if h =? handle then
        slot' ← (slot s).[hash <- None];
        s ← drop_names handle (s <| slot := slot' |>);
        Some (Some ctx, set_H s st)
      else Some (None, st)
  | None => Some (None, st)
  end.

Definition skynet_handle_retire (handle : Z) (st : hs_state) : option (Z * hs_state) :=
  '(c, st) ← retire_slot handle st;
  match c with
  | Some ctx => st ← skynet_context_release ctx st; Some (1, st)
  | None => Some (0, st)
  end.

(** One sweep over the table: the number of contexts retired. *)
Definition retire_sweep (st : hs_state) : option (hs_state * Z) :=
  for_range 0 (slot_size (H st)) (λ i '(st, n),
    c ← (slot (H st)).[i];
    handle ← match c with Some ctx => skynet_context_handle ctx st | None => Some 0 end;
    if negb (handle =? 0) then
      '(ret, st) ← skynet_handle_retire handle st;
      Some (st, if truth ret then n + 1 else n)
    else Some (st, n)) (st, 0).

Fixpoint skynet_handle_retireall (fuel : nat) (st : hs_state) : option hs_state :=
  match fuel with
  | O => None
  | S fuel =>
      '(st, n) ← retire_sweep st;
      if n =? 0 then Some st else skynet_handle_retireall fuel st
  end.

Definition skynet_handle_grab (handle : Z) (st : hs_state) : option (option positive * hs_state) :=
  let s := H st in
  let hash := Z.land handle (slot_size s - 1) in
  c ← (slot s).[hash];
  match c with
  | Some ctx =>
      h ← skynet_context_handle ctx st;
      if h =? handle then st ← skynet_context_grab ctx st; Some (Some ctx, st)
      else Some (None, st)
  | None => Some (None, st)
  end.

(** ** Names *)

(** [while (begin<=end)] of [skynet_handle_findname] and [_insert_name]: the
    entry with this name, or where it would go. *)
Fixpoint bsearch (fuel : nat) (s : handle_storage) (nm : cstring) (begin end_ : Z)
    : option (handle_name + Z) :=
  match fuel with
  | O => None
  | S fuel =>
      if begin <=? end_ then
        sum ← int_add begin end_;
        let mid := Z.quot sum 2 in
        e ← (name s).[mid];
        n ← e;
        let c := strcmp (hn_name n) nm in
        if c =? 0 then Some (inl n)
        else if c <? 0 then bsearch fuel s nm (mid + 1) end_
        else bsearch fuel s nm begin (mid - 1)
      else Some (inr begin)
  end.

Definition bsearch_fuel (s : handle_storage) : nat := S (Z.to_nat (name_count s)).

Definition skynet_handle_findname (nm : cstring) (st : hs_state) : option Z :=
  let s := H st in
  r ← bsearch (bsearch_fuel s) s nm 0 (name_count s - 1);
  Some (match r with inl n => hn_handle n | inr _ => 0 end).

Definition _insert_name_before (s : handle_storage) (nm : cstring) (handle before : Z)
    : option handle_storage :=
  s ← (if name_cap s <=? name_count s then
         cap ← int_mul (name_cap s) 2;
         assert! cap <=? MAX_SLOT_SIZE;
         let n : list (option handle_name) := replicate (Z.to_nat cap) None in
         n ← for_range 0 before (λ i n, e ← (name s).[i]; n.[i <- e]) n;
         n ← for_range before (name_count s) (λ i n, e ← (name s).[i]; n.[i + 1 <- e]) n;
         Some (s <| name_cap := cap |> <| name := n |>)
       else
         n ← for_down (Z.to_nat (name_count s - before)) (name_count s)
               (λ i n, e ← n.[i - 1]; n.[i <- e]) (name s);
         Some (s <| name := n |>));
  names ← (name s).[before <- Some {| hn_name := nm; hn_handle := handle |}];
  let s := s <| name := names |> in
  Some (s <| name_count := name_count s + 1 |>).

(** [None] inside: the name is taken. *)
Definition _insert_name (s : handle_storage) (nm : cstring) (handle : Z)
    : option (option cstring * handle_storage) :=
  r ← bsearch (bsearch_fuel s) s nm 0 (name_count s - 1);
  match r with
  | inl _ => Some (None, s)
  | inr begin => s ← _insert_name_before s nm handle begin; Some (Some nm, s)
  end.

Definition skynet_handle_namehandle (handle : Z) (nm : cstring) (st : hs_state)
    : option (option cstring * hs_state) :=
  '(ret, s) ← _insert_name (H st) nm handle;
  Some (ret, set_H s st).

Definition skynet_handle_init (hb : Z) : handle_storage :=
  {| harbor := u32 (Z.shiftl (Z.land hb 0xff) HANDLE_REMOTE_SHIFT);
     handle_index := 1;
     slot_size := DEFAULT_SLOT_SIZE;
     slot := replicate (Z.to_nat DEFAULT_SLOT_SIZE) None;
     name_cap := 2;
     name_count := 0;
     name := replicate 2 None |}.

(** ** [strcmp] is a strict total order *)

Lemma strcmp_opp a : ∀ b, strcmp b a = - strcmp a b.
Proof.
  induction a as [|x a IH]; intros [|y b]; simpl; try done. rewrite IH. zcases; lia.
Qed.

Lemma strcmp_eq a : ∀ b, strcmp a b = 0 ↔ a = b.
Proof.
  induction a as [|x a IH]; intros [|y b]; simpl; try done. zcases.
  - split; [done|intros [= -> _]; lia].
  - split; [done|intros [= -> _]; lia].
  - assert (x = y) as -> by lia. rewrite IH. split; [by intros ->|by intros [= ->]].
Qed.

Lemma strcmp_trans a : ∀ b c, strcmp a b < 0 → strcmp b c < 0 → strcmp a c < 0.
Proof.
  induction a as [|x a IH]; intros [|y b] [|z c]; simpl; try lia.
  zcases; try lia. apply IH.
Qed.

(** ** The names as a sorted list *)

Record names_repr (s : handle_storage) (l : list handle_name) : Prop := {
  nr_count : len l = name_count s;
  nr_cap : 2 ≤ name_cap s ≤ MAX_SLOT_SIZE;
  nr_le : name_count s ≤ name_cap s;
  nr_len : len (name s) = name_cap s;
  nr_entry i n : l.[i] = Some n → (name s).[i] = Some (Some n);
  nr_sorted i j a b : l.[i] = Some a → l.[j] = Some b → i < j → strcmp (hn_name a) (hn_name b) < 0
}.

(** What a binary search returns. *)
Definition search_ok (l : list handle_name) (nm : cstring) (r : handle_name + Z) : Prop :=
  match r with
  | inl n => n ∈ l ∧ hn_name n = nm
  | inr k => 0 ≤ k ≤ len l
      ∧ (∀ i n, l.[i] = Some n → i < k → strcmp (hn_name n) nm < 0)
      ∧ (∀ i n, l.[i] = Some n → k ≤ i → 0 < strcmp (hn_name n) nm)
  end.

Lemma arr_get_elem {A} (l : list A) i x : l.[i] = Some x → x ∈ l.
Proof. unfold arr_get. destruct (0 <=? i); [|done]. apply list_elem_of_lookup_2. Qed.

Lemma bsearch_spec s l nm : names_repr s l → ∀ fuel begin end_,
  0 ≤ begin → begin ≤ end_ + 1 → end_ < len l →
  (∀ i n, l.[i] = Some n → i < begin → strcmp (hn_name n) nm < 0) →
  (∀ i n, l.[i] = Some n → end_ < i → 0 < strcmp (hn_name n) nm) →
  end_ - begin + 1 < Z.of_nat fuel →
  ∃ r, bsearch fuel s nm begin end_ = Some r ∧ search_ok l nm r.
Proof.
  intros Hr. pose proof (nr_count _ _ Hr) as Hc. pose proof (nr_cap _ _ Hr) as Hcap.
  pose proof (nr_le _ _ Hr) as Hle. unfold MAX_SLOT_SIZE in Hcap.
  induction fuel as [|fuel IH]; intros b e Hb Hbe He Hlo Hhi Hf; [lia|]. cbn [bsearch].
  destruct (Z.leb_spec b e) as [Hle'|Hgt].
  - unfold int_add. rewrite int_chk_Some by (unfold INT_MIN, INT_MAX; lia).
    rewrite Z.quot_div_nonneg by lia.
    assert (b ≤ (b + e) / 2 ≤ e) as Hm by (split; Z.div_mod_to_equations; lia).
    set (mid := (b + e) / 2) in *. clearbody mid.
    destruct (arr_get_is_Some l mid) as [n En]; [lia|]. rewrite (nr_entry _ _ Hr _ _ En).
    destruct (Z.eqb_spec (strcmp (hn_name n) nm) 0) as [E0|E0].
    { eexists. split; [done|]. split; [by eapply arr_get_elem|by apply strcmp_eq]. }
    destruct (Z.ltb_spec (strcmp (hn_name n) nm) 0) as [Elt|Ege].
    + apply IH; [lia|lia|done| |done|lia].
      intros i n' Hi Hlt. destruct (decide (i = mid)) as [->|Hne]; [congruence|].
      pose proof (nr_sorted _ _ Hr i mid n' n Hi En ltac:(lia)). by eapply strcmp_trans.
    + apply IH; [lia|lia|lia|done| |lia].
      intros i n' Hi Hlt. destruct (decide (i = mid)) as [->|Hne]; [simplify_eq; lia|].
      pose proof (nr_sorted _ _ Hr mid i n n' En Hi ltac:(lia)) as Hs.
      assert (strcmp nm (hn_name n) < 0) as H1 by (rewrite strcmp_opp; lia).
      pose proof (strcmp_trans _ _ _ H1 Hs) as H2. rewrite strcmp_opp in H2. lia.
  - exists (inr b). split; [done|]. split; [lia|]. split; [done|].
    intros i n Hi Hge. apply (Hhi i n Hi). lia.
Qed.

Lemma search_spec s l nm : names_repr s l →
  ∃ r, bsearch (bsearch_fuel s) s nm 0 (name_count s - 1) = Some r ∧ search_ok l nm r.
Proof.
  intros Hr. pose proof (nr_count _ _ Hr). pose proof (len_nonneg l).
  apply (bsearch_spec s l nm Hr); [lia|lia|lia| | |unfold bsearch_fuel; lia].
  - intros i n Hi Hlt. apply arr_get_Some in Hi. lia.
  - intros i n Hi Hlt. apply arr_get_Some in Hi. lia.
Qed.

(** The names array after [_insert_name_before], slot by slot. *)
Definition inserted (s s' : handle_storage) (nm : cstring) (handle before : Z) : Prop :=
  name_count s' = name_count s + 1 ∧ len (name s') = name_cap s' ∧
  2 ≤ name_cap s' ≤ MAX_SLOT_SIZE ∧ name_count s' ≤ name_cap s' ∧
  (∀ i, 0 ≤ i ≤ name_count s → (name s').[i] =
     if i <? before then (name s).[i]
     else if i =? before then Some (Some (HandleName nm handle)) else (name s).[i - 1]).

(** Everything but the names. *)
Definition same_slots (s s' : handle_storage) : Prop :=
  harbor s' = harbor s ∧ handle_index s' = handle_index s ∧
  slot_size s' = slot_size s ∧ slot s' = slot s.

Lemma insert_grow s before :
  0 ≤ before ≤ name_count s → 0 ≤ name_count s ≤ name_cap s → len (name s) = name_cap s →
  ∃ n, for_range 0 before (λ i n, e ← (name s).[i]; n.[i <- e])
         (replicate (Z.to_nat (name_cap s * 2)) None) = Some n ∧
  ∃ n', for_range before (name_count s) (λ i n, e ← (name s).[i]; n.[i + 1 <- e]) n = Some n' ∧
    len n' = Z.max 0 (name_cap s * 2) ∧
    (∀ i, 0 ≤ i ≤ name_count s → i ≠ before →
       n'.[i] = if i <? before then (name s).[i] else (name s).[i - 1]).
Proof.
  intros Hb Hc Hl.
  destruct (decide (name_cap s = 0)) as [E0|E0].
  { assert (before = 0 ∧ name_count s = 0) as [-> ->] by lia. rewrite E0.
    eexists. split; [done|]. eexists. split; [done|]. split; [done|]. intros; lia. }
  destruct (for_range_inv (λ i n, len n = name_cap s * 2 ∧
      ∀ j, 0 ≤ j < i → n.[j] = (name s).[j]) 0 before
      (λ i n, e ← (name s).[i]; n.[i <- e]) (replicate (Z.to_nat (name_cap s * 2)) None))
    as (n & E & Hn & Hcp); [lia| | |].
  - split; [|lia]. unfold len. rewrite length_replicate. lia.
  - intros i n Hi (Hn & Hcp). destruct (arr_get_is_Some (name s) i) as [e Ee]; [lia|]. rewrite Ee.
    assert (n.[i <- e] = Some (<[Z.to_nat i := e]> n)) as Eset by (apply arr_set_Some; lia).
    eexists. split; [exact Eset|]. split; [by rewrite (arr_set_len _ _ _ _ Eset)|].
    intros j Hj. destruct (decide (j = i)) as [->|]; [by rewrite (arr_get_set_eq _ _ _ _ Eset)|].
    rewrite (arr_get_set_ne _ _ _ j _ Eset) by done. apply Hcp. lia.
  - exists n. split; [done|].
    destruct (for_range_inv (λ i n', len n' = name_cap s * 2 ∧
        (∀ j, 0 ≤ j < before → n'.[j] = (name s).[j]) ∧
        (∀ j, before ≤ j < i → n'.[j + 1] = (name s).[j])) before (name_count s)
        (λ i n, e ← (name s).[i]; n.[i + 1 <- e]) n)
      as (n' & E' & Hn' & H1 & H2); [lia|split; [done|]; split; [done|lia]| |].
    + intros i n1 Hi (Hn1 & H1 & H2).
      destruct (arr_get_is_Some (name s) i) as [e Ee]; [lia|]. rewrite Ee.
      assert (n1.[i + 1 <- e] = Some (<[Z.to_nat (i + 1) := e]> n1)) as Eset by (apply arr_set_Some; lia).
      eexists. split; [exact Eset|]. split; [by rewrite (arr_set_len _ _ _ _ Eset)|]. split.
      * intros j Hj. rewrite (arr_get_set_ne _ _ _ j _ Eset) by lia. apply H1. lia.
      * intros j Hj. destruct (decide (j = i)) as [->|]; [by rewrite (arr_get_set_eq _ _ _ _ Eset)|].
        rewrite (arr_get_set_ne _ _ _ (j + 1) _ Eset) by lia. apply H2. lia.
    + exists n'. split; [done|]. split; [lia|]. intros i Hi Hne.
      destruct (Z.ltb_spec i before); [apply H1; lia|].
      replace i with (i - 1 + 1) at 1 by lia. apply H2. lia.
Qed.

Lemma insert_shift s before :
  0 ≤ before ≤ name_count s → name_count s < len (name s) →
  ∃ n, for_down (Z.to_nat (name_count s - before)) (name_count s)
         (λ i n, e ← n.[i - 1]; n.[i <- e]) (name s) = Some n ∧ len n = len (name s) ∧
    (∀ i, 0 ≤ i ≤ name_count s → i ≠ before →
       n.[i] = if i <? before then (name s).[i] else (name s).[i - 1]).
Proof.
  intros Hb Hl.
  destruct (for_down_inv (λ i n, len n = len (name s) ∧
      (∀ j, 0 ≤ j ≤ i → n.[j] = (name s).[j]) ∧
      (∀ j, i < j ≤ name_count s → n.[j] = (name s).[j - 1]))
      (Z.to_nat (name_count s - before)) (name_count s) (λ i n, e ← n.[i - 1]; n.[i <- e]) (name s))
    as (n & E & Hn & H1 & H2).
  - split; [done|]. split; [done|lia].
  - intros i n Hi (Hn & H1 & H2). destruct (arr_get_is_Some n (i - 1)) as [e Ee]; [lia|]. rewrite Ee.
    assert (n.[i <- e] = Some (<[Z.to_nat i := e]> n)) as Eset by (apply arr_set_Some; lia).
    eexists. split; [exact Eset|]. split; [by rewrite (arr_set_len _ _ _ _ Eset)|]. split.
    + intros j Hj. rewrite (arr_get_set_ne _ _ _ j _ Eset) by lia. apply H1. lia.
    + intros j Hj. destruct (decide (j = i)) as [->|].
      * rewrite (arr_get_set_eq _ _ _ _ Eset), <- Ee. apply H1. lia.
      * rewrite (arr_get_set_ne _ _ _ j _ Eset) by lia. apply H2. lia.
  - exists n. split; [done|]. split; [done|]. intros i Hi Hne.
    destruct (Z.ltb_spec i before); [apply H1; lia|apply H2; lia].
Qed.

Lemma insert_before_spec s l nm handle before :
  names_repr s l → 0 ≤ before ≤ name_count s → name_count s < MAX_SLOT_SIZE →
  name_cap s * 2 ≤ MAX_SLOT_SIZE ∨ name_count s < name_cap s →
  ∃ s', _insert_name_before s nm handle before = Some s' ∧ same_slots s s'
    ∧ inserted s s' nm handle before.
Proof.
  intros Hr Hb Hmax Hroom. pose proof (nr_cap _ _ Hr) as Hcap. pose proof (nr_le _ _ Hr) as Hle.
  pose proof (nr_len _ _ Hr) as Hlen. unfold _insert_name_before.
  destruct (Z.leb_spec (name_cap s) (name_count s)) as [Hg|Hg].
  - unfold int_mul. rewrite int_chk_Some by (unfold INT_MIN, INT_MAX, MAX_SLOT_SIZE in *; lia).
    rewrite (proj2 (Z.leb_le _ _)) by (unfold MAX_SLOT_SIZE in *; lia).
    destruct (insert_grow s before) as (n & -> & n' & -> & Hn' & Hslots); [lia..|].
    assert (∀ e, n'.[before <- e] = Some (<[Z.to_nat before := e]> n')) as Hset.
    { intros e. apply arr_set_Some. lia. }
    cbn [name]. rewrite Hset. eexists. split; [done|]. split; [done|].
    split; [done|]. split; [simpl; rewrite (arr_set_len _ _ _ _ (Hset _)); simpl; lia|].
    split; [simpl; unfold MAX_SLOT_SIZE in *; lia|]. split; [simpl; lia|].
    intros i Hi. simpl. destruct (Z.eqb_spec i before) as [->|Hne].
    + rewrite Z.ltb_irrefl. by rewrite (arr_get_set_eq _ _ _ _ (Hset _)).
    + rewrite (arr_get_set_ne _ _ _ i _ (Hset _)) by done. apply Hslots; [lia|done].
  - destruct (insert_shift s before) as (n & -> & Hn & Hslots); [lia|lia|].
    assert (∀ e, n.[before <- e] = Some (<[Z.to_nat before := e]> n)) as Hset.
    { intros e. apply arr_set_Some. lia. }
    cbn [name]. rewrite Hset. eexists. split; [done|]. split; [done|].
    split; [done|]. split; [simpl; rewrite (arr_set_len _ _ _ _ (Hset _)); simpl; lia|].
    split; [simpl; lia|]. split; [simpl; lia|].
    intros i Hi. simpl. destruct (Z.eqb_spec i before) as [->|Hne].
    + rewrite Z.ltb_irrefl. by rewrite (arr_get_set_eq _ _ _ _ (Hset _)).
    + rewrite (arr_get_set_ne _ _ _ i _ (Hset _)) by done. apply Hslots; [lia|done].
Qed.

Lemma names_repr_insert s s' l nm handle before :
  names_repr s l → inserted s s' nm handle before → search_ok l nm (inr before) →
  names_repr s' (ins before (HandleName nm handle) l).
Proof.
  intros Hr (Hc & Hl & Hcap & Hle & Hs) (Hb & Hlo & Hhi).
  pose proof (nr_count _ _ Hr) as Hcl. split; [rewrite len_ins by done; lia|done..| |].
  - intros i n Hi. pose proof (arr_get_Some _ _ _ Hi) as Hr'. rewrite len_ins in Hr' by done.
    rewrite arr_get_ins in Hi by lia. rewrite Hs by lia. revert Hi.
    zcases; intros Hi; [by apply (nr_entry _ _ Hr)|by simplify_eq|by apply (nr_entry _ _ Hr)].
  - intros i j a b Hi Hj Hlt.
    pose proof (arr_get_Some _ _ _ Hi). pose proof (arr_get_Some _ _ _ Hj).
    rewrite arr_get_ins in Hi by lia. rewrite arr_get_ins in Hj by lia. revert Hi Hj.
    zcases; intros Hi Hj; simplify_eq; try lia; simpl.
    + by eapply (nr_sorted _ _ Hr i j).
    + eapply Hlo; [exact Hi|lia].
    + eapply (nr_sorted _ _ Hr i (j - 1)); [done|done|lia].
    + rewrite strcmp_opp. pose proof (Hhi (j - 1) b Hj). lia.
    + eapply (nr_sorted _ _ Hr (i - 1) (j - 1)); [done|done|lia].
Qed.

(** The names as the finite map they implement. *)
Definition names_map (l : list handle_name) : gmap cstring Z :=
  list_to_map (map (λ n, (hn_name n, hn_handle n)) l).

Lemma names_nodup s l : names_repr s l → NoDup (map (λ n, (hn_name n, hn_handle n)) l).*1.
Proof.
  intros Hr. rewrite NoDup_alt. intros i j x Hi Hj.
  assert (∀ i, (map (λ n, (hn_name n, hn_handle n)) l).*1 !! i = hn_name <$> l !! i) as Hm.
  { intros k. rewrite list_lookup_fmap. rewrite (list_lookup_fmap _ l). by destruct (l !! k). }
  rewrite Hm in Hi. rewrite Hm in Hj.
  destruct (l !! i) as [a|] eqn:Ea; [|done]. destruct (l !! j) as [b|] eqn:Eb; [|done].
  injection Hi as <-. injection Hj as Eab. rewrite <- arr_get_of_nat in Ea, Eb.
  destruct (decide (i = j)) as [|Hne]; [done|]. exfalso.
  destruct (decide (i < j)%nat).
  - pose proof (nr_sorted _ _ Hr _ _ _ _ Ea Eb ltac:(lia)) as Hlt.
    rewrite Eab, (proj2 (strcmp_eq _ _)) in Hlt by done. lia.
  - pose proof (nr_sorted _ _ Hr _ _ _ _ Eb Ea ltac:(lia)) as Hlt.
    rewrite Eab, (proj2 (strcmp_eq _ _)) in Hlt by done. lia.
Qed.

Lemma names_map_Some s l nm h : names_repr s l →
  names_map l !! nm = Some h ↔ HandleName nm h ∈ l.
Proof.
  intros Hr. unfold names_map. rewrite <- elem_of_list_to_map by (by eapply names_nodup).
  rewrite list_elem_of_In, in_map_iff. setoid_rewrite <- list_elem_of_In. split.
  - intros ([] & [= <- <-] & ?). done.
  - intros ?. by exists (HandleName nm h).
Qed.

Lemma names_map_search s l nm r : names_repr s l → search_ok l nm r →
  names_map l !! nm = match r with inl n => Some (hn_handle n) | inr _ => None end.
Proof.
  intros Hr. destruct r as [n|k]; simpl.
  - intros [Hn <-]. apply (names_map_Some s); [done|]. by destruct n.
  - intros (Hk & Hlo & Hhi). destruct (names_map l !! nm) as [h|] eqn:E; [|done].
    apply (names_map_Some s) in E; [|done]. apply list_elem_of_lookup in E as [i Ei].
    rewrite <- arr_get_of_nat in Ei. pose proof (proj2 (strcmp_eq nm nm) eq_refl) as E0.
    destruct (decide (Z.of_nat i < k)).
    + pose proof (Hlo _ _ Ei). simpl in *. lia.
    + pose proof (Hhi _ _ Ei). simpl in *. lia.
Qed.

Definition keeps (handle : Z) (n : handle_name) : Prop := hn_handle n ≠ handle.
#[export] Instance keeps_dec handle n : Decision (keeps handle n).
Proof. unfold keeps. apply _. Defined.

Lemma take_snoc {A} (l : list A) i x : l.[i] = Some x →
  take (Z.to_nat (i + 1)) l = take (Z.to_nat i) l ++ [x].
Proof.
  intros H. pose proof (arr_get_Some _ _ _ H). rewrite arr_get_nonneg in H by lia.
  replace (Z.to_nat (i + 1)) with (S (Z.to_nat i)) by lia. by apply take_S_r.
Qed.

(** The compaction keeps the other services' names, in order. *)
Lemma drop_names_loop s l handle : names_repr s l →
  ∃ names j, for_range 0 (name_count s) (λ i '(names, j),
      e ← names.[i];
      n ← e;
      if hn_handle n =? handle then Some (names, j)
      else if negb (i =? j) then
        names ← names.[j <- Some n]; Some (names, j + 1)
      else Some (names, j + 1)) (name s, 0) = Some (names, j) ∧
    len names = name_cap s ∧ j = len (filter (keeps handle) l) ∧
    (∀ k n, (filter (keeps handle) l).[k] = Some n → names.[k] = Some (Some n)).
Proof.
  intros Hr. pose proof (nr_count _ _ Hr) as Hc. pose proof (len_nonneg l) as Hl0.
  pose proof (nr_le _ _ Hr) as Hle. pose proof (nr_len _ _ Hr) as Hlen.
  match goal with |- ∃ _ _, for_range _ _ ?body _ = _ ∧ _ =>
    destruct (for_range_inv (λ i '(names, j), len names = name_cap s ∧
      j = len (filter (keeps handle) (take (Z.to_nat i) l)) ∧ j ≤ i ∧
      (∀ k n, (filter (keeps handle) (take (Z.to_nat i) l)).[k] = Some n → names.[k] = Some (Some n)) ∧
      (∀ k, i ≤ k → names.[k] = (name s).[k])) 0 (name_count s) body (name s, 0))
      as ([names j] & E & H1 & H2 & _ & H3 & _) end.
  - lia.
  - split; [done|]. split; [done|]. split; [done|]. split; [|done].
    intros k n Hk. apply arr_get_Some in Hk. unfold len in Hk. simpl in Hk. lia.
  - intros i [names j] Hi (H1 & H2 & H3 & H4 & H5).
    destruct (arr_get_is_Some l i) as [n En]; [lia|].
    rewrite (H5 i) by lia. rewrite (nr_entry _ _ Hr _ _ En).
    rewrite (take_snoc l i n En), filter_app.
    destruct (Z.eqb_spec (hn_handle n) handle) as [Eh|Eh].
    + eexists. split; [done|]. cbv beta iota.
      rewrite filter_cons_False by (intros Hx; by apply Hx). rewrite filter_nil, app_nil_r.
      split; [done|]. split; [done|]. split; [lia|]. split; [done|]. intros k Hk. apply H5. lia.
    + rewrite filter_cons_True by done. rewrite filter_nil.
      set (f := filter (keeps handle) (take (Z.to_nat i) l)) in *.
      assert (∀ k n', (f ++ [n]).[k] = Some n' → f.[k] = Some n' ∨ (k = j ∧ n' = n)) as Hsn.
      { intros k n' Hk. pose proof (arr_get_Some _ _ _ Hk) as Hkr.
        rewrite arr_get_nonneg in Hk by lia. apply lookup_app_Some in Hk as [Hk|[Hge Hk]].
        - left. by rewrite arr_get_nonneg by lia.
        - right. apply list_lookup_singleton_Some in Hk as [Hk ->]. unfold len in H2. split; [lia|done]. }
      assert (j < i → ∃ names', names.[j <- Some n] = Some names') as Hset.
      { intros Hji. eexists. apply arr_set_Some. pose proof (len_nonneg f). lia. }
      assert (len (f ++ [n]) = j + 1) as Hlf by (rewrite len_app, H2; done).
      destruct (Z.eqb_spec i j) as [->|Hij]; cbn [negb].
      * eexists. split; [done|]. cbv beta iota. split; [done|]. split; [done|]. split; [lia|].
        split; [|intros k Hk; apply H5; lia].
        intros k n' [Hk|[-> ->]]%Hsn; [by apply H4|]. rewrite H5 by lia. by apply (nr_entry _ _ Hr).
      * destruct Hset as [names' Eset]; [lia|]. rewrite Eset. eexists. split; [done|]. cbv beta iota.
        split; [by rewrite (arr_set_len _ _ _ _ Eset)|]. split; [done|]. split; [lia|]. split.
        -- intros k n' [Hk|[-> ->]]%Hsn; [|by eapply arr_get_set_eq].
           rewrite (arr_get_set_ne _ _ _ k _ Eset); [by apply H4|].
           apply arr_get_Some in Hk. lia.
        -- intros k Hk. rewrite (arr_get_set_ne _ _ _ k _ Eset) by lia. apply H5. lia.
  - exists names, j. split; [exact E|]. rewrite <- Hc in *.
    unfold len in *. rewrite Nat2Z.id, firstn_all in *. done.
Qed.

Lemma filter_sorted l handle i j a b :
  (∀ i j a b, l.[i] = Some a → l.[j] = Some b → i < j → strcmp (hn_name a) (hn_name b) < 0) →
  (filter (keeps handle) l).[i] = Some a → (filter (keeps handle) l).[j] = Some b → i < j →
  strcmp (hn_name a) (hn_name b) < 0.
Proof.
  revert i j. induction l as [|n l IH]; intros i j Hs Hi Hj Hlt.
  { apply arr_get_Some in Hi. unfold len in Hi. simpl in Hi. lia. }
  assert (∀ k, 0 ≤ k → (n :: l).[k + 1] = l.[k]) as Hcons.
  { intros k Hk. rewrite !arr_get_nonneg by lia. by replace (Z.to_nat (k + 1)) with (S (Z.to_nat k)) by lia. }
  assert (∀ i j a b, l.[i] = Some a → l.[j] = Some b → i < j → strcmp (hn_name a) (hn_name b) < 0) as Hs'.
  { intros i' j' a' b' Hi' Hj' Hlt'. pose proof (arr_get_Some _ _ _ Hi'). pose proof (arr_get_Some _ _ _ Hj').
    apply (Hs (i' + 1) (j' + 1)); [by rewrite Hcons by lia|by rewrite Hcons by lia|lia]. }
  rewrite filter_cons in Hi. rewrite filter_cons in Hj.
  destruct (decide (keeps handle n)) as [Hkp|Hkp]; [|by eapply (IH i j)].
  pose proof (arr_get_Some _ _ _ Hi) as Hir. pose proof (arr_get_Some _ _ _ Hj) as Hjr.
  rewrite len_cons in Hir, Hjr.
  assert (∀ k x, 0 ≤ k → (n :: filter (keeps handle) l).[k] = Some x →
    (k = 0 ∧ x = n) ∨ (filter (keeps handle) l).[k - 1] = Some x) as Hdec.
  { intros k x Hk Hx. rewrite arr_get_nonneg in Hx by lia. destruct (decide (k = 0)) as [->|].
    - injection Hx as <-. by left.
    - right. rewrite arr_get_nonneg by lia.
      replace (Z.to_nat k) with (S (Z.to_nat (k - 1))) in Hx by lia. done. }
  apply Hdec in Hj as [[-> ->]|Hj]; [lia| |lia]. apply Hdec in Hi as [[-> ->]|Hi]; [| |lia].
  - apply arr_get_elem in Hj. apply list_elem_of_filter in Hj as [_ Hj].
    apply list_elem_of_lookup in Hj as [k Hk]. rewrite <- arr_get_of_nat in Hk.
    apply (Hs 0 (Z.of_nat k + 1)); [done|by rewrite Hcons by lia|lia].
  - eapply (IH (i - 1) (j - 1)); [done|done|done|lia].
Qed.

Lemma drop_names_spec s l handle : names_repr s l →
  ∃ s', drop_names handle s = Some s' ∧ same_slots s s' ∧ name_cap s' = name_cap s
    ∧ names_repr s' (filter (keeps handle) l).
Proof.
  intros Hr. unfold drop_names.
  destruct (drop_names_loop s l handle Hr) as (names & j & E & Hl & Hj & Hn). rewrite E.
  eexists. split; [done|]. split; [done|]. split; [done|].
  pose proof (nr_count _ _ Hr). pose proof (nr_le _ _ Hr). pose proof (nr_cap _ _ Hr).
  assert (len (filter (keeps handle) l) ≤ len l) as Hfl.
  { unfold len. pose proof (length_filter (keeps handle) l). lia. }
  split; simpl; [done|done|lia|done|done|].
  intros i k a b. apply filter_sorted. apply (nr_sorted _ _ Hr).
Qed.

(** ** The table of contexts *)

Record slots_ok (st : hs_state) : Prop := {
  so_size : ∃ k, 2 ≤ k ≤ 24 ∧ slot_size (H st) = 2 ^ k;
  so_len : len (slot (H st)) = slot_size (H st);
  so_harbor : ∃ h, 0 ≤ h < 256 ∧ harbor (H st) = h * 2 ^ 24;
  so_index : 1 ≤ handle_index (H st) ≤ 2 ^ 24;
  so_slot i p : (slot (H st)).[i] = Some (Some p) →
    ∃ c low, ctxs st !! p = Some c ∧ 1 ≤ ctx_ref c ∧ 1 ≤ low ≤ HANDLE_MASK
      ∧ ctx_handle c = low + harbor (H st) ∧ low mod slot_size (H st) = i
}.

(** The context a handle leads to. *)
Definition hs_find (st : hs_state) (handle : Z) : option positive :=
  c ← (slot (H st)).[Z.land handle (slot_size (H st) - 1)];
  p ← c;
  h ← skynet_context_handle p st;
  if h =? handle then Some p else None.

Definition live (st : hs_state) (handle : Z) (p : positive) : Prop :=
  ∃ i c, (slot (H st)).[i] = Some (Some p) ∧ ctxs st !! p = Some c ∧ ctx_handle c = handle.

Lemma hash_mod st x : slots_ok st → Z.land x (slot_size (H st) - 1) = x mod slot_size (H st).
Proof. intros Hs. destruct (so_size _ Hs) as (k & Hk & ->). apply land_mask. lia. Qed.

Lemma size_bounds st : slots_ok st → 4 ≤ slot_size (H st) ≤ 2 ^ 24.
Proof.
  intros Hs. destruct (so_size _ Hs) as (k & Hk & ->). change 4 with (2 ^ 2).
  split; apply Z.pow_le_mono_r; lia.
Qed.

(** The harbor bits do not reach the table index. *)
Lemma mod_harbor st low : slots_ok st → (low + harbor (H st)) mod slot_size (H st) = low mod slot_size (H st).
Proof.
  intros Hs. destruct (so_size _ Hs) as (k & Hk & ->). destruct (so_harbor _ Hs) as (h & Hh & ->).
  replace (2 ^ 24) with (2 ^ (24 - k) * 2 ^ k) by (rewrite <- Z.pow_add_r by lia; f_equal; lia).
  rewrite Z.mul_assoc. apply Z_mod_plus_full.
Qed.

Lemma live_slot st h p : slots_ok st → live st h p →
  (slot (H st)).[h mod slot_size (H st)] = Some (Some p) ∧
  ∃ c, ctxs st !! p = Some c ∧ 1 ≤ ctx_ref c ∧ ctx_handle c = h ∧ 1 ≤ h - harbor (H st) ≤ HANDLE_MASK.
Proof.
  intros Hs (i & c & Hi & Hc & <-). destruct (so_slot _ Hs i p Hi) as (c' & low & Hc' & Hr & Hl & E & Hm).
  assert (c' = c) as -> by congruence. rewrite E, mod_harbor, Hm by done.
  split; [done|]. exists c. split; [done|]. split; [done|]. split; [done|lia].
Qed.

Lemma find_live st h p : slots_ok st → hs_find st h = Some p ↔ live st h p.
Proof.
  intros Hs. unfold hs_find, skynet_context_handle, get_ctx. split.
  - intros Hf. bind_inv Hf. bind_inv Hf. bind_inv Hf. bind_inv E1. injection E1 as <-. subst o.
    destruct (Z.eqb_spec (ctx_handle c) h) as [Eh|]; [|done]. injection Hf as <-. by repeat eexists.
  - intros Hl. destruct (live_slot st h p Hs Hl) as (E & c & Hc & _ & Hh & _).
    rewrite hash_mod, E, Hc, Hh, Z.eqb_refl by done. done.
Qed.

Lemma find_ext st st' : slots_ok st → slots_ok st' →
  (∀ h p, live st h p ↔ live st' h p) → ∀ h, hs_find st h = hs_find st' h.
Proof.
  intros Hs Hs' Hl h. apply option_eq. intros p. by rewrite !find_live by done.
Qed.

(** A context sits in one slot only, and two contexts never share a handle. *)
Lemma slot_inj st i j p : slots_ok st →
  (slot (H st)).[i] = Some (Some p) → (slot (H st)).[j] = Some (Some p) → i = j.
Proof.
  intros Hs Hi Hj. destruct (so_slot _ Hs _ _ Hi) as (c & low & Hc & _ & _ & E & <-).
  destruct (so_slot _ Hs _ _ Hj) as (c' & low' & Hc' & _ & _ & E' & <-).
  assert (c' = c) as -> by congruence. f_equal. lia.
Qed.

(** ** Probing *)

Lemma probe_spec st n : slots_ok st → ∀ handle,
  1 ≤ handle → handle + Z.of_nat n ≤ 2 ^ 24 →
  (∃ h, probe n (H st) handle = Some (Some h) ∧ handle ≤ h < handle + Z.of_nat n
        ∧ (slot (H st)).[h mod slot_size (H st)] = Some None) ∨
  (probe n (H st) handle = Some None ∧
   ∀ h, handle ≤ h < handle + Z.of_nat n → ∃ p, (slot (H st)).[h mod slot_size (H st)] = Some (Some p)).
Proof.
  intros Hs. induction n as [|n IH]; intros handle H1 Hn; cbn [probe].
  - right. split; [done|]. intros h Hh. lia.
  - unfold HANDLE_MASK. destruct (Z.ltb_spec 0xffffff handle); [lia|].
    rewrite hash_mod by done. pose proof (size_bounds _ Hs).
    destruct (arr_get_is_Some (slot (H st)) (handle mod slot_size (H st))) as [[p|] E].
    { rewrite (so_len _ Hs). apply Z.mod_pos_bound. lia. }
    + rewrite E. rewrite u32_small by lia.
      destruct (IH (handle + 1)) as [(h & Eh & Hh & Hf)|[Eh Hall]]; [lia|lia| |].
      * left. exists h. split; [done|]. split; [lia|done].
      * right. split; [done|]. intros h Hh. destruct (decide (h = handle)) as [->|]; [by exists p|].
        apply Hall. lia.
    + rewrite E. left. exists handle. split; [done|]. split; [lia|done].
Qed.

(** Any window as long as the table meets every slot. *)
Lemma window_full st handle :
  slots_ok st →
  (∀ h, handle ≤ h < handle + slot_size (H st) → ∃ p, (slot (H st)).[h mod slot_size (H st)] = Some (Some p)) →
  ∀ i, 0 ≤ i < slot_size (H st) → ∃ p, (slot (H st)).[i] = Some (Some p).
Proof.
  intros Hs Hw i Hi. set (n := slot_size (H st)) in *.
  pose proof (Z.mod_pos_bound (i - handle) n) as Hm. 
  destruct (Hw (handle + (i - handle) mod n)) as [p Hp]; [lia|].
  exists p. rewrite Zplus_mod_idemp_r in Hp. replace (handle + (i - handle)) with i in Hp by lia.
  by rewrite Z.mod_small in Hp.
Qed.

(** ** Growing the table *)

(** The new table holds, at its finer hash, exactly the contexts moved so far. *)
Definition moved_upto (st : hs_state) (i : Z) (new_slot : list (option positive)) : Prop :=
  len new_slot = slot_size (H st) * 2 ∧
  ∀ j p, new_slot.[j] = Some (Some p) ↔
    ∃ i' c, 0 ≤ i' < i ∧ (slot (H st)).[i'] = Some (Some p) ∧ ctxs st !! p = Some c
      ∧ ctx_handle c mod (slot_size (H st) * 2) = j.

(** The finer hash refines the old one. *)
Lemma hash_refines st p i c : slots_ok st → (slot (H st)).[i] = Some (Some p) → ctxs st !! p = Some c →
  (ctx_handle c mod (slot_size (H st) * 2)) mod slot_size (H st) = i.
Proof.
  intros Hs Hi Hc. pose proof (size_bounds _ Hs).
  destruct (so_slot _ Hs i p Hi) as (c' & low & Hc' & _ & _ & E & Hm).
  assert (c' = c) as -> by congruence. rewrite Z.mod_mod_divide by (exists 2; lia).
  by rewrite E, mod_harbor.
Qed.

Lemma grow_step st i new_slot : slots_ok st →
  slot_size (H st) * 2 ≤ 2 ^ 24 → 0 ≤ i < slot_size (H st) →
  (∃ p, (slot (H st)).[i] = Some (Some p)) → moved_upto st i new_slot →
  ∃ new_slot', (c ← (slot (H st)).[i];
     p ← c;
     handle ← skynet_context_handle p st;
     let hash := Z.land handle (slot_size (H st) * 2 - 1) in
     old ← new_slot.[hash];
     assert! negb (bool_decide (is_Some old));
     new_slot.[hash <- Some p]) = Some new_slot' ∧ moved_upto st (i + 1) new_slot'.
Proof.
  intros Hs Hmax Hi [p Hp] [Hl Hm]. pose proof (size_bounds _ Hs) as Hsz.
  destruct (so_slot _ Hs i p Hp) as (c & low & Hc & _). rewrite Hp.
  unfold skynet_context_handle, get_ctx. rewrite Hc. cbv zeta.
  assert (Z.land (ctx_handle c) (slot_size (H st) * 2 - 1) = ctx_handle c mod (slot_size (H st) * 2)) as ->.
  { destruct (so_size _ Hs) as (k & Hk & ->). replace (2 ^ k * 2) with (2 ^ (k + 1)) by (rewrite Z.pow_add_r; lia).
    apply land_mask. lia. }
  set (hash := ctx_handle c mod _) in *.
  assert (0 ≤ hash < slot_size (H st) * 2) as Hh by (apply Z.mod_pos_bound; lia).
  destruct (arr_get_is_Some new_slot hash) as [old Eo]; [lia|]. rewrite Eo.
  assert (hash mod slot_size (H st) = i) as Hhi by (by eapply hash_refines).
  assert (old = None) as ->.
  { destruct old as [p'|]; [|done]. apply Hm in Eo as (i' & c' & Hi' & Hp' & Hc' & Eh).
    pose proof (hash_refines st p' i' c' Hs Hp' Hc') as Hx. rewrite Eh in Hx. lia. }
  cbn. assert (new_slot.[hash <- Some p] = Some (<[Z.to_nat hash := Some p]> new_slot)) as Eset.
  { apply arr_set_Some. lia. }
  eexists. split; [exact Eset|]. split; [by rewrite (arr_set_len _ _ _ _ Eset)|].
  intros j q. destruct (decide (j = hash)) as [->|Hne].
  - rewrite (arr_get_set_eq _ _ _ _ Eset). split.
    + intros [= <-]. exists i, c. split; [lia|]. done.
    + intros (i' & c' & Hi' & Hq & Hc' & Eh). pose proof (hash_refines st q i' c' Hs Hq Hc') as Hx.
      rewrite Eh, Hhi in Hx. subst i'. congruence.
  - rewrite (arr_get_set_ne _ _ _ j _ Eset) by done. rewrite Hm. split.
    + intros (i' & c' & Hi' & ?). exists i', c'. split; [lia|done].
    + intros (i' & c' & Hi' & Hq & Hc' & Eh). exists i', c'. split; [|done].
      destruct (decide (i' = i)) as [->|]; [|lia].
      assert (q = p) as -> by congruence. assert (c' = c) as -> by congruence. done.
Qed.

Lemma grow_slots_spec st : slots_ok st → slot_size (H st) * 2 ≤ 2 ^ 24 →
  (∀ i, 0 ≤ i < slot_size (H st) → ∃ p, (slot (H st)).[i] = Some (Some p)) →
  ∃ st', grow_slots st = Some st' ∧ slots_ok st' ∧ ctxs st' = ctxs st
    ∧ slot_size (H st') = slot_size (H st) * 2 ∧ handle_index (H st') = handle_index (H st)
    ∧ harbor (H st') = harbor (H st)
    ∧ (∀ l, names_repr (H st) l → names_repr (H st') l)
    ∧ (∀ h p, live st h p ↔ live st' h p)
    ∧ ¬ (∀ i, 0 ≤ i < slot_size (H st') → ∃ p, (slot (H st')).[i] = Some (Some p)).
Proof.
  intros Hs Hmax Hfull. pose proof (size_bounds _ Hs) as Hsz. unfold grow_slots.
  unfold HANDLE_MASK. rewrite (proj2 (Z.leb_le _ _)) by lia.
  destruct (for_range_inv (moved_upto st) 0 (slot_size (H st)) (λ i new_slot,
      c ← (slot (H st)).[i];
      p ← c;
      handle ← skynet_context_handle p st;
      let hash := Z.land handle (slot_size (H st) * 2 - 1) in
      old ← new_slot.[hash];
      assert! negb (bool_decide (is_Some old));
      new_slot.[hash <- Some p]) (replicate (Z.to_nat (slot_size (H st) * 2)) None))
    as (ns & E & Hl & Hm).
  - lia.
  - split; [unfold len; rewrite length_replicate; lia|]. intros j p. split.
    + unfold arr_get. destruct (0 <=? j); [|done]. intros Hx. by apply lookup_replicate_1 in Hx as [? _].
    + intros (i' & c & Hi' & _). lia.
  - intros i ns Hi Hm. by apply grow_step; [..|apply Hfull|].
  - cbv zeta in *. rewrite E. eexists. split; [done|]. unfold set_H.
    match goal with |- slots_ok ?s ∧ _ => set (st' := s) end.
    assert (∀ h p, live st h p ↔ live st' h p) as Hlive.
    { intros h p. split.
      - intros (i & c & Hi & Hc & Hh). exists (ctx_handle c mod (slot_size (H st) * 2)), c.
        split; [|done]. apply Hm. exists i, c. split; [|done].
        rewrite <- (so_len _ Hs). by eapply arr_get_Some.
      - intros (j & c & Hj & Hc & Hh). apply Hm in Hj as (i & c' & _ & Hi & Hc' & _).
        exists i, c. split; [done|]. simpl in Hc. split; [congruence|done]. }
    split; [|split; [done|]; split; [done|]; split; [done|]; split; [done|]; split; [|split; [done|]]].
    + split; simpl; [|done|apply Hs|apply Hs|].
      * destruct (so_size _ Hs) as (k & Hk & Ek). exists (k + 1). rewrite Ek in *.
        rewrite Z.pow_add_r by lia. split; [|done].
        assert (k < 24); [|lia]. apply (Z.pow_lt_mono_r_iff 2); lia.
      * intros j p Hj. apply Hm in Hj as (i & c & _ & Hi & Hc & Eh).
        destruct (so_slot _ Hs i p Hi) as (c' & low & Hc' & Hr & Hlow & Ec & _).
        assert (c' = c) as -> by congruence. exists c, low. split; [done|]. split; [done|].
        split; [done|]. split; [done|]. rewrite <- Eh, Ec.
        destruct (so_size _ Hs) as (k & Hk & Ek). destruct (so_harbor _ Hs) as (h & Hh & Ehb).
        rewrite Ek in *. replace (2 ^ k * 2) with (2 ^ (k + 1)) by (rewrite Z.pow_add_r; lia).
        assert (k < 24) by (apply (Z.pow_lt_mono_r_iff 2); lia).
        replace (2 ^ 24) with (2 ^ (24 - (k + 1)) * 2 ^ (k + 1)) in Ehb
          by (rewrite <- Z.pow_add_r by lia; f_equal; lia).
        rewrite Ehb, Z.mul_assoc, Z_mod_plus_full. done.
    + intros l []. by split.
    + intros Hall. destruct (Hall 0) as [p Hp]; [simpl; lia|].
      destruct (Hall (slot_size (H st))) as [q Hq]; [simpl; lia|].
      apply Hm in Hp as (i & c & _ & Hi & Hc & Eh). apply Hm in Hq as (i' & c' & _ & Hi' & Hc' & Eh').
      pose proof (hash_refines st p i c Hs Hi Hc) as Hx. pose proof (hash_refines st q i' c' Hs Hi' Hc') as Hx'.
      rewrite Eh, Z.mod_0_l in Hx by lia. rewrite Eh', Z.mod_same in Hx' by lia. subst i i'.
      assert (q = p) as -> by congruence. assert (c' = c) as -> by congruence. lia.
Qed.

(** ** Register, retire, grab *)

Lemma low_handle st low : slots_ok st → 1 ≤ low ≤ HANDLE_MASK → Z.lor low (harbor (H st)) = low + harbor (H st).
Proof.
  intros Hs Hl. destruct (so_harbor _ Hs) as (h & _ & ->). apply lor_high; unfold HANDLE_MASK in *; lia.
Qed.

(** Putting a fresh context with handle [low + harbor] into its free slot. *)
Lemma place_spec st p low idx :
  slots_ok st → (∀ i, (slot (H st)).[i] ≠ Some (Some p)) → 1 ≤ low ≤ HANDLE_MASK → 1 ≤ idx ≤ 2 ^ 24 →
  (slot (H st)).[low mod slot_size (H st)] = Some None →
  ∃ slot', (slot (H st)).[low mod slot_size (H st) <- Some p] = Some slot' ∧
    let s := (H st) <| slot := slot' |> in
    let s := s <| handle_index := idx |> in
    let st' := HState s (<[p := Context (low + harbor (H st)) 2]> (ctxs st)) in
    slots_ok st' ∧
    (∀ h q, live st' h q ↔ (h = low + harbor (H st) ∧ q = p) ∨ live st h q) ∧
    (∀ q, ¬ live st (low + harbor (H st)) q).
Proof.
  intros Hs Hp Hlow Hidx Hfree. pose proof (arr_get_Some _ _ _ Hfree) as Hr.
  pose proof (arr_set_Some _ _ (Some p) Hr) as Eset. eexists. split; [exact Eset|]. cbv zeta.
  assert (∀ i q, (slot (H st)).[i] = Some (Some q) → q ≠ p) as Hnp.
  { intros i q Hi ->. by eapply Hp. }
  assert (∀ i q, (<[Z.to_nat (low mod slot_size (H st)) := Some p]> (slot (H st))).[i] = Some (Some q) →
    (i = low mod slot_size (H st) ∧ q = p) ∨ (slot (H st)).[i] = Some (Some q)) as Hinv.
  { intros i q Hi. destruct (decide (i = low mod slot_size (H st))) as [->|Hne].
    - rewrite (arr_get_set_eq _ _ _ _ Eset) in Hi. injection Hi as <-. by left.
    - rewrite (arr_get_set_ne _ _ _ i _ Eset) in Hi by done. by right. }
  split; [|split].
  - destruct Hs as [H1 H2 H3 H4 H5]. split; simpl; [done| |done|done|].
    + by rewrite (arr_set_len _ _ _ _ Eset).
    + intros i q [[-> ->]|Hi]%Hinv.
      * rewrite lookup_insert_eq. eexists _, low. split; [done|]. simpl. split; [lia|]. done.
      * rewrite lookup_insert_ne by (apply not_eq_sym; by eapply Hnp). by apply H5.
  - intros h q. split.
    + intros (i & c & [[-> ->]|Hi]%Hinv & Hc & Hh); simpl in Hc.
      * rewrite lookup_insert_eq in Hc. injection Hc as <-. simpl in Hh. left. by split.
      * rewrite lookup_insert_ne in Hc by (apply not_eq_sym; by eapply Hnp). right. by exists i, c.
    + intros [[-> ->]|(i & c & Hi & Hc & Hh)].
      * eexists _, _. simpl. rewrite lookup_insert_eq.
        split; [by apply (arr_get_set_eq _ _ _ _ Eset)|done].
      * exists i, c. simpl. rewrite lookup_insert_ne by (apply not_eq_sym; by eapply Hnp).
        split; [|done]. rewrite (arr_get_set_ne _ _ _ i _ Eset); [done|]. congruence.
  - intros q Hl. destruct (live_slot st _ q Hs Hl) as [Hi _]. rewrite mod_harbor in Hi by done. congruence.
Qed.

(** The table does not see a context that is in no slot. *)
Lemma fresh_ctx st p c : slots_ok st → ctxs st !! p = None →
  slots_ok (set_ctx p c st) ∧ (∀ h q, live (set_ctx p c st) h q ↔ live st h q).
Proof.
  intros Hs Hp.
  assert (∀ i q, (slot (H st)).[i] = Some (Some q) → q ≠ p) as Hnp.
  { intros i q Hi ->. destruct (so_slot _ Hs i p Hi) as (c' & _ & Hc & _). congruence. }
  split.
  - destruct Hs as [H1 H2 H3 H4 H5]. split; simpl; try done. intros i q Hi.
    rewrite lookup_insert_ne by (apply not_eq_sym; by eapply Hnp). by apply H5.
  - intros h q. split; intros (i & c' & Hi & Hc & Hh); exists i, c'; simpl in *.
    + rewrite lookup_insert_ne in Hc by (apply not_eq_sym; by eapply Hnp). done.
    + by rewrite lookup_insert_ne by (apply not_eq_sym; by eapply Hnp).
Qed.

(** One round of [skynet_handle_register] on a table with a free slot in the window. *)
Lemma register_found fuel p st h :
  slots_ok st → probe (Z.to_nat (slot_size (H st))) (H st) (handle_index (H st)) = Some (Some h) →
  1 ≤ h < 2 ^ 24 → (slot (H st)).[h mod slot_size (H st)] = Some None →
  ∃ slot', (slot (H st)).[h mod slot_size (H st) <- Some p] = Some slot' ∧
   skynet_handle_register (S fuel) p st =
   Some (h + harbor (H st), set_H ((H st) <| slot := slot' |> <| handle_index := h + 1 |>) st).
Proof.
  intros Hs Hp Hh Hf. pose proof (arr_set_Some _ _ (Some p) (arr_get_Some _ _ _ Hf)) as Eset.
  eexists. split; [exact Eset|]. cbn [skynet_handle_register]. rewrite Hp, hash_mod, Eset by done.
  cbn [harbor]. rewrite low_handle by (done || unfold HANDLE_MASK; lia).
  by rewrite u32_small by lia.
Qed.

(** Before the handle counter wraps, one doubling at most leads to a free slot. *)
Lemma register_window p st :
  slots_ok st → handle_index (H st) + 2 * slot_size (H st) ≤ 2 ^ 24 →
  ∃ st1 h fuel, skynet_handle_register register_fuel p st = skynet_handle_register (S fuel) p st1
    ∧ slots_ok st1 ∧ ctxs st1 = ctxs st ∧ harbor (H st1) = harbor (H st)
    ∧ (∀ h q, live st h q ↔ live st1 h q) ∧ (∀ l, names_repr (H st) l → names_repr (H st1) l)
    ∧ probe (Z.to_nat (slot_size (H st1))) (H st1) (handle_index (H st1)) = Some (Some h)
    ∧ 1 ≤ h < 2 ^ 24 ∧ handle_index (H st) ≤ h ∧ (slot (H st1)).[h mod slot_size (H st1)] = Some None.
Proof.
  intros Hs Hidx. pose proof (so_index _ Hs) as Hi1. pose proof (size_bounds _ Hs) as Hsz.
  destruct (probe_spec st (Z.to_nat (slot_size (H st))) Hs (handle_index (H st)))
    as [(h & E & Hh & Hf)|[E Hall]]; [lia|lia| |].
  - exists st, h, 1%nat. split; [done|]. do 5 (split; [done|]). split; [done|]. split; [lia|]. split; [lia|done].
  - assert (∀ i, 0 ≤ i < slot_size (H st) → ∃ p, (slot (H st)).[i] = Some (Some p)) as Hfull.
    { apply (window_full st (handle_index (H st)) Hs). intros h Hh. apply Hall. lia. }
    destruct (grow_slots_spec st Hs) as (st1 & Eg & Hs1 & Hc & Hsz1 & Hix1 & Hhb & Hn & Hl & Hnf); [lia|done|].
    destruct (probe_spec st1 (Z.to_nat (slot_size (H st1))) Hs1 (handle_index (H st1)))
      as [(h & E1 & Hh & Hf)|[_ Hall1]]; [lia|lia| |].
    + exists st1, h, 0%nat. split; [unfold register_fuel; cbn [skynet_handle_register]; by rewrite E, Eg|].
      do 5 (split; [done|]). split; [done|]. split; [lia|]. split; [lia|done].
    + exfalso. apply Hnf. apply (window_full st1 (handle_index (H st1)) Hs1).
      intros h Hh. apply Hall1. lia.
Qed.

Lemma register_ok p st :
  slots_ok st → ctxs st !! p = None → handle_index (H st) + 2 * slot_size (H st) ≤ 2 ^ 24 →
  ∃ handle st', context_register p st = Some (handle, st') ∧ slots_ok st'
    ∧ 1 ≤ handle - harbor (H st) ≤ HANDLE_MASK
    ∧ handle_index (H st') = handle - harbor (H st) + 1 ∧ handle_index (H st) < handle_index (H st')
    ∧ harbor (H st') = harbor (H st) ∧ ctxs st' = <[p := Context handle 2]> (ctxs st)
    ∧ hs_find st handle = None
    ∧ (∀ h, hs_find st' h = if h =? handle then Some p else hs_find st h)
    ∧ (∀ l, names_repr (H st) l → names_repr (H st') l).
Proof.
  intros Hs Hp Hidx. destruct (fresh_ctx st p (Context 0 2) Hs Hp) as [Hs0 Hlive0].
  destruct (register_window p (set_ctx p (Context 0 2) st) Hs0 Hidx)
    as (st1 & low & fuel & Er & Hs1 & Hc1 & Hh1 & Hl1 & Hn1 & Hpr & Hlow & Hge & Hf).
  destruct (register_found fuel p st1 low Hs1 Hpr Hlow Hf) as (slot' & Eset & Ef).
  unfold context_register. rewrite Er, Ef. unfold get_ctx, set_H, set_ctx. cbn [ctxs H].
  rewrite Hc1. cbn [set_ctx ctxs]. rewrite lookup_insert_eq, insert_insert_eq. cbn [ctx_ref].
  assert (∀ i, (slot (H st1)).[i] ≠ Some (Some p)) as Hnp.
  { intros i Hi. destruct (so_slot _ Hs1 i p Hi) as (c & l & Hc & _).
    assert (live st1 (ctx_handle c) p) as Hl by (by exists i, c).
    apply Hl1, Hlive0 in Hl as (i' & c' & _ & Hc' & _). congruence. }
  destruct (place_spec st1 p low (low + 1) Hs1 Hnp) as (slot2 & Eset2 & Hs2 & Hl2 & Hno2);
    [unfold HANDLE_MASK; lia|lia|done|].
  rewrite Eset2 in Eset. injection Eset as <-.
  rewrite Hc1, Hh1 in *. cbn [set_ctx ctxs H] in *. rewrite insert_insert_eq in Hs2, Hl2.
  eexists _, _. split; [done|]. split; [exact Hs2|]. split; [unfold HANDLE_MASK; lia|].
  split; [cbn; lia|]. split; [cbn; lia|]. split; [done|]. split; [done|].
  assert (∀ h q, live st1 h q ↔ live st h q) as Hlt.
  { intros h q. by rewrite <- Hl1, Hlive0. }
  split; [|split].
  - destruct (hs_find st (low + harbor (H st))) as [q|] eqn:Eq; [|done].
    apply find_live in Eq; [|done]. apply Hlt in Eq. by destruct (Hno2 q).
  - intros h. apply option_eq. intros q. rewrite find_live by exact Hs2. rewrite Hl2, Hlt.
    destruct (Z.eqb_spec h (low + harbor (H st))) as [->|Hne].
    + split; [intros [[_ ->]|Hx]; [done|]|intros [= <-]; by left].
      apply Hlt in Hx. by destruct (Hno2 q).
    + rewrite find_live by done. split; [by intros [[? _]|?]|by right].
  - intros l Hl. destruct (Hn1 l Hl). by split.
Qed.

(** C31: registering a context while the handle counter has not reached the end of
    the 24-bit range returns a handle of this harbor that no live context
    has, makes exactly that handle lead to the context, keeps every other
    handle and every name, also when the table has to double, and fails
    no assertion. *)
Theorem context_register_fresh p st :
  slots_ok st → ctxs st !! p = None → handle_index (H st) + 2 * slot_size (H st) ≤ 2 ^ 24 →
  ∃ handle st', context_register p st = Some (handle, st') ∧ slots_ok st'
    ∧ 1 ≤ handle - harbor (H st) ≤ HANDLE_MASK
    ∧ hs_find st handle = None
    ∧ (∀ h, hs_find st' h = if h =? handle then Some p else hs_find st h)
    ∧ (∀ l, names_repr (H st) l → names_repr (H st') l).
Proof.
  intros Hs Hp Hidx. destruct (register_ok p st Hs Hp Hidx) as (h & st' & E & Hs' & Hh & _ & _ & _ & _ & Hf).
  by exists h, st'.
Qed.

(** Clearing the slot of a live handle. *)
Lemma clear_spec st h p :
  slots_ok st → live st h p →
  ∃ slot', (slot (H st)).[h mod slot_size (H st) <- None] = Some slot' ∧
    let st' := HState ((H st) <| slot := slot' |>) (ctxs st) in
    slots_ok st' ∧ (∀ i, (slot (H st')).[i] ≠ Some (Some p)) ∧
    (∀ h' q, live st' h' q ↔ h' ≠ h ∧ live st h' q).
Proof.
  intros Hs Hl. destruct (live_slot st h p Hs Hl) as (Hi & c & Hc & Hr & Hh & Hlow).
  pose proof (arr_set_Some _ _ None (arr_get_Some _ _ _ Hi)) as Eset.
  eexists. split; [exact Eset|]. cbv zeta.
  assert (∀ i q, (<[Z.to_nat (h mod slot_size (H st)) := None]> (slot (H st))).[i] = Some (Some q) →
    i ≠ h mod slot_size (H st) ∧ (slot (H st)).[i] = Some (Some q)) as Hinv.
  { intros i q Hq. destruct (decide (i = h mod slot_size (H st))) as [->|Hne].
    - by rewrite (arr_get_set_eq _ _ _ _ Eset) in Hq.
    - by rewrite (arr_get_set_ne _ _ _ i _ Eset) in Hq by done. }
  split; [|split].
  - destruct Hs as [H1 H2 H3 H4 H5]. split; simpl; [done| |done|done|].
    + by rewrite (arr_set_len _ _ _ _ Eset).
    + intros i q [_ Hq]%Hinv. by apply H5.
  - intros i [Hne Hq]%Hinv. apply Hne. by eapply slot_inj.
  - intros h' q. split.
    + intros (i & c' & [Hne Hq]%Hinv & Hc' & Hh'). split; [|by exists i, c'].
      intros ->. apply Hne.
      destruct (live_slot st h q Hs) as [Hq' _]; [by exists i, c'|].
      rewrite Hi in Hq'. injection Hq' as <-. by eapply slot_inj.
    + intros [Hne (i & c' & Hq & Hc' & Hh')]. exists i, c'. split; [|done].
      simpl. rewrite (arr_get_set_ne _ _ _ i _ Eset); [done|]. intros Ei. subst i.
      apply Hne. rewrite Hi in Hq. injection Hq as <-. congruence.
Qed.

(** Changing or freeing a context that is in no slot. *)
Lemma release_spec st p c : slots_ok st → (∀ i, (slot (H st)).[i] ≠ Some (Some p)) →
  ctxs st !! p = Some c →
  ∃ st', skynet_context_release p st = Some st' ∧ H st' = H st ∧ slots_ok st'
    ∧ (∀ h q, live st' h q ↔ live st h q)
    ∧ ctxs st' !! p = (if ctx_ref c =? 1 then None else Some (Context (ctx_handle c) (ctx_ref c - 1))).
Proof.
  intros Hs Hnp Hc. unfold skynet_context_release, get_ctx. rewrite Hc.
  assert (∀ m, (∀ q, q ≠ p → m !! q = ctxs st !! q) →
    slots_ok (HState (H st) m) ∧ (∀ h q, live (HState (H st) m) h q ↔ live st h q)) as Hm.
  { intros m Hm. split.
    - destruct Hs as [H1 H2 H3 H4 H5]. split; simpl; try done. intros i q Hi. rewrite Hm; [by apply H5|].
      intros ->. by eapply Hnp.
    - intros h q. split; intros (i & c' & Hi & Hc' & Hh); exists i, c'; simpl in *;
        (rewrite Hm in *; [done|]; intros ->; by eapply Hnp). }
  destruct (Z.eqb_spec (ctx_ref c) 1); eexists; (split; [done|]); (split; [done|]); unfold set_ctx; simpl.
  - destruct (Hm (delete p (ctxs st))) as [? ?]; [intros; by apply lookup_delete_ne|].
    split; [done|]. split; [done|]. apply lookup_delete_eq.
  - destruct (Hm (<[p := Context (ctx_handle c) (ctx_ref c - 1)]> (ctxs st))) as [? ?];
      [intros; by apply lookup_insert_ne|].
    split; [done|]. split; [done|]. apply lookup_insert_eq.
Qed.

(** The map without the names of one service. *)
Definition without (handle : Z) (m : gmap cstring Z) : gmap cstring Z := filter (λ kv, kv.2 ≠ handle) m.

Lemma names_map_filter s s' l handle : names_repr s l → names_repr s' (filter (keeps handle) l) →
  names_map (filter (keeps handle) l) = without handle (names_map l).
Proof.
  intros Hr Hr'. apply map_eq. intros nm. apply option_eq. intros h.
  unfold without. rewrite map_lookup_filter_Some.
  rewrite (names_map_Some s' _ nm h Hr'), (names_map_Some s _ nm h Hr), list_elem_of_filter.
  unfold keeps. simpl. tauto.
Qed.

Lemma retire_slot_live handle st l p :
  slots_ok st → names_repr (H st) l → live st handle p →
  ∃ st', retire_slot handle st = Some (Some p, st') ∧ slots_ok st' ∧ ctxs st' = ctxs st
    ∧ (∀ i, (slot (H st')).[i] ≠ Some (Some p))
    ∧ (∀ h q, live st' h q ↔ h ≠ handle ∧ live st h q)
    ∧ names_repr (H st') (filter (keeps handle) l)
    ∧ slot_size (H st') = slot_size (H st) ∧ handle_index (H st') = handle_index (H st)
    ∧ harbor (H st') = harbor (H st)
    ∧ (slot (H st)).[handle mod slot_size (H st) <- None] = Some (slot (H st')).
Proof.
  intros Hs Hn Ef. destruct (live_slot st handle p Hs Ef) as (Hi & c & Hc & Hr & Hh & _).
  destruct (clear_spec st handle p Hs Ef) as (slot' & Eset & Hs1 & Hnp & Hl1). cbv zeta in *.
  unfold retire_slot. rewrite hash_mod, Hi by done.
  unfold skynet_context_handle, get_ctx. rewrite Hc, Hh, Z.eqb_refl, Eset.
  destruct (drop_names_spec ((H st) <| slot := slot' |>) l handle) as (s2 & -> & Hss & _ & Hn2).
  { by destruct Hn. }
  destruct Hss as (E1 & E2 & E3 & E4). simpl in E1, E2, E3, E4.
  exists (set_H s2 st). simpl. rewrite E1, E2, E3, E4. split; [done|]. split.
  { destruct Hs1 as [F1 F2 F3 F4 F5]. split; simpl in *; rewrite ?E1, ?E2, ?E3, ?E4; done. }
  split; [done|]. split; [done|]. split; [|done].
  intros h q. rewrite <- Hl1. unfold live. simpl. by rewrite E4.
Qed.

Lemma retire_slot_dead handle st :
  slots_ok st → hs_find st handle = None → retire_slot handle st = Some (None, st).
Proof.
  intros Hs Ef. unfold hs_find in Ef. unfold retire_slot.
  destruct (arr_get_is_Some (slot (H st)) (Z.land handle (slot_size (H st) - 1))) as [o E].
  { rewrite hash_mod, (so_len _ Hs) by done. apply Z.mod_pos_bound. pose proof (size_bounds _ Hs). lia. }
  rewrite E in Ef |- *. destruct o as [p|]; [|done].
  destruct (so_slot _ Hs _ _ E) as (c & low & Hc & _).
  unfold skynet_context_handle, get_ctx in *. rewrite Hc in *. by destruct (ctx_handle c =? handle).
Qed.

Lemma retire_live handle st l p :
  slots_ok st → names_repr (H st) l → live st handle p →
  ∃ st', skynet_handle_retire handle st = Some (1, st') ∧ slots_ok st'
    ∧ (∀ h q, live st' h q ↔ h ≠ handle ∧ live st h q)
    ∧ names_repr (H st') (filter (keeps handle) l)
    ∧ slot_size (H st') = slot_size (H st)
    ∧ (slot (H st)).[handle mod slot_size (H st) <- None] = Some (slot (H st'))
    ∧ ctxs st' !! p = (c ← ctxs st !! p;
         if ctx_ref c =? 1 then None else Some (Context (ctx_handle c) (ctx_ref c - 1))).
Proof.
  intros Hs Hn Ef. destruct (live_slot st handle p Hs Ef) as (Hi & c & Hc & Hr & Hh & _).
  destruct (retire_slot_live handle st l p Hs Hn Ef)
    as (st2 & E & Hs2 & Ec & Hnp & Hl2 & Hn2 & Hsz & _ & _ & Eset).
  unfold skynet_handle_retire. rewrite E. rewrite <- Ec in Hc.
  destruct (release_spec st2 p c Hs2 Hnp Hc) as (st3 & -> & EH & Hs3 & Hl3 & Hcp).
  exists st3. rewrite EH. split; [done|]. split; [done|]. split; [|do 3 (split; [done|])].
  - intros h q. by rewrite Hl3, Hl2.
  - by rewrite Hcp, <- Ec, Hc, Hh.
Qed.

(** Retiring a live handle removes it, and only it, from the table, deletes
    exactly the names bound to it and drops one reference of its context;
    retiring any other handle returns 0 and changes nothing. *)
Theorem skynet_handle_retire_spec handle st l :
  slots_ok st → names_repr (H st) l →
  match hs_find st handle with
  | Some p => ∃ st' l', skynet_handle_retire handle st = Some (1, st') ∧ slots_ok st'
      ∧ (∀ h, hs_find st' h = if h =? handle then None else hs_find st h)
      ∧ names_repr (H st') l' ∧ names_map l' = without handle (names_map l)
      ∧ ctxs st' !! p = (c ← ctxs st !! p;
           if ctx_ref c =? 1 then None else Some (Context (ctx_handle c) (ctx_ref c - 1)))
  | None => skynet_handle_retire handle st = Some (0, st)
  end.
Proof.
  intros Hs Hn. destruct (hs_find st handle) as [p|] eqn:Ef.
  - apply find_live in Ef; [|done].
    destruct (retire_live handle st l p Hs Hn Ef) as (st' & E & Hs' & Hl & Hn' & _ & _ & Hc).
    exists st', (filter (keeps handle) l). split; [done|]. split; [done|]. split; [|split; [done|split; [|done]]].
    + intros h. apply option_eq. intros q. rewrite find_live, Hl by done.
      destruct (Z.eqb_spec h handle) as [->|Hne]; [by split; [intros [? _]|]|].
      rewrite find_live by done. by split; [intros [_ ?]|].
    + by eapply names_map_filter.
  - unfold skynet_handle_retire. by rewrite retire_slot_dead.
Qed.

Lemma grab_ok handle st :
  slots_ok st →
  ∃ st', skynet_handle_grab handle st = Some (hs_find st handle, st') ∧ slots_ok st'
    ∧ H st' = H st ∧ (∀ h, hs_find st' h = hs_find st h)
    ∧ ctxs st' = match hs_find st handle with
                 | Some p => alter (λ c, Context (ctx_handle c) (ctx_ref c + 1)) p (ctxs st)
                 | None => ctxs st
                 end.
Proof.
  intros Hs. unfold skynet_handle_grab, hs_find at 1.
  destruct (arr_get_is_Some (slot (H st)) (Z.land handle (slot_size (H st) - 1))) as [o E].
  { rewrite hash_mod, (so_len _ Hs) by done. apply Z.mod_pos_bound. pose proof (size_bounds _ Hs). lia. }
  assert (hs_find st handle = (p ← o; h ← skynet_context_handle p st; if h =? handle then Some p else None)) as Ef.
  { unfold hs_find. by rewrite E. }
  rewrite E. destruct o as [p|]; [|exists st; by rewrite Ef].
  destruct (so_slot _ Hs _ _ E) as (c & low & Hc & Hr & Hlow & Eh & Hm).
  rewrite Ef. unfold skynet_context_handle, skynet_context_grab, get_ctx. rewrite Hc.
  destruct (Z.eqb_spec (ctx_handle c) handle) as [Hh|Hh]; [|by exists st].
  set (c' := Context (ctx_handle c) (ctx_ref c + 1)).
  assert (∀ q d, (<[p := c']> (ctxs st)) !! q = Some d → ∃ d0, ctxs st !! q = Some d0 ∧ ctx_handle d0 = ctx_handle d) as Hback.
  { intros q d. destruct (decide (p = q)) as [<-|Hne].
    - rewrite lookup_insert_eq. intros [= <-]. by exists c.
    - rewrite lookup_insert_ne by done. intros ?. by exists d. }
  assert (∀ q d, ctxs st !! q = Some d → ∃ d', (<[p := c']> (ctxs st)) !! q = Some d' ∧
    ctx_handle d' = ctx_handle d ∧ ctx_ref d ≤ ctx_ref d') as Hfwd.
  { intros q d Hd. destruct (decide (p = q)) as [<-|Hne].
    - rewrite lookup_insert_eq. exists c'. assert (d = c) as -> by congruence. by split; [|split; [|simpl; lia]].
    - rewrite lookup_insert_ne by done. by exists d. }
  assert (slots_ok (set_ctx p c' st)) as Hs'.
  { destruct Hs as [H1 H2 H3 H4 H5]. split; simpl; try done. intros i q Hi.
    destruct (H5 i q Hi) as (d & lo & Hd & Hr' & Hlo & Ed & Em).
    destruct (Hfwd q d Hd) as (d' & Hd' & Eh' & Hr''). exists d', lo. split; [done|].
    split; [lia|]. split; [done|]. split; [congruence|done]. }
  eexists. split; [done|]. split; [exact Hs'|]. split; [done|]. split.
  - apply find_ext; [done|done|]. intros h q. split; intros (i & d & Hi & Hd & Hdh).
    + destruct (Hback q d Hd) as (d0 & ? & ?). exists i, d0. split; [done|]. split; [done|congruence].
    + destruct (Hfwd q d Hd) as (d0 & ? & ? & _). exists i, d0. split; [done|]. split; [done|congruence].
  - simpl. apply map_eq. intros q. rewrite lookup_alter. case_decide as Eq.
    + subst q. rewrite lookup_insert_eq, Hc. done.
    + by rewrite lookup_insert_ne.
Qed.

(** [skynet_handle_grab] finds a context exactly when its handle is live, and
    then adds one reference to it and changes nothing else. *)
Theorem skynet_handle_grab_spec handle st :
  slots_ok st →
  ∃ st', skynet_handle_grab handle st = Some (hs_find st handle, st') ∧ slots_ok st'
    ∧ H st' = H st ∧ (∀ h, hs_find st' h = hs_find st h)
    ∧ ctxs st' = match hs_find st handle with
                 | Some p => alter (λ c, Context (ctx_handle c) (ctx_ref c + 1)) p (ctxs st)
                 | None => ctxs st
                 end.
Proof. apply grab_ok. Qed.

Lemma names_ok nm handle st l :
  names_repr (H st) l → len l < 2 ^ 29 →
  skynet_handle_findname nm st = Some (default 0 (names_map l !! nm)) ∧
  ∃ ret st' l', skynet_handle_namehandle handle nm st = Some (ret, st')
    ∧ names_repr (H st') l' ∧ ctxs st' = ctxs st ∧ same_slots (H st) (H st')
    ∧ match names_map l !! nm with
      | Some _ => ret = None ∧ st' = st
      | None => ret = Some nm ∧ names_map l' = <[nm := handle]> (names_map l)
      end.
Proof.
  intros Hr Hmax. destruct (search_spec (H st) l nm Hr) as (r & E & Hok).
  pose proof (names_map_search _ _ _ _ Hr Hok) as Hm.
  unfold skynet_handle_findname, skynet_handle_namehandle, _insert_name. rewrite E, Hm.
  destruct r as [n|k]; (split; [done|]).
  - exists None, (set_H (H st) st), l. split; [done|]. split; [done|]. split; [done|].
    split; [done|]. split; [done|]. by destruct st.
  - destruct (insert_before_spec (H st) l nm handle k Hr) as (s' & -> & Hss & Hins).
    { rewrite <- (nr_count _ _ Hr). apply Hok. }
    { pose proof (nr_count _ _ Hr). unfold MAX_SLOT_SIZE. lia. }
    { pose proof (nr_count _ _ Hr). unfold MAX_SLOT_SIZE.
      destruct (decide (name_count (H st) < name_cap (H st))); [by right|left].
      pose proof (nr_le _ _ Hr). lia. }
    pose proof (names_repr_insert _ _ _ _ _ _ Hr Hins Hok) as Hr'.
    eexists _, (set_H s' st), _. split; [done|]. split; [exact Hr'|]. split; [done|].
    split; [done|]. split; [done|]. apply map_eq. intros nm'. apply option_eq. intros h.
    rewrite (names_map_Some s' _ nm' h Hr'). unfold ins.
    rewrite elem_of_app, elem_of_cons.
    assert (HandleName nm' h ∈ l ↔ HandleName nm' h ∈ take (Z.to_nat k) l ∨ HandleName nm' h ∈ drop (Z.to_nat k) l) as Hsplit.
    { rewrite <- elem_of_app. by rewrite take_drop. }
    destruct (decide (nm = nm')) as [<-|Hne].
    + rewrite lookup_insert_eq. split; [|intros [= ->]; by right; left].
      intros [Hx|[[= ->]|Hx]]; [|done|];
        (assert (names_map l !! nm = Some h) by (apply (names_map_Some _ _ _ _ Hr), Hsplit; tauto); congruence).
    + rewrite lookup_insert_ne, (names_map_Some _ l nm' h Hr), Hsplit by done.
      split; [|tauto]. intros [?|[[= ? ?]|?]]; [by left|congruence|by right].
Qed.

(** C8: the sorted array of names implements a finite map: [skynet_handle_findname]
    returns the handle the name is bound to, or 0, and
    [skynet_handle_namehandle] binds a free name, returning it, or returns
    NULL and changes nothing when the name is taken; both binary searches
    end, and while fewer than 2^29 names are bound no assertion fails. *)
Theorem skynet_handle_names nm handle st l :
  names_repr (H st) l → len l < 2 ^ 29 →
  skynet_handle_findname nm st = Some (default 0 (names_map l !! nm)) ∧
  ∃ ret st' l', skynet_handle_namehandle handle nm st = Some (ret, st')
    ∧ names_repr (H st') l' ∧ ctxs st' = ctxs st ∧ same_slots (H st) (H st')
    ∧ match names_map l !! nm with
      | Some _ => ret = None ∧ st' = st
      | None => ret = Some nm ∧ names_map l' = <[nm := handle]> (names_map l)
      end.
Proof. apply names_ok. Qed.

(** ** Retiring everything *)

Definition all_clear (st : hs_state) : Prop := ∀ i p, (slot (H st)).[i] ≠ Some (Some p).

Lemma retire_sweep_spec st l :
  slots_ok st → names_repr (H st) l →
  ∃ st' n l', retire_sweep st = Some (st', n) ∧ slots_ok st' ∧ names_repr (H st') l' ∧ all_clear st'
    ∧ 0 ≤ n ∧ (all_clear st → n = 0).
Proof.
  intros Hs Hr. unfold retire_sweep. pose proof (size_bounds _ Hs) as Hsz.
  match goal with |- ∃ _ _ _, for_range _ _ ?body _ = _ ∧ _ =>
    destruct (for_range_inv (λ i '(st', n), slots_ok st' ∧ (∃ l', names_repr (H st') l')
      ∧ slot_size (H st') = slot_size (H st)
      ∧ (∀ j p, j < i → (slot (H st')).[j] ≠ Some (Some p))
      ∧ 0 ≤ n ∧ (all_clear st → n = 0 ∧ all_clear st')) 0 (slot_size (H st)) body (st, 0))
      as ([st' n] & E & Hs' & (l' & Hr') & Hsz' & Hcl & Hn & Hz) end.
  - lia.
  - split; [done|]. split; [by exists l|]. split; [done|]. split; [|by split; [lia|]].
    intros j p Hj Hx. apply arr_get_Some in Hx. lia.
  - intros i [st' n] Hi (Hs' & (l' & Hr') & Hsz' & Hcl & Hn & Hz).
    destruct (arr_get_is_Some (slot (H st')) i) as [o Eo]; [rewrite (so_len _ Hs'); lia|].
    rewrite Eo. destruct o as [p|]; cycle 1.
    { eexists. split; [done|]. cbv beta iota. split; [done|]. split; [by exists l'|]. split; [done|].
      split; [|by split]. intros j p Hj. destruct (decide (j = i)) as [->|]; [congruence|].
      apply Hcl. lia. }
    destruct (so_slot _ Hs' i p Eo) as (c & low & Hc & Hrc & Hlow & Eh & Hm).
    unfold skynet_context_handle, get_ctx. rewrite Hc.
    destruct (so_harbor _ Hs') as (hb & Hhb & Ehb).
    destruct (Z.eqb_spec (ctx_handle c) 0) as [E0|E0]; [unfold HANDLE_MASK in *; lia|]. cbn [negb].
    assert (live st' (ctx_handle c) p) as Hl by (by exists i, c).
    destruct (retire_live _ st' l' p Hs' Hr' Hl) as (st2 & -> & Hs2 & _ & Hr2 & Hsz2 & Eset & _).
    destruct (live_slot st' _ p Hs' Hl) as [Eo' _].
    rewrite (slot_inj st' _ _ p Hs' Eo' Eo) in Eset.
    eexists. split; [done|]. cbv beta iota. split; [done|]. split; [by eexists|]. split; [lia|].
    split; [|split].
    + intros j q Hj. destruct (decide (j = i)) as [->|Hne].
      * rewrite (arr_get_set_eq _ _ _ _ Eset). done.
      * rewrite (arr_get_set_ne _ _ _ j _ Eset) by done. apply Hcl. lia.
    + simpl. lia.
    + intros Hx. destruct (Hz Hx) as [_ Hx']. exfalso. by eapply Hx'.
  - exists st', n, l'. split; [exact E|]. split; [done|]. split; [done|]. split; [|split; [done|]].
    + intros i p Hi. pose proof (arr_get_Some _ _ _ Hi) as Hrng. rewrite (so_len _ Hs') in Hrng.
      by apply (Hcl i p); [lia|].
    + intros Hx. by apply Hz.
Qed.

(** C32: [skynet_handle_retireall] ends after two sweeps and leaves no handle live. *)
Theorem skynet_handle_retireall_clears st l :
  slots_ok st → names_repr (H st) l →
  ∃ st', skynet_handle_retireall 2 st = Some st' ∧ slots_ok st' ∧ ∀ h, hs_find st' h = None.
Proof.
  intros Hs Hr. destruct (retire_sweep_spec st l Hs Hr) as (st1 & n & l1 & E1 & Hs1 & Hr1 & Hc1 & Hn & _).
  assert (∀ st', slots_ok st' → all_clear st' → ∀ h, hs_find st' h = None) as Hnone.
  { intros st' Hs' Hc h. destruct (hs_find st' h) as [p|] eqn:E; [|done].
    apply find_live in E as (i & c & Hi & _); [|done]. by destruct (Hc i p). }
  cbn [skynet_handle_retireall]. rewrite E1. destruct (Z.eqb_spec n 0) as [->|Hne].
  - exists st1. split; [done|]. split; [done|]. by apply Hnone.
  - destruct (retire_sweep_spec st1 l1 Hs1 Hr1) as (st2 & n2 & l2 & E2 & Hs2 & _ & Hc2 & _ & Hz).
    rewrite E2, (Hz Hc1). simpl. exists st2. split; [done|]. split; [done|]. by apply Hnone.
Qed.

(** ** Where registration fails *)

Lemma init_ok hb : slots_ok (HState (skynet_handle_init hb) ∅) ∧ names_repr (skynet_handle_init hb) [].
Proof.
  split.
  - split; simpl.
    + exists 2. unfold DEFAULT_SLOT_SIZE. lia.
    + done.
    + exists (Z.land hb 0xff). change 0xff with (2 ^ 8 - 1). rewrite land_mask by lia.
      pose proof (Z.mod_pos_bound hb (2 ^ 8)). split; [lia|].
      rewrite Z.shiftl_mul_pow2 by (unfold HANDLE_REMOTE_SHIFT; lia).
      rewrite u32_small; [done|]. unfold HANDLE_REMOTE_SHIFT. lia.
    + lia.
    + intros i p Hi. unfold arr_get in Hi. destruct (0 <=? i); [|done].
      by apply (lookup_replicate_1 4) in Hi as [? _].
  - split; simpl; [done|unfold MAX_SLOT_SIZE; lia|lia|done| |].
    + intros i n Hi. unfold arr_get in Hi. by destruct (0 <=? i).
    + intros i j a b Hi. unfold arr_get in Hi. by destruct (0 <=? i).
Qed.

(** A harbor-0 node late in its life: the counter is at the last 24-bit handle,
    three services hold handles 1, 2 and 3, slot 0 is free. *)
Definition wrapped_state : hs_state :=
  {| H := {| harbor := 0; handle_index := HANDLE_MASK; slot_size := 4;
             slot := [None; Some 1%positive; Some 2%positive; Some 3%positive];
             name_cap := 2; name_count := 0; name := [None; None] |};
     ctxs := {[1%positive := Context 1 1; 2%positive := Context 2 1; 3%positive := Context 3 1]} |}.


(** Three services registered one after the other on a fresh node. *)
Definition three_services : option hs_state :=
  '(_, st) ← context_register 1 (HState (skynet_handle_init 0) ∅);
  '(_, st) ← context_register 2 st;
  '(_, st) ← context_register 3 st;
  Some st.

(** Thread A registers context 4 but has not yet stored its handle when thread
    B registers context 5; then both store their handles. *)
Definition racing_registrations : option (Z * Z * hs_state) :=
  st ← three_services;
  '(handle_a, st) ← skynet_handle_register register_fuel 4 (set_ctx 4 (Context 0 2) st);
  '(handle_b, st) ← skynet_handle_register register_fuel 5 (set_ctx 5 (Context 0 2) st);
  Some (handle_a, handle_b, set_ctx 5 (Context handle_b 2) (set_ctx 4 (Context handle_a 2) st)).


(** ** Witnesses *)

Lemma context_register_fresh_witness :
  let st := HState (skynet_handle_init 1) ∅ in
  slots_ok st ∧ ctxs st !! 1%positive = None ∧ handle_index (H st) + 2 * slot_size (H st) ≤ 2 ^ 24 ∧
  ∃ handle st', context_register 1 st = Some (handle, st') ∧ hs_find st' handle = Some 1%positive.
Proof.
  intros st. destruct (init_ok 1) as [Hs _].
  assert (handle_index (H st) + 2 * slot_size (H st) ≤ 2 ^ 24) as Hi by (vm_compute; done).
  split; [exact Hs|]. split; [reflexivity|]. split; [exact Hi|].
  destruct (context_register_fresh 1 st Hs eq_refl Hi) as (h & st' & E & _ & _ & _ & Hf & _).
  exists h, st'. split; [exact E|]. by rewrite Hf, Z.eqb_refl.
Defined.

Lemma skynet_handle_retire_spec_witness :
  let st := HState (skynet_handle_init 1) ∅ in
  slots_ok st ∧ names_repr (H st) [] ∧ skynet_handle_retire 9 st = Some (0, st).
Proof.
  intros st. destruct (init_ok 1) as [Hs Hn]. split; [exact Hs|]. split; [exact Hn|].
  exact (skynet_handle_retire_spec 9 st [] Hs Hn).
Defined.

Lemma skynet_handle_grab_spec_witness :
  let st := HState (skynet_handle_init 1) ∅ in
  slots_ok st ∧ ∃ st', skynet_handle_grab 9 st = Some (None, st').
Proof.
  intros st. destruct (init_ok 1) as [Hs _]. split; [exact Hs|].
  destruct (skynet_handle_grab_spec 9 st Hs) as (st' & E & _). exists st'. exact E.
Defined.

Lemma skynet_handle_names_witness :
  let st := HState (skynet_handle_init 1) ∅ in
  names_repr (H st) [] ∧ skynet_handle_findname [97; 98] st = Some 0 ∧
  ∃ st', skynet_handle_namehandle 7 [97; 98] st = Some (Some [97; 98], st').
Proof.
  intros st. destruct (init_ok 1) as [_ Hn]. split; [exact Hn|].
  destruct (skynet_handle_names [97; 98] 7 st [] Hn) as (E & ret & st' & l' & E' & _ & _ & _ & -> & _);
    [vm_compute; done|].
  split; [exact E|]. exists st'. exact E'.
Defined.

Lemma skynet_handle_retireall_clears_witness :
  let st := HState (skynet_handle_init 1) ∅ in
  slots_ok st ∧ names_repr (H st) [] ∧ ∃ st', skynet_handle_retireall 2 st = Some st'.
Proof.
  intros st. destruct (init_ok 1) as [Hs Hn]. split; [exact Hs|]. split; [exact Hn|].
  destruct (skynet_handle_retireall_clears st [] Hs Hn) as (st' & E & _). exists st'. exact E.
Defined.
