(* ===== verification/Netpack.v ===== *)
(** * Packages out of socket data: lualib-src/lua-netpack.c

    A package is a 16-bit big-endian length and that many bytes.  [filter]
    cuts the data of each socket into packages: at most one part of a package
    per socket waits in a hash table of [uncomplete]s, whole packages are
    returned or queued in a ring of [netpack]s.  The state is the userdata at
    index 1 of the Lua stack, [None] before the first data; a value left on
    the stack is a constructor of [filter_ret].

    The data of the sockets, chunk by chunk, is compared with [deframe], which
    cuts a whole stream at once. *)

From S2P Require Import Prelude.

Definition QUEUESIZE : Z := 1024.
Definition HASHSIZE : Z := 4096.

Record netpack := Netpack { np_id : Z; np_size : Z; np_buffer : option block }.

(** [next] is the order of the list an [uncomplete] is in. *)
Record uncomplete := Uncomplete { uc_pack : netpack; uc_read : Z; uc_header : Z }.

Record queue := Queue {
  q_cap : Z;
  q_head : Z;
  q_tail : Z;
  q_hash : list (list uncomplete);
  q_queue : list (option netpack)
}.

#[export] Instance eta_uncomplete : Eta uncomplete := λ u,
  Uncomplete (uc_pack u) (uc_read u) (uc_header u).
#[export] Instance eta_queue : Eta queue := λ q,
  Queue (q_cap q) (q_head q) (q_tail q) (q_hash q) (q_queue q).

(** ** The queue *)

(** The uncomplete packages and the queued ones; the result lists the blocks
    that are freed. *)
Definition clear_list (uc : list uncomplete) : list (option block) :=
  map (λ u, np_buffer (uc_pack u)) uc.

Definition lclear (L : option queue) : option (list (option block) * option queue) :=
  match L with
  | None => Some ([], None)
  | Some q =>
      '(freed, hash) ← for_range 0 HASHSIZE (λ i '(freed, hash),
        uc ← hash.[i];
        hash ← hash.[i <- []];
        Some (freed ++ clear_list uc, hash)) ([], q_hash q);
      let tail := if q_tail q <? q_head q then q_tail q + q_cap q else q_tail q in
      freed ← for_range (q_head q) tail (λ i freed,
        slot ← (q_queue q).[Z.rem i (q_cap q)];
        np ← slot;
        Some (freed ++ [np_buffer np])) freed;
      Some (freed, Some (q <| q_hash := hash |> <| q_head := 0 |> <| q_tail := 0 |>))
  end.

Definition hash_fd (fd : Z) : option Z :=
  let a := Z.shiftr fd 24 in
  let b := Z.shiftr fd 12 in
  let c := fd in
  s ← int_add a b;
  s ← int_add s c;
  Some (u32 s mod HASHSIZE).

(** The first [uncomplete] of the chain with this id, and the chain without it. *)
Fixpoint unlink (fd : Z) (uc : list uncomplete) : option (uncomplete * list uncomplete) :=
  match uc with
  | [] => None
  | u :: next =>
      if np_id (uc_pack u) =? fd then Some (u, next)
      else '(v, next) ← unlink fd next; Some (v, u :: next)
  end.

Definition find_uncomplete (L : option queue) (fd : Z)
  : option (option uncomplete * option queue) :=
  match L with
  | None => Some (None, None)
  | Some q =>
      h ← hash_fd fd;
      uc ← (q_hash q).[h];
      match unlink fd uc with
      | None => Some (None, L)
      | Some (u, uc) =>
          hash ← (q_hash q).[h <- uc];
          Some (Some u, Some (q <| q_hash := hash |>))
      end
  end.

Definition get_queue (L : option queue) : queue :=
  match L with
  | Some q => q
  | None =>
      {| q_cap := QUEUESIZE; q_head := 0; q_tail := 0;
         q_hash := replicate (Z.to_nat HASHSIZE) [];
         q_queue := replicate (Z.to_nat QUEUESIZE) None |}
  end.

Definition expand_queue (q : queue) : option queue :=
  cap ← int_add (q_cap q) QUEUESIZE;
  let slots : list (option netpack) := replicate (Z.to_nat cap) None in
  slots ← for_range 0 (q_cap q) (λ i slots,
    idx ← int_add (q_head q) i;
    np ← (q_queue q).[Z.rem idx (q_cap q)];
    slots.[i <- np]) slots;
  Some {| q_cap := cap; q_head := 0; q_tail := q_cap q; q_hash := q_hash q; q_queue := slots |}.

Definition push_data (L : option queue) (fd : Z) (buffer : option block) (size : Z) (clone : bool)
  : option (option queue) :=
  buffer ← (if clone then
              src ← buffer;
              data ← mem_read src 0 size;
              tmp ← mem_write (malloc size) 0 data;
              Some (Some tmp)
            else Some buffer);
  let q := get_queue L in
  let np := {| np_id := fd; np_size := size; np_buffer := buffer |} in
  slots ← (q_queue q).[q_tail q <- Some np];
  let tail := q_tail q + 1 in
  let tail := if q_cap q <=? tail then tail - q_cap q else tail in
  let q := q <| q_tail := tail |> <| q_queue := slots |> in
  if q_head q =? q_tail q then q ← expand_queue q; Some (Some q) else Some (Some q).

(** [uc->next = q->hash[h]; q->hash[h] = uc]. *)
Definition link_uncomplete (q : queue) (fd : Z) (uc : uncomplete) : option queue :=
  h ← hash_fd fd;
  chain ← (q_hash q).[h];
  hash ← (q_hash q).[h <- uc :: chain];
  Some (q <| q_hash := hash |>).

(** A zeroed [uncomplete] is linked and returned; the fields the callers then
    assign are the arguments [read], [header], [size] and [buffer]. *)
Definition save_uncomplete (L : option queue) (fd read header size : Z) (buffer : option block)
  : option (option queue) :=
  let q := get_queue L in
  q ← link_uncomplete q fd
    {| uc_pack := {| np_id := fd; np_size := size; np_buffer := buffer |};
       uc_read := read; uc_header := header |};
  Some (Some q).

Definition read_size (buffer : list Z) : option Z :=
  b0 ← buffer.[0];
  b1 ← buffer.[1];
  Some (Z.lor (Z.shiftl b0 8) b1).

(** [buffer = malloc(size); memcpy(buffer, src, n)]. *)
Definition alloc_copy (size : Z) (src : list Z) (n : Z) : option block :=
  data ← mem_read (map Some src) 0 n;
  mem_write (malloc size) 0 data.

Fixpoint push_more (fuel : nat) (L : option queue) (fd : Z) (buffer : list Z) (size : Z)
  : option (option queue) :=
  match fuel with
  | O => None
  | S fuel =>
      if size =? 1 then
        header ← buffer.[0];
        save_uncomplete L fd (-1) header 0 None
      else
        pack_size ← read_size buffer;
        let buffer := advance 2 buffer in
        let size := size - 2 in
        if size <? pack_size then
          b ← alloc_copy pack_size buffer size;
          save_uncomplete L fd size 0 pack_size (Some b)
        else
          L ← push_data L fd (Some (map Some buffer)) pack_size true;
          let buffer := advance pack_size buffer in
          let size := size - pack_size in
          if 0 <? size then push_more fuel L fd buffer size else Some L
  end.

Definition close_uncomplete (L : option queue) (fd : Z)
  : option (list (option block) * option queue) :=
  '(uc, L) ← find_uncomplete L fd;
  match uc with
  | Some uc => Some ([np_buffer (uc_pack uc)], L)
  | None => Some ([], L)
  end.

(** What [filter] leaves on the stack above the queue. *)
Inductive filter_ret :=
| F_NONE
| F_DATA (fd : Z) (msg : option block) (size : Z)
| F_MORE
| F_ERROR (fd : Z) (msg : list Z)
| F_OPEN (fd : Z) (msg : list Z)
| F_CLOSE (fd : Z)
| F_WARNING (fd ud : Z).

(** The length of a package whose first length byte came with earlier data. *)
Definition fill_header (uc : uncomplete) (buffer : list Z) (size : Z)
  : option (uncomplete * list Z * Z) :=
  if uc_read uc <? 0 then
    assert! uc_read uc =? -1;
    b ← buffer.[0];
    let pack_size := Z.lor b (Z.shiftl (uc_header uc) 8) in
    Some ({| uc_pack := {| np_id := np_id (uc_pack uc); np_size := pack_size;
                           np_buffer := Some (malloc pack_size) |};
             uc_read := 0; uc_header := uc_header uc |},
          advance 1 buffer, size - 1)
  else Some (uc, buffer, size).

(** [memcpy(uc->pack.buffer + uc->read, buffer, n)]. *)
Definition fill_buffer (uc : uncomplete) (buffer : list Z) (n : Z) : option uncomplete :=
  dst ← np_buffer (uc_pack uc);
  data ← mem_read (map Some buffer) 0 n;
  dst ← mem_write dst (uc_read uc) data;
  Some (uc <| uc_pack := {| np_id := np_id (uc_pack uc); np_size := np_size (uc_pack uc);
                            np_buffer := Some dst |} |>).

(** Data for the package that waits in [uc], which is out of the table. *)
Definition fill_uncomplete (L : option queue) (fd : Z) (uc : uncomplete) (buffer : list Z) (size : Z)
  : option (filter_ret * option queue) :=
  let need := np_size (uc_pack uc) - uc_read uc in
  if size <? need then
    uc ← fill_buffer uc buffer size;
    let uc := uc <| uc_read := uc_read uc + size |> in
    q ← L;
    q ← link_uncomplete q fd uc;
    Some (F_NONE, Some q)
  else
    uc ← fill_buffer uc buffer need;
    let buffer := advance need buffer in
    let size := size - need in
    if size =? 0 then
      Some (F_DATA fd (np_buffer (uc_pack uc)) (np_size (uc_pack uc)), L)
    else
      L ← push_data L fd (np_buffer (uc_pack uc)) (np_size (uc_pack uc)) false;
      L ← push_more (Z.to_nat size) L fd buffer size;
      Some (F_MORE, L).

Definition filter_data_ (L : option queue) (fd : Z) (buffer : list Z) (size : Z)
  : option (filter_ret * option queue) :=
  '(uc, L) ← find_uncomplete L fd;
  match uc with
  | Some uc =>
      '(uc, buffer, size) ← fill_header uc buffer size;
      fill_uncomplete L fd uc buffer size
  | None =>
      if size =? 1 then
        header ← buffer.[0];
        L ← save_uncomplete L fd (-1) header 0 None;
        Some (F_NONE, L)
      else
        pack_size ← read_size buffer;
        let buffer := advance 2 buffer in
        let size := size - 2 in
        if size <? pack_size then
          b ← alloc_copy pack_size buffer size;
          L ← save_uncomplete L fd size 0 pack_size (Some b);
          Some (F_NONE, L)
        else if size =? pack_size then
          result ← alloc_copy pack_size buffer size;
          Some (F_DATA fd (Some result) size, L)
        else
          L ← push_data L fd (Some (map Some buffer)) pack_size true;
          let buffer := advance pack_size buffer in
          let size := size - pack_size in
          L ← push_more (Z.to_nat size) L fd buffer size;
          Some (F_MORE, L)
  end.

(** The block of the socket message is freed in any case. *)
Definition filter_data := filter_data_.

(** ** The messages of the socket server *)

Definition SKYNET_SOCKET_TYPE_DATA : Z := 1.
Definition SKYNET_SOCKET_TYPE_CONNECT : Z := 2.
Definition SKYNET_SOCKET_TYPE_CLOSE : Z := 3.
Definition SKYNET_SOCKET_TYPE_ACCEPT : Z := 4.
Definition SKYNET_SOCKET_TYPE_ERROR : Z := 5.
Definition SKYNET_SOCKET_TYPE_UDP : Z := 6.
Definition SKYNET_SOCKET_TYPE_WARNING : Z := 7.

(** [sm_padding] are the bytes behind the structure. *)
Record skynet_socket_message := SocketMessage {
  sm_type : Z; sm_id : Z; sm_ud : Z; sm_buffer : option (list Z); sm_padding : list Z
}.

(** [sizeof(struct skynet_socket_message)] with 8-byte pointers. *)
Definition SIZEOF_SOCKET_MESSAGE : Z := 24.

Definition pushstring (msg : list Z) (size : Z) : option (list Z) := mem_read msg 0 size.

Definition lfilter (L : option queue) (message : skynet_socket_message) (size : Z)
  : option (filter_ret * option queue) :=
  let '(buffer, size) :=
    match sm_buffer message with
    | None => (sm_padding message, size - SIZEOF_SOCKET_MESSAGE)
    | Some buffer => (buffer, -1)
    end in
  let type := sm_type message in
  if type =? SKYNET_SOCKET_TYPE_DATA then
    assert! size =? -1;
    filter_data L (sm_id message) buffer (sm_ud message)
  else if type =? SKYNET_SOCKET_TYPE_CONNECT then Some (F_NONE, L)
  else if type =? SKYNET_SOCKET_TYPE_CLOSE then
    '(_, L) ← close_uncomplete L (sm_id message);
    Some (F_CLOSE (sm_id message), L)
  else if type =? SKYNET_SOCKET_TYPE_ACCEPT then
    msg ← pushstring buffer size;
    Some (F_OPEN (sm_ud message) msg, L)
  else if type =? SKYNET_SOCKET_TYPE_ERROR then
    '(_, L) ← close_uncomplete L (sm_id message);
    msg ← pushstring buffer size;
    Some (F_ERROR (sm_id message) msg, L)
  else if type =? SKYNET_SOCKET_TYPE_WARNING then
    Some (F_WARNING (sm_id message) (sm_ud message), L)
  else Some (F_NONE, L).

Definition lpop (L : option queue) : option (option (Z * option block * Z) * option queue) :=
  match L with
  | None => Some (None, L)
  | Some q =>
      if q_head q =? q_tail q then Some (None, L)
      else
        slot ← (q_queue q).[q_head q];
        np ← slot;
        let head := q_head q + 1 in
        let q := q <| q_head := if q_cap q <=? head then 0 else head |> in
        Some (Some (np_id np, np_buffer np, np_size np), Some q)
  end.

(** ** Packing *)

Definition write_size (buffer : block) (len : Z) : option block :=
  buffer ← buffer.[0 <- Some (Z.land (Z.shiftr len 8) 255)];
  buffer.[1 <- Some (Z.land len 255)].

(** [inl] is the Lua error with the length it reports. *)
Definition lpack (ptr : list Z) : option (Z + block * Z) :=
  let size := len ptr in
  if 65536 <=? size then Some (inl size)
  else
    let buffer := malloc (size + 2) in
    buffer ← write_size buffer size;
    buffer ← mem_write buffer 2 (map Some ptr);
    Some (inr (buffer, size + 2)).

(** The string made of a package, whose block is freed. *)
Definition ltostring (ptr : option block) (size : Z) : option block :=
  match ptr with
  | None => Some []
  | Some b => mem_read b 0 size
  end.

(** ** A stream of packages *)

(** The whole packages at the start of a stream, and what is left. *)
Fixpoint deframe_fuel (fuel : nat) (s : list Z) : list (list Z) * list Z :=
  match fuel, s with
  | S fuel, a :: b :: t =>
      let n := a * 256 + b in
      if n <=? len t then
        let '(ps, r) := deframe_fuel fuel (drop (Z.to_nat n) t) in
        (take (Z.to_nat n) t :: ps, r)
      else ([], s)
  | _, _ => ([], s)
  end.

Definition deframe (s : list Z) : list (list Z) * list Z := deframe_fuel (length s) s.

(** No package is complete. *)
Definition partial (s : list Z) : Prop :=
  match s with a :: b :: t => len t < a * 256 + b | _ => True end.

Lemma deframe_fuel_enough n m s : (length s ≤ n)%nat → (length s ≤ m)%nat →
  deframe_fuel n s = deframe_fuel m s.
Proof.
  revert m s. induction n as [|n IH]; intros m s Hn Hm.
  { destruct s; [by destruct m|simpl in Hn; lia]. }
  destruct m as [|m]; [destruct s; [done|simpl in Hm; lia]|].
  destruct s as [|a [|b t]]; [done..|]. simpl in *.
  rewrite (IH m); [done| |]; rewrite length_drop; lia.
Qed.

Lemma deframe_partial s : partial s → deframe s = ([], s).
Proof.
  destruct s as [|a [|b t]]; [done..|]. unfold partial, deframe. simpl. zcases; [lia|done].
Qed.

Lemma deframe_cons a b p s : len p = a * 256 + b →
  deframe (a :: b :: p ++ s) = (p :: (deframe s).1, (deframe s).2).
Proof.
  intros Hn. unfold deframe. cbn [length].
  assert (length s ≤ S (length (p ++ s)))%nat as Hf by (rewrite length_app; lia).
  revert Hf. generalize (S (length (p ++ s))). intros n Hf. cbn [deframe_fuel].
  rewrite <- Hn, len_app, (proj2 (Z.leb_le _ _)) by (pose proof (len_nonneg s); lia).
  unfold len. rewrite Nat2Z.id, drop_app_length, take_app_length.
  rewrite (deframe_fuel_enough n (length s)) by lia. by destruct (deframe_fuel _ s).
Qed.

(** A stream begins with a package or is partial. *)
Lemma deframe_cases s : bytes s →
  partial s ∨ ∃ a b p s', s = a :: b :: p ++ s' ∧ len p = a * 256 + b.
Proof.
  intros Hs. destruct s as [|a [|b t]]; [by left..|]. unfold partial.
  destruct (Z.ltb_spec (len t) (a * 256 + b)); [by left|]. right.
  apply Forall_cons in Hs as [Ha [Hb _]%Forall_cons].
  exists a, b, (take (Z.to_nat (a * 256 + b)) t), (drop (Z.to_nat (a * 256 + b)) t).
  rewrite take_drop. split; [done|]. unfold len in *. rewrite length_take. lia.
Qed.

Lemma deframe_ind (Φ : list Z → Prop) :
  (∀ s, bytes s → partial s → Φ s) →
  (∀ a b p s, bytes (a :: b :: p ++ s) → len p = a * 256 + b → Φ s → Φ (a :: b :: p ++ s)) →
  ∀ s, bytes s → Φ s.
Proof.
  intros Hp Hc s. remember (length s) as n eqn:E. assert (length s ≤ n)%nat as Hn by lia. clear E.
  revert s Hn. induction n as [|n IH]; intros s Hn Hs.
  - apply Hp; [done|]. destruct s; [done|simpl in Hn; lia].
  - destruct (deframe_cases s Hs) as [H|(a & b & p & s' & -> & Hl)]; [by apply Hp|].
    apply Hc; [done..|]. apply IH.
    + simpl in Hn. rewrite length_app in Hn. lia.
    + apply Forall_cons in Hs as [_ [_ [_ Hs]%Forall_app]%Forall_cons]. done.
Qed.

(** Cutting a stream that arrives in two pieces. *)
Lemma deframe_app s t : bytes s →
  deframe (s ++ t) = ((deframe s).1 ++ (deframe ((deframe s).2 ++ t)).1,
                      (deframe ((deframe s).2 ++ t)).2).
Proof.
  revert s. apply deframe_ind; [intros s Hb Hp|intros a b p s _ Hl IH].
  - rewrite (deframe_partial s Hp). simpl. by destruct (deframe (s ++ t)).
  - rewrite deframe_cons by done. simpl. rewrite <- app_assoc, deframe_cons, IH by done. done.
Qed.

Lemma deframe_rest s : bytes s → bytes (deframe s).2 ∧ partial (deframe s).2.
Proof.
  revert s. apply deframe_ind; [intros s Hb Hp|intros a b p s _ Hl IH].
  - by rewrite deframe_partial.
  - by rewrite deframe_cons.
Qed.

Lemma deframe_count s : bytes s → 2 * len (deframe s).1 ≤ len s.
Proof.
  revert s. apply deframe_ind; [intros s Hb Hp|intros a b p s _ Hl IH].
  - rewrite deframe_partial by done. apply len_nonneg.
  - rewrite deframe_cons by done. simpl. rewrite !len_cons, len_app.
    pose proof (len_nonneg p). lia.
Qed.

(** ** What a queue holds *)

(** The sum of [hash_fd] fits an [int]. *)
Definition valid_fd (fd : Z) : Prop :=
  0 ≤ fd ∧ fd + Z.shiftr fd 12 + Z.shiftr fd 24 ≤ INT_MAX.

(** The bytes of [fd] that wait in [uc]. *)
Definition uc_repr (fd : Z) (uc : uncomplete) (s : list Z) : Prop :=
  np_id (uc_pack uc) = fd ∧ bytes s ∧ partial s ∧
  ((uc_read uc = -1 ∧ s = [uc_header uc] ∧ np_buffer (uc_pack uc) = None) ∨
   (∃ a b body, s = a :: b :: body ∧ np_size (uc_pack uc) = a * 256 + b ∧ uc_read uc = len body ∧
      np_buffer (uc_pack uc) = Some (map Some body ++ malloc (a * 256 + b - len body)))).

Definition of_fd (fd : Z) (chain : list uncomplete) : list uncomplete :=
  filter (λ u, np_id (uc_pack u) = fd) chain.

(** The part of a chain that belongs to [fd]: nothing or one [uncomplete]. *)
Definition chain_ok (fd : Z) (chain : list uncomplete) (s : list Z) : Prop :=
  match of_fd fd chain with
  | [] => s = []
  | [uc] => uc_repr fd uc s
  | _ => False
  end.

(** [P fd] are the bytes of [fd] that wait, [Q] the packages queued. *)
Record queue_ok (q : queue) (P : Z → list Z) (Q : list netpack) : Prop := {
  ok_ring : ring (q_cap q) (q_head q) (q_queue q) Q;
  ok_room : len Q < q_cap q;
  ok_tail : q_tail q = (q_head q + len Q) mod q_cap q;
  ok_cap : q_cap q ≤ 2 ^ 30;
  ok_hash : len (q_hash q) = HASHSIZE;
  ok_chain fd h chain :
    valid_fd fd → hash_fd fd = Some h → (q_hash q).[h] = Some chain → chain_ok fd chain (P fd)
}.

Definition lua_ok (L : option queue) := queue_ok (get_queue L).

(** [P] with the bytes of [fd] replaced. *)
Definition upd (P : Z → list Z) (fd : Z) (s : list Z) : Z → list Z :=
  λ fd', if fd' =? fd then s else P fd'.

Lemma upd_eq P fd s : upd P fd s fd = s.
Proof. unfold upd. by rewrite Z.eqb_refl. Qed.
Lemma upd_ne P fd fd' s : fd' ≠ fd → upd P fd s fd' = P fd'.
Proof. intros H. unfold upd. by rewrite (proj2 (Z.eqb_neq _ _)). Qed.

Lemma queue_ok_ext q P P' Q : (∀ fd, P fd = P' fd) → queue_ok q P Q → queue_ok q P' Q.
Proof.
  intros E [H1 H2 H3 H4 H5 H6]. split; [done..|]. intros fd h chain Hv Hh Hc.
  rewrite <- E. by eapply H6.
Qed.

Lemma get_queue_ok L P Q : lua_ok L P Q → lua_ok (Some (get_queue L)) P Q.
Proof. done. Qed.

Lemma lua_ok_init : lua_ok None (λ _, []) [].
Proof.
  unfold lua_ok. cbn [get_queue]. unfold QUEUESIZE, HASHSIZE. split; cbn [q_cap q_head q_queue q_tail q_hash].
  - split; [by apply len_replicate|lia|unfold len; simpl; lia|].
    intros i x Hi. by rewrite arr_get_nonneg in Hi by (apply arr_get_Some in Hi; lia).
  - unfold len. simpl. lia.
  - done.
  - lia.
  - by apply len_replicate.
  - intros fd h chain _ _ Hc. unfold arr_get in Hc. destruct (0 <=? h); [|done].
    by apply lookup_replicate in Hc as [-> _].
Qed.

Lemma hash_fd_valid fd : valid_fd fd → ∃ h, hash_fd fd = Some h ∧ 0 ≤ h < HASHSIZE.
Proof.
  intros [H0 H]. unfold hash_fd.
  assert (0 ≤ Z.shiftr fd 12) by (by apply Z.shiftr_nonneg).
  assert (0 ≤ Z.shiftr fd 24) by (by apply Z.shiftr_nonneg).
  unfold int_add, INT_MAX in *. rewrite int_chk_Some by (unfold INT_MIN, INT_MAX; lia).
  rewrite int_chk_Some by (unfold INT_MIN, INT_MAX; lia).
  eexists. split; [done|]. apply Z.mod_pos_bound. done.
Qed.

(** ** The hash table *)

Lemma unlink_spec fd chain :
  match unlink fd chain with
  | None => of_fd fd chain = []
  | Some (uc, chain') => of_fd fd chain = uc :: of_fd fd chain'
      ∧ ∀ fd', fd' ≠ fd → of_fd fd' chain' = of_fd fd' chain
  end.
Proof.
  unfold of_fd. induction chain as [|u chain IH]; simpl; [done|].
  destruct (Z.eqb_spec (np_id (uc_pack u)) fd) as [<-|Hne].
  - split; [by rewrite filter_cons_True|]. intros fd' Hf. by rewrite filter_cons_False.
  - destruct (unlink fd chain) as [[v chain']|].
    + destruct IH as [IH1 IH2]. rewrite !filter_cons_False by done. split; [done|].
      intros fd' Hf. rewrite !filter_cons. by rewrite IH2.
    + by rewrite filter_cons_False.
Qed.

(** Replacing the chain of [fd] changes the bytes of [fd] alone. *)
Lemma queue_ok_hash q P Q fd h hash chain chain' s :
  queue_ok q P Q → valid_fd fd → hash_fd fd = Some h → (q_hash q).[h] = Some chain →
  (q_hash q).[h <- chain'] = Some hash →
  (∀ fd', fd' ≠ fd → of_fd fd' chain' = of_fd fd' chain) → chain_ok fd chain' s →
  queue_ok (q <| q_hash := hash |>) (upd P fd s) Q.
Proof.
  intros [H1 H2 H3 H4 H5 H6] Hv Hh Hc Hset Hother Hs. split; simpl; [done..| |].
  { erewrite arr_set_len; done. }
  intros fd' h' chain1 Hv' Hh' Hc'. destruct (decide (fd' = fd)) as [->|Hne].
  - rewrite upd_eq. assert (h' = h) as -> by congruence.
    rewrite (arr_get_set_eq _ _ _ _ Hset) in Hc'. by injection Hc' as <-.
  - rewrite upd_ne by done. destruct (decide (h' = h)) as [->|Hneh].
    + rewrite (arr_get_set_eq _ _ _ _ Hset) in Hc'. injection Hc' as <-.
      unfold chain_ok. rewrite Hother by done. by apply (H6 _ h).
    + rewrite (arr_get_set_ne _ _ _ _ _ Hset) in Hc' by done. by apply (H6 _ h').
Qed.

Lemma bucket q P Q fd : queue_ok q P Q → valid_fd fd →
  ∃ h chain, hash_fd fd = Some h ∧ (q_hash q).[h] = Some chain ∧ chain_ok fd chain (P fd)
             ∧ ∀ c, ∃ hash, (q_hash q).[h <- c] = Some hash.
Proof.
  intros Hq Hv. destruct (hash_fd_valid fd Hv) as (h & Hh & Hr).
  destruct (arr_get_is_Some (q_hash q) h) as [chain Hc]; [by rewrite (ok_hash _ _ _ Hq)|].
  exists h, chain. split; [done|]. split; [done|]. split; [by eapply ok_chain|].
  intros c. rewrite arr_set_Some by (by rewrite (ok_hash _ _ _ Hq)). eauto.
Qed.

(** Taking the bytes of [fd] out of the table. *)
Lemma find_uncomplete_spec L P Q fd :
  lua_ok L P Q → valid_fd fd →
  ∃ o L', find_uncomplete L fd = Some (o, L') ∧ lua_ok L' (upd P fd []) Q ∧
    match o with
    | None => P fd = []
    | Some uc => uc_repr fd uc (P fd) ∧ is_Some L'
    end.
Proof.
  intros HL Hv. destruct (bucket _ _ _ _ HL Hv) as (h & chain & Hh & Hc & Hok & Hset).
  assert (P fd = [] → lua_ok L (upd P fd []) Q) as Hsame.
  { intros E. eapply queue_ok_ext; [|exact HL]. intros fd'. unfold upd.
    destruct (Z.eqb_spec fd' fd) as [->|]; done. }
  destruct L as [q|]; cbn [find_uncomplete].
  - unfold lua_ok in *. cbn [get_queue] in *. rewrite Hh, Hc. pose proof (unlink_spec fd chain) as Hu.
    unfold chain_ok in Hok. destruct (unlink fd chain) as [[uc chain']|].
    + destruct Hu as [Hu Hother]. destruct (Hset chain') as [hash Hs]. rewrite Hs.
      rewrite Hu in Hok. destruct (of_fd fd chain') eqn:E; [|done].
      eexists _, _. split; [done|]. split; [|by eauto].
      eapply (queue_ok_hash q P Q fd h); try done. unfold chain_ok. by rewrite E.
    + rewrite Hu in Hok. eexists _, _. split; [done|]. by split; [apply Hsame|].
  - eexists _, _. split; [done|].
    assert (P fd = []) as E; [|by split; [apply Hsame|]].
    cbn [get_queue q_hash] in Hc. unfold arr_get in Hc. destruct (0 <=? h); [|done].
    apply lookup_replicate in Hc as [-> _]. exact Hok.
Qed.

(** Putting bytes of [fd] into it. *)
Lemma link_uncomplete_spec q P Q fd uc s :
  queue_ok q P Q → valid_fd fd → P fd = [] → uc_repr fd uc s →
  ∃ q', link_uncomplete q fd uc = Some q' ∧ queue_ok q' (upd P fd s) Q.
Proof.
  intros Hq Hv HP Huc. destruct (bucket _ _ _ _ Hq Hv) as (h & chain & Hh & Hc & Hok & Hset).
  unfold link_uncomplete. rewrite Hh, Hc. destruct (Hset (uc :: chain)) as [hash Hs].
  rewrite Hs. eexists. split; [done|]. eapply (queue_ok_hash q P Q fd h); try done.
  - intros fd' Hne. unfold of_fd. rewrite filter_cons_False; [done|].
    destruct Huc as [-> _]. done.
  - unfold chain_ok, of_fd in *. rewrite filter_cons_True by apply Huc.
    destruct (filter _ chain) as [|u [|]]; [done| |done].
    rewrite HP in Hok. destruct Hok as (_ & _ & _ & [(_ & ? & _)|(? & ? & ? & ? & _)]); done.
Qed.

Lemma save_uncomplete_spec L P Q fd read header size buffer s :
  lua_ok L P Q → valid_fd fd → P fd = [] →
  uc_repr fd {| uc_pack := {| np_id := fd; np_size := size; np_buffer := buffer |};
                uc_read := read; uc_header := header |} s →
  ∃ L', save_uncomplete L fd read header size buffer = Some L' ∧ lua_ok L' (upd P fd s) Q.
Proof.
  intros HL Hv HP Huc. unfold save_uncomplete.
  destruct (link_uncomplete_spec _ _ _ _ _ _ HL Hv HP Huc) as (q' & -> & Hq'). by eexists.
Qed.

(** ** The ring of packages *)

(** Growing a full ring lays the packages out from slot 0. *)
Lemma expand_queue_spec q Q :
  ring (q_cap q) (q_head q) (q_queue q) Q → len Q = q_cap q → q_cap q ≤ 2 ^ 29 →
  ∃ slots, expand_queue q = Some {| q_cap := q_cap q + QUEUESIZE; q_head := 0; q_tail := q_cap q;
                                    q_hash := q_hash q; q_queue := slots |}
           ∧ ring (q_cap q + QUEUESIZE) 0 slots Q.
Proof.
  intros [Hc Hh Hf Hs] Hl Hmax. unfold expand_queue, QUEUESIZE in *.
  unfold int_add. rewrite int_chk_Some by (unfold INT_MIN, INT_MAX; lia).
  destruct (for_range_inv (λ i slots, len slots = q_cap q + 1024 ∧
      ∀ j x, 0 ≤ j < i → Q.[j] = Some x → slots.[j] = Some (Some x)) 0 (q_cap q)
    (λ i slots, idx ← int_chk (q_head q + i);
                np ← (q_queue q).[Z.rem idx (q_cap q)]; slots.[i <- np])
    (replicate (Z.to_nat (q_cap q + 1024)) None)) as (slots & E & H1 & H2).
  - lia.
  - split; [apply len_replicate; lia|lia].
  - intros i slots Hi [H1 H2]. rewrite int_chk_Some by (unfold INT_MIN, INT_MAX; lia).
    rewrite Z.rem_mod_nonneg by lia.
    destruct (arr_get_is_Some Q i) as [x Hx]; [lia|]. rewrite (Hs _ _ Hx).
    destruct (slots.[i <- Some x]) as [slots'|] eqn:Es; cycle 1.
    { rewrite arr_set_Some in Es by lia. done. }
    exists slots'. split; [done|]. split; [by erewrite arr_set_len|].
    intros j y Hj Hy. destruct (decide (i = j)) as [<-|Hne].
    + rewrite Hx in Hy. injection Hy as <-. by eapply arr_get_set_eq.
    + erewrite arr_get_set_ne by done. apply H2; [lia|done].
  - rewrite E. eexists. split; [done|]. split; [done|lia|lia|].
    intros i x Hx. pose proof (arr_get_Some _ _ _ Hx).
    rewrite Z.add_0_l, Z.mod_small by lia. apply H2; [lia|done].
Qed.

(** A block enters the queue at its end. *)
Lemma push_block_spec L P Q fd buffer size :
  lua_ok L P Q → len Q < 2 ^ 29 →
  ∃ L', push_data L fd buffer size false = Some L'
        ∧ lua_ok L' P (Q ++ [{| np_id := fd; np_size := size; np_buffer := buffer |}]).
Proof.
  intros [Hr Hl Ht Hcap Hh Hc] HQ. unfold push_data, lua_ok in *.
  generalize dependent (get_queue L). intros q Hr Hl Ht Hcap Hh Hc.
  set (np := {| np_id := fd; np_size := size; np_buffer := buffer |}).
  pose proof (ring_head _ _ _ _ Hr) as Hhd. pose proof (len_nonneg Q).
  assert (0 ≤ q_tail q < q_cap q) as Htl by (rewrite Ht; apply Z.mod_pos_bound; lia).
  destruct ((q_queue q).[q_tail q <- Some np]) as [slots|] eqn:Es; cycle 1.
  { rewrite arr_set_Some in Es by (rewrite (ring_cap _ _ _ _ Hr); lia). done. }
  rewrite Ht in Es. pose proof (ring_push _ _ _ _ _ _ Hr Hl Es) as Hr'.
  assert (len (Q ++ [np]) = len Q + 1) as Hl1 by (rewrite len_app; done).
  set (tail := if q_cap q <=? q_tail q + 1 then _ else _).
  assert (tail = (q_head q + (len Q + 1)) mod q_cap q) as Htail.
  { subst tail. rewrite Z.add_assoc, <- Zplus_mod_idemp_l, <- Ht, mod_wrap by lia.
    zcases; lia. }
  clearbody tail. cbn [q_head q_tail].
  destruct (Z.eqb_spec (q_head q) tail) as [Efull|Enf].
  - assert (len Q + 1 = q_cap q) as Hfull.
    { revert Htail. rewrite <- Efull, mod_wrap by lia. zcases; lia. }
    match goal with |- context [expand_queue ?x] =>
      destruct (expand_queue_spec x (Q ++ [np])) as (slots' & -> & Hr2); cbn in * end;
      [done|lia|lia|].
    eexists. split; [done|]. cbn. unfold QUEUESIZE in *.
    split; cbn; try done; try lia. rewrite Z.mod_small; lia.
  - eexists. split; [done|]. cbn. split; cbn; try done.
    + destruct (decide (len Q + 1 = q_cap q)) as [E|]; [|lia]. exfalso. apply Enf.
      rewrite Htail, E, <- (Z.mul_1_l (q_cap q)) at 1. rewrite Z_mod_plus, Z.mod_small; lia.
    + by rewrite Hl1.
Qed.

(** A package inside the data of a socket is copied first. *)
Lemma push_data_clone L fd p rest :
  push_data L fd (Some (map Some (p ++ rest))) (len p) true =
  push_data L fd (Some (map Some p)) (len p) false.
Proof.
  unfold push_data. rewrite map_app, mem_read_prefix by (by rewrite len_map).
  unfold malloc. rewrite <- (app_nil_r (replicate _ _)), mem_write_prefix, app_nil_r; [done|].
  rewrite len_map, len_replicate; [done|apply len_nonneg].
Qed.

Definition package (fd : Z) (p : list Z) : netpack :=
  {| np_id := fd; np_size := len p; np_buffer := Some (map Some p) |}.

Lemma push_data_spec L P Q fd p rest :
  lua_ok L P Q → len Q < 2 ^ 29 →
  ∃ L', push_data L fd (Some (map Some (p ++ rest))) (len p) true = Some L'
        ∧ lua_ok L' P (Q ++ [package fd p]).
Proof. intros HL HQ. rewrite push_data_clone. by apply push_block_spec. Qed.

(** The partial package at the end of the data. *)
Lemma alloc_copy_spec n p : len p ≤ n →
  alloc_copy n p (len p) = Some (map Some p ++ malloc (n - len p)).
Proof.
  intros H. pose proof (len_nonneg p). unfold alloc_copy.
  rewrite mem_read_whole by (by rewrite len_map). unfold malloc.
  replace (Z.to_nat n) with (Z.to_nat (len p) + Z.to_nat (n - len p))%nat by lia.
  rewrite replicate_add, mem_write_prefix; [done|].
  rewrite len_map, len_replicate by done. done.
Qed.

Lemma read_size_spec a b t : bytes (a :: b :: t) → read_size (a :: b :: t) = Some (a * 256 + b).
Proof.
  intros [Ha [Hb _]%Forall_cons]%Forall_cons. unfold read_size. simpl.
  unfold arr_get. simpl. by rewrite lor_bytes.
Qed.

Lemma partial_repr fd a b p : bytes (a :: b :: p) → partial (a :: b :: p) →
  uc_repr fd {| uc_pack := {| np_id := fd; np_size := a * 256 + b;
                              np_buffer := Some (map Some p ++ malloc (a * 256 + b - len p)) |};
                uc_read := len p; uc_header := 0 |} (a :: b :: p).
Proof. intros Hb Hp. split; [done|]. split; [done|]. split; [done|]. right. by exists a, b, p. Qed.

Lemma header_repr fd b : bytes [b] →
  uc_repr fd {| uc_pack := {| np_id := fd; np_size := 0; np_buffer := None |};
                uc_read := -1; uc_header := b |} [b].
Proof. intros Hb. split; [done|]. split; [done|]. split; [done|]. by left. Qed.

(** Data that starts at a package boundary. *)
Lemma push_more_spec fuel : ∀ L P Q fd buffer,
  lua_ok L P Q → valid_fd fd → P fd = [] → bytes buffer → buffer ≠ [] →
  (length buffer ≤ fuel)%nat → len Q + len buffer < 2 ^ 29 →
  ∃ L', push_more fuel L fd buffer (len buffer) = Some L'
        ∧ lua_ok L' (upd P fd (deframe buffer).2) (Q ++ map (package fd) (deframe buffer).1).
Proof.
  induction fuel as [|fuel IH]; intros L P Q fd buffer HL Hv HP Hb Hne Hf HQ.
  { destruct buffer; simpl in *; [done|lia]. }
  simpl. pose proof (len_nonneg Q).
  destruct buffer as [|a [|b t]]; [done|..].
  { rewrite deframe_partial by done. simpl. rewrite app_nil_r.
    eapply save_uncomplete_spec; try done. by apply header_repr. }
  rewrite (proj2 (Z.eqb_neq _ _)) by (rewrite !len_cons; pose proof (len_nonneg t); lia).
  rewrite read_size_spec by done. change (advance 2 (a :: b :: t)) with t.
  replace (len (a :: b :: t) - 2) with (len t) by (rewrite !len_cons; lia).
  rewrite !len_cons in HQ.
  destruct (deframe_cases _ Hb) as [Hp|(a' & b' & p & s & [= <- <- ->] & Hl)].
  - rewrite deframe_partial by done. simpl in Hp. rewrite (proj2 (Z.ltb_lt _ _)) by done.
    rewrite alloc_copy_spec by lia. simpl. rewrite app_nil_r.
    eapply save_uncomplete_spec; try done. by apply partial_repr.
  - rewrite deframe_cons by done. rewrite len_app, <- Hl in *. pose proof (len_nonneg s).
    rewrite (proj2 (Z.ltb_ge _ _)) by lia.
    destruct (push_data_spec L P Q fd p s HL) as (L1 & -> & HL1); [pose proof (len_nonneg p); lia|].
    rewrite advance_app by done.
    replace (len p + len s - len p) with (len s) by lia.
    assert (bytes s) as Hbs.
    { by apply Forall_cons in Hb as [_ [_ [_ Hs]%Forall_app]%Forall_cons]. }
    destruct s as [|c s].
    + simpl. eexists. split; [done|]. eapply queue_ok_ext; [|done].
      intros fd'. unfold upd. destruct (Z.eqb_spec fd' fd) as [->|]; done.
    + rewrite (proj2 (Z.ltb_lt _ _)) by (rewrite len_cons; pose proof (len_nonneg s); lia).
      destruct (IH L1 P (Q ++ [package fd p]) fd (c :: s)) as (L2 & -> & HL2); try done.
      * simpl in *. rewrite length_app in Hf. simpl in Hf. lia.
      * rewrite len_app. change (len [package fd p]) with 1. pose proof (len_nonneg p). lia.
      * eexists. split; [done|]. simpl. by rewrite <- app_assoc in HL2.
Qed.

(** ** [filter] cuts the stream *)

#[local] Opaque get_queue.

(** What one call does with the packages it completes: a single one that ends
    the data is returned, else all of them are queued. *)
Definition deliver (fd : Z) (cut : list (list Z) * list Z) : filter_ret * list netpack :=
  match cut with
  | ([], _) => (F_NONE, [])
  | ([p], []) => (F_DATA fd (Some (map Some p)) (len p), [])
  | (ps, _) => (F_MORE, map (package fd) ps)
  end.

Lemma deliver_more fd p s : bytes s → s ≠ [] →
  deliver fd (p :: (deframe s).1, (deframe s).2) =
  (F_MORE, package fd p :: map (package fd) (deframe s).1).
Proof.
  intros Hb Hs. destruct (deframe_cases s Hb) as [Hp|(a & b & q & s' & -> & Hl)].
  - rewrite deframe_partial by done. by destruct s.
  - by rewrite deframe_cons.
Qed.

Lemma fill_buffer_spec uc dst n data rest : np_buffer (uc_pack uc) = Some (map Some dst ++ malloc n) →
  uc_read uc = len dst → len data ≤ n →
  fill_buffer uc (data ++ rest) (len data) =
    Some (uc <| uc_pack := {| np_id := np_id (uc_pack uc); np_size := np_size (uc_pack uc);
                np_buffer := Some (map Some (dst ++ data) ++ malloc (n - len data)) |} |>).
Proof.
  intros Hb Hr Hn. unfold fill_buffer. rewrite Hb, Hr, map_app, mem_read_prefix by (by rewrite len_map).
  unfold malloc. pose proof (len_nonneg data).
  replace (Z.to_nat n) with (Z.to_nat (len data) + Z.to_nat (n - len data))%nat by lia.
  rewrite replicate_add, mem_write_app, map_app, <- app_assoc; [done|by rewrite len_map|].
  by rewrite len_map, len_replicate.
Qed.

(** The waiting package [a :: b :: body], of length [a * 256 + b], and more data. *)
Lemma fill_uncomplete_spec L P Q fd uc a b body t :
  lua_ok L P Q → valid_fd fd → P fd = [] → is_Some L → bytes (a :: b :: body ++ t) →
  len body ≤ a * 256 + b → np_id (uc_pack uc) = fd →
  np_size (uc_pack uc) = a * 256 + b → uc_read uc = len body →
  np_buffer (uc_pack uc) = Some (map Some body ++ malloc (a * 256 + b - len body)) →
  len Q + len t + 1 < 2 ^ 29 →
  let cut := deframe (a :: b :: body ++ t) in
  ∃ L', fill_uncomplete L fd uc t (len t) = Some ((deliver fd cut).1, L')
        ∧ lua_ok L' (upd P fd cut.2) (Q ++ (deliver fd cut).2).
Proof.
  intros HL Hv HP [q ->] Hb Hbody Hid Hsize Hread Hbuf HQ cut. unfold fill_uncomplete.
  rewrite Hsize, Hread. pose proof (len_nonneg t). pose proof (len_nonneg Q).
  destruct (Z.ltb_spec (len t) (a * 256 + b - len body)) as [Hlt|Hge].
  - pose proof (fill_buffer_spec uc body _ t [] Hbuf Hread) as E. rewrite app_nil_r in E.
    rewrite E by lia. cbn [uc_read]. subst cut.
    assert (partial (a :: b :: body ++ t)) as Hp by (simpl; rewrite len_app; lia).
    rewrite (deframe_partial _ Hp). cbn [deliver fst snd]. rewrite app_nil_r.
    match goal with |- context [link_uncomplete q fd ?u] =>
      destruct (link_uncomplete_spec q P Q fd u (a :: b :: body ++ t)) as (q' & -> & Hq'); try done end.
    { split; [done|]. split; [done|]. split; [done|]. right. exists a, b, (body ++ t).
      split; [done|]. rewrite len_app, Hread. split; [done|]. split; [done|].
      cbn [uc_pack np_buffer]. do 2 f_equal. f_equal. lia. }
    by eexists.
  - assert (∃ data s, t = data ++ s ∧ len data = a * 256 + b - len body) as (data & s & -> & Hdata).
    { exists (take (Z.to_nat (a * 256 + b - len body)) t), (drop (Z.to_nat (a * 256 + b - len body)) t).
      rewrite take_drop. split; [done|]. unfold len in *. rewrite length_take. lia. }
    rewrite <- Hdata, (fill_buffer_spec uc body _ data s Hbuf Hread) by lia.
    cbn [uc_pack np_buffer np_size]. rewrite Hdata, Z.sub_diag, app_nil_r, <- Hdata.
    rewrite advance_app, len_app by done. replace (len data + len s - len data) with (len s) by lia.
    assert (len (body ++ data) = a * 256 + b) as Hp by (rewrite len_app; lia).
    assert (bytes s) as Hbs.
    { apply Forall_cons in Hb as [_ [_ [_ [_ Hs]%Forall_app]%Forall_app]%Forall_cons]. done. }
    subst cut. rewrite app_assoc, deframe_cons, Hsize, <- Hp by done.
    destruct s as [|c s].
    + simpl. eexists. split; [done|]. rewrite app_nil_r. eapply queue_ok_ext; [|exact HL].
      intros fd'. unfold upd. by destruct (Z.eqb_spec fd' fd) as [->|].
    + rewrite deliver_more by done.
      rewrite (proj2 (Z.eqb_neq _ _)) by (rewrite len_cons; pose proof (len_nonneg s); lia).
      rewrite len_app in HQ. pose proof (len_nonneg data). pose proof (len_nonneg (c :: s)).
      destruct (push_block_spec (Some q) P Q fd (Some (map Some (body ++ data))) (len (body ++ data)))
        as (L1 & -> & HL1); [done|lia|]. fold (package fd (body ++ data)) in HL1.
      destruct (push_more_spec (Z.to_nat (len (c :: s))) L1 P _ fd (c :: s) HL1)
        as (L2 & -> & HL2); try done.
      * unfold len. lia.
      * rewrite len_app. change (len [_]) with 1. rewrite len_cons. rewrite len_cons in HQ. lia.
      * eexists. split; [done|]. simpl. by rewrite <- app_assoc in HL2.
Qed.

Lemma filter_data_spec L P Q fd buffer :
  lua_ok L P Q → valid_fd fd → bytes buffer → buffer ≠ [] → len Q + len buffer + 1 < 2 ^ 29 →
  let cut := deframe (P fd ++ buffer) in
  ∃ L', filter_data L fd buffer (len buffer) = Some ((deliver fd cut).1, L')
        ∧ lua_ok L' (upd P fd cut.2) (Q ++ (deliver fd cut).2).
Proof.
  intros HL Hv Hb Hne HQ cut. unfold filter_data, filter_data_.
  destruct (find_uncomplete_spec L P Q fd HL Hv) as (o & L1 & -> & HL1 & Ho).
  assert (∀ L2 Q2 s, lua_ok L2 (upd (upd P fd []) fd s) Q2 → lua_ok L2 (upd P fd s) Q2) as Hupd.
  { intros L2 Q2 s. apply queue_ok_ext. intros fd'. unfold upd. by destruct (fd' =? fd). }
  pose proof (upd_eq P fd []) as HP. pose proof (len_nonneg Q).
  destruct o as [uc|].
  - destruct Ho as [(Hid & Hbp & Hp & Huc) HL1'].
    destruct Huc as [(Hread & Es & Hbuf)|(a & b & body & Es & Hsize & Hread & Hbuf)];
      subst cut; rewrite Es in *; unfold fill_header.
    + rewrite Hread. change (-1 <? 0) with true. change (-1 =? -1) with true. cbn [andb].
      destruct buffer as [|b t]; [done|]. cbn [arr_get].
      change ((b :: t).[0]) with (Some b). change (advance 1 (b :: t)) with t.
      replace (len (b :: t) - 1) with (len t) by (rewrite len_cons; lia).
      rewrite len_cons in HQ. apply Forall_cons in Hb as [Hb Ht]. apply Forall_cons in Hbp as [Ha _].
      rewrite Z.lor_comm, lor_bytes by done.
      match goal with |- context [fill_uncomplete L1 fd ?u] =>
        destruct (fill_uncomplete_spec L1 _ Q fd u (uc_header uc) b [] t HL1 Hv HP HL1')
          as (L2 & -> & HL2) end; try done; [..|by eexists; split; [done|apply Hupd]].
      * by repeat apply Forall_cons_2.
      * unfold len. simpl. lia.
      * simpl. by rewrite Z.sub_0_r.
      * lia.
    + rewrite Hread, (proj2 (Z.ltb_ge _ _)) by apply len_nonneg.
      destruct (fill_uncomplete_spec L1 _ Q fd uc a b body buffer HL1 Hv HP HL1')
        as (L2 & -> & HL2); try done; [..|by eexists; split; [done|apply Hupd]].
      * rewrite !app_comm_cons. by apply Forall_app.
      * simpl in Hp. lia.
  - subst cut. rewrite Ho. cbn [app].
    destruct buffer as [|a [|b t]]; [done|..].
    + change (deframe [a]) with ((@nil (list Z)), [a]). cbn [deliver fst snd]. rewrite app_nil_r.
      destruct (save_uncomplete_spec L1 _ Q fd (-1) a 0 None [a] HL1 Hv HP (header_repr fd a Hb))
        as (L2 & E & HL2). change (len [a] =? 1) with true. change ([a].[0]) with (Some a).
      cbv iota beta. rewrite E. eexists. split; [done|]. by apply Hupd.
    + rewrite (proj2 (Z.eqb_neq _ _)) by (rewrite !len_cons; pose proof (len_nonneg t); lia).
      rewrite read_size_spec by done. change (advance 2 (a :: b :: t)) with t.
      replace (len (a :: b :: t) - 2) with (len t) by (rewrite !len_cons; lia).
      rewrite !len_cons in HQ.
      destruct (deframe_cases _ Hb) as [Hp|(a' & b' & p & s & [= <- <- ->] & Hl)].
      * rewrite (deframe_partial _ Hp). cbn [deliver fst snd]. rewrite app_nil_r. simpl in Hp.
        rewrite (proj2 (Z.ltb_lt _ _)) by done. rewrite alloc_copy_spec by lia.
        destruct (save_uncomplete_spec L1 _ Q fd (len t) 0 (a * 256 + b)
          (Some (map Some t ++ malloc (a * 256 + b - len t))) (a :: b :: t) HL1 Hv HP)
          as (L2 & -> & HL2); [by apply partial_repr|]. by eexists; split; [|apply Hupd].
      * rewrite deframe_cons by done. rewrite len_app, <- Hl in *. pose proof (len_nonneg s).
        rewrite (proj2 (Z.ltb_ge _ _)) by lia.
        assert (bytes s) as Hbs.
        { by apply Forall_cons in Hb as [_ [_ [_ Hs]%Forall_app]%Forall_cons]. }
        destruct s as [|c s].
        -- change (len (@nil Z)) with 0. rewrite Z.add_0_r, Z.eqb_refl, app_nil_r.
           rewrite alloc_copy_spec by lia. rewrite Z.sub_diag.
           change (malloc 0) with (@nil (option Z)). rewrite app_nil_r.
           eexists. split; [done|]. cbn [deliver fst snd]. rewrite app_nil_r.
           eapply queue_ok_ext; [|exact HL1]. done.
        -- rewrite (proj2 (Z.eqb_neq _ _)) by (rewrite len_cons; pose proof (len_nonneg s); lia).
           destruct (push_data_spec L1 _ Q fd p (c :: s) HL1) as (L2 & -> & HL2);
             [pose proof (len_nonneg p); lia|].
           rewrite advance_app, deliver_more by done.
           replace (len p + len (c :: s) - len p) with (len (c :: s)) by lia.
           destruct (push_more_spec (Z.to_nat (len (c :: s))) L2 _ _ fd (c :: s) HL2 Hv HP)
             as (L3 & -> & HL3); try done.
           ++ unfold len. lia.
           ++ rewrite len_app. change (len [_]) with 1. pose proof (len_nonneg p). lia.
           ++ eexists. split; [done|]. apply Hupd. simpl. by rewrite <- app_assoc in HL3.
Qed.

(** ** The consumer *)

Lemma lua_ok_None P Q : lua_ok None P Q → Q = [].
Proof.
  intros H. destruct Q as [|x Q]; [done|].
  destruct (ring_pop _ _ _ _ _ (ok_ring _ _ _ H)) as [E _]. revert E.
  unfold arr_get. destruct (0 <=? _); [|done]. intros E. apply lookup_replicate in E as [E _]. done.
Qed.

Lemma lpop_spec L P Q : lua_ok L P Q →
  match Q with
  | [] => lpop L = Some (None, L)
  | np :: Q => ∃ L', lpop L = Some (Some (np_id np, np_buffer np, np_size np), L') ∧ lua_ok L' P Q
  end.
Proof.
  intros H. destruct L as [q|]; cycle 1. { by rewrite (lua_ok_None _ _ H). }
  destruct H as [Hr Hl Ht Hcap Hh Hc]. Transparent get_queue.
  unfold lua_ok in *. cbn [get_queue lpop] in *. pose proof (ring_head _ _ _ _ Hr) as Hhd.
  destruct Q as [|np Q].
  - unfold len in Ht. simpl in Ht. rewrite Z.add_0_r, Z.mod_small in Ht by done.
    by rewrite Ht, Z.eqb_refl.
  - rewrite len_cons in *. pose proof (len_nonneg Q).
    rewrite (proj2 (Z.eqb_neq _ _)); cycle 1.
    { rewrite Ht, mod_wrap by lia. zcases; lia. }
    destruct (ring_pop _ _ _ _ _ Hr) as [-> Hr'].
    eexists. split; [done|]. split; cbn; try done; [lia|].
    rewrite Ht, !mod_wrap by (zcases; lia). zcases; lia.
Qed.

(** Lua's [for fd, msg, sz in netpack.pop, queue]. *)
Fixpoint drain (fuel : nat) (L : option queue)
  : option (list (Z * option block * Z) * option queue) :=
  match fuel with
  | O => None
  | S fuel =>
      '(r, L) ← lpop L;
      match r with
      | None => Some ([], L)
      | Some m => '(ms, L) ← drain fuel L; Some (m :: ms, L)
      end
  end.

Definition entry (np : netpack) : Z * option block * Z := (np_id np, np_buffer np, np_size np).

Lemma drain_spec fuel : ∀ L P Q, lua_ok L P Q → (length Q < fuel)%nat →
  ∃ L', drain fuel L = Some (map entry Q, L') ∧ lua_ok L' P [].
Proof.
  induction fuel as [|fuel IH]; intros L P Q HL Hf; [lia|]. simpl.
  pose proof (lpop_spec L P Q HL) as Hp. destruct Q as [|np Q].
  - rewrite Hp. by eexists.
  - destruct Hp as (L1 & -> & HL1). simpl in Hf.
    destruct (IH L1 P Q HL1) as (L2 & -> & HL2); [lia|]. by eexists.
Qed.

(** The message [forward_message] of the socket server makes of received data. *)
Definition data_message (fd : Z) (data : list Z) : skynet_socket_message :=
  {| sm_type := SKYNET_SOCKET_TYPE_DATA; sm_id := fd; sm_ud := len data;
     sm_buffer := Some data; sm_padding := [] |}.

(** One message, then the queue if there is more. *)
Definition receive (L : option queue) (fd : Z) (data : list Z)
  : option (list (Z * option block * Z) * option queue) :=
  '(ret, L) ← lfilter L (data_message fd data) SIZEOF_SOCKET_MESSAGE;
  match ret with
  | F_DATA fd msg size => Some ([(fd, msg, size)], L)
  | F_MORE => drain (S (length data)) L
  | _ => Some ([], L)
  end.

Fixpoint receive_all (L : option queue) (msgs : list (Z * list Z))
  : option (list (Z * option block * Z) * option queue) :=
  match msgs with
  | [] => Some ([], L)
  | (fd, data) :: msgs =>
      '(out, L) ← receive L fd data;
      '(outs, L) ← receive_all L msgs;
      Some (out ++ outs, L)
  end.

(** What the messages bring for one socket. *)
Definition stream (fd : Z) (msgs : list (Z * list Z)) : list Z :=
  concat (map snd (filter (λ m, m.1 = fd) msgs)).

Definition of_socket (fd : Z) (out : list (Z * option block * Z)) : list (Z * option block * Z) :=
  filter (λ m, m.1.1 = fd) out.

Definition valid_data (m : Z * list Z) : Prop :=
  valid_fd m.1 ∧ bytes m.2 ∧ m.2 ≠ [] ∧ len m.2 + 1 < 2 ^ 29.

Lemma lfilter_data L fd data : lfilter L (data_message fd data) SIZEOF_SOCKET_MESSAGE =
  filter_data L fd data (len data).
Proof. done. Qed.

Lemma deframe_few s n : bytes s → len s ≤ n → (length (deframe s).1 ≤ Z.to_nat n)%nat.
Proof. intros Hb Hn. pose proof (deframe_count s Hb). unfold len in *. lia. Qed.

(** A partial stream and more data complete no more packages than there is data. *)
Lemma deframe_new p s : bytes (p ++ s) → partial p → len (deframe (p ++ s)).1 ≤ len s.
Proof.
  intros Hb Hp. destruct (deframe_cases _ Hb) as [H|(a & b & q & t & E & Hl)].
  { rewrite deframe_partial by exact H. apply len_nonneg. }
  rewrite E in *. rewrite deframe_cons by done. cbn [fst]. rewrite len_cons.
  apply Forall_cons in Hb as [_ [_ [_ Ht]%Forall_app]%Forall_cons].
  pose proof (deframe_count t Ht) as Hc. pose proof (len_nonneg (deframe t).1).
  pose proof (len_nonneg q). pose proof (len_nonneg t).
  assert (len p + len s = 2 + len q + len t) as Hlen.
  { rewrite <- len_app, E, !len_cons, len_app. lia. }
  enough (len t + 1 ≤ len s) by lia.
  destruct p as [|x [|y p]].
  - unfold len at 1 in Hlen. simpl in Hlen. lia.
  - unfold len at 1 in Hlen. simpl in Hlen. lia.
  - injection E as -> -> E. simpl in Hp. rewrite !len_cons in Hlen. lia.
Qed.

Lemma uc_or_empty L P Q fd : lua_ok L P Q → valid_fd fd → bytes (P fd) ∧ partial (P fd).
Proof.
  intros HL Hv. destruct (find_uncomplete_spec L P Q fd HL Hv) as (o & L' & _ & _ & Ho).
  destruct o as [uc|]; [by destruct Ho as [(_ & ? & ? & _) _]|]. rewrite Ho. by split; [constructor|].
Qed.

Lemma receive_spec L P fd data : lua_ok L P [] → valid_data (fd, data) →
  let cut := deframe (P fd ++ data) in
  ∃ L', receive L fd data = Some (map entry (map (package fd) cut.1), L')
        ∧ lua_ok L' (upd P fd cut.2) [].
Proof.
  intros HL (Hv & Hb & Hne & Hlen) cut. simpl in *. unfold receive. rewrite lfilter_data.
  destruct (filter_data_spec L P [] fd data HL Hv Hb Hne) as (L1 & -> & HL1);
    [unfold len at 1; simpl; lia|].
  destruct (uc_or_empty _ _ _ fd HL Hv) as [HPb HPp].
  pose proof (deframe_new (P fd) data (proj2 (Forall_app _ _ _) (conj HPb Hb)) HPp) as Hnew.
  fold cut in HL1, Hnew |- *. clearbody cut. destruct cut as [ps r]. cbn [fst snd app] in *.
  destruct ps as [|p ps]; [by eexists|].
  assert (∃ L', drain (S (length data)) L1 = Some (map entry (map (package fd) (p :: ps)), L')
    ∧ lua_ok L' (upd P fd r) [] ∨ (ps = [] ∧ r = [])) as (L' & [[E HL']|[-> ->]]).
  { destruct ps as [|p' ps]; [destruct r|]; cbn [deliver fst snd] in *.
    - exists L1. by right.
    - destruct (drain_spec (S (length data)) _ _ _ HL1) as (L' & E & HL'); [unfold len in *; simpl in *; lia|].
      exists L'. by left.
    - destruct (drain_spec (S (length data)) _ _ _ HL1) as (L' & E & HL').
      { unfold len in *. simpl in *. rewrite length_map. lia. }
      exists L'. by left. }
  - destruct ps as [|p' ps]; [destruct r|]; cbn [deliver fst snd] in *; [|by eexists..].
    by eexists.
  - by eexists.
Qed.

Lemma receive_all_spec msgs : ∀ L P, lua_ok L P [] → Forall valid_data msgs →
  ∃ out L', receive_all L msgs = Some (out, L') ∧
    lua_ok L' (λ fd, (deframe (P fd ++ stream fd msgs)).2) [] ∧
    ∀ fd, valid_fd fd →
      of_socket fd out = map entry (map (package fd) (deframe (P fd ++ stream fd msgs)).1).
Proof.
  assert (∀ L P fd, lua_ok L P [] → valid_fd fd → deframe (P fd) = ([], P fd)) as Hpart.
  { intros L P fd HL Hv. apply deframe_partial. by eapply uc_or_empty. }
  induction msgs as [|[fd data] msgs IH]; intros L P HL HF; simpl.
  - exists [], L. split; [done|]. unfold stream. simpl.
    pose proof HL as [H1 H2 H3 H4 H5 H6]. split; cycle 1.
    { intros fd Hv. by rewrite app_nil_r, (Hpart L P fd HL Hv). }
    split; try done. intros fd h chain Hv Hh Hc. rewrite app_nil_r, (Hpart L P fd HL Hv).
    by eapply H6.
  - apply Forall_cons in HF as [Hd HF].
    destruct (receive_spec L P fd data HL Hd) as (L1 & -> & HL1).
    destruct (IH L1 _ HL1 HF) as (out & L2 & -> & HL2 & Hout).
    eexists _, L2. split; [done|].
    assert (∀ fd', deframe (P fd' ++ stream fd' ((fd, data) :: msgs)) =
      ((if fd' =? fd then (deframe (P fd ++ data)).1 else []) ++
         (deframe (upd P fd (deframe (P fd ++ data)).2 fd' ++ stream fd' msgs)).1,
       (deframe (upd P fd (deframe (P fd ++ data)).2 fd' ++ stream fd' msgs)).2)) as Hs.
    { intros fd'. unfold stream, upd. destruct (Z.eqb_spec fd' fd) as [->|Hne].
      - rewrite filter_cons_True by done. simpl. rewrite app_assoc, deframe_app; [done|].
        apply Forall_app. split; [by eapply uc_or_empty; [|apply Hd]|apply Hd].
      - rewrite filter_cons_False by (simpl; congruence). simpl.
        apply surjective_pairing. }
    split.
    + eapply queue_ok_ext; [|exact HL2]. intros fd'. cbn beta. by rewrite Hs.
    + intros fd' Hv. rewrite Hs. cbn [fst]. rewrite !map_app, <- Hout by done.
      unfold of_socket. rewrite filter_app. f_equal.
      destruct (Z.eqb_spec fd' fd) as [->|Hne].
      * apply filter_all. rewrite List.map_map. apply Forall_map, Forall_true. done.
      * apply filter_none. rewrite List.map_map. apply Forall_map, Forall_true. done.
Qed.

Lemma lpack_spec p : len p < 65536 →
  lpack p = Some (inr (map Some (len p / 256 :: len p mod 256 :: p), len p + 2)).
Proof.
  intros H. pose proof (len_nonneg p). unfold lpack. rewrite (proj2 (Z.leb_gt _ _)) by lia.
  unfold malloc. replace (Z.to_nat (len p + 2)) with (S (S (Z.to_nat (len p)))) by lia.
  unfold write_size. cbn [replicate].
  rewrite arr_set_Some by (rewrite !len_cons, len_replicate; lia).
  change (Z.to_nat 0) with 0%nat. cbn [insert list_insert].
  rewrite arr_set_Some by (rewrite !len_cons, len_replicate; lia).
  change (Z.to_nat 1) with 1%nat. cbn [insert list_insert].
  change 255 with (2 ^ 8 - 1). rewrite !land_mask, Z.shiftr_div_pow2 by lia.
  change (2 ^ 8) with 256. rewrite (Z.mod_small (len p / 256)) by (split; [apply Z.div_pos; lia|apply Z.div_lt_upper_bound; lia]).
  rewrite <- (app_nil_r (replicate _ _)).
  match goal with |- context [mem_write (?a :: ?b :: ?r ++ [])] =>
    change (a :: b :: r ++ []) with ([a; b] ++ r ++ []) end.
  rewrite mem_write_app; [by rewrite app_nil_r|done|]. by rewrite len_map, len_replicate.
Qed.

Lemma deframe_packed ps r : Forall (λ p, len p < 65536) ps →
  deframe (concat (map (λ p, len p / 256 :: len p mod 256 :: p) ps) ++ r) =
  (ps ++ (deframe r).1, (deframe r).2).
Proof.
  induction 1 as [|p ps Hp _ IH]; simpl; [by destruct (deframe r)|].
  rewrite <- app_assoc, deframe_cons, IH; [done|].
  rewrite (Z.mul_comm _ 256). apply Z.div_mod. lia.
Qed.

Lemma lpack_inv p b : lpack p = Some (inr (map Some b, len b)) →
  len p < 65536 ∧ b = len p / 256 :: len p mod 256 :: p.
Proof.
  intros H. destruct (Z.leb_spec 65536 (len p)) as [Hl|Hl].
  - unfold lpack in H. by rewrite (proj2 (Z.leb_le _ _)) in H.
  - rewrite lpack_spec in H by done. split; [done|]. injection H as E _.
    symmetry. revert E. apply (inj (map Some) (_ :: _ :: p) b).
Qed.

Lemma packed_blocks ps bs :
  Forall2 (λ p b, lpack p = Some (inr (map Some b, len b))) ps bs →
  deframe (concat bs) = (ps, []).
Proof.
  intros H. rewrite <- (app_nil_r (concat bs)).
  assert (Forall (λ p, len p < 65536) ps ∧ bs = map (λ p, len p / 256 :: len p mod 256 :: p) ps)
    as [Hl ->].
  { induction H as [|p b ps bs [Hp ->]%lpack_inv _ [IH1 IH2]]; [done|]. subst bs.
    split; [by constructor|done]. }
  rewrite deframe_packed by done. change (deframe []) with (@nil (list Z), @nil Z).
  by rewrite app_nil_r.
Qed.

(** ** Properties *)

(** C23: Cutting one chunk: a data message of socket [fd] joined to the bytes
    that wait for [fd] is cut into whole packages and a rest.  [filter]
    returns nothing when no package is complete, the package itself when one
    package ends the data, and [more] with all of them queued in order
    otherwise; the rest waits, the other sockets' bytes and the queued
    packages are kept, and no byte outside a block is touched, with the ring
    growing when it is full. *)
Theorem lfilter_data_refines L P Q fd data :
  lua_ok L P Q → valid_fd fd → bytes data → data ≠ [] → len Q + len data + 1 < 2 ^ 29 →
  let cut := deframe (P fd ++ data) in
  ∃ L', lfilter L (data_message fd data) SIZEOF_SOCKET_MESSAGE = Some ((deliver fd cut).1, L')
        ∧ lua_ok L' (upd P fd cut.2) (Q ++ (deliver fd cut).2).
Proof. rewrite lfilter_data. apply filter_data_spec. Qed.

Lemma lfilter_data_refines_witness :
  ∃ L', lfilter None (data_message 7 [0; 2; 65; 66; 0; 1; 67; 0]) SIZEOF_SOCKET_MESSAGE = Some (F_MORE, L')
        ∧ lua_ok L' (upd (λ _, []) 7 [0]) [package 7 [65; 66]; package 7 [67]].
Proof.
  apply (lfilter_data_refines None (λ _, []) [] 7 [0; 2; 65; 66; 0; 1; 67; 0]).
  - apply lua_ok_init.
  - split; [lia|]. vm_compute. discriminate.
  - repeat constructor; lia.
  - discriminate.
  - unfold len. simpl. lia.
Defined.

(** C22: The packages do not depend on how the stream is cut into messages:
    whatever chunks the socket server forwards, of any sockets interleaved,
    a consumer that empties the queue on [more] sees for each socket exactly
    the packages of that socket's bytes taken as one stream, in order. *)
Theorem netpack_stream msgs : Forall valid_data msgs →
  ∃ out L', receive_all None msgs = Some (out, L') ∧
    ∀ fd, valid_fd fd →
      of_socket fd out = map (λ p, (fd, Some (map Some p), len p)) (deframe (stream fd msgs)).1.
Proof.
  intros HF. destruct (receive_all_spec msgs _ _ lua_ok_init HF) as (out & L' & E & _ & Hout).
  exists out, L'. split; [done|]. intros fd Hv. rewrite (Hout fd Hv), List.map_map. done.
Qed.

Definition demo_msgs : list (Z * list Z) :=
  [(7, [0]); (8, [0; 1; 90; 0]); (7, [2; 65]); (7, [66; 0; 1; 67; 0; 0; 0]); (8, [1; 91])].

Lemma demo_msgs_valid : Forall valid_data demo_msgs.
Proof.
  repeat constructor; try discriminate.
Qed.

Lemma netpack_stream_witness :
  ∃ out L', receive_all None demo_msgs = Some (out, L') ∧
    of_socket 7 out = [(7, Some [Some 65; Some 66], 2); (7, Some [Some 67], 1); (7, Some [], 0)].
Proof.
  destruct (netpack_stream demo_msgs demo_msgs_valid) as (out & L' & E & H).
  exists out, L'. split; [exact E|]. apply (H 7). split; [lia|]. vm_compute. discriminate.
Defined.

(** C13: What [pack] writes [filter] reads: a peer that sends the packages [ps]
    as the blocks [pack] makes of them, in any number of chunks and among
    other sockets' traffic, is received as exactly [ps]; [pack] makes such a
    block of every string shorter than 65536 and raises an error for the
    others. *)
Theorem netpack_roundtrip msgs fd ps bs :
  Forall valid_data msgs → valid_fd fd →
  Forall2 (λ p b, lpack p = Some (inr (map Some b, len b))) ps bs →
  stream fd msgs = concat bs →
  (∃ out L', receive_all None msgs = Some (out, L') ∧
     of_socket fd out = map (λ p, (fd, Some (map Some p), len p)) ps) ∧
  (∀ p, if len p <? 65536 then ∃ b, lpack p = Some (inr (map Some b, len p + 2))
        else lpack p = Some (inl (len p))).
Proof.
  intros HF Hv Hps Hs. split.
  - destruct (receive_all_spec msgs _ _ lua_ok_init HF) as (out & L' & E & _ & Hout).
    exists out, L'. split; [done|]. rewrite (Hout fd Hv), Hs. cbn [app].
    rewrite (packed_blocks ps bs Hps). cbn [fst]. by rewrite List.map_map.
  - intros p. destruct (Z.ltb_spec (len p) 65536).
    + rewrite lpack_spec by done. by eexists.
    + unfold lpack. by rewrite (proj2 (Z.leb_le _ _)) by lia.
Qed.

Lemma netpack_roundtrip_witness :
  ∃ out L', receive_all None demo_msgs = Some (out, L') ∧
    of_socket 8 out = [(8, Some [Some 90], 1); (8, Some [Some 91], 1)].
Proof.
  refine (proj1 (netpack_roundtrip demo_msgs 8 [[90]; [91]] [[0; 1; 90]; [0; 1; 91]]
    demo_msgs_valid _ _ _)).
  - split; [lia|]. vm_compute. discriminate.
  - repeat constructor.
  - reflexivity.
Defined.
