(* ===== verification/Des.v ===== *)
(** * DES: lualib-src/lua-crypt.c

    [desencode] and [desdecode]: the key schedule, the block cipher of sixteen
    rounds and the two paddings.  Words are [uint32_t], blocks of bytes are
    read and written big-endian.  The tables are those of the source. *)

From S2P Require Import Prelude.

(** ** Tables *)

Definition SB1 : list Z := [
  0x01010400; 0x00000000; 0x00010000; 0x01010404;
  0x01010004; 0x00010404; 0x00000004; 0x00010000;
  0x00000400; 0x01010400; 0x01010404; 0x00000400;
  0x01000404; 0x01010004; 0x01000000; 0x00000004;
  0x00000404; 0x01000400; 0x01000400; 0x00010400;
  0x00010400; 0x01010000; 0x01010000; 0x01000404;
  0x00010004; 0x01000004; 0x01000004; 0x00010004;
  0x00000000; 0x00000404; 0x00010404; 0x01000000;
  0x00010000; 0x01010404; 0x00000004; 0x01010000;
  0x01010400; 0x01000000; 0x01000000; 0x00000400;
  0x01010004; 0x00010000; 0x00010400; 0x01000004;
  0x00000400; 0x00000004; 0x01000404; 0x00010404;
  0x01010404; 0x00010004; 0x01010000; 0x01000404;
  0x01000004; 0x00000404; 0x00010404; 0x01010400;
  0x00000404; 0x01000400; 0x01000400; 0x00000000;
  0x00010004; 0x00010400; 0x00000000; 0x01010004
].

Definition SB2 : list Z := [
  0x80108020; 0x80008000; 0x00008000; 0x00108020;
  0x00100000; 0x00000020; 0x80100020; 0x80008020;
  0x80000020; 0x80108020; 0x80108000; 0x80000000;
  0x80008000; 0x00100000; 0x00000020; 0x80100020;
  0x00108000; 0x00100020; 0x80008020; 0x00000000;
  0x80000000; 0x00008000; 0x00108020; 0x80100000;
  0x00100020; 0x80000020; 0x00000000; 0x00108000;
  0x00008020; 0x80108000; 0x80100000; 0x00008020;
  0x00000000; 0x00108020; 0x80100020; 0x00100000;
  0x80008020; 0x80100000; 0x80108000; 0x00008000;
  0x80100000; 0x80008000; 0x00000020; 0x80108020;
  0x00108020; 0x00000020; 0x00008000; 0x80000000;
  0x00008020; 0x80108000; 0x00100000; 0x80000020;
  0x00100020; 0x80008020; 0x80000020; 0x00100020;
  0x00108000; 0x00000000; 0x80008000; 0x00008020;
  0x80000000; 0x80100020; 0x80108020; 0x00108000
].

Definition SB3 : list Z := [
  0x00000208; 0x08020200; 0x00000000; 0x08020008;
  0x08000200; 0x00000000; 0x00020208; 0x08000200;
  0x00020008; 0x08000008; 0x08000008; 0x00020000;
  0x08020208; 0x00020008; 0x08020000; 0x00000208;
  0x08000000; 0x00000008; 0x08020200; 0x00000200;
  0x00020200; 0x08020000; 0x08020008; 0x00020208;
  0x08000208; 0x00020200; 0x00020000; 0x08000208;
  0x00000008; 0x08020208; 0x00000200; 0x08000000;
  0x08020200; 0x08000000; 0x00020008; 0x00000208;
  0x00020000; 0x08020200; 0x08000200; 0x00000000;
  0x00000200; 0x00020008; 0x08020208; 0x08000200;
  0x08000008; 0x00000200; 0x00000000; 0x08020008;
  0x08000208; 0x00020000; 0x08000000; 0x08020208;
  0x00000008; 0x00020208; 0x00020200; 0x08000008;
  0x08020000; 0x08000208; 0x00000208; 0x08020000;
  0x00020208; 0x00000008; 0x08020008; 0x00020200
].

Definition SB4 : list Z := [
  0x00802001; 0x00002081; 0x00002081; 0x00000080;
  0x00802080; 0x00800081; 0x00800001; 0x00002001;
  0x00000000; 0x00802000; 0x00802000; 0x00802081;
  0x00000081; 0x00000000; 0x00800080; 0x00800001;
  0x00000001; 0x00002000; 0x00800000; 0x00802001;
  0x00000080; 0x00800000; 0x00002001; 0x00002080;
  0x00800081; 0x00000001; 0x00002080; 0x00800080;
  0x00002000; 0x00802080; 0x00802081; 0x00000081;
  0x00800080; 0x00800001; 0x00802000; 0x00802081;
  0x00000081; 0x00000000; 0x00000000; 0x00802000;
  0x00002080; 0x00800080; 0x00800081; 0x00000001;
  0x00802001; 0x00002081; 0x00002081; 0x00000080;
  0x00802081; 0x00000081; 0x00000001; 0x00002000;
  0x00800001; 0x00002001; 0x00802080; 0x00800081;
  0x00002001; 0x00002080; 0x00800000; 0x00802001;
  0x00000080; 0x00800000; 0x00002000; 0x00802080
].

Definition SB5 : list Z := [
  0x00000100; 0x02080100; 0x02080000; 0x42000100;
  0x00080000; 0x00000100; 0x40000000; 0x02080000;
  0x40080100; 0x00080000; 0x02000100; 0x40080100;
  0x42000100; 0x42080000; 0x00080100; 0x40000000;
  0x02000000; 0x40080000; 0x40080000; 0x00000000;
  0x40000100; 0x42080100; 0x42080100; 0x02000100;
  0x42080000; 0x40000100; 0x00000000; 0x42000000;
  0x02080100; 0x02000000; 0x42000000; 0x00080100;
  0x00080000; 0x42000100; 0x00000100; 0x02000000;
  0x40000000; 0x02080000; 0x42000100; 0x40080100;
  0x02000100; 0x40000000; 0x42080000; 0x02080100;
  0x40080100; 0x00000100; 0x02000000; 0x42080000;
  0x42080100; 0x00080100; 0x42000000; 0x42080100;
  0x02080000; 0x00000000; 0x40080000; 0x42000000;
  0x00080100; 0x02000100; 0x40000100; 0x00080000;
  0x00000000; 0x40080000; 0x02080100; 0x40000100
].

Definition SB6 : list Z := [
  0x20000010; 0x20400000; 0x00004000; 0x20404010;
  0x20400000; 0x00000010; 0x20404010; 0x00400000;
  0x20004000; 0x00404010; 0x00400000; 0x20000010;
  0x00400010; 0x20004000; 0x20000000; 0x00004010;
  0x00000000; 0x00400010; 0x20004010; 0x00004000;
  0x00404000; 0x20004010; 0x00000010; 0x20400010;
  0x20400010; 0x00000000; 0x00404010; 0x20404000;
  0x00004010; 0x00404000; 0x20404000; 0x20000000;
  0x20004000; 0x00000010; 0x20400010; 0x00404000;
  0x20404010; 0x00400000; 0x00004010; 0x20000010;
  0x00400000; 0x20004000; 0x20000000; 0x00004010;
  0x20000010; 0x20404010; 0x00404000; 0x20400000;
  0x00404010; 0x20404000; 0x00000000; 0x20400010;
  0x00000010; 0x00004000; 0x20400000; 0x00404010;
  0x00004000; 0x00400010; 0x20004010; 0x00000000;
  0x20404000; 0x20000000; 0x00400010; 0x20004010
].

Definition SB7 : list Z := [
  0x00200000; 0x04200002; 0x04000802; 0x00000000;
  0x00000800; 0x04000802; 0x00200802; 0x04200800;
  0x04200802; 0x00200000; 0x00000000; 0x04000002;
  0x00000002; 0x04000000; 0x04200002; 0x00000802;
  0x04000800; 0x00200802; 0x00200002; 0x04000800;
  0x04000002; 0x04200000; 0x04200800; 0x00200002;
  0x04200000; 0x00000800; 0x00000802; 0x04200802;
  0x00200800; 0x00000002; 0x04000000; 0x00200800;
  0x04000000; 0x00200800; 0x00200000; 0x04000802;
  0x04000802; 0x04200002; 0x04200002; 0x00000002;
  0x00200002; 0x04000000; 0x04000800; 0x00200000;
  0x04200800; 0x00000802; 0x00200802; 0x04200800;
  0x00000802; 0x04000002; 0x04200802; 0x04200000;
  0x00200800; 0x00000000; 0x00000002; 0x04200802;
  0x00000000; 0x00200802; 0x04200000; 0x00000800;
  0x04000002; 0x04000800; 0x00000800; 0x00200002
].

Definition SB8 : list Z := [
  0x10001040; 0x00001000; 0x00040000; 0x10041040;
  0x10000000; 0x10001040; 0x00000040; 0x10000000;
  0x00040040; 0x10040000; 0x10041040; 0x00041000;
  0x10041000; 0x00041040; 0x00001000; 0x00000040;
  0x10040000; 0x10000040; 0x10001000; 0x00001040;
  0x00041000; 0x00040040; 0x10040040; 0x10041000;
  0x00001040; 0x00000000; 0x00000000; 0x10040040;
  0x10000040; 0x10001000; 0x00041040; 0x00040000;
  0x00041040; 0x00040000; 0x10041000; 0x00001000;
  0x00000040; 0x10040040; 0x00001000; 0x00041040;
  0x10001000; 0x00000040; 0x10000040; 0x10040000;
  0x10040040; 0x10000000; 0x00040000; 0x10001040;
  0x00000000; 0x10041040; 0x00040040; 0x10000040;
  0x10040000; 0x10001000; 0x10001040; 0x00000000;
  0x10041040; 0x00041000; 0x00041000; 0x00001040;
  0x00001040; 0x00040040; 0x10000000; 0x10041000
].

Definition LHs : list Z := [
  0x00000000; 0x00000001; 0x00000100; 0x00000101;
  0x00010000; 0x00010001; 0x00010100; 0x00010101;
  0x01000000; 0x01000001; 0x01000100; 0x01000101;
  0x01010000; 0x01010001; 0x01010100; 0x01010101
].

Definition RHs : list Z := [
  0x00000000; 0x01000000; 0x00010000; 0x01010000;
  0x00000100; 0x01000100; 0x00010100; 0x01010100;
  0x00000001; 0x01000001; 0x00010001; 0x01010001;
  0x00000101; 0x01000101; 0x00010101; 0x01010101
].

(** ** Words and bytes *)

Definition GET_UINT32 (b : list Z) (i : Z) : option Z :=
  b0 ← b.[i]; b1 ← b.[i + 1]; b2 ← b.[i + 2]; b3 ← b.[i + 3];
  Some ((b0 <<ᵤ 24) |ᵤ (b1 <<ᵤ 16) |ᵤ (b2 <<ᵤ 8) |ᵤ b3).

Definition PUT_UINT32 (n : Z) : list Z :=
  [u8 (n >>ᵤ 24); u8 (n >>ᵤ 16); u8 (n >>ᵤ 8); u8 n].

(** ** Permutations *)

(** [T = ((X >> k) ^ Y) & mask; Y ^= T; X ^= T << k], of [(X, Y)]. *)
Definition swap_bits (k mask : Z) (p : Z * Z) : Z * Z :=
  let '(X, Y) := p in
  let T := ((X >>ᵤ k) ^ᵤ Y) &ᵤ mask in
  (X ^ᵤ (T <<ᵤ k), Y ^ᵤ T).

Definition flip (p : Z * Z) : Z * Z := (p.2, p.1).

Definition DES_IP (X Y : Z) : Z * Z :=
  let '(X, Y) := swap_bits 4 0x0F0F0F0F (X, Y) in
  let '(X, Y) := swap_bits 16 0x0000FFFF (X, Y) in
  let '(Y, X) := swap_bits 2 0x33333333 (Y, X) in
  let '(Y, X) := swap_bits 8 0x00FF00FF (Y, X) in
  let Y := ((Y <<ᵤ 1) |ᵤ (Y >>ᵤ 31)) &ᵤ 0xFFFFFFFF in
  let T := (X ^ᵤ Y) &ᵤ 0xAAAAAAAA in
  let Y := Y ^ᵤ T in
  let X := X ^ᵤ T in
  let X := ((X <<ᵤ 1) |ᵤ (X >>ᵤ 31)) &ᵤ 0xFFFFFFFF in
  (X, Y).

Definition DES_FP (X Y : Z) : Z * Z :=
  let X := ((X <<ᵤ 31) |ᵤ (X >>ᵤ 1)) &ᵤ 0xFFFFFFFF in
  let T := (X ^ᵤ Y) &ᵤ 0xAAAAAAAA in
  let X := X ^ᵤ T in
  let Y := Y ^ᵤ T in
  let Y := ((Y <<ᵤ 31) |ᵤ (Y >>ᵤ 1)) &ᵤ 0xFFFFFFFF in
  let '(Y, X) := swap_bits 8 0x00FF00FF (Y, X) in
  let '(Y, X) := swap_bits 2 0x33333333 (Y, X) in
  let '(X, Y) := swap_bits 16 0x0000FFFF (X, Y) in
  let '(X, Y) := swap_bits 4 0x0F0F0F0F (X, Y) in
  (X, Y).

(** ** Rounds *)

(** The new [Y]; [sk] is the position of the pointer [SK]. *)
Definition DES_ROUND (SK : list Z) (sk : Z) (X Y : Z) : option Z :=
  k ← SK.[sk];
  let T := k ^ᵤ X in
  s8 ← SB8.[T &ᵤ 0x3F]; s6 ← SB6.[(T >>ᵤ 8) &ᵤ 0x3F];
  s4 ← SB4.[(T >>ᵤ 16) &ᵤ 0x3F]; s2 ← SB2.[(T >>ᵤ 24) &ᵤ 0x3F];
  let Y := Y ^ᵤ (s8 ^ᵤ s6 ^ᵤ s4 ^ᵤ s2) in
  k ← SK.[sk + 1];
  let T := k ^ᵤ ((X <<ᵤ 28) |ᵤ (X >>ᵤ 4)) in
  s7 ← SB7.[T &ᵤ 0x3F]; s5 ← SB5.[(T >>ᵤ 8) &ᵤ 0x3F];
  s3 ← SB3.[(T >>ᵤ 16) &ᵤ 0x3F]; s1 ← SB1.[(T >>ᵤ 24) &ᵤ 0x3F];
  Some (Y ^ᵤ (s7 ^ᵤ s5 ^ᵤ s3 ^ᵤ s1)).

(** The eight lines [DES_ROUND(Y, X); DES_ROUND(X, Y);] *)
Definition des_rounds (SK : list Z) (X Y : Z) : option (Z * Z) :=
  for_range 0 8 (λ i '(X, Y),
    X ← DES_ROUND SK (4 * i) Y X;
    Y ← DES_ROUND SK (4 * i + 2) X Y;
    Some (X, Y)) (X, Y).

Definition des_crypt (SK : list Z) (input : list Z) : option (list Z) :=
  X ← GET_UINT32 input 0;
  Y ← GET_UINT32 input 4;
  let '(X, Y) := DES_IP X Y in
  '(X, Y) ← des_rounds SK X Y;
  let '(Y, X) := DES_FP Y X in
  Some (PUT_UINT32 Y ++ PUT_UINT32 X).

(** ** Key schedule *)

(** [table[(X >> s) & 0xF] << k]. *)
Definition half (table : list Z) (X s k : Z) : option Z :=
  v ← table.[(X >>ᵤ s) &ᵤ 0xF]; Some (v <<ᵤ k).

Definition pc1_left (X : Z) : option Z :=
  a ← half LHs X 0 3; b ← half LHs X 8 2; c ← half LHs X 16 1; d ← half LHs X 24 0;
  e ← half LHs X 5 7; f ← half LHs X 13 6; g ← half LHs X 21 5; h ← half LHs X 29 4;
  Some (a |ᵤ b |ᵤ c |ᵤ d |ᵤ e |ᵤ f |ᵤ g |ᵤ h).

Definition pc1_right (Y : Z) : option Z :=
  a ← half RHs Y 1 3; b ← half RHs Y 9 2; c ← half RHs Y 17 1; d ← half RHs Y 25 0;
  e ← half RHs Y 4 7; f ← half RHs Y 12 6; g ← half RHs Y 20 5; h ← half RHs Y 28 4;
  Some (a |ᵤ b |ᵤ c |ᵤ d |ᵤ e |ᵤ f |ᵤ g |ᵤ h).

Definition subkeys (X Y : Z) : list Z :=
  [ ((X <<ᵤ 4) &ᵤ 0x24000000) |ᵤ ((X <<ᵤ 28) &ᵤ 0x10000000)
      |ᵤ ((X <<ᵤ 14) &ᵤ 0x08000000) |ᵤ ((X <<ᵤ 18) &ᵤ 0x02080000)
      |ᵤ ((X <<ᵤ 6) &ᵤ 0x01000000) |ᵤ ((X <<ᵤ 9) &ᵤ 0x00200000)
      |ᵤ ((X >>ᵤ 1) &ᵤ 0x00100000) |ᵤ ((X <<ᵤ 10) &ᵤ 0x00040000)
      |ᵤ ((X <<ᵤ 2) &ᵤ 0x00020000) |ᵤ ((X >>ᵤ 10) &ᵤ 0x00010000)
      |ᵤ ((Y >>ᵤ 13) &ᵤ 0x00002000) |ᵤ ((Y >>ᵤ 4) &ᵤ 0x00001000)
      |ᵤ ((Y <<ᵤ 6) &ᵤ 0x00000800) |ᵤ ((Y >>ᵤ 1) &ᵤ 0x00000400)
      |ᵤ ((Y >>ᵤ 14) &ᵤ 0x00000200) |ᵤ (Y &ᵤ 0x00000100)
      |ᵤ ((Y >>ᵤ 5) &ᵤ 0x00000020) |ᵤ ((Y >>ᵤ 10) &ᵤ 0x00000010)
      |ᵤ ((Y >>ᵤ 3) &ᵤ 0x00000008) |ᵤ ((Y >>ᵤ 18) &ᵤ 0x00000004)
      |ᵤ ((Y >>ᵤ 26) &ᵤ 0x00000002) |ᵤ ((Y >>ᵤ 24) &ᵤ 0x00000001);
    ((X <<ᵤ 15) &ᵤ 0x20000000) |ᵤ ((X <<ᵤ 17) &ᵤ 0x10000000)
      |ᵤ ((X <<ᵤ 10) &ᵤ 0x08000000) |ᵤ ((X <<ᵤ 22) &ᵤ 0x04000000)
      |ᵤ ((X >>ᵤ 2) &ᵤ 0x02000000) |ᵤ ((X <<ᵤ 1) &ᵤ 0x01000000)
      |ᵤ ((X <<ᵤ 16) &ᵤ 0x00200000) |ᵤ ((X <<ᵤ 11) &ᵤ 0x00100000)
      |ᵤ ((X <<ᵤ 3) &ᵤ 0x00080000) |ᵤ ((X >>ᵤ 6) &ᵤ 0x00040000)
      |ᵤ ((X <<ᵤ 15) &ᵤ 0x00020000) |ᵤ ((X >>ᵤ 4) &ᵤ 0x00010000)
      |ᵤ ((Y >>ᵤ 2) &ᵤ 0x00002000) |ᵤ ((Y <<ᵤ 8) &ᵤ 0x00001000)
      |ᵤ ((Y >>ᵤ 14) &ᵤ 0x00000808) |ᵤ ((Y >>ᵤ 9) &ᵤ 0x00000400)
      |ᵤ (Y &ᵤ 0x00000200) |ᵤ ((Y <<ᵤ 7) &ᵤ 0x00000100)
      |ᵤ ((Y >>ᵤ 7) &ᵤ 0x00000020) |ᵤ ((Y >>ᵤ 3) &ᵤ 0x00000011)
      |ᵤ ((Y <<ᵤ 2) &ᵤ 0x00000004) |ᵤ ((Y >>ᵤ 21) &ᵤ 0x00000002) ].

Definition ks_rotate (i X : Z) : Z :=
  if (i <? 2) || (i =? 8) || (i =? 15)
  then ((X <<ᵤ 1) |ᵤ (X >>ᵤ 27)) &ᵤ 0x0FFFFFFF
  else ((X <<ᵤ 2) |ᵤ (X >>ᵤ 26)) &ᵤ 0x0FFFFFFF.

Definition des_main_ks (key : list Z) : option (list Z) :=
  X ← GET_UINT32 key 0;
  Y ← GET_UINT32 key 4;
  let T := ((Y >>ᵤ 4) ^ᵤ X) &ᵤ 0x0F0F0F0F in
  let X := X ^ᵤ T in
  let Y := Y ^ᵤ (T <<ᵤ 4) in
  let T := (Y ^ᵤ X) &ᵤ 0x10101010 in
  let X := X ^ᵤ T in
  let Y := Y ^ᵤ T in
  X ← pc1_left X;
  Y ← pc1_right Y;
  let X := X &ᵤ 0x0FFFFFFF in
  let Y := Y &ᵤ 0x0FFFFFFF in
  '(X, Y, SK) ← for_range 0 16 (λ i '(X, Y, SK),
    let X := ks_rotate i X in
    let Y := ks_rotate i Y in
    Some (X, Y, SK ++ subkeys X Y)) (X, Y, []);
  Some SK.

(** ** Padding *)

Definition PADDING_MODE_ISO7816_4 : Z := 0.
Definition PADDING_MODE_PKCS7 : Z := 1.
Definition PADDING_MODE_COUNT : Z := 2.
Definition SMALL_CHUNK : Z := 256.

Definition padding_add_iso7816_4 (buf : block) (offset : Z) : option block :=
  buf ← buf.[offset <- Some 0x80];
  mem_write buf (offset + 1) (replicate (Z.to_nat (7 - offset)) (Some 0)).

(** [last] is an index into [buf]: reading before the block aborts. *)
Definition load (buf : block) (i : Z) : option Z := c ← buf.[i]; c.

Fixpoint iso7816_loop (n : nat) (buf : block) (last padding : Z) : option Z :=
  match n with
  | O => Some 0
  | S n =>
      b ← load buf last;
      if b =? 0 then iso7816_loop n buf (last - 1) (padding + 1)
      else if b =? 0x80 then Some padding
      else Some 0
  end.

Definition padding_remove_iso7816_4 (buf : block) (last : Z) : option Z :=
  iso7816_loop 8 buf last 1.

Definition padding_add_pkcs7 (buf : block) (offset : Z) : option block :=
  let x := u8 (8 - offset) in
  mem_write buf offset (replicate (Z.to_nat (8 - offset)) (Some x)).

Fixpoint pkcs7_loop (n : nat) (buf : block) (last padding : Z) : option Z :=
  match n with
  | O => Some padding
  | S n =>
      b ← load buf (last - 1);
      if b =? padding then pkcs7_loop n buf (last - 1) padding else Some 0
  end.

Definition padding_remove_pkcs7 (buf : block) (last : Z) : option Z :=
  padding ← load buf last;
  pkcs7_loop (Z.to_nat (padding - 1)) buf last padding.

Definition check_padding_mode (mode : Z) : option (result ()) :=
  if (mode <? 0) || (PADDING_MODE_COUNT <=? mode) then Some (Error "Invalid padding mode")
  else Some (Return ()).

Definition add_padding (src : list Z) (offset mode : Z) : option (result block) :=
  _ ⇐ check_padding_mode mode;
  if 8 <=? offset then Some (Error "Invalid padding")
  else
    data ← mem_read (map Some src) 0 offset;
    buf ← mem_write (malloc 8) 0 data;
    buf ← (if mode =? PADDING_MODE_ISO7816_4 then padding_add_iso7816_4 buf offset
           else padding_add_pkcs7 buf offset);
    Some (Return buf).

Definition remove_padding (buf : block) (last mode : Z) : option (result Z) :=
  _ ⇐ check_padding_mode mode;
  n ← (if mode =? PADDING_MODE_ISO7816_4 then padding_remove_iso7816_4 buf last
       else padding_remove_pkcs7 buf last);
  Some (Return n).

(** ** Encryption and decryption of strings *)

Definition des_key (key : list Z) : option (result (list Z)) :=
  if negb (len key =? 8) then Some (Error "Invalid key size, need 8 bytes")
  else SK ← des_main_ks key; Some (Return SK).

(** [tmp], or a userdata when that is too small. *)
Definition small_buffer (sz : Z) : block :=
  if SMALL_CHUNK <? sz then malloc sz else malloc SMALL_CHUNK.

(** [for (i = 0; i < hi; i += 8) des_crypt(SK, text + i, buffer + i)], and the
    last [i]. *)
Definition crypt_blocks (SK : list Z) (text : list Z) (hi : Z) (buffer : block)
  : option (Z * block) :=
  for_step 0 hi 8 (λ i '(_, buffer),
    out ← des_crypt SK (advance i text);
    buffer ← mem_write buffer i (map Some out);
    Some (i + 8, buffer)) (0, buffer).

Definition ldesencode (key text : list Z) (padding_mode : Z) : option (result block) :=
  SK ⇐ des_key key;
  let textsz := len text in
  let chunksz := Z.land (textsz + 8) (Z.lnot 7) in
  let buffer := small_buffer chunksz in
  '(i, buffer) ← crypt_blocks SK text (s32 textsz - 7) buffer;
  tail ⇐ add_padding (advance i text) (textsz - i) padding_mode;
  tail ← mapM id tail;
  out ← des_crypt SK tail;
  buffer ← mem_write buffer i (map Some out);
  str ← mem_read buffer 0 chunksz;
  Some (Return str).

Definition ldesdecode (key text : list Z) (padding_mode : Z) : option (result block) :=
  ESK ⇐ des_key key;
  SK ← for_step 0 32 2 (λ i SK,
    a ← ESK.[30 - i]; b ← ESK.[31 - i]; Some (SK ++ [a; b])) [];
  let textsz := len text in
  if truth (Z.land textsz 7) || (textsz =? 0) then Some (Error "Invalid des crypt text length")
  else
    let buffer := small_buffer textsz in
    '(_, buffer) ← crypt_blocks SK text textsz buffer;
    padding ⇐ remove_padding buffer (textsz - 1) padding_mode;
    if (padding <=? 0) || (8 <? padding) then Some (Error "Invalid des crypt text")
    else
      str ← mem_read buffer 0 (textsz - padding);
      Some (Return str).

(** ** Bits *)

Definition word (x : Z) : Prop := 0 ≤ x < 2 ^ 32.

Lemma lxor_range n x y : 0 ≤ n → 0 ≤ x < 2 ^ n → 0 ≤ y < 2 ^ n → 0 ≤ Z.lxor x y < 2 ^ n.
Proof.
  intros Hn Hx Hy. assert (Z.lxor x y = Z.lxor x y mod 2 ^ n) as ->; cycle 1.
  { apply Z.mod_pos_bound. lia. }
  rewrite <- Z.land_ones by done. apply Z.bits_inj'. intros i Hi.
  rewrite Z.land_spec, !Z.lxor_spec. destruct (Z.ltb_spec i n) as [Hlt|Hge].
  - rewrite Z.ones_spec_low by lia. by rewrite andb_true_r.
  - rewrite Z.ones_spec_high, andb_false_r by lia.
    rewrite <- (Z.mod_small x (2 ^ n)), <- (Z.mod_small y (2 ^ n)) by done.
    by rewrite !Z.mod_pow2_bits_high by lia.
Qed.

Lemma lxor_word x y : word x → word y → word (x ^ᵤ y).
Proof. by apply lxor_range. Qed.

Lemma land_mask_range m x k : 0 ≤ m < 2 ^ k → 0 ≤ Z.land x m < 2 ^ k.
Proof.
  intros Hm. assert (0 ≤ Z.land x m) as H0 by (apply Z.land_nonneg; right; lia).
  split; [done|]. destruct (Z.eq_dec (Z.land x m) 0) as [->|Hne]; [lia|].
  assert (0 ≤ k) by (destruct (Z.neg_nonneg_cases k); [rewrite Z.pow_neg_r in Hm by done; lia|done]).
  destruct (Z.eq_dec m 0) as [->|Hm0]; [rewrite Z.land_0_r in *; lia|].
  apply Z.log2_lt_pow2; [lia|].
  destruct (Z.ltb_spec (Z.log2 (Z.land x m)) k) as [|Hge]; [done|]. exfalso.
  pose proof (Z.bit_log2 (Z.land x m)) as Hb. rewrite Z.land_spec in Hb.
  assert (Z.testbit m (Z.log2 (Z.land x m)) = false) as E.
  { apply Z.bits_above_log2; [lia|]. assert (Z.log2 m < k) by (apply Z.log2_lt_pow2; lia). lia. }
  rewrite E, andb_false_r in Hb. discriminate Hb. lia.
Qed.

(** ** The permutations are inverted *)

Definition wpair (p : Z * Z) : Prop := word p.1 ∧ word p.2.

(** [g] undoes [f] on words. *)
Definition undoes (g f : Z * Z → Z * Z) : Prop := ∀ p, wpair p → wpair (f p) ∧ g (f p) = p.

Lemma undoes_compose f1 g1 f2 g2 :
  undoes g1 f1 → undoes g2 f2 → undoes (λ p, g1 (g2 p)) (λ p, f2 (f1 p)).
Proof.
  intros H1 H2 p Hp. destruct (H1 p Hp) as [Hp1 E1]. destruct (H2 _ Hp1) as [Hp2 E2].
  split; [done|]. by rewrite E2.
Qed.

Lemma undoes_flip f g : undoes g f → undoes (λ p, flip (g (flip p))) (λ p, flip (f (flip p))).
Proof.
  intros H [x y] [Hx Hy]. destruct (H (y, x)) as [[H1 H2] E]; [by split|]. unfold flip in *.
  simpl. destruct (f (y, x)) as [a b]. simpl in *. rewrite E. by split; [split|].
Qed.

Lemma swap_bits_undoes k m : 0 ≤ k ≤ 32 → 0 ≤ m < 2 ^ (32 - k) →
  undoes (swap_bits k m) (swap_bits k m).
Proof.
  intros Hk Hm [X Y] [HX HY]. simpl in *.
  set (T := Z.land (Z.lxor (Z.shiftr X k) Y) m).
  assert (0 ≤ T < 2 ^ (32 - k)) as HT by (by apply land_mask_range).
  assert (u32 (Z.shiftl T k) = Z.shiftl T k) as Hsh.
  { apply u32_small. rewrite Z.shiftl_mul_pow2 by lia.
    assert (2 ^ 32 = 2 ^ (32 - k) * 2 ^ k) as ->.
    { rewrite <- Z.pow_add_r by lia. f_equal. lia. }
    pose proof (Z.pow_pos_nonneg 2 k). nia. }
  assert (word (Z.shiftl T k)) as HS by (rewrite <- Hsh; apply u32_range).
  assert (word T) as HTw.
  { unfold word. pose proof (Z.pow_le_mono_r 2 (32 - k) 32). lia. }
  split; [split; simpl; rewrite ?Hsh; by apply lxor_word|].
  rewrite !Hsh.
  assert (Z.land (Z.lxor (Z.shiftr (Z.lxor X (Z.shiftl T k)) k) (Z.lxor Y T)) m = T) as ->.
  { rewrite Z.shiftr_lxor, Z.shiftr_shiftl_l, Z.sub_diag, Z.shiftl_0_r by lia.
    rewrite (Z.lxor_comm Y T), Z.lxor_assoc, <- (Z.lxor_assoc T T Y), Z.lxor_nilpotent.
    by rewrite Z.lxor_0_l. }
  by rewrite Hsh, !Z.lxor_assoc, !Z.lxor_nilpotent, !Z.lxor_0_r.
Qed.

(** [T = (X ^ Y) & mask; X ^= T; Y ^= T]. *)
Definition swap_same (m : Z) (p : Z * Z) : Z * Z :=
  (Z.lxor p.1 (Z.land (Z.lxor p.1 p.2) m), Z.lxor p.2 (Z.land (Z.lxor p.1 p.2) m)).

Lemma swap_same_undoes m : word m → undoes (swap_same m) (swap_same m).
Proof.
  intros Hm [X Y] [HX HY]. unfold swap_same. simpl in *. set (T := Z.land (Z.lxor X Y) m).
  assert (word T) by (by apply land_mask_range).
  split; [by split; apply lxor_word|].
  assert (Z.land (Z.lxor (Z.lxor X T) (Z.lxor Y T)) m = T) as ->.
  { rewrite (Z.lxor_comm Y T), Z.lxor_assoc, <- (Z.lxor_assoc T T Y), Z.lxor_nilpotent.
    by rewrite Z.lxor_0_l. }
  by rewrite !Z.lxor_assoc, !Z.lxor_nilpotent, !Z.lxor_0_r.
Qed.

Definition rotl1 (X : Z) : Z := ((X <<ᵤ 1) |ᵤ (X >>ᵤ 31)) &ᵤ 0xFFFFFFFF.
Definition rotr1 (X : Z) : Z := ((X <<ᵤ 31) |ᵤ (X >>ᵤ 1)) &ᵤ 0xFFFFFFFF.

Lemma rotl1_eq X : word X → rotl1 X = (X mod 2 ^ 31) * 2 + X / 2 ^ 31 ∧ word (rotl1 X).
Proof.
  intros HX. unfold rotl1. change 0xFFFFFFFF with (2 ^ 32 - 1). unfold word in *.
  rewrite land_mask, Z.shiftl_mul_pow2, Z.shiftr_div_pow2 by lia. unfold u32.
  pose proof (Z.div_mod X (2 ^ 31)). pose proof (Z.mod_pos_bound X (2 ^ 31)).
  assert (0 ≤ X / 2 ^ 31 < 2 ^ 1) by (split; [apply Z.div_pos; lia|apply Z.div_lt_upper_bound; lia]).
  assert ((X * 2 ^ 1) mod 2 ^ 32 = X mod 2 ^ 31 * 2 ^ 1) as ->.
  { symmetry. apply Z.mod_unique with (X / 2 ^ 31); lia. }
  rewrite Z.lor_comm, lor_high by lia. split; [rewrite Z.mod_small; lia|]. apply Z.mod_pos_bound. lia.
Qed.

Lemma rotr1_eq X : word X → rotr1 X = (X mod 2) * 2 ^ 31 + X / 2 ∧ word (rotr1 X).
Proof.
  intros HX. unfold rotr1. change 0xFFFFFFFF with (2 ^ 32 - 1). unfold word in *.
  rewrite land_mask, Z.shiftl_mul_pow2, Z.shiftr_div_pow2 by lia. unfold u32.
  change (2 ^ 1) with 2. pose proof (Z.div_mod X 2). pose proof (Z.mod_pos_bound X 2).
  assert (0 ≤ X / 2 < 2 ^ 31) by (split; [apply Z.div_pos; lia|apply Z.div_lt_upper_bound; lia]).
  assert ((X * 2 ^ 31) mod 2 ^ 32 = X mod 2 * 2 ^ 31) as ->.
  { symmetry. apply Z.mod_unique with (X / 2); lia. }
  rewrite Z.lor_comm, lor_high by lia. split; [rewrite Z.mod_small; lia|]. apply Z.mod_pos_bound. lia.
Qed.

Lemma rotate_undoes X : word X → rotr1 (rotl1 X) = X ∧ rotl1 (rotr1 X) = X.
Proof.
  intros HX. destruct (rotl1_eq X HX) as [El Hl]. destruct (rotr1_eq X HX) as [Er Hr].
  destruct (rotr1_eq _ Hl) as [-> _]. destruct (rotl1_eq _ Hr) as [-> _]. unfold word in *.
  pose proof (Z.div_mod X (2 ^ 31)). pose proof (Z.mod_pos_bound X (2 ^ 31)).
  assert (0 ≤ X / 2 ^ 31 < 2) by (split; [apply Z.div_pos; lia|apply Z.div_lt_upper_bound; lia]).
  pose proof (Z.div_mod X 2). pose proof (Z.mod_pos_bound X 2).
  assert (0 ≤ X / 2 < 2 ^ 31) by (split; [apply Z.div_pos; lia|apply Z.div_lt_upper_bound; lia]).
  rewrite El, Er. split.
  - rewrite (Z.add_comm (_ * 2)), Z_mod_plus, Z_div_plus, (Z.mod_small (X / 2 ^ 31)),
      (Z.div_small (X / 2 ^ 31)) by lia. lia.
  - rewrite (Z.add_comm (_ * 2 ^ 31)), Z_mod_plus, Z_div_plus, (Z.mod_small (X / 2)),
      (Z.div_small (X / 2)) by lia. lia.
Qed.

Lemma map_fst_undoes f g : (∀ X, word X → word (f X) ∧ g (f X) = X) →
  undoes (λ p, (g p.1, p.2)) (λ p, (f p.1, p.2)).
Proof. intros H [X Y] [HX HY]. simpl in *. destruct (H X HX) as [H1 ->]. by split; [split|]. Qed.

Lemma rotl1_undoes : undoes (λ p, (rotr1 p.1, p.2)) (λ p, (rotl1 p.1, p.2)).
Proof. apply map_fst_undoes. intros X HX. split; [by apply rotl1_eq|by apply rotate_undoes]. Qed.
Lemma rotr1_undoes : undoes (λ p, (rotl1 p.1, p.2)) (λ p, (rotr1 p.1, p.2)).
Proof. apply map_fst_undoes. intros X HX. split; [by apply rotr1_eq|by apply rotate_undoes]. Qed.

(** The two macros as chains of steps on pairs. *)
Definition on_left (f : Z → Z) (p : Z * Z) : Z * Z := (f p.1, p.2).
Definition on_flip (f : Z * Z → Z * Z) (p : Z * Z) : Z * Z := flip (f (flip p)).

Definition ip_steps (p : Z * Z) : Z * Z :=
  on_left rotl1 (swap_same 0xAAAAAAAA (on_flip (on_left rotl1)
    (on_flip (swap_bits 8 0x00FF00FF) (on_flip (swap_bits 2 0x33333333)
      (swap_bits 16 0x0000FFFF (swap_bits 4 0x0F0F0F0F p)))))).
Definition fp_steps (p : Z * Z) : Z * Z :=
  swap_bits 4 0x0F0F0F0F (swap_bits 16 0x0000FFFF (on_flip (swap_bits 2 0x33333333)
    (on_flip (swap_bits 8 0x00FF00FF) (on_flip (on_left rotr1)
      (swap_same 0xAAAAAAAA (on_left rotr1 p)))))).

(** Name the next result of [swap_bits]. *)
Ltac split_swap := unfold on_flip, flip; cbn [fst snd];
  match goal with |- context [swap_bits ?k ?m (?a, ?b)] =>
    destruct (swap_bits k m (a, b)) as [??] end; cbn [fst snd].

Lemma DES_IP_steps X Y : DES_IP X Y = ip_steps (X, Y).
Proof. unfold DES_IP, ip_steps. do 4 split_swap. reflexivity. Qed.

Lemma DES_FP_steps X Y : DES_FP X Y = fp_steps (X, Y).
Proof.
  unfold DES_FP, fp_steps, swap_same, on_left. unfold on_flip at 3, flip. cbn [fst snd].
  fold (rotr1 X). set (X1 := Z.lxor (rotr1 X) _). set (Y1 := Z.lxor Y _).
  fold (rotr1 Y1). clearbody X1. generalize (rotr1 Y1). intros Y2.
  do 3 split_swap. by destruct (swap_bits 4 _ _).
Qed.

Lemma steps_undo : undoes fp_steps ip_steps ∧ undoes ip_steps fp_steps.
Proof.
  pose proof (swap_bits_undoes 4 0x0F0F0F0F ltac:(lia) ltac:(lia)) as S1.
  pose proof (swap_bits_undoes 16 0x0000FFFF ltac:(lia) ltac:(lia)) as S2.
  pose proof (undoes_flip _ _ (swap_bits_undoes 2 0x33333333 ltac:(lia) ltac:(lia))) as S3.
  pose proof (undoes_flip _ _ (swap_bits_undoes 8 0x00FF00FF ltac:(lia) ltac:(lia))) as S4.
  pose proof (undoes_flip _ _ rotl1_undoes) as S5. pose proof (undoes_flip _ _ rotr1_undoes) as S5'.
  assert (word 0xAAAAAAAA) as Hm by (unfold word; lia).
  pose proof (swap_same_undoes _ Hm) as S6.
  pose proof rotl1_undoes as S7. pose proof rotr1_undoes as S7'. split.
  - exact (undoes_compose _ _ _ _ S1 (undoes_compose _ _ _ _ S2 (undoes_compose _ _ _ _ S3
      (undoes_compose _ _ _ _ S4 (undoes_compose _ _ _ _ S5 (undoes_compose _ _ _ _ S6 S7)))))).
  - exact (undoes_compose _ _ _ _ (undoes_compose _ _ _ _ (undoes_compose _ _ _ _
      (undoes_compose _ _ _ _ (undoes_compose _ _ _ _ (undoes_compose _ _ _ _ S7' S6) S5') S4) S3) S2) S1).
Qed.

(** [DES_FP] and [DES_IP] are inverse. *)
Lemma FP_IP : undoes (λ p, DES_FP p.1 p.2) (λ p, DES_IP p.1 p.2).
Proof.
  intros [X Y] Hp. cbn [fst snd]. rewrite DES_IP_steps, DES_FP_steps, <- surjective_pairing.
  by apply steps_undo.
Qed.

Lemma IP_FP : undoes (λ p, DES_IP p.1 p.2) (λ p, DES_FP p.1 p.2).
Proof.
  intros [X Y] Hp. cbn [fst snd]. rewrite DES_FP_steps, DES_IP_steps, <- surjective_pairing.
  by apply steps_undo.
Qed.

(** ** The rounds are inverted *)

Lemma table_get (l : list Z) x k : len l = 2 ^ k → 0 ≤ k → ∃ v, l.[x &ᵤ (2 ^ k - 1)] = Some v.
Proof.
  intros Hl Hk. apply arr_get_is_Some. rewrite Hl, land_mask by done.
  apply Z.mod_pos_bound. lia.
Qed.

(** Words of a table are words. *)
Lemma table_word l x v : forallb (λ y, (0 <=? y) && (y <? 2 ^ 32)) l = true →
  l.[x] = Some v → word v.
Proof.
  rewrite List.forallb_forall. intros H Hx. unfold arr_get in Hx.
  destruct (0 <=? x); [|done]. apply list_elem_of_lookup_2, list_elem_of_In, H in Hx.
  apply andb_prop in Hx as [H1 H2]. unfold word. lia.
Qed.

Lemma sbox_get (S : list Z) x :
  len S = 2 ^ 6 → forallb (λ y, (0 <=? y) && (y <? 2 ^ 32)) S = true →
  ∃ v, S.[x &ᵤ 0x3F] = Some v ∧ word v.
Proof.
  intros Hl Hw. destruct (table_get S x 6 Hl) as [v Hv]; [lia|]. exists v.
  change 0x3F with (2 ^ 6 - 1). split; [done|]. by eapply table_word.
Qed.

(** A round adds a word that depends on the subkeys and [X] alone. *)
Lemma DES_ROUND_feistel k1 k2 X :
  ∃ f, word f ∧ ∀ SK sk Y, SK.[sk] = Some k1 → SK.[sk + 1] = Some k2 →
    DES_ROUND SK sk X Y = Some (Y ^ᵤ f).
Proof.
  destruct (sbox_get SB8 (k1 ^ᵤ X)) as (s8 & E8 & W8); [done..|].
  destruct (sbox_get SB6 ((k1 ^ᵤ X) >>ᵤ 8)) as (s6 & E6 & W6); [done..|].
  destruct (sbox_get SB4 ((k1 ^ᵤ X) >>ᵤ 16)) as (s4 & E4 & W4); [done..|].
  destruct (sbox_get SB2 ((k1 ^ᵤ X) >>ᵤ 24)) as (s2 & E2 & W2); [done..|].
  set (T2 := k2 ^ᵤ ((X <<ᵤ 28) |ᵤ (X >>ᵤ 4))).
  destruct (sbox_get SB7 T2) as (s7 & E7 & W7); [done..|].
  destruct (sbox_get SB5 (T2 >>ᵤ 8)) as (s5 & E5 & W5); [done..|].
  destruct (sbox_get SB3 (T2 >>ᵤ 16)) as (s3 & E3 & W3); [done..|].
  destruct (sbox_get SB1 (T2 >>ᵤ 24)) as (s1 & E1 & W1); [done..|].
  exists ((s8 ^ᵤ s6 ^ᵤ s4 ^ᵤ s2) ^ᵤ (s7 ^ᵤ s5 ^ᵤ s3 ^ᵤ s1)).
  split; [repeat apply lxor_word; done|]. intros SK sk Y Hk1 Hk2. unfold DES_ROUND.
  rewrite Hk1. cbv zeta. rewrite E8, E6, E4, E2, Hk2. fold T2. rewrite E7, E5, E3, E1.
  by rewrite !Z.lxor_assoc.
Qed.

Definition feistel (k : Z * Z) (X : Z) : Z :=
  default 0 (DES_ROUND [k.1; k.2] 0 X 0).

Lemma DES_ROUND_eq SK sk k1 k2 X Y : SK.[sk] = Some k1 → SK.[sk + 1] = Some k2 →
  DES_ROUND SK sk X Y = Some (Y ^ᵤ feistel (k1, k2) X).
Proof.
  intros H1 H2. destruct (DES_ROUND_feistel k1 k2 X) as (f & _ & Hf).
  unfold feistel. cbn [fst snd]. rewrite (Hf SK sk Y) by done. rewrite (Hf [k1; k2] 0 0) by done.
  simpl. by rewrite Z.lxor_0_l.
Qed.

Lemma feistel_word k X : word (feistel k X).
Proof.
  destruct k as [k1 k2]. destruct (DES_ROUND_feistel k1 k2 X) as (f & Hw & Hf).
  unfold feistel. cbn [fst snd]. rewrite (Hf [k1; k2] 0 0) by done. simpl. by rewrite Z.lxor_0_l.
Qed.

(** One round and the exchange of the names. *)
Definition step (p : Z * Z) (k : Z * Z) : Z * Z := (p.2, p.1 ^ᵤ feistel k p.2).

Lemma steps_word ks : ∀ p, wpair p → wpair (foldl step p ks).
Proof.
  induction ks as [|k ks IH]; intros p Hp; [done|]. simpl. apply IH. destruct Hp as [H1 H2].
  split; [done|]. apply lxor_word; [done|apply feistel_word].
Qed.

Lemma step_back p k : step (flip (step p k)) k = flip p.
Proof. unfold step, flip. simpl. by rewrite Z.lxor_assoc, Z.lxor_nilpotent, Z.lxor_0_r. Qed.

Lemma steps_back ks : ∀ p, foldl step (flip (foldl step p ks)) (reverse ks) = flip p.
Proof.
  induction ks as [|k ks IH]; intros p; [done|].
  rewrite reverse_cons, foldl_snoc. cbn [foldl]. rewrite IH. apply step_back.
Qed.

(** The array of subkeys holds the pairs in order. *)
Definition flat (ks : list (Z * Z)) : list Z := concat (map (λ k, [k.1; k.2]) ks).

Lemma flat_get ks j k : ks !! j = Some k →
  (flat ks).[2 * Z.of_nat j] = Some k.1 ∧ (flat ks).[2 * Z.of_nat j + 1] = Some k.2.
Proof.
  intros H.
  replace (2 * Z.of_nat j) with (Z.of_nat (2 * j)) by lia.
  replace (Z.of_nat (2 * j) + 1) with (Z.of_nat (S (2 * j))) by lia. rewrite !arr_get_of_nat.
  revert ks H. induction j as [|j IH]; intros [|k' ks] H; try done.
  - by injection H as ->.
  - replace (2 * S j)%nat with (S (S (2 * j))) by lia. by apply IH.
Qed.

Lemma des_rounds_steps ks X Y : length ks = 16%nat →
  des_rounds (flat ks) X Y = Some (foldl step (X, Y) ks).
Proof.
  intros Hl. unfold des_rounds.
  destruct (for_range_inv (λ i p, p = foldl step (X, Y) (take (Z.to_nat (2 * i)) ks)) 0 8
    (λ i '(X, Y), X ← DES_ROUND (flat ks) (4 * i) Y X;
                  Y ← DES_ROUND (flat ks) (4 * i + 2) X Y; Some (X, Y)) (X, Y))
    as (p & -> & ->); [lia|done| |].
  - intros i [X1 Y1] Hi Hp.
    destruct (lookup_lt_is_Some_2 ks (Z.to_nat (2 * i))) as [k Hk]; [lia|].
    destruct (lookup_lt_is_Some_2 ks (S (Z.to_nat (2 * i)))) as [k' Hk']; [lia|].
    pose proof (flat_get _ _ _ Hk) as [E1 E2]. pose proof (flat_get _ _ _ Hk') as [E3 E4].
    replace (2 * Z.of_nat (Z.to_nat (2 * i))) with (4 * i) in * by lia.
    replace (2 * Z.of_nat (S (Z.to_nat (2 * i)))) with (4 * i + 2) in * by lia.
    rewrite (DES_ROUND_eq _ _ _ _ _ _ E1 E2), (DES_ROUND_eq _ _ _ _ _ _ E3 E4).
    eexists. split; [done|].
    replace (Z.to_nat (2 * (i + 1))) with (S (S (Z.to_nat (2 * i)))) by lia.
    rewrite (take_S_r _ _ _ Hk'), (take_S_r _ _ _ Hk), !foldl_snoc, <- Hp.
    unfold step. simpl. by rewrite <- !surjective_pairing.
  - do 2 f_equal. apply take_ge. simpl. lia.
Qed.

(** ** Words and bytes *)

Lemma GET_bytes a b c d s i t : bytes [a; b; c; d] → i = len s →
  GET_UINT32 (s ++ [a; b; c; d] ++ t) i = Some (a * 2 ^ 24 + b * 2 ^ 16 + c * 2 ^ 8 + d)
  ∧ word (a * 2 ^ 24 + b * 2 ^ 16 + c * 2 ^ 8 + d).
Proof.
  intros Hb ->. unfold bytes in Hb. rewrite !Forall_cons in Hb.
  destruct Hb as (Ha & Hb & Hc & Hd & _). split; [|unfold word; lia]. unfold GET_UINT32.
  assert (∀ k, 0 ≤ k → (s ++ [a; b; c; d] ++ t).[len s + k] = ([a; b; c; d] ++ t).[k]) as E.
  { intros k Hk. rewrite !arr_get_nonneg by (unfold len; lia). unfold len.
    rewrite lookup_app_r by lia. f_equal. lia. }
  rewrite <- (Z.add_0_r (len s)) at 1. rewrite !E by lia. unfold arr_get. simpl.
  rewrite !u32_small by (rewrite Z.shiftl_mul_pow2 by lia; lia). by rewrite lor4.
Qed.

Lemma PUT_bytes n : word n → ∃ a b c d, PUT_UINT32 n = [a; b; c; d] ∧ bytes [a; b; c; d] ∧
  n = a * 2 ^ 24 + b * 2 ^ 16 + c * 2 ^ 8 + d.
Proof.
  intros Hn. unfold PUT_UINT32. do 4 eexists. split; [done|]. split.
  { repeat constructor; apply u8_range. }
  unfold u8, word in *. rewrite !Z.shiftr_div_pow2 by lia.
  replace (n / 2 ^ 16) with (n / 2 ^ 8 / 2 ^ 8) by (by rewrite Z.div_div by lia).
  replace (n / 2 ^ 24) with (n / 2 ^ 8 / 2 ^ 8 / 2 ^ 8) by (by rewrite !Z.div_div by lia).
  rewrite (Z.mod_small (n / 2 ^ 8 / 2 ^ 8 / 2 ^ 8)); cycle 1.
  { split; [repeat apply Z.div_pos; lia|]. repeat (apply Z.div_lt_upper_bound; [lia|]). lia. }
  pose proof (Z.div_mod n (2 ^ 8)). pose proof (Z.div_mod (n / 2 ^ 8) (2 ^ 8)).
  pose proof (Z.div_mod (n / 2 ^ 8 / 2 ^ 8) (2 ^ 8)). lia.
Qed.

Lemma PUT_of_bytes a b c d : bytes [a; b; c; d] →
  PUT_UINT32 (a * 2 ^ 24 + b * 2 ^ 16 + c * 2 ^ 8 + d) = [a; b; c; d].
Proof.
  intros Hb. unfold bytes in Hb. rewrite !Forall_cons in Hb. destruct Hb as (Ha & Hb & Hc & Hd & _).
  unfold PUT_UINT32, u8. rewrite !Z.shiftr_div_pow2 by lia.
  repeat f_equal.
  - rewrite Z.mod_small; [|split; [apply Z.div_pos; lia|apply Z.div_lt_upper_bound; lia]].
    symmetry. apply Z.div_unique with (b * 2 ^ 16 + c * 2 ^ 8 + d); lia.
  - replace (_ / 2 ^ 16) with (a * 2 ^ 8 + b).
    + rewrite Z.add_comm, Z_mod_plus by lia. by apply Z.mod_small.
    + apply Z.div_unique with (c * 2 ^ 8 + d); lia.
  - replace (_ / 2 ^ 8) with (c + (a * 2 ^ 8 + b) * 2 ^ 8).
    + rewrite Z_mod_plus by lia. by apply Z.mod_small.
    + apply Z.div_unique with d; lia.
  - symmetry. apply Z.mod_unique with (a * 2 ^ 16 + b * 2 ^ 8 + c); lia.
Qed.

(** ** The block cipher is inverted *)

(** The eight bytes of two words. *)
Definition put (p : Z * Z) : list Z := PUT_UINT32 p.1 ++ PUT_UINT32 p.2.

Lemma put_words c : bytes c → len c = 8 → ∃ p, wpair p ∧ c = put p.
Proof.
  intros Hb Hl. assert (length c = 8%nat) as Hl' by (unfold len in Hl; lia).
  do 8 (destruct c as [|? c]; [discriminate Hl'|]). destruct c; [|discriminate Hl'].
  unfold bytes in Hb. rewrite !Forall_cons in Hb.
  destruct Hb as (H1 & H2 & H3 & H4 & H5 & H6 & H7 & H8 & _).
  assert (bytes [z; z0; z1; z2]) as Ha by (unfold bytes; by rewrite !Forall_cons).
  assert (bytes [z3; z4; z5; z6]) as Hb by (unfold bytes; by rewrite !Forall_cons).
  exists (z * 2 ^ 24 + z0 * 2 ^ 16 + z1 * 2 ^ 8 + z2, z3 * 2 ^ 24 + z4 * 2 ^ 16 + z5 * 2 ^ 8 + z6).
  split; [split; simpl; unfold word; lia|]. unfold put. simpl fst. simpl snd.
  by rewrite !PUT_of_bytes.
Qed.

Lemma put_bytes p : wpair p → bytes (put p) ∧ len (put p) = 8.
Proof.
  intros _. split; [|done]. unfold put, PUT_UINT32. repeat constructor; apply u8_range.
Qed.

Lemma get_put p rest : wpair p →
  GET_UINT32 (put p ++ rest) 0 = Some p.1 ∧ GET_UINT32 (put p ++ rest) 4 = Some p.2.
Proof.
  intros [H1 H2]. unfold put.
  destruct (PUT_bytes _ H1) as (a & b & c & d & -> & Hb1 & ->).
  destruct (PUT_bytes _ H2) as (a' & b' & c' & d' & -> & Hb2 & ->). split.
  - apply (GET_bytes a b c d [] 0 ([a'; b'; c'; d'] ++ rest)); done.
  - apply (GET_bytes a' b' c' d' [a; b; c; d] 4 rest); done.
Qed.

Definition crypt_words (ks : list (Z * Z)) (p : Z * Z) : Z * Z :=
  let q := flip (foldl step (DES_IP p.1 p.2) ks) in DES_FP q.1 q.2.

Lemma crypt_words_word ks p : wpair p → wpair (crypt_words ks p).
Proof.
  intros Hp. unfold crypt_words. apply IP_FP. pose proof (steps_word ks _ (proj1 (FP_IP p Hp))) as [??].
  by split.
Qed.

Lemma crypt_words_inverse ks p : wpair p →
  crypt_words (reverse ks) (crypt_words ks p) = p.
Proof.
  intros Hp. unfold crypt_words at 1. unfold crypt_words.
  destruct (FP_IP p Hp) as [Hw E].
  pose proof (steps_word ks _ Hw) as [H1 H2]. set (q := foldl step _ ks) in *.
  assert (wpair (flip q)) as Hq by (by split).
  rewrite (proj2 (IP_FP _ Hq)). subst q. rewrite steps_back.
  exact E.
Qed.

Lemma des_crypt_put ks p rest : length ks = 16%nat → wpair p →
  des_crypt (flat ks) (put p ++ rest) = Some (put (crypt_words ks p)).
Proof.
  intros Hl Hp. unfold des_crypt. destruct (get_put p rest Hp) as [-> ->].
  unfold crypt_words. destruct (DES_IP p.1 p.2) as [X Y]. rewrite des_rounds_steps by done.
  destruct (foldl step (X, Y) ks) as [X' Y']. unfold flip. cbn [fst snd].
  destruct (DES_FP Y' X') as [a b]. done.
Qed.

(** The cipher on eight bytes, and that its inverse takes the subkeys in
    reverse order. *)
Definition cipher (ks : list (Z * Z)) (c : list Z) : list Z := default [] (des_crypt (flat ks) c).

Lemma cipher_spec ks c : length ks = 16%nat → bytes c → len c = 8 →
  (∀ rest, des_crypt (flat ks) (c ++ rest) = Some (cipher ks c)) ∧
  bytes (cipher ks c) ∧ len (cipher ks c) = 8 ∧ cipher (reverse ks) (cipher ks c) = c.
Proof.
  intros Hl Hb Hc. destruct (put_words c Hb Hc) as (p & Hp & ->). unfold cipher.
  rewrite <- (app_nil_r (put p)). rewrite (des_crypt_put ks p []) by done. cbn [from_option id].
  pose proof (crypt_words_word ks p Hp) as Hw.
  split; [|split; [by apply put_bytes|split; [done|]]].
  - intros rest. rewrite app_nil_r. by apply des_crypt_put.
  - rewrite <- (app_nil_r (put (crypt_words ks p))).
    rewrite des_crypt_put by (done || by rewrite length_reverse). cbn [from_option id].
    rewrite crypt_words_inverse by done. by rewrite app_nil_r.
Qed.

(** ** The key schedule makes sixteen pairs *)

Lemma half_get table X s k : len table = 2 ^ 4 → ∃ v, half table X s k = Some v.
Proof.
  intros H. unfold half. destruct (table_get table (X >>ᵤ s) 4 H) as [v Hv]; [lia|].
  change 0xF with (2 ^ 4 - 1). rewrite Hv. by eexists.
Qed.

Lemma pc1_get X : (∃ v, pc1_left X = Some v) ∧ (∃ v, pc1_right X = Some v).
Proof.
  unfold pc1_left, pc1_right. split;
  repeat match goal with |- context [half ?t X ?s ?k] =>
    let v := fresh "v" in destruct (half_get t X s k eq_refl) as [v ->] end; by eexists.
Qed.

Lemma subkeys_two X Y : ∃ a b, subkeys X Y = [a; b].
Proof. by do 2 eexists. Qed.

Lemma des_main_ks_flat key : bytes key → len key = 8 →
  ∃ ks, des_main_ks key = Some (flat ks) ∧ length ks = 16%nat.
Proof.
  intros Hb Hl. destruct (put_words key Hb Hl) as (p & Hp & ->). unfold des_main_ks.
  rewrite <- (app_nil_r (put p)). destruct (get_put p [] Hp) as [-> ->]. cbv zeta.
  match goal with |- context [pc1_left ?x] => destruct (proj1 (pc1_get x)) as [X0 ->] end.
  match goal with |- context [pc1_right ?x] => destruct (proj2 (pc1_get x)) as [Y0 ->] end.
  match goal with |- context [for_range 0 16 ?body ?s0] =>
    destruct (for_range_inv (λ i '((X, Y, SK) : Z * Z * list Z),
      ∃ ks, SK = flat ks ∧ Z.of_nat (length ks) = i) 0 16 body s0)
      as ([[X Y] SK] & -> & ks & -> & Hks) end; [lia|by exists []| |].
  - intros i [[X Y] SK] _ (ks & -> & Hks). eexists. split; [done|].
    destruct (subkeys_two (ks_rotate i X) (ks_rotate i Y)) as (a & b & ->).
    exists (ks ++ [(a, b)]). unfold flat. rewrite List.map_app, List.concat_app, length_app.
    split; [done|]. simpl. lia.
  - exists ks. split; [done|lia].
Qed.

(** [desdecode] reads the subkeys backwards, pair by pair. *)
Lemma reverse_subkeys ks : length ks = 16%nat →
  for_step 0 32 2 (λ i SK, a ← (flat ks).[30 - i]; b ← (flat ks).[31 - i]; Some (SK ++ [a; b])) []
  = Some (flat (reverse ks)).
Proof.
  intros Hl. do 16 (destruct ks as [|[? ?] ks]; [discriminate Hl|]).
  destruct ks; [reflexivity|discriminate Hl].
Qed.

(** ** Strings *)

(** Eight bytes. *)
Definition chunk (c : list Z) : Prop := bytes c ∧ len c = 8.

Lemma len_concat8 cs : Forall chunk cs → len (concat cs) = 8 * len cs.
Proof.
  induction 1 as [|c cs [_ Hc] _ IH]; [done|]. simpl. rewrite len_app, len_cons, IH, Hc. lia.
Qed.

Lemma crypt_blocks_spec ks cs r hi n buf :
  length ks = 16%nat → Forall chunk cs → filled n buf [] → 8 * len cs ≤ n →
  (hi + 7) / 8 = len cs →
  ∃ buf', crypt_blocks (flat ks) (concat cs ++ r) hi buf = Some (8 * len cs, buf')
          ∧ filled n buf' (concat (map (cipher ks) cs)).
Proof.
  intros Hks HF Hbuf Hn Hhi. unfold crypt_blocks.
  set (body := λ i '(_, buffer), out ← des_crypt (flat ks) (advance i (concat cs ++ r));
                buffer ← mem_write buffer i (map Some out); Some (i + 8, buffer)).
  destruct (for_step_inv (λ j '((i, buf) : Z * block), i = 8 * j ∧
      filled n buf (concat (map (cipher ks) (take (Z.to_nat j) cs)))) 0 hi 8 body (0, buf) (len cs))
    as ([i buf'] & -> & -> & Hf); [|lia|apply len_nonneg|by split| |].
  - rewrite <- Hhi. f_equal. lia.
  - intros j [i buf1] Hj (-> & Hf). rewrite Z.add_0_l. unfold body.
    destruct (lookup_lt_is_Some_2 cs (Z.to_nat j)) as [c Hc]; [unfold len in Hj; lia|].
    assert (Forall chunk (take (Z.to_nat j) cs)) as HF1 by (by apply Forall_take).
    pose proof (Forall_lookup_1 _ _ _ _ HF Hc) as [Hcb Hcl].
    pose proof (take_drop_middle cs _ _ Hc) as E.
    assert (len (take (Z.to_nat j) cs) = j) as Hlt.
    { unfold len in *. rewrite length_take. lia. }
    assert (concat cs ++ r = concat (take (Z.to_nat j) cs) ++
              c ++ concat (drop (S (Z.to_nat j)) cs) ++ r) as Ecs.
    { rewrite <- E at 1. rewrite List.concat_app. cbn [concat]. by rewrite <- !app_assoc. }
    rewrite Ecs.
    rewrite advance_app by (rewrite len_concat8 by done; lia).
    destruct (cipher_spec ks c Hks Hcb Hcl) as (-> & Hob & Hol & _).
    assert (len (concat (map (cipher ks) (take (Z.to_nat j) cs))) = 8 * j) as Hout.
    { rewrite len_concat8; [by rewrite len_map, Hlt|]. apply Forall_map.
      eapply Forall_impl; [exact HF1|]. intros c' [? ?]. split; by apply cipher_spec. }
    destruct (filled_write n buf1 _ (cipher ks c) (j * 8) Hf) as (buf2 & -> & Hf2); [lia|lia|].
    eexists. split; [done|]. split; [lia|].
    replace (Z.to_nat (j + 1)) with (S (Z.to_nat j)) by lia.
    rewrite (take_S_r _ _ _ Hc), List.map_app, List.concat_app. cbn [map concat].
    by rewrite app_nil_r.
  - eexists. split; [done|]. rewrite take_ge in Hf; [done|]. unfold len. lia.
Qed.

(** A text is some chunks and less than one. *)
Lemma chunks_of text : bytes text →
  ∃ cs r, text = concat cs ++ r ∧ Forall chunk cs ∧ bytes r ∧ len r < 8.
Proof.
  remember (length text) as n eqn:E. assert (length text ≤ n)%nat as Hn by lia. clear E.
  revert text Hn. induction n as [|n IH]; intros text Hn Hb.
  - exists [], text. destruct text; [|simpl in Hn; lia]. done.
  - destruct (decide (length text < 8)%nat) as [Hlt|Hge].
    + exists [], text. split; [done|]. split; [done|]. split; [done|]. unfold len. lia.
    + rewrite <- (take_drop 8 text) in Hb. apply Forall_app in Hb as [Hb1 Hb2].
      destruct (IH (drop 8 text)) as (cs & r & E & HF & Hr & Hl); [rewrite length_drop; lia|done|].
      exists (take 8 text :: cs), r. simpl concat. rewrite <- app_assoc, <- E, take_drop.
      split; [done|]. split; [|done]. constructor; [|done]. split; [done|].
      unfold len. rewrite length_take. lia.
Qed.

(** ** Padding *)

Definition pad (mode n : Z) : list Z :=
  if mode =? PADDING_MODE_ISO7816_4 then 0x80 :: replicate (Z.to_nat (n - 1)) 0
  else replicate (Z.to_nat n) n.

Definition mode_ok (mode : Z) : Prop :=
  mode = PADDING_MODE_ISO7816_4 ∨ mode = PADDING_MODE_PKCS7.

Lemma mode_ok_check mode : mode_ok mode → check_padding_mode mode = Some (Return ()).
Proof. by intros [-> | ->]. Qed.

Lemma pad_chunk mode r : mode_ok mode → bytes r → len r < 8 → chunk (r ++ pad mode (8 - len r)).
Proof.
  intros Hm Hr Hl. pose proof (len_nonneg r). split.
  - apply Forall_app. split; [done|]. unfold pad. destruct (mode =? _).
    + constructor; [lia|]. apply Forall_replicate. lia.
    + apply Forall_replicate. lia.
  - rewrite len_app. unfold pad. destruct (mode =? _); rewrite ?len_cons, len_replicate; lia.
Qed.

Lemma map_replicate {A B} (f : A → B) n x : map f (replicate n x) = replicate n (f x).
Proof. induction n; [done|]. simpl. by f_equal. Qed.

Lemma add_padding_spec mode r : mode_ok mode → len r < 8 →
  add_padding r (len r) mode = Some (Return (map Some (r ++ pad mode (8 - len r)))).
Proof.
  intros Hm Hl. pose proof (len_nonneg r). unfold add_padding. rewrite mode_ok_check by done.
  rewrite (proj2 (Z.leb_gt _ _)) by done. rewrite mem_read_whole by (by rewrite len_map).
  assert (malloc 8 = replicate (Z.to_nat (len r)) None ++ replicate (Z.to_nat (8 - len r)) None) as ->.
  { unfold malloc. rewrite <- replicate_add. f_equal. lia. }
  rewrite mem_write_prefix by (by rewrite len_map, len_replicate).
  destruct Hm as [-> | ->]; unfold pad; cbn [Z.eqb PADDING_MODE_PKCS7 PADDING_MODE_ISO7816_4].
  - unfold padding_add_iso7816_4. rewrite arr_set_mem.
    replace (Z.to_nat (8 - len r)) with (S (Z.to_nat (7 - len r))) by lia. cbn [replicate].
    change (None :: ?l) with ([@None Z] ++ l).
    rewrite mem_write_app by (by rewrite ?len_map). rewrite app_assoc.
    rewrite <- (app_nil_r (replicate _ None)).
    rewrite mem_write_app; [|by rewrite len_app, len_map|by rewrite !len_replicate by lia].
    rewrite app_nil_r, <- app_assoc, map_app. cbn [map app]. rewrite map_replicate.
    replace (8 - len r - 1) with (7 - len r) by lia. done.
  - unfold padding_add_pkcs7. rewrite u8_small by lia.
    rewrite <- (app_nil_r (replicate _ None)).
    rewrite mem_write_app; [|by rewrite len_map|by rewrite !len_replicate by lia].
    by rewrite app_nil_r, map_app, map_replicate.
Qed.

Lemma load_filled n buf out i b : filled n buf out → out.[i] = Some b → load buf i = Some b.
Proof.
  intros [_ [rest ->]] H. pose proof (arr_get_Some _ _ _ H) as [H0 H1].
  rewrite arr_get_nonneg in H by done. unfold load. rewrite arr_get_nonneg by done.
  rewrite lookup_app_l by (rewrite length_map; unfold len in H1; lia).
  rewrite list_lookup_fmap. by rewrite H.
Qed.

Lemma iso7816_loop_spec n buf out k : ∀ last padding,
  filled n buf out → out.[last - Z.of_nat k] = Some 0x80 →
  (∀ i, last - Z.of_nat k < i ≤ last → out.[i] = Some 0) →
  ∀ m, (k < m)%nat → iso7816_loop m buf last padding = Some (padding + Z.of_nat k).
Proof.
  induction k as [|k IH]; intros last padding Hf H80 H0 m Hm; (destruct m as [|m]; [lia|]); simpl.
  - rewrite (load_filled _ _ _ _ 0x80 Hf) by (by rewrite Z.sub_0_r in H80). simpl.
    by rewrite Z.add_0_r.
  - rewrite (load_filled _ _ _ _ 0 Hf) by (apply H0; lia). simpl.
    rewrite IH; [f_equal; lia|done| |intros i Hi; apply H0; lia|lia].
    by replace (last - 1 - Z.of_nat k) with (last - Z.of_nat (S k)) by lia.
Qed.

Lemma pkcs7_loop_spec n buf out p m : ∀ last,
  filled n buf out → (∀ i, last - Z.of_nat m ≤ i < last → out.[i] = Some p) →
  pkcs7_loop m buf last p = Some p.
Proof.
  induction m as [|m IH]; intros last Hf H; simpl; [done|].
  rewrite (load_filled _ _ _ _ p Hf) by (apply H; lia). rewrite Z.eqb_refl. apply IH; [done|].
  intros i Hi. apply H. lia.
Qed.

Lemma remove_padding_spec mode n buf text k :
  mode_ok mode → 1 ≤ k ≤ 8 → filled n buf (text ++ pad mode k) →
  remove_padding buf (len text + k - 1) mode = Some (Return k).
Proof.
  intros Hm Hk Hf. unfold remove_padding. rewrite mode_ok_check by done.
  assert (∀ i, 0 ≤ i → (text ++ pad mode k).[len text + i] = (pad mode k).[i]) as Hget.
  { intros i Hi. pose proof (len_nonneg text). rewrite !arr_get_nonneg by lia.
    rewrite lookup_app_r by (unfold len; lia). f_equal. unfold len. lia. }
  assert (∀ i (x : Z), 0 ≤ i < k → (replicate (Z.to_nat k) x).[i] = Some x) as Hrep.
  { intros i x Hi. rewrite arr_get_nonneg by lia. apply lookup_replicate_2. lia. }
  destruct Hm as [-> | ->]; unfold pad in *; cbn [Z.eqb PADDING_MODE_PKCS7 PADDING_MODE_ISO7816_4] in *.
  - unfold padding_remove_iso7816_4.
    rewrite (iso7816_loop_spec n buf _ (Z.to_nat (k - 1)) _ _ Hf); [do 2 f_equal; lia| | |lia].
    + replace (len text + k - 1 - Z.of_nat (Z.to_nat (k - 1))) with (len text + 0) by lia.
      by rewrite Hget.
    + intros i Hi. replace i with (len text + (i - len text)) by lia. rewrite Hget by lia.
      rewrite arr_get_nonneg by lia.
      replace (Z.to_nat (i - len text)) with (S (Z.to_nat (i - len text - 1))) by lia.
      cbn [lookup list_lookup]. apply lookup_replicate_2. lia.
  - assert (∀ i, len text ≤ i < len text + k → (text ++ replicate (Z.to_nat k) k).[i] = Some k) as H.
    { intros i Hi. replace i with (len text + (i - len text)) by lia. rewrite Hget by lia.
      apply Hrep. lia. }
    unfold padding_remove_pkcs7. rewrite (load_filled _ _ _ _ k Hf) by (apply H; lia).
    rewrite (pkcs7_loop_spec n buf _ k _ _ Hf); [done|]. intros i Hi. apply H. lia.
Qed.

Lemma round_up8 x m s : x = 8 * m + s → 0 ≤ s < 8 → Z.land (x + 8) (Z.lnot 7) = 8 * (m + 1).
Proof.
  intros -> Hs. rewrite <- Z.ldiff_land. change 7 with (Z.ones 3).
  rewrite Z.ldiff_ones_r, Z.shiftr_div_pow2, Z.shiftl_mul_pow2 by lia. change (2 ^ 3) with 8.
  rewrite <- (Z.div_unique (8 * m + s + 8) 8 (m + 1) s); lia.
Qed.

Lemma small_buffer_filled n : 0 ≤ n → ∃ k, n ≤ k ∧ filled k (small_buffer n) [].
Proof.
  intros Hn. unfold small_buffer, SMALL_CHUNK. destruct (Z.ltb_spec 256 n).
  - exists n. split; [lia|by apply filled_malloc].
  - exists 256. split; [lia|by apply filled_malloc].
Qed.

Lemma len_cipher_map ks cs : length ks = 16%nat → Forall chunk cs →
  Forall chunk (map (cipher ks) cs).
Proof.
  intros Hks HF. apply Forall_map. eapply Forall_impl; [exact HF|].
  intros c [? ?]. split; by apply cipher_spec.
Qed.

(** What [desencode] returns. *)
Lemma ldesencode_spec key ks cs r mode :
  des_main_ks key = Some (flat ks) → length ks = 16%nat → len key = 8 →
  Forall chunk cs → bytes r → len r < 8 → mode_ok mode → len (concat cs ++ r) + 8 < 2 ^ 31 →
  ldesencode key (concat cs ++ r) mode =
    Some (Return (map Some (concat (map (cipher ks) (cs ++ [r ++ pad mode (8 - len r)]))))).
Proof.
  intros Hkey Hks Hkl HF Hr Hl Hm Hlen. unfold ldesencode, des_key.
  rewrite Hkl, Hkey. change (negb (8 =? 8)) with false. cbv iota zeta.
  pose proof (len_nonneg r). pose proof (len_nonneg cs).
  assert (len (concat cs ++ r) = 8 * len cs + len r) as El by (by rewrite len_app, len_concat8).
  rewrite (round_up8 _ (len cs) (len r)) by (done || lia).
  destruct (small_buffer_filled (8 * (len cs + 1))) as (n & Hn & Hbuf); [lia|].
  destruct (crypt_blocks_spec ks cs r (s32 (len (concat cs ++ r)) - 7) n _ Hks HF Hbuf)
    as (buf' & -> & Hf); [lia| |].
  { rewrite s32_small, El by lia. symmetry. apply Z.div_unique with (len r); lia. }
  rewrite advance_app by (by rewrite len_concat8).
  replace (len (concat cs ++ r) - 8 * len cs) with (len r) by lia.
  rewrite add_padding_spec by done. rewrite mapM_id_Some.
  destruct (pad_chunk mode r Hm Hr Hl) as [Hpb Hpl].
  destruct (cipher_spec ks _ Hks Hpb Hpl) as (Hc & _ & Hcl & _).
  specialize (Hc []). rewrite app_nil_r in Hc. rewrite Hc.
  pose proof (len_concat8 _ (len_cipher_map ks cs Hks HF)) as Hout. rewrite len_map in Hout.
  destruct (filled_write n buf' _ (cipher ks (r ++ pad mode (8 - len r))) (8 * len cs) Hf)
    as (buf2 & -> & Hf2); [lia|lia|].
  rewrite (filled_read n buf2 _ _ Hf2) by (rewrite len_app; lia).
  by rewrite (List.map_app (cipher ks)), List.concat_app, <- (app_nil_r (cipher ks (_ ++ _))) at 1.
Qed.

(** ** Properties *)

(** C27: [desdecode] with the same key and padding mode gives back what
    [desencode] was given, for every text shorter than 2^31 - 8 bytes and both
    paddings: the final permutation undoes the initial one, the rounds with
    the subkeys in reverse order undo the rounds, and the padding that is
    removed is the one that was added.  The encrypted text is the text padded
    to whole blocks, and no access is outside [tmp] or the userdata. *)
Theorem des_roundtrip key text mode :
  chunk key → bytes text → mode_ok mode → len text + 8 < 2 ^ 31 →
  ∃ enc, ldesencode key text mode = Some (Return (map Some enc)) ∧
    len enc = (len text / 8 + 1) * 8 ∧ bytes enc ∧
    ldesdecode key enc mode = Some (Return (map Some text)).
Proof.
  intros [Hkb Hkl] Hb Hm Hlen. destruct (des_main_ks_flat key Hkb Hkl) as (ks & Hkey & Hks).
  destruct (chunks_of text Hb) as (cs & r & -> & HF & Hr & Hl).
  eexists. split; [by apply ldesencode_spec|].
  pose proof (pad_chunk mode r Hm Hr Hl) as Hp.
  set (ts := cs ++ [r ++ pad mode (8 - len r)]).
  assert (Forall chunk ts) as Hts by (apply Forall_app; split; [done|by apply Forall_singleton]).
  pose proof (len_cipher_map ks ts Hks Hts) as Hes. pose proof (len_concat8 _ Hes) as Hel.
  rewrite len_map in Hel. pose proof (len_nonneg r). pose proof (len_nonneg cs).
  assert (len ts = len cs + 1) as Htl by (subst ts; by rewrite len_app).
  split.
  { rewrite Hel, Htl, len_app, len_concat8 by done.
    rewrite <- (Z.div_unique (8 * len cs + len r) 8 (len cs) (len r)); lia. }
  split.
  { clear -Hes. induction Hes as [|e es [He _] _ IH]; [constructor|]. by apply Forall_app. }
  unfold ldesdecode, des_key. rewrite Hkl, Hkey. change (negb (8 =? 8)) with false. cbv iota.
  rewrite reverse_subkeys by done. cbv zeta. rewrite Hel.
  change 7 with (2 ^ 3 - 1). rewrite land_mask by lia.
  replace (8 * len ts) with (len ts * 2 ^ 3) by lia. rewrite Z_mod_mult.
  rewrite (proj2 (Z.eqb_neq _ _)) by lia. cbv [orb truth negb Z.eqb].
  destruct (small_buffer_filled (len ts * 2 ^ 3)) as (n & Hn & Hbuf); [lia|].
  destruct (crypt_blocks_spec (reverse ks) (map (cipher ks) ts) [] (len ts * 2 ^ 3) n _
    ltac:(by rewrite length_reverse) Hes Hbuf) as (buf' & E & Hf).
  { rewrite len_map. lia. }
  { rewrite len_map. symmetry. apply Z.div_unique with 7; lia. }
  rewrite app_nil_r in E. rewrite E. clear E.
  assert (map (cipher (reverse ks)) (map (cipher ks) ts) = ts) as Ets.
  { rewrite List.map_map. clear -Hts Hks. induction Hts as [|c ts [Hc1 Hc2] _ IH]; [done|]. simpl.
    rewrite IH. f_equal. by apply cipher_spec. }
  rewrite Ets in Hf. subst ts. rewrite List.concat_app in Hf. cbn [concat] in Hf.
  rewrite app_nil_r, app_assoc in Hf.
  set (text := concat cs ++ r) in *.
  assert (len text = 8 * len cs + len r) as El by (subst text; by rewrite len_app, len_concat8).
  replace (len (cs ++ [r ++ pad mode (8 - len r)]) * 2 ^ 3 - 1)
    with (len text + (8 - len r) - 1) by lia.
  rewrite (remove_padding_spec mode n buf' text _ Hm) by (done || lia).
  rewrite (proj2 (Z.leb_gt _ _)), (proj2 (Z.ltb_ge _ _)) by lia. cbv [orb].
  replace (_ - (8 - len r)) with (len text) by lia.
  destruct Hf as [_ [rest ->]]. rewrite map_app, <- app_assoc.
  by rewrite mem_read_prefix by (by rewrite len_map).
Qed.

Definition demo_key : list Z := [0x13; 0x34; 0x57; 0x79; 0x9B; 0xBC; 0xDF; 0xF1].

Lemma demo_key_chunk : chunk demo_key.
Proof. split; [repeat constructor; lia|done]. Qed.

(** The published test vector of the cipher. *)
Example des_vector :
  (SK ← des_main_ks demo_key; des_crypt SK [0x01; 0x23; 0x45; 0x67; 0x89; 0xAB; 0xCD; 0xEF])
  = Some [0x85; 0xE8; 0x13; 0x54; 0x0F; 0x0A; 0xB4; 0x05].
Proof. vm_compute. reflexivity. Qed.

Lemma des_roundtrip_witness :
  ∃ enc, ldesencode demo_key [104; 101; 108; 108; 111; 32; 119; 111; 114] PADDING_MODE_PKCS7
           = Some (Return (map Some enc)) ∧
    len enc = 16 ∧ bytes enc ∧
    ldesdecode demo_key enc PADDING_MODE_PKCS7
      = Some (Return (map Some [104; 101; 108; 108; 111; 32; 119; 111; 114])).
Proof.
  apply (des_roundtrip demo_key [104; 101; 108; 108; 111; 32; 119; 111; 114] PADDING_MODE_PKCS7).
  - exact demo_key_chunk.
  - repeat constructor; lia.
  - right. reflexivity.
  - unfold len. simpl. lia.
Defined.

Lemma pkcs7_loop_overread n buf out p : filled n buf out → ∀ last m,
  (∀ i, 0 ≤ i < last → out.[i] = Some p) → 0 ≤ last → last < Z.of_nat m →
  pkcs7_loop m buf last p = None.
Proof.
  intros Hf last m. revert last. induction m as [|m IH]; intros last H H0 Hm; simpl; [lia|].
  destruct (Z.eq_dec last 0) as [->|Hne].
  - done.
  - rewrite (load_filled _ _ _ _ p Hf) by (apply H; lia). rewrite Z.eqb_refl.
    apply IH; [|lia|lia]. intros i Hi. apply H. lia.
Qed.

(** The padding of a decrypted text is not checked against its length:
    [padding_remove_pkcs7] walks back [*last - 1] bytes before its caller
    rejects a padding above 8.  For every key there is an encrypted text of one
    block, the one whose plain bytes are all 255, for which [desdecode] reads
    in front of its buffer. *)
Theorem des_pkcs7_overread key : chunk key →
  ∃ text, chunk text ∧ ldesdecode key text PADDING_MODE_PKCS7 = None.
Proof.
  intros [Hkb Hkl]. destruct (des_main_ks_flat key Hkb Hkl) as (ks & Hkey & Hks).
  set (plain := replicate 8 255).
  assert (chunk plain) as [Hpb Hpl] by (split; [apply Forall_replicate; lia|done]).
  destruct (cipher_spec ks plain Hks Hpb Hpl) as (_ & Hcb & Hcl & Hback).
  exists (cipher ks plain). split; [done|].
  unfold ldesdecode, des_key. rewrite Hkl, Hkey. change (negb (8 =? 8)) with false. cbv iota.
  rewrite reverse_subkeys by done. rewrite Hcl.
  change (truth (Z.land 8 7) || (8 =? 0)) with false. cbv iota zeta.
  assert (Forall chunk [cipher ks plain]) as HF by (by apply Forall_singleton).
  destruct (crypt_blocks_spec (reverse ks) [cipher ks plain] [] 8 256 (small_buffer 8)
    ltac:(by rewrite length_reverse) HF (filled_malloc 256 ltac:(lia))) as (buf' & E & Hf);
    [done|done|]. cbn [concat] in E. rewrite !app_nil_r in E. rewrite E.
  cbn [map concat] in Hf. rewrite Hback, app_nil_r in Hf.
  unfold remove_padding. rewrite mode_ok_check by (by right).
  change (PADDING_MODE_PKCS7 =? PADDING_MODE_ISO7816_4) with false. cbv iota.
  unfold padding_remove_pkcs7. rewrite (load_filled _ _ _ _ 255 Hf) by done.
  rewrite (pkcs7_loop_overread _ _ _ _ Hf); [done| |done|done].
  intros i Hi. subst plain. rewrite arr_get_nonneg by lia. apply lookup_replicate_2. lia.
Qed.

Lemma des_pkcs7_overread_witness :
  ∃ text, chunk text ∧ ldesdecode demo_key text PADDING_MODE_PKCS7 = None.
Proof. apply (des_pkcs7_overread demo_key). exact demo_key_chunk. Defined.
