(* ===== verification/Crypt.v ===== *)
(** * Hashes, keys and text encodings: lualib-src/lua-crypt.c

    The string functions of [skynet.crypt]: [hashkey], [hmac64], the
    Diffie-Hellman exchange modulo the largest 64-bit prime, hexadecimal and
    base64 text, [xor_str].  A Lua string is a list of bytes; a C buffer is a
    block whose bounds are checked at every access, and what
    [lua_pushlstring] copies out of it is the result. *)

From Stdlib Require Import Zpow_facts.
From S2P Require Import Prelude Des.

(** ** hashkey *)

Definition Hash (str : list Z) (sz : Z) : option (list Z) :=
  '(djb_hash, js_hash) ← for_range 0 sz (λ i '(djb_hash, js_hash),
    c ← str.[i];
    let c := u8 c in
    let djb_hash := u32 (djb_hash + u32 ((djb_hash <<ᵤ 5) + c)) in
    let js_hash := js_hash ^ᵤ u32 ((js_hash <<ᵤ 5) + c + (js_hash >>ᵤ 2)) in
    Some (djb_hash, js_hash)) (5381, 1315423911);
  Some [djb_hash &ᵤ 0xff; (djb_hash >>ᵤ 8) &ᵤ 0xff; (djb_hash >>ᵤ 16) &ᵤ 0xff; (djb_hash >>ᵤ 24) &ᵤ 0xff;
        js_hash &ᵤ 0xff; (js_hash >>ᵤ 8) &ᵤ 0xff; (js_hash >>ᵤ 16) &ᵤ 0xff; (js_hash >>ᵤ 24) &ᵤ 0xff].

Definition lhashkey (key : list Z) : option (list Z) := Hash key (s32 (len key)).

(** The eight values of [random()]. *)
Definition lrandomkey (rnd : list Z) : option (list Z) :=
  '(tmp, x) ← for_range 0 8 (λ i '(tmp, x),
    r ← rnd.[i];
    let b := r &ᵤ 0xff in
    Some (tmp ++ [b], x ^ᵤ b)) ([], 0);
  if x =? 0 then
    t0 ← tmp.[0];
    tmp.[0 <- t0 |ᵤ 1]
  else Some tmp.

(** ** Hexadecimal *)

Definition hex : list Z :=
  [48; 49; 50; 51; 52; 53; 54; 55; 56; 57; 97; 98; 99; 100; 101; 102].

Definition ltohex (text : list Z) : option block :=
  let sz := len text in
  let buffer := if SMALL_CHUNK / 2 <? sz then malloc (sz * 2) else malloc SMALL_CHUNK in
  buffer ← for_range 0 sz (λ i buffer,
    t ← text.[i];
    h ← hex.[t >>ᵤ 4];
    l ← hex.[t &ᵤ 0xf];
    buffer ← buffer.[i * 2 <- Some h];
    buffer.[i * 2 + 1 <- Some l]) buffer;
  mem_read buffer 0 (sz * 2).

(** A [char] is signed. *)
Definition s8 (x : Z) : Z := (x + 2 ^ 7) mod 2 ^ 8 - 2 ^ 7.

(** [HEX(v, c)] with a [uint8_t v]. *)
Definition HEX (c : Z) : Z :=
  let tmp := s8 c in
  if (48 <=? tmp) && (tmp <=? 57) then u8 (tmp - 48) else u8 (tmp - 97 + 10).

Definition lfromhex (text : list Z) : option (result block) :=
  let sz := len text in
  if truth (Z.land sz 1) then Some (Error "Invalid hex text size")
  else
    let buffer := if SMALL_CHUNK * 2 <? sz then malloc (sz / 2) else malloc SMALL_CHUNK in
    r ← for_step 0 sz 2 (λ i r,
      buffer ⇐ Some r;
      c ← text.[i];
      let hi := HEX c in
      c ← text.[i + 1];
      let low := HEX c in
      if (16 <? hi) || (16 <? low) then Some (Error "Invalid hex text")
      else
        buffer ← buffer.[i / 2 <- Some (u8 (hi <<ₛ 4 |ᵤ low))];
        Some (Return buffer)) (Return buffer);
    buffer ⇐ Some r;
    str ← mem_read buffer 0 (sz / 2);
    Some (Return str).

(** ** Diffie-Hellman *)

Definition P : Z := 0xffffffffffffffc5.
Definition G : Z := 5.

(** One round of [while (b)] on [(a, b, m)]. *)
Definition mul_step (st : Z * Z * Z) : Z * Z * Z :=
  let '(a, b, m) := st in
  let m := if truth (Z.land b 1) then
             let t := u64 (P - a) in
             if t <=? m then u64 (m - t) else u64 (m + a)
           else m in
  let a := if u64 (P - a) <=? a then u64 (u64 (a * 2) - P) else u64 (a * 2) in
  (a, Z.shiftr b 1, m).

Definition mul_mod_p (a b : Z) : option Z :=
  '(_, _, m) ← while_loop 66 (λ '(_, b, _), truth b) (λ st, Some (mul_step st)) (a, b, 0);
  Some m.

Fixpoint pow_mod_p (fuel : nat) (a b : Z) : option Z :=
  match fuel with
  | O => None
  | S fuel =>
      if b =? 1 then Some a
      else
        t ← pow_mod_p fuel a (Z.shiftr b 1);
        t ← mul_mod_p t t;
        if truth (b mod 2) then mul_mod_p t a else Some t
  end.

Definition powmodp (a b : Z) : option Z :=
  let a := if P <? a then a mod P else a in
  pow_mod_p 64 a b.

(** Eight bytes as two words, the low one first. *)
Definition read_words (x : list Z) : option (Z * Z) :=
  x0 ← x.[0]; x1 ← x.[1]; x2 ← x.[2]; x3 ← x.[3];
  x4 ← x.[4]; x5 ← x.[5]; x6 ← x.[6]; x7 ← x.[7];
  Some (u32 (x0 |ᵤ x1 <<ₛ 8 |ᵤ x2 <<ₛ 16 |ᵤ x3 <<ₛ 24),
        u32 (x4 |ᵤ x5 <<ₛ 8 |ᵤ x6 <<ₛ 16 |ᵤ x7 <<ₛ 24)).

Definition read64 (x y : list Z) : option (result ((Z * Z) * (Z * Z))) :=
  if negb (len x =? 8) then Some (Error "Invalid uint64 x")
  else if negb (len y =? 8) then Some (Error "Invalid uint64 y")
  else xx ← read_words x; yy ← read_words y; Some (Return (xx, yy)).

Definition push64 (r : Z) : list Z :=
  [r &ᵤ 0xff; (r >>ᵤ 8) &ᵤ 0xff; (r >>ᵤ 16) &ᵤ 0xff; (r >>ᵤ 24) &ᵤ 0xff;
   (r >>ᵤ 32) &ᵤ 0xff; (r >>ᵤ 40) &ᵤ 0xff; (r >>ᵤ 48) &ᵤ 0xff; (r >>ᵤ 56) &ᵤ 0xff].

Definition ldhsecret (x y : list Z) : option (result (list Z)) :=
  '(x, y) ⇐ read64 x y;
  let xx := x.1 |ᵤ u64 (Z.shiftl x.2 32) in
  let yy := y.1 |ᵤ u64 (Z.shiftl y.2 32) in
  if (xx =? 0) || (yy =? 0) then Some (Error "Can't be 0")
  else r ← powmodp xx yy; Some (Return (push64 r)).

Definition ldhexchange (x : list Z) : option (result (list Z)) :=
  if negb (len x =? 8) then Some (Error "Invalid dh uint64 key")
  else
    xx ← read_words x;
    let x64 := xx.1 |ᵤ u64 (Z.shiftl xx.2 32) in
    if x64 =? 0 then Some (Error "Can't be 0")
    else r ← powmodp G x64; Some (Return (push64 r)).

(** ** hmac64 *)

(** The integer parts of the sines times 2^32, and the shift amounts. *)
Definition k : list Z := [
  0xd76aa478; 0xe8c7b756; 0x242070db; 0xc1bdceee;
  0xf57c0faf; 0x4787c62a; 0xa8304613; 0xfd469501;
  0x698098d8; 0x8b44f7af; 0xffff5bb1; 0x895cd7be;
  0x6b901122; 0xfd987193; 0xa679438e; 0x49b40821;
  0xf61e2562; 0xc040b340; 0x265e5a51; 0xe9b6c7aa;
  0xd62f105d; 0x02441453; 0xd8a1e681; 0xe7d3fbc8;
  0x21e1cde6; 0xc33707d6; 0xf4d50d87; 0x455a14ed;
  0xa9e3e905; 0xfcefa3f8; 0x676f02d9; 0x8d2a4c8a;
  0xfffa3942; 0x8771f681; 0x6d9d6122; 0xfde5380c;
  0xa4beea44; 0x4bdecfa9; 0xf6bb4b60; 0xbebfbc70;
  0x289b7ec6; 0xeaa127fa; 0xd4ef3085; 0x04881d05;
  0xd9d4d039; 0xe6db99e5; 0x1fa27cf8; 0xc4ac5665;
  0xf4292244; 0x432aff97; 0xab9423a7; 0xfc93a039;
  0x655b59c3; 0x8f0ccc92; 0xffeff47d; 0x85845dd1;
  0x6fa87e4f; 0xfe2ce6e0; 0xa3014314; 0x4e0811a1;
  0xf7537e82; 0xbd3af235; 0x2ad7d2bb; 0xeb86d391].

Definition r : list Z := [
  7; 12; 17; 22; 7; 12; 17; 22; 7; 12; 17; 22; 7; 12; 17; 22;
  5;  9; 14; 20; 5;  9; 14; 20; 5;  9; 14; 20; 5;  9; 14; 20;
  4; 11; 16; 23; 4; 11; 16; 23; 4; 11; 16; 23; 4; 11; 16; 23;
  6; 10; 15; 21; 6; 10; 15; 21; 6; 10; 15; 21; 6; 10; 15; 21].

Definition LEFTROTATE (x c : Z) : Z := (x <<ᵤ c) |ᵤ (x >>ᵤ (32 - c)).

(** [~x] on [uint32_t]. *)
Definition not32 (x : Z) : Z := u32 (Z.lnot x).

Definition digest_md5 (w : list Z) : option (Z * Z * Z * Z) :=
  for_range 0 64 (λ i '(a, b, c, d),
    let '(f, g) :=
      if i <? 16 then ((b &ᵤ c) |ᵤ (not32 b &ᵤ d), i)
      else if i <? 32 then ((d &ᵤ b) |ᵤ (not32 d &ᵤ c), Z.rem (5 * i + 1) 16)
      else if i <? 48 then (b ^ᵤ c ^ᵤ d, Z.rem (3 * i + 5) 16)
      else (c ^ᵤ (b |ᵤ not32 d), Z.rem (7 * i) 16) in
    let temp := d in
    let d := c in
    let c := b in
    ki ← k.[i]; wg ← w.[g]; ri ← r.[i];
    let b := u32 (b + LEFTROTATE (u32 (a + f + ki + wg)) ri) in
    let a := temp in
    Some (a, b, c, d)) (0x67452301, 0xefcdab89, 0x98badcfe, 0x10325476).

(** [for (i = 0; i < n; i += 4)] of four assignments. *)
Definition fill_words (n : Z) (v : list Z) : option (list Z) :=
  for_step 0 n 4 (λ _ w, Some (w ++ v)) [].

Definition hmac (x y : Z * Z) : option (Z * Z) :=
  w ← fill_words 16 [x.2; x.1; y.2; y.1];
  '(r0, r1, r2, r3) ← digest_md5 w;
  Some (r2 ^ᵤ r3, r0 ^ᵤ r1).

Definition hmac_md5 (x y : Z * Z) : option (Z * Z) :=
  w ← fill_words 12 [x.1; x.2; y.1; y.2];
  '(r0, r1, r2, r3) ← digest_md5 (w ++ [0x80; 0; 384; 0]);
  Some (u32 (r0 + 0x67452301) ^ᵤ u32 (r2 + 0x98badcfe),
        u32 (r1 + 0xefcdab89) ^ᵤ u32 (r3 + 0x10325476)).

Definition pushqword (result : Z * Z) : list Z :=
  [result.1 &ᵤ 0xff; (result.1 >>ᵤ 8) &ᵤ 0xff; (result.1 >>ᵤ 16) &ᵤ 0xff; (result.1 >>ᵤ 24) &ᵤ 0xff;
   result.2 &ᵤ 0xff; (result.2 >>ᵤ 8) &ᵤ 0xff; (result.2 >>ᵤ 16) &ᵤ 0xff; (result.2 >>ᵤ 24) &ᵤ 0xff].

Definition lhmac64 (x y : list Z) : option (result (list Z)) :=
  '(x, y) ⇐ read64 x y;
  q ← hmac x y;
  Some (Return (pushqword q)).

Definition lhmac64_md5 (x y : list Z) : option (result (list Z)) :=
  '(x, y) ⇐ read64 x y;
  q ← hmac_md5 x y;
  Some (Return (pushqword q)).

Definition lhmac_hash (x text : list Z) : option (result (list Z)) :=
  if negb (len x =? 8) then Some (Error "Invalid uint64 key")
  else
    key ← read_words x;
    h ← Hash text (s32 (len text));
    htext ← read_words h;
    q ← hmac htext key;
    Some (Return (pushqword q)).

(** ** base64 *)

Definition encoding : list Z := [
  65; 66; 67; 68; 69; 70; 71; 72; 73; 74; 75; 76; 77; 78; 79; 80;
  81; 82; 83; 84; 85; 86; 87; 88; 89; 90; 97; 98; 99; 100; 101; 102;
  103; 104; 105; 106; 107; 108; 109; 110; 111; 112; 113; 114; 115; 116; 117; 118;
  119; 120; 121; 122; 48; 49; 50; 51; 52; 53; 54; 55; 56; 57; 43; 47].

Definition decoding : list Z := [
  62; -1; -1; -1; 63; 52; 53; 54; 55; 56; 57; 58; 59; 60; 61; -1;
  -1; -1; -2; -1; -1; -1; 0; 1; 2; 3; 4; 5; 6; 7; 8; 9;
  10; 11; 12; 13; 14; 15; 16; 17; 18; 19; 20; 21; 22; 23; 24; 25;
  -1; -1; -1; -1; -1; -1; 26; 27; 28; 29; 30; 31; 32; 33; 34; 35;
  36; 37; 38; 39; 40; 41; 42; 43; 44; 45; 46; 47; 48; 49; 50; 51].

Definition lb64encode (text : list Z) : option block :=
  let sz := len text in
  let encode_sz := s32 ((sz + 2) / 3 * 4) in
  let buffer := if SMALL_CHUNK <? encode_sz then malloc encode_sz else malloc SMALL_CHUNK in
  '(i, j, buffer) ← for_step 0 (s32 sz - 2) 3 (λ i '(_, j, buffer),
    t0 ← text.[i]; t1 ← text.[i + 1]; t2 ← text.[i + 2];
    let v := u32 (t0 <<ₛ 16 |ᵤ t1 <<ₛ 8 |ᵤ t2) in
    c0 ← encoding.[v >>ᵤ 18];
    c1 ← encoding.[(v >>ᵤ 12) &ᵤ 0x3f];
    c2 ← encoding.[(v >>ᵤ 6) &ᵤ 0x3f];
    c3 ← encoding.[v &ᵤ 0x3f];
    buffer ← buffer.[j <- Some c0];
    buffer ← buffer.[j + 1 <- Some c1];
    buffer ← buffer.[j + 2 <- Some c2];
    buffer ← buffer.[j + 3 <- Some c3];
    Some (i + 3, j + 4, buffer)) (0, 0, buffer);
  let padding := sz - i in
  buffer ← (if padding =? 1 then
      v ← text.[i];
      c0 ← encoding.[v >>ᵤ 2];
      c1 ← encoding.[(v &ᵤ 3) <<ᵤ 4];
      buffer ← buffer.[j <- Some c0];
      buffer ← buffer.[j + 1 <- Some c1];
      buffer ← buffer.[j + 2 <- Some 61];
      buffer.[j + 3 <- Some 61]
    else if padding =? 2 then
      t0 ← text.[i]; t1 ← text.[i + 1];
      let v := u32 (t0 <<ₛ 8 |ᵤ t1) in
      c0 ← encoding.[v >>ᵤ 10];
      c1 ← encoding.[(v >>ᵤ 4) &ᵤ 0x3f];
      c2 ← encoding.[(v &ᵤ 0xf) <<ᵤ 2];
      buffer ← buffer.[j <- Some c0];
      buffer ← buffer.[j + 1 <- Some c1];
      buffer ← buffer.[j + 2 <- Some c2];
      buffer.[j + 3 <- Some 61]
    else Some buffer);
  mem_read buffer 0 encode_sz.

Definition b64index (c : Z) : option Z :=
  if c <? 43 then Some (-1)
  else
    let c := c - 43 in
    if len decoding <=? c then Some (-1) else decoding.[c].

(** The next four characters of the alphabet or '=': the index behind them,
    how many are '=', and their values. *)
Fixpoint b64_group (fuel : nat) (text : list Z) (i padding : Z) (c : list Z)
  : option (result (Z * Z * list Z)) :=
  if len c =? 4 then Some (Return (i, padding, c))
  else
    match fuel with
    | O => None
    | S fuel =>
        if len text <=? i then Some (Error "Invalid base64 text")
        else
          t ← text.[i];
          cj ← b64index t;
          if cj =? -1 then b64_group fuel text (i + 1) padding c
          else
            let padding := if cj =? -2 then padding + 1 else padding in
            b64_group fuel text (i + 1) padding (c ++ [cj])
    end.

(** The bytes of a group, written at [output]. *)
Definition b64_output (padding : Z) (c : list Z) (buffer : block) (output : Z)
  : option (result (block * Z)) :=
  c0 ← c.[0]; c1 ← c.[1]; c2 ← c.[2]; c3 ← c.[3];
  if padding =? 0 then
    let v := (u32 c0 <<ᵤ 18) |ᵤ u32 (c1 <<ₛ 12) |ᵤ u32 (c2 <<ₛ 6) |ᵤ u32 c3 in
    buffer ← buffer.[output <- Some (u8 (v >>ᵤ 16))];
    buffer ← buffer.[output + 1 <- Some ((v >>ᵤ 8) &ᵤ 0xff)];
    buffer ← buffer.[output + 2 <- Some (v &ᵤ 0xff)];
    Some (Return (buffer, output + 3))
  else if padding =? 1 then
    if negb (c3 =? -2) || truth (Z.land c2 3) then Some (Error "Invalid base64 text")
    else
      let v := (u32 c0 <<ᵤ 10) |ᵤ u32 (c1 <<ₛ 4) |ᵤ u32 (Z.shiftr c2 2) in
      buffer ← buffer.[output <- Some (u8 (v >>ᵤ 8))];
      buffer ← buffer.[output + 1 <- Some (v &ᵤ 0xff)];
      Some (Return (buffer, output + 2))
  else if padding =? 2 then
    if negb (c3 =? -2) || negb (c2 =? -2) || truth (Z.land c1 0xf)
    then Some (Error "Invalid base64 text")
    else
      let v := (u32 c0 <<ᵤ 2) |ᵤ u32 (Z.shiftr c1 4) in
      buffer ← buffer.[output <- Some (u8 v)];
      Some (Return (buffer, output + 1))
  else Some (Error "Invalid base64 text").

Fixpoint b64_loop (fuel : nat) (text : list Z) (i : Z) (buffer : block) (output : Z)
  : option (result block) :=
  if len text <=? i then str ← mem_read buffer 0 output; Some (Return str)
  else
    match fuel with
    | O => None
    | S fuel =>
        '(i, padding, c) ⇐ b64_group (length text) text i 0 [];
        '(buffer, output) ⇐ b64_output padding c buffer output;
        b64_loop fuel text i buffer output
    end.

Definition lb64decode (text : list Z) : option (result block) :=
  let decode_sz := s32 ((len text + 3) / 4 * 3) in
  let buffer := if SMALL_CHUNK <? decode_sz then malloc decode_sz else malloc SMALL_CHUNK in
  b64_loop (length text) text 0 buffer 0.

(** ** xor_str *)

Definition lxor_str (s1 s2 : list Z) : option (result block) :=
  if len s2 =? 0 then Some (Error "Can't xor empty string")
  else
    buffer ← for_range 0 (len s1) (λ i buffer,
      a ← s1.[i];
      b ← s2.[i mod len s2];
      buffer.[i <- Some (a ^ᵤ b)]) (malloc (len s1));
    str ← mem_read buffer 0 (len s1);
    Some (Return str).

(** ** Powers modulo [P] *)

Lemma P_range : 2 ^ 63 < P < 2 ^ 64.
Proof. unfold P. lia. Qed.

Lemma u64_eq x y : u64 x = y ↔ 0 ≤ y < 2 ^ 64 ∧ ∃ q, x = y + q * 2 ^ 64.
Proof.
  unfold u64. split.
  - intros <-. split; [apply Z.mod_pos_bound; lia|]. exists (x / 2 ^ 64).
    pose proof (Z.div_mod x (2 ^ 64)). lia.
  - intros [Hy [q ->]]. rewrite Z_mod_plus by lia. by apply Z.mod_small.
Qed.

(** A round keeps [m + a * b] modulo [P] and never overflows. *)
Lemma mul_step_spec a b m : 0 ≤ a ≤ P → 0 ≤ b → 0 ≤ m < P →
  ∃ a' m', mul_step (a, b, m) = (a', b / 2, m') ∧ 0 ≤ a' ≤ P ∧ 0 ≤ m' < P ∧
    (m' + a' * (b / 2)) mod P = (m + a * b) mod P.
Proof.
  intros Ha Hb Hm. pose proof P_range as HP. unfold mul_step.
  change (Z.land b 1) with (Z.land b (2 ^ 1 - 1)).
  rewrite land_mask, Z.shiftr_div_pow2 by lia.
  change (2 ^ 1) with 2. rewrite (u64_small (P - a)) by lia.
  set (m' := if truth _ then _ else m). set (a' := if P - a <=? a then _ else _).
  assert (∃ q, a' = 2 * a - q * P ∧ 0 ≤ a' ≤ P) as (q & Ea & Hra).
  { subst a'. destruct (Z.leb_spec (P - a) a).
    - exists 1. enough (u64 (u64 (a * 2) - P) = 2 * a - P) by lia. apply u64_eq.
      split; [lia|]. exists (- (a * 2 / 2 ^ 64)). unfold u64.
      pose proof (Z.div_mod (a * 2) (2 ^ 64)). lia.
    - exists 0. rewrite u64_small by lia. lia. }
  assert (∃ q', m' = m + (b mod 2) * a - q' * P ∧ 0 ≤ m' < P) as (q' & Em & Hrm).
  { subst m'. unfold truth. pose proof (Z.mod_pos_bound b 2). destruct (Z.eqb_spec (b mod 2) 0); simpl.
    - exists 0. lia.
    - assert (b mod 2 = 1) as -> by lia. destruct (Z.leb_spec (P - a) m).
      + exists 1. rewrite u64_small by lia. lia.
      + exists 0. rewrite u64_small by lia. lia. }
  exists a', m'. split; [done|]. split; [done|]. split; [done|].
  pose proof (Z.div_mod b 2). rewrite <- (Z_mod_plus (m' + _) (q' + q * (b / 2))) by lia.
  f_equal. nia.
Qed.

Lemma mul_mod_p_spec a b : 0 ≤ a ≤ P → 0 ≤ b < 2 ^ 64 →
  mul_mod_p a b = Some (a * b mod P).
Proof.
  intros Ha Hb. pose proof P_range. unfold mul_mod_p.
  destruct (while_loop_inv (λ '((a', b', m') : Z * Z * Z), 0 ≤ a' ≤ P ∧ 0 ≤ b' < 2 ^ 64 ∧ 0 ≤ m' < P
      ∧ (m' + a' * b') mod P = a * b mod P)
    (λ '((_, b', _) : Z * Z * Z), if b' =? 0 then 0 else Z.log2 b' + 1)
    (λ '(_, b, _), truth b) (λ st, Some (mul_step st)) 66 (a, b, 0))
    as ([[a' b'] m'] & -> & (_ & _ & Hm & E) & Hc).
  - split; [done|]. split; [done|]. split; [lia|]. f_equal.
  - destruct (Z.eqb_spec b 0); [lia|]. assert (Z.log2 b < 64) by (apply Z.log2_lt_pow2; lia). lia.
  - intros [[a' b'] m'] (Ha' & Hb' & Hm' & E) Hc. unfold truth in Hc.
    destruct (Z.eqb_spec b' 0) as [|Hne]; [done|]. pose proof (Z.log2_nonneg b'). split; [lia|].
    destruct (mul_step_spec a' b' m') as (a2 & m2 & -> & Ha2 & Hm2 & E2); [done|lia|done|].
    eexists. split; [done|].
    assert (0 ≤ b' / 2 < 2 ^ 64).
    { split; [apply Z.div_pos; lia|apply Z.div_lt_upper_bound; lia]. }
    split; [split; [done|split; [done|split; [done|congruence]]]|].
    destruct (Z.eqb_spec (b' / 2) 0); [lia|].
    assert (1 < b') by (destruct (Z.eq_dec b' 1) as [->|]; [done|lia]).
    change 2 with (2 ^ 1) at 1. rewrite <- Z.shiftr_div_pow2 by lia.
    rewrite Z.log2_shiftr by lia. pose proof (Z.log2_pos b'). lia.
  - lia.
  - unfold truth in Hc. destruct (Z.eqb_spec b' 0) as [->|]; [|done].
    rewrite Z.mul_0_r, Z.add_0_r, Z.mod_small in E by done. by subst m'.
Qed.

Lemma pow_mod_p_spec n : ∀ a b, 0 ≤ a ≤ P → 1 ≤ b < 2 ^ Z.of_nat n → (n ≤ 64)%nat →
  ∃ t, pow_mod_p n a b = Some t ∧ 0 ≤ t ≤ P ∧ t mod P = a ^ b mod P ∧
       t = if b =? 1 then a else a ^ b mod P.
Proof.
  pose proof P_range as HP. induction n as [|n IH]; intros a b Ha Hb Hn.
  { simpl in Hb. lia. }
  rewrite Nat2Z.inj_succ, Z.pow_succ_r in Hb by lia. simpl.
  destruct (Z.eqb_spec b 1) as [->|Hne].
  { exists a. rewrite Z.pow_1_r. done. }
  rewrite Z.shiftr_div_pow2 by lia. change (2 ^ 1) with 2. pose proof (Z.div_mod b 2).
  pose proof (Z.mod_pos_bound b 2).
  destruct (IH a (b / 2)) as (t & -> & Ht & Et & _); [done|lia|lia|].
  rewrite mul_mod_p_spec by lia. pose proof (Z.mod_pos_bound (t * t) P).
  assert (t * t mod P = a ^ (2 * (b / 2)) mod P) as Esq.
  { rewrite Z.mul_mod, Et, <- Z.mul_mod by lia. f_equal. rewrite <- Z.pow_add_r by lia. f_equal. lia. }
  unfold truth. destruct (Z.eqb_spec (b mod 2) 0) as [Eb|Eb]; simpl.
  - eexists. split; [done|]. split; [lia|].
    assert (a ^ (2 * (b / 2)) = a ^ b) as Ep by (f_equal; lia).
    rewrite Z.mod_mod, Esq, Ep by lia. done.
  - rewrite mul_mod_p_spec by lia. eexists. split; [done|].
    pose proof (Z.mod_pos_bound (t * t mod P * a) P). split; [lia|].
    assert (t * t mod P * a mod P = a ^ b mod P) as ->.
    { rewrite Esq, Z.mul_mod_idemp_l by lia. f_equal.
      replace b with (2 * (b / 2) + 1) at 2 by lia. rewrite Z.pow_add_r, Z.pow_1_r by lia. lia. }
    by rewrite Z.mod_mod by lia.
Qed.

Lemma powmodp_mod a b : 0 ≤ a < 2 ^ 64 → 1 ≤ b < 2 ^ 64 →
  powmodp a b = Some (if (b =? 1) && (a =? P) then P else a ^ b mod P).
Proof.
  intros Ha Hb. pose proof P_range. unfold powmodp. destruct (Z.ltb_spec P a).
  - assert (0 ≤ a mod P < P) by (apply Z.mod_pos_bound; lia).
    destruct (pow_mod_p_spec 64 (a mod P) b) as (t & -> & _ & _ & ->); [lia|lia|lia|].
    rewrite (proj2 (Z.eqb_neq a P)), andb_false_r by lia.
    destruct (Z.eqb_spec b 1) as [->|]; [by rewrite Z.pow_1_r|]. by rewrite <- Zpower_mod by lia.
  - destruct (pow_mod_p_spec 64 a b) as (t & -> & _ & _ & ->); [lia|lia|lia|].
    destruct (Z.eqb_spec b 1) as [->|]; [|done]. destruct (Z.eqb_spec a P) as [->|]; [done|].
    cbn [andb]. rewrite Z.pow_1_r, Z.mod_small by lia. done.
Qed.

(** A power of 5 is no multiple of [P]. *)
Lemma pow5_nonzero n : 0 ≤ n → 5 ^ n mod P ≠ 0.
Proof.
  intros Hn E. pose proof P_range. apply Z.mod_divide in E; [|lia].
  assert (Z.gcd P (5 ^ n) = 1) as Hg; [|apply Z.divide_gcd_iff in E; lia].
  destruct (Z.eq_dec n 0) as [->|]; [apply Z.gcd_1_r|]. by apply Z.coprime_pow_r.
Qed.

(** ** Eight bytes as a number *)

Lemma read_words_spec x : chunk x →
  ∃ w, read_words x = Some w ∧ w.1 |ᵤ u64 (Z.shiftl w.2 32) = of_le x ∧
       0 ≤ w.1 < 2 ^ 32 ∧ 0 ≤ w.2 < 2 ^ 32.
Proof.
  intros [Hb Hl]. assert (length x = 8%nat) as Hl' by (unfold len in Hl; lia).
  do 8 (destruct x as [|? x]; [discriminate Hl'|]). destruct x; [|discriminate Hl'].
  unfold bytes in Hb. rewrite !Forall_cons in Hb.
  destruct Hb as (H1 & H2 & H3 & H4 & H5 & H6 & H7 & H8 & _).
  assert (bytes [z; z0; z1; z2]) as Ha by (unfold bytes; by rewrite !Forall_cons).
  assert (bytes [z3; z4; z5; z6]) as Hb by (unfold bytes; by rewrite !Forall_cons).
  eexists. split; [reflexivity|]. cbn [fst snd]. rewrite !word_of_bytes by done.
  pose proof (of_le_range _ Ha) as R1. pose proof (of_le_range _ Hb) as R2.
  change (256 ^ len [z; z0; z1; z2]) with (2 ^ 32) in R1.
  change (256 ^ len [z3; z4; z5; z6]) with (2 ^ 32) in R2.
  split; [|by split]. rewrite Z.shiftl_mul_pow2, u64_small, lor_high by lia.
  cbn [of_le]. lia.
Qed.

Lemma byte_of_spec n i : 0 ≤ i → (n >>ᵤ i) &ᵤ 0xff = n / 2 ^ i mod 256.
Proof. intros Hi. change 0xff with (2 ^ 8 - 1). by rewrite land_mask, Z.shiftr_div_pow2 by lia. Qed.

Lemma push64_chunk n : chunk (push64 n).
Proof.
  split; [|done]. unfold push64. change 0xff with (2 ^ 8 - 1). rewrite !land_mask by lia.
  repeat constructor; apply Z.mod_pos_bound; lia.
Qed.

Lemma push64_value n : 0 ≤ n < 2 ^ 64 → of_le (push64 n) = n.
Proof.
  intros Hn. unfold push64. rewrite !byte_of_spec by lia. cbn [of_le].
  change 0xff with (2 ^ 8 - 1). rewrite land_mask by lia. change (2 ^ 8) with 256.
  assert (∀ i j, 0 ≤ i → j = i + 8 → n / 2 ^ j = n / 2 ^ i / 256) as E.
  { intros i j Hi ->. rewrite Z.pow_add_r, Z.div_div by lia. done. }
  rewrite (E 48 56), (E 40 48), (E 32 40), (E 24 32), (E 16 24), (E 8 16) by lia.
  change (n / 2 ^ 8) with (n / 256).
  repeat match goal with |- context [?x mod 256] => rewrite (Z.mod_eq x 256) by lia end.
  assert (n / 256 / 256 / 256 / 256 / 256 / 256 / 256 / 256 = 0); [|lia].
  rewrite !Z.div_div by lia. apply Z.div_small. lia.
Qed.

Lemma ldhexchange_spec x : chunk x → of_le x ≠ 0 →
  ldhexchange x = Some (Return (push64 (5 ^ of_le x mod P))).
Proof.
  intros Hx Hne. unfold ldhexchange. rewrite (proj2 Hx). cbn [negb Z.eqb Pos.eqb].
  destruct (read_words_spec x Hx) as (w & -> & -> & _). pose proof (of_le_range x (proj1 Hx)) as Hr.
  rewrite (proj2 Hx) in Hr. change (256 ^ 8) with (2 ^ 64) in Hr.
  rewrite (proj2 (Z.eqb_neq _ _) Hne).
  rewrite powmodp_mod by (unfold G; lia). by rewrite andb_false_r.
Qed.

Lemma ldhsecret_spec x y : chunk x → chunk y → of_le x ≠ 0 → of_le y ≠ 0 → of_le x < P →
  ldhsecret x y = Some (Return (push64 (of_le x ^ of_le y mod P))).
Proof.
  intros Hx Hy Hx0 Hy0 HxP. unfold ldhsecret, read64. rewrite (proj2 Hx), (proj2 Hy).
  cbn [negb Z.eqb Pos.eqb].
  destruct (read_words_spec x Hx) as (w & -> & Ew & _). destruct (read_words_spec y Hy) as (v & -> & Ev & _).
  cbv zeta. rewrite Ew, Ev, (proj2 (Z.eqb_neq _ _) Hx0), (proj2 (Z.eqb_neq _ _) Hy0). cbn [orb].
  pose proof (of_le_range x (proj1 Hx)) as Hr. pose proof (of_le_range y (proj1 Hy)) as Hr2.
  rewrite (proj2 Hx) in Hr. rewrite (proj2 Hy) in Hr2. change (256 ^ 8) with (2 ^ 64) in *.
  rewrite powmodp_mod by lia. rewrite (proj2 (Z.eqb_neq _ P)) by lia. by rewrite andb_false_r.
Qed.

(** ** Hexadecimal text *)

Definition hexdigit (d : Z) : Z := if d <? 10 then 48 + d else 87 + d.

Lemma nibble_cases (Φ : Z → Prop) :
  Φ 0 → Φ 1 → Φ 2 → Φ 3 → Φ 4 → Φ 5 → Φ 6 → Φ 7 → Φ 8 → Φ 9 → Φ 10 → Φ 11 → Φ 12 → Φ 13 →
  Φ 14 → Φ 15 → ∀ d, 0 ≤ d < 16 → Φ d.
Proof.
  intros. replace d with (Z.of_nat (Z.to_nat d)) by lia.
  assert (Z.to_nat d < 16)%nat as Hd by lia. revert Hd. generalize (Z.to_nat d). intros n Hn.
  do 16 (destruct n as [|n]; [assumption|]). lia.
Qed.

Lemma hex_get d : 0 ≤ d < 16 → hex.[d] = Some (hexdigit d).
Proof. revert d. apply nibble_cases; reflexivity. Qed.

Lemma HEX_hexdigit d : 0 ≤ d < 16 → HEX (hexdigit d) = d.
Proof. revert d. apply nibble_cases; reflexivity. Qed.

Lemma nibbles t : 0 ≤ t < 256 → 0 ≤ t / 16 < 16 ∧ 0 ≤ t mod 16 < 16.
Proof.
  intros H. split; [|apply Z.mod_pos_bound; lia].
  split; [apply Z.div_pos; lia|apply Z.div_lt_upper_bound; lia].
Qed.

(** The two digits of each byte. *)
Definition hex_pairs (text : list Z) : list (Z * Z) :=
  map (λ t, (hexdigit (t / 16), hexdigit (t mod 16))) text.

Lemma len_flat ks : len (flat ks) = 2 * len ks.
Proof. induction ks as [|k ks IH]; [done|]. change (flat (k :: ks)) with (k.1 :: k.2 :: flat ks).
  rewrite !len_cons, IH. lia. Qed.

Lemma flat_snoc ks k : flat (ks ++ [k]) = (flat ks ++ [k.1]) ++ [k.2].
Proof. unfold flat. rewrite List.map_app, List.concat_app, <- app_assoc. done. Qed.

Lemma take_next {A} (l : list A) j x : 0 ≤ j → l.[j] = Some x →
  take (Z.to_nat (j + 1)) l = take (Z.to_nat j) l ++ [x].
Proof.
  intros Hj H. rewrite arr_get_nonneg in H by done.
  replace (Z.to_nat (j + 1)) with (S (Z.to_nat j)) by lia. by apply take_S_r.
Qed.

Lemma len_take {A} (l : list A) j : 0 ≤ j ≤ len l → len (take (Z.to_nat j) l) = j.
Proof. intros H. unfold len in *. rewrite length_take. lia. Qed.

Lemma ltohex_spec text : bytes text →
  ltohex text = Some (map Some (flat (hex_pairs text))).
Proof.
  intros Hb. unfold ltohex. pose proof (len_nonneg text).
  set (buf0 := if _ <? _ then _ else _).
  assert (∃ n, 2 * len text ≤ n ∧ filled n buf0 []) as (n & Hn & Hf0).
  { subst buf0. change (SMALL_CHUNK / 2) with 128. destruct (Z.ltb_spec 128 (len text)).
    - exists (len text * 2). split; [lia|apply filled_malloc; lia].
    - exists 256. split; [lia|by apply filled_malloc]. }
  match goal with |- context [for_range 0 (len text) ?body buf0] =>
    destruct (for_range_inv (λ i buf, filled n buf (flat (hex_pairs (take (Z.to_nat i) text))))
      0 (len text) body buf0) as (buf & -> & Hf) end; [lia|done| |].
  - intros i buf Hi Hf. destruct (arr_get_is_Some text i Hi) as [t Ht]. rewrite Ht.
    pose proof (arr_get_Forall _ _ _ _ Hb Ht) as Hr. cbv beta in Hr.
    destruct (nibbles t Hr) as [H1 H2].
    rewrite Z.shiftr_div_pow2 by lia. change (2 ^ 4) with 16.
    change 0xf with (2 ^ 4 - 1). rewrite land_mask by lia. change (2 ^ 4) with 16.
    rewrite !hex_get by done.
    assert (len (flat (hex_pairs (take (Z.to_nat i) text))) = i * 2) as Hl.
    { rewrite len_flat. unfold hex_pairs. rewrite len_map, len_take; lia. }
    destruct (filled_set n buf _ (hexdigit (t / 16)) (i * 2) Hf) as (b1 & -> & Hf1); [lia|lia|].
    destruct (filled_set n b1 _ (hexdigit (t mod 16)) (i * 2 + 1) Hf1) as (b2 & -> & Hf2).
    { rewrite len_app, Hl. done. }
    { lia. }
    exists b2. split; [done|]. rewrite (take_next text i t) by (done || lia).
    unfold hex_pairs in *. rewrite List.map_app. cbn [map]. by rewrite flat_snoc.
  - rewrite take_ge in Hf by (unfold len; lia). apply (filled_read n); [done|].
    rewrite len_flat. unfold hex_pairs. rewrite len_map. lia.
Qed.

Lemma lfromhex_spec text : bytes text →
  lfromhex (flat (hex_pairs text)) = Some (Return (map Some text)).
Proof.
  intros Hb. unfold lfromhex. pose proof (len_nonneg text).
  assert (len (flat (hex_pairs text)) = len text * 2) as Hl.
  { rewrite len_flat. unfold hex_pairs. rewrite len_map. lia. }
  rewrite Hl. change (Z.land (len text * 2) 1) with (Z.land (len text * 2) (2 ^ 1 - 1)).
  rewrite land_mask by lia. change (2 ^ 1) with 2.
  rewrite Z_mod_mult. change (truth 0) with false. cbv iota zeta. rewrite Z.div_mul by lia.
  set (buf0 := if _ <? _ then _ else _).
  assert (∃ n, len text ≤ n ∧ filled n buf0 []) as (n & Hn & Hf0).
  { subst buf0. unfold SMALL_CHUNK. destruct (Z.ltb_spec (256 * 2) (len text * 2)).
    - exists (len text). split; [lia|by apply filled_malloc].
    - exists 256. split; [lia|by apply filled_malloc]. }
  match goal with |- context [for_step 0 ?hi 2 ?body ?s0] =>
    destruct (for_step_inv (λ i r, ∃ buf, r = Return buf ∧ filled n buf (take (Z.to_nat i) text))
      0 hi 2 body s0 (len text)) as (r' & -> & buf & -> & Hf) end.
  - apply Z.div_unique with 1; lia.
  - lia.
  - done.
  - by exists buf0.
  - intros i r Hi (buf & -> & Hf). rewrite Z.add_0_l.
    destruct (arr_get_is_Some text i Hi) as [t Ht].
    pose proof (arr_get_Forall _ _ _ _ Hb Ht) as Hr. cbv beta in Hr.
    destruct (nibbles t Hr) as [H1 H2].
    destruct (flat_get (hex_pairs text) (Z.to_nat i) (hexdigit (t / 16), hexdigit (t mod 16)))
      as [E1 E2].
    { unfold hex_pairs. rewrite list_lookup_fmap. rewrite arr_get_nonneg in Ht by lia. by rewrite Ht. }
    replace (2 * Z.of_nat (Z.to_nat i)) with (i * 2) in * by lia. rewrite E1, E2. cbn [fst snd].
    rewrite !HEX_hexdigit by done. rewrite !(proj2 (Z.ltb_ge 16 _)) by lia. cbn [orb].
    rewrite Z.div_mul by lia.
    rewrite s32_small by (rewrite Z.shiftl_mul_pow2 by lia; lia).
    rewrite Z.shiftl_mul_pow2, Z.lor_comm, lor_high by lia. change (2 ^ 4) with 16.
    replace (t mod 16 + t / 16 * 16) with t by (pose proof (Z.div_mod t 16); lia).
    rewrite u8_small by lia.
    destruct (filled_set n buf _ t i Hf) as (b1 & -> & Hf1); [by rewrite len_take by lia|lia|].
    eexists. split; [done|]. exists b1. split; [done|]. by rewrite (take_next text i t) by (done || lia).
  - rewrite take_ge in Hf by (unfold len; lia). by rewrite (filled_read n buf _ _ Hf).
Qed.

(** ** base64 *)

(** Lists are equal element by element. *)
Ltac list_cong := repeat (apply (f_equal2 (@cons Z)); [|]); try reflexivity.

Lemma lor_low a b m : 0 ≤ m → 0 ≤ b < 2 ^ m → Z.lor (a * 2 ^ m) b = a * 2 ^ m + b.
Proof. intros Hm Hb. rewrite Z.lor_comm, lor_high by done. lia. Qed.

(** The character of a 6-bit value. *)
Definition b64char (d : Z) : Z := default 0 (encoding.[d]).

Lemma sextet_cases (f : Z → bool) :
  forallb f (map Z.of_nat (seq 0 64)) = true → ∀ d, 0 ≤ d < 64 → f d = true.
Proof.
  rewrite List.forallb_forall. intros H d Hd. apply H, List.in_map_iff. exists (Z.to_nat d).
  split; [lia|]. apply List.in_seq. lia.
Qed.

Lemma encoding_get d : 0 ≤ d < 64 → encoding.[d] = Some (b64char d).
Proof.
  intros Hd. destruct (arr_get_is_Some encoding d Hd) as [c Hc]. unfold b64char. by rewrite Hc.
Qed.

Lemma b64index_char d : 0 ≤ d < 64 → b64index (b64char d) = Some d.
Proof.
  intros Hd. pose proof (sextet_cases (λ d, bool_decide (b64index (b64char d) = Some d)) eq_refl d Hd).
  by eapply bool_decide_eq_true.
Qed.

(** The four values of three bytes. *)
Definition sextets (a b c : Z) : list Z :=
  [a / 4; (a mod 4) * 16 + b / 16; (b mod 16) * 4 + c / 64; c mod 64].

Lemma div_range x d n : 0 < d → 0 ≤ x < n * d → 0 ≤ x / d < n.
Proof. intros Hd Hx. split; [apply Z.div_pos; lia|apply Z.div_lt_upper_bound; lia]. Qed.

Lemma sextets_range a b c : bytes [a; b; c] → Forall (λ d, 0 ≤ d < 64) (sextets a b c).
Proof.
  intros H. unfold bytes in H. rewrite !Forall_cons in H. destruct H as (Ha & Hb & Hc & _).
  pose proof (div_range a 4 64). pose proof (div_range b 16 16). pose proof (div_range c 64 4).
  pose proof (Z.mod_pos_bound a 4). pose proof (Z.mod_pos_bound b 16). pose proof (Z.mod_pos_bound c 64).
  repeat constructor; lia.
Qed.

(** What the shifts and masks of [lb64encode] compute. *)
Lemma encode_shifts a b c : bytes [a; b; c] →
  let v := u32 (a <<ₛ 16 |ᵤ b <<ₛ 8 |ᵤ c) in
  [v >>ᵤ 18; (v >>ᵤ 12) &ᵤ 0x3f; (v >>ᵤ 6) &ᵤ 0x3f; v &ᵤ 0x3f] = sextets a b c.
Proof.
  intros H v. unfold bytes in H. rewrite !Forall_cons in H. destruct H as (Ha & Hb & Hc & _).
  assert (v = a * 2 ^ 16 + b * 2 ^ 8 + c) as ->.
  { subst v. rewrite !Z.shiftl_mul_pow2 by lia. rewrite !s32_small by lia.
    rewrite lor_low by lia. replace (a * 2 ^ 16 + b * 2 ^ 8) with ((a * 2 ^ 8 + b) * 2 ^ 8) by lia.
    rewrite lor_low by lia. rewrite u32_small; lia. }
  change 0x3f with (2 ^ 6 - 1). rewrite !land_mask, !Z.shiftr_div_pow2 by lia. unfold sextets.
  pose proof (Z.div_mod a 4). pose proof (Z.mod_pos_bound a 4).
  pose proof (Z.div_mod b 16). pose proof (Z.mod_pos_bound b 16). pose proof (div_range b 16 16).
  pose proof (Z.div_mod c 64). pose proof (Z.mod_pos_bound c 64). pose proof (div_range c 64 4).
  list_cong.
  - symmetry. apply Z.div_unique with (a mod 4 * 2 ^ 16 + b * 2 ^ 8 + c); lia.
  - rewrite <- (Z.div_unique _ (2 ^ 12) (a * 16 + b / 16) (b mod 16 * 2 ^ 8 + c)) by lia.
    symmetry. apply Z.mod_unique with (a / 4); lia.
  - rewrite <- (Z.div_unique _ (2 ^ 6) (a * 2 ^ 10 + b * 4 + c / 64) (c mod 64)) by lia.
    symmetry. apply Z.mod_unique with (a * 16 + b / 16); lia.
  - symmetry. apply Z.mod_unique with (a * 2 ^ 10 + b * 4 + c / 64); lia.
Qed.

(** And those of the last, shorter group. *)
Lemma encode_shifts2 a b : bytes [a; b] →
  let v := u32 (a <<ₛ 8 |ᵤ b) in
  [v >>ᵤ 10; (v >>ᵤ 4) &ᵤ 0x3f; (v &ᵤ 0xf) <<ᵤ 2] = [a / 4; (a mod 4) * 16 + b / 16; (b mod 16) * 4].
Proof.
  intros H v. unfold bytes in H. rewrite !Forall_cons in H. destruct H as (Ha & Hb & _).
  assert (v = a * 2 ^ 8 + b) as ->.
  { subst v. rewrite !Z.shiftl_mul_pow2 by lia. rewrite s32_small, lor_low, u32_small; lia. }
  change 0x3f with (2 ^ 6 - 1). change 0xf with (2 ^ 4 - 1).
  rewrite !land_mask, !Z.shiftr_div_pow2, Z.shiftl_mul_pow2 by lia.
  pose proof (Z.div_mod a 4). pose proof (Z.mod_pos_bound a 4).
  pose proof (Z.div_mod b 16). pose proof (Z.mod_pos_bound b 16). pose proof (div_range b 16 16).
  assert ((a * 2 ^ 8 + b) mod 2 ^ 4 = b mod 16) as ->.
  { symmetry. apply Z.mod_unique with (a * 2 ^ 4 + b / 16); lia. }
  rewrite u32_small by lia. list_cong.
  - symmetry. apply Z.div_unique with (a mod 4 * 2 ^ 8 + b); lia.
  - rewrite <- (Z.div_unique _ (2 ^ 4) (a * 16 + b / 16) (b mod 16)) by lia.
    symmetry. apply Z.mod_unique with (a / 4); lia.
Qed.

Lemma encode_shifts1 a : 0 ≤ a < 256 → [a >>ᵤ 2; (a &ᵤ 3) <<ᵤ 4] = [a / 4; (a mod 4) * 16].
Proof.
  intros Ha. change 3 with (2 ^ 2 - 1). rewrite land_mask, Z.shiftr_div_pow2, Z.shiftl_mul_pow2 by lia.
  change (2 ^ 2) with 4. pose proof (Z.mod_pos_bound a 4). by rewrite u32_small by lia.
Qed.

Definition group_bytes (g : Z * Z * Z) : list Z := [g.1.1; g.1.2; g.2].
Definition group_text (g : Z * Z * Z) : list Z := map b64char (sextets g.1.1 g.1.2 g.2).
Definition tail_text (r : list Z) : list Z :=
  match r with
  | [a] => [b64char (a / 4); b64char (a mod 4 * 16); 61; 61]
  | [a; b] => [b64char (a / 4); b64char (a mod 4 * 16 + b / 16); b64char (b mod 16 * 4); 61]
  | _ => []
  end.

Lemma len_groups {A} (f : A → list Z) n gs : (∀ g, len (f g) = n) → len (concat (map f gs)) = n * len gs.
Proof.
  intros H. induction gs as [|g gs IH]; [unfold len; simpl; lia|].
  simpl. rewrite len_app, len_cons, IH, H. lia.
Qed.

(** Reading group [j] of a text. *)
Lemma group_get gs r j g k : gs !! j = Some g → 0 ≤ k < 3 →
  (concat (map group_bytes gs) ++ r).[3 * Z.of_nat j + k] = (group_bytes g).[k].
Proof.
  intros H Hk. rewrite !arr_get_nonneg by lia.
  replace (Z.to_nat (3 * Z.of_nat j + k)) with (3 * j + Z.to_nat k)%nat by lia.
  assert (Z.to_nat k < 3)%nat as Hk' by lia. revert Hk'. generalize (Z.to_nat k). clear Hk k. intros k Hk.
  revert gs H. induction j as [|j IH]; intros [|g' gs] H; try discriminate.
  - injection H as ->. simpl. by do 3 (destruct k as [|k]; [done|]); lia.
  - replace (3 * S j + k)%nat with (S (S (S (3 * j + k)))) by lia. by apply IH.
Qed.

(** Four stores in a row. *)
Lemma filled_four n buf out c0 c1 c2 c3 j : filled n buf out → j = len out → j + 4 ≤ n →
  ∃ b1 b2 b3 b4, buf.[j <- Some c0] = Some b1 ∧ b1.[j + 1 <- Some c1] = Some b2 ∧
    b2.[j + 2 <- Some c2] = Some b3 ∧ b3.[j + 3 <- Some c3] = Some b4 ∧
    filled n b4 (out ++ [c0; c1; c2; c3]).
Proof.
  intros Hf -> Hn.
  destruct (filled_set n buf _ c0 (len out) Hf) as (b1 & E1 & H1); [done|lia|].
  destruct (filled_set n b1 _ c1 (len out + 1) H1) as (b2 & E2 & H2); [by rewrite len_app|lia|].
  destruct (filled_set n b2 _ c2 (len out + 2) H2) as (b3 & E3 & H3);
    [rewrite !len_app; unfold len; simpl; lia|lia|].
  destruct (filled_set n b3 _ c3 (len out + 3) H3) as (b4 & E4 & H4);
    [rewrite !len_app; unfold len; simpl; lia|lia|].
  exists b1, b2, b3, b4. do 4 (split; [done|]). by rewrite <- !app_assoc in H4.
Qed.

Definition groups_ok (gs : list (Z * Z * Z)) : Prop := Forall (λ g, bytes (group_bytes g)) gs.

(** The part of [lb64encode] behind its loop. *)
Lemma encode_tail text gs r n buf :
  text = concat (map group_bytes gs) ++ r → bytes r → len r < 3 →
  filled n buf (concat (map group_text gs)) → 4 * len gs + 4 ≤ n ∨ r = [] →
  ∃ buf', (let i := 3 * len gs in let j := 4 * len gs in
    if len text - i =? 1 then
      v ← text.[i]; c0 ← encoding.[v >>ᵤ 2]; c1 ← encoding.[(v &ᵤ 3) <<ᵤ 4];
      buffer ← buf.[j <- Some c0]; buffer ← buffer.[j + 1 <- Some c1];
      buffer ← buffer.[j + 2 <- Some 61]; buffer.[j + 3 <- Some 61]
    else if len text - i =? 2 then
      t0 ← text.[i]; t1 ← text.[i + 1];
      let v := u32 (t0 <<ₛ 8 |ᵤ t1) in
      c0 ← encoding.[v >>ᵤ 10]; c1 ← encoding.[(v >>ᵤ 4) &ᵤ 0x3f]; c2 ← encoding.[(v &ᵤ 0xf) <<ᵤ 2];
      buffer ← buf.[j <- Some c0]; buffer ← buffer.[j + 1 <- Some c1];
      buffer ← buffer.[j + 2 <- Some c2]; buffer.[j + 3 <- Some 61]
    else Some buf) = Some buf' ∧ filled n buf' (concat (map group_text gs) ++ tail_text r).
Proof.
  intros -> Hr Hl Hf Hn. cbv zeta. pose proof (len_nonneg gs).
  assert (len (concat (map group_bytes gs)) = 3 * len gs) as Hlt by (by apply len_groups).
  assert (len (concat (map group_text gs)) = 4 * len gs) as Hlc by (by apply len_groups).
  rewrite len_app, Hlt. replace (3 * len gs + len r - 3 * len gs) with (len r) by lia.
  assert (∀ i, 0 ≤ i → (concat (map group_bytes gs) ++ r).[3 * len gs + i] = r.[i]) as Hget.
  { intros i Hi. rewrite !arr_get_nonneg by lia. rewrite lookup_app_r by (unfold len in *; lia).
    f_equal. unfold len in *. lia. }
  pose proof (Hget 0 ltac:(lia)) as H0. rewrite Z.add_0_r in H0.
  pose proof (Hget 1 ltac:(lia)) as H1. rewrite H0, H1.
  destruct r as [|a [|b [|c r]]]; cycle 3.
  { unfold len in Hl. simpl in Hl. lia. }
  - exists buf. rewrite app_nil_r. done.
  - change (len [a] =? 1) with true. cbv iota. change ([a].[0]) with (Some a).
    apply Forall_cons in Hr as [Ha _]. cbv beta in Ha.
    pose proof (encode_shifts1 a Ha) as E. injection E as -> ->.
    pose proof (div_range a 4 64). pose proof (Z.mod_pos_bound a 4).
    rewrite !encoding_get by lia. destruct Hn as [Hn|]; [|done].
    destruct (filled_four n buf _ (b64char (a / 4)) (b64char (a mod 4 * 16)) 61 61 (4 * len gs) Hf)
      as (b1 & b2 & b3 & b4 & -> & -> & -> & -> & Hf4); [done|done|]. by exists b4.
  - change (len [a; b] =? 1) with false. change (len [a; b] =? 2) with true. cbv iota.
    change ([a; b].[0]) with (Some a). change ([a; b].[1]) with (Some b).
    cbv beta iota zeta.
    pose proof (encode_shifts2 a b Hr) as E. cbv zeta in E. injection E as -> -> ->.
    unfold bytes in Hr. rewrite !Forall_cons in Hr. destruct Hr as (Ha & Hb & _).
    pose proof (div_range a 4 64). pose proof (div_range b 16 16).
    pose proof (Z.mod_pos_bound a 4). pose proof (Z.mod_pos_bound b 16).
    rewrite !encoding_get by lia. destruct Hn as [Hn|]; [|done].
    destruct (filled_four n buf _ (b64char (a / 4)) (b64char (a mod 4 * 16 + b / 16))
      (b64char (b mod 16 * 4)) 61 (4 * len gs) Hf)
      as (b1 & b2 & b3 & b4 & -> & -> & -> & -> & Hf4); [done|done|]. by exists b4.
Qed.

Lemma tail_len r : len r < 3 → len (tail_text r) = if len r =? 0 then 0 else 4.
Proof.
  intros H. destruct r as [|a [|b [|c r]]]; try done. unfold len in H. simpl in H. lia.
Qed.

Lemma lb64encode_spec gs r : groups_ok gs → bytes r → len r < 3 →
  3 * len gs + len r < 2 ^ 30 →
  lb64encode (concat (map group_bytes gs) ++ r) =
    Some (map Some (concat (map group_text gs) ++ tail_text r)).
Proof.
  intros HF Hr Hl Hlen. set (text := concat (map group_bytes gs) ++ r).
  pose proof (len_nonneg gs). pose proof (len_nonneg r).
  assert (len (concat (map group_bytes gs)) = 3 * len gs) as Hlt by (by apply len_groups).
  assert (len text = 3 * len gs + len r) as Ht by (subst text; by rewrite len_app, Hlt).
  unfold lb64encode. rewrite Ht.
  set (sz := if len r =? 0 then 4 * len gs else 4 * len gs + 4).
  assert ((3 * len gs + len r + 2) / 3 * 4 = sz) as ->.
  { subst sz. destruct (Z.eqb_spec (len r) 0).
    - rewrite <- (Z.div_unique _ 3 (len gs) 2) by lia. lia.
    - rewrite <- (Z.div_unique _ 3 (len gs + 1) (len r - 1)) by lia. lia. }
  rewrite !s32_small by (subst sz; destruct (len r =? 0); lia). cbv zeta.
  set (buf0 := if SMALL_CHUNK <? sz then _ else _).
  assert (∃ n, sz ≤ n ∧ filled n buf0 []) as (n & Hn & Hf0).
  { subst buf0. unfold SMALL_CHUNK. destruct (Z.ltb_spec 256 sz).
    - exists sz. split; [done|apply filled_malloc; lia].
    - exists 256. split; [done|by apply filled_malloc]. }
  match goal with |- context [for_step 0 ?hi 3 ?body ?s0] =>
    destruct (for_step_inv (λ i '((i', j, buf) : Z * Z * block), i' = 3 * i ∧ j = 4 * i ∧
        filled n buf (concat (map group_text (take (Z.to_nat i) gs)))) 0 hi 3 body s0 (len gs))
      as ([[i j] buf] & -> & -> & -> & Hf) end.
  - apply Z.div_unique with (len r); lia.
  - lia.
  - lia.
  - done.
  - intros i [[i' j] buf] Hi (-> & -> & Hf). rewrite Z.add_0_l.
    destruct (arr_get_is_Some gs i Hi) as [g Hg].
    pose proof (take_next gs i g (proj1 Hi) Hg) as Etake.
    pose proof (arr_get_Forall _ _ _ _ HF Hg) as Hb. cbv beta in Hb.
    rewrite arr_get_nonneg in Hg by lia.
    pose proof (λ k Hk, group_get gs r _ g k Hg Hk) as Hget.
    replace (3 * Z.of_nat (Z.to_nat i)) with (i * 3) in Hget by lia. fold text in Hget.
    pose proof (Hget 0 ltac:(lia)) as G0. rewrite Z.add_0_r in G0.
    rewrite G0, (Hget 1), (Hget 2) by lia. destruct g as [[a b] c].
    change ((group_bytes (a, b, c)).[0]) with (Some a). change ((group_bytes (a, b, c)).[1]) with (Some b).
    change ((group_bytes (a, b, c)).[2]) with (Some c). cbv beta iota zeta.
    pose proof (encode_shifts a b c Hb) as E. cbv zeta in E. injection E as -> -> -> ->.
    pose proof (sextets_range a b c Hb) as Hs. unfold sextets in Hs. rewrite !Forall_cons in Hs.
    destruct Hs as (S1 & S2 & S3 & S4 & _). rewrite !encoding_get by done.
    assert (len (concat (map group_text (take (Z.to_nat i) gs))) = 4 * i) as Hout.
    { rewrite (len_groups group_text 4) by done. rewrite len_take; lia. }
    assert (4 * i + 4 ≤ n) by (subst sz; destruct (len r =? 0); lia).
    destruct (filled_four n buf _ (b64char (a / 4)) (b64char (a mod 4 * 16 + b / 16))
      (b64char (b mod 16 * 4 + c / 64)) (b64char (c mod 64)) (4 * i) Hf)
      as (b1 & b2 & b3 & b4 & E1 & E2 & E3 & E4 & Hf4); [done|done|].
    rewrite E1, E2, E3, E4. eexists. split; [done|]. split; [lia|]. split; [lia|].
    rewrite Etake, List.map_app, List.concat_app. cbn [map concat]. rewrite app_nil_r. exact Hf4.
  - rewrite take_ge in Hf by (unfold len; lia).
    destruct (encode_tail text gs r n buf eq_refl Hr Hl Hf) as (buf' & E & Hf').
    { subst sz. destruct (Z.eqb_spec (len r) 0) as [E0|]; [right|left; lia].
      destruct r as [|x r']; [done|]. rewrite len_cons in E0. pose proof (len_nonneg r'). lia. }
    rewrite Ht in E. cbv zeta in E. rewrite E. apply (filled_read n); [done|].
    rewrite len_app, tail_len by done. rewrite (len_groups group_text 4) by done.
    subst sz. destruct (len r =? 0); lia.
Qed.

(** *** Decoding *)

(** A character of the alphabet or '=' is the next value of the group. *)
Lemma b64_group_take fuel text pre t rest padding c cj :
  text = pre ++ t :: rest → b64index t = Some cj → cj ≠ -1 → len c ≠ 4 →
  b64_group (S fuel) text (len pre) padding c =
  b64_group fuel text (len (pre ++ [t])) (if cj =? -2 then padding + 1 else padding) (c ++ [cj]).
Proof.
  intros -> Ht Hcj Hc. pose proof (len_nonneg rest). pose proof (len_nonneg pre). cbn [b64_group].
  rewrite (proj2 (Z.eqb_neq _ _) Hc), (proj2 (Z.leb_gt _ _)) by (rewrite len_app, len_cons; lia).
  assert ((pre ++ t :: rest).[len pre] = Some t) as ->.
  { unfold len. rewrite arr_get_of_nat. by apply list_lookup_middle. }
  rewrite Ht, (proj2 (Z.eqb_neq _ _) Hcj). by rewrite len_app.
Qed.

Lemma b64_group_four fuel pre t0 t1 t2 t3 rest c0 c1 c2 c3 :
  let text := pre ++ [t0; t1; t2; t3] ++ rest in
  b64index t0 = Some c0 → b64index t1 = Some c1 → b64index t2 = Some c2 → b64index t3 = Some c3 →
  0 ≤ c0 → 0 ≤ c1 → c2 ≠ -1 → c3 ≠ -1 → (4 ≤ fuel)%nat →
  b64_group fuel text (len pre) 0 [] =
    Some (Return (len pre + 4,
      (if c3 =? -2 then 1 else 0) + (if c2 =? -2 then 1 else 0), [c0; c1; c2; c3])).
Proof.
  intros text H0 H1 H2 H3 P0 P1 P2 P3 Hf.
  do 4 (destruct fuel as [|fuel]; [lia|]).
  rewrite (b64_group_take _ text pre t0 ([t1; t2; t3] ++ rest) 0 [] c0) by (done || lia).
  rewrite (proj2 (Z.eqb_neq c0 _)) by lia.
  rewrite (b64_group_take _ text (pre ++ [t0]) t1 ([t2; t3] ++ rest) 0 _ c1);
    [|by subst text; rewrite <- !app_assoc|done|lia|done].
  rewrite (proj2 (Z.eqb_neq c1 _)) by lia.
  rewrite (b64_group_take _ text ((pre ++ [t0]) ++ [t1]) t2 (t3 :: rest) 0 _ c2);
    [|by subst text; rewrite <- !app_assoc|done|lia|done].
  rewrite (b64_group_take _ text (((pre ++ [t0]) ++ [t1]) ++ [t2]) t3 rest _ _ c3);
    [|by subst text; rewrite <- !app_assoc|done|lia|done].
  destruct fuel; cbn [b64_group app]; change (len [c0; c1; c2; c3] =? 4) with true; cbv iota;
    rewrite !len_app; unfold len at 2 3 4 5; cbn [length Z.of_nat Pos.of_succ_nat Pos.succ];
    do 4 f_equal; zcases; lia.
Qed.

(** The three bytes of four values. *)
Lemma b64_output_3 n buf out a b c : bytes [a; b; c] → filled n buf out → len out + 3 ≤ n →
  ∃ buf', b64_output 0 (sextets a b c) buf (len out) = Some (Return (buf', len out + 3))
          ∧ filled n buf' (out ++ [a; b; c]).
Proof.
  intros H Hf Hn. unfold bytes in H. rewrite !Forall_cons in H. destruct H as (Ha & Hb & Hc & _).
  pose proof (Z.div_mod a 4). pose proof (Z.mod_pos_bound a 4). pose proof (div_range a 4 64).
  pose proof (Z.div_mod b 16). pose proof (Z.mod_pos_bound b 16). pose proof (div_range b 16 16).
  pose proof (Z.div_mod c 64). pose proof (Z.mod_pos_bound c 64). pose proof (div_range c 64 4).
  unfold b64_output, sextets.
  change ([?x0; ?x1; ?x2; ?x3].[0]) with (Some x0). change ([?x0; ?x1; ?x2; ?x3].[1]) with (Some x1).
  change ([?x0; ?x1; ?x2; ?x3].[2]) with (Some x2). change ([?x0; ?x1; ?x2; ?x3].[3]) with (Some x3).
  cbv beta iota zeta. change (0 =? 0) with true. cbv iota.
  set (c0 := a / 4). set (c1 := a mod 4 * 16 + b / 16). set (c2 := b mod 16 * 4 + c / 64).
  set (c3 := c mod 64).
  assert ((u32 c0 <<ᵤ 18) |ᵤ u32 (c1 <<ₛ 12) |ᵤ u32 (c2 <<ₛ 6) |ᵤ u32 c3 =
    a * 2 ^ 16 + b * 2 ^ 8 + c) as ->.
  { rewrite !Z.shiftl_mul_pow2 by lia. rewrite !s32_small by (subst c1 c2; lia).
    rewrite !u32_small by (subst c0 c1 c2 c3; rewrite ?u32_small; lia).
    rewrite lor_low by (subst c1; lia).
    replace (c0 * 2 ^ 18 + c1 * 2 ^ 12) with ((c0 * 2 ^ 6 + c1) * 2 ^ 12) by lia.
    rewrite lor_low by (subst c2; lia).
    replace ((c0 * 2 ^ 6 + c1) * 2 ^ 12 + c2 * 2 ^ 6) with (((c0 * 2 ^ 6 + c1) * 2 ^ 6 + c2) * 2 ^ 6) by lia.
    rewrite lor_low by (subst c3; lia). subst c0 c1 c2 c3. lia. }
  change 0xff with (2 ^ 8 - 1). rewrite !land_mask, !Z.shiftr_div_pow2 by lia.
  rewrite <- (Z.div_unique _ (2 ^ 16) a (b * 2 ^ 8 + c)) by lia. rewrite u8_small by lia.
  rewrite <- (Z.div_unique _ (2 ^ 8) (a * 2 ^ 8 + b) c) by lia.
  rewrite <- (Z.mod_unique (a * 2 ^ 8 + b) (2 ^ 8) a b) by lia.
  rewrite <- (Z.mod_unique _ (2 ^ 8) (a * 2 ^ 8 + b) c) by lia.
  destruct (filled_set n buf _ a (len out) Hf) as (b1 & -> & F1); [done|lia|].
  destruct (filled_set n b1 _ b (len out + 1) F1) as (b2 & -> & F2); [by rewrite len_app|lia|].
  destruct (filled_set n b2 _ c (len out + 2) F2) as (b3 & -> & F3);
    [rewrite !len_app; unfold len; simpl; lia|lia|].
  exists b3. split; [done|]. by rewrite <- !app_assoc in F3.
Qed.

Lemma b64_output_2 n buf out a b : bytes [a; b] → filled n buf out → len out + 2 ≤ n →
  ∃ buf', b64_output 1 [a / 4; a mod 4 * 16 + b / 16; b mod 16 * 4; -2] buf (len out)
            = Some (Return (buf', len out + 2))
          ∧ filled n buf' (out ++ [a; b]).
Proof.
  intros H Hf Hn. unfold bytes in H. rewrite !Forall_cons in H. destruct H as (Ha & Hb & _).
  pose proof (Z.div_mod a 4). pose proof (Z.mod_pos_bound a 4). pose proof (div_range a 4 64).
  pose proof (Z.div_mod b 16). pose proof (Z.mod_pos_bound b 16). pose proof (div_range b 16 16).
  unfold b64_output.
  change ([?x0; ?x1; ?x2; ?x3].[0]) with (Some x0). change ([?x0; ?x1; ?x2; ?x3].[1]) with (Some x1).
  change ([?x0; ?x1; ?x2; ?x3].[2]) with (Some x2). change ([?x0; ?x1; ?x2; ?x3].[3]) with (Some x3).
  cbv beta iota zeta. change (1 =? 0) with false. change (1 =? 1) with true.
  change (-2 =? -2) with true. cbv iota.
  change 3 with (2 ^ 2 - 1) at 1. rewrite land_mask by lia. change (2 ^ 2) with 4.
  rewrite Z_mod_mult. change (negb true || truth 0) with false. cbv iota.
  set (c0 := a / 4). set (c1 := a mod 4 * 16 + b / 16).
  rewrite (Z.shiftr_div_pow2 (_ * 4)) by lia. change (2 ^ 2) with 4. rewrite Z.div_mul by lia.
  assert ((u32 c0 <<ᵤ 10) |ᵤ u32 (c1 <<ₛ 4) |ᵤ u32 (b mod 16) = a * 2 ^ 8 + b) as ->.
  { rewrite !Z.shiftl_mul_pow2 by lia. rewrite !s32_small by (subst c1; lia).
    rewrite !u32_small by (subst c0 c1; rewrite ?u32_small; lia).
    rewrite lor_low by (subst c1; lia).
    replace (c0 * 2 ^ 10 + c1 * 2 ^ 4) with ((c0 * 2 ^ 6 + c1) * 2 ^ 4) by lia.
    rewrite lor_low by lia. subst c0 c1. lia. }
  change 0xff with (2 ^ 8 - 1). rewrite !land_mask, !Z.shiftr_div_pow2 by lia.
  rewrite <- (Z.div_unique _ (2 ^ 8) a b) by lia. rewrite u8_small by lia.
  rewrite <- (Z.mod_unique _ (2 ^ 8) a b) by lia.
  destruct (filled_set n buf _ a (len out) Hf) as (b1 & -> & F1); [done|lia|].
  destruct (filled_set n b1 _ b (len out + 1) F1) as (b2 & -> & F2); [by rewrite len_app|lia|].
  exists b2. split; [done|]. by rewrite <- !app_assoc in F2.
Qed.

Lemma b64_output_1 n buf out a : bytes [a] → filled n buf out → len out + 1 ≤ n →
  ∃ buf', b64_output 2 [a / 4; a mod 4 * 16; -2; -2] buf (len out)
            = Some (Return (buf', len out + 1))
          ∧ filled n buf' (out ++ [a]).
Proof.
  intros H Hf Hn. unfold bytes in H. rewrite !Forall_cons in H. destruct H as (Ha & _).
  pose proof (Z.div_mod a 4). pose proof (Z.mod_pos_bound a 4). pose proof (div_range a 4 64).
  unfold b64_output.
  change ([?x0; ?x1; ?x2; ?x3].[0]) with (Some x0). change ([?x0; ?x1; ?x2; ?x3].[1]) with (Some x1).
  change ([?x0; ?x1; ?x2; ?x3].[2]) with (Some x2). change ([?x0; ?x1; ?x2; ?x3].[3]) with (Some x3).
  cbv beta iota zeta. change (2 =? 0) with false. change (2 =? 1) with false. change (2 =? 2) with true.
  change (-2 =? -2) with true. cbv iota.
  change 0xf with (2 ^ 4 - 1). rewrite land_mask by lia. change (2 ^ 4) with 16.
  rewrite Z_mod_mult. change (negb true || negb true || truth 0) with false. cbv iota.
  rewrite (Z.shiftr_div_pow2 (_ * 16)) by lia. change (2 ^ 4) with 16. rewrite Z.div_mul by lia.
  rewrite Z.shiftl_mul_pow2, !u32_small by (rewrite ?u32_small; lia). rewrite lor_low by lia.
  replace (a / 4 * 2 ^ 2 + a mod 4) with a by lia. rewrite u8_small by lia.
  destruct (filled_set n buf _ a (len out) Hf) as (b1 & -> & F1); [done|lia|].
  by exists b1.
Qed.

Lemma group_text_index g : bytes (group_bytes g) →
  ∃ t0 t1 t2 t3, group_text g = [t0; t1; t2; t3] ∧
    b64index t0 = Some (g.1.1 / 4) ∧ b64index t1 = Some (g.1.1 mod 4 * 16 + g.1.2 / 16) ∧
    b64index t2 = Some (g.1.2 mod 16 * 4 + g.2 / 64) ∧ b64index t3 = Some (g.2 mod 64).
Proof.
  intros Hb. pose proof (sextets_range _ _ _ Hb) as Hs. unfold sextets in Hs.
  rewrite !Forall_cons in Hs. destruct Hs as (S1 & S2 & S3 & S4 & _).
  do 4 eexists. split; [reflexivity|]. by rewrite !b64index_char.
Qed.

Lemma b64_loop_end fuel text buf out n : filled n buf out →
  b64_loop fuel text (len text) buf (len out) = Some (Return (map Some out)).
Proof.
  intros Hf. destruct fuel; simpl; rewrite Z.leb_refl, (filled_read n buf out) by done; done.
Qed.

Lemma b64_loop_tail fuel pre r n buf out :
  let text := pre ++ tail_text r in
  bytes r → len r < 3 → filled n buf out → len out + len r ≤ n →
  (0 < fuel)%nat → b64_loop fuel text (len pre) buf (len out) = Some (Return (map Some (out ++ r))).
Proof.
  intros text Hr Hl Hf Hn Hfuel. destruct r as [|a [|b [|c r]]]; cycle 3.
  { unfold len in Hl. simpl in Hl. lia. }
  - subst text. simpl. rewrite !app_nil_r. by eapply b64_loop_end.
  - destruct fuel as [|fuel]; [lia|]. cbn [b64_loop].
    assert (len text = len pre + 4) as Ht by (subst text; by rewrite len_app).
    rewrite (proj2 (Z.leb_gt _ _)) by lia.
    pose proof Hr as Hr'. apply Forall_cons in Hr' as [Ha _]. cbv beta in Ha.
    pose proof (div_range a 4 64). pose proof (Z.mod_pos_bound a 4).
    pose proof (b64_group_four (length text) pre (b64char (a / 4)) (b64char (a mod 4 * 16)) 61 61 []
      (a / 4) (a mod 4 * 16) (-2) (-2)) as E. cbv zeta in E. rewrite app_nil_r in E.
    change (pre ++ [b64char (a / 4); b64char (a mod 4 * 16); 61; 61]) with text in E.
    rewrite E; [|by rewrite ?b64index_char by lia..|lia|lia|lia|lia|unfold len in Ht; lia].
    change ((if -2 =? -2 then 1 else 0) + (if -2 =? -2 then 1 else 0)) with 2. cbv iota beta.
    destruct (b64_output_1 n buf out a Hr Hf Hn) as (buf' & -> & Hf'). cbv iota beta.
    rewrite <- Ht. replace (len out + 1) with (len (out ++ [a])) by (by rewrite len_app).
    by eapply b64_loop_end.
  - destruct fuel as [|fuel]; [lia|]. cbn [b64_loop].
    assert (len text = len pre + 4) as Ht by (subst text; by rewrite len_app).
    rewrite (proj2 (Z.leb_gt _ _)) by lia.
    pose proof Hr as Hr'. unfold bytes in Hr'. rewrite !Forall_cons in Hr'. destruct Hr' as (Ha & Hb & _).
    pose proof (div_range a 4 64). pose proof (Z.mod_pos_bound a 4).
    pose proof (div_range b 16 16). pose proof (Z.mod_pos_bound b 16).
    pose proof (b64_group_four (length text) pre (b64char (a / 4)) (b64char (a mod 4 * 16 + b / 16))
      (b64char (b mod 16 * 4)) 61 [] (a / 4) (a mod 4 * 16 + b / 16) (b mod 16 * 4) (-2)) as E.
    cbv zeta in E. rewrite app_nil_r in E. fold text in E.
    change (pre ++ [_; _; _; 61]) with text in E.
    rewrite E; [|by rewrite ?b64index_char by lia..|lia|lia|lia|lia|unfold len in Ht; lia].
    rewrite (proj2 (Z.eqb_neq (b mod 16 * 4) _)) by lia.
    change ((if -2 =? -2 then 1 else 0) + 0) with 1. cbv iota beta.
    destruct (b64_output_2 n buf out a b Hr Hf Hn) as (buf' & -> & Hf'). cbv iota beta.
    rewrite <- Ht. replace (len out + 2) with (len (out ++ [a; b])) by (by rewrite len_app).
    by eapply b64_loop_end.
Qed.

Lemma b64_loop_spec r n gs : bytes r → len r < 3 → groups_ok gs → ∀ fuel pre out buf,
  let text := pre ++ concat (map group_text gs) ++ tail_text r in
  filled n buf out → len out + 3 * len gs + len r ≤ n → (length gs < fuel)%nat →
  b64_loop fuel text (len pre) buf (len out) =
    Some (Return (map Some (out ++ concat (map group_bytes gs) ++ r))).
Proof.
  intros Hr Hl HF. induction HF as [|g gs Hg HF IH]; intros fuel pre out buf text Hf Hn Hfuel.
  - apply (b64_loop_tail fuel pre r n); try done. unfold len at 2 in Hn. simpl in Hn. lia.
  - destruct fuel as [|fuel]; [simpl in Hfuel; lia|]. cbn [b64_loop].
    destruct (group_text_index g Hg) as (t0 & t1 & t2 & t3 & Et & I0 & I1 & I2 & I3).
    pose proof (sextets_range _ _ _ Hg) as Hs. unfold sextets in Hs.
    rewrite !Forall_cons in Hs. destruct Hs as (S1 & S2 & S3 & S4 & _).
    set (rest := concat (map group_text gs) ++ tail_text r).
    assert (text = pre ++ [t0; t1; t2; t3] ++ rest) as Etext.
    { subst text rest. cbn [map concat]. by rewrite Et, <- app_assoc. }
    pose proof (len_nonneg rest). pose proof (len_nonneg pre). pose proof (len_nonneg gs).
    assert (len text = len pre + 4 + len rest) as Ht.
    { rewrite Etext, !len_app. unfold len at 2. simpl. lia. }
    rewrite (proj2 (Z.leb_gt _ _)) by lia. rewrite len_cons in Hn. pose proof (len_nonneg r).
    pose proof (b64_group_four (length text) pre t0 t1 t2 t3 rest _ _ _ _ I0 I1 I2 I3) as E.
    cbv zeta in E. rewrite <- Etext in E.
    rewrite E by (lia || unfold len in Ht; lia).
    rewrite !(proj2 (Z.eqb_neq _ (-2))) by lia. change (0 + 0) with 0. cbv iota beta.
    destruct (b64_output_3 n buf out _ _ _ Hg Hf) as (buf' & E3 & Hf'); [lia|].
    unfold sextets in E3. rewrite E3. cbv iota beta.
    replace (len pre + 4) with (len (pre ++ [t0; t1; t2; t3])) by (by rewrite len_app).
    change [g.1.1; g.1.2; g.2] with (group_bytes g) in Hf'.
    replace (len out + 3) with (len (out ++ group_bytes g)) by (by rewrite len_app).
    rewrite Etext, app_assoc. subst rest. rewrite (IH fuel); [|done| |simpl in Hfuel; lia].
    + cbn [map concat]. by rewrite <- !app_assoc.
    + rewrite len_app. change (len (group_bytes g)) with 3. lia.
Qed.

Lemma lb64decode_spec gs r : groups_ok gs → bytes r → len r < 3 →
  3 * len gs + len r < 2 ^ 30 →
  lb64decode (concat (map group_text gs) ++ tail_text r) =
    Some (Return (map Some (concat (map group_bytes gs) ++ r))).
Proof.
  intros HF Hr Hl Hlen. set (text := concat (map group_text gs) ++ tail_text r).
  pose proof (len_nonneg gs). pose proof (len_nonneg r).
  assert (len text = 4 * len gs + if len r =? 0 then 0 else 4) as Ht.
  { subst text. rewrite len_app, tail_len by done. by rewrite (len_groups group_text 4). }
  unfold lb64decode.
  assert (∃ k, (len text + 3) / 4 * 3 = 3 * k ∧ len gs ≤ k ∧ 3 * len gs + len r ≤ 3 * k
    ∧ k ≤ len gs + 1) as (k & -> & Hk1 & Hk2 & Hk3).
  { rewrite Ht. destruct (Z.eqb_spec (len r) 0).
    - exists (len gs). rewrite <- (Z.div_unique _ 4 (len gs) 3) by lia. lia.
    - exists (len gs + 1). rewrite <- (Z.div_unique _ 4 (len gs + 1) 3) by lia. lia. }
  rewrite s32_small by lia. cbv zeta. set (buf0 := if _ <? _ then _ else _).
  assert (∃ n, 3 * k ≤ n ∧ filled n buf0 []) as (n & Hn & Hf0).
  { subst buf0. unfold SMALL_CHUNK. destruct (Z.ltb_spec 256 (3 * k)).
    - exists (3 * k). split; [done|apply filled_malloc; lia].
    - exists 256. split; [done|by apply filled_malloc]. }
  destruct (decide (text = [])) as [E0|Hne].
  - assert (len gs = 0 ∧ len r = 0) as [Hg Hr0].
    { rewrite E0 in Ht. change (len (@nil Z)) with 0 in Ht. revert Ht. zcases; lia. }
    rewrite E0. destruct gs as [|g gs]; [|rewrite len_cons in Hg; pose proof (len_nonneg gs); lia].
    destruct r as [|x r]; [|rewrite len_cons in Hr0; pose proof (len_nonneg r); lia].
    exact (b64_loop_end 0 [] buf0 [] n Hf0).
  - apply (b64_loop_spec r n gs Hr Hl HF (length text) [] [] buf0 Hf0).
    + change (len (@nil Z)) with 0. lia.
    + assert (0 < len text). { destruct text; [done|]. rewrite len_cons. pose proof (len_nonneg text). lia. }
      unfold len in *. destruct (Z.of_nat (length r) =? 0); lia.
Qed.

Lemma groups_of text : bytes text →
  ∃ gs r, text = concat (map group_bytes gs) ++ r ∧ groups_ok gs ∧ bytes r ∧ len r < 3.
Proof.
  remember (length text) as n eqn:E. assert (length text ≤ n)%nat as Hn by lia. clear E.
  revert text Hn. induction n as [|n IH]; intros text Hn Hb.
  - exists [], text. destruct text; [|simpl in Hn; lia]. by repeat constructor.
  - assert (len text < 3 → ∃ gs r, text = concat (map group_bytes gs) ++ r ∧ groups_ok gs ∧
      bytes r ∧ len r < 3) as Hshort.
    { intros Hs. exists [], text. by repeat constructor. }
    destruct text as [|a [|b [|c text]]]; [by apply Hshort..|]. clear Hshort.
    pose proof Hb as Hb'. unfold bytes in Hb'. rewrite !Forall_cons in Hb'.
    destruct Hb' as (Ha & Hb1 & Hc & Ht). destruct (IH text) as (gs & r & -> & HF & Hr & Hl); [simpl in Hn; lia|done|].
    exists ((a, b, c) :: gs), r. split; [done|]. split; [|done]. constructor; [|done].
    unfold bytes, group_bytes. rewrite !Forall_cons. done.
Qed.

Lemma lxor_str_spec s1 s2 : s2 ≠ [] →
  ∃ o, lxor_str s1 s2 = Some (Return (map Some o)) ∧ len o = len s1 ∧
    ∀ i a b, s1.[i] = Some a → s2.[i mod len s2] = Some b → o.[i] = Some (Z.lxor a b).
Proof.
  intros Hne. assert (0 < len s2) as Hl2.
  { destruct s2; [done|]. rewrite len_cons. pose proof (len_nonneg s2). lia. }
  pose proof (len_nonneg s1). unfold lxor_str. rewrite (proj2 (Z.eqb_neq _ _)) by lia.
  match goal with |- context [for_range 0 (len s1) ?body ?b0] =>
    destruct (for_range_inv (λ i buf, ∃ o, filled (len s1) buf o ∧ len o = i ∧
      ∀ j a b, j < i → s1.[j] = Some a → s2.[j mod len s2] = Some b → o.[j] = Some (Z.lxor a b))
      0 (len s1) body b0) as (buf & -> & o & Hf & Hlo & Ho) end; [lia| | |].
  - exists []. split; [by apply filled_malloc|]. split; [done|].
    intros j a b Hj Ha. apply arr_get_Some in Ha. lia.
  - intros i buf Hi (o & Hf & Hlo & Ho).
    destruct (arr_get_is_Some s1 i Hi) as [a Ha].
    destruct (arr_get_is_Some s2 (i mod len s2)) as [b Hb]; [apply Z.mod_pos_bound; lia|].
    rewrite Ha, Hb. destruct (filled_set _ buf o (Z.lxor a b) i Hf) as (buf' & -> & Hf'); [done|lia|].
    eexists. split; [done|]. exists (o ++ [Z.lxor a b]). split; [done|].
    rewrite len_app, Hlo. split; [done|]. intros j a' b' Hj Ha' Hb'.
    pose proof (arr_get_Some _ _ _ Ha'). rewrite arr_get_nonneg by lia.
    destruct (Z.eq_dec j i) as [->|Hji].
    + rewrite lookup_app_r by (unfold len in Hlo; lia).
      replace (Z.to_nat i - length o)%nat with 0%nat by (unfold len in Hlo; lia).
      assert (a' = a) as -> by congruence. assert (b' = b) as -> by congruence. done.
    + rewrite lookup_app_l by (unfold len in Hlo; lia).
      rewrite <- arr_get_nonneg by lia. apply Ho; [lia|done..].
  - rewrite (filled_read _ buf o) by done. exists o. split; [done|]. split; [done|].
    intros i a b Ha Hb. apply Ho; [|done..]. apply arr_get_Some in Ha. lia.
Qed.

(** ** Properties *)

(** C29: The Diffie-Hellman exchange agrees: whatever two non-zero 8-byte
    secrets the sides take, both [dhexchange]s succeed, each [dhsecret] of the
    other side's public key and the own secret succeeds, and both are the same
    eight bytes, of 5^(ab) modulo the prime.  Every product is reduced without
    overflowing a [uint64_t], and no public key is 0. *)
Theorem dh_agreement a b :
  chunk a → chunk b → of_le a ≠ 0 → of_le b ≠ 0 →
  ∃ pa pb s, ldhexchange a = Some (Return pa) ∧ ldhexchange b = Some (Return pb) ∧
    ldhsecret pb a = Some (Return s) ∧ ldhsecret pa b = Some (Return s) ∧
    of_le s = 5 ^ (of_le a * of_le b) mod P.
Proof.
  intros Ha Hb Ha0 Hb0. pose proof P_range as HP.
  pose proof (of_le_range a (proj1 Ha)). pose proof (of_le_range b (proj1 Hb)).
  assert (∀ x y, 0 ≤ x → 0 ≤ y → (5 ^ x mod P) ^ y mod P = 5 ^ (x * y) mod P) as Hpow.
  { intros x y Hx Hy. rewrite <- Zpower_mod, <- Z.pow_mul_r by lia. done. }
  assert (∀ x, 0 ≤ x → 0 ≤ 5 ^ x mod P < P) as Hmod by (intros; apply Z.mod_pos_bound; lia).
  assert (∀ x y, chunk x → chunk y → of_le x ≠ 0 → of_le y ≠ 0 →
    ldhsecret (push64 (5 ^ of_le x mod P)) y =
      Some (Return (push64 (5 ^ (of_le x * of_le y) mod P)))) as Hs.
  { intros x y Hx Hy Hx0 Hy0. pose proof (of_le_range x (proj1 Hx)).
    pose proof (of_le_range y (proj1 Hy)). pose proof (Hmod (of_le x)).
    pose proof (pow5_nonzero (of_le x)).
    rewrite ldhsecret_spec; [|apply push64_chunk|done|rewrite push64_value by lia; lia|done|
      rewrite push64_value by lia; lia].
    by rewrite push64_value, Hpow by lia. }
  do 3 eexists. rewrite !ldhexchange_spec by done. split; [done|]. split; [done|].
  rewrite !Hs by done. split; [done|]. rewrite (Z.mul_comm (of_le a)). split; [done|].
  rewrite push64_value; [done|]. pose proof (Hmod (of_le b * of_le a)). lia.
Qed.

Lemma dh_agreement_witness :
  ∃ pa pb s, ldhexchange [7; 0; 0; 0; 0; 0; 0; 1] = Some (Return pa) ∧
    ldhexchange [255; 255; 255; 255; 255; 255; 255; 255] = Some (Return pb) ∧
    ldhsecret pb [7; 0; 0; 0; 0; 0; 0; 1] = Some (Return s) ∧
    ldhsecret pa [255; 255; 255; 255; 255; 255; 255; 255] = Some (Return s) ∧
    of_le s = 5 ^ (of_le [7; 0; 0; 0; 0; 0; 0; 1] *
                      of_le [255; 255; 255; 255; 255; 255; 255; 255]) mod P.
Proof.
  apply (dh_agreement [7; 0; 0; 0; 0; 0; 0; 1] [255; 255; 255; 255; 255; 255; 255; 255]).
  - split; [repeat constructor; lia|reflexivity].
  - split; [repeat constructor; lia|reflexivity].
  - discriminate.
  - discriminate.
Defined.

(** [powmodp] computes powers modulo the prime for every base and every
    non-zero exponent of 64 bits; the one exception is the base [P] itself with
    exponent 1, which is returned unreduced because the test is [a > P]. *)
Theorem powmodp_correct a b : 0 ≤ a < 2 ^ 64 → 1 ≤ b < 2 ^ 64 →
  (powmodp a b = Some (a ^ b mod P) ↔ ¬ (a = P ∧ b = 1)) ∧ powmodp P 1 = Some P.
Proof.
  intros Ha Hb. pose proof P_range. split; [|by rewrite powmodp_mod by lia].
  rewrite powmodp_mod by done. destruct (Z.eqb_spec b 1) as [->|]; cbn [andb]; [|split; [intros _ [? ?]; lia|done]].
  destruct (Z.eqb_spec a P) as [->|]; [|split; [intros _ [? ?]; lia|done]].
  rewrite Z.pow_1_r, Z.mod_same by lia. split; [|tauto]. intros [= E].
Qed.

Lemma powmodp_correct_witness :
  (powmodp 123456789 987654321 = Some (123456789 ^ 987654321 mod P) ↔ ¬ (123456789 = P ∧ 987654321 = 1))
  ∧ powmodp P 1 = Some P.
Proof. apply (powmodp_correct 123456789 987654321); lia. Defined.

(** C30: base64 round trip: for every text below 2^30 bytes, of any length
    modulo 3, [base64encode] succeeds and [base64decode] of its result is the
    text; no character index leaves its table and no write its buffer. *)
Theorem base64_roundtrip text : bytes text → len text < 2 ^ 30 →
  ∃ enc, lb64encode text = Some (map Some enc) ∧ len enc = (len text + 2) / 3 * 4 ∧
         lb64decode enc = Some (Return (map Some text)).
Proof.
  intros Hb Hlen. destruct (groups_of text Hb) as (gs & r & -> & HF & Hr & Hl).
  rewrite len_app, (len_groups group_bytes 3) in * by done.
  eexists. split; [by apply lb64encode_spec|]. split; [|by apply lb64decode_spec].
  rewrite len_app, (len_groups group_text 4), tail_len by done. pose proof (len_nonneg r).
  destruct (Z.eqb_spec (len r) 0).
  - rewrite <- (Z.div_unique _ 3 (len gs) 2) by lia. lia.
  - rewrite <- (Z.div_unique _ 3 (len gs + 1) (len r - 1)) by lia. lia.
Qed.

Lemma base64_roundtrip_witness :
  ∃ enc, lb64encode [104; 101; 108; 108; 111; 0; 255] = Some (map Some enc) ∧ len enc = 12 ∧
         lb64decode enc = Some (Return (map Some [104; 101; 108; 108; 111; 0; 255])).
Proof.
  apply (base64_roundtrip [104; 101; 108; 108; 111; 0; 255]).
  - repeat constructor; lia.
  - unfold len. simpl. lia.
Defined.

(** Hexadecimal round trip: [hexdecode] of [hexencode] is the text, of any
    length. *)
Theorem hex_roundtrip text : bytes text →
  ∃ enc, ltohex text = Some (map Some enc) ∧ len enc = 2 * len text ∧
         lfromhex enc = Some (Return (map Some text)).
Proof.
  intros Hb. eexists. split; [by apply ltohex_spec|]. split; [|by apply lfromhex_spec].
  rewrite len_flat. unfold hex_pairs. by rewrite len_map.
Qed.

Lemma hex_roundtrip_witness :
  ∃ enc, ltohex [0; 127; 255] = Some (map Some enc) ∧ len enc = 6 ∧
         lfromhex enc = Some (Return (map Some [0; 127; 255])).
Proof. apply (hex_roundtrip [0; 127; 255]). repeat constructor; lia. Defined.

(** The check of [hexdecode] lets digits through that are none: every
    character from 'W' to '`' counts as 0 to 9, and 'g', whose value is 16,
    passes the test [> 16]; "g0" even decodes to the byte 0. *)
Theorem hexdecode_accepts_invalid c : 87 ≤ c ≤ 96 →
  lfromhex [c; 48] = Some (Return [Some (16 * (c - 87))]) ∧
  lfromhex [103; 48] = Some (Return [Some 0]).
Proof.
  intros Hc. split; [|reflexivity]. replace c with (87 + (c - 87)) by lia.
  assert (0 ≤ c - 87 < 16) as Hd by lia. assert (c - 87 ≤ 9) as H9 by lia.
  revert Hd H9. generalize (c - 87). clear Hc. intros d Hd. revert d Hd.
  apply (nibble_cases (λ d, d ≤ 9 → lfromhex [87 + d; 48] = Some (Return [Some (16 * (87 + d - 87))])));
    intros H; reflexivity || lia.
Qed.

Lemma hexdecode_accepts_invalid_witness :
  lfromhex [90; 48] = Some (Return [Some 48]) ∧ lfromhex [103; 48] = Some (Return [Some 0]).
Proof. apply (hexdecode_accepts_invalid 90). lia. Defined.

(** [xor_str] is its own inverse for every non-empty key, which is
    repeated over the text; an empty key is an error. *)
Theorem xor_str_involutive s key :
  if bool_decide (key = []) then lxor_str s key = Some (Error "Can't xor empty string")
  else ∃ o, lxor_str s key = Some (Return (map Some o)) ∧ len o = len s ∧
            lxor_str o key = Some (Return (map Some s)).
Proof.
  case_bool_decide as Hk; [by subst|].
  destruct (lxor_str_spec s key Hk) as (o & E & Hl & Ho). exists o. split; [done|]. split; [done|].
  destruct (lxor_str_spec o key Hk) as (o' & -> & Hl' & Ho'). do 2 f_equal. f_equal.
  apply arr_ext; [lia|]. intros i Hi.
  assert (0 < len key). { destruct key; [done|]. rewrite len_cons. pose proof (len_nonneg key). lia. }
  destruct (arr_get_is_Some s i) as [a Ha]; [lia|].
  destruct (arr_get_is_Some key (i mod len key)) as [b Hb]; [apply Z.mod_pos_bound; lia|].
  rewrite (Ho' i _ _ (Ho i _ _ Ha Hb) Hb), Ha.
  by rewrite Z.lxor_assoc, Z.lxor_nilpotent, Z.lxor_0_r.
Qed.
