(* ===== verification/DataBuffer.v ===== *)
(** * Byte queues over a pool of cells: service-src/databuffer.h

    A [databuffer] is the data of one connection that is not yet forwarded: a
    linked list of received blocks and an offset into the first.  Its cells come
    from a [messagepool] all the connections of a gate share.  A pointer to a
    cell is its index in [cells]; the pool allocates [MESSAGEPOOL] cells at a
    time at the end of it and keeps the free ones in a list.

    The abstract state of a connection is a list of bytes. *)

From S2P Require Import Prelude.

Definition MESSAGEPOOL : Z := 1023.

Record message := Message { m_buffer : option (list Z); m_size : Z; m_next : option Z }.

Record databuffer := DataBuffer {
  db_header : Z;
  db_offset : Z;
  db_size : Z;
  db_head : option Z;
  db_tail : option Z
}.

(** [pool] are the first cells of the allocated blocks. *)
Record messagepool := MessagePool {
  cells : list message;
  pool : list Z;
  freelist : option Z
}.

#[export] Instance eta_message : Eta message := λ m, Message (m_buffer m) (m_size m) (m_next m).
#[export] Instance eta_databuffer : Eta databuffer := λ d,
  DataBuffer (db_header d) (db_offset d) (db_size d) (db_head d) (db_tail d).
#[export] Instance eta_messagepool : Eta messagepool := λ p, MessagePool (cells p) (pool p) (freelist p).

Definition databuffer_zero : databuffer :=
  {| db_header := 0; db_offset := 0; db_size := 0; db_head := None; db_tail := None |}.
Definition messagepool_zero : messagepool := {| cells := []; pool := []; freelist := None |}.

(** Every block of the pool is freed: no pointer to a cell is valid any more. *)
Definition messagepool_free (mp : messagepool) : messagepool :=
  {| cells := []; pool := []; freelist := None |}.

(** [*p = m]. *)
Definition set_cell (mp : messagepool) (p : Z) (m : message) : option messagepool :=
  c ← (cells mp).[p <- m]; Some (mp <| cells := c |>).

Definition _return_message (db : databuffer) (mp : messagepool) : option (databuffer * messagepool) :=
  p ← db_head db;
  m ← (cells mp).[p];
  db ← match m_next m with
       | None => assert! bool_decide (db_tail db = Some p);
                 Some (db <| db_head := (None : option Z) |> <| db_tail := (None : option Z) |>)
       | Some next => Some (db <| db_head := Some next |>)
       end;
  mp ← set_cell mp p {| m_buffer := None; m_size := 0; m_next := freelist mp |};
  Some (db, mp <| freelist := Some p |>).

(** [for (;;)] of [databuffer_read]; [out] is what was copied so far. *)
Fixpoint read_loop (fuel : nat) (db : databuffer) (mp : messagepool) (out : list Z) (sz : Z)
  : option (list Z * databuffer * messagepool) :=
  match fuel with
  | O => None
  | S fuel =>
      p ← db_head db;
      current ← (cells mp).[p];
      let bsz := m_size current - db_offset db in
      buffer ← m_buffer current;
      if sz <? bsz then
        data ← mem_read buffer (db_offset db) sz;
        Some (out ++ data, db <| db_offset := db_offset db + sz |>, mp)
      else if bsz =? sz then
        data ← mem_read buffer (db_offset db) sz;
        '(db, mp) ← _return_message (db <| db_offset := 0 |>) mp;
        Some (out ++ data, db, mp)
      else
        data ← mem_read buffer (db_offset db) bsz;
        '(db, mp) ← _return_message db mp;
        read_loop fuel (db <| db_offset := 0 |>) mp (out ++ data) (sz - bsz)
  end.

Definition databuffer_read (db : databuffer) (mp : messagepool) (sz : Z)
  : option (list Z * databuffer * messagepool) :=
  assert! sz <=? db_size db;
  let db := db <| db_size := db_size db - sz |> in
  read_loop (length (cells mp)) db mp [] sz.

(** A cell from the free list, or the first of a new block whose others are
    chained as the free list.  Its old content is of no interest. *)
Definition pool_block (base : Z) : list message :=
  map (λ i, {| m_buffer := None; m_size := 0;
               m_next := if Z.of_nat i =? MESSAGEPOOL - 1 then None else Some (base + Z.of_nat i + 1) |})
      (seq 0 (Z.to_nat MESSAGEPOOL)).

Definition pool_take (mp : messagepool) : option (Z * messagepool) :=
  match freelist mp with
  | Some p => m ← (cells mp).[p]; Some (p, mp <| freelist := m_next m |>)
  | None =>
      let base := len (cells mp) in
      Some (base, {| cells := cells mp ++ pool_block base; pool := base :: pool mp;
                     freelist := Some (base + 1) |})
  end.

Definition databuffer_push (db : databuffer) (mp : messagepool) (data : list Z) (sz : Z)
  : option (databuffer * messagepool) :=
  '(m, mp) ← pool_take mp;
  mp ← set_cell mp m {| m_buffer := Some data; m_size := sz; m_next := None |};
  size ← int_add (db_size db) sz;
  let db := db <| db_size := size |> in
  match db_head db with
  | None =>
      assert! bool_decide (db_tail db = None);
      Some (db <| db_head := Some m |> <| db_tail := Some m |>, mp)
  | Some _ =>
      tail ← db_tail db;
      t ← (cells mp).[tail];
      mp ← set_cell mp tail (t <| m_next := Some m |>);
      Some (db <| db_tail := Some m |>, mp)
  end.

Definition databuffer_readheader (db : databuffer) (mp : messagepool) (header_size : Z)
  : option (Z * databuffer * messagepool) :=
  let check db mp := if db_size db <? db_header db then Some (-1, db, mp)
                     else Some (db_header db, db, mp) in
  if db_header db =? 0 then
    if db_size db <? header_size then Some (-1, db, mp)
    else
      '(plen, db, mp) ← databuffer_read db mp header_size;
      header ← (if header_size =? 2 then
                  p0 ← plen.[0]; p1 ← plen.[1];
                  Some (p0 <<ₛ 8 |ᵤ p1)
                else
                  p0 ← plen.[0]; p1 ← plen.[1]; p2 ← plen.[2]; p3 ← plen.[3];
                  Some (p0 <<ₛ 24 |ᵤ p1 <<ₛ 16 |ᵤ p2 <<ₛ 8 |ᵤ p3));
      check (db <| db_header := header |>) mp
  else check db mp.

Definition databuffer_reset (db : databuffer) : databuffer := db <| db_header := 0 |>.

Fixpoint clear_loop (fuel : nat) (db : databuffer) (mp : messagepool)
  : option (databuffer * messagepool) :=
  match fuel with
  | O => None
  | S fuel =>
      match db_head db with
      | None => Some (db, mp)
      | Some _ => '(db, mp) ← _return_message db mp; clear_loop fuel db mp
      end
  end.

Definition databuffer_clear (db : databuffer) (mp : messagepool)
  : option (databuffer * messagepool) :=
  '(_, mp) ← clear_loop (S (length (cells mp))) db mp;
  Some (databuffer_zero, mp).

(** ** Specification: a connection is a pending header and a list of bytes *)

Record stream := Stream { st_header : Z; st_bytes : list Z }.

Definition stream_zero : stream := Stream 0 [].

(** The value of a big-endian header, as the [int] it is stored in. *)
Definition header_value (p : list Z) : Z :=
  match p with
  | [p0; p1] => p0 * 256 + p1
  | [p0; p1; p2; p3] => s32 (p0 * 2 ^ 24 + p1 * 2 ^ 16 + p2 * 2 ^ 8 + p3)
  | _ => 0
  end.

Definition spec_push (s : stream) (data : list Z) : option stream :=
  if len (st_bytes s) + len data <=? INT_MAX
  then Some (Stream (st_header s) (st_bytes s ++ data)) else None.

(** A read is of at least one byte and of what there is. *)
Definition spec_read (s : stream) (n : Z) : option (list Z * stream) :=
  if (0 <? n) && (n <=? len (st_bytes s))
  then Some (take (Z.to_nat n) (st_bytes s), Stream (st_header s) (drop (Z.to_nat n) (st_bytes s)))
  else None.

(** The header is taken off the bytes when none is pending; the result is the
    size of the package when all of it is there, else -1. *)
Definition spec_readheader (s : stream) (n : Z) : Z * stream :=
  if (st_header s =? 0) && (len (st_bytes s) <? n) then (-1, s)
  else
    let s := if st_header s =? 0
             then Stream (header_value (take (Z.to_nat n) (st_bytes s))) (drop (Z.to_nat n) (st_bytes s))
             else s in
    (if len (st_bytes s) <? st_header s then -1 else st_header s, s).

Inductive db_op :=
| Push (i : nat) (data : list Z)
| ReadHeader (i : nat) (header_size : Z)
| Read (i : nat) (sz : Z)
| Reset (i : nat)
| Clear (i : nat).

Inductive db_out := Size (n : Z) | Data (l : list Z) | Done.

(** An operation on connection [i], on the streams and on the structures. *)
Definition spec_step (ss : list stream) (op : db_op) : option (db_out * list stream) :=
  match op with
  | Push i data => s ← ss !! i; s ← spec_push s data; Some (Done, <[i := s]> ss)
  | ReadHeader i n =>
      s ← ss !! i;
      assert! (n =? 2) || (n =? 4);
      let '(r, s) := spec_readheader s n in Some (Size r, <[i := s]> ss)
  | Read i n => s ← ss !! i; '(l, s) ← spec_read s n; Some (Data l, <[i := s]> ss)
  | Reset i => s ← ss !! i; Some (Done, <[i := Stream 0 (st_bytes s)]> ss)
  | Clear i => _ ← ss !! i; Some (Done, <[i := stream_zero]> ss)
  end.

Definition db_step (st : messagepool * list databuffer) (op : db_op)
  : option (db_out * (messagepool * list databuffer)) :=
  let '(mp, dbs) := st in
  match op with
  | Push i data =>
      db ← dbs !! i;
      '(db, mp) ← databuffer_push db mp data (len data);
      Some (Done, (mp, <[i := db]> dbs))
  | ReadHeader i n =>
      db ← dbs !! i;
      '(r, db, mp) ← databuffer_readheader db mp n;
      Some (Size r, (mp, <[i := db]> dbs))
  | Read i n =>
      db ← dbs !! i;
      '(l, db, mp) ← databuffer_read db mp n;
      Some (Data l, (mp, <[i := db]> dbs))
  | Reset i => db ← dbs !! i; Some (Done, (mp, <[i := databuffer_reset db]> dbs))
  | Clear i =>
      db ← dbs !! i;
      '(db, mp) ← databuffer_clear db mp;
      Some (Done, (mp, <[i := db]> dbs))
  end.

Fixpoint run {S} (step : S → db_op → option (db_out * S)) (s : S) (ops : list db_op)
  : option (list db_out * S) :=
  match ops with
  | [] => Some ([], s)
  | op :: ops => '(o, s) ← step s op; '(os, s) ← run step s ops; Some (o :: os, s)
  end.

(** ** Representation *)

(** The free cells linked from [start]. *)
Fixpoint linked (c : list message) (start : option Z) (l : list Z) : Prop :=
  match l with
  | [] => start = None
  | p :: l => start = Some p ∧ ∃ m, c.[p] = Some m ∧ linked c (m_next m) l
  end.

(** Cells linked from [start] that hold the blocks [bs]. *)
Fixpoint blocks (c : list message) (start : option Z) (l : list Z) (bs : list (list Z)) : Prop :=
  match l, bs with
  | [], [] => start = None
  | p :: l, b :: bs =>
      start = Some p ∧
      ∃ next, c.[p] = Some {| m_buffer := Some b; m_size := len b; m_next := next |}
              ∧ blocks c next l bs
  | _, _ => False
  end.

(** The offset is inside the first block. *)
Definition offset_ok (off : Z) (bs : list (list Z)) : Prop :=
  0 ≤ off ∧ match bs with [] => off = 0 | b :: _ => off ≤ len b end.

(** [s] are the bytes of [db], in the cells [l]. *)
Record db_repr (c : list message) (l : list Z) (db : databuffer) (s : stream) : Prop := {
  dr_blocks : ∃ bs, blocks c (db_head db) l bs ∧ offset_ok (db_offset db) bs ∧
                st_bytes s = drop (Z.to_nat (db_offset db)) (concat bs);
  dr_tail : db_tail db = last l;
  dr_size : db_size db = len (st_bytes s);
  dr_header : db_header db = st_header s
}.

(** The pool and every buffer over it: the free cells and the cells [ls] of the
    buffers are all different. *)
Record world_at (free : list Z) (ls : list (list Z)) (mp : messagepool)
  (dbs : list databuffer) (ss : list stream) : Prop := {
  w_free : linked (cells mp) (freelist mp) free;
  w_nodup : NoDup (free ++ concat ls);
  w_count : length dbs = length ls ∧ length ss = length ls;
  w_dbs i l db s : ls !! i = Some l → dbs !! i = Some db → ss !! i = Some s →
    db_repr (cells mp) l db s
}.

Definition world (mp : messagepool) (dbs : list databuffer) (ss : list stream) : Prop :=
  ∃ free ls, world_at free ls mp dbs ss.

Lemma linked_frame c c' start l :
  (∀ p, p ∈ l → c'.[p] = c.[p]) → linked c start l → linked c' start l.
Proof.
  revert start. induction l as [|p l IH]; intros start Hc; simpl; [done|].
  intros (-> & m & Hm & H). split; [done|]. exists m. rewrite Hc by (by left). split; [done|].
  apply IH; [|done]. intros q Hq. apply Hc. by right.
Qed.

Lemma blocks_frame c c' start l bs :
  (∀ p, p ∈ l → c'.[p] = c.[p]) → blocks c start l bs → blocks c' start l bs.
Proof.
  revert start bs. induction l as [|p l IH]; intros start [|b bs] Hc; simpl; try done.
  intros (-> & n & Hm & H). split; [done|]. exists n. rewrite Hc by (by left). split; [done|].
  apply IH; [|done]. intros q Hq. apply Hc. by right.
Qed.

Lemma db_repr_frame c c' l db s :
  (∀ p, p ∈ l → c'.[p] = c.[p]) → db_repr c l db s → db_repr c' l db s.
Proof.
  intros Hc [(bs & Hb & H) H2 H3 H4]. split; [|done..]. exists bs. split; [|done].
  by eapply blocks_frame.
Qed.

Lemma linked_bound c start l p : linked c start l → p ∈ l → 0 ≤ p < len c.
Proof.
  revert start. induction l as [|q l IH]; intros start; simpl; [by intros _ ?%not_elem_of_nil|].
  intros (_ & m & Hm & H) [->|Hp]%elem_of_cons; [by eapply arr_get_Some|by eapply IH].
Qed.

Lemma blocks_bound c start l bs p : blocks c start l bs → p ∈ l → 0 ≤ p < len c.
Proof.
  revert start bs. induction l as [|q l IH]; intros start [|b bs]; simpl; try done.
  { by intros _ ?%not_elem_of_nil. }
  intros (_ & n & Hm & H) [->|Hp]%elem_of_cons; [by eapply arr_get_Some|by eapply IH].
Qed.

(** ** Operations on one buffer *)

(** What an operation on the buffer with cells [l] leaves of the pool: the
    cells [l'] and [free'] are those it had, and no other cell is written. *)
Record moved (mp mp' : messagepool) (l l' free free' : list Z) : Prop := {
  mv_len : len (cells mp') = len (cells mp);
  mv_free : linked (cells mp') (freelist mp') free';
  mv_perm : free' ++ l' ≡ₚ free ++ l;
  mv_frame p : p ∉ l → (cells mp').[p] = (cells mp).[p]
}.

Lemma moved_refl mp l free : linked (cells mp) (freelist mp) free → moved mp mp l l free free.
Proof. intros H. by split. Qed.

Lemma moved_trans mp1 mp2 mp3 l1 l2 l3 f1 f2 f3 :
  moved mp1 mp2 l1 l2 f1 f2 → moved mp2 mp3 l2 l3 f2 f3 → (∀ p, p ∈ l2 → p ∈ l1) →
  moved mp1 mp3 l1 l3 f1 f3.
Proof.
  intros [A1 A2 A3 A4] [B1 B2 B3 B4] Hsub. split; [congruence|done|by rewrite B3|].
  intros p Hp. rewrite B4, A4; [done|done|]. intros Hin. by apply Hp, Hsub.
Qed.

(** The first cell goes back to the pool. *)
Lemma return_spec db mp p l free b bs :
  linked (cells mp) (freelist mp) free → blocks (cells mp) (db_head db) (p :: l) (b :: bs) →
  NoDup (free ++ p :: l) → db_tail db = last (p :: l) →
  ∃ db' mp', _return_message db mp = Some (db', mp') ∧
    blocks (cells mp') (db_head db') l bs ∧ db_tail db' = last l ∧
    db_size db' = db_size db ∧ db_header db' = db_header db ∧ db_offset db' = db_offset db ∧
    moved mp mp' (p :: l) l free (p :: free).
Proof.
  intros Hf (Hhd & next & Hm & Hb) Hnd Ht. unfold _return_message. rewrite Hhd, Hm. cbn [m_next].
  pose proof (arr_get_Some _ _ _ Hm) as Hr.
  apply NoDup_app in Hnd as (_ & Hdis & [Hpl _]%NoDup_cons).
  set (cell := {| m_buffer := None; m_size := 0; m_next := freelist mp |}).
  set (c' := <[Z.to_nat p := cell]> (cells mp)).
  assert ((cells mp).[p <- cell] = Some c') as Hset by (by apply arr_set_Some).
  assert (∀ q, q ≠ p → c'.[q] = (cells mp).[q]) as Hfr.
  { intros q Hq. by eapply arr_get_set_ne. }
  assert (linked c' (Some p) (p :: free)) as Hfree.
  { split; [done|]. exists cell. split; [by eapply arr_get_set_eq|].
    eapply linked_frame; [|exact Hf]. intros q Hq. apply Hfr. intros ->.
    apply (Hdis p Hq). by left. }
  assert (blocks c' next l bs) as Hb'.
  { eapply blocks_frame; [|exact Hb]. intros q Hq. apply Hfr. by intros ->. }
  assert (moved mp {| cells := c'; pool := pool mp; freelist := Some p |} (p :: l) l free (p :: free))
    as Hmv.
  { split; simpl; [by eapply arr_set_len|done|by rewrite Permutation_middle|].
    intros q Hq. apply Hfr. intros ->. apply Hq. by left. }
  destruct next as [next|].
  - destruct l as [|p' l]; [by destruct bs|]. unfold set_cell. rewrite Hset.
    eexists _, _. split; [done|]. done.
  - destruct l as [|p' l]; [|by destruct bs as [|b' bs]; [|destruct Hb]].
    cbn [last] in Ht. rewrite Ht, bool_decide_true by done. unfold set_cell. rewrite Hset.
    eexists _, _. split; [done|]. done.
Qed.

Lemma take_more {A} (n : nat) (a b : list A) : (length a ≤ n)%nat →
  take n (a ++ b) = a ++ take (n - length a) b ∧ drop n (a ++ b) = drop (n - length a) b.
Proof. intros H. split; [by apply take_app_ge|by apply drop_app_ge]. Qed.

Lemma read_loop_spec fuel : ∀ db mp l bs free out sz,
  linked (cells mp) (freelist mp) free → blocks (cells mp) (db_head db) l bs →
  NoDup (free ++ l) → db_tail db = last l → offset_ok (db_offset db) bs → bs ≠ [] →
  0 ≤ sz ≤ len (drop (Z.to_nat (db_offset db)) (concat bs)) → (length l ≤ fuel)%nat →
  let s := drop (Z.to_nat (db_offset db)) (concat bs) in
  ∃ db' mp' l' bs' free', read_loop fuel db mp out sz = Some (out ++ take (Z.to_nat sz) s, db', mp') ∧
    blocks (cells mp') (db_head db') l' bs' ∧ offset_ok (db_offset db') bs' ∧
    drop (Z.to_nat (db_offset db')) (concat bs') = drop (Z.to_nat sz) s ∧
    db_tail db' = last l' ∧ db_size db' = db_size db ∧ db_header db' = db_header db ∧
    (∀ p, p ∈ l' → p ∈ l) ∧ moved mp mp' l l' free free'.
Proof.
  induction fuel as [|fuel IH]; intros db mp l bs free out sz Hf Hb Hnd Ht Hoff Hne Hsz Hfuel s.
  { destruct l as [|p l]; [by destruct bs|simpl in Hfuel; lia]. }
  destruct l as [|p l]; [by destruct bs|]. destruct bs as [|b bs]; [done|].
  destruct db as [dh off dsz dhd dtl].
  pose proof Hb as (Hhd & next & Hm & Hb1). destruct Hoff as [Hoff0 Hoff1].
  cbn [db_offset db_head db_tail db_size db_header] in *. subst dhd.
  cbn [read_loop db_head]. rewrite Hm.
  cbn [m_size m_buffer db_offset db_header db_size db_head db_tail].
  assert (s = drop (Z.to_nat off) b ++ concat bs) as Es.
  { subst s. simpl. rewrite drop_app_le; [done|]. unfold len in Hoff1. lia. }
  fold s in Hsz. rewrite Es, len_app in Hsz.
  assert (len (drop (Z.to_nat off) b) = len b - off) as Hdl.
  { unfold len in *. rewrite length_drop. lia. }
  assert (∀ n, 0 ≤ n ≤ len b - off → mem_read b off n = Some (take (Z.to_nat n) (drop (Z.to_nat off) b)))
    as Hread.
  { intros n Hn. unfold mem_read. by rewrite !(proj2 (Z.leb_le _ _)) by lia. }
  destruct (Z.ltb_spec sz (len b - off)) as [Hlt|Hge].
  - rewrite Hread by lia. eexists _, _, (p :: l), (b :: bs), free. split.
    { do 2 f_equal. rewrite Es, take_app_le; [done|]. unfold len in *. lia. }
    split; [exact Hb|]. cbn [db_offset]. split; [split; lia|].
    split; [subst s; rewrite drop_drop; f_equal; lia|].
    do 4 (split; [done|]). by apply moved_refl.
  - destruct (return_spec (DataBuffer dh 0 dsz (Some p) dtl) mp p l free b bs Hf Hb Hnd Ht)
      as (db1 & mp1 & E1 & Hb1' & Ht1 & Hs1 & Hh1 & Ho1 & Hmv1).
    destruct (return_spec (DataBuffer dh off dsz (Some p) dtl) mp p l free b bs Hf Hb Hnd Ht)
      as (db2 & mp2 & E2 & Hb2 & Ht2 & Hs2 & Hh2 & Ho2 & Hmv2).
    assert (∀ q, q ∈ l → q ∈ p :: l) as Hsub by (intros q Hq; by right).
    destruct (take_more (Z.to_nat sz) (drop (Z.to_nat off) b) (concat bs)) as [Et Ed];
      [unfold len in *; lia|].
    destruct (Z.eqb_spec (len b - off) sz) as [Heq|Hneq].
    + rewrite Hread, E1 by lia. eexists db1, mp1, l, bs, (p :: free). split.
      { do 2 f_equal. rewrite Es, take_app_le; [done|]. unfold len in *. lia. }
      split; [done|]. rewrite Ho1. cbn [db_offset].
      split; [split; [lia|destruct bs; [done|apply len_nonneg]]|]. simpl drop.
      rewrite Es, Ed. replace (Z.to_nat sz - length (drop (Z.to_nat off) b))%nat with 0%nat
        by (unfold len in *; lia). done.
    + rewrite Hread, E2 by lia.
      rewrite take_ge by (unfold len in *; lia).
      assert (bs ≠ []) as Hne'.
      { intros ->. change (len (concat (@nil (list Z)))) with 0 in Hsz. lia. }
      destruct (IH (db2 <| db_offset := 0 |>) mp2 l bs (p :: free)
        (out ++ drop (Z.to_nat off) b) (sz - (len b - off)))
        as (db3 & mp3 & l3 & bs3 & free3 & E3 & H1 & H2 & H3 & H4 & H5 & H6 & H7 & H8).
      * apply Hmv2.
      * done.
      * rewrite (mv_perm _ _ _ _ _ _ Hmv2). done.
      * done.
      * split; [done|]. destruct bs; [done|apply len_nonneg].
      * done.
      * cbn [db_offset]. change (drop (Z.to_nat 0) (concat bs)) with (concat bs). lia.
      * simpl in Hfuel. lia.
      * cbn [db_offset] in *. change (drop (Z.to_nat 0) (concat bs)) with (concat bs) in *.
        assert (Z.to_nat sz - length (drop (Z.to_nat off) b) = Z.to_nat (sz - (len b - off)))%nat
          as Hcut by (unfold len in *; lia).
        eexists db3, mp3, l3, bs3, free3.
        split.
        { by rewrite E3, Es, Et, <- app_assoc, Hcut. }
        split; [done|]. split; [done|]. split; [by rewrite H3, Es, Ed, Hcut|].
        split; [done|]. split; [by rewrite H5|]. split; [by rewrite H6|].
        split; [intros q Hq; right; by apply H7|]. by eapply moved_trans.
Qed.

(** ** Operations in the world of all buffers *)

Lemma concat_delete {A} (ls : list (list A)) i l : ls !! i = Some l →
  concat ls ≡ₚ l ++ concat (delete i ls).
Proof. intros H. by rewrite (concat_Permutation _ _ (delete_Permutation ls i l H)). Qed.

Lemma elem_of_concat {A} (ls : list (list A)) l x : l ∈ ls → x ∈ l → x ∈ concat ls.
Proof.
  intros Hl Hx. apply list_elem_of_In, List.in_concat. exists l.
  by rewrite <- !list_elem_of_In.
Qed.

Lemma delete_insert_list {A} (ls : list A) i x : delete i (<[i := x]> ls) = delete i ls.
Proof. revert i. induction ls as [|y ls IH]; intros [|i]; simpl; [done..|]. by f_equal. Qed.

Lemma elem_of_delete {A} (ls : list A) i j x : ls !! j = Some x → j ≠ i → x ∈ delete i ls.
Proof.
  intros H Hne. apply list_elem_of_lookup. destruct (decide (j < i)%nat).
  - exists j. by rewrite list_lookup_delete_lt.
  - exists (j - 1)%nat. rewrite list_lookup_delete_ge by lia. rewrite <- H. f_equal. lia.
Qed.

(** Buffer [i] changes; the others keep their cells. *)
Lemma world_update free ls mp dbs ss i l free' l' mp' db' s' :
  world_at free ls mp dbs ss → ls !! i = Some l →
  linked (cells mp') (freelist mp') free' →
  NoDup (free' ++ l' ++ concat (delete i ls)) →
  (∀ p, p ∈ concat (delete i ls) → (cells mp').[p] = (cells mp).[p]) →
  db_repr (cells mp') l' db' s' →
  world_at free' (<[i := l']> ls) mp' (<[i := db']> dbs) (<[i := s']> ss).
Proof.
  intros [Hf Hnd [Hc1 Hc2] Hw] Hl Hf' Hnd' Hfr Hdb. pose proof (lookup_lt_Some _ _ _ Hl) as Hi.
  split; [done| |by rewrite !length_insert|].
  - rewrite (concat_delete (<[i:=l']> ls) i l') by (by apply list_lookup_insert_eq).
    by rewrite delete_insert_list.
  - intros j lj dbj sj Hlj Hdbj Hsj. destruct (decide (j = i)) as [->|Hne].
    + rewrite list_lookup_insert_eq in Hlj by lia. rewrite list_lookup_insert_eq in Hdbj by lia.
      rewrite list_lookup_insert_eq in Hsj by lia. congruence.
    + rewrite list_lookup_insert_ne in Hlj by done. rewrite list_lookup_insert_ne in Hdbj by done.
      rewrite list_lookup_insert_ne in Hsj by done.
      eapply db_repr_frame; [|by eapply Hw]. intros p Hp. apply Hfr.
      eapply elem_of_concat; [|exact Hp]. by eapply elem_of_delete.
Qed.

(** The case of cells that move between the buffer and the free list. *)
Lemma world_moved free ls mp dbs ss i l free' l' mp' db' s' :
  world_at free ls mp dbs ss → ls !! i = Some l → moved mp mp' l l' free free' →
  db_repr (cells mp') l' db' s' →
  world_at free' (<[i := l']> ls) mp' (<[i := db']> dbs) (<[i := s']> ss).
Proof.
  intros Hw Hl [_ Hf Hp Hfr] Hdb. pose proof (w_nodup _ _ _ _ _ Hw) as Hnd.
  rewrite (concat_delete ls i l Hl), app_assoc in Hnd.
  eapply world_update; [done..| | |done].
  - by rewrite app_assoc, Hp.
  - intros p Hp'. apply Hfr. intros Hpl.
    apply NoDup_app in Hnd as (_ & Hdis & _). apply (Hdis p); [|done].
    apply elem_of_app. by right.
Qed.

Lemma world_get free ls mp dbs ss i s : world_at free ls mp dbs ss → ss !! i = Some s →
  ∃ l db, ls !! i = Some l ∧ dbs !! i = Some db ∧ db_repr (cells mp) l db s ∧ NoDup (free ++ l) ∧
          (length l ≤ length (cells mp))%nat.
Proof.
  intros Hw Hs. pose proof (lookup_lt_Some _ _ _ Hs). destruct (w_count _ _ _ _ _ Hw) as [Hc1 Hc2].
  destruct (lookup_lt_is_Some_2 ls i) as [l Hl]; [lia|].
  destruct (lookup_lt_is_Some_2 dbs i) as [db Hdb]; [lia|].
  pose proof (w_dbs _ _ _ _ _ Hw i l db s Hl Hdb Hs) as Hr.
  assert (NoDup (free ++ l)) as Hnd.
  { pose proof (w_nodup _ _ _ _ _ Hw) as Hnd. rewrite (concat_delete ls i l Hl), app_assoc in Hnd.
    by apply NoDup_app in Hnd as [? _]. }
  exists l, db. do 4 (split; [done|]). apply cells_bound; [by apply NoDup_app in Hnd as (_ & _ & ?)|].
  destruct (dr_blocks _ _ _ _ Hr) as (bs & Hb & _). intros p Hp. by eapply blocks_bound.
Qed.

Lemma world_read free ls mp dbs ss i s sz : world_at free ls mp dbs ss → ss !! i = Some s →
  0 < sz ≤ len (st_bytes s) →
  ∃ db, dbs !! i = Some db ∧
  ∃ db' mp', databuffer_read db mp sz = Some (take (Z.to_nat sz) (st_bytes s), db', mp') ∧
    db_header db' = st_header s ∧
    ∀ h, world mp' (<[i := db' <| db_header := h |>]> dbs)
           (<[i := Stream h (drop (Z.to_nat sz) (st_bytes s))]> ss).
Proof.
  intros Hw Hs Hsz. destruct (world_get _ _ _ _ _ _ _ Hw Hs) as (l & db & Hl & Hdb & Hr & Hnd & Hlen).
  exists db. split; [done|]. destruct Hr as [(bs & Hb & Hoff & Es) Ht Hdsz Hh].
  unfold databuffer_read. rewrite (proj2 (Z.leb_le _ _)) by lia.
  assert (bs ≠ []) as Hne.
  { intros ->. rewrite Es in Hsz. cbn [concat] in Hsz. rewrite drop_nil in Hsz. unfold len in Hsz. simpl in Hsz. lia. }
  destruct (read_loop_spec (length (cells mp)) (db <| db_size := db_size db - sz |>) mp l bs free [] sz
    (w_free _ _ _ _ _ Hw) Hb Hnd Ht Hoff Hne) as (db' & mp' & l' & bs' & free' & E & H1 & H2 & H3 & H4 & H5 & H6 & H7 & H8).
  { cbn [db_offset]. rewrite <- Es. lia. }
  { done. }
  cbn [db_offset db_size db_header] in *. rewrite <- Es in E, H3.
  exists db', mp'. split; [exact E|]. split; [congruence|]. intros h. exists free', (<[i := l']> ls).
  eapply world_moved; [done..|]. split; cbn [db_head db_offset db_tail db_size db_header st_bytes st_header].
  - by exists bs'.
  - done.
  - rewrite H5. unfold len in *. rewrite length_drop. lia.
  - done.
Qed.

(** The free cells of a new block, from the [k]-th on. *)
Definition fresh_cells (base : Z) (k n : nat) : list Z := map (λ i, base + Z.of_nat i) (seq k n).

Lemma pool_block_get c i : (i < Z.to_nat MESSAGEPOOL)%nat →
  (c ++ pool_block (len c)).[len c + Z.of_nat i] =
  Some {| m_buffer := None; m_size := 0;
          m_next := if Z.of_nat i =? MESSAGEPOOL - 1 then None else Some (len c + Z.of_nat i + 1) |}.
Proof.
  intros Hi. pose proof (len_nonneg c). rewrite arr_get_nonneg by lia.
  rewrite lookup_app_r by (unfold len; lia). unfold pool_block.
  replace (Z.to_nat (len c + Z.of_nat i) - length c)%nat with i by (unfold len; lia).
  rewrite list_lookup_fmap, lookup_seq_lt by done. done.
Qed.

Lemma linked_fresh c n k : (k + n = Z.to_nat MESSAGEPOOL)%nat → 
  linked (c ++ pool_block (len c)) (if n is O then None else Some (len c + Z.of_nat k))
    (fresh_cells (len c) k n).
Proof.
  revert k. induction n as [|n IH]; intros k Hk; [done|]. cbn [fresh_cells seq map linked].
  split; [done|]. eexists. split; [by apply pool_block_get; lia|]. cbn [m_next].
  assert ((if Z.of_nat k =? MESSAGEPOOL - 1 then None else Some (len c + Z.of_nat k + 1)) =
    (if n is O then None else Some (len c + Z.of_nat (S k)))) as ->.
  { unfold MESSAGEPOOL in *. destruct (Z.eqb_spec (Z.of_nat k) (1023 - 1)), n; try lia; [done|].
    f_equal. lia. }
  apply IH. lia.
Qed.

Lemma pool_take_spec mp free : linked (cells mp) (freelist mp) free →
  ∃ m mp' free', pool_take mp = Some (m, mp') ∧ linked (cells mp') (freelist mp') free' ∧
    0 ≤ m < len (cells mp') ∧
    (∀ p, 0 ≤ p < len (cells mp) → (cells mp').[p] = (cells mp).[p]) ∧
    ∀ rest, NoDup (free ++ rest) → (∀ p, p ∈ rest → 0 ≤ p < len (cells mp)) → NoDup (free' ++ m :: rest).
Proof.
  intros Hf. pose proof (len_nonneg (cells mp)). unfold pool_take.
  destruct (freelist mp) as [p|] eqn:Efl.
  - destruct free as [|p' free]; [done|]. destruct Hf as ([= <-] & m & Hm & Hf). rewrite Hm.
    eexists p, _, free. split; [done|]. cbn [cells freelist]. split; [done|].
    split; [by eapply arr_get_Some|]. split; [done|]. intros rest Hnd _.
    by rewrite <- Permutation_middle.
  - destruct free as [|p' free]; [|by destruct Hf]. 
    eexists _, _, (fresh_cells (len (cells mp)) 1 1022). split; [done|]. cbn [cells freelist].
    split; [by apply (linked_fresh (cells mp) 1022 1)|].
    assert (len (cells mp ++ pool_block (len (cells mp))) = len (cells mp) + 1023) as Hl.
    { rewrite len_app. reflexivity. }
    split; [lia|]. split.
    + intros p Hp. rewrite !arr_get_nonneg by lia. apply lookup_app_l. unfold len in Hp. lia.
    + intros rest Hnd Hr. rewrite <- Permutation_middle. change (?x :: ?y ++ ?z) with ((x :: y) ++ z).
      apply NoDup_app. split; [|split; [|exact Hnd]].
      * assert (len (cells mp) :: fresh_cells (len (cells mp)) 1 1022 =
          map (λ i, len (cells mp) + Z.of_nat i) (seq 0 1023)) as ->.
        { unfold fresh_cells. cbn [seq map]. f_equal. lia. }
        assert (Inj (=) (=) (λ i : nat, len (cells mp) + Z.of_nat i)) by (intros i j; lia).
        apply NoDup_fmap_2; [done|apply NoDup_seq].
      * intros p Hp Hp'. apply Hr in Hp'. apply elem_of_cons in Hp as [->|Hp]; [lia|].
        apply list_elem_of_In, List.in_map_iff in Hp as (i & <- & Hi). lia.
Qed.

Lemma pool_take_len mp m mp' : pool_take mp = Some (m, mp') → len (cells mp) ≤ len (cells mp').
Proof.
  unfold pool_take. destruct (freelist mp); [destruct (cells mp).[_]; [|done]|]; intros [= _ <-]; simpl.
  - lia.
  - rewrite len_app. pose proof (len_nonneg (pool_block (len (cells mp)))). lia.
Qed.

Lemma blocks_snoc c start l bs m last_c b :
  blocks c start l bs → NoDup l → m ∉ l → last l = Some last_c →
  ∃ t, c.[last_c] = Some t ∧ last_c ∈ l ∧
  ∀ c', c'.[last_c] = Some (t <| m_next := Some m |>) →
    c'.[m] = Some {| m_buffer := Some b; m_size := len b; m_next := None |} →
    (∀ p, p ∈ l → p ≠ last_c → c'.[p] = c.[p]) →
    blocks c' start (l ++ [m]) (bs ++ [b]).
Proof.
  revert start bs. induction l as [|p l IH]; intros start bs Hb Hnd Hm Hlast; [done|].
  destruct bs as [|b0 bs]; [done|]. destruct Hb as (-> & next & Hc & Hb).
  apply NoDup_cons in Hnd as [Hpl Hnd]. apply not_elem_of_cons in Hm as [Hmp Hml].
  destruct l as [|p' l].
  - injection Hlast as <-. eexists. split; [exact Hc|]. split; [by left|]. intros c' H1 H2 _.
    destruct bs; [|done]. split; [done|]. exists (Some m). split; [exact H1|].
    split; [done|]. by exists None.
  - destruct (IH next bs Hb Hnd Hml Hlast) as (t & Ht & Hin & Hnew).
    exists t. split; [done|]. split; [by right|]. intros c' H1 H2 H3. split; [done|].
    exists next. split; [|apply Hnew; [done..|]].
    + rewrite H3; [done|by left|]. by intros ->.
    + intros q Hq. apply H3. by right.
Qed.

Lemma concat_snoc {A} (bs : list (list A)) b : concat (bs ++ [b]) = concat bs ++ b.
Proof. rewrite List.concat_app. simpl. by rewrite app_nil_r. Qed.

Lemma offset_len off bs : offset_ok off bs → 0 ≤ off ≤ len (concat bs).
Proof.
  intros [H0 H]. destruct bs as [|b bs]; [subst; done|]. simpl. rewrite len_app.
  pose proof (len_nonneg (concat bs)). lia.
Qed.

Lemma world_push free ls mp dbs ss i s data : world_at free ls mp dbs ss → ss !! i = Some s →
  len (st_bytes s) + len data ≤ INT_MAX →
  ∃ db, dbs !! i = Some db ∧
  ∃ db' mp', databuffer_push db mp data (len data) = Some (db', mp') ∧
    world mp' (<[i := db']> dbs) (<[i := Stream (st_header s) (st_bytes s ++ data)]> ss).
Proof.
  intros Hw Hs Hmax. destruct (world_get _ _ _ _ _ _ _ Hw Hs) as (l & db & Hl & Hdb & Hr & Hnd & Hlen).
  exists db. split; [done|]. pose proof Hr as [(bs & Hb & Hoff & Es) Ht Hdsz Hh].
  destruct (pool_take_spec mp free (w_free _ _ _ _ _ Hw)) as (m & mp1 & free1 & E1 & Hf1 & Hm & Hfr1 & Hnd1).
  unfold databuffer_push. rewrite E1.
  set (cell := {| m_buffer := Some data; m_size := len data; m_next := None |}).
  assert (∀ p, p ∈ concat ls → 0 ≤ p < len (cells mp)) as Hbound.
  { intros p Hp. apply list_elem_of_In, List.in_concat in Hp as (lj & Hlj & Hp).
    apply list_elem_of_In, list_elem_of_lookup in Hlj as [j Hj]. apply list_elem_of_In in Hp.
    pose proof (lookup_lt_Some _ _ _ Hj). destruct (w_count _ _ _ _ _ Hw) as [Hc1 Hc2].
    destruct (lookup_lt_is_Some_2 dbs j) as [dbj Hdbj]; [lia|].
    destruct (lookup_lt_is_Some_2 ss j) as [sj Hsj]; [lia|].
    destruct (dr_blocks _ _ _ _ (w_dbs _ _ _ _ _ Hw j _ _ _ Hj Hdbj Hsj)) as (bsj & Hbj & _).
    by eapply blocks_bound. }
  pose proof (Hnd1 (concat ls) (w_nodup _ _ _ _ _ Hw) Hbound) as Hnd2.
  rewrite (concat_delete ls i l Hl) in Hnd2. pose proof (concat_delete ls i l Hl) as Hperm.
  set (others := concat (delete i ls)) in *.
  assert (NoDup (free1 ++ (l ++ [m]) ++ others)) as Hnd3.
  { rewrite <- app_assoc. simpl. by rewrite <- Permutation_middle. }
  apply NoDup_app in Hnd2 as (_ & Hdis & [Hm2 Hnd4]%NoDup_cons).
  apply not_elem_of_app in Hm2 as [Hml Hmo]. apply NoDup_app in Hnd4 as (Hndl & Hlo & _).
  assert (m ∉ free1) as Hmf by (intros H; apply (Hdis m H); by left).
  unfold set_cell. rewrite (arr_set_Some _ _ cell Hm). cbn [cells freelist pool].
  set (c2 := <[Z.to_nat m := cell]> (cells mp1)).
  assert ((cells mp1).[m <- cell] = Some c2) as E2 by (by apply arr_set_Some).
  assert (∀ p, p ≠ m → c2.[p] = (cells mp1).[p]) as Hfr2 by (intros p Hp; by eapply arr_get_set_ne).
  pose proof (arr_get_set_eq _ _ _ _ E2) as Hm2. pose proof (arr_set_len _ _ _ _ E2) as Hlen2.
  assert (∀ p, p ∈ concat ls → c2.[p] = (cells mp).[p]) as Hkeep.
  { intros p Hp. rewrite Hfr2, Hfr1; [done|by apply Hbound|]. intros ->.
    rewrite Hperm in Hp. apply elem_of_app in Hp as [?|?]; done. }
  assert (linked c2 (freelist mp1) free1) as Hf2.
  { eapply linked_frame; [|exact Hf1]. intros p Hp. apply Hfr2. by intros ->. }
  unfold int_add. rewrite int_chk_Some by (rewrite Hdsz; unfold INT_MIN; pose proof (len_nonneg (st_bytes s)); pose proof (len_nonneg data); lia).
  pose proof (offset_len _ _ Hoff) as Hofl.
  assert (drop (Z.to_nat (db_offset db)) (concat (bs ++ [data])) = st_bytes s ++ data) as Econcat.
  { rewrite concat_snoc, drop_app_le, <- Es; [done|]. unfold len in Hofl. lia. }
  destruct l as [|p0 l0].
  - destruct bs; [|done]. cbn [blocks] in Hb. rewrite Hb. cbn [last] in Ht.
    cbn [db_tail]. rewrite Ht, bool_decide_true by done.
    eexists _, _. split; [done|]. exists free1, (<[i := [m]]> ls).
    eapply world_update; [done..| |].
    + intros p Hp. cbn [cells]. apply Hkeep. rewrite Hperm. by apply elem_of_app; right.
    + split; cbn [db_head db_offset db_tail db_size db_header st_bytes st_header cells].
      * exists [data]. split; [split; [done|by exists None]|]. split; [|done].
        destruct Hoff as [H0 H1]. split; [done|]. rewrite H1. apply len_nonneg.
      * done.
      * rewrite len_app. lia.
      * done.
  - destruct bs as [|b0 bs0]; [done|]. pose proof Hb as (Hhd & _). rewrite Hhd. cbn [db_tail].
    destruct (last (p0 :: l0)) as [lc|] eqn:Elast; [|by apply last_None in Elast].
    rewrite Ht. destruct (blocks_snoc _ _ _ _ m lc data Hb Hndl Hml Elast) as (t & Htc & Hin & Hnew).
    assert (lc ∈ concat ls) as Hinc by (rewrite Hperm; apply elem_of_app; by left).
    rewrite (Hkeep lc Hinc), Htc.
    assert (0 ≤ lc < len c2) as Hlc by (rewrite Hlen2; pose proof (Hbound lc Hinc); pose proof (pool_take_len _ _ _ E1); lia).
    rewrite arr_set_Some by done. set (c3 := <[Z.to_nat lc := _]> c2). cbn [cells freelist pool].
    assert (c2.[lc <- t <| m_next := Some m |>] = Some c3) as E3 by (by apply arr_set_Some).
    assert (∀ p, p ≠ lc → c3.[p] = c2.[p]) as Hfr3 by (intros p Hp; by eapply arr_get_set_ne).
    eexists _, _. split; [done|]. exists free1, (<[i := (p0 :: l0) ++ [m]]> ls).
    eapply world_update; [exact Hw|exact Hl| | | |]; cbn [cells freelist].
    + eapply linked_frame; [|exact Hf2]. intros p Hp. apply Hfr3. intros ->.
      apply (Hdis lc Hp). right. by apply elem_of_app; left.
    + done.
    + intros p Hp. rewrite Hfr3 by (intros ->; by apply (Hlo lc)). apply Hkeep. rewrite Hperm.
      by apply elem_of_app; right.
    + split; cbn [db_head db_offset db_tail db_size db_header st_bytes st_header cells].
      * exists ((b0 :: bs0) ++ [data]). rewrite <- Hhd. split; [|by split; [|symmetry]].
        apply Hnew; [by eapply arr_get_set_eq| |].
        -- rewrite Hfr3; [done|]. by intros ->.
        -- intros p Hp Hne. rewrite Hfr3 by done. apply Hkeep. rewrite Hperm. by apply elem_of_app; left.
      * by rewrite last_snoc.
      * rewrite len_app. lia.
      * done.
Qed.

Lemma clear_loop_spec l : ∀ fuel db mp bs free,
  linked (cells mp) (freelist mp) free → blocks (cells mp) (db_head db) l bs →
  NoDup (free ++ l) → db_tail db = last l → (length l < fuel)%nat →
  ∃ db' mp' free', clear_loop fuel db mp = Some (db', mp') ∧ moved mp mp' l [] free free'.
Proof.
  induction l as [|p l IH]; intros fuel db mp bs free Hf Hb Hnd Ht Hfuel;
    (destruct fuel as [|fuel]; [simpl in Hfuel; lia|]); cbn [clear_loop].
  - destruct bs; [|done]. cbn [blocks] in Hb. rewrite Hb. eexists _, _, free.
    split; [done|]. by apply moved_refl.
  - destruct bs as [|b bs]; [done|]. pose proof Hb as (Hhd & _). rewrite Hhd.
    destruct (return_spec db mp p l free b bs Hf Hb Hnd Ht)
      as (db1 & mp1 & -> & Hb1 & Ht1 & _ & _ & _ & Hmv).
    destruct (IH fuel db1 mp1 bs (p :: free)) as (db2 & mp2 & free2 & -> & Hmv2).
    + apply Hmv.
    + done.
    + by rewrite (mv_perm _ _ _ _ _ _ Hmv).
    + done.
    + simpl in Hfuel. lia.
    + eexists _, _, _. split; [done|]. eapply moved_trans; [done..|]. intros q Hq. by right.
Qed.

Lemma world_clear free ls mp dbs ss i s : world_at free ls mp dbs ss → ss !! i = Some s →
  ∃ db, dbs !! i = Some db ∧
  ∃ mp', databuffer_clear db mp = Some (databuffer_zero, mp') ∧
    world mp' (<[i := databuffer_zero]> dbs) (<[i := stream_zero]> ss).
Proof.
  intros Hw Hs. destruct (world_get _ _ _ _ _ _ _ Hw Hs) as (l & db & Hl & Hdb & Hr & Hnd & Hlen).
  exists db. split; [done|]. destruct Hr as [(bs & Hb & Hoff & Es) Ht Hdsz Hh].
  unfold databuffer_clear.
  destruct (clear_loop_spec l (S (length (cells mp))) db mp bs free (w_free _ _ _ _ _ Hw) Hb Hnd Ht)
    as (db' & mp' & free' & -> & Hmv); [lia|].
  eexists. split; [done|]. exists free', (<[i := []]> ls). eapply world_moved; [done..|].
  split; [|done..]. exists []. done.
Qed.

(** The header is the first bytes, most significant first. *)
Lemma header_value_spec p n : bytes p → len p = n → n = 2 ∨ n = 4 →
  (if n =? 2 then p0 ← p.[0]; p1 ← p.[1]; Some (p0 <<ₛ 8 |ᵤ p1)
   else p0 ← p.[0]; p1 ← p.[1]; p2 ← p.[2]; p3 ← p.[3];
        Some (p0 <<ₛ 24 |ᵤ p1 <<ₛ 16 |ᵤ p2 <<ₛ 8 |ᵤ p3)) = Some (header_value p).
Proof.
  intros Hb Hl [-> | ->].
  - assert (length p = 2%nat) as Hl' by (unfold len in Hl; lia).
    do 2 (destruct p as [|? p]; [discriminate Hl'|]). destruct p; [|discriminate Hl'].
    unfold bytes in Hb. rewrite !Forall_cons in Hb. destruct Hb as (H0 & H1 & _).
    change (Some ((z <<ₛ 8) |ᵤ z0) = Some (z * 256 + z0)).
    rewrite s32_small by (rewrite Z.shiftl_mul_pow2 by lia; lia). by rewrite lor_bytes.
  - assert (length p = 4%nat) as Hl' by (unfold len in Hl; lia).
    do 4 (destruct p as [|? p]; [discriminate Hl'|]). destruct p; [|discriminate Hl'].
    unfold bytes in Hb. rewrite !Forall_cons in Hb. destruct Hb as (H0 & H1 & H2 & H3 & _).
    change (Some ((z <<ₛ 24) |ᵤ (z0 <<ₛ 16) |ᵤ (z1 <<ₛ 8) |ᵤ z2) =
      Some (s32 (z * 2 ^ 24 + z0 * 2 ^ 16 + z1 * 2 ^ 8 + z2))). f_equal.
    rewrite (s32_small (Z.shiftl z0 16)), (s32_small (Z.shiftl z1 8)) by (rewrite Z.shiftl_mul_pow2 by lia; lia).
    assert (∃ a, s32 (Z.shiftl z 24) = Z.shiftl a 24 ∧
      s32 (z * 2 ^ 24 + z0 * 2 ^ 16 + z1 * 2 ^ 8 + z2) = a * 2 ^ 24 + z0 * 2 ^ 16 + z1 * 2 ^ 8 + z2)
      as (a & -> & ->).
    { exists (if z <? 128 then z else z - 256). rewrite !Z.shiftl_mul_pow2 by lia. unfold s32.
      destruct (Z.ltb_spec z 128).
      - rewrite !Z.mod_small by lia. lia.
      - rewrite <- (Z.mod_unique (z * 2 ^ 24 + 2 ^ 31) (2 ^ 32) 1 (z * 2 ^ 24 - 2 ^ 31)) by lia.
        rewrite <- (Z.mod_unique (z * 2 ^ 24 + z0 * 2 ^ 16 + z1 * 2 ^ 8 + z2 + 2 ^ 31) (2 ^ 32) 1
          (z * 2 ^ 24 + z0 * 2 ^ 16 + z1 * 2 ^ 8 + z2 - 2 ^ 31)) by lia. lia. }
    by apply lor4.
Qed.

Lemma world_readheader free ls mp dbs ss i s n : world_at free ls mp dbs ss → ss !! i = Some s →
  bytes (st_bytes s) → n = 2 ∨ n = 4 →
  ∃ db, dbs !! i = Some db ∧
  ∃ db' mp', databuffer_readheader db mp n = Some ((spec_readheader s n).1, db', mp') ∧
    world mp' (<[i := db']> dbs) (<[i := (spec_readheader s n).2]> ss).
Proof.
  intros Hw Hs Hb Hn. destruct (world_get _ _ _ _ _ _ _ Hw Hs) as (l & db & Hl & Hdb & Hr & Hnd & Hlen).
  exists db. split; [done|]. pose proof (dr_size _ _ _ _ Hr) as Hsz. pose proof (dr_header _ _ _ _ Hr) as Hh.
  unfold databuffer_readheader, spec_readheader. rewrite Hh, Hsz.
  destruct (Z.eqb_spec (st_header s) 0) as [H0|H0]; cbn [andb].
  - destruct (Z.ltb_spec (len (st_bytes s)) n) as [Hlt|Hge].
    + exists db, mp. split; [done|]. exists free, ls. by rewrite !list_insert_id.
    + destruct (world_read _ _ _ _ _ _ _ n Hw Hs) as (db0 & Hdb0 & db' & mp' & E & Hh' & Hw'); [lia|].
      assert (db0 = db) as -> by congruence. rewrite E.
      rewrite header_value_spec; [|by apply Forall_take|unfold len in *; rewrite length_take; lia|done].
      set (h := header_value _). specialize (Hw' h).
      assert (db_size db' = len (drop (Z.to_nat n) (st_bytes s))) as Hsz'.
      { destruct Hw' as (free' & ls' & Hw').
        destruct (world_get _ _ _ _ _ i (Stream h (drop (Z.to_nat n) (st_bytes s))) Hw')
          as (l' & db1 & _ & Hdb1 & Hr1 & _).
        { apply list_lookup_insert_eq. by eapply lookup_lt_Some. }
        rewrite list_lookup_insert_eq in Hdb1 by (by eapply lookup_lt_Some).
        injection Hdb1 as <-. apply (dr_size _ _ _ _ Hr1). }
      cbn [db_size db_header st_bytes st_header fst snd]. rewrite <- Hsz'.
      destruct (_ <? h); (eexists _, _; split; [reflexivity|exact Hw']).
  - cbn [fst snd]. exists db, mp. rewrite !list_insert_id by done.
    split; [by destruct (_ <? _)|]. by exists free, ls.
Qed.

Lemma world_reset free ls mp dbs ss i s : world_at free ls mp dbs ss → ss !! i = Some s →
  ∃ db, dbs !! i = Some db ∧
    world mp (<[i := databuffer_reset db]> dbs) (<[i := Stream 0 (st_bytes s)]> ss).
Proof.
  intros Hw Hs. destruct (world_get _ _ _ _ _ _ _ Hw Hs) as (l & db & Hl & Hdb & Hr & Hnd & Hlen).
  exists db. split; [done|]. exists free, (<[i := l]> ls).
  eapply world_moved; [done..|by apply moved_refl, (w_free _ _ _ _ _ Hw)|].
  destruct Hr as [H1 H2 H3 H4]. by split.
Qed.

(** ** Runs *)

Definition op_bytes (op : db_op) : Prop :=
  match op with Push _ data => bytes data | _ => True end.

Definition streams_bytes (ss : list stream) : Prop := Forall (λ s, bytes (st_bytes s)) ss.

Lemma streams_bytes_insert ss i s : streams_bytes ss → bytes (st_bytes s) →
  streams_bytes (<[i := s]> ss).
Proof. intros H Hs. by apply Forall_insert. Qed.

Lemma db_step_refines mp dbs ss op o ss' :
  world mp dbs ss → streams_bytes ss → op_bytes op → spec_step ss op = Some (o, ss') →
  ∃ mp' dbs', db_step (mp, dbs) op = Some (o, (mp', dbs')) ∧ world mp' dbs' ss' ∧ streams_bytes ss'.
Proof.
  intros (free & ls & Hw) Hb Hop. 
  assert (∀ i s, ss !! i = Some s → bytes (st_bytes s)) as Hget.
  { intros i s Hs. by apply (Forall_lookup_1 _ _ _ _ Hb Hs). }
  destruct op as [i data|i n|i n|i|i]; simpl; intros H; bind_inv H; rename E into Hs;
    pose proof (Hget _ _ Hs) as Hsb.
  - unfold spec_push in H. destruct (Z.leb_spec (len (st_bytes s) + len data) INT_MAX); [|done].
    injection H as <- <-.
    destruct (world_push _ _ _ _ _ _ _ _ Hw Hs H0) as (db & -> & db' & mp' & -> & Hw').
    eexists _, _. split; [done|]. split; [done|]. apply streams_bytes_insert; [done|].
    by apply Forall_app.
  - destruct ((n =? 2) || (n =? 4)) eqn:Hn; [|done]. destruct (spec_readheader s n) as [r s'] eqn:E.
    injection H as <- <-. apply orb_prop in Hn. rewrite !Z.eqb_eq in Hn.
    destruct (world_readheader _ _ _ _ _ _ _ n Hw Hs Hsb Hn) as (db & -> & db' & mp' & -> & Hw').
    rewrite E in *. eexists _, _. split; [done|]. split; [done|]. apply streams_bytes_insert; [done|].
    unfold spec_readheader in E. destruct ((st_header s =? 0) && _).
    + by injection E as _ <-.
    + injection E as _ <-. destruct (st_header s =? 0); [|done]. by apply Forall_drop.
  - unfold spec_read in H. destruct ((0 <? n) && (n <=? len (st_bytes s))) eqn:Hn; [|done].
    injection H as <- <-. apply andb_prop in Hn as [Hn1 Hn2].
    destruct (world_read _ _ _ _ _ _ _ n Hw Hs) as (db & -> & db' & mp' & -> & Hh & Hw'); [lia|].
    eexists _, _. split; [done|]. specialize (Hw' (st_header s)).
    split; [|apply streams_bytes_insert; [done|by apply Forall_drop]].
    destruct db'; simpl in *. by subst.
  - injection H as <- <-. destruct (world_reset _ _ _ _ _ _ _ Hw Hs) as (db & -> & Hw').
    eexists _, _. split; [done|]. split; [done|]. by apply streams_bytes_insert.
  - injection H as <- <-. destruct (world_clear _ _ _ _ _ _ _ Hw Hs) as (db & -> & mp' & -> & Hw').
    eexists _, _. split; [done|]. split; [done|]. apply streams_bytes_insert; [done|constructor].
Qed.

Lemma run_refines ops : ∀ mp dbs ss os ss',
  world mp dbs ss → streams_bytes ss → Forall op_bytes ops → run spec_step ss ops = Some (os, ss') →
  ∃ mp' dbs', run db_step (mp, dbs) ops = Some (os, (mp', dbs')) ∧ world mp' dbs' ss'.
Proof.
  induction ops as [|op ops IH]; intros mp dbs ss os ss' Hw Hb Hops H; cbn [run] in *.
  - injection H as <- <-. by eexists _, _.
  - apply Forall_cons in Hops as [Hop Hops]. bind_inv H. destruct p as [o ss1].
    destruct (db_step_refines _ _ _ _ _ _ Hw Hb Hop E) as (mp1 & dbs1 & -> & Hw1 & Hb1).
    bind_inv H. destruct p as [os1 ss2]. injection H as <- <-.
    destruct (IH _ _ _ _ _ Hw1 Hb1 Hops E0) as (mp2 & dbs2 & -> & Hw2). by eexists _, _.
Qed.

Lemma world_init n : world messagepool_zero (replicate n databuffer_zero) (replicate n stream_zero).
Proof.
  exists [], (replicate n []). split; [done| |by rewrite !length_replicate|].
  - assert (concat (replicate n (@nil Z)) = []) as -> by (by induction n). constructor.
  - intros i l db s [-> _]%lookup_replicate [-> _]%lookup_replicate [-> _]%lookup_replicate.
    split; [|done..]. by exists [].
Qed.

(** ** Properties *)


Definition demo_ops : list db_op :=
  [Push 0 [0; 3; 65]; Push 1 [0]; ReadHeader 0 2; Push 0 [66; 67; 0]; ReadHeader 0 2; Read 0 3;
   Reset 0; ReadHeader 0 2; Push 1 [1; 90]; ReadHeader 1 2; Clear 0; Read 1 1].


(** A 4-byte header from 2^31 on is stored in the [int] as a negative size:
    [databuffer_readheader] takes the header, and returns the negative value
    now and after every further push, so a gate with 4-byte headers neither
    serves the connection nor closes it, although sizes of 16M and more are
    meant to close it; its data piles up. *)
Theorem readheader_negative_sticks p0 p1 p2 p3 rest pushes :
  bytes ([p0; p1; p2; p3] ++ rest) → 128 ≤ p0 → Forall bytes pushes →
  len rest + len (concat pushes) + 4 ≤ INT_MAX →
  ∃ h st, h < 0 ∧
    run db_step (messagepool_zero, [databuffer_zero])
      (Push 0 ([p0; p1; p2; p3] ++ rest) :: ReadHeader 0 4 ::
       concat (map (λ data, [Push 0 data; ReadHeader 0 4]) pushes)) =
    Some (Done :: Size h :: concat (map (λ _, [Done; Size h]) pushes), st).
Proof.
  intros Hb Hp0 Hpush Hlen. pose proof Hb as Hb'. apply Forall_app in Hb' as [Hp _].
  rewrite !Forall_cons in Hp. destruct Hp as (H0 & H1 & H2 & H3 & _).
  set (h := header_value [p0; p1; p2; p3]).
  assert (h < 0) as Hh.
  { subst h. cbn [header_value]. unfold s32.
    rewrite <- (Z.mod_unique (p0 * 2 ^ 24 + p1 * 2 ^ 16 + p2 * 2 ^ 8 + p3 + 2 ^ 31) (2 ^ 32) 1
      (p0 * 2 ^ 24 + p1 * 2 ^ 16 + p2 * 2 ^ 8 + p3 - 2 ^ 31)) by lia. lia. }
  assert (∀ s, len s + len (concat pushes) ≤ INT_MAX →
    ∃ ss, run spec_step [Stream h s] (concat (map (λ data, [Push 0 data; ReadHeader 0 4]) pushes)) =
      Some (concat (map (λ _, [Done; Size h]) pushes), ss)) as Hrun.
  { clear -Hh. induction pushes as [|data pushes IH]; intros s Hl; [by eexists|].
    cbn [map concat app run spec_step lookup list_lookup]. cbn [concat] in Hl. rewrite len_app in Hl.
    pose proof (len_nonneg (concat pushes)). unfold spec_push. cbn [st_bytes st_header].
    rewrite (proj2 (Z.leb_le _ _)) by lia. cbn [insert list_insert run spec_step lookup list_lookup].
    change ((4 =? 2) || (4 =? 4)) with true. unfold spec_readheader. cbn [st_bytes st_header].
    rewrite (proj2 (Z.eqb_neq h 0)) by lia. cbn [andb st_bytes st_header].
    rewrite (proj2 (Z.ltb_ge _ h)) by (pose proof (len_nonneg (s ++ data)); lia).
    cbn [insert list_insert]. destruct (IH (s ++ data)) as (ss & ->); [rewrite len_app; lia|].
    by eexists. }
  destruct (Hrun rest) as (ss & Ess); [lia|].
  destruct (run_refines (Push 0 ([p0; p1; p2; p3] ++ rest) :: ReadHeader 0 4 ::
       concat (map (λ data, [Push 0 data; ReadHeader 0 4]) pushes)) _ _ [stream_zero]
     (Done :: Size h :: concat (map (λ _, [Done; Size h]) pushes)) ss (world_init 1))
    as (mp & dbs & E & _).
  - repeat constructor.
  - constructor; [done|]. constructor; [done|]. clear -Hpush.
    induction Hpush as [|data pushes Hd _ IH]; [constructor|]. simpl. by repeat constructor.
  - cbn [run spec_step lookup list_lookup]. unfold spec_push. cbn [st_bytes st_header stream_zero].
    pose proof (len_nonneg (concat pushes)). change (len [] + ?x) with x.
    rewrite len_app. change (len [p0; p1; p2; p3]) with 4. rewrite (proj2 (Z.leb_le _ _)) by lia.
    cbn [insert list_insert run spec_step lookup list_lookup].
    change ((4 =? 2) || (4 =? 4)) with true. unfold spec_readheader. cbn [st_bytes st_header app].
    pose proof (len_nonneg rest). rewrite (proj2 (Z.ltb_ge _ 4)) by (rewrite !len_cons; lia).
    change ((0 =? 0) && false) with false. change (0 =? 0) with true. cbv iota.
    change (Z.to_nat 4) with 4%nat. cbn [take drop st_bytes st_header].
    rewrite drop_0, take_0. fold h.
    rewrite (proj2 (Z.ltb_ge _ h)) by lia. cbn [insert list_insert]. by rewrite Ess.
  - exists h, (mp, dbs). split; [done|]. exact E.
Qed.

Lemma readheader_negative_sticks_witness :
  ∃ h st, h < 0 ∧
    run db_step (messagepool_zero, [databuffer_zero])
      [Push 0 [128; 0; 0; 1; 65]; ReadHeader 0 4; Push 0 [66]; ReadHeader 0 4] =
    Some ([Done; Size h; Done; Size h], st).
Proof.
  apply (readheader_negative_sticks 128 0 0 1 [65] [[66]]).
  - repeat constructor; lia.
  - lia.
  - repeat constructor; lia.
  - vm_compute. discriminate.
Defined.
