(* ===== verification/Sha1.v ===== *)
(** * SHA-1: lualib-src/lsha1.c

    The context of a running hash, its three operations and [sha1] and
    [hmac_sha1] on Lua strings.  [SHA1_Transform] is the unrolled list of its
    eighty rounds on five registers and a block of sixteen words that is
    overwritten in place; it is compared with the loop of the standard (FIPS
    180) over eighty words.  Words are little-endian in memory. *)

From S2P Require Import Prelude Des.

(** [state] and [count] are [uint32_t]s, [buffer] is 64 bytes. *)
Record SHA1_CTX := Ctx { state : list Z; count : Z * Z; buffer : block }.

Definition SHA1_DIGEST_SIZE : Z := 20.

Definition rol (value bits : Z) : Z := (value <<ᵤ bits) |ᵤ (value >>ᵤ (32 - bits)).

(** ** One block *)

(** [blk0(i)] and [blk(i)]: the value and the block it is stored in. *)
Definition blk0 (l : list Z) (i : Z) : option (Z * list Z) :=
  x ← l.[i];
  let v := (rol x 24 &ᵤ 0xFF00FF00) |ᵤ (rol x 8 &ᵤ 0x00FF00FF) in
  l ← l.[i <- v];
  Some (v, l).

Definition blk (l : list Z) (i : Z) : option (Z * list Z) :=
  x13 ← l.[Z.land (i + 13) 15];
  x8 ← l.[Z.land (i + 8) 15];
  x2 ← l.[Z.land (i + 2) 15];
  x0 ← l.[Z.land i 15];
  let v := rol (x13 ^ᵤ x8 ^ᵤ x2 ^ᵤ x0) 1 in
  l ← l.[Z.land i 15 <- v];
  Some (v, l).

Inductive macro := R0 | R1 | R2 | R3 | R4.

(** What a macro adds to [z] besides [rol(v, 5)]: its function, its word and
    its constant. *)
Definition macro_f (m : macro) (w x y : Z) : Z :=
  match m with
  | R0 | R1 => (w &ᵤ (x ^ᵤ y)) ^ᵤ y
  | R2 | R4 => w ^ᵤ x ^ᵤ y
  | R3 => ((w |ᵤ x) &ᵤ y) |ᵤ (w &ᵤ x)
  end.
Definition macro_blk (m : macro) : list Z → Z → option (Z * list Z) :=
  match m with R0 => blk0 | _ => blk end.
Definition macro_k (m : macro) : Z :=
  match m with
  | R0 | R1 => 0x5A827999
  | R2 => 0x6ED9EBA1
  | R3 => 0x8F1BBCDC
  | R4 => 0xCA62C1D6
  end.

(** [v] to [z] are registers, by their place in [a, b, c, d, e]. *)
Definition round_step (m : macro) (v w x y z i : Z) (st : list Z * list Z)
  : option (list Z * list Z) :=
  let '(regs, l) := st in
  rv ← regs.[v]; rw ← regs.[w]; rx ← regs.[x]; ry ← regs.[y]; rz ← regs.[z];
  '(b, l) ← macro_blk m l i;
  regs ← regs.[z <- u32 (rz + (macro_f m rw rx ry + b + macro_k m + rol rv 5))];
  regs ← regs.[w <- rol rw 30];
  Some (regs, l).

(** The eighty calls. *)
Definition rounds : list (macro * Z * Z * Z * Z * Z * Z) := [
  (R0, 0, 1, 2, 3, 4, 0); (R0, 4, 0, 1, 2, 3, 1); (R0, 3, 4, 0, 1, 2, 2); (R0, 2, 3, 4, 0, 1, 3);
  (R0, 1, 2, 3, 4, 0, 4); (R0, 0, 1, 2, 3, 4, 5); (R0, 4, 0, 1, 2, 3, 6); (R0, 3, 4, 0, 1, 2, 7);
  (R0, 2, 3, 4, 0, 1, 8); (R0, 1, 2, 3, 4, 0, 9); (R0, 0, 1, 2, 3, 4, 10); (R0, 4, 0, 1, 2, 3, 11);
  (R0, 3, 4, 0, 1, 2, 12); (R0, 2, 3, 4, 0, 1, 13); (R0, 1, 2, 3, 4, 0, 14); (R0, 0, 1, 2, 3, 4, 15);
  (R1, 4, 0, 1, 2, 3, 16); (R1, 3, 4, 0, 1, 2, 17); (R1, 2, 3, 4, 0, 1, 18); (R1, 1, 2, 3, 4, 0, 19);
  (R2, 0, 1, 2, 3, 4, 20); (R2, 4, 0, 1, 2, 3, 21); (R2, 3, 4, 0, 1, 2, 22); (R2, 2, 3, 4, 0, 1, 23);
  (R2, 1, 2, 3, 4, 0, 24); (R2, 0, 1, 2, 3, 4, 25); (R2, 4, 0, 1, 2, 3, 26); (R2, 3, 4, 0, 1, 2, 27);
  (R2, 2, 3, 4, 0, 1, 28); (R2, 1, 2, 3, 4, 0, 29); (R2, 0, 1, 2, 3, 4, 30); (R2, 4, 0, 1, 2, 3, 31);
  (R2, 3, 4, 0, 1, 2, 32); (R2, 2, 3, 4, 0, 1, 33); (R2, 1, 2, 3, 4, 0, 34); (R2, 0, 1, 2, 3, 4, 35);
  (R2, 4, 0, 1, 2, 3, 36); (R2, 3, 4, 0, 1, 2, 37); (R2, 2, 3, 4, 0, 1, 38); (R2, 1, 2, 3, 4, 0, 39);
  (R3, 0, 1, 2, 3, 4, 40); (R3, 4, 0, 1, 2, 3, 41); (R3, 3, 4, 0, 1, 2, 42); (R3, 2, 3, 4, 0, 1, 43);
  (R3, 1, 2, 3, 4, 0, 44); (R3, 0, 1, 2, 3, 4, 45); (R3, 4, 0, 1, 2, 3, 46); (R3, 3, 4, 0, 1, 2, 47);
  (R3, 2, 3, 4, 0, 1, 48); (R3, 1, 2, 3, 4, 0, 49); (R3, 0, 1, 2, 3, 4, 50); (R3, 4, 0, 1, 2, 3, 51);
  (R3, 3, 4, 0, 1, 2, 52); (R3, 2, 3, 4, 0, 1, 53); (R3, 1, 2, 3, 4, 0, 54); (R3, 0, 1, 2, 3, 4, 55);
  (R3, 4, 0, 1, 2, 3, 56); (R3, 3, 4, 0, 1, 2, 57); (R3, 2, 3, 4, 0, 1, 58); (R3, 1, 2, 3, 4, 0, 59);
  (R4, 0, 1, 2, 3, 4, 60); (R4, 4, 0, 1, 2, 3, 61); (R4, 3, 4, 0, 1, 2, 62); (R4, 2, 3, 4, 0, 1, 63);
  (R4, 1, 2, 3, 4, 0, 64); (R4, 0, 1, 2, 3, 4, 65); (R4, 4, 0, 1, 2, 3, 66); (R4, 3, 4, 0, 1, 2, 67);
  (R4, 2, 3, 4, 0, 1, 68); (R4, 1, 2, 3, 4, 0, 69); (R4, 0, 1, 2, 3, 4, 70); (R4, 4, 0, 1, 2, 3, 71);
  (R4, 3, 4, 0, 1, 2, 72); (R4, 2, 3, 4, 0, 1, 73); (R4, 1, 2, 3, 4, 0, 74); (R4, 0, 1, 2, 3, 4, 75);
  (R4, 4, 0, 1, 2, 3, 76); (R4, 3, 4, 0, 1, 2, 77); (R4, 2, 3, 4, 0, 1, 78); (R4, 1, 2, 3, 4, 0, 79)].

Fixpoint run_rounds (rs : list (macro * Z * Z * Z * Z * Z * Z)) (st : list Z * list Z)
  : option (list Z * list Z) :=
  match rs with
  | [] => Some st
  | (m, v, w, x, y, z, i) :: rs => st ← round_step m v w x y z i st; run_rounds rs st
  end.

(** A word of the union [CHAR64LONG16]. *)
Definition load_le (b : list Z) (i : Z) : option Z :=
  b0 ← b.[4 * i]; b1 ← b.[4 * i + 1]; b2 ← b.[4 * i + 2]; b3 ← b.[4 * i + 3];
  Some (b0 + b1 * 2 ^ 8 + b2 * 2 ^ 16 + b3 * 2 ^ 24).

Definition SHA1_Transform (st : list Z) (buffer : list Z) : option (list Z) :=
  buf ← mem_read buffer 0 64;
  l ← mapM (load_le buf) [0; 1; 2; 3; 4; 5; 6; 7; 8; 9; 10; 11; 12; 13; 14; 15];
  '(regs, _) ← run_rounds rounds (st, l);
  for_range 0 5 (λ i st, s ← st.[i]; r ← regs.[i]; st.[i <- u32 (s + r)]) st.

(** ** The context *)

Definition sat_SHA1_Init : SHA1_CTX :=
  {| state := [0x67452301; 0xEFCDAB89; 0x98BADCFE; 0x10325476; 0xC3D2E1F0];
     count := (0, 0); buffer := malloc 64 |}.

(** [if ((count[0] += len << 3) < (len << 3)) count[1]++; count[1] += len >> 29]:
    the sum is a [uint32_t], what it is compared with a [size_t]. *)
Definition add_bits (count : Z * Z) (len : Z) : Z * Z :=
  let bits := u64 (Z.shiftl len 3) in
  let count0 := u32 (count.1 + bits) in
  let count1 := if count0 <? bits then u32 (count.2 + 1) else count.2 in
  (count0, u32 (count1 + Z.shiftr len 29)).

Definition sat_SHA1_Update (context : SHA1_CTX) (data : list Z) (len : Z) : option SHA1_CTX :=
  let j := Z.land (Z.shiftr (count context).1 3) 63 in
  '(st, buf, i, j) ← (if 63 <? j + len then
      let i := 64 - j in
      part ← mem_read (map Some data) 0 i;
      buf ← mem_write (buffer context) j part;
      full ← mapM id buf;
      st ← SHA1_Transform (state context) full;
      '(i, st) ← for_step i (len - 63) 64 (λ i '(_, st),
        st ← SHA1_Transform st (advance i data); Some (i + 64, st)) (i, st);
      Some (st, buf, i, 0)
    else Some (state context, buffer context, 0, j));
  part ← mem_read (map Some data) i (len - i);
  buf ← mem_write buf j part;
  Some {| state := st; count := add_bits (count context) len; buffer := buf |}.

(** [while ((count[0] & 504) != 448)], a zero byte per round. *)
Definition pad_loop : SHA1_CTX → option SHA1_CTX :=
  while_loop 65 (λ context, negb (Z.land (count context).1 504 =? 448))
    (λ context, sat_SHA1_Update context [0] 1).

Definition sat_SHA1_Final (context : SHA1_CTX) : option (list Z) :=
  let word i := if 4 <=? i then (count context).1 else (count context).2 in
  let finalcount := map (λ i, (word i >>ᵤ ((3 - Z.land i 3) * 8)) &ᵤ 255) [0; 1; 2; 3; 4; 5; 6; 7] in
  context ← sat_SHA1_Update context [128] 1;
  context ← pad_loop context;
  context ← sat_SHA1_Update context finalcount 8;
  mapM (λ i, s ← (state context).[Z.shiftr i 2]; Some ((s >>ᵤ ((3 - Z.land i 3) * 8)) &ᵤ 255))
    [0; 1; 2; 3; 4; 5; 6; 7; 8; 9; 10; 11; 12; 13; 14; 15; 16; 17; 18; 19].

Definition lsha1 (text : list Z) : option (list Z) :=
  ctx ← sat_SHA1_Update sat_SHA1_Init text (len text);
  sat_SHA1_Final ctx.

(** ** hmac_sha1 *)

Definition BLOCKSIZE : Z := 64.

(** The words of the key, xored one by one. *)
Definition xor_key (key : list Z) (x : Z) : option (list Z) :=
  for_step 0 BLOCKSIZE 4 (λ i key,
    k ← load_le key (i / 4);
    let k := k ^ᵤ x in
    mem_write key i [k mod 256; (k / 2 ^ 8) mod 256; (k / 2 ^ 16) mod 256; k / 2 ^ 24]) key.

Definition lhmac_sha1 (key text : list Z) : option (list Z) :=
  let rkey := replicate (Z.to_nat BLOCKSIZE) 0 in
  rkey ← (if BLOCKSIZE <? len key then
            ctx ← sat_SHA1_Update sat_SHA1_Init key (len key);
            digest ← sat_SHA1_Final ctx;
            mem_write rkey 0 digest
          else mem_write rkey 0 key);
  rkey ← xor_key rkey 0x5c5c5c5c;
  ctx1 ← sat_SHA1_Update sat_SHA1_Init rkey BLOCKSIZE;
  rkey ← xor_key rkey (Z.lxor 0x5c5c5c5c 0x36363636);
  ctx2 ← sat_SHA1_Update sat_SHA1_Init rkey BLOCKSIZE;
  ctx2 ← sat_SHA1_Update ctx2 text (len text);
  digest2 ← sat_SHA1_Final ctx2;
  ctx1 ← sat_SHA1_Update ctx1 digest2 SHA1_DIGEST_SIZE;
  sat_SHA1_Final ctx1.

(** ** The standard (FIPS 180-4) *)

Module Fips.

Definition byte (M : list Z) (i : Z) : Z := default 0 M.[i].
Definition word (M : list Z) (t : Z) : Z :=
  byte M (4 * t) * 2 ^ 24 + byte M (4 * t + 1) * 2 ^ 16 + byte M (4 * t + 2) * 2 ^ 8 + byte M (4 * t + 3).

(** The message schedule: the sixteen words of the block and [n] more. *)
Definition W (ws : list Z) (t : Z) : Z := default 0 ws.[t].
Fixpoint schedule (M : list Z) (n : nat) : list Z :=
  match n with
  | O => map (word M) [0; 1; 2; 3; 4; 5; 6; 7; 8; 9; 10; 11; 12; 13; 14; 15]
  | S n =>
      let ws := schedule M n in
      let t := Z.of_nat n + 16 in
      ws ++ [rol (W ws (t - 3) ^ᵤ W ws (t - 8) ^ᵤ W ws (t - 14) ^ᵤ W ws (t - 16)) 1]
  end.

Definition Ch (x y z : Z) : Z := (x &ᵤ y) ^ᵤ (Z.lnot x &ᵤ z).
Definition Parity (x y z : Z) : Z := x ^ᵤ y ^ᵤ z.
Definition Maj (x y z : Z) : Z := (x &ᵤ y) ^ᵤ (x &ᵤ z) ^ᵤ (y &ᵤ z).

Definition f (t : Z) : Z → Z → Z → Z :=
  if t <? 20 then Ch else if t <? 40 then Parity else if t <? 60 then Maj else Parity.
Definition K (t : Z) : Z :=
  if t <? 20 then 0x5A827999 else if t <? 40 then 0x6ED9EBA1
  else if t <? 60 then 0x8F1BBCDC else 0xCA62C1D6.

Definition hash : Type := Z * Z * Z * Z * Z.

Definition round (ws : list Z) (t : Z) (h : hash) : hash :=
  let '(a, b, c, d, e) := h in
  (u32 (rol a 5 + f t b c d + e + K t + W ws t), a, rol b 30, c, d).

Fixpoint rounds (ws : list Z) (t : Z) (n : nat) (h : hash) : hash :=
  match n with O => h | S n => rounds ws (t + 1) n (round ws t h) end.

Definition compress (h : hash) (M : list Z) : hash :=
  let '(a, b, c, d, e) := h in
  let '(a', b', c', d', e') := rounds (schedule M 64) 0 80 h in
  (u32 (a + a'), u32 (b + b'), u32 (c + c'), u32 (d + d'), u32 (e + e')).

Fixpoint blocks (n : nat) (h : hash) (m : list Z) : hash :=
  match n with O => h | S n => blocks n (compress h (take 64 m)) (drop 64 m) end.

Definition IV : hash := (0x67452301, 0xEFCDAB89, 0x98BADCFE, 0x10325476, 0xC3D2E1F0).

Definition be32 (x : Z) : list Z := [x / 2 ^ 24 mod 256; x / 2 ^ 16 mod 256; x / 2 ^ 8 mod 256; x mod 256].

(** A one bit, zeros, and the length in bits as a word of 64 bits. *)
Definition padding (m : list Z) : list Z :=
  128 :: replicate (Z.to_nat ((55 - len m) mod 64)) 0
  ++ be32 (8 * len m / 2 ^ 32) ++ be32 (8 * len m).

Definition sha1 (m : list Z) : list Z :=
  let p := m ++ padding m in
  let '(a, b, c, d, e) := blocks (Z.to_nat (len p / 64)) IV p in
  concat (map be32 [a; b; c; d; e]).

(** RFC 2104 on blocks of 64 bytes. *)
Definition hmac (key text : list Z) : list Z :=
  let k := if 64 <? len key then sha1 key else key in
  let k := k ++ replicate (64 - length k) 0 in
  sha1 (map (Z.lxor 0x5c) k ++ sha1 (map (Z.lxor 0x36) k ++ text)).

End Fips.

Definition regs_of (h : Fips.hash) : list Z :=
  let '(a, b, c, d, e) := h in [a; b; c; d; e].

(** ** One block *)

(** Where the code keeps [a] to [e] at round [t], and the macro it calls. *)
Definition placed (t : Z) (h : Fips.hash) : list Z :=
  let '(a, b, c, d, e) := h in
  match t mod 5 with
  | 0 => [a; b; c; d; e] | 1 => [b; c; d; e; a] | 2 => [c; d; e; a; b]
  | 3 => [d; e; a; b; c] | _ => [e; a; b; c; d]
  end.
Definition macro_at (t : Z) : macro :=
  if t <? 16 then R0 else if t <? 20 then R1 else if t <? 40 then R2 else if t <? 60 then R3 else R4.
Definition call_at (t : Z) : macro * Z * Z * Z * Z * Z * Z :=
  let m := macro_at t in
  match t mod 5 with
  | 0 => (m, 0, 1, 2, 3, 4, t) | 1 => (m, 4, 0, 1, 2, 3, t) | 2 => (m, 3, 4, 0, 1, 2, t)
  | 3 => (m, 2, 3, 4, 0, 1, t) | _ => (m, 1, 2, 3, 4, 0, t)
  end.

Lemma rounds_eq : rounds = map call_at (seqZ 0 80).
Proof. by vm_compute. Qed.

Ltac bits := apply Z.bits_inj'; intros ??;
  rewrite ?Z.lxor_spec, ?Z.land_spec, ?Z.lor_spec, ?Z.lnot_spec by done;
  rewrite ?Z.lxor_spec, ?Z.land_spec, ?Z.lor_spec, ?Z.lnot_spec by done;
  repeat match goal with |- context [Z.testbit ?x ?n] => is_var x; destruct (Z.testbit x n) end;
  reflexivity.

Lemma Ch_eq x y z : (x &ᵤ (y ^ᵤ z)) ^ᵤ z = Fips.Ch x y z.
Proof. unfold Fips.Ch. bits. Qed.
Lemma Maj_eq x y z : ((x |ᵤ y) &ᵤ z) |ᵤ (x &ᵤ y) = Fips.Maj x y z.
Proof. unfold Fips.Maj. bits. Qed.

Lemma macro_f_eq t w x y : macro_f (macro_at t) w x y = Fips.f t w x y.
Proof.
  unfold macro_at, Fips.f. zcases; try lia; cbn [macro_f]; auto using Ch_eq, Maj_eq.
Qed.
Lemma macro_k_eq t : macro_k (macro_at t) = Fips.K t.
Proof. unfold macro_at, Fips.K. zcases; try lia; done. Qed.

(** The words of the schedule. *)
Lemma schedule_len M n : len (Fips.schedule M n) = Z.of_nat n + 16.
Proof.
  induction n as [|n IH]; [done|]. cbn [Fips.schedule]. rewrite len_app, IH.
  change (len [_]) with 1. lia.
Qed.

Lemma schedule_prefix M n m t : (n ≤ m)%nat → 0 ≤ t < Z.of_nat n + 16 →
  Fips.W (Fips.schedule M m) t = Fips.W (Fips.schedule M n) t.
Proof.
  intros Hle Ht. induction Hle as [|m Hle IH]; [done|]. rewrite <- IH. cbn [Fips.schedule].
  unfold Fips.W. rewrite !(arr_get_nonneg _ t) by lia. rewrite lookup_app_l; [done|].
  pose proof (schedule_len M m). unfold len in *. lia.
Qed.

Lemma W_step M n t : 16 ≤ t < Z.of_nat n + 16 →
  let W := Fips.W (Fips.schedule M n) in
  W t = rol (W (t - 3) ^ᵤ W (t - 8) ^ᵤ W (t - 14) ^ᵤ W (t - 16)) 1.
Proof.
  intros Ht. cbv zeta. pose (k := Z.to_nat (t - 16)).
  rewrite !(schedule_prefix M k n (t - _)) by lia.
  rewrite (schedule_prefix M (S k) n t) by lia. cbn [Fips.schedule].
  pose proof (schedule_len M k) as Hl. unfold Fips.W at 1.
  replace (Z.of_nat k + 16) with t in * by lia.
  rewrite arr_get_nonneg, lookup_app_r by (unfold len in Hl; lia).
  by replace (_ - _)%nat with 0%nat by (unfold len in Hl; lia).
Qed.

Lemma W_word M n t : 0 ≤ t < 16 → Fips.W (Fips.schedule M n) t = Fips.word M t.
Proof.
  intros Ht. rewrite (schedule_prefix M 0) by lia.
  assert (t ∈ seqZ 0 16) as Hin by (apply elem_of_seqZ; lia).
  revert Hin. change (seqZ 0 16) with [0; 1; 2; 3; 4; 5; 6; 7; 8; 9; 10; 11; 12; 13; 14; 15].
  rewrite !elem_of_cons, elem_of_nil. intros H. by repeat destruct H as [->|H].
Qed.

(** Reading a word of the block the other way round. *)
Lemma testbit_byte b n : 0 ≤ b < 256 → 8 ≤ n → Z.testbit b n = false.
Proof.
  intros Hb Hn. rewrite <- (Z.mod_small b (2 ^ 8)) by lia. by apply Z.mod_pow2_bits_high; lia.
Qed.

Lemma mask_high m n : 0 ≤ m < 2 ^ 32 → 32 ≤ n → Z.testbit m n = false.
Proof.
  intros Hm Hn. rewrite <- (Z.mod_small m (2 ^ 32)) by lia. by apply Z.mod_pow2_bits_high; lia.
Qed.

Lemma testbit_shl x k n : 0 ≤ k →
  Z.testbit (Z.shiftl x k) n = (0 <=? n) && Z.testbit x (n - k).
Proof.
  intros Hk. destruct (Z.leb_spec 0 n); [by rewrite Z.shiftl_spec by done|by apply Z.testbit_neg_r].
Qed.

Lemma testbit_out b n : 0 ≤ b < 256 → n < 0 ∨ 8 ≤ n → Z.testbit b n = false.
Proof. intros Hb [Hn|Hn]; [by apply Z.testbit_neg_r|by apply testbit_byte]. Qed.

Lemma swap_word a b c d :
  0 ≤ a < 256 → 0 ≤ b < 256 → 0 ≤ c < 256 → 0 ≤ d < 256 →
  let x := a + b * 2 ^ 8 + c * 2 ^ 16 + d * 2 ^ 24 in
  (rol x 24 &ᵤ 0xFF00FF00) |ᵤ (rol x 8 &ᵤ 0x00FF00FF) = a * 2 ^ 24 + b * 2 ^ 16 + c * 2 ^ 8 + d.
Proof.
  intros Ha Hb Hc Hd x.
  assert (x = Z.lor (Z.lor (Z.lor (Z.shiftl d 24) (Z.shiftl c 16)) (Z.shiftl b 8)) a) as ->.
  { rewrite lor4 by done. unfold x. lia. }
  rewrite <- lor4 by done. unfold rol. apply Z.bits_inj'. intros n Hn.
  destruct (Z.lt_ge_cases n 32) as [Hlt|Hge].
  - assert (n ∈ seqZ 0 32) as Hin by (apply elem_of_seqZ; lia).
    revert Hin. clear Hn Hlt.
    match goal with |- context [seqZ 0 32] => let l := eval vm_compute in (seqZ 0 32) in change (seqZ 0 32) with l end.
    rewrite !elem_of_cons, elem_of_nil. intros H.
    repeat (destruct H as [->|H]; [
      rewrite !Z.lor_spec, !Z.land_spec, !Z.lor_spec; unfold u32;
      rewrite !Z.mod_pow2_bits_low, !Z.shiftr_spec by lia;
      rewrite !testbit_shl, !Z.lor_spec, !testbit_shl by lia;
      repeat match goal with
      | |- context [Z.testbit ?v ?e] =>
          is_var v; let e' := eval vm_compute in e in
          first [rewrite (testbit_out v e) by lia
                |progress change (Z.testbit v e) with (Z.testbit v e')]
      end;
      repeat match goal with |- context [Z.testbit ?v ?e] => is_var v; destruct (Z.testbit v e) end;
      reflexivity |]).
    done.
  - rewrite !Z.lor_spec, !Z.land_spec, !Z.shiftl_spec by lia.
    rewrite (mask_high 0xFF00FF00), (mask_high 0x00FF00FF), !andb_false_r by lia.
    by rewrite (testbit_byte a), (testbit_byte b), (testbit_byte c), (testbit_byte d) by lia.
Qed.

(** The block of sixteen words at round [t]: the last sixteen words of the
    schedule, where the first ones are still as they were in memory. *)
Record window (M : list Z) (t : Z) (l : list Z) : Prop := {
  win_len : len l = 16;
  win_bytes : bytes M ∧ len M = 64;
  win_word s : 0 ≤ s < t → t - 16 ≤ s → l.[s mod 16] = Some (Fips.W (Fips.schedule M 64) s);
  win_raw s : t ≤ s < 16 → l.[s] = load_le M s
}.

Lemma load_le_word M s : bytes M → len M = 64 → 0 ≤ s < 16 →
  ∃ x, load_le M s = Some x ∧ (rol x 24 &ᵤ 0xFF00FF00) |ᵤ (rol x 8 &ᵤ 0x00FF00FF) = Fips.word M s.
Proof.
  intros HM Hl Hs. unfold load_le, Fips.word, Fips.byte.
  destruct (arr_get_is_Some M (4 * s)) as [a Ea]; [lia|].
  destruct (arr_get_is_Some M (4 * s + 1)) as [b Eb]; [lia|].
  destruct (arr_get_is_Some M (4 * s + 2)) as [c Ec]; [lia|].
  destruct (arr_get_is_Some M (4 * s + 3)) as [d Ed]; [lia|].
  rewrite Ea, Eb, Ec, Ed. eexists. split; [reflexivity|]. cbn [from_option id].
  apply swap_word; by eapply (arr_get_Forall (λ b, 0 ≤ b < 256) M).
Qed.

Lemma window_blk M t l : 0 ≤ t < 80 → window M t l →
  ∃ l', macro_blk (macro_at t) l t = Some (Fips.W (Fips.schedule M 64) t, l') ∧ window M (t + 1) l'.
Proof.
  intros Ht [Hl HM Hw Hr].
  assert (∃ l', macro_blk (macro_at t) l t = Some (Fips.W (Fips.schedule M 64) t, l') ∧
    l.[t mod 16 <- Fips.W (Fips.schedule M 64) t] = Some l') as (l' & E & El).
  { pose proof (Z.mod_pos_bound t 16).
    destruct (arr_set l (t mod 16) (Fips.W (Fips.schedule M 64) t)) as [l'|] eqn:El; cycle 1.
    { rewrite arr_set_Some in El by lia. done. }
    exists l'. split; [|done]. unfold macro_at. destruct (Z.ltb_spec t 16).
    - cbn [macro_blk]. unfold blk0. rewrite Hr by lia.
      destruct (load_le_word M t) as (x & -> & ->); [tauto|tauto|lia|].
      rewrite W_word, Z.mod_small in El by lia. rewrite El, W_word by lia. done.
    - replace (macro_blk _) with blk by (zcases; done). unfold blk.
      rewrite !(land_mask _ 4) by lia. change (2 ^ 4) with 16.
      replace ((t + 13) mod 16) with ((t - 3) mod 16) by (rewrite <- (Z_mod_plus_full (t - 3) 1 16); f_equal; lia).
      replace ((t + 8) mod 16) with ((t - 8) mod 16) by (rewrite <- (Z_mod_plus_full (t - 8) 1 16); f_equal; lia).
      replace ((t + 2) mod 16) with ((t - 14) mod 16) by (rewrite <- (Z_mod_plus_full (t - 14) 1 16); f_equal; lia).
      assert (l.[t mod 16] = Some (Fips.W (Fips.schedule M 64) (t - 16))) as E0.
      { rewrite <- Hw by lia. f_equal. rewrite <- (Z_mod_plus_full (t - 16) 1 16). f_equal. lia. }
      rewrite E0, !Hw by lia. rewrite <- W_step by lia. by rewrite El. }
  exists l'. split; [done|]. split; [by erewrite arr_set_len|done| |].
  - intros s Hs Hs'. destruct (decide (s = t)) as [->|Hne]; [by eapply arr_get_set_eq|].
    erewrite arr_get_set_ne; [apply Hw; lia|done|].
    intros E2. pose proof (Z.div_mod t 16). pose proof (Z.div_mod s 16). lia.
  - intros s Hs. erewrite arr_get_set_ne; [apply Hr; lia|done|].
    rewrite Z.mod_small; lia.
Qed.

Lemma placed_step m M h t l l' : 0 ≤ t < 80 →
  macro_blk (macro_at t) l t = Some (Fips.W M t, l') → m = macro_at t →
  run_rounds [call_at t] (placed t h, l) = Some (placed (t + 1) (Fips.round M t h), l').
Proof.
  intros Ht E ->. destruct h as [[[[a b] c] d] e]. unfold call_at, placed, Fips.round.
  assert (t mod 5 = 0 ∨ t mod 5 = 1 ∨ t mod 5 = 2 ∨ t mod 5 = 3 ∨ t mod 5 = 4) as H
    by (pose proof (Z.mod_pos_bound t 5); lia).
  rewrite <- (Zplus_mod_idemp_l t 1 5).
  assert (e + (macro_f (macro_at t) b c d + Fips.W M t + macro_k (macro_at t) + rol a 5) =
    rol a 5 + Fips.f t b c d + e + Fips.K t + Fips.W M t) as <- by (rewrite macro_f_eq, macro_k_eq; lia).
  destruct H as [Hm|[Hm|[Hm|[Hm|Hm]]]]; rewrite Hm; cbn [run_rounds]; unfold round_step; rewrite E;
    match goal with |- context [(?x + 1) mod 5] => let y := eval vm_compute in ((x + 1) mod 5) in
      change ((x + 1) mod 5) with y end;
    reflexivity.
Qed.

Lemma run_rounds_app rs rs' st :
  run_rounds (rs ++ rs') st = (st' ← run_rounds rs st; run_rounds rs' st').
Proof.
  revert st. induction rs as [|[[[[[[m v] w] x] y] z] i] rs IH]; intros st; [done|].
  cbn [run_rounds app]. destruct (round_step m v w x y z i st); [apply IH|done].
Qed.

Lemma run_rounds_fips M n t h l : 0 ≤ t → t + Z.of_nat n ≤ 80 → window M t l →
  ∃ l', run_rounds (map call_at (seqZ t (Z.of_nat n))) (placed t h, l) =
    Some (placed (t + Z.of_nat n) (Fips.rounds (Fips.schedule M 64) t n h), l').
Proof.
  revert t h l. induction n as [|n IH]; intros t h l Ht Hn Hw.
  { exists l. by rewrite Z.add_0_r. }
  rewrite seqZ_cons by lia. cbn [map]. change (Z.succ t) with (t + 1). change (call_at t :: ?rs) with ([call_at t] ++ rs).
  destruct (window_blk M t l) as (l1 & E & Hw1); [lia|done|].
  rewrite run_rounds_app, (placed_step (macro_at t) (Fips.schedule M 64) h t l l1) by (done || lia).
  replace (Z.pred (Z.of_nat (S n))) with (Z.of_nat n) by lia.
  destruct (IH (t + 1) (Fips.round (Fips.schedule M 64) t h) l1) as [l' E'];
    [lia|lia|done|]. exists l'. rewrite E'.
  by replace (t + Z.of_nat (S n)) with (t + 1 + Z.of_nat n) by lia.
Qed.

(** A block is compressed as the standard says. *)
Theorem SHA1_Transform_compress h M rest : bytes M → len M = 64 →
  SHA1_Transform (regs_of h) (M ++ rest) = Some (regs_of (Fips.compress h M)).
Proof.
  intros HM Hl. unfold SHA1_Transform. rewrite mem_read_prefix by done.
  assert (∃ l, mapM (load_le M) (seqZ 0 16) = Some l ∧ window M 0 l) as (l & El & Hw).
  { destruct (proj2 (mapM_is_Some (load_le M) (seqZ 0 16))) as [l El].
    { apply Forall_forall. intros s Hs%elem_of_seqZ.
      destruct (load_le_word M s) as (x & E & _); [done|done|lia|]. by exists x. }
    exists l. split; [done|]. apply mapM_Some in El. pose proof (Forall2_length _ _ _ El) as Hll.
    rewrite length_seqZ in Hll. split; [unfold len; lia|done|lia|].
    intros s Hs. destruct (arr_get_is_Some l s) as [x Ex]; [unfold len; lia|].
    rewrite arr_get_nonneg in Ex |- * by lia.
    rewrite Forall2_lookup in El. specialize (El (Z.to_nat s)). rewrite Ex in El |- *.
    inversion El as [y x' Hy Hs1 Hs2|]; subst. symmetry.
    symmetry in Hs1. apply lookup_seqZ in Hs1 as [-> _].
    by replace (0 + Z.of_nat (Z.to_nat s)) with s in Hy by lia. }
  change (seqZ 0 16) with [0; 1; 2; 3; 4; 5; 6; 7; 8; 9; 10; 11; 12; 13; 14; 15] in El.
  rewrite El, rounds_eq. destruct (run_rounds_fips M 80 0 h l) as [l' E]; [lia|lia|done|].
  change (placed 0 h) with (let '(a, b, c, d, e) := h in [a; b; c; d; e]) in E.
  unfold regs_of, Fips.compress. destruct h as [[[[a b] c] d] e].
  change (Z.of_nat 80) with 80 in E. rewrite E.
  destruct (Fips.rounds _ _ _ _) as [[[[a' b'] c'] d'] e']. reflexivity.
Qed.

(** ** The running hash *)

Lemma blocks_app n k h a b : len a = 64 * Z.of_nat n →
  Fips.blocks (n + k) h (a ++ b) = Fips.blocks k (Fips.blocks n h a) b.
Proof.
  revert h a. induction n as [|n IH]; intros h a Ha.
  { destruct a; [done|]. rewrite len_cons in Ha. pose proof (len_nonneg a). lia. }
  cbn [Fips.blocks Nat.add]. unfold len in *.
  rewrite take_app_le, drop_app_le by lia. apply IH. rewrite length_drop. lia.
Qed.

(** The context after the bytes [m]: whole blocks are in the state, the rest
    is in the buffer. *)
Definition buf_repr (c : SHA1_CTX) (m : list Z) : Prop :=
  bytes m ∧
  ∃ n a r, m = a ++ r ∧ len a = 64 * Z.of_nat n ∧ len r < 64 ∧
    state c = regs_of (Fips.blocks n Fips.IV a) ∧ filled 64 (buffer c) r ∧
    Z.land (Z.shiftr (count c).1 3) 63 = len r.
Definition ctx_repr (c : SHA1_CTX) (m : list Z) : Prop :=
  buf_repr c m ∧ count c = (u32 (8 * len m), u32 (8 * len m / 2 ^ 32)).

Lemma init_repr : ctx_repr sat_SHA1_Init [].
Proof.
  split; [|done]. split; [constructor|]. exists O, [], []. repeat split. exists (malloc 64). done.
Qed.

Lemma bits_split x n : 0 ≤ x → 0 ≤ n < 2 ^ 32 →
  let c := u32 (u32 x + n) in
  c = u32 (x + n) ∧
  u32 ((if u32 (x + n) <? n then u32 (u32 (x / 2 ^ 32) + 1) else u32 (x / 2 ^ 32)) + 0) = u32 ((x + n) / 2 ^ 32).
Proof.
  intros Hx Hn. unfold u32. split; [by rewrite Zplus_mod_idemp_l|].
  rewrite Z.add_0_r.
  assert ((x + n) / 2 ^ 32 = x / 2 ^ 32 + (if (x + n) mod 2 ^ 32 <? n then 1 else 0)) as ->.
  { pose proof (Z.div_mod x (2 ^ 32)). pose proof (Z.mod_pos_bound x (2 ^ 32)).
    pose proof (Z.div_mod (x + n) (2 ^ 32)). pose proof (Z.mod_pos_bound (x + n) (2 ^ 32)).
    assert ((x + n) / 2 ^ 32 = x / 2 ^ 32 ∨ (x + n) / 2 ^ 32 = x / 2 ^ 32 + 1) by lia.
    destruct (Z.ltb_spec ((x + n) mod 2 ^ 32) n); lia. }
  destruct (_ <? _).
  - by rewrite Zplus_mod_idemp_l, Z.mod_mod.
  - by rewrite Z.add_0_r, Z.mod_mod.
Qed.

(** The blocks of one call after the first. *)
Lemma update_loop h d i : bytes d → 0 ≤ i ≤ len d →
  let q := (len d - i) / 64 in
  for_step i (len d - 63) 64 (λ i '(_, st),
    st ← SHA1_Transform st (advance i d); Some (i + 64, st)) (i, regs_of h) =
  Some (i + 64 * q, regs_of (Fips.blocks (Z.to_nat q) h (take (Z.to_nat (64 * q)) (advance i d)))).
Proof.
  intros Hd Hi q. pose proof (Z.div_mod (len d - i) 64). pose proof (Z.mod_pos_bound (len d - i) 64).
  assert (0 ≤ q) by (apply Z.div_pos; lia). fold q in H.
  destruct (for_step_inv (λ j '(i', st), i' = i + 64 * j ∧
      st = regs_of (Fips.blocks (Z.to_nat j) h (take (Z.to_nat (64 * j)) (advance i d))))
    i (len d - 63) 64 (λ i '(_, st), st ← SHA1_Transform st (advance i d); Some (i + 64, st))
    (i, regs_of h) q) as ([i' st'] & E & -> & ->); [unfold q; f_equal; lia|lia|done|split;[lia|done]| |done].
  intros j [i' st] Hj [-> ->].
  set (m := take 64 (advance (i + j * 64) d)).
  assert (len m = 64) as Hm by (unfold m, advance, len in *; rewrite length_take, length_drop; lia).
  assert (advance (i + j * 64) d = m ++ drop 64 (advance (i + j * 64) d)) as -> by (symmetry; apply take_drop).
  rewrite SHA1_Transform_compress; [|by apply Forall_take, Forall_drop|done].
  eexists. split; [reflexivity|]. split; [lia|]. f_equal.
  replace (Z.to_nat (j + 1)) with (Z.to_nat j + 1)%nat by lia.
  replace (Z.to_nat (64 * (j + 1))) with (Z.to_nat (64 * j) + 64)%nat by lia.
  rewrite <- take_take_drop. rewrite blocks_app.
  - cbn [Fips.blocks]. f_equal. unfold m, advance. rewrite drop_drop, take_take.
    f_equal. f_equal. lia.
  - unfold advance, len in *. rewrite length_take, length_drop. lia.
Qed.

Lemma filled_full n buf out : filled n buf out → len out = n → buf = map Some out.
Proof.
  intros [Hl [rest ->]] Hn. destruct rest; [by rewrite app_nil_r|].
  rewrite len_app, len_map, len_cons in Hl. pose proof (len_nonneg rest). lia.
Qed.

(** The start, the middle and the end of what is copied. *)
Lemma split3 (d : list Z) i k : 0 ≤ i → 0 ≤ k → i + k ≤ len d →
  let d1 := take (Z.to_nat i) d in
  let full := take (Z.to_nat k) (advance i d) in
  let r := drop (Z.to_nat k) (advance i d) in
  d = (d1 ++ full) ++ r ∧ len d1 = i ∧ len full = k ∧
  mem_read (map Some d) 0 i = Some (map Some d1) ∧
  mem_read (map Some d) (i + k) (len d - (i + k)) = Some (map Some r).
Proof.
  intros Hi Hk Hl d1 full r.
  assert (len d1 = i) as H1 by (unfold d1, len in *; rewrite length_take; lia).
  assert (len full = k) as H2 by (unfold full, advance, len in *; rewrite length_take, length_drop; lia).
  assert (d = (d1 ++ full) ++ r) as Hd.
  { unfold full, r, d1, advance. by rewrite <- app_assoc, (take_drop (Z.to_nat k)), (take_drop (Z.to_nat i)). }
  assert (len r = len d - (i + k)) as H3 by (rewrite Hd at 1; rewrite !len_app; lia).
  repeat (split; [done|]). rewrite <- H3. split.
  - rewrite Hd, <- app_assoc, map_app. apply mem_read_prefix. by rewrite len_map.
  - rewrite Hd at 1. rewrite map_app.
    pose proof (mem_read_app (map Some (d1 ++ full)) (map Some r) [] (i + k) (len r)) as E.
    rewrite app_nil_r in E. apply E; rewrite len_map, ?len_app; lia.
Qed.

(** The number of bytes in the buffer, from the number of bits. *)
Lemma count_rest x n r : x = 64 * n + r → 0 ≤ r < 64 →
  Z.land (Z.shiftr (u32 (8 * x)) 3) 63 = r.
Proof.
  intros -> Hr. rewrite (land_mask _ 6), Z.shiftr_div_pow2 by lia.
  change (2 ^ 6) with 64. change (2 ^ 3) with 8.
  unfold u32. rewrite (Z.mul_comm 8). change (2 ^ 32) with (2 ^ 29 * 8).
  rewrite Zmult_mod_distr_r, Z.div_mul by lia. change (2 ^ 29) with (64 * 2 ^ 23).
  rewrite Z.rem_mul_r by lia. rewrite (Z.mul_comm 64 (_ mod _)), Z_mod_plus_full, Z.mod_mod by lia.
  rewrite Z.add_comm, Z.mul_comm, Z_mod_plus_full. by apply Z.mod_small.
Qed.

Lemma add_bits_rest c0 n r d : (c0.1 = u32 (8 * (64 * n + r))) → 0 ≤ r → 0 ≤ d < 2 ^ 61 →
  (add_bits c0 d).1 = u32 (8 * (64 * n + r + d)).
Proof.
  intros E Hr Hd. unfold add_bits. cbn [fst]. rewrite E, Z.shiftl_mul_pow2, u64_small by lia.
  unfold u32. rewrite Zplus_mod_idemp_l. f_equal. lia.
Qed.

(** A part that does not fill the buffer. *)
Lemma update_small c m d : buf_repr c m → bytes d →
  Z.land (Z.shiftr (count c).1 3) 63 + len d ≤ 63 →
  ∃ c', sat_SHA1_Update c d (len d) = Some c' ∧ count c' = add_bits (count c) (len d) ∧
    bytes (m ++ d) ∧ ∃ n a r, m ++ d = a ++ r ∧ len a = 64 * Z.of_nat n ∧ len r < 64 ∧
    state c' = regs_of (Fips.blocks n Fips.IV a) ∧ filled 64 (buffer c') r.
Proof.
  intros (Hm & n & a & r & -> & Ha & Hr & Hst & Hf & Hc) Hd Hsmall. rewrite Hc in Hsmall.
  unfold sat_SHA1_Update. rewrite Hc. pose proof (len_nonneg d).
  destruct (Z.ltb_spec 63 (len r + len d)); [lia|].
  rewrite (mem_read_whole (map Some d)) by (rewrite len_map; lia).
  destruct (filled_write 64 (buffer c) r d (len r)) as (buf & -> & Hbuf); [done|done|lia|].
  eexists. split; [reflexivity|]. split; [done|]. split; [by apply Forall_app|].
  exists n, a, (r ++ d). rewrite <- app_assoc, len_app. split; [done|]. split; [done|]. split; [lia|]. done.
Qed.

(** A part that fills the buffer: its start completes a block, whole blocks
    follow, and its end is the new content of the buffer. *)
Lemma update_big c m d : buf_repr c m → bytes d →
  63 < Z.land (Z.shiftr (count c).1 3) 63 + len d →
  ∃ c', sat_SHA1_Update c d (len d) = Some c' ∧ count c' = add_bits (count c) (len d) ∧
    bytes (m ++ d) ∧ ∃ n a r, m ++ d = a ++ r ∧ len a = 64 * Z.of_nat n ∧ len r < 64 ∧
    state c' = regs_of (Fips.blocks n Fips.IV a) ∧ filled 64 (buffer c') r.
Proof.
  intros (Hm & n & a & r & -> & Ha & Hr & Hst & Hf & Hc) Hd Hbig. rewrite Hc in Hbig.
  unfold sat_SHA1_Update. rewrite Hc. pose proof (len_nonneg r).
  destruct (Z.ltb_spec 63 (len r + len d)) as [_|]; [|lia].
  set (i := 64 - len r) in *. set (q := (len d - i) / 64).
  pose proof (Z.div_mod (len d - i) 64) as Hq. fold q in Hq.
  pose proof (Z.mod_pos_bound (len d - i) 64).
  assert (0 ≤ q) by (apply Z.div_pos; unfold i in *; lia).
  destruct (split3 d i (64 * q)) as (Hd3 & Hd1 & Hfull & E1 & E2); [unfold i in *; lia..|].
  set (d1 := take (Z.to_nat i) d) in *. set (full := take (Z.to_nat (64 * q)) (advance i d)) in *.
  set (r' := drop (Z.to_nat (64 * q)) (advance i d)) in *.
  assert (len r' = len d - (i + 64 * q)) as Hr' by (rewrite Hd3 at 1; rewrite !len_app; lia).
  rewrite E1. destruct (filled_write 64 (buffer c) r d1 (len r)) as (buf & -> & Hbuf);
    [done|done|unfold i in *; lia|].
  assert (len (r ++ d1) = 64) as H64 by (rewrite len_app; unfold i in *; lia).
  rewrite (filled_full _ _ _ Hbuf H64), mapM_id_Some, Hst.
  assert (bytes (r ++ d1)) as Hb1.
  { apply Forall_app. split; [by apply Forall_app in Hm as [_ ?]|by apply Forall_take]. }
  pose proof (SHA1_Transform_compress (Fips.blocks n Fips.IV a) (r ++ d1) [] Hb1 H64) as E.
  rewrite app_nil_r in E. rewrite E. clear E.
  rewrite update_loop by (done || (unfold i in *; lia)). fold q full. rewrite E2.
  destruct (filled_write 64 (map Some (r ++ d1)) [] r' 0) as (buf' & -> & Hbuf');
    [split; [by rewrite len_map|by eexists]|done|change (len []) with 0; lia|].
  eexists. split; [reflexivity|]. split; [done|]. split; [by apply Forall_app|].
  exists (n + (1 + Z.to_nat q))%nat, (a ++ ((r ++ d1) ++ full)), r'.
  split; [rewrite Hd3 at 1; by rewrite <- !app_assoc|].
  split; [rewrite !len_app in *; unfold i in *; lia|]. split; [lia|]. split; [|done].
  rewrite blocks_app by done. cbn [state]. f_equal. cbn [Fips.blocks Nat.add].
  unfold len in H64. rewrite take_app_le, drop_app_le by lia. by rewrite take_ge, drop_ge by lia.
Qed.

Lemma update_buf c m d : buf_repr c m → (count c).1 = u32 (8 * len m) → bytes d → len d < 2 ^ 61 →
  ∃ c', sat_SHA1_Update c d (len d) = Some c' ∧ buf_repr c' (m ++ d) ∧
    count c' = add_bits (count c) (len d).
Proof.
  intros Hc Hcm Hd Hl.
  assert (∃ c', sat_SHA1_Update c d (len d) = Some c' ∧ count c' = add_bits (count c) (len d) ∧
    bytes (m ++ d) ∧ ∃ n a r, m ++ d = a ++ r ∧ len a = 64 * Z.of_nat n ∧ len r < 64 ∧
    state c' = regs_of (Fips.blocks n Fips.IV a) ∧ filled 64 (buffer c') r)
    as (c' & E & Hc' & Hb & n & a & r & Har & Ha & Hr & Hst & Hf).
  { destruct (Z.ltb_spec 63 (Z.land (Z.shiftr (count c).1 3) 63 + len d));
      [by apply update_big|by apply update_small]. }
  exists c'. split; [done|]. split; [|done]. split; [done|]. exists n, a, r. repeat (split; [done|]).
  rewrite Hc'. pose proof (len_nonneg m). pose proof (len_nonneg d).
  rewrite (add_bits_rest _ (len m / 64) (len m mod 64)); [|by rewrite <- Z.div_mod by lia| |lia];
    [|apply Z.mod_pos_bound; lia].
  rewrite <- Z.div_mod, <- len_app, Har, len_app by lia.
  apply (count_rest _ (Z.of_nat n)); [lia|]. split; [apply len_nonneg|done].
Qed.

Lemma update_repr c m d : ctx_repr c m → bytes d → len d < 2 ^ 29 →
  ∃ c', sat_SHA1_Update c d (len d) = Some c' ∧ ctx_repr c' (m ++ d).
Proof.
  intros [Hb Hc] Hd Hl. pose proof (len_nonneg m). pose proof (len_nonneg d).
  destruct (update_buf c m d) as (c' & E & Hb' & Hc'); [done|by rewrite Hc|done|lia|].
  exists c'. split; [done|]. split; [done|]. rewrite Hc', Hc. unfold add_bits. cbn [fst snd].
  rewrite Z.shiftl_mul_pow2, u64_small, Z.shiftr_div_pow2, (Z.div_small (len d)) by lia.
  rewrite len_app, Z.mul_add_distr_l. rewrite (Z.mul_comm (len d)). change (2 ^ 3) with 8.
  destruct (bits_split (8 * len m) (8 * len d)) as [-> Hs]; [lia|lia|]. by rewrite Hs.
Qed.

(** ** The digest *)

Lemma land_504 x : 0 ≤ x → Z.land (u32 (8 * x)) 504 = 8 * (x mod 64).
Proof.
  intros Hx. change 504 with (Z.shiftl (2 ^ 6 - 1) 3).
  assert (u32 (8 * x) = Z.shiftl (x mod 2 ^ 29) 3) as ->.
  { rewrite Z.shiftl_mul_pow2 by lia. unfold u32. change (2 ^ 32) with (2 ^ 29 * 2 ^ 3).
    rewrite (Z.mul_comm 8). change 8 with (2 ^ 3). by rewrite Zmult_mod_distr_r. }
  rewrite <- Z.shiftl_land, land_mask, Z.shiftl_mul_pow2 by lia.
  change (2 ^ 6) with 64. change (2 ^ 29) with (64 * 2 ^ 23).
  rewrite Z.rem_mul_r by lia. rewrite (Z.mul_comm 64 (_ mod _)), Z_mod_plus_full, Z.mod_mod by lia. lia.
Qed.

Lemma repr_count c m : ctx_repr c m → Z.land (count c).1 504 = 8 * (len m mod 64).
Proof.
  intros [_ ->]. apply land_504, len_nonneg.
Qed.

(** Zeros are added until eight bytes are left of the block. *)
Lemma pad_run m j : bytes m → ∀ fuel c k, (j < fuel)%nat →
  Z.of_nat (k + j) = (55 - len m) mod 64 → ctx_repr c (m ++ 128 :: replicate k 0) →
  ∃ c', while_loop fuel (λ context, negb (Z.land (count context).1 504 =? 448))
      (λ context, sat_SHA1_Update context [0] 1) c = Some c' ∧
    ctx_repr c' (m ++ 128 :: replicate (k + j) 0).
Proof.
  intros Hm. induction j as [|j IH]; intros fuel c k Hf Hk Hc;
    (destruct fuel as [|fuel]; [lia|]); cbn [while_loop]; rewrite (repr_count _ _ Hc), len_app, len_cons;
    assert (len (replicate k 0) = Z.of_nat k) as -> by (unfold len; by rewrite length_replicate);
    pose proof (Z.div_mod (55 - len m) 64); pose proof (Z.mod_pos_bound (55 - len m) 64).
  - replace ((len m + _) mod 64) with 56; cycle 1.
    { apply Z.mod_unique with (- ((55 - len m) / 64)); lia. }
    exists c. by rewrite Nat.add_0_r.
  - destruct (Z.eqb_spec (8 * ((len m + (1 + Z.of_nat k)) mod 64)) 448) as [E|_]; cbn [negb].
    { pose proof (Z.div_mod (len m + (1 + Z.of_nat k)) 64). lia. }
    destruct (update_repr c _ [0] Hc) as (c1 & E & Hc1); [repeat constructor; lia|done|].
    change (len [0]) with 1 in E. rewrite E. rewrite <- app_assoc in Hc1. cbn [app] in Hc1.
    rewrite <- replicate_cons_app in Hc1. change (0 :: replicate k 0) with (replicate (S k) 0) in Hc1.
    replace (k + S j)%nat with (S k + j)%nat in * by lia. apply IH; [lia|done|done].
Qed.

Lemma be32_bytes x : bytes (Fips.be32 x).
Proof. repeat constructor; apply Z.mod_pos_bound; lia. Qed.

Lemma be32_u32 x : Fips.be32 (u32 x) = Fips.be32 x.
Proof.
  unfold Fips.be32, u32.
  assert (∀ a b, 0 ≤ a → 0 ≤ b → a + b = 32 → 8 ≤ b → (x mod 2 ^ 32) / 2 ^ a mod 256 = x / 2 ^ a mod 256) as H.
  { intros a b Ha Hb Hab H8. rewrite <- Hab, Z.pow_add_r, Z.rem_mul_r by lia.
    rewrite (Z.mul_comm (2 ^ a)), Z.div_add, (Z.div_small (x mod 2 ^ a)) by (try apply Z.mod_pos_bound; lia).
    replace (2 ^ b) with (256 * 2 ^ (b - 8)) by (change 256 with (2 ^ 8); rewrite <- Z.pow_add_r by lia; f_equal; lia).
    rewrite Z.add_0_l, Z.rem_mul_r, (Z.mul_comm 256), Z_mod_plus_full, Z.mod_mod by lia. done. }
  rewrite (H 24 8), (H 16 16), (H 8 24) by lia. specialize (H 0 32).
  change (2 ^ 0) with 1 in H. rewrite !Z.div_1_r in H. rewrite H by lia. done.
Qed.

Lemma digest_word x : let b k := Z.land (Z.shiftr x k) 255 in
  [b 24; b 16; b 8; b 0] = Fips.be32 x.
Proof.
  cbv beta zeta. change 255 with (2 ^ 8 - 1). rewrite !land_mask, !Z.shiftr_div_pow2 by lia.
  unfold Fips.be32. change (2 ^ 0) with 1. by rewrite Z.div_1_r.
Qed.

Lemma digest_words h :
  mapM (λ i, s ← (regs_of h).[Z.shiftr i 2]; Some ((s >>ᵤ ((3 - Z.land i 3) * 8)) &ᵤ 255))
    [0; 1; 2; 3; 4; 5; 6; 7; 8; 9; 10; 11; 12; 13; 14; 15; 16; 17; 18; 19] =
  Some (let '(a, b, c, d, e) := h in concat (map Fips.be32 [a; b; c; d; e])).
Proof. destruct h as [[[[a b] c] d] e]. cbn [map]. rewrite <- !digest_word. reflexivity. Qed.

Lemma padded_len m : ∃ n, len (m ++ Fips.padding m) = 64 * n ∧ 0 < n.
Proof.
  unfold Fips.padding. rewrite len_app, len_cons, !len_app.
  pose proof (Z.div_mod (55 - len m) 64). pose proof (Z.mod_pos_bound (55 - len m) 64).
  rewrite len_replicate by lia. change (len (Fips.be32 _)) with 4. pose proof (len_nonneg m).
  exists (1 - (55 - len m) / 64). lia.
Qed.

(** [sat_SHA1_Final] pads as the standard says. *)
Lemma final_repr c m : ctx_repr c m → sat_SHA1_Final c = Some (Fips.sha1 m).
Proof.
  intros Hc. pose proof Hc as [[Hm _] Hcc].
  unfold sat_SHA1_Final.
  set (fc := map _ [0; 1; 2; 3; 4; 5; 6; 7]).
  assert (fc = Fips.be32 (8 * len m / 2 ^ 32) ++ Fips.be32 (8 * len m)) as Hfc.
  { rewrite <- (be32_u32 (_ / _)), <- (be32_u32 (8 * len m)), <- !digest_word.
    unfold fc. by rewrite Hcc. }
  destruct (update_repr c m [128] Hc) as (c1 & E1 & Hc1'); [repeat constructor; lia|done|].
  change (len [128]) with 1 in E1. rewrite E1.
  set (K := Z.to_nat ((55 - len m) mod 64)).
  pose proof (Z.mod_pos_bound (55 - len m) 64).
  destruct (pad_run m K Hm 65 c1 0) as (c2 & E2 & Hc2'); [unfold K; lia|unfold K; lia|done|].
  unfold pad_loop. rewrite E2.
  destruct (update_repr c2 _ fc Hc2') as (c3 & E3 & Hc3); [|by rewrite Hfc|].
  { rewrite Hfc. apply Forall_app. split; apply be32_bytes. }
  change (len fc) with 8 in E3. rewrite E3. rewrite Hfc in Hc3.
  assert ((m ++ 128 :: replicate (0 + K) 0) ++ Fips.be32 (8 * len m / 2 ^ 32) ++ Fips.be32 (8 * len m)
    = m ++ Fips.padding m) as Ep by (unfold Fips.padding; by rewrite <- app_assoc).
  rewrite Ep in Hc3. destruct Hc3 as [(_ & n & a & r & Har & Ha & Hr & Hst & _) _].
  destruct (padded_len m) as (N & HN & HN0).
  assert (r = []) as ->.
  { rewrite Har, len_app in HN. destruct r; [done|]. rewrite len_cons in *. pose proof (len_nonneg r). lia. }
  rewrite app_nil_r in Har. rewrite Hst, digest_words. unfold Fips.sha1. rewrite Har, Ha.
  by replace (Z.to_nat (64 * Z.of_nat n / 64)) with n by (rewrite Z.mul_comm, Z.div_mul; lia).
Qed.

(** C19: [crypt.sha1(text)] is the SHA-1 of FIPS 180-4, for a string of bytes
    shorter than 512 MB: the rounds unrolled on a block overwritten in place,
    the buffering of partial blocks and the padding byte by byte compute what
    the standard's schedule of eighty words and its padded message do. *)
Theorem lsha1_is_sha1 text : bytes text → len text < 2 ^ 29 →
  lsha1 text = Some (Fips.sha1 text).
Proof.
  intros Ht Hl. unfold lsha1.
  destruct (update_repr _ _ text init_repr Ht Hl) as (c & -> & Hc). by apply final_repr.
Qed.

Lemma lsha1_is_sha1_witness :
  bytes [97; 98; 99] ∧ len [97; 98; 99] < 2 ^ 29 ∧
  lsha1 [97; 98; 99] = Some (Fips.sha1 [97; 98; 99]).
Proof.
  split; [repeat constructor; lia|]. split; [done|].
  apply lsha1_is_sha1; [repeat constructor; lia|done].
Defined.

(** A single call with 512 MB or more breaks the count of bits: the test
    for a carry compares the 32-bit sum with the length in bits as a
    [size_t], which is then larger whatever the sum is, so [count[1]] is one
    too many and the digest that of another padding. *)
Theorem update_long_count text : bytes text → 2 ^ 29 ≤ len text < 2 ^ 61 →
  ∃ c, sat_SHA1_Update sat_SHA1_Init text (len text) = Some c ∧ buf_repr c text ∧
    count c = (u32 (8 * len text), u32 (8 * len text / 2 ^ 32 + 1)).
Proof.
  intros Hb Hl. destruct init_repr as [Hr Hc].
  destruct (update_buf _ [] text Hr) as (c & E & Hr' & Hc'); [done|done|lia|].
  exists c. split; [done|]. split; [done|]. rewrite Hc'. unfold add_bits. cbn [sat_SHA1_Init count fst snd].
  rewrite Z.add_0_l, Z.shiftl_mul_pow2, u64_small, Z.shiftr_div_pow2 by lia.
  rewrite (Z.mul_comm (len text)). change (2 ^ 3) with 8. pose proof (u32_range (8 * len text)).
  destruct (Z.ltb_spec (u32 (8 * len text)) (8 * len text)); [|lia].
  change (u32 (0 + 1)) with 1. rewrite (Z.add_comm 1). change (2 ^ 32) with (8 * 2 ^ 29).
  by rewrite Z.div_mul_cancel_l.
Qed.

Lemma update_long_count_witness :
  let text := replicate (Z.to_nat (2 ^ 29)) 0 in
  len text = 2 ^ 29 ∧
  ∃ c, sat_SHA1_Update sat_SHA1_Init text (len text) = Some c ∧ buf_repr c text ∧ count c = (0, 2).
Proof.
  intros text. assert (len text = 2 ^ 29) as Hl by (apply len_replicate; lia).
  split; [exact Hl|].
  assert (bytes text) as Hb by (apply Forall_replicate; lia).
  destruct (update_long_count text Hb) as (c & E & Hr & Hc); [rewrite Hl; lia|].
  exists c. split; [exact E|]. split; [exact Hr|]. rewrite Hc, Hl. reflexivity.
Defined.

(** ** hmac_sha1 *)

Lemma lxor_byte w x k : 0 ≤ k →
  Z.lxor w x / 2 ^ k mod 2 ^ 8 = Z.lxor (w / 2 ^ k mod 2 ^ 8) (x / 2 ^ k mod 2 ^ 8).
Proof.
  intros Hk. rewrite <- !Z.shiftr_div_pow2, <- !Z.land_ones, Z.shiftr_lxor by lia.
  apply Z.bits_inj'. intros n Hn. rewrite !Z.land_spec, !Z.lxor_spec, !Z.land_spec.
  by destruct (Z.testbit (Z.ones 8) n); rewrite ?andb_true_r, ?andb_false_r.
Qed.

Lemma xor_word a b c d k : 0 ≤ a < 256 → 0 ≤ b < 256 → 0 ≤ c < 256 → 0 ≤ d < 256 → 0 ≤ k < 256 →
  let w := Z.lxor (a + b * 2 ^ 8 + c * 2 ^ 16 + d * 2 ^ 24) (k + k * 2 ^ 8 + k * 2 ^ 16 + k * 2 ^ 24) in
  [w mod 256; w / 2 ^ 8 mod 256; w / 2 ^ 16 mod 256; w / 2 ^ 24] = map (Z.lxor k) [a; b; c; d].
Proof.
  intros Ha Hb Hc Hd Hk w.
  assert (0 ≤ w < 2 ^ 32) as Hw by (apply lxor_range; lia).
  assert (w / 2 ^ 24 = w / 2 ^ 24 mod 2 ^ 8) as ->.
  { symmetry. apply Z.mod_small. split; [apply Z.div_pos; lia|apply Z.div_lt_upper_bound; lia]. }
  assert (w mod 256 = w / 2 ^ 0 mod 2 ^ 8) as -> by (change (2 ^ 0) with 1; by rewrite Z.div_1_r).
  change 256 with (2 ^ 8). unfold w. rewrite !lxor_byte by lia.
  assert (∀ p q r s, 0 ≤ p < 256 → 0 ≤ q < 256 → 0 ≤ r < 256 → 0 ≤ s < 256 →
    let x := p + q * 2 ^ 8 + r * 2 ^ 16 + s * 2 ^ 24 in
    x / 2 ^ 0 mod 2 ^ 8 = p ∧ x / 2 ^ 8 mod 2 ^ 8 = q ∧ x / 2 ^ 16 mod 2 ^ 8 = r ∧ x / 2 ^ 24 mod 2 ^ 8 = s)
    as H.
  { intros p q r s Hp Hq Hr Hs x. unfold x. repeat split; symmetry.
    - change (2 ^ 0) with 1. rewrite Z.div_1_r. apply Z.mod_unique with (q + r * 2 ^ 8 + s * 2 ^ 16); lia.
    - replace (_ / _) with (q + r * 2 ^ 8 + s * 2 ^ 16) by (apply Z.div_unique with p; lia).
      apply Z.mod_unique with (r + s * 2 ^ 8); lia.
    - replace (_ / _) with (r + s * 2 ^ 8) by (apply Z.div_unique with (p + q * 2 ^ 8); lia).
      apply Z.mod_unique with s; lia.
    - replace (_ / _) with s by (apply Z.div_unique with (p + q * 2 ^ 8 + r * 2 ^ 16); lia).
      apply Z.mod_unique with 0; lia. }
  destruct (H a b c d Ha Hb Hc Hd) as (-> & -> & -> & ->).
  destruct (H k k k k Hk Hk Hk Hk) as (-> & -> & -> & ->).
  cbn [map]. by rewrite !(Z.lxor_comm k).
Qed.

Lemma load_le_app p a b c d t j : len p = 4 * j →
  load_le (p ++ a :: b :: c :: d :: t) j = Some (a + b * 2 ^ 8 + c * 2 ^ 16 + d * 2 ^ 24).
Proof.
  intros Hp. pose proof (len_nonneg p). unfold load_le, len in *. rewrite !arr_get_nonneg by lia.
  rewrite !lookup_app_r by lia.
  replace (Z.to_nat (4 * j) - length p)%nat with 0%nat by lia.
  replace (Z.to_nat (4 * j + 1) - length p)%nat with 1%nat by lia.
  replace (Z.to_nat (4 * j + 2) - length p)%nat with 2%nat by lia.
  by replace (Z.to_nat (4 * j + 3) - length p)%nat with 3%nat by lia.
Qed.

(** Word by word is byte by byte. *)
Lemma xor_key_map key k : bytes key → len key = 64 → 0 ≤ k < 256 →
  xor_key key (k + k * 2 ^ 8 + k * 2 ^ 16 + k * 2 ^ 24) = Some (map (Z.lxor k) key).
Proof.
  intros Hb Hl Hk. unfold xor_key.
  destruct (for_step_inv (λ j l, l = map (Z.lxor k) (take (Z.to_nat (4 * j)) key) ++ drop (Z.to_nat (4 * j)) key)
    0 BLOCKSIZE 4 (λ i key, k' ← load_le key (i / 4);
      let k' := k' ^ᵤ (k + k * 2 ^ 8 + k * 2 ^ 16 + k * 2 ^ 24) in
      mem_write key i [k' mod 256; (k' / 2 ^ 8) mod 256; (k' / 2 ^ 16) mod 256; k' / 2 ^ 24]) key 16)
    as (l & E & Hl'); [done|lia|lia|done| |].
  - intros j l Hj ->. rewrite Z.add_0_l, Z.div_mul by lia.
    set (p := take (Z.to_nat (4 * j)) key).
    assert (len p = 4 * j) as Hp by (unfold p, len in *; rewrite length_take; lia).
    destruct (drop (Z.to_nat (4 * j)) key) as [|a [|b [|c [|d t]]]] eqn:Ed;
      try (apply (f_equal length) in Ed; rewrite length_drop in Ed; unfold len in *; cbn in Ed; lia).
    assert (bytes (a :: b :: c :: d :: t)) as Hb' by (rewrite <- Ed; by apply Forall_drop).
    inversion Hb' as [|? ? Ha Hb1]; subst. inversion Hb1 as [|? ? Hb2 Hc1]; subst.
    inversion Hc1 as [|? ? Hc2 Hd1]; subst. inversion Hd1 as [|? ? Hd2 _]; subst.
    rewrite load_le_app by (by rewrite len_map). cbv beta zeta. rewrite xor_word by done.
    change (a :: b :: c :: d :: t) with ([a; b; c; d] ++ t).
    rewrite mem_write_app by (rewrite len_map, ?Hp; done || lia).
    eexists. split; [reflexivity|]. rewrite app_assoc, <- map_app. f_equal.
    + f_equal. replace (Z.to_nat (4 * (j + 1))) with (Z.to_nat (4 * j) + 4)%nat by lia.
      by rewrite <- take_take_drop, Ed.
    + replace (Z.to_nat (4 * (j + 1))) with (Z.to_nat (4 * j) + 4)%nat by lia.
      by rewrite <- drop_drop, Ed.
  - etrans; [exact E|]. rewrite Hl'. unfold len in Hl. rewrite take_ge, drop_ge by lia. by rewrite app_nil_r.
Qed.

Lemma sha1_len m : len (Fips.sha1 m) = SHA1_DIGEST_SIZE.
Proof. unfold Fips.sha1. by destruct (Fips.blocks _ _ _) as [[[[a b] c] d] e]. Qed.
Lemma sha1_bytes m : bytes (Fips.sha1 m).
Proof.
  unfold Fips.sha1. destruct (Fips.blocks _ _ _) as [[[[a b] c] d] e].
  cbn [map concat]. repeat (apply Forall_app; split); try apply be32_bytes. constructor.
Qed.

Lemma map_lxor_bytes k l : 0 ≤ k < 256 → bytes l → bytes (map (Z.lxor k) l).
Proof.
  intros Hk Hl. apply Forall_map. eapply Forall_impl; [exact Hl|]. intros x Hx. cbn beta in *.
  apply (lxor_range 8 k x); lia.
Qed.

(** C28: [crypt.hmac_sha1(key, text)] is the HMAC of RFC 2104 over SHA-1, for a
    key and a text shorter than 512 MB. *)
Theorem lhmac_sha1_is_hmac key text : bytes key → bytes text → len key < 2 ^ 29 → len text < 2 ^ 29 →
  lhmac_sha1 key text = Some (Fips.hmac key text).
Proof.
  intros Hbk Hbt Hk Ht. unfold lhmac_sha1, Fips.hmac.
  set (k := if 64 <? len key then Fips.sha1 key else key).
  set (pad := k ++ replicate (64 - length k) 0).
  assert (bytes k ∧ len k ≤ 64) as [Hbk' Hk'].
  { unfold k. destruct (Z.ltb_spec 64 (len key)); [|by split].
    split; [apply sha1_bytes|]. rewrite sha1_len. unfold SHA1_DIGEST_SIZE. lia. }
  assert (len pad = 64) as Hpad.
  { unfold pad, len in *. rewrite length_app, length_replicate. lia. }
  assert (bytes pad) as Hbpad by (apply Forall_app; split; [done|apply Forall_replicate; lia]).
  assert (∀ x, len x ≤ 64 → mem_write (replicate (Z.to_nat BLOCKSIZE) 0) 0 x = Some (x ++ replicate (64 - length x) 0)) as Hw.
  { intros x Hx. replace (Z.to_nat BLOCKSIZE) with (length x + (64 - length x))%nat
      by (unfold BLOCKSIZE, len in *; lia).
    rewrite replicate_add. apply mem_write_prefix. unfold len. by rewrite length_replicate. }
  assert ((if BLOCKSIZE <? len key
     then ctx ← sat_SHA1_Update sat_SHA1_Init key (len key); digest ← sat_SHA1_Final ctx;
       mem_write (replicate (Z.to_nat BLOCKSIZE) 0) 0 digest
     else mem_write (replicate (Z.to_nat BLOCKSIZE) 0) 0 key) = Some pad) as ->.
  { unfold pad, k. change BLOCKSIZE with 64 at 1. destruct (Z.ltb_spec 64 (len key)); [|by apply Hw].
    destruct (update_repr _ _ key init_repr Hbk Hk) as (c & -> & Hc).
    rewrite (final_repr _ _ Hc). apply Hw. rewrite sha1_len. unfold SHA1_DIGEST_SIZE. lia. }
  change 0x5c5c5c5c with (0x5c + 0x5c * 2 ^ 8 + 0x5c * 2 ^ 16 + 0x5c * 2 ^ 24).
  rewrite (xor_key_map pad 0x5c) by (done || lia).
  assert (∀ l, bytes l → len l = 64 → ∃ c, sat_SHA1_Update sat_SHA1_Init l BLOCKSIZE = Some c ∧ ctx_repr c l) as Hup.
  { intros l Hb Hl. change BLOCKSIZE with 64. rewrite <- Hl. apply (update_repr _ [] l init_repr); [done|lia]. }
  destruct (Hup (map (Z.lxor 0x5c) pad)) as (c1 & -> & Hc1); [by apply map_lxor_bytes|by rewrite len_map|].
  change (Z.lxor _ 0x36363636) with (0x6a + 0x6a * 2 ^ 8 + 0x6a * 2 ^ 16 + 0x6a * 2 ^ 24).
  rewrite xor_key_map by (by rewrite ?len_map; try apply map_lxor_bytes).
  rewrite map_map, (map_ext _ (Z.lxor 0x36)) by (intros x; by rewrite <- Z.lxor_assoc).
  destruct (Hup (map (Z.lxor 0x36) pad)) as (c2 & -> & Hc2); [by apply map_lxor_bytes|by rewrite len_map|].
  destruct (update_repr _ _ text Hc2 Hbt Ht) as (c3 & -> & Hc3). rewrite (final_repr _ _ Hc3).
  destruct (update_repr c1 _ (Fips.sha1 (map (Z.lxor 0x36) pad ++ text)) Hc1) as (c4 & E4 & Hc4);
    [apply sha1_bytes|by rewrite sha1_len|].
  rewrite sha1_len in E4. rewrite E4. by apply final_repr.
Qed.

Lemma lhmac_sha1_is_hmac_witness :
  bytes [74; 101; 102; 101] ∧ lhmac_sha1 [74; 101; 102; 101] [104; 105] = Some (Fips.hmac [74; 101; 102; 101] [104; 105]).
Proof.
  split; [repeat constructor; lia|].
  apply lhmac_sha1_is_hmac; [repeat constructor; lia|repeat constructor; lia|done|done].
Defined.
