(* ===== verification/Seri.v ===== *)
(** * Messages of Lua values: lualib-src/lua-seri.c

    [luaseri_pack] writes Lua values into a chain of blocks of 128 bytes and
    copies the chain into one buffer, [luaseri_unpack] reads the values back.
    A table is a reference into the store of the Lua state, so tables may be
    shared and may contain themselves; [pack_one] and [unpack_one] recurse
    through them.  A double is its 64 bits, a light userdata its address.

    What the code asks of a Lua table (the traversal of [lua_next], the border
    of [lua_rawlen]) is the interface [LuaTables]. *)

From stdpp Require Import pretty.
From S2P Require Import Prelude.

(** ** Constants *)

Definition TYPE_NIL : Z := 0.
Definition TYPE_BOOLEAN : Z := 1.
Definition TYPE_NUMBER : Z := 2.
Definition TYPE_NUMBER_ZERO : Z := 0.
Definition TYPE_NUMBER_BYTE : Z := 1.
Definition TYPE_NUMBER_WORD : Z := 2.
Definition TYPE_NUMBER_DWORD : Z := 4.
Definition TYPE_NUMBER_QWORD : Z := 6.
Definition TYPE_NUMBER_REAL : Z := 8.
Definition TYPE_USERDATA : Z := 3.
Definition TYPE_SHORT_STRING : Z := 4.
Definition TYPE_LONG_STRING : Z := 5.
Definition TYPE_TABLE : Z := 6.
Definition MAX_COOKIE : Z := 32.
Definition BLOCK_SIZE : Z := 128.
Definition MAX_DEPTH : Z := 32.

(** A [uint8_t]. *)
Definition COMBINE_TYPE (t v : Z) : Z := u8 (Z.lor t (Z.shiftl v 3)).

(** ** Lua values and tables *)

Inductive value :=
| VNil
| VBool (b : bool)
| VInt (x : Z)
| VReal (bits : Z)
| VStr (s : list Z)
| VPtr (p : Z)
| VTab (l : Z)
(** a function, a full userdata or a thread *)
| VOther (typename : string) (id : Z).

Definition is_nil (v : value) : bool := match v with VNil => true | _ => false end.

#[global] Instance value_eq_dec : EqDecision value.
Proof. solve_decision. Defined.

Definition value_code (v : value) : Z * list Z * string :=
  match v with
  | VNil => (0, [], EmptyString)
  | VBool b => (1, [of_bool b], EmptyString)
  | VInt x => (2, [x], EmptyString)
  | VReal x => (3, [x], EmptyString)
  | VStr s => (4, s, EmptyString)
  | VPtr p => (5, [p], EmptyString)
  | VTab l => (6, [l], EmptyString)
  | VOther t i => (7, [i], t)
  end.
Definition value_decode (c : Z * list Z * string) : value :=
  match c with
  | (1, [b], _) => VBool (truth b)
  | (2, [x], _) => VInt x
  | (3, [x], _) => VReal x
  | (4, s, _) => VStr s
  | (5, [p], _) => VPtr p
  | (6, [l], _) => VTab l
  | (7, [i], t) => VOther t i
  | _ => VNil
  end.

#[global] Instance value_countable : Countable value.
Proof. by apply (inj_countable' value_code value_decode); intros [|[]| | | | | |]. Defined.

(** The fields of a table; with a metafield [__pairs], the pairs its iterator
    gives before a key [nil]. *)
Record table := Table { fields : gmap value value; metapairs : option (list (value * value)) }.
Abbreviation store := (gmap Z table).

Definition get (t : gmap value value) (k : value) : value := default VNil (t !! k).

(** The integer a float with an integral value stands for as a key. *)
Definition float_int (bits : Z) : option Z :=
  let e := bits / 2 ^ 52 mod 2 ^ 11 in
  let m := bits mod 2 ^ 52 in
  let m := if e =? 0 then m else m + 2 ^ 52 in
  let e' := (if e =? 0 then 1 else e) - 1075 in
  let sgn := if bits / 2 ^ 63 =? 1 then -1 else 1 in
  assert! negb (e =? 2047);
  n ← (if 0 <=? e' then Some (sgn * m * 2 ^ e')
       else if m mod 2 ^ (- e') =? 0 then Some (sgn * (m / 2 ^ (- e'))) else None);
  assert! (INT64_MIN <=? n) && (n <=? INT64_MAX);
  Some n.
Definition is_nan (bits : Z) : bool :=
  (bits / 2 ^ 52 mod 2 ^ 11 =? 2047) && negb (bits mod 2 ^ 52 =? 0).
Definition norm_key (k : value) : value :=
  match k with VReal x => match float_int x with Some n => VInt n | None => k end | _ => k end.

Definition store_field (t : gmap value value) (k v : value) : gmap value value :=
  if is_nil v then delete k t else <[k := v]> t.

(** [lua_rawset], [lua_rawseti] on the table at [l]. *)
Definition lua_rawset (σ : store) (l : Z) (k v : value) : option (result store) :=
  t ← σ !! l;
  match k with
  | VNil => Some (Error "table index is nil")
  | VReal x =>
      if is_nan x then Some (Error "table index is NaN")
      else Some (Return (<[l := Table (store_field (fields t) (norm_key k) v) (metapairs t)]> σ))
  | _ => Some (Return (<[l := Table (store_field (fields t) k v) (metapairs t)]> σ))
  end.
Definition lua_rawseti (σ : store) (l i : Z) (v : value) : option store :=
  t ← σ !! l;
  Some (<[l := Table (store_field (fields t) (VInt i) v) (metapairs t)]> σ).
(** A table that did not exist before. *)
Definition new_table (σ : store) : Z := map_fold (λ l _ m, Z.max (l + 1) m) 0 σ.
Definition lua_createtable (σ : store) : Z * store :=
  let l := new_table σ in (l, <[l := Table ∅ None]> σ).

(** What Lua promises of a table: [lua_next] visits each field once, and
    [lua_rawlen] is a border. *)
Class LuaTables := {
  lua_next : gmap value value → list (value * value);
  lua_rawlen : gmap value value → Z;
  lua_next_perm t : lua_next t ≡ₚ map_to_list t;
  lua_rawlen_border t : 0 ≤ lua_rawlen t ∧ get t (VInt (lua_rawlen t + 1)) = VNil ∧
    (0 < lua_rawlen t → get t (VInt (lua_rawlen t)) ≠ VNil)
}.

(** ** Writing *)

(** The chain of blocks: the full ones and [current]. *)
Record write_block := Write { wb_full : list block; wb_current : option block; wb_len : Z; wb_ptr : Z }.

Definition blk_alloc : block := malloc BLOCK_SIZE.

(** [b->current = b->current->next = blk_alloc(); b->ptr = 0]. *)
Definition wb_next (b : write_block) : option write_block :=
  cur ← wb_current b;
  Some {| wb_full := wb_full b ++ [cur]; wb_current := Some blk_alloc; wb_len := wb_len b; wb_ptr := 0 |}.

Definition wb_copy (b : write_block) (x : list Z) : option write_block :=
  cur ← wb_current b;
  cur ← mem_write cur (wb_ptr b) (map Some x);
  l ← int_add (wb_len b) (len x);
  Some {| wb_full := wb_full b; wb_current := Some cur; wb_len := l; wb_ptr := wb_ptr b + len x |}.

(** The jumps to [_again]. *)
Fixpoint wb_again (fuel : nat) (b : write_block) (buffer : list Z) (sz : Z) : option write_block :=
  match fuel with
  | O => None
  | S fuel =>
      if wb_ptr b <=? BLOCK_SIZE - sz then
        x ← mem_read buffer 0 sz; wb_copy b x
      else
        let copy := BLOCK_SIZE - wb_ptr b in
        x ← mem_read buffer 0 copy;
        b ← wb_copy b x;
        b ← wb_next b;
        wb_again fuel b (advance copy buffer) (sz - copy)
  end.

Definition wb_push (b : write_block) (buffer : list Z) (sz : Z) : option write_block :=
  b ← (if wb_ptr b =? BLOCK_SIZE then wb_next b else Some b);
  wb_again (Z.to_nat (sz / BLOCK_SIZE) + 3) b buffer sz.

Definition wb_init : write_block := Write [] (Some blk_alloc) 0 0.
Definition wb_free (b : write_block) : write_block := Write [] None 0 0.

(** A function that writes returns the writer and, after [luaL_error], the
    error. *)
Notation "b ⇇ e ; k" := (match e with Some (b, None) => k | r => r end)
  (at level 20, e at level 100, k at level 200, only parsing).

Definition ok (b : option write_block) : option (write_block * option string) :=
  b ← b; Some (b, None).

Definition wb_nil (b : write_block) : option write_block := wb_push b [TYPE_NIL] 1.

Definition wb_boolean (b : write_block) (boolean : bool) : option write_block :=
  wb_push b [COMBINE_TYPE TYPE_BOOLEAN (if boolean then 1 else 0)] 1.

Definition wb_integer (b : write_block) (v : Z) : option write_block :=
  let type := TYPE_NUMBER in
  if v =? 0 then wb_push b [COMBINE_TYPE type TYPE_NUMBER_ZERO] 1
  else if negb (v =? s32 v) then
    b ← wb_push b [COMBINE_TYPE type TYPE_NUMBER_QWORD] 1; wb_push b (le_bytes 8 v) 8
  else if v <? 0 then
    b ← wb_push b [COMBINE_TYPE type TYPE_NUMBER_DWORD] 1; wb_push b (le_bytes 4 v) 4
  else if v <? 0x100 then
    b ← wb_push b [COMBINE_TYPE type TYPE_NUMBER_BYTE] 1; wb_push b [u8 v] 1
  else if v <? 0x10000 then
    b ← wb_push b [COMBINE_TYPE type TYPE_NUMBER_WORD] 1; wb_push b (le_bytes 2 v) 2
  else
    b ← wb_push b [COMBINE_TYPE type TYPE_NUMBER_DWORD] 1; wb_push b (le_bytes 4 v) 4.

Definition wb_real (b : write_block) (v : Z) : option write_block :=
  b ← wb_push b [COMBINE_TYPE TYPE_NUMBER TYPE_NUMBER_REAL] 1; wb_push b (le_bytes 8 v) 8.

Definition wb_pointer (b : write_block) (v : Z) : option write_block :=
  b ← wb_push b [TYPE_USERDATA] 1; wb_push b (le_bytes 8 v) 8.

Definition wb_string (b : write_block) (str : list Z) (len : Z) : option write_block :=
  if len <? MAX_COOKIE then
    b ← wb_push b [COMBINE_TYPE TYPE_SHORT_STRING len] 1;
    if 0 <? len then wb_push b str len else Some b
  else
    b ← (if len <? 0x10000 then
           b ← wb_push b [COMBINE_TYPE TYPE_LONG_STRING 2] 1; wb_push b (le_bytes 2 len) 2
         else
           b ← wb_push b [COMBINE_TYPE TYPE_LONG_STRING 4] 1; wb_push b (le_bytes 4 len) 4);
    wb_push b str len.

Section Pack.
Context {LT : LuaTables}.

Definition packer : Type := write_block → value → Z → option (write_block * option string).

(** [pack_one] on one value after the other. *)
Fixpoint pack_list (pack : packer) (b : write_block) (vs : list value) (depth : Z)
  : option (write_block * option string) :=
  match vs with
  | [] => ok (Some b)
  | v :: vs => b ⇇ pack b v depth; pack_list pack b vs depth
  end.

(** The size of the array part and the values in it. *)
Definition array_size (t : gmap value value) : Z := s32 (lua_rawlen t).
Definition array_part (t : gmap value value) : list value :=
  map (λ i, get t (VInt i)) (seqZ 1 (array_size t)).

Definition wb_table_array (pack : packer) (b : write_block) (t : gmap value value) (depth : Z)
  : option (write_block * option string) :=
  b ⇇ ok (if MAX_COOKIE - 1 <=? array_size t then
            b ← wb_push b [COMBINE_TYPE TYPE_TABLE (MAX_COOKIE - 1)] 1;
            wb_integer b (array_size t)
          else wb_push b [COMBINE_TYPE TYPE_TABLE (array_size t)] 1);
  pack_list pack b (array_part t) depth.

Definition in_array (n : Z) (k : value) : bool :=
  match k with VInt x => (0 <? x) && (x <=? n) | _ => false end.

(** The pairs that are not in the array part. *)
Definition hash_part (t : gmap value value) : list (value * value) :=
  List.filter (λ p, negb (in_array (array_size t) p.1)) (lua_next t).
Definition flat_pairs (ps : list (value * value)) : list value :=
  flat_map (λ p, [p.1; p.2]) ps.

Definition wb_table_hash (pack : packer) (b : write_block) (t : gmap value value) (depth : Z)
  : option (write_block * option string) :=
  b ⇇ pack_list pack b (flat_pairs (hash_part t)) depth;
  ok (wb_nil b).

Definition wb_table_metapairs (pack : packer) (b : write_block) (ps : list (value * value)) (depth : Z)
  : option (write_block * option string) :=
  b ⇇ ok (wb_push b [COMBINE_TYPE TYPE_TABLE 0] 1);
  b ⇇ pack_list pack b (flat_pairs ps) depth;
  ok (wb_nil b).

Definition wb_table (pack : packer) (b : write_block) (t : table) (depth : Z)
  : option (write_block * option string) :=
  match metapairs t with
  | Some ps => wb_table_metapairs pack b ps depth
  | None =>
      b ⇇ wb_table_array pack b (fields t) depth;
      wb_table_hash pack b (fields t) depth
  end.

(** [luaL_error] leaves [pack_one] after the blocks are freed. *)
Fixpoint pack_one (fuel : nat) (σ : store) (b : write_block) (v : value) (depth : Z)
  : option (write_block * option string) :=
  match fuel with
  | O => None
  | S fuel =>
      if MAX_DEPTH <? depth then
        Some (wb_free b, Some "serialize can't pack too depth table"%string)
      else
        match v with
        | VNil => ok (wb_nil b)
        | VInt x => ok (wb_integer b x)
        | VReal x => ok (wb_real b x)
        | VBool x => ok (wb_boolean b x)
        | VStr str => ok (wb_string b str (s32 (len str)))
        | VPtr p => ok (wb_pointer b p)
        | VTab l => t ← σ !! l; wb_table (pack_one fuel σ) b t (depth + 1)
        | VOther type _ =>
            Some (wb_free b, Some ("Unsupport type " +:+ type +:+ " to serialize")%string)
        end
  end.

(** A call at depth [d] needs [MAX_DEPTH + 2 - d] levels of recursion. *)
Definition PACK_FUEL : nat := 34.

Definition pack_from (σ : store) (b : write_block) (args : list value)
  : option (write_block * option string) :=
  pack_list (pack_one PACK_FUEL σ) b args 0.

(** The copy of the first [len] bytes of a chain. *)
Fixpoint seri_copy (bs : list block) (len : Z) : option block :=
  if 0 <? len then
    match bs with
    | [] => None
    | b :: bs =>
        if BLOCK_SIZE <=? len then
          x ← mem_read b 0 BLOCK_SIZE; y ← seri_copy bs (len - BLOCK_SIZE); Some (x ++ y)
        else mem_read b 0 len
    end
  else Some [].

Definition seri (bs : list block) (len : Z) : option (block * Z) :=
  buffer ← seri_copy bs len; Some (buffer, len).

(** The chain that is left, and the buffer with its size or the error. *)
Definition luaseri_pack (σ : store) (args : list value)
  : option (write_block * result (block * Z)) :=
  '(b, err) ← pack_from σ wb_init args;
  match err with
  | Some msg => Some (b, Error msg)
  | None =>
      cur ← wb_current b;
      r ← seri (wb_full b ++ [cur]) (wb_len b);
      Some (wb_free b, Return r)
  end.

End Pack.

(** ** Reading *)

Record read_block := Read { rb_buffer : list Z; rb_len : Z; rb_ptr : Z }.

Definition rball_init (buffer : list Z) (size : Z) : read_block := Read buffer size 0.

(** The position of what is read, [None] for NULL.  With a negative [sz] the
    position moves back; [rb->len - sz] is taken to wrap. *)
Definition rb_read (rb : read_block) (sz : Z) : option Z * read_block :=
  if rb_len rb <? sz then (None, rb)
  else (Some (rb_ptr rb), Read (rb_buffer rb) (s32 (rb_len rb - sz)) (s32 (rb_ptr rb + sz))).

Definition invalid_stream_line {A} (rb : read_block) (line : Z) : option (result A) :=
  Some (Error ("Invalid serialize stream " +:+ pretty (rb_len rb)
               +:+ " (line:" +:+ pretty line +:+ ")")%string).

(** [pn = rb_read(rb, sizeof(n)); if (pn == NULL) invalid_stream(L, rb);
    memcpy(&n, pn, sizeof(n))]. *)
Definition read_n (rb : read_block) (n line : Z) : option (result (list Z * read_block)) :=
  match rb_read rb n with
  | (None, rb) => invalid_stream_line rb line
  | (Some p, rb) => x ← mem_read (rb_buffer rb) p n; Some (Return (x, rb))
  end.

Definition get_integer (rb : read_block) (cookie : Z) : option (result (Z * read_block)) :=
  match cookie with
  | 0 => Some (Return (0, rb))
  | 1 => ' (x, rb) ⇐ read_n rb 1 368; Some (Return (of_le x, rb))
  | 2 => ' (x, rb) ⇐ read_n rb 2 376; Some (Return (of_le x, rb))
  | 4 => ' (x, rb) ⇐ read_n rb 4 384; Some (Return (s32 (of_le x), rb))
  | 6 => ' (x, rb) ⇐ read_n rb 8 392; Some (Return (s64 (of_le x), rb))
  | _ => invalid_stream_line rb 397
  end.

Definition get_real (rb : read_block) : option (result (Z * read_block)) :=
  ' (x, rb) ⇐ read_n rb 8 407; Some (Return (of_le x, rb)).
Definition get_pointer (rb : read_block) : option (result (Z * read_block)) :=
  ' (x, rb) ⇐ read_n rb 8 417; Some (Return (of_le x, rb)).

(** [lua_pushlstring] takes [len] as a [size_t] and refuses what no block of
    memory can hold. *)
Definition get_buffer (rb : read_block) (len : Z) : option (result (list Z * read_block)) :=
  match rb_read rb len with
  | (None, rb) => invalid_stream_line rb 427
  | (Some p, rb) =>
      if len <? 0 then Some (Error "memory allocation error: block too big")
      else x ← mem_read (rb_buffer rb) p len; Some (Return (x, rb))
  end.

Definition unpacked : Type := option (result (value * read_block * store)).

(** The size of the array part, as [unpack_table] finds it. *)
Definition unpack_size (rb : read_block) (array_size : Z) : option (result (Z * read_block)) :=
  if array_size =? MAX_COOKIE - 1 then
    ' (t, rb) ⇐ read_n rb 1 440;
    let type := of_le t in
    let cookie := Z.shiftr type 3 in
    if negb (Z.land type 7 =? TYPE_NUMBER) || (cookie =? TYPE_NUMBER_REAL) then
      invalid_stream_line rb 445
    else
      ' (n, rb) ⇐ get_integer rb cookie;
      Some (Return (s32 n, rb))
  else Some (Return (array_size, rb)).

Definition unpack_string (rb : read_block) (cookie : Z) : option (result (list Z * read_block)) :=
  if cookie =? 2 then
    ' (x, rb) ⇐ read_n rb 2 493; get_buffer rb (of_le x)
  else if negb (cookie =? 4) then invalid_stream_line rb 500
  else
    ' (x, rb) ⇐ read_n rb 4 504; get_buffer rb (s32 (of_le x)).

Fixpoint unpack_one (fuel : nat) (rb : read_block) (σ : store) : unpacked :=
  match fuel with
  | O => None
  | S fuel =>
      ' (t, rb) ⇐ read_n rb 1 528;
      push_value fuel rb σ (Z.land (of_le t) 7) (Z.shiftr (of_le t) 3)
  end

with push_value (fuel : nat) (rb : read_block) (σ : store) (type cookie : Z) : unpacked :=
  match fuel with
  | O => None
  | S fuel =>
      match type with
      | 0 => Some (Return (VNil, rb, σ))
      | 1 => Some (Return (VBool (truth cookie), rb, σ))
      | 2 =>
          if cookie =? TYPE_NUMBER_REAL then
            ' (x, rb) ⇐ get_real rb; Some (Return (VReal x, rb, σ))
          else
            ' (x, rb) ⇐ get_integer rb cookie; Some (Return (VInt x, rb, σ))
      | 3 => ' (x, rb) ⇐ get_pointer rb; Some (Return (VPtr x, rb, σ))
      | 4 => ' (x, rb) ⇐ get_buffer rb cookie; Some (Return (VStr x, rb, σ))
      | 5 => ' (x, rb) ⇐ unpack_string rb cookie; Some (Return (VStr x, rb, σ))
      | 6 =>
          ' (n, rb) ⇐ unpack_size rb cookie;
          let '(l, σ) := lua_createtable σ in
          unpack_array fuel rb σ l 1 n
      | _ => invalid_stream_line rb 517
      end
  end

(** The loop over the array part from [i] on, and the pairs after it. *)
with unpack_array (fuel : nat) (rb : read_block) (σ : store) (l i n : Z) : unpacked :=
  match fuel with
  | O => None
  | S fuel =>
      if i <=? n then
        ' (v, rb, σ) ⇐ unpack_one fuel rb σ;
        σ ← lua_rawseti σ l i v;
        unpack_array fuel rb σ l (i + 1) n
      else unpack_hash fuel rb σ l
  end

with unpack_hash (fuel : nat) (rb : read_block) (σ : store) (l : Z) : unpacked :=
  match fuel with
  | O => None
  | S fuel =>
      ' (k, rb, σ) ⇐ unpack_one fuel rb σ;
      if is_nil k then Some (Return (VTab l, rb, σ))
      else
        ' (v, rb, σ) ⇐ unpack_one fuel rb σ;
        σ ⇐ lua_rawset σ l k v;
        unpack_hash fuel rb σ l
  end.

(** The first argument: nothing, a string, or a pointer (with the bytes there,
    unless it is NULL) and the size. *)
Inductive message := MNone | MString (s : list Z) | MPointer (p : option (list Z)) (size : Z).

(** The values on the stack and those of the rest of the stream. *)
Fixpoint unpack_all (fuel : nat) (rb : read_block) (σ : store) : option (result (list value * store)) :=
  match fuel with
  | O => None
  | S fuel =>
      match rb_read rb 1 with
      | (None, rb) => Some (Return ([], σ))
      | (Some p, rb) =>
          t ← mem_read (rb_buffer rb) p 1;
          ' (v, rb, σ) ⇐ push_value fuel rb σ (Z.land (of_le t) 7) (Z.shiftr (of_le t) 3);
          ' (vs, σ) ⇐ unpack_all fuel rb σ;
          Some (Return (v :: vs, σ))
      end
  end.

(** Four levels of recursion for a byte are enough ([luaseri_unpack_total]). *)
Definition unpack_fuel (len : Z) : nat := S (Z.to_nat (4 * len)).

Definition luaseri_unpack (σ : store) (m : message) : option (result (list value * store)) :=
  match m with
  | MNone => Some (Return ([], σ))
  | MString s =>
      let len := s32 (len s) in
      if len =? 0 then Some (Return ([], σ))
      else unpack_all (unpack_fuel len) (rball_init s len) σ
  | MPointer p size =>
      let len := s32 size in
      if len =? 0 then Some (Return ([], σ))
      else match p with
           | None => Some (Error "deserialize null pointer")
           | Some buffer => unpack_all (unpack_fuel len) (rball_init buffer len) σ
           end
  end.

(** ** The wire format *)

(** What is written for a value in [n] levels of tables: the bytes, and the
    error the rest of the message is lost to. *)
Definition stream : Type := option (list Z * option string).

Definition stream_app (s t : stream) : stream :=
  match s with
  | Some (x, None) => ' (y, e) ← t; Some (x ++ y, e)
  | r => r
  end.
Definition bytes_of (x : list Z) : stream := Some (x, None).
Fixpoint stream_list (enc : value → stream) (vs : list value) : stream :=
  match vs with [] => bytes_of [] | v :: vs => stream_app (enc v) (stream_list enc vs) end.

Definition enc_integer (v : Z) : list Z :=
  if v =? 0 then [2]
  else if negb (v =? s32 v) then 2 + 8 * 6 :: le_bytes 8 v
  else if v <? 0 then 2 + 8 * 4 :: le_bytes 4 v
  else if v <? 2 ^ 8 then [2 + 8 * 1; v]
  else if v <? 2 ^ 16 then 2 + 8 * 2 :: le_bytes 2 v
  else 2 + 8 * 4 :: le_bytes 4 v.

Definition enc_string (s : list Z) : list Z :=
  if len s <? 32 then 4 + 8 * len s :: s
  else if len s <? 2 ^ 16 then 5 + 8 * 2 :: le_bytes 2 (len s) ++ s
  else 5 + 8 * 4 :: le_bytes 4 (len s) ++ s.

Section Encode.
Context {LT : LuaTables}.

Definition enc_header (n : Z) : list Z :=
  if n <? 31 then [u8 (6 + 8 * n)] else (6 + 8 * 31) :: enc_integer n.

Fixpoint encode (n : nat) (σ : store) (v : value) : stream :=
  match n with
  | O => Some ([], Some "serialize can't pack too depth table"%string)
  | S n =>
      match v with
      | VNil => bytes_of [0]
      | VBool b => bytes_of [if b then 1 + 8 else 1]
      | VInt x => bytes_of (enc_integer x)
      | VReal x => bytes_of (2 + 8 * 8 :: le_bytes 8 x)
      | VPtr p => bytes_of (3 :: le_bytes 8 p)
      | VStr s => bytes_of (enc_string s)
      | VTab l =>
          t ← σ !! l;
          match metapairs t with
          | Some ps =>
              stream_app (bytes_of [6]) (stream_app (stream_list (encode n σ) (flat_pairs ps)) (bytes_of [0]))
          | None =>
              stream_app
                (stream_app (bytes_of (enc_header (array_size (fields t))))
                            (stream_list (encode n σ) (array_part (fields t))))
                (stream_app (stream_list (encode n σ) (flat_pairs (hash_part (fields t)))) (bytes_of [0]))
          end
      | VOther type _ => Some ([], Some ("Unsupport type " +:+ type +:+ " to serialize")%string)
      end
  end.

(** A message: thirty-three levels of values, the outermost being 0. *)
Definition encode_message (σ : store) (args : list value) : stream :=
  stream_list (encode (Z.to_nat (MAX_DEPTH + 1)) σ) args.

End Encode.

(** ** An implementation of tables, to run the code *)

Fixpoint border_from (n : nat) (t : gmap value value) (i : Z) : Z :=
  match n with
  | O => i
  | S n => if is_nil (get t (VInt (i + 1))) then i else border_from n t (i + 1)
  end.

Lemma border_from_spec t (n : nat) i : 0 ≤ i → (size t ≤ n + Z.to_nat i)%nat →
  (∀ j, 0 < j ≤ i → get t (VInt j) ≠ VNil) →
  let b := border_from n t i in
  0 ≤ b ∧ get t (VInt (b + 1)) = VNil ∧ (0 < b → get t (VInt b) ≠ VNil).
Proof.
  revert i. induction n as [|n IH]; intros i Hi Hs Hj; cbn [border_from].
  - split; [done|]. split; [|intros ?; apply Hj; lia].
    destruct (decide (get t (VInt (i + 1)) = VNil)) as [|Hn]; [done|exfalso].
    assert (map VInt (seqZ 1 (i + 1)) ⊆+ (map_to_list t).*1) as Hsub.
    { apply NoDup_submseteq.
      - apply NoDup_fmap_2; [by intros ?? [= ->]|apply NoDup_seqZ].
      - intros k (j & -> & Hj'%elem_of_seqZ)%list_elem_of_fmap.
        assert (get t (VInt j) ≠ VNil) as Hne.
        { destruct (decide (j = i + 1)) as [->|]; [done|apply Hj; lia]. }
        unfold get in Hne. destruct (t !! VInt j) as [v|] eqn:E; [|done].
        apply list_elem_of_fmap. exists (VInt j, v). split; [done|by apply elem_of_map_to_list]. }
    apply submseteq_length in Hsub. rewrite length_map, length_fmap, length_seqZ, length_map_to_list in Hsub. lia.
  - destruct (get t (VInt (i + 1))) as [] eqn:E; cbn [is_nil];
      try (apply IH; [lia|lia|]; intros j Hj'; destruct (decide (j = i + 1)) as [->|]; [by rewrite E|apply Hj; lia]).
    split; [done|]. split; [done|]. intros ?; apply Hj; lia.
Qed.

Lemma border_spec t : let b := border_from (size t) t 0 in
  0 ≤ b ∧ get t (VInt (b + 1)) = VNil ∧ (0 < b → get t (VInt b) ≠ VNil).
Proof. apply border_from_spec; lia. Qed.

Definition map_tables : LuaTables := {|
  lua_next := map_to_list;
  lua_rawlen t := border_from (size t) t 0;
  lua_next_perm _ := reflexivity _;
  lua_rawlen_border := border_spec
|}.

(** ** The writer appends *)

(** The chain holds the bytes [out]. *)
Definition wb_repr (b : write_block) (out : list Z) : Prop :=
  ∃ cur, wb_current b = Some cur ∧ 0 ≤ wb_ptr b ≤ BLOCK_SIZE ∧
    Forall (λ x, len x = BLOCK_SIZE) (wb_full b) ∧ len cur = BLOCK_SIZE ∧
    concat (wb_full b) ++ take (Z.to_nat (wb_ptr b)) cur = map Some out ∧ wb_len b = len out.

Lemma wb_init_repr : wb_repr wb_init [].
Proof. by exists blk_alloc. Qed.

Lemma wb_copy_spec b out x : wb_repr b out → len x ≤ BLOCK_SIZE - wb_ptr b →
  len out + len x ≤ INT_MAX →
  ∃ b', wb_copy b x = Some b' ∧ wb_repr b' (out ++ x) ∧ wb_ptr b' = wb_ptr b + len x.
Proof.
  intros (cur & Ec & Hp & Hf & Hc & E & El) Hx Ho. unfold wb_copy. rewrite Ec.
  pose proof (len_nonneg x). pose proof (len_nonneg out).
  set (p := Z.to_nat (wb_ptr b)) in *.
  assert (len (take p cur) = wb_ptr b) as Htp by (unfold len in *; rewrite length_take; lia).
  set (m := take (Z.to_nat (len x)) (drop p cur)).
  assert (len m = len x) as Hm by (unfold m, len in *; rewrite length_take, length_drop; lia).
  assert (cur = take p cur ++ m ++ drop (Z.to_nat (len x)) (drop p cur)) as Ecur
    by (unfold m; by rewrite take_drop, take_drop).
  assert (mem_write cur (wb_ptr b) (map Some x) =
    Some (take p cur ++ map Some x ++ drop (Z.to_nat (len x)) (drop p cur))) as ->.
  { rewrite Ecur at 1. apply mem_write_app; [done|by rewrite len_map]. }
  unfold int_add. rewrite El, int_chk_Some by (unfold INT_MIN; lia).
  eexists. split; [reflexivity|]. split; [|done].
  eexists. cbn [wb_current wb_ptr wb_full wb_len]. split; [reflexivity|].
  split; [unfold BLOCK_SIZE in *; lia|]. split; [done|]. split.
  { rewrite Ecur in Hc at 1. rewrite !len_app in *. rewrite len_map. lia. }
  split; [|by rewrite len_app]. rewrite map_app, <- E, <- app_assoc. f_equal.
  rewrite app_assoc. rewrite take_app_le; [apply take_ge|];
    rewrite length_app, length_map; unfold len in *; lia.
Qed.

Lemma wb_next_spec b out : wb_repr b out → wb_ptr b = BLOCK_SIZE →
  ∃ b', wb_next b = Some b' ∧ wb_repr b' out ∧ wb_ptr b' = 0.
Proof.
  intros (cur & Ec & Hp & Hf & Hc & E & El) Hptr. unfold wb_next. rewrite Ec.
  eexists. split; [reflexivity|]. split; [|done]. exists blk_alloc.
  cbn [wb_current wb_ptr wb_full wb_len]. split; [done|]. split; [done|].
  split; [apply Forall_app; by repeat constructor|]. split; [done|]. split; [|done].
  rewrite concat_app, <- E, Hptr. cbn [concat]. change (take (Z.to_nat 0) blk_alloc) with (@nil (option Z)).
  rewrite !app_nil_r. f_equal.
  symmetry. apply take_ge. unfold len in Hc. lia.
Qed.

Lemma wb_again_spec fuel b out x : wb_repr b out → len out + len x ≤ INT_MAX →
  len x + wb_ptr b < BLOCK_SIZE * Z.of_nat fuel →
  ∃ b', wb_again fuel b x (len x) = Some b' ∧ wb_repr b' (out ++ x).
Proof.
  revert b out x. induction fuel as [|fuel IH]; intros b out x Hb Ho Hf.
  { destruct Hb as (? & _ & Hp & _). pose proof (len_nonneg x). lia. }
  cbn [wb_again]. destruct (Z.leb_spec (wb_ptr b) (BLOCK_SIZE - len x)) as [Hle|Hgt].
  - rewrite mem_read_whole by done.
    destruct (wb_copy_spec b out x) as (b' & E & Hb' & _); [done|lia|done|]. by exists b'.
  - pose proof Hb as (_ & _ & Hp & _). set (copy := BLOCK_SIZE - wb_ptr b) in *.
    assert (∃ x1 x2, x = x1 ++ x2 ∧ len x1 = copy) as (x1 & x2 & -> & Hx1).
    { exists (take (Z.to_nat copy) x), (advance copy x). split; [symmetry; apply take_drop|].
      unfold len in *. rewrite length_take. lia. }
    pose proof (len_nonneg x2). pose proof (len_app x1 x2) as Hx.
    rewrite mem_read_prefix, advance_app by done.
    replace (len (x1 ++ x2) - copy) with (len x2) by lia.
    destruct (wb_copy_spec b out x1) as (b1 & -> & Hb1 & Hp1); [done|lia|lia|].
    destruct (wb_next_spec b1 (out ++ x1) Hb1) as (b2 & -> & Hb2 & Hp2); [lia|].
    destruct (IH b2 (out ++ x1) x2) as (b' & E & Hb'); [done|rewrite len_app; lia|lia|].
    exists b'. split; [exact E|]. by rewrite app_assoc.
Qed.

Lemma wb_push_spec b out x : wb_repr b out → len out + len x ≤ INT_MAX →
  ∃ b', wb_push b x (len x) = Some b' ∧ wb_repr b' (out ++ x).
Proof.
  intros Hb Ho. unfold wb_push.
  assert (∃ b', (if wb_ptr b =? BLOCK_SIZE then wb_next b else Some b) = Some b' ∧
    wb_repr b' out ∧ wb_ptr b' ≤ BLOCK_SIZE) as (b1 & -> & Hb1 & Hp1).
  { pose proof Hb as (_ & _ & Hp & _). destruct (Z.eqb_spec (wb_ptr b) BLOCK_SIZE) as [E|].
    - destruct (wb_next_spec b out Hb E) as (b' & E' & Hb' & Hp'). exists b'.
      split; [done|]. split; [done|]. rewrite Hp'. done.
    - exists b. split; [done|]. split; [done|lia]. }
  apply wb_again_spec; [done|done|]. pose proof (len_nonneg x).
  unfold BLOCK_SIZE in *. pose proof (Z.div_mod (len x) 128). pose proof (Z.mod_pos_bound (len x) 128).
  pose proof (Z.div_pos (len x) 128). lia.
Qed.

(** A writing function appends [x]. *)
Definition appends (f : write_block → option write_block) (x : list Z) : Prop :=
  ∀ b out, wb_repr b out → len out + len x ≤ INT_MAX →
    ∃ b', f b = Some b' ∧ wb_repr b' (out ++ x).

Lemma appends_push x n : n = len x → appends (λ b, wb_push b x n) x.
Proof. intros ->. intros b out Hb Ho. by apply wb_push_spec. Qed.

Lemma appends_seq f g x y : appends f x → appends g y → appends (λ b, b ← f b; g b) (x ++ y).
Proof.
  intros Hf Hg b out Hb Ho. rewrite len_app in Ho. pose proof (len_nonneg y).
  destruct (Hf b out Hb) as (b1 & -> & Hb1); [lia|].
  destruct (Hg b1 (out ++ x) Hb1) as (b2 & -> & Hb2); [rewrite len_app; lia|].
  exists b2. by rewrite app_assoc.
Qed.

Lemma appends_id : appends Some [].
Proof. intros b out Hb _. exists b. by rewrite app_nil_r. Qed.

Lemma COMBINE_TYPE_u8 t v : 0 ≤ t < 8 → COMBINE_TYPE t v = u8 (t + 8 * v).
Proof.
  intros Ht. unfold COMBINE_TYPE. rewrite Z.shiftl_mul_pow2, lor_high by lia. f_equal. lia.
Qed.

Lemma wb_nil_appends : appends wb_nil [0].
Proof. by apply appends_push. Qed.

Lemma wb_boolean_appends x : appends (λ b, wb_boolean b x) [if x then 1 + 8 else 1].
Proof. by destruct x; apply appends_push. Qed.

Lemma wb_real_appends x : appends (λ b, wb_real b x) (2 + 8 * 8 :: le_bytes 8 x).
Proof. by apply (appends_seq (λ b, wb_push b [_] 1) _ [_] (le_bytes 8 x)); apply appends_push. Qed.

Lemma wb_pointer_appends x : appends (λ b, wb_pointer b x) (3 :: le_bytes 8 x).
Proof. by apply (appends_seq (λ b, wb_push b [_] 1) _ [_] (le_bytes 8 x)); apply appends_push. Qed.

Lemma wb_integer_appends x : appends (λ b, wb_integer b x) (enc_integer x).
Proof.
  unfold wb_integer, enc_integer. change (2 ^ 8) with 0x100. change (2 ^ 16) with 0x10000.
  destruct (Z.eqb_spec x 0) as [->|]; [by apply appends_push|].
  destruct (Z.eqb_spec x (s32 x)); cbn [negb];
    [|by apply (appends_seq (λ b, wb_push b [_] 1) _ [_] (le_bytes 8 x)); apply appends_push].
  destruct (Z.ltb_spec x 0); [by apply (appends_seq (λ b, wb_push b [_] 1) _ [_] (le_bytes 4 x)); apply appends_push|].
  destruct (Z.ltb_spec x 0x100).
  { rewrite u8_small by lia.
    by apply (appends_seq (λ b, wb_push b [_] 1) _ [_] [x]); apply appends_push. }
  destruct (Z.ltb_spec x 0x10000);
    [by apply (appends_seq (λ b, wb_push b [_] 1) _ [_] (le_bytes 2 x)); apply appends_push|].
  by apply (appends_seq (λ b, wb_push b [_] 1) _ [_] (le_bytes 4 x)); apply appends_push.
Qed.

Lemma wb_string_appends s : len s ≤ INT_MAX → appends (λ b, wb_string b s (len s)) (enc_string s).
Proof.
  intros Hs. unfold wb_string, enc_string, MAX_COOKIE. pose proof (len_nonneg s).
  change (2 ^ 16) with 0x10000. destruct (Z.ltb_spec (len s) 32).
  - unfold TYPE_SHORT_STRING. rewrite COMBINE_TYPE_u8, u8_small by lia.
    apply (appends_seq (λ b, wb_push b [_] 1) _ [_] s); [by apply appends_push|].
    destruct (Z.ltb_spec 0 (len s)); [by apply appends_push|].
    destruct s; [apply appends_id|rewrite len_cons in *; pose proof (len_nonneg s); lia].
  - destruct (Z.ltb_spec (len s) 0x10000).
    + apply (appends_seq (λ b, b ← wb_push b [_] 1; wb_push b _ 2) _ (_ :: le_bytes 2 (len s)) s);
        [|by apply appends_push].
      by apply (appends_seq (λ b, wb_push b [_] 1) _ [_] (le_bytes 2 _)); apply appends_push.
    + apply (appends_seq (λ b, b ← wb_push b [_] 1; wb_push b _ 4) _ (_ :: le_bytes 4 (len s)) s);
        [|by apply appends_push].
      by apply (appends_seq (λ b, wb_push b [_] 1) _ [_] (le_bytes 4 _)); apply appends_push.
Qed.

(** ** The packer writes the wire format *)

(** [p] writes what [s] says, and frees the blocks before an error. *)
Definition writes (p : write_block → option (write_block * option string)) (s : stream) : Prop :=
  ∀ b out x e, s = Some (x, e) → wb_repr b out → len out + len x ≤ INT_MAX →
    ∃ b', p b = Some (b', e) ∧
      match e with None => wb_repr b' (out ++ x) | Some _ => b' = wb_free b end.

Lemma writes_ok f x : appends f x → writes (λ b, ok (f b)) (bytes_of x).
Proof.
  intros Hf b out x' e [= <- <-] Hb Ho. destruct (Hf b out Hb Ho) as (b' & E & Hb').
  exists b'. unfold ok. by rewrite E.
Qed.

Lemma writes_app p q s t : writes p s → writes q t →
  writes (λ b, b ⇇ p b; q b) (stream_app s t).
Proof.
  intros Hp Hq b out z e E Hb Ho. destruct s as [[x [e1|]]|]; [| |done].
  - injection E as <- <-. destruct (Hp b out x (Some e1) eq_refl Hb Ho) as (b1 & -> & Hb1). by exists b1.
  - cbn [stream_app] in E. destruct t as [[y e']|]; [|done]. injection E as <- <-.
    rewrite len_app in Ho. pose proof (len_nonneg y).
    destruct (Hp b out x None eq_refl Hb) as (b1 & -> & Hb1); [lia|].
    destruct (Hq b1 (out ++ x) y e' eq_refl Hb1) as (b2 & -> & Hb2); [rewrite len_app; lia|].
    exists b2. split; [done|]. destruct e'; [done|by rewrite app_assoc].
Qed.

Section PackSpec.
Context {LT : LuaTables} (σ : store).

Lemma writes_list pack enc vs d : (∀ v, v ∈ vs → writes (λ b, pack b v d) (enc v)) →
  writes (λ b, pack_list pack b vs d) (stream_list enc vs).
Proof.
  induction vs as [|v vs IH]; intros H; cbn [pack_list stream_list].
  - by apply (writes_ok Some), appends_id.
  - apply (writes_app (λ b, pack b v d) (λ b, pack_list pack b vs d)); [apply H; by left|].
    apply IH. intros w Hw. apply H. by right.
Qed.

Lemma header_appends n : appends (λ b, if MAX_COOKIE - 1 <=? n then
    b ← wb_push b [COMBINE_TYPE TYPE_TABLE (MAX_COOKIE - 1)] 1; wb_integer b n
  else wb_push b [COMBINE_TYPE TYPE_TABLE n] 1) (enc_header n).
Proof.
  unfold enc_header, MAX_COOKIE. change (32 - 1) with 31.
  destruct (Z.leb_spec 31 n), (Z.ltb_spec n 31); try lia.
  - apply (appends_seq (λ b, wb_push b [_] 1) _ [_] (enc_integer n));
      [by apply appends_push|apply wb_integer_appends].
  - unfold TYPE_TABLE. rewrite COMBINE_TYPE_u8 by lia. by apply appends_push.
Qed.

Lemma wb_table_writes pack enc t d : (∀ v, writes (λ b, pack b v d) (enc v)) →
  writes (λ b, wb_table pack b t d)
    match metapairs t with
    | Some ps => stream_app (bytes_of [6]) (stream_app (stream_list enc (flat_pairs ps)) (bytes_of [0]))
    | None =>
        stream_app
          (stream_app (bytes_of (enc_header (array_size (fields t)))) (stream_list enc (array_part (fields t))))
          (stream_app (stream_list enc (flat_pairs (hash_part (fields t)))) (bytes_of [0]))
    end.
Proof.
  intros Hp. unfold wb_table.
  assert (∀ vs, writes (λ b, b ⇇ pack_list pack b vs d; ok (wb_nil b))
    (stream_app (stream_list enc vs) (bytes_of [0]))) as Hend.
  { intros vs. apply (writes_app (λ b, pack_list pack b vs d)); [by apply writes_list|].
    apply writes_ok, wb_nil_appends. }
  destruct (metapairs t) as [ps|].
  - apply (writes_app (λ b, ok (wb_push b [_] 1))); [by apply writes_ok, appends_push|apply Hend].
  - apply (writes_app (λ b, wb_table_array pack b (fields t) d)); [|apply Hend].
    unfold wb_table_array. apply (writes_app (λ b, ok _) (λ b, pack_list pack b _ d)).
    + apply writes_ok, header_appends.
    + by apply writes_list.
Qed.

Lemma pack_one_writes n : ∀ fuel v, (n < fuel)%nat → Z.of_nat n ≤ MAX_DEPTH + 1 →
  writes (λ b, pack_one fuel σ b v (MAX_DEPTH + 1 - Z.of_nat n)) (encode n σ v).
Proof.
  induction n as [|n IH]; intros [|fuel] v Hf Hn; try lia; cbn [pack_one encode].
  - intros b out x e [= <- <-] _ _. destruct (Z.ltb_spec MAX_DEPTH (MAX_DEPTH + 1 - Z.of_nat 0)); [|lia].
    by eexists.
  - destruct (Z.ltb_spec MAX_DEPTH (MAX_DEPTH + 1 - Z.of_nat (S n))); [lia|].
    destruct v as [|x|x|x|s|p|l|ty i].
    + apply writes_ok, wb_nil_appends.
    + apply writes_ok, wb_boolean_appends.
    + apply writes_ok, wb_integer_appends.
    + apply writes_ok, wb_real_appends.
    + intros b out x e E Hb Ho.
      assert (len s ≤ INT_MAX) as Hs.
      { injection E as <- <-. pose proof (len_nonneg out). unfold enc_string in Ho. revert Ho.
        repeat case_match; rewrite ?len_cons, ?len_app, ?len_le; lia. }
      rewrite s32_small by (pose proof (len_nonneg s); unfold INT_MAX in Hs; lia).
      by eapply (writes_ok _ _ (wb_string_appends s Hs)).
    + apply writes_ok, wb_pointer_appends.
    + destruct (σ !! l) as [t|]; [|by intros b out x e].
      replace (MAX_DEPTH + 1 - Z.of_nat (S n) + 1) with (MAX_DEPTH + 1 - Z.of_nat n) by lia.
      apply wb_table_writes. intros v. apply IH; lia.
    + intros b out x e [= <- <-] _ _. by eexists.
Qed.

Lemma pack_from_writes args : writes (λ b, pack_from σ b args) (encode_message σ args).
Proof.
  apply writes_list. intros v _. apply (pack_one_writes (Z.to_nat (MAX_DEPTH + 1)) PACK_FUEL v);
    [by apply Nat.lt_succ_diag_r|done].
Qed.

(** The copy is the whole chain. *)
Lemma seri_copy_spec bs cur p : Forall (λ x, len x = BLOCK_SIZE) bs → len cur = BLOCK_SIZE →
  0 ≤ p ≤ BLOCK_SIZE →
  seri_copy (bs ++ [cur]) (len (concat bs) + p) = Some (concat bs ++ take (Z.to_nat p) cur).
Proof.
  intros Hbs Hc Hp. unfold BLOCK_SIZE in *. induction Hbs as [|b bs Hb _ IH].
  - cbn [concat app seri_copy]. change (len (@nil (option Z)) + p) with p. destruct (Z.ltb_spec 0 p).
    + unfold BLOCK_SIZE. destruct (Z.leb_spec 128 p).
      * replace p with 128 by lia. rewrite mem_read_whole by done.
        change (0 <? 128 - 128) with false. cbv beta iota. rewrite app_nil_r. f_equal. symmetry. apply take_ge.
        unfold len in Hc. lia.
      * unfold mem_read. rewrite Hc. destruct (Z.leb_spec 0 p), (Z.leb_spec (0 + p) 128); try lia. done.
    + by replace p with 0 by lia.
  - cbn [concat app seri_copy]. rewrite len_app. pose proof (len_nonneg (concat bs)).
    destruct (Z.ltb_spec 0 (len b + len (concat bs) + p)); [|lia].
    unfold BLOCK_SIZE. destruct (Z.leb_spec 128 (len b + len (concat bs) + p)); [|lia].
    rewrite mem_read_whole by done.
    replace (len b + len (concat bs) + p - 128) with (len (concat bs) + p) by lia.
    rewrite IH. by rewrite app_assoc.
Qed.

Lemma luaseri_pack_spec args x e : encode_message σ args = Some (x, e) → len x ≤ INT_MAX →
  luaseri_pack σ args = Some (Write [] None 0 0,
    match e with None => Return (map Some x, len x) | Some msg => Error msg end).
Proof.
  intros E Hx. destruct (pack_from_writes args wb_init [] x e E wb_init_repr Hx) as (b & Eb & Hb).
  unfold luaseri_pack. rewrite Eb. destruct e as [msg|]; [by subst b|].
  destruct Hb as (cur & -> & Hp & Hf & Hc & Ex & El). unfold seri.
  cbn [app] in Ex, El.
  assert (len x = len (concat (wb_full b)) + wb_ptr b) as Hlen.
  { rewrite <- (len_map Some x), <- Ex, len_app. f_equal. unfold len in *. rewrite length_take. lia. }
  rewrite El, Hlen, seri_copy_spec by done. by rewrite Ex.
Qed.

(** C24: [skynet.pack] writes the wire format: for any arguments (tables shared
    or cyclic included) whose encoding fits in 2 GB, the chain of blocks is
    copied into one buffer that holds exactly the bytes of the message; a
    table nested deeper than [MAX_DEPTH] or a value that cannot be serialised
    raises the error of the format; and in each case the blocks of the heap
    are freed. *)
Theorem luaseri_pack_refines args x e : encode_message σ args = Some (x, e) → len x ≤ INT_MAX →
  luaseri_pack σ args = Some (Write [] None 0 0,
    match e with None => Return (map Some x, len x) | Some msg => Error msg end).
Proof. apply luaseri_pack_spec. Qed.
End PackSpec.

(** ** The reader stays in the message *)

(** What is left to read. *)
Definition rb_rest (rb : read_block) (rest : list Z) : Prop :=
  ∃ pre tail, rb_buffer rb = pre ++ rest ++ tail ∧ rb_ptr rb = len pre ∧ rb_len rb = len rest ∧
    len pre + len rest ≤ INT_MAX.

Lemma rb_rest_init (s : list Z) size : 0 ≤ size ≤ len s → size ≤ INT_MAX →
  rb_rest (rball_init s size) (take (Z.to_nat size) s).
Proof.
  intros Hs Hm. exists [], (drop (Z.to_nat size) s).
  assert (len (take (Z.to_nat size) s) = size) as -> by (unfold len in *; rewrite length_take; lia).
  cbn [rball_init rb_buffer rb_ptr rb_len app]. by rewrite take_drop.
Qed.

(** A step of the reader does not abort, and [P] holds of what it returns. *)
Definition total {A} (r : option (result A)) (P : A → Prop) : Prop :=
  match r with None => False | Some (Error _) => True | Some (Return a) => P a end.

Lemma total_bind {A B} (r : option (result A)) (f : A → option (result B)) P Q :
  total r P → (∀ a, P a → total (f a) Q) → total (a ⇐ r; f a) Q.
Proof. destruct r as [[a|m]|]; cbn; auto. Qed.

Lemma rb_read_app rb x rest : rb_rest rb (x ++ rest) →
  ∃ rb', rb_read rb (len x) = (Some (rb_ptr rb), rb') ∧ rb_rest rb' rest ∧
    mem_read (rb_buffer rb') (rb_ptr rb) (len x) = Some x.
Proof.
  intros (pre & tail & Eb & Ep & El & Hi). rewrite len_app in *. unfold rb_read.
  pose proof (len_nonneg pre). pose proof (len_nonneg x). pose proof (len_nonneg rest).
  unfold INT_MAX in Hi. destruct (Z.ltb_spec (rb_len rb) (len x)); [lia|].
  eexists. split; [reflexivity|]. cbn [rb_buffer rb_ptr rb_len].
  rewrite !s32_small by lia. split.
  - exists (pre ++ x), tail. rewrite len_app. cbn [rb_buffer rb_ptr rb_len].
    rewrite Eb, <- !app_assoc. unfold INT_MAX. repeat split; lia.
  - rewrite Eb, <- app_assoc. by apply mem_read_app.
Qed.

Lemma rb_read_short rb rest n : rb_rest rb rest → len rest < n → rb_read rb n = (None, rb).
Proof.
  intros (pre & tail & _ & _ & El & _) Hn. unfold rb_read. rewrite El.
  by destruct (Z.ltb_spec (len rest) n); [|lia].
Qed.

Lemma rest_cases (rest : list Z) n : 0 ≤ n → len rest < n ∨ ∃ x rest', rest = x ++ rest' ∧ len x = n.
Proof.
  intros Hn. destruct (Z.lt_ge_cases (len rest) n); [by left|right].
  exists (take (Z.to_nat n) rest), (drop (Z.to_nat n) rest). split; [symmetry; apply take_drop|].
  unfold len in *. rewrite length_take. lia.
Qed.

(** Reading [k] bytes at least. *)
Definition consumed {A} (rest : list Z) (k : Z) (a : A * read_block) : Prop :=
  ∃ rest', rb_rest a.2 rest' ∧ len rest' + k ≤ len rest.

Lemma read_n_app rb x rest n line : rb_rest rb (x ++ rest) → n = len x →
  ∃ rb', read_n rb n line = Some (Return (x, rb')) ∧ rb_rest rb' rest.
Proof.
  intros H ->. destruct (rb_read_app rb x rest H) as (rb' & E & Hr & Em).
  exists rb'. unfold read_n. by rewrite E, Em.
Qed.

Lemma read_n_total rb rest n line : rb_rest rb rest → 0 ≤ n →
  total (read_n rb n line) (consumed rest n).
Proof.
  intros H Hn. destruct (rest_cases rest n Hn) as [Hs|(x & rest' & -> & Hx)].
  - unfold read_n. by rewrite (rb_read_short rb rest).
  - destruct (read_n_app rb x rest' n line H) as (rb' & -> & Hr); [done|].
    exists rest'. split; [done|]. rewrite len_app. cbn. lia.
Qed.

Lemma get_buffer_app rb x rest n : rb_rest rb (x ++ rest) → n = len x →
  ∃ rb', get_buffer rb n = Some (Return (x, rb')) ∧ rb_rest rb' rest.
Proof.
  intros H ->. destruct (rb_read_app rb x rest H) as (rb' & E & Hr & Em).
  exists rb'. unfold get_buffer. rewrite E. destruct (Z.ltb_spec (len x) 0); [pose proof (len_nonneg x); lia|].
  by rewrite Em.
Qed.

Lemma get_buffer_total rb rest n : rb_rest rb rest → total (get_buffer rb n) (consumed rest 0).
Proof.
  intros H. destruct (Z.lt_ge_cases n 0) as [Hn|Hn].
  - unfold get_buffer, rb_read. destruct (Z.ltb_spec (rb_len rb) n); [done|].
    by destruct (Z.ltb_spec n 0); [|lia].
  - destruct (rest_cases rest n Hn) as [Hs|(x & rest' & -> & Hx)].
    + unfold get_buffer. by rewrite (rb_read_short rb rest).
    + destruct (get_buffer_app rb x rest' n H) as (rb' & -> & Hr); [done|].
      exists rest'. split; [done|]. rewrite len_app. cbn. pose proof (len_nonneg x). lia.
Qed.

Lemma consumed_weaken {A} rest k k' (a : A * read_block) : k' ≤ k → consumed rest k a → consumed rest k' a.
Proof. intros Hk (rest' & H & Hl). exists rest'. split; [done|lia]. Qed.

(** Read [n] bytes and go on with them. *)
Lemma read_n_then {A} rb rest n line (f : list Z → read_block → option (result A)) P :
  rb_rest rb rest → 0 ≤ n →
  (∀ x rb' rest', rb_rest rb' rest' → len rest' + n ≤ len rest → total (f x rb') P) →
  total (' (x, rb) ⇐ read_n rb n line; f x rb) P.
Proof.
  intros H Hn Hf. eapply (total_bind _ (λ '(x, rb), f x rb)); [by apply read_n_total|].
  intros [x rb'] (rest' & Hr & Hl). by apply (Hf x rb' rest').
Qed.

Lemma get_integer_total rb rest cookie : rb_rest rb rest →
  total (get_integer rb cookie) (consumed rest 0).
Proof.
  intros H.
  assert (∀ n line (g : list Z → Z), 0 ≤ n →
    total (' (x, rb) ⇐ read_n rb n line; Some (Return (g x, rb))) (consumed rest 0)) as Hr.
  { intros n line g Hn. apply (read_n_then rb rest); [done|done|].
    intros x rb' rest' Hr Hl. exists rest'. split; [done|lia]. }
  unfold get_integer.
  repeat first [done | apply Hr; lia | exists rest; split; [done|cbn; lia] | case_match].
Qed.

Lemma unpack_size_total rb rest n : rb_rest rb rest → total (unpack_size rb n) (consumed rest 0).
Proof.
  intros H. unfold unpack_size. case_match; [|exists rest; split; [done|lia]].
  apply (read_n_then rb rest); [done|lia|]. intros x rb' rest' Hr Hl. cbv zeta. case_match; [done|].
  eapply (total_bind _ (λ '(n, rb), _)); [by apply (get_integer_total rb' rest')|].
  intros [m rb2] (rest2 & Hr2 & Hl2). exists rest2. split; [done|lia].
Qed.

Lemma unpack_string_total rb rest cookie : rb_rest rb rest →
  total (unpack_string rb cookie) (consumed rest 0).
Proof.
  intros H.
  assert (∀ n line (g : list Z → Z), 0 ≤ n →
    total (' (x, rb) ⇐ read_n rb n line; get_buffer rb (g x)) (consumed rest 0)) as Hr.
  { intros n line g Hn. apply (read_n_then rb rest); [done|done|].
    intros x rb' rest' Hr Hl. unfold total. pose proof (get_buffer_total rb' rest' (g x) Hr) as Ht.
    unfold total in Ht. repeat case_match; try done. destruct Ht as (r2 & ? & ?). exists r2. split; [done|lia]. }
  unfold unpack_string. repeat first [done | apply Hr; lia | case_match].
Qed.

(** No table disappears. *)
Definition keeps (σ σ' : store) : Prop := ∀ l, is_Some (σ !! l) → is_Some (σ' !! l).

Lemma keeps_trans σ1 σ2 σ3 : keeps σ1 σ2 → keeps σ2 σ3 → keeps σ1 σ3.
Proof. unfold keeps. auto. Qed.
Lemma keeps_insert σ l t : keeps σ (<[l := t]> σ).
Proof. intros k Hk. destruct (decide (k = l)) as [->|]; [by rewrite lookup_insert_eq|by rewrite lookup_insert_ne]. Qed.

Definition unpack_ok (σ : store) (rest : list Z) (k : Z) (r : value * read_block * store) : Prop :=
  consumed rest k (r.1.1, r.1.2) ∧ keeps σ r.2.

Lemma rawseti_total σ l i v : is_Some (σ !! l) → ∃ σ', lua_rawseti σ l i v = Some σ' ∧ keeps σ σ'.
Proof.
  intros [t E]. unfold lua_rawseti. rewrite E. eexists. split; [done|]. apply keeps_insert.
Qed.

Lemma rawset_total σ l k v : is_Some (σ !! l) → total (lua_rawset σ l k v) (keeps σ).
Proof.
  intros [t E]. unfold lua_rawset. rewrite E.
  destruct k; try done; try apply keeps_insert. case_match; [done|apply keeps_insert].
Qed.

Lemma unpack_ok_weaken σ σ' rest rest' k k' r : keeps σ σ' → len rest' + k' ≤ len rest + k →
  unpack_ok σ' rest' k r → unpack_ok σ rest k' r.
Proof.
  intros Hk Hl [(r2 & Hr & Hl2) Hk2]. split; [exists r2; split; [done|lia]|by eapply keeps_trans].
Qed.

Lemma total_impl {A} (r : option (result A)) (P Q : A → Prop) :
  (∀ a, P a → Q a) → total r P → total r Q.
Proof. destruct r as [[a|m]|]; cbn; auto. Qed.

(** Going on after a value. *)
Lemma value_then {B} (r : unpacked) (f : value → read_block → store → option (result B)) P σ rest k :
  total r (unpack_ok σ rest k) →
  (∀ v rb' σ' rest', rb_rest rb' rest' → len rest' + k ≤ len rest → keeps σ σ' → total (f v rb' σ') P) →
  total (' (v, rb, σ) ⇐ r; f v rb σ) P.
Proof.
  intros H Hf. eapply (total_bind _ (λ '(v, rb, σ), f v rb σ)); [exact H|].
  intros [[v rb'] σ'] [(rest' & Hr & Hl) Hk]. by apply (Hf v rb' σ' rest').
Qed.

Lemma get_real_total rb rest : rb_rest rb rest → total (get_real rb) (consumed rest 0).
Proof.
  intros H. apply (read_n_then rb rest); [done|lia|]. intros x rb' rest' Hr Hl.
  exists rest'. split; [done|cbn; lia].
Qed.
Lemma get_pointer_total rb rest : rb_rest rb rest → total (get_pointer rb) (consumed rest 0).
Proof.
  intros H. apply (read_n_then rb rest); [done|lia|]. intros x rb' rest' Hr Hl.
  exists rest'. split; [done|cbn; lia].
Qed.

Lemma leaf_total {A} (r : option (result (A * read_block))) (g : A → value) σ rest :
  total r (consumed rest 0) →
  total (' (x, rb) ⇐ r; Some (Return (g x, rb, σ))) (unpack_ok σ rest 0).
Proof.
  intros Hr. eapply (total_bind _ (λ '(x, rb), _)); [exact Hr|].
  intros [x rb'] (rest' & Hr' & Hl). split; [by exists rest'|by intros ??].
Qed.

Lemma unpack_total fuel : ∀ rb σ rest, rb_rest rb rest →
  (4 * len rest + 1 ≤ Z.of_nat fuel → total (unpack_one fuel rb σ) (unpack_ok σ rest 1)) ∧
  (∀ type cookie, 4 * len rest + 4 ≤ Z.of_nat fuel →
    total (push_value fuel rb σ type cookie) (unpack_ok σ rest 0)) ∧
  (∀ l i n, is_Some (σ !! l) → 4 * len rest + 3 ≤ Z.of_nat fuel →
    total (unpack_array fuel rb σ l i n) (unpack_ok σ rest 1)) ∧
  (∀ l, is_Some (σ !! l) → 4 * len rest + 2 ≤ Z.of_nat fuel →
    total (unpack_hash fuel rb σ l) (unpack_ok σ rest 1)).
Proof.
  induction fuel as [|fuel IH]; intros rb σ rest H; pose proof (len_nonneg rest).
  { repeat split; intros; lia. }
  assert (∀ σ', keeps σ' σ' ) as Hrefl by (by intros ??).
  split; [|split; [|split]].
  - intros Hf. cbn [unpack_one]. apply (read_n_then rb rest); [done|lia|].
    intros x rb' rest' Hr Hl. eapply total_impl; [|apply IH; [exact Hr|lia]].
    intros r. apply unpack_ok_weaken; [done|lia].
  - intros type cookie Hf. cbn [push_value].
    assert (∀ v, total (Some (Return (v, rb, σ))) (unpack_ok σ rest 0)) as Hself.
    { intros v. split; [exists rest; split; [done|cbn; lia]|done]. }
    assert (total (' (n, rb) ⇐ unpack_size rb cookie;
      let '(l, σ) := lua_createtable σ in unpack_array fuel rb σ l 1 n) (unpack_ok σ rest 0)) as Htable.
    { eapply (total_bind _ (λ '(n, rb), _)); [by apply (unpack_size_total rb rest)|].
      intros [n rb'] (rest' & Hr & Hl). cbn in Hr, Hl. cbv beta iota zeta. cbn [lua_createtable].
      eapply total_impl; [|apply IH; [exact Hr|by rewrite lookup_insert_eq|lia]].
      intros r. apply unpack_ok_weaken; [apply keeps_insert|lia]. }
    repeat first [done | apply Hself | exact Htable
      | apply (leaf_total _ VReal); by apply get_real_total
      | apply (leaf_total _ VInt); by apply get_integer_total
      | apply (leaf_total _ VPtr); by apply get_pointer_total
      | apply (leaf_total _ VStr); by apply get_buffer_total
      | apply (leaf_total _ VStr); by apply unpack_string_total
      | case_match].
  - intros l i n Hl Hf. cbn [unpack_array]. destruct (i <=? n).
    + eapply value_then; [apply IH; [done|lia]|]. intros v rb' σ' rest' Hr Hle Hk.
      destruct (rawseti_total σ' l i v) as (σ2 & -> & Hk2); [by apply Hk|].
      eapply total_impl; [|apply IH; [exact Hr|by apply Hk2, Hk|lia]].
      intros r. apply unpack_ok_weaken; [by eapply keeps_trans|lia].
    + apply IH; [done|done|lia].
  - intros l Hl Hf. cbn [unpack_hash].
    eapply value_then; [apply IH; [done|lia]|]. intros v rb' σ' rest' Hr Hle Hk.
    destruct (is_nil v).
    + split; [exists rest'; split; [done|lia]|done].
    + eapply value_then; [apply IH; [exact Hr|lia]|]. intros w rb2 σ2 rest2 Hr2 Hle2 Hk2.
      eapply (total_bind (lua_rawset σ2 l v w)); [apply rawset_total; by apply Hk2, Hk|].
      intros σ3 Hk3. eapply total_impl; [|apply IH; [exact Hr2|by apply Hk3, Hk2, Hk|lia]].
      intros r. apply unpack_ok_weaken; [|lia]. eapply keeps_trans; [done|]. by eapply keeps_trans.
Qed.

Lemma unpack_all_total fuel : ∀ rb σ rest, rb_rest rb rest → 4 * len rest + 1 ≤ Z.of_nat fuel →
  total (unpack_all fuel rb σ) (λ _, True).
Proof.
  induction fuel as [|fuel IH]; intros rb σ rest H Hf; pose proof (len_nonneg rest); [lia|].
  cbn [unpack_all]. destruct (rest_cases rest 1) as [Hs|(x & rest' & -> & Hx)]; [lia| |].
  - by rewrite (rb_read_short rb rest).
  - destruct (rb_read_app rb x rest' H) as (rb' & E & Hr & Em). rewrite Hx in E, Em. rewrite E, Em.
    rewrite len_app in Hf. pose proof (len_nonneg rest').
    eapply value_then; [apply (unpack_total fuel rb' σ rest' Hr); lia|].
    intros v rb2 σ2 rest2 Hr2 Hl2 _.
    eapply (total_bind _ (λ '(vs, σ), _)); [apply (IH rb2 σ2 rest2); [done|lia]|].
    by intros [vs σ3] _.
Qed.

(** A message the code may be given: a string, or a pointer to [size] bytes. *)
Definition message_ok (m : message) : Prop :=
  match m with
  | MNone => True
  | MString s => len s ≤ INT_MAX
  | MPointer (Some buffer) size => INT_MIN ≤ size ≤ len buffer ∧ size ≤ INT_MAX
  | MPointer None _ => True
  end.



(** ** Round trip *)

(** The same value in two states of Lua, [n] levels of tables deep: tables
    have the same fields, keys and values being the same in turn. *)
Fixpoint same (n : nat) (σ : store) (v : value) (σ' : store) (v' : value) : Prop :=
  match n with
  | O => False
  | S n =>
      match v, v' with
      | VTab l, VTab l' => ∃ t t' es es', σ !! l = Some t ∧ σ' !! l' = Some t' ∧
          fields t = list_to_map es ∧ fields t' = list_to_map es' ∧
          NoDup es.*1 ∧ NoDup es'.*1 ∧ metapairs t' = None ∧
          Forall2 (λ p q, same n σ p.1 σ' q.1 ∧ same n σ p.2 σ' q.2) es es'
      | VTab _, _ | _, VTab _ => False
      | _, _ => v = v'
      end
  end.

(** What Lua guarantees of values and of the fields of a table. *)
Definition value_ok (v : value) : Prop :=
  match v with
  | VInt x => INT64_MIN ≤ x ≤ INT64_MAX
  | VReal x | VPtr x => 0 ≤ x < 2 ^ 64
  | _ => True
  end.
Definition key_ok (k : value) : Prop :=
  k ≠ VNil ∧ norm_key k = k ∧ match k with VReal x => is_nan x = false | _ => True end.
Record table_ok {LT : LuaTables} (t : table) : Prop := {
  ok_plain : metapairs t = None;
  ok_fields k v : fields t !! k = Some v → key_ok k ∧ value_ok k ∧ value_ok v ∧ v ≠ VNil;
  ok_size : lua_rawlen (fields t) ≤ INT_MAX
}.
Definition store_ok {LT : LuaTables} (σ : store) : Prop := map_Forall (λ _, table_ok) σ.

Lemma same_mono n : ∀ σ v τ τ' v', same n σ v τ v' → τ ⊆ τ' → same n σ v τ' v'.
Proof.
  induction n as [|n IH]; intros σ v τ τ' v' H Hsub; [done|]. destruct v, v'; try done.
  destruct H as (t & t' & es & es' & H1 & H2 & H3 & H4 & H5 & H6 & H7 & HF).
  exists t, t', es, es'. split; [done|]. split; [by eapply lookup_weaken|]. repeat (split; [done|]).
  eapply Forall2_impl; [exact HF|]. intros p q [Hk Hv]. split; by eapply IH.
Qed.

Lemma same_table n σ v τ l : same n σ v τ (VTab l) → is_Some (τ !! l).
Proof. destruct n; [done|]. destruct v; try done. intros (? & ? & ? & ? & _ & -> & _). done. Qed.

Lemma same_flat n σ v τ v' : same n σ v τ v' → (∀ l, v' ≠ VTab l) → v = v'.
Proof. destruct n; [done|]. destruct v, v'; try done. intros _ H. by destruct (H l0). Qed.

Lemma same_flat_l n σ v τ v' : same n σ v τ v' → (∀ l, v ≠ VTab l) → v' = v.
Proof. destruct n; [done|]. destruct v, v'; try done. intros _ H. by destruct (H l). Qed.

Lemma table_or_flat v : (∃ l, v = VTab l) ∨ ∀ l, v ≠ VTab l.
Proof. destruct v as [| | | | | |l|]; try (by right). left. by eexists. Qed.

(** *** Reading back what is not a table *)

Lemma type_byte t c : 0 ≤ t < 8 → 0 ≤ c → Z.land (t + 8 * c) 7 = t ∧ Z.shiftr (t + 8 * c) 3 = c.
Proof.
  intros Ht Hc. change 7 with (2 ^ 3 - 1). rewrite land_mask, Z.shiftr_div_pow2 by lia.
  change (2 ^ 3) with 8. split; symmetry; [apply Z.mod_unique with c; lia|apply Z.div_unique with t; lia].
Qed.

Definition reads {A} (r : read_block → option (result (A * read_block))) (x : list Z) (a : A) : Prop :=
  ∀ rb rest, rb_rest rb (x ++ rest) → ∃ rb', r rb = Some (Return (a, rb')) ∧ rb_rest rb' rest.

Lemma reads_n {A} n line (x : list Z) (g : list Z → A) : n = len x →
  reads (λ rb, ' (x, rb) ⇐ read_n rb n line; Some (Return (g x, rb))) x (g x).
Proof.
  intros -> rb rest H. destruct (read_n_app rb x rest (len x) line H) as (rb' & -> & Hr); [done|].
  by exists rb'.
Qed.

Lemma reads_then {A B} (r : read_block → option (result (A * read_block))) x a
    (f : A → read_block → option (result (B * read_block))) y b :
  reads r x a → reads (f a) y b → reads (λ rb, ' (a, rb) ⇐ r rb; f a rb) (x ++ y) b.
Proof.
  intros Hr Hf rb rest H. rewrite <- app_assoc in H. destruct (Hr rb _ H) as (rb1 & -> & H1).
  by apply Hf.
Qed.

Lemma get_integer_reads x : INT64_MIN ≤ x ≤ INT64_MAX →
  ∃ c y, enc_integer x = (2 + 8 * c) :: y ∧ 0 ≤ c < 8 ∧ reads (λ rb, get_integer rb c) y x.
Proof.
  intros Hx. unfold enc_integer.
  assert (∀ n, of_le (le_bytes n x) = x mod 256 ^ Z.of_nat n) as Hle by (intros n; apply of_le_bytes).
  destruct (Z.eqb_spec x 0) as [->|Hn0].
  { exists 0, []. split; [done|]. split; [lia|]. intros rb rest H. by exists rb. }
  destruct (Z.eqb_spec x (s32 x)) as [E32|]; cbn [negb].
  - pose proof (s32_range x) as Hr. destruct (Z.ltb_spec x 0); [|destruct (Z.ltb_spec x (2 ^ 8))];
      [|..|destruct (Z.ltb_spec x (2 ^ 16))].
    + exists 4, (le_bytes 4 x). split; [done|]. split; [lia|].
      replace x with (s32 (of_le (le_bytes 4 x))) at 2;
        [by apply (reads_n 4 384 (le_bytes 4 x) (λ l, s32 (of_le l)))|].
      rewrite Hle. rewrite E32 at 2. unfold s32. f_equal. change (256 ^ Z.of_nat 4) with (2 ^ 32).
      by rewrite Zplus_mod_idemp_l.
    + exists 1, [x]. split; [done|]. split; [lia|].
      replace x with (of_le [x]) at 2 by (cbn; lia). by apply (reads_n 1 368 [x] of_le).
    + exists 2, (le_bytes 2 x). split; [done|]. split; [lia|].
      replace x with (of_le (le_bytes 2 x)) at 2; [by apply (reads_n 2 376 (le_bytes 2 x) of_le)|].
      rewrite Hle. apply Z.mod_small. change (256 ^ Z.of_nat 2) with (2 ^ 16). lia.
    + exists 4, (le_bytes 4 x). split; [done|]. split; [lia|].
      replace x with (s32 (of_le (le_bytes 4 x))) at 2;
        [by apply (reads_n 4 384 (le_bytes 4 x) (λ l, s32 (of_le l)))|].
      rewrite Hle, Z.mod_small by (change (256 ^ Z.of_nat 4) with (2 ^ 32); lia). done.
  - exists 6, (le_bytes 8 x). split; [done|]. split; [lia|].
    replace x with (s64 (of_le (le_bytes 8 x))) at 2;
      [by apply (reads_n 8 392 (le_bytes 8 x) (λ l, s64 (of_le l)))|].
    rewrite Hle. unfold s64. change (256 ^ Z.of_nat 8) with (2 ^ 64).
    rewrite Zplus_mod_idemp_l, Z.mod_small by (unfold INT64_MIN, INT64_MAX in Hx; lia). lia.
Qed.

Lemma get_buffer_reads s : reads (λ rb, get_buffer rb (len s)) s s.
Proof. intros rb rest H. by apply get_buffer_app. Qed.

(** The string of a message: its type byte and how the rest is read. *)
Lemma string_reads s : len s ≤ INT_MAX → ∃ t c y, enc_string s = (t + 8 * c) :: y ∧ 0 ≤ c < 32 ∧
  (t = 4 ∧ reads (λ rb, get_buffer rb c) y s ∨ t = 5 ∧ reads (λ rb, unpack_string rb c) y s).
Proof.
  intros Hs. pose proof (len_nonneg s). unfold enc_string.
  destruct (Z.ltb_spec (len s) 32); [|destruct (Z.ltb_spec (len s) (2 ^ 16))].
  - exists 4, (len s), s. split; [done|]. split; [lia|]. left. split; [done|apply get_buffer_reads].
  - exists 5, 2, (le_bytes 2 (len s) ++ s). split; [done|]. split; [lia|]. right. split; [done|].
    apply (reads_then (λ rb, read_n rb 2 493) _ (le_bytes 2 (len s)) (λ x rb, get_buffer rb (of_le x))).
    + by intros rb rest H'; apply read_n_app.
    + cbv beta. rewrite of_le_bytes, Z.mod_small by (change (256 ^ Z.of_nat 2) with (2 ^ 16); lia).
      apply get_buffer_reads.
  - exists 5, 4, (le_bytes 4 (len s) ++ s). split; [done|]. split; [lia|]. right. split; [done|].
    apply (reads_then (λ rb, read_n rb 4 504) _ (le_bytes 4 (len s)) (λ x rb, get_buffer rb (s32 (of_le x)))).
    + by intros rb rest H'; apply read_n_app.
    + cbv beta. unfold INT_MAX in Hs.
      rewrite of_le_bytes, Z.mod_small by (change (256 ^ Z.of_nat 4) with (2 ^ 32); lia).
      rewrite s32_small by lia. apply get_buffer_reads.
Qed.

Lemma header_reads n : 0 ≤ n ≤ INT_MAX →
  ∃ c y, enc_header n = (6 + 8 * c) :: y ∧ 0 ≤ c < 32 ∧ reads (λ rb, unpack_size rb c) y n.
Proof.
  intros Hn. unfold enc_header. destruct (Z.ltb_spec n 31).
  - exists n, []. rewrite u8_small by lia. split; [done|]. split; [lia|]. intros rb rest H'. exists rb.
    unfold unpack_size, MAX_COOKIE. by destruct (Z.eqb_spec n (32 - 1)); [lia|].
  - destruct (get_integer_reads n) as (c & y & E & Hc & Hr);
      [unfold INT_MAX, INT64_MIN, INT64_MAX in *; lia|].
    exists 31, (enc_integer n). split; [done|]. split; [lia|]. rewrite E.
    unfold unpack_size. change (31 =? MAX_COOKIE - 1) with true. cbv beta iota.
    apply (reads_then (λ rb, read_n rb 1 440) [2 + 8 * c] [2 + 8 * c] (λ t rb,
      if negb (Z.land (of_le t) 7 =? TYPE_NUMBER) || (Z.shiftr (of_le t) 3 =? TYPE_NUMBER_REAL)
      then invalid_stream_line rb 445
      else ' (n, rb) ⇐ get_integer rb (Z.shiftr (of_le t) 3); Some (Return (s32 n, rb))) y).
    + by intros rb rest H'; apply read_n_app.
    + assert (of_le [2 + 8 * c] = 2 + 8 * c) as -> by (cbn [of_le]; lia).
      destruct (type_byte 2 c) as [-> ->]; [lia|lia|]. unfold TYPE_NUMBER, TYPE_NUMBER_REAL.
      destruct (Z.eqb_spec c 8); [lia|]. cbn [negb orb Z.eqb Pos.eqb].
      intros rb rest H'. destruct (Hr rb rest H') as (rb' & -> & Hr'). exists rb'.
      rewrite s32_small by (unfold INT_MAX in Hn; lia). done.
Qed.

(** *** Reading back a table *)

(** The table at [l] after the fields [es] of the source, read into [es']:
    nothing of the state before, [σ0], has changed, and what was read is new. *)
Record building (n : nat) (σ σ0 σc : store) (l : Z) (es es' : list (value * value)) : Prop := {
  bd_new : σ0 !! l = None;
  bd_sub : σ0 ⊆ σc;
  bd_here : σc !! l = Some (Table (list_to_map es') None);
  bd_nodup : NoDup es'.*1;
  bd_same : Forall2 (λ p q, same n σ p.1 (delete l (σc ∖ σ0)) q.1 ∧ same n σ p.2 (delete l (σc ∖ σ0)) q.2) es es'
}.

Lemma difference_insert (σ0 σc σ2 : store) l t : σ0 !! l = None → is_Some (σc !! l) → σc ⊆ σ2 → σ0 ⊆ σc →
  delete l (σc ∖ σ0) ⊆ delete l (<[l := t]> σ2 ∖ σ0) ∧
  σ2 ∖ σc ⊆ delete l (<[l := t]> σ2 ∖ σ0) ∧ σ0 ⊆ <[l := t]> σ2.
Proof.
  intros Hl0 Hlc Hsub Hsub0. split; [|split]; apply map_subseteq_spec; intros i x Hi.
  - rewrite lookup_delete_Some, lookup_difference_Some in *. destruct Hi as (Hne & Hc & H0).
    split; [done|]. rewrite lookup_insert_ne by done. split; [by eapply lookup_weaken|done].
  - rewrite lookup_difference_Some in Hi. destruct Hi as [H2 Hc].
    assert (l ≠ i) as Hne by (intros ->; destruct Hlc; congruence).
    rewrite lookup_delete_Some, lookup_difference_Some, lookup_insert_ne by done.
    split; [done|]. split; [done|]. destruct (σ0 !! i) eqn:E; [|done].
    by rewrite (lookup_weaken _ _ _ _ E Hsub0) in Hc.
  - assert (l ≠ i) as Hne by (intros ->; congruence). rewrite lookup_insert_ne by done.
    eapply lookup_weaken; [|exact Hsub]. by eapply lookup_weaken.
Qed.

Lemma building_mono n σ σ0 σc σ2 l es es' t : building n σ σ0 σc l es es' → σc ⊆ σ2 →
  Forall2 (λ p q, same n σ p.1 (delete l (<[l := t]> σ2 ∖ σ0)) q.1 ∧
    same n σ p.2 (delete l (<[l := t]> σ2 ∖ σ0)) q.2) es es'.
Proof.
  intros [Hn Hs Hh Hd HF] Hsub.
  destruct (difference_insert σ0 σc σ2 l t) as (Hm & _); [done|by rewrite Hh|done|done|].
  eapply Forall2_impl; [exact HF|]. intros p q [Hk Hv]. split; by eapply same_mono.
Qed.

(** A field is added. *)
Lemma building_add n σ σ0 σc σ2 l es es' k v k' v' :
  building n σ σ0 σc l es es' → σc ⊆ σ2 →
  same n σ k (σ2 ∖ σc) k' → same n σ v (σ2 ∖ σc) v' → k ∉ es.*1 →
  building n σ σ0 (<[l := Table (<[k' := v']> (list_to_map es')) None]> σ2) l ((k, v) :: es) ((k', v') :: es').
Proof.
  intros Hb Hsub Hk Hv Hnk. pose proof Hb as [Hn Hs Hh Hd HF].
  destruct (difference_insert σ0 σc σ2 l (Table (<[k' := v']> (list_to_map es')) None))
    as (Hm & Hm2 & Hm3); [done|by rewrite Hh|done|done|].
  split; [done|done|by rewrite lookup_insert_eq| |].
  - cbn [fmap list_fmap]. constructor; [|done].
    intros (q & Eq & Hin)%list_elem_of_fmap. apply list_elem_of_lookup in Hin as [i Hi].
    destruct (Forall2_lookup_r _ _ _ _ _ HF Hi) as (p & Hp & Hpk & _). rewrite <- Eq in Hpk.
    destruct (table_or_flat k') as [[l' ->]|Hf].
    + cbn in Hpk. apply same_table in Hk as [? Hk]. apply same_table in Hpk as [? Hpk].
      apply lookup_difference_Some in Hk as [_ Hk].
      apply lookup_delete_Some in Hpk as [_ [Hpk _]%lookup_difference_Some]. congruence.
    + apply Hnk. cbn in Hpk. apply same_flat in Hk; [|done]. apply same_flat in Hpk; [|done].
      apply list_elem_of_fmap. exists p. split; [congruence|]. by eapply list_elem_of_lookup_2.
  - constructor; [split; by eapply same_mono|]. by eapply building_mono.
Qed.

(** A hole of the array part. *)
Lemma building_skip n σ σ0 σc σ2 l es es' k :
  building n σ σ0 σc l es es' → σc ⊆ σ2 → k ∉ es.*1 → (∀ l', k ≠ VTab l') →
  building n σ σ0 (<[l := Table (delete k (list_to_map es')) None]> σ2) l es es'.
Proof.
  intros Hb Hsub Hnk Hf. pose proof Hb as [Hn Hs Hh Hd HF].
  destruct (difference_insert σ0 σc σ2 l (Table (delete k (list_to_map es')) None))
    as (_ & _ & Hm3); [done|by rewrite Hh|done|done|].
  assert (delete k (list_to_map es' : gmap value value) = list_to_map es') as E.
  { apply delete_id. apply not_elem_of_list_to_map_1. intros (q & Eq & Hin)%list_elem_of_fmap.
    apply list_elem_of_lookup in Hin as [i Hi].
    destruct (Forall2_lookup_r _ _ _ _ _ HF Hi) as (p & Hp & Hpk & _). rewrite <- Eq in Hpk.
    apply same_flat in Hpk; [|done]. apply Hnk. apply list_elem_of_fmap. exists p.
    split; [congruence|]. by eapply list_elem_of_lookup_2. }
  split; [done|done|by rewrite lookup_insert_eq, E|done|]. by eapply building_mono.
Qed.

Lemma difference_mono_l (σ1 σ2 τ : store) : σ1 ⊆ σ2 → σ1 ∖ τ ⊆ σ2 ∖ τ.
Proof.
  intros Hs. apply map_subseteq_spec. intros i x [H1 H2]%lookup_difference_Some.
  apply lookup_difference_Some. split; [by eapply lookup_weaken|done].
Qed.
Lemma difference_mono_r (σ1 σ2 τ : store) : σ1 ⊆ σ2 → τ ∖ σ2 ⊆ τ ∖ σ1.
Proof.
  intros Hs. apply map_subseteq_spec. intros i x [H1 H2]%lookup_difference_Some.
  apply lookup_difference_Some. split; [done|]. by eapply lookup_weaken_None.
Qed.

Section Roundtrip.
Context {LT : LuaTables} (σ : store).
Hypothesis σ_ok : store_ok σ.

Lemma encode_pos n v x : encode n σ v = Some (x, None) → 0 < len x.
Proof.
  assert (∀ b l, 0 < len (b :: l : list Z)) as Hc by (intros b l; rewrite len_cons; pose proof (len_nonneg l); lia).
  assert (∀ i, 0 < len (enc_integer i)) as Hi by (intros i; unfold enc_integer; repeat case_match; apply Hc).
  assert (∀ b t y, 0 < len b → stream_app (bytes_of b) t = Some (y, None) → 0 < len y) as Ha.
  { intros b t y Hb E. destruct t as [[z [e|]]|]; try done. injection E as <-. rewrite len_app.
    pose proof (len_nonneg z). lia. }
  assert (∀ s, 0 < len (enc_string s)) as Hs by (intros s; unfold enc_string; repeat case_match; apply Hc).
  destruct n as [|n]; [done|]. destruct v; cbn [encode]; try done;
    try (intros [= <-]; first [apply Hi | apply Hs | apply Hc]).
  destruct (σ !! l) as [t|]; [|done]. destruct (metapairs t); [by apply Ha|]. intros E.
  destruct (stream_app (bytes_of (enc_header _)) _) as [[y [e|]]|] eqn:E1; try done.
  apply Ha in E1; [|unfold enc_header; case_match; apply Hc].
  destruct (stream_app (stream_list _ _) _) as [[z [e|]]|]; try done. injection E as <-.
  rewrite len_app. pose proof (len_nonneg z). lia.
Qed.

(** What a reader makes of a value written [n] levels deep. *)
Definition read_back (n : nat) (v : value) (rest : list Z) (σ' : store) (r : unpacked) : Prop :=
  ∃ rb' v' σ'', r = Some (Return (v', rb', σ'')) ∧ rb_rest rb' rest ∧ σ' ⊆ σ'' ∧
    same n σ v (σ'' ∖ σ') v'.

Definition reads_typed (n : nat) : Prop := ∀ v x,
  encode n σ v = Some (x, None) → value_ok v → len x ≤ INT_MAX →
  ∃ t c y, x = (t + 8 * c) :: y ∧ 0 ≤ t < 8 ∧ 0 ≤ c < 32 ∧
    ∀ rest rb σ' fuel, rb_rest rb (y ++ rest) → 4 * len (y ++ rest) + 4 ≤ Z.of_nat fuel →
      read_back n v rest σ' (push_value fuel rb σ' t c).

Definition reads_values (n : nat) : Prop := ∀ v x rest rb σ' fuel,
  encode n σ v = Some (x, None) → value_ok v →
  rb_rest rb (x ++ rest) → 4 * len (x ++ rest) + 1 ≤ Z.of_nat fuel →
  read_back n v rest σ' (unpack_one fuel rb σ').

Lemma read_type rb t c y line : rb_rest rb ((t + 8 * c) :: y) → 0 ≤ t < 8 → 0 ≤ c < 32 →
  ∃ rb' x, read_n rb 1 line = Some (Return (x, rb')) ∧ rb_rest rb' y ∧
    Z.land (of_le x) 7 = t ∧ Z.shiftr (of_le x) 3 = c.
Proof.
  intros H Ht Hc. destruct (read_n_app rb [t + 8 * c] y 1 line H) as (rb' & E & Hr); [done|].
  exists rb', [t + 8 * c]. split; [done|]. split; [done|].
  assert (of_le [t + 8 * c] = t + 8 * c) as -> by (cbn [of_le]; lia). apply type_byte; lia.
Qed.

Lemma typed_values n : reads_typed n → reads_values n.
Proof.
  intros Hn v x rest rb σ' fuel E Hv H Hf.
  assert (len x ≤ INT_MAX) as Hx.
  { destruct H as (pre & tail & _ & _ & _ & Hi). rewrite len_app in Hi.
    pose proof (len_nonneg pre). pose proof (len_nonneg rest). lia. }
  destruct (Hn v x E Hv Hx) as (t & c & y & -> & Ht & Hc & Hp).
  cbn [app] in H, Hf. rewrite len_cons in Hf. pose proof (len_nonneg (y ++ rest)).
  destruct fuel as [|fuel]; [lia|]. cbn [unpack_one].
  destruct (read_type rb t c _ 528 H Ht Hc) as (rb' & b & -> & Hr & -> & ->).
  apply Hp; [done|lia].
Qed.

Lemma stream_app_inv s t x : stream_app s t = Some (x, None) →
  ∃ y z, s = Some (y, None) ∧ t = Some (z, None) ∧ x = y ++ z.
Proof.
  destruct s as [[y [e|]]|]; try done. destruct t as [[z [e|]]|]; try done.
  intros [= <-]. by exists y, z.
Qed.

Lemma unpack_nil rb rest σ' fuel : rb_rest rb (0 :: rest) → (2 ≤ fuel)%nat →
  ∃ rb', unpack_one fuel rb σ' = Some (Return (VNil, rb', σ')) ∧ rb_rest rb' rest.
Proof.
  intros H Hf. destruct fuel as [|[|fuel]]; [lia|lia|]. cbn [unpack_one].
  destruct (read_type rb 0 0 rest 528 H) as (rb' & b & -> & Hr & -> & ->); [lia|lia|].
  by exists rb'.
Qed.

Lemma rawset_field n τ τ' l m k k' v' : same n σ k τ k' → key_ok k → v' ≠ VNil →
  τ' !! l = Some (Table m None) →
  is_nil k' = false ∧ lua_rawset τ' l k' v' = Some (Return (<[l := Table (<[k' := v']> m) None]> τ')).
Proof.
  intros Hs (Hk & Hnorm & Hnan) Hv El. unfold lua_rawset, store_field. rewrite El.
  replace (is_nil v') with false by (by destruct v').
  destruct (table_or_flat k') as [[l' ->]|Hf]; [done|].
  apply same_flat in Hs; [|done]. subst k'. destruct k; try done. by rewrite Hnan, Hnorm.
Qed.

Definition pair_ok (p : value * value) : Prop :=
  key_ok p.1 ∧ value_ok p.1 ∧ value_ok p.2 ∧ p.2 ≠ VNil.

(** The pairs behind the array part. *)
Lemma unpack_hash_reads n : reads_values n → ∀ ps x rest rb σ0 σc l es es' fuel,
  stream_list (encode n σ) (flat_pairs ps) = Some (x, None) → Forall pair_ok ps →
  NoDup (reverse ps ++ es).*1 → building n σ σ0 σc l es es' →
  rb_rest rb (x ++ 0 :: rest) → 4 * len (x ++ 0 :: rest) + 2 ≤ Z.of_nat fuel →
  ∃ rb' σf es2, unpack_hash fuel rb σc l = Some (Return (VTab l, rb', σf)) ∧ rb_rest rb' rest ∧
    building n σ σ0 σf l (reverse ps ++ es) es2.
Proof.
  intros Hn. induction ps as [|[k v] ps IH]; intros x rest rb σ0 σc l es es' fuel E Hok Hnd Hb H Hf;
    (destruct fuel as [|fuel]; [pose proof (len_nonneg (x ++ 0 :: rest)); lia|]); cbn [unpack_hash].
  - injection E as <-. cbn [app] in H, Hf. rewrite len_cons in Hf. pose proof (len_nonneg rest).
    destruct (unpack_nil rb rest σc fuel H) as (rb' & -> & Hr); [lia|]. by exists rb', σc, es'.
  - change (flat_pairs ((k, v) :: ps)) with (k :: v :: flat_pairs ps) in E. cbn [stream_list] in E.
    apply stream_app_inv in E as (xk & x' & Ek & E & ->).
    apply stream_app_inv in E as (xv & xs & Ev & E & ->).
    inversion Hok as [|? ? (Hkey & Hko & Hvo & Hvn) Hok']; subst. cbn in Hkey, Hko, Hvo, Hvn.
    rewrite <- !app_assoc in H, Hf. pose proof (encode_pos _ _ _ Ek). pose proof (encode_pos _ _ _ Ev).
    destruct (Hn k xk _ rb σc fuel Ek Hko H) as (rb1 & k' & σ1 & -> & Hr1 & Hs1 & Hk); [lia|].
    rewrite len_app in Hf.
    destruct (Hn v xv _ rb1 σ1 fuel Ev Hvo Hr1) as (rb2 & v' & σ2 & Ev' & Hr2 & Hs2 & Hv); [lia|].
    assert (v' ≠ VNil) as Hvn'.
    { destruct (table_or_flat v) as [[lv ->]|Hfl].
      - destruct n; [done|]. destruct v'; done.
      - apply same_flat_l in Hv; [congruence|done]. }
    assert (σ2 !! l = Some (Table (list_to_map es') None)) as El.
    { eapply lookup_weaken; [|exact Hs2]. eapply lookup_weaken; [|exact Hs1]. apply Hb. }
    destruct (rawset_field n _ σ2 l _ k k' v' Hk Hkey Hvn' El) as [-> Er]. rewrite Ev', Er.
    rewrite reverse_cons, <- app_assoc in Hnd |- *. cbn [app] in Hnd |- *.
    rewrite len_app in Hf.
    assert (σc ⊆ σ2) as Hs12 by (by etrans).
    eapply IH; [exact E|done|done| |exact Hr2|lia].
    apply (building_add n σ σ0 σc σ2 l es es' k v k' v' Hb Hs12).
    + eapply same_mono; [exact Hk|]. by apply difference_mono_l.
    + eapply same_mono; [exact Hv|]. by apply difference_mono_r.
    + rewrite fmap_app in Hnd. apply NoDup_app in Hnd as (_ & _ & Hnd). by apply NoDup_cons in Hnd as [? _].
Qed.

(** The fields of the array part from index [i] on. *)
Definition array_pairs (t : gmap value value) (i : Z) (m : nat) : list (value * value) :=
  List.filter (λ p, negb (is_nil p.2)) (map (λ j, (VInt j, get t (VInt j))) (seqZ i (Z.of_nat m))).

Lemma array_pairs_S t i m : array_pairs t i (S m) =
  (if is_nil (get t (VInt i)) then [] else [(VInt i, get t (VInt i))]) ++ array_pairs t (i + 1) m.
Proof.
  unfold array_pairs. rewrite seqZ_cons by lia.
  replace (Z.pred (Z.of_nat (S m))) with (Z.of_nat m) by lia. cbn [map List.filter snd].
  replace (Z.succ i) with (i + 1) by lia. by destruct (is_nil _).
Qed.

Lemma same_nil n τ v' : same n σ VNil τ v' → v' = VNil.
Proof. intros H. by apply same_flat_l in H. Qed.

Lemma same_not_nil n v τ v' : same n σ v τ v' → v ≠ VNil → v' ≠ VNil.
Proof. intros H Hv ->. apply Hv. by apply same_flat in H. Qed.

(** The array part, and what is behind it. *)
Lemma unpack_array_reads n t ps : reads_values n → Forall pair_ok ps →
  (∀ k v, t !! k = Some v → value_ok v) →
  ∀ m i x xh rest rb σ0 σc l es es' fuel,
  stream_list (encode n σ) (map (λ j, get t (VInt j)) (seqZ i (Z.of_nat m))) = Some (x, None) →
  stream_list (encode n σ) (flat_pairs ps) = Some (xh, None) →
  NoDup (reverse ps ++ reverse (array_pairs t i m) ++ es).*1 → (∀ j, i ≤ j → VInt j ∉ es.*1) →
  building n σ σ0 σc l es es' →
  rb_rest rb (x ++ xh ++ 0 :: rest) → 4 * len (x ++ xh ++ 0 :: rest) + 3 ≤ Z.of_nat fuel →
  ∃ rb' σf es2, unpack_array fuel rb σc l i (i + Z.of_nat m - 1) = Some (Return (VTab l, rb', σf)) ∧
    rb_rest rb' rest ∧
    building n σ σ0 σf l (reverse ps ++ reverse (array_pairs t i m) ++ es) es2.
Proof.
  intros Hn Hok Hto. induction m as [|m IH];
    intros i x xh rest rb σ0 σc l es es' fuel E Eh Hnd Hi Hb H Hf;
    (destruct fuel as [|fuel]; [pose proof (len_nonneg (x ++ xh ++ 0 :: rest)); lia|]); cbn [unpack_array].
  - injection E as <-. cbn [app] in *. destruct (Z.leb_spec i (i + Z.of_nat 0 - 1)); [lia|].
    eapply unpack_hash_reads; [done|done|done|done|done|done|lia].
  - destruct (Z.leb_spec i (i + Z.of_nat (S m) - 1)); [|lia].
    rewrite seqZ_cons in E by lia. cbn [map stream_list] in E.
    apply stream_app_inv in E as (xv & xs & Ev & E & ->). pose proof (encode_pos _ _ _ Ev).
    rewrite <- app_assoc in H, Hf.
    assert (value_ok (get t (VInt i))) as Hvo.
    { unfold get. destruct (t !! VInt i) eqn:Et; [by eapply Hto|done]. }
    destruct (Hn _ xv _ rb σc fuel Ev Hvo H) as (rb1 & v' & σ1 & -> & Hr1 & Hs1 & Hv); [lia|].
    assert (σ1 !! l = Some (Table (list_to_map es') None)) as El.
    { eapply lookup_weaken; [|exact Hs1]. apply Hb. }
    unfold lua_rawseti. rewrite El. rewrite array_pairs_S in Hnd |- *.
    replace (Z.pred (Z.of_nat (S m))) with (Z.of_nat m) in E by lia.
    replace (i + Z.of_nat (S m) - 1) with (i + 1 + Z.of_nat m - 1) by lia.
    rewrite len_app in Hf. unfold store_field. cbn [fields metapairs].
    destruct (is_nil (get t (VInt i))) eqn:En; cbn [app] in Hnd |- *.
    + destruct (get t (VInt i)); try done. apply same_nil in Hv as ->. cbn [is_nil].
      eapply IH; [exact E|exact Eh|exact Hnd|intros j Hj; apply Hi; lia| |exact Hr1|lia].
      apply (building_skip _ _ _ σc); [done|done|apply Hi; lia|done].
    + replace (is_nil v') with false; cycle 1.
      { assert (v' ≠ VNil) as Hv'; [|by destruct v'].
        eapply same_not_nil; [exact Hv|]. intros E0. by rewrite E0 in En. }
      rewrite reverse_cons, <- app_assoc in Hnd |- *. cbn [app] in Hnd |- *.
      eapply IH; [exact E|exact Eh|exact Hnd| | |exact Hr1|lia].
      * intros j Hj. cbn [fmap list_fmap fst]. rewrite not_elem_of_cons.
        split; [intros [= ->]; lia|apply Hi; lia].
      * destruct n as [|n]; [done|].
        apply (building_add _ _ _ σc); [done|done|done|done|apply Hi; lia].
Qed.

(** The two parts of a table are its fields. *)
Lemma in_array_spec N k : in_array N k = true ↔ ∃ x, k = VInt x ∧ 0 < x ≤ N.
Proof.
  destruct k; cbn; try (split; [done|by intros (y & [=] & _)]).
  rewrite andb_true_iff, Z.ltb_lt, Z.leb_le. split; [intros H; by exists x|by intros (y & [= ->] & H)].
Qed.

Lemma table_pairs_perm t : table_ok t → 0 ≤ array_size (fields t) →
  array_pairs (fields t) 1 (Z.to_nat (array_size (fields t))) ++ hash_part (fields t) ≡ₚ map_to_list (fields t).
Proof.
  intros Hok HN. destruct t as [t mp]. cbn [fields] in *. pose proof (ok_fields _ Hok) as Hf. cbn in Hf.
  set (N := array_size t) in *.
  assert (∀ k v, (k, v) ∈ array_pairs t 1 (Z.to_nat N) ↔ t !! k = Some v ∧ in_array N k = true) as Ha.
  { intros k v. unfold array_pairs. rewrite list_elem_of_In, filter_In, in_map_iff. cbn [snd].
    rewrite in_array_spec. split.
    - intros [(j & [= <- <-] & Hj) Hn]. rewrite <- list_elem_of_In in Hj. apply elem_of_seqZ in Hj.
      unfold get in *. destruct (t !! VInt j) eqn:E; [|done]. split; [done|]. exists j. split; [done|lia].
    - intros [E (x & -> & Hx)]. split.
      + exists x. unfold get. rewrite E. split; [done|]. rewrite <- list_elem_of_In. apply elem_of_seqZ. lia.
      + destruct (Hf _ _ E) as (_ & _ & _ & Hv). by destruct v. }
  assert (∀ k v, (k, v) ∈ hash_part t ↔ t !! k = Some v ∧ in_array N k = false) as Hh.
  { intros k v. unfold hash_part. rewrite list_elem_of_In, filter_In, <- list_elem_of_In. cbn [fst].
    rewrite lua_next_perm, elem_of_map_to_list, negb_true_iff. done. }
  apply NoDup_Permutation.
  - apply NoDup_app. split; [|split].
    + unfold array_pairs. apply NoDup_ListNoDup, List.NoDup_filter.
      assert (Inj eq eq (λ j, (VInt j, get t (VInt j)))) by (by intros ?? [= ->]).
      apply NoDup_ListNoDup, (NoDup_fmap_2 (λ j, (VInt j, get t (VInt j)))), NoDup_seqZ.
    + intros [k v] [_ H1]%Ha [_ H2]%Hh. congruence.
    + unfold hash_part. apply NoDup_ListNoDup, List.NoDup_filter, NoDup_ListNoDup.
      rewrite lua_next_perm. apply NoDup_map_to_list.
  - apply NoDup_map_to_list.
  - intros [k v]. rewrite elem_of_app, Ha, Hh, elem_of_map_to_list.
    destruct (in_array N k); intuition congruence.
Qed.

Lemma difference_new (σ' : store) : σ' ∖ σ' = ∅.
Proof. apply map_difference_diag. Qed.

Lemma new_table_spec (σ' : store) l : is_Some (σ' !! l) → l < new_table σ'.
Proof.
  unfold new_table. revert l.
  apply (map_fold_weak_ind (λ r (m : store), ∀ l, is_Some (m !! l) → l < r)).
  - intros l [? H]. by rewrite lookup_empty in H.
  - intros i x m r Hi IH l Hl. destruct (decide (l = i)) as [->|Hne]; [lia|].
    rewrite lookup_insert_ne in Hl by done. specialize (IH l Hl). lia.
Qed.

Lemma new_table_fresh (σ' : store) : σ' !! new_table σ' = None.
Proof. destruct (σ' !! new_table σ') eqn:E; [|done]. pose proof (new_table_spec σ' (new_table σ')). rewrite E in *. by destruct (Z.lt_irrefl (new_table σ')); eauto. Qed.

(** A table is read back. *)
Lemma table_reads n l x : reads_values n → encode (S n) σ (VTab l) = Some (x, None) → len x ≤ INT_MAX →
  ∃ c y, x = (6 + 8 * c) :: y ∧ 0 ≤ c < 32 ∧
    ∀ rest rb σ' fuel, rb_rest rb (y ++ rest) → 4 * len (y ++ rest) + 4 ≤ Z.of_nat fuel →
      read_back (S n) (VTab l) rest σ' (push_value fuel rb σ' 6 c).
Proof.
  intros Hn E Hx. cbn [encode] in E. destruct (σ !! l) as [t|] eqn:El; [|done].
  pose proof (σ_ok l t El) as Hok. rewrite (ok_plain _ Hok) in E.
  apply stream_app_inv in E as (y1 & y2 & E1 & E2 & ->).
  apply stream_app_inv in E1 as (hd & xa & [= <-] & Ea & ->).
  apply stream_app_inv in E2 as (xh & nl & Eh & [= <-] & ->).
  assert (0 ≤ array_size (fields t) ≤ INT_MAX) as HN.
  { unfold array_size. destruct (lua_rawlen_border (fields t)) as [H0 _]. pose proof (ok_size _ Hok).
    unfold INT_MAX in *. rewrite s32_small; lia. }
  destruct (header_reads _ HN) as (c & y & Eh' & Hc & Hr). rewrite Eh'.
  exists c, (y ++ xa ++ xh ++ [0]). split; [cbn [app]; by rewrite <- !app_assoc|]. split; [done|].
  intros rest rb σ' fuel H Hf. destruct fuel as [|fuel]; [pose proof (len_nonneg ((y ++ xa ++ xh ++ [0]) ++ rest)); lia|].
  cbn [push_value]. rewrite <- !app_assoc in H, Hf. cbn [app] in H, Hf. rewrite len_app in Hf.
  pose proof (len_nonneg y). destruct (Hr rb _ H) as (rb1 & -> & Hr1). cbn [lua_createtable].
  set (l' := new_table σ'). set (N := array_size (fields t)) in *.
  pose proof (table_pairs_perm t Hok (proj1 HN)) as Hp. fold N in Hp.
  set (es := reverse (hash_part (fields t)) ++ reverse (array_pairs (fields t) 1 (Z.to_nat N)) ++ []).
  assert (es ≡ₚ map_to_list (fields t)) as Hes.
  { unfold es. rewrite app_nil_r, <- reverse_app, reverse_Permutation. done. }
  assert (NoDup es.*1) as Hnd by (rewrite Hes; apply NoDup_fst_map_to_list).
  destruct (unpack_array_reads n (fields t) (hash_part (fields t)) Hn) with (m := Z.to_nat N) (i := 1)
    (x := xa) (xh := xh) (rest := rest) (rb := rb1) (σ0 := σ') (σc := <[l' := Table ∅ None]> σ') (l := l')
    (es := @nil (value * value)) (es' := @nil (value * value)) (fuel := fuel)
    as (rb' & σf & es2 & E & Hr' & Hb).
  - apply Forall_forall. intros [k v] Hin.
    assert ((k, v) ∈ map_to_list (fields t)) as Hin' by (rewrite <- Hp; apply elem_of_app; by right).
    apply elem_of_map_to_list in Hin'. by destruct (ok_fields _ Hok _ _ Hin') as (? & ? & ? & ?).
  - intros k v Hk. by destruct (ok_fields _ Hok _ _ Hk) as (_ & _ & ? & _).
  - unfold array_part in Ea. by rewrite Z2Nat.id by lia.
  - done.
  - done.
  - intros j _. apply not_elem_of_nil.
  - split; [apply new_table_fresh|by apply insert_subseteq, new_table_fresh|by rewrite lookup_insert_eq|constructor|constructor].
  - done.
  - lia.
  - rewrite Z2Nat.id in E by lia. replace (1 + N - 1) with N in E by lia. fold es in Hb.
    exists rb', (VTab l'), σf. split; [exact E|]. split; [done|]. destruct Hb as [Hb1 Hb2 Hb3 Hb4 Hb5].
    split; [done|]. exists t, (Table (list_to_map es2) None), es, es2.
    split; [done|]. split; [by apply lookup_difference_Some|]. split.
    { rewrite <- (list_to_map_to_list (fields t)). symmetry. by apply list_to_map_proper. }
    repeat (split; [done|]). eapply Forall2_impl; [exact Hb5|]. intros p q [Hk Hv].
    split; (eapply same_mono; [eassumption|apply delete_subseteq]).
Qed.

Lemma reads_typed_all n : reads_typed n.
Proof.
  induction n as [|n IH]; [by intros v x|]. apply typed_values in IH.
  intros v x E Hv Hx. destruct v as [|b|z|z|s|z|l|ty id].
  - injection E as <-. exists 0, 0, []. split; [done|]. split; [lia|]. split; [lia|].
    intros rest rb σ' [|fuel] H Hf; [pose proof (len_nonneg ([] ++ rest)); lia|]. exists rb, VNil, σ'. done.
  - injection E as <-. exists 1, (of_bool b), []. split; [by destruct b|]. split; [lia|]. split; [destruct b; cbn; lia|].
    intros rest rb σ' [|fuel] H Hf; [pose proof (len_nonneg ([] ++ rest)); lia|]. exists rb, (VBool b), σ'.
    split; [by destruct b|done].
  - injection E as <-. destruct (get_integer_reads z Hv) as (c & y & -> & Hc & Hr).
    exists 2, c, y. split; [done|]. split; [lia|]. split; [lia|].
    intros rest rb σ' [|fuel] H Hf; [pose proof (len_nonneg (y ++ rest)); lia|].
    destruct (Hr rb rest H) as (rb' & E & Hr'). exists rb', (VInt z), σ'. cbn [push_value].
    unfold TYPE_NUMBER_REAL. destruct (Z.eqb_spec c 8); [lia|]. by rewrite E.
  - injection E as <-. exists 2, 8, (le_bytes 8 z). split; [done|]. split; [lia|]. split; [lia|].
    intros rest rb σ' [|fuel] H Hf; [pose proof (len_nonneg (le_bytes 8 z ++ rest)); lia|].
    destruct (reads_n 8 407 (le_bytes 8 z) of_le eq_refl rb rest H) as (rb' & E & Hr').
    exists rb', (VReal z), σ'. cbn [push_value]. change (8 =? TYPE_NUMBER_REAL) with true. unfold get_real.
    rewrite E, of_le_bytes. change (256 ^ Z.of_nat 8) with (2 ^ 64). by rewrite Z.mod_small by done.
  - injection E as <-.
    assert (len s ≤ INT_MAX) as Hs.
    { unfold enc_string in Hx. revert Hx. repeat case_match; rewrite ?len_cons, ?len_app, ?len_le; lia. }
    destruct (string_reads s Hs) as (t & c & y & -> & Hc & Hr). exists t, c, y. split; [done|].
    split; [lia|]. split; [done|].
    intros rest rb σ' [|fuel] H Hf; [pose proof (len_nonneg (y ++ rest)); lia|].
    destruct Hr as [[-> Hr]|[-> Hr]]; destruct (Hr rb rest H) as (rb' & E & Hr');
      exists rb', (VStr s), σ'; cbn [push_value]; by rewrite E.
  - injection E as <-. exists 3, 0, (le_bytes 8 z). split; [done|]. split; [lia|]. split; [lia|].
    intros rest rb σ' [|fuel] H Hf; [pose proof (len_nonneg (le_bytes 8 z ++ rest)); lia|].
    destruct (reads_n 8 417 (le_bytes 8 z) of_le eq_refl rb rest H) as (rb' & E & Hr').
    exists rb', (VPtr z), σ'. cbn [push_value]. unfold get_pointer.
    rewrite E, of_le_bytes. change (256 ^ Z.of_nat 8) with (2 ^ 64). by rewrite Z.mod_small by done.
  - destruct (table_reads n l x IH E Hx) as (c & y & -> & Hc & Hr).
    exists 6, c, y. split; [done|]. split; [lia|]. by split.
  - done.
Qed.

Lemma unpack_all_reads n : ∀ args x rb σ' fuel,
  stream_list (encode n σ) args = Some (x, None) → Forall value_ok args →
  rb_rest rb x → 4 * len x + 1 ≤ Z.of_nat fuel →
  ∃ vs σ'', unpack_all fuel rb σ' = Some (Return (vs, σ'')) ∧ σ' ⊆ σ'' ∧
    Forall2 (λ v v', same n σ v (σ'' ∖ σ') v') args vs.
Proof.
  induction args as [|v args IH]; intros x rb σ' fuel E Hok H Hf;
    (destruct fuel as [|fuel]; [pose proof (len_nonneg x); lia|]); cbn [unpack_all].
  - injection E as <-. rewrite (rb_read_short rb []) by done. by exists [], σ'.
  - cbn [stream_list] in E. apply stream_app_inv in E as (xv & xs & Ev & E & ->).
    inversion Hok as [|? ? Hv Hok']; subst.
    assert (len xv ≤ INT_MAX) as Hx.
    { destruct H as (pre & tail & _ & _ & _ & Hi). rewrite len_app in Hi.
      pose proof (len_nonneg pre). pose proof (len_nonneg xs). lia. }
    destruct (reads_typed_all n v xv Ev Hv Hx) as (t & c & y & -> & Ht & Hc & Hp).
    cbn [app] in H, Hf. rewrite len_cons in Hf. pose proof (len_nonneg (y ++ xs)).
    destruct (rb_read_app rb [t + 8 * c] (y ++ xs) H) as (rb1 & Er & Hr1 & Em).
    change (len [t + 8 * c]) with 1 in Er, Em. rewrite Er, Em.
    assert (of_le [t + 8 * c] = t + 8 * c) as -> by (cbn [of_le]; lia).
    destruct (type_byte t c) as [-> ->]; [lia|lia|].
    destruct (Hp xs rb1 σ' fuel Hr1) as (rb2 & v' & σ1 & -> & Hr2 & Hs1 & Hsame); [lia|].
    rewrite len_app in Hf. pose proof (len_nonneg y).
    destruct (IH xs rb2 σ1 fuel E Hok' Hr2) as (vs & σ2 & -> & Hs2 & HF); [lia|].
    exists (v' :: vs), σ2. split; [done|]. split; [by etrans|]. constructor.
    + eapply same_mono; [exact Hsame|]. by apply difference_mono_l.
    + eapply Forall2_impl; [exact HF|]. intros w w' Hw. eapply same_mono; [exact Hw|].
      by apply difference_mono_r.
Qed.

(** C14: [skynet.unpack] gives back what [skynet.pack] was given: integers,
    floats, booleans, strings and pointers as they were, and every table as a
    new table with the same fields, keys and values in turn, whatever the
    order in which [lua_next] visits them and wherever [lua_rawlen] puts the
    border.  The state of the receiver only gains tables. *)
Theorem luaseri_roundtrip args x σ' :
  encode_message σ args = Some (x, None) → len x ≤ INT_MAX → Forall value_ok args →
  luaseri_pack σ args = Some (Write [] None 0 0, Return (map Some x, len x)) ∧
  ∃ vs σ'', luaseri_unpack σ' (MPointer (Some x) (len x)) = Some (Return (vs, σ'')) ∧ σ' ⊆ σ'' ∧
    Forall2 (λ v v', same (Z.to_nat (MAX_DEPTH + 1)) σ v (σ'' ∖ σ') v') args vs.
Proof.
  intros E Hx Hok. split; [by apply (luaseri_pack_spec σ args x None)|].
  unfold luaseri_unpack. pose proof (len_nonneg x).
  rewrite s32_small by (unfold INT_MAX in Hx; lia). destruct (Z.eqb_spec (len x) 0) as [H0|H0].
  - destruct args as [|v args]; [by exists [], σ'|].
    apply stream_app_inv in E as (xv & xs & Ev & _ & ->). apply encode_pos in Ev.
    rewrite len_app in H0. pose proof (len_nonneg xs). lia.
  - apply (unpack_all_reads _ args x); [done|done| |unfold unpack_fuel; lia].
    pose proof (rb_rest_init x (len x)) as Hr. rewrite take_ge in Hr by (unfold len; lia). apply Hr; lia.
Qed.
End Roundtrip.

(** A state with a table that has an array part, a float key, a table as a key,
    and a table that contains itself. *)
Definition demo_plain : store :=
  <[1 := Table (list_to_map [(VInt 1, VInt 10); (VInt 2, VInt (-3)); (VReal 0x3FE0000000000000, VBool true);
                             (VTab 2, VStr [104; 105])]) None]>
  (<[2 := Table (list_to_map [(VInt 5, VInt 70000)]) None]> ∅).
Definition demo_store : store := <[3 := Table (list_to_map [(VInt 1, VTab 3)]) None]> demo_plain.

Lemma luaseri_pack_refines_witness :
  ∃ x, encode_message (LT := map_tables) demo_store [VTab 2; VTab 3; VNil] =
    Some (x, Some "serialize can't pack too depth table"%string) ∧ len x ≤ INT_MAX ∧
  luaseri_pack (LT := map_tables) demo_store [VTab 2; VTab 3; VNil] =
    Some (Write [] None 0 0, Error "serialize can't pack too depth table").
Proof.
  eexists. split; [vm_compute; reflexivity|]. split; [done|].
  eapply (luaseri_pack_refines (LT := map_tables) demo_store _ _ (Some _)); [vm_compute; reflexivity|done].
Defined.

Lemma table_ok_list l : Forall pair_ok l →
  lua_rawlen (LuaTables := map_tables) (list_to_map l) ≤ INT_MAX →
  table_ok (LT := map_tables) (Table (list_to_map l) None).
Proof.
  intros Hf Hr. split; [done| |done]. intros k v Hk%elem_of_list_to_map_2.
  rewrite Forall_forall in Hf. by destruct (Hf _ Hk) as (? & ? & ? & ?).
Qed.

Lemma demo_plain_ok : store_ok (LT := map_tables) demo_plain.
Proof.
  apply map_Forall_insert_2; [|apply map_Forall_insert_2; [|apply map_Forall_empty]];
    (apply table_ok_list; [|by vm_compute]);
    repeat (apply Forall_cons; split; [|]); try apply Forall_nil_2;
    (split; [split; [done|split; [by vm_compute|done]]|]);
    (split; [cbn; unfold INT64_MIN, INT64_MAX; lia || done|]);
    (split; [cbn; unfold INT64_MIN, INT64_MAX; lia || done|done]).
Qed.

Lemma luaseri_roundtrip_witness :
  ∃ x, encode_message (LT := map_tables) demo_plain [VInt 70000; VTab 1; VTab 2] = Some (x, None) ∧
  luaseri_pack (LT := map_tables) demo_plain [VInt 70000; VTab 1; VTab 2] =
    Some (Write [] None 0 0, Return (map Some x, len x)) ∧
  ∃ vs σ'', luaseri_unpack demo_store (MPointer (Some x) (len x)) = Some (Return (vs, σ'')) ∧
    demo_store ⊆ σ''.
Proof.
  eexists. split; [vm_compute; reflexivity|].
  edestruct (luaseri_roundtrip (LT := map_tables) _ demo_plain_ok [VInt 70000; VTab 1; VTab 2])
    with (σ' := demo_store) as [Hp (vs & σ2 & Hu & Hs & _)]; [vm_compute; reflexivity|done| |].
  - repeat constructor; unfold INT64_MIN, INT64_MAX; cbn; lia.
  - split; [exact Hp|]. exists vs, σ2. by split.
Defined.
