(* ===== verification/Sproto.v ===== *)
(** * Zero packing: lualib-src/sproto/sproto.c and lsproto.c

    [sproto_pack] and [sproto_unpack] squeeze the zero bytes out of a message:
    a segment of eight bytes is a byte of flags and the bytes that are not
    zero, a run of up to 256 segments with (almost) no zero is copied behind
    [0xff] and its length.  [lpack] and [lunpack] call them on Lua strings
    with the buffer the functions share as upvalues. *)

From stdpp Require Import pretty.
From S2P Require Import Prelude.

(** ** Packing *)

(** A pointer into the source, or to the copy [tmp] of its padded end. *)
Inductive src_ptr := Src (off : Z) | Tmp.

(** The loop of [pack_seg]: the buffer, its position and the size left, the
    number of bytes that are not zero and their flags. *)
Record seg_state := Seg { s_buf : block; s_buffer : Z; s_sz : Z; s_notzero : Z; s_header : Z }.

Definition pack_seg_step (src : list Z) (i : Z) (s : seg_state) : option seg_state :=
  x ← src.[i];
  if negb (x =? 0) then
    let header := u8 (s_header s |ᵤ (1 <<ᵤ i)) in
    if 0 <? s_sz s then
      buf ← (s_buf s).[s_buffer s <- Some x];
      Some (Seg buf (s_buffer s + 1) (s_sz s - 1) (s_notzero s + 1) header)
    else Some (Seg (s_buf s) (s_buffer s) (s_sz s) (s_notzero s + 1) header)
  else Some s.

Definition pack_seg (src : list Z) (buf : block) (buffer sz n : Z) : option (block * Z) :=
  let obuffer := if sz - 1 <? 0 then None else Some buffer in
  s ← for_range 0 8 (pack_seg_step src) (Seg buf (buffer + 1) (sz - 1) 0 0);
  let notzero := s_notzero s in
  let notzero := if ((notzero =? 7) || (notzero =? 6)) && (0 <? n) then 8 else notzero in
  if notzero =? 8 then
    if 0 <? n then Some (s_buf s, 8) else Some (s_buf s, 10)
  else
    buf ← match obuffer with Some o => (s_buf s).[o <- Some (s_header s)] | None => Some (s_buf s) end;
    Some (buf, notzero + 1).

(** [src + n * 8 <= src_end] compares pointers into the same source. *)
Definition write_ff (srcv : list Z) (src : src_ptr) (buf : block) (des n : Z) : option block :=
  match src with
  | Tmp => None
  | Src off =>
      buf ← buf.[des <- Some 0xff];
      buf ← buf.[des + 1 <- Some (u8 (n - 1))];
      if off + n * 8 <=? len srcv then
        x ← mem_read srcv off (n * 8); mem_write buf (des + 2) (map Some x)
      else
        let sz := len srcv - off in
        x ← mem_read srcv off sz;
        buf ← mem_write buf (des + 2) (map Some x);
        mem_write buf (des + 2 + sz) (replicate (Z.to_nat (n * 8 - sz)) (Some 0))
  end.

Record pack_state := Pack {
  k_buf : block; k_buffer : Z; k_bufsz : Z; k_src : src_ptr;
  k_ff_srcstart : src_ptr; k_ff_desstart : Z; k_ff_n : Z; k_size : Z
}.
#[export] Instance eta_pack_state : Eta pack_state := λ k,
  Pack (k_buf k) (k_buffer k) (k_bufsz k) (k_src k) (k_ff_srcstart k) (k_ff_desstart k) (k_ff_n k) (k_size k).

(** [if (bufsz >= 0) write_ff(ff_srcstart, src_end, ff_desstart, n)]. *)
Definition flush_ff (srcv : list Z) (n : Z) (k : pack_state) : option pack_state :=
  if 0 <=? k_bufsz k then
    buf ← write_ff srcv (k_ff_srcstart k) (k_buf k) (k_ff_desstart k) n;
    Some (k <| k_buf := buf |>)
  else Some k.

(** What the loop does after [pack_seg] returned [n]. *)
Definition pack_run (srcv : list Z) (src : src_ptr) (n : Z) (k : pack_state) : option pack_state :=
  if n =? 10 then
    Some (Pack (k_buf k) (k_buffer k) (k_bufsz k) (k_src k) src (k_buffer k) 1 (k_size k))
  else if (n =? 8) && (0 <? k_ff_n k) then
    let k := k <| k_ff_n := k_ff_n k + 1 |> in
    if k_ff_n k =? 256 then
      k ← flush_ff srcv 256 k; Some (k <| k_ff_n := 0 |>)
    else Some k
  else if 0 <? k_ff_n k then
    k ← flush_ff srcv (k_ff_n k) k; Some (k <| k_ff_n := 0 |>)
  else Some k.

(** [srcv] is the source, so [srcsz] its length; [size += n] may overflow. *)
Definition pack_step (srcv : list Z) (i : Z) (k : pack_state) : option pack_state :=
  let padding := i + 8 - len srcv in
  '(src, seg) ← (match k_src k with
    | Tmp => None
    | Src off =>
        if 0 <? padding then
          x ← mem_read srcv off (8 - padding);
          Some (Tmp, x ++ replicate (Z.to_nat padding) 0)
        else
          x ← mem_read srcv off 8; Some (Src off, x)
    end);
  '(buf, n) ← pack_seg seg (k_buf k) (k_buffer k) (k_bufsz k) (k_ff_n k);
  let k := k <| k_buf := buf |> in
  let k := k <| k_bufsz := k_bufsz k - n |> in
  k ← pack_run srcv src n k;
  size ← int_add (k_size k) n;
  let next := match src with Src off => Src (off + 8) | Tmp => Tmp end in
  Some (Pack (k_buf k) (k_buffer k + n) (k_bufsz k) next (k_ff_srcstart k) (k_ff_desstart k) (k_ff_n k) size).

Definition sproto_pack (srcv : list Z) (bufferv : block) (bufsz : Z) : option (block * Z) :=
  k ← for_step 0 (len srcv) 8 (pack_step srcv) (Pack bufferv 0 bufsz (Src 0) Tmp 0 0 0);
  k ← (if (0 <=? k_bufsz k) && (0 <? k_ff_n k) then
         buf ← write_ff srcv (k_ff_srcstart k) (k_buf k) (k_ff_desstart k) (k_ff_n k);
         Some (k <| k_buf := buf |>)
       else Some k);
  Some (k_buf k, k_size k).

(** ** Unpacking *)

Record unpack_state := Unpack { u_buf : block; u_buffer : Z; u_bufsz : Z; u_src : Z; u_srcsz : Z; u_size : Z }.

(** The state, and whether the loop goes on: [false] is [return -1]. *)
Definition unpack_res : Type := option (unpack_state * bool).

(** [if (bufsz > 0) { *buffer = x; --bufsz; ++buffer; }]. *)
Definition put (x : Z) (u : unpack_state) : option unpack_state :=
  if 0 <? u_bufsz u then
    buf ← (u_buf u).[u_buffer u <- Some x];
    Some (Unpack buf (u_buffer u + 1) (u_bufsz u - 1) (u_src u) (u_srcsz u) (u_size u))
  else Some u.

(** One bit of the header. *)
Definition unpack_bit (srcv : list Z) (header i : Z) (u : unpack_state) : unpack_res :=
  let nz := Z.land (Z.shiftr header i) 1 in
  if truth nz then
    if u_srcsz u <=? 0 then Some (u, false)
    else
      x ← srcv.[u_src u];
      u ← put x u;
      size ← int_add (u_size u) 1;
      Some (Unpack (u_buf u) (u_buffer u) (u_bufsz u) (u_src u + 1) (u_srcsz u - 1) size, true)
  else
    u ← put 0 u;
    size ← int_add (u_size u) 1;
    Some (Unpack (u_buf u) (u_buffer u) (u_bufsz u) (u_src u) (u_srcsz u) size, true).

Fixpoint unpack_bits (srcv : list Z) (header : Z) (bits : list Z) (u : unpack_state) : unpack_res :=
  match bits with
  | [] => Some (u, true)
  | i :: bits =>
      '(u, ok) ← unpack_bit srcv header i u;
      if ok : bool then unpack_bits srcv header bits u else Some (u, false)
  end.

Definition unpack_ff (srcv : list Z) (u : unpack_state) : unpack_res :=
  if u_srcsz u <=? 0 then Some (u, false)
  else
    x ← srcv.[u_src u];
    let n := (x + 1) * 8 in
    if u_srcsz u <? n + 1 then Some (u, false)
    else
      let src := u_src u + 1 in
      buf ← (if n <=? u_bufsz u then
               d ← mem_read srcv src n; mem_write (u_buf u) (u_buffer u) (map Some d)
             else Some (u_buf u));
      size ← int_add (u_size u) n;
      Some (Unpack buf (u_buffer u + n) (u_bufsz u - n) (src + n) (u_srcsz u - (n + 1)) size, true).

Fixpoint unpack_loop (fuel : nat) (srcv : list Z) (u : unpack_state) : unpack_res :=
  match fuel with
  | O => None
  | S fuel =>
      if 0 <? u_srcsz u then
        header ← srcv.[u_src u];
        let u := Unpack (u_buf u) (u_buffer u) (u_bufsz u) (u_src u + 1) (u_srcsz u - 1) (u_size u) in
        '(u, ok) ← (if header =? 0xff then unpack_ff srcv u
                    else unpack_bits srcv header [0; 1; 2; 3; 4; 5; 6; 7] u);
        if ok : bool then unpack_loop fuel srcv u else Some (u, false)
      else Some (u, true)
  end.

(** The buffer and the size of the data, or -1. *)
Definition sproto_unpack (srcv : list Z) (bufferv : block) (bufsz : Z) : option (block * Z) :=
  '(u, ok) ← unpack_loop (S (length srcv)) srcv (Unpack bufferv 0 bufsz 0 (len srcv) 0);
  Some (u_buf u, if ok : bool then u_size u else -1).

(** ** The functions of Lua *)

Definition ENCODE_BUFFERSIZE : Z := 2050.
Definition ENCODE_MAXSIZE : Z := 0x1000000.

(** The two upvalues: the buffer and its size. *)
Record upvalues := Up { up_output : block; up_osz : Z }.

(** [pushfunction_withbuffer]. *)
Definition fresh_upvalues : upvalues := Up (malloc ENCODE_BUFFERSIZE) ENCODE_BUFFERSIZE.

(** [do { osz *= 2; } while (osz < nsz)]. *)
Fixpoint expand_loop (fuel : nat) (osz nsz : Z) : option Z :=
  match fuel with
  | O => None
  | S fuel => osz ← int_mul osz 2; if osz <? nsz then expand_loop fuel osz nsz else Some osz
  end.

Definition expand_buffer (osz nsz : Z) : option (result upvalues) :=
  osz ← expand_loop 32 osz nsz;
  if ENCODE_MAXSIZE <? osz then
    Some (Error ("object is too large (>" +:+ pretty ENCODE_MAXSIZE +:+ ")")%string)
  else Some (Return (Up (malloc osz) osz)).

(** The string a buffer holds, as [lua_pushlstring] copies it. *)
Definition pushlstring (output : block) (n : Z) : option (list Z) :=
  x ← mem_read output 0 n; mapM id x.

(** The worst case the comment of [lpack] gives. *)
Definition pack_maxsz (sz : Z) : Z := (sz + 2047) / 2048 * 2 + sz + 2.

Definition lpack (up : upvalues) (buffer : list Z) : option (result (list Z * upvalues)) :=
  let maxsz := pack_maxsz (len buffer) in
  up ⇐ (if up_osz up <? maxsz then expand_buffer (up_osz up) maxsz else Some (Return up));
  '(output, n) ← sproto_pack buffer (up_output up) maxsz;
  if maxsz <? n then Some (Error ("packing error, return size = " +:+ pretty n)%string)
  else
    x ← pushlstring output n;
    Some (Return (x, Up output (up_osz up))).

Definition lunpack (up : upvalues) (buffer : list Z) : option (result (list Z * upvalues)) :=
  '(output, r) ← sproto_unpack buffer (up_output up) (up_osz up);
  if r <? 0 then Some (Error "Invalid unpack stream")
  else if up_osz up <? r then
    up ⇐ expand_buffer (up_osz up) r;
    '(output, r) ← sproto_unpack buffer (up_output up) r;
    if r <? 0 then Some (Error "Invalid unpack stream")
    else x ← pushlstring output r; Some (Return (x, Up output (up_osz up)))
  else x ← pushlstring output r; Some (Return (x, Up output (up_osz up))).

(** ** The format *)

(** A stream is a list of segments and of runs of segments. *)
Inductive token := TSeg (s : list Z) | TRun (l : list Z).

Fixpoint flags (s : list Z) : Z :=
  match s with [] => 0 | x :: s => (if x =? 0 then 0 else 1) + 2 * flags s end.
Definition nonzeros (s : list Z) : list Z := List.filter (λ x, negb (x =? 0)) s.

Definition token_data (t : token) : list Z := match t with TSeg s => s | TRun l => l end.
Definition token_bytes (t : token) : list Z :=
  match t with
  | TSeg s => flags s :: nonzeros s
  | TRun l => 0xff :: len l / 8 - 1 :: l
  end.
Definition token_ok (t : token) : Prop :=
  bytes (token_data t) ∧
  match t with
  | TSeg s => len s = 8 ∧ len (nonzeros s) < 8
  | TRun l => ∃ n, 1 ≤ n ≤ 256 ∧ len l = 8 * n
  end.

Definition stream_data (ts : list token) : list Z := concat (map token_data ts).
Definition stream_bytes (ts : list token) : list Z := concat (map token_bytes ts).

Lemma stream_data_app a b : stream_data (a ++ b) = stream_data a ++ stream_data b.
Proof. unfold stream_data. by rewrite map_app, concat_app. Qed.
Lemma stream_bytes_app a b : stream_bytes (a ++ b) = stream_bytes a ++ stream_bytes b.
Proof. unfold stream_bytes. by rewrite map_app, concat_app. Qed.

Lemma nonzeros_app a b : nonzeros (a ++ b) = nonzeros a ++ nonzeros b.
Proof. apply List.filter_app. Qed.
Lemma nonzeros_len s : 0 ≤ len (nonzeros s) ≤ len s.
Proof.
  unfold nonzeros. induction s as [|x s IH]; [done|]. cbn [List.filter].
  destruct (x =? 0); cbn [negb]; rewrite ?len_cons; lia.
Qed.

Lemma nonzeros_zeros n : nonzeros (replicate n 0) = [].
Proof. induction n as [|n IH]; [done|exact IH]. Qed.

Lemma flags_range s : 0 ≤ flags s < 2 ^ len s.
Proof.
  induction s as [|x s IH]; [done|]. cbn [flags]. rewrite len_cons, Z.pow_add_r by (pose proof (len_nonneg s); lia).
  destruct (x =? 0); lia.
Qed.
Lemma flags_app a b : flags (a ++ b) = flags a + 2 ^ len a * flags b.
Proof.
  induction a as [|x a IH]; cbn [flags app]; [change (len (@nil Z)) with 0; lia|].
  rewrite IH, len_cons, Z.pow_add_r by (pose proof (len_nonneg a); lia). lia.
Qed.

(** All the flags are set only when no byte is zero. *)
Lemma flags_full s : flags s = 2 ^ len s - 1 ↔ len (nonzeros s) = len s.
Proof.
  induction s as [|x s IH]; [done|]. pose proof (flags_range s). pose proof (nonzeros_len s).
  cbn [flags nonzeros List.filter]. fold (nonzeros s). rewrite len_cons, Z.pow_add_r by lia.
  destruct (x =? 0); cbn [negb]; rewrite ?len_cons; lia.
Qed.

(** ** A segment *)

(** [filled] is pointwise. *)
Lemma filled_get n buf out : len buf = n → len out ≤ n →
  (∀ k y, out.[k] = Some y → buf.[k] = Some (Some y)) → filled n buf out.
Proof.
  intros Hb Ho H. split; [done|]. exists (drop (length out) buf).
  rewrite <- (take_drop (length out) buf) at 1. f_equal. apply list_eq. intros i.
  destruct (decide (i < length out)%nat) as [Hi|Hi].
  - rewrite lookup_take_lt by done. rewrite list_lookup_fmap.
    destruct (lookup_lt_is_Some_2 out i Hi) as [y Ey]. rewrite Ey. cbn.
    specialize (H (Z.of_nat i) y). rewrite !arr_get_of_nat in H. by apply H.
  - rewrite lookup_take_ge by lia. rewrite list_lookup_fmap, (lookup_ge_None_2 out) by lia. done.
Qed.

Lemma filled_arr n buf out k y : filled n buf out → out.[k] = Some y → buf.[k] = Some (Some y).
Proof.
  intros [_ [rest ->]] Hk. pose proof (arr_get_Some _ _ _ Hk). rewrite arr_get_nonneg in Hk by lia. rewrite arr_get_nonneg by lia.
  rewrite lookup_app_l by (rewrite length_map; by eapply lookup_lt_Some).
  rewrite list_lookup_fmap, Hk. done.
Qed.

(** What is in front of [b] stays. *)
Definition agree (b : Z) (buf buf' : block) : Prop :=
  len buf' = len buf ∧ ∀ j, j < b → buf'.[j] = buf.[j].

Lemma agree_set b buf buf' buf2 i x : agree b buf buf' → b ≤ i → buf'.[i <- x] = Some buf2 → agree b buf buf2.
Proof.
  intros [Hl Ha] Hi E. split; [by rewrite (arr_set_len _ _ _ _ E)|].
  intros j Hj. rewrite <- Ha by done. eapply arr_get_set_ne; [done|lia].
Qed.

Lemma filled_agree n b buf buf' out : filled n buf out → agree b buf buf' → len out ≤ b → filled n buf' out.
Proof.
  intros Hf [Hl Ha] Ho. apply filled_get.
  - rewrite Hl. apply Hf.
  - by eapply filled_len.
  - intros k y Hk. pose proof (arr_get_Some _ _ _ Hk). rewrite Ha by lia. by eapply filled_arr.
Qed.

(** The loop of [pack_seg] after the bytes [s] of the segment. *)
Record seg_inv (buf : block) (b sz : Z) (s : list Z) (st : seg_state) : Prop := {
  si_notzero : s_notzero st = len (nonzeros s);
  si_header : s_header st = flags s;
  si_agree : agree (b + 1) buf (s_buf st);
  si_room : len (nonzeros s) ≤ sz - 1 ∧ s_sz st = sz - 1 - len (nonzeros s) ∧
      s_buffer st = b + 1 + len (nonzeros s) ∧
      (∀ k y, (nonzeros s).[k] = Some y → (s_buf st).[b + 1 + k] = Some (Some y))
    ∨ sz - 1 < len (nonzeros s) ∧ s_sz st ≤ 0
}.

Lemma arr_get_snoc {A} (l : list A) x k y : (l ++ [x]).[k] = Some y →
  l.[k] = Some y ∨ k = len l ∧ y = x.
Proof.
  intros H. pose proof (arr_get_Some _ _ _ H) as Hk. rewrite arr_get_nonneg in H by lia.
  apply lookup_app_Some in H as [H|[Hge H]].
  - left. by rewrite arr_get_nonneg by lia.
  - right. rewrite len_app in Hk. change (len [x]) with 1 in Hk. unfold len in *.
    replace (Z.to_nat k - length l)%nat with 0%nat in H by lia. injection H as <-. split; [lia|done].
Qed.

Lemma pack_seg_step_inv buf b sz s x src i st : seg_inv buf b sz s st → i = len s → i < 8 → 0 ≤ b →
  b + sz ≤ len buf → src.[i] = Some x →
  ∃ st', pack_seg_step src i st = Some st' ∧ seg_inv buf b sz (s ++ [x]) st'.
Proof.
  intros [Hn Hh Ha Hr] -> Hi Hb Hsz Hx. unfold pack_seg_step. rewrite Hx.
  destruct (Z.eqb_spec x 0) as [->|Hx0]; cbn [negb].
  { exists st. split; [done|]. split; [|rewrite flags_app; cbn [flags]; rewrite Z.eqb_refl; lia|done|];
      rewrite nonzeros_app; change (nonzeros [0]) with (@nil Z); by rewrite app_nil_r. }
  assert (nonzeros (s ++ [x]) = nonzeros s ++ [x]) as Enz.
  { rewrite nonzeros_app. cbn [nonzeros List.filter]. by destruct (Z.eqb_spec x 0). }
  assert (len (nonzeros s ++ [x]) = len (nonzeros s) + 1) as Elen by (by rewrite len_app).
  pose proof (flags_range s). pose proof (len_nonneg s).
  assert (u8 (s_header st |ᵤ (1 <<ᵤ len s)) = flags (s ++ [x])) as ->.
  { rewrite Hh, flags_app. cbn [flags]. destruct (Z.eqb_spec x 0); [done|].
    assert (0 < 2 ^ len s ≤ 2 ^ 7) as Hp by (split; [lia|apply Z.pow_le_mono_r; lia]).
    rewrite Z.shiftl_mul_pow2, u32_small, lor_high, u8_small by lia. lia. }
  destruct Hr as [(H1 & H2 & H3 & H4)|[H1 H2]].
  - destruct (Z.ltb_spec 0 (s_sz st)).
    + destruct (arr_set (s_buf st) (s_buffer st) (Some x)) as [buf2|] eqn:E; cycle 1.
      { rewrite arr_set_Some in E; [done|]. destruct Ha as [-> _]. pose proof (len_nonneg (nonzeros s)). lia. }
      eexists. split; [reflexivity|]. rewrite <- Enz in Elen.
      split; cbn [s_notzero s_header s_buf s_sz s_buffer]; [lia|done|eapply agree_set; [exact Ha| |exact E]; pose proof (len_nonneg (nonzeros s)); lia|].
      left. split; [lia|]. split; [lia|]. split; [lia|]. rewrite Enz.
      intros k y [Hk|[-> ->]]%arr_get_snoc.
      * pose proof (arr_get_Some _ _ _ Hk). erewrite arr_get_set_ne; [by apply H4|exact E|lia].
      * rewrite H3 in E. by eapply arr_get_set_eq.
    + eexists. split; [reflexivity|]. split; cbn [s_notzero s_header s_buf s_sz s_buffer];
        [rewrite Enz; lia|done|done|]. right. rewrite Enz. split; lia.
  - destruct (Z.ltb_spec 0 (s_sz st)); [lia|].
    eexists. split; [reflexivity|]. split; cbn [s_notzero s_header s_buf s_sz s_buffer];
      [rewrite Enz; lia|done|done|]. right. rewrite Enz. split; lia.
Qed.

(** What [pack_seg] returns. *)
Definition seg_size (s : list Z) (n : Z) : Z :=
  let nz := len (nonzeros s) in
  if 0 <? n then (if 6 <=? nz then 8 else nz + 1) else (if nz =? 8 then 10 else nz + 1).

Lemma take_S_snoc {A} (l : list A) (i : Z) x : l.[i] = Some x →
  take (Z.to_nat (i + 1)) l = take (Z.to_nat i) l ++ [x].
Proof.
  intros H. pose proof (arr_get_Some _ _ _ H). rewrite arr_get_nonneg in H by lia.
  replace (Z.to_nat (i + 1)) with (S (Z.to_nat i)) by lia. by apply take_S_r.
Qed.

Lemma pack_seg_spec s buf b sz n : len s = 8 → 0 ≤ b → b + sz ≤ len buf → 0 ≤ n →
  ∃ buf', pack_seg s buf b sz n = Some (buf', seg_size s n) ∧ agree b buf buf' ∧
    (seg_size s n ≤ sz → (if 0 <? n then len (nonzeros s) < 6 else len (nonzeros s) < 8) →
     ∀ k y, (flags s :: nonzeros s).[k] = Some y → buf'.[b + k] = Some (Some y)).
Proof.
  intros Hs Hb Hsz Hn. unfold pack_seg.
  destruct (for_range_inv (λ i st, seg_inv buf b sz (take (Z.to_nat i) s) st) 0 8 (pack_seg_step s)
    (Seg buf (b + 1) (sz - 1) 0 0)) as (st & -> & [H1 H2 H3 H4]); [lia| | |].
  - change (take (Z.to_nat 0) s) with (@nil Z). split; [done|done|done|].
    cbn [s_sz s_buffer nonzeros List.filter].
    change (len (@nil Z)) with 0. destruct (Z.le_gt_cases 0 (sz - 1)); [left|right; lia].
    split; [done|]. split; [lia|]. split; [lia|]. intros k y Hk. apply arr_get_Some in Hk.
    change (0 ≤ k < 0) in Hk. lia.
  - intros i st Hi Hinv. destruct (arr_get_is_Some s i) as [x Hx]; [lia|].
    destruct (pack_seg_step_inv buf b sz _ x s i st Hinv) as (st' & E & Hst'); [|lia|lia|lia|done|].
    { unfold len in *. rewrite length_take. lia. }
    exists st'. split; [done|]. by rewrite (take_S_snoc s i x).
  - rewrite take_ge in H1, H2, H4 by (unfold len in Hs; lia).
    pose proof (nonzeros_len s). set (nz := len (nonzeros s)) in *. cbv zeta. rewrite H1.
    unfold seg_size. fold nz.
    assert (agree b buf (s_buf st)) as Hag.
    { destruct H3 as [Hl Ha]. split; [done|]. intros j Hj. apply Ha. lia. }
    assert (∃ buf', match (if sz - 1 <? 0 then None else Some b) with
        | Some o => (s_buf st).[o <- Some (s_header st)] | None => Some (s_buf st) end = Some buf' ∧
      agree b buf buf' ∧
      (nz + 1 ≤ sz → ∀ k y, (flags s :: nonzeros s).[k] = Some y → buf'.[b + k] = Some (Some y)))
      as (buf' & Eb & Hag' & Hat).
    { rewrite H2. destruct (Z.ltb_spec (sz - 1) 0).
      - exists (s_buf st). split; [done|]. split; [done|]. lia.
      - destruct (arr_set (s_buf st) b (Some (flags s))) as [buf'|] eqn:E; cycle 1.
        { rewrite arr_set_Some in E; [done|]. destruct Hag as [-> _]. lia. }
        exists buf'. split; [done|]. split; [eapply agree_set; [exact Hag| |exact E]; lia|]. intros Hroom k y Hk.
        destruct H4 as [(_ & _ & _ & H4)|[H4 _]]; [|fold nz in H4; lia].
        pose proof (arr_get_Some _ _ _ Hk). destruct (decide (k = 0)) as [->|Hk0].
        + injection Hk as <-. rewrite Z.add_0_r. by eapply arr_get_set_eq.
        + erewrite arr_get_set_ne; [|exact E|lia]. replace (b + k) with (b + 1 + (k - 1)) by lia.
          apply H4. rewrite arr_get_nonneg in Hk |- * by lia.
          by replace (Z.to_nat k) with (S (Z.to_nat (k - 1))) in Hk by lia. }
    destruct (Z.ltb_spec 0 n) as [Hn0|Hn0]; rewrite ?andb_true_r, ?andb_false_r.
    + destruct (Z.leb_spec 6 nz).
      { replace (if (nz =? 7) || (nz =? 6) then 8 else nz) with 8
          by (destruct (Z.eqb_spec nz 7), (Z.eqb_spec nz 6); cbn; lia).
        eexists. split; [reflexivity|]. split; [done|]. lia. }
      replace ((nz =? 7) || (nz =? 6)) with false by (destruct (Z.eqb_spec nz 7), (Z.eqb_spec nz 6); cbn; lia || done).
      destruct (Z.eqb_spec nz 8); [lia|]. rewrite Eb. exists buf'. split; [done|]. split; [done|]. intros ? _. by apply Hat.
    + destruct (Z.eqb_spec nz 8).
      { eexists. split; [reflexivity|]. split; [done|]. lia. }
      rewrite Eb. exists buf'. split; [done|]. split; [done|]. intros ? _. by apply Hat.
Qed.

(** ** A run *)

(** The source with zeros up to a whole segment. *)
Definition pad8 (src : list Z) : list Z := src ++ replicate (Z.to_nat ((- len src) mod 8)) 0.
Definition segments (src : list Z) : Z := len (pad8 src) / 8.

Lemma pad8_len src : len (pad8 src) = len src + (- len src) mod 8.
Proof.
  unfold pad8. rewrite len_app, len_replicate; [done|apply Z.mod_pos_bound; lia].
Qed.
Lemma segments_eq src : len (pad8 src) = 8 * segments src ∧ 8 * segments src - 8 < len src ≤ 8 * segments src.
Proof.
  unfold segments. rewrite pad8_len. pose proof (Z.div_mod (- len src) 8).
  pose proof (Z.mod_pos_bound (- len src) 8).
  replace (len src + (- len src) mod 8) with ((- (- len src / 8)) * 8) by lia.
  rewrite Z.div_mul by lia. lia.
Qed.
Lemma pad8_bytes src : bytes src → bytes (pad8 src).
Proof. intros H. apply Forall_app. split; [done|apply Forall_replicate; lia]. Qed.

Lemma mem_write_other {A} (l l' x : list A) off j : mem_write l off x = Some l' →
  j < off ∨ off + len x ≤ j → l'.[j] = l.[j].
Proof.
  unfold mem_write. destruct (_ && _) eqn:E; [|done]. intros [= <-] Hj.
  apply andb_prop in E as [E1%Z.leb_le E2%Z.leb_le]. unfold arr_get. destruct (Z.leb_spec 0 j); [|done].
  unfold len in *. destruct Hj as [Hj|Hj].
  - rewrite lookup_app_l by (rewrite length_take; lia). by rewrite lookup_take_lt by lia.
  - rewrite lookup_app_r, lookup_app_r by (rewrite length_take; lia). rewrite lookup_drop. f_equal.
    rewrite length_take. lia.
Qed.

Lemma filled_extend n buf out x : filled n buf out → len out + len x ≤ n →
  (∀ k y, x.[k] = Some y → buf.[len out + k] = Some (Some y)) → filled n buf (out ++ x).
Proof.
  intros Hf Hn Hx. apply filled_get; [apply Hf|by rewrite len_app|]. intros k y Hk.
  pose proof (arr_get_Some _ _ _ Hk) as Hr. rewrite len_app in Hr. rewrite arr_get_nonneg in Hk by lia.
  apply lookup_app_Some in Hk as [Hk|[Hge Hk]].
  - eapply filled_arr; [exact Hf|]. by rewrite arr_get_nonneg by lia.
  - specialize (Hx (k - len out) y). replace (len out + (k - len out)) with k in Hx by lia.
    apply Hx. unfold len in *. rewrite arr_get_nonneg by lia.
    by replace (Z.to_nat (k - Z.of_nat (length out))) with (Z.to_nat k - length out)%nat by lia.
Qed.

(** The bytes [write_ff] copies. *)
Lemma run_source src off n : 0 ≤ off ≤ len src → 0 ≤ n → off + n ≤ len (pad8 src) →
  let run := take (Z.to_nat n) (drop (Z.to_nat off) (pad8 src)) in
  (off + n ≤ len src → mem_read src off n = Some run) ∧
  (len src < off + n → ∃ x, mem_read src off (len src - off) = Some x ∧
     run = x ++ replicate (Z.to_nat (n - (len src - off))) 0 ∧ len x = len src - off).
Proof.
  intros Ho Hn Hl run. unfold run. rewrite pad8_len in Hl. unfold pad8, len in *. split; intros Hc.
  - unfold mem_read, len. destruct (Z.leb_spec 0 off), (Z.leb_spec 0 n), (Z.leb_spec (off + n) (Z.of_nat (length src)));
      try lia. cbn. by rewrite drop_app_le, take_app_le by (rewrite ?length_drop; lia).
  - exists (drop (Z.to_nat off) src). unfold mem_read, len.
    destruct (Z.leb_spec 0 off), (Z.leb_spec 0 (Z.of_nat (length src) - off)),
      (Z.leb_spec (off + (Z.of_nat (length src) - off)) (Z.of_nat (length src))); try lia. cbn.
    split; [f_equal; apply take_ge; rewrite length_drop; lia|]. split; [|rewrite length_drop; lia].
    rewrite drop_app_le by lia. rewrite take_app_ge by (rewrite length_drop; lia). f_equal.
    rewrite take_replicate. f_equal. rewrite length_drop. lia.
Qed.

Lemma write_ff_spec src L buf ob off n run : filled L buf ob → 1 ≤ n ≤ 256 →
  len ob + 2 + 8 * n ≤ L → 0 ≤ off ≤ len src → off + 8 * n ≤ len (pad8 src) →
  run = take (Z.to_nat (8 * n)) (drop (Z.to_nat off) (pad8 src)) →
  ∃ buf', write_ff src (Src off) buf (len ob) n = Some buf' ∧
    filled L buf' (ob ++ token_bytes (TRun run)) ∧
    (∀ j, len ob + 2 + 8 * n ≤ j → buf'.[j] = buf.[j]).
Proof.
  intros Hf Hn Hl Ho Hp ->. pose proof (len_nonneg ob). unfold write_ff.
  destruct (run_source src off (8 * n)) as [Hin Hout]; [lia|lia|lia|].
  set (run := take _ _) in *.
  assert (len run = 8 * n) as Hr by (unfold run, len in *; rewrite length_take, length_drop; lia).
  destruct (filled_set L buf ob 0xff (len ob)) as (b1 & E1 & Hf1); [done|done|lia|]. rewrite E1.
  destruct (filled_set L b1 (ob ++ [0xff]) (u8 (n - 1)) (len ob + 1)) as (b2 & E2 & Hf2);
    [done|by rewrite len_app|lia|]. rewrite E2.
  assert (u8 (n - 1) = len run / 8 - 1) as En.
  { rewrite Hr, Z.mul_comm, Z.div_mul, u8_small by lia. done. }
  assert ((ob ++ [0xff]) ++ [u8 (n - 1)] = ob ++ [0xff; len run / 8 - 1]) as Eo by (by rewrite <- app_assoc, En).
  rewrite Eo in Hf2. assert (len (ob ++ [0xff; len run / 8 - 1]) = len ob + 2) as Hob by (by rewrite len_app).
  assert (∀ j, len ob + 2 + 8 * n ≤ j → b2.[j] = buf.[j]) as Hkeep.
  { intros j Hj. rewrite (arr_get_set_ne _ _ _ j _ E2), (arr_get_set_ne _ _ _ j _ E1) by lia. done. }
  assert (token_bytes (TRun run) = [0xff; len run / 8 - 1] ++ run) as Et by done.
  rewrite (Z.mul_comm n 8). destruct (Z.leb_spec (off + 8 * n) (len src)) as [Hc|Hc].
  - rewrite Hin by done. destruct (filled_write L b2 _ run (len ob + 2) Hf2) as (b3 & E3 & Hf3); [by rewrite Hob|lia|].
    rewrite E3.
    exists b3. split; [done|]. split; [by rewrite Et, app_assoc|].
    intros j Hj. rewrite <- Hkeep by done. eapply mem_write_other; [exact E3|]. rewrite len_map. lia.
  - destruct (Hout Hc) as (x & -> & Erun & Hx).
    assert (len (replicate (Z.to_nat (8 * n - (len src - off))) 0) = 8 * n - (len src - off)) as Hz
      by (apply len_replicate; lia).
    destruct (filled_write L b2 _ x (len ob + 2) Hf2) as (b3 & E3 & Hf3); [by rewrite Hob|lia|]. rewrite E3.
    destruct (filled_write L b3 _ (replicate (Z.to_nat (8 * n - (len src - off))) 0) (len ob + 2 + (len src - off)) Hf3)
      as (b4 & E4 & Hf4); [rewrite len_app; lia|rewrite len_app; lia|].
    assert (map Some (replicate (Z.to_nat (8 * n - (len src - off))) 0) =
      replicate (Z.to_nat (8 * n - (len src - off))) (Some 0)) as Em by apply fmap_replicate.
    rewrite <- Em, E4. exists b4. split; [done|].
    split; [by rewrite <- (app_assoc _ x), <- Erun, <- app_assoc in Hf4|].
    intros j Hj. rewrite <- Hkeep by done.
    rewrite (mem_write_other _ _ _ _ j E4) by (rewrite len_map; lia).
    eapply mem_write_other; [exact E3|]. rewrite len_map. lia.
Qed.

(** ** The whole source *)

(** After [j] segments: the tokens written, and the segments [pend] of the run
    that is still open; [q] runs were full. *)
Record pack_inv (src : list Z) (L B j : Z) (ts : list token) (pend : list Z) (q : Z) (k : pack_state) : Prop := {
  pi_ok : Forall token_ok ts;
  pi_data : take (Z.to_nat (8 * j)) (pad8 src) = stream_data ts ++ pend;
  pi_pend : len pend = 8 * k_ff_n k ∧ 0 ≤ k_ff_n k < 256;
  pi_size : k_size k = len (stream_bytes ts) + (if 0 <? k_ff_n k then 2 + 8 * k_ff_n k else 0);
  pi_pos : k_buffer k = k_size k ∧ k_bufsz k = B - k_size k;
  pi_len : len (k_buf k) = L;
  pi_buf : len (stream_bytes ts) ≤ B → filled L (k_buf k) (stream_bytes ts);
  pi_ff : 0 < k_ff_n k → k_ff_srcstart k = Src (len (stream_data ts)) ∧ k_ff_desstart k = len (stream_bytes ts);
  pi_src : j < segments src → k_src k = Src (8 * j);
  pi_bound : k_size k ≤ 8 * j + 2 * q + (if 0 <? k_ff_n k then 2 else 0) ∧ 0 ≤ q ∧ 256 * q + k_ff_n k ≤ j
}.

(** The bytes of segment [j], and where the code reads them. *)
Definition segment (src : list Z) (j : Z) : list Z :=
  take 8 (drop (Z.to_nat (8 * j)) (pad8 src)).

Lemma segment_len src j : 0 ≤ j < segments src → len (segment src j) = 8.
Proof.
  intros Hj. destruct (segments_eq src) as [Hl _]. unfold segment, len in *.
  rewrite length_take, length_drop. lia.
Qed.

Lemma segment_take src j : 0 ≤ j < segments src →
  take (Z.to_nat (8 * (j + 1))) (pad8 src) = take (Z.to_nat (8 * j)) (pad8 src) ++ segment src j.
Proof.
  intros Hj. unfold segment. replace (Z.to_nat (8 * (j + 1))) with (Z.to_nat (8 * j) + 8)%nat by lia.
  by rewrite take_take_drop.
Qed.

Lemma segment_read src j k : 0 ≤ j < segments src → k_src k = Src (8 * j) →
  (match k_src k with
   | Tmp => None
   | Src off =>
       if 0 <? 0 + j * 8 + 8 - len src then
         x ← mem_read src off (8 - (0 + j * 8 + 8 - len src));
         Some (Tmp, x ++ replicate (Z.to_nat (0 + j * 8 + 8 - len src)) 0)
       else x ← mem_read src off 8; Some (Src off, x)
   end) = Some (if 0 <? 8 * j + 8 - len src then Tmp else Src (8 * j), segment src j).
Proof.
  intros Hj ->. destruct (segments_eq src) as (Hl & H1 & H2).
  destruct (run_source src (8 * j) 8) as [Hin Hout]; [lia|lia|lia|].
  change (take (Z.to_nat 8) (drop (Z.to_nat (8 * j)) (pad8 src))) with (segment src j) in *.
  replace (0 + j * 8 + 8 - len src) with (8 * j + 8 - len src) by lia.
  destruct (Z.ltb_spec 0 (8 * j + 8 - len src)).
  - destruct Hout as (x & Ex & Er & Hx); [lia|].
    replace (8 - (8 * j + 8 - len src)) with (len src - 8 * j) by lia. rewrite Ex, Er.
    do 4 f_equal. lia.
  - by rewrite Hin by lia.
Qed.

(** A padded segment has a zero. *)
Lemma segment_padded src j : 0 ≤ j < segments src → 0 < 8 * j + 8 - len src →
  len (nonzeros (segment src j)) ≤ 8 - (8 * j + 8 - len src).
Proof.
  intros Hj Hp. destruct (segments_eq src) as (Hl & H1 & H2).
  destruct (run_source src (8 * j) 8) as [_ Hout]; [lia|lia|lia|].
  destruct Hout as (x & Ex & Er & Hx); [lia|]. change (segment src j = x ++ replicate (Z.to_nat (8 - (len src - 8 * j))) 0) in Er.
  rewrite Er, nonzeros_app, len_app.
  rewrite nonzeros_zeros.
  change (len (@nil Z)) with 0. pose proof (nonzeros_len x). lia.
Qed.

Lemma len_stream_app ts t : len (stream_bytes (ts ++ [t])) = len (stream_bytes ts) + len (token_bytes t).
Proof.
  rewrite stream_bytes_app, len_app. f_equal. unfold stream_bytes. cbn [map concat]. by rewrite app_nil_r.
Qed.
Lemma stream_bytes_snoc ts t : stream_bytes (ts ++ [t]) = stream_bytes ts ++ token_bytes t.
Proof. rewrite stream_bytes_app. unfold stream_bytes at 2. cbn [map concat]. by rewrite app_nil_r. Qed.
Lemma stream_data_snoc ts t : stream_data (ts ++ [t]) = stream_data ts ++ token_data t.
Proof. rewrite stream_data_app. unfold stream_data at 2. cbn [map concat]. by rewrite app_nil_r. Qed.

Lemma token_run_len l : len (token_bytes (TRun l)) = 2 + len l.
Proof. cbn [token_bytes]. rewrite !len_cons. lia. Qed.
Lemma token_seg_len s : len (token_bytes (TSeg s)) = 1 + len (nonzeros s).
Proof. cbn [token_bytes]. by rewrite len_cons. Qed.

(** Closing a run of [n] segments. *)
Lemma flush_ff_spec src L B ts pend n k : filled L (k_buf k) (stream_bytes ts) ∨ B < len (stream_bytes ts) →
  len (k_buf k) = L → B ≤ L → 1 ≤ n ≤ 256 → len pend = 8 * n →
  k_ff_srcstart k = Src (len (stream_data ts)) → k_ff_desstart k = len (stream_bytes ts) →
  len (stream_data ts) ≤ len src →
  stream_data ts ++ pend = take (Z.to_nat (len (stream_data ts) + 8 * n)) (pad8 src) →
  len (stream_data ts) + 8 * n ≤ len (pad8 src) →
  k_bufsz k ≤ B - (len (stream_bytes ts) + 2 + 8 * n) →
  ∃ buf, flush_ff src n k = Some (k <| k_buf := buf |>) ∧ len buf = L ∧
    (0 ≤ k_bufsz k → filled L buf (stream_bytes (ts ++ [TRun pend])) ∧
      ∀ j, len (stream_bytes ts) + 2 + 8 * n ≤ j → buf.[j] = (k_buf k).[j]).
Proof.
  intros Hf Hlen HB Hn Hpend Hs Hd Ho Hdata Hl Hz. unfold flush_ff. pose proof (len_nonneg (stream_bytes ts)).
  destruct (Z.leb_spec 0 (k_bufsz k)) as [H0|H0]; cycle 1.
  { exists (k_buf k). destruct k. split; [done|]. split; [done|]. cbn in *. lia. }
  destruct Hf as [Hf|Hf]; [|lia]. rewrite Hs, Hd.
  destruct (write_ff_spec src L (k_buf k) (stream_bytes ts) (len (stream_data ts)) n pend Hf) as (buf & E & Hf' & Hk);
    [done|lia|split; [apply len_nonneg|done]|done| |].
  { rewrite <- (drop_app_length (stream_data ts) pend), Hdata. unfold len.
    rewrite Nat2Z.id, skipn_firstn_comm. f_equal. lia. }
  rewrite E. exists buf. split; [done|]. split; [apply Hf'|]. intros _. by rewrite stream_bytes_snoc.
Qed.

Section Step.
Context (src : list Z) (L B j : Z) (ts : list token) (pend : list Z) (q : Z).
Context (Hsrc : bytes src) (HB : B ≤ L) (Hj : 0 ≤ j < segments src).
Let s := segment src j.

Lemma seg_ok : bytes s ∧ len s = 8.
Proof. split; [by apply Forall_take, Forall_drop, pad8_bytes|by apply segment_len]. Qed.

Lemma pend_bytes k : pack_inv src L B j ts pend q k → bytes pend.
Proof.
  intros H. assert (bytes (stream_data ts ++ pend)) as Hb.
  { rewrite <- (pi_data _ _ _ _ _ _ _ _ H). by apply Forall_take, pad8_bytes. }
  by apply Forall_app in Hb as [_ ?].
Qed.

Lemma data_len k : pack_inv src L B j ts pend q k → len (stream_data ts) + 8 * k_ff_n k = 8 * j.
Proof.
  intros H. destruct (pi_pend _ _ _ _ _ _ _ _ H) as [<- _]. rewrite <- len_app, <- (pi_data _ _ _ _ _ _ _ _ H).
  destruct (segments_eq src) as [Hl _]. unfold len in *. rewrite length_take. lia.
Qed.

(** The token of a segment that is not part of a run. *)
Lemma seg_token_ok : len (nonzeros s) < 8 → token_ok (TSeg s).
Proof. intros H. destruct seg_ok. by split. Qed.

Lemma run_token_ok k n : pack_inv src L B j ts pend q k → 1 ≤ n ≤ 256 → len pend = 8 * n → token_ok (TRun pend).
Proof. intros H Hn Hp. split; [by eapply pend_bytes|by exists n]. Qed.

(** What follows [pack_seg]: the next position and pointer. *)
Definition advance_pack (p : src_ptr) (n : Z) (k : pack_state) : option pack_state :=
  size ← int_add (k_size k) n;
  let next := match p with Src off => Src (off + 8) | Tmp => Tmp end in
  Some (Pack (k_buf k) (k_buffer k + n) (k_bufsz k) next (k_ff_srcstart k) (k_ff_desstart k) (k_ff_n k) size).

Let p := if 0 <? 8 * j + 8 - len src then Tmp else Src (8 * j).

Lemma next_src : j + 1 < segments src →
  match p with Src off => Src (off + 8) | Tmp => Tmp end = Src (8 * (j + 1)).
Proof.
  intros H. destruct (segments_eq src) as (Hl & H1 & H2). unfold p.
  destruct (Z.ltb_spec 0 (8 * j + 8 - len src)); [lia|]. f_equal. lia.
Qed.

Lemma size_ok x : 0 ≤ x → x ≤ 9 * segments src + 2 → 9 * segments src + 2 ≤ INT_MAX → int_chk x = Some x.
Proof. intros H0 H H'. apply int_chk_Some. unfold INT_MIN. lia. Qed.

(** No run is open and the segment has a zero. *)
Lemma step_seg k buf1 : pack_inv src L B j ts pend q k → k_ff_n k = 0 → len (nonzeros s) < 8 →
  9 * segments src + 2 ≤ INT_MAX → agree (k_size k) (k_buf k) buf1 →
  (len (nonzeros s) + 1 ≤ B - k_size k →
   ∀ i y, (flags s :: nonzeros s).[i] = Some y → buf1.[k_size k + i] = Some (Some y)) →
  ∃ k', advance_pack p (len (nonzeros s) + 1)
      (Pack buf1 (k_buffer k) (k_bufsz k - (len (nonzeros s) + 1)) (k_src k) (k_ff_srcstart k) (k_ff_desstart k) 0 (k_size k))
      = Some k' ∧ pack_inv src L B (j + 1) (ts ++ [TSeg s]) [] q k'.
Proof.
  intros H Hn0 Hnz Hint Hag Hat. pose proof (data_len k H) as Hdl.
  destruct H as [Hok Hdata Hpend Hsize [Hp1 Hp2] Hlen Hbuf Hff Hps Hbound].
  rewrite Hn0 in *. cbn [Z.ltb Z.compare] in Hsize, Hbound. rewrite Z.add_0_r in Hsize.
  pose proof (len_nonneg (nonzeros s)). pose proof (len_nonneg (stream_bytes ts)).
  unfold advance_pack. cbn [k_size k_buf k_buffer k_bufsz k_ff_srcstart k_ff_desstart k_ff_n].
  unfold int_add. rewrite size_ok by lia. eexists. split; [reflexivity|].
  assert (pend = []) as -> by (destruct pend; [done|rewrite len_cons in Hpend; pose proof (len_nonneg l); lia]).
  split; cbn [k_size k_buf k_buffer k_bufsz k_ff_srcstart k_ff_desstart k_ff_n k_src].
  - apply Forall_app. split; [done|]. constructor; [by apply seg_token_ok|constructor].
  - rewrite segment_take, Hdata, app_nil_r, app_nil_r by done. by rewrite stream_data_snoc.
  - done.
  - cbn [Z.ltb Z.compare]. rewrite len_stream_app, token_seg_len. lia.
  - lia.
  - destruct Hag as [-> _]. done.
  - rewrite len_stream_app, token_seg_len, stream_bytes_snoc. intros Hfit.
    apply filled_extend; [|rewrite token_seg_len; lia|].
    + eapply filled_agree; [apply Hbuf; lia|done|lia].
    + intros i y Hi. rewrite <- Hsize. apply Hat; [lia|exact Hi].
  - lia.
  - apply next_src.
  - cbn [Z.ltb Z.compare]. lia.
Qed.

(** A run starts. *)
Lemma step_first k buf1 : pack_inv src L B j ts pend q k → k_ff_n k = 0 → len (nonzeros s) = 8 →
  9 * segments src + 2 ≤ INT_MAX → agree (k_size k) (k_buf k) buf1 →
  ∃ k', advance_pack p 10
      (Pack buf1 (k_buffer k) (k_bufsz k - 10) (k_src k) p (k_buffer k) 1 (k_size k))
      = Some k' ∧ pack_inv src L B (j + 1) ts s q k'.
Proof.
  intros H Hn0 Hnz Hint Hag. pose proof (data_len k H) as Hdl.
  destruct H as [Hok Hdata Hpend Hsize [Hp1 Hp2] Hlen Hbuf Hff Hps Hbound].
  rewrite Hn0 in *. cbn [Z.ltb Z.compare] in Hsize, Hbound. rewrite Z.add_0_r in Hsize.
  pose proof (len_nonneg (stream_bytes ts)).
  unfold advance_pack. cbn [k_size k_buf k_buffer k_bufsz k_ff_srcstart k_ff_desstart k_ff_n].
  unfold int_add. rewrite size_ok by lia. eexists. split; [reflexivity|].
  assert (pend = []) as -> by (destruct pend; [done|rewrite len_cons in Hpend; pose proof (len_nonneg l); lia]).
  rewrite app_nil_r in Hdata. destruct seg_ok as [_ Hs8].
  split; cbn [k_size k_buf k_buffer k_bufsz k_ff_srcstart k_ff_desstart k_ff_n k_src].
  - done.
  - by rewrite segment_take, Hdata by done.
  - lia.
  - cbn [Z.ltb Z.compare]. lia.
  - lia.
  - destruct Hag as [-> _]. done.
  - intros Hfit. eapply filled_agree; [by apply Hbuf|done|lia].
  - intros _. split; [|lia]. unfold p. destruct (Z.ltb_spec 0 (8 * j + 8 - len src)); [|f_equal; lia].
    pose proof (segment_padded src j Hj). fold s in H1. lia.
  - apply next_src.
  - cbn [Z.ltb Z.compare]. lia.
Qed.

(** A run goes on. *)
Lemma step_more k buf1 : pack_inv src L B j ts pend q k → 0 < k_ff_n k → k_ff_n k + 1 < 256 →
  9 * segments src + 2 ≤ INT_MAX → agree (k_size k) (k_buf k) buf1 →
  ∃ k', advance_pack p 8
      (Pack buf1 (k_buffer k) (k_bufsz k - 8) (k_src k) (k_ff_srcstart k) (k_ff_desstart k) (k_ff_n k + 1) (k_size k))
      = Some k' ∧ pack_inv src L B (j + 1) ts (pend ++ s) q k'.
Proof.
  intros H Hn0 Hn1 Hint Hag. pose proof (data_len k H) as Hdl.
  destruct H as [Hok Hdata Hpend Hsize [Hp1 Hp2] Hlen Hbuf Hff Hps Hbound].
  destruct (Z.ltb_spec 0 (k_ff_n k)); [|lia]. pose proof (len_nonneg (stream_bytes ts)).
  unfold advance_pack. cbn [k_size k_buf k_buffer k_bufsz k_ff_srcstart k_ff_desstart k_ff_n].
  unfold int_add. rewrite size_ok by lia. eexists. split; [reflexivity|]. destruct seg_ok as [_ Hs8].
  split; cbn [k_size k_buf k_buffer k_bufsz k_ff_srcstart k_ff_desstart k_ff_n k_src].
  - done.
  - by rewrite segment_take, Hdata, <- app_assoc by done.
  - rewrite len_app. lia.
  - destruct (Z.ltb_spec 0 (k_ff_n k + 1)); lia.
  - lia.
  - destruct Hag as [-> _]. done.
  - intros Hfit. eapply filled_agree; [by apply Hbuf|done|lia].
  - intros _. by apply Hff.
  - apply next_src.
  - destruct (Z.ltb_spec 0 (k_ff_n k + 1)); lia.
Qed.

Lemma run_flush k k1 buf1 n run : pack_inv src L B j ts pend q k → 0 < k_ff_n k →
  agree (k_size k) (k_buf k) buf1 → k_buf k1 = buf1 → k_ff_srcstart k1 = k_ff_srcstart k →
  k_ff_desstart k1 = k_ff_desstart k → 1 ≤ n ≤ 256 → len run = 8 * n →
  stream_data ts ++ run = take (Z.to_nat (len (stream_data ts) + 8 * n)) (pad8 src) →
  len (stream_data ts) + 8 * n ≤ len (pad8 src) →
  k_bufsz k1 ≤ B - (len (stream_bytes ts) + 2 + 8 * n) →
  ∃ buf, flush_ff src n k1 = Some (k1 <| k_buf := buf |>) ∧ len buf = L ∧
    (0 ≤ k_bufsz k1 → filled L buf (stream_bytes (ts ++ [TRun run])) ∧
      ∀ i, len (stream_bytes ts) + 2 + 8 * n ≤ i → buf.[i] = buf1.[i]).
Proof.
  intros H Hn0 Hag <- Hs Hd Hn Hrun Hdata Hl Hz. pose proof (data_len k H) as Hdl.
  destruct H as [Hok _ Hpend Hsize [Hp1 Hp2] Hlen Hbuf Hff Hps Hbound].
  destruct (Z.ltb_spec 0 (k_ff_n k)); [|lia]. destruct (Hff Hn0) as [Hfs Hfd].
  destruct (segments_eq src) as (Hsl & H1 & H2).
  eapply flush_ff_spec; [|by destruct Hag as [-> _]|done|done|done|congruence|congruence|lia|done|done|done].
  destruct (Z.le_gt_cases (len (stream_bytes ts)) B); [left|by right].
  eapply filled_agree; [by apply Hbuf|done|lia].
Qed.

(** A run is full. *)
Lemma step_full k buf1 : pack_inv src L B j ts pend q k → k_ff_n k + 1 = 256 →
  9 * segments src + 2 ≤ INT_MAX → agree (k_size k) (k_buf k) buf1 →
  ∃ k' k2, flush_ff src 256
      (Pack buf1 (k_buffer k) (k_bufsz k - 8) (k_src k) (k_ff_srcstart k) (k_ff_desstart k) 256 (k_size k)) = Some k2 ∧
    advance_pack p 8 (k2 <| k_ff_n := 0 |>) = Some k' ∧
    pack_inv src L B (j + 1) (ts ++ [TRun (pend ++ s)]) [] (q + 1) k'.
Proof.
  intros H Hn1 Hint Hag. pose proof (data_len k H) as Hdl. destruct seg_ok as [Hsb Hs8].
  destruct (segments_eq src) as (Hsl & Hs1 & Hs2).
  assert (len (pend ++ s) = 8 * 256) as Hrun.
  { rewrite len_app. destruct (pi_pend _ _ _ _ _ _ _ _ H). lia. }
  assert (stream_data ts ++ pend ++ s = take (Z.to_nat (8 * (j + 1))) (pad8 src)) as Hdata.
  { rewrite segment_take, (pi_data _ _ _ _ _ _ _ _ H), <- app_assoc by done. done. }
  edestruct (run_flush k (Pack buf1 (k_buffer k) (k_bufsz k - 8) (k_src k) (k_ff_srcstart k) (k_ff_desstart k) 256 (k_size k))
    buf1 256 (pend ++ s) H) as (buf & E & Hbl & Hb); try done; try lia.
  { rewrite Hdata. do 2 f_equal. lia. }
  { destruct (pi_pos _ _ _ _ _ _ _ _ H) as [_ ->]. rewrite (pi_size _ _ _ _ _ _ _ _ H).
    destruct (Z.ltb_spec 0 (k_ff_n k)); cbn; lia. }
  pose proof (run_token_ok k) as _. assert (token_ok (TRun (pend ++ s))) as Htok.
  { split; [apply Forall_app; split; [by eapply pend_bytes|done]|by exists 256]. }
  destruct H as [Hok _ Hpend Hsize [Hp1 Hp2] Hlen Hbuf Hff Hps Hbound].
  destruct (Z.ltb_spec 0 (k_ff_n k)); [|lia]. pose proof (len_nonneg (stream_bytes ts)).
  eexists _, _. split; [exact E|].
  unfold advance_pack. cbn [k_size k_buf k_buffer k_bufsz k_ff_srcstart k_ff_desstart k_ff_n k_src] in *.
  unfold int_add. rewrite size_ok by lia. split; [reflexivity|].
  split; cbn [k_size k_buf k_buffer k_bufsz k_ff_srcstart k_ff_desstart k_ff_n k_src].
  - apply Forall_app. split; [done|]. by constructor.
  - by rewrite app_nil_r, stream_data_snoc, <- Hdata.
  - done.
  - cbn [Z.ltb Z.compare]. rewrite len_stream_app, token_run_len. lia.
  - lia.
  - done.
  - rewrite len_stream_app, token_run_len. intros Hfit. apply Hb. lia.
  - lia.
  - apply next_src.
  - cbn [Z.ltb Z.compare]. lia.
Qed.

(** A run is closed by a segment with zeros. *)
Lemma step_close k buf1 : pack_inv src L B j ts pend q k → 0 < k_ff_n k → len (nonzeros s) < 6 →
  9 * segments src + 2 ≤ INT_MAX → agree (k_size k) (k_buf k) buf1 →
  (len (nonzeros s) + 1 ≤ B - k_size k →
   ∀ i y, (flags s :: nonzeros s).[i] = Some y → buf1.[k_size k + i] = Some (Some y)) →
  ∃ k' k2, flush_ff src (k_ff_n k)
      (Pack buf1 (k_buffer k) (k_bufsz k - (len (nonzeros s) + 1)) (k_src k) (k_ff_srcstart k) (k_ff_desstart k) (k_ff_n k) (k_size k)) = Some k2 ∧
    advance_pack p (len (nonzeros s) + 1) (k2 <| k_ff_n := 0 |>) = Some k' ∧
    pack_inv src L B (j + 1) ((ts ++ [TRun pend]) ++ [TSeg s]) [] q k'.
Proof.
  intros H Hn1 Hnz Hint Hag Hat. pose proof (data_len k H) as Hdl. destruct seg_ok as [Hsb Hs8].
  destruct (segments_eq src) as (Hsl & Hs1 & Hs2). pose proof (nonzeros_len s).
  assert (len pend = 8 * k_ff_n k ∧ k_ff_n k < 256) as [Hrun Hlt] by (destruct (pi_pend _ _ _ _ _ _ _ _ H); lia).
  edestruct (run_flush k (Pack buf1 (k_buffer k) (k_bufsz k - (len (nonzeros s) + 1)) (k_src k) (k_ff_srcstart k) (k_ff_desstart k) (k_ff_n k) (k_size k))
    buf1 (k_ff_n k) pend H) as (buf & E & Hbl & Hb); try done; try lia.
  { rewrite <- (pi_data _ _ _ _ _ _ _ _ H). do 2 f_equal. lia. }
  { destruct (pi_pos _ _ _ _ _ _ _ _ H) as [_ ->]. rewrite (pi_size _ _ _ _ _ _ _ _ H).
    destruct (Z.ltb_spec 0 (k_ff_n k)); cbn; lia. }
  assert (token_ok (TRun pend)) as Htok by (eapply run_token_ok; [done| |done]; lia).
  destruct H as [Hok Hdata Hpend Hsize [Hp1 Hp2] Hlen Hbuf Hff Hps Hbound].
  destruct (Z.ltb_spec 0 (k_ff_n k)); [|lia]. pose proof (len_nonneg (stream_bytes ts)).
  eexists _, _. split; [exact E|].
  unfold advance_pack. cbn [k_size k_buf k_buffer k_bufsz k_ff_srcstart k_ff_desstart k_ff_n k_src] in *.
  unfold int_add. rewrite size_ok by lia. split; [reflexivity|].
  assert (len (stream_bytes (ts ++ [TRun pend])) = k_size k) as Hst by (rewrite len_stream_app, token_run_len; lia).
  split; cbn [k_size k_buf k_buffer k_bufsz k_ff_srcstart k_ff_desstart k_ff_n k_src].
  - apply Forall_app. split; [apply Forall_app; split; [done|by constructor]|].
    constructor; [apply seg_token_ok; lia|constructor].
  - by rewrite segment_take, Hdata, app_nil_r, !stream_data_snoc by done.
  - done.
  - cbn [Z.ltb Z.compare]. rewrite len_stream_app, token_seg_len, Hst. lia.
  - lia.
  - done.
  - rewrite len_stream_app, token_seg_len, Hst, (stream_bytes_snoc (ts ++ _)). intros Hfit.
    destruct Hb as [Hfl Hkeep]; [lia|]. apply filled_extend; [done|rewrite token_seg_len; lia|].
    intros i y Hi. pose proof (arr_get_Some _ _ _ Hi). rewrite Hst, Hkeep by lia. apply Hat; [lia|exact Hi].
  - lia.
  - apply next_src.
  - cbn [Z.ltb Z.compare]. lia.
Qed.
End Step.

Lemma pack_step_inv src L B j ts pend q k : bytes src → B ≤ L → 0 ≤ j < segments src →
  9 * segments src + 2 ≤ INT_MAX → pack_inv src L B j ts pend q k →
  ∃ ts' pend' q' k', pack_step src (0 + j * 8) k = Some k' ∧ pack_inv src L B (j + 1) ts' pend' q' k'.
Proof.
  intros Hsrc HB Hj Hint H. pose proof H as [Hok Hdata Hpend Hsize [Hp1 Hp2] Hlen Hbuf Hff Hps Hbound].
  unfold pack_step. rewrite (segment_read src j k) by (done || apply Hps; lia).
  set (p := if 0 <? 8 * j + 8 - len src then Tmp else Src (8 * j)).
  pose proof (len_nonneg (stream_bytes ts)). destruct (seg_ok src j Hsrc Hj) as [_ Hs8].
  assert (0 ≤ k_size k) by (rewrite Hsize; destruct (0 <? k_ff_n k) eqn:E0; lia).
  destruct (pack_seg_spec (segment src j) (k_buf k) (k_buffer k) (k_bufsz k) (k_ff_n k))
    as (buf1 & -> & Hag & Hat); [done|lia|lia|lia|].
  rewrite Hp1 in Hag. pose proof (nonzeros_len (segment src j)).
  set (nz := len (nonzeros (segment src j))) in *.
  unfold pack_run. unfold seg_size in *. fold nz in Hat |- *.
  destruct (Z.ltb_spec 0 (k_ff_n k)) as [Hn|Hn].
  - destruct (Z.leb_spec 6 nz) as [H6|H6].
    + cbn [Z.eqb Pos.eqb k_ff_n]. destruct (Z.ltb_spec 0 (k_ff_n k)); [|lia]. cbn [andb].
      destruct (Z.eqb_spec (k_ff_n k + 1) 256) as [E|E].
      * destruct (step_full src L B j ts pend q Hsrc HB Hj k buf1 H E Hint Hag) as (k' & k2 & E1 & E2 & Hk').
        exists (ts ++ [TRun (pend ++ segment src j)]), [], (q + 1), k'. split; [|done].
        cbn [k_buf k_buffer k_bufsz k_src k_ff_srcstart k_ff_desstart k_ff_n k_size] in E1 |- *.
        rewrite E, E1. exact E2.
      * destruct (step_more src L B j ts pend q Hsrc Hj k buf1 H Hn) as (k' & E1 & Hk'); [lia|done|done|].
        exists ts, (pend ++ segment src j), q, k'. split; [exact E1|done].
    + assert (nz + 1 ≠ 10 ∧ nz + 1 ≠ 8) as [E10 E8] by lia.
      destruct (Z.eqb_spec (nz + 1) 10), (Z.eqb_spec (nz + 1) 8); try lia. cbn [andb k_ff_n].
      destruct (Z.ltb_spec 0 (k_ff_n k)); [|lia].
      destruct (step_close src L B j ts pend q Hsrc HB Hj k buf1 H Hn) as (k' & k2 & E1 & E2 & Hk'); [done|done|done| |].
      { intros Hr. rewrite <- Hp1. apply Hat; [fold nz in Hr; lia|lia]. }
      exists ((ts ++ [TRun pend]) ++ [TSeg (segment src j)]), [], q, k'. split; [|done].
      cbn [k_buf k_buffer k_bufsz k_src k_ff_srcstart k_ff_desstart k_ff_n k_size] in E1 |- *.
      fold nz in E1, E2. rewrite E1. exact E2.
  - assert (k_ff_n k = 0) as Hn0 by lia. destruct (Z.eqb_spec nz 8) as [H8|H8].
    + cbn [Z.eqb Pos.eqb k_ff_n].
      destruct (step_first src L B j ts pend q Hsrc Hj k buf1 H Hn0 H8 Hint Hag) as (k' & E1 & Hk').
      exists ts, (segment src j), q, k'. split; [exact E1|done].
    + destruct (Z.eqb_spec (nz + 1) 10); [lia|]. cbn [k_ff_n]. rewrite Hn0. cbn [Z.ltb Z.compare]. rewrite andb_false_r.
      destruct (step_seg src L B j ts pend q Hsrc HB Hj k buf1 H Hn0) as (k' & E1 & Hk'); [lia|done|done| |].
      { intros Hr. rewrite <- Hp1. apply Hat; [fold nz in Hr; lia|lia]. }
      exists (ts ++ [TSeg (segment src j)]), [], q, k'. split; [|done].
      fold nz in E1. rewrite Hn0 in *. exact E1.
Qed.

Lemma flush_ff_size src n k k' : flush_ff src n k = Some k' → k_size k' = k_size k.
Proof.
  unfold flush_ff. destruct (0 <=? k_bufsz k); [|by intros [= <-]]. intros H. bind_inv H. by injection H as <-.
Qed.
Lemma pack_run_size src p n k k' : pack_run src p n k = Some k' → k_size k' = k_size k.
Proof.
  unfold pack_run. intros H.
  repeat match type of H with
  | (if ?b then _ else _) = _ => destruct b
  | context [flush_ff] => bind_inv H; apply flush_ff_size in E
  end; injection H as <-; done.
Qed.

Lemma pack_step_size src L B j ts pend q k k' : bytes src → B ≤ L → 0 ≤ j < segments src →
  pack_inv src L B j ts pend q k → pack_step src (0 + j * 8) k = Some k' →
  k_size k' = k_size k + seg_size (segment src j) (k_ff_n k).
Proof.
  intros Hsrc HB Hj [Hok Hdata Hpend Hsize [Hp1 Hp2] Hlen Hbuf Hff Hps Hbound].
  unfold pack_step. rewrite (segment_read src j k) by (done || apply Hps; lia).
  pose proof (len_nonneg (stream_bytes ts)). destruct (seg_ok src j Hsrc Hj) as [_ Hs8].
  assert (0 ≤ k_size k) by (rewrite Hsize; destruct (0 <? k_ff_n k) eqn:E0; lia).
  destruct (pack_seg_spec (segment src j) (k_buf k) (k_buffer k) (k_bufsz k) (k_ff_n k))
    as (buf1 & -> & _ & _); [done|lia|lia|lia|].
  intros H1. bind_inv H1. apply pack_run_size in E. bind_inv H1. injection H1 as <-.
  apply int_chk_inv in E0 as [-> _]. cbn [k_size] in *. by rewrite E.
Qed.

(** The worst case of the comment in [lpack]: 2 bytes for 2048, and 2 more. *)
Lemma maxsz_bound sz j q ff size nz : 8 * j < sz ≤ 8 * (j + 1) → 0 ≤ nz ≤ 8 - (8 * (j + 1) - sz) →
  size ≤ 8 * j + 2 * q + (if 0 <? ff then 2 else 0) → 0 ≤ q → 0 ≤ ff → 256 * q + ff ≤ j →
  size + (if 0 <? ff then (if 6 <=? nz then 8 else nz + 1) else (if nz =? 8 then 10 else nz + 1)) ≤ pack_maxsz sz.
Proof.
  intros Hj Hnz Hs Hq Hff Hb. unfold pack_maxsz.
  pose proof (Z.div_mod (sz + 2047) 2048). pose proof (Z.mod_pos_bound (sz + 2047) 2048).
  set (c := (sz + 2047) / 2048) in *. destruct (Z.ltb_spec 0 ff).
  - destruct (Z.leb_spec 6 nz); lia.
  - destruct (Z.eqb_spec nz 8); lia.
Qed.

Lemma pack_loop src buf B : bytes src → B ≤ len buf → 9 * segments src + 2 ≤ INT_MAX →
  ∃ k, for_step 0 (len src) 8 (pack_step src) (Pack buf 0 B (Src 0) Tmp 0 0 0) = Some k ∧
    (∃ ts pend q, pack_inv src (len buf) B (segments src) ts pend q k) ∧ k_size k ≤ pack_maxsz (len src).
Proof.
  intros Hsrc HB Hint. destruct (segments_eq src) as (Hsl & Hs1 & Hs2). pose proof (len_nonneg src).
  destruct (for_step_inv (λ j k, (∃ ts pend q, pack_inv src (len buf) B j ts pend q k) ∧
      (j = segments src → k_size k ≤ pack_maxsz (len src)))
    0 (len src) 8 (pack_step src) (Pack buf 0 B (Src 0) Tmp 0 0 0) (segments src)) as (k & E & Hk & Hb).
  - apply Z.div_unique with (len src - 0 + 8 - 1 - 8 * segments src); lia.
  - lia.
  - lia.
  - split; [exists [], [], 0; split; try done|].
    + cbn [k_buffer k_size k_bufsz]. lia.
    + intros _. split; [done|by exists buf].
    + intros HS. cbn [k_size]. unfold pack_maxsz. assert (len src = 0) as -> by lia. done.
  - intros j k Hj [(ts & pend & q & Hk) _].
    destruct (pack_step_inv src (len buf) B j ts pend q k Hsrc HB Hj Hint Hk) as (ts' & pend' & q' & k' & E & Hk').
    exists k'. split; [done|]. split; [by exists ts', pend', q'|]. intros Hlast.
    rewrite (pack_step_size src (len buf) B j ts pend q k k') by done. unfold seg_size.
    destruct Hk as [_ _ Hpend _ _ _ _ _ _ (Hb1 & Hb2 & Hb3)]. pose proof (nonzeros_len (segment src j)).
    pose proof (segment_len src j Hj). apply maxsz_bound with (j := j) (q := q); try lia.
    destruct (Z.le_gt_cases (8 * j + 8 - len src) 0); [lia|]. pose proof (segment_padded src j Hj). lia.
  - exists k. split; [done|]. split; [done|]. by apply Hb.
Qed.

(** The packed stream decodes to the padded source, is no longer than the
    worst case, and is in the buffer when it fits. *)
Lemma sproto_pack_spec src buf B : bytes src → B ≤ len buf → 9 * segments src + 2 ≤ INT_MAX →
  ∃ ts buf', Forall token_ok ts ∧ stream_data ts = pad8 src ∧
    sproto_pack src buf B = Some (buf', len (stream_bytes ts)) ∧ len buf' = len buf ∧
    (len (stream_bytes ts) ≤ B → filled (len buf) buf' (stream_bytes ts)) ∧
    len (stream_bytes ts) ≤ pack_maxsz (len src).
Proof.
  intros Hsrc HB Hint. unfold sproto_pack.
  destruct (pack_loop src buf B Hsrc HB Hint) as (k & -> & (ts & pend & q & H) & Hmax).
  destruct (segments_eq src) as (Hsl & Hs1 & Hs2).
  pose proof H as [Hok Hdata Hpend Hsize [Hp1 Hp2] Hlen Hbuf Hff Hps Hbound].
  rewrite take_ge in Hdata by (unfold len in Hsl; lia).
  assert (len (stream_data ts) + len pend = len (pad8 src)) as Hdl by (by rewrite Hdata, len_app).
  pose proof (len_nonneg (stream_bytes ts)). pose proof (len_nonneg (stream_data ts)).
  destruct (Z.ltb_spec 0 (k_ff_n k)) as [Hn|Hn]; rewrite ?andb_true_r, ?andb_false_r.
  - assert (token_ok (TRun pend)) as Htok
      by (apply (run_token_ok src (len buf) B (segments src) ts pend q Hsrc k (k_ff_n k)); [done|lia|apply Hpend]).
    destruct (Hff Hn) as [Hfs Hfd].
    destruct (flush_ff_spec src (len buf) B ts pend (k_ff_n k) k) as (buf' & E & Hbl & Hb); try done; try lia.
    { destruct (Z.le_gt_cases (len (stream_bytes ts)) B); [left; by apply Hbuf|by right]. }
    { rewrite <- Hdata, take_ge; [done|]. unfold len in *. lia. }
    exists (ts ++ [TRun pend]), buf'. rewrite len_stream_app, token_run_len, stream_data_snoc.
    split; [apply Forall_app; split; [done|by constructor]|]. split; [done|].
    replace (len (stream_bytes ts) + (2 + len pend)) with (k_size k) by lia.
    unfold flush_ff in E. destruct (Z.leb_spec 0 (k_bufsz k)).
    + bind_inv E. injection E as ->. split; [done|]. split; [done|]. split; [|done]. intros _. by apply Hb.
    + injection E as E. apply (f_equal k_buf) in E. cbn [k_buf] in E. split; [by rewrite E|]. split; [done|]. split; [lia|done].
  - assert (pend = []) as -> by (destruct pend as [|z l]; [done|rewrite len_cons in Hpend; pose proof (len_nonneg l); lia]).
    rewrite app_nil_r in Hdata. exists ts, (k_buf k).
    replace (k_size k) with (len (stream_bytes ts)) in * by lia.
    split; [done|]. split; [done|]. split; [done|]. by split.
Qed.

(** ** What a stream stands for *)

Fixpoint dec_seg (h : Z) (bits src : list Z) : option (list Z * list Z) :=
  match bits with
  | [] => Some ([], src)
  | i :: bits =>
      if Z.testbit h i then
        match src with
        | [] => None
        | x :: src => '(d, r) ← dec_seg h bits src; Some (x :: d, r)
        end
      else '(d, r) ← dec_seg h bits src; Some (0 :: d, r)
  end.

Definition dec_run (src : list Z) : option (list Z * list Z) :=
  match src with
  | [] => None
  | x :: src =>
      let n := (x + 1) * 8 in
      if len src <? n then None else Some (take (Z.to_nat n) src, advance n src)
  end.

Fixpoint decode (fuel : nat) (src : list Z) : option (list Z) :=
  match fuel with
  | O => None
  | S fuel =>
      match src with
      | [] => Some []
      | h :: src =>
          '(d, r) ← (if h =? 0xff then dec_run src else dec_seg h [0; 1; 2; 3; 4; 5; 6; 7] src);
          e ← decode fuel r; Some (d ++ e)
      end
  end.

(** The data of a packed message, [None] when it is malformed. *)
Definition unpacked_data (src : list Z) : option (list Z) := decode (S (length src)) src.

Lemma flags_bit x s : Z.testbit (flags (x :: s)) 0 = negb (x =? 0).
Proof. cbn [flags]. rewrite Z.bit0_odd, Z.odd_add_mul_2. by destruct (x =? 0). Qed.
Lemma flags_shift x s i : 0 ≤ i → Z.testbit (flags (x :: s)) (i + 1) = Z.testbit (flags s) i.
Proof.
  intros Hi. cbn [flags]. destruct (x =? 0).
  - rewrite Z.add_0_l. by apply Z.double_bits_succ.
  - rewrite Z.add_comm. by apply Z.testbit_odd_succ.
Qed.

Lemma dec_seg_flags h s i tail : 0 ≤ i → (∀ k, 0 ≤ k → Z.testbit h (i + k) = Z.testbit (flags s) k) →
  dec_seg h (seqZ i (len s)) (nonzeros s ++ tail) = Some (s, tail).
Proof.
  revert i. induction s as [|x s IH]; intros i Hi Hh; [done|].
  rewrite len_cons, seqZ_cons by (pose proof (len_nonneg s); lia).
  replace (Z.pred (1 + len s)) with (len s) by lia. cbn [dec_seg].
  pose proof (Hh 0) as H0. rewrite Z.add_0_r, flags_bit in H0. rewrite H0 by lia.
  assert (dec_seg h (seqZ (Z.succ i) (len s)) (nonzeros s ++ tail) = Some (s, tail)) as E.
  { apply IH; [lia|]. intros k Hk. rewrite <- (flags_shift x) by done. rewrite <- Hh by lia. f_equal. lia. }
  cbn [nonzeros List.filter]. fold (nonzeros s). destruct (Z.eqb_spec x 0) as [->|]; cbn [negb app]; by rewrite E.
Qed.

(** A well-formed stream stands for its data. *)
Lemma decode_stream ts : Forall token_ok ts → ∀ fuel, (length ts < fuel)%nat →
  decode fuel (stream_bytes ts) = Some (stream_data ts).
Proof.
  induction 1 as [|t ts Ht _ IH]; intros [|fuel] Hf; cbn [length] in Hf; try lia; [done|].
  change (stream_bytes (t :: ts)) with (token_bytes t ++ stream_bytes ts).
  change (stream_data (t :: ts)) with (token_data t ++ stream_data ts).
  destruct t as [s|l], Ht as [Hb Ht]; cbn [token_bytes token_data app decode].
  - destruct Ht as [Hs Hnz]. destruct (Z.eqb_spec (flags s) 255) as [E|_].
    { apply (f_equal (λ x, x)) in E. pose proof (flags_full s) as [Hf1 _]. rewrite Hs in Hf1.
      specialize (Hf1 E). lia. }
    change [0; 1; 2; 3; 4; 5; 6; 7] with (seqZ 0 8). rewrite <- Hs.
    rewrite dec_seg_flags by (done || lia). by rewrite IH by lia.
  - destruct Ht as (n & Hn & Hl). change (255 =? 255) with true. cbv beta iota. cbn [dec_run].
    replace ((len l / 8 - 1 + 1) * 8) with (len l) by (rewrite Hl, (Z.mul_comm 8 n), Z.div_mul; lia).
    destruct (Z.ltb_spec (len (l ++ stream_bytes ts)) (len l)); [rewrite len_app in *; pose proof (len_nonneg (stream_bytes ts)); lia|].
    rewrite advance_app by done. unfold len at 1. rewrite Nat2Z.id, take_app_length. by rewrite IH by lia.
Qed.

Lemma stream_length ts : (length ts ≤ length (stream_bytes ts))%nat.
Proof.
  induction ts as [|t ts IH]; [done|]. change (stream_bytes (t :: ts)) with (token_bytes t ++ stream_bytes ts).
  rewrite length_app. destruct t; cbn [token_bytes length]; lia.
Qed.

Lemma unpacked_stream ts : Forall token_ok ts → unpacked_data (stream_bytes ts) = Some (stream_data ts).
Proof. intros H. apply decode_stream; [done|]. pose proof (stream_length ts). lia. Qed.

(** ** The unpacker computes it *)

(** [rest] is left to read of the source; [out] has come out, of which the
    buffer of [D] bytes holds what fits. *)
Record unp (srcv : list Z) (D L : Z) (rest out : list Z) (u : unpack_state) : Prop := {
  un_src : ∃ pre, srcv = pre ++ rest ∧ u_src u = len pre ∧ u_srcsz u = len rest;
  un_pos : 0 ≤ u_buffer u ∧ u_buffer u + u_bufsz u = D ∧ D ≤ L;
  un_len : len (u_buf u) = L;
  un_fit : len out ≤ D → u_buffer u = len out ∧ filled L (u_buf u) out;
  un_full : D < len out → u_bufsz u ≤ 0;
  un_size : u_size u = len out
}.

Lemma un_read srcv D L x rest out u : unp srcv D L (x :: rest) out u → srcv.[u_src u] = Some x.
Proof.
  intros [(pre & -> & -> & _) _ _ _ _ _]. unfold len. rewrite arr_get_of_nat.
  by rewrite list_lookup_middle.
Qed.

Lemma put_spec srcv D L rest out u x : unp srcv D L rest out u →
  ∃ u', put x u = Some u' ∧ u_size u' = u_size u ∧
    unp srcv D L rest (out ++ [x]) (Unpack (u_buf u') (u_buffer u') (u_bufsz u') (u_src u') (u_srcsz u') (len out + 1)).
Proof.
  intros [Hs [Hp1 [Hp2 Hp3]] Hl Hfit Hfull Hsz]. unfold put.
  assert (len (out ++ [x]) = len out + 1) as Ho by (by rewrite len_app).
  pose proof (len_nonneg out). destruct (Z.ltb_spec 0 (u_bufsz u)) as [H0|H0].
  - destruct Hfit as [Hb Hf]; [lia|].
    destruct (filled_set L (u_buf u) out x (u_buffer u)) as (buf & E & Hf'); [done|done|lia|].
    rewrite E. eexists. split; [done|]. split; [done|].
    split; cbn [u_src u_srcsz u_buffer u_bufsz u_buf u_size]; try done; try lia.
    + apply Hf'.
    + intros _. split; [lia|done].
  - exists u. split; [done|]. split; [done|].
    split; cbn [u_src u_srcsz u_buffer u_bufsz u_buf u_size]; try done; try lia.
Qed.

Lemma truth_testbit h i : 0 ≤ i → truth (Z.land (Z.shiftr h i) 1) = Z.testbit h i.
Proof.
  intros Hi. change 1 with (2 ^ 1 - 1). rewrite land_mask by lia. change (2 ^ 1) with 2.
  rewrite Zmod_odd, <- Z.bit0_odd, Z.shiftr_spec, Z.add_0_l by lia. by destruct (Z.testbit h i).
Qed.

(** [unp] and then the loop goes on, or [-1]. *)
Definition unp_res (srcv : list Z) (D L : Z) (out : list Z) (spec : option (list Z * list Z)) (r : unpack_res) : Prop :=
  ∃ u ok, r = Some (u, ok) ∧
    match spec with
    | None => ok = false ∧ len (u_buf u) = L
    | Some (d, rest) => ok = true ∧ unp srcv D L rest (out ++ d) u
    end.

Lemma unpack_bits_spec srcv D L h bits : Forall (λ i, 0 ≤ i) bits → ∀ rest out u,
  unp srcv D L rest out u → len out + len bits ≤ INT_MAX →
  unp_res srcv D L out (dec_seg h bits rest) (unpack_bits srcv h bits u).
Proof.
  induction 1 as [|i bits Hi _ IH]; intros rest out u Hu Hmax; cbn [unpack_bits dec_seg].
  { exists u, true. by rewrite app_nil_r. }
  rewrite len_cons in Hmax. pose proof (len_nonneg bits). pose proof (len_nonneg out).
  unfold unpack_bit. rewrite truth_testbit by done.
  assert (∀ x rest' u1, unp srcv D L rest' (out ++ [x]) u1 →
    unp_res srcv D L out ('(d, r) ← dec_seg h bits rest'; Some (x :: d, r)) (unpack_bits srcv h bits u1)) as Hgo.
  { intros x rest' u1 Hu1. destruct (IH rest' (out ++ [x]) u1 Hu1) as (u2 & ok & E & H2).
    { rewrite len_app. change (len [x]) with 1. lia. }
    exists u2, ok. split; [done|]. destruct (dec_seg h bits rest') as [[d r]|]; [|done].
    by rewrite <- app_assoc in H2. }
  destruct (Z.testbit h i).
  - destruct Hu as [(pre & Es & Ep & Esz) Hp Hl Hf Hfu Hsz] eqn:Eu. rewrite Esz.
    destruct rest as [|x rest].
    { cbn [Z.leb Z.compare]. exists u, false. done. }
    rewrite len_cons. pose proof (len_nonneg rest). destruct (Z.leb_spec (1 + len rest) 0); [lia|].
    clear Eu. assert (unp srcv D L (x :: rest) out u) as Hu' by (split; [by exists pre|done..]).
    rewrite (un_read _ _ _ _ _ _ _ Hu').
    destruct (put_spec _ _ _ _ _ _ x Hu') as (u1 & -> & -> & Hu1). rewrite Hsz.
    unfold int_add. rewrite int_chk_Some by (unfold INT_MIN; lia). apply Hgo.
    destruct Hu1 as [(pre1 & E1 & E2 & E3) Hu1 Hu2 Hu3 Hu4 Hu5].
    split; cbn [u_src u_srcsz u_buffer u_bufsz u_buf u_size] in *; try done.
    exists (pre1 ++ [x]). rewrite len_app, <- app_assoc. rewrite len_cons in E3. split; [done|]. change (len [x]) with 1. lia.
  - destruct (put_spec _ _ _ _ _ _ 0 Hu) as (u1 & -> & -> & Hu1). rewrite (un_size _ _ _ _ _ _ Hu).
    unfold int_add. rewrite int_chk_Some by (unfold INT_MIN; lia). by apply Hgo.
Qed.

Lemma dec_seg_rest h bits : ∀ src d r, dec_seg h bits src = Some (d, r) →
  len d = len bits ∧ ∃ pre, src = pre ++ r.
Proof.
  induction bits as [|i bits IH]; intros src d r; cbn [dec_seg].
  { intros [= <- <-]. split; [done|by exists []]. }
  destruct (Z.testbit h i).
  - destruct src as [|x src]; [done|]. destruct (dec_seg h bits src) as [[d' r']|] eqn:E; [|done].
    intros [= <- <-]. destruct (IH _ _ _ E) as [Hd [pre ->]]. rewrite !len_cons, Hd.
    split; [done|by exists (x :: pre)].
  - destruct (dec_seg h bits src) as [[d' r']|] eqn:E; [|done].
    intros [= <- <-]. destruct (IH _ _ _ E) as [Hd [pre ->]]. rewrite !len_cons, Hd.
    split; [done|by exists pre].
Qed.

Lemma dec_run_rest src d r : bytes src → dec_run src = Some (d, r) →
  len d ≤ len src - len r ∧ ∃ pre, src = pre ++ r.
Proof.
  intros Hb. destruct src as [|x src]; [done|]. cbn [dec_run]. inversion Hb as [|? ? Hx _]; subst.
  destruct (Z.ltb_spec (len src) ((x + 1) * 8)); [done|]. intros [= <- <-]. rewrite len_cons.
  unfold advance. split.
  - unfold len in *. rewrite length_take, length_drop. lia.
  - exists (x :: take (Z.to_nat ((x + 1) * 8)) src). cbn [app]. by rewrite take_drop.
Qed.

Lemma un_skip srcv D L x rest out u : unp srcv D L (x :: rest) out u →
  unp srcv D L rest out (Unpack (u_buf u) (u_buffer u) (u_bufsz u) (u_src u + 1) (u_srcsz u - 1) (u_size u)).
Proof.
  intros [(pre & E1 & E2 & E3) H1 H2 H3 H4 H5]. split; cbn [u_src u_srcsz u_buffer u_bufsz u_buf u_size]; try done.
  exists (pre ++ [x]). rewrite len_app, <- app_assoc. rewrite len_cons in E3. split; [done|].
  change (len [x]) with 1. lia.
Qed.

Lemma unpack_ff_spec srcv D L rest out u : bytes rest → unp srcv D L rest out u →
  len out + len rest ≤ INT_MAX → unp_res srcv D L out (dec_run rest) (unpack_ff srcv u).
Proof.
  intros Hb Hu Hmax. pose proof Hu as [(pre & E1 & E2 & E3) [Hp1 [Hp2 Hp3]] Hl Hf Hfu Hsz].
  pose proof (len_nonneg out). unfold unpack_ff. rewrite E3. destruct rest as [|x rest].
  { exists u, false. done. }
  rewrite len_cons in Hmax |- *. pose proof (len_nonneg rest). destruct (Z.leb_spec (1 + len rest) 0); [lia|].
  rewrite (un_read _ _ _ _ _ _ _ Hu). inversion Hb as [|? ? Hx _]; subst. cbn [dec_run].
  set (n := (x + 1) * 8) in *. assert (8 ≤ n) by (unfold n; lia).
  destruct (Z.ltb_spec (1 + len rest) (n + 1)), (Z.ltb_spec (len rest) n); try lia.
  { exists u, false. done. }
  set (d := take (Z.to_nat n) rest). set (r := advance n rest).
  assert (rest = d ++ r) as Er by (symmetry; apply take_drop).
  assert (len d = n) as Hd by (unfold d, len in *; rewrite length_take; lia).
  assert (len (out ++ d) = len out + n) as Ho by (by rewrite len_app, Hd).
  assert (len rest = n + len r) as Hr by (rewrite Er at 1; rewrite len_app; lia).
  rewrite Hsz. unfold int_add. rewrite int_chk_Some by (unfold INT_MIN; pose proof (len_nonneg r); lia).
  assert (∃ buf, (if n <=? u_bufsz u then
      d ← mem_read (pre ++ x :: rest) (u_src u + 1) n; mem_write (u_buf u) (u_buffer u) (map Some d)
    else Some (u_buf u)) = Some buf ∧ len buf = len (u_buf u) ∧
    (len out + n ≤ u_buffer u + u_bufsz u → u_buffer u = len out ∧ filled (len (u_buf u)) buf (out ++ d))) as (buf & -> & Hbl & Hbf).
  { destruct (Z.leb_spec n (u_bufsz u)).
    - assert (mem_read (pre ++ x :: rest) (u_src u + 1) n = Some d) as ->.
      { rewrite E2, Er. replace (pre ++ x :: d ++ r) with ((pre ++ [x]) ++ d ++ r) by (by rewrite <- app_assoc).
        apply mem_read_app; [by rewrite len_app|done]. }
      destruct Hf as [Hb1 Hf]; [lia|].
      destruct (filled_write _ (u_buf u) out d (u_buffer u) Hf) as (buf & Ew & Hf'); [done|lia|].
      exists buf. split; [done|]. split; [apply Hf'|]. intros _. by split.
    - exists (u_buf u). split; [done|]. split; [done|]. intros Hle. destruct Hf as [Hb1 Hf]; lia. }
  eexists _, true. split; [reflexivity|]. split; [done|].
  split; cbn [u_src u_srcsz u_buffer u_bufsz u_buf u_size]; try done; try lia.
  - exists (pre ++ x :: d). rewrite len_app, len_cons, <- app_assoc. split; [by rewrite Er at 1|]. lia.
  - intros Hle. destruct Hbf as [Hb1 Hbf]; [lia|]. split; [lia|done].
Qed.

Lemma unpack_loop_spec fuel : ∀ srcv D L rest out u, (length rest < fuel)%nat → bytes rest →
  unp srcv D L rest out u → len out + 8 * len rest ≤ INT_MAX →
  ∃ u' ok, unpack_loop fuel srcv u = Some (u', ok) ∧
    match decode fuel rest with
    | None => ok = false ∧ len (u_buf u') = L
    | Some d => ok = true ∧ unp srcv D L [] (out ++ d) u'
    end.
Proof.
  induction fuel as [|fuel IH]; intros srcv D L rest out u Hf Hb Hu Hmax; [lia|].
  cbn [unpack_loop decode]. pose proof Hu as [(pre & E1 & E2 & E3) _ _ _ _ _]. rewrite E3.
  destruct rest as [|h rest].
  { exists u, true. by rewrite app_nil_r. }
  rewrite len_cons in Hmax |- *. pose proof (len_nonneg rest). pose proof (len_nonneg out).
  destruct (Z.ltb_spec 0 (1 + len rest)); [|lia]. rewrite (un_read _ _ _ _ _ _ _ Hu).
  apply un_skip in Hu. rewrite E3, len_cons in Hu. inversion Hb as [|? ? Hh Hb']; subst.
  set (u1 := Unpack _ _ _ _ _ _) in Hu |- *.
  assert (unp_res (pre ++ h :: rest) D L out (if h =? 255 then dec_run rest else dec_seg h [0; 1; 2; 3; 4; 5; 6; 7] rest)
    (if h =? 255 then unpack_ff (pre ++ h :: rest) u1
     else unpack_bits (pre ++ h :: rest) h [0; 1; 2; 3; 4; 5; 6; 7] u1)) as (u2 & ok & -> & H2).
  { destruct (h =? 255).
    - apply unpack_ff_spec; [done|done|lia].
    - apply unpack_bits_spec; [repeat constructor; lia|done|]. change (len [0; 1; 2; 3; 4; 5; 6; 7]) with 8. lia. }
  assert (∀ d r, (if h =? 255 then dec_run rest else dec_seg h [0; 1; 2; 3; 4; 5; 6; 7] rest) = Some (d, r) →
    len d + 8 * len r ≤ 8 * (1 + len rest) ∧ ∃ pre, rest = pre ++ r) as Hrest.
  { intros d r. destruct (h =? 255); intros E.
    - apply dec_run_rest in E as [Hd [p ->]]; [|done]. split; [|by exists p]. rewrite len_app in *.
      pose proof (len_nonneg p). pose proof (len_nonneg r). lia.
    - apply dec_seg_rest in E as [Hd [p ->]]. split; [|by exists p]. rewrite Hd, len_app.
      change (len [0; 1; 2; 3; 4; 5; 6; 7]) with 8. pose proof (len_nonneg p). lia. }
  destruct (if h =? 255 then _ else _) as [[d r]|].
  - destruct H2 as [-> Hu2]. destruct (Hrest d r eq_refl) as [Hle [p Hp]].
    destruct (IH (pre ++ h :: rest) D L r (out ++ d) u2) as (u3 & ok & E & H3).
    { rewrite Hp, length_cons, length_app in Hf. lia. }
    { rewrite Hp in Hb'. by apply Forall_app in Hb' as [_ ?]. }
    { done. }
    { rewrite len_app. lia. }
    exists u3, ok. split; [done|]. destruct (decode fuel r); [|done]. by rewrite app_assoc.
  - destruct H2 as [-> Hl]. by exists u2, false.
Qed.

(** [sproto_unpack] computes the data of the stream, with any buffer. *)
Lemma sproto_unpack_spec src buf D : bytes src → 0 ≤ D ≤ len buf → 8 * len src ≤ INT_MAX →
  ∃ buf', len buf' = len buf ∧
    match unpacked_data src with
    | None => sproto_unpack src buf D = Some (buf', -1)
    | Some d => sproto_unpack src buf D = Some (buf', len d) ∧ (len d ≤ D → filled (len buf) buf' d)
    end.
Proof.
  intros Hb HD Hmax. unfold sproto_unpack, unpacked_data.
  destruct (unpack_loop_spec (S (length src)) src D (len buf) src [] (Unpack buf 0 D 0 (len src) 0))
    as (u & ok & -> & H); [lia|done| |change (len (@nil Z)) with 0; lia|].
  { split; cbn [u_src u_srcsz u_buffer u_bufsz u_buf u_size]; try done; try lia.
    - by exists [].
    - intros _. split; [done|]. split; [done|by exists buf].
    - change (len (@nil Z)) with 0. lia. }
  destruct (decode (S (length src)) src) as [d|].
  - destruct H as [-> [_ _ Hl Hf _ Hs]]. exists (u_buf u). split; [done|]. rewrite Hs.
    split; [done|]. intros Hle. by apply Hf.
  - destruct H as [-> Hl]. by exists (u_buf u).
Qed.

(** ** The functions of Lua *)

(** The upvalues of [pack] and [unpack] as they stay. *)
Definition up_ok (up : upvalues) : Prop :=
  len (up_output up) = up_osz up ∧ 0 < up_osz up ≤ ENCODE_MAXSIZE.

Lemma fresh_upvalues_ok : up_ok fresh_upvalues.
Proof. split; [by apply len_replicate|done]. Qed.

Lemma expand_loop_spec fuel : ∀ osz nsz, 0 < osz < 2 ^ 30 → nsz ≤ 2 ^ 30 →
  nsz ≤ osz * 2 ^ Z.of_nat fuel → (0 < fuel)%nat → osz < nsz →
  ∃ o, expand_loop fuel osz nsz = Some o ∧ nsz ≤ o < 2 * nsz.
Proof.
  induction fuel as [|fuel IH]; intros osz nsz Ho Hn Hf H0 Hlt; [lia|]. cbn [expand_loop].
  unfold int_mul. rewrite int_chk_Some by (unfold INT_MIN, INT_MAX; lia).
  destruct (Z.ltb_spec (osz * 2) nsz).
  - rewrite Nat2Z.inj_succ, Z.pow_succ_r in Hf by lia. apply IH; try lia.
    destruct fuel; [change (2 ^ Z.of_nat 0) with 1 in Hf|]; lia.
  - exists (osz * 2). split; [done|lia].
Qed.

Lemma expand_buffer_spec up nsz : up_ok up → up_osz up < nsz ≤ 2 ^ 30 →
  (∃ up', expand_buffer (up_osz up) nsz = Some (Return up') ∧ up_ok up' ∧ nsz ≤ up_osz up') ∨
  (expand_buffer (up_osz up) nsz = Some (Error "object is too large (>16777216)") ∧ ENCODE_MAXSIZE < 2 * nsz).
Proof.
  intros [Hl Ho] Hn. unfold expand_buffer, ENCODE_MAXSIZE in *.
  destruct (expand_loop_spec 32 (up_osz up) nsz) as (o & -> & Hno); [lia|lia| |lia|lia|].
  { change (2 ^ Z.of_nat 32) with 4294967296. lia. }
  destruct (Z.ltb_spec 0x1000000 o); [right; split; [by vm_compute|lia]|left].
  eexists. split; [done|]. unfold up_ok, ENCODE_MAXSIZE. cbn [up_osz up_output].
  split; [split; [apply len_replicate; lia|lia]|lia].
Qed.

Lemma pushlstring_filled n buf out : filled n buf out → pushlstring buf (len out) = Some out.
Proof.
  intros Hf. unfold pushlstring. rewrite (filled_read n buf out) by done. apply mapM_id_Some.
Qed.

Lemma decode_len fuel : ∀ src d, bytes src → decode fuel src = Some d → len d ≤ 8 * len src.
Proof.
  induction fuel as [|fuel IH]; intros src d Hb E; [done|]. cbn [decode] in E.
  destruct src as [|h src]; [by injection E as <-|]. inversion Hb as [|? ? _ Hb']; subst.
  destruct (if h =? 255 then _ else _) as [[x r]|] eqn:E1; [|done].
  destruct (decode fuel r) as [e|] eqn:E2; [|done]. injection E as <-.
  assert (len x + 8 * len r ≤ 8 * (1 + len src) ∧ ∃ pre, src = pre ++ r) as [Hle [pre ->]].
  { destruct (h =? 255).
    - apply dec_run_rest in E1 as [Hd [p ->]]; [|done]. split; [|by exists p]. rewrite len_app in *.
      pose proof (len_nonneg p). pose proof (len_nonneg r). lia.
    - apply dec_seg_rest in E1 as [Hd [p ->]]. split; [|by exists p]. rewrite Hd, len_app.
      change (len [0; 1; 2; 3; 4; 5; 6; 7]) with 8. pose proof (len_nonneg p). lia. }
  apply Forall_app in Hb' as [_ Hr]. apply (IH _ _ Hr) in E2. rewrite len_app, len_cons. lia.
Qed.

(** The data of a stream, or the error of a malformed one; a stream whose data
    needs more than the largest buffer is refused. *)
Lemma lunpack_spec up src : bytes src → up_ok up → 8 * len src ≤ 2 ^ 30 →
  match unpacked_data src with
  | None => lunpack up src = Some (Error "Invalid unpack stream")
  | Some d =>
      (∃ up', lunpack up src = Some (Return (d, up')) ∧ up_ok up') ∨
      (lunpack up src = Some (Error "object is too large (>16777216)") ∧ ENCODE_MAXSIZE < 2 * len d)
  end.
Proof.
  intros Hb [Hl Ho] Hmax. unfold lunpack.
  destruct (sproto_unpack_spec src (up_output up) (up_osz up) Hb) as (buf & Hbl & H);
    [unfold ENCODE_MAXSIZE in *; lia|unfold INT_MAX; lia|].
  destruct (unpacked_data src) as [d|] eqn:Ed; [|by rewrite H]. destruct H as [-> Hf].
  pose proof (len_nonneg d). destruct (Z.ltb_spec (len d) 0); [lia|].
  destruct (Z.ltb_spec (up_osz up) (len d)) as [Hbig|Hfit]; cycle 1.
  { left. rewrite (pushlstring_filled _ _ _ (Hf Hfit)). eexists. split; [done|]. split; [cbn; lia|done]. }
  pose proof (decode_len _ _ _ Hb Ed) as Hdl.
  destruct (expand_buffer_spec up (len d)) as [(up' & -> & [Hl' Ho'] & Hd)|[-> Hd]]; [by split|lia| |by right].
  destruct (sproto_unpack_spec src (up_output up') (len d) Hb) as (buf' & Hbl' & H');
    [lia|unfold INT_MAX; lia|]. rewrite Ed in H'. destruct H' as [-> Hf'].
  destruct (Z.ltb_spec (len d) 0); [lia|]. left. rewrite (pushlstring_filled _ _ _ (Hf' ltac:(done))).
  eexists. split; [done|]. split; [cbn; lia|done].
Qed.




