(* ===== verification/SprotoCodec.v ===== *)
(** * Messages of sproto: lualib-src/sproto/sproto.c and lsproto.c

    [sproto_encode] walks the fields of a type and asks a callback for the value of
    each; [sproto_decode] finds the fields of a message and gives them to a callback.
    The callbacks of lsproto.c, [encode] and [decode], read and build Lua tables.

    All pointers into the buffer of a call to [sproto_encode] are offsets; the room a
    call gets always goes to the end of the buffer.  What a callback leaves in the
    union for integers is the second part of its result.  The callbacks call the two
    functions again for structs, at most [ENCODE_DEEPLEVEL] deep: that depth is the
    fuel.  Tables are those of [Seri]; what Lua does with other values is the
    interface [LuaApi]. *)

From S2P Require Import Prelude Seri.

Definition SIZEOF_LENGTH : Z := 4.
Definition SIZEOF_HEADER : Z := 2.
Definition SIZEOF_FIELD : Z := 2.
Definition SIZEOF_INT64 : Z := 8.
Definition SIZEOF_INT32 : Z := 4.
Definition SPROTO_TINTEGER : Z := 0.
Definition SPROTO_TBOOLEAN : Z := 1.
Definition SPROTO_TSTRING : Z := 2.
Definition SPROTO_TDOUBLE : Z := 3.
Definition SPROTO_TSTRUCT : Z := 4.
Definition SPROTO_TARRAY : Z := 0x80.
Definition SPROTO_CB_ERROR : Z := -1.
Definition SPROTO_CB_NIL : Z := -2.
Definition SPROTO_CB_NOARRAY : Z := -3.
Definition ENCODE_BUFFERSIZE : Z := 2050.
Definition ENCODE_MAXSIZE : Z := 0x1000000.
Definition ENCODE_DEEPLEVEL : nat := 64.

(** ** Types *)

(** [f_st] is the index of the type, of -1 the pointer [NULL]. *)
Record field := Field {
  f_tag : Z; f_type : Z; f_name : list Z; f_st : Z; f_key : Z; f_map : Z; f_extra : Z
}.

Record sproto_type := SprotoType { t_name : list Z; t_n : Z; t_base : Z; t_maxn : Z; t_f : list field }.

Abbreviation sproto := (list sproto_type).

(** The loop of [findtag]. *)
Fixpoint findtag_loop (fuel : nat) (st : sproto_type) (tag begin end_ : Z) : option (option field) :=
  match fuel with
  | O => None
  | S fuel =>
      if begin <? end_ then
        let mid := (begin + end_) / 2 in
        f ← (t_f st).[mid];
        let t := f_tag f in
        if t =? tag then Some (Some f)
        else if t <? tag then findtag_loop fuel st tag (mid + 1) end_
        else findtag_loop fuel st tag begin mid
      else Some None
  end.

Definition findtag (st : sproto_type) (tag : Z) : option (option field) :=
  if 0 <=? t_base st then
    let tag := tag - t_base st in
    if (tag <? 0) || (t_n st <=? tag) then Some None
    else f ← (t_f st).[tag]; Some (Some f)
  else findtag_loop (S (Z.to_nat (t_n st))) st tag 0 (t_n st).

(** ** The argument of a callback *)

(** [a_u] is the integer [value] points to, [a_value] the offset it points to. *)
Record sproto_arg := Arg {
  a_field : field; a_type : Z; a_u : Z; a_value : Z; a_length : Z; a_index : Z;
  a_names : option (list Z * list Z)
}.
#[export] Instance eta_arg : Eta sproto_arg := λ a,
  Arg (a_field a) (a_type a) (a_u a) (a_value a) (a_length a) (a_index a) (a_names a).

(** [ktagname] and [vtagname]: the names of the first two fields of the type. *)
Definition map_names (types : sproto) (f : field) : option (option (list Z * list Z)) :=
  if 0 <? f_map f then
    st ← types.[f_st f]; k ← (t_f st).[0]; v ← (t_f st).[1]; Some (Some (f_name k, f_name v))
  else Some None.

(** ** Encoding *)

(** The size a callback returns, the integer, its own state and the buffer. *)
Definition callback (U : Type) : Type := sproto_arg → U → block → option (result (Z * Z * U * block)).

Definition fill_size (buf : block) (data sz : Z) : option block :=
  mem_write buf data (map Some [sz &ᵤ 0xff; (sz >>ᵤ 8) &ᵤ 0xff; (sz >>ᵤ 16) &ᵤ 0xff; (sz >>ᵤ 24) &ᵤ 0xff]).

(** The stores of a [uint32_t] and a [uint64_t]. *)
Definition put_uint32 (buf : block) (data v : Z) : option block :=
  mem_write buf data (map Some [v &ᵤ 0xff; (v >>ᵤ 8) &ᵤ 0xff; (v >>ᵤ 16) &ᵤ 0xff; (v >>ᵤ 24) &ᵤ 0xff]).
Definition put_uint64 (buf : block) (data v : Z) : option block :=
  mem_write buf data (map Some
    [v &ᵤ 0xff; (v >>ᵤ 8) &ᵤ 0xff; (v >>ᵤ 16) &ᵤ 0xff; (v >>ᵤ 24) &ᵤ 0xff;
     (v >>ᵤ 32) &ᵤ 0xff; (v >>ᵤ 40) &ᵤ 0xff; (v >>ᵤ 48) &ᵤ 0xff; (v >>ᵤ 56) &ᵤ 0xff]).

(** [size] is never negative, so the comparisons with [sizeof] are those of integers. *)
Definition encode_integer (v : Z) (buf : block) (data size : Z) : option (Z * block) :=
  if size <? SIZEOF_LENGTH + 4 then Some (-1, buf)
  else
    buf ← put_uint32 buf (data + 4) v;
    buf ← fill_size buf data 4;
    Some (4 + SIZEOF_LENGTH, buf).

Definition encode_uint64 (v : Z) (buf : block) (data size : Z) : option (Z * block) :=
  if size <? SIZEOF_LENGTH + 8 then Some (-1, buf)
  else
    buf ← put_uint64 buf (data + 4) v;
    buf ← fill_size buf data 8;
    Some (8 + SIZEOF_LENGTH, buf).

Definition uint32_to_uint64 (negative : Z) (buf : block) (buffer : Z) : option block :=
  mem_write buf (buffer + 4) (replicate 4 (Some (if truth negative then 0xff else 0))).

Section Encode.
Context {U : Type} (cb : callback U).

Definition encode_object (a : sproto_arg) (u : U) (buf : block) (data size : Z) : option (result (Z * U * block)) :=
  if size <? SIZEOF_LENGTH then Some (Return (-1, u, buf))
  else
    '(sz, _, u, buf) ⇐ cb (a <| a_value := data + SIZEOF_LENGTH |> <| a_length := size - SIZEOF_LENGTH |>) u buf;
    if sz <? 0 then Some (Return (if sz =? SPROTO_CB_NIL then 0 else -1, u, buf))
    else
      assert! sz <=? size - SIZEOF_LENGTH;
      buf ← fill_size buf data sz;
      Some (Return (sz + SIZEOF_LENGTH, u, buf)).

(** The integers before [index] get eight bytes each. *)
Definition rearrange (buf : block) (header index : Z) : option block :=
  for_down (Z.to_nat (index - 1)) (index - 2) (λ i buf,
    x ← mem_read buf (header + 1 + i * SIZEOF_INT32) SIZEOF_INT32;
    buf ← mem_write buf (header + 1 + i * SIZEOF_INT64) x;
    c ← buf.[header + 1 + i * SIZEOF_INT64 + 3];
    b ← c;
    uint32_to_uint64 (b &ᵤ 0x80) buf (header + 1 + i * SIZEOF_INT64)) buf.

(** The loop of [encode_integer_array]: the end of the array and the length of its
    integers ([None] for [NULL]), and [noarray].  Each round takes four bytes. *)
Fixpoint integer_loop (fuel : nat) (a : sproto_arg) (u : U) (buf : block) (header buffer size intlen index : Z) :
    option (result (option (Z * Z) * bool * U * block)) :=
  match fuel with
  | O => None
  | S fuel =>
      '(sz, v, u, buf) ⇐ cb (a <| a_index := index |>) u buf;
      if sz <=? 0 then
        if sz =? SPROTO_CB_NIL then Some (Return (Some (buffer, intlen), false, u, buf))
        else if sz =? SPROTO_CB_NOARRAY then Some (Return (Some (buffer, intlen), true, u, buf))
        else Some (Return (None, false, u, buf))
      else if size <? SIZEOF_INT64 then Some (Return (None, false, u, buf))
      else if sz =? SIZEOF_INT32 then
        buf ← put_uint32 buf buffer v;
        buf ← (if intlen =? SIZEOF_INT64 then uint32_to_uint64 (v &ᵤ 0x80000000) buf buffer else Some buf);
        integer_loop fuel a u buf header (buffer + intlen) (size - intlen) intlen (index + 1)
      else if negb (sz =? SIZEOF_INT64) then Some (Return (None, false, u, buf))
      else if intlen =? SIZEOF_INT32 then
        let size := size - (index - 1) * SIZEOF_INT32 in
        if size <? SIZEOF_INT64 then Some (Return (None, false, u, buf))
        else
          let buffer := buffer + (index - 1) * SIZEOF_INT32 in
          buf ← rearrange buf header index;
          buf ← put_uint64 buf buffer v;
          integer_loop fuel a u buf header (buffer + SIZEOF_INT64) (size - SIZEOF_INT64) SIZEOF_INT64 (index + 1)
      else
        buf ← put_uint64 buf buffer v;
        integer_loop fuel a u buf header (buffer + intlen) (size - intlen) intlen (index + 1)
  end.

Definition encode_integer_array (a : sproto_arg) (u : U) (buf : block) (buffer size : Z) :
    option (result (option Z * bool * U * block)) :=
  let header := buffer in
  if size <? 1 then Some (Return (None, false, u, buf))
  else
    '(r, noarray, u, buf) ⇐ integer_loop (S (Z.to_nat size)) a u buf header (buffer + 1) (size - 1) SIZEOF_INT32 1;
    match r with
    | None => Some (Return (None, noarray, u, buf))
    | Some (buffer, intlen) =>
        if buffer =? header + 1 then Some (Return (Some header, noarray, u, buf))
        else buf ← buf.[header <- Some (u8 intlen)]; Some (Return (Some buffer, noarray, u, buf))
    end.

Fixpoint encode_array_object (fuel : nat) (a : sproto_arg) (u : U) (buf : block) (buffer size index : Z) :
    option (result (option Z * bool * U * block)) :=
  match fuel with
  | O => None
  | S fuel =>
      if size <? SIZEOF_LENGTH then Some (Return (None, false, u, buf))
      else
        let size := size - SIZEOF_LENGTH in
        '(sz, _, u, buf) ⇐
          cb (a <| a_index := index |> <| a_value := buffer + SIZEOF_LENGTH |> <| a_length := size |>) u buf;
        if sz <? 0 then
          if sz =? SPROTO_CB_NIL then Some (Return (Some buffer, false, u, buf))
          else if sz =? SPROTO_CB_NOARRAY then Some (Return (Some buffer, true, u, buf))
          else Some (Return (None, false, u, buf))
        else
          buf ← fill_size buf buffer sz;
          encode_array_object fuel a u buf (buffer + SIZEOF_LENGTH + sz) (size - sz) (index + 1)
  end.

(** The loop over booleans of [encode_array]. *)
Fixpoint boolean_loop (fuel : nat) (a : sproto_arg) (u : U) (buf : block) (buffer size index : Z) :
    option (result (option Z * bool * U * block)) :=
  match fuel with
  | O => None
  | S fuel =>
      '(sz, v, u, buf) ⇐ cb (a <| a_index := index |>) u buf;
      if sz <? 0 then
        if sz =? SPROTO_CB_NIL then Some (Return (Some buffer, false, u, buf))
        else if sz =? SPROTO_CB_NOARRAY then Some (Return (Some buffer, true, u, buf))
        else Some (Return (None, false, u, buf))
      else if size <? 1 then Some (Return (None, false, u, buf))
      else
        buf ← buf.[buffer <- Some (of_bool (truth v))];
        boolean_loop fuel a u buf (buffer + 1) (size - 1) (index + 1)
  end.

Definition encode_array (a : sproto_arg) (u : U) (buf : block) (data size : Z) : option (result (Z * U * block)) :=
  if size <? SIZEOF_LENGTH then Some (Return (-1, u, buf))
  else
    let size := size - SIZEOF_LENGTH in
    let buffer := data + SIZEOF_LENGTH in
    let fuel := S (S (Z.to_nat size)) in
    '(r, noarray, u, buf) ⇐
      (if (a_type a =? SPROTO_TDOUBLE) || (a_type a =? SPROTO_TINTEGER) then encode_integer_array a u buf buffer size
       else if a_type a =? SPROTO_TBOOLEAN then boolean_loop fuel a u buf buffer size 1
       else encode_array_object fuel a u buf buffer size 1);
    match r with
    | None => Some (Return (-1, u, buf))
    | Some buffer =>
        if (noarray : bool) then Some (Return (0, u, buf))
        else
          let sz := buffer - (data + SIZEOF_LENGTH) in
          buf ← fill_size buf data sz;
          Some (Return (sz + SIZEOF_LENGTH, u, buf))
    end.

(** What is done with a field that is no array: the loop continues with the next one,
    it has a size and a value for its record, or [sproto_encode] returns. *)
Inductive scalar := Continue | Sized (sz value : Z) | Returned (r : Z).

Definition encode_scalar (a : sproto_arg) (u : U) (buf : block) (data size : Z) : option (result (scalar * U * block)) :=
  let type := a_type a in
  if (type =? SPROTO_TDOUBLE) || (type =? SPROTO_TINTEGER) || (type =? SPROTO_TBOOLEAN) then
    '(sz, v, u, buf) ⇐ cb a u buf;
    if sz <? 0 then
      Some (Return (if sz =? SPROTO_CB_NIL then Continue
                    else if sz =? SPROTO_CB_NOARRAY then Returned 0 else Returned (-1), u, buf))
    else if sz =? SIZEOF_INT32 then
      if u32 v <? 0x7fff then Some (Return (Sized 2 ((u32 v + 1) * 2), u, buf))
      else '(sz, buf) ← encode_integer (u32 v) buf data size; Some (Return (Sized sz 0, u, buf))
    else if sz =? SIZEOF_INT64 then
      '(sz, buf) ← encode_uint64 v buf data size; Some (Return (Sized sz 0, u, buf))
    else Some (Return (Returned (-1), u, buf))
  else if (type =? SPROTO_TSTRUCT) || (type =? SPROTO_TSTRING) then
    '(sz, u, buf) ⇐ encode_object a u buf data size; Some (Return (Sized sz 0, u, buf))
  else Some (Return (Sized (-1) 0, u, buf)).

Record encode_state := Enc { e_buf : block; e_data : Z; e_size : Z; e_index : Z; e_lasttag : Z; e_u : U }.

(** The record of a field at [header]; [None] if the gap between the tags is too wide. *)
Definition put_record (s : encode_state) (header : Z) (f : field) (sz value : Z) : option (option encode_state) :=
  let '(data, size) := if value =? 0 then (e_data s + sz, e_size s - sz) else (e_data s, e_size s) in
  let record := header + SIZEOF_HEADER + SIZEOF_FIELD * e_index s in
  let tag := f_tag f - e_lasttag s - 1 in
  let put buf record v := mem_write buf record (map Some [v &ᵤ 0xff; (v >>ᵤ 8) &ᵤ 0xff]) in
  if 0 <? tag then
    let tag := (tag - 1) * 2 + 1 in
    if 0xffff <? tag then Some None
    else
      buf ← put (e_buf s) record tag;
      buf ← put buf (record + SIZEOF_FIELD) value;
      Some (Some (Enc buf data size (e_index s + 2) (f_tag f) (e_u s)))
  else
    buf ← put (e_buf s) record value;
    Some (Some (Enc buf data size (e_index s + 1) (f_tag f) (e_u s))).

(** The value of a field, an array or not. *)
Definition encode_value (types : sproto) (f : field) (u : U) (buf : block) (data size : Z) : option (result (scalar * U * block)) :=
  let type := f_type f in
  if truth (Z.land type SPROTO_TARRAY) then
    names ← map_names types f;
    '(sz, u, buf) ⇐ encode_array (Arg f (Z.ldiff type SPROTO_TARRAY) 0 0 8 0 names) u buf data size;
    Some (Return (Sized sz 0, u, buf))
  else encode_scalar (Arg f type 0 0 8 0 None) u buf data size.

(** One round of the loop over the fields; [inr] is a [return]. *)
Definition encode_field (types : sproto) (header : Z) (f : field) (s : encode_state) : option (result (encode_state + Z)) :=
  '(r, u, buf) ⇐ encode_value types f (e_u s) (e_buf s) (e_data s) (e_size s);
  let s := Enc buf (e_data s) (e_size s) (e_index s) (e_lasttag s) u in
  match r with
  | Continue => Some (Return (inl s))
  | Returned r => Some (Return (inr r))
  | Sized sz value =>
      if sz <? 0 then Some (Return (inr (-1)))
      else if 0 <? sz then
        s ← put_record s header f sz value;
        Some (Return (match s with Some s => inl s | None => inr (-1) end))
      else Some (Return (inl s))
  end.

Fixpoint encode_fields (types : sproto) (header : Z) (fs : list field) (s : encode_state) : option (result (encode_state + Z)) :=
  match fs with
  | [] => Some (Return (inl s))
  | f :: fs =>
      r ⇐ encode_field types header f s;
      match r with inl s => encode_fields types header fs s | inr r => Some (Return (inr r)) end
  end.

(** -1, or the size of the message at [buffer]. *)
Definition sproto_encode (types : sproto) (st : sproto_type) (buf : block) (buffer size : Z) (u : U) : option (result (Z * block)) :=
  let header := buffer in
  let header_sz := SIZEOF_HEADER + t_maxn st * SIZEOF_FIELD in
  if size <? header_sz then Some (Return (-1, buf))
  else
    r ⇐ encode_fields types header (t_f st) (Enc buf (header + header_sz) (size - header_sz) 0 (-1) u);
    match r with
    | inr r => Some (Return (r, buf))
    | inl s =>
        let index := e_index s in
        buf ← mem_write (e_buf s) header (map Some [index &ᵤ 0xff; (index >>ᵤ 8) &ᵤ 0xff]);
        let datasz := e_data s - (header + header_sz) in
        buf ← (if negb (index =? t_maxn st) then
                 x ← mem_read buf (header + header_sz) datasz;
                 mem_write buf (header + SIZEOF_HEADER + index * SIZEOF_FIELD) x
               else Some buf);
        Some (Return (SIZEOF_HEADER + index * SIZEOF_FIELD + datasz, buf))
    end.

End Encode.

(** ** Decoding *)

(** The callback's result, its own state and the store of tables. *)
Definition decode_callback (U : Type) : Type := sproto_arg → U → option (result (Z * U)).

Definition toword (p : list Z) (off : Z) : option Z :=
  a ← p.[off]; b ← p.[off + 1]; Some (a |ᵤ Z.shiftl b 8).
Definition todword (p : list Z) (off : Z) : option Z :=
  a ← p.[off]; b ← p.[off + 1]; c ← p.[off + 2]; d ← p.[off + 3];
  Some (u32 (a |ᵤ b <<ₛ 8 |ᵤ c <<ₛ 16 |ᵤ d <<ₛ 24)).

Definition expand64 (v : Z) : Z :=
  if truth (v &ᵤ 0x80000000) then v |ᵤ Z.shiftl (2 ^ 32 - 1) 32 else v.

Section Decode.
Context {U : Type} (cb : decode_callback U).

(** The data of the call; pointers are offsets. *)
Context (data : list Z).

(** [sz] is an [int], [hsz] and its comparison with [sz] are unsigned. *)
Fixpoint decode_array_object (fuel : nat) (a : sproto_arg) (u : U) (stream sz index : Z) : option (result (Z * U)) :=
  match fuel with
  | O => None
  | S fuel =>
      if 0 <? sz then
        if sz <? SIZEOF_LENGTH then Some (Return (-1, u))
        else
          hsz ← todword data stream;
          let stream := stream + SIZEOF_LENGTH in
          let sz := sz - SIZEOF_LENGTH in
          if sz <? hsz then Some (Return (-1, u))
          else
            '(r, u) ⇐ cb (a <| a_index := index |> <| a_value := stream |> <| a_length := hsz |>) u;
            if truth r then Some (Return (-1, u))
            else decode_array_object fuel a u (stream + hsz) (sz - hsz) (index + 1)
      else Some (Return (0, u))
  end.

(** The loops over integers and booleans: [read i] is element [i] as a [uint64_t]. *)
Fixpoint decode_elements (n : nat) (read : Z → option Z) (a : sproto_arg) (u : U) (i : Z) : option (result U) :=
  match n with
  | O => Some (Return u)
  | S n =>
      value ← read i;
      '(_, u) ⇐ cb (a <| a_index := i + 1 |> <| a_u := value |> <| a_length := 8 |>) u;
      decode_elements n read a u (i + 1)
  end.

Definition decode_array (a : sproto_arg) (u : U) (stream : Z) : option (result (Z * U)) :=
  sz ← todword data stream;
  let type := a_type a in
  if sz =? 0 then
    '(_, u) ⇐ cb (a <| a_index := -1 |> <| a_length := 0 |>) u; Some (Return (0, u))
  else
    let stream := stream + SIZEOF_LENGTH in
    if (type =? SPROTO_TDOUBLE) || (type =? SPROTO_TINTEGER) then
      len ← data.[stream];
      let stream := stream + 1 in
      let sz := sz - 1 in
      if len =? SIZEOF_INT32 then
        if negb (sz mod SIZEOF_INT32 =? 0) then Some (Return (-1, u))
        else
          u ⇐ decode_elements (Z.to_nat (sz / SIZEOF_INT32)) (λ i,
            x ← todword data (stream + i * SIZEOF_INT32); Some (expand64 x)) a u 0;
          Some (Return (0, u))
      else if len =? SIZEOF_INT64 then
        if negb (sz mod SIZEOF_INT64 =? 0) then Some (Return (-1, u))
        else
          u ⇐ decode_elements (Z.to_nat (sz / SIZEOF_INT64)) (λ i,
            low ← todword data (stream + i * SIZEOF_INT64);
            hi ← todword data (stream + i * SIZEOF_INT64 + SIZEOF_INT32);
            Some (low |ᵤ Z.shiftl hi 32)) a u 0;
          Some (Return (0, u))
      else Some (Return (-1, u))
    else if type =? SPROTO_TBOOLEAN then
      u ⇐ decode_elements (Z.to_nat sz) (λ i, data.[stream + i]) a u 0;
      Some (Return (0, u))
    else if (type =? SPROTO_TSTRING) || (type =? SPROTO_TSTRUCT) then
      decode_array_object (S (Z.to_nat sz)) a u stream (s32 sz) 1
    else Some (Return (-1, u)).

(** The value of a field: its record has one ([0 <= value]) or its data start at
    [currentdata]. *)
Definition decode_value (types : sproto) (f : field) (u : U) (value currentdata : Z) : option (result (Z * U)) :=
  let a := Arg f (f_type f) 0 0 0 0 None in
  if value <? 0 then
    if truth (Z.land (f_type f) SPROTO_TARRAY) then
      names ← map_names types f;
      '(r, u) ⇐ decode_array (Arg f (Z.ldiff (f_type f) SPROTO_TARRAY) 0 0 0 0 names) u currentdata;
      Some (Return (if truth r then -1 else 0, u))
    else if (f_type f =? SPROTO_TDOUBLE) || (f_type f =? SPROTO_TINTEGER) then
      sz ← todword data currentdata;
      if sz =? SIZEOF_INT32 then
        x ← todword data (currentdata + SIZEOF_LENGTH);
        '(_, u) ⇐ cb (a <| a_u := expand64 x |> <| a_length := 8 |>) u;
        Some (Return (0, u))
      else if negb (sz =? SIZEOF_INT64) then Some (Return (-1, u))
      else
        low ← todword data (currentdata + SIZEOF_LENGTH);
        hi ← todword data (currentdata + SIZEOF_LENGTH + SIZEOF_INT32);
        '(_, u) ⇐ cb (a <| a_u := low |ᵤ Z.shiftl hi 32 |> <| a_length := 8 |>) u;
        Some (Return (0, u))
    else if (f_type f =? SPROTO_TSTRING) || (f_type f =? SPROTO_TSTRUCT) then
      sz ← todword data currentdata;
      '(r, u) ⇐ cb (a <| a_value := currentdata + SIZEOF_LENGTH |> <| a_length := s32 sz |>) u;
      Some (Return (if truth r then -1 else 0, u))
    else Some (Return (-1, u))
  else if negb (f_type f =? SPROTO_TINTEGER) && negb (f_type f =? SPROTO_TBOOLEAN) then Some (Return (-1, u))
  else
    '(_, u) ⇐ cb (a <| a_u := value |> <| a_length := 8 |>) u;
    Some (Return (0, u)).

(** The loop over the [n] records from [i] on: -1, or the bytes that are left. *)
Fixpoint decode_records (n : nat) (types : sproto) (st : sproto_type) (u : U) (stream i tag datastream size : Z) :
    option (result (Z * U)) :=
  match n with
  | O => Some (Return (size, u))
  | S n =>
      value ← toword data (stream + i * SIZEOF_FIELD);
      let tag := tag + 1 in
      if truth (value &ᵤ 1) then decode_records n types st u stream (i + 1) (tag + value / 2) datastream size
      else
        let value := value / 2 - 1 in
        let currentdata := datastream in
        r ← (if value <? 0 then
               if size <? SIZEOF_LENGTH then Some None
               else
                 sz ← todword data datastream;
                 if size <? u32 (sz + SIZEOF_LENGTH) then Some None
                 else Some (Some (datastream + u32 (sz + SIZEOF_LENGTH), size - u32 (sz + SIZEOF_LENGTH)))
             else Some (Some (datastream, size)));
        match r with
        | None => Some (Return (-1, u))
        | Some (datastream, size) =>
            f ← findtag st tag;
            match f with
            | None => decode_records n types st u stream (i + 1) tag datastream size
            | Some f =>
                '(r, u) ⇐ decode_value types f u value currentdata;
                if truth r then Some (Return (-1, u))
                else decode_records n types st u stream (i + 1) tag datastream size
            end
        end
  end.

(** The message has [size] bytes from [stream] on. *)
Definition sproto_decode (types : sproto) (st : sproto_type) (stream size : Z) (u : U) : option (result (Z * U)) :=
  let total := size in
  if size <? SIZEOF_HEADER then Some (Return (-1, u))
  else
    fn ← toword data stream;
    let stream := stream + SIZEOF_HEADER in
    let size := size - SIZEOF_HEADER in
    if size <? fn * SIZEOF_FIELD then Some (Return (-1, u))
    else
      '(rest, u) ⇐ decode_records (Z.to_nat fn) types st u stream 0 (-1) (stream + fn * SIZEOF_FIELD) (size - fn * SIZEOF_FIELD);
      Some (Return (if rest <? 0 then -1 else total - rest, u)).

End Decode.

(** ** The callback of [lencode] *)

(** What Lua and its C library do with values: an index into a value that is no table
    (strings have methods), the pairs a userdata gives by [__pairs],
    [lua_tointegerx], [lua_tonumber], and the arithmetic of decimals,
    [round(v * extra)] and [v / extra]. *)
Class LuaApi := {
  index_other : value → value → result value;
  other_pairs : value → option (list (value * value));
  lua_tointegerx : value → option Z;
  lua_tonumber : value → Z;
  round_decimal : value → Z → Z;
  divide_decimal : Z → Z → Z
}.

(** A value on the stack: [map_entry] is a table of its own. *)
Inductive pushed := Pushed (v : value) | Entry (t : gmap value value).

Record encode_ud := EncodeUd { tbl : pushed; array_tag : option Z; array_value : value; iter_key : nat }.

Section Lua.
Context {LT : LuaTables} {LA : LuaApi}.

Section LuaEncode.
Context (σ : store).

Definition lua_getfield (src : pushed) (k : value) : option (result value) :=
  match src with
  | Entry t => Some (Return (get t k))
  | Pushed (VTab l) => t ← σ !! l; Some (Return (get (fields t) k))
  | Pushed v => Some (index_other v k)
  end.

(** The pairs that [next_list] goes through; [None] for a value without any. *)
Definition pairs_of (v : value) : option (option (list (value * value))) :=
  match v with
  | VTab l => t ← σ !! l; Some (Some (default (lua_next (fields t)) (metapairs t)))
  | v => Some (other_pairs v)
  end.

(** [get_encodefield]: its code and what is on the stack. *)
Definition get_encodefield (a : sproto_arg) (ud : encode_ud) : option (result (Z * pushed * encode_ud)) :=
  let f := a_field a in
  if 0 <? a_index a then
    r ⇐ (if decide (array_tag ud = Some (f_tag f)) then Some (Return (Some ud))
         else
           v ⇐ lua_getfield (tbl ud) (VStr (f_name f));
           if is_nil v then Some (Return None)
           else
             ps ← pairs_of v;
             match ps with
             | None => Some (Error "should be a table or an userdata with metamethods")
             | Some _ => Some (Return (Some (EncodeUd (tbl ud) (Some (f_tag f)) v 0)))
             end);
    match r with
    | None => Some (Return (SPROTO_CB_NOARRAY, Pushed VNil, EncodeUd (tbl ud) (Some (f_tag f)) VNil 0))
    | Some ud =>
        if 0 <=? f_key f then
          ps ← pairs_of (array_value ud);
          ps ← ps;
          match ps !! iter_key ud with
          | None | Some (VNil, _) => Some (Return (SPROTO_CB_NIL, Pushed VNil, EncodeUd (tbl ud) (array_tag ud) (array_value ud) 0))
          | Some (k, v) =>
              let ud := EncodeUd (tbl ud) (array_tag ud) (array_value ud) (S (iter_key ud)) in
              match a_names a with
              | Some (kname, vname) =>
                  Some (Return (0, Entry (store_field (store_field ∅ (VStr vname) v) (VStr kname) k), ud))
              | None => Some (Return (0, Pushed v, ud))
              end
          end
        else
          v ⇐ lua_getfield (Pushed (array_value ud)) (VInt (a_index a));
          Some (Return (0, Pushed v, ud))
    end
  else
    v ⇐ lua_getfield (tbl ud) (VStr (f_name f));
    Some (Return (0, Pushed v, ud)).

(** [encode_one], where [struct] is the call of [sproto_encode]. *)
Definition encode_one (struct : sproto_arg → pushed → block → option (result (Z * block)))
    (a : sproto_arg) (x : pushed) (buf : block) : option (result (Z * Z * block)) :=
  let type := a_type a in
  let v := match x with Pushed v => v | Entry _ => VNil end in
  if type =? SPROTO_TINTEGER then
    n ⇐ (if truth (f_extra (a_field a)) then Some (Return (s64 (round_decimal v (f_extra (a_field a)))))
         else match lua_tointegerx v with Some n => Some (Return n) | None => Some (Error "is not an integer") end);
    let vh := Z.shiftr n 31 in
    if (vh =? 0) || (vh =? -1) then Some (Return (4, u32 n, buf)) else Some (Return (8, u64 n, buf))
  else if type =? SPROTO_TDOUBLE then Some (Return (8, u64 (lua_tonumber v), buf))
  else if type =? SPROTO_TBOOLEAN then
    match v with
    | VBool b => Some (Return (4, of_bool b, buf))
    | _ => Some (Error "is not a boolean")
    end
  else if type =? SPROTO_TSTRING then
    match v with
    | VStr s =>
        if a_length a <? len s then Some (Return (SPROTO_CB_ERROR, 0, buf))
        else buf ← mem_write buf (a_value a) (map Some s); Some (Return (len s, 0, buf))
    | _ => Some (Error "is not a string")
    end
  else if type =? SPROTO_TSTRUCT then
    '(r, buf) ⇐ struct a x buf;
    Some (Return (if r <? 0 then SPROTO_CB_ERROR else r, 0, buf))
  else Some (Error "Invalid field type").

Definition encode_start (x : pushed) : encode_ud := EncodeUd x None VNil 0.

(** [encode]; [deep] is [ENCODE_DEEPLEVEL - self->deep]. *)
Fixpoint encode (types : sproto) (deep : nat) : callback encode_ud := λ a ud buf,
  match deep with
  | O => Some (Error "The table is too deep")
  | S deep =>
      '(code, x, ud) ⇐ get_encodefield a ud;
      if code <? 0 then Some (Return (code, 0, ud, buf))
      else
        match x with
        | Pushed VNil => Some (Return (SPROTO_CB_NIL, 0, ud, buf))
        | x =>
            '(sz, v, buf) ⇐ encode_one (λ a x buf,
              st ← types.[f_st (a_field a)];
              sproto_encode (encode types deep) types st buf (a_value a) (a_length a) (encode_start x)) a x buf;
            Some (Return (sz, v, ud, buf))
        end
  end.

(** [osz] is positive. *)
Fixpoint expand_size (fuel : nat) (osz nsz : Z) : option Z :=
  match fuel with
  | O => None
  | S fuel => let osz := osz * 2 in if osz <? nsz then expand_size fuel osz nsz else Some osz
  end.

Definition expand_buffer (osz nsz : Z) : option (result (block * Z)) :=
  osz ← expand_size 32 osz nsz;
  if ENCODE_MAXSIZE <? osz then Some (Error "object is too large")
  else Some (Return (malloc osz, osz)).

(** The loop of [lencode]: the buffer at least doubles each time. *)
Fixpoint lencode_loop (fuel : nat) (types : sproto) (st : sproto_type) (x : value) (buffer : block) (sz : Z) :
    option (result (list Z * (block * Z))) :=
  match fuel with
  | O => None
  | S fuel =>
      '(r, buffer) ⇐ sproto_encode (encode types ENCODE_DEEPLEVEL) types st buffer 0 sz (encode_start (Pushed x));
      if r <? 0 then
        '(buffer, _) ⇐ expand_buffer sz (sz * 2);
        lencode_loop fuel types st x buffer (sz * 2)
      else
        s ← mem_read buffer 0 r;
        s ← mapM (λ x, x) s;
        Some (Return (s, (buffer, sz)))
  end.

(** The string and the upvalues, the shared buffer and its size. *)
Definition lencode (types : sproto) (st : sproto_type) (x : value) (up : block * Z) : option (result (list Z * (block * Z))) :=
  lencode_loop 32 types st x up.1 up.2.

End LuaEncode.

(** ** The callback of [ldecode] *)

(** [result_index], [array_index] and [map_entry] hold tables. *)
Record decode_ud := DecodeUd {
  d_store : store; d_array_tag : option Z; d_array : Z; d_result : Z;
  d_mainindex_tag : Z; d_key : value; d_map_entry : option Z
}.
#[local] Instance eta_decode_ud : Eta decode_ud := λ u,
  DecodeUd (d_store u) (d_array_tag u) (d_array u) (d_result u) (d_mainindex_tag u) (d_key u) (d_map_entry u).

(** [lua_setfield(L, result_index, tagname)]. *)
Definition setfield (σ : store) (l : Z) (name : list Z) (v : value) : option (result store) :=
  lua_rawset σ l (VStr name) v.

(** A struct into the table [result]; [Some] code where [decode] returns. *)
Definition decode_struct (call : sproto_arg → decode_ud → option (result (Z * decode_ud)))
    (a : sproto_arg) (ud : decode_ud) : option (result (value * decode_ud + Z * decode_ud)) :=
  let f := a_field a in
  let '(result, map_entry, σ) :=
    match a_names a with
    | Some _ =>
        match d_map_entry ud with
        | Some e => (e, Some e, d_store ud)
        | None => let '(e, σ) := lua_createtable (d_store ud) in (e, Some e, σ)
        end
    | None => let '(e, σ) := lua_createtable (d_store ud) in (e, d_map_entry ud, σ)
    end in
  let sub := DecodeUd σ None 0 result (if 0 <=? f_key f then f_key f else -1) VNil None in
  '(r, sub) ⇐ call a sub;
  let ud := ud <| d_store := d_store sub |> <| d_map_entry := map_entry |> in
  if r <? 0 then Some (Return (inr (SPROTO_CB_ERROR, ud)))
  else if negb (r =? a_length a) then Some (Return (inr (r, ud)))
  else if 0 <=? f_key f then
    match a_names a with
    | Some (kname, vname) =>
        t ← d_store ud !! result;
        let k := get (fields t) (VStr kname) in
        let v := get (fields t) (VStr vname) in
        if is_nil k then Some (Error "Can't find key field")
        else if is_nil v then Some (Error "Can't find value field")
        else σ ⇐ lua_rawset (d_store ud) (d_array ud) k v; Some (Return (inr (0, ud <| d_store := σ |>)))
    | None =>
        if is_nil (d_key sub) then Some (Error "Can't find main index")
        else σ ⇐ lua_rawset (d_store ud) (d_array ud) (d_key sub) (VTab result); Some (Return (inr (0, ud <| d_store := σ |>)))
    end
  else
    (* with a map and no key the next entry would overwrite this table: no schema has it *)
    match a_names a with Some _ => None | None => Some (Return (inl (VTab result, ud))) end.

(** The value for a field of the type; an [extra] makes an integer a decimal. *)
Definition decode_one (data : list Z) (call : sproto_arg → decode_ud → option (result (Z * decode_ud)))
    (a : sproto_arg) (ud : decode_ud) : option (result (value * decode_ud + Z * decode_ud)) :=
  let type := a_type a in
  if type =? SPROTO_TINTEGER then
    let n := s64 (a_u a) in
    Some (Return (inl (if truth (f_extra (a_field a)) then VReal (divide_decimal n (f_extra (a_field a))) else VInt n, ud)))
  else if type =? SPROTO_TDOUBLE then Some (Return (inl (VReal (a_u a), ud)))
  else if type =? SPROTO_TBOOLEAN then Some (Return (inl (VBool (truth (s32 (a_u a))), ud)))
  else if type =? SPROTO_TSTRING then
    if a_length a <? 0 then Some (Error "memory allocation error: block too big")
    else s ← mem_read data (a_value a) (a_length a); Some (Return (inl (VStr s, ud)))
  else if type =? SPROTO_TSTRUCT then decode_struct call a ud
  else Some (Error "Invalid type").

(** Where the value goes. *)
Definition decode_store (a : sproto_arg) (v : value) (ud : decode_ud) : option (result (Z * decode_ud)) :=
  let f := a_field a in
  if 0 <? a_index a then
    σ ← lua_rawseti (d_store ud) (d_array ud) (a_index a) v;
    Some (Return (0, ud <| d_store := σ |>))
  else
    let ud := if d_mainindex_tag ud =? f_tag f then ud <| d_key := v |> else ud in
    σ ⇐ setfield (d_store ud) (d_result ud) (f_name f) v;
    Some (Return (0, ud <| d_store := σ |>)).

(** [decode]; [deep] as for [encode]. *)
Fixpoint decode (data : list Z) (types : sproto) (deep : nat) : decode_callback decode_ud := λ a ud,
  match deep with
  | O => Some (Error "The table is too deep")
  | S deep =>
      let f := a_field a in
      let new := negb (a_index a =? 0) && negb (bool_decide (d_array_tag ud = Some (f_tag f))) in
      ud ⇐ (if new then
              let '(l, σ) := lua_createtable (d_store ud) in
              σ ⇐ setfield σ (d_result ud) (f_name f) (VTab l);
              Some (Return (ud <| d_store := σ |> <| d_array_tag := Some (f_tag f) |> <| d_array := l |>))
            else Some (Return ud));
      if new && (a_index a <? 0) then Some (Return (0, ud))
      else if a_index a <? 0 then None
      else
        r ⇐ decode_one data (λ a sub,
              st ← types.[f_st (a_field a)];
              sproto_decode (decode data types deep) data types st (a_value a) (a_length a) sub) a ud;
        match r with
        | inl (v, ud) => decode_store a v ud
        | inr r => Some (Return r)
        end
  end.

(** A string of [data] into the table that was given or a new one: the table and the
    bytes that were read. *)
Definition ldecode (types : sproto) (st : sproto_type) (data : list Z) (t : option Z) (σ : store) : option (result (value * Z * store)) :=
  let '(l, σ) := match t with Some l => (l, σ) | None => lua_createtable σ end in
  '(r, ud) ⇐ sproto_decode (decode data types ENCODE_DEEPLEVEL) data types st 0 (s32 (len data)) (DecodeUd σ None 0 l (-1) VNil None);
  if r <? 0 then Some (Error "decode error")
  else Some (Return (VTab l, r, d_store ud)).

End Lua.
