(* ===== verification/SprotoEncode.v ===== *)
(** * The encoder of sproto against the format

    A message is a tree of the values of its fields ([content]).  [wire] is the format
    of sproto, [message_of] what the encoder sees in a Lua table.  The encoder writes
    the bytes of [wire], or finds the buffer too small, which it does not with
    [room] bytes. *)

From S2P Require Import Prelude Seri SprotoCodec.

(** ** Messages *)

(** The values of the fields of a struct in the order of its type. *)
Inductive msg :=
| MInt (x : Z)
| MReal (bits : Z)
| MBool (b : bool)
| MStr (s : list Z)
| MStruct (fs : list (option content))
with content :=
| One (m : msg)
| Many (l : list msg).

Definition is_array (f : field) : bool := truth (Z.land (f_type f) SPROTO_TARRAY).
Definition elem_type (f : field) : Z := if is_array f then Z.ldiff (f_type f) SPROTO_TARRAY else f_type f.

(** An integer that [n >> 31] finds small. *)
Definition small (x : Z) : bool := (- 2 ^ 31 <=? x) && (x <? 2 ^ 31).

Definition with_size (w : list Z) : list Z := le_bytes 4 (len w) ++ w.

(** The elements of an array of integers or doubles. *)
Definition wire_integers (l : list Z) : list Z :=
  match l with
  | [] => []
  | _ => if forallb small l then 4 :: flat_map (le_bytes 4) l else 8 :: flat_map (le_bytes 8) l
  end.
Definition wire_doubles (l : list Z) : list Z := match l with [] => [] | _ => 8 :: flat_map (le_bytes 8) l end.

Definition get_int (m : msg) : option Z := match m with MInt x => Some x | _ => None end.
Definition get_double (m : msg) : option Z := match m with MReal x => Some x | _ => None end.
Definition get_bool (m : msg) : option Z := match m with MBool b => Some (of_bool b) | _ => None end.

Section Wire.
Context (types : sproto).

(** The bytes of a string or a struct. *)
Definition wire_object (struct : sproto_type → list (option content) → option (list Z)) (f : field) (m : msg) : option (list Z) :=
  match m with
  | MStr s => if elem_type f =? SPROTO_TSTRING then Some s else None
  | MStruct fs => if elem_type f =? SPROTO_TSTRUCT then st ← types.[f_st f]; struct st fs else None
  | _ => None
  end.

(** The value of the record of a field, and its data if that is 0. *)
Definition wire_content (struct : sproto_type → list (option content) → option (list Z)) (f : field) (c : content) : option (Z * list Z) :=
  let ty := elem_type f in
  match c with
  | One m =>
      if is_array f then None
      else if ty =? SPROTO_TINTEGER then
        x ← get_int m;
        Some (if small x then if u32 x <? 0x7fff then ((u32 x + 1) * 2, []) else (0, with_size (le_bytes 4 x))
              else (0, with_size (le_bytes 8 x)))
      else if ty =? SPROTO_TDOUBLE then x ← get_double m; Some (0, with_size (le_bytes 8 x))
      else if ty =? SPROTO_TBOOLEAN then x ← get_bool m; Some ((x + 1) * 2, [])
      else w ← wire_object struct f m; Some (0, with_size w)
  | Many l =>
      if negb (is_array f) then None
      else
        w ← (if ty =? SPROTO_TINTEGER then l ← mapM get_int l; Some (wire_integers l)
             else if ty =? SPROTO_TDOUBLE then l ← mapM get_double l; Some (wire_doubles l)
             else if ty =? SPROTO_TBOOLEAN then mapM get_bool l
             else ws ← mapM (wire_object struct f) l; Some (flat_map with_size ws));
        Some (0, with_size w)
  end.

(** The records of the fields with tags from [last + 1] on, and their data. *)
Fixpoint wire_fields (last : Z) (fs : list (field * option (Z * list Z))) : list Z * list Z :=
  match fs with
  | [] => ([], [])
  | (f, None) :: fs => wire_fields last fs
  | (f, Some (value, data)) :: fs =>
      let '(records, ds) := wire_fields (f_tag f) fs in
      let gap := f_tag f - last - 1 in
      ((if 0 <? gap then [(gap - 1) * 2 + 1] else []) ++ value :: records, data ++ ds)
  end.

Definition wire_struct (fs : list (field * option (Z * list Z))) : list Z :=
  let '(records, data) := wire_fields (-1) fs in
  le_bytes 2 (len records) ++ flat_map (le_bytes 2) records ++ data.

(** What may be absent. *)
Definition traverse {A B} (g : A → option B) (x : option A) : option (option B) :=
  match x with Some x => y ← g x; Some (Some y) | None => Some None end.

Definition wire_types (struct : sproto_type → list (option content) → option (list Z)) (fs : list field) (cs : list (option content)) :
    option (list (option (Z * list Z))) :=
  mapM (λ '(f, c), traverse (wire_content struct f) c) (zip fs cs).

Fixpoint wire (d : nat) (st : sproto_type) (cs : list (option content)) : option (list Z) :=
  match d with
  | O => None
  | S d =>
      assert! (length cs =? length (t_f st))%nat;
      ws ← wire_types (wire d) (t_f st) cs;
      Some (wire_struct (zip (t_f st) ws))
  end.

(** ** Space *)

Definition header_size (st : sproto_type) : Z := SIZEOF_HEADER + t_maxn st * SIZEOF_FIELD.

Definition sum (l : list Z) : Z := foldr Z.add 0 l.

Definition room_object (struct : sproto_type → list (option content) → Z) (f : field) (m : msg) : Z :=
  match m with
  | MStr s => len s
  | MStruct fs => match types.[f_st f] with Some st => struct st fs | None => 0 end
  | _ => 0
  end.

Definition room_content (struct : sproto_type → list (option content) → Z) (f : field) (c : content) : Z :=
  match c with
  | One m => if elem_type f =? SPROTO_TSTRING then 4 + room_object struct f m
             else if elem_type f =? SPROTO_TSTRUCT then 4 + room_object struct f m else 12
  | Many l => if elem_type f =? SPROTO_TSTRING then 8 + sum (map (λ m, 4 + room_object struct f m) l)
              else if elem_type f =? SPROTO_TSTRUCT then 8 + sum (map (λ m, 4 + room_object struct f m) l)
              else 5 + 8 * len l + 8
  end.

(** An upper bound of the bytes that the encoder writes at any time. *)
Fixpoint room (d : nat) (st : sproto_type) (cs : list (option content)) : Z :=
  match d with
  | O => 0
  | S d => header_size st + sum (zip_with (λ f c, match c with Some c => room_content (room d) f c | None => 8 end) (t_f st) cs)
  end.

End Wire.

(** ** What the encoder sees in a table *)

Section Read.
Context {LT : LuaTables} {LA : LuaApi} (σ : store) (types : sproto).

(** The elements of an array at [v], in the order of the encoder. *)
Definition elements (f : field) (v : value) : option (list pushed) :=
  match v with
  | VTab l =>
      t ← σ !! l;
      if 0 <=? f_key f then
        let ps := default (lua_next (fields t)) (metapairs t) in
        assert! forallb (λ p, negb (is_nil p.1) && negb (is_nil p.2)) ps;
        names ← map_names types f;
        Some (map (λ p, match names with
                        | Some (kname, vname) => Entry (store_field (store_field ∅ (VStr vname) p.2) (VStr kname) p.1)
                        | None => Pushed p.2
                        end) ps)
      else Some (map (λ i, Pushed (get (fields t) (VInt (Z.of_nat i)))) (seq 1 (Z.to_nat (border_from (size (fields t)) (fields t) 0))))
  | _ => None
  end.

Definition read_msg (struct : sproto_type → pushed → option (list (option content))) (f : field) (x : pushed) : option msg :=
  let ty := elem_type f in
  if ty =? SPROTO_TSTRUCT then st ← types.[f_st f]; cs ← struct st x; Some (MStruct cs)
  else
    match x with
    | Entry _ => None
    | Pushed v =>
        if ty =? SPROTO_TINTEGER then
          if truth (f_extra f) then Some (MInt (s64 (round_decimal v (f_extra f)))) else x ← lua_tointegerx v; Some (MInt x)
        else if ty =? SPROTO_TDOUBLE then Some (MReal (u64 (lua_tonumber v)))
        else if ty =? SPROTO_TBOOLEAN then match v with VBool b => Some (MBool b) | _ => None end
        else if ty =? SPROTO_TSTRING then match v with VStr s => Some (MStr s) | _ => None end
        else None
    end.

Definition read_content (struct : sproto_type → pushed → option (list (option content))) (src : pushed) (f : field) : option (option content) :=
  match lua_getfield σ src (VStr (f_name f)) with
  | Some (Return v) =>
      if is_nil v then Some None
      else if is_array f then xs ← elements f v; l ← mapM (read_msg struct f) xs; Some (Some (Many l))
      else m ← read_msg struct f (Pushed v); Some (Some (One m))
  | _ => None
  end.

Fixpoint message_of (d : nat) (st : sproto_type) (src : pushed) : option (list (option content)) :=
  match d with
  | O => None
  | S d => mapM (read_content (message_of d) src) (t_f st)
  end.

End Read.

(** ** Well-formed types *)

(** The records of fields with tags from [last + 1] on, and of the gaps between them. *)
Fixpoint max_records (last : Z) (fs : list field) : Z :=
  match fs with
  | [] => 0
  | f :: fs => (if last + 1 <? f_tag f then 2 else 1) + max_records (f_tag f) fs
  end.

Fixpoint ascending (last : Z) (fs : list field) : Prop :=
  match fs with [] => True | f :: fs => last < f_tag f ∧ ascending (f_tag f) fs end.

Record field_ok (types : sproto) (f : field) : Prop := {
  field_tag : 0 ≤ f_tag f < 0x7fff;
  field_type : 0 ≤ elem_type f ≤ SPROTO_TSTRUCT;
  field_array : f_type f = if is_array f then elem_type f + SPROTO_TARRAY else elem_type f;
  field_struct : elem_type f = SPROTO_TSTRUCT → is_Some (types.[f_st f]);
  field_map : 0 < f_map f → elem_type f = SPROTO_TSTRUCT ∧ is_array f = true ∧ 0 ≤ f_key f ∧
    is_Some (map_names types f)
}.

Record type_ok (types : sproto) (st : sproto_type) : Prop := {
  type_fields : Forall (field_ok types) (t_f st);
  type_ascending : ascending (-1) (t_f st);
  type_n : t_n st = len (t_f st);
  type_maxn : t_maxn st = max_records (-1) (t_f st);
  type_base : t_base st = match head (t_f st), last (t_f st) with
    | Some f, Some g => if f_tag g - f_tag f + 1 =? t_n st then f_tag f else -1
    | _, _ => 0
    end
}.

Definition schema_ok (types : sproto) : Prop := Forall (type_ok types) types.

(** ** The buffer *)

Lemma le_cells4 v : [v &ᵤ 0xff; (v >>ᵤ 8) &ᵤ 0xff; (v >>ᵤ 16) &ᵤ 0xff; (v >>ᵤ 24) &ᵤ 0xff] = le_bytes 4 v.
Proof. apply word_cells. Qed.

Lemma le_cells2 v : [v &ᵤ 0xff; (v >>ᵤ 8) &ᵤ 0xff] = le_bytes 2 v.
Proof. rewrite low_byte, byte_at by lia. done. Qed.

Lemma le_cells8 v : [v &ᵤ 0xff; (v >>ᵤ 8) &ᵤ 0xff; (v >>ᵤ 16) &ᵤ 0xff; (v >>ᵤ 24) &ᵤ 0xff;
  (v >>ᵤ 32) &ᵤ 0xff; (v >>ᵤ 40) &ᵤ 0xff; (v >>ᵤ 48) &ᵤ 0xff; (v >>ᵤ 56) &ᵤ 0xff] = le_bytes 8 v.
Proof. rewrite !byte_at, low_byte by lia. cbn [le_bytes]. rewrite !Z.div_div by lia. done. Qed.

Lemma split_len {A} (l : list A) n : 0 ≤ n ≤ len l → ∃ a b, l = a ++ b ∧ len a = n.
Proof.
  intros H. exists (take (Z.to_nat n) l), (drop (Z.to_nat n) l). split; [by rewrite take_drop|].
  unfold len in *. rewrite length_take. lia.
Qed.

Lemma write_mid {A} (pre mid x : list A) k : k = len pre → len x ≤ len mid →
  ∃ rest, mem_write (pre ++ mid) k x = Some (pre ++ x ++ rest) ∧ len rest = len mid - len x.
Proof.
  intros -> Hx. destruct (split_len mid (len x)) as (a & b & -> & Ha); [pose proof (len_nonneg x); lia|].
  exists b. rewrite mem_write_app by done. split; [done|]. rewrite len_app. lia.
Qed.

Lemma put_uint32_spec (pre mid : block) k v : k = len pre → 4 ≤ len mid →
  ∃ rest, put_uint32 (pre ++ mid) k v = Some (pre ++ map Some (le_bytes 4 v) ++ rest) ∧ len rest = len mid - 4.
Proof.
  intros Hk Hm. unfold put_uint32. rewrite le_cells4.
  destruct (write_mid pre mid (map Some (le_bytes 4 v)) k Hk) as (rest & E & Hr); [by rewrite len_map, len_le|].
  exists rest. split; [done|]. rewrite Hr, len_map, len_le. done.
Qed.

Lemma put_uint64_spec (pre mid : block) k v : k = len pre → 8 ≤ len mid →
  ∃ rest, put_uint64 (pre ++ mid) k v = Some (pre ++ map Some (le_bytes 8 v) ++ rest) ∧ len rest = len mid - 8.
Proof.
  intros Hk Hm. unfold put_uint64. rewrite le_cells8.
  destruct (write_mid pre mid (map Some (le_bytes 8 v)) k Hk) as (rest & E & Hr); [by rewrite len_map, len_le|].
  exists rest. split; [done|]. rewrite Hr, len_map, len_le. done.
Qed.

Lemma fill_size_spec (pre m post : block) k sz : k = len pre → len m = 4 →
  fill_size (pre ++ m ++ post) k sz = Some (pre ++ map Some (le_bytes 4 sz) ++ post).
Proof. intros -> Hm. unfold fill_size. rewrite le_cells4. apply mem_write_app; [done|]. by rewrite len_map, len_le, Hm. Qed.

(** What a call leaves behind in the bytes [mid] of the buffer: all of [w], or -1 where
    they are fewer than [rm]. *)
Definition wrote {U} (pre mid : block) (w : list Z) (rm : Z) (u' : U) (x : Z * U * block) : Prop :=
  let '(r, u, buf) := x in
  (r = -1 ∧ len mid < rm) ∨
  (r = len w ∧ u = u' ∧ ∃ rest, buf = pre ++ map Some w ++ rest ∧ len rest = len mid - len w).

(** As [wrote], for a part of an array behind [pre]. *)
Definition wrote_to {U} (pre mid : block) (w : list Z) (rm : Z) (u' : U) (x : option Z * bool * U * block) : Prop :=
  let '(r, noarray, u, buf) := x in
  (r = None ∧ len mid < rm) ∨
  (r = Some (len pre + len w) ∧ noarray = false ∧ u = u' ∧ ∃ rest, buf = pre ++ map Some w ++ rest ∧ len rest = len mid - len w).

Definition yields {A} (e : option (result A)) (P : A → Prop) : Prop := ∃ x, e = Some (Return x) ∧ P x.

Section Callback.
Context {U : Type} (cb : callback U).

(** A callback that writes [w] where the argument says. *)
Definition cb_writes (a : sproto_arg) (u : U) (w : list Z) (rm : Z) (u' : U) : Prop := ∀ pre mid : block,
  ∃ r v u1 buf, cb (a <| a_value := len pre |> <| a_length := len mid |>) u (pre ++ mid) = Some (Return (r, v, u1, buf)) ∧
    wrote pre mid w rm u' (r, u1, buf).

(** A callback that returns an integer, or a code. *)
Definition cb_gives (a : sproto_arg) (u : U) (sz v : Z) (u' : U) : Prop := ∀ buf : block,
  ∃ v', cb a u buf = Some (Return (sz, v', u', buf)) ∧ (0 < sz → v' = v).

Lemma cells4 (l : block) : 4 ≤ len l → ∃ a b, l = a ++ b ∧ len a = 4.
Proof. intros H. apply split_len. lia. Qed.

Lemma encode_object_spec a u w rm u' pre mid : cb_writes a u w rm u' → 0 ≤ rm →
  yields (encode_object cb a u (pre ++ mid) (len pre) (len mid)) (wrote pre mid (with_size w) (4 + rm) u').
Proof.
  intros H Hrm. unfold encode_object, SIZEOF_LENGTH, yields. destruct (Z.ltb_spec (len mid) 4) as [Hl|Hl].
  - eexists. split; [done|]. left. split; [done|lia].
  - destruct (cells4 mid Hl) as (m4 & mid' & -> & H4). rewrite len_app, H4.
    destruct (H (pre ++ m4) mid') as (r & v & u1 & buf & E & Hw).
    rewrite len_app, H4, <- app_assoc in E. replace (4 + len mid' - 4) with (len mid') by lia. rewrite E.
    destruct Hw as [[-> Hn]|(-> & -> & rest & -> & Hr)].
    + eexists. split; [done|]. left. split; [done|]. rewrite len_app, H4. lia.
    + pose proof (len_nonneg w). pose proof (len_nonneg rest). rewrite (proj2 (Z.ltb_ge (len w) 0)) by lia.
      rewrite (proj2 (Z.leb_le (len w) (len mid'))) by lia. rewrite <- app_assoc.
      rewrite fill_size_spec by done. eexists. split; [done|]. right. unfold with_size. rewrite !len_app, len_le, H4.
      split; [lia|]. split; [done|]. exists rest. split; [|lia]. by rewrite map_app, <- !app_assoc.
Qed.

(** Nothing to write. *)
Lemma encode_object_nil a u (pre mid : block) u' : cb_gives (a <| a_value := len pre + 4 |> <| a_length := len mid - 4 |>) u SPROTO_CB_NIL 0 u' →
  yields (encode_object cb a u (pre ++ mid) (len pre) (len mid)) (λ '(r, u1, buf), (r = -1 ∧ len mid < 4) ∨ (r = 0 ∧ u1 = u' ∧ buf = pre ++ mid)).
Proof.
  intros H. unfold encode_object, SIZEOF_LENGTH. destruct (Z.ltb_spec (len mid) 4) as [Hl|Hl]; [eexists; split; [done|]; by left|].
  destruct (H (pre ++ mid)) as (v' & -> & _). eexists. split; [done|]. by right.
Qed.

(** *** Arrays of integers *)

Definition int_size (x : Z) : Z := if small x then 4 else 8.

Lemma s32_cells x : small x = true → le_bytes 8 x = le_bytes 4 x ++ (if x <? 0 then [255; 255; 255; 255] else [0; 0; 0; 0]).
Proof.
  unfold small. intros H. apply andb_prop in H as [H1%Z.leb_le H2%Z.ltb_lt]. cbn [le_bytes app]. rewrite !Z.div_div by lia.
  assert (∀ k, 2 ^ 31 ≤ k → x / k mod 256 = if x <? 0 then 255 else 0) as Hk.
  { intros k Hk. destruct (Z.ltb_spec x 0).
    - assert (x / k = -1) as -> by (symmetry; apply Z.div_unique with (x + k); lia). done.
    - by rewrite Z.div_small by lia. }
  repeat f_equal. destruct (x <? 0) eqn:E; rewrite !Hk by lia; done.
Qed.

Lemma sign_byte x : small x = true → truth (x / 2 ^ 24 mod 256 &ᵤ 0x80) = (x <? 0).
Proof.
  unfold small. intros H. apply andb_prop in H as [H1%Z.leb_le H2%Z.ltb_lt]. unfold truth.
  assert (- 128 ≤ x / 2 ^ 24 < 128) as Hd.
  { split; [apply Z.div_le_lower_bound; lia|apply Z.div_lt_upper_bound; lia]. }
  assert ((x <? 0) = (x / 2 ^ 24 <? 0)) as ->.
  { destruct (Z.ltb_spec x 0), (Z.ltb_spec (x / 2 ^ 24) 0); try done.
    - pose proof (Z.div_lt_upper_bound x (2 ^ 24) 0 ltac:(lia) ltac:(lia)). lia.
    - pose proof (Z.div_pos x (2 ^ 24) ltac:(lia) ltac:(lia)). lia. }
  generalize (x / 2 ^ 24) Hd. clear. intros y Hd.
  change 0x80 with (2 ^ 7). rewrite <- (Z.mod_small (y mod 256) 256) by (apply Z.mod_pos_bound; lia).
  destruct (Z.ltb_spec y 0).
  - assert (y mod 256 = y + 256) as -> by (symmetry; apply Z.mod_unique with (-1); lia).
    rewrite (Z.mod_small (y + 256)) by lia.
    assert (Z.testbit (y + 256) 7 = true) as Hb.
    { apply Z.testbit_true; [lia|]. rewrite <- (Z.div_unique (y + 256) (2 ^ 7) 1 (y + 128)); [done|lia|lia]. }
    destruct (Z.eqb_spec (Z.land (y + 256) (2 ^ 7)) 0) as [E|]; [|done].
    assert (Z.testbit (Z.land (y + 256) (2 ^ 7)) 7 = true) as Hc by (rewrite Z.land_spec, Hb; done). by rewrite E in Hc.
  - rewrite (Z.mod_small y), Z.mod_small by lia. destruct (Z.eqb_spec (Z.land y (2 ^ 7)) 0) as [|E]; [done|]. exfalso. apply E.
    apply Z.bits_inj_0. intros i. rewrite Z.land_spec, Z.pow2_bits_eqb by lia. destruct (Z.eqb_spec 7 i) as [<-|]; [|by rewrite andb_false_r].
    rewrite andb_true_r. apply Z.testbit_false; [lia|]. by rewrite Z.div_small by lia.
Qed.

Definition cells (il : Z) (l : list (bool * Z)) : list Z := flat_map (λ o, le_bytes (Z.to_nat il) o.2) l.

Lemma cells_app il l k : cells il (l ++ k) = cells il l ++ cells il k.
Proof. apply flat_map_app. Qed.

Lemma len_cells il l : 0 ≤ il → len (cells il l) = il * len l.
Proof.
  intros H. induction l as [|o l IH]; [unfold len; cbn; lia|]. cbn [cells flat_map]. rewrite len_app, len_le, len_cons.
  fold (cells il l). rewrite IH. lia.
Qed.

(** Small integers get their upper half. *)
Lemma widen_step pre x (m4 post : block) : small x = true → len m4 = 4 →
  (c ← (pre ++ map Some (le_bytes 4 x) ++ m4 ++ post).[len pre + 3]; b ← c;
   uint32_to_uint64 (b &ᵤ 0x80) (pre ++ map Some (le_bytes 4 x) ++ m4 ++ post) (len pre)) =
  Some (pre ++ map Some (le_bytes 8 x) ++ post).
Proof.
  intros Hx H4. rewrite (s32_cells x Hx), map_app, <- (app_assoc _ _ post). cbn [le_bytes map]. rewrite !Z.div_div by lia.
  match goal with |- context [pre ++ [?a; ?b; ?c; ?d] ++ m4 ++ post] =>
    assert ((pre ++ [a; b; c; d] ++ m4 ++ post).[len pre + 3] = Some d) as -> end.
  { match goal with |- (pre ++ [?a; ?b; ?c; ?d] ++ m4 ++ post).[_] = _ =>
      replace (pre ++ [a; b; c; d] ++ m4 ++ post) with ((pre ++ [a; b; c]) ++ d :: m4 ++ post) by glue end.
    apply get_cell. rewrite len_app. done. }
  unfold uint32_to_uint64. change (256 * 256 * 256) with (2 ^ 24). rewrite sign_byte by done.
  match goal with |- mem_write (pre ++ ?x4 ++ m4 ++ post) _ _ = _ =>
    replace (pre ++ x4 ++ m4 ++ post) with ((pre ++ x4) ++ m4 ++ post) by glue end.
  rewrite mem_write_app; [|rewrite len_app; done|by rewrite H4].
  rewrite <- app_assoc. by destruct (x <? 0).
Qed.

Lemma rearrange_loop (pre : block) (header : Z) l : len pre = header + 1 → ∀ junk tail, len junk = 4 * len l →
  Forall (λ o : bool * Z, small o.2 = true) l →
  for_down (length l) (len l - 1) (λ i buf,
    x ← mem_read buf (header + 1 + i * SIZEOF_INT32) SIZEOF_INT32;
    buf ← mem_write buf (header + 1 + i * SIZEOF_INT64) x;
    c ← buf.[header + 1 + i * SIZEOF_INT64 + 3];
    b ← c;
    uint32_to_uint64 (b &ᵤ 0x80) buf (header + 1 + i * SIZEOF_INT64))
    (pre ++ map Some (cells 4 l) ++ junk ++ tail) = Some (pre ++ map Some (cells 8 l) ++ tail).
Proof.
  intros Hp. induction l as [|[s x] l IH] using rev_ind; intros junk tail Hj Hs.
  - by rewrite (len_le0 junk) by (rewrite Hj; done).
  - apply Forall_app in Hs as [Hs Hx]. apply Forall_cons in Hx as [Hx _]. cbn [snd] in Hx. rewrite length_app, Nat.add_comm. cbn [Nat.add length for_down].
    rewrite len_app, len_cons, len_nil in *. rewrite !cells_app. cbn [cells flat_map snd]. rewrite !app_nil_r. rewrite !map_app.
    change (Z.to_nat 4) with 4%nat. change (Z.to_nat 8) with 8%nat. fold (cells 4 l) (cells 8 l).
    unfold SIZEOF_INT32, SIZEOF_INT64 in *. rewrite <- Hp in *. replace (len l + (1 + 0) - 1) with (len l) in * by lia.
    pose proof (len_nonneg l) as Hl. pose proof (len_cells 4 l ltac:(lia)) as Hc4. pose proof (len_cells 8 l ltac:(lia)) as Hc8.
    replace ((pre ++ (map Some (cells 4 l) ++ map Some (le_bytes 4 x)) ++ junk ++ tail)) with
      ((pre ++ map Some (cells 4 l)) ++ map Some (le_bytes 4 x) ++ junk ++ tail) by glue.
    rewrite mem_read_app; [|rewrite len_app, len_map; lia|by rewrite len_map, len_le].
    destruct (decide (l = [])) as [->|Hne].
    + change (len (@nil (bool * Z))) with 0 in *. cbn [cells flat_map map] in *. rewrite app_nil_r, Z.mul_0_l, Z.add_0_r.
      rewrite mem_write_app by done. rewrite (widen_step pre x junk tail) by (try done; lia). done.
    + assert (1 ≤ len l) by (destruct l; [done|rewrite len_cons; pose proof (len_nonneg l); lia]).
      destruct (split_len junk (4 * len l - 4)) as (j1 & j2 & -> & Hj1); [lia|]. rewrite len_app in Hj.
      destruct (split_len j2 4) as (j4 & j4' & -> & Hj4); [lia|]. rewrite len_app in Hj.
      replace ((pre ++ map Some (cells 4 l)) ++ map Some (le_bytes 4 x) ++ (j1 ++ j4 ++ j4') ++ tail) with
        ((pre ++ map Some (cells 4 l) ++ map Some (le_bytes 4 x) ++ j1) ++ j4 ++ j4' ++ tail) by glue.
      assert (len (pre ++ map Some (cells 4 l) ++ map Some (le_bytes 4 x) ++ j1) = len pre + len l * 8) as Hlen.
      { rewrite !len_app, !len_map, Hc4, len_le, Hj1. lia. }
      rewrite mem_write_app; [|by rewrite Hlen|by rewrite len_map, len_le, Hj4].
      rewrite <- Hlen. rewrite (widen_step _ x j4' tail) by (try done; lia).
      replace ((pre ++ map Some (cells 4 l) ++ map Some (le_bytes 4 x) ++ j1) ++ map Some (le_bytes 8 x) ++ tail) with
        (pre ++ map Some (cells 4 l) ++ (map Some (le_bytes 4 x) ++ j1) ++ (map Some (le_bytes 8 x) ++ tail)) by glue.
      rewrite (IH (map Some (le_bytes 4 x) ++ j1)); [by rewrite <- !app_assoc|rewrite len_app, len_map, len_le, Hj1; lia|done].
Qed.

Lemma rearrange_spec (pre : block) c l mid : Forall (λ o : bool * Z, small o.2 = true) l → 4 * len l ≤ len mid →
  ∃ rest, rearrange (pre ++ c :: map Some (cells 4 l) ++ mid) (len pre) (len l + 1) = Some (pre ++ c :: map Some (cells 8 l) ++ rest) ∧
    len rest = len mid - 4 * len l.
Proof.
  intros Hs Hm. destruct (split_len mid (4 * len l)) as (junk & rest & -> & Hj); [pose proof (len_nonneg l); lia|].
  exists rest. split; [|rewrite len_app; lia]. unfold rearrange.
  replace (Z.to_nat (len l + 1 - 1)) with (length l) by (unfold len; lia). replace (len l + 1 - 2) with (len l - 1) by lia.
  pose proof (rearrange_loop (pre ++ [c]) (len pre) l ltac:(rewrite len_app; done) junk rest Hj Hs) as H.
  rewrite <- !app_assoc in H. exact H.
Qed.

(** The integers that a callback gives, small ones in four bytes ([true]); [-2] ends them. *)
Inductive feeds (a : sproto_arg) : Z → U → list (bool * Z) → U → Prop :=
| feeds_nil i u u' : cb_gives (a <| a_index := i |>) u SPROTO_CB_NIL 0 u' → feeds a i u [] u'
| feeds_cons i u (b : bool) x l u1 u' :
    cb_gives (a <| a_index := i |>) u (if b then 4 else 8) (if b then u32 x else u64 x) u1 →
    (b = true → small x = true) → feeds a (i + 1) u1 l u' → feeds a i u ((b, x) :: l) u'.

Definition width (il : Z) (l : list (bool * Z)) : Z := if (il =? 4) && forallb fst l then 4 else 8.

Lemma le_bytes_mod n : ∀ x, le_bytes n (x mod 256 ^ Z.of_nat n) = le_bytes n x.
Proof.
  induction n as [|n IH]; intros x; [done|]. cbn [le_bytes]. rewrite Nat2Z.inj_succ, Z.pow_succ_r by lia.
  rewrite Z.rem_mul_r by lia. pose proof (Z.mod_pos_bound x 256 ltac:(lia)). f_equal.
  - rewrite Z.mul_comm, Z.mod_add, Z.mod_mod by lia. done.
  - rewrite Z.mul_comm, Z.div_add, Z.div_small, Z.add_0_l by lia. apply IH.
Qed.

Lemma le_bytes_u32 x : le_bytes 4 (u32 x) = le_bytes 4 x.
Proof. apply (le_bytes_mod 4). Qed.

Lemma le_bytes_u64 x : le_bytes 8 (u64 x) = le_bytes 8 x.
Proof. apply (le_bytes_mod 8). Qed.

Lemma sign_mask x : small x = true → truth (u32 x &ᵤ 0x80000000) = (x <? 0).
Proof.
  intros Hx. rewrite <- (sign_byte x Hx). change 0x80000000 with (Z.shiftl 0x80 24).
  assert (x / 2 ^ 24 mod 256 = Z.shiftr (u32 x) 24) as ->.
  { rewrite Z.shiftr_div_pow2 by lia. unfold u32. change (2 ^ 32) with (2 ^ 24 * 256). rewrite Z.rem_mul_r by lia.
    rewrite Z.mul_comm, Z.div_add, (Z.div_small (x mod 2 ^ 24)) by (try apply Z.mod_pos_bound; lia). done. }
  unfold truth. f_equal. apply eq_true_iff_eq. rewrite !Z.eqb_eq.
  rewrite <- (Z.shiftl_eq_0_iff (Z.land _ 128) 24) by lia.
  split; intros H.
  - rewrite <- H. apply Z.bits_inj'. intros i Hi. rewrite Z.land_spec, !Z.shiftl_spec, Z.land_spec by lia.
    destruct (Z.ltb_spec i 24); [rewrite !(Z.testbit_neg_r _ (i - 24)) by lia; by rewrite !andb_false_r|].
    rewrite Z.shiftr_spec by lia. do 2 f_equal. lia.
  - rewrite <- H. apply Z.bits_inj'. intros i Hi. rewrite Z.land_spec, !Z.shiftl_spec, Z.land_spec by lia.
    destruct (Z.ltb_spec i 24); [rewrite !(Z.testbit_neg_r _ (i - 24)) by lia; by rewrite !andb_false_r|].
    rewrite Z.shiftr_spec by lia. do 2 f_equal. lia.
Qed.

Lemma extend_spec (pre mid : block) k x : k = len pre → small x = true → 8 ≤ len mid →
  ∃ rest, (buf ← put_uint32 (pre ++ mid) k (u32 x); uint32_to_uint64 (u32 x &ᵤ 0x80000000) buf k) =
    Some (pre ++ map Some (le_bytes 8 x) ++ rest) ∧ len rest = len mid - 8.
Proof.
  intros -> Hx Hm. destruct (put_uint32_spec pre mid (len pre) (u32 x) eq_refl ltac:(lia)) as (r1 & -> & Hr1).
  unfold uint32_to_uint64. rewrite sign_mask, le_bytes_u32 by done. rewrite app_assoc.
  destruct (write_mid (pre ++ map Some (le_bytes 4 x)) r1 (replicate 4 (Some (if x <? 0 then 255 else 0))) (len pre + 4)) as (rest & E & Hr).
  { by rewrite len_app, len_map, len_le. }
  { change (4 ≤ len r1). lia. }
  change 0xff with 255. rewrite E. exists rest. split; [|rewrite Hr, Hr1; change (len (replicate 4 (Some (if x <? 0 then 255 else 0)))) with 4; lia].
  rewrite (s32_cells x Hx), map_app, <- !app_assoc. by destruct (x <? 0).
Qed.

Lemma small_first dn : forallb fst dn = true → Forall (λ o : bool * Z, o.1 = true → small o.2 = true) dn → Forall (λ o : bool * Z, small o.2 = true) dn.
Proof.
  intros Hf H. rewrite Forall_forall in *. intros o Ho. apply H; [done|]. rewrite forallb_forall in Hf. apply Hf. by apply list_elem_of_In.
Qed.

Lemma feeds_ok a i u outs u' : feeds a i u outs u' → Forall (λ o : bool * Z, o.1 = true → small o.2 = true) outs.
Proof. induction 1; constructor; done. Qed.

(** The array so far, with integers of [il] bytes, and what comes. *)
Definition integers_done (pre : block) (c : option Z) (dn outs : list (bool * Z)) (il n : Z) (u' : U)
    (x : option (Z * Z) * bool * U * block) : Prop :=
  let '(r, noarray, u1, buf) := x in
  (r = None ∧ n + il * len dn < 8 * len (dn ++ outs) + 8) ∨
  (noarray = false ∧ u1 = u' ∧ r = Some (len pre + 1 + width il outs * len (dn ++ outs), width il outs) ∧
   ∃ rest, buf = pre ++ c :: map Some (cells (width il outs) (dn ++ outs)) ++ rest ∧
     len rest = n + il * len dn - width il outs * len (dn ++ outs)).

Lemma integers_next pre c dn o outs il n n' u' x : integers_done pre c (dn ++ [o]) outs il n' u' x →
  n' = n - il → width il outs = width il (o :: outs) → integers_done pre c dn (o :: outs) il n u' x.
Proof.
  intros H -> Ew. destruct x as [[[r na] u1] buf]. unfold integers_done in *. rewrite <- Ew, <- app_assoc in *. cbn [app] in H.
  rewrite (len_app dn [o]), len_cons, len_nil in H. replace (n - il + il * (len dn + (1 + 0))) with (n + il * len dn) in H by lia. exact H.
Qed.

Lemma integers_widen pre c dn o outs n n' u' x : integers_done pre c (dn ++ [o]) outs 8 n' u' x →
  n' = n - 4 * len dn - 8 → o.1 = false → integers_done pre c dn (o :: outs) 4 n u' x.
Proof.
  intros H -> Eo. destruct x as [[[r na] u1] buf]. unfold integers_done in *. rewrite <- app_assoc in *. cbn [app] in H.
  assert (width 8 outs = 8) as E8 by done. assert (width 4 (o :: outs) = 8) as E4 by (unfold width; cbn; by rewrite Eo).
  rewrite E8 in H. rewrite E4. rewrite (len_app dn [o]), len_cons, len_nil in H.
  replace (n - 4 * len dn - 8 + 8 * (len dn + (1 + 0))) with (n + 4 * len dn) in H by lia. exact H.
Qed.

Lemma integer_loop_spec a pre c fuel : ∀ i u outs u' dn il mid, feeds a i u outs u' → i = len dn + 1 →
  (il = 4 ∧ forallb fst dn = true ∨ il = 8) → Forall (λ o : bool * Z, o.1 = true → small o.2 = true) dn →
  len mid < 4 * Z.of_nat fuel →
  yields (integer_loop cb fuel a u (pre ++ c :: map Some (cells il dn) ++ mid) (len pre) (len pre + 1 + il * len dn) (len mid) il i)
    (integers_done pre c dn outs il (len mid) u').
Proof.
  induction fuel as [|fuel IH]; intros i u outs u' dn il mid Hf Hi Hil Hdn Hfuel; [pose proof (len_nonneg mid); lia|].
  pose proof (len_nonneg dn) as Hdn0. assert (il = 4 ∨ il = 8) as Hil' by (destruct Hil as [[? _]|?]; lia).
  assert (len (pre ++ c :: map Some (cells il dn)) = len pre + 1 + il * len dn) as Hlen.
  { rewrite len_app, len_cons, len_map, len_cells by lia. lia. }
  set (pre' := pre ++ c :: map Some (cells il dn)) in *.
  assert (pre ++ c :: map Some (cells il dn) ++ mid = pre' ++ mid) as -> by (unfold pre'; by rewrite <- app_assoc).
  cbn [integer_loop]. destruct Hf as [i u u' Hcb|i u b x l u1 u' Hcb Hsm Hf].
  - destruct (Hcb (pre' ++ mid)) as (v' & -> & _). eexists. split; [done|]. right. rewrite app_nil_r.
    assert (width il [] = il) as -> by (destruct Hil' as [->| ->]; done).
    split; [done|]. split; [done|]. split; [done|]. exists mid. split; [unfold pre'; by rewrite <- app_assoc|lia].
  - destruct (Hcb (pre' ++ mid)) as (v' & -> & Hv). assert (v' = if b then u32 x else u64 x) as -> by (apply Hv; by destruct b). clear Hv.
    assert (((if b then 4 else 8) <=? 0) = false) as -> by (by destruct b).
    unfold SIZEOF_INT64, SIZEOF_INT32. destruct (Z.ltb_spec (len mid) 8) as [Hm|Hm].
    { eexists. split; [done|]. left. split; [done|]. rewrite len_app, len_cons. pose proof (len_nonneg l). nia. }
    assert (Forall (λ o : bool * Z, o.1 = true → small o.2 = true) (dn ++ [(b, x)])) as Hdn'.
    { apply Forall_app. split; [done|]. by constructor. }
    assert (∀ il' rest, pre ++ c :: map Some (cells il' dn) ++ map Some (le_bytes (Z.to_nat il') x) ++ rest =
      pre ++ c :: map Some (cells il' (dn ++ [(b, x)])) ++ rest) as Hcell.
    { intros il' rest. rewrite cells_app, map_app. cbn [cells flat_map snd]. by rewrite app_nil_r, <- app_assoc. }
    pose proof (λ rest, Hcell 4 rest) as Hcell4. pose proof (λ rest, Hcell 8 rest) as Hcell8.
    change (Z.to_nat 4) with 4%nat in Hcell4. change (Z.to_nat 8) with 8%nat in Hcell8. clear Hcell.
    assert (∀ il' rest, (il' = 4 ∧ forallb fst (dn ++ [(b, x)]) = true ∨ il' = 8) → len rest = len mid + il * len dn - il' * (len dn + 1) →
      il * len dn + il ≤ il' * (len dn + 1) →
      yields (integer_loop cb fuel a u1 (pre ++ c :: map Some (cells il' (dn ++ [(b, x)])) ++ rest) (len pre) (len pre + 1 + il' * (len dn + 1)) (len rest) il' (i + 1))
        (integers_done pre c (dn ++ [(b, x)]) l il' (len rest) u')) as Hnext.
    { intros il' rest Hw Hr Hle. replace (len dn + 1) with (len (dn ++ [(b, x)])) by (rewrite len_app, len_cons, len_nil; lia).
      apply IH; [done|rewrite len_app, len_cons, len_nil; lia|done|done|nia]. }
    destruct b.
    + change (4 =? 4) with true. cbv iota. destruct Hil as [[-> Hall]| ->].
      * change (4 =? 8) with false. cbv iota.
        destruct (put_uint32_spec pre' mid (len pre + 1 + 4 * len dn) (u32 x)) as (rest & E & Hr); [by rewrite Hlen|lia|].
        rewrite E, le_bytes_u32. unfold pre'. rewrite <- app_assoc. cbn [app]. rewrite (Hcell4 rest).
        destruct (Hnext 4 rest) as (y & Ey & Hy); [left; rewrite forallb_app, Hall; done|lia|lia|].
        exists y. split; [rewrite <- Ey; f_equal; lia|]. by eapply integers_next.
      * change (8 =? 8) with true. cbv iota.
        destruct (extend_spec pre' mid (len pre + 1 + 8 * len dn) x) as (rest & E & Hr); [by rewrite Hlen|by apply Hsm|lia|].
        destruct (put_uint32 (pre' ++ mid) (len pre + 1 + 8 * len dn) (u32 x)) as [buf|]; [|done]. rewrite E.
        unfold pre'. rewrite <- app_assoc. cbn [app]. rewrite (Hcell8 rest).
        destruct (Hnext 8 rest) as (y & Ey & Hy); [by right|lia|lia|].
        exists y. split; [rewrite <- Ey; f_equal; lia|]. by eapply integers_next.
    + change (8 =? 4) with false. change (negb (8 =? 8)) with false. cbv iota. destruct Hil as [[-> Hall]| ->].
      * change (4 =? 4) with true. cbv iota. replace (i - 1) with (len dn) by lia.
        destruct (Z.ltb_spec (len mid - len dn * 4) 8) as [Hm2|Hm2].
        { eexists. split; [done|]. left. split; [done|]. rewrite len_app, len_cons. pose proof (len_nonneg l). lia. }
        destruct (rearrange_spec pre c dn mid (small_first _ Hall Hdn) ltac:(lia)) as (r1 & E1 & Hr1).
        unfold pre'. rewrite <- app_assoc. cbn [app]. rewrite Hi, E1.
        destruct (put_uint64_spec (pre ++ c :: map Some (cells 8 dn)) r1 (len pre + 1 + 4 * len dn + len dn * 4) (u64 x)) as (rest & E & Hr).
        { rewrite len_app, len_cons, len_map, len_cells by lia. lia. } { lia. }
        rewrite <- app_assoc in E. cbn [app] in E. rewrite E, le_bytes_u64, <- app_assoc. cbn [app]. rewrite (Hcell8 rest).
        destruct (Hnext 8 rest) as (y & Ey & Hy); [by right|lia|lia|].
        exists y. split; [rewrite <- Ey; f_equal; lia|]. eapply integers_widen; [exact Hy|lia|done].
      * change (8 =? 4) with false. cbv iota.
        destruct (put_uint64_spec pre' mid (len pre + 1 + 8 * len dn) (u64 x)) as (rest & E & Hr); [by rewrite Hlen|lia|].
        rewrite E, le_bytes_u64. unfold pre'. rewrite <- app_assoc. cbn [app]. rewrite (Hcell8 rest).
        destruct (Hnext 8 rest) as (y & Ey & Hy); [by right|lia|lia|].
        exists y. split; [rewrite <- Ey; f_equal; lia|]. by eapply integers_next.
Qed.

Definition wire_outs (outs : list (bool * Z)) : list Z :=
  match outs with [] => [] | _ => width 4 outs :: cells (width 4 outs) outs end.

Lemma width_cases il l : width il l = 4 ∨ width il l = 8.
Proof. unfold width. destruct (_ && _); auto. Qed.

Lemma encode_integer_array_spec a u outs u' (pre mid : block) : feeds a 1 u outs u' →
  yields (encode_integer_array cb a u (pre ++ mid) (len pre) (len mid)) (wrote_to pre mid (wire_outs outs) (9 + 8 * len outs) u').
Proof.
  intros Hf. unfold encode_integer_array, SIZEOF_INT32. pose proof (len_nonneg outs). destruct (Z.ltb_spec (len mid) 1) as [Hm|Hm].
  { eexists. split; [done|]. left. split; [done|lia]. }
  destruct mid as [|c mid]; [done|]. rewrite len_cons in *.
  destruct (integer_loop_spec a pre c (S (Z.to_nat (1 + len mid))) 1 u outs u' [] 4 mid) as (x & E & Hx); [done|done|by left|constructor|pose proof (len_nonneg mid); lia|].
  cbn [cells flat_map map] in E. change (len (@nil (bool * Z))) with 0 in E. rewrite Z.mul_0_r, Z.add_0_r in E. cbn [app] in E.
  replace (1 + len mid - 1) with (len mid) by lia. rewrite E. destruct x as [[[r na] u1] buf].
  destruct Hx as [[-> Hn]|(-> & -> & -> & rest & -> & Hr)].
  - eexists. split; [done|]. left. split; [done|]. cbn [app] in Hn. change (len (@nil (bool * Z))) with 0 in Hn. rewrite len_cons. lia.
  - cbn [app] in *. change (len (@nil (bool * Z))) with 0 in Hr. destruct outs as [|o outs].
    + change (len (@nil (bool * Z))) with 0 in *. rewrite Z.mul_0_r, Z.add_0_r, Z.eqb_refl. eexists. split; [done|]. right.
      cbn [wire_outs]. rewrite len_nil. split; [f_equal; lia|]. split; [done|]. split; [done|]. exists (c :: rest). split; [done|].
      rewrite !len_cons. lia.
    + pose proof (width_cases 4 (o :: outs)) as Hw. set (w := width 4 (o :: outs)) in *. rewrite len_cons in *. pose proof (len_nonneg outs).
      destruct (Z.eqb_spec (len pre + 1 + w * (1 + len outs)) (len pre + 1)) as [E0|_]; [nia|].
      rewrite set_cell by done. eexists. split; [done|]. right. unfold wire_outs. fold w.
      rewrite u8_small by lia. rewrite !len_cons, len_cells, len_cons by lia.
      split; [f_equal; lia|]. split; [done|]. split; [done|]. exists rest. split; [done|lia].
Qed.

Lemma boolean_loop_spec a (fuel : nat) : ∀ bs i u u' (pre mid : block), feeds a i u (map (pair true) bs) u' → Forall (λ b, b = 0 ∨ b = 1) bs →
  len mid < Z.of_nat fuel →
  yields (boolean_loop cb fuel a u (pre ++ mid) (len pre) (len mid) i) (wrote_to pre mid bs (len bs) u').
Proof.
  induction fuel as [|fuel IH]; intros bs i u u' pre mid Hf Hb Hfuel; [pose proof (len_nonneg mid); lia|].
  cbn [boolean_loop]. destruct bs as [|b bs]; inversion Hf as [? ? ? Hcb|? ? ? ? ? u1 ? Hcb _ Hf']; subst.
  - destruct (Hcb (pre ++ mid)) as (v' & -> & _). eexists. split; [done|]. right. change (len (@nil Z)) with 0.
    split; [f_equal; lia|]. split; [done|]. split; [done|]. exists mid. split; [done|lia].
  - apply Forall_cons in Hb as [Hb Hbs]. destruct (Hcb (pre ++ mid)) as (v' & -> & Hv). rewrite (Hv eq_refl).
    change (4 <? 0) with false. cbv iota. rewrite u32_small by lia. rewrite len_cons. pose proof (len_nonneg bs).
    destruct (Z.ltb_spec (len mid) 1) as [Hm|Hm]; [eexists; split; [done|]; left; split; [done|lia]|].
    destruct mid as [|c mid]; [done|]. rewrite len_cons in *. rewrite set_cell by done.
    assert (of_bool (truth b) = b) as -> by (by destruct Hb as [->| ->]).
    destruct (IH bs (i + 1) u1 u' (pre ++ [Some b]) mid Hf' Hbs ltac:(lia)) as ([[[r na] u2] buf] & E & Hx).
    rewrite <- app_assoc, len_app, len_cons, len_nil in E. cbn [app] in E.
    replace (len pre + (1 + 0)) with (len pre + 1) in E by lia. replace (1 + len mid - 1) with (len mid) by lia. rewrite E.
    eexists. split; [done|]. destruct Hx as [[-> Hn]|(-> & -> & -> & rest & -> & Hr)]; [left; split; [done|rewrite len_cons; lia]|right].
    rewrite len_app, !len_cons, len_nil. split; [f_equal; lia|]. split; [done|]. split; [done|]. exists rest.
    split; [by rewrite <- app_assoc|lia].
Qed.

(** The elements that a callback writes one after the other. *)
Inductive feeds_objects (a : sproto_arg) : Z → U → list (list Z * Z) → U → Prop :=
| objects_nil i u u' : (∀ p n, cb_gives (a <| a_index := i |> <| a_value := p |> <| a_length := n |>) u SPROTO_CB_NIL 0 u') → feeds_objects a i u [] u'
| objects_cons i u w rm l u1 u' : cb_writes (a <| a_index := i |>) u w rm u1 → len w ≤ rm → feeds_objects a (i + 1) u1 l u' →
    feeds_objects a i u ((w, rm) :: l) u'.

Lemma objects_sum a i u ws u' : feeds_objects a i u ws u' → 0 ≤ sum (map (λ w : list Z * Z, 4 + w.2) ws).
Proof. induction 1 as [|i u w rm l u1 u' _ Hrm _ IH]; [done|]. pose proof (len_nonneg w). unfold sum in *. cbn [map foldr snd]. lia. Qed.

Lemma encode_array_object_spec a (fuel : nat) : ∀ ws i u u' (pre mid : block), feeds_objects a i u ws u' → len mid < 4 * Z.of_nat fuel →
  yields (encode_array_object cb fuel a u (pre ++ mid) (len pre) (len mid) i)
    (wrote_to pre mid (flat_map (λ w, with_size w.1) ws) (4 + sum (map (λ w, 4 + w.2) ws)) u').
Proof.
  induction fuel as [|fuel IH]; intros ws i u u' pre mid Hf Hfuel; [pose proof (len_nonneg mid); lia|].
  cbn [encode_array_object]. unfold SIZEOF_LENGTH in *.
  pose proof (objects_sum _ _ _ _ _ Hf) as Hsum.
  destruct (Z.ltb_spec (len mid) 4) as [Hm|Hm]; [eexists; split; [done|]; left; split; [done|lia]|].
  destruct Hf as [i u u' Hcb|i u w rm l u1 u' Hcb Hrm Hf].
  - destruct (Hcb (len pre + 4) (len mid - 4) (pre ++ mid)) as (v' & -> & _). eexists. split; [done|]. right. change (len (flat_map _ [])) with 0.
    split; [f_equal; lia|]. split; [done|]. split; [done|]. exists mid. split; [done|lia].
  - destruct (cells4 mid Hm) as (m4 & mid' & -> & H4). rewrite len_app, H4 in *.
    destruct (Hcb (pre ++ m4) mid') as (r & v & u2 & buf & E & Hw).
    rewrite len_app, H4, <- app_assoc in E. replace (4 + len mid' - 4) with (len mid') by lia. rewrite E.
    destruct Hw as [[-> Hn]|(-> & -> & rest & -> & Hr)].
    + eexists. split; [done|]. left. split; [done|]. rewrite len_app, H4. pose proof (objects_sum _ _ _ _ _ Hf). unfold sum in *. cbn [map foldr fst snd] in *. lia.
    + pose proof (len_nonneg w). pose proof (len_nonneg rest). rewrite (proj2 (Z.ltb_ge (len w) 0)) by lia. rewrite <- app_assoc.
      rewrite fill_size_spec by done.
      destruct (IH l (i + 1) u1 u' (pre ++ map Some (with_size w)) rest Hf ltac:(lia)) as ([[[r na] u3] buf] & E' & Hx).
      rewrite len_app, len_map in E'. unfold with_size in E' at 1 2. rewrite len_app, len_le, map_app, <- !app_assoc in E'.
      replace (len pre + (Z.of_nat 4 + len w)) with (len pre + 4 + len w) in E' by lia. replace (len mid' - len w) with (len rest) by lia.
      rewrite E'. eexists. split; [done|]. cbn [flat_map map]. unfold sum in *. cbn [foldr fst snd] in *.
      assert (len (with_size w) = 4 + len w) as Hws by (unfold with_size; rewrite len_app, len_le; lia).
      destruct Hx as [[-> Hn]|(-> & -> & -> & rest' & -> & Hr')]; [left; split; [done|rewrite len_app, H4; lia]|right].
      rewrite !len_app, len_map, Hws. split; [f_equal; lia|]. split; [done|]. split; [done|]. exists rest'.
      split; [by rewrite map_app, <- !app_assoc|lia].
Qed.

(** The array behind its length. *)
Lemma encode_array_wrap a u u' w rm (pre mid : block) : 0 ≤ rm →
  (∀ pre mid : block, yields
      (if (a_type a =? SPROTO_TDOUBLE) || (a_type a =? SPROTO_TINTEGER) then encode_integer_array cb a u (pre ++ mid) (len pre) (len mid)
       else if a_type a =? SPROTO_TBOOLEAN then boolean_loop cb (S (S (Z.to_nat (len mid)))) a u (pre ++ mid) (len pre) (len mid) 1
       else encode_array_object cb (S (S (Z.to_nat (len mid)))) a u (pre ++ mid) (len pre) (len mid) 1)
     (wrote_to pre mid w rm u')) →
  yields (encode_array cb a u (pre ++ mid) (len pre) (len mid)) (wrote pre mid (with_size w) (4 + rm) u').
Proof.
  intros Hrm H. unfold encode_array, SIZEOF_LENGTH. destruct (Z.ltb_spec (len mid) 4) as [Hm|Hm].
  { eexists. split; [done|]. left. split; [done|lia]. }
  destruct (cells4 mid Hm) as (m4 & mid' & -> & H4). destruct (H (pre ++ m4) mid') as ([[[r na] u1] buf] & E & Hx).
  rewrite len_app, H4, <- app_assoc in E. rewrite len_app, H4. replace (4 + len mid' - 4) with (len mid') by lia. rewrite E.
  destruct Hx as [[-> Hn]|(-> & -> & -> & rest & -> & Hr)].
  - eexists. split; [done|]. left. split; [done|]. rewrite len_app. lia.
  - rewrite <- app_assoc. rewrite fill_size_spec by done. eexists. split; [done|]. right. rewrite len_app, H4.
    unfold with_size. rewrite len_app, len_le. split; [lia|]. split; [done|]. exists rest. rewrite len_app.
    replace (len pre + 4 + len w - (len pre + 4)) with (len w) by lia. split; [by rewrite map_app, <- !app_assoc|lia].
Qed.

Lemma encode_array_integers a u outs u' (pre mid : block) : a_type a = SPROTO_TDOUBLE ∨ a_type a = SPROTO_TINTEGER → feeds a 1 u outs u' →
  yields (encode_array cb a u (pre ++ mid) (len pre) (len mid)) (wrote pre mid (with_size (wire_outs outs)) (4 + (9 + 8 * len outs)) u').
Proof.
  intros Ht Hf. apply encode_array_wrap; [pose proof (len_nonneg outs); lia|]. intros pre' mid'.
  assert ((a_type a =? SPROTO_TDOUBLE) || (a_type a =? SPROTO_TINTEGER) = true) as -> by (by destruct Ht as [->| ->]).
  by apply encode_integer_array_spec.
Qed.

Lemma encode_array_booleans a u bs u' (pre mid : block) : a_type a = SPROTO_TBOOLEAN → feeds a 1 u (map (pair true) bs) u' →
  Forall (λ b, b = 0 ∨ b = 1) bs →
  yields (encode_array cb a u (pre ++ mid) (len pre) (len mid)) (wrote pre mid (with_size bs) (4 + len bs) u').
Proof.
  intros Ht Hf Hb. apply encode_array_wrap; [apply len_nonneg|]. intros pre' mid'. rewrite Ht.
  change (SPROTO_TBOOLEAN =? SPROTO_TBOOLEAN) with true. change ((SPROTO_TBOOLEAN =? SPROTO_TDOUBLE) || _) with false. cbv iota.
  apply boolean_loop_spec; [done|done|lia].
Qed.

Lemma encode_array_objects a u ws u' (pre mid : block) : a_type a = SPROTO_TSTRING ∨ a_type a = SPROTO_TSTRUCT → feeds_objects a 1 u ws u' →
  yields (encode_array cb a u (pre ++ mid) (len pre) (len mid))
    (wrote pre mid (with_size (flat_map (λ w, with_size w.1) ws)) (4 + (4 + sum (map (λ w, 4 + w.2) ws))) u').
Proof.
  intros Ht Hf. apply encode_array_wrap; [pose proof (objects_sum _ _ _ _ _ Hf); lia|]. intros pre' mid'.
  assert ((a_type a =? SPROTO_TDOUBLE) || (a_type a =? SPROTO_TINTEGER) = false) as -> by (by destruct Ht as [->| ->]).
  assert ((a_type a =? SPROTO_TBOOLEAN) = false) as -> by (by destruct Ht as [->| ->]).
  apply encode_array_object_spec; [done|lia].
Qed.

(** A field that is not there. *)
Definition wrote_nothing (pre mid : block) (u' : U) (x : Z * U * block) : Prop :=
  let '(r, u, buf) := x in (r = -1 ∧ len mid < 8) ∨ (r = 0 ∧ u = u' ∧ buf = pre ++ mid).

Lemma encode_array_absent a u u' (pre mid : block) :
  (∀ p n, cb_gives (a <| a_index := 1 |> <| a_value := p |> <| a_length := n |>) u SPROTO_CB_NOARRAY 0 u') →
  yields (encode_array cb a u (pre ++ mid) (len pre) (len mid)) (wrote_nothing pre mid u').
Proof.
  intros H. unfold encode_array, SIZEOF_LENGTH. destruct (Z.ltb_spec (len mid) 4) as [Hm|Hm].
  { eexists. split; [done|]. left. split; [done|lia]. }
  destruct (H (a_value a) (a_length a) (pre ++ mid)) as (v1 & E1 & _). cbn in E1.
  destruct (_ || _).
  - unfold encode_integer_array. destruct (Z.ltb_spec (len mid - 4) 1) as [Hm1|Hm1].
    { eexists. split; [done|]. left. split; [done|lia]. }
    cbn [integer_loop]. rewrite E1. cbn. rewrite Z.eqb_refl. eexists. split; [done|]. by right.
  - destruct (_ =? _).
    + cbn [boolean_loop]. rewrite E1. eexists. split; [done|]. by right.
    + cbn [encode_array_object]. unfold SIZEOF_LENGTH. destruct (Z.ltb_spec (len mid - 4) 4) as [Hm1|Hm1].
      { eexists. split; [done|]. left. split; [done|lia]. }
      destruct (H (len pre + 4 + 4) (len mid - 4 - 4) (pre ++ mid)) as (v2 & -> & _). eexists. split; [done|]. by right.
Qed.

(** *** Fields that are no arrays *)

(** What [encode_scalar] leads to: the value of the record and the data. *)
Definition scalar_wrote (pre mid : block) (vd : Z * list Z) (rm : Z) (u' : U) (x : scalar * U * block) : Prop :=
  let '(r, u, buf) := x in
  ((r = Returned (-1) ∨ r = Sized (-1) 0) ∧ len mid < rm) ∨
  (∃ sz, r = Sized sz vd.1 ∧ 0 < sz ∧ (vd.1 = 0 → sz = len vd.2) ∧ u = u' ∧
    ∃ rest, buf = pre ++ map Some vd.2 ++ rest ∧ len rest = len mid - len vd.2).

Lemma encode_scalar_integer a u (b : bool) x u' (pre mid : block) :
  a_type a = SPROTO_TINTEGER ∨ a_type a = SPROTO_TDOUBLE ∨ a_type a = SPROTO_TBOOLEAN →
  cb_gives a u (if b then 4 else 8) (if b then u32 x else u64 x) u' →
  yields (encode_scalar cb a u (pre ++ mid) (len pre) (len mid)) (scalar_wrote pre mid
    (if b then if u32 x <? 0x7fff then ((u32 x + 1) * 2, []) else (0, with_size (le_bytes 4 x)) else (0, with_size (le_bytes 8 x))) 12 u').
Proof.
  intros Ht Hcb. unfold encode_scalar.
  assert ((a_type a =? SPROTO_TDOUBLE) || (a_type a =? SPROTO_TINTEGER) || (a_type a =? SPROTO_TBOOLEAN) = true) as -> by (by destruct Ht as [->|[->| ->]]).
  destruct (Hcb (pre ++ mid)) as (v & -> & Hv). rewrite (Hv ltac:(by destruct b)). clear Hv Hcb.
  assert (((if b then 4 else 8) <? 0) = false) as -> by (by destruct b). pose proof (u32_range x).
  assert (∀ n (bs : list Z) (y : Z) buf, len bs = n → 0 < n → y = n + 4 →
    (∃ rest, buf = pre ++ map Some (le_bytes 4 n ++ bs) ++ rest ∧ len rest = len mid - (4 + n)) →
    yields (Some (Return (Sized y 0, u', buf))) (scalar_wrote pre mid (0, with_size bs) 12 u')) as Hdata.
  { intros n bs y buf Hn Hp -> (rest & -> & Hr). eexists. split; [done|]. right. exists (n + 4). cbn [fst snd]. unfold with_size. rewrite len_app, len_le, Hn.
    split; [done|]. split; [lia|]. split; [lia|]. split; [done|]. exists rest. split; [done|lia]. }
  unfold SIZEOF_INT32, SIZEOF_INT64. destruct b.
  - change (4 =? 4) with true. cbv iota. rewrite (u32_small (u32 x)) by done.
    destruct (u32 x <? 0x7fff).
    + eexists. split; [done|]. right. exists 2. split; [done|]. cbn [fst snd]. split; [done|]. split; [lia|]. split; [done|].
      exists mid. split; [done|]. change (len []) with 0. lia.
    + unfold encode_integer, SIZEOF_LENGTH. destruct (Z.ltb_spec (len mid) (4 + 4)) as [Hm|Hm].
      { eexists. split; [done|]. left. split; [by right|lia]. }
      destruct (cells4 mid ltac:(lia)) as (m4 & mid' & -> & H4). rewrite len_app in *.
      destruct (put_uint32_spec (pre ++ m4) mid' (len pre + 4) (u32 x)) as (rest & E & Hr); [by rewrite len_app, H4|lia|].
      rewrite <- app_assoc in E. rewrite E, <- app_assoc, fill_size_spec by done. eapply Hdata; [apply len_le|done|done|].
      exists rest. rewrite le_bytes_u32. split; [by rewrite map_app, <- !app_assoc|change (Z.of_nat 4) with 4; lia].
  - change (8 =? 4) with false. change (8 =? 8) with true. cbv iota.
    unfold encode_uint64, SIZEOF_LENGTH. destruct (Z.ltb_spec (len mid) (4 + 8)) as [Hm|Hm].
    { eexists. split; [done|]. left. split; [by right|lia]. }
    destruct (cells4 mid ltac:(lia)) as (m4 & mid' & -> & H4). rewrite len_app in *.
    destruct (put_uint64_spec (pre ++ m4) mid' (len pre + 4) (u64 x)) as (rest & E & Hr); [by rewrite len_app, H4|lia|].
    rewrite <- app_assoc in E. rewrite E, <- app_assoc, fill_size_spec by done. eapply Hdata; [apply len_le|done|done|].
    exists rest. rewrite le_bytes_u64. split; [by rewrite map_app, <- !app_assoc|change (Z.of_nat 8) with 8; lia].
Qed.

Lemma encode_scalar_object a u w rm u' (pre mid : block) :
  a_type a = SPROTO_TSTRING ∨ a_type a = SPROTO_TSTRUCT → cb_writes a u w rm u' → len w ≤ rm →
  yields (encode_scalar cb a u (pre ++ mid) (len pre) (len mid)) (scalar_wrote pre mid (0, with_size w) (4 + rm) u').
Proof.
  intros Ht Hcb Hrm. unfold encode_scalar. pose proof (len_nonneg w).
  assert ((a_type a =? SPROTO_TDOUBLE) || (a_type a =? SPROTO_TINTEGER) || (a_type a =? SPROTO_TBOOLEAN) = false) as -> by (by destruct Ht as [->| ->]).
  assert ((a_type a =? SPROTO_TSTRUCT) || (a_type a =? SPROTO_TSTRING) = true) as -> by (by destruct Ht as [->| ->]).
  destruct (encode_object_spec a u w rm u' pre mid Hcb ltac:(lia)) as ([[r u1] buf] & -> & [[-> Hn]|(-> & -> & rest & -> & Hr)]).
  - eexists. split; [done|]. left. split; [by right|done].
  - eexists. split; [done|]. right. exists (len (with_size w)). split; [done|]. split; [unfold with_size; rewrite len_app, len_le; lia|].
    split; [done|]. split; [done|]. by exists rest.
Qed.

Definition scalar_nothing (pre mid : block) (u' : U) (x : scalar * U * block) : Prop :=
  let '(r, u, buf) := x in (r = Sized (-1) 0 ∧ len mid < 4) ∨ ((r = Continue ∨ r = Sized 0 0) ∧ u = u' ∧ buf = pre ++ mid).

Lemma encode_scalar_absent a u u' (pre mid : block) : 0 ≤ a_type a ≤ SPROTO_TSTRUCT →
  (∀ p n, cb_gives (a <| a_value := p |> <| a_length := n |>) u SPROTO_CB_NIL 0 u') →
  yields (encode_scalar cb a u (pre ++ mid) (len pre) (len mid)) (scalar_nothing pre mid u').
Proof.
  intros Ht H. unfold encode_scalar, SPROTO_TSTRUCT in *.
  assert ((a_type a = 2 ∨ a_type a = 4) ∨ (a_type a = 3 ∨ a_type a = 0 ∨ a_type a = 1)) as [Ho|Hs] by lia.
  - assert ((a_type a =? SPROTO_TDOUBLE) || (a_type a =? SPROTO_TINTEGER) || (a_type a =? SPROTO_TBOOLEAN) = false) as -> by (by destruct Ho as [->| ->]).
    assert ((a_type a =? 4) || (a_type a =? SPROTO_TSTRING) = true) as -> by (by destruct Ho as [->| ->]).
    unfold encode_object, SIZEOF_LENGTH. destruct (Z.ltb_spec (len mid) 4) as [Hm|Hm].
    { exists (Sized (-1) 0, u, pre ++ mid). split; [done|by left]. }
    destruct (H (len pre + 4) (len mid - 4) (pre ++ mid)) as (v & -> & _).
    exists (Sized 0 0, u', pre ++ mid). split; [done|]. right. split; [by right|done].
  - assert ((a_type a =? SPROTO_TDOUBLE) || (a_type a =? SPROTO_TINTEGER) || (a_type a =? SPROTO_TBOOLEAN) = true) as -> by (by destruct Hs as [->|[->| ->]]).
    destruct (H (a_value a) (a_length a) (pre ++ mid)) as (v & E & _).
    replace (a <| a_value := a_value a |> <| a_length := a_length a |>) with a in E by (by destruct a).
    rewrite E. eexists. split; [done|]. right. split; [by left|done].
Qed.

(** *** The loop over the fields *)

(** A field with the record and data [x], or without any. *)
Definition value_wrote (pre mid : block) (x : option (Z * list Z)) (rm : Z) (u' : U) (y : scalar * U * block) : Prop :=
  match x with
  | Some vd => scalar_wrote pre mid vd rm u' y
  | None => let '(r, u, buf) := y in
      ((r = Returned (-1) ∨ r = Sized (-1) 0) ∧ len mid < rm) ∨ ((r = Continue ∨ r = Sized 0 0) ∧ u = u' ∧ buf = pre ++ mid)
  end.

Inductive feeds_fields (types : sproto) : U → list field → list (option (Z * list Z) * Z) → U → Prop :=
| fields_nil u : feeds_fields types u [] [] u
| fields_cons u f fs x rm xs u1 u' :
    (∀ pre mid : block, yields (encode_value cb types f u (pre ++ mid) (len pre) (len mid)) (value_wrote pre mid x rm u1)) →
    len (from_option snd [] x) ≤ rm → (∀ v d, x = Some (v, d) → v ≠ 0 → d = []) →
    feeds_fields types u1 fs xs u' → feeds_fields types u (f :: fs) ((x, rm) :: xs) u'.

(** The records [recs] and the data [data] of the struct at [pre], with [hrest] bytes
    of its header and [mid] bytes of the buffer left. *)
Definition struct_at (pre : block) (recs data : list Z) (hrest mid : block) (buf : block) : Prop :=
  ∃ h2, len h2 = 2 ∧ buf = pre ++ h2 ++ map Some (flat_map (le_bytes 2) recs) ++ hrest ++ map Some data ++ mid.

Definition gap_record (last : Z) (f : field) : list Z :=
  if 0 <? f_tag f - last - 1 then [(f_tag f - last - 1 - 1) * 2 + 1] else [].

Lemma len_words (l : list Z) : len (flat_map (le_bytes 2) l) = 2 * len l.
Proof. induction l as [|x l IH]; [done|]. cbn [flat_map]. rewrite len_app, IH, len_le, len_cons. lia. Qed.

Lemma put_word pre recs data hrest mid buf v : struct_at pre recs data hrest mid buf → 2 ≤ len hrest →
  ∃ buf' hrest', mem_write buf (len pre + SIZEOF_HEADER + SIZEOF_FIELD * len recs) (map Some [v &ᵤ 0xff; (v >>ᵤ 8) &ᵤ 0xff]) = Some buf' ∧
    struct_at pre (recs ++ [v]) data hrest' mid buf' ∧ len hrest' = len hrest - 2.
Proof.
  intros (h2 & H2 & ->) Hh. rewrite le_cells2. destruct (split_len hrest 2 ltac:(lia)) as (c2 & hrest' & -> & Hc).
  match goal with |- context [mem_write ?b _ _] =>
    replace b with ((pre ++ h2 ++ map Some (flat_map (le_bytes 2) recs)) ++ c2 ++ hrest' ++ map Some data ++ mid) by glue end.
  rewrite mem_write_app; [|rewrite !len_app, len_map, len_words; unfold SIZEOF_HEADER, SIZEOF_FIELD; lia|by rewrite len_map, len_le, Hc].
  eexists _, hrest'. split; [done|]. split; [|rewrite len_app; lia]. exists h2. split; [done|].
  rewrite flat_map_app, map_app. cbn [flat_map]. rewrite app_nil_r, <- !app_assoc. done.
Qed.

Lemma put_record_spec pre recs data d hrest mid (s : @encode_state U) f sz value last :
  struct_at pre recs (data ++ d) hrest mid (e_buf s) → e_index s = len recs → e_lasttag s = last →
  last < f_tag f < 0x7fff → -1 ≤ last → 2 * len (gap_record last f ++ [value]) ≤ len hrest →
  ∃ buf hrest', put_record s (len pre) f sz value = Some (Some (Enc buf
      (if value =? 0 then e_data s + sz else e_data s) (if value =? 0 then e_size s - sz else e_size s)
      (len (recs ++ gap_record last f ++ [value])) (f_tag f) (e_u s))) ∧
    struct_at pre (recs ++ gap_record last f ++ [value]) (data ++ d) hrest' mid buf ∧
    len hrest' = len hrest - 2 * len (gap_record last f ++ [value]).
Proof.
  intros Hat Hi Hl Ht Hlast Hroom. unfold put_record, gap_record in *. rewrite Hi, Hl.
  replace (if value =? 0 then (e_data s + sz, e_size s - sz) else (e_data s, e_size s)) with
    (if value =? 0 then e_data s + sz else e_data s, if value =? 0 then e_size s - sz else e_size s) by (by destruct (value =? 0)).
  destruct (Z.ltb_spec 0 (f_tag f - last - 1)) as [Hg|Hg].
  - rewrite (proj2 (Z.ltb_ge 0xffff _)) by lia. rewrite !len_app, !len_cons, !len_nil in *.
    destruct (put_word _ _ _ _ _ _ ((f_tag f - last - 1 - 1) * 2 + 1) Hat ltac:(lia)) as (b1 & h1 & E1 & H1 & Hh1). rewrite E1.
    destruct (put_word _ _ _ _ _ _ value H1 ltac:(lia)) as (b2 & h2 & E2 & H2 & Hh2). rewrite len_app, len_cons, len_nil in E2.
    replace (len pre + SIZEOF_HEADER + SIZEOF_FIELD * (len recs + (1 + 0))) with (len pre + SIZEOF_HEADER + SIZEOF_FIELD * len recs + SIZEOF_FIELD) in E2
      by (unfold SIZEOF_FIELD; lia). rewrite E2. exists b2, h2. split; [do 3 f_equal; rewrite ?len_app, ?len_cons, ?len_nil; lia|]. split; [by rewrite <- app_assoc in H2|rewrite ?len_app, ?len_cons, ?len_nil; lia].
  - cbn [app] in *. change (len [value]) with 1 in *. destruct (put_word _ _ _ _ _ _ value Hat ltac:(lia)) as (b2 & h2 & E2 & H2 & Hh2).
    rewrite E2. exists b2, h2. split; [by rewrite len_app|]. split; [done|cbn in *; lia].
Qed.

Lemma wire_fields_cons last f v d (xs : list (field * option (Z * list Z))) :
  wire_fields last ((f, Some (v, d)) :: xs) =
  ((gap_record last f ++ [v]) ++ (wire_fields (f_tag f) xs).1, d ++ (wire_fields (f_tag f) xs).2).
Proof. cbn [wire_fields]. destruct (wire_fields (f_tag f) xs). unfold gap_record. by rewrite <- app_assoc. Qed.

Lemma len_gap last f v : last < f_tag f → len (gap_record last f ++ [v]) = if last + 1 <? f_tag f then 2 else 1.
Proof.
  intros H. unfold gap_record. destruct (Z.ltb_spec 0 (f_tag f - last - 1)), (Z.ltb_spec (last + 1) (f_tag f)); done || lia.
Qed.

(** The state of the loop. *)
Record looping (pre : block) (hs : Z) (recs data : list Z) (hrest mid : block) (last : Z) (s : @encode_state U) : Prop := {
  loop_at : struct_at pre recs data hrest mid (e_buf s);
  loop_data : e_data s = len pre + hs + len data;
  loop_size : e_size s = len mid;
  loop_index : e_index s = len recs;
  loop_last : e_lasttag s = last;
  loop_header : 2 + 2 * len recs + len hrest = hs
}.

Lemma len_struct pre recs data hrest h2 : len h2 = 2 →
  len (pre ++ h2 ++ map Some (flat_map (le_bytes 2) recs) ++ hrest ++ map Some data) = len pre + (2 + 2 * len recs + len hrest) + len data.
Proof. intros H. rewrite !len_app, !len_map, len_words. lia. Qed.

Lemma wire_fields_absent last f fs (xs : list (option (Z * list Z))) : wire_fields last (zip (f :: fs) (None :: xs)) = wire_fields last (zip fs xs).
Proof. done. Qed.

(** A gap is the same whether or not a field in it was looked at. *)
Lemma max_records_skip last f fs : last < f_tag f → ascending (f_tag f) fs → max_records last fs ≤ max_records last (f :: fs).
Proof.
  intros Hf Ha. cbn [max_records]. destruct fs as [|g fs]; [cbn; destruct (_ <? _); lia|]. cbn [max_records ascending] in *.
  destruct (Z.ltb_spec (last + 1) (f_tag f)), (Z.ltb_spec (last + 1) (f_tag g)), (Z.ltb_spec (f_tag f + 1) (f_tag g)); lia.
Qed.

Lemma ascending_weaken last last' fs : last' ≤ last → ascending last fs → ascending last' fs.
Proof. destruct fs as [|f fs]; [done|]. cbn. intros H [H1 H2]. split; [lia|done]. Qed.

Lemma encode_fields_spec types (pre : block) hs : ∀ fs xs u u' s recs data hrest mid last, feeds_fields types u fs xs u' →
  looping pre hs recs data hrest mid last s → e_u s = u → ascending last fs → -1 ≤ last → Forall (λ f, f_tag f < 0x7fff) fs →
  2 * max_records last fs ≤ len hrest →
  yields (encode_fields cb types (len pre) fs s) (λ r,
    (r = inr (-1) ∧ len mid < sum xs.*2) ∨
    ∃ s' hrest' mid' last', r = inl s' ∧
      looping pre hs (recs ++ (wire_fields last (zip fs xs.*1)).1) (data ++ (wire_fields last (zip fs xs.*1)).2) hrest' mid' last' s' ∧
      len mid' = len mid - len (wire_fields last (zip fs xs.*1)).2).
Proof.
  intros fs xs u u' s recs data hrest mid last Hf. revert s recs data hrest mid last.
  induction Hf as [u|u f fs x rm xs u1 u' Hv Hrm Hd Hf IH]; intros s recs data hrest mid last Hs Hu Ha Hlast Ht Hroom.
  - eexists. split; [done|]. right. exists s, hrest, mid, last. cbn. rewrite !app_nil_r. split; [done|]. split; [done|].
    change (len []) with 0. lia.
  - cbn [ascending] in Ha. destruct Ha as [Hlt Ha]. apply Forall_cons in Ht as [Hft Ht]. pose proof (max_records_skip last f fs Hlt Ha) as Hskip.
    assert (0 ≤ sum xs.*2) as Hsum.
    { clear -Hf. induction Hf as [|u f fs x rm xs u1 u' _ Hrm _ _ IH]; [done|]. pose proof (len_nonneg (from_option snd [] x)). unfold sum in *. cbn. lia. }
    cbn [encode_fields]. unfold encode_field. pose proof Hs as [Hat Hdata Hsize Hidx Hl Hh]. destruct Hat as (h2 & H2 & Eb).
    set (P := pre ++ h2 ++ map Some (flat_map (le_bytes 2) recs) ++ hrest ++ map Some data).
    assert (e_buf s = P ++ mid) as Eb' by (rewrite Eb; unfold P; by rewrite <- !app_assoc).
    assert (e_data s = len P) as Ed by (rewrite Hdata; unfold P; rewrite len_struct by done; lia).
    destruct (Hv P mid) as ([[r u2] buf] & E & Hw). rewrite Hu, Ed, Hsize, Eb', E.
    assert (∀ r' : scalar, (r' = Returned (-1) ∨ r' = Sized (-1) 0) → len mid < rm →
      yields (match match r' with Continue => Some (Return (inl (Enc buf (len P) (len mid) (e_index s) (e_lasttag s) u2))) | Sized sz value =>
          if sz <? 0 then Some (Return (inr (-1))) else if 0 <? sz then
            match put_record (Enc buf (len P) (len mid) (e_index s) (e_lasttag s) u2) (len pre) f sz value with
            | Some s0 => Some (Return (match s0 with Some s1 => inl s1 | None => inr (-1) end)) | None => None end
          else Some (Return (inl (Enc buf (len P) (len mid) (e_index s) (e_lasttag s) u2))) | Returned r0 => Some (Return (inr r0)) end with
        | Some (Return (inl s0)) => encode_fields cb types (len pre) fs s0 | Some (Return (inr r0)) => Some (Return (inr r0))
        | Some (Error m) => Some (Error m) | None => None end)
       (λ r, r = inr (-1) ∧ len mid < rm + sum xs.*2 ∨ False)) as Hfail.
    { intros r' [->| ->] Hm; (eexists; split; [reflexivity|]; left; split; [done|lia]). }
    destruct x as [[v d]|].
    + destruct Hw as [[Hr Hm]|(sz & -> & Hsz & Hv0 & -> & rest & -> & Hrest)].
      { destruct (Hfail r Hr Hm) as (y & Ey & [[-> Hy]|[]]). exists (inr (-1)). split; [exact Ey|]. left. split; [done|]. cbn. unfold sum in *. cbn. lia. }
      cbn [fst snd] in *. rewrite (proj2 (Z.ltb_ge sz 0)), (proj2 (Z.ltb_lt 0 sz)) by lia.
      set (s1 := Enc (P ++ map Some d ++ rest) (len P) (len mid) (e_index s) (e_lasttag s) u1).
      assert (struct_at pre recs (data ++ d) hrest rest (e_buf s1)) as Hat1.
      { exists h2. split; [done|]. cbn [e_buf s1]. unfold P. rewrite map_app, <- !app_assoc. done. }
      cbn [max_records] in Hroom. destruct (put_record_spec pre recs data d hrest rest s1 f sz v last Hat1 Hidx Hl ltac:(lia) Hlast) as (buf & hrest' & Ep & Hat' & Hh').
      { rewrite len_gap by done. assert (0 ≤ max_records (f_tag f) fs).
        { clear. generalize (f_tag f). induction fs as [|g fs IH]; intros z; cbn; [done|]. specialize (IH (f_tag g)). destruct (_ <? _); lia. }
        lia. }
      rewrite Ep. rewrite len_gap in Hh' by done.
      assert (looping pre hs (recs ++ gap_record last f ++ [v]) (data ++ d) hrest' rest (f_tag f)
        (Enc buf (if v =? 0 then e_data s1 + sz else e_data s1) (if v =? 0 then e_size s1 - sz else e_size s1) (len (recs ++ gap_record last f ++ [v])) (f_tag f) (e_u s1))) as Hs1.
      { assert ((if v =? 0 then sz else 0) = len d) as Hlen.
        { destruct (Z.eqb_spec v 0) as [->|Hne]; [by apply Hv0|]. by rewrite (Hd v d eq_refl Hne). }
        split; cbn [e_buf e_data e_size e_index e_lasttag s1]; [done| | |done|done|].
        - rewrite len_app. unfold P in *. rewrite len_struct by done. destruct (v =? 0); lia.
        - destruct (v =? 0); lia.
        - rewrite len_app, len_gap, Hh' by done. destruct (_ <? _); lia. }
      destruct (IH _ _ _ _ _ _ Hs1 eq_refl Ha ltac:(lia) Ht) as (r & Er & Hr).
      { rewrite Hh'. destruct (_ <? _); lia. }
      exists r. split; [exact Er|]. change (zip (f :: fs) ((Some (v, d), rm) :: xs).*1) with ((f, Some (v, d)) :: zip fs xs.*1). rewrite wire_fields_cons. cbn [fst snd]. destruct Hr as [[-> Hn]|(s' & hr & mid' & last' & -> & Hs' & Hm')].
      * left. split; [done|]. change (sum ((Some (v, d), rm) :: xs).*2) with (rm + sum xs.*2). change (len d ≤ rm) in Hrm. lia.
      * right. exists s', hr, mid', last'. split; [done|]. rewrite <- !app_assoc in *. split; [exact Hs'|]. rewrite len_app. lia.
    + destruct Hw as [[Hr Hm]|(Hr & -> & ->)].
      { destruct (Hfail r Hr Hm) as (y & Ey & [[-> Hy]|[]]). exists (inr (-1)). split; [exact Ey|]. left. split; [done|].
        change (sum ((None, rm) :: xs).*2) with (rm + sum xs.*2). lia. }
      set (s1 := Enc (P ++ mid) (len P) (len mid) (e_index s) (e_lasttag s) u1).
      assert (looping pre hs recs data hrest mid last s1) as Hs1.
      { split; cbn [e_buf e_data e_size e_index e_lasttag s1]; [|by rewrite <- Ed|done..]. exists h2. split; [done|]. unfold P. by rewrite <- !app_assoc. }
      destruct (IH _ _ _ _ _ _ Hs1 eq_refl (ascending_weaken (f_tag f) last fs ltac:(lia) Ha) Hlast Ht ltac:(lia)) as (r' & Er & Hr').
      exists r'. split; [by destruct Hr as [->| ->]|].
      change (zip (f :: fs) ((None, rm) :: xs).*1) with (zip (f :: fs) (None :: xs.*1)). rewrite wire_fields_absent. destruct Hr' as [[-> Hn]|Hr']; [|by right].
      left. split; [done|]. assert (0 ≤ rm) by exact Hrm. change (sum ((None, rm) :: xs).*2) with (rm + sum xs.*2). lia.
Qed.

Lemma sproto_encode_spec types st u xs u' (pre mid : block) : type_ok types st → feeds_fields types u (t_f st) xs u' →
  yields (sproto_encode cb types st (pre ++ mid) (len pre) (len mid) u) (λ '(r, buf),
    (r = -1 ∧ len mid < header_size st + sum xs.*2) ∨
    (r = len (wire_struct (zip (t_f st) xs.*1)) ∧ ∃ rest, buf = pre ++ map Some (wire_struct (zip (t_f st) xs.*1)) ++ rest ∧
      len rest = len mid - len (wire_struct (zip (t_f st) xs.*1)))).
Proof.
  intros Hst Hf. destruct Hst as [Hfs Ha Hn Hmax _]. unfold sproto_encode. fold (header_size st).
  assert (Forall (λ f, f_tag f < 0x7fff) (t_f st)) as Ht by (eapply Forall_impl; [exact Hfs|]; intros f Hf'; apply Hf').
  assert (0 ≤ sum xs.*2) as Hsum.
  { clear -Hf. induction Hf as [|u f fs x rm xs u1 u' _ Hrm _ _ IH]; [done|]. pose proof (len_nonneg (from_option snd [] x)).
    change (sum ((x, rm) :: xs).*2) with (rm + sum xs.*2). lia. }
  assert (0 ≤ max_records (-1) (t_f st)) as Hm0.
  { clear. generalize (-1). induction (t_f st) as [|f fs IH]; intros z; cbn; [done|]. specialize (IH (f_tag f)). destruct (_ <? _); lia. }
  assert (header_size st = 2 + 2 * max_records (-1) (t_f st)) as Hhs by (unfold header_size, SIZEOF_HEADER, SIZEOF_FIELD; lia).
  destruct (Z.ltb_spec (len mid) (header_size st)) as [Hm|Hm]; [eexists; split; [done|]; left; split; [done|lia]|].
  destruct (split_len mid (header_size st) ltac:(lia)) as (h & mid' & -> & Hh). destruct (split_len h 2 ltac:(lia)) as (h2 & hrest & -> & H2).
  rewrite !len_app in *.
  destruct (encode_fields_spec types pre (header_size st) (t_f st) xs u u'
    (Enc (pre ++ (h2 ++ hrest) ++ mid') (len pre + header_size st) (len h2 + len hrest + len mid' - header_size st) 0 (-1) u)
    [] [] hrest mid' (-1) Hf) as (r & E & Hr); [|done|done|lia|done|lia|].
  { split; cbn [e_buf e_data e_size e_index e_lasttag]; [|change (len []) with 0; lia|lia|done|done|change (len []) with 0; lia].
    exists h2. split; [done|]. by rewrite <- app_assoc. }
  rewrite E. destruct Hr as [[-> Hn']|(s' & hr & mid'' & last' & -> & Hs' & Hm')].
  - eexists. split; [done|]. left. split; [done|lia].
  - cbn [app] in Hs'. unfold wire_struct. destruct (wire_fields (-1) (zip (t_f st) xs.*1)) as [recs data] eqn:Ew. cbn [fst snd] in *.
    destruct Hs' as [(h2' & H2' & Eb) Hd Hsz Hi _ Hh']. rewrite le_cells2, Hi, Eb.
    rewrite (mem_write_app pre h2' _ (map Some (le_bytes 2 (len recs)))); [|done|by rewrite len_map, len_le, H2'].
    replace (e_data s' - (len pre + header_size st)) with (len data) by lia.
    assert (len (le_bytes 2 (len recs) ++ flat_map (le_bytes 2) recs ++ data) = 2 + 2 * len recs + len data) as Hl.
    { rewrite !len_app, len_le, len_words. lia. }
    rewrite Hl. destruct (Z.eqb_spec (len recs) (t_maxn st)) as [Em|Em]; cbn [negb].
    + eexists. split; [done|]. right. unfold SIZEOF_HEADER, SIZEOF_FIELD. split; [lia|]. exists mid''.
      rewrite (len_le0 hr) by lia. split; [by rewrite !map_app, <- !app_assoc|]. lia.
    + rewrite (read_at _ (pre ++ map Some (le_bytes 2 (len recs)) ++ map Some (flat_map (le_bytes 2) recs) ++ hr) (map Some data) mid''); [|glue| |by rewrite len_map].
      2:{ rewrite !len_app, !len_map, len_le, len_words. lia. }
      destruct (write_mid (pre ++ map Some (le_bytes 2 (len recs)) ++ map Some (flat_map (le_bytes 2) recs)) (hr ++ map Some data ++ mid'') (map Some data)
        (len pre + SIZEOF_HEADER + len recs * SIZEOF_FIELD)) as (rest & Ewr & Hrest).
      { rewrite !len_app, !len_map, len_le, len_words. unfold SIZEOF_HEADER, SIZEOF_FIELD. lia. }
      { rewrite !len_app. pose proof (len_nonneg hr). pose proof (len_nonneg mid''). lia. }
      rewrite <- !app_assoc in Ewr. rewrite Ewr. eexists. split; [done|]. right. unfold SIZEOF_HEADER, SIZEOF_FIELD. split; [lia|]. exists rest.
      split; [by rewrite !map_app, <- !app_assoc|]. rewrite !len_app, !len_map in Hrest. lia.
Qed.

End Callback.

(** ** The callback of [lencode] *)

Section LuaCallback.
Context {LT : LuaTables} {LA : LuaApi} (σ : store) (types : sproto).

(** The state of the callback before the element with index [k + 1]. *)
Definition at_element (src : pushed) (f : field) (v : value) (k : nat) : encode_ud :=
  EncodeUd src (Some (f_tag f)) v (if 0 <=? f_key f then k else 0%nat).

Lemma get_scalar a ud v : a_index a = 0 → lua_getfield σ (tbl ud) (VStr (f_name (a_field a))) = Some (Return v) →
  get_encodefield σ a ud = Some (Return (0, Pushed v, ud)).
Proof. intros Hi E. unfold get_encodefield. by rewrite Hi, E. Qed.

Lemma get_absent a ud : 0 < a_index a → array_tag ud ≠ Some (f_tag (a_field a)) →
  lua_getfield σ (tbl ud) (VStr (f_name (a_field a))) = Some (Return VNil) →
  get_encodefield σ a ud = Some (Return (SPROTO_CB_NOARRAY, Pushed VNil, EncodeUd (tbl ud) (Some (f_tag (a_field a))) VNil 0)).
Proof. intros Hi Ht E. unfold get_encodefield. rewrite (proj2 (Z.ltb_lt _ _)) by done. rewrite decide_False by done. by rewrite E. Qed.

(** The first call finds the array. *)
Lemma get_first a ud v l t : 0 < a_index a → array_tag ud ≠ Some (f_tag (a_field a)) → v = VTab l → σ !! l = Some t →
  lua_getfield σ (tbl ud) (VStr (f_name (a_field a))) = Some (Return v) →
  get_encodefield σ a ud = get_encodefield σ a (at_element (tbl ud) (a_field a) v 0).
Proof.
  intros Hi Ht -> El E. unfold get_encodefield. rewrite (proj2 (Z.ltb_lt _ _)) by done. rewrite decide_False by done.
  rewrite E. cbn [is_nil pairs_of]. rewrite El. unfold at_element. cbn [array_tag tbl array_value iter_key].
  rewrite (decide_True (P := Some (f_tag (a_field a)) = Some (f_tag (a_field a)))) by done.
  by destruct (0 <=? f_key (a_field a)).
Qed.

Lemma border_before (n : nat) t : ∀ i j, 0 ≤ i → i < j ≤ border_from n t i → get t (VInt j) ≠ VNil.
Proof.
  induction n as [|n IH]; intros i j Hi Hj; cbn [border_from] in Hj; [lia|].
  destruct (get t (VInt (i + 1))) eqn:E; cbn [is_nil] in Hj; try lia;
    (destruct (decide (j = i + 1)) as [->|]; [by rewrite E|by apply (IH (i + 1)); lia]).
Qed.

Lemma get_element a src f v xs k : elements σ types f v = Some xs → a_field a = f → a_index a = Z.of_nat k + 1 →
  map_names types f = Some (a_names a) → ∃ l t, v = VTab l ∧ σ !! l = Some t ∧
  match xs !! k with
  | Some x => get_encodefield σ a (at_element src f v k) = Some (Return (0, x, at_element src f v (S k))) ∧ x ≠ Pushed VNil
  | None => k = length xs → ∃ c, get_encodefield σ a (at_element src f v k) = Some (Return (c, Pushed VNil, EncodeUd src (Some (f_tag f)) v 0)) ∧
      (c = 0 ∨ c = SPROTO_CB_NIL)
  end.
Proof.
  intros He Hf Hi Hn. unfold elements in He. destruct v as [| | | | | |l|]; try done. destruct (σ !! l) as [t|] eqn:El; [|done].
  exists l, t. split; [done|]. split; [done|]. unfold get_encodefield, at_element. cbn [array_tag tbl array_value iter_key].
  rewrite Hf, (proj2 (Z.ltb_lt 0 (a_index a))) by lia. rewrite decide_True by done. cbn [array_tag tbl array_value iter_key pairs_of lua_getfield]. rewrite El.
  destruct (0 <=? f_key f) eqn:Hk.
  - destruct (forallb _ _) eqn:Hnn in He; [|done]. rewrite Hn in He. injection He as <-. cbn [array_value iter_key tbl array_tag].
    set (ps := default (lua_next (fields t)) (metapairs t)) in *. rewrite list_lookup_fmap.
    destruct (ps !! k) as [[x y]|] eqn:Ek; cbn [fmap option_fmap option_map].
    + rewrite forallb_forall in Hnn. specialize (Hnn (x, y)). rewrite <- list_elem_of_In in Hnn.
      pose proof (Hnn (list_elem_of_lookup_2 _ _ _ Ek)) as [Hx Hy]%andb_prop. cbn [fst snd] in *.
      destruct x; try done; (destruct (a_names a) as [[kname vname]|]; split; [done|done|done|intros [= ->]; done]).
    + intros _. exists SPROTO_CB_NIL. split; [done|by right].
  - injection He as <-. rewrite list_lookup_fmap.
    set (n := Z.to_nat (border_from (size (fields t)) (fields t) 0)) in *. destruct (decide (k < n)%nat) as [Hkn|Hkn].
    + rewrite (lookup_seq_lt 1 n k Hkn). cbn [fmap option_fmap option_map]. rewrite Hi. replace (Z.of_nat (1 + k)) with (Z.of_nat k + 1) by lia.
      split; [done|]. intros [= E]. eapply (border_before (size (fields t)) (fields t) 0 (Z.of_nat k + 1)); [lia| |exact E].
      unfold n in Hkn. lia.
    + rewrite (proj2 (lookup_ge_None (seq 1 n) k)) by (rewrite length_seq; lia). cbn [fmap option_fmap option_map].
      rewrite length_map, length_seq. intros ->. exists 0. rewrite Hi. split; [|by left]. do 4 f_equal.
      pose proof (border_spec (fields t)) as (Hb0 & Hb & _). unfold n. rewrite Z2Nat.id by done. by rewrite Hb.
Qed.

(** [encode] on what is on the stack. *)
Lemma encode_value_of d a ud x ud' (buf : block) : get_encodefield σ a ud = Some (Return (0, x, ud')) → x ≠ Pushed VNil →
  encode σ types (S d) a ud buf =
  ('(sz, v, buf) ⇐ encode_one (λ a x buf, st ← types.[f_st (a_field a)];
     sproto_encode (encode σ types d) types st buf (a_value a) (a_length a) (encode_start x)) a x buf;
   Some (Return (sz, v, ud', buf))).
Proof. intros E Hx. cbn [encode]. rewrite E. change (0 <? 0) with false. cbv iota. by destruct x as [[]|]. Qed.

Lemma encode_code d a ud c x ud' : get_encodefield σ a ud = Some (Return (c, x, ud')) → c < 0 →
  cb_gives (encode σ types (S d)) a ud c 0 ud'.
Proof. intros E Hc buf. cbn [encode]. rewrite E, (proj2 (Z.ltb_lt c 0)) by done. exists 0. split; [done|lia]. Qed.

Lemma encode_nil d a ud c ud' : get_encodefield σ a ud = Some (Return (c, Pushed VNil, ud')) → c = 0 ∨ c = SPROTO_CB_NIL →
  cb_gives (encode σ types (S d)) a ud SPROTO_CB_NIL 0 ud'.
Proof.
  intros E [-> | ->]; [|by eapply encode_code]. intros buf. cbn [encode]. rewrite E. change (0 <? 0) with false. cbv iota.
  exists 0. done.
Qed.

Lemma shift_small x : ((Z.shiftr x 31 =? 0) || (Z.shiftr x 31 =? -1)) = small x.
Proof.
  rewrite Z.shiftr_div_pow2 by lia. unfold small. pose proof (Z.div_mod x (2 ^ 31) ltac:(lia)) as E.
  pose proof (Z.mod_pos_bound x (2 ^ 31) ltac:(lia)) as B.
  destruct (Z.eqb_spec (x / 2 ^ 31) 0) as [E0|E0]; cbn [orb].
  - symmetry. apply andb_true_intro. split; [apply Z.leb_le|apply Z.ltb_lt]; lia.
  - destruct (Z.eqb_spec (x / 2 ^ 31) (-1)) as [E1|E1].
    + symmetry. apply andb_true_intro. split; [apply Z.leb_le|apply Z.ltb_lt]; lia.
    + symmetry. apply andb_false_iff. destruct (Z.leb_spec (- 2 ^ 31) x); [|by left]. right. apply Z.ltb_ge. nia.
Qed.

(** The numbers in what is on the stack, as [feeds] has them. *)
Definition number (m : msg) : option (bool * Z) :=
  match m with
  | MInt x => Some (small x, x)
  | MReal x => Some (false, x)
  | MBool b => Some (true, of_bool b)
  | _ => None
  end.

Lemma encode_number d a ud x ud' struct m b n : get_encodefield σ a ud = Some (Return (0, x, ud')) → x ≠ Pushed VNil →
  read_msg types struct (a_field a) x = Some m → number m = Some (b, n) → a_type a = elem_type (a_field a) →
  cb_gives (encode σ types (S d)) a ud (if b then 4 else 8) (if b then u32 n else u64 n) ud'.
Proof.
  intros E Hx Hm Hn Ht buf. rewrite (encode_value_of _ _ _ _ _ _ E Hx). unfold encode_one, read_msg in *. rewrite Ht.
  destruct (elem_type (a_field a) =? SPROTO_TSTRUCT) eqn:E4.
  { destruct (types.[_]) as [st|]; [|done]. destruct (struct st x); [|done]. by injection Hm as <-. }
  destruct x as [v|]; [|done]. destruct (elem_type (a_field a) =? SPROTO_TINTEGER) eqn:E0.
  { assert (∃ i, (if truth (f_extra (a_field a)) then Some (Return (s64 (round_decimal v (f_extra (a_field a)))))
      else match lua_tointegerx v with Some n => Some (Return n) | None => Some (Error "is not an integer") end) = Some (Return i) ∧ m = MInt i) as (i & -> & ->).
    { destruct (truth _); [injection Hm as <-; by eexists|]. destruct (lua_tointegerx v); [|done]. injection Hm as <-. by eexists. }
    injection Hn as <- <-. rewrite shift_small. destruct (small i); eexists; done. }
  destruct (elem_type (a_field a) =? SPROTO_TDOUBLE) eqn:E3.
  { injection Hm as <-. injection Hn as <- <-. eexists. split; [done|]. intros _. unfold u64. by rewrite Z.mod_mod by lia. }
  destruct (elem_type (a_field a) =? SPROTO_TBOOLEAN) eqn:E1.
  { destruct v as [|b'| | | | | |]; try done. injection Hm as <-. injection Hn as <- <-. eexists. split; [done|]. intros _. by destruct b'. }
  destruct (elem_type (a_field a) =? SPROTO_TSTRING); [|done]. destruct v; try done. by injection Hm as <-.
Qed.

(** What the encoder does with a struct [d] levels above the deepest. *)
Definition struct_spec (d : nat) : Prop := ∀ st src cs w, type_ok types st → message_of σ types d st src = Some cs → wire types d st cs = Some w →
  len w ≤ room types d st cs ∧
  ∀ pre mid : block, yields (sproto_encode (encode σ types d) types st (pre ++ mid) (len pre) (len mid) (encode_start src)) (λ '(r, buf),
    (r = -1 ∧ len mid < room types d st cs) ∨
    (r = len w ∧ ∃ rest, buf = pre ++ map Some w ++ rest ∧ len rest = len mid - len w)).

Lemma encode_object_writes d a ud x ud' m w : struct_spec d → schema_ok types →
  (∀ p n, get_encodefield σ (a <| a_value := p |> <| a_length := n |>) ud = Some (Return (0, x, ud'))) → x ≠ Pushed VNil →
  read_msg types (message_of σ types d) (a_field a) x = Some m → wire_object types (wire types d) (a_field a) m = Some w →
  a_type a = elem_type (a_field a) →
  cb_writes (encode σ types (S d)) a ud w (room_object types (room types d) (a_field a) m) ud' ∧
  len w ≤ room_object types (room types d) (a_field a) m.
Proof.
  intros Hd Hok E Hx Hm Hw Ht.
  assert (m = MStr w ∧ elem_type (a_field a) = SPROTO_TSTRING ∨ ∃ st cs, m = MStruct cs ∧ elem_type (a_field a) = SPROTO_TSTRUCT ∧
    types.[f_st (a_field a)] = Some st ∧ wire types d st cs = Some w) as Hcase.
  { destruct m as [| | |s|cs]; try done; cbn [wire_object] in Hw.
    - left. destruct (Z.eqb_spec (elem_type (a_field a)) SPROTO_TSTRING); [|done]. by injection Hw as ->.
    - right. destruct (Z.eqb_spec (elem_type (a_field a)) SPROTO_TSTRUCT); [|done]. destruct (types.[_]) as [st|]; [|done]. by exists st, cs. }
  destruct Hcase as [[-> Hty]|(st & cs & -> & Hty & Hst & Hw')].
  - cbn [room_object]. split; [|lia]. intros pre mid. specialize (E (len pre) (len mid)). rewrite (encode_value_of _ _ _ _ _ _ E Hx).
    unfold encode_one, read_msg in *. cbn [a_type a_value a_length a_field]. rewrite Ht. rewrite Hty in *.
    change (SPROTO_TSTRING =? SPROTO_TSTRUCT) with false in *. change (SPROTO_TSTRING =? SPROTO_TINTEGER) with false in *.
    change (SPROTO_TSTRING =? SPROTO_TDOUBLE) with false in *. change (SPROTO_TSTRING =? SPROTO_TBOOLEAN) with false in *.
    change (SPROTO_TSTRING =? SPROTO_TSTRING) with true in *. cbv iota in *.
    destruct x as [[]|]; try done. injection Hm as ->. destruct (Z.ltb_spec (len mid) (len w)) as [Hl|Hl].
    + eexists _, _, _, _. split; [done|]. by left.
    + destruct (write_mid pre mid (map Some w) (len pre) eq_refl ltac:(by rewrite len_map)) as (rest & -> & Hr). rewrite len_map in Hr.
      eexists _, _, _, _. split; [done|]. right. split; [done|]. split; [done|]. by exists rest.
  - unfold read_msg in Hm. rewrite Hty in Hm. change (SPROTO_TSTRUCT =? SPROTO_TSTRUCT) with true in Hm. cbv iota in Hm.
    rewrite Hst in Hm. destruct (message_of σ types d st x) as [cs'|] eqn:Ecs; [|done]. injection Hm as ->.
    assert (type_ok types st) as Hstok.
    { by eapply (arr_get_Forall (type_ok types)). }
    destruct (Hd st x cs w Hstok Ecs Hw') as [Hroom Henc]. cbn [room_object]. rewrite Hst. split; [|done].
    intros pre mid. specialize (E (len pre) (len mid)). rewrite (encode_value_of _ _ _ _ _ _ E Hx).
    unfold encode_one. cbn [a_type a_value a_length a_field]. rewrite Ht, Hty.
    change (SPROTO_TSTRUCT =? SPROTO_TSTRUCT) with true. change (SPROTO_TSTRUCT =? SPROTO_TINTEGER) with false.
    change (SPROTO_TSTRUCT =? SPROTO_TDOUBLE) with false. change (SPROTO_TSTRUCT =? SPROTO_TBOOLEAN) with false.
    change (SPROTO_TSTRUCT =? SPROTO_TSTRING) with false. cbv iota. rewrite Hst.
    destruct (Henc pre mid) as ([r buf] & -> & Hr). pose proof (len_nonneg w).
    exists (if r <? 0 then SPROTO_CB_ERROR else r), 0, ud', buf. split; [done|]. destruct Hr as [[-> Hn]|(-> & rest & -> & Hrest)].
    + left. done.
    + rewrite (proj2 (Z.ltb_ge (len w) 0)) by lia. right. split; [done|]. split; [done|]. by exists rest.
Qed.

Lemma mapM_lookup {A B} (g : A → option B) l r k x : mapM g l = Some r → l !! k = Some x → ∃ y, r !! k = Some y ∧ g x = Some y.
Proof. intros H%mapM_Some E. destruct (Forall2_lookup_l _ _ _ _ _ H E) as (y & Ey & Hy). by exists y. Qed.

Lemma mapM_len {A B} (g : A → option B) l r : mapM g l = Some r → length r = length l.
Proof. intros H%mapM_Some. symmetry. by eapply Forall2_length. Qed.

Lemma number_small m b x : number m = Some (b, x) → b = true → small x = true.
Proof. destruct m as [y| |y| |]; try done; intros [= <- <-]; [done|done|by destruct y]. Qed.

Lemma drop_lookup_cons {A} (l : list A) k x : l !! k = Some x → drop k l = x :: drop (S k) l.
Proof. intros H. by apply drop_S. Qed.

(** The elements of an array in the order of the calls. *)
Section Array.
Context (d : nat) (a : sproto_arg) (src : pushed) (v : value) (xs : list pushed) (ms : list msg).
#[local] Abbreviation f := (a_field a).
Context (He : elements σ types f v = Some xs) (Hn : map_names types f = Some (a_names a))
  (Ht : a_type a = elem_type f).
Let last_ud : encode_ud := EncodeUd src (Some (f_tag f)) v 0.

Lemma feeds_numbers struct outs : mapM (read_msg types struct f) xs = Some ms → mapM number ms = Some outs → ∀ n k, (n + k = length xs)%nat →
  feeds (encode σ types (S d)) a (Z.of_nat k + 1) (at_element src f v k) (drop k outs) last_ud.
Proof.
  intros Hms Houts n. pose proof (mapM_len _ _ _ Hms) as L1. pose proof (mapM_len _ _ _ Houts) as L2.
  induction n as [|n IH]; intros k Hk.
  - rewrite drop_ge by lia. apply feeds_nil.
    destruct (get_element (a <| a_index := Z.of_nat k + 1 |>) src f v xs k He eq_refl eq_refl Hn) as (l & t & -> & _ & Hg).
    rewrite (proj2 (lookup_ge_None xs k)) in Hg by lia. destruct (Hg ltac:(lia)) as (c & Eg & Hc). by eapply encode_nil.
  - destruct (lookup_lt_is_Some_2 xs k ltac:(lia)) as [x Ex].
    destruct (mapM_lookup _ _ _ _ _ Hms Ex) as (m & Em & Hm). destruct (mapM_lookup _ _ _ _ _ Houts Em) as ([b y] & Eo & Ho).
    rewrite (drop_lookup_cons _ _ _ Eo).
    destruct (get_element (a <| a_index := Z.of_nat k + 1 |>) src f v xs k He eq_refl eq_refl Hn) as (l & t & -> & _ & Hg). rewrite Ex in Hg. destruct Hg as [Eg Hx].
    eapply feeds_cons; [|by eapply number_small|].
    + eapply encode_number; [exact Eg|done| |exact Ho|]; done.
    + replace (Z.of_nat k + 1 + 1) with (Z.of_nat (S k) + 1) by lia. apply IH. lia.
Qed.

Lemma feeds_elements ws : struct_spec d → schema_ok types → mapM (read_msg types (message_of σ types d) f) xs = Some ms →
  mapM (wire_object types (wire types d) f) ms = Some ws → ∀ n k, (n + k = length xs)%nat →
  feeds_objects (encode σ types (S d)) a (Z.of_nat k + 1) (at_element src f v k)
    (drop k (zip ws (map (room_object types (room types d) f) ms))) last_ud.
Proof.
  intros Hd Hok Hms Hws n. pose proof (mapM_len _ _ _ Hms) as L1. pose proof (mapM_len _ _ _ Hws) as L2.
  induction n as [|n IH]; intros k Hk.
  - rewrite drop_ge by (rewrite length_zip, length_map; lia). apply objects_nil. intros p q.
    destruct (get_element (a <| a_index := Z.of_nat k + 1 |> <| a_value := p |> <| a_length := q |>) src f v xs k He eq_refl eq_refl Hn) as (l & t & -> & _ & Hg).
    rewrite (proj2 (lookup_ge_None xs k)) in Hg by lia. destruct (Hg ltac:(lia)) as (c & Eg & Hc). by eapply encode_nil.
  - destruct (lookup_lt_is_Some_2 xs k ltac:(lia)) as [x Ex].
    destruct (mapM_lookup _ _ _ _ _ Hms Ex) as (m & Em & Hm). destruct (mapM_lookup _ _ _ _ _ Hws Em) as (w & Ew & Hw).
    assert (zip ws (map (room_object types (room types d) f) ms) !! k = Some (w, room_object types (room types d) f m)) as Ez.
    { rewrite lookup_zip_with, Ew, list_lookup_fmap, Em. done. }
    rewrite (drop_lookup_cons _ _ _ Ez).
    assert (x ≠ Pushed VNil ∧ ∀ p q, get_encodefield σ (a <| a_index := Z.of_nat k + 1 |> <| a_value := p |> <| a_length := q |>) (at_element src f v k) =
      Some (Return (0, x, at_element src f v (S k)))) as [Hx Hg].
    { split.
      - destruct (get_element (a <| a_index := Z.of_nat k + 1 |>) src f v xs k He eq_refl eq_refl Hn) as (l & t & -> & _ & Hg). rewrite Ex in Hg. apply Hg.
      - intros p q. destruct (get_element (a <| a_index := Z.of_nat k + 1 |> <| a_value := p |> <| a_length := q |>) src f v xs k He eq_refl eq_refl Hn) as (l & t & -> & _ & Hg).
        rewrite Ex in Hg. apply Hg. }
    destruct (encode_object_writes d (a <| a_index := Z.of_nat k + 1 |>) (at_element src f v k) x (at_element src f v (S k)) m w Hd Hok) as [Hcb Hr];
      [exact Hg|done|done|done|done|].
    eapply objects_cons; [exact Hcb|exact Hr|].
    replace (Z.of_nat k + 1 + 1) with (Z.of_nat (S k) + 1) by lia. apply IH. lia.
Qed.

End Array.

(** The first call starts the array. *)
Lemma feeds_first {U} (cb : callback U) a u v outs u' : (∀ (buf : block), cb (a <| a_index := 1 |>) u buf = cb (a <| a_index := 1 |>) v buf) →
  feeds cb a 1 v outs u' → feeds cb a 1 u outs u'.
Proof.
  intros H Hf. inversion Hf as [? ? ? Hcb|? ? b x l u1 ? Hcb Hs Hl]; subst.
  - apply feeds_nil. intros buf. rewrite H. apply Hcb.
  - eapply feeds_cons; [|done|done]. intros buf. rewrite H. apply Hcb.
Qed.

Lemma feeds_objects_first {U} (cb : callback U) a u v ws u' :
  (∀ p n (buf : block), cb (a <| a_index := 1 |> <| a_value := p |> <| a_length := n |>) u buf = cb (a <| a_index := 1 |> <| a_value := p |> <| a_length := n |>) v buf) →
  feeds_objects cb a 1 v ws u' → feeds_objects cb a 1 u ws u'.
Proof.
  intros H Hf. inversion Hf as [? ? ? Hcb|? ? w rm l u1 ? Hcb Hr Hl]; subst.
  - apply objects_nil. intros p n buf. rewrite H. apply Hcb.
  - eapply objects_cons; [|done|done]. intros pre mid. rewrite H. apply Hcb.
Qed.

Lemma encode_same d a u v (buf : block) : get_encodefield σ a u = get_encodefield σ a v → encode σ types (S d) a u buf = encode σ types (S d) a v buf.
Proof. intros E. cbn [encode]. by rewrite E. Qed.

Definition ud_ok (src : pushed) (last : Z) (ud : encode_ud) : Prop := tbl ud = src ∧ ∀ t, array_tag ud = Some t → t ≤ last.

Definition room_of (d : nat) (f : field) (c : option content) : Z :=
  match c with Some c => room_content types (room types d) f c | None => 8 end.

Lemma elem_type_cases f : field_ok types f → elem_type f = SPROTO_TINTEGER ∨ elem_type f = SPROTO_TBOOLEAN ∨ elem_type f = SPROTO_TSTRING ∨
  elem_type f = SPROTO_TDOUBLE ∨ elem_type f = SPROTO_TSTRUCT.
Proof. intros [_ H _ _ _]. unfold SPROTO_TINTEGER, SPROTO_TBOOLEAN, SPROTO_TSTRING, SPROTO_TDOUBLE, SPROTO_TSTRUCT in *. lia. Qed.

Lemma map_names_ok f : field_ok types f → ∃ names, map_names types f = Some names.
Proof.
  intros [_ _ _ _ H]. destruct (Z.ltb_spec 0 (f_map f)) as [Hm|Hm]; [by destruct (H Hm) as (_ & _ & _ & [n Hn]); exists n|].
  exists None. unfold map_names. by rewrite (proj2 (Z.ltb_ge 0 (f_map f))).
Qed.

Lemma wire_integers_outs l : wire_outs (map (λ x, (small x, x)) l) = wire_integers l.
Proof.
  assert (forallb fst (map (λ x, (small x, x)) l) = forallb small l) as E by (induction l as [|x l IH]; [done|]; cbn; by rewrite IH).
  assert (∀ il, cells il (map (λ x, (small x, x)) l) = flat_map (le_bytes (Z.to_nat il)) l) as Ec.
  { intros il. clear E. induction l as [|x l IH]; [done|]. cbn [cells flat_map map snd] in *. by f_equal. }
  destruct l as [|x l]; [done|]. unfold wire_outs, wire_integers. unfold width. rewrite E, !Ec. cbn [map]. by destruct (forallb small (x :: l)).
Qed.

Lemma wire_doubles_outs l : wire_outs (map (pair false) l) = wire_doubles l.
Proof.
  assert (cells 8 (map (pair false) l) = flat_map (le_bytes 8) l) as Ec.
  { induction l as [|x l IH]; [done|]. cbn [cells flat_map map snd] in *. by f_equal. }
  destruct l as [|x l]; [done|]. unfold wire_outs, wire_doubles, width. cbn [map] in *. change ((4 =? 4) && forallb fst ((false, x) :: map (pair false) l)) with false.
  cbv iota. by rewrite Ec.
Qed.

Lemma mapM_number {A} (g : msg → option A) (h : A → bool * Z) : (∀ m x, g m = Some x → number m = Some (h x)) → ∀ ms l, mapM g ms = Some l → mapM number ms = Some (map h l).
Proof.
  intros H ms l Hl%mapM_Some. apply mapM_Some. induction Hl as [|m x ms l Hm _ IH]; constructor; [by apply H|done].
Qed.

Lemma len_wire_outs outs : len (wire_outs outs) ≤ 9 + 8 * len outs.
Proof.
  destruct outs as [|o outs]; [done|]. unfold wire_outs. pose proof (width_cases 4 (o :: outs)). pose proof (len_nonneg (o :: outs)).
  rewrite len_cons, len_cells by lia. nia.
Qed.

Lemma len_with_size w : len (with_size w) = 4 + len w.
Proof. unfold with_size. rewrite len_app, len_le. lia. Qed.

Lemma len_sized_list (ws : list (list Z)) rs : Forall2 (λ w r, len w ≤ r) ws rs → len (flat_map with_size ws) ≤ sum (map (λ r, 4 + r) rs).
Proof.
  induction 1 as [|w r ws rs Hw _ IH]; [done|]. cbn [flat_map map]. rewrite len_app, len_with_size. change (sum (4 + r :: map (λ r, 4 + r) rs)) with (4 + r + sum (map (λ r, 4 + r) rs)). lia.
Qed.

(** What the encoder writes for one field. *)
Definition value_spec (d : nat) (f : field) (x : option (Z * list Z)) (rm : Z) (ud u1 : encode_ud) : Prop :=
  (∀ pre mid : block, yields (encode_value (encode σ types (S d)) types f ud (pre ++ mid) (len pre) (len mid)) (value_wrote pre mid x rm u1)) ∧
  len (from_option snd [] x) ≤ rm ∧ (∀ v e, x = Some (v, e) → v ≠ 0 → e = []).

Lemma array_value d f names w rm (ud u1 : encode_ud) : is_array f = true → map_names types f = Some names → len w ≤ rm →
  (∀ pre mid : block, yields (encode_array (encode σ types (S d)) (Arg f (elem_type f) 0 0 8 0 names) ud (pre ++ mid) (len pre) (len mid))
    (wrote pre mid (with_size w) (4 + rm) u1)) →
  value_spec d f (Some (0, with_size w)) (4 + rm) ud u1.
Proof.
  intros Ha Hn Hl H. split; [|split; [change (len (with_size w) ≤ 4 + rm); rewrite len_with_size; lia|by intros v e [= <- <-]]].
  intros pre mid. unfold encode_value. unfold is_array in Ha. rewrite Ha, Hn. destruct (H pre mid) as ([[r u] buf] & E & Hx).
  unfold elem_type, is_array in E. rewrite Ha in E. rewrite E. eexists. split; [done|]. destruct Hx as [[-> Hm]|(-> & -> & rest & -> & Hr)].
  - left. split; [by right|done].
  - right. exists (len (with_size w)). split; [done|]. split; [rewrite len_with_size; pose proof (len_nonneg w); lia|]. split; [done|]. split; [done|]. by exists rest.
Qed.

Lemma scalar_value d f x rm (ud u1 : encode_ud) : is_array f = false →
  (∀ pre mid : block, yields (encode_scalar (encode σ types (S d)) (Arg f (elem_type f) 0 0 8 0 None) ud (pre ++ mid) (len pre) (len mid)) (value_wrote pre mid x rm u1)) →
  ∀ pre mid : block, yields (encode_value (encode σ types (S d)) types f ud (pre ++ mid) (len pre) (len mid)) (value_wrote pre mid x rm u1).
Proof. intros Ha H pre mid. unfold encode_value. specialize (H pre mid). unfold elem_type, is_array in *. by rewrite Ha in *. Qed.

(** A field that is not in the table. *)
Lemma absent_value d f src last ud : field_ok types f → ud_ok src last ud → last < f_tag f →
  lua_getfield σ src (VStr (f_name f)) = Some (Return VNil) → ∃ u1, ud_ok src (f_tag f) u1 ∧ value_spec d f None 8 ud u1.
Proof.
  intros Hf [Htbl Htag] Hlt Eg. destruct (map_names_ok f Hf) as [names Hn].
  assert (array_tag ud ≠ Some (f_tag f)) as Hne by (intros E; apply Htag in E; lia).
  destruct (is_array f) eqn:Ha.
  - exists (EncodeUd src (Some (f_tag f)) VNil 0). split; [split; [done|by intros t [= <-]]|]. split; [|done].
    intros pre mid. unfold encode_value. unfold is_array in Ha. rewrite Ha, Hn.
    destruct (encode_array_absent (encode σ types (S d)) (Arg f (Z.ldiff (f_type f) SPROTO_TARRAY) 0 0 8 0 names) ud (EncodeUd src (Some (f_tag f)) VNil 0) pre mid) as ([[r u] buf] & -> & Hx).
    { intros p n. eapply encode_code; [|done]. rewrite <- Htbl in *. by apply get_absent. }
    eexists. split; [done|]. destruct Hx as [[-> Hm]|(-> & -> & ->)]; [left; split; [by right|done]|right; split; [by right|done]].
  - exists ud. split; [split; [done|intros t Et; apply Htag in Et; lia]|]. split; [|done]. apply scalar_value; [done|]. intros pre mid.
    destruct (encode_scalar_absent (encode σ types (S d)) (Arg f (elem_type f) 0 0 8 0 None) ud ud pre mid) as ([[r u] buf] & -> & Hx).
    { cbn. apply Hf. } { intros p n. eapply encode_nil; [|by left]. apply get_scalar; [done|]. by rewrite Htbl. }
    eexists. split; [done|]. destruct Hx as [[-> Hm]|(Hr & -> & ->)]; [left; split; [by right|lia]|by right].
Qed.

Lemma scalar_number d f src last ud v m b n : ud_ok src last ud → last < f_tag f → lua_getfield σ src (VStr (f_name f)) = Some (Return v) → v ≠ VNil →
  is_array f = false → elem_type f = SPROTO_TINTEGER ∨ elem_type f = SPROTO_TDOUBLE ∨ elem_type f = SPROTO_TBOOLEAN →
  read_msg types (message_of σ types d) f (Pushed v) = Some m → number m = Some (b, n) →
  value_spec d f (Some (if b then if u32 n <? 0x7fff then ((u32 n + 1) * 2, []) else (0, with_size (le_bytes 4 n)) else (0, with_size (le_bytes 8 n)))) 12 ud ud.
Proof.
  intros [Htbl Htag] Hlt Eg Hv Ha Ht Hm Hnum. split; [|split].
  - apply scalar_value; [done|]. intros pre mid. apply encode_scalar_integer; [done|].
    eapply encode_number; [by apply get_scalar; [done|rewrite Htbl]|congruence|exact Hm|exact Hnum|done].
  - destruct b; [destruct (_ <? _)|]; cbn [from_option snd]; [done|rewrite len_with_size, len_le; lia..].
  - intros v' e. destruct b; [destruct (_ <? _)|]; intros [= <- <-]; done.
Qed.

Lemma array_numbers d f src last ud v xs ms outs : field_ok types f → ud_ok src last ud → last < f_tag f →
  lua_getfield σ src (VStr (f_name f)) = Some (Return v) → is_array f = true → elements σ types f v = Some xs →
  mapM (read_msg types (message_of σ types d) f) xs = Some ms → mapM number ms = Some outs →
  ∃ u1, ud_ok src (f_tag f) u1 ∧ ∀ names, map_names types f = Some names →
    feeds (encode σ types (S d)) (Arg f (elem_type f) 0 0 8 0 names) 1 ud outs u1.
Proof.
  intros Hf [Htbl Htag] Hlt Eg Ha He Hms Houts. exists (EncodeUd src (Some (f_tag f)) v 0). split; [split; [done|by intros t [= <-]]|].
  intros names Hn. apply (feeds_first _ _ _ (at_element src f v 0)).
  - intros buf. apply encode_same. destruct (get_element (Arg f (elem_type f) 0 0 8 1 names) src f v xs 0 He eq_refl eq_refl Hn) as (l & t & Ev & Et & _).
    subst src. eapply get_first; [done| |exact Ev|exact Et|done]. intros E. apply Htag in E. cbn in E. lia.
  - apply (feeds_numbers d (Arg f (elem_type f) 0 0 8 0 names) src v xs ms He Hn eq_refl _ outs Hms Houts (length xs) 0). lia.
Qed.

Lemma array_objects d f src last ud v xs ms ws : struct_spec d → schema_ok types → ud_ok src last ud → last < f_tag f →
  lua_getfield σ src (VStr (f_name f)) = Some (Return v) → is_array f = true → elements σ types f v = Some xs →
  mapM (read_msg types (message_of σ types d) f) xs = Some ms → mapM (wire_object types (wire types d) f) ms = Some ws →
  ∃ u1, ud_ok src (f_tag f) u1 ∧ ∀ names, map_names types f = Some names →
    feeds_objects (encode σ types (S d)) (Arg f (elem_type f) 0 0 8 0 names) 1 ud (zip ws (map (room_object types (room types d) f) ms)) u1.
Proof.
  intros Hd Hok [Htbl Htag] Hlt Eg Ha He Hms Hws. exists (EncodeUd src (Some (f_tag f)) v 0). split; [split; [done|by intros t [= <-]]|].
  intros names Hn. apply (feeds_objects_first _ _ _ (at_element src f v 0)).
  - intros p n buf. apply encode_same.
    destruct (get_element (Arg f (elem_type f) 0 p n 1 names) src f v xs 0 He eq_refl eq_refl Hn) as (l & t & Ev & Et & _).
    subst src. eapply get_first; [done| |exact Ev|exact Et|done]. intros E. apply Htag in E. cbn in E. lia.
  - apply (feeds_elements d (Arg f (elem_type f) 0 0 8 0 names) src v xs ms He Hn eq_refl ws Hd Hok Hms Hws (length xs) 0). lia.
Qed.

Lemma feeds_objects_room cb a i u ws u' : @feeds_objects encode_ud cb a i u ws u' → Forall2 (λ w r, len w ≤ r) ws.*1 ws.*2.
Proof. induction 1; constructor; done. Qed.

Lemma zip_room ws f d ms : length ws = length ms → sum (map (λ w : list Z * Z, 4 + w.2) (zip ws (map (room_object types (room types d) f) ms))) =
  sum (map (λ m, 4 + room_object types (room types d) f m) ms).
Proof. revert ws. induction ms as [|m ms IH]; intros [|w ws] H; try done. cbn [map zip zip_with sum foldr]. specialize (IH ws). unfold sum, zip in *. rewrite IH by (cbn in H; lia). done. Qed.

Lemma zip_bytes (ws : list (list Z)) (rs : list Z) : length ws = length rs → flat_map (λ w : list Z * Z, with_size w.1) (zip ws rs) = flat_map with_size ws.
Proof. revert rs. induction ws as [|w ws IH]; intros [|r rs] H; try done. cbn [zip zip_with flat_map fst]. unfold zip in IH. rewrite IH by (cbn in H; lia). done. Qed.

Lemma value_spec_mono d f x rm rm' ud u1 : value_spec d f x rm ud u1 → rm ≤ rm' → value_spec d f x rm' ud u1.
Proof.
  intros (H1 & H2 & H3) Hl. split; [|split; [lia|done]]. intros pre mid. destruct (H1 pre mid) as ([[r u] buf] & E & Hx).
  eexists. split; [exact E|]. destruct x as [vd|]; (destruct Hx as [[Hr Hm]|Hx]; [left; split; [done|lia]|by right]).
Qed.

Lemma mapM_Forall {A B} (g : A → option B) (P : B → Prop) l r : (∀ x y, g x = Some y → P y) → mapM g l = Some r → Forall P r.
Proof. intros H Hl%mapM_Some. induction Hl; constructor; eauto. Qed.

Lemma object_list d f names ms ws (ud u1 : encode_ud) : is_array f = true → map_names types f = Some names →
  elem_type f = SPROTO_TSTRING ∨ elem_type f = SPROTO_TSTRUCT → length ws = length ms →
  feeds_objects (encode σ types (S d)) (Arg f (elem_type f) 0 0 8 0 names) 1 ud (zip ws (map (room_object types (room types d) f) ms)) u1 →
  value_spec d f (Some (0, with_size (flat_map with_size ws))) (8 + sum (map (λ m, 4 + room_object types (room types d) f m) ms)) ud u1.
Proof.
  intros Ha Hn Ht Hlen Hf. rewrite <- (zip_bytes ws (map (room_object types (room types d) f) ms)) by (by rewrite length_map).
  rewrite <- (zip_room ws f d ms Hlen).
  set (wr := zip ws (map (room_object types (room types d) f) ms)) in *.
  replace (8 + sum (map (λ w : list Z * Z, 4 + w.2) wr)) with (4 + (4 + sum (map (λ w : list Z * Z, 4 + w.2) wr))) by lia.
  eapply array_value; [done|exact Hn| |intros pre mid; by apply encode_array_objects].
  clearbody wr. clear -Hf. induction Hf as [|i u w rm l u1 u' _ Hrm _ IH]; [done|]. cbn [flat_map map fst snd]. rewrite len_app, len_with_size.
  change (sum (4 + rm :: map (λ w0 : list Z * Z, 4 + w0.2) l)) with (4 + rm + sum (map (λ w0 : list Z * Z, 4 + w0.2) l)). lia.
Qed.

Lemma present_value d f src last ud c x : struct_spec d → schema_ok types → field_ok types f → ud_ok src last ud → last < f_tag f →
  read_content σ types (message_of σ types d) src f = Some (Some c) → wire_content types (wire types d) f c = Some x →
  ∃ u1, ud_ok src (f_tag f) u1 ∧ value_spec d f (Some x) (room_content types (room types d) f c) ud u1.
Proof.
  intros Hd Hok Hf Hud Hlt Hr Hw. unfold read_content in Hr.
  destruct (lua_getfield σ src (VStr (f_name f))) as [[v|]|] eqn:Eg; try done. destruct (is_nil v) eqn:Env; [done|].
  assert (v ≠ VNil) as Hv by (by intros ->). destruct (map_names_ok f Hf) as [names Hn].
  assert (ud_ok src (f_tag f) ud) as Hud' by (destruct Hud as [H1 H2]; split; [done|intros t Et; apply H2 in Et; lia]).
  destruct (is_array f) eqn:Ha.
  - destruct (elements σ types f v) as [xs|] eqn:He; [|done]. destruct (mapM _ xs) as [ms|] eqn:Hms; [|done]. injection Hr as <-.
    cbn [wire_content] in Hw. rewrite Ha in Hw. cbn [negb] in Hw. cbn [room_content].
    destruct (elem_type_cases f Hf) as [Ht|[Ht|[Ht|[Ht|Ht]]]]; rewrite Ht in Hw; cbn [Z.eqb SPROTO_TINTEGER SPROTO_TDOUBLE SPROTO_TBOOLEAN SPROTO_TSTRING SPROTO_TSTRUCT Pos.eqb] in Hw.
    + destruct (mapM get_int ms) as [l|] eqn:El; [|done]. injection Hw as <-.
      pose proof (mapM_number get_int (λ x, (small x, x)) ltac:(by intros [] ? [= <-]) ms l El) as Houts.
      destruct (array_numbers d f src last ud v xs ms _ Hf Hud Hlt Eg Ha He Hms Houts) as (u1 & Hu1 & Hfeed). exists u1. split; [done|].
      rewrite Ht. change (SPROTO_TINTEGER =? SPROTO_TSTRING) with false. change (SPROTO_TINTEGER =? SPROTO_TSTRUCT) with false. cbv iota.
      rewrite <- wire_integers_outs. assert (len (map (λ x, (small x, x)) l) = len ms) as Hl by (rewrite len_map; unfold len; by rewrite (mapM_len _ _ _ El)).
      replace (5 + 8 * len ms + 8) with (4 + (9 + 8 * len ms)) by lia. rewrite <- Hl. eapply array_value; [done|exact Hn|apply len_wire_outs|].
      intros pre mid. apply encode_array_integers; [right; exact Ht|by apply Hfeed].
    + destruct (mapM get_bool ms) as [l|] eqn:El; [|done]. injection Hw as <-.
      pose proof (mapM_number get_bool (pair true) ltac:(by intros [] ? [= <-]) ms l El) as Houts.
      destruct (array_numbers d f src last ud v xs ms _ Hf Hud Hlt Eg Ha He Hms Houts) as (u1 & Hu1 & Hfeed). exists u1. split; [done|].
      rewrite Ht. change (SPROTO_TBOOLEAN =? SPROTO_TSTRING) with false. change (SPROTO_TBOOLEAN =? SPROTO_TSTRUCT) with false. cbv iota.
      assert (len l = len ms) as Hl by (unfold len; by rewrite (mapM_len _ _ _ El)). rewrite <- Hl. pose proof (len_nonneg l).
      eapply (value_spec_mono _ _ _ (4 + len l)); [|lia]. eapply array_value; [done|exact Hn|lia|].
      intros pre mid. apply encode_array_booleans; [exact Ht|by apply Hfeed|].
      apply (mapM_Forall get_bool _ ms l); [|done]. intros [] ? [= <-]. destruct b; [by right|by left].
    + destruct (mapM (wire_object types (wire types d) f) ms) as [ws|] eqn:El; [|done]. injection Hw as <-.
      destruct (array_objects d f src last ud v xs ms ws Hd Hok Hud Hlt Eg Ha He Hms El) as (u1 & Hu1 & Hfeed). exists u1. split; [done|].
      rewrite Ht. change (SPROTO_TSTRING =? SPROTO_TSTRING) with true. cbv iota. eapply object_list; [done|exact Hn| |by eapply mapM_len|by apply Hfeed]; auto.
    + destruct (mapM get_double ms) as [l|] eqn:El; [|done]. injection Hw as <-.
      pose proof (mapM_number get_double (pair false) ltac:(by intros [] ? [= <-]) ms l El) as Houts.
      destruct (array_numbers d f src last ud v xs ms _ Hf Hud Hlt Eg Ha He Hms Houts) as (u1 & Hu1 & Hfeed). exists u1. split; [done|].
      rewrite Ht. change (SPROTO_TDOUBLE =? SPROTO_TSTRING) with false. change (SPROTO_TDOUBLE =? SPROTO_TSTRUCT) with false. cbv iota.
      rewrite <- wire_doubles_outs. assert (len (map (pair false) l) = len ms) as Hl by (rewrite len_map; unfold len; by rewrite (mapM_len _ _ _ El)).
      replace (5 + 8 * len ms + 8) with (4 + (9 + 8 * len ms)) by lia. rewrite <- Hl. eapply array_value; [done|exact Hn|apply len_wire_outs|].
      intros pre mid. apply encode_array_integers; [left; exact Ht|by apply Hfeed].
    + destruct (mapM (wire_object types (wire types d) f) ms) as [ws|] eqn:El; [|done]. injection Hw as <-.
      destruct (array_objects d f src last ud v xs ms ws Hd Hok Hud Hlt Eg Ha He Hms El) as (u1 & Hu1 & Hfeed). exists u1. split; [done|].
      rewrite Ht. change (SPROTO_TSTRUCT =? SPROTO_TSTRING) with false. change (SPROTO_TSTRUCT =? SPROTO_TSTRUCT) with true. cbv iota. eapply object_list; [done|exact Hn| |by eapply mapM_len|by apply Hfeed]; auto.
  - destruct (read_msg types (message_of σ types d) f (Pushed v)) as [m|] eqn:Hm; [|done]. injection Hr as <-.
    cbn [wire_content] in Hw. rewrite Ha in Hw. cbn [room_content]. exists ud. split; [done|].
    assert (∀ b n, elem_type f = SPROTO_TINTEGER ∨ elem_type f = SPROTO_TDOUBLE ∨ elem_type f = SPROTO_TBOOLEAN → number m = Some (b, n) →
      value_spec d f (Some (if b then if u32 n <? 0x7fff then ((u32 n + 1) * 2, []) else (0, with_size (le_bytes 4 n)) else (0, with_size (le_bytes 8 n)))) 12 ud ud) as Hnum.
    { intros b n Ht Hn'. by apply (scalar_number d f src last ud v m). }
    assert (elem_type f = SPROTO_TSTRING ∨ elem_type f = SPROTO_TSTRUCT → ∀ w, wire_object types (wire types d) f m = Some w →
      value_spec d f (Some (0, with_size w)) (4 + room_object types (room types d) f m) ud ud) as Hobj.
    { intros Ht w Ew. destruct (encode_object_writes d (Arg f (elem_type f) 0 0 8 0 None) ud (Pushed v) ud m w Hd Hok) as [Hcb Hl];
        [intros p n; apply get_scalar; [done|by rewrite (proj1 Hud)]|congruence|exact Hm|exact Ew|done|].
      split; [|split; [change (len (with_size w) ≤ 4 + room_object types (room types d) f m); rewrite len_with_size; cbn [a_field] in Hl; lia|by intros v' e [= <- <-]]].
      apply scalar_value; [done|]. intros pre mid. by apply encode_scalar_object. }
    destruct (elem_type_cases f Hf) as [Ht|[Ht|[Ht|[Ht|Ht]]]]; rewrite Ht in Hw, Hnum, Hobj |- *; cbn [Z.eqb SPROTO_TINTEGER SPROTO_TDOUBLE SPROTO_TBOOLEAN SPROTO_TSTRING SPROTO_TSTRUCT Pos.eqb] in Hw |- *.
    + destruct (get_int m) as [n|] eqn:En; [|done]. injection Hw as <-. apply (Hnum (small n) n); [by left|]. by destruct m; try done; injection En as ->.
    + destruct (get_bool m) as [n|] eqn:En; [|done]. injection Hw as <-. destruct m as [| |b| |]; try done. injection En as <-.
      specialize (Hnum true (of_bool b) ltac:(by right; right) eq_refl). by destruct b.
    + destruct (wire_object types (wire types d) f m) as [w|] eqn:Ew; [|done]. injection Hw as <-. apply Hobj; [by left|done].
    + destruct (get_double m) as [n|] eqn:En; [|done]. injection Hw as <-. apply (Hnum false n); [by right; left|]. by destruct m; try done; injection En as ->.
    + destruct (wire_object types (wire types d) f m) as [w|] eqn:Ew; [|done]. injection Hw as <-. apply Hobj; [by right|done].
Qed.

Lemma read_absent struct src f : read_content σ types struct src f = Some None → lua_getfield σ src (VStr (f_name f)) = Some (Return VNil).
Proof.
  unfold read_content. destruct (lua_getfield σ src (VStr (f_name f))) as [[v|]|]; [|done..].
  destruct (is_nil v) eqn:Ev; [by destruct v|]. by repeat case_match.
Qed.

Lemma message_feeds d src : struct_spec d → schema_ok types → ∀ fs cs ws last ud, Forall (field_ok types) fs → ascending last fs → ud_ok src last ud →
  mapM (read_content σ types (message_of σ types d) src) fs = Some cs → wire_types types (wire types d) fs cs = Some ws →
  ∃ u', feeds_fields (encode σ types (S d)) types ud fs (zip ws (zip_with (room_of d) fs cs)) u'.
Proof.
  intros Hd Hok fs. induction fs as [|f fs IH]; intros cs ws last ud Hfs Ha Hud Hcs Hws.
  - injection Hcs as <-. injection Hws as <-. exists ud. constructor.
  - apply Forall_cons in Hfs as [Hf Hfs]. cbn [ascending] in Ha. destruct Ha as [Hlt Ha]. cbn [mapM] in Hcs.
    destruct (read_content σ types (message_of σ types d) src f) as [c|] eqn:Hc; [|done]. cbn in Hcs.
    destruct (mapM (read_content σ types (message_of σ types d) src) fs) as [cs'|] eqn:Hcs'; [|done]. injection Hcs as <-.
    unfold wire_types in Hws. cbn [zip zip_with mapM] in Hws. destruct (traverse (wire_content types (wire types d) f) c) as [x|] eqn:Hx; [|done]. cbn in Hws.
    destruct (mapM _ (zip_with pair fs cs')) as [ws'|] eqn:Hws'; [|done]. injection Hws as <-.
    assert (∃ u1, ud_ok src (f_tag f) u1 ∧ value_spec d f x (room_of d f c) ud u1) as (u1 & Hu1 & H1 & H2 & H3).
    { destruct c as [c|]; cbn [traverse] in Hx.
      - destruct (wire_content types (wire types d) f c) as [vd|] eqn:Ew; [|done]. injection Hx as <-.
        by apply (present_value d f src last ud c).
      - injection Hx as <-. apply (absent_value d f src last ud); try done. by eapply read_absent. }
    destruct (IH cs' ws' (f_tag f) u1 Hfs Ha Hu1 eq_refl Hws') as [u' Hfeed]. exists u'. cbn [zip zip_with]. by eapply fields_cons.
Qed.

Lemma wire_types_len struct fs cs ws : length cs = length fs → wire_types types struct fs cs = Some ws → length ws = length fs.
Proof. intros Hl H. apply mapM_len in H. rewrite H, length_zip. lia. Qed.

Lemma struct_data_room (fs : list field) : ∀ (ws : list (option (Z * list Z))) (rs : list Z) last, Forall2 (λ x r, len (from_option snd [] x) ≤ r) ws rs →
  length ws = length fs → ascending last fs →
  len (wire_fields last (zip fs ws)).1 ≤ max_records last fs ∧ len (wire_fields last (zip fs ws)).2 ≤ sum rs.
Proof.
  induction fs as [|f fs IH]; intros ws rs last Hr Hl Ha; destruct Hr as [|x r ws rs Hx Hr]; try done.
  cbn [ascending] in Ha. destruct Ha as [Hlt Ha]. cbn [length] in Hl. destruct x as [[v e]|].
  - destruct (IH ws rs (f_tag f) Hr ltac:(lia) Ha) as [H1 H2]. cbn [zip zip_with]. rewrite wire_fields_cons. cbn [fst snd].
    rewrite !len_app, <- len_app, len_gap by done. cbn [max_records]. change (len e ≤ r) in Hx. change (sum (r :: rs)) with (r + sum rs).
    unfold zip in *. split; [destruct (_ <? _); lia|lia].
  - destruct (IH ws rs last Hr ltac:(lia) (ascending_weaken (f_tag f) last fs ltac:(lia) Ha)) as [H1 H2].
    change (zip (f :: fs) (None :: ws)) with ((f, @None (Z * list Z)) :: zip fs ws). cbn [wire_fields].
    pose proof (max_records_skip last f fs Hlt Ha). change (0 ≤ r) in Hx. change (sum (r :: rs)) with (r + sum rs). lia.
Qed.

Lemma feeds_fields_room (cb : callback encode_ud) u fs xs u' : feeds_fields cb types u fs xs u' →
  Forall2 (λ x r, len (from_option snd [] x) ≤ r) xs.*1 xs.*2 ∧ length xs.*1 = length fs.
Proof.
  induction 1 as [|u f fs x rm xs u1 u' _ Hr _ _ [IH1 IH2]]; [done|]. split; [by constructor|]. cbn. by f_equal.
Qed.

Lemma zip_fst {A B} (l : list A) (k : list B) : length l = length k → (zip l k).*1 = l.
Proof. intros H. apply fst_zip. lia. Qed.
Lemma zip_snd {A B} (l : list A) (k : list B) : length l = length k → (zip l k).*2 = k.
Proof. intros H. apply snd_zip. lia. Qed.

Lemma struct_spec_all : schema_ok types → ∀ d, struct_spec d.
Proof.
  intros Hok d. induction d as [|d IH]; intros st src cs w Hst Hcs Hw; [done|]. cbn [message_of wire] in *.
  destruct (length cs =? length (t_f st))%nat eqn:El; [|done]. apply Nat.eqb_eq in El.
  destruct (wire_types types (wire types d) (t_f st) cs) as [ws|] eqn:Hws; [|done]. injection Hw as <-.
  destruct (message_feeds d src IH Hok (t_f st) cs ws (-1) (encode_start src)) as [u' Hfeed];
    [apply Hst|apply Hst|by split|done|done|].
  pose proof (wire_types_len _ _ _ _ El Hws) as Lw.
  assert (length ws = length (zip_with (room_of d) (t_f st) cs)) as Lr by (rewrite length_zip_with; lia).
  pose proof (feeds_fields_room _ _ _ _ _ Hfeed) as [Hroom _]. rewrite zip_fst, zip_snd in Hroom by done.
  assert (room types (S d) st cs = header_size st + sum (zip_with (room_of d) (t_f st) cs)) as Er by done.
  split.
  - destruct (struct_data_room (t_f st) ws _ (-1) Hroom Lw (type_ascending _ _ Hst)) as [H1 H2]. rewrite Er.
    unfold wire_struct. destruct (wire_fields (-1) (zip (t_f st) ws)) as [recs data]. cbn [fst snd] in *.
    rewrite !len_app, len_le, len_words. unfold header_size, SIZEOF_HEADER, SIZEOF_FIELD. rewrite (type_maxn _ _ Hst). lia.
  - intros pre mid. destruct (sproto_encode_spec (encode σ types (S d)) types st (encode_start src) _ u' pre mid Hst Hfeed) as ([r buf] & E & Hx).
    rewrite zip_fst, zip_snd in Hx by done. rewrite <- Er in Hx. by exists (r, buf).
Qed.

(** ** [lencode] *)

Lemma lencode_loop_spec st cs w x (fuel : nat) : schema_ok types → type_ok types st → message_of σ types ENCODE_DEEPLEVEL st (Pushed x) = Some cs →
  wire types ENCODE_DEEPLEVEL st cs = Some w → room types ENCODE_DEEPLEVEL st cs ≤ ENCODE_MAXSIZE / 2 →
  ∀ buffer sz, len buffer = sz → 0 < sz → sz ≤ ENCODE_MAXSIZE → ENCODE_MAXSIZE < sz * 2 ^ Z.of_nat fuel →
  ∃ buffer' sz', lencode_loop σ fuel types st x buffer sz = Some (Return (w, (buffer', sz'))) ∧ len buffer' = sz' ∧ sz ≤ sz'.
Proof.
  intros Hok Hst Hcs Hw Hroom. unfold ENCODE_MAXSIZE in *. assert (16777216 / 2 = 8388608) as E2 by done. rewrite E2 in Hroom.
  assert (0 ≤ room types ENCODE_DEEPLEVEL st cs) as Hr0.
  { destruct (struct_spec_all Hok ENCODE_DEEPLEVEL st (Pushed x) cs w Hst Hcs Hw) as [Hl _]. pose proof (len_nonneg w). lia. }
  induction fuel as [|fuel IH]; intros buffer sz Hb Hsz Hmax Hfuel.
  - change (2 ^ Z.of_nat 0) with 1 in Hfuel. lia.
  - cbn [lencode_loop].
    destruct (struct_spec_all Hok ENCODE_DEEPLEVEL st (Pushed x) cs w Hst Hcs Hw) as [Hl Henc].
    destruct (Henc [] buffer) as ([r buf] & E & Hr). cbn [app] in E. change (len (@nil (option Z))) with 0 in E. rewrite Hb in E, Hr. rewrite E.
    destruct Hr as [[-> Hn]|(-> & rest & -> & Hrest)].
    + change (-1 <? 0) with true. cbv iota. unfold expand_buffer. change (expand_size 32 sz (sz * 2)) with
        (if sz * 2 <? sz * 2 then expand_size 31 (sz * 2) (sz * 2) else Some (sz * 2)). rewrite Z.ltb_irrefl.
      unfold ENCODE_MAXSIZE. rewrite (proj2 (Z.ltb_ge 16777216 (sz * 2))) by lia.
      destruct (IH (malloc (sz * 2)) (sz * 2)) as (b' & s' & E' & Hb' & Hs'); [by apply len_replicate; lia|lia|lia| |].
      { rewrite Nat2Z.inj_succ, Z.pow_succ_r in Hfuel by lia. lia. }
      exists b', s'. split; [exact E'|]. split; [done|lia].
    + pose proof (len_nonneg w). rewrite (proj2 (Z.ltb_ge (len w) 0)) by lia. cbn [app]. rewrite mem_read_prefix by (by rewrite len_map).
      rewrite (mapM_id_Some w : mapM (λ x, x) (map Some w) = Some w). exists (map Some w ++ rest), sz. split; [done|]. split; [|lia].
      rewrite len_app, len_map. lia.
Qed.

(** C17: a Lua table that is a message of a type is encoded to exactly the bytes of the
    format, from any shared buffer, as long as they need no more than half of
    [ENCODE_MAXSIZE]: the loop of [lencode] ends, whatever sizes it tries first, and
    what arrays, maps, integers of both widths and structs left in the buffer before
    they were moved does not show. *)
Theorem lencode_refines st cs w x up : schema_ok types → type_ok types st →
  message_of σ types ENCODE_DEEPLEVEL st (Pushed x) = Some cs → wire types ENCODE_DEEPLEVEL st cs = Some w →
  room types ENCODE_DEEPLEVEL st cs ≤ ENCODE_MAXSIZE / 2 → len up.1 = up.2 → 0 < up.2 ≤ ENCODE_MAXSIZE →
  ∃ up', lencode σ types st x up = Some (Return (w, up')) ∧ len up'.1 = up'.2 ∧ up.2 ≤ up'.2.
Proof.
  intros Hok Hst Hcs Hw Hroom Hup Hsz. unfold lencode.
  destruct (lencode_loop_spec st cs w x 32 Hok Hst Hcs Hw Hroom up.1 up.2 Hup ltac:(lia) ltac:(lia)) as (b & s & E & Hb & Hs).
  - unfold ENCODE_MAXSIZE in *. change (2 ^ Z.of_nat 32) with (2 ^ 32). lia.
  - by exists (b, s).
Qed.

End LuaCallback.

(** ** A schema and a message *)

(** Phones with a number and a kind, people with a name, an id, mails, phones by number,
    scores by name (a map), readings and numbers. *)
Definition demo_phone : sproto_type := SprotoType (str "Phone") 2 0 2
  [Field 0 SPROTO_TSTRING (str "number") (-1) (-1) 0 0; Field 1 SPROTO_TINTEGER (str "kind") (-1) (-1) 0 0].
Definition demo_score : sproto_type := SprotoType (str "Score") 2 0 2
  [Field 0 SPROTO_TSTRING (str "name") (-1) (-1) 0 0; Field 1 SPROTO_TBOOLEAN (str "passed") (-1) (-1) 0 0].
Definition demo_person : sproto_type := SprotoType (str "Person") 7 (-1) 9
  [Field 0 SPROTO_TSTRING (str "name") (-1) (-1) 0 0; Field 1 SPROTO_TINTEGER (str "id") (-1) (-1) 0 0;
   Field 3 (SPROTO_TARRAY + SPROTO_TSTRING) (str "mail") (-1) (-1) 0 0;
   Field 4 (SPROTO_TARRAY + SPROTO_TSTRUCT) (str "phone") 0 0 0 0;
   Field 5 (SPROTO_TARRAY + SPROTO_TSTRUCT) (str "score") 1 0 1 0;
   Field 8 SPROTO_TDOUBLE (str "weight") (-1) (-1) 0 0;
   Field 9 (SPROTO_TARRAY + SPROTO_TINTEGER) (str "numbers") (-1) (-1) 0 0].
Definition demo_types : sproto := [demo_phone; demo_score; demo_person].

(** Other values have no fields and no pairs; numbers are integers or floats. *)
Definition demo_lua : LuaApi := {|
  index_other _ _ := Error "attempt to index"%string;
  other_pairs _ := None;
  lua_tointegerx v := match v with VInt n => Some n | _ => None end;
  lua_tonumber v := match v with VReal n => n | _ => 0 end;
  round_decimal _ _ := 0;
  divide_decimal n _ := n
|}.

Definition demo_data : store := list_to_map [
  (1, Table (list_to_map [(VStr (str "name"), VStr (str "Alice")); (VStr (str "id"), VInt 10000);
     (VStr (str "mail"), VTab 2); (VStr (str "phone"), VTab 3); (VStr (str "score"), VTab 4);
     (VStr (str "weight"), VReal 0x4049000000000000); (VStr (str "numbers"), VTab 6)]) None);
  (2, Table (list_to_map [(VInt 1, VStr (str "a@b.c")); (VInt 2, VStr [])]) None);
  (3, Table (list_to_map [(VStr (str "555"), VTab 5)]) None);
  (4, Table (list_to_map [(VStr (str "maths"), VBool true); (VStr (str "art"), VBool false)]) None);
  (5, Table (list_to_map [(VStr (str "number"), VStr (str "555")); (VStr (str "kind"), VInt (-1))]) None);
  (6, Table (list_to_map [(VInt 1, VInt 1); (VInt 2, VInt (-2)); (VInt 3, VInt (2 ^ 40)); (VInt 4, VInt 4)]) None)].

Lemma demo_schema_ok : schema_ok demo_types.
Proof.
  repeat (apply Forall_cons; split); try apply Forall_nil_2;
    (split; [|by repeat split|done..]; repeat (apply Forall_cons; split); try apply Forall_nil_2;
     (split; [done|done|done|first [done | eexists; reflexivity]|])).
  all: intros H; try done; try (by apply Z.lt_irrefl in H). all: repeat split; try done; try (eexists; reflexivity).
Qed.

(** The buffer is too small at first. *)
Lemma lencode_refines_witness : ∃ cs w,
  message_of (LT := map_tables) (LA := demo_lua) demo_data demo_types ENCODE_DEEPLEVEL demo_person (Pushed (VTab 1)) = Some cs ∧
  wire demo_types ENCODE_DEEPLEVEL demo_person cs = Some w ∧ len w = 164 ∧
  ∃ up', lencode (LT := map_tables) (LA := demo_lua) demo_data demo_types demo_person (VTab 1) (malloc 16, 16) = Some (Return (w, up')) ∧
    len up'.1 = up'.2 ∧ 16 ≤ up'.2.
Proof.
  eexists. eexists. split; [vm_compute; reflexivity|]. split; [vm_compute; reflexivity|]. split; [vm_compute; reflexivity|].
  refine (lencode_refines (LT := map_tables) (LA := demo_lua) demo_data demo_types demo_person _ _ (VTab 1) (malloc 16, 16) demo_schema_ok _ _ _ _ _ _).
  - pose proof demo_schema_ok as H. unfold schema_ok in H. rewrite Forall_forall in H. apply H. set_solver.
  - vm_compute; reflexivity.
  - vm_compute; reflexivity.
  - vm_compute. discriminate.
  - reflexivity.
  - unfold ENCODE_MAXSIZE. cbn. lia.
Defined.
