(* ===== verification/Hashid.v ===== *)
(** * The table of connections: service-src/hashid.h

    A [hashid] maps the socket ids of at most [cap] connections to the slots
    [0 .. cap-1], so that a gate finds the record of a connection in an array.
    A node of [id] is in use when its [id] is not -1; the nodes whose ids have
    the same low bits are chained from [hash].  A pointer to a node is its index
    in [id].

    The abstract state is a finite map from ids to slots. *)

From S2P Require Import Prelude.

Record hashid_node := Node { nd_id : Z; nd_next : option Z }.

Record hashid := Hashid {
  hashmod : Z;
  cap : Z;
  count : Z;
  id : list hashid_node;
  hash : list (option Z)
}.

#[export] Instance eta_hashid_node : Eta hashid_node := λ n, Node (nd_id n) (nd_next n).
#[export] Instance eta_hashid : Eta hashid := λ h, Hashid (hashmod h) (cap h) (count h) (id h) (hash h).

Definition free_node : hashid_node := Node (-1) None.

(** [hashcap *= 2] is an [int]. *)
Definition hashid_init (max : Z) : option hashid :=
  hashcap ← while_loop 32 (λ hashcap, hashcap <? max) (λ hashcap, int_mul hashcap 2) 16;
  Some {| hashmod := hashcap - 1; cap := max; count := 0;
          id := replicate (Z.to_nat max) free_node;
          hash := replicate (Z.to_nat hashcap) None |}.

Definition hashid_clear (hi : hashid) : hashid :=
  {| hashmod := 1; cap := 0; count := 0; id := []; hash := [] |}.

Fixpoint lookup_loop (fuel : nat) (hi : hashid) (x : Z) (c : option Z) : option Z :=
  match fuel with
  | O => None
  | S fuel =>
      match c with
      | None => Some (-1)
      | Some c => n ← (id hi).[c]; if nd_id n =? x then Some c else lookup_loop fuel hi x (nd_next n)
      end
  end.

(** A chain has no more nodes than there are. *)
Definition hashid_lookup (hi : hashid) (x : Z) : option Z :=
  let h := Z.land x (hashmod hi) in
  c ← (hash hi).[h];
  lookup_loop (S (length (id hi))) hi x c.

(** [_clear]. *)
Definition clear_node (hi : hashid) (c : Z) : option (Z * hashid) :=
  ids ← (id hi).[c <- free_node];
  n ← int_sub (count hi) 1;
  Some (c, hi <| id := ids |> <| count := n |>).

Fixpoint remove_loop (fuel : nat) (hi : hashid) (x c : Z) : option (Z * hashid) :=
  match fuel with
  | O => None
  | S fuel =>
      n ← (id hi).[c];
      match nd_next n with
      | None => Some (-1, hi)
      | Some temp =>
          t ← (id hi).[temp];
          if nd_id t =? x then
            ids ← (id hi).[c <- n <| nd_next := nd_next t |>];
            clear_node (hi <| id := ids |>) temp
          else remove_loop fuel hi x temp
      end
  end.

Definition hashid_remove (hi : hashid) (x : Z) : option (Z * hashid) :=
  let h := Z.land x (hashmod hi) in
  c ← (hash hi).[h];
  match c with
  | None => Some (-1, hi)
  | Some c =>
      n ← (id hi).[c];
      if nd_id n =? x then
        buckets ← (hash hi).[h <- nd_next n];
        clear_node (hi <| hash := buckets |>) c
      else remove_loop (length (id hi)) hi x c
  end.

(** The rounds [i .. i + n - 1] of the search for a free node; [i + id] is an
    [int], and so is its remainder. *)
Fixpoint insert_loop (n : nat) (hi : hashid) (x i : Z) : option (option Z) :=
  match n with
  | O => Some None
  | S n =>
      s ← int_add i x;
      let index := Z.rem s (cap hi) in
      c ← (id hi).[index];
      if nd_id c =? -1 then Some (Some index) else insert_loop n hi x (i + 1)
  end.

Definition hashid_insert (hi : hashid) (x : Z) : option (Z * hashid) :=
  found ← insert_loop (Z.to_nat (cap hi)) hi x 0;
  c ← found;
  k ← int_add (count hi) 1;
  n ← (id hi).[c];
  assert! bool_decide (nd_next n = None);
  let h := Z.land x (hashmod hi) in
  head ← (hash hi).[h];
  let n := match head with Some _ => Node x head | None => Node x (nd_next n) end in
  ids ← (id hi).[c <- n];
  buckets ← (hash hi).[h <- Some c];
  Some (c, hi <| count := k |> <| id := ids |> <| hash := buckets |>).

Definition hashid_full (hi : hashid) : bool := count hi =? cap hi.

(** ** Specification: a map from ids to slots *)

Inductive table_op := Insert (x : Z) | Remove (x : Z) | Lookup (x : Z) | Full.

(** What the operations may return and do on a table of [max] slots: an insert
    picks any slot that is free. *)
Inductive table_step (max : Z) (m : gmap Z Z) : table_op → Z → gmap Z Z → Prop :=
| insert_slot x p : 0 ≤ p < max → (∀ y, m !! y ≠ Some p) → table_step max m (Insert x) p (<[x := p]> m)
| remove_slot x : table_step max m (Remove x) (default (-1) (m !! x)) (delete x m)
| lookup_slot x : table_step max m (Lookup x) (default (-1) (m !! x)) m
| full_slots : table_step max m Full (of_bool (Z.of_nat (size m) =? max)) m.

Inductive table_run (max : Z) : gmap Z Z → list table_op → list Z → gmap Z Z → Prop :=
| run_nil m : table_run max m [] [] m
| run_cons m op out m1 ops outs m2 : table_step max m op out m1 → table_run max m1 ops outs m2 →
    table_run max m (op :: ops) (out :: outs) m2.

(** What a client must keep to: an inserted id is not in the table, the table
    is not full, and [id + i] never leaves the [int]s. *)
Fixpoint allowed (max : Z) (ids : gset Z) (ops : list table_op) : bool :=
  match ops with
  | [] => true
  | Insert x :: ops =>
      (0 <=? x) && (x + max - 1 <=? INT_MAX) && negb (bool_decide (x ∈ ids)) &&
      (Z.of_nat (size ids) <? max) && allowed max ({[x]} ∪ ids) ops
  | Remove x :: ops => allowed max (ids ∖ {[x]}) ops
  | _ :: ops => allowed max ids ops
  end.

Definition hashid_step (hi : hashid) (op : table_op) : option (Z * hashid) :=
  match op with
  | Insert x => hashid_insert hi x
  | Remove x => hashid_remove hi x
  | Lookup x => p ← hashid_lookup hi x; Some (p, hi)
  | Full => Some (of_bool (hashid_full hi), hi)
  end.

Fixpoint hashid_run (hi : hashid) (ops : list table_op) : option (list Z * hashid) :=
  match ops with
  | [] => Some ([], hi)
  | op :: ops => '(o, hi) ← hashid_step hi op; '(os, hi) ← hashid_run hi ops; Some (o :: os, hi)
  end.

(** ** Representation *)

(** The nodes chained from [start]. *)
Fixpoint chained (ids : list hashid_node) (start : option Z) (l : list Z) : Prop :=
  match l with
  | [] => start = None
  | p :: l => start = Some p ∧ ∃ n, ids.[p] = Some n ∧ chained ids (nd_next n) l
  end.

(** [l] are the slots of the ids of [m] that hash to [h]. *)
Definition bucket (m : gmap Z Z) (mask h : Z) (l : list Z) : Prop :=
  NoDup l ∧ ∀ p, p ∈ l ↔ ∃ x, m !! x = Some p ∧ Z.land x mask = h.

Record hash_repr (hi : hashid) (m : gmap Z Z) : Prop := {
  hr_mod : ∃ k, 0 ≤ k ∧ hashmod hi = 2 ^ k - 1;
  hr_buckets : len (hash hi) = hashmod hi + 1;
  hr_cap : len (id hi) = cap hi;
  hr_int : cap hi ≤ INT_MAX;
  hr_count : count hi = Z.of_nat (size m);
  hr_node p n : (id hi).[p] = Some n →
    n = free_node ∧ (∀ x, m !! x ≠ Some p) ∨ 0 ≤ nd_id n ∧ m !! nd_id n = Some p;
  hr_map x p : m !! x = Some p → 0 ≤ x ∧ ∃ n, (id hi).[p] = Some n ∧ nd_id n = x;
  hr_chain h start : (hash hi).[h] = Some start →
    ∃ l, chained (id hi) start l ∧ bucket m (hashmod hi) h l
}.

(** ** Chains *)

Lemma chained_frame ids ids' start l :
  (∀ p, p ∈ l → ids'.[p] = ids.[p]) → chained ids start l → chained ids' start l.
Proof.
  revert start. induction l as [|p l IH]; intros start Hc; simpl; [done|].
  intros (-> & n & Hn & H). split; [done|]. exists n. rewrite Hc by (by left). split; [done|].
  apply IH; [|done]. intros q Hq. apply Hc. by right.
Qed.

Lemma chained_bound ids start l p : chained ids start l → p ∈ l → 0 ≤ p < len ids.
Proof.
  revert start. induction l as [|q l IH]; intros start; simpl; [by rewrite elem_of_nil|].
  intros (-> & n & Hn & H) [->|Hp]%elem_of_cons; [by eapply arr_get_Some|by eapply IH].
Qed.

Lemma chained_get ids start l p : chained ids start l → p ∈ l → ∃ n, ids.[p] = Some n.
Proof. intros H Hp. apply arr_get_is_Some. by eapply chained_bound. Qed.

Lemma chained_length ids start l : chained ids start l → NoDup l → (length l ≤ length ids)%nat.
Proof. intros H Hl. apply cells_bound; [done|]. intros p. by eapply chained_bound. Qed.

(** The walk of a lookup ends at [r], the only node of the chain with the id. *)
Lemma lookup_loop_spec hi x r l : ∀ fuel c, chained (id hi) c l → (length l < fuel)%nat →
  (∀ q n, q ∈ l → (id hi).[q] = Some n → nd_id n = x → q = r) →
  (r ∈ l ∧ ∃ n, (id hi).[r] = Some n ∧ nd_id n = x) ∨
  r = -1 ∧ (∀ q n, q ∈ l → (id hi).[q] = Some n → nd_id n ≠ x) →
  lookup_loop fuel hi x c = Some r.
Proof.
  induction l as [|p l IH]; intros [|fuel] c Hc Hf Hu Hr; cbn [length] in Hf; try lia; cbn [chained lookup_loop] in *.
  - subst c. destruct Hr as [[[]%elem_of_nil _]|[-> _]]. done.
  - destruct Hc as (-> & n & En & Hc). rewrite En. destruct (Z.eqb_spec (nd_id n) x) as [E|E].
    + f_equal. by eapply Hu; [left|..].
    + apply (IH fuel); [done|lia| |].
      { intros q n' Hq. apply Hu. by right. }
      destruct Hr as [[[->|Hr]%elem_of_cons (n' & En' & E')]|[-> Hr]]; [congruence|left; eauto|right].
      split; [done|]. intros q n' Hq. apply Hr. by right.
Qed.

(** The splice of a removal: the node [p] is taken out of its chain. *)
Record spliced (ids ids' : list hashid_node) (l1 : list Z) (p : Z) (l2 : list Z) : Prop := {
  sp_len : len ids' = len ids;
  sp_free : ids'.[p] = Some free_node;
  sp_other q : q ∉ l1 → q ≠ p → ids'.[q] = ids.[q];
  sp_id q n' : q ≠ p → ids'.[q] = Some n' → ∃ n, ids.[q] = Some n ∧ nd_id n' = nd_id n
}.

Lemma remove_loop_spec hi x p l2 l1 : ∀ fuel c,
  chained (id hi) (Some c) (c :: l1 ++ p :: l2) → NoDup (c :: l1 ++ p :: l2) →
  (∀ q n, q ∈ l1 → (id hi).[q] = Some n → nd_id n ≠ x) →
  (∃ n, (id hi).[p] = Some n ∧ nd_id n = x) →
  INT_MIN < count hi ≤ INT_MAX → (length l1 < fuel)%nat →
  ∃ ids', remove_loop fuel hi x c = Some (p, hi <| id := ids' |> <| count := count hi - 1 |>) ∧
    spliced (id hi) ids' (c :: l1) p l2 ∧ chained ids' (Some c) (c :: l1 ++ l2).
Proof.
  induction l1 as [|q l1 IH]; intros [|fuel] c Hc Hd Hl Hp Hk Hf; cbn [length] in Hf; try lia; cbn [remove_loop];
    pose proof Hc as (_ & n & En & Hc'); rewrite En; cbn [app] in *.
  - pose proof Hc' as (-> & t & Et & Hc2). rewrite Et. destruct Hp as (t' & Et' & Ex).
    assert (t' = t) as -> by congruence. rewrite (proj2 (Z.eqb_eq _ _)) by done.
    pose proof (arr_get_Some _ _ _ En). pose proof (arr_get_Some _ _ _ Et).
    destruct (arr_set_is_Some (id hi) c (Node (nd_id n) (nd_next t))) as [ids1 E1]; [done|]. rewrite E1.
    pose proof (arr_set_len _ _ _ _ E1) as Hlen1.
    destruct (arr_set_is_Some ids1 p free_node) as [ids2 E2]; [lia|]. unfold clear_node. cbn [id count].
    rewrite E2. unfold int_sub. rewrite int_chk_Some by lia. apply NoDup_cons in Hd as [Hd1 Hd].
    apply NoDup_cons in Hd as [Hd2 Hd].
    assert (c ≠ p) as Hcp by (intros ->; apply Hd1; by left).
    exists ids2. split; [done|]. split.
    + split; [by rewrite (arr_set_len _ _ _ _ E2)|by eapply arr_get_set_eq| |].
      * intros q Hq Hqp. rewrite (arr_get_set_ne _ _ _ _ _ E2) by done. apply (arr_get_set_ne _ _ _ _ _ E1).
        intros ->. apply Hq. by left.
      * intros q n' Hqp Hn'. rewrite (arr_get_set_ne _ _ _ _ _ E2) in Hn' by done.
        destruct (decide (c = q)) as [<-|Hne].
        { rewrite (arr_get_set_eq _ _ _ _ E1) in Hn'. injection Hn' as <-. eauto. }
        rewrite (arr_get_set_ne _ _ _ _ _ E1) in Hn' by done. eauto.
    + split; [done|]. exists (Node (nd_id n) (nd_next t)).
      rewrite (arr_get_set_ne _ _ _ _ _ E2), (arr_get_set_eq _ _ _ _ E1) by done. split; [done|].
      apply (chained_frame (id hi)); [|done]. intros q Hq.
      rewrite (arr_get_set_ne _ _ _ _ _ E2) by (by intros <-).
      apply (arr_get_set_ne _ _ _ _ _ E1). intros <-. apply Hd1. by right.
  - pose proof Hc' as (Eq & t & Et & Hc2). rewrite Eq, Et.
    rewrite (proj2 (Z.eqb_neq _ _)) by (by eapply Hl; [left|]).
    apply NoDup_cons in Hd as [Hd1 Hd]. 
    destruct (IH fuel q) as (ids' & E & Hs & Hch); [by split; [|eauto]|done| |done|done|lia|].
    { intros q' n' Hq'. apply Hl. by right. }
    exists ids'. split; [done|]. destruct Hs as [Hs1 Hs2 Hs3 Hs4]. split.
    + split; [done|done| |done]. intros r [_ Hr]%not_elem_of_cons. by apply Hs3.
    + split; [done|]. exists n. rewrite Hs3, Eq; [done| |].
      * intros [->|H]%elem_of_cons; apply Hd1; [by left|right; apply elem_of_app; by left].
      * intros ->. apply Hd1. right. apply elem_of_app. right. by left.
Qed.

(** ** The operations *)

Section Operations.
Context (hi : hashid) (m : gmap Z Z) (Hr : hash_repr hi m).

Lemma repr_mask x : 0 ≤ Z.land x (hashmod hi) < len (hash hi).
Proof.
  destruct (hr_mod _ _ Hr) as (k & Hk & E). rewrite (hr_buckets _ _ Hr), E, land_mask by done.
  pose proof (Z.mod_pos_bound x (2 ^ k)). pose proof (Z.pow_pos_nonneg 2 k). lia.
Qed.

Lemma repr_bucket x : ∃ start l, (hash hi).[Z.land x (hashmod hi)] = Some start ∧
  chained (id hi) start l ∧ bucket m (hashmod hi) (Z.land x (hashmod hi)) l.
Proof.
  destruct (arr_get_is_Some _ _ (repr_mask x)) as [start E]. exists start.
  destruct (hr_chain _ _ Hr _ _ E) as (l & Hl). by exists l.
Qed.

Lemma repr_inj x y p : m !! x = Some p → m !! y = Some p → x = y.
Proof.
  intros Hx Hy. destruct (hr_map _ _ Hr _ _ Hx) as (_ & n & En & <-).
  destruct (hr_map _ _ Hr _ _ Hy) as (_ & n' & En' & <-). congruence.
Qed.

(** The slots of the map: as many as its ids. *)
Lemma repr_slots : ∃ l, NoDup l ∧ length l = size m ∧ (∀ p, p ∈ l → 0 ≤ p < len (id hi)) ∧
  ∀ x p, m !! x = Some p → p ∈ l.
Proof.
  exists (map_to_list m).*2. split; [|split; [by rewrite length_fmap, length_map_to_list|split]].
  - apply NoDup_fmap_2_strong; [|apply NoDup_map_to_list]. intros [x p] [y q] Hx Hy E.
    rewrite elem_of_map_to_list in Hx. rewrite elem_of_map_to_list in Hy. cbn in E. subst q.
    by rewrite (repr_inj x y p).
  - intros p Hp. apply list_elem_of_fmap in Hp as ([x q] & -> & Hx). rewrite elem_of_map_to_list in Hx.
    destruct (hr_map _ _ Hr _ _ Hx) as (_ & n & En & _). by eapply arr_get_Some.
  - intros x p Hx. apply list_elem_of_fmap. exists (x, p). by rewrite elem_of_map_to_list.
Qed.

Lemma repr_size : Z.of_nat (size m) ≤ cap hi.
Proof.
  destruct repr_slots as (l & Hd & <- & Hl & _). rewrite <- (hr_cap _ _ Hr).
  pose proof (cells_bound (id hi) l Hd Hl). unfold len. lia.
Qed.

Lemma repr_free : Z.of_nat (size m) < cap hi → ∃ p, 0 ≤ p < cap hi ∧ (id hi).[p] = Some free_node.
Proof.
  intros Hsz. destruct repr_slots as (l & Hd & El & Hl & Hm). pose proof (hr_cap _ _ Hr) as Hc.
  destruct (cell_outside (id hi) l) as (p & Hp & Hout); [unfold len in Hc; lia|].
  exists p. split; [lia|]. destruct (arr_get_is_Some _ _ Hp) as [n En].
  destruct (hr_node _ _ Hr _ _ En) as [[-> _]|[_ Hx]]; [done|]. by apply Hm in Hx.
Qed.

Lemma repr_id x p n : (id hi).[p] = Some n → 0 ≤ x → nd_id n = x → m !! x = Some p.
Proof. intros En H0 <-. destruct (hr_node _ _ Hr _ _ En) as [[-> _]|[_ H]]; [simpl in H0; lia|done]. Qed.

(** A node of the bucket has an id of the map. *)
Lemma repr_member l h x p n : bucket m (hashmod hi) h l → p ∈ l → (id hi).[p] = Some n → nd_id n = x →
  m !! x = Some p.
Proof.
  intros [_ Hb] Hp En <-. apply Hb in Hp as (y & Hy & _).
  destruct (hr_map _ _ Hr _ _ Hy) as (_ & n' & En' & <-). congruence.
Qed.

Lemma lookup_spec x : hashid_lookup hi x = Some (default (-1) (m !! x)).
Proof.
  unfold hashid_lookup. destruct (repr_bucket x) as (c & l & -> & Hc & Hb).
  apply (lookup_loop_spec _ _ _ l); [done| | |].
  - pose proof (chained_length _ _ _ Hc (proj1 Hb)). lia.
  - intros q n Hq En E. by rewrite (repr_member _ _ _ _ _ Hb Hq En E).
  - destruct (m !! x) as [p|] eqn:Ex; cbn [default from_option]; [left|right].
    + split; [apply Hb; eauto|]. by destruct (hr_map _ _ Hr _ _ Ex) as (_ & n & En & E); eauto.
    + split; [done|]. intros q n Hq En E. by rewrite (repr_member _ _ _ _ _ Hb Hq En E) in Ex.
Qed.

Lemma remove_absent x : m !! x = None → hashid_remove hi x = Some (-1, hi).
Proof.
  intros Ex. unfold hashid_remove. destruct (repr_bucket x) as (c & l & -> & Hc & Hb).
  assert (∀ q n, q ∈ l → (id hi).[q] = Some n → nd_id n ≠ x) as Hne.
  { intros q n Hq En E. by rewrite (repr_member _ _ _ _ _ Hb Hq En E) in Ex. }
  destruct l as [|p l]; cbn [chained] in Hc; [by subst|]. destruct Hc as (-> & n & En & Hc). rewrite En.
  rewrite (proj2 (Z.eqb_neq _ _)) by (by eapply Hne; [left|]).
  assert (length l < length (id hi))%nat as Hf.
  { enough (length (p :: l) ≤ length (id hi))%nat by (cbn [length] in *; lia).
    apply (chained_length _ (Some p)); [split; [done|eauto]|apply Hb]. }
  clear Hb Ex. revert Hf. generalize (length (id hi)) as fuel. intros fuel. revert fuel p n En Hc Hne.
  induction l as [|q l IH]; intros [|fuel] p n En Hc Hne Hf; cbn [length] in Hf; try lia;
    cbn [chained remove_loop] in *; rewrite En; [by rewrite Hc|].
  destruct Hc as (-> & t & Et & Hc). rewrite Et.
  rewrite (proj2 (Z.eqb_neq _ _)) by (eapply Hne; [|done]; right; left).
  eapply IH; [done..| |lia]. intros r n' Hr'. apply Hne. by right.
Qed.

End Operations.

(** What a removal changes. *)
Record removed (hi hi' : hashid) (h p : Z) (l : list Z) (l1 l2 : list Z) : Prop := {
  rm_mod : hashmod hi' = hashmod hi;
  rm_cap : cap hi' = cap hi;
  rm_count : count hi' = count hi - 1;
  rm_split : l = l1 ++ p :: l2;
  rm_ids : spliced (id hi) (id hi') l1 p l2;
  rm_len : len (hash hi') = len (hash hi);
  rm_buckets h' : h' ≠ h → (hash hi').[h'] = (hash hi).[h'];
  rm_chain : ∃ start, (hash hi').[h] = Some start ∧ chained (id hi') start (l1 ++ l2)
}.

Lemma remove_present hi m x p : hash_repr hi m → m !! x = Some p →
  ∃ hi' l l1 l2, hashid_remove hi x = Some (p, hi') ∧
    bucket m (hashmod hi) (Z.land x (hashmod hi)) l ∧
    removed hi hi' (Z.land x (hashmod hi)) p l l1 l2.
Proof.
  intros Hr Ex. unfold hashid_remove. destruct (repr_bucket _ _ Hr x) as (c & l & Eh & Hc & Hb). rewrite Eh.
  pose proof Hb as [Hd Hin]. assert (p ∈ l) as Hp by (apply Hin; eauto).
  apply list_elem_of_split in Hp as (l1 & l2 & ->).
  destruct (hr_map _ _ Hr _ _ Ex) as (_ & n & En & Enx).
  assert (INT_MIN < count hi ≤ INT_MAX) as Hk.
  { rewrite (hr_count _ _ Hr). pose proof (repr_size _ _ Hr). pose proof (hr_int _ _ Hr).
    split; [apply (Z.lt_le_trans _ 0)|]; [done|lia..]. }
  destruct l1 as [|c1 l1]; cbn [app] in *.
  - destruct Hc as (-> & n' & En' & Hc). assert (n' = n) as -> by congruence.
    rewrite En, (proj2 (Z.eqb_eq _ _)) by done. pose proof (arr_get_Some _ _ _ Eh).
    destruct (arr_set_is_Some (hash hi) (Z.land x (hashmod hi)) (nd_next n)) as [bs Ebs]; [done|]. rewrite Ebs.
    destruct (arr_set_is_Some (id hi) p free_node) as [ids Eids]; [by eapply arr_get_Some|].
    unfold clear_node. cbn [id count]. rewrite Eids. unfold int_sub. rewrite int_chk_Some by lia.
    apply NoDup_cons in Hd as [Hd1 Hd].
    eexists _, _, [], l2. split; [done|]. split; [done|]. split; cbn [hashmod cap count id hash app].
    1-4: done.
    + split; [by eapply arr_set_len|by eapply arr_get_set_eq| |].
      * intros q _ Hq. by apply (arr_get_set_ne _ _ _ _ _ Eids).
      * intros q n' Hq Hn'. rewrite (arr_get_set_ne _ _ _ _ _ Eids) in Hn' by done. eauto.
    + by eapply arr_set_len.
    + intros h' Hh. by apply (arr_get_set_ne _ _ _ _ _ Ebs).
    + exists (nd_next n). split; [by eapply arr_get_set_eq|].
      apply (chained_frame (id hi)); [|done]. intros q Hq.
      apply (arr_get_set_ne _ _ _ _ _ Eids). by intros <-.
  - pose proof Hc as (-> & n1 & En1 & Hc1). rewrite En1.
    assert (∀ q n, q ∈ c1 :: l1 → (id hi).[q] = Some n → nd_id n ≠ x) as Hne.
    { intros q n' Hq Hn' E.
      assert (m !! x = Some q) as Eq.
      { eapply repr_member; [done|exact Hb| |done..]. rewrite app_comm_cons. apply elem_of_app. by left. }
      assert (q = p) as -> by congruence.
      rewrite app_comm_cons in Hd. apply NoDup_app in Hd as (_ & Hd & _). apply (Hd p); [done|by left]. }
    rewrite (proj2 (Z.eqb_neq _ _)) by (by eapply Hne; [left|]).
    destruct (remove_loop_spec hi x p l2 l1 (length (id hi)) c1) as (ids & E & Hs & Hch); [done|done| |eauto|done| |].
    { intros q n' Hq. apply Hne. by right. }
    { pose proof (chained_length _ _ _ Hc Hd) as Hl. cbn [length] in Hl. rewrite length_app in Hl. cbn [length] in Hl. lia. }
    rewrite E. eexists _, _, (c1 :: l1), l2. split; [done|]. split; [done|].
    split; cbn [hashmod cap count id hash app]; try done. exists (Some c1). by rewrite Eh.
Qed.

(** The cells of different buckets are different. *)
Lemma bucket_disjoint hi m l l' h h' p : hash_repr hi m → bucket m (hashmod hi) h l → bucket m (hashmod hi) h' l' →
  p ∈ l → p ∈ l' → h = h'.
Proof.
  intros Hr [_ Hl] [_ Hl'] (x & Hx & <-)%Hl (y & Hy & <-)%Hl'. by rewrite (repr_inj _ _ Hr _ _ _ Hx Hy).
Qed.

Lemma remove_repr hi m x p hi' l l1 l2 : hash_repr hi m → m !! x = Some p →
  bucket m (hashmod hi) (Z.land x (hashmod hi)) l →
  removed hi hi' (Z.land x (hashmod hi)) p l l1 l2 → hash_repr hi' (delete x m).
Proof.
  intros Hr Ex Hb [Hmod Hcap Hcnt -> [Hl Hfree Hoth Hid] Hbl Hbs Hch].
  assert (∀ y q, delete x m !! y = Some q ↔ m !! y = Some q ∧ q ≠ p) as Hdel.
  { intros y q. rewrite lookup_delete_Some. split; intros [H1 H2]; [split; [done|]|split; [|done]].
    - intros ->. apply H1. by rewrite (repr_inj _ _ Hr _ _ _ Ex H2).
    - intros <-. congruence. }
  split.
  - rewrite Hmod. apply Hr.
  - rewrite Hbl, Hmod. apply Hr.
  - rewrite Hl, Hcap. apply Hr.
  - rewrite Hcap. apply Hr.
  - rewrite Hcnt, (hr_count _ _ Hr), map_size_delete, Ex.
    assert (size m ≠ 0%nat); [|lia]. intros H0%map_size_empty_iff. by subst m.
  - intros q n Hn. destruct (decide (q = p)) as [->|Hq].
    { left. split; [congruence|]. by intros y [_ ?]%Hdel. }
    destruct (Hid _ _ Hq Hn) as (n0 & Hn0 & E). destruct (hr_node _ _ Hr _ _ Hn0) as [[-> Hno]|[H0 Hm]].
    + left. assert (q ∉ l1) as Hql.
      { intros Hql. destruct Hb as [_ Hb]. destruct (proj1 (Hb q)) as (y & Hy & _); [apply elem_of_app; by left|].
        by apply (Hno y). }
      rewrite Hoth in Hn by done. split; [congruence|]. intros y [Hy _]%Hdel. by apply (Hno y).
    + right. rewrite E. split; [done|]. by apply Hdel.
  - intros y q [Hy Hq]%Hdel. destruct (hr_map _ _ Hr _ _ Hy) as (H0 & n & En & E). split; [done|].
    destruct (arr_get_is_Some (id hi') q) as [n' En']; [rewrite Hl; by eapply arr_get_Some|].
    exists n'. split; [done|]. destruct (Hid _ _ Hq En') as (n0 & En0 & ->). congruence.
  - rewrite Hmod. intros h start Hs. destruct (decide (h = Z.land x (hashmod hi))) as [->|Hh].
    + destruct Hch as (start' & Hs' & Hch). assert (start' = start) as -> by congruence.
      exists (l1 ++ l2). split; [done|]. destruct Hb as [Hd Hb]. 
      apply NoDup_app in Hd as (Hd1 & Hd2 & Hd3). apply NoDup_cons in Hd3 as [Hd3 Hd4]. split.
      * apply NoDup_app. split; [done|]. split; [|done]. intros q Hq1 Hq2. apply (Hd2 q Hq1). by right.
      * intros q. assert (q ∈ l1 ++ l2 ↔ q ∈ l1 ++ p :: l2 ∧ q ≠ p) as ->.
        { rewrite !elem_of_app, elem_of_cons. split; [|intros [[|[|]] ?]; tauto].
          intros [Hq|Hq]; (split; [tauto|]); intros ->; [apply (Hd2 p Hq); by left|done]. }
        rewrite Hb. setoid_rewrite Hdel.
        split; [intros [(y & Hy & E) Hq]|intros (y & [Hy Hq] & E)]; eauto.
    + rewrite Hbs in Hs by done. destruct (hr_chain _ _ Hr _ _ Hs) as (l & Hc & Hb'). exists l.
      assert (∀ q, q ∈ l → (q ∉ l1) ∧ q ≠ p) as Hne.
      { intros q Hq. assert (q ∉ l1 ++ p :: l2) as Hq'.
        { intros Hq'. by apply Hh, (bucket_disjoint _ _ _ _ _ _ _ Hr Hb' Hb Hq). }
        split; [intros H|intros ->]; apply Hq', elem_of_app; [by left|right; by left]. }
      split; [eapply chained_frame; [|done]; intros q Hq; by apply Hoth; apply Hne|].
      destruct Hb' as [Hd' Hb']. split; [done|]. intros q. split.
      * intros Hq. destruct (proj1 (Hb' q) Hq) as (y & Hy & E). exists y. rewrite Hdel. by split; [split; [|by apply Hne]|].
      * intros (y & [Hy _]%Hdel & E). apply Hb'. eauto.
Qed.

(** The search ends at the first free node. *)
Lemma insert_loop_spec hi x i0 : 0 ≤ x → x + cap hi - 1 ≤ INT_MAX → len (id hi) = cap hi → 0 ≤ i0 < cap hi →
  (id hi).[(i0 + x) mod cap hi] = Some free_node →
  ∀ n i, 0 ≤ i ≤ i0 → (Z.to_nat i0 < Z.to_nat i + n)%nat →
  ∃ p, insert_loop n hi x i = Some (Some p) ∧ ∃ c, (id hi).[p] = Some c ∧ nd_id c = -1.
Proof.
  intros Hx Hmax Hcap Hi0 Hfree n. induction n as [|n IH]; intros i Hi Hn; [lia|]. cbn [insert_loop].
  unfold int_add. rewrite int_chk_Some by (unfold INT_MIN; lia). rewrite Z.rem_mod_nonneg by lia.
  destruct (arr_get_is_Some (id hi) ((i + x) mod cap hi)) as [c E].
  { rewrite Hcap. apply Z.mod_pos_bound. lia. }
  rewrite E. destruct (Z.eqb_spec (nd_id c) (-1)) as [Ec|Ec]; [eauto|].
  apply IH; [|lia]. split; [lia|]. enough (i ≠ i0) by lia. intros ->. rewrite E in Hfree.
  by injection Hfree as ->.
Qed.

(** A free node becomes the head of a chain. *)
Lemma insert_repr hi m x p head ids bs : hash_repr hi m → 0 ≤ x → m !! x = None →
  Z.of_nat (size m) < cap hi → (∀ y, m !! y ≠ Some p) →
  (hash hi).[Z.land x (hashmod hi)] = Some head →
  (id hi).[p <- Node x head] = Some ids → (hash hi).[Z.land x (hashmod hi) <- Some p] = Some bs →
  hash_repr (Hashid (hashmod hi) (cap hi) (count hi + 1) ids bs) (<[x := p]> m).
Proof.
  intros Hr H0 Ex Hsz Hno Eh Eids Ebs. set (h := Z.land x (hashmod hi)) in *.
  destruct (hr_chain _ _ Hr _ _ Eh) as (l & Hch & Hb).
  assert (∀ q, q ≠ p → ids.[q] = (id hi).[q]) as Hne.
  { intros q Hq. by apply (arr_get_set_ne _ _ _ _ _ Eids). }
  assert (ids.[p] = Some (Node x head)) as Hpx by (by eapply arr_get_set_eq).
  assert (∀ y q, <[x := p]> m !! y = Some q ↔ y = x ∧ q = p ∨ m !! y = Some q ∧ q ≠ p) as Hins.
  { intros y q. rewrite lookup_insert_Some. split; [intros [[-> ->]|[Hy Hm]] | intros [[-> ->]|[Hy Hq]]].
    - by left.
    - right. split; [done|]. intros ->. by apply (Hno y).
    - by left.
    - right. split; [|done]. congruence. }
  assert (∀ h' l', bucket m (hashmod hi) h' l' → ∀ q, q ∈ l' → q ≠ p) as Hout.
  { intros h' l' [_ Hl'] q (y & Hy & _)%Hl' ->. by apply (Hno y). }
  split; cbn [hashmod cap count id hash].
  - apply Hr.
  - rewrite (arr_set_len _ _ _ _ Ebs). apply Hr.
  - rewrite (arr_set_len _ _ _ _ Eids). apply Hr.
  - apply Hr.
  - rewrite (hr_count _ _ Hr), map_size_insert, Ex. lia.
  - intros q n Hn. destruct (decide (q = p)) as [->|Hq].
    + right. assert (n = Node x head) as -> by congruence. split; [done|]. by rewrite lookup_insert_eq.
    + rewrite Hne in Hn by done. destruct (hr_node _ _ Hr _ _ Hn) as [[-> Hf]|[H2 Hm]].
      * left. split; [done|]. intros y [[_ ?]|[Hy _]]%Hins; [done|by apply (Hf y)].
      * right. split; [done|]. apply Hins. by right.
  - intros y q [[-> ->]|[Hy Hq]]%Hins; [eauto|]. rewrite Hne by done. by apply (hr_map _ _ Hr).
  - intros h' start Hs. destruct (decide (h = h')) as [<-|Hh].
    + rewrite (arr_get_set_eq _ _ _ _ Ebs) in Hs. injection Hs as <-. exists (p :: l). split.
      * split; [done|]. exists (Node x head). split; [done|].
        eapply chained_frame; [|done]. intros q Hq. apply Hne. by eapply Hout.
      * destruct Hb as [Hd Hb]. split; [constructor; [intros (y & Hy & _)%Hb; by apply (Hno y)|done]|].
        intros q. rewrite elem_of_cons, Hb. setoid_rewrite Hins. split.
        -- intros [->|(y & Hy & Ey)]; [exists x; by split; [left|]|exists y; split; [right|done]].
           split; [done|]. intros ->. by apply (Hno y).
        -- intros (y & [[-> ->]|[Hy _]] & Ey); [by left|right; eauto].
    + rewrite (arr_get_set_ne _ _ _ _ _ Ebs) in Hs by done.
      destruct (hr_chain _ _ Hr _ _ Hs) as (l' & Hc' & Hb'). exists l'. split.
      * eapply chained_frame; [|done]. intros q Hq. apply Hne. by eapply Hout.
      * pose proof (Hout _ _ Hb') as Ho. destruct Hb' as [Hd' Hb']. split; [done|]. intros q.
        setoid_rewrite Hins. split.
        -- intros Hq. destruct (proj1 (Hb' q) Hq) as (y & Hy & Ey). exists y. split; [right; auto|done].
        -- intros (y & [[-> ->]|[Hy _]] & Ey); [done|]. apply Hb'. eauto.
Qed.

Lemma insert_spec hi m x : hash_repr hi m → 0 ≤ x → x + cap hi - 1 ≤ INT_MAX → m !! x = None →
  Z.of_nat (size m) < cap hi →
  ∃ p hi', hashid_insert hi x = Some (p, hi') ∧ 0 ≤ p < cap hi ∧ (∀ y, m !! y ≠ Some p) ∧
    cap hi' = cap hi ∧ hash_repr hi' (<[x := p]> m).
Proof.
  intros Hr H0 Hmax Ex Hsz. destruct (repr_free _ _ Hr Hsz) as (p0 & Hp0 & Ep0).
  pose proof (hr_cap _ _ Hr) as Hcap. pose proof (hr_int _ _ Hr) as Hint.
  destruct (insert_loop_spec hi x ((p0 - x) mod cap hi) H0 Hmax Hcap) with (n := Z.to_nat (cap hi)) (i := 0)
    as (p & E & c & Ec & Hc); [apply Z.mod_pos_bound; lia|..].
  { by rewrite Zplus_mod_idemp_l, Z.sub_add, Z.mod_small. }
  { split; [lia|]. apply Z.mod_pos_bound. lia. }
  { pose proof (Z.mod_pos_bound (p0 - x) (cap hi)). lia. }
  pose proof (arr_get_Some _ _ _ Ec) as Hp. rewrite Hcap in Hp.
  destruct (hr_node _ _ Hr _ _ Ec) as [[-> Hno]|[H1 _]]; [|lia].
  destruct (repr_bucket _ _ Hr x) as (head & l & Eh & _). set (h := Z.land x (hashmod hi)) in *.
  destruct (arr_set_is_Some (id hi) p (Node x head)) as [ids Eids]; [lia|].
  destruct (arr_set_is_Some (hash hi) h (Some p)) as [bs Ebs]; [by eapply arr_get_Some|].
  eexists p, _. unfold hashid_insert. rewrite E. unfold int_add.
  rewrite (int_chk_Some (count hi + 1)) by (rewrite (hr_count _ _ Hr); unfold INT_MIN; lia).
  rewrite Ec. cbn [nd_next free_node]. rewrite bool_decide_eq_true_2 by done. fold h. rewrite Eh.
  replace (match head with Some _ => Node x head | None => Node x None end) with (Node x head) by (by destruct head).
  rewrite Eids, Ebs. split; [done|]. split; [done|]. split; [done|]. split; [done|].
  cbn [hashmod cap count id hash]. by eapply insert_repr.
Qed.

Lemma init_loop k max : ∀ fuel, 0 ≤ k → 2 ^ k < max * 2 ∨ 2 ^ k = 16 → max ≤ 2 ^ 30 → 31 - k < Z.of_nat fuel →
  ∃ j, 0 ≤ j ∧ while_loop fuel (λ c, c <? max) (λ c, int_mul c 2) (2 ^ k) = Some (2 ^ j).
Proof.
  intros fuel. revert k. induction fuel as [|fuel IH]; intros k Hk Hpow Hmax Hf.
  { assert (2 ^ 31 ≤ 2 ^ k) by (apply Z.pow_le_mono_r; lia). lia. }
  cbn [while_loop]. destruct (Z.ltb_spec (2 ^ k) max); [|by exists k].
  unfold int_mul. rewrite int_chk_Some by (unfold INT_MIN, INT_MAX; lia).
  rewrite (Z.mul_comm (2 ^ k)), <- Z.pow_succ_r by lia. apply IH; [lia|left|done|lia].
  rewrite Z.pow_succ_r; lia.
Qed.

Lemma init_spec max : 0 ≤ max ≤ 2 ^ 30 → ∃ hi, hashid_init max = Some hi ∧ cap hi = max ∧ hash_repr hi ∅.
Proof.
  intros Hm. unfold hashid_init.
  destruct (init_loop 4 max 32) as (j & Hj & E); [lia|by right|lia..|]. change 16 with (2 ^ 4). rewrite E.
  eexists. split; [done|]. split; [done|]. pose proof (Z.pow_pos_nonneg 2 j).
  split; cbn [hashmod cap count id hash].
  - by exists j.
  - rewrite len_replicate; lia.
  - apply len_replicate. lia.
  - unfold INT_MAX. lia.
  - done.
  - intros p n Hn. left. split; [|by intros x]. unfold arr_get in Hn. destruct (0 <=? p); [|done].
    by apply lookup_replicate in Hn as [-> _].
  - by intros x p.
  - intros h start Hs. exists []. unfold arr_get in Hs. destruct (0 <=? h); [|done].
    apply lookup_replicate in Hs as [-> _]. split; [done|]. split; [constructor|]. intros p.
    split; [by intros ?%elem_of_nil|]. by intros (x & Hx & _).
Qed.

Lemma run_refines_map max ops : ∀ hi m, hash_repr hi m → cap hi = max → allowed max (dom m) ops = true →
  ∃ outs hi' m', hashid_run hi ops = Some (outs, hi') ∧ table_run max m ops outs m' ∧ hash_repr hi' m'.
Proof.
  induction ops as [|op ops IH]; intros hi m Hr Hc Ha; cbn [hashid_run].
  { exists [], hi, m. by repeat (split; [constructor|]). }
  assert (∃ out hi1 m1, hashid_step hi op = Some (out, hi1) ∧ table_step max m op out m1 ∧
    hash_repr hi1 m1 ∧ cap hi1 = max ∧ allowed max (dom m1) ops = true)
    as (out & hi1 & m1 & -> & Hs & Hr1 & Hc1 & Ha1).
  { destruct op as [x|x|x|]; cbn [hashid_step allowed] in *.
    - repeat match goal with H : _ && _ = true |- _ => apply andb_prop in H as [H ?Hx] end.
      rewrite negb_true_iff, bool_decide_eq_false, not_elem_of_dom in Hx1. rewrite size_dom in Hx0.
      destruct (insert_spec hi m x) as (p & hi1 & -> & Hp & Hno & Hc1 & Hr1); [done|lia|lia|done|lia|].
      rewrite Hc in *. exists p, hi1, (<[x := p]> m). rewrite dom_insert_L. by repeat (split; [by try constructor|]).
    - exists (default (-1) (m !! x)). destruct (m !! x) as [p|] eqn:Ex.
      + destruct (remove_present _ _ _ _ Hr Ex) as (hi1 & l & l1 & l2 & E & Hb & Hrm).
        exists hi1, (delete x m). split; [done|]. split; [rewrite <- Ex; constructor|].
        split; [by eapply remove_repr|]. rewrite dom_delete_L. by rewrite (rm_cap _ _ _ _ _ _ _ Hrm).
      + exists hi, (delete x m). split; [by eapply remove_absent|]. split; [rewrite <- Ex; constructor|].
        rewrite dom_delete_L. by rewrite delete_id.
    - exists (default (-1) (m !! x)), hi, m. rewrite (lookup_spec _ _ Hr). by repeat (split; [by try constructor|]).
    - eexists _, hi, m. split; [done|]. unfold hashid_full. rewrite (hr_count _ _ Hr), Hc.
      by repeat (split; [by try constructor|]). }
  destruct (IH hi1 m1 Hr1 Hc1 Ha1) as (outs & hi' & m' & -> & Ht & Hr').
  exists (out :: outs), hi', m'. split; [done|]. split; [by econstructor|done].
Qed.

(** ** Properties *)

(** C18: A table of connections is a map from ids to slots: whatever a client
    inserts, removes and looks up, an insert takes a slot no other id has, and
    every lookup and removal returns the slot of the id, or -1 when the id is
    not in the table.  The table is full exactly when every slot is taken; no
    walk leaves its chain, every node is found free again, and no assertion
    fails, as long as the client inserts an id only when it is absent and the
    table is not full, and [id + cap] stays inside [int]. *)
Theorem hashid_is_map max ops : 0 ≤ max ≤ 2 ^ 30 → allowed max ∅ ops = true →
  ∃ hi outs hi' m, hashid_init max = Some hi ∧ hashid_run hi ops = Some (outs, hi') ∧
    table_run max ∅ ops outs m ∧ count hi' = Z.of_nat (size m).
Proof.
  intros Hm Ha. destruct (init_spec max Hm) as (hi & E & Hc & Hr).
  destruct (run_refines_map max ops hi ∅ Hr Hc) as (outs & hi' & m & Er & Ht & Hr'); [by rewrite dom_empty_L|].
  exists hi, outs, hi', m. repeat (split; [done|]). apply (hr_count _ _ Hr').
Qed.

Definition demo_ops : list table_op :=
  [Insert 3; Insert 19; Insert 35; Full; Lookup 19; Remove 19; Lookup 19; Lookup 35; Lookup 3; Insert 51; Remove 7; Lookup 51].

Lemma hashid_is_map_witness :
  (∃ hi, hashid_init 3 = Some hi ∧ ∃ hi', hashid_run hi demo_ops = Some ([0; 1; 2; 1; 1; 1; -1; 2; 0; 1; -1; 1], hi')) ∧
  ∃ hi outs hi' m, hashid_init 3 = Some hi ∧ hashid_run hi demo_ops = Some (outs, hi') ∧
    table_run 3 ∅ demo_ops outs m ∧ count hi' = Z.of_nat (size m).
Proof.
  split; [eexists; split; [reflexivity|]; eexists; vm_compute; reflexivity|].
  apply hashid_is_map; [lia|vm_compute; reflexivity].
Defined.
