(* ===== verification/Gate.v ===== *)
(** * The gate service: service-src/service_gate.c

    A gate accepts connections, cuts what they send into packages (a header of
    2 or 4 bytes and that many bytes) and forwards each to the broker, the agent
    of the connection or the watchdog.  It answers three kinds of message: text
    commands, data to send to a connection, and socket messages.

    The calls a handler makes to the rest of the system are the [effect]s it
    returns, in their order; what [skynet_queryname] and [skynet_socket_listen]
    answer are parameters.  Strings are the bytes of C buffers, with their
    terminators where the code looks for them. *)

From S2P Require Import Prelude Netpack DataBuffer Hashid.

Definition PTYPE_TEXT : Z := 0.
Definition PTYPE_CLIENT : Z := 3.
Definition PTYPE_SOCKET : Z := 6.
Definition PTYPE_TAG_DONTCOPY : Z := 0x10000.
Definition BACKLOG : Z := 128.

(** ** Text *)

Definition isspace (c : Z) : bool := (c =? 32) || ((9 <=? c) && (c <=? 13)).

(** The value of a digit in a base. *)
Definition digit (base c : Z) : option Z :=
  let d := if (48 <=? c) && (c <=? 57) then c - 48
           else if (97 <=? c) && (c <=? 122) then c - 87
           else if (65 <=? c) && (c <=? 90) then c - 55 else base in
  if d <? base then Some d else None.

Fixpoint skip_space (l : list Z) : option (list Z) :=
  match l with [] => None | c :: l' => if isspace c then skip_space l' else Some l end.

(** The number at the start of [l], and what follows it. *)
Fixpoint scan_digits (base acc : Z) (l : list Z) : option (Z * list Z) :=
  match l with
  | [] => None
  | c :: l' => match digit base c with Some d => scan_digits base (acc * base + d) l' | None => Some (acc, l) end
  end.

Definition scan_sign (l : list Z) : bool * list Z :=
  match l with c :: l' => if c =? 45 then (true, l') else if c =? 43 then (false, l') else (false, l) | [] => (false, l) end.

(** [0x] in front of a hexadecimal digit. *)
Definition scan_prefix (base : Z) (l : list Z) : list Z :=
  match l with
  | z :: x :: d :: l' =>
      if (base =? 16) && (z =? 48) && ((x =? 120) || (x =? 88)) && match digit base d with Some _ => true | None => false end
      then d :: l' else l
  | _ => l
  end.

(** The sign and the magnitude [strtol] reads.  [None] is a read behind the buffer. *)
Definition scan_number (base : Z) (l : list Z) : option (bool * Z) :=
  l ← skip_space l;
  let '(neg, l) := scan_sign l in
  '(n, _) ← scan_digits base 0 (scan_prefix base l);
  Some (neg, n).

Definition strtol (l : list Z) (base : Z) : option Z :=
  '(neg, n) ← scan_number base l;
  Some (if neg : bool then Z.max (- n) (- 2 ^ 63) else Z.min n (2 ^ 63 - 1)).

Definition strtoul (l : list Z) (base : Z) : option Z :=
  '(neg, n) ← scan_number base l;
  Some (if 2 ^ 64 - 1 <? n then 2 ^ 64 - 1 else if neg : bool then u64 (- n) else n).

(** [memcmp(a, b, n) == 0]: bytes are read up to the first difference. *)
Fixpoint memcmp_eq (a b : list Z) (n : nat) : option bool :=
  match n with
  | O => Some true
  | S n => match a, b with x :: a, y :: b => if x =? y then memcmp_eq a b n else Some false | _, _ => None end
  end.

(** A string literal with its terminator. *)
Definition literal (s : string) : list Z := str s ++ [0].

(** The C string at the start of a buffer, without its terminator. *)
Fixpoint c_str (l : list Z) : option (list Z) :=
  match l with [] => None | c :: l => if c =? 0 then Some [] else s ← c_str l; Some (c :: s) end.

(** The first space or terminator at or behind [p]. *)
Fixpoint find_sep (fuel : nat) (buf : list Z) (p : Z) : option Z :=
  match fuel with
  | O => None
  | S fuel => c ← buf.[p]; if (c =? 32) || (c =? 0) then Some p else find_sep fuel buf (p + 1)
  end.

(** [strsep(&client, " ")] with [client] at [p]: the buffer and the new [client]. *)
Definition strsep (buf : list Z) (p : Z) : option (list Z * option Z) :=
  q ← find_sep (length buf) buf p;
  c ← buf.[q];
  if c =? 32 then buf ← buf.[q <- 0]; Some (buf, Some (q + 1)) else Some (buf, None).

(** The digits of [n], [%u] and [%x]. *)
Definition digit_char (d : Z) : Z := if d <? 10 then 48 + d else 87 + d.

Fixpoint format_loop (fuel : nat) (base n : Z) (acc : list Z) : list Z :=
  match fuel with
  | O => acc
  | S fuel =>
      let acc := digit_char (n mod base) :: acc in
      if n <? base then acc else format_loop fuel base (n / base) acc
  end.

Definition format_u (base n : Z) : list Z := format_loop (S (Z.to_nat (Z.log2 n))) base n [].
Definition format_d (n : Z) : list Z := if n <? 0 then 45 :: format_u 10 (- n) else format_u 10 n.

(** ** State *)

Record connection := Connection {
  c_id : Z;
  agent : Z;
  client : Z;
  remote_name : list Z;
  buffer : databuffer
}.

Record gate := Gate {
  listen_id : Z;
  watchdog : Z;
  broker : Z;
  client_tag : Z;
  header_size : Z;
  max_connection : Z;
  g_hash : hashid;
  conn : list connection;
  mp : messagepool
}.

#[export] Instance eta_connection : Eta connection := λ c,
  Connection (c_id c) (agent c) (client c) (remote_name c) (buffer c).
#[export] Instance eta_gate : Eta gate := λ g,
  Gate (listen_id g) (watchdog g) (broker g) (client_tag g) (header_size g) (max_connection g) (g_hash g) (conn g) (mp g).

Definition connection_zero : connection := Connection 0 0 0 (replicate 32 0) databuffer_zero.

(** The calls to the rest of the system. *)
Inductive effect :=
| Send (source destination type session : Z) (msg : list Z)
| SocketClose (id : Z)
| SocketStart (id : Z)
| SocketSend (id : Z) (msg : list Z)
| SocketListen (host : list Z) (port backlog : Z)
| Log (msg : list Z).

(** The structure set to zero, with no socket to listen on. *)
Definition gate_create : gate :=
  {| listen_id := -1; watchdog := 0; broker := 0; client_tag := 0; header_size := 0; max_connection := 0;
     g_hash := Hashid 0 0 0 [] []; conn := []; mp := messagepool_zero |}.

Definition gate_release (g : gate) : option (list effect) :=
  es ← for_range 0 (max_connection g)
         (λ i es, c ← (conn g).[i]; Some (if 0 <=? c_id c then es ++ [SocketClose (c_id c)] else es)) [];
  Some (es ++ (if 0 <=? listen_id g then [SocketClose (listen_id g)] else [])).

(** ** Text commands *)

Fixpoint parm_skip (fuel : nat) (msg : list Z) (sz command_sz : Z) : option Z :=
  match fuel with
  | O => None
  | S fuel =>
      if command_sz <? sz then
        c ← msg.[command_sz];
        if negb (c =? 32) then Some command_sz else parm_skip fuel msg sz (command_sz + 1)
      else Some command_sz
  end.

Definition _parm (msg : list Z) (sz command_sz : Z) : option (list Z) :=
  command_sz ← parm_skip (S (length msg)) msg sz command_sz;
  msg ← for_range command_sz sz (λ i msg, x ← msg.[i]; msg.[i - command_sz <- x]) msg;
  msg.[Z.max command_sz sz - command_sz <- 0].

Definition set_conn (g : gate) (i : Z) (c : connection) : option gate :=
  cs ← (conn g).[i <- c]; Some (g <| conn := cs |>).

Definition _forward_agent (g : gate) (fd agentaddr clientaddr : Z) : option gate :=
  id ← hashid_lookup (g_hash g) fd;
  if 0 <=? id then
    c ← (conn g).[id];
    set_conn g id (c <| agent := agentaddr |> <| client := clientaddr |>)
  else Some g.

(** [for (i=0;i<sz;i++) if (command[i]==' ') break;]. *)
Fixpoint command_size (fuel : nat) (command : list Z) (sz i : Z) : option Z :=
  match fuel with
  | O => None
  | S fuel =>
      if i <? sz then
        c ← command.[i]; if c =? 32 then Some i else command_size fuel command sz (i + 1)
      else Some i
  end.

Section Services.

(** What the rest of the system answers. *)
Context (skynet_queryname : list Z → Z) (skynet_socket_listen : list Z → Z → Z → Z).

Definition _ctrl (g : gate) (msg : list Z) (sz : Z) : option (list effect * gate) :=
  tmp ← mem_read msg 0 sz;
  let tmp := tmp ++ [0] in
  if sz =? 0 then Some ([], g) else
  i ← command_size (length tmp) tmp sz 0;
  kick ← memcmp_eq tmp (literal "kick") (Z.to_nat i);
  if kick : bool then
    tmp ← _parm tmp sz i;
    uid ← strtol tmp 10; let uid := s32 uid in
    id ← hashid_lookup (g_hash g) uid;
    Some (if 0 <=? id then [SocketClose uid] else [], g)
  else
  forward ← memcmp_eq tmp (literal "forward") (Z.to_nat i);
  if forward : bool then
    tmp ← _parm tmp sz i;
    let idstr := 0 in
    '(tmp, client) ← strsep tmp 0;
    match client with
    | None => Some ([], g)
    | Some agent =>
        id ← strtol (advance idstr tmp) 10; let id := s32 id in
        '(tmp, client) ← strsep tmp agent;
        match client with
        | None => Some ([], g)
        | Some client =>
            agent_handle ← strtoul (advance (agent + 1) tmp) 16; let agent_handle := u32 agent_handle in
            client_handle ← strtoul (advance (client + 1) tmp) 16; let client_handle := u32 client_handle in
            g ← _forward_agent g id agent_handle client_handle;
            Some ([], g)
        end
    end
  else
  is_broker ← memcmp_eq tmp (literal "broker") (Z.to_nat i);
  if is_broker : bool then
    tmp ← _parm tmp sz i;
    name ← c_str tmp;
    Some ([], g <| broker := skynet_queryname name |>)
  else
  start ← memcmp_eq tmp (literal "start") (Z.to_nat i);
  if start : bool then
    tmp ← _parm tmp sz i;
    uid ← strtol tmp 10; let uid := s32 uid in
    id ← hashid_lookup (g_hash g) uid;
    Some (if 0 <=? id then [SocketStart uid] else [], g)
  else
  close ← memcmp_eq tmp (literal "close") (Z.to_nat i);
  if close : bool then
    if 0 <=? listen_id g then Some ([SocketClose (listen_id g)], g <| listen_id := -1 |>)
    else Some ([], g)
  else
  command ← c_str tmp;
  Some ([Log (str "[gate] Unkown command : " ++ command)], g).

(** ** Packages *)

(** [data] is the formatted text; all of them fit in [tmp]. *)
Definition _report (g : gate) (data : list Z) : list effect :=
  if watchdog g =? 0 then [] else [Send 0 (watchdog g) PTYPE_TEXT 0 data].

(** [c] is [&g->conn[i]]. *)
Definition _forward (g : gate) (i size : Z) : option (list effect * gate) :=
  c ← (conn g).[i];
  let fd := c_id c in
  if fd <=? 0 then Some ([], g)
  else if truth (broker g) then
    '(temp, db, pool) ← databuffer_read (buffer c) (mp g) size;
    g ← set_conn (g <| mp := pool |>) i (c <| buffer := db |>);
    Some ([Send 0 (broker g) (Z.lor (client_tag g) PTYPE_TAG_DONTCOPY) fd temp], g)
  else if truth (agent c) then
    '(temp, db, pool) ← databuffer_read (buffer c) (mp g) size;
    g ← set_conn (g <| mp := pool |>) i (c <| buffer := db |>);
    Some ([Send (client c) (agent c) (Z.lor (client_tag g) PTYPE_TAG_DONTCOPY) fd temp], g)
  else if truth (watchdog g) then
    let tmp := format_d (c_id c) ++ str " data " in
    '(temp, db, pool) ← databuffer_read (buffer c) (mp g) size;
    g ← set_conn (g <| mp := pool |>) i (c <| buffer := db |>);
    Some ([Send 0 (watchdog g) (Z.lor PTYPE_TEXT PTYPE_TAG_DONTCOPY) fd (tmp ++ temp)], g)
  else Some ([], g).

(** The [for (;;)] of [dispatch_message]. *)
Fixpoint dispatch_loop (fuel : nat) (g : gate) (i id : Z) : option (list effect * gate) :=
  match fuel with
  | O => None
  | S fuel =>
      c ← (conn g).[i];
      '(size, db, pool) ← databuffer_readheader (buffer c) (mp g) (header_size g);
      g ← set_conn (g <| mp := pool |>) i (c <| buffer := db |>);
      if size <? 0 then Some ([], g)
      else if 0 <? size then
        if 0x1000000 <=? size then
          c ← (conn g).[i];
          '(db, pool) ← databuffer_clear (buffer c) (mp g);
          g ← set_conn (g <| mp := pool |>) i (c <| buffer := db |>);
          Some ([SocketClose id; Log (str "Recv socket message > 16M")], g)
        else
          '(es, g) ← _forward g i size;
          c ← (conn g).[i];
          g ← set_conn g i (c <| buffer := databuffer_reset (buffer c) |>);
          '(es', g) ← dispatch_loop fuel g i id;
          Some (es ++ es', g)
      else dispatch_loop fuel g i id
  end.

(** Two rounds for each byte of the buffer are more than there can be. *)
Definition dispatch_message (g : gate) (i id : Z) (data : list Z) (sz : Z) : option (list effect * gate) :=
  c ← (conn g).[i];
  '(db, pool) ← databuffer_push (buffer c) (mp g) data sz;
  g ← set_conn (g <| mp := pool |>) i (c <| buffer := db |>);
  dispatch_loop (Z.to_nat (db_size db) + 2) g i id.

(** ** Socket messages *)

(** [sz] is the size of what is behind the structure. *)
Definition dispatch_socket_message (g : gate) (message : skynet_socket_message) (sz : Z)
  : option (list effect * gate) :=
  let type := sm_type message in
  if type =? SKYNET_SOCKET_TYPE_DATA then
    id ← hashid_lookup (g_hash g) (sm_id message);
    if 0 <=? id then
      data ← sm_buffer message;
      dispatch_message g id (sm_id message) data (sm_ud message)
    else
      Some ([Log (str "Drop unknown connection " ++ format_d (sm_id message) ++ str " message");
             SocketClose (sm_id message)], g)
  else if type =? SKYNET_SOCKET_TYPE_CONNECT then
    if sm_id message =? listen_id g then Some ([], g)
    else
      id ← hashid_lookup (g_hash g) (sm_id message);
      if id <? 0 then
        Some ([Log (str "Close unknown connection " ++ format_d (sm_id message)); SocketClose (sm_id message)], g)
      else Some ([], g)
  else if (type =? SKYNET_SOCKET_TYPE_CLOSE) || (type =? SKYNET_SOCKET_TYPE_ERROR) then
    '(id, h) ← hashid_remove (g_hash g) (sm_id message);
    let g := g <| g_hash := h |> in
    if 0 <=? id then
      c ← (conn g).[id];
      '(db, pool) ← databuffer_clear (buffer c) (mp g);
      g ← set_conn (g <| mp := pool |>) id (connection_zero <| c_id := -1 |>);
      Some (_report g (format_d (sm_id message) ++ str " close"), g)
    else Some ([], g)
  else if type =? SKYNET_SOCKET_TYPE_ACCEPT then
    assert! listen_id g =? sm_id message;
    if hashid_full (g_hash g) then Some ([SocketClose (sm_ud message)], g)
    else
      '(id, h) ← hashid_insert (g_hash g) (sm_ud message);
      let g := g <| g_hash := h |> in
      c ← (conn g).[id];
      let sz := if 32 <=? u64 sz then 31 else sz in
      name ← mem_read (sm_padding message) 0 sz;
      name ← mem_write (remote_name c) 0 (name ++ [0]);
      let c := c <| c_id := sm_ud message |> <| remote_name := name |> in
      g ← set_conn g id c;
      text ← c_str name;
      Some (_report g (format_d (c_id c) ++ str " open " ++ format_d (c_id c) ++ str " " ++ text ++ str ":0")
            ++ [Log (str "socket open: " ++ format_u 16 (u32 (c_id c)))], g)
  else if type =? SKYNET_SOCKET_TYPE_WARNING then
    Some ([Log (str "fd (" ++ format_d (sm_id message) ++ str ") send buffer (" ++ format_d (sm_ud message) ++ str ")K")], g)
  else Some ([], g).

(** ** The callback *)

(** The content of a message: bytes, or the structure of a socket message. *)
Inductive content := Bytes (msg : list Z) | SocketMessage (message : skynet_socket_message).

(** The bytes of a message start on an address of their own, so [msg + sz - 4]
    is an index.  The result tells whether the gate keeps the message. *)
Definition _cb (g : gate) (type source : Z) (msg : content) (sz : Z) : option (Z * list effect * gate) :=
  if type =? PTYPE_TEXT then
    match msg with
    | Bytes msg => '(es, g) ← _ctrl g msg (s32 sz); Some (0, es, g)
    | SocketMessage _ => None
    end
  else if type =? PTYPE_CLIENT then
    if sz <=? 4 then Some (0, [Log (str "Invalid client message from " ++ format_u 16 source)], g)
    else
      match msg with
      | Bytes msg =>
          b0 ← msg.[sz - 4]; b1 ← msg.[sz - 4 + 1]; b2 ← msg.[sz - 4 + 2]; b3 ← msg.[sz - 4 + 3];
          let uid := u32 (b0 |ᵤ b1 <<ₛ 8 |ᵤ b2 <<ₛ 16 |ᵤ b3 <<ₛ 24) in
          id ← hashid_lookup (g_hash g) (s32 uid);
          if 0 <=? id then
            data ← mem_read msg 0 (sz - 4);
            Some (1, [SocketSend (s32 uid) data], g)
          else
            Some (0, [Log (str "Invalid client id " ++ format_d (s32 uid) ++ str " from " ++ format_u 16 source)], g)
      | SocketMessage _ => None
      end
  else if type =? PTYPE_SOCKET then
    match msg with
    | SocketMessage m =>
        '(es, g) ← dispatch_socket_message g m (s32 (u64 (sz - SIZEOF_SOCKET_MESSAGE)));
        Some (0, es, g)
    | Bytes _ => None
    end
  else Some (0, [], g).

(** ** Initialisation *)

(** The last position of [c] in a C string. *)
Fixpoint strrchr (s : list Z) (c : Z) : option Z :=
  match s with
  | [] => None
  | x :: s =>
      match strrchr s c with
      | Some p => Some (p + 1)
      | None => if x =? c then Some 0 else None
      end
  end.

(** [listen_addr] without its terminator. *)
Definition start_listen (g : gate) (listen_addr : list Z) : option (Z * list effect * gate) :=
  let invalid := Some (1, [Log (str "Invalid gate address " ++ listen_addr)], g) in
  let listen host port :=
    let id := skynet_socket_listen host port BACKLOG in
    let g := g <| listen_id := id |> in
    if id <? 0 then Some (1, [SocketListen host port BACKLOG], g)
    else Some (0, [SocketListen host port BACKLOG; SocketStart id], g) in
  match strrchr listen_addr 58 with
  | None =>
      port ← strtol (listen_addr ++ [0]) 10; let port := s32 port in
      if port <=? 0 then invalid else listen [] port
  | Some p =>
      port ← strtol (advance (p + 1) (listen_addr ++ [0])) 10; let port := s32 port in
      if port <=? 0 then invalid else listen (take (Z.to_nat p) listen_addr) port
  end.

(** The directives of [sscanf]; [None] is no match. *)
Fixpoint drop_space (s : list Z) : list Z :=
  match s with c :: s' => if isspace c then drop_space s' else s | [] => [] end.

Fixpoint span_word (s : list Z) : list Z * list Z :=
  match s with
  | [] => ([], [])
  | c :: s' => if isspace c then ([], s) else let '(w, r) := span_word s' in (c :: w, r)
  end.

Definition scan_s (s : list Z) : option (list Z * list Z) :=
  match span_word (drop_space s) with ([], _) => None | (w, r) => Some (w, r) end.

Definition scan_d (s : list Z) : option (Z * list Z) :=
  let '(neg, l) := scan_sign (drop_space s) in
  match l with
  | [] => None
  | c :: _ =>
      _ ← digit 10 c;
      '(n, r) ← scan_digits 10 0 (l ++ [0]);
      Some (s32 (if neg : bool then Z.max (- n) (- 2 ^ 63) else Z.min n (2 ^ 63 - 1)), take (length r - 1) r)
  end.

(** The variables of [gate_init] after its [sscanf], and how many were read. *)
Definition scan_parm (parm : list Z) : Z * Z * list Z * list Z * Z * Z :=
  match parm with
  | [] => (-1, 0, [], [], 0, 0)
  | header :: s =>
      match scan_s s with
      | None => (1, header, [], [], 0, 0)
      | Some (watchdog, s) =>
          match scan_s s with
          | None => (2, header, watchdog, [], 0, 0)
          | Some (binding, s) =>
              match scan_d s with
              | None => (3, header, watchdog, binding, 0, 0)
              | Some (client_tag, s) =>
                  match scan_d s with
                  | None => (4, header, watchdog, binding, client_tag, 0)
                  | Some (max, _) => (5, header, watchdog, binding, client_tag, max)
                  end
              end
          end
      end
  end.

Definition gate_init (g : gate) (parm : option (list Z)) : option (Z * list effect * gate) :=
  match parm with
  | None => Some (1, [], g)
  | Some parm =>
      let '(n, header, wd, binding, tag, max) := scan_parm parm in
      if n <? 4 then Some (1, [Log (str "Invalid gate parm " ++ parm)], g)
      else if max <=? 0 then Some (1, [Log (str "Need max connection")], g)
      else if negb (header =? 83) && negb (header =? 76) then Some (1, [Log (str "Invalid data header style")], g)
      else
        let tag := if tag =? 0 then PTYPE_CLIENT else tag in
        first ← wd.[0];
        let '(w, ok) := if first =? 33 then (0, true) else let w := skynet_queryname wd in (w, truth w) in
        let g := g <| watchdog := w |> in
        if negb ok then Some (1, [Log (str "Invalid watchdog " ++ wd)], g)
        else
          h ← hashid_init max;
          start_listen
            {| listen_id := listen_id g; watchdog := watchdog g; broker := broker g; client_tag := tag;
               header_size := if header =? 83 then 2 else 4; max_connection := max; g_hash := h;
               conn := replicate (Z.to_nat max) (connection_zero <| c_id := -1 |>); mp := mp g |} binding
  end.

End Services.

(** ** Specification: a map from socket ids to connections *)

(** A text command, as the gate reads it. *)
Inductive command :=
| Kick (uid : Z)
| ForwardTo (fd agent client : Z)
| Broker (name : list Z)
| Start (uid : Z)
| CloseListen
| Incomplete
| Unknown (text : list Z).

Definition parse_forward (tmp : list Z) : option command :=
  '(tmp, client) ← strsep tmp 0;
  match client with
  | None => Some Incomplete
  | Some agent =>
      id ← strtol tmp 10;
      '(tmp, client) ← strsep tmp agent;
      match client with
      | None => Some Incomplete
      | Some client =>
          agent_handle ← strtoul (advance (agent + 1) tmp) 16;
          client_handle ← strtoul (advance (client + 1) tmp) 16;
          Some (ForwardTo (s32 id) (u32 agent_handle) (u32 client_handle))
      end
  end.

Definition parse_uid (k : Z → command) (tmp : list Z) : option command :=
  uid ← strtol tmp 10; Some (k (s32 uid)).

(** The commands, in the order they are tried. *)
Definition commands : list (string * (list Z → option command)) :=
  [("kick"%string, parse_uid Kick); ("forward"%string, parse_forward);
   ("broker"%string, λ tmp, name ← c_str tmp; Some (Broker name));
   ("start"%string, parse_uid Start)].

Fixpoint parse_with (cs : list (string * (list Z → option command))) (tmp : list Z) (sz i : Z) : option command :=
  match cs with
  | [] =>
      close ← memcmp_eq tmp (literal "close") (Z.to_nat i);
      if close : bool then Some CloseListen else text ← c_str tmp; Some (Unknown text)
  | (name, parse) :: cs =>
      same ← memcmp_eq tmp (literal name) (Z.to_nat i);
      if same : bool then tmp ← _parm tmp sz i; parse tmp else parse_with cs tmp sz i
  end.

(** The empty message does nothing. *)
Definition parse_command (msg : list Z) : option command :=
  if len msg =? 0 then Some Incomplete else
  let tmp := msg ++ [0] in
  i ← command_size (length tmp) tmp (len msg) 0;
  parse_with commands tmp (len msg) i.

Record aconn := AConn { a_agent : Z; a_client : Z; a_stream : stream }.

Record agate := AGate {
  a_listen : Z; a_watchdog : Z; a_broker : Z; a_tag : Z; a_header : Z; a_max : Z;
  a_conns : gmap Z aconn
}.

#[export] Instance eta_agate : Eta agate := λ a,
  AGate (a_listen a) (a_watchdog a) (a_broker a) (a_tag a) (a_header a) (a_max a) (a_conns a).

(** Where a package of connection [fd] goes, if anywhere. *)
Definition target (a : agate) (fd : Z) (c : aconn) : option (list Z → effect) :=
  if fd <=? 0 then None
  else if truth (a_broker a) then Some (Send 0 (a_broker a) (Z.lor (a_tag a) PTYPE_TAG_DONTCOPY) fd)
  else if truth (a_agent c) then Some (Send (a_client c) (a_agent c) (Z.lor (a_tag a) PTYPE_TAG_DONTCOPY) fd)
  else if truth (a_watchdog a) then
    Some (λ p, Send 0 (a_watchdog a) PTYPE_TAG_DONTCOPY fd ((format_d fd ++ str " data ") ++ p))
  else None.

(** The packages of a stream: what is sent for them and the rest of the stream.
    A package of 16M closes the connection and drops the stream.  Without a
    target the package stays in the stream, and only its header is gone. *)
Fixpoint packages (fuel : nat) (n : Z) (to : option (list Z → effect)) (fd : Z) (s : stream) : list effect * stream :=
  match fuel with
  | O => ([], s)
  | S fuel =>
      let '(r, s) := spec_readheader s n in
      if r <? 0 then ([], s)
      else if 0 <? r then
        if 0x1000000 <=? r then ([SocketClose fd; Log (str "Recv socket message > 16M")], stream_zero)
        else
          match to with
          | None => packages fuel n to fd (Stream 0 (st_bytes s))
          | Some send =>
              let '(es, s') := packages fuel n to fd (Stream 0 (drop (Z.to_nat r) (st_bytes s))) in
              (send (take (Z.to_nat r) (st_bytes s)) :: es, s')
          end
      else packages fuel n to fd s
  end.

Definition a_report (a : agate) (data : list Z) : list effect :=
  if a_watchdog a =? 0 then [] else [Send 0 (a_watchdog a) PTYPE_TEXT 0 data].

Definition known (a : agate) (x : Z) : bool := match a_conns a !! x with Some _ => true | None => false end.

Definition all_bytes (l : list Z) : bool := forallb (λ b, (0 <=? b) && (b <? 256)) l.

Section Spec.

Context (skynet_queryname : list Z → Z).

Definition a_exec (a : agate) (c : command) : list effect * agate :=
  match c with
  | Kick uid => (if known a uid then [SocketClose uid] else [], a)
  | ForwardTo fd agent client =>
      ([], a <| a_conns := alter (λ c, AConn agent client (a_stream c)) fd (a_conns a) |>)
  | Broker name => ([], a <| a_broker := skynet_queryname name |>)
  | Start uid => (if known a uid then [SocketStart uid] else [], a)
  | CloseListen => if 0 <=? a_listen a then ([SocketClose (a_listen a)], a <| a_listen := -1 |>) else ([], a)
  | Incomplete => ([], a)
  | Unknown text => ([Log (str "[gate] Unkown command : " ++ text)], a)
  end.

(** [None] is an input the rest of the system does not send: a data message
    whose size is not the size of its buffer, a connection with an id in use,
    an accept from another socket. *)
Definition a_socket (a : agate) (m : skynet_socket_message) : option (list effect * agate) :=
  let x := sm_id m in
  if sm_type m =? SKYNET_SOCKET_TYPE_DATA then
    match a_conns a !! x with
    | None => Some ([Log (str "Drop unknown connection " ++ format_d x ++ str " message"); SocketClose x], a)
    | Some c =>
        data ← sm_buffer m;
        assert! (sm_ud m =? len data) && all_bytes data && (len (st_bytes (a_stream c)) + len data <=? INT_MAX);
        let s := Stream (st_header (a_stream c)) (st_bytes (a_stream c) ++ data) in
        let '(es, s) := packages (length (st_bytes s) + 2) (a_header a) (target a x c) x s in
        Some (es, a <| a_conns := <[x := AConn (a_agent c) (a_client c) s]> (a_conns a) |>)
    end
  else if sm_type m =? SKYNET_SOCKET_TYPE_CONNECT then
    Some (if (x =? a_listen a) || known a x then []
          else [Log (str "Close unknown connection " ++ format_d x); SocketClose x], a)
  else if (sm_type m =? SKYNET_SOCKET_TYPE_CLOSE) || (sm_type m =? SKYNET_SOCKET_TYPE_ERROR) then
    if known a x then Some (a_report a (format_d x ++ str " close"), a <| a_conns := delete x (a_conns a) |>)
    else Some ([], a)
  else if sm_type m =? SKYNET_SOCKET_TYPE_ACCEPT then
    assert! a_listen a =? x;
    let fd := sm_ud m in
    if Z.of_nat (size (a_conns a)) =? a_max a then Some ([SocketClose fd], a)
    else
      assert! (0 <=? fd) && (fd + a_max a - 1 <=? INT_MAX) && negb (known a fd);
      text ← c_str (take 31 (sm_padding m) ++ [0]);
      Some (a_report a (format_d fd ++ str " open " ++ format_d fd ++ str " " ++ text ++ str ":0")
            ++ [Log (str "socket open: " ++ format_u 16 (u32 fd))],
            a <| a_conns := <[fd := AConn 0 0 stream_zero]> (a_conns a) |>)
  else if sm_type m =? SKYNET_SOCKET_TYPE_WARNING then
    Some ([Log (str "fd (" ++ format_d x ++ str ") send buffer (" ++ format_d (sm_ud m) ++ str ")K")], a)
  else Some ([], a).

(** The size of a message is at most [INT_MAX]. *)
Definition a_cb (a : agate) (type source : Z) (msg : content) (sz : Z) : option (Z * list effect * agate) :=
  assert! (0 <=? sz) && (sz <=? INT_MAX);
  match msg with
  | Bytes msg =>
      assert! len msg =? sz;
      if type =? PTYPE_TEXT then c ← parse_command msg; let '(es, a) := a_exec a c in Some (0, es, a)
      else if type =? PTYPE_CLIENT then
        if sz <=? 4 then Some (0, [Log (str "Invalid client message from " ++ format_u 16 source)], a)
        else
          assert! all_bytes msg;
          let body := take (Z.to_nat (sz - 4)) msg in
          let uid := s32 (of_le (drop (Z.to_nat (sz - 4)) msg)) in
          Some (if known a uid then (1, [SocketSend uid body], a)
                else (0, [Log (str "Invalid client id " ++ format_d uid ++ str " from " ++ format_u 16 source)], a))
      else assert! negb (type =? PTYPE_SOCKET); Some (0, [], a)
  | SocketMessage m =>
      assert! (sz =? SIZEOF_SOCKET_MESSAGE + len (sm_padding m)) && (type =? PTYPE_SOCKET);
      '(es, a) ← a_socket a m; Some (0, es, a)
  end.

Fixpoint a_run (a : agate) (inputs : list (Z * Z * content * Z)) : option (list (Z * list effect) * agate) :=
  match inputs with
  | [] => Some ([], a)
  | (type, source, msg, sz) :: inputs =>
      '(r, es, a) ← a_cb a type source msg sz;
      '(out, a) ← a_run a inputs;
      Some ((r, es) :: out, a)
  end.

Fixpoint run_gate (g : gate) (inputs : list (Z * Z * content * Z)) : option (list (Z * list effect) * gate) :=
  match inputs with
  | [] => Some ([], g)
  | (type, source, msg, sz) :: inputs =>
      '(r, es, g) ← _cb skynet_queryname g type source msg sz;
      '(out, g) ← run_gate g inputs;
      Some ((r, es) :: out, g)
  end.

End Spec.

(** ** Representation *)

Definition free_connection (c : connection) : Prop :=
  c_id c = -1 ∧ agent c = 0 ∧ client c = 0 ∧ remote_name c = replicate 32 0.

Record gate_at (m : gmap Z Z) (ss : list stream) (g : gate) (a : agate) : Prop := {
  ga_listen : listen_id g = a_listen a;
  ga_watchdog : watchdog g = a_watchdog a;
  ga_broker : broker g = a_broker a;
  ga_tag : client_tag g = a_tag a;
  ga_header : header_size g = a_header a;
  ga_header_ok : a_header a = 2 ∨ a_header a = 4;
  ga_max : max_connection g = a_max a;
  ga_cap : cap (g_hash g) = a_max a;
  ga_conns : len (conn g) = a_max a;
  ga_hash : hash_repr (g_hash g) m;
  ga_dom x : is_Some (m !! x) ↔ is_Some (a_conns a !! x);
  ga_world : world (mp g) (map buffer (conn g)) ss;
  ga_bytes : streams_bytes ss;
  ga_conn x p ac : m !! x = Some p → a_conns a !! x = Some ac →
    ∃ c, (conn g).[p] = Some c ∧ c_id c = x ∧ agent c = a_agent ac ∧ client c = a_client ac ∧
         ss.[p] = Some (a_stream ac);
  ga_free p c : (∀ x, m !! x ≠ Some p) → (conn g).[p] = Some c →
    free_connection c ∧ ss.[p] = Some stream_zero
}.

Definition gate_repr (g : gate) (a : agate) : Prop := ∃ m ss, gate_at m ss g a.

Lemma map_buffer_insert cs (i : nat) c : map buffer (<[i := c]> cs) = <[i := buffer c]> (map buffer cs).
Proof. apply list_fmap_insert. Qed.

Lemma lookup_Z {A} (l : list A) p x : l.[p] = Some x → l !! Z.to_nat p = Some x.
Proof. intros H. rewrite <- H. symmetry. apply arr_get_nonneg. apply arr_get_Some in H. lia. Qed.

(** The record of a connection. *)
Lemma gate_conn m ss g a x p ac : gate_at m ss g a → m !! x = Some p → a_conns a !! x = Some ac →
  ∃ c, (conn g).[p] = Some c ∧ c_id c = x ∧ agent c = a_agent ac ∧ client c = a_client ac ∧
    0 ≤ p < len (conn g) ∧ ss !! Z.to_nat p = Some (a_stream ac) ∧ bytes (st_bytes (a_stream ac)) ∧
    map buffer (conn g) !! Z.to_nat p = Some (buffer c).
Proof.
  intros Hg Hp Hac. destruct (ga_conn _ _ _ _ Hg _ _ _ Hp Hac) as (c & Hc & Hx & H1 & H2 & Hs).
  exists c. repeat (split; [done|]). split; [by eapply arr_get_Some|]. apply lookup_Z in Hs. split; [done|]. split.
  - apply (Forall_lookup_1 _ _ _ _ (ga_bytes _ _ _ _ Hg) Hs).
  - rewrite list_lookup_fmap. by rewrite (lookup_Z _ _ _ Hc).
Qed.

(** A new record for a connection, with a new stream. *)
Lemma gate_update m ss g a x p ac ac' c c' pool : gate_at m ss g a → m !! x = Some p → a_conns a !! x = Some ac →
  (conn g).[p] = Some c →
  c_id c' = x → agent c' = a_agent ac' → client c' = a_client ac' →
  world pool (<[Z.to_nat p := buffer c']> (map buffer (conn g))) (<[Z.to_nat p := a_stream ac']> ss) →
  bytes (st_bytes (a_stream ac')) →
  ∃ g', set_conn (g <| mp := pool |>) p c' = Some g' ∧ conn g' = <[Z.to_nat p := c']> (conn g) ∧ mp g' = pool ∧
    gate_at m (<[Z.to_nat p := a_stream ac']> ss) g' (a <| a_conns := <[x := ac']> (a_conns a) |>).
Proof.
  intros Hg Hp Hac Hc Hx Ha Hcl Hw Hb. unfold set_conn. cbn [conn].
  pose proof (arr_get_Some _ _ _ Hc) as Hlt.
  destruct (arr_set_is_Some (conn g) p c' Hlt) as [cs E]. rewrite E.
  pose proof (arr_set_inv _ _ _ _ E) as [_ ->].
  assert (len ss = len (conn g)) as Hlen.
  { destruct (ga_world _ _ _ _ Hg) as (free & ls & Hw0). destruct (w_count _ _ _ _ _ Hw0) as [H1 H2].
    rewrite length_map in H1. unfold len. lia. }
  destruct (arr_set_is_Some ss p (a_stream ac')) as [ss' Es]; [lia|].
  pose proof (arr_set_inv _ _ _ _ Es) as [_ ->].
  eexists. split; [done|]. split; [done|]. split; [done|].
  split; cbn [listen_id watchdog broker client_tag header_size max_connection g_hash conn mp a_listen a_watchdog a_broker a_tag a_header a_max a_conns];
    try (by apply Hg).
  - rewrite (arr_set_len _ _ _ _ E). apply Hg.
  - intros y. rewrite (ga_dom _ _ _ _ Hg). destruct (decide (y = x)) as [->|Hy].
    + rewrite lookup_insert_eq, Hac. by split; eexists.
    + by rewrite lookup_insert_ne.
  - by rewrite map_buffer_insert.
  - apply Forall_insert; [apply Hg|done].
  - intros y q bc Hq Hbc. destruct (decide (y = x)) as [->|Hy].
    + rewrite lookup_insert_eq in Hbc. injection Hbc as <-. assert (q = p) as -> by congruence.
      exists c'. rewrite (arr_get_set_eq _ _ _ _ E), (arr_get_set_eq _ _ _ _ Es). done.
    + rewrite lookup_insert_ne in Hbc by done.
      assert (p ≠ q) as Hpq by (intros ->; by apply Hy, (repr_inj _ _ (ga_hash _ _ _ _ Hg) _ _ _ Hq Hp)).
      rewrite (arr_get_set_ne _ _ _ _ _ E), (arr_get_set_ne _ _ _ _ _ Es) by done.
      by apply (ga_conn _ _ _ _ Hg).
  - intros q d Hno Hd. assert (p ≠ q) as Hpq by (intros ->; by apply (Hno x)).
    rewrite (arr_get_set_ne _ _ _ _ _ E) in Hd by done. rewrite (arr_get_set_ne _ _ _ _ _ Es) by done.
    by apply (ga_free _ _ _ _ Hg).
Qed.

(** The connection with another stream. *)
Definition with_stream (a : agate) (x : Z) (ac : aconn) (s : stream) : agate :=
  a <| a_conns := <[x := AConn (a_agent ac) (a_client ac) s]> (a_conns a) |>.

Lemma with_stream_twice a x ac s s0 s' :
  with_stream (with_stream a x ac s) x (AConn (a_agent ac) (a_client ac) s0) s' = with_stream a x ac s'.
Proof. unfold with_stream. cbn. by rewrite insert_insert_eq. Qed.

Lemma with_stream_id a x ac : a_conns a !! x = Some ac → with_stream a x ac (a_stream ac) = a.
Proof. intros H. unfold with_stream. destruct a, ac. cbn in *. by rewrite insert_id. Qed.

Lemma with_stream_get a x ac s : a_conns (with_stream a x ac s) !! x = Some (AConn (a_agent ac) (a_client ac) s).
Proof. apply lookup_insert_eq. Qed.

(** A new buffer for a connection. *)
Lemma buffer_step m ss g a x p ac c db pool s : gate_at m ss g a → m !! x = Some p → a_conns a !! x = Some ac →
  (conn g).[p] = Some c →
  world pool (<[Z.to_nat p := db]> (map buffer (conn g))) (<[Z.to_nat p := s]> ss) → bytes (st_bytes s) →
  ∃ g' ss', set_conn (g <| mp := pool |>) p (c <| buffer := db |>) = Some g' ∧
    gate_at m ss' g' (with_stream a x ac s).
Proof.
  intros Hg Hp Hac Hc Hw Hb. destruct (ga_conn _ _ _ _ Hg _ _ _ Hp Hac) as (c' & Hc' & Hx & Ha & Hcl & _).
  assert (c' = c) as -> by congruence.
  destruct (gate_update _ _ _ _ _ _ _ (AConn (a_agent ac) (a_client ac) s) c (c <| buffer := db |>) pool Hg Hp Hac Hc)
    as (g' & Eg & _ & _ & Hg'); try done. eauto.
Qed.

Lemma gate_lookup m ss g a x : gate_at m ss g a → hashid_lookup (g_hash g) x = Some (default (-1) (m !! x)).
Proof. intros Hg. apply lookup_spec, Hg. Qed.

(** A lookup finds a slot exactly when the connection is known. *)
Lemma gate_known m ss g a x : gate_at m ss g a →
  match a_conns a !! x with
  | Some ac => ∃ p, m !! x = Some p ∧ 0 ≤ p
  | None => m !! x = None
  end.
Proof.
  intros Hg. pose proof (ga_dom _ _ _ _ Hg x) as Hd. destruct (a_conns a !! x) as [ac|] eqn:E.
  - destruct Hd as [_ [p Hp]]; [by eexists|]. exists p. split; [done|].
    destruct (gate_conn _ _ _ _ _ _ _ Hg Hp E) as (c & _ & _ & _ & _ & ? & _). lia.
  - destruct (m !! x); [|done]. destruct Hd as [[? Hd] _]; [by eexists|done].
Qed.

(** ** Packages *)

Definition measure (s : stream) : nat := length (st_bytes s) + (if st_header s =? 0 then 0 else 1).

Lemma readheader_measure s n : n = 2 ∨ n = 4 → let '(r, s') := spec_readheader s n in
  0 ≤ r → st_header s' = r ∧ r ≤ len (st_bytes s') ∧
    (st_header s = 0 → (length (st_bytes s') + 2 ≤ length (st_bytes s))%nat) ∧
    (st_header s ≠ 0 → st_bytes s' = st_bytes s ∧ r ≠ 0).
Proof.
  intros Hn. unfold spec_readheader. destruct (Z.eqb_spec (st_header s) 0) as [H0|H0]; cbn [andb].
  - destruct (Z.ltb_spec (len (st_bytes s)) n) as [Hl|Hl]; [lia|]. cbn [st_bytes st_header].
    destruct (Z.ltb_spec (len (drop (Z.to_nat n) (st_bytes s))) (header_value (take (Z.to_nat n) (st_bytes s)))); [lia|].
    intros _. split; [done|]. split; [done|]. split; [|done]. intros _.
    unfold len in Hl. rewrite length_drop. lia.
  - destruct (Z.ltb_spec (len (st_bytes s)) (st_header s)); [lia|]. intros _. done.
Qed.

Lemma readheader_bytes s n : bytes (st_bytes s) → bytes (st_bytes (spec_readheader s n).2).
Proof.
  intros Hb. unfold spec_readheader. destruct (_ && _); [done|]. destruct (st_header s =? 0); cbn [st_bytes snd]; [|done].
  by apply Forall_drop.
Qed.

Section Loop.
Context (m : gmap Z Z) (x p : Z) (Hp : m !! x = Some p).

(** The steps of the loop on the buffer of the connection. *)
Lemma readheader_step ss g a ac : gate_at m ss g a → a_conns a !! x = Some ac →
  ∃ c db pool g' ss', (conn g).[p] = Some c ∧
    databuffer_readheader (buffer c) (mp g) (header_size g) = Some ((spec_readheader (a_stream ac) (a_header a)).1, db, pool) ∧
    set_conn (g <| mp := pool |>) p (c <| buffer := db |>) = Some g' ∧
    gate_at m ss' g' (with_stream a x ac (spec_readheader (a_stream ac) (a_header a)).2).
Proof.
  intros Hg Hac. destruct (gate_conn _ _ _ _ _ _ _ Hg Hp Hac) as (c & Hc & _ & _ & _ & _ & Hs & Hb & Hdb).
  destruct (ga_world _ _ _ _ Hg) as (free & ls & Hw).
  destruct (world_readheader _ _ _ _ _ _ _ (a_header a) Hw Hs Hb (ga_header_ok _ _ _ _ Hg))
    as (db & Hdb' & db' & pool & E & Hw').
  assert (db = buffer c) as -> by congruence.
  destruct (buffer_step _ _ _ _ _ _ _ c _ _ _ Hg Hp Hac Hc Hw') as (g' & ss' & Eg & Hg'); [by apply readheader_bytes|].
  exists c, db', pool, g', ss'. split; [done|]. split; [by rewrite (ga_header _ _ _ _ Hg)|done].
Qed.

Lemma clear_step ss g a ac : gate_at m ss g a → a_conns a !! x = Some ac →
  ∃ c db pool g' ss', (conn g).[p] = Some c ∧ databuffer_clear (buffer c) (mp g) = Some (db, pool) ∧
    set_conn (g <| mp := pool |>) p (c <| buffer := db |>) = Some g' ∧
    gate_at m ss' g' (with_stream a x ac stream_zero).
Proof.
  intros Hg Hac. destruct (gate_conn _ _ _ _ _ _ _ Hg Hp Hac) as (c & Hc & _ & _ & _ & _ & Hs & Hb & Hdb).
  destruct (ga_world _ _ _ _ Hg) as (free & ls & Hw).
  destruct (world_clear _ _ _ _ _ _ _ Hw Hs) as (db & Hdb' & pool & E & Hw').
  assert (db = buffer c) as -> by congruence.
  destruct (buffer_step _ _ _ _ _ _ _ c _ _ _ Hg Hp Hac Hc Hw') as (g' & ss' & Eg & Hg'); [constructor|].
  by exists c, databuffer_zero, pool, g', ss'.
Qed.

Lemma reset_step ss g a ac : gate_at m ss g a → a_conns a !! x = Some ac →
  ∃ c g' ss', (conn g).[p] = Some c ∧
    set_conn g p (c <| buffer := databuffer_reset (buffer c) |>) = Some g' ∧
    gate_at m ss' g' (with_stream a x ac (Stream 0 (st_bytes (a_stream ac)))).
Proof.
  intros Hg Hac. destruct (gate_conn _ _ _ _ _ _ _ Hg Hp Hac) as (c & Hc & _ & _ & _ & _ & Hs & Hb & Hdb).
  destruct (ga_world _ _ _ _ Hg) as (free & ls & Hw).
  destruct (world_reset _ _ _ _ _ _ _ Hw Hs) as (db & Hdb' & Hw').
  assert (db = buffer c) as -> by congruence.
  destruct (buffer_step _ _ _ _ _ _ _ c _ _ _ Hg Hp Hac Hc Hw') as (g' & ss' & Eg & Hg'); [done|].
  exists c, g', ss'. split; [done|]. split; [|done]. by destruct g.
Qed.

(** [_forward] on a package that is there. *)
Lemma forward_spec ss g a ac r : gate_at m ss g a → a_conns a !! x = Some ac →
  st_header (a_stream ac) = r → 0 < r ≤ len (st_bytes (a_stream ac)) →
  let '(es, b) := match target a x ac with
                  | None => ([], st_bytes (a_stream ac))
                  | Some send => ([send (take (Z.to_nat r) (st_bytes (a_stream ac)))], drop (Z.to_nat r) (st_bytes (a_stream ac)))
                  end in
  ∃ g' ss', _forward g p r = Some (es, g') ∧ gate_at m ss' g' (with_stream a x ac (Stream r b)).
Proof.
  intros Hg Hac Hh Hr. set (rest := drop (Z.to_nat r) (st_bytes (a_stream ac))).
  destruct (gate_conn _ _ _ _ _ _ _ Hg Hp Hac) as (c & Hc & Hx & Ha & Hcl & Hlt & Hs & Hb & Hdb).
  destruct (ga_world _ _ _ _ Hg) as (free & ls & Hw).
  destruct (world_read _ _ _ _ _ _ _ r Hw Hs Hr) as (db & Hdb' & db' & pool & Er & Hdh & Hw').
  assert (db = buffer c) as -> by congruence. specialize (Hw' r).
  replace (db' <| db_header := r |>) with db' in Hw' by (destruct db'; cbn in *; by subst).
  destruct (buffer_step _ _ _ _ _ _ _ c _ _ _ Hg Hp Hac Hc Hw') as (g' & ss' & Eg & Hg'); [by apply Forall_drop|].
  unfold _forward, target. rewrite Hc, Er. cbv beta iota. rewrite Eg.
  rewrite (ga_broker _ _ _ _ Hg), (ga_watchdog _ _ _ _ Hg), (ga_broker _ _ _ _ Hg'), (ga_watchdog _ _ _ _ Hg'),
    (ga_tag _ _ _ _ Hg'), Ha, Hcl, Hx. cbn [a_broker a_watchdog a_tag with_stream].
  assert (∃ ss', gate_at m ss' g (with_stream a x ac (Stream r (st_bytes (a_stream ac))))) as [ss0 Hg0].
  { exists ss. replace (Stream r _) with (a_stream ac) by (destruct ac as [? ? [? ?]]; cbn in *; by subst).
    by rewrite with_stream_id. }
  destruct (x <=? 0); [eauto|]. destruct (truth (a_broker a)); [eauto|]. destruct (truth (a_agent ac)); [eauto|].
  destruct (truth (a_watchdog a)); eauto.
Qed.

(** The loop cuts the stream into packages, in no more rounds than it has fuel. *)
Lemma dispatch_loop_spec fuel : ∀ ss g a ac, gate_at m ss g a → a_conns a !! x = Some ac →
  (measure (a_stream ac) < fuel)%nat →
  let '(es, s) := packages fuel (a_header a) (target a x ac) x (a_stream ac) in
  ∃ g' ss', dispatch_loop fuel g p x = Some (es, g') ∧ gate_at m ss' g' (with_stream a x ac s).
Proof.
  induction fuel as [|fuel IH]; intros ss g a ac Hg Hac Hf; [lia|]. cbn [packages dispatch_loop].
  pose proof (readheader_measure (a_stream ac) (a_header a) (ga_header_ok _ _ _ _ Hg)) as Hm.
  destruct (readheader_step ss g a ac Hg Hac) as (c & db & pool & g1 & ss1 & Ec & Er & Eg & Hg1).
  rewrite Ec, Er, Eg. clear Ec Er Eg Hg. destruct (spec_readheader (a_stream ac) (a_header a)) as [r s1].
  cbn [fst snd] in *. destruct (Z.ltb_spec r 0) as [Hr|Hr]; [by exists g1, ss1|].
  destruct (Hm Hr) as (Hh & Hl & H1 & H2). clear Hm. pose proof (with_stream_get a x ac s1) as Hac1.
  destruct (Z.ltb_spec 0 r) as [Hr0|Hr0].
  - destruct (Z.leb_spec 0x1000000 r) as [Hbig|Hbig].
    + destruct (clear_step _ _ _ _ Hg1 Hac1) as (c2 & db2 & pool2 & g2 & ss2 & -> & -> & -> & Hg2).
      exists g2, ss2. split; [done|]. by rewrite with_stream_twice in Hg2.
    + pose proof (forward_spec _ _ _ _ r Hg1 Hac1 Hh (conj Hr0 Hl)) as Hfw.
      change (target (with_stream a x ac s1) x _) with (target a x ac) in Hfw. cbn [a_stream] in Hfw.
      assert (∃ es b, (es, b) = match target a x ac with
          | None => ([], st_bytes s1)
          | Some send => ([send (take (Z.to_nat r) (st_bytes s1))], drop (Z.to_nat r) (st_bytes s1)) end ∧
        (length b < fuel)%nat) as (es & b & Eb & Hlb).
      { unfold measure in Hf. destruct (target a x ac); eexists _, _; (split; [done|]).
        - rewrite length_drop. destruct (Z.eqb_spec (st_header (a_stream ac)) 0) as [H0|H0].
          + specialize (H1 H0). lia.
          + destruct (H2 H0) as [E _]. rewrite E in *. unfold len in Hl. lia.
        - destruct (Z.eqb_spec (st_header (a_stream ac)) 0) as [H0|H0].
          + specialize (H1 H0). lia.
          + destruct (H2 H0) as [E _]. rewrite E in *. lia. }
      rewrite <- Eb in Hfw. destruct Hfw as (g2 & ss2 & -> & Hg2).
      rewrite with_stream_twice in Hg2.
      destruct (reset_step _ _ _ _ Hg2 (with_stream_get _ _ _ _)) as (c3 & g3 & ss3 & -> & -> & Hg3).
      cbn [a_stream st_bytes] in Hg3. rewrite with_stream_twice in Hg3.
      pose proof (IH _ _ _ _ Hg3 (with_stream_get _ _ _ _)) as IH'.
      change (target (with_stream _ _ _ _) x _) with (target a x ac) in IH'. cbn [with_stream a_header a_stream] in IH'.
      destruct (target a x ac) as [send|]; injection Eb as -> ->; destruct (packages fuel _ _ x _) as [es' s'];
        (destruct IH' as (g4 & ss4 & -> & Hg4); [cbn; lia|]); exists g4, ss4; (split; [done|]);
        by rewrite with_stream_twice in Hg4.
  - assert (st_header (a_stream ac) = 0) as H0.
    { destruct (decide (st_header (a_stream ac) = 0)) as [|Hne]; [done|]. destruct (H2 Hne). lia. }
    pose proof (IH _ _ _ _ Hg1 Hac1) as IH'. change (target (with_stream _ _ _ _) x _) with (target a x ac) in IH'.
    cbn [with_stream a_header a_stream] in IH'. destruct (packages fuel _ _ x _) as [es' s'].
    destruct IH' as (g4 & ss4 & -> & Hg4).
    { unfold measure in *. rewrite H0 in Hf. specialize (H1 H0). rewrite (proj2 (Z.eqb_eq _ _)) by lia. cbn in Hf. lia. }
    exists g4, ss4. split; [done|]. by rewrite with_stream_twice in Hg4.
Qed.

End Loop.
(** ** Text commands *)

Section Handlers.
Context (skynet_queryname : list Z → Z).

(** A change of a field that is not about connections. *)
Lemma gate_field m ss g a li wd br : gate_at m ss g a →
  gate_at m ss (Gate li wd br (client_tag g) (header_size g) (max_connection g) (g_hash g) (conn g) (mp g))
    (AGate li wd br (a_tag a) (a_header a) (a_max a) (a_conns a)).
Proof. by intros []. Qed.

Lemma lookup_of_known m ss g a x : gate_at m ss g a →
  ∃ id, hashid_lookup (g_hash g) x = Some id ∧ (0 <=? id) = known a x ∧ (id <? 0) = negb (known a x).
Proof.
  intros Hg. rewrite (gate_lookup _ _ _ _ _ Hg). eexists. split; [done|]. unfold known.
  pose proof (gate_known _ _ _ _ x Hg) as Hk. destruct (a_conns a !! x).
  - destruct Hk as (p & -> & Hp). cbn. rewrite (proj2 (Z.leb_le _ _)), (proj2 (Z.ltb_ge _ _)) by lia. done.
  - by rewrite Hk.
Qed.

Lemma forward_agent_spec m ss g a fd ag cl : gate_at m ss g a →
  ∃ g' ss', _forward_agent g fd ag cl = Some g' ∧
    gate_at m ss' g' (a <| a_conns := alter (λ c, AConn ag cl (a_stream c)) fd (a_conns a) |>).
Proof.
  intros Hg. unfold _forward_agent. rewrite (gate_lookup _ _ _ _ _ Hg). pose proof (gate_known _ _ _ _ fd Hg) as Hk.
  destruct (a_conns a !! fd) as [ac|] eqn:E.
  - destruct Hk as (p & Hp & H0). rewrite Hp. change (default (-1) (Some p)) with p. rewrite (proj2 (Z.leb_le _ _)) by done.
    destruct (gate_conn _ _ _ _ _ _ _ Hg Hp E) as (c & Hc & Hx & Ha & Hcl & Hlt & Hs & Hb & Hdb).
    destruct (gate_update _ _ _ _ _ _ _ (AConn ag cl (a_stream ac)) c (c <| agent := ag |> <| client := cl |>) (mp g)
      Hg Hp E Hc) as (g' & Eg & _ & _ & Hg'); try done.
    + cbn [buffer a_stream]. rewrite !list_insert_id by done. apply Hg.
    + rewrite Hc. exists g'. eexists. split; [by destruct g|].
      replace (alter _ fd (a_conns a)) with (<[fd := AConn ag cl (a_stream ac)]> (a_conns a)); [exact Hg'|].
      apply map_eq. intros y. destruct (decide (y = fd)) as [->|Hy].
      * by rewrite lookup_insert_eq, lookup_alter_eq, E.
      * by rewrite lookup_insert_ne, lookup_alter_ne.
  - rewrite Hk. cbn. exists g, ss. split; [done|].
    replace (alter _ fd (a_conns a)) with (a_conns a); [by destruct a|].
    apply map_eq. intros y. destruct (decide (y = fd)) as [->|Hy]; [by rewrite lookup_alter_eq, E|by rewrite lookup_alter_ne].
Qed.

(** The handlers of commands that name a connection. *)
Lemma parse_forward_spec tmp c m ss g a : gate_at m ss g a → parse_forward tmp = Some c →
  ∃ g', (let idstr := 0 in
    '(tmp, client) ← strsep tmp 0;
    match client with
    | None => Some ([], g)
    | Some agent =>
        id ← strtol (advance idstr tmp) 10; let id := s32 id in
        '(tmp, client) ← strsep tmp agent;
        match client with
        | None => Some ([], g)
        | Some client =>
            agent_handle ← strtoul (advance (agent + 1) tmp) 16; let agent_handle := u32 agent_handle in
            client_handle ← strtoul (advance (client + 1) tmp) 16; let client_handle := u32 client_handle in
            g ← _forward_agent g id agent_handle client_handle;
            Some ([], g)
        end
    end) = Some ((a_exec skynet_queryname a c).1, g') ∧ gate_repr g' (a_exec skynet_queryname a c).2.
Proof.
  intros Hg. unfold parse_forward. destruct (strsep tmp 0) as [[tmp1 [ag|]]|]; [| |done]; cbv zeta.
  2:{ intros [= <-]. exists g. split; [done|]. by exists m, ss. }
  change (advance 0 tmp1) with tmp1. destruct (strtol tmp1 10) as [id|]; [|done].
  destruct (strsep tmp1 ag) as [[tmp2 [cl|]]|]; [| |done].
  2:{ intros [= <-]. exists g. split; [done|]. by exists m, ss. }
  destruct (strtoul _ 16); [|done]. destruct (strtoul _ 16); [|done]. intros [= <-].
  destruct (forward_agent_spec m ss g a (s32 id) (u32 z) (u32 z0) Hg) as (g' & ss' & -> & Hg').
  exists g'. split; [done|]. by exists m, ss'.
Qed.

Lemma ctrl_spec g a msg c : gate_repr g a → parse_command msg = Some c →
  ∃ g', _ctrl skynet_queryname g msg (len msg) = Some ((a_exec skynet_queryname a c).1, g') ∧
    gate_repr g' (a_exec skynet_queryname a c).2.
Proof.
  intros (m & ss & Hg) H. unfold parse_command in H. unfold _ctrl. rewrite mem_read_whole by done.
  assert (∀ es : list effect, ∃ g', Some (es, g) = Some (es, g') ∧ gate_repr g' a) as Hsame.
  { intros es. exists g. split; [done|]. by exists m, ss. }
  destruct (len msg =? 0); [injection H as <-; apply Hsame|].
  bind_inv H. rename z into i. cbn [commands parse_with] in H.
  destruct (memcmp_eq _ (literal "kick") _) as [[]|]; [| |done].
  { unfold parse_uid in H. bind_inv H. rename l into tmp. bind_inv H. injection H as <-.
    destruct (lookup_of_known _ _ _ _ (s32 z) Hg) as (id & -> & -> & _). apply Hsame. }
  destruct (memcmp_eq _ (literal "forward") _) as [[]|]; [| |done].
  { bind_inv H. by eapply parse_forward_spec. }
  destruct (memcmp_eq _ (literal "broker") _) as [[]|]; [| |done].
  { bind_inv H. bind_inv H. injection H as <-. eexists. split; [done|]. exists m, ss.
    rewrite (ga_listen _ _ _ _ Hg), (ga_watchdog _ _ _ _ Hg). by apply gate_field. }
  destruct (memcmp_eq _ (literal "start") _) as [[]|]; [| |done].
  { unfold parse_uid in H. bind_inv H. rename l into tmp. bind_inv H. injection H as <-.
    destruct (lookup_of_known _ _ _ _ (s32 z) Hg) as (id & -> & -> & _). apply Hsame. }
  bind_inv H. destruct b.
  - injection H as <-. cbn [a_exec]. rewrite (ga_listen _ _ _ _ Hg). destruct (0 <=? a_listen a); [|apply Hsame].
    eexists. split; [done|]. exists m, ss. cbn [snd].
    rewrite (ga_watchdog _ _ _ _ Hg), (ga_broker _ _ _ _ Hg). by apply gate_field.
  - bind_inv H. injection H as <-. apply Hsame.
Qed.

(** ** Socket messages *)

Lemma all_bytes_spec l : all_bytes l = true → bytes l.
Proof.
  intros H. apply Forall_forall. intros x Hx. unfold all_bytes in H. rewrite forallb_forall in H.
  rewrite list_elem_of_In in Hx. specialize (H x Hx). lia.
Qed.

Lemma data_spec m ss g a x ac data : gate_at m ss g a → a_conns a !! x = Some ac → bytes data →
  len (st_bytes (a_stream ac)) + len data ≤ INT_MAX →
  let s := Stream (st_header (a_stream ac)) (st_bytes (a_stream ac) ++ data) in
  let '(es, s') := packages (length (st_bytes s) + 2) (a_header a) (target a x ac) x s in
  ∃ p g', m !! x = Some p ∧ 0 ≤ p ∧ dispatch_message g p x data (len data) = Some (es, g') ∧
    gate_repr g' (with_stream a x ac s').
Proof.
  intros Hg Hac Hd Hl s. pose proof (gate_known _ _ _ _ x Hg) as Hk. rewrite Hac in Hk. destruct Hk as (p & Hp & H0).
  destruct (gate_conn _ _ _ _ _ _ _ Hg Hp Hac) as (c & Hc & _ & _ & _ & _ & Hs & Hb & Hdb).
  destruct (ga_world _ _ _ _ Hg) as (free & ls & Hw).
  destruct (world_push _ _ _ _ _ _ _ data Hw Hs Hl) as (db & Hdb' & db' & pool & E & Hw').
  assert (db = buffer c) as -> by congruence. fold s in Hw'.
  assert (db_size db' = len (st_bytes s)) as Hsz.
  { destruct Hw' as (free' & ls' & Hw'). destruct (world_get _ _ _ _ _ (Z.to_nat p) s Hw') as (l' & db1 & _ & Hdb1 & Hr1 & _).
    { apply list_lookup_insert_eq. by eapply lookup_lt_Some. }
    rewrite list_lookup_insert_eq in Hdb1 by (by eapply lookup_lt_Some). injection Hdb1 as <-.
    apply (dr_size _ _ _ _ Hr1). }
  destruct (buffer_step _ _ _ _ _ _ _ c _ _ _ Hg Hp Hac Hc Hw') as (g1 & ss1 & Eg & Hg1); [by apply Forall_app|].
  pose proof (dispatch_loop_spec m x p Hp (length (st_bytes s) + 2) _ _ _ _ Hg1 (with_stream_get _ _ _ _)) as Hloop.
  change (target (with_stream _ _ _ _) x _) with (target a x ac) in Hloop. cbn [a_stream with_stream a_header] in Hloop.
  destruct (packages _ _ _ _ _) as [es s']. destruct Hloop as (g2 & ss2 & E2 & Hg2).
  { unfold measure. destruct (st_header s =? 0); lia. }
  exists p, g2. split; [done|]. split; [done|]. unfold dispatch_message. rewrite Hc, E, Eg, Hsz.
  unfold len at 1. rewrite Nat2Z.id. split; [done|]. exists m, ss2. by rewrite with_stream_twice in Hg2.
Qed.

(** A connection goes: its slot is free again. *)
Lemma close_spec m ss g a x ac : gate_at m ss g a → a_conns a !! x = Some ac →
  ∃ p h c db pool g', hashid_remove (g_hash g) x = Some (p, h) ∧ 0 ≤ p ∧ (conn g).[p] = Some c ∧
    databuffer_clear (buffer c) (mp g) = Some (db, pool) ∧
    set_conn (g <| g_hash := h |> <| mp := pool |>) p (connection_zero <| c_id := -1 |>) = Some g' ∧
    gate_repr g' (a <| a_conns := delete x (a_conns a) |>).
Proof.
  intros Hg Hac. pose proof (gate_known _ _ _ _ x Hg) as Hk. rewrite Hac in Hk. destruct Hk as (p & Hp & H0).
  destruct (gate_conn _ _ _ _ _ _ _ Hg Hp Hac) as (c & Hc & _ & _ & _ & Hlt & Hs & Hb & Hdb).
  destruct (remove_present _ _ _ _ (ga_hash _ _ _ _ Hg) Hp) as (h & l & l1 & l2 & Eh & Hbk & Hrm).
  pose proof (remove_repr _ _ _ _ _ _ _ _ (ga_hash _ _ _ _ Hg) Hp Hbk Hrm) as Hh.
  destruct (ga_world _ _ _ _ Hg) as (free & ls & Hw).
  destruct (world_clear _ _ _ _ _ _ _ Hw Hs) as (db & Hdb' & pool & Ec & Hw').
  assert (db = buffer c) as -> by congruence.
  destruct (arr_set_is_Some (conn g) p (connection_zero <| c_id := -1 |>) Hlt) as [cs Ecs].
  pose proof (arr_set_inv _ _ _ _ Ecs) as [_ Ecs'].
  exists p, h, c, databuffer_zero, pool. eexists. split; [done|]. split; [done|]. split; [done|]. split; [done|].
  unfold set_conn. cbn [conn]. rewrite Ecs. split; [done|].
  exists (delete x m), (<[Z.to_nat p := stream_zero]> ss).
  assert (∀ y q, delete x m !! y = Some q → m !! y = Some q ∧ p ≠ q ∧ y ≠ x) as Hdel.
  { intros y q [Hy Hq]%lookup_delete_Some. split; [done|]. split; [|done]. intros ->.
    by apply Hy, (repr_inj _ _ (ga_hash _ _ _ _ Hg) _ _ _ Hp Hq). }
  assert (ss.[p] = Some (a_stream ac)) as Hsp by (by rewrite arr_get_nonneg).
  destruct (arr_set_is_Some ss p stream_zero) as [ss' Es]; [by eapply arr_get_Some|].
  pose proof (arr_set_inv _ _ _ _ Es) as [_ ->].
  split; cbn [listen_id watchdog broker client_tag header_size max_connection g_hash conn mp a_listen a_watchdog a_broker a_tag a_header a_max a_conns];
    try (by apply Hg).
  - rewrite (rm_cap _ _ _ _ _ _ _ Hrm). apply Hg.
  - rewrite (arr_set_len _ _ _ _ Ecs). apply Hg.
  - done.
  - intros y. destruct (decide (y = x)) as [->|Hy].
    + rewrite !lookup_delete_eq. by split; intros [? ?].
    + rewrite !lookup_delete_ne by done. apply Hg.
  - subst cs. by rewrite map_buffer_insert.
  - apply Forall_insert; [apply Hg|constructor].
  - intros y q bc Hq Hbc. apply Hdel in Hq as (Hq & Hpq & Hy). rewrite lookup_delete_ne in Hbc by done.
    rewrite (arr_get_set_ne _ _ _ _ _ Ecs), (arr_get_set_ne _ _ _ _ _ Es) by done. by apply (ga_conn _ _ _ _ Hg).
  - intros q d Hno Hd. destruct (decide (p = q)) as [<-|Hpq].
    + rewrite (arr_get_set_eq _ _ _ _ Ecs) in Hd. injection Hd as <-.
      rewrite (arr_get_set_eq _ _ _ _ Es). done.
    + rewrite (arr_get_set_ne _ _ _ _ _ Ecs) in Hd by done. rewrite (arr_get_set_ne _ _ _ _ _ Es) by done.
      apply (ga_free _ _ _ _ Hg); [|done]. intros y Hy. apply (Hno y).
      rewrite lookup_delete_ne; [done|]. intros <-. apply Hpq. congruence.
Qed.

(** A C string ends at the first terminator. *)
Lemma c_str_app l r s : c_str l = Some s → c_str (l ++ r) = Some s.
Proof.
  revert s. induction l as [|c l IH]; intros s; [done|]. cbn [app c_str]. destruct (c =? 0); [done|].
  intros H. bind_inv H. by rewrite (IH _ eq_refl).
Qed.

Lemma gate_size m ss g a : gate_at m ss g a → size m = size (a_conns a).
Proof.
  intros Hg. rewrite <- !size_dom. f_equal. apply set_eq. intros x. rewrite !elem_of_dom. apply Hg.
Qed.

Lemma accept_spec m ss g a fd padding text : gate_at m ss g a → 0 ≤ fd → fd + a_max a - 1 ≤ INT_MAX →
  a_conns a !! fd = None → Z.of_nat (size (a_conns a)) ≠ a_max a →
  c_str (take 31 padding ++ [0]) = Some text →
  let sz := if 32 <=? len padding then 31 else len padding in
  ∃ p h c name name' g', hashid_insert (g_hash g) fd = Some (p, h) ∧ (conn g).[p] = Some c ∧
    mem_read padding 0 sz = Some name ∧ mem_write (remote_name c) 0 (name ++ [0]) = Some name' ∧
    set_conn (g <| g_hash := h |>) p (c <| c_id := fd |> <| remote_name := name' |>) = Some g' ∧
    c_str name' = Some text ∧ watchdog g' = a_watchdog a ∧
    gate_repr g' (a <| a_conns := <[fd := AConn 0 0 stream_zero]> (a_conns a) |>).
Proof.
  intros Hg H0 Hmax Hno Hsz Htext sz. pose proof (len_nonneg padding).
  pose proof (gate_known _ _ _ _ fd Hg) as Hk. rewrite Hno in Hk.
  pose proof (repr_size _ _ (ga_hash _ _ _ _ Hg)) as Hle. rewrite (gate_size _ _ _ _ Hg), (ga_cap _ _ _ _ Hg) in Hle.
  destruct (insert_spec _ _ fd (ga_hash _ _ _ _ Hg)) as (p & h & Eh & Hp & Hfree & Hcap & Hh);
    [done|by rewrite (ga_cap _ _ _ _ Hg)|done|rewrite (gate_size _ _ _ _ Hg), (ga_cap _ _ _ _ Hg); lia|].
  rewrite (ga_cap _ _ _ _ Hg) in Hp. rewrite <- (ga_conns _ _ _ _ Hg) in Hp.
  destruct (arr_get_is_Some _ _ Hp) as [c Hc]. destruct (ga_free _ _ _ _ Hg _ _ Hfree Hc) as [(Hid & Hag & Hcl & Hnm) Hs].
  assert (mem_read padding 0 sz = Some (take 31 padding) ∧ len (take 31 padding) ≤ 31) as [Er Hnl].
  { split; [|unfold len; rewrite length_take; lia]. subst sz. destruct (Z.leb_spec 32 (len padding)).
    - unfold mem_read. by rewrite (proj2 (Z.leb_le (0 + 31) _)) by lia.
    - rewrite mem_read_whole, take_ge by (try done; unfold len in *; lia). done. }
  exists p, h, c, (take 31 padding).
  assert (∃ rest, mem_write (remote_name c) 0 (take 31 padding ++ [0]) = Some ((take 31 padding ++ [0]) ++ rest)) as [rest Ew].
  { rewrite Hnm. eexists. unfold mem_write. change (len (replicate 32 0)) with 32. rewrite len_app. change (len [0]) with 1.
    rewrite (proj2 (Z.leb_le _ 32)) by lia. done. }
  rewrite Ew. destruct (arr_set_is_Some (conn g) p (c <| c_id := fd |> <| remote_name := (take 31 padding ++ [0]) ++ rest |>) Hp)
    as [cs Ecs].
  eexists _, _. split; [done|]. split; [done|]. split; [done|]. split; [done|].
  unfold set_conn. cbn [conn]. rewrite Ecs. split; [done|]. split; [by apply c_str_app|].
  split; [apply Hg|]. exists (<[fd := p]> m), ss.
  assert (∀ y q, <[fd := p]> m !! y = Some q → y ≠ fd → m !! y = Some q ∧ p ≠ q) as Hins.
  { intros y q Hq Hy. rewrite lookup_insert_ne in Hq by done. split; [done|]. intros ->. by apply (Hfree y). }
  split; cbn [listen_id watchdog broker client_tag header_size max_connection g_hash conn mp a_listen a_watchdog a_broker a_tag a_header a_max a_conns];
    try (by apply Hg).
  - rewrite Hcap. apply Hg.
  - rewrite (arr_set_len _ _ _ _ Ecs). apply Hg.
  - done.
  - intros y. destruct (decide (y = fd)) as [->|Hy].
    + rewrite !lookup_insert_eq. by split; eexists.
    + rewrite !lookup_insert_ne by done. apply Hg.
  - apply arr_set_inv in Ecs as [_ ->]. rewrite map_buffer_insert. rewrite list_insert_id; [apply Hg|].
    rewrite list_lookup_fmap. by rewrite (lookup_Z _ _ _ Hc).
  - intros y q bc Hq Hbc. destruct (decide (y = fd)) as [->|Hy].
    + rewrite lookup_insert_eq in Hbc. rewrite lookup_insert_eq in Hq. injection Hbc as <-. injection Hq as <-.
      eexists. split; [by eapply arr_get_set_eq|]. done.
    + destruct (Hins _ _ Hq Hy) as [Hq' Hpq]. rewrite lookup_insert_ne in Hbc by done.
      rewrite (arr_get_set_ne _ _ _ _ _ Ecs) by done. by apply (ga_conn _ _ _ _ Hg).
  - intros q d Hn Hd. assert (p ≠ q) as Hpq by (intros ->; apply (Hn fd); by rewrite lookup_insert_eq).
    rewrite (arr_get_set_ne _ _ _ _ _ Ecs) in Hd by done. apply (ga_free _ _ _ _ Hg); [|done].
    intros y Hy. apply (Hn y). rewrite lookup_insert_ne; [done|]. intros <-. congruence.
Qed.

Lemma socket_spec g a msg es a' : gate_repr g a → len (sm_padding msg) ≤ INT_MAX → a_socket a msg = Some (es, a') →
  ∃ g', dispatch_socket_message g msg (len (sm_padding msg)) = Some (es, g') ∧ gate_repr g' a'.
Proof.
  intros (m & ss & Hg) Hpad H. unfold a_socket in H. unfold dispatch_socket_message.
  assert (∀ es : list effect, ∃ g', Some (es, g) = Some (es, g') ∧ gate_repr g' a) as Hsame.
  { intros es'. exists g. split; [done|]. by exists m, ss. }
  destruct (sm_type msg =? SKYNET_SOCKET_TYPE_DATA).
  { destruct (lookup_of_known _ _ _ _ (sm_id msg) Hg) as (id & Eid & Hid & _). rewrite Eid, Hid. unfold known.
    destruct (a_conns a !! sm_id msg) as [ac|] eqn:Eac; [|injection H as <- <-; apply Hsame].
    destruct (sm_buffer msg) as [data|]; [|done]. 
    destruct (_ && _) eqn:Hc in H; [|done]. apply andb_prop in Hc as [[Hud Hb]%andb_prop Hlen].
    apply Z.eqb_eq in Hud. apply Z.leb_le in Hlen. rewrite Hud.
    pose proof (data_spec _ _ _ _ _ _ data Hg Eac (all_bytes_spec _ Hb) Hlen) as Hd. cbv zeta in Hd.
    destruct (packages _ _ _ _ _) as [es' s']. injection H as <- <-.
    destruct Hd as (p & g' & Hp & _ & Ed & Hg'). rewrite (gate_lookup _ _ _ _ _ Hg), Hp in Eid. injection Eid as <-.
    exists g'. by split. }
  destruct (sm_type msg =? SKYNET_SOCKET_TYPE_CONNECT).
  { destruct (lookup_of_known _ _ _ _ (sm_id msg) Hg) as (id & -> & _ & ->). rewrite (ga_listen _ _ _ _ Hg).
    injection H as <- <-. destruct (sm_id msg =? a_listen a); [apply Hsame|]. destruct (known a (sm_id msg)); apply Hsame. }
  destruct (_ || _).
  { unfold known in H. destruct (a_conns a !! sm_id msg) as [ac|] eqn:Eac.
    - injection H as <- <-.
      destruct (close_spec _ _ _ _ _ _ Hg Eac) as (p & h & c & db & pool & g' & -> & H0 & Ec & Ed & Eg & Hg').
      cbn [listen_id watchdog broker client_tag header_size max_connection g_hash conn mp] in Eg |- *.
      rewrite (proj2 (Z.leb_le _ _)), Ec, Ed by done. cbv beta iota. rewrite Eg.
      exists g'. split; [|done]. destruct Hg' as (m' & ss' & Hg'). unfold _report, a_report.
      by rewrite (ga_watchdog _ _ _ _ Hg').
    - pose proof (gate_known _ _ _ _ (sm_id msg) Hg) as Hk. rewrite Eac in Hk. injection H as <- <-.
      rewrite (remove_absent _ _ (ga_hash _ _ _ _ Hg) _ Hk). destruct g. apply Hsame. }
  destruct (sm_type msg =? SKYNET_SOCKET_TYPE_ACCEPT).
  { rewrite (ga_listen _ _ _ _ Hg). destruct (a_listen a =? sm_id msg); [|done].
    unfold hashid_full. rewrite (hr_count _ _ (ga_hash _ _ _ _ Hg)), (gate_size _ _ _ _ Hg), (ga_cap _ _ _ _ Hg).
    destruct (Z.eqb_spec (Z.of_nat (size (a_conns a))) (a_max a)); [injection H as <- <-; apply Hsame|].
    destruct (_ && _) eqn:Hc in H; [|done]. apply andb_prop in Hc as [[H0 H1]%andb_prop Hkn].
    bind_inv H. rename l into text. injection H as <- <-. unfold known in Hkn.
    destruct (a_conns a !! sm_ud msg) eqn:Eac; [done|].
    destruct (accept_spec _ _ _ _ (sm_ud msg) (sm_padding msg) text Hg) as
      (p & h & c & name & name' & g' & -> & Ec & En & Ew & Eg & Et & Ewd & Hg'); [lia|lia|done..|].
    cbn [listen_id watchdog broker client_tag header_size max_connection g_hash conn mp] in Eg |- *.
    rewrite (ga_listen _ _ _ _ Hg) in Eg. rewrite Ec. unfold u64.
    rewrite Z.mod_small by (pose proof (len_nonneg (sm_padding msg)); unfold INT_MAX in *; lia).
    rewrite En, Ew, Eg, Et. exists g'. split; [|done]. unfold _report, a_report. by rewrite Ewd. }
  destruct (sm_type msg =? SKYNET_SOCKET_TYPE_WARNING); injection H as <- <-; apply Hsame.
Qed.

(** The id behind the data of a client. *)
Lemma socket_id msg : bytes msg → 4 < len msg →
  ∃ b0 b1 b2 b3, msg.[len msg - 4] = Some b0 ∧ msg.[len msg - 4 + 1] = Some b1 ∧
    msg.[len msg - 4 + 2] = Some b2 ∧ msg.[len msg - 4 + 3] = Some b3 ∧
    u32 (b0 |ᵤ b1 <<ₛ 8 |ᵤ b2 <<ₛ 16 |ᵤ b3 <<ₛ 24) = of_le (drop (Z.to_nat (len msg - 4)) msg).
Proof.
  intros Hb Hs. rewrite <- (take_drop (Z.to_nat (len msg - 4)) msg) in Hb.
  assert (∀ k, 0 ≤ k → msg.[len msg - 4 + k] = drop (Z.to_nat (len msg - 4)) msg !! Z.to_nat k) as Hget.
  { intros k Hk. rewrite lookup_drop, arr_get_nonneg by lia. f_equal. lia. }
  apply Forall_app in Hb as [_ Hb]. 
  assert (msg.[len msg - 4] = drop (Z.to_nat (len msg - 4)) msg !! 0%nat) as ->.
  { transitivity (msg.[len msg - 4 + 0]); [by rewrite Z.add_0_r|by apply (Hget 0)]. }
  rewrite !Hget by lia.
  assert (length (drop (Z.to_nat (len msg - 4)) msg) = 4%nat) as Hl by (unfold len in *; rewrite length_drop; lia).
  destruct (drop _ _) as [|b0 [|b1 [|b2 [|b3 [|]]]]]; try done. exists b0, b1, b2, b3.
  do 4 (split; [done|]). by apply word_of_bytes.
Qed.

Lemma cb_spec g a type source msg sz r es a' : gate_repr g a → a_cb skynet_queryname a type source msg sz = Some (r, es, a') →
  ∃ g', _cb skynet_queryname g type source msg sz = Some (r, es, g') ∧ gate_repr g' a'.
Proof.
  intros Hg H. unfold a_cb in H. destruct (_ && _) eqn:Hsz in H; [|done]. apply andb_prop in Hsz as [Hsz0 Hsz1].
  unfold _cb. destruct msg as [msg|msg].
  - destruct (Z.eqb_spec (len msg) sz) as [<-|]; [|done]. destruct (type =? PTYPE_TEXT).
    { bind_inv H. destruct (a_exec skynet_queryname a c) as [es1 a1] eqn:Ex. injection H as <- <- <-.
      destruct (ctrl_spec g a msg c Hg E) as (g' & Ec & Hg'). rewrite s32_small by (unfold INT_MAX in *; lia).
      rewrite Ec. rewrite Ex in *. by exists g'. }
    destruct Hg as (m & ss & Hg).
    assert (∀ es : list effect, ∀ r : Z, ∃ g', Some (r, es, g) = Some (r, es, g') ∧ gate_repr g' a) as Hsame.
    { intros es' r'. exists g. split; [done|]. by exists m, ss. }
    destruct (type =? PTYPE_CLIENT).
    { destruct (Z.leb_spec (len msg) 4) as [Hs|Hs]; [injection H as <- <- <-; apply Hsame|].
      destruct (all_bytes msg) eqn:Hb; [|done]. apply all_bytes_spec in Hb.
      destruct (socket_id msg Hb Hs) as (b0 & b1 & b2 & b3 & -> & -> & -> & -> & ->).
      set (uid := s32 (of_le _)) in *.
      destruct (lookup_of_known _ _ _ _ uid Hg) as (id & -> & -> & _).
      destruct (known a uid); injection H as <- <- <-; [|apply Hsame].
      unfold mem_read. rewrite (proj2 (Z.leb_le 0 (len msg - 4))), (proj2 (Z.leb_le (0 + (len msg - 4)) _)) by lia.
      apply Hsame. }
    destruct (type =? PTYPE_SOCKET); [done|]. injection H as <- <- <-. apply Hsame.
  - destruct (_ && _) eqn:Hc in H; [|done]. apply andb_prop in Hc as [Hc1 Hc2]. apply Z.eqb_eq in Hc1, Hc2.
    subst type. cbn. bind_inv H. destruct p as [es1 a1]. injection H as <- <- <-.
    pose proof (len_nonneg (sm_padding msg)).
    destruct (socket_spec g a msg es1 a1 Hg) as (g' & Eg & Hg'); [unfold SIZEOF_SOCKET_MESSAGE in *; lia|done|]. exists g'. split; [|done].
    replace (s32 (u64 (sz - SIZEOF_SOCKET_MESSAGE))) with (len (sm_padding msg)); [by rewrite Eg|].
    rewrite Hc1. replace (_ + _ - _) with (len (sm_padding msg)) by lia. unfold INT_MAX, SIZEOF_SOCKET_MESSAGE in *.
    rewrite u64_small, s32_small by lia. done.
Qed.

Lemma run_gate_refines inputs : ∀ g a out a', gate_repr g a → a_run skynet_queryname a inputs = Some (out, a') →
  ∃ g', run_gate skynet_queryname g inputs = Some (out, g') ∧ gate_repr g' a'.
Proof.
  induction inputs as [|[[[type source] msg] sz] inputs IH]; intros g a out a' Hg H; cbn [a_run run_gate] in *.
  - injection H as <- <-. eauto.
  - bind_inv H. destruct p as [[r es] a1]. destruct (cb_spec _ _ _ _ _ _ _ _ _ Hg E) as (g1 & -> & Hg1).
    bind_inv H. destruct p as [out1 a2]. injection H as <- <-.
    destruct (IH _ _ _ _ Hg1 E0) as (g2 & -> & Hg2). eauto.
Qed.

Context (skynet_socket_listen : list Z → Z → Z → Z).

(** The gate after a successful initialisation: no connections. *)
Definition a_initial (g : gate) : agate :=
  AGate (listen_id g) (watchdog g) (broker g) (client_tag g) (header_size g) (max_connection g) ∅.

Lemma start_listen_spec g binding r es g' : start_listen skynet_socket_listen g binding = Some (r, es, g') →
  g' = g <| listen_id := listen_id g' |>.
Proof.
  unfold start_listen. intros H.
  destruct (strrchr binding 58); bind_inv H; (destruct (_ <=? 0); [injection H as _ _ <-; by destruct g|]);
    (destruct (_ <? 0); injection H as _ _ <-; reflexivity).
Qed.

Lemma init_spec_gate parm es g : gate_init skynet_queryname skynet_socket_listen gate_create (Some parm) = Some (0, es, g) →
  max_connection g ≤ 2 ^ 30 → gate_repr g (a_initial g).
Proof.
  unfold gate_init. destruct (scan_parm parm) as [[[[[n header] wd] binding] tag] max].
  destruct (n <? 4); [done|]. destruct (Z.leb_spec max 0) as [|Hmax]; [done|]. destruct (_ && _); [done|].
  intros H. bind_inv H. destruct (if z =? 33 then (0, true) else _) as [w ok] eqn:Ew. destruct ok; [|by destruct w].
  cbn [negb] in H. bind_inv H. pose proof (start_listen_spec _ _ _ _ _ H) as Eg. clear H.
  cbn [listen_id watchdog broker client_tag header_size max_connection g_hash conn mp gate_create] in Eg.
  intros Hle. rewrite Eg in Hle |- *. cbn [max_connection] in Hle. clear Eg.
  destruct (Hashid.init_spec max) as (h' & Eh & Hcap & Hh); [lia|]. assert (h' = h) as -> by congruence.
  exists ∅, (replicate (Z.to_nat max) stream_zero).
  split; cbn [listen_id watchdog broker client_tag header_size max_connection g_hash conn mp a_initial a_listen a_watchdog a_broker a_tag a_header a_max a_conns]; try done.
  - destruct (header =? 83); [by left|by right].
  - apply len_replicate. lia.
  - intros x. by rewrite !lookup_empty.
  - cbn [mp gate_create]. assert (∀ n c, map buffer (replicate n c) = replicate n (buffer c)) as -> by (intros n1 c; induction n1 as [|n1 IH]; [done|cbn; by rewrite IH]).
    apply world_init.
  - apply Forall_replicate. constructor.
  - intros p c _ Hc. pose proof (arr_get_Some _ _ _ Hc) as Hp. rewrite arr_get_nonneg in Hc by lia. rewrite arr_get_nonneg by lia.
    apply lookup_replicate in Hc as [-> Hlt]. split; [done|]. by apply lookup_replicate.
Qed.

End Handlers.

(** ** Properties *)


Definition demo_socket (type id ud : Z) (buffer : option (list Z)) (padding : list Z) : Z * Z * content * Z :=
  (PTYPE_SOCKET, 0, SocketMessage {| sm_type := type; sm_id := id; sm_ud := ud; sm_buffer := buffer; sm_padding := padding |},
   SIZEOF_SOCKET_MESSAGE + len padding).
Definition demo_data (id : Z) (data : list Z) := demo_socket SKYNET_SOCKET_TYPE_DATA id (len data) (Some data) [].
Definition demo_text (s : string) : Z * Z * content * Z := (PTYPE_TEXT, 0, Bytes (str s), len (str s)).

Definition demo_inputs :=
  [demo_socket SKYNET_SOCKET_TYPE_ACCEPT 7 100 None (str "10.0.0.1:99");
   demo_data 100 [0; 3; 65]; demo_data 100 [66; 67; 0; 0; 0; 1; 68];
   demo_text "forward 100 :1a :2"; demo_data 100 [0; 1; 69]; demo_text "kick 100";
   (PTYPE_CLIENT, 5, Bytes [1; 2; 100; 0; 0; 0], 6);
   demo_socket SKYNET_SOCKET_TYPE_CLOSE 100 0 None []; demo_data 100 [0; 1; 69]].

