(* ===== verification/Kernel.v ===== *)
(** * Code that calls the operating system

    A function that makes system calls runs in a monad over its state.  It ends
    with a value and a state, it stops, when the environment gives no further
    answer to a call (or gives one no system gives), or it aborts, on a failed
    [assert] or an access outside an object.  [wp m Q s]: run from [s], [m] does
    not abort, and if it ends [Q] holds of its value and state. *)

From S2P Require Import Prelude.

Inductive outcome (A : Type) := Ok (x : A) | Stop | Abort.
Arguments Ok {A} x.
Arguments Stop {A}.
Arguments Abort {A}.

Definition M (S A : Type) : Type := S → outcome (A * S).

Section Monad.
Context {S : Type}.

Definition ret {A} (x : A) : M S A := λ s, Ok (x, s).
Definition stop {A} : M S A := λ _, Stop.
Definition abort {A} : M S A := λ _, Abort.
Definition bind {A B} (m : M S A) (k : A → M S B) : M S B := λ s,
  match m s with Ok (x, s) => k x s | Stop => Stop | Abort => Abort end.
Definition get : M S S := λ s, Ok (s, s).
Definition put (s : S) : M S unit := λ _, Ok (tt, s).
Definition must {A} (o : option A) : M S A := match o with Some x => ret x | None => abort end.
Definition require (b : bool) : M S unit := if b then ret tt else abort.

(** ** Weakest preconditions *)

Definition wp {A} (m : M S A) (Q : A → S → Prop) : S → Prop := λ s,
  match m s with Ok (x, s) => Q x s | Stop => True | Abort => False end.

Lemma wp_ret {A} (x : A) Q s : Q x s → wp (ret x) Q s.
Proof. done. Qed.

Lemma wp_stop {A} (Q : A → S → Prop) s : wp stop Q s.
Proof. done. Qed.

Lemma wp_bind {A B} (m : M S A) (k : A → M S B) Q s : wp m (λ x, wp (k x) Q) s → wp (bind m k) Q s.
Proof. unfold wp, bind. by destruct (m s) as [[x s']| |]. Qed.

Lemma wp_mono {A} (m : M S A) (Q Q' : A → S → Prop) s : wp m Q s → (∀ x s, Q x s → Q' x s) → wp m Q' s.
Proof. unfold wp. destruct (m s) as [[x s']| |]; auto. Qed.

Lemma wp_and {A} (m : M S A) (Q Q' : A → S → Prop) s : wp m Q s → wp m Q' s → wp m (λ x s, Q x s ∧ Q' x s) s.
Proof. unfold wp. destruct (m s) as [[x s']| |]; auto. Qed.

Lemma wp_get Q s : Q s s → wp get Q s.
Proof. done. Qed.

Lemma wp_put Q s s' : Q tt s' → wp (put s') Q s.
Proof. done. Qed.

Lemma wp_must {A} (o : option A) x Q s : o = Some x → Q x s → wp (must o) Q s.
Proof. by intros ->. Qed.

Lemma wp_require b Q s : b = true → Q tt s → wp (require b) Q s.
Proof. by intros ->. Qed.

(** What a run that ended did. *)
Lemma wp_Ok {A} (m : M S A) Q s x s' : wp m Q s → m s = Ok (x, s') → Q x s'.
Proof. unfold wp. intros H E. by rewrite E in H. Qed.

Lemma wp_no_abort {A} (m : M S A) Q s : wp m Q s → m s ≠ Abort.
Proof. unfold wp. intros H E. by rewrite E in H. Qed.

(** ** Runs that end *)

(** Run from [s], [m] ends, and [Q] holds of its value and state. *)
Definition twp {A} (m : M S A) (Q : A → S → Prop) : S → Prop := λ s,
  match m s with Ok (x, s) => Q x s | _ => False end.

Lemma twp_ret {A} (x : A) (Q : A → S → Prop) s : Q x s → twp (ret x) Q s.
Proof. done. Qed.

Lemma twp_bind {A B} (m : M S A) (k : A → M S B) Q s : twp m (λ x, twp (k x) Q) s → twp (bind m k) Q s.
Proof. unfold twp, bind. by destruct (m s) as [[x s']| |]. Qed.

Lemma twp_bind_inv {A B} (m : M S A) (k : A → M S B) Q s : twp (bind m k) Q s → twp m (λ x, twp (k x) Q) s.
Proof. unfold twp, bind. by destruct (m s) as [[x s']| |]. Qed.

Lemma twp_mono {A} (m : M S A) (Q Q' : A → S → Prop) s : twp m Q s → (∀ x s, Q x s → Q' x s) → twp m Q' s.
Proof. unfold twp. destruct (m s) as [[x s']| |]; auto. Qed.

Lemma twp_must {A} (o : option A) x (Q : A → S → Prop) s : o = Some x → Q x s → twp (must o) Q s.
Proof. by intros ->. Qed.

Lemma twp_Ok {A} (m : M S A) (Q : A → S → Prop) s : twp m Q s → ∃ x s', m s = Ok (x, s') ∧ Q x s'.
Proof. unfold twp. destruct (m s) as [[x s']| |]; [eauto|done..]. Qed.

End Monad.

Notation "x ⟵ m ; k" := (bind m (λ x, k))
  (at level 20, m at level 100, k at level 200, only parsing) : skynet_scope.
Notation "' x ⟵ m ; k" := (bind m (λ x, k))
  (at level 20, x pattern, m at level 100, k at level 200, only parsing) : skynet_scope.
Notation "m ;; k" := (bind m (λ _, k)) (at level 100, k at level 200, right associativity, only parsing) : skynet_scope.
