(* ===== verification/Cluster.v ===== *)
(** * Messages between clusters: lualib-src/lua-cluster.c

    Requests and responses are packages with a 16-bit big-endian length; a message of 32 KB
    or more goes in several.  The functions are called from Lua: an
    argument or a result on the Lua stack is a constructor of a type, [luaL_error] is
    an [Error].  Messages are blocks of a heap, which the functions allocate and
    free.  [agent] is the receiving service clusteragent.lua, as far as it collects
    the parts of requests. *)

From S2P Require Import Prelude Kernel.

Definition TEMP_LENGTH : Z := 0x8200.
Definition MULTI_PART : Z := 0x8000.

(** ** The heap *)

(** Pointers are never given out twice. *)
Record heap := Heap { blocks : gmap positive block; brk : positive }.

(** The results of [malloc] and of a call that can raise an error. *)
Definition lua (A : Type) : Type := M heap (result A).

Definition raise {A} (msg : string) : lua A := ret (Error msg).
Definition done_with {A} (x : A) : lua A := ret (Return x).

Definition skynet_malloc (b : block) : M heap Z := λ h,
  Ok (Z.pos (brk h), Heap (<[brk h := b]> (blocks h)) (Pos.succ (brk h))).

Definition skynet_free (p : Z) : M heap unit := λ h,
  match p with
  | Zpos p => match blocks h !! p with
              | Some _ => Ok (tt, Heap (delete p (blocks h)) (brk h))
              | None => Abort
              end
  | _ => Abort
  end.

Definition load (p : Z) : M heap block := λ h,
  match p with
  | Zpos p => match blocks h !! p with Some b => Ok (b, h) | None => Abort end
  | _ => Abort
  end.

(** ** Packing requests *)

(** The value of [lua_tointeger], or a string, or anything else. *)
Inductive address := ANumber (n : Z) | AName (s : list Z) | AOther.

Definition fill_uint32 (buf : block) (off n : Z) : option block :=
  buf ← buf.[off <- Some (n &ᵤ 0xff)];
  buf ← buf.[off + 1 <- Some (n >>ᵤ 8 &ᵤ 0xff)];
  buf ← buf.[off + 2 <- Some (n >>ᵤ 16 &ᵤ 0xff)];
  buf.[off + 3 <- Some (n >>ᵤ 24 &ᵤ 0xff)].

Definition fill_header (buf : block) (sz : Z) : option block :=
  assert! sz <? 0x10000;
  buf ← buf.[0 <- Some (Z.shiftr sz 8 &ᵤ 0xff)];
  buf.[1 <- Some (sz &ᵤ 0xff)].

(** The number of parts, or 0, and the package. *)
Definition packreq_number (addr session : Z) (msg : block) (sz : Z) (is_push : bool) : option (Z * block) :=
  let addr := u32 addr in
  let buf := malloc TEMP_LENGTH in
  if sz <? MULTI_PART then
    buf ← fill_header buf (s32 (u32 (sz + 9)));
    buf ← buf.[2 <- Some 0];
    buf ← fill_uint32 buf 3 addr;
    buf ← fill_uint32 buf 7 (if is_push then 0 else u32 session);
    data ← mem_read msg 0 sz;
    buf ← mem_write buf 11 data;
    pkg ← mem_read buf 0 (u32 (sz + 11));
    Some (0, pkg)
  else
    let part := (sz - 1) / MULTI_PART + 1 in
    buf ← fill_header buf 13;
    buf ← buf.[2 <- Some (if is_push then 0x41 else 1)];
    buf ← fill_uint32 buf 3 addr;
    buf ← fill_uint32 buf 7 (u32 session);
    buf ← fill_uint32 buf 11 sz;
    pkg ← mem_read buf 0 15;
    Some (part, pkg).

(** The body of [packreq_string] behind the checks of the name. *)
Definition packreq_name (name : list Z) (session : Z) (msg : block) (sz : Z) (is_push : bool) : option (Z * block) :=
  let namelen := len name in
  let buf := malloc TEMP_LENGTH in
  if sz <? MULTI_PART then
    buf ← fill_header buf (s32 (sz + 6 + namelen));
    buf ← buf.[2 <- Some 0x80];
    buf ← buf.[3 <- Some (u8 namelen)];
    buf ← mem_write buf 4 (map Some name);
    buf ← fill_uint32 buf (4 + namelen) (if is_push then 0 else u32 session);
    data ← mem_read msg 0 sz;
    buf ← mem_write buf (8 + namelen) data;
    pkg ← mem_read buf 0 (sz + 8 + namelen);
    Some (0, pkg)
  else
    let part := (sz - 1) / MULTI_PART + 1 in
    buf ← fill_header buf (s32 (10 + namelen));
    buf ← buf.[2 <- Some (if is_push then 0xc1 else 0x81)];
    buf ← buf.[3 <- Some (u8 namelen)];
    buf ← mem_write buf 4 (map Some name);
    buf ← fill_uint32 buf (4 + namelen) (u32 session);
    buf ← fill_uint32 buf (8 + namelen) sz;
    pkg ← mem_read buf 0 (12 + namelen);
    Some (part, pkg).

(** [msgp] is freed before an error is raised. *)
Definition packreq_string (addr : address) (session msgp sz : Z) (is_push : bool) : lua (Z * block) :=
  match addr with
  | AName name =>
      if (len name <? 1) || (255 <? len name) then
        skynet_free msgp;; raise "name is too long"
      else
        msg ⟵ load msgp;
        r ⟵ must (packreq_name name session msg sz is_push);
        done_with r
  | _ => skynet_free msgp;; raise "name is not a string"
  end.

(** The loop: [sz] bytes are left from offset [ptr] of the message on; the strings
    so far; the buffer. *)
Definition packreq_multi (session : Z) (msg : block) (sz : Z) : option (list block) :=
  let part := (sz - 1) / MULTI_PART + 1 in
  '(_, _, _, out) ← for_range 0 part (λ i '(buf, sz, ptr, out),
    let '(s, kind) := if MULTI_PART <? sz then (MULTI_PART, 2) else (sz, 3) in
    buf ← buf.[2 <- Some kind];
    buf ← fill_header buf (s32 (u32 (s + 5)));
    buf ← fill_uint32 buf 3 (u32 session);
    data ← mem_read msg ptr s;
    buf ← mem_write buf 7 data;
    str ← mem_read buf 0 (u32 (s + 7));
    Some (buf, u32 (sz - s), ptr + s, out ++ [str])) (malloc TEMP_LENGTH, sz, 0, []);
  Some out.

Definition INT32_MAX : Z := 2 ^ 31 - 1.

Definition next_session (session : Z) : Z :=
  let new_session := u32 (u32 session + 1) in
  if INT32_MAX <? new_session then 1 else new_session.

(** The package, the next session, and the table of parts. *)
Definition packrequest (addr : address) (session msgp sz : Z) (is_push : bool) : lua (block * Z * option (list block)) :=
  if msgp =? 0 then raise "Invalid request message"
  else
    let sz := u32 sz in
    let session := s32 session in
    if session <=? 0 then
      skynet_free msgp;; raise "Invalid request session"
    else
      r ⟵ match addr with
          | ANumber n =>
              msg ⟵ load msgp;
              r ⟵ must (packreq_number n session msg sz is_push);
              done_with r
          | _ => packreq_string addr session msgp sz is_push
          end;
      match r with
      | Error e => raise e
      | Return (multipak, pkg) =>
          if truth multipak then
            msg ⟵ load msgp;
            parts ⟵ must (packreq_multi session msg sz);
            skynet_free msgp;;
            done_with (pkg, next_session session, Some parts)
          else
            skynet_free msgp;;
            done_with (pkg, next_session session, None)
      end.

Definition lpacktrace (tag : list Z) : option (result block) :=
  let sz := len tag in
  if 0x8000 <? sz then Some (Error "trace tag is too long")
  else
    let buf := malloc TEMP_LENGTH in
    buf ← buf.[2 <- Some 4];
    buf ← fill_header buf (sz + 1);
    buf ← mem_write buf 3 (map Some tag);
    pkg ← mem_read buf 0 (sz + 3);
    Some (Return pkg).

(** ** Unpacking requests *)

Definition unpack_uint32 (buf : list Z) (off : Z) : option Z :=
  a ← buf.[off]; b ← buf.[off + 1]; c ← buf.[off + 2]; d ← buf.[off + 3];
  Some (u32 (a |ᵤ b <<ₛ 8 |ᵤ c <<ₛ 16 |ᵤ d <<ₛ 24)).

Definition return_buffer (buf : list Z) (off sz : Z) : M heap Z :=
  data ⟵ must (mem_read buf off sz);
  skynet_malloc (map Some data).

(** The results: a request in one package, the head of one in parts, a part of one
    ([padding]: more will come), a trace tag. *)
Inductive unpacked :=
| Single (addr : address) (session msg sz : Z) (is_push : bool)
| Multi (addr : address) (session size : Z) (is_push : bool)
| Part (session msg sz : Z) (padding : bool)
| Trace (tag : list Z).

Definition unpackreq_number (buf : list Z) (sz : Z) : lua unpacked :=
  if sz <? 9 then raise "Invalid cluster message"
  else
    address ⟵ must (unpack_uint32 buf 1);
    session ⟵ must (unpack_uint32 buf 5);
    msg ⟵ return_buffer buf 9 (sz - 9);
    done_with (Single (ANumber address) session msg (sz - 9) (session =? 0)).

Definition unpackmreq_number (buf : list Z) (sz : Z) (is_push : bool) : lua unpacked :=
  if negb (sz =? 13) then raise "Invalid cluster message size"
  else
    address ⟵ must (unpack_uint32 buf 1);
    session ⟵ must (unpack_uint32 buf 5);
    size ⟵ must (unpack_uint32 buf 9);
    done_with (Multi (ANumber address) session size is_push).

Definition unpackmreq_part (buf : list Z) (sz : Z) : lua unpacked :=
  if sz <? 5 then raise "Invalid cluster multi part message"
  else
    kind ⟵ must buf.[0];
    session ⟵ must (unpack_uint32 buf 1);
    msg ⟵ return_buffer buf 5 (sz - 5);
    done_with (Part session msg (sz - 5) (kind =? 2)).

Definition unpacktrace (buf : list Z) (sz : Z) : lua unpacked :=
  tag ⟵ must (mem_read buf 1 (sz - 1));
  done_with (Trace tag).

Definition unpackreq_string (buf : list Z) (sz : Z) : lua unpacked :=
  if sz <? 2 then raise "Invalid cluster message"
  else
    namesz ⟵ must buf.[1];
    if sz <? namesz + 6 then raise "Invalid cluster message"
    else
      name ⟵ must (mem_read buf 2 namesz);
      session ⟵ must (unpack_uint32 buf (namesz + 2));
      msg ⟵ return_buffer buf (2 + namesz + 4) (sz - namesz - 6);
      done_with (Single (AName name) session msg (sz - namesz - 6) (session =? 0)).

Definition unpackmreq_string (buf : list Z) (sz : Z) (is_push : bool) : lua unpacked :=
  if sz <? 2 then raise "Invalid cluster message"
  else
    namesz ⟵ must buf.[1];
    if sz <? namesz + 10 then raise "Invalid cluster message"
    else
      name ⟵ must (mem_read buf 2 namesz);
      session ⟵ must (unpack_uint32 buf (namesz + 2));
      size ⟵ must (unpack_uint32 buf (namesz + 6));
      done_with (Multi (AName name) session size is_push).

(** [msg[0]] as the byte it is; [sz] bytes of [msg] are the package. *)
Definition unpackrequest (msg : list Z) (sz : Z) : lua unpacked :=
  kind ⟵ must msg.[0];
  match kind with
  | 0 => unpackreq_number msg sz
  | 1 => unpackmreq_number msg sz false
  | 0x41 => unpackmreq_number msg sz true
  | 2 | 3 => unpackmreq_part msg sz
  | 4 => unpacktrace msg sz
  | 0x80 => unpackreq_string msg sz
  | 0x81 => unpackmreq_string msg sz false
  | 0xc1 => unpackmreq_string msg sz true
  | _ => raise "Invalid req package type"
  end.

(** A Lua string has a zero behind its bytes. *)
Inductive package := LString (s : list Z) | LUserdata (buf : list Z) (sz : Z).

Definition lunpackrequest (p : package) : lua unpacked :=
  match p with
  | LString s => unpackrequest (s ++ [0]) (s32 (len s))
  | LUserdata buf sz => unpackrequest buf (s32 sz)
  end.

(** ** Responses *)

(** A string, or a pointer and a size. *)
Inductive payload := PString (s : list Z) | PUserdata (p sz : Z).

Definition packresponse_multi (session : Z) (msg : block) (sz : Z) : option (list block) :=
  let part := s32 ((sz - 1) / MULTI_PART + 1) in
  let buf := malloc TEMP_LENGTH in
  buf ← fill_header buf 9;
  buf ← fill_uint32 buf 2 session;
  buf ← buf.[6 <- Some 2];
  buf ← fill_uint32 buf 7 (u32 sz);
  begin ← mem_read buf 0 11;
  '(_, _, _, out) ← for_range 0 part (λ i '(buf, sz, ptr, out),
    let '(s, kind) := if MULTI_PART <? sz then (MULTI_PART, 3) else (s32 sz, 4) in
    buf ← buf.[6 <- Some kind];
    buf ← fill_header buf (s + 5);
    buf ← fill_uint32 buf 2 session;
    data ← mem_read msg ptr s;
    buf ← mem_write buf 7 data;
    str ← mem_read buf 0 (s + 7);
    Some (buf, u64 (sz - s), ptr + s, out ++ [str])) (buf, sz, 0, [begin]);
  Some out.

(** The packages: the string, or the strings of the table, that is returned. *)
Definition packresponse (session : Z) (ok : bool) (msg : block) (sz : Z) : option (list block) :=
  let session := u32 session in
  if ok && (MULTI_PART <? sz) then packresponse_multi session msg sz
  else
    let sz := if ok then sz else Z.min sz MULTI_PART in
    let buf := malloc TEMP_LENGTH in
    buf ← fill_header buf (s32 (sz + 5));
    buf ← fill_uint32 buf 2 session;
    buf ← buf.[6 <- Some (of_bool ok)];
    data ← mem_read msg 0 sz;
    buf ← mem_write buf 7 data;
    str ← mem_read buf 0 (sz + 7);
    Some [str].

Definition lpackresponse (session : Z) (ok : bool) (p : payload) : M heap (list block) :=
  match p with
  | PString s => must (packresponse session ok (map Some s) (len s))
  | PUserdata p sz =>
      msg ⟵ (if p =? 0 then ret [] else load p);
      must (packresponse session ok msg (u64 sz))
  end.

(** The data of a response, or the size of one in parts; [None] is no result. *)
Inductive response :=
| Data (session : Z) (ok : bool) (msg : list Z) (padding : bool)
| Begin (session size : Z).

Definition lunpackresponse (s : list Z) : option (option response) :=
  let buf := s ++ [0] in
  let sz := len s in
  if sz <? 5 then Some None
  else
    session ← unpack_uint32 buf 0;
    kind ← buf.[4];
    match kind with
    | 0 => msg ← mem_read buf 5 (sz - 5); Some (Some (Data session false msg false))
    | 1 | 4 => msg ← mem_read buf 5 (sz - 5); Some (Some (Data session true msg false))
    | 2 => if negb (sz =? 9) then Some None
           else size ← unpack_uint32 buf 5; Some (Some (Begin session size))
    | 3 => msg ← mem_read buf 5 (sz - 5); Some (Some (Data session true msg true))
    | _ => Some None
    end.

(** ** Putting parts together *)

(** An element of a Lua array. *)
Inductive slot := SNumber (n : Z) | SString (b : block).

(** [msg] is nil where it is [None]. *)
Definition lappend (t : list slot) (msg : option Z) (sz : Z) : lua (list slot) :=
  match msg with
  | None => done_with (t ++ [SNumber sz])
  | Some p =>
      if p =? 0 then raise "Need lightuserdata"
      else
        b ⟵ load p;
        s ⟵ must (mem_read b 0 (s32 sz));
        skynet_free p;;
        done_with (t ++ [SString s])
  end.

(** The loop from the second element on; [None]: more strings than [sz] bytes. *)
Fixpoint concat_loop (t : list slot) (buff : block) (offset sz : Z) : option (option (block * Z)) :=
  match t with
  | SString str :: t =>
      let s := len str in
      if sz <? s + offset then Some None
      else
        buff ← mem_write buff offset str;
        concat_loop t buff (offset + s) sz
  | _ => Some (Some (buff, offset))
  end.

(** [skynet_malloc] of a negative size stops the process. *)
Definition lconcat (t : list slot) : M heap (option (Z * Z)) :=
  match t with
  | SNumber n :: t =>
      let sz := s32 n in
      require (0 <=? sz);;
      buff ⟵ skynet_malloc (malloc sz);
      r ⟵ must (concat_loop t (malloc sz) 0 sz);
      match r with
      | Some (b, offset) =>
          if offset =? sz then
            (λ h, match buff with
                  | Zpos p => Ok (Some (buff, sz), Heap (<[p := b]> (blocks h)) (brk h))
                  | _ => Abort
                  end)
          else skynet_free buff;; ret None
      | None => skynet_free buff;; ret None
      end
  | _ => ret None
  end.

Definition lisname (s : option (list Z)) : bool :=
  match s with Some (64 :: _) => true | _ => false end.

(** ** The receiver of requests *)

(** An entry of [large_request]. *)
Record large := Large { lr_addr : address; lr_push : bool; lr_parts : list slot }.

(** What [dispatch_request] goes on to do. *)
Inductive action :=
| Wait
| Call (addr : address) (session : Z) (is_push : bool) (msg sz : Z)
| Invalid (session : Z).

Abbreviation large_requests := (gmap Z large).

(** [padding] set: the request is kept. *)
Definition keep_part (st : large_requests) (addr : address) (session : Z) (is_push : bool)
    (msg : option Z) (sz : Z) : lua (action * large_requests) :=
  let req := default (Large addr is_push []) (st !! session) in
  t ⟵ lappend (lr_parts req) msg sz;
  match t with
  | Error e => raise e
  | Return t => done_with (Wait, <[session := Large (lr_addr req) (lr_push req) t]> st)
  end.

Definition last_part (st : large_requests) (addr : address) (session : Z) (is_push : bool)
    (msg sz : Z) : lua (action * large_requests) :=
  match st !! session with
  | None => done_with (Call addr session is_push msg sz, st)
  | Some req =>
      t ⟵ lappend (lr_parts req) (Some msg) sz;
      match t with
      | Error e => raise e
      | Return t =>
          r ⟵ lconcat t;
          match r with
          | Some (msg, sz) => done_with (Call (lr_addr req) session (lr_push req) msg sz, delete session st)
          | None => done_with (Invalid session, delete session st)
          end
      end
  end.

Definition dispatch_request (st : large_requests) (u : unpacked) : lua (action * large_requests) :=
  match u with
  | Trace _ => done_with (Wait, st)
  | Multi addr session size is_push => keep_part st addr session is_push None size
  | Part session msg sz true => keep_part st AOther session false (Some msg) sz
  | Part session msg sz false => last_part st AOther session false msg sz
  | Single addr session msg sz is_push => last_part st addr session is_push msg sz
  end.

(** One package of the connection, without its header. *)
Definition agent (st : large_requests) (body : list Z) : lua (action * large_requests) :=
  u ⟵ lunpackrequest (LString body);
  match u with
  | Error e => raise e
  | Return u => dispatch_request st u
  end.

(** The packages of a connection, one after the other. *)
Fixpoint agent_run (st : large_requests) (bodies : list (list Z)) : lua (list action * large_requests) :=
  match bodies with
  | [] => done_with ([], st)
  | body :: bodies =>
      r ⟵ agent st body;
      match r with
      | Error e => raise e
      | Return (a, st) =>
          r ⟵ agent_run st bodies;
          match r with
          | Error e => raise e
          | Return (l, st) => done_with (a :: l, st)
          end
      end
  end.

(** ** What goes over the wire *)

Definition frame (body : list Z) : list Z := len body / 256 :: len body mod 256 :: body.

Definition address_bytes (number name : Z) (addr : address) : list Z :=
  match addr with
  | ANumber n => number :: le_bytes 4 n
  | AName s => name :: len s :: s
  | AOther => []
  end.

(** A request to send: the data are the bytes of its message. *)
Record request := Request { rq_addr : address; rq_session : Z; rq_push : bool; rq_data : list Z }.

Definition multi (r : request) : bool := MULTI_PART <=? len (rq_data r).

(** The session that the package carries. *)
Definition wire_session (r : request) : Z := if rq_push r && negb (multi r) then 0 else rq_session r.

Definition single_body (r : request) : list Z :=
  address_bytes 0 0x80 (rq_addr r) ++ le_bytes 4 (wire_session r) ++ rq_data r.

Definition head_body (r : request) : list Z :=
  (if rq_push r then address_bytes 0x41 0xc1 (rq_addr r) else address_bytes 1 0x81 (rq_addr r)) ++
  le_bytes 4 (rq_session r) ++ le_bytes 4 (len (rq_data r)).

Definition part_body (kind session : Z) (d : list Z) : list Z := kind :: le_bytes 4 session ++ d.

(** [n] parts of the data [d], all but the last as large as they can be. *)
Fixpoint cut {A} (more last : list Z → A) (n : nat) (d : list Z) : list A :=
  match n with
  | O => []
  | S O => [last d]
  | S n => more (take (Z.to_nat MULTI_PART) d) :: cut more last n (drop (Z.to_nat MULTI_PART) d)
  end.

Definition part_bodies (session : Z) : nat → list Z → list (list Z) :=
  cut (part_body 2 session) (part_body 3 session).

Definition parts_of (d : list Z) : nat := Z.to_nat ((len d - 1) / MULTI_PART + 1).

Definition bodies (r : request) : list (list Z) :=
  if multi r then head_body r :: part_bodies (rq_session r) (parts_of (rq_data r)) (rq_data r)
  else [single_body r].

Definition address_ok (addr : address) : Prop :=
  match addr with
  | ANumber n => 0 ≤ n < 2 ^ 32
  | AName s => 1 ≤ len s ≤ 255 ∧ bytes s
  | AOther => False
  end.

(** Messages of 2 GB and more are not put together: [lconcat] takes their size for negative. *)
Record request_ok (r : request) : Prop := {
  ro_addr : address_ok (rq_addr r);
  ro_session : 0 < rq_session r < 2 ^ 31;
  ro_data : bytes (rq_data r);
  ro_size : len (rq_data r) < 2 ^ 31
}.

(** ** Writing packages *)

Lemma filled_uint32 n buf out off x : filled n buf out → off = len out → off + 4 ≤ n →
  ∃ buf', fill_uint32 buf off x = Some buf' ∧ filled n buf' (out ++ le_bytes 4 x).
Proof.
  intros Hf -> Hn. unfold fill_uint32.
  destruct (filled_set n buf out (Z.land x 0xff) (len out)) as (b1 & -> & H1); [done|done|lia|].
  destruct (filled_set n b1 _ (Z.land (Z.shiftr x 8) 0xff) (len out + 1) H1) as (b2 & -> & H2); [lens|lia|].
  destruct (filled_set n b2 _ (Z.land (Z.shiftr x 16) 0xff) (len out + 2) H2) as (b3 & -> & H3); [lens|lia|].
  destruct (filled_set n b3 _ (Z.land (Z.shiftr x 24) 0xff) (len out + 3) H3) as (b4 & -> & H4); [lens|lia|].
  exists b4. split; [done|]. rewrite <- word_cells. by rewrite <- !app_assoc in H4.
Qed.

Lemma filled_header n buf sz : filled n buf [] → 0 ≤ sz < 0x10000 → 2 ≤ n →
  ∃ buf', fill_header buf sz = Some buf' ∧ filled n buf' [sz / 256; sz mod 256].
Proof.
  intros Hf Hs Hn. unfold fill_header. rewrite (proj2 (Z.ltb_lt _ _)) by lia.
  destruct (filled_set n buf [] (Z.land (Z.shiftr sz 8) 0xff) 0) as (b1 & -> & H1); [done|done|lia|].
  destruct (filled_set n b1 _ (Z.land sz 0xff) 1 H1) as (b2 & -> & H2); [done|lia|].
  exists b2. split; [done|]. rewrite byte_at, low_byte in H2 by lia. cbn [app] in H2.
  change (2 ^ 8) with 256 in H2. rewrite (Z.mod_small (sz / 256)) in H2; [done|].
  split; [apply Z.div_pos; lia|apply Z.div_lt_upper_bound; lia].
Qed.

(** Advance over the next write of a package. *)
Ltac fill_step H :=
  lazymatch goal with
  | |- context [fill_header ?buf ?sz] =>
      let b := fresh "b" in let H' := fresh "H" in
      destruct (filled_header _ buf sz H) as (b & -> & H'); [lia|done|]; clear H; rename H' into H
  | |- context [fill_uint32 ?buf ?off ?x] =>
      let b := fresh "b" in let H' := fresh "H" in
      destruct (filled_uint32 _ buf _ off x H) as (b & -> & H'); [lens|lens|]; clear H; rename H' into H
  | |- context [arr_set ?buf ?k (Some ?x)] =>
      let b := fresh "b" in let H' := fresh "H" in
      destruct (filled_set _ buf _ x k H) as (b & -> & H'); [lens|lens|]; clear H; rename H' into H
  | |- context [mem_write ?buf ?k (map Some ?x)] =>
      let b := fresh "b" in let H' := fresh "H" in
      destruct (filled_write _ buf _ x k H) as (b & -> & H'); [lens|lens|]; clear H; rename H' into H
  end.

Lemma packreq_number_ok n session d push : 0 ≤ n < 2 ^ 32 → 0 < session < 2 ^ 31 → len d < 2 ^ 32 →
  let r := Request (ANumber n) session push d in
  packreq_number n session (map Some d) (len d) push =
    Some (if multi r then Z.of_nat (parts_of d) else 0, map Some (frame (if multi r then head_body r else single_body r))).
Proof.
  intros Hn Hs Hd r. pose proof (len_nonneg d). unfold packreq_number.
  assert (filled TEMP_LENGTH (malloc TEMP_LENGTH) []) as Hf by by apply filled_malloc.
  rewrite (u32_small n), (u32_small session) by lia. unfold multi, head_body, single_body, wire_session, multi, r. cbn [rq_data rq_addr rq_push rq_session].
  destruct (Z.ltb_spec (len d) MULTI_PART) as [Hl|Hl].
  - rewrite (proj2 (Z.leb_gt _ _) Hl). unfold MULTI_PART in Hl. rewrite u32_small, s32_small, u32_small by lia.
    rewrite (mem_read_whole (map Some d)) by (by rewrite len_map).
    assert (TEMP_LENGTH = 33280) as ET by done. do 5 fill_step Hf.
    rewrite (filled_read _ _ _ _ Hf) by lens. do 3 f_equal. unfold frame. cbn [address_bytes app negb]. rewrite andb_true_r.
    rewrite <- !app_assoc. cbn [app]. by replace (len (0 :: _)) with (len d + 9) by lens.
  - rewrite (proj2 (Z.leb_le _ _) Hl). assert (TEMP_LENGTH = 33280) as ET by done. do 5 fill_step Hf.
    rewrite (filled_read _ _ _ _ Hf) by lens. unfold parts_of. unfold MULTI_PART in *.
    rewrite Z2Nat.id by (pose proof (Z.div_pos (len d - 1) 32768); lia). do 3 f_equal.
    rewrite <- !app_assoc. unfold frame. destruct push; cbn [address_bytes app].
    + by replace (len (65 :: _)) with 13 by lens.
    + by replace (len (1 :: _)) with 13 by lens.
Qed.

Lemma packreq_name_ok s session d push : 1 ≤ len s ≤ 255 → 0 < session < 2 ^ 31 → len d < 2 ^ 32 →
  let r := Request (AName s) session push d in
  packreq_name s session (map Some d) (len d) push =
    Some (if multi r then Z.of_nat (parts_of d) else 0, map Some (frame (if multi r then head_body r else single_body r))).
Proof.
  intros Hn Hs Hd r. pose proof (len_nonneg d). unfold packreq_name.
  assert (filled TEMP_LENGTH (malloc TEMP_LENGTH) []) as Hf by by apply filled_malloc.
  assert (TEMP_LENGTH = 33280) as ET by done.
  rewrite (u32_small session), (u8_small (len s)) by lia. unfold multi, head_body, single_body, wire_session, multi, r. cbn [rq_data rq_addr rq_push rq_session].
  destruct (Z.ltb_spec (len d) MULTI_PART) as [Hl|Hl].
  - rewrite (proj2 (Z.leb_gt _ _) Hl). unfold MULTI_PART in Hl. rewrite s32_small by lia.
    rewrite (mem_read_whole (map Some d)) by (by rewrite len_map).
    do 6 fill_step Hf. rewrite (filled_read _ _ _ _ Hf) by lens. do 3 f_equal. unfold frame. cbn [address_bytes app negb].
    rewrite andb_true_r, <- !app_assoc. cbn [app]. by replace (len (128 :: _)) with (len d + 6 + len s) by lens.
  - rewrite (proj2 (Z.leb_le _ _) Hl). rewrite s32_small by lia.
    do 6 fill_step Hf.
    rewrite (filled_read _ _ _ _ Hf) by lens. unfold parts_of. unfold MULTI_PART in *.
    rewrite Z2Nat.id by (pose proof (Z.div_pos (len d - 1) 32768); lia). do 3 f_equal.
    rewrite <- !app_assoc. unfold frame. destruct push; cbn [address_bytes app].
    + by replace (len (193 :: _)) with (10 + len s) by lens.
    + by replace (len (129 :: _)) with (10 + len s) by lens.
Qed.

Lemma set_uint32 (a r : block) c0 c1 c2 c3 x k : k = len a →
  fill_uint32 (a ++ c0 :: c1 :: c2 :: c3 :: r) k x = Some (a ++ map Some (le_bytes 4 x) ++ r).
Proof.
  intros ->. unfold fill_uint32. rewrite set_cell by done.
  replace (a ++ Some (Z.land x 0xff) :: c1 :: c2 :: c3 :: r) with ((a ++ [Some (Z.land x 0xff)]) ++ c1 :: c2 :: c3 :: r) by by rewrite <- app_assoc.
  rewrite set_cell by lens.
  rewrite <- app_assoc. cbn [app].
  match goal with |- context [(a ++ ?u :: ?v :: c2 :: c3 :: r)] => change (a ++ u :: v :: c2 :: c3 :: r) with (a ++ [u; v] ++ c2 :: c3 :: r) end.
  rewrite app_assoc, set_cell by lens.
  rewrite <- app_assoc. cbn [app].
  match goal with |- context [(a ++ ?u :: ?v :: ?w :: c3 :: r)] => change (a ++ u :: v :: w :: c3 :: r) with (a ++ [u; v; w] ++ c3 :: r) end.
  rewrite app_assoc, set_cell by lens. rewrite <- app_assoc, <- word_cells. done.
Qed.

Lemma set_header (r : block) c0 c1 sz : 0 ≤ sz < 0x10000 →
  fill_header (c0 :: c1 :: r) sz = Some (Some (sz / 256) :: Some (sz mod 256) :: r).
Proof.
  intros Hs. unfold fill_header. rewrite (proj2 (Z.ltb_lt _ _)) by lia.
  rewrite (set_cell [] (c1 :: r) c0) by done. cbn [app]. rewrite (set_cell [Some (Z.land (Z.shiftr sz 8) 0xff)] r c1) by done. cbn [app].
  rewrite byte_at, low_byte by lia. change (2 ^ 8) with 256. rewrite (Z.mod_small (sz / 256)); [done|].
  split; [apply Z.div_pos; lia|apply Z.div_lt_upper_bound; lia].
Qed.

(** The first seven cells of a buffer. *)
Lemma seven_cells (buf : block) : len buf = TEMP_LENGTH →
  ∃ c0 c1 c2 c3 c4 c5 c6 r, buf = c0 :: c1 :: c2 :: c3 :: c4 :: c5 :: c6 :: r ∧ len r = TEMP_LENGTH - 7.
Proof.
  intros H. do 7 (destruct buf as [|? buf]; [exfalso; revert H; rewrite ?len_cons; change (len (@nil (option Z))) with 0; unfold TEMP_LENGTH; lia|]).
  do 8 eexists. split; [done|]. rewrite !len_cons in H. lia.
Qed.

(** The data of a part behind its seven bytes, and the string made of them. *)
Lemma part_data (h : list Z) (r : block) d : len h = 7 → len d ≤ len r →
  ∃ r', mem_write (map Some h ++ r) 7 (map Some d) = Some (map Some (h ++ d) ++ r') ∧ len r' = len r - len d ∧
    mem_read (map Some (h ++ d) ++ r') 0 (len d + 7) = Some (map Some (h ++ d)).
Proof.
  intros Hh Hd. exists (drop (length d) r). split; [|split].
  - rewrite <- (take_drop (length d) r) at 1. rewrite mem_write_app; [by rewrite map_app, <- app_assoc|by rewrite len_map|].
    rewrite len_map. unfold len in *. rewrite length_take. lia.
  - unfold len in *. rewrite length_drop. lia.
  - apply mem_read_prefix. lens.
Qed.

Lemma frame_part kind session d : map Some (frame (part_body kind session d)) =
  map Some ([(len d + 5) / 256; (len d + 5) mod 256; kind] ++ le_bytes 4 session ++ d).
Proof. unfold frame, part_body. by replace (len (kind :: _)) with (len d + 5) by lens. Qed.

(** One round of [packreq_multi]. *)
Lemma request_part buf kind session d : len buf = TEMP_LENGTH → len d ≤ MULTI_PART →
  ∃ buf', len buf' = TEMP_LENGTH ∧
    (buf ← buf.[2 <- Some kind];
     buf ← fill_header buf (len d + 5);
     buf ← fill_uint32 buf 3 session;
     buf ← mem_write buf 7 (map Some d);
     str ← mem_read buf 0 (len d + 7);
     Some (buf, str)) = Some (buf', map Some (frame (part_body kind session d))).
Proof.
  intros Hb Hd. pose proof (len_nonneg d). destruct (seven_cells buf Hb) as (c0 & c1 & c2 & c3 & c4 & c5 & c6 & r & -> & Hr).
  unfold MULTI_PART, TEMP_LENGTH in *. rewrite (set_cell [c0; c1] (c3 :: c4 :: c5 :: c6 :: r) c2) by done. cbn [app]. rewrite set_header by lia.
  rewrite (set_uint32 [Some ((len d + 5) / 256); Some ((len d + 5) mod 256); Some kind] r c3 c4 c5 c6) by done.
  destruct (part_data ([(len d + 5) / 256; (len d + 5) mod 256; kind] ++ le_bytes 4 session) r d) as (r' & E1 & Hr' & E2); [lens|lia|].
  rewrite map_app, <- app_assoc in E1. cbn [map] in E1. rewrite E1, E2. eexists. split; [|by rewrite frame_part, <- app_assoc].
  lens.
Qed.

Lemma parts_small d : 0 < len d ≤ MULTI_PART → parts_of d = 1%nat.
Proof. intros H. unfold parts_of, MULTI_PART in *. by rewrite Z.div_small by lia. Qed.

Lemma parts_large d d' : len d = MULTI_PART + len d' → 0 < len d' → parts_of d = S (parts_of d').
Proof.
  intros E H. unfold parts_of, MULTI_PART in *. rewrite E.
  replace (32768 + len d' - 1) with (len d' - 1 + 1 * 32768) by lia. rewrite Z.div_add by lia.
  pose proof (Z.div_pos (len d' - 1) 32768). lia.
Qed.

(** The first part of data that need more than one. *)
Lemma split_part (d : list Z) : MULTI_PART < len d → ∃ p d', d = p ++ d' ∧ len p = MULTI_PART ∧ 0 < len d' ∧
  take (Z.to_nat MULTI_PART) d = p ∧ drop (Z.to_nat MULTI_PART) d = d'.
Proof.
  intros H. exists (take (Z.to_nat MULTI_PART) d), (drop (Z.to_nat MULTI_PART) d). split; [by rewrite take_drop|].
  unfold len, MULTI_PART in *. rewrite length_take, length_drop. split_and!; [lia|lia|done|done].
Qed.

Lemma cut_last {A} (more last : list Z → A) d : 0 < len d ≤ MULTI_PART → cut more last (parts_of d) d = [last d].
Proof. intros H. by rewrite parts_small. Qed.

Lemma cut_cons {A} (more last : list Z → A) d p d' : d = p ++ d' → len p = MULTI_PART → 0 < len d' →
  cut more last (parts_of d) d = more p :: cut more last (parts_of d') d'.
Proof.
  intros E Hp Hd. subst d. rewrite (parts_large (p ++ d') d') by (try rewrite len_app; lia).
  assert (∃ n, parts_of d' = S n) as [n En].
  { destruct (Z.le_gt_cases (len d') MULTI_PART); [exists 0%nat; apply parts_small; lia|].
    destruct (split_part d') as (p2 & d2 & -> & Hp2 & Hd2 & _); [lia|]. rewrite (parts_large _ d2) by (try rewrite len_app; lia). by eexists. }
  rewrite En. cbn [cut].
  assert (Z.to_nat MULTI_PART = length p) as -> by (unfold len in Hp; lia).
  by rewrite take_app_length, drop_app_length.
Qed.

Lemma part_bodies_last session d : 0 < len d ≤ MULTI_PART → part_bodies session (parts_of d) d = [part_body 3 session d].
Proof. apply cut_last. Qed.

Lemma part_bodies_cons session d p d' : d = p ++ d' → len p = MULTI_PART → 0 < len d' →
  part_bodies session (parts_of d) d = part_body 2 session p :: part_bodies session (parts_of d') d'.
Proof. apply cut_cons. Qed.

(** Induction on the number of parts. *)
Lemma parts_ind (P : list Z → Prop) :
  (∀ d, 0 < len d ≤ MULTI_PART → P d) →
  (∀ p d, len p = MULTI_PART → 0 < len d → P d → P (p ++ d)) →
  ∀ d, 0 < len d → P d.
Proof.
  intros Hl Hc d. remember (parts_of d) as n eqn:En. revert d En. induction n as [|n IH]; intros d En Hd;
    (destruct (Z.le_gt_cases (len d) MULTI_PART); [by apply Hl|]);
    destruct (split_part d) as (p & d' & -> & Hp & Hd' & _); [lia| |lia|];
    rewrite (parts_large _ d') in En by (try rewrite len_app; lia); [done|].
  injection En as En. apply Hc; [done..|by apply IH].
Qed.

(** Several writes to a buffer in a row. *)
Lemma seq_writes {A B} (o : option (A * B)) (buf' : A) (str : B) {C} (k : A → B → option C) :
  o = Some (buf', str) → (x ← o; let '(b, s) := x in k b s) = k buf' str.
Proof. by intros ->. Qed.

Lemma packreq_multi_ok session d : 0 < session < 2 ^ 31 → MULTI_PART ≤ len d < 2 ^ 32 →
  packreq_multi session (map Some d) (len d) = Some (map (λ b, map Some (frame b)) (part_bodies session (parts_of d) d)).
Proof.
  intros Hs Hd. unfold packreq_multi, for_range.
  replace (Z.to_nat _) with (parts_of d) by (unfold parts_of; f_equal; lia).
  assert (0 < len d) as Hp by (unfold MULTI_PART in *; lia).
  set (body := λ (i : Z) '(buf, sz, ptr, out), _).
  enough (∀ d', 0 < len d' → ∀ i ptr d0 buf out, ptr = len d0 → len d0 + len d' < 2 ^ 32 → d = d0 ++ d' → len buf = TEMP_LENGTH →
    ∃ buf', for_loop (parts_of d') i body (buf, len d', ptr, out) =
      Some (buf', 0, len d, out ++ map (λ b, map Some (frame b)) (part_bodies session (parts_of d') d'))) as H.
  { destruct (H d Hp 0 0 [] (malloc TEMP_LENGTH) []) as [buf' E]; [done|rewrite len_nil; lia|done|done|].
    by rewrite E. }
  intros d' Hd'. revert d' Hd'. apply (parts_ind (λ d', ∀ i ptr d0 buf out, ptr = len d0 → len d0 + len d' < 2 ^ 32 → d = d0 ++ d' → len buf = TEMP_LENGTH →
    ∃ buf', for_loop (parts_of d') i body (buf, len d', ptr, out) =
      Some (buf', 0, len d, out ++ map (λ b, map Some (frame b)) (part_bodies session (parts_of d') d')))).
  - intros d' Hl i ptr d0 buf out -> Hlen Ed Hb. rewrite part_bodies_last, parts_small by done. cbn [for_loop]. unfold body at 1.
    rewrite (proj2 (Z.ltb_ge MULTI_PART (len d'))) by lia.
    destruct (request_part buf 3 session d' Hb) as (buf' & Hb' & E); [lia|].
    pose proof (len_nonneg d0). unfold MULTI_PART in *.
    rewrite (u32_small (len d' + 5)), s32_small, (u32_small session), (u32_small (len d' + 7)) by lia.
    assert (mem_read (map Some d) (len d0) (len d') = Some (map Some d')) as ->.
    { rewrite Ed. pose proof (mem_read_map Some d0 d' [] (len d0) (len d') eq_refl eq_refl) as Em. by rewrite app_nil_r in Em. }
    repeat bind_inv E. apply (inj Some), pair_equal_spec in E as [-> ->]. rewrite Z.sub_diag. eexists. rewrite Ed, len_app. done.
  - intros p d' Hpl Hd' IH i ptr d0 buf out -> Hlen Ed Hb. rewrite len_app in Hlen.
    rewrite (part_bodies_cons _ _ p d'), (parts_large (p ++ d') d') by (done || rewrite ?len_app; lia). cbn [for_loop]. unfold body at 1.
    rewrite (proj2 (Z.ltb_lt MULTI_PART (len (p ++ d')))) by (rewrite len_app; lia).
    destruct (request_part buf 2 session p Hb) as (buf' & Hb' & E); [lia|]. rewrite Hpl in E.
    pose proof (len_nonneg d0). unfold MULTI_PART in *.
    rewrite (u32_small (32768 + 5)), s32_small, (u32_small session), (u32_small (32768 + 7)) by lia.
    assert (mem_read (map Some d) (len d0) 32768 = Some (map Some p)) as ->.
    { rewrite Ed. by apply mem_read_map. }
    repeat bind_inv E. apply (inj Some), pair_equal_spec in E as [-> ->].
    destruct (IH (i + 1) (len d0 + 32768) (d0 ++ p) buf' (out ++ [map Some (frame (part_body 2 session p))])) as [b' E'];
      [lens|lens|by rewrite <- app_assoc|done|].
    rewrite len_app, Hpl. replace (u32 _) with (len d') by (rewrite u32_small; lia). rewrite E'. exists b'.
    by rewrite <- app_assoc.
Qed.

(** ** A request packed *)

Definition first_body (r : request) : list Z := if multi r then head_body r else single_body r.

Lemma packrequest_ok r p h : request_ok r → blocks h !! p = Some (map Some (rq_data r)) →
  packrequest (rq_addr r) (rq_session r) (Z.pos p) (len (rq_data r)) (rq_push r) h =
    Ok (Return (map Some (frame (first_body r)), next_session (rq_session r),
                if multi r then Some (map (λ b, map Some (frame b)) (part_bodies (rq_session r) (parts_of (rq_data r)) (rq_data r)))
                else None),
        Heap (delete p (blocks h)) (brk h)).
Proof.
  intros [Ha Hs Hb Hl] Hp. destruct r as [addr session push d]. cbn [rq_addr rq_session rq_push rq_data] in *.
  pose proof (len_nonneg d). unfold packrequest. change (Z.pos p =? 0) with false. cbv iota.
  rewrite (u32_small (len d)), (s32_small session) by lia. rewrite (proj2 (Z.leb_gt session 0)) by lia.
  assert (∀ k : result (Z * block) → lua (block * Z * option (list block)),
    bind (match addr with
          | ANumber n => msg ⟵ load (Z.pos p); r ⟵ must (packreq_number n session msg (len d) push); done_with r
          | _ => packreq_string addr session (Z.pos p) (len d) push
          end) k h =
    k (Return (if multi (Request addr session push d) then Z.of_nat (parts_of d) else 0,
               map Some (frame (first_body (Request addr session push d))))) h) as E.
  { intros k. destruct addr as [n|s|]; [| |done].
    - unfold bind, load. rewrite Hp. rewrite packreq_number_ok by (done || lia). done.
    - unfold packreq_string. destruct Ha as [Ha _].
      rewrite (proj2 (Z.ltb_ge (len s) 1)), (proj2 (Z.ltb_ge 255 (len s))) by lia. cbn [orb].
      unfold bind, load. rewrite Hp. rewrite packreq_name_ok by (done || lia). done. }
  rewrite E. clear E. cbn [rq_data rq_session]. set (pkg := map Some (frame _)).
  unfold multi. cbn [rq_data]. destruct (Z.leb_spec MULTI_PART (len d)) as [Hm|Hm].
  - assert (truth (Z.of_nat (parts_of d)) = true) as ->.
    { unfold truth, parts_of. unfold MULTI_PART in *. pose proof (Z.div_pos (len d - 1) 32768).
      destruct (Z.eqb_spec (Z.of_nat (Z.to_nat ((len d - 1) / 32768 + 1))) 0); [lia|done]. }
    unfold bind, load. rewrite Hp. rewrite packreq_multi_ok by lia.
    unfold must, ret, skynet_free. by rewrite Hp.
  - cbn. unfold bind, skynet_free. by rewrite Hp.
Qed.

(** ** Reading packages *)

Lemma unpack_word (a c : list Z) x k : k = len a → unpack_uint32 (a ++ le_bytes 4 x ++ c) k = Some (u32 x).
Proof.
  intros ->. cbn [le_bytes app]. unfold unpack_uint32. rewrite get_cell by done.
  set (x0 := x mod 256). set (x1 := (x / 256) mod 256). set (x2 := (x / 256 / 256) mod 256).
  assert ((a ++ x0 :: x1 :: x2 :: (x / 256 / 256 / 256) mod 256 :: c).[len a + 1] = Some x1) as ->.
  { rewrite (cons_middle x0), app_assoc. apply get_cell. lens. }
  assert ((a ++ x0 :: x1 :: x2 :: (x / 256 / 256 / 256) mod 256 :: c).[len a + 2] = Some x2) as ->.
  { rewrite (cons_middle x0), (cons_middle x1), !app_assoc. apply get_cell. lens. }
  assert ((a ++ x0 :: x1 :: x2 :: (x / 256 / 256 / 256) mod 256 :: c).[len a + 3] = Some ((x / 256 / 256 / 256) mod 256)) as ->.
  { rewrite (cons_middle x0), (cons_middle x1), (cons_middle x2), !app_assoc. apply get_cell. lens. }
  rewrite word_of_bytes by apply (le_bytes_range 4). f_equal. apply (of_le_bytes 4).
Qed.

(** What [return_buffer] allocates. *)
Definition alloc (d : list Z) (h : heap) : heap := Heap (<[brk h := map Some d]> (blocks h)) (Pos.succ (brk h)).

Lemma return_tail (a d c : list Z) k n h : k = len a → n = len d →
  return_buffer (a ++ d ++ c) k n h = Ok (Z.pos (brk h), alloc d h).
Proof. intros -> ->. unfold return_buffer, bind. by rewrite mem_read_app. Qed.

(** The same, for a list that is only convertible to such a concatenation. *)
Lemma unpack_at l a c x k : l = a ++ le_bytes 4 x ++ c → k = len a → unpack_uint32 l k = Some (u32 x).
Proof. intros ->. apply unpack_word. Qed.

Lemma return_at l (a d c : list Z) k n h : l = a ++ d ++ c → k = len a → n = len d →
  return_buffer l k n h = Ok (Z.pos (brk h), alloc d h).
Proof. intros ->. apply return_tail. Qed.

Lemma len_wire (r : request) : request_ok r → 0 ≤ wire_session r < 2 ^ 31 ∧ (wire_session r =? 0) = rq_push r && negb (multi r).
Proof. intros [_ Hs _ _]. unfold wire_session. destruct (rq_push r && negb (multi r)); zcases; lia. Qed.

Lemma u32_wire r : request_ok r → u32 (wire_session r) = wire_session r.
Proof. intros H. destruct (len_wire r H) as [? _]. apply u32_small. lia. Qed.

Lemma unpack_single r h : request_ok r → multi r = false →
  lunpackrequest (LString (single_body r)) h =
    Ok (Return (Single (rq_addr r) (wire_session r) (Z.pos (brk h)) (len (rq_data r)) (rq_push r)), alloc (rq_data r) h).
Proof.
  intros Hr Hm. pose proof (u32_wire r Hr) as Hw. destruct (len_wire r Hr) as [_ Hp]. rewrite Hm, andb_true_r in Hp.
  destruct Hr as [Ha _ _ Hl]. unfold multi in Hm. apply Z.leb_gt in Hm. unfold MULTI_PART in Hm.
  pose proof (len_nonneg (rq_data r)). unfold lunpackrequest, single_body. set (s := wire_session r) in *. set (d := rq_data r) in *.
  destruct (rq_addr r) as [n|nm|]; [| |done]; cbn [address_bytes address_ok] in *.
  - assert (len ((0 :: le_bytes 4 n) ++ le_bytes 4 s ++ d) = len d + 9) as El by lens.
    rewrite El, s32_small by lia. unfold unpackrequest, bind at 1. change (must _ h) with (Ok (0, h)). cbv iota beta.
    unfold unpackreq_number. rewrite (proj2 (Z.ltb_ge (len d + 9) 9)) by lia. unfold bind.
    rewrite (unpack_at _ [0] (le_bytes 4 s ++ d ++ [0]) n), u32_small by (done || glue).
    rewrite (unpack_at _ (0 :: le_bytes 4 n) (d ++ [0]) s), Hw by (done || glue).
    cbn [must]. unfold ret at 1 2. rewrite (return_at _ ((0 :: le_bytes 4 n) ++ le_bytes 4 s) d [0]) by (glue || lens).
    rewrite Hp. unfold done_with, ret. repeat f_equal. lia.
  - destruct Ha as [Hn _].
    assert (len ((128 :: len nm :: nm) ++ le_bytes 4 s ++ d) = len d + 6 + len nm) as El by lens.
    rewrite El, s32_small by lia. unfold unpackrequest, bind at 1. change (must _ h) with (Ok (128, h)). cbv iota beta.
    unfold unpackreq_string. rewrite (proj2 (Z.ltb_ge (len d + 6 + len nm) 2)) by lia.
    unfold bind. change (must (arr_get _ 1) h) with (Ok (len nm, h)). cbv iota beta.
    rewrite (proj2 (Z.ltb_ge (len d + 6 + len nm) (len nm + 6))) by lia.
    rewrite (read_at _ [128; len nm] nm (le_bytes 4 s ++ d ++ [0])) by (done || glue).
    rewrite (unpack_at _ (128 :: len nm :: nm) (d ++ [0]) s), Hw by (glue || lens).
    cbn [must]. unfold ret at 1 2. rewrite (return_at _ ((128 :: len nm :: nm) ++ le_bytes 4 s) d [0]) by (glue || lens).
    rewrite Hp. unfold done_with, ret. repeat f_equal; lia.
Qed.

Lemma unpack_head r h : request_ok r →
  lunpackrequest (LString (head_body r)) h =
    Ok (Return (Multi (rq_addr r) (rq_session r) (len (rq_data r)) (rq_push r)), h).
Proof.
  intros [Ha Hs _ Hl]. pose proof (len_nonneg (rq_data r)). unfold lunpackrequest, head_body.
  set (s := rq_session r) in *. set (z := len (rq_data r)) in *.
  destruct (rq_addr r) as [n|nm|]; [| |done]; cbn [address_bytes address_ok] in *.
  - assert (∀ k, len ((k :: le_bytes 4 n) ++ le_bytes 4 s ++ le_bytes 4 z) = 13) as El by (intros; lens).
    assert (∀ k push, unpackmreq_number (((k :: le_bytes 4 n) ++ le_bytes 4 s ++ le_bytes 4 z) ++ [0]) 13 push h =
      Ok (Return (Multi (ANumber n) s z push), h)) as E.
    { intros k push. unfold unpackmreq_number. cbn [Z.eqb Pos.eqb negb]. unfold bind.
      rewrite (unpack_at _ [k] (le_bytes 4 s ++ le_bytes 4 z ++ [0]) n), u32_small by (done || glue).
      rewrite (unpack_at _ (k :: le_bytes 4 n) (le_bytes 4 z ++ [0]) s), u32_small by (done || glue || lia).
      rewrite (unpack_at _ ((k :: le_bytes 4 n) ++ le_bytes 4 s) [0] z), u32_small by (glue || lens). done. }
    destruct (rq_push r); rewrite El, s32_small by lia; unfold unpackrequest, bind at 1.
    + change (must _ h) with (Ok (65, h)). cbv iota beta. apply E.
    + change (must _ h) with (Ok (1, h)). cbv iota beta. apply E.
  - destruct Ha as [Hn _].
    assert (∀ k, len ((k :: len nm :: nm) ++ le_bytes 4 s ++ le_bytes 4 z) = len nm + 10) as El by (intros; lens).
    assert (∀ k push, unpackmreq_string (((k :: len nm :: nm) ++ le_bytes 4 s ++ le_bytes 4 z) ++ [0]) (len nm + 10) push h =
      Ok (Return (Multi (AName nm) s z push), h)) as E.
    { intros k push. unfold unpackmreq_string. rewrite (proj2 (Z.ltb_ge (len nm + 10) 2)) by lia. unfold bind.
      change (must (arr_get _ 1) h) with (Ok (len nm, h)). cbv iota beta.
      rewrite (proj2 (Z.ltb_ge (len nm + 10) (len nm + 10))) by lia.
      rewrite (read_at _ [k; len nm] nm (le_bytes 4 s ++ le_bytes 4 z ++ [0])) by (done || glue).
      rewrite (unpack_at _ (k :: len nm :: nm) (le_bytes 4 z ++ [0]) s), u32_small by (glue || lens).
      rewrite (unpack_at _ ((k :: len nm :: nm) ++ le_bytes 4 s) [0] z), u32_small by (glue || lens). done. }
    destruct (rq_push r); rewrite El, s32_small by lia; unfold unpackrequest, bind at 1.
    + change (must _ h) with (Ok (193, h)). cbv iota beta. apply E.
    + change (must _ h) with (Ok (129, h)). cbv iota beta. apply E.
Qed.

Lemma unpack_part kind s d h : kind = 2 ∨ kind = 3 → 0 ≤ s < 2 ^ 31 → len d ≤ MULTI_PART →
  lunpackrequest (LString (part_body kind s d)) h =
    Ok (Return (Part s (Z.pos (brk h)) (len d) (kind =? 2)), alloc d h).
Proof.
  intros Hk Hs Hd. pose proof (len_nonneg d). unfold MULTI_PART in Hd.
  unfold lunpackrequest, part_body. assert (len (kind :: le_bytes 4 s ++ d) = len d + 5) as El by lens.
  rewrite El, s32_small by lia. unfold unpackrequest, bind at 1. change (must _ h) with (Ok (kind, h)). cbv iota beta.
  assert (unpackmreq_part ((kind :: le_bytes 4 s ++ d) ++ [0]) (len d + 5) h =
    Ok (Return (Part s (Z.pos (brk h)) (len d) (kind =? 2)), alloc d h)) as E.
  { unfold unpackmreq_part. rewrite (proj2 (Z.ltb_ge (len d + 5) 5)) by lia. unfold bind.
    change (must (arr_get _ 0) h) with (Ok (kind, h)). cbv iota beta.
    rewrite (unpack_at _ [kind] (d ++ [0]) s), u32_small by (done || glue || lia).
    cbn [must]. unfold ret at 1. rewrite (return_at _ (kind :: le_bytes 4 s) d [0]) by (glue || lens).
    unfold done_with, ret. repeat f_equal. lia. }
  destruct Hk as [-> | ->]; exact E.
Qed.

(** ** Parts put together *)

Definition heap_ok (h : heap) : Prop := ∀ p b, blocks h !! p = Some b → (p < brk h)%positive.

Lemma heap_fresh h : heap_ok h → blocks h !! brk h = None.
Proof. intros H. destruct (blocks h !! brk h) eqn:E; [|done]. specialize (H _ _ E). lia. Qed.

(** A block that was allocated and is freed leaves the heap with a pointer less. *)
Definition skip (h : heap) : heap := Heap (blocks h) (Pos.succ (brk h)).

Lemma append_part t d h : heap_ok h → len d < 2 ^ 31 →
  lappend t (Some (Z.pos (brk h))) (len d) (alloc d h) = Ok (Return (t ++ [SString (map Some d)]), skip h).
Proof.
  intros Hh Hd. pose proof (len_nonneg d). unfold lappend. change (Z.pos (brk h) =? 0) with false. cbv iota.
  unfold bind, load, alloc. cbn [blocks brk]. rewrite lookup_insert_eq, s32_small, mem_read_whole by (lia || lens).
  cbn [must]. unfold ret at 1. unfold skynet_free. cbn [blocks brk]. rewrite lookup_insert_eq.
  unfold done_with, ret, skip. by rewrite delete_insert_id by by apply heap_fresh.
Qed.

Definition strings (ps : list (list Z)) : list slot := map (λ p, SString (map Some p)) ps.

Lemma concat_strings ps : ∀ buff out sz, filled sz buff out → len out + len (concat ps) ≤ sz →
  ∃ buff', concat_loop (strings ps) buff (len out) sz = Some (Some (buff', len out + len (concat ps))) ∧
    filled sz buff' (out ++ concat ps).
Proof.
  induction ps as [|p ps IH]; intros buff out sz Hf Hl.
  - exists buff. cbn. rewrite len_nil, Z.add_0_r, app_nil_r. done.
  - cbn [concat strings map concat_loop] in *. rewrite len_app in *. pose proof (len_nonneg (concat ps)). rewrite len_map.
    rewrite (proj2 (Z.ltb_ge _ _)) by lia.
    destruct (filled_write sz buff out p (len out) Hf) as (b1 & -> & H1); [done|lia|].
    destruct (IH b1 (out ++ p) sz H1) as (b2 & E & H2); [rewrite len_app; lia|].
    exists b2. rewrite len_app in E. rewrite <- app_assoc in H2. fold (strings ps). by rewrite E, Z.add_assoc.
Qed.

Lemma filled_whole n buf out : filled n buf out → len out = n → buf = map Some out.
Proof.
  intros [Hn [rest ->]] Ho. rewrite len_app, len_map in Hn. destruct rest; [by rewrite app_nil_r|].
  rewrite len_cons in Hn. pose proof (len_nonneg rest). lia.
Qed.

Lemma concat_parts ps h : len (concat ps) < 2 ^ 31 →
  lconcat (SNumber (len (concat ps)) :: strings ps) h =
    Ok (Some (Z.pos (brk h), len (concat ps)), alloc (concat ps) h).
Proof.
  intros Hl. pose proof (len_nonneg (concat ps)). unfold lconcat. rewrite s32_small by lia.
  unfold bind at 1. rewrite (proj2 (Z.leb_le _ _)) by lia. cbn [require]. unfold ret at 1. unfold bind at 1, skynet_malloc.
  destruct (concat_strings ps (malloc (len (concat ps))) [] (len (concat ps))) as (b & E & Hb); [by apply filled_malloc|rewrite len_nil; lia|].
  rewrite len_nil, Z.add_0_l in E. unfold bind at 1. rewrite E. cbn [must]. unfold ret at 1. rewrite Z.eqb_refl.
  rewrite (filled_whole _ _ _ Hb) by done. cbn [blocks brk app]. unfold alloc. by rewrite insert_insert_eq.
Qed.

(** ** One package *)

Lemma heap_ok_alloc d h : heap_ok h → heap_ok (alloc d h).
Proof.
  intros H p b. unfold alloc. cbn [blocks brk]. intros [[<- _]|[_ Hp]]%lookup_insert_Some; [lia|].
  specialize (H p b Hp). lia.
Qed.

Lemma heap_ok_skip h : heap_ok h → heap_ok (skip h).
Proof. intros H p b Hp. specialize (H p b Hp). cbn. lia. Qed.

Lemma agent_single st r h : request_ok r → multi r = false → st !! wire_session r = None →
  agent st (single_body r) h =
    Ok (Return (Call (rq_addr r) (wire_session r) (rq_push r) (Z.pos (brk h)) (len (rq_data r)), st), alloc (rq_data r) h).
Proof.
  intros Hr Hm Hs. unfold agent, bind. rewrite unpack_single by done. unfold dispatch_request, last_part. by rewrite Hs.
Qed.

Lemma agent_head st r h : request_ok r → st !! rq_session r = None →
  agent st (head_body r) h =
    Ok (Return (Wait, <[rq_session r := Large (rq_addr r) (rq_push r) [SNumber (len (rq_data r))]]> st), h).
Proof.
  intros Hr Hs. unfold agent, bind. rewrite unpack_head by done. unfold dispatch_request, keep_part. by rewrite Hs.
Qed.

Lemma agent_part st s req d h : heap_ok h → 0 ≤ s < 2 ^ 31 → len d ≤ MULTI_PART → st !! s = Some req →
  agent st (part_body 2 s d) h =
    Ok (Return (Wait, <[s := Large (lr_addr req) (lr_push req) (lr_parts req ++ [SString (map Some d)])]> st), skip h).
Proof.
  intros Hh Hs Hd Hr. unfold agent, bind. rewrite unpack_part by (done || by left). cbn [Z.eqb Pos.eqb].
  unfold dispatch_request, keep_part. rewrite Hr. cbn [default id]. unfold bind.
  unfold MULTI_PART in Hd. by rewrite append_part by (done || lia).
Qed.

Lemma agent_last st s addr push ps d h : heap_ok h → 0 ≤ s < 2 ^ 31 → len d ≤ MULTI_PART →
  len (concat (ps ++ [d])) < 2 ^ 31 →
  st !! s = Some (Large addr push (SNumber (len (concat (ps ++ [d]))) :: strings ps)) →
  agent st (part_body 3 s d) h =
    Ok (Return (Call addr s push (Z.pos (brk (skip h))) (len (concat (ps ++ [d]))), delete s st), alloc (concat (ps ++ [d])) (skip h)).
Proof.
  intros Hh Hs Hd Hl Hr. unfold agent, bind. rewrite unpack_part by (done || by right). cbn [Z.eqb Pos.eqb].
  unfold dispatch_request, last_part. rewrite Hr. cbn [lr_parts lr_addr lr_push]. unfold bind.
  unfold MULTI_PART in Hd. rewrite append_part by (done || lia). cbn [app].
  replace (strings ps ++ [SString (map Some d)]) with (strings (ps ++ [d])) by (unfold strings; by rewrite map_app).
  by rewrite concat_parts.
Qed.

(** ** Many requests on one connection *)

(** [s] is made of the lists [ls]: each in its order, between each other in any. *)
Inductive interleaved {A} : list (list A) → list A → Prop :=
| il_nil : interleaved [] []
| il_done ls1 ls2 s : interleaved (ls1 ++ ls2) s → interleaved (ls1 ++ [] :: ls2) s
| il_step ls1 x l ls2 s : interleaved (ls1 ++ l :: ls2) s → interleaved (ls1 ++ (x :: l) :: ls2) (x :: s).

(** A request in parts needs a session of its own. *)
Definition separate (rs : list request) : Prop :=
  ∀ l1 r l2 r', rs = l1 ++ r :: l2 → multi r = true → r' ∈ l1 ++ l2 → rq_session r ≠ wire_session r'.

(** The receiver has still to read [rest] of request [r]. *)
Inductive progress (st : large_requests) (r : request) : list (list Z) → Prop :=
| pr_fresh : (multi r = true → st !! rq_session r = None) → progress st r (bodies r)
| pr_mid ps d : multi r = true → rq_data r = concat ps ++ d → 0 < len d →
    st !! rq_session r = Some (Large (rq_addr r) (rq_push r) (SNumber (len (rq_data r)) :: strings ps)) →
    progress st r (part_bodies (rq_session r) (parts_of d) d)
| pr_done : (multi r = true → st !! rq_session r = None) → progress st r [].

Record reading (st : large_requests) (L : list (request * list (list Z))) : Prop := {
  rd_ok r rest : (r, rest) ∈ L → request_ok r ∧ progress st r rest;
  rd_separate : separate L.*1;
  rd_known s : is_Some (st !! s) → ∃ r rest, (r, rest) ∈ L ∧ multi r = true ∧ s = rq_session r
}.

Definition unread (L : list (request * list (list Z))) : list request :=
  omap (λ x, match x.2 with [] => None | _ => Some x.1 end) L.

Definition results (acts : list action) : list action :=
  omap (λ a, match a with Wait => None | _ => Some a end) acts.

(** Request [r] handed on with its message at [p]. *)
Definition call_of (r : request) (p : positive) : action :=
  Call (rq_addr r) (wire_session r) (rq_push r) (Z.pos p) (len (rq_data r)).

Definition stored (rps : list (request * positive)) (m : gmap positive block) : gmap positive block :=
  fold_left (λ m x, <[x.2 := map Some (rq_data x.1)]> m) rps m.

(** What one package does: the request stays or is handed on with its message. *)
Definition step_result (st st' : large_requests) (h h' : heap) (r : request) (rest : list (list Z)) (a : action) : Prop :=
  (∀ s, s ≠ rq_session r ∨ multi r = false → st' !! s = st !! s) ∧ progress st' r rest ∧ heap_ok h' ∧
  ((a = Wait ∧ rest ≠ [] ∧ blocks h' = blocks h ∧ (brk h ≤ brk h')%positive) ∨
   ∃ p, a = call_of r p ∧ rest = [] ∧ (brk h ≤ p < brk h')%positive ∧ blocks h' = <[p := map Some (rq_data r)]> (blocks h)).

Lemma part_bodies_ne session d : 0 < len d → part_bodies session (parts_of d) d ≠ [].
Proof.
  intros Hd. destruct (Z.le_gt_cases (len d) MULTI_PART); [by rewrite part_bodies_last|].
  destruct (split_part d) as (p & d' & E & Hp & Hd' & _); [lia|]. by rewrite (part_bodies_cons _ d p d').
Qed.

Lemma mid_step st r ps d body rest h : request_ok r → multi r = true → rq_data r = concat ps ++ d → 0 < len d →
  st !! rq_session r = Some (Large (rq_addr r) (rq_push r) (SNumber (len (rq_data r)) :: strings ps)) →
  part_bodies (rq_session r) (parts_of d) d = body :: rest → heap_ok h →
  ∃ a st' h', agent st body h = Ok (Return (a, st'), h') ∧ step_result st st' h h' r rest a.
Proof.
  intros Hr Hm Ed Hd Hst Eb Hh. destruct Hr as [Ha Hs Hb Hl].
  destruct (Z.le_gt_cases (len d) MULTI_PART) as [Hle|Hgt].
  - rewrite part_bodies_last in Eb by done. injection Eb as <- <-.
    assert (concat (ps ++ [d]) = rq_data r) as Ec by (rewrite concat_app; cbn; by rewrite app_nil_r).
    eexists _, _, _. rewrite (agent_last st _ (rq_addr r) (rq_push r) ps) by (rewrite ?Ec; done || lia).
    split; [done|]. rewrite Ec. split_and!.
    + intros s [Hs'|Hs']; [by rewrite lookup_delete_ne|congruence].
    + apply pr_done. by rewrite lookup_delete_eq.
    + by apply heap_ok_alloc, heap_ok_skip.
    + right. exists (brk (skip h)). cbn. unfold call_of, wire_session. rewrite Hm, andb_false_r. split_and!; [done|done|lia|lia|done].
  - destruct (split_part d) as (p & d' & E & Hp & Hd' & _); [lia|].
    rewrite (part_bodies_cons _ d p d') in Eb by done. injection Eb as <- <-.
    eexists _, _, _. rewrite (agent_part st _ _ p) by (exact Hst || done || lia). cbn [lr_addr lr_push lr_parts].
    split; [done|]. split_and!.
    + intros s [Hs'|Hs']; [by rewrite lookup_insert_ne|congruence].
    + apply (pr_mid _ _ (ps ++ [p])); [done|rewrite concat_app, Ed, E; cbn; by rewrite app_nil_r, <- app_assoc|done|].
      rewrite lookup_insert_eq. unfold strings. by rewrite map_app.
    + by apply heap_ok_skip.
    + left. split_and!; [done|by apply part_bodies_ne|done|cbn; lia].
Qed.

Lemma progress_step st r body rest h : request_ok r → progress st r (body :: rest) → (multi r = false → st !! wire_session r = None) →
  heap_ok h → ∃ a st' h', agent st body h = Ok (Return (a, st'), h') ∧ step_result st st' h h' r rest a.
Proof.
  intros Hr Hp Hw Hh. remember (body :: rest) as l eqn:El. destruct Hp as [Hf|ps d Hm Ed Hd Hst|Hf]; [| |done].
  - unfold bodies in El. destruct (multi r) eqn:Em.
    + injection El as <- <-. eexists _, _, _. rewrite agent_head by auto. split; [done|].
      assert (0 < len (rq_data r)) as Hpos by (unfold multi, MULTI_PART in Em; apply Z.leb_le in Em; lia).
      split_and!.
      * intros s [Hs|Hs]; [by rewrite lookup_insert_ne|congruence].
      * apply (pr_mid _ _ []); [done|done|done|by rewrite lookup_insert_eq].
      * done.
      * left. split_and!; [done|by apply part_bodies_ne|done|lia].
    + injection El as <- <-. eexists _, _, _. rewrite agent_single by auto. split; [done|]. split_and!.
      * done.
      * apply pr_done. congruence.
      * by apply heap_ok_alloc.
      * right. exists (brk h). split_and!; [done|done|lia|cbn; lia|done].
  - by eapply mid_step.
Qed.

Lemma progress_other st st' r rest : (multi r = true → st' !! rq_session r = st !! rq_session r) →
  progress st r rest → progress st' r rest.
Proof.
  intros Hs [Hf|ps d Hm Ed Hd Hst|Hf].
  - apply pr_fresh. intros Hm. rewrite Hs by done. by apply Hf.
  - apply (pr_mid _ _ ps); [done..|by rewrite Hs].
  - apply pr_done. intros Hm. rewrite Hs by done. by apply Hf.
Qed.

Lemma progress_nil st r : progress st r [] → multi r = true → st !! rq_session r = None.
Proof.
  intros Hp Hm. remember [] as l eqn:El. destruct Hp as [Hf|ps d _ _ Hd _|Hf]; [by apply Hf| |by apply Hf].
  by apply part_bodies_ne in El.
Qed.

Lemma wire_multi r : multi r = true → wire_session r = rq_session r.
Proof. intros Hm. unfold wire_session. by rewrite Hm, andb_false_r. Qed.

Lemma separate_less l1 r l2 : separate (l1 ++ r :: l2) → separate (l1 ++ l2).
Proof.
  intros H k1 r1 k2 r' E Hm Hr'. assert (∃ m1 m2, l1 ++ r :: l2 = m1 ++ r1 :: m2 ∧ r' ∈ m1 ++ m2) as (m1 & m2 & E' & Hin).
  { apply app_eq_inv in E as [(k & -> & E)|(k & -> & E)].
    - destruct k as [|r0 k].
      + rewrite app_nil_r in *. cbn in E. subst l2. exists (k1 ++ [r]), k2. rewrite <- !app_assoc. split; [done|]. set_solver.
      + injection E as <- ->. exists k1, (k ++ r :: l2). rewrite <- app_assoc. split; [done|]. set_solver.
    - subst l2. exists (l1 ++ r :: k), k2. rewrite <- app_assoc. split; [done|]. set_solver. }
  by apply (H m1 r1 m2).
Qed.

(** The same for a list of pairs: two different places. *)
Lemma separate_pair (L1 : list (request * list (list Z))) r x L2 r' x' : separate (L1 ++ (r, x) :: L2).*1 → (r', x') ∈ L1 ++ L2 →
  (multi r = true → rq_session r ≠ wire_session r') ∧ (multi r' = true → rq_session r' ≠ wire_session r).
Proof.
  intros Hs Hin. rewrite fmap_app, fmap_cons in Hs. cbn [fst] in Hs. split; intros Hm.
  - apply (Hs L1.*1 r L2.*1); [done..|]. rewrite <- fmap_app. by apply (list_elem_of_fmap_2 fst _ (r', x')).
  - apply elem_of_app in Hin as [Hin|Hin]; apply list_elem_of_split in Hin as (a & b & ->); rewrite fmap_app, fmap_cons in Hs; cbn [fst] in Hs.
    + rewrite <- app_assoc in Hs. apply (Hs a.*1 r' (b.*1 ++ r :: L2.*1)); [done..|]. set_solver.
    + apply (Hs (L1.*1 ++ r :: a.*1) r' b.*1); [by rewrite <- app_assoc|done|]. set_solver.
Qed.

Lemma reading_done st L1 r L2 : reading st (L1 ++ (r, []) :: L2) → reading st (L1 ++ L2).
Proof.
  intros [Hok Hsep Hk]. split.
  - intros r' rest Hin. apply Hok. set_solver.
  - rewrite fmap_app, fmap_cons in Hsep. rewrite fmap_app. by eapply separate_less.
  - intros s Hs. destruct (Hk s Hs) as (r' & rest & Hin & Hm & ->).
    assert ((r', rest) ∈ L1 ++ L2 ∨ (r', rest) = (r, [])) as [?|[= -> ->]] by set_solver; [by exists r', rest|].
    destruct (Hok r []) as [_ Hp]; [set_solver|]. rewrite (progress_nil _ _ Hp Hm) in Hs. by destruct Hs.
Qed.

Lemma single_unknown st L1 r rest L2 : reading st (L1 ++ (r, rest) :: L2) → multi r = false → st !! wire_session r = None.
Proof.
  intros [_ Hsep Hk] Hm. destruct (st !! wire_session r) eqn:E; [|done]. exfalso.
  destruct (Hk (wire_session r)) as (r' & rest' & Hin & Hm' & Es); [by eexists|].
  assert ((r', rest') ∈ L1 ++ L2) as Hin'.
  { assert ((r', rest') ∈ L1 ++ L2 ∨ (r', rest') = (r, rest)) as [?|[= -> ->]] by set_solver; [done|congruence]. }
  destruct (separate_pair _ _ _ _ _ _ Hsep Hin') as [_ H]. by apply H.
Qed.

Lemma reading_step st st' h h' L1 r body rest L2 a : reading st (L1 ++ (r, body :: rest) :: L2) →
  step_result st st' h h' r rest a → reading st' (L1 ++ (r, rest) :: L2).
Proof.
  intros Hrd (Hst & Hp & _). destruct Hrd as [Hok Hsep Hk]. split.
  - intros r' rest' Hin.
    assert ((r', rest') ∈ L1 ++ L2 ∨ (r', rest') = (r, rest)) as [Hin'|[= -> ->]] by set_solver.
    + destruct (Hok r' rest') as [Hr' Hp']; [set_solver|]. split; [done|]. eapply progress_other; [|done].
      intros Hm'. apply Hst. destruct (separate_pair _ _ _ _ _ _ Hsep Hin') as [_ H]. specialize (H Hm').
      destruct (multi r) eqn:Hm; [|by right]. left. by rewrite (wire_multi r) in H.
    + split; [|done]. apply (Hok r (body :: rest)). set_solver.
  - rewrite fmap_app, fmap_cons in Hsep |- *. done.
  - intros s Hs. destruct (decide (s = rq_session r ∧ multi r = true)) as [[-> Hm]|Hne].
    + exists r, rest. split; [set_solver|done].
    + rewrite Hst in Hs by (destruct (multi r); [left; intros ->; by apply Hne|by right]).
      destruct (Hk s Hs) as (r' & rest' & Hin & Hm & ->).
      assert ((r', rest') ∈ L1 ++ L2 ∨ (r', rest') = (r, body :: rest)) as [Hin'|[= -> ->]] by set_solver.
      * exists r', rest'. split; [set_solver|done].
      * by destruct Hne.
Qed.

Lemma fmap_split {A B} (f : A → B) L l1 x l2 : f <$> L = l1 ++ x :: l2 →
  ∃ L1 y L2, L = L1 ++ y :: L2 ∧ f <$> L1 = l1 ∧ f y = x ∧ f <$> L2 = l2.
Proof.
  intros E. apply fmap_app_inv in E as (L1 & L' & -> & E & ->). symmetry in E.
  apply fmap_cons_inv in E as (y & L2 & -> & -> & ->). by exists L1, y, L2.
Qed.

Lemma agent_run_ok ls s : interleaved ls s → ∀ st h L, L.*2 = ls → reading st L → heap_ok h →
  ∃ acts h' rs ps, agent_run st s h = Ok (Return (acts, ∅), h') ∧ rs ≡ₚ unread L ∧ length ps = length rs ∧
    results acts = zip_with call_of rs ps ∧ blocks h' = stored (zip rs ps) (blocks h) ∧
    NoDup ps ∧ Forall (λ p, (brk h ≤ p)%positive) ps.
Proof.
  induction 1 as [|ls1 ls2 s _ IH|ls1 x l ls2 s _ IH]; intros st h L EL Hrd Hh.
  - apply fmap_nil_inv in EL as ->. exists [], h, [], []. cbn [agent_run]. unfold done_with, ret.
    assert (st = ∅) as ->; [|split_and!; try done; constructor].
    apply map_eq. intros s. rewrite lookup_empty. destruct (st !! s) eqn:E; [|done].
    destruct (rd_known _ _ Hrd s) as (r & rest & Hin & _); [by eexists|]. by apply elem_of_nil in Hin.
  - apply fmap_split in EL as (L1 & [r rest] & L2 & -> & <- & E & <-). cbn in E. subst rest.
    destruct (IH st h (L1 ++ L2)) as (acts & h' & rs & ps & Hrun & Hrs & H); [by rewrite fmap_app|by eapply reading_done|done|].
    exists acts, h', rs, ps. split; [done|]. split; [|done]. rewrite Hrs. unfold unread. by rewrite !omap_app.
  - apply fmap_split in EL as (L1 & [r rest] & L2 & -> & <- & E & <-). cbn in E. subst rest.
    assert ((r, x :: l) ∈ L1 ++ (r, x :: l) :: L2) as Hin by set_solver. destruct (rd_ok _ _ Hrd _ _ Hin) as [Hr Hp].
    destruct (progress_step st r x l h) as (a & st' & h1 & Ea & Hstep); [done|done|by eapply single_unknown|done|].
    pose proof (reading_step _ _ _ _ _ _ _ _ _ _ Hrd Hstep) as Hrd'. destruct Hstep as (_ & _ & Hh1 & Hres).
    destruct (IH st' h1 (L1 ++ (r, l) :: L2)) as (acts & h' & rs & ps & Hrun & Hrs & Hlen & Hacts & Hbl & Hnd & Hge);
      [by rewrite fmap_app, fmap_cons|done|done|].
    cbn [agent_run]. unfold bind. rewrite Ea, Hrun. unfold done_with, ret.
    destruct Hres as [(-> & Hl & Hb & Hbrk)|(p & -> & -> & [Hp1 Hp2] & Hb)].
    + exists (Wait :: acts), h', rs, ps. split; [done|]. split.
      { rewrite Hrs. unfold unread. rewrite !omap_app. cbn. by destruct l. }
      split; [done|]. split; [done|]. rewrite <- Hb. split; [done|]. split; [done|].
      eapply Forall_impl; [exact Hge|]. intros q Hq. cbn in Hq. lia.
    + exists (call_of r p :: acts), h', (r :: rs), (p :: ps). split; [done|]. split.
      { rewrite Hrs. unfold unread. rewrite !omap_app. cbn. by rewrite Permutation_middle. }
      cbn [length zip zip_with]. split; [by rewrite Hlen|]. split; [change (results (call_of r p :: acts)) with (call_of r p :: results acts); by rewrite Hacts|]. rewrite Hbl, Hb. split; [done|]. split.
      * constructor; [|done]. intros Hin'. rewrite Forall_forall in Hge. specialize (Hge _ Hin'). lia.
      * constructor; [done|]. eapply Forall_impl; [exact Hge|]. intros q Hq. cbn in Hq. lia.
Qed.

Lemma interleaved_map {A B} (f : A → B) lls ls : interleaved lls ls → ∀ kls, lls = map (map f) kls →
  ∃ ks, ls = map f ks ∧ interleaved kls ks.
Proof.
  induction 1 as [|ls1 ls2 s _ IH|ls1 x l ls2 s _ IH]; intros kls E.
  - destruct kls; [|done]. exists []. split; [done|constructor].
  - symmetry in E. apply (fmap_split (map f)) in E as (K1 & k & K2 & -> & <- & E & <-). destruct k; [|done].
    destruct (IH (K1 ++ K2)) as (ks & -> & Hk); [by rewrite map_app|]. exists ks. split; [done|by constructor].
  - symmetry in E. apply (fmap_split (map f)) in E as (K1 & k & K2 & -> & <- & E & <-). destruct k as [|y k]; [done|].
    injection E as <- <-. destruct (IH (K1 ++ k :: K2)) as (ks & -> & Hk); [by rewrite map_app|].
    exists (y :: ks). split; [done|by constructor].
Qed.

(** The packages of a request whose message is the only block, which must be gone
    afterwards. *)
Definition packages (r : request) : option (list block) :=
  match packrequest (rq_addr r) (rq_session r) 1 (len (rq_data r)) (rq_push r)
          (Heap {[1%positive := map Some (rq_data r)]} 2) with
  | Ok (Return (pkg, _, parts), h) => assert! bool_decide (map_to_list (blocks h) = []); Some (pkg :: default [] parts)
  | _ => None
  end.

Lemma packages_ok r : request_ok r → packages r = Some (map (λ b, map Some (frame b)) (bodies r)).
Proof.
  intros Hr. unfold packages. rewrite (packrequest_ok r 1) by (done || apply lookup_singleton_eq).
  cbn [blocks brk]. rewrite delete_singleton_eq, map_to_list_empty. cbn. unfold bodies, first_body. by destruct (multi r).
Qed.

Lemma body_size r : request_ok r → Forall (λ b, len b < 65536) (bodies r).
Proof.
  intros [Ha _ _ _]. unfold bodies. pose proof (len_nonneg (rq_data r)).
  assert (∀ a b, len (address_bytes a b (rq_addr r)) ≤ 257) as Hl.
  { intros a b. destruct (rq_addr r) as [n|s|]; [|destruct Ha|done]; unfold address_bytes; lens. }
  destruct (multi r) eqn:Hm.
  - unfold multi, MULTI_PART in Hm. apply Z.leb_le in Hm. constructor.
    + unfold head_body. destruct (rq_push r); lens; [specialize (Hl 65 193)|specialize (Hl 1 129)]; lia.
    + assert (0 < len (rq_data r)) as Hd by lia. clear -Hd. revert Hd. generalize (rq_session r). intros s. generalize (rq_data r).
      apply (parts_ind (λ d, Forall (λ b, len b < 65536) (part_bodies s (parts_of d) d))).
      * intros d Hd. rewrite part_bodies_last by done. constructor; [|constructor]. unfold part_body, MULTI_PART in *. lens.
      * intros p d Hp Hd IH. rewrite (part_bodies_cons s _ p d) by done. constructor; [|done]. unfold part_body, MULTI_PART in *. lens.
  - unfold multi, MULTI_PART in Hm. apply Z.leb_gt in Hm. constructor; [|constructor]. unfold single_body.
    specialize (Hl 0 128). lens.
Qed.


Definition demo_requests : list request :=
  [Request (AName (str "db")) 5 false (replicate (Z.to_nat 32769) 7); Request (ANumber 9) 6 true [1; 2; 3]].

Lemma demo_requests_ok : Forall request_ok demo_requests ∧ separate demo_requests.
Proof.
  split.
  - constructor; [|constructor; [|constructor]]; split; cbn [rq_addr rq_session rq_data address_ok].
    + split; [vm_compute; split; discriminate|repeat constructor; lia].
    + lia.
    + apply Forall_replicate. lia.
    + rewrite len_replicate; lia.
    + lia.
    + lia.
    + repeat constructor; lia.
    + vm_compute. reflexivity.
  - unfold demo_requests. generalize (replicate (Z.to_nat 32769) 7). intros d [|r0 [|r1 l1]] r l2 r' E Hm Hin; injection E as; subst.
    + apply list_elem_of_singleton in Hin as ->. vm_compute. discriminate.
    + discriminate Hm.
    + by destruct l1.
Qed.


(** ** Responses *)

Definition response_body (kind session : Z) (d : list Z) : list Z := le_bytes 4 session ++ kind :: d.

(** One round of the loop of [lpackresponse]. *)
Lemma response_part buf kind session d : len buf = TEMP_LENGTH → len d ≤ MULTI_PART →
  ∃ buf', len buf' = TEMP_LENGTH ∧
    (buf ← buf.[6 <- Some kind];
     buf ← fill_header buf (len d + 5);
     buf ← fill_uint32 buf 2 session;
     buf ← mem_write buf 7 (map Some d);
     str ← mem_read buf 0 (len d + 7);
     Some (buf, str)) = Some (buf', map Some (frame (response_body kind session d))).
Proof.
  intros Hb Hd. pose proof (len_nonneg d). destruct (seven_cells buf Hb) as (c0 & c1 & c2 & c3 & c4 & c5 & c6 & r & -> & Hr).
  unfold MULTI_PART, TEMP_LENGTH in *. rewrite (set_cell [c0; c1; c2; c3; c4; c5] r c6) by done. cbn [app]. rewrite set_header by lia.
  rewrite (set_uint32 [Some ((len d + 5) / 256); Some ((len d + 5) mod 256)] (Some kind :: r) c2 c3 c4 c5) by done.
  destruct (part_data ([(len d + 5) / 256; (len d + 5) mod 256] ++ le_bytes 4 session ++ [kind]) r d) as (r' & E1 & Hr' & E2); [lens|lia|].
  cbn [app]. match goal with |- context [mem_write ?b 7 _] => replace b with (map Some ([(len d + 5) / 256; (len d + 5) mod 256] ++ le_bytes 4 session ++ [kind]) ++ r)
    by (rewrite !map_app; repeat rewrite <- app_assoc; done) end. rewrite E1, E2. eexists. split; [|f_equal; f_equal;
    unfold frame, response_body; replace (len (le_bytes 4 session ++ kind :: d)) with (len d + 5) by lens;
    by repeat rewrite <- app_assoc].
  lens.
Qed.

Definition response_bodies (session : Z) (ok : bool) (d : list Z) : list (list Z) :=
  if ok && (MULTI_PART <? len d)
  then response_body 2 session (le_bytes 4 (len d)) ::
       cut (response_body 3 session) (response_body 4 session) (parts_of d) d
  else [response_body (of_bool ok) session (if ok then d else take (Z.to_nat MULTI_PART) d)].

Lemma response_loop session d : 0 ≤ session < 2 ^ 32 → len d < 2 ^ 31 → ∀ d', 0 < len d' →
  ∀ i ptr d0 buf out, ptr = len d0 → len d0 + len d' < 2 ^ 31 → d = d0 ++ d' → len buf = TEMP_LENGTH →
    ∃ buf', for_loop (parts_of d') i (λ i '(buf, sz, ptr, out),
      let '(s, kind) := if MULTI_PART <? sz then (MULTI_PART, 3) else (s32 sz, 4) in
      buf ← buf.[6 <- Some kind];
      buf ← fill_header buf (s + 5);
      buf ← fill_uint32 buf 2 session;
      data ← mem_read (map Some d) ptr s;
      buf ← mem_write buf 7 data;
      str ← mem_read buf 0 (s + 7);
      Some (buf, u64 (sz - s), ptr + s, out ++ [str])) (buf, len d', ptr, out) =
      Some (buf', 0, len d, out ++ map (λ b, map Some (frame b))
        (cut (response_body 3 session) (response_body 4 session) (parts_of d') d')).
Proof.
  intros Hs Hd. set (body := λ (i : Z) '(buf, sz, ptr, out), _). intros d' Hd'. revert d' Hd'.
  refine (parts_ind (λ d', ∀ i ptr d0 buf out, ptr = len d0 → len d0 + len d' < 2 ^ 31 → d = d0 ++ d' → len buf = TEMP_LENGTH →
    ∃ buf', for_loop (parts_of d') i body (buf, len d', ptr, out) =
      Some (buf', 0, len d, out ++ map (λ b, map Some (frame b))
        (cut (response_body 3 session) (response_body 4 session) (parts_of d') d'))) _ _).
  - intros d' Hl i ptr d0 buf out -> Hlen Ed Hb. rewrite cut_last, parts_small by done. cbn [for_loop]. unfold body at 1.
    rewrite (proj2 (Z.ltb_ge MULTI_PART (len d'))) by lia.
    destruct (response_part buf 4 session d' Hb) as (buf' & Hb' & E); [lia|].
    pose proof (len_nonneg d0). unfold MULTI_PART in *. rewrite (s32_small (len d')) by lia.
    assert (mem_read (map Some d) (len d0) (len d') = Some (map Some d')) as ->.
    { rewrite Ed. pose proof (mem_read_map Some d0 d' [] (len d0) (len d') eq_refl eq_refl) as Em. by rewrite app_nil_r in Em. }
    repeat bind_inv E. apply (inj Some), pair_equal_spec in E as [-> ->]. rewrite Z.sub_diag. eexists. rewrite Ed, len_app. done.
  - intros p d' Hpl Hd' IH i ptr d0 buf out -> Hlen Ed Hb. rewrite len_app in Hlen.
    rewrite (cut_cons _ _ _ p d'), (parts_large (p ++ d') d') by (done || rewrite ?len_app; lia). cbn [for_loop]. unfold body at 1.
    rewrite (proj2 (Z.ltb_lt MULTI_PART (len (p ++ d')))) by (rewrite len_app; lia).
    destruct (response_part buf 3 session p Hb) as (buf' & Hb' & E); [lia|]. rewrite Hpl in E.
    pose proof (len_nonneg d0). unfold MULTI_PART in *.
    assert (mem_read (map Some d) (len d0) 32768 = Some (map Some p)) as ->.
    { rewrite Ed. by apply mem_read_map. }
    repeat bind_inv E. apply (inj Some), pair_equal_spec in E as [-> ->].
    destruct (IH (i + 1) (len d0 + 32768) (d0 ++ p) buf' (out ++ [map Some (frame (response_body 3 session p))])) as [b' E'];
      [lens|lens|by rewrite <- app_assoc|done|].
    rewrite len_app, Hpl. replace (u64 _) with (len d') by (rewrite u64_small; lia). rewrite E'. exists b'.
    by rewrite <- app_assoc.
Qed.

Lemma packresponse_ok session ok d : 0 ≤ session < 2 ^ 32 → len d < 2 ^ 31 →
  packresponse session ok (map Some d) (len d) = Some (map (λ b, map Some (frame b)) (response_bodies session ok d)).
Proof.
  intros Hs Hd. pose proof (len_nonneg d). unfold packresponse, response_bodies. rewrite (u32_small session) by done.
  destruct (ok && (MULTI_PART <? len d)) eqn:Em.
  - apply andb_prop in Em as [-> Em%Z.ltb_lt]. unfold packresponse_multi, for_range.
    assert (filled TEMP_LENGTH (malloc TEMP_LENGTH) []) as Hf by by apply filled_malloc.
    assert (TEMP_LENGTH = 33280) as ET by done. rewrite (u32_small (len d)) by lia. do 4 fill_step Hf.
    rewrite (filled_read _ _ _ _ Hf) by lens. assert (Z.to_nat (s32 ((len d - 1) / MULTI_PART + 1) - 0) = parts_of d) as ->.
    { unfold parts_of. rewrite Z.sub_0_r, s32_small; [done|]. unfold MULTI_PART in *.
      assert (0 ≤ (len d - 1) / 32768) by (apply Z.div_pos; lia).
      assert ((len d - 1) / 32768 < 2 ^ 30) by (apply Z.div_lt_upper_bound; lia). lia. }
    assert (0 < len d) as Hp by (unfold MULTI_PART in *; lia).
    lazymatch goal with |- context [for_loop _ _ _ (?b, _, _, [?x])] =>
      destruct (response_loop session d ltac:(lia) ltac:(lia) d Hp 0 0 [] b [x]) as [buf' E];
        [done|rewrite len_nil; lia|done|exact (proj1 Hf)|] end.
    rewrite E. cbn [map app]. by do 2 f_equal.
  - set (d' := if ok then d else take (Z.to_nat MULTI_PART) d).
    assert ((if ok then len d else Z.min (len d) MULTI_PART) = len d' ∧ len d' ≤ MULTI_PART ∧ mem_read (map Some d) 0 (len d') = Some (map Some d')) as (-> & Hl & ->).
    { unfold d'. destruct ok.
      - cbn in Em. apply Z.ltb_ge in Em. split_and!; [done|done|]. apply mem_read_whole. by rewrite len_map.
      - assert (len (take (Z.to_nat MULTI_PART) d) = Z.min (len d) MULTI_PART) as E by (unfold len, MULTI_PART in *; rewrite length_take; lia).
        rewrite E. split_and!; [done|lia|]. rewrite <- (take_drop (Z.to_nat MULTI_PART) d) at 1.
        rewrite map_app. apply mem_read_prefix. by rewrite len_map. }
    pose proof (len_nonneg d'). unfold MULTI_PART in Hl. rewrite s32_small by lia.
    assert (filled TEMP_LENGTH (malloc TEMP_LENGTH) []) as Hf by by apply filled_malloc.
    assert (TEMP_LENGTH = 33280) as ET by done. do 4 fill_step Hf. rewrite (filled_read _ _ _ _ Hf) by lens.
    cbn [map]. do 2 f_equal. unfold frame, response_body.
    replace (len (le_bytes 4 session ++ of_bool ok :: d')) with (len d' + 5) by lens. by rewrite <- !app_assoc.
Qed.

(** ** Reading responses *)

Lemma unpack_response kind s d : 0 ≤ s < 2 ^ 32 →
  (kind = 0 ∨ kind = 1 ∨ kind = 3 ∨ kind = 4) →
  lunpackresponse (response_body kind s d) = Some (Some (Data s (negb (kind =? 0)) d (kind =? 3))).
Proof.
  intros Hs Hk. pose proof (len_nonneg d). unfold lunpackresponse, response_body.
  assert (len (le_bytes 4 s ++ kind :: d) = len d + 5) as -> by lens. rewrite (proj2 (Z.ltb_ge _ _)) by lia.
  rewrite (unpack_at _ [] ((kind :: d) ++ [0]) s), u32_small by (done || glue || lia).
  assert (((le_bytes 4 s ++ kind :: d) ++ [0]).[4] = Some kind) as ->.
  { rewrite <- app_assoc. cbn [app]. apply get_cell. by rewrite len_le. }
  assert (mem_read ((le_bytes 4 s ++ kind :: d) ++ [0]) 5 (len d + 5 - 5) = Some d) as ->.
  { apply (read_at _ (le_bytes 4 s ++ [kind]) d [0]); [glue|lens|lia]. }
  by destruct Hk as [->|[->|[->| ->]]].
Qed.

Lemma unpack_begin s n : 0 ≤ s < 2 ^ 32 → 0 ≤ n < 2 ^ 32 →
  lunpackresponse (response_body 2 s (le_bytes 4 n)) = Some (Some (Begin s n)).
Proof.
  intros Hs Hn. unfold lunpackresponse, response_body.
  assert (len (le_bytes 4 s ++ 2 :: le_bytes 4 n) = 9) as -> by lens. cbn [Z.ltb Z.compare Pos.compare Pos.compare_cont].
  rewrite (unpack_at _ [] ((2 :: le_bytes 4 n) ++ [0]) s), u32_small by (done || glue || lia).
  assert (((le_bytes 4 s ++ 2 :: le_bytes 4 n) ++ [0]).[4] = Some 2) as ->.
  { rewrite <- app_assoc. cbn [app]. apply get_cell. by rewrite len_le. }
  cbn [Z.eqb Pos.eqb negb]. by rewrite (unpack_at _ (le_bytes 4 s ++ [2]) [0] n), u32_small by (done || glue || lens).
Qed.

(** The table that socketchannel.lua collects for [concat]. *)
Definition result_table (rs : list response) : list slot :=
  map (λ r, match r with Data _ _ msg _ => SString (map Some msg) | Begin _ size => SNumber size end) rs.

Definition response_session (r : response) : Z := match r with Data s _ _ _ => s | Begin s _ => s end.

Lemma unpack_cut s d : 0 ≤ s < 2 ^ 32 → 0 < len d → ∃ rs,
  mapM lunpackresponse (cut (response_body 3 s) (response_body 4 s) (parts_of d) d) = Some (map Some rs) ∧
  Forall (λ r, response_session r = s) rs ∧ ∃ ps, result_table rs = strings ps ∧ concat ps = d ∧
  Forall (λ b, len b < 65536) (cut (response_body 3 s) (response_body 4 s) (parts_of d) d).
Proof.
  intros Hs Hd. revert d Hd. apply parts_ind.
  - intros d Hd. rewrite cut_last by done. exists [Data s true d false]. cbn [mapM]. rewrite unpack_response by auto. cbn. split; [done|]. split; [by constructor|].
    exists [d]. split; [done|]. split; [cbn; by rewrite app_nil_r|]. constructor; [|constructor].
    unfold response_body, MULTI_PART in *. lens.
  - intros p d Hp Hd (rs & E & Hrs & ps & Et & Ec & Hl). rewrite (cut_cons _ _ _ p d) by done.
    exists (Data s true p true :: rs). cbn [mapM]. rewrite unpack_response by auto. cbn. rewrite E. cbn.
    split; [done|]. split; [by constructor|]. exists (p :: ps). cbn. fold (result_table rs). rewrite Et, Ec. split; [done|]. split; [done|].
    constructor; [|done]. unfold response_body, MULTI_PART in *. lens.
Qed.

(** C38: a response: what [packresponse] makes of a string or of a block (below 2 GB), the
    other side reads with [unpackresponse]: the session, and the data, or for an
    error at most 32 KB of it; a longer response comes in parts that [concat] puts
    together. *)
Theorem cluster_responses session ok d h : 0 ≤ session < 2 ^ 32 → len d < 2 ^ 31 →
  ∃ bodies rs, lpackresponse session ok (PString d) h = Ok (map (λ b, map Some (frame b)) bodies, h) ∧
    (∀ p, blocks h !! p = Some (map Some d) →
       lpackresponse session ok (PUserdata (Z.pos p) (len d)) h = Ok (map (λ b, map Some (frame b)) bodies, h)) ∧
    Forall (λ b, len b < 65536) bodies ∧ mapM lunpackresponse bodies = Some (map Some rs) ∧
    Forall (λ r, response_session r = session) rs ∧
    if ok && (MULTI_PART <? len d)
    then lconcat (result_table rs) h = Ok (Some (Z.pos (brk h), len d), alloc d h)
    else rs = [Data session ok (if ok then d else take (Z.to_nat MULTI_PART) d) false].
Proof.
  intros Hs Hd. pose proof (len_nonneg d). pose proof (packresponse_ok session ok d Hs Hd) as Ep.
  assert (∀ bs, packresponse session ok (map Some d) (len d) = Some bs →
    lpackresponse session ok (PString d) h = Ok (bs, h) ∧
    ∀ p, blocks h !! p = Some (map Some d) → lpackresponse session ok (PUserdata (Z.pos p) (len d)) h = Ok (bs, h)) as Hl.
  { intros bs E. split.
    - unfold lpackresponse. by rewrite E.
    - intros p Hp. unfold lpackresponse. cbn [Z.eqb]. unfold bind, load. rewrite Hp, u64_small by lia. by rewrite E. }
  destruct (Hl _ Ep) as [H1 H2]. clear Hl Ep. exists (response_bodies session ok d).
  unfold response_bodies in *. destruct (ok && (MULTI_PART <? len d)) eqn:Em.
  - apply andb_prop in Em as [-> Em%Z.ltb_lt]. destruct (unpack_cut session d) as (rs & E & Hrs & ps & Et & Ec & Hb); [done|unfold MULTI_PART in *; lia|].
    exists (Begin session (len d) :: rs). split; [done|]. split; [done|]. split; [|split; [|split]].
    + constructor; [|done]. unfold response_body. lens.
    + cbn [mapM]. rewrite unpack_begin by lia. cbn. by rewrite E.
    + by constructor.
    + cbn. fold (result_table rs). rewrite Et, <- Ec. apply concat_parts. rewrite Ec. lia.
  - set (d' := if ok then d else take (Z.to_nat MULTI_PART) d) in *.
    assert (len d' ≤ MULTI_PART) as Hd'.
    { unfold d'. destruct ok; [cbn in Em; by apply Z.ltb_ge in Em|]. unfold len, MULTI_PART in *. rewrite length_take. lia. }
    exists [Data session ok d' false]. split; [done|]. split; [done|]. split; [|split; [|split]].
    + constructor; [|constructor]. unfold response_body, MULTI_PART in *. lens.
    + cbn [mapM]. rewrite unpack_response by (done || destruct ok; auto). by destruct ok.
    + by repeat constructor.
    + done.
Qed.

Lemma cluster_responses_witness : (0 ≤ 7 < 2 ^ 32 ∧ len (str "ok") < 2 ^ 31) ∧ ∃ bodies rs,
  lpackresponse 7 true (PString (str "ok")) (Heap ∅ 1) = Ok (map (λ b, map Some (frame b)) bodies, Heap ∅ 1) ∧
  mapM lunpackresponse bodies = Some (map Some rs) ∧ rs = [Data 7 true (str "ok") false].
Proof.
  split; [split; [lia|vm_compute; reflexivity]|].
  destruct (cluster_responses 7 true (str "ok") (Heap ∅ 1) ltac:(lia) ltac:(vm_compute; reflexivity))
    as (bodies & rs & H1 & _ & _ & H2 & _ & H3).
  exists bodies, rs. split; [exact H1|]. split; [exact H2|exact H3].
Defined.

(** ** Malformed packages *)

Definition unharmed {A} (h : heap) (o : outcome (result A * heap)) : Prop :=
  match o with Ok (Error _, h') => h' = h | Ok (Return _, _) => True | _ => False end.

Lemma unpack_word_some buf k : 0 ≤ k → k + 4 ≤ len buf → ∃ x, unpack_uint32 buf k = Some x.
Proof.
  intros Hk Hl. unfold unpack_uint32.
  destruct (arr_get_is_Some buf k) as [a ->]; [lia|]. destruct (arr_get_is_Some buf (k + 1)) as [b ->]; [lia|].
  destruct (arr_get_is_Some buf (k + 2)) as [c ->]; [lia|]. destruct (arr_get_is_Some buf (k + 3)) as [d ->]; [lia|].
  by eexists.
Qed.

(** The next read of a package is inside it. *)
Ltac read_step :=
  match goal with
  | |- context [unpack_uint32 ?b ?k] => destruct (unpack_word_some b k) as [? ->]; [lia|lia|]
  | |- context [mem_read ?b ?k ?n] => destruct (mem_read_some b k n) as [? ->]; [lia|lia|lia|]
  end; cbn [must]; unfold ret.

(** C39: [unpackrequest] reads no byte outside a string, whatever another node
    sends: it returns its results, or raises an error and then has allocated nothing. *)
Theorem lunpackrequest_total s h : bytes s → len s < 2 ^ 31 → unharmed h (lunpackrequest (LString s) h).
Proof.
  intros Hb Hl. pose proof (len_nonneg s). unfold lunpackrequest. rewrite s32_small by lia.
  assert (len (s ++ [0]) = len s + 1) as El by lens. set (buf := s ++ [0]) in *. set (n := len s) in *.
  assert (bytes buf) as Hbuf by (apply Forall_app; split; [done|by repeat constructor]).
  unfold unpackrequest, bind at 1. destruct (arr_get_is_Some buf 0) as [kind Ek]; [lia|]. rewrite Ek. cbn [must]. unfold ret at 1.
  assert (0 < kind → 1 ≤ n) as Hne.
  { intros Hk. destruct (Z.eq_dec n 0) as [E0|]; [|lia]. unfold buf in Ek. unfold n, len in E0.
    destruct s; [|cbn in E0; lia]. injection Ek as <-. lia. }
  assert (unharmed h (unpackreq_number buf n h)) as U0.
  { unfold unpackreq_number. destruct (Z.ltb_spec n 9); [done|]. unfold bind, return_buffer, bind. by repeat read_step. }
  assert (∀ b, unharmed h (unpackmreq_number buf n b h)) as U1.
  { intros b. unfold unpackmreq_number. destruct (Z.eqb_spec n 13); [|done]. unfold bind. by repeat read_step. }
  assert (unharmed h (unpackmreq_part buf n h)) as U2.
  { unfold unpackmreq_part. destruct (Z.ltb_spec n 5); [done|]. unfold bind. rewrite Ek. cbn [must]. unfold ret at 1.
    unfold return_buffer, bind. by repeat read_step. }
  assert (0 < kind → unharmed h (unpacktrace buf n h)) as U3.
  { intros Hk. specialize (Hne Hk). unfold unpacktrace, bind. by repeat read_step. }
  assert (unharmed h (unpackreq_string buf n h)) as U4.
  { unfold unpackreq_string. destruct (Z.ltb_spec n 2); [done|]. unfold bind. destruct (arr_get_is_Some buf 1) as [z Ez]; [lia|].
    pose proof (arr_get_Forall _ _ _ _ Hbuf Ez). cbn beta in *. rewrite Ez. cbn [must]. unfold ret at 1.
    destruct (Z.ltb_spec n (z + 6)); [done|]. unfold return_buffer, bind. by repeat read_step. }
  assert (∀ b, unharmed h (unpackmreq_string buf n b h)) as U5.
  { intros b. unfold unpackmreq_string. destruct (Z.ltb_spec n 2); [done|]. unfold bind. destruct (arr_get_is_Some buf 1) as [z Ez]; [lia|].
    pose proof (arr_get_Forall _ _ _ _ Hbuf Ez). cbn beta in *. rewrite Ez. cbn [must]. unfold ret at 1.
    destruct (Z.ltb_spec n (z + 10)); [done|]. by repeat read_step. }
  repeat case_match; try done; apply U3; lia.
Qed.

Lemma lunpackrequest_total_witness : bytes [0x80; 200; 1] ∧ unharmed (Heap ∅ 1) (lunpackrequest (LString [0x80; 200; 1]) (Heap ∅ 1)).
Proof.
  assert (bytes [0x80; 200; 1]) as H by (repeat constructor; lia). split; [exact H|].
  exact (lunpackrequest_total [0x80; 200; 1] (Heap ∅ 1) H ltac:(vm_compute; reflexivity)).
Defined.

(** The head of a request of 2 GB, and its last part. *)
Definition huge_request : list (list Z) := [[1; 9; 0; 0; 0; 5; 0; 0; 0; 0; 0; 0; 128]; [3; 5; 0; 0; 0; 7]].

