(* ===== verification/Threads.v ===== *)
(** * Threads

    A thread is a tree of atomic steps over a shared state: it ends with a
    value, or makes a step, which is a computation of [Kernel]'s monad, and goes
    on with its answer.  Threads of a pool interleave step by step.

    Safety of a pool is proved thread by thread.  The shared state satisfies an
    invariant [I W] that depends on the multiset [W] of tokens handed out; each
    thread owns some of them.  [wpt p Q T]: owning [T], whatever the others own
    and do, [p] never aborts, each of its steps keeps the invariant, and if it
    ends it owns tokens that satisfy [Q].  Only states that are [nominal] count,
    a predicate on the shared state that says which runs are considered. *)

From stdpp Require Import gmultiset.
From S2P Require Import Prelude Kernel.

Inductive prog (S A : Type) : Type :=
| Ret (x : A)
| Step {B : Type} (m : M S B) (k : B → prog S A).
Arguments Ret {S A} x.
Arguments Step {S A B} m k.

Definition atomic {S A} (m : M S A) : prog S A := Step m Ret.

Fixpoint pbind {S A B} (p : prog S A) (f : A → prog S B) : prog S B :=
  match p with Ret x => f x | Step m k => Step m (λ x, pbind (k x) f) end.

Notation "x ⤆ p ; k" := (pbind p (λ x, k))
  (at level 20, p at level 100, k at level 200, only parsing) : skynet_scope.
Notation "' x ⤆ p ; k" := (pbind p (λ x, k))
  (at level 20, x pattern, p at level 100, k at level 200, only parsing) : skynet_scope.
Notation "p ;;; k" := (pbind p (λ _, k)) (at level 100, k at level 200, right associativity, only parsing) : skynet_scope.

(** A list of values, each handled by a program. *)
Fixpoint for_each {S A} (f : A → prog S unit) (l : list A) : prog S unit :=
  match l with [] => Ret tt | x :: l => f x;;; for_each f l end.

(** A thread alone. *)
Fixpoint run {S A} (p : prog S A) : M S A :=
  match p with Ret x => ret x | Step m k => x ⟵ m; run (k x) end.

Lemma run_bind {S A B} (p : prog S A) (f : A → prog S B) s :
  run (pbind p f) s = bind (run p) (λ x, run (f x)) s.
Proof.
  revert s. induction p as [x|C m k IH]; intros s; simpl; [done|].
  unfold bind. destruct (m s) as [[x s']| |]; [|done|done]. by rewrite IH.
Qed.

(** ** Pools *)

Section Pool.
Context {S : Type}.

Definition pool : Type := list (prog S unit) * S.

Inductive pool_step : pool → pool → Prop :=
| thread_step ts s i B (m : M S B) k x s' :
    ts !! i = Some (Step m k) → m s = Ok (x, s') →
    pool_step (ts, s) (<[i := k x]> ts, s').

(** Some thread's next step aborts. *)
Definition aborts (c : pool) : Prop :=
  ∃ (i : nat) (B : Type) (m : M S B) (k : B → prog S unit), c.1 !! i = Some (Step m k) ∧ m c.2 = Abort.

(** A step of thread [i]; [Stop] when it has ended or cannot run. *)
Definition sched_step (i : nat) (c : pool) : outcome pool :=
  match c.1 !! i with
  | Some (Step m k) => match m c.2 with
                       | Ok (x, s) => Ok (<[i := k x]> c.1, s)
                       | Stop => Stop
                       | Abort => Abort
                       end
  | _ => Stop
  end.

(** A scheduler: [ids] are the threads to run, passing over those that cannot; it
    stops at a state that is not [ok]. *)
Fixpoint schedule (ok : S → bool) (ids : list nat) (c : pool) : outcome pool :=
  if ok c.2 then
    match ids with
    | [] => Ok c
    | i :: ids => match sched_step i c with
                  | Ok c' => schedule ok ids c'
                  | Stop => schedule ok ids c
                  | Abort => Abort
                  end
    end
  else Stop.

Lemma sched_step_pool i c c' : sched_step i c = Ok c' → pool_step c c'.
Proof.
  destruct c as [ts s]. unfold sched_step. simpl.
  destruct (ts !! i) as [[x|B m k]|] eqn:E; [done| |done].
  destruct (m s) as [[x s']| |] eqn:Em; [|done|done]. intros [= <-]. by eapply thread_step.
Qed.

Lemma sched_step_abort i c : sched_step i c = Abort → aborts c.
Proof.
  unfold sched_step, aborts. destruct (c.1 !! i) as [[x|B m k]|] eqn:E; [done| |done].
  destruct (m c.2) as [[x s']| |] eqn:Em; [done|done|]. intros _. by exists i, B, m, k.
Qed.

Lemma schedule_steps ok (P : S → Prop) ids : (∀ s, ok s = true → P s) → ∀ c c', schedule ok ids c = Ok c' →
  rtc (λ c c', P c.2 ∧ pool_step c c') c c' ∧ P c'.2.
Proof.
  intros HP. induction ids as [|i ids IH]; intros c c'; cbn [schedule]; destruct (ok c.2) eqn:Hn; try done;
    apply HP in Hn.
  - intros [= <-]. by split; [apply rtc_refl|].
  - destruct (sched_step i c) as [c1| |] eqn:E; [|by apply IH|done]. intros [Hr ?]%IH. split; [|done].
    eapply rtc_l; [|exact Hr]. split; [done|by eapply sched_step_pool].
Qed.

(** ** Proofs thread by thread *)

Context `{Countable K} (I : gmultiset K → S → Prop) (nominal : S → Prop).

Fixpoint wpt {A} (p : prog S A) (Q : A → gmultiset K → Prop) (T : gmultiset K) : Prop :=
  match p with
  | Ret x => Q x T
  | Step m k => ∀ F s, I (T ⊎ F) s → nominal s →
      match m s with
      | Ok (x, s') => ∃ T', I (T' ⊎ F) s' ∧ wpt (k x) Q T'
      | Stop => True
      | Abort => False
      end
  end.

Lemma wpt_mono {A} (p : prog S A) (Q Q' : A → gmultiset K → Prop) T :
  wpt p Q T → (∀ x T, Q x T → Q' x T) → wpt p Q' T.
Proof.
  intros Hp HQ. revert T Hp. induction p as [x|B m k IH]; simpl; intros T Hp; [by apply HQ|].
  intros F s Hi Hn. specialize (Hp F s Hi Hn). destruct (m s) as [[x s']| |]; [|done|done].
  destruct Hp as (T' & Hi' & Hp). exists T'. split; [done|]. by apply IH.
Qed.

Lemma wpt_bind {A B} (p : prog S A) (f : A → prog S B) Q T :
  wpt p (λ x T', wpt (f x) Q T') T → wpt (pbind p f) Q T.
Proof.
  revert T. induction p as [x|C m k IH]; simpl; intros T Hp; [done|].
  intros F s Hi Hn. specialize (Hp F s Hi Hn). destruct (m s) as [[x s']| |]; [|done|done].
  destruct Hp as (T' & Hi' & Hp). exists T'. split; [done|]. by apply IH.
Qed.

Lemma wpt_frame {A} (p : prog S A) Q T R :
  wpt p Q T → wpt p (λ x T', ∃ T1, T' = T1 ⊎ R ∧ Q x T1) (T ⊎ R).
Proof.
  revert T. induction p as [x|C m k IH]; simpl; intros T Hp; [by exists T|].
  intros F s Hi Hn. specialize (Hp (R ⊎ F) s).
  rewrite (assoc_L (⊎)) in Hp. specialize (Hp Hi Hn).
  destruct (m s) as [[x s']| |]; [|done|done].
  destruct Hp as (T' & Hi' & Hp). exists (T' ⊎ R). rewrite <- (assoc_L (⊎)). split; [done|].
  by apply IH.
Qed.

(** Run [p] on the part [T] of the tokens. *)
Lemma wpt_call {A B} (p : prog S A) (f : A → prog S B) (Q1 : A → gmultiset K → Prop) Q T R :
  wpt p Q1 T → (∀ x T', Q1 x T' → wpt (f x) Q (T' ⊎ R)) → wpt (pbind p f) Q (T ⊎ R).
Proof.
  intros Hp Hf. apply wpt_bind. eapply wpt_mono; [by apply wpt_frame|].
  intros x T' (T1 & -> & H1). by apply Hf.
Qed.

Lemma wpt_atomic {A} (m : M S A) Q T :
  (∀ F s, I (T ⊎ F) s → nominal s →
     match m s with
     | Ok (x, s') => ∃ T', I (T' ⊎ F) s' ∧ Q x T'
     | Stop => True
     | Abort => False
     end) → wpt (atomic m) Q T.
Proof. done. Qed.

Lemma wpt_for_each {A} (f : A → prog S unit) (R : A → gmultiset K) (l : list A) :
  (∀ x, x ∈ l → wpt (f x) (λ _ T, T = ∅) (R x)) →
  wpt (for_each f l) (λ _ T, T = ∅) (⋃+ (R <$> l)).
Proof.
  induction l as [|x l IH]; intros Hf; [done|]. cbn [for_each fmap list_fmap].
  rewrite gmultiset_disj_union_list_cons.
  eapply wpt_call; [apply Hf; set_solver|]. intros _ T' ->.
  rewrite (left_id_L ∅ (⊎)). apply IH. intros y Hy. apply Hf. set_solver.
Qed.

(** ** Adequacy *)

Definition nominal_step (c c' : pool) : Prop := nominal c.2 ∧ pool_step c c'.

(** [fin]: what a thread may own when it has ended. *)
Context (fin : gmultiset K → Prop).

Definition pool_ok (c : pool) : Prop :=
  ∃ Ts : list (gmultiset K), I (⋃+ Ts) c.2 ∧ Forall2 (λ p T, wpt p (λ _ T, fin T) T) c.1 Ts.

Lemma union_list_insert (Ts : list (gmultiset K)) i T T' :
  Ts !! i = Some T → ∃ F, ⋃+ Ts = T ⊎ F ∧ ⋃+ (<[i := T']> Ts) = T' ⊎ F.
Proof.
  revert i. induction Ts as [|T0 Ts IH]; intros [|i] Hi; simpl in *; simplify_eq.
  - by exists (⋃+ Ts).
  - destruct (IH i Hi) as (F & -> & ->). exists (T0 ⊎ F). split; multiset_solver.
Qed.

Lemma pool_step_ok c c' : pool_ok c → nominal_step c c' → pool_ok c'.
Proof.
  intros (Ts & Hi & Hp) [Hn Hs]. destruct Hs as [ts s i B m k x s' Et Em]. simpl in *.
  destruct (Forall2_lookup_l _ _ _ _ _ Hp Et) as (T & ET & Hw).
  destruct (union_list_insert Ts i T ∅ ET) as (F & EU & _).
  rewrite EU in Hi. specialize (Hw F s Hi Hn). rewrite Em in Hw. destruct Hw as (T' & Hi' & Hw).
  exists (<[i := T']> Ts). destruct (union_list_insert Ts i T T' ET) as (F' & EU' & ->).
  assert (F' = F) as ->.
  { rewrite EU in EU'. by apply (inj (T ⊎.)) in EU'. }
  split; [done|]. by apply Forall2_insert.
Qed.

Lemma pool_run_ok c c' : pool_ok c → rtc nominal_step c c' → pool_ok c'.
Proof.
  intros Hc Hs. eapply (rtc_invariant nominal_step pool_ok); [done|intros; by eapply pool_step_ok|done].
Qed.

Lemma pool_ok_start ts s : I ∅ s → Forall (λ p, wpt p (λ _ T, fin T) ∅) ts → pool_ok (ts, s).
Proof.
  intros Hi Ht. exists (replicate (length ts) ∅). cbn. split.
  - assert (⋃+ replicate (length ts) ∅ = (∅ : gmultiset K)) as ->; [|done].
    clear Ht. induction ts as [|p ts IH]; [done|]. cbn [length replicate].
    by rewrite gmultiset_disj_union_list_cons, IH, (left_id_L ∅ (⊎)).
  - induction Ht as [|p ts Hp _ IH]; cbn; by constructor.
Qed.

Definition returned (p : prog S unit) : Prop := ∃ x, p = Ret x.

Lemma pool_ok_ended c : pool_ok c → Forall returned c.1 → ∃ Ts, I (⋃+ Ts) c.2 ∧ Forall fin Ts.
Proof.
  intros (Ts & Hi & Hp) Hr. exists Ts. split; [done|]. clear Hi. induction Hp as [|p T ts Ts Hp _ IH]; [done|].
  apply Forall_cons in Hr as [[x ->] Hr]. constructor; [done|by apply IH].
Qed.

Lemma pool_ok_no_abort c : pool_ok c → nominal c.2 → ¬ aborts c.
Proof.
  intros (Ts & Hi & Hp) Hn (i & B & m & k & Et & Em).
  destruct (Forall2_lookup_l _ _ _ _ _ Hp Et) as (T & ET & Hw).
  destruct (union_list_insert Ts i T ∅ ET) as (F & EU & _). rewrite EU in Hi.
  specialize (Hw F _ Hi Hn). by rewrite Em in Hw.
Qed.

End Pool.
Arguments pool S : clear implicits.
