(* ===== verification/Text.v ===== *)
(** * Text as the C library reads and writes it

    The conversions of printf and strtol that skynet_server.c uses for handles,
    sessions and counters.  A C string is the list of its bytes without the
    terminator. *)

From S2P Require Import Prelude.

(** ** printf *)

Definition digit_char (d : Z) : Z := if d <? 10 then 48 + d else 87 + d.

(** The digits of [n] to [base]; [fuel] bounds their number. *)
Fixpoint digits (fuel : nat) (base n : Z) : list Z :=
  match fuel with
  | O => []
  | S fuel => (if n <? base then [] else digits fuel base (n / base)) ++ [digit_char (n mod base)]
  end.

(** [%x] and [%u] of an unsigned int, [%d] of an int, [%08x]. *)
Definition fmt_x (n : Z) : list Z := digits 8 16 n.
Definition fmt_u (n : Z) : list Z := digits 20 10 n.
Definition fmt_d (n : Z) : list Z := if n <? 0 then 45 :: fmt_u (- n) else fmt_u n.
Definition fmt_08x (n : Z) : list Z := replicate (8 - length (fmt_x n)) 48 ++ fmt_x n.

(** ** strtol *)

Definition is_space (c : Z) : bool := (c =? 32) || (9 <=? c) && (c <=? 13).

Definition digit_value (c : Z) : option Z :=
  if (48 <=? c) && (c <=? 57) then Some (c - 48)
  else if (97 <=? c) && (c <=? 122) then Some (c - 87)
  else if (65 <=? c) && (c <=? 90) then Some (c - 55)
  else None.

Fixpoint skip_spaces (s : list Z) : list Z :=
  match s with c :: s' => if is_space c then skip_spaces s' else s | [] => [] end.

(** The value of the longest prefix of digits. *)
Fixpoint read_digits (base acc : Z) (s : list Z) : Z :=
  match s with
  | c :: s' => match digit_value c with
               | Some d => if d <? base then read_digits base (acc * base + d) s' else acc
               | None => acc
               end
  | [] => acc
  end.

Definition hex_prefix (s : list Z) : bool :=
  match s with
  | 48 :: x :: c :: _ => ((x =? 120) || (x =? 88)) &&
      match digit_value c with Some d => d <? 16 | None => false end
  | _ => false
  end.

(** Sign and magnitude; [base] 0 goes by the prefix. *)
Definition strto (base : Z) (s : list Z) : bool * Z :=
  let s := skip_spaces s in
  let '(neg, s) := match s with
                   | 45 :: s => (true, s)
                   | 43 :: s => (false, s)
                   | _ => (false, s)
                   end in
  if ((base =? 16) || (base =? 0)) && hex_prefix s then (neg, read_digits 16 0 (drop 2 s))
  else
    let base := if base =? 0 then match s with 48 :: _ => 8 | _ => 10 end else base in
    (neg, read_digits base 0 s).

(** For a 64-bit long; an overflow saturates. *)
Definition strtol (base : Z) (s : list Z) : Z :=
  let '(neg, n) := strto base s in
  if neg then Z.max INT64_MIN (- n) else Z.min INT64_MAX n.

Definition strtoul (base : Z) (s : list Z) : Z :=
  let '(neg, n) := strto base s in
  if 2 ^ 64 <=? n then 2 ^ 64 - 1 else if neg then u64 (- n) else n.

(** ** What is printed is read back *)

Lemma digit_value_char d : 0 ≤ d < 16 → digit_value (digit_char d) = Some d ∧ 48 ≤ digit_char d
  ∧ is_space (digit_char d) = false.
Proof.
  intros H. unfold digit_value, digit_char, is_space.
  destruct (Z.ltb_spec d 10); zcases; cbn; try lia; split_and!; try done; try lia; f_equal; lia.
Qed.

(** Text made of digits of [base]. *)
Definition numeral (base : Z) (s : list Z) : Prop :=
  Forall (λ c, ∃ d, 0 ≤ d < base ∧ digit_value c = Some d ∧ 48 ≤ c ∧ is_space c = false) s.

Fixpoint value (base acc : Z) (s : list Z) : Z :=
  match s with
  | c :: s => value base (acc * base + default 0 (digit_value c)) s
  | [] => acc
  end.

Lemma read_numeral base s : numeral base s → ∀ acc, read_digits base acc s = value base acc s.
Proof.
  induction 1 as [|c s (d & Hd & E & _) _ IH]; intros acc; cbn [read_digits value]; [done|].
  rewrite E. cbn [default id]. rewrite (proj2 (Z.ltb_lt d base)) by lia. apply IH.
Qed.

Lemma value_snoc base s c : ∀ acc, value base acc (s ++ [c]) = value base acc s * base + default 0 (digit_value c).
Proof. induction s as [|c' s IH]; intros acc; simpl; [done|apply IH]. Qed.

Lemma digits_spec base : 2 ≤ base ≤ 16 → ∀ fuel n, 0 ≤ n < base ^ Z.of_nat fuel →
  numeral base (digits fuel base n) ∧ value base 0 (digits fuel base n) = n ∧ (0 < Z.of_nat fuel → digits fuel base n ≠ []).
Proof.
  intros Hb. induction fuel as [|fuel IH]; intros n Hn.
  { cbn in *. split_and!; [constructor|lia|lia]. }
  assert (0 ≤ n mod base < base) as Hm by (apply Z.mod_pos_bound; lia).
  destruct (digit_value_char (n mod base)) as (E & Hc & Hs); [lia|].
  assert (numeral base [digit_char (n mod base)]) as Hlast.
  { constructor; [|constructor]. eexists. done. }
  cbn [digits]. rewrite value_snoc, E. cbn [default id].
  destruct (Z.ltb_spec n base) as [Hlt|Hge].
  - rewrite Z.mod_small by lia. rewrite Z.mod_small in Hlast by lia. cbn. split_and!; [done|lia|done].
  - rewrite Nat2Z.inj_succ, Z.pow_succ_r in Hn by lia.
    destruct (IH (n / base)) as (H1 & H2 & _).
    { split; [apply Z.div_pos; lia|]. apply Z.div_lt_upper_bound; lia. }
    rewrite H2. split_and!; [by apply Forall_app|rewrite (Z.div_mod n base) at 3; lia|].
    intros _ Hx. by apply app_nil in Hx as [_ Hx].
Qed.

(** A numeral without a prefix, to a given base. *)
Lemma strto_numeral base s : base = 10 ∨ base = 16 → numeral base s → hex_prefix s = false →
  strto base s = (false, value base 0 s).
Proof.
  intros Hb Hs Hx. unfold strto.
  assert (skip_spaces s = s) as ->.
  { destruct Hs as [|c s (d & _ & _ & _ & E)]; [done|]. simpl. by rewrite E. }
  assert ((match s with 45 :: s => (true, s) | 43 :: s => (false, s) | _ => (false, s) end) = (false, s)) as ->.
  { destruct Hs as [|c s (d & _ & _ & Hc & _)]; [done|].
    destruct c as [|p|p]; [done| |done]. do 6 (destruct p as [p|p|]; try done; try lia). }
  rewrite Hx, andb_false_r. destruct (Z.eqb_spec base 0); [lia|]. by rewrite read_numeral.
Qed.

Lemma numeral_no_prefix s : numeral 16 s → hex_prefix s = false.
Proof.
  intros H. destruct H as [|c s _ H]; [done|]. destruct H as [|x s (d & Hd & E & _) _].
  - destruct c as [|p|p]; [done| |done]. by do 6 (destruct p as [p|p|]; try done).
  - assert ((x =? 120) || (x =? 88) = false) as Hx.
    { destruct (Z.eqb_spec x 120) as [->|]; [injection E as <-; lia|].
      destruct (Z.eqb_spec x 88) as [->|]; [injection E as <-; lia|done]. }
    destruct c as [|p|p]; [done| |done]. do 6 (destruct p as [p|p|]; try done).
    destruct s as [|c' s']; [done|]. cbn [hex_prefix]. by rewrite Hx.
Qed.

Lemma strtoul_numeral s : numeral 16 s → 0 ≤ value 16 0 s < 2 ^ 64 → strtoul 16 s = value 16 0 s.
Proof.
  intros H Hv. unfold strtoul. rewrite strto_numeral; [|by right|done|by apply numeral_no_prefix].
  by rewrite (proj2 (Z.leb_gt _ _)) by lia.
Qed.

(** [strtoul(..., 16)] reads what [%x] wrote. *)
Lemma strtoul_fmt_x n : 0 ≤ n < 2 ^ 32 → strtoul 16 (fmt_x n) = n.
Proof.
  intros H. destruct (digits_spec 16 ltac:(lia) 8 n) as (Hn & Hv & _); [done|].
  unfold fmt_x. rewrite strtoul_numeral; [done|done|lia].
Qed.
