(* ===== verification/Harbor.v ===== *)
(** * Messages between nodes: service-src/service_harbor.c

    The harbor service of a node has a connection ([slave]) to each other node.
    Messages for handles of another node wait in a ring until the connection is
    up, messages for global names in a ring of the name until the handle is known.
    A message goes over the connection as a 4-byte size, its data, and a 12-byte
    header behind them; one byte with the node's id starts a connection.

    The functions run in the monad of [Kernel] over [world]: the state of the
    service, the calls it makes, in order, and the results of [skynet_send] still to
    come.  Message data are lists of bytes; ownership shows in the calls [Free],
    [Send] (with [PTYPE_TAG_DONTCOPY]) and in the queues. *)

From S2P Require Import Prelude Kernel Text.

Definition HASH_SIZE : Z := 4096.
Definition DEFAULT_QUEUE_SIZE : Z := 1024.
Definition HEADER_COOKIE_LENGTH : Z := 12.
Definition STATUS_WAIT : Z := 0.
Definition STATUS_HANDSHAKE : Z := 1.
Definition STATUS_HEADER : Z := 2.
Definition STATUS_CONTENT : Z := 3.
Definition STATUS_DOWN : Z := 4.
Definition REMOTE_MAX : Z := 256.
Definition GLOBALNAME_LENGTH : Z := 16.
Definition HANDLE_MASK : Z := 0xffffff.
Definition HANDLE_REMOTE_SHIFT : Z := 24.
Definition PTYPE_TEXT : Z := 0.
Definition PTYPE_SYSTEM : Z := 4.
Definition PTYPE_HARBOR : Z := 5.
Definition PTYPE_SOCKET : Z := 6.
Definition PTYPE_ERROR : Z := 7.
Definition PTYPE_TAG_DONTCOPY : Z := 0x10000.

(** ** State *)

Record remote_message_header := Header { rh_source : Z; rh_destination : Z; rh_session : Z }.

Record harbor_msg := HarborMsg { hm_header : remote_message_header; hm_buffer : list Z }.

Record harbor_msg_queue := Queue { q_size : Z; q_head : Z; q_tail : Z; q_data : list (option harbor_msg) }.

Record keyvalue := KeyValue { kv_key : list Z; kv_hash : Z; kv_value : Z; kv_queue : option harbor_msg_queue }.

Record slave := Slave {
  s_fd : Z;
  s_queue : option harbor_msg_queue;
  s_status : Z;
  s_length : Z;
  s_read : Z;
  s_size : list Z;
  s_recv_buffer : option block
}.

(** The chains of the map are lists. *)
Record harbor := Harbor { h_id : Z; h_slave : Z; h_map : list (list keyvalue); h_s : list slave }.

#[export] Instance eta_header : Eta remote_message_header := λ h, Header (rh_source h) (rh_destination h) (rh_session h).
#[export] Instance eta_queue : Eta harbor_msg_queue := λ q, Queue (q_size q) (q_head q) (q_tail q) (q_data q).
#[export] Instance eta_keyvalue : Eta keyvalue := λ n, KeyValue (kv_key n) (kv_hash n) (kv_value n) (kv_queue n).
#[export] Instance eta_slave : Eta slave := λ s,
  Slave (s_fd s) (s_queue s) (s_status s) (s_length s) (s_read s) (s_size s) (s_recv_buffer s).
#[export] Instance eta_harbor : Eta harbor := λ h, Harbor (h_id h) (h_slave h) (h_map h) (h_s h).

(** What the service calls; [Send] without data is one of [NULL]. *)
Inductive effect :=
| Send (source destination type session : Z) (data : option (list Z))
| SocketSend (fd : Z) (data : list Z)
| SocketStart (fd : Z)
| SocketClose (fd : Z)
| Free (data : list Z)
| Log (text : list Z).

Record world := World { hb : harbor; trace : list effect; answers : list Z }.

Definition emit (e : effect) : M world unit := λ w, Ok (tt, World (hb w) (trace w ++ [e]) (answers w)).

Definition skynet_send (source destination type session : Z) (data : option (list Z)) : M world Z := λ w,
  match answers w with
  | r :: rest => Ok (r, World (hb w) (trace w ++ [Send source destination type session data]) rest)
  | [] => Stop
  end.

Definition get_h : M world harbor := λ w, Ok (hb w, w).
Definition set_h (h : harbor) : M world unit := λ w, Ok (tt, World h (trace w) (answers w)).

Definition get_slave (id : Z) : M world slave := h ⟵ get_h; must (h_s h).[id].
Definition set_slave (id : Z) (s : slave) : M world unit :=
  h ⟵ get_h; l ⟵ must (h_s h).[id <- s]; set_h (h <| h_s := l |>).

(** ** Queues *)

Definition push_queue_msg (queue : harbor_msg_queue) (m : harbor_msg) : option harbor_msg_queue :=
  queue ← (if Z.rem (q_tail queue + 1) (q_size queue) =? q_head queue then
             size ← int_mul (q_size queue) 2;
             let new_buffer : list (option harbor_msg) := replicate (Z.to_nat size) None in
             new_buffer ← for_range 0 (q_size queue - 1) (λ i new_buffer,
               x ← (q_data queue).[Z.rem (i + q_head queue) (q_size queue)];
               new_buffer.[i <- x]) new_buffer;
             Some (Queue size 0 (q_size queue - 1) new_buffer)
           else Some queue);
  data ← (q_data queue).[q_tail queue <- Some m];
  Some (queue <| q_data := data |> <| q_tail := Z.rem (q_tail queue + 1) (q_size queue) |>).

Definition push_queue (queue : harbor_msg_queue) (buffer : list Z) (header : remote_message_header) : option harbor_msg_queue :=
  push_queue_msg queue {| hm_header := header; hm_buffer := buffer |}.

Definition pop_queue (queue : harbor_msg_queue) : option (option harbor_msg * harbor_msg_queue) :=
  if q_head queue =? q_tail queue then Some (None, queue)
  else
    slot ← (q_data queue).[q_head queue];
    m ← slot;
    Some (Some m, queue <| q_head := Z.rem (q_head queue + 1) (q_size queue) |>).

Definition new_queue : harbor_msg_queue :=
  {| q_size := DEFAULT_QUEUE_SIZE; q_head := 0; q_tail := 0;
     q_data := replicate (Z.to_nat DEFAULT_QUEUE_SIZE) None |}.

(** [while ((m = pop_queue(queue)) != NULL) body(m)]; the ring has fewer messages
    than slots. *)
Fixpoint drain (fuel : nat) (queue : harbor_msg_queue) (body : harbor_msg → M world unit) : M world harbor_msg_queue :=
  match fuel with
  | O => abort
  | S fuel =>
      '(m, queue) ⟵ must (pop_queue queue);
      match m with
      | Some m => body m;; drain fuel queue body
      | None => ret queue
      end
  end.

Definition drain_queue (queue : harbor_msg_queue) (body : harbor_msg → M world unit) : M world harbor_msg_queue :=
  drain (S (Z.to_nat (q_size queue))) queue body.

Definition release_queue (queue : option harbor_msg_queue) : M world unit :=
  match queue with
  | None => ret tt
  | Some queue => drain_queue queue (λ m, emit (Free (hm_buffer m)));; ret tt
  end.

(** ** Names *)

(** The little-endian word at [off] of a name. *)
Definition name_word (name : list Z) (off : nat) : Z := of_le (take 4 (drop off name)).

Definition name_hash (name : list Z) : Z :=
  name_word name 0 ^ᵤ name_word name 4 ^ᵤ name_word name 8 ^ᵤ name_word name 12.

(** [strncmp(a, b, n) == 0]. *)
Fixpoint strncmp_eq (n : nat) (a b : list Z) : bool :=
  match n, a, b with
  | O, _, _ => true
  | S n, x :: a, y :: b => (x =? y) && ((x =? 0) || strncmp_eq n a b)
  | _, _, _ => false
  end.

(** Where a node is: its chain and its place in it. *)
Definition node_ref : Type := Z * nat.

Definition hash_search (hash : list (list keyvalue)) (name : list Z) : option (option node_ref) :=
  let h := name_hash name in
  chain ← hash.[h mod HASH_SIZE];
  Some (p ← list_find (λ n, (kv_hash n =? h) && strncmp_eq 16 (kv_key n) name) chain;
        Some (h mod HASH_SIZE, p.1)).

Definition hash_insert (hash : list (list keyvalue)) (name : list Z) : option (node_ref * list (list keyvalue)) :=
  let h := name_hash name in
  chain ← hash.[h mod HASH_SIZE];
  let node := {| kv_key := name; kv_hash := h; kv_value := 0; kv_queue := None |} in
  hash ← hash.[h mod HASH_SIZE <- node :: chain];
  Some ((h mod HASH_SIZE, 0%nat), hash).

Definition hash_new : list (list keyvalue) := replicate (Z.to_nat HASH_SIZE) [].

Definition get_node (r : node_ref) : M world keyvalue :=
  h ⟵ get_h; chain ⟵ must (h_map h).[r.1]; must (chain !! r.2).
Definition set_node (r : node_ref) (n : keyvalue) : M world unit :=
  h ⟵ get_h; chain ⟵ must (h_map h).[r.1];
  map ⟵ must (h_map h).[r.1 <- <[r.2 := n]> chain];
  set_h (h <| h_map := map |>).

(** The node of a name, made if it is not there. *)
Definition name_node (name : list Z) : M world node_ref :=
  h ⟵ get_h;
  found ⟵ must (hash_search (h_map h) name);
  match found with
  | Some r => ret r
  | None =>
      '(r, map) ⟵ must (hash_insert (h_map h) name);
      set_h (h <| h_map := map |>);;
      ret r
  end.

(** ** Connections *)

Definition close_harbor (id : Z) : M world unit :=
  s ⟵ get_slave id;
  set_slave id (s <| s_status := STATUS_DOWN |>);;
  (if truth (s_fd s) then emit (SocketClose (s_fd s)) else ret tt);;
  s ⟵ get_slave id;
  match s_queue s with
  | Some q => release_queue (Some q);; set_slave id (s <| s_queue := (None : option harbor_msg_queue) |>)
  | None => ret tt
  end.

Definition report_harbor_down (id : Z) : M world unit :=
  h ⟵ get_h;
  skynet_send 0 (h_slave h) PTYPE_TEXT 0 (Some (str "D " ++ fmt_d id));;
  ret tt.

Definition to_bigendian (buffer : block) (off n : Z) : option block :=
  buffer ← buffer.[off <- Some (n >>ᵤ 24 &ᵤ 0xff)];
  buffer ← buffer.[off + 1 <- Some (n >>ᵤ 16 &ᵤ 0xff)];
  buffer ← buffer.[off + 2 <- Some (n >>ᵤ 8 &ᵤ 0xff)];
  buffer.[off + 3 <- Some (n &ᵤ 0xff)].

Definition header_to_message (header : remote_message_header) (buffer : block) (off : Z) : option block :=
  buffer ← to_bigendian buffer off (rh_source header);
  buffer ← to_bigendian buffer (off + 4) (rh_destination header);
  to_bigendian buffer (off + 8) (rh_session header).

(** The four bytes from [off] on. *)
Definition from_bigendian (buffer : list Z) (off : Z) : option Z :=
  a ← buffer.[off]; b ← buffer.[off + 1]; c ← buffer.[off + 2]; d ← buffer.[off + 3];
  Some (u32 (a <<ₛ 24 |ᵤ b <<ₛ 16 |ᵤ c <<ₛ 8 |ᵤ d)).

Definition message_to_header (buffer : list Z) (off : Z) : option remote_message_header :=
  source ← from_bigendian buffer off;
  destination ← from_bigendian buffer (off + 4);
  session ← from_bigendian buffer (off + 8);
  Some {| rh_source := source; rh_destination := destination; rh_session := session |}.

(** [msg] has all its [sz] bytes. *)
Definition forward_local_messsage (msg : list Z) (sz : Z) : M world unit :=
  h ⟵ get_h;
  header ⟵ must (message_to_header msg (sz - HEADER_COOKIE_LENGTH));
  let destination := rh_destination header in
  let type := Z.shiftr destination HANDLE_REMOTE_SHIFT in
  let destination := Z.lor (Z.land destination HANDLE_MASK) (u32 (Z.shiftl (u32 (h_id h)) HANDLE_REMOTE_SHIFT)) in
  data ⟵ must (mem_read msg 0 (sz - HEADER_COOKIE_LENGTH));
  r ⟵ skynet_send (rh_source header) destination (Z.lor type PTYPE_TAG_DONTCOPY) (s32 (rh_session header)) (Some data);
  if r <? 0 then
    (if negb (type =? PTYPE_ERROR) then
       skynet_send destination (rh_source header) PTYPE_ERROR (s32 (rh_session header)) None;; ret tt
     else ret tt);;
    emit (Log (str "Unknown destination :" ++ fmt_x destination ++ str " from :" ++ fmt_x (rh_source header) ++
               str " type(" ++ fmt_d type ++ str ")"))
  else ret tt.

Definition UINT32_MAX : Z := 2 ^ 32 - 1.

(** The bytes of the package are built in an array on the stack. *)
Definition send_buffer (data : list Z) (cookie : remote_message_header) : option (list Z) :=
  let sz_header := len data + HEADER_COOKIE_LENGTH in
  let sendbuf := malloc (sz_header + 4) in
  sendbuf ← to_bigendian sendbuf 0 (u32 sz_header);
  sendbuf ← mem_write sendbuf 4 (map Some data);
  sendbuf ← header_to_message cookie sendbuf (4 + len data);
  mapM (λ x, x) sendbuf.

Definition send_remote (fd : Z) (data : list Z) (cookie : remote_message_header) : M world unit :=
  if UINT32_MAX <? len data + HEADER_COOKIE_LENGTH then
    emit (Log (str "remote message from :" ++ fmt_08x (rh_source cookie) ++ str " to :" ++
               fmt_08x (rh_destination cookie) ++ str " is too large."))
  else
    buf ⟵ must (send_buffer data cookie);
    emit (SocketSend fd buf).

(** A message of the queue of a name, to the handle that the name now has. *)
Definition send_local (handle : Z) (m : harbor_msg) : M world unit :=
  let type := Z.shiftr (rh_destination (hm_header m)) HANDLE_REMOTE_SHIFT in
  skynet_send (rh_source (hm_header m)) handle (Z.lor type PTYPE_TAG_DONTCOPY) (s32 (rh_session (hm_header m)))
    (Some (hm_buffer m));;
  ret tt.

Definition send_queued (fd : Z) (m : harbor_msg) : M world unit :=
  send_remote fd (hm_buffer m) (hm_header m);;
  emit (Free (hm_buffer m)).

(** [s->queue] gets the messages of the name's queue. *)
Definition move_queue (harbor_id : Z) (r : node_ref) (queue : harbor_msg_queue) : M world unit :=
  s ⟵ get_slave harbor_id;
  match s_queue s with
  | None =>
      set_slave harbor_id (s <| s_queue := Some queue |>);;
      node ⟵ get_node r;
      set_node r (node <| kv_queue := (None : option harbor_msg_queue) |>)
  | Some _ =>
      queue ⟵ drain_queue queue (λ m,
        s ⟵ get_slave harbor_id;
        q ⟵ must (s_queue s);
        q ⟵ must (push_queue_msg q m);
        set_slave harbor_id (s <| s_queue := Some q |>));
      node ⟵ get_node r;
      set_node r (node <| kv_queue := Some queue |>)
  end.

(** Text up to its terminator. *)
Fixpoint c_string (s : list Z) : list Z :=
  match s with c :: s => if c =? 0 then [] else c :: c_string s | [] => [] end.

Definition dispatch_name_queue (r : node_ref) : M world unit :=
  node ⟵ get_node r;
  queue ⟵ must (kv_queue node);
  let handle := kv_value node in
  let harbor_id := Z.shiftr handle HANDLE_REMOTE_SHIFT in
  s ⟵ get_slave harbor_id;
  if s_fd s =? 0 then
    if s_status s =? STATUS_DOWN then
      emit (Log (str "Drop message to " ++ c_string (kv_key node) ++ str " (in harbor " ++ fmt_d harbor_id ++ str ")"))
    else
      move_queue harbor_id r queue;;
      h ⟵ get_h;
      if harbor_id =? Z.shiftr (h_slave h) HANDLE_REMOTE_SHIFT then
        s ⟵ get_slave harbor_id;
        q ⟵ must (s_queue s);
        q ⟵ drain_queue q (send_local handle);
        release_queue (Some q);;
        set_slave harbor_id (s <| s_queue := (None : option harbor_msg_queue) |>)
      else ret tt
  else
    queue ⟵ drain_queue queue (λ m,
      let destination := Z.lor (rh_destination (hm_header m)) (Z.land handle HANDLE_MASK) in
      let header := (hm_header m) <| rh_destination := destination |> in
      send_queued (s_fd s) {| hm_header := header; hm_buffer := hm_buffer m |});
    node ⟵ get_node r;
    set_node r (node <| kv_queue := Some queue |>).

Definition dispatch_queue (id : Z) : M world unit :=
  s ⟵ get_slave id;
  require (negb (s_fd s =? 0));;
  match s_queue s with
  | None => ret tt
  | Some queue =>
      queue ⟵ drain_queue queue (send_queued (s_fd s));
      release_queue (Some queue);;
      set_slave id (s <| s_queue := (None : option harbor_msg_queue) |>)
  end.

(** ** Data from a connection *)

(** The first connection with this descriptor, from 1 on; 0 if there is none. *)
Fixpoint find_fd (fd : Z) (i : Z) (s : list slave) : Z :=
  match s with
  | [] => 0
  | x :: s => if s_fd x =? fd then i else find_fd fd (i + 1) s
  end.

Definition harbor_id (h : harbor) (fd : Z) : Z := find_fd fd 1 (drop 1 (h_s h)).

(** The case STATUS_CONTENT: what is left, or [None] where the function returns. *)
Definition read_content (id : Z) (buffer : list Z) (size : Z) : M world (option (list Z * Z)) :=
  s ⟵ get_slave id;
  recv ⟵ must (s_recv_buffer s);
  let need := s_length s - s_read s in
  if size <? need then
    data ⟵ must (mem_read buffer 0 size);
    recv ⟵ must (mem_write recv (s_read s) (map Some data));
    set_slave id (s <| s_recv_buffer := Some recv |> <| s_read := s_read s + size |>);;
    ret None
  else
    data ⟵ must (mem_read buffer 0 need);
    recv ⟵ must (mem_write recv (s_read s) (map Some data));
    msg ⟵ must (mapM (λ x, x) recv);
    forward_local_messsage msg (s_length s);;
    set_slave id (s <| s_length := 0 |> <| s_read := 0 |> <| s_recv_buffer := (None : option block) |>
                    <| s_status := STATUS_HEADER |>);;
    if size - need =? 0 then ret None else ret (Some (advance need buffer, size - need)).

(** The case STATUS_HEADER and what it goes through to. *)
Definition read_header (id : Z) (buffer : list Z) (size : Z) : M world (option (list Z * Z)) :=
  s ⟵ get_slave id;
  let need := 4 - s_read s in
  if size <? need then
    data ⟵ must (mem_read buffer 0 size);
    sz ⟵ must (mem_write (s_size s) (s_read s) data);
    set_slave id (s <| s_size := sz |> <| s_read := s_read s + size |>);;
    ret None
  else
    data ⟵ must (mem_read buffer 0 need);
    sz ⟵ must (mem_write (s_size s) (s_read s) data);
    set_slave id (s <| s_size := sz |>);;
    b0 ⟵ must sz.[0]; b1 ⟵ must sz.[1]; b2 ⟵ must sz.[2]; b3 ⟵ must sz.[3];
    if negb (b0 =? 0) then
      emit (Log (str "Message is too long from harbor " ++ fmt_d id));;
      close_harbor id;;
      ret None
    else
      let length := Z.shiftl b1 16 |ᵤ Z.shiftl b2 8 |ᵤ b3 in
      set_slave id (s <| s_size := sz |> <| s_length := length |> <| s_read := 0 |>
                      <| s_recv_buffer := Some (malloc length) |> <| s_status := STATUS_CONTENT |>);;
      if size - need =? 0 then ret None
      else read_content id (advance need buffer) (size - need).

Definition read_handshake (id fd : Z) (buffer : list Z) (size : Z) : M world (option (list Z * Z)) :=
  s ⟵ get_slave id;
  remote_id ⟵ must buffer.[0];
  if negb (remote_id =? id) then
    emit (Log (str "Invalid shakehand id (" ++ fmt_d id ++ str ") from fd = " ++ fmt_d fd ++ str " , harbor = " ++ fmt_d remote_id));;
    close_harbor id;;
    ret None
  else
    set_slave id (s <| s_status := STATUS_HEADER |>);;
    dispatch_queue id;;
    if size - 1 =? 0 then ret (Some (advance 1 buffer, size - 1))
    else read_header id (advance 1 buffer) (size - 1).

(** The loop: each round takes a byte, or leaves STATUS_CONTENT for a message of no bytes. *)
Fixpoint read_loop (fuel : nat) (id fd : Z) (buffer : list Z) (size : Z) : M world unit :=
  match fuel with
  | O => abort
  | S fuel =>
      s ⟵ get_slave id;
      rest ⟵ (if s_status s =? STATUS_HANDSHAKE then read_handshake id fd buffer size
              else if s_status s =? STATUS_HEADER then read_header id buffer size
              else if s_status s =? STATUS_CONTENT then read_content id buffer size
              else ret None);
      match rest with
      | Some (buffer, size) => read_loop fuel id fd buffer size
      | None => ret tt
      end
  end.

Definition push_socket_data (fd : Z) (buffer : list Z) (ud : Z) : M world unit :=
  h ⟵ get_h;
  let id := harbor_id h fd in
  if id =? 0 then emit (Log (str "Invalid socket fd (" ++ fmt_d fd ++ str ") data"))
  else read_loop (2 * Z.to_nat ud + 3) id fd buffer ud.

(** ** Sending *)

Definition update_name (name : list Z) (handle : Z) : M world unit :=
  r ⟵ name_node name;
  node ⟵ get_node r;
  set_node r (node <| kv_value := handle |>);;
  match kv_queue node with
  | Some _ =>
      dispatch_name_queue r;;
      node ⟵ get_node r;
      release_queue (kv_queue node);;
      set_node r (node <| kv_queue := (None : option harbor_msg_queue) |>)
  | None => ret tt
  end.

(** 1: the message was passed on or kept; 0: the caller frees it. *)
Definition remote_send_handle (source destination type session : Z) (msg : list Z) : M world Z :=
  h ⟵ get_h;
  let harbor_id := Z.shiftr destination HANDLE_REMOTE_SHIFT in
  if harbor_id =? h_id h then
    skynet_send source destination (Z.lor type PTYPE_TAG_DONTCOPY) session (Some msg);;
    ret 1
  else
    s ⟵ get_slave harbor_id;
    let destination' := Z.lor (u32 (Z.shiftl type HANDLE_REMOTE_SHIFT)) (Z.land destination HANDLE_MASK) in
    if (s_fd s =? 0) || (s_status s =? STATUS_HANDSHAKE) then
      if s_status s =? STATUS_DOWN then
        skynet_send destination source PTYPE_ERROR 0 None;;
        emit (Log (str "Drop message to harbor " ++ fmt_d harbor_id ++ str " from " ++ fmt_x source ++ str " to " ++
                   fmt_x destination ++ str " (session = " ++ fmt_d session ++ str ", msgsz = " ++ fmt_d (s32 (len msg)) ++ str ")"));;
        ret 0
      else
        let queue := default new_queue (s_queue s) in
        let header := {| rh_source := source; rh_destination := destination'; rh_session := u32 session |} in
        queue ⟵ must (push_queue queue msg header);
        set_slave harbor_id (s <| s_queue := Some queue |>);;
        ret 1
    else
      send_remote (s_fd s) msg {| rh_source := source; rh_destination := destination'; rh_session := u32 session |};;
      ret 0.

Definition remote_send_name (source : Z) (name : list Z) (type session : Z) (msg : list Z) : M world Z :=
  r ⟵ name_node name;
  node ⟵ get_node r;
  if kv_value node =? 0 then
    let queue := default new_queue (kv_queue node) in
    let header := {| rh_source := source; rh_destination := u32 (Z.shiftl type HANDLE_REMOTE_SHIFT); rh_session := u32 session |} in
    queue ⟵ must (push_queue queue msg header);
    set_node r (node <| kv_queue := Some queue |>);;
    h ⟵ get_h;
    skynet_send 0 (h_slave h) PTYPE_TEXT 0 (Some (str "Q " ++ c_string name));;
    ret 1
  else remote_send_handle source (kv_value node) type session msg.

(** ** Commands *)

Definition handshake (id : Z) : M world unit :=
  h ⟵ get_h;
  s ⟵ get_slave id;
  emit (SocketSend (s_fd s) [u8 (h_id h)]).

(** ["%d"]: the number and what follows. *)
Fixpoint span_digits (s : list Z) : list Z * list Z :=
  match s with
  | c :: s' => if (48 <=? c) && (c <=? 57) then let '(ds, rest) := span_digits s' in (c :: ds, rest) else ([], s)
  | [] => ([], [])
  end.

Definition scan_int (s : list Z) : option (Z * list Z) :=
  let s := skip_spaces s in
  let '(sign, s) := match s with 45 :: s => ([45], s) | 43 :: s => ([], s) | _ => ([], s) end in
  let '(ds, rest) := span_digits s in
  match ds with [] => None | _ => Some (s32 (strtol 10 (sign ++ ds)), rest) end.

(** [sscanf(buffer, "%d %d", &fd, &id)] with both 0 before. *)
Definition scan_two (s : list Z) : Z * Z :=
  match scan_int s with
  | None => (0, 0)
  | Some (a, s) => match scan_int s with None => (a, 0) | Some (b, _) => (a, b) end
  end.

(** [msg] without the terminator that stands behind it. *)
Definition harbor_command (msg : list Z) (source : Z) : M world unit :=
  let name := drop 2 msg in
  let s := len msg - 2 in
  let command := default 0 (head msg) in
  if command =? 78 then
    if (s <=? 0) || (GLOBALNAME_LENGTH <=? s) then
      require (-1 <? s);;
      emit (Log (str "Invalid global name " ++ c_string name))
    else update_name (name ++ replicate (16 - length name) 0) source
  else if (command =? 83) || (command =? 65) then
    require (0 <=? s);;
    let '(fd, id) := scan_two (c_string name) in
    if (fd =? 0) || (id <=? 0) || (REMOTE_MAX <=? id) then
      emit (Log (str "Invalid command " ++ [command; 32] ++ c_string name))
    else
      slave ⟵ get_slave id;
      if negb (s_fd slave =? 0) then emit (Log (str "Harbor " ++ fmt_d id ++ str " alreay exist"))
      else
        set_slave id (slave <| s_fd := fd |>);;
        emit (SocketStart fd);;
        handshake id;;
        slave ⟵ get_slave id;
        if command =? 83 then set_slave id (slave <| s_status := STATUS_HANDSHAKE |>)
        else set_slave id (slave <| s_status := STATUS_HEADER |>);; dispatch_queue id
  else emit (Log (str "Unknown command " ++ c_string msg)).

(** ** The service *)

(** The messages of the service; the handle of a [RemoteHandle] is not 0. *)
Inductive message :=
| SocketData (fd : Z) (buffer : list Z)
| SocketClosed (fd : Z)
| SocketOther
| SocketWarning (fd ud : Z)
| SocketInvalid
| Command (msg : list Z)
| RemoteHandle (handle type : Z) (msg : list Z)
| RemoteName (name : list Z) (type : Z) (msg : list Z)
| Other (type : Z).

Definition mainloop (session source : Z) (msg : message) : M world unit :=
  match msg with
  | SocketData fd buffer => push_socket_data fd buffer (len buffer);; emit (Free buffer)
  | SocketClosed fd =>
      h ⟵ get_h;
      let id := harbor_id h fd in
      if truth id then report_harbor_down id else emit (Log (str "Unkown fd (" ++ fmt_d fd ++ str ") closed"))
  | SocketOther => ret tt
  | SocketWarning fd ud =>
      h ⟵ get_h;
      let id := harbor_id h fd in
      if truth id then
        emit (Log (str "message havn't send to Harbor (" ++ fmt_d id ++ str ") reach " ++ fmt_d ud ++ str " K"))
      else ret tt
  | SocketInvalid => emit (Log (str "recv invalid socket message type " ++ fmt_d PTYPE_SOCKET))
  | Command msg => harbor_command msg source
  | RemoteHandle handle type data =>
      r ⟵ remote_send_handle source handle type session data;
      if truth r then ret tt else emit (Free data)
  | RemoteName name type data =>
      r ⟵ remote_send_name source name type session data;
      if truth r then ret tt else emit (Free data)
  | Other type =>
      emit (Log (str "recv invalid message from " ++ fmt_x source ++ str ",  type = " ++ fmt_d type));;
      if truth session && negb (type =? PTYPE_ERROR) then
        skynet_send 0 source PTYPE_ERROR session None;; ret tt
      else ret tt
  end.

Definition slave_zero : slave :=
  {| s_fd := 0; s_queue := None; s_status := STATUS_WAIT; s_length := 0; s_read := 0; s_size := [0; 0; 0; 0]; s_recv_buffer := None |}.

(** [harbor_create] and [harbor_init], where the numbers of its argument are given. *)
Definition harbor_create (id slave : Z) : harbor :=
  {| h_id := id; h_slave := slave; h_map := hash_new; h_s := replicate (Z.to_nat REMOTE_MAX) slave_zero |}.

Definition harbor_init (harbor_id slave : Z) : option harbor :=
  if slave =? 0 then None else Some (harbor_create harbor_id slave).

Fixpoint mforeach {A} (l : list A) (f : A → M world unit) : M world unit :=
  match l with [] => ret tt | x :: l => f x;; mforeach l f end.

Definition hash_delete (hash : list (list keyvalue)) : M world unit :=
  mforeach hash (λ chain, mforeach chain (λ node, release_queue (kv_queue node))).

Definition harbor_release : M world unit :=
  mforeach (map Z.of_nat (seq 1 255)) (λ i,
    s ⟵ get_slave i;
    if truth (s_fd s) && negb (s_status s =? STATUS_DOWN) then close_harbor i else ret tt);;
  h ⟵ get_h;
  hash_delete (h_map h).

(** Messages one after the other. *)
Fixpoint service_run (l : list (Z * Z * message)) : M world unit :=
  match l with
  | [] => ret tt
  | (session, source, m) :: l => mainloop session source m;; service_run l
  end.
