(* ===== verification/HarborLink.v ===== *)
(** * The connection of two nodes keeps the messages

    What the harbor of a node sends over a connection, the harbor of the other one
    takes apart into the same messages, however the bytes arrive. *)

From S2P Require Import Prelude Kernel Text Harbor.

(** ** The bytes of a message *)

Definition be4 (n : Z) : list Z := [n / 2 ^ 24 mod 256; n / 2 ^ 16 mod 256; n / 2 ^ 8 mod 256; n mod 256].

Definition cookie (h : remote_message_header) : list Z := be4 (rh_source h) ++ be4 (rh_destination h) ++ be4 (rh_session h).

(** What goes over the connection. *)
Definition frame (m : harbor_msg) : list Z :=
  be4 (len (hm_buffer m) + HEADER_COOKIE_LENGTH) ++ hm_buffer m ++ cookie (hm_header m).

Definition word (n : Z) : Prop := 0 ≤ n < 2 ^ 32.

Definition words (h : remote_message_header) : Prop := word (rh_source h) ∧ word (rh_destination h) ∧ word (rh_session h).

Lemma len_be4 n : len (be4 n) = 4.
Proof. done. Qed.

Lemma be4_value n : word n → n / 2 ^ 24 * 2 ^ 24 + n / 2 ^ 16 mod 256 * 2 ^ 16 + n / 2 ^ 8 mod 256 * 2 ^ 8 + n mod 256 = n.
Proof.
  intros H. unfold word in H.
  assert (n / 2 ^ 16 = n / 2 ^ 8 / 256) as E1 by (rewrite Z.div_div by lia; done).
  assert (n / 2 ^ 24 = n / 2 ^ 16 / 256) as E2 by (rewrite Z.div_div by lia; done).
  pose proof (Z.div_mod n 256 ltac:(lia)). pose proof (Z.div_mod (n / 2 ^ 8) 256 ltac:(lia)).
  pose proof (Z.div_mod (n / 2 ^ 16) 256 ltac:(lia)). change (2 ^ 8) with 256 in *. lia.
Qed.

Lemma to_bigendian_spec (buf : block) a x y z t c off n :
  buf = a ++ x :: y :: z :: t :: c → off = len a →
  to_bigendian buf off n = Some (a ++ map Some (be4 n) ++ c).
Proof.
  intros -> ->. unfold to_bigendian, be4. rewrite !byte_at, low_byte by lia.
  rewrite set_cell by done.
  change (a ++ ?b1 :: y :: z :: t :: c) with (a ++ [b1] ++ y :: z :: t :: c). rewrite app_assoc.
  rewrite set_cell by (lens).
  match goal with |- context [(a ++ [?b1]) ++ ?b2 :: z :: t :: c] =>
    replace ((a ++ [b1]) ++ b2 :: z :: t :: c) with ((a ++ [b1; b2]) ++ z :: t :: c) by glue end.
  rewrite set_cell by (lens).
  match goal with |- context [(a ++ [?b1; ?b2]) ++ ?b3 :: t :: c] =>
    replace ((a ++ [b1; b2]) ++ b3 :: t :: c) with ((a ++ [b1; b2; b3]) ++ t :: c) by glue end.
  rewrite set_cell by (lens). f_equal. glue.
Qed.

Lemma from_bigendian_spec (buf a c : list Z) off n :
  buf = a ++ be4 n ++ c → off = len a → word n → from_bigendian buf off = Some n.
Proof.
  intros -> -> H. unfold from_bigendian, be4. cbn [app].
  rewrite (get_cell a) by done.
  match goal with |- context [a ++ ?b1 :: ?b2 :: ?b3 :: ?b4 :: c] =>
    replace ((a ++ b1 :: b2 :: b3 :: b4 :: c).[len a + 1]) with (Some b2) by
      (replace (a ++ b1 :: b2 :: b3 :: b4 :: c) with ((a ++ [b1]) ++ b2 :: b3 :: b4 :: c) by glue; rewrite get_cell by lens; done);
    replace ((a ++ b1 :: b2 :: b3 :: b4 :: c).[len a + 2]) with (Some b3) by
      (replace (a ++ b1 :: b2 :: b3 :: b4 :: c) with ((a ++ [b1; b2]) ++ b3 :: b4 :: c) by glue; rewrite get_cell by lens; done);
    replace ((a ++ b1 :: b2 :: b3 :: b4 :: c).[len a + 3]) with (Some b4) by
      (replace (a ++ b1 :: b2 :: b3 :: b4 :: c) with ((a ++ [b1; b2; b3]) ++ b4 :: c) by glue; rewrite get_cell by lens; done)
  end.
  f_equal.
  pose proof (be4_value n H) as Hv. unfold word in H.
  assert (n / 2 ^ 24 mod 256 = n / 2 ^ 24) as E0 by (apply Z.mod_small; split; [apply Z.div_pos|apply Z.div_lt_upper_bound]; lia).
  rewrite E0.
  assert (0 ≤ n / 2 ^ 24 < 256) as Ha by (split; [apply Z.div_pos|apply Z.div_lt_upper_bound]; lia).
  set (x0 := n / 2 ^ 24) in *. set (x1 := n / 2 ^ 16 mod 256) in *. set (x2 := n / 2 ^ 8 mod 256) in *. set (x3 := n mod 256) in *.
  assert (0 ≤ x1 < 256) by (apply Z.mod_pos_bound; lia). assert (0 ≤ x2 < 256) by (apply Z.mod_pos_bound; lia).
  assert (0 ≤ x3 < 256) by (apply Z.mod_pos_bound; lia).
  rewrite (s32_small (Z.shiftl x1 16)), (s32_small (Z.shiftl x2 8)) by (rewrite Z.shiftl_mul_pow2 by lia; lia).
  rewrite <- !Z.lor_assoc, Z.lor_comm, u32_lor_s32.
  - rewrite (u32_small (Z.shiftl x0 24)) by (rewrite Z.shiftl_mul_pow2 by lia; lia).
    rewrite Z.lor_comm, !Z.lor_assoc, lor4 by lia. lia.
  - pose proof (lor4 0 x1 x2 x3) as L. rewrite Z.shiftl_0_l, Z.lor_0_l in L. rewrite Z.lor_assoc, L by lia. lia.
Qed.

(** A message in the array on the stack. *)
Lemma send_buffer_spec data h : len data + HEADER_COOKIE_LENGTH ≤ UINT32_MAX →
  send_buffer data h = Some (frame (HarborMsg h data)).
Proof.
  intros Hl. unfold send_buffer, frame, HEADER_COOKIE_LENGTH, UINT32_MAX in *. cbn [hm_header hm_buffer].
  pose proof (len_nonneg data). rewrite u32_small by lia.
  assert (malloc (len data + 12 + 4) = [] ++ None :: None :: None :: None :: replicate (length data) None ++ replicate 12 None) as ->.
  { unfold malloc. replace (Z.to_nat _) with (4 + (length data + 12))%nat by (unfold len; lia).
    by rewrite !replicate_add. }
  rewrite (to_bigendian_spec _ [] _ _ _ _ _ _ _ eq_refl eq_refl).
  cbn [app]. rewrite mem_write_app; [|done|rewrite len_map; unfold len; by rewrite length_replicate].
  unfold header_to_message. cbn [replicate].
  erewrite (to_bigendian_spec _ (map Some (be4 (len data + 12)) ++ map Some data) None None None None (replicate 8 None)); [|glue|rewrite ?len_app, ?len_map, ?len_be4; lia].
  erewrite (to_bigendian_spec _ (map Some (be4 (len data + 12)) ++ map Some data ++ map Some (be4 (rh_source h))) None None None None (replicate 4 None)); [|glue|rewrite ?len_app, ?len_map, ?len_be4; lia].
  cbn [replicate].
  erewrite (to_bigendian_spec _ (map Some (be4 (len data + 12)) ++ map Some data ++ map Some (be4 (rh_source h)) ++ map Some (be4 (rh_destination h))) None None None None []); [|glue|rewrite ?len_app, ?len_map, ?len_be4; lia].
  rewrite app_nil_r, <- !map_app. unfold cookie. rewrite <- !app_assoc. apply mapM_id_Some.
Qed.

Lemma message_to_header_spec data h : words h →
  message_to_header (data ++ cookie h) (len data) = Some h.
Proof.
  intros (H1 & H2 & H3). unfold message_to_header, cookie.
  rewrite (from_bigendian_spec _ data (be4 (rh_destination h) ++ be4 (rh_session h)) _ (rh_source h)); [|glue|done|done].
  rewrite (from_bigendian_spec _ (data ++ be4 (rh_source h)) (be4 (rh_session h)) _ (rh_destination h)); [|glue|rewrite ?len_app, ?len_be4; lia|done].
  rewrite (from_bigendian_spec _ (data ++ be4 (rh_source h) ++ be4 (rh_destination h)) [] _ (rh_session h)); [|rewrite app_nil_r; glue|rewrite ?len_app, ?len_be4; lia|done].
  by destruct h.
Qed.

(** ** Queues *)

Record holds (q : harbor_msg_queue) (l : list harbor_msg) : Prop := {
  holds_ring : ring (q_size q) (q_head q) (q_data q) l;
  holds_tail : q_tail q = (q_head q + len l) mod q_size q;
  holds_room : len l < q_size q
}.

Lemma new_queue_holds : holds new_queue [].
Proof.
  split; [|done|done]. split; [done|done|done|]. intros i x E. apply arr_get_Some in E. unfold len in E. simpl in E. lia.
Qed.

Lemma rem_mod x y : 0 ≤ x → 0 < y → Z.rem x y = x mod y.
Proof. intros. apply Z.rem_mod_nonneg; lia. Qed.

Lemma holds_tail_range q l : holds q l → 0 ≤ q_tail q < q_size q.
Proof.
  intros [Hr Ht Hl]. pose proof (len_nonneg l). rewrite Ht. apply Z.mod_pos_bound. lia.
Qed.

(** The ring is full when the slot behind the tail is the head. *)
Lemma full_iff c h n : 0 ≤ h < c → 0 ≤ n < c → ((h + n) mod c + 1) mod c = h ↔ n = c - 1.
Proof.
  intros Hh Hn. rewrite Zplus_mod_idemp_l. rewrite mod_wrap by lia.
  destruct (Z.ltb_spec (h + n + 1) c); lia.
Qed.

(** The messages in a ring twice as large. *)
Lemma grow_spec q l size : holds q l → len l = q_size q - 1 → size = q_size q * 2 →
  ∃ buf, for_range 0 (q_size q - 1) (λ i new_buffer,
    x ← (q_data q).[Z.rem (i + q_head q) (q_size q)]; new_buffer.[i <- x])
    (replicate (Z.to_nat size) None) = Some buf ∧ holds (Queue size 0 (q_size q - 1) buf) l.
Proof.
  intros [[Hc Hh Hf Hs] Ht Hr] Hl ->.
  destruct (for_range_inv (λ k (b : list (option harbor_msg)), len b = q_size q * 2 ∧
      ∀ i x, i < k → l.[i] = Some x → b.[i] = Some (Some x)) 0 (q_size q - 1) (λ i new_buffer,
      x ← (q_data q).[Z.rem (i + q_head q) (q_size q)]; new_buffer.[i <- x])
      (replicate (Z.to_nat (q_size q * 2)) None)) as (buf & E & Hb & Hi).
  - lia.
  - split; [by rewrite len_replicate by lia|]. intros i x Hi E. apply arr_get_Some in E. lia.
  - intros k b Hk [Hb Hi]. destruct (arr_get_is_Some l k ltac:(lia)) as [x Ex].
    rewrite rem_mod by lia. rewrite Z.add_comm, (Hs k x Ex).
    destruct (arr_set_is_Some b k (Some x) ltac:(lia)) as [b' Eb]. exists b'. split; [done|].
    split; [by rewrite (arr_set_len _ _ _ _ Eb)|]. intros i y Hik Ey.
    destruct (decide (i = k)) as [->|].
    + rewrite (arr_get_set_eq _ _ _ _ Eb). congruence.
    + rewrite (arr_get_set_ne _ _ _ _ _ Eb) by done. apply Hi; [lia|done].
  - exists buf. split; [done|]. split; cbn.
    + split; [done|lia|lia|]. intros i x Ex. pose proof (arr_get_Some _ _ _ Ex).
      rewrite Z.mod_small by lia. apply Hi; [lia|done].
    + rewrite Z.mod_small; lia.
    + lia.
Qed.

Lemma push_queue_holds q l m : holds q l → len l < 2 ^ 30 - 1 →
  ∃ q', push_queue_msg q m = Some q' ∧ holds q' (l ++ [m]).
Proof.
  intros H Hn. unfold push_queue_msg.
  assert (∃ q1, (if Z.rem (q_tail q + 1) (q_size q) =? q_head q then
    size ← int_mul (q_size q) 2;
    new_buffer ← for_range 0 (q_size q - 1) (λ i new_buffer,
      x ← (q_data q).[Z.rem (i + q_head q) (q_size q)]; new_buffer.[i <- x]) (replicate (Z.to_nat size) None);
    Some (Queue size 0 (q_size q - 1) new_buffer) else Some q) = Some q1 ∧ holds q1 l ∧ len l + 1 < q_size q1) as (q1 & E & H1 & Hr).
  { pose proof H as [[Hc Hh Hf Hs] Ht Hr]. pose proof (len_nonneg l). pose proof (holds_tail_range q l H). rewrite rem_mod by lia. rewrite Ht.
    destruct (Z.eqb_spec (((q_head q + len l) mod q_size q + 1) mod q_size q) (q_head q)) as [E|E].
    - apply full_iff in E; [|lia|lia]. unfold int_mul. rewrite int_chk_Some by (unfold INT_MIN, INT_MAX; lia).
      destruct (grow_spec q l _ H E eq_refl) as (buf & -> & Hb). exists (Queue (q_size q * 2) 0 (q_size q - 1) buf). split; [done|]. split; [done|]. cbn. lia.
    - exists q. split; [done|]. split; [done|]. assert (len l ≠ q_size q - 1) by (intros Ef; apply E, full_iff; lia). lia. }
  rewrite E. clear E. pose proof (holds_tail_range q1 l H1). destruct H1 as [Hring Ht Hr1]. pose proof (len_nonneg l). pose proof (ring_head _ _ _ _ Hring).
  destruct (arr_set_is_Some (q_data q1) (q_tail q1) (Some m)) as [d Ed].
  { by rewrite (ring_cap _ _ _ _ Hring). }
  rewrite Ed. eexists. split; [done|]. rewrite Ht in Ed. split; cbn.
  - by eapply ring_push.
  - rewrite rem_mod by lia. rewrite Ht, Zplus_mod_idemp_l, len_app, len_cons, len_nil. f_equal. lia.
  - rewrite len_app, len_cons, len_nil. lia.
Qed.

Lemma pop_queue_holds q m l : holds q (m :: l) → ∃ q', pop_queue q = Some (Some m, q') ∧ holds q' l.
Proof.
  intros [Hr Ht Hroom]. rewrite len_cons in *. pose proof (len_nonneg l). pose proof (ring_head _ _ _ _ Hr).
  unfold pop_queue. rewrite Ht. destruct (Z.eqb_spec (q_head q) ((q_head q + (1 + len l)) mod q_size q)) as [E|E].
  { rewrite mod_wrap in E by lia. destruct (Z.ltb_spec (q_head q + (1 + len l)) (q_size q)); lia. }
  destruct (ring_pop _ _ _ _ _ Hr) as [Eg Hr']. rewrite Eg. eexists. split; [done|].
  assert ((if q_size q <=? q_head q + 1 then 0 else q_head q + 1) = Z.rem (q_head q + 1) (q_size q)) as Ew.
  { rewrite rem_mod, mod_wrap by lia. zcases; lia. }
  rewrite Ew in Hr'. split; cbn; [done| |lia].
  rewrite rem_mod, Zplus_mod_idemp_l by lia. f_equal. lia.
Qed.

Lemma pop_queue_empty q : holds q [] → pop_queue q = Some (None, q).
Proof.
  intros [Hr Ht _]. pose proof (ring_head _ _ _ _ Hr). unfold pop_queue.
  rewrite Ht. rewrite len_nil, Z.add_0_r, Z.mod_small by done. by rewrite Z.eqb_refl.
Qed.

(** ** Steps of the service *)

Definition slave_at (w : world) (id : Z) (s : slave) : Prop := (h_s (hb w)).[id] = Some s.

Definition put_slave (w : world) (id : Z) (s : slave) : world :=
  World ((hb w) <| h_s := <[Z.to_nat id := s]> (h_s (hb w)) |>) (trace w) (answers w).

Definition tell (w : world) (es : list effect) : world := World (hb w) (trace w ++ es) (answers w).

Lemma put_slave_at w id s s' : slave_at w id s → slave_at (put_slave w id s') id s'.
Proof.
  unfold slave_at. intros E. pose proof (arr_get_Some _ _ _ E) as Hr.
  by apply (arr_get_set_eq (h_s (hb w))), arr_set_Some.
Qed.

Lemma tell_at w id s es : slave_at w id s → slave_at (tell w es) id s.
Proof. done. Qed.

Lemma tell_tell w es es' : tell (tell w es) es' = tell w (es ++ es').
Proof. unfold tell. cbn. by rewrite app_assoc. Qed.

Lemma tell_nil w : tell w [] = w.
Proof. unfold tell. rewrite app_nil_r. by destruct w. Qed.

Lemma twp_get_slave id s (Q : slave → world → Prop) w : slave_at w id s → Q s w → twp (get_slave id) Q w.
Proof. intros E H. apply twp_bind. cbn. unfold twp, get_h. by rewrite E. Qed.

Lemma twp_set_slave id s0 s (Q : unit → world → Prop) w : slave_at w id s0 → Q tt (put_slave w id s) → twp (set_slave id s) Q w.
Proof.
  intros E H. unfold set_slave, twp, bind, get_h. unfold slave_at in E. pose proof (arr_get_Some _ _ _ E).
  by rewrite arr_set_Some by done.
Qed.

Lemma twp_emit e (Q : unit → world → Prop) w : Q tt (tell w [e]) → twp (emit e) Q w.
Proof. done. Qed.

Lemma twp_get_h (Q : harbor → world → Prop) w : Q (hb w) w → twp get_h Q w.
Proof. done. Qed.

Create HintDb steps.
#[local] Hint Resolve put_slave_at tell_at : steps.

(** The next call of a function whose effect is known. *)
Ltac step :=
  lazymatch goal with
  | |- twp (bind _ _) _ _ => apply twp_bind; step
  | |- twp (ret _) _ _ => apply twp_ret
  | |- twp get_h _ _ => apply twp_get_h; cbv beta
  | |- twp (emit _) _ _ => apply twp_emit; cbv beta
  | |- twp (get_slave _) _ _ => eapply twp_get_slave; [by eauto with steps|]; cbv beta
  | |- twp (set_slave _ _) _ _ => eapply twp_set_slave; [by eauto with steps|]; cbv beta
  | |- twp (must _) _ _ => eapply twp_must; [eassumption|]; cbv beta
  end.

(** Every message of a queue, in order. *)
Lemma drain_twp (I : list harbor_msg → world → Prop) body fuel : ∀ q l (Q : harbor_msg_queue → world → Prop) w,
  holds q l → (length l < fuel)%nat → I l w →
  (∀ m l w, I (m :: l) w → twp (body m) (λ _, I l) w) →
  (∀ q w, holds q [] → I [] w → Q q w) → twp (drain fuel q body) Q w.
Proof.
  induction fuel as [|fuel IH]; [lia|]. intros q l Q w Hq Hf HI Hb HQ. cbn [drain]. apply twp_bind.
  destruct l as [|m l].
  - eapply twp_must; [by apply pop_queue_empty|]. by apply HQ.
  - destruct (pop_queue_holds _ _ _ Hq) as (q' & E & Hq'). eapply twp_must; [done|]. cbv beta iota.
    apply twp_bind. eapply twp_mono; [by apply Hb|]. cbv beta. intros ? w' HI'. eapply IH; [done| |done|done|done].
    cbn in Hf. lia.
Qed.

Lemma drain_queue_twp (I : list harbor_msg → world → Prop) body q l (Q : harbor_msg_queue → world → Prop) w :
  holds q l → I l w → (∀ m l w, I (m :: l) w → twp (body m) (λ _, I l) w) →
  (∀ q w, holds q [] → I [] w → Q q w) → twp (drain_queue q body) Q w.
Proof.
  intros Hq HI Hb HQ. eapply drain_twp; [done| |done|done|done].
  pose proof (holds_room _ _ Hq). unfold len in *. lia.
Qed.

(** Nothing is left to free. *)
Lemma release_drained q (Q : unit → world → Prop) w : holds q [] → Q tt w → twp (release_queue (Some q)) Q w.
Proof.
  intros Hq HQ. cbn [release_queue]. apply twp_bind.
  eapply (drain_queue_twp (λ l w', l = [] ∧ w' = w)); [done|done|by intros m l w' [? _]|].
  by intros q' w' _ [_ ->].
Qed.

(** ** The sending side *)

Record letter := Letter { l_session : Z; l_source : Z; l_handle : Z; l_type : Z; l_data : list Z }.

(** A message for a handle of another node, as the service receives it. *)
Definition posted (x : letter) : Z * Z * message :=
  (l_session x, l_source x, RemoteHandle (l_handle x) (l_type x) (l_data x)).

Definition packed (x : letter) : harbor_msg :=
  {| hm_header := {| rh_source := l_source x;
                     rh_destination := Z.lor (u32 (Z.shiftl (l_type x) HANDLE_REMOTE_SHIFT)) (Z.land (l_handle x) HANDLE_MASK);
                     rh_session := u32 (l_session x) |};
     hm_buffer := l_data x |}.

Record letter_to (id : Z) (x : letter) : Prop := {
  letter_source : word (l_source x);
  letter_handle : word (l_handle x) ∧ Z.shiftr (l_handle x) HANDLE_REMOTE_SHIFT = id;
  letter_type : 0 ≤ l_type x < 2 ^ 8;
  letter_session : - 2 ^ 31 ≤ l_session x < 2 ^ 31;
  letter_data : len (l_data x) + HEADER_COOKIE_LENGTH < 2 ^ 24
}.

(** No connection yet; [l] is kept. *)
Definition waiting (id : Z) (l : list harbor_msg) (w : world) : Prop := ∃ s, slave_at w id s ∧
  s_fd s = 0 ∧ s_status s ≠ STATUS_DOWN ∧ match s_queue s with Some q => holds q l | None => l = [] end.

Definition connected (id fd : Z) (w : world) : Prop := ∃ s, slave_at w id s ∧ s_fd s = fd ∧ s_status s = STATUS_HEADER.

(** The bytes that went to a socket, in order. *)
Definition sent (fd : Z) (tr : list effect) : list Z :=
  flat_map (λ e, match e with SocketSend fd' d => if fd' =? fd then d else [] | _ => [] end) tr.

Lemma sent_bytes_app fd tr tr' : sent fd (tr ++ tr') = sent fd tr ++ sent fd tr'.
Proof. apply flat_map_app. Qed.

Lemma post_waiting id l x w : waiting id l w → letter_to id x → h_id (hb w) ≠ id → len l < 2 ^ 30 - 1 →
  twp (mainloop (l_session x) (l_source x) (RemoteHandle (l_handle x) (l_type x) (l_data x)))
    (λ _ w', waiting id (l ++ [packed x]) w' ∧ h_id (hb w') = h_id (hb w) ∧ trace w' = trace w) w.
Proof.
  intros (s & Hs & Hfd & Hst & Hq) Hx Hid Hl. destruct (letter_handle _ _ Hx) as [_ Eh]. cbn [mainloop].
  apply twp_bind. unfold remote_send_handle. step. rewrite Eh. rewrite (proj2 (Z.eqb_neq _ _)) by done. step.
  rewrite Hfd. change ((0 =? 0) || _) with true. cbv iota. rewrite (proj2 (Z.eqb_neq _ _)) by done.
  assert (holds (default new_queue (s_queue s)) l) as Hd.
  { destruct (s_queue s); [done|]. rewrite Hq. apply new_queue_holds. }
  destruct (push_queue_holds _ _ (packed x) Hd Hl) as (q' & E & Hq').
  apply twp_bind. eapply twp_must; [exact E|]. step. step. cbn [truth Z.eqb negb]. step.
  split; [|done]. eexists. split; [eapply put_slave_at; exact Hs|]. done.
Qed.

(** What a message in a queue becomes. *)
Definition shipped (fd : Z) (m : harbor_msg) : list effect := [SocketSend fd (frame m); Free (hm_buffer m)].

Lemma send_remote_twp fd data h (Q : unit → world → Prop) w : len data + HEADER_COOKIE_LENGTH < 2 ^ 24 →
  Q tt (tell w [SocketSend fd (frame (HarborMsg h data))]) → twp (send_remote fd data h) Q w.
Proof.
  intros Hl HQ. unfold send_remote. destruct (Z.ltb_spec UINT32_MAX (len data + HEADER_COOKIE_LENGTH)) as [H|H]; [unfold UINT32_MAX in H; lia|].
  apply twp_bind. eapply twp_must; [by apply send_buffer_spec|]. by step.
Qed.

Lemma post_connected id fd x w : connected id fd w → fd ≠ 0 → letter_to id x → h_id (hb w) ≠ id →
  twp (mainloop (l_session x) (l_source x) (RemoteHandle (l_handle x) (l_type x) (l_data x)))
    (λ _ w', w' = tell w (shipped fd (packed x))) w.
Proof.
  intros (s & Hs & Hfd & Hst) Hfd0 Hx Hid. destruct (letter_handle _ _ Hx) as [_ Eh]. cbn [mainloop].
  apply twp_bind. unfold remote_send_handle. step. rewrite Eh. rewrite (proj2 (Z.eqb_neq _ _)) by done. step.
  rewrite Hfd, Hst, (proj2 (Z.eqb_neq _ _)) by done. cbn [orb]. change (STATUS_HEADER =? STATUS_HANDSHAKE) with false. cbv iota.
  apply twp_bind, send_remote_twp; [apply Hx|]. step. cbn [truth Z.eqb negb]. step. by rewrite tell_tell.
Qed.

Lemma dispatch_queue_twp id s l w (Q : unit → world → Prop) : slave_at w id s → s_fd s ≠ 0 →
  match s_queue s with Some q => holds q l | None => l = [] end →
  Forall (λ m, len (hm_buffer m) + HEADER_COOKIE_LENGTH < 2 ^ 24) l →
  (∀ w', slave_at w' id (s <| s_queue := (None : option harbor_msg_queue) |>) → h_id (hb w') = h_id (hb w) →
    map s_fd (h_s (hb w')) = map s_fd (h_s (hb w)) → answers w' = answers w →
    trace w' = trace w ++ flat_map (shipped (s_fd s)) l → Q tt w') →
  twp (dispatch_queue id) Q w.
Proof.
  intros Hs Hfd Hq Hl HQ. unfold dispatch_queue. step. rewrite (proj2 (Z.eqb_neq _ _)) by done. cbn [negb require].
  step. destruct (s_queue s) as [q|] eqn:Eq.
  - apply twp_bind. eapply (drain_queue_twp (λ l' w', ∃ done, l = done ++ l' ∧ w' = tell w (flat_map (shipped (s_fd s)) done))).
    + exact Hq.
    + exists []. by rewrite tell_nil.
    + intros m l' w' (dn & -> & ->). apply twp_bind, send_remote_twp.
      { rewrite Forall_forall in Hl. apply Hl, list_elem_of_In, in_app_iff. right. by left. }
      step. exists (dn ++ [m]). rewrite <- app_assoc. split; [done|]. rewrite !tell_tell, flat_map_app.
      by f_equal.
    + intros q' w' Hq' (dn & E & ->). rewrite app_nil_r in E. subst dn. apply twp_bind, release_drained; [done|].
      eapply twp_set_slave; [by apply tell_at|]. apply HQ; [by eapply put_slave_at, tell_at|done| |done|done].
      cbn [put_slave hb h_s tell]. rewrite list_fmap_insert. apply list_insert_id. unfold slave_at in Hs.
      pose proof (arr_get_Some _ _ _ Hs). rewrite arr_get_nonneg in Hs by lia. by rewrite list_lookup_fmap, Hs.
  - subst l. step. apply HQ; [|done|done|done|by rewrite app_nil_r].
    destruct s. cbn in Eq. by subst.
Qed.

(** The command for a connection; the handshake goes first. *)
Lemma command_scan c cmd fd id : head cmd = Some c → scan_two (c_string (drop 2 cmd)) = (fd, id) → fd ≠ 0 → 0 < id < REMOTE_MAX → 2 ≤ len cmd.
Proof.
  intros Hc E Hfd _. destruct cmd as [|x [|y cmd]]; [done| |rewrite !len_cons; pose proof (len_nonneg cmd); lia].
  cbn in E. apply pair_equal_spec in E as [E _]. by subst fd.
Qed.

Lemma connect id fd cmd source l w : waiting id l w → head cmd = Some 65 →
  scan_two (c_string (drop 2 cmd)) = (fd, id) → fd ≠ 0 → 0 < id < REMOTE_MAX →
  Forall (λ m, len (hm_buffer m) + HEADER_COOKIE_LENGTH < 2 ^ 24) l →
  twp (harbor_command cmd source) (λ _ w', connected id fd w' ∧ h_id (hb w') = h_id (hb w) ∧
    trace w' = trace w ++ [SocketStart fd; SocketSend fd [u8 (h_id (hb w))]] ++ flat_map (shipped fd) l) w.
Proof.
  intros (s & Hs & Hfd & Hst & Hq) Hc Hsc Hfd0 Hid Hl. pose proof (command_scan _ _ _ _ Hc Hsc Hfd0 Hid) as H2.
  unfold harbor_command. rewrite Hc. change (default 0 (Some 65)) with 65. change (65 =? 78) with false. change ((65 =? 83) || (65 =? 65)) with true.
  change (65 =? 83) with false. cbv iota. rewrite (proj2 (Z.leb_le 0 (len cmd - 2))) by lia. cbn [require].
  step. rewrite Hsc. rewrite (proj2 (Z.eqb_neq fd 0)), (proj2 (Z.leb_gt id 0)), (proj2 (Z.leb_gt REMOTE_MAX id)) by lia.
  cbn [orb]. cbv iota. step. rewrite Hfd. change (negb (0 =? 0)) with false. cbv iota.
  step. step. unfold handshake. apply twp_bind. step. step. step. step. step.
  eapply dispatch_queue_twp; [by eapply put_slave_at, tell_at, tell_at, put_slave_at|done|exact Hq|exact Hl|].
  intros w' Hs' Hh _ _ Ht. split; [|split].
  - eexists. split; [exact Hs'|]. done.
  - rewrite Hh. done.
  - rewrite Ht. cbn [put_slave tell trace s_fd hb h_id]. rewrite <- !app_assoc. done.
Qed.

Lemma service_run_app l l' (Q : unit → world → Prop) w :
  twp (service_run l) (λ _, twp (service_run l') Q) w → twp (service_run (l ++ l')) Q w.
Proof.
  revert w. induction l as [|[[s src] m] l IH]; intros w H; [exact H|]. cbn [app service_run] in *.
  apply twp_bind. unfold twp at 1 in H. unfold bind in H. unfold twp at 1.
  destruct (mainloop s src m w) as [[x w']| |]; [|done..]. by apply IH.
Qed.

Lemma run_waiting id (xs : list letter) : ∀ l w, waiting id l w → Forall (letter_to id) xs → h_id (hb w) ≠ id →
  len l + len xs < 2 ^ 30 → twp (service_run (map posted xs))
    (λ _ w', waiting id (l ++ map packed xs) w' ∧ h_id (hb w') = h_id (hb w) ∧ trace w' = trace w) w.
Proof.
  induction xs as [|x xs IH]; intros l w Hw Hx Hid Hl; cbn [map service_run posted].
  - apply twp_ret. by rewrite app_nil_r.
  - apply Forall_cons in Hx as [Hx Hxs]. rewrite len_cons in Hl. pose proof (len_nonneg xs).
    apply twp_bind. eapply twp_mono; [apply (post_waiting id l x); [done..|lia]|]. cbv beta. intros _ w' (Hw' & Eh & Et).
    eapply twp_mono; [apply (IH _ _ Hw' Hxs); [congruence|rewrite len_app, len_cons, len_nil; lia]|].
    cbv beta. intros _ w'' (Hw'' & Eh' & Et'). rewrite <- app_assoc in Hw''. split; [done|]. split; congruence.
Qed.

Lemma run_connected id fd (xs : list letter) : ∀ w, connected id fd w → fd ≠ 0 → Forall (letter_to id) xs → h_id (hb w) ≠ id →
  twp (service_run (map posted xs)) (λ _ w', w' = tell w (flat_map (shipped fd) (map packed xs))) w.
Proof.
  induction xs as [|x xs IH]; intros w Hw Hfd Hx Hid; cbn [map service_run posted].
  - apply twp_ret. by rewrite tell_nil.
  - apply Forall_cons in Hx as [Hx Hxs]. apply twp_bind.
    eapply twp_mono; [by apply (post_connected id fd x)|]. cbv beta. intros _ w' ->.
    eapply twp_mono; [by apply IH|]. cbv beta. intros _ w' ->. by rewrite tell_tell.
Qed.

Lemma letters_short id xs : Forall (letter_to id) xs → Forall (λ m, len (hm_buffer m) + HEADER_COOKIE_LENGTH < 2 ^ 24) (map packed xs).
Proof. intros H. apply Forall_fmap. eapply Forall_impl; [done|]. intros x Hx. apply Hx. Qed.

(** Before the connection and after it: the same bytes in the order of the messages. *)
Lemma run_sender id fd cmd session source before after w : waiting id [] w → head cmd = Some 65 →
  scan_two (c_string (drop 2 cmd)) = (fd, id) → fd ≠ 0 → 0 < id < REMOTE_MAX → h_id (hb w) ≠ id →
  Forall (letter_to id) before → Forall (letter_to id) after → len before < 2 ^ 30 →
  twp (service_run (map posted before ++ (session, source, Command cmd) :: map posted after))
    (λ _ w', sent fd (trace w') = sent fd (trace w) ++ u8 (h_id (hb w)) :: flat_map frame (map packed (before ++ after))) w.
Proof.
  intros Hw Hc Hsc Hfd Hid Hne Hb Ha Hn. apply service_run_app.
  eapply twp_mono; [by apply (run_waiting id before [])|]. cbv beta. intros _ w1 (H1 & E1 & T1).
  cbn [service_run mainloop]. apply twp_bind. eapply twp_mono; [eapply (connect id fd); [exact H1|done..|by eapply letters_short]|].
  cbv beta. intros _ w2 (H2 & E2 & T2). eapply twp_mono; [apply (run_connected id fd); [done..|congruence]|].
  cbv beta. intros _ w3 ->. cbn [tell trace]. rewrite T2, T1, !sent_bytes_app, E1, <- !app_assoc. f_equal.
  assert (∀ l, sent fd (flat_map (shipped fd) l) = flat_map frame l) as Es.
  { induction l as [|m l IH]; [done|]. cbn [flat_map]. rewrite sent_bytes_app, IH. f_equal. cbn. rewrite Z.eqb_refl. by rewrite app_nil_r. }
  rewrite !Es. cbn. rewrite Z.eqb_refl. cbn. f_equal. by rewrite map_app, flat_map_app.
Qed.

(** ** The receiving side *)

Definition payload (m : harbor_msg) : list Z := hm_buffer m ++ cookie (hm_header m).

Definition size_of (m : harbor_msg) : Z := len (hm_buffer m) + HEADER_COOKIE_LENGTH.

(** A message that a connection can carry. *)
Definition fit (m : harbor_msg) : Prop := words (hm_header m) ∧ size_of m < 2 ^ 24.

Definition arrival (own : Z) (m : harbor_msg) : effect :=
  let d := rh_destination (hm_header m) in
  Send (rh_source (hm_header m)) (Z.lor (Z.land d HANDLE_MASK) (u32 (Z.shiftl (u32 own) HANDLE_REMOTE_SHIFT)))
    (Z.lor (Z.shiftr d HANDLE_REMOTE_SHIFT) PTYPE_TAG_DONTCOPY) (s32 (rh_session (hm_header m))) (Some (hm_buffer m)).

(** The messages of [done] have gone to the services of the node, which took them. *)
Record passed (w : world) (done : list harbor_msg) (w' : world) : Prop := {
  passed_trace : trace w' = trace w ++ map (arrival (h_id (hb w))) done;
  passed_answers : ∃ a, answers w = a ++ answers w' ∧ length a = length done;
  passed_id : h_id (hb w') = h_id (hb w);
  passed_fds : map s_fd (h_s (hb w')) = map s_fd (h_s (hb w))
}.

(** The bytes [p] of the next message are here. *)
Definition part (id : Z) (p : list Z) (w : world) : Prop := ∃ s, slave_at w id s ∧ len (s_size s) = 4 ∧
  (s_status s = STATUS_HEADER ∧ len p < 4 ∧ s_read s = len p ∧ (∃ rest, s_size s = p ++ rest) ∨
   s_status s = STATUS_CONTENT ∧ ∃ body buf, p = be4 (s_length s) ++ body ∧ s_recv_buffer s = Some buf ∧
     filled (s_length s) buf body ∧ s_read s = len body ∧ len body < s_length s < 2 ^ 24).

Definition short (p : list Z) (fs : list harbor_msg) : Prop :=
  match fs with [] => p = [] | m :: _ => len p < len (frame m) end.

(** After a round of the loop: where it ends, the bytes [more] are still to come. *)
Definition round (id : Z) (w : world) (n : Z) (more : list Z) (fs : list harbor_msg) (o : option (list Z * Z)) (w' : world) : Prop :=
  ∃ dn fs', fs = dn ++ fs' ∧ passed w dn w' ∧
  match o with
  | None => ∃ p, part id p w' ∧ p ++ more = flat_map frame fs' ∧ short p fs'
  | Some (b, k) => k = len b ∧ k < n ∧ part id [] w' ∧ b ++ more = flat_map frame fs'
  end.

Lemma frame_payload m : frame m = be4 (size_of m) ++ payload m.
Proof. done. Qed.

Lemma len_payload m : len (payload m) = size_of m.
Proof. unfold payload, cookie. rewrite !len_app, !len_be4. done. Qed.

Lemma size_of_ge m : HEADER_COOKIE_LENGTH ≤ size_of m.
Proof. unfold size_of. pose proof (len_nonneg (hm_buffer m)). lia. Qed.

Lemma passed_refl w w' : trace w' = trace w → answers w' = answers w → h_id (hb w') = h_id (hb w) →
  map s_fd (h_s (hb w')) = map s_fd (h_s (hb w)) → passed w [] w'.
Proof. intros Ht Ha ? ?. split; [by rewrite Ht, app_nil_r|exists []; by rewrite Ha|done|done]. Qed.

Lemma put_slave_fds w id s s' : slave_at w id s → s_fd s' = s_fd s → map s_fd (h_s (hb (put_slave w id s'))) = map s_fd (h_s (hb w)).
Proof.
  intros Hs E. cbn. rewrite list_fmap_insert, E. apply list_insert_id. unfold slave_at in Hs.
  pose proof (arr_get_Some _ _ _ Hs). rewrite arr_get_nonneg in Hs by lia. by rewrite list_lookup_fmap, Hs.
Qed.

Lemma put_put w id s s' : put_slave (put_slave w id s) id s' = put_slave w id s'.
Proof. unfold put_slave. cbn. by rewrite list_insert_insert_eq. Qed.

(** A whole message goes to its service. *)
Lemma forward_local_twp m w r rest (Q : unit → world → Prop) : fit m → answers w = r :: rest → 0 ≤ r →
  Q tt (World (hb w) (trace w ++ [arrival (h_id (hb w)) m]) rest) →
  twp (forward_local_messsage (payload m) (size_of m)) Q w.
Proof.
  intros [Hw Hs] Ea Hr HQ. unfold forward_local_messsage. step. unfold size_of in *. rewrite Z.add_simpl_r.
  apply twp_bind. eapply twp_must; [by apply message_to_header_spec|].
  apply twp_bind. eapply twp_must; [by apply mem_read_prefix|]. cbv beta.
  apply twp_bind. unfold skynet_send, twp at 1. rewrite Ea. rewrite (proj2 (Z.ltb_ge r 0)) by done. exact HQ.
Qed.

(** The end of a message in the buffer, or all of the buffer in the message. *)
Lemma read_content_twp id w s m body buf b more fs : slave_at w id s → fit m →
  len (s_size s) = 4 → s_status s = STATUS_CONTENT → s_length s = size_of m → s_read s = len body →
  s_recv_buffer s = Some buf → filled (size_of m) buf body → len body < size_of m →
  body ++ b ++ more = payload m ++ flat_map frame fs →
  Forall (Z.le 0) (answers w) → (length fs < length (answers w))%nat →
  twp (read_content id b (len b)) (round id w (len b) more (m :: fs)) w.
Proof.
  intros Hs Hm Hz Hst Hlen Hrd Hbuf Hf Hlt E Ha Hn. unfold read_content. step. apply twp_bind.
  eapply twp_must; [exact Hbuf|]. cbv beta. rewrite Hlen, Hrd.
  pose proof (len_nonneg b) as Hb0. pose proof (len_nonneg body) as Hbd0. pose proof (len_payload m) as Hp.
  assert (∃ tail, payload m = body ++ tail) as [tail Et].
  { apply app_eq_inv in E as [(k & E1 & _)|(k & -> & _)]; [|by exists k].
    exists []. rewrite E1 in Hlt. rewrite len_app, Hp in Hlt. pose proof (len_nonneg k). lia. }
  assert (len tail = size_of m - len body) as Hl by (rewrite <- Hp, Et, len_app; lia).
  rewrite Et, <- app_assoc in E. apply app_inv_head in E.
  destruct (Z.ltb_spec (len b) (size_of m - len body)) as [Hlb|Hlb].
  - assert (∃ tail', tail = b ++ tail' ∧ more = tail' ++ flat_map frame fs) as (tail' & -> & ->).
    { apply app_eq_inv in E as [(k & E1 & E2)|(k & E1 & E2)]; [|by exists k].
      rewrite E1, len_app in *. pose proof (len_nonneg k). assert (k = []) as -> by (destruct k; [done|rewrite len_cons in *; pose proof (len_nonneg k); lia]).
      exists []. by rewrite !app_nil_r. }
    apply twp_bind. eapply twp_must; [by apply mem_read_whole|].
    destruct (filled_write _ _ _ b (len body) Hf eq_refl ltac:(lia)) as (buf' & Eb & Hf').
    apply twp_bind. eapply twp_must; [exact Eb|]. step. step. exists [], (m :: fs). split; [done|]. split.
    { apply passed_refl; [done..|]. by eapply put_slave_fds. }
    exists (be4 (size_of m) ++ body ++ b). split; [|split].
    + eexists. split; [by eapply put_slave_at|]. split; [done|]. right. split; [done|]. exists (body ++ b), buf'.
      cbn. rewrite ?Hlen, ?Hrd, ?len_app. pose proof (proj2 Hm). repeat split; try done; try apply Hf'; lia.
    + cbn [flat_map]. rewrite frame_payload, Et, <- !app_assoc. done.
    + cbn [short]. rewrite frame_payload, !len_app, Hp, !len_be4. rewrite len_app in Hl. pose proof (len_nonneg tail'). lia.
  - assert (∃ b', b = tail ++ b' ∧ b' ++ more = flat_map frame fs) as (b' & -> & Em).
    { apply app_eq_inv in E as [(k & E1 & E2)|(k & E1 & E2)]; [by exists k|].
      rewrite E1, len_app in *. pose proof (len_nonneg k). assert (k = []) as -> by (destruct k; [done|rewrite len_cons in *; pose proof (len_nonneg k); lia]).
      exists []. rewrite !app_nil_r in *. by subst more. }
    apply twp_bind. eapply twp_must; [by apply mem_read_prefix|].
    destruct (filled_write _ _ _ tail (len body) Hf eq_refl ltac:(lia)) as (buf' & Eb & [Hlb' [rest' Er]]).
    apply twp_bind. eapply twp_must; [exact Eb|]. rewrite <- Et in Er. subst buf'.
    rewrite len_app, len_map, Hp in Hlb'. destruct rest'; [|rewrite len_cons in Hlb'; pose proof (len_nonneg rest'); lia].
    rewrite app_nil_r. apply twp_bind. eapply twp_must; [apply mapM_id_Some|].
    destruct (answers w) as [|r rest] eqn:Ew; [by apply Nat.nlt_0_r in Hn|]. apply Forall_cons in Ha as [Hr Ha].
    apply twp_bind. eapply forward_local_twp; [done|done|done|]. step.
    rewrite len_app, Hl. replace (size_of m - len body + len b' - (size_of m - len body)) with (len b') by lia.
    set (s' := s <| s_length := 0 |> <| s_read := 0 |> <| s_recv_buffer := (None : option block) |> <| s_status := STATUS_HEADER |>).
    match goal with |- twp _ _ (put_slave ?w1 id _) => set (w2 := w1) end.
    assert (part id [] (put_slave w2 id s')) as Hpart.
    { exists s'. split; [by eapply (put_slave_at w2)|]. split; [done|]. left. split; [done|]. split; [done|]. split; [done|]. by exists (s_size s). }
    assert (passed w [m] (put_slave w2 id s')) as Hpass.
    { split; [done| |done|by apply (put_slave_fds w2 id s)]. exists [r]. by rewrite Ew. }
    destruct (Z.eqb_spec (len b') 0) as [E0|E0]; apply twp_ret; exists [m], fs; (split; [done|]); (split; [done|]).
    + exists []. split; [done|]. assert (b' = []) as -> by (destruct b'; [done|rewrite len_cons in E0; pose proof (len_nonneg b'); lia]).
      split; [done|]. destruct fs as [|m' fs]; cbn [short]; [done|]. rewrite frame_payload, len_app, len_be4. pose proof (len_nonneg (payload m')). rewrite len_nil. lia.
    + rewrite advance_app by lia. split; [done|]. split; [rewrite ?len_app; lia|]. done.
Qed.

Lemma app_eq_take {A} (p b c d : list A) : p ++ b = c ++ d → len p ≤ len c → len c ≤ len p + len b →
  ∃ b1 b2, b = b1 ++ b2 ∧ c = p ++ b1 ∧ b2 = d.
Proof.
  intros E H1 H2. apply app_eq_inv in E as [(k & -> & ->)|(k & -> & ->)].
  - rewrite len_app in H1. pose proof (len_nonneg k). assert (k = []) as -> by (destruct k; [done|rewrite len_cons in H1; pose proof (len_nonneg k); lia]).
    exists [], b. by rewrite !app_nil_r.
  - by exists k, d.
Qed.

Lemma be4_size n : 0 ≤ n < 2 ^ 24 → n / 2 ^ 24 mod 256 = 0 ∧
  Z.lor (Z.lor (Z.shiftl (n / 2 ^ 16 mod 256) 16) (Z.shiftl (n / 2 ^ 8 mod 256) 8)) (n mod 256) = n.
Proof.
  intros H. assert (n / 2 ^ 24 = 0) as E by (apply Z.div_small; lia). rewrite E. split; [done|].
  pose proof (be4_value n ltac:(unfold word; lia)) as Hv. rewrite E in Hv.
  pose proof (lor4 0 (n / 2 ^ 16 mod 256) (n / 2 ^ 8 mod 256) (n mod 256)) as L. rewrite Z.shiftl_0_l, Z.lor_0_l in L.
  rewrite L by (apply Z.mod_pos_bound; lia). exact Hv.
Qed.

Lemma read_header_twp id w s p rest0 b more fs : slave_at w id s → Forall fit fs →
  len (s_size s) = 4 → s_status s = STATUS_HEADER → s_read s = len p → s_size s = p ++ rest0 → len p < 4 →
  p ++ b ++ more = flat_map frame fs →
  Forall (Z.le 0) (answers w) → (length fs ≤ length (answers w))%nat →
  twp (read_header id b (len b)) (round id w (len b) more fs) w.
Proof.
  intros Hs Hfit Hz Hst Hrd Hsz Hp E Ha Hn. unfold read_header. step. rewrite Hrd.
  pose proof (len_nonneg b) as Hb0. pose proof (len_nonneg p) as Hp0. rewrite Hsz, len_app in Hz.
  destruct (Z.ltb_spec (len b) (4 - len p)) as [Hlb|Hlb].
  - apply twp_bind. eapply twp_must; [by apply mem_read_whole|].
    assert (∃ r1 r2, rest0 = r1 ++ r2 ∧ len r1 = len b) as (r1 & r2 & -> & Hr1).
    { exists (take (length b) rest0), (drop (length b) rest0). split; [by rewrite take_drop|]. unfold len in *. rewrite length_take. lia. }
    apply twp_bind. eapply twp_must; [rewrite Hsz; by apply mem_write_app|]. step. step.
    exists [], fs. split; [done|]. split. { apply passed_refl; [done..|]. by eapply put_slave_fds. }
    exists (p ++ b). rewrite len_app in Hz. split; [|split].
    + eexists. split; [by eapply put_slave_at|]. cbn. split; [rewrite !len_app; lia|]. left. rewrite !len_app.
      split; [done|]. split; [lia|]. split; [lia|]. exists r2. by rewrite <- app_assoc.
    + by rewrite <- app_assoc.
    + destruct fs as [|m fs]; cbn [short].
      * destruct p; [|done]. by destruct b.
      * rewrite frame_payload, !len_app, len_be4. pose proof (len_nonneg (payload m)). lia.
  - destruct fs as [|m fs].
    { destruct p; [|done]. destruct b; [|done]. rewrite len_nil in Hlb. lia. }
    apply Forall_cons in Hfit as [Hm Hfit]. pose proof (size_of_ge m) as Hge. unfold HEADER_COOKIE_LENGTH in Hge.
    destruct (app_eq_take p (b ++ more) (be4 (size_of m)) (payload m ++ flat_map frame fs)) as (b1 & b2 & E1 & E2 & E3).
    { rewrite E. cbn [flat_map]. rewrite frame_payload. by rewrite <- app_assoc. }
    { rewrite len_be4. lia. } { rewrite len_be4, len_app. pose proof (len_nonneg more). lia. }
    assert (len b1 = 4 - len p) as Hb1 by (rewrite <- (len_be4 (size_of m)), E2, len_app; lia).
    destruct (app_eq_take b1 b2 b more) as (b3 & b4 & _ & -> & _); [done|lia|rewrite <- len_app, <- E1, len_app; pose proof (len_nonneg more); lia|].
    rewrite <- app_assoc in E1. apply app_inv_head in E1.
    apply twp_bind. eapply twp_must; [by apply mem_read_prefix|].
    assert (mem_write (s_size s) (len p) b1 = Some (be4 (size_of m))) as Ew.
    { rewrite Hsz. rewrite <- (app_nil_r rest0), (mem_write_app p rest0 [] b1) by (try done; lia). by rewrite app_nil_r, E2. }
    apply twp_bind. eapply twp_must; [exact Ew|]. step.
    apply twp_bind. eapply twp_must; [reflexivity|]. apply twp_bind. eapply twp_must; [reflexivity|].
    apply twp_bind. eapply twp_must; [reflexivity|]. apply twp_bind. eapply twp_must; [reflexivity|]. cbv beta.
    destruct (be4_size (size_of m)) as [E0 EL]; [pose proof (proj2 Hm); lia|]. rewrite E0, EL. change (negb (0 =? 0)) with false. cbv iota.
    step. rewrite put_put. rewrite len_app, Hb1. replace (4 - len p + len b3 - (4 - len p)) with (len b3) by lia.
    set (s' := s <| s_size := be4 (size_of m) |> <| s_length := size_of m |> <| s_read := 0 |>
                 <| s_recv_buffer := Some (malloc (size_of m)) |> <| s_status := STATUS_CONTENT |>).
    assert (filled (size_of m) (malloc (size_of m)) []) as Hfl by (apply filled_malloc; lia).
    destruct (Z.eqb_spec (len b3) 0) as [Z0|Z0].
    + assert (b3 = []) as -> by (destruct b3; [done|rewrite len_cons in Z0; pose proof (len_nonneg b3); lia]).
      step. exists [], (m :: fs). split; [done|]. split. { apply passed_refl; [done..|]. by eapply (put_slave_fds w id s). }
      exists (be4 (size_of m)). split; [|split].
      * eexists. split; [by eapply put_slave_at|]. split; [done|]. right. split; [done|]. exists [], (malloc (size_of m)).
        pose proof (proj2 Hm). cbn [s' s_length s_recv_buffer s_read]. change (len (@nil Z)) with 0. split; [by rewrite app_nil_r|]. split; [done|]. split; [exact Hfl|]. split; [done|]. lia.
      * cbn [flat_map]. rewrite frame_payload, <- app_assoc. f_equal. rewrite <- E3, <- E1. done.
      * cbn [short]. rewrite frame_payload, len_app, len_payload. lia.
    + rewrite advance_app by lia.
      eapply twp_mono; [eapply (read_content_twp id (put_slave w id s') s' m [] (malloc (size_of m)) b3 more fs)|].
      * by eapply put_slave_at. * done. * done. * done. * done. * done. * done. * done. * rewrite len_nil. lia.
      * cbn [app]. by rewrite E1, E3. * done. * done.
      * cbv beta. intros o w' (dn & fs' & Efs & [P1 P2 P3 P4] & Ho). exists dn, fs'. split; [done|]. split.
        { split; [exact P1|exact P2|exact P3|]. rewrite P4. by apply (put_slave_fds w id s). }
        destruct o as [[b' k]|]; [|done]. destruct Ho as (-> & Hk & Ho). split; [done|]. split; [lia|]. exact Ho.
Qed.

Lemma be4_inj n k : 0 ≤ n < 2 ^ 24 → 0 ≤ k < 2 ^ 24 → be4 n = be4 k → n = k.
Proof.
  intros Hn Hk E. destruct (be4_size n Hn) as [_ <-]. destruct (be4_size k Hk) as [_ <-].
  unfold be4 in E. by injection E as _ -> -> ->.
Qed.

Lemma passed_trans w dn w' dn' w'' : passed w dn w' → passed w' dn' w'' → passed w (dn ++ dn') w''.
Proof.
  intros [T1 (a1 & A1 & L1) I1 F1] [T2 (a2 & A2 & L2) I2 F2]. split; [|exists (a1 ++ a2)|congruence|congruence].
  - by rewrite T2, T1, I1, map_app, <- app_assoc.
  - by rewrite A1, A2, <- app_assoc, !length_app, L1, L2.
Qed.

(** Enough services are there to take the messages. *)
Definition taken (w : world) (fs : list harbor_msg) : Prop := Forall (Z.le 0) (answers w) ∧ (length fs ≤ length (answers w))%nat.

Lemma passed_taken w dn w' fs : passed w dn w' → taken w (dn ++ fs) → taken w' fs.
Proof.
  intros [_ (a & E & L) _ _] [H1 H2]. rewrite E in *. apply Forall_app in H1 as [_ H1]. split; [done|].
  rewrite !length_app in H2. lia.
Qed.

(** [b] of the stream of [fs] has come, [p] of the next message waits in the buffers. *)
Definition took (id : Z) (w : world) (more : list Z) (fs : list harbor_msg) (w' : world) : Prop :=
  ∃ dn fs' p, fs = dn ++ fs' ∧ passed w dn w' ∧ part id p w' ∧ p ++ more = flat_map frame fs'.

Lemma read_loop_twp id fd more fuel : ∀ w p b fs, part id p w → Forall fit fs → p ++ b ++ more = flat_map frame fs →
  taken w fs → (length b < fuel)%nat →
  twp (read_loop fuel id fd b (len b)) (λ _, took id w more fs) w.
Proof.
  induction fuel as [|fuel IH]; [lia|]. intros w p b fs (s & Hs & Hz & Hp) Hfit E [Ha Hn] Hfuel. cbn [read_loop]. step.
  apply twp_bind, (twp_mono _ (round id w (len b) more fs)).
  - destruct Hp as [(Hst & Hlp & Hrd & rest & Hsz)|(Hst & body & buf & -> & Hbuf & Hfl & Hrd & Hlt)]; rewrite Hst.
    + change (STATUS_HEADER =? STATUS_HANDSHAKE) with false. change (STATUS_HEADER =? STATUS_HEADER) with true. cbv iota.
      by apply (read_header_twp id w s p rest).
    + change (STATUS_CONTENT =? STATUS_HANDSHAKE) with false. change (STATUS_CONTENT =? STATUS_HEADER) with false.
      change (STATUS_CONTENT =? STATUS_CONTENT) with true. cbv iota. destruct fs as [|m fs]; [done|].
      apply Forall_cons in Hfit as [Hm _]. cbn [flat_map] in E. rewrite frame_payload, <- !app_assoc in E.
      apply (app_inj_1 (be4 (s_length s))) in E as [El Ec]; [|done].
      assert (s_length s = size_of m) as Esz.
      { pose proof (size_of_ge m). pose proof (proj2 Hm). pose proof (len_nonneg body). unfold HEADER_COOKIE_LENGTH in *.
        apply be4_inj; [lia..|done]. }
      rewrite Esz in *. apply (read_content_twp id w s m body buf); [done..| |done|done|done]. lia.
  - intros o w' (dn & fs' & -> & Hpass & Ho). apply Forall_app in Hfit as [_ Hfit].
    pose proof (passed_taken _ _ _ _ Hpass (conj Ha Hn)) as Ht'. destruct o as [[b' k]|].
    + destruct Ho as (-> & Hk & Hpart & Em). eapply twp_mono; [apply (IH w' [] b' fs'); [done..|unfold len in Hk; lia]|].
      cbv beta. intros _ w'' (dn' & fs'' & p'' & -> & Hpass' & Hpart' & Em'). exists (dn ++ dn'), fs'', p''.
      split; [by rewrite <- app_assoc|]. split; [by eapply passed_trans|]. done.
    + destruct Ho as (p' & Hpart & Em & _). apply twp_ret. by exists dn, fs', p'.
Qed.

(** Which connection a descriptor belongs to. *)
Definition owns (fds : list Z) (id fd : Z) : Prop :=
  1 ≤ id ∧ fds.[id] = Some fd ∧ ∀ i, 1 ≤ i → fds.[i] = Some fd → i = id.

Lemma find_fd_first fd : ∀ l i n, map s_fd l !! n = Some fd → (∀ k, map s_fd l !! k = Some fd → k = n) → find_fd fd i l = i + Z.of_nat n.
Proof.
  induction l as [|x l IH]; intros i n E Hf; [done|]. cbn [find_fd]. destruct (Z.eqb_spec (s_fd x) fd) as [Ex|Ex].
  - specialize (Hf 0%nat). cbn in Hf. rewrite <- Hf by congruence. lia.
  - destruct n as [|n]; [cbn in E; congruence|]. rewrite (IH (i + 1) n); [lia|done|].
    intros k Ek. specialize (Hf (S k) Ek). lia.
Qed.

Lemma owns_harbor_id h id fd : owns (map s_fd (h_s h)) id fd → harbor_id h fd = id.
Proof.
  intros (Hid & E & Hu). unfold harbor_id. rewrite arr_get_nonneg in E by lia.
  assert (∀ k, map s_fd (drop 1 (h_s h)) !! k = map s_fd (h_s h) !! S k) as Ed by (intros k; destruct (h_s h); done).
  rewrite (find_fd_first fd _ 1 (Z.to_nat id - 1)); [lia| |].
  - rewrite Ed. by replace (S (Z.to_nat id - 1)) with (Z.to_nat id) by lia.
  - intros k Ek. rewrite Ed in Ek. specialize (Hu (Z.of_nat (S k)) ltac:(lia)). rewrite arr_get_of_nat in Hu. specialize (Hu Ek). lia.
Qed.

(** The calls of [skynet_send]. *)
Definition sends (tr : list effect) : list effect := List.filter (λ e, match e with Send _ _ _ _ _ => true | _ => false end) tr.

Lemma sends_app tr tr' : sends (tr ++ tr') = sends tr ++ sends tr'.
Proof. apply List.filter_app. Qed.

Lemma sends_arrival own fs : sends (map (arrival own) fs) = map (arrival own) fs.
Proof. induction fs as [|m fs IH]; [done|]. cbn. by f_equal. Qed.

(** The state of a connection between two packages. *)
Record open (own id fd : Z) (tr : list effect) (p : list Z) (fs : list harbor_msg) (w : world) : Prop := {
  open_part : part id p w;
  open_owns : owns (map s_fd (h_s (hb w))) id fd;
  open_id : h_id (hb w) = own;
  open_taken : taken w fs;
  open_sends : sends (trace w) = tr
}.

Lemma took_open own id fd tr w w' more fs : took id w more fs w' →
  owns (map s_fd (h_s (hb w))) id fd → h_id (hb w) = own → taken w fs → sends (trace w) = tr →
  ∃ dn fs' p, fs = dn ++ fs' ∧ p ++ more = flat_map frame fs' ∧ open own id fd (tr ++ map (arrival own) dn) p fs' w'.
Proof.
  intros (dn & fs' & p & -> & Hpass & Hpart & Em) Ho Hi Ht Hs. exists dn, fs', p. split; [done|]. split; [done|].
  pose proof Hpass as [P1 _ P3 P4]. split; [done|by rewrite P4|congruence|by eapply passed_taken|].
  by rewrite P1, sends_app, Hs, Hi, sends_arrival.
Qed.

Lemma get_slave_inv id s (k : slave → M world unit) (Q : unit → world → Prop) w : slave_at w id s →
  twp (bind (get_slave id) k) Q w → twp (k s) Q w.
Proof. unfold slave_at. intros E H. unfold get_slave, twp, bind, get_h in *. by rewrite E in H. Qed.

(** A package of the socket. *)
Lemma push_data own id fd tr p fs w b more session source : open own id fd tr p fs w → Forall fit fs → p ++ b ++ more = flat_map frame fs →
  twp (mainloop session source (SocketData fd b))
    (λ _ w', ∃ dn fs' p, fs = dn ++ fs' ∧ p ++ more = flat_map frame fs' ∧ open own id fd (tr ++ map (arrival own) dn) p fs' w') w.
Proof.
  intros [Hp Ho Hi Ht Hs] Hfit E. cbn [mainloop]. apply twp_bind. unfold push_socket_data. step.
  rewrite (owns_harbor_id _ _ _ Ho). rewrite (proj2 (Z.eqb_neq id 0)) by (destruct Ho; lia).
  eapply twp_mono; [eapply (read_loop_twp id fd more); [done..|unfold len; lia]|]. cbv beta. intros _ w' Hw'.
  destruct (took_open own id fd tr _ _ _ _ Hw' Ho Hi Ht Hs) as (dn & fs' & p' & E1 & E2 & [H1 H2 H3 H4 H5]).
  step. exists dn, fs', p'. split; [done|]. split; [done|]. split; [done..|].
  cbn [tell trace]. by rewrite sends_app, app_nil_r.
Qed.

(** A part of a message is not the end of the stream. *)
Lemma part_end id p w fs : part id p w → Forall fit fs → p = flat_map frame fs → fs = [].
Proof.
  intros (s & _ & _ & Hp) Hfit E. destruct fs as [|m fs]; [done|]. exfalso. apply Forall_cons in Hfit as [Hm _].
  cbn [flat_map] in E. rewrite frame_payload in E. pose proof (size_of_ge m). pose proof (proj2 Hm). unfold HEADER_COOKIE_LENGTH in *.
  pose proof (len_nonneg (flat_map frame fs)). pose proof (len_payload m).
  destruct Hp as [(_ & Hl & _)|(_ & body & buf & -> & _ & _ & _ & Hl)].
  - rewrite E, !len_app, len_be4 in Hl. lia.
  - rewrite <- app_assoc in E. apply (app_inj_1 (be4 (s_length s))) in E as [El ->]; [|done]. pose proof (len_nonneg (payload m ++ flat_map frame fs)).
    apply be4_inj in El; [|lia..]. rewrite len_app in Hl. lia.
Qed.

Definition data_from (fd : Z) (c : list Z) : Z * Z * message := (0, 0, SocketData fd c).

Lemma run_open own id fd chunks : ∀ tr p fs w, open own id fd tr p fs w → Forall fit fs → p ++ concat chunks = flat_map frame fs →
  twp (service_run (map (data_from fd) chunks)) (λ _ w', sends (trace w') = tr ++ map (arrival own) fs) w.
Proof.
  induction chunks as [|b chunks IH]; intros tr p fs w Hw Hfit E; cbn [map service_run data_from concat] in *.
  - rewrite app_nil_r in E. destruct Hw as [Hp _ _ _ Hs]. apply twp_ret.
    by rewrite (part_end _ _ _ _ Hp Hfit E), app_nil_r.
  - apply twp_bind. eapply twp_mono; [by apply (push_data own id fd tr p fs w b (concat chunks))|].
    cbv beta. intros _ w' (dn & fs' & p' & -> & E' & Hw'). apply Forall_app in Hfit as [_ Hfit].
    eapply twp_mono; [eapply IH; [exact Hw'|done|done]|]. cbv beta. intros _ w'' ->. by rewrite map_app, <- app_assoc.
Qed.

(** A connection of which the other side has to send its id. *)
Definition shaking (own id fd : Z) (w : world) (fs : list harbor_msg) : Prop := ∃ s, slave_at w id s ∧
  s_status s = STATUS_HANDSHAKE ∧ s_fd s = fd ∧ s_queue s = None ∧ s_read s = 0 ∧ len (s_size s) = 4 ∧
  owns (map s_fd (h_s (hb w))) id fd ∧ h_id (hb w) = own ∧ taken w fs ∧ sends (trace w) = [].

Lemma push_handshake own id fd fs w b more session source : shaking own id fd w fs → fd ≠ 0 → Forall fit fs → b ≠ [] →
  b ++ more = id :: flat_map frame fs →
  twp (mainloop session source (SocketData fd b))
    (λ _ w', ∃ dn fs' p, fs = dn ++ fs' ∧ p ++ more = flat_map frame fs' ∧ open own id fd (map (arrival own) dn) p fs' w') w.
Proof.
  intros (s & Hs & Hst & Hfd & Hq & Hrd & Hz & Ho & Hi & Ht & Hsd) Hfd0 Hfit Hb E. destruct b as [|x b]; [done|]. cbn [app] in E.
  injection E as -> E. cbn [mainloop]. apply twp_bind. unfold push_socket_data. step.
  rewrite (owns_harbor_id _ _ _ Ho). rewrite (proj2 (Z.eqb_neq id 0)) by (destruct Ho; lia).
  assert (2 * Z.to_nat (len (id :: b)) + 3 = S (2 * length b + 4))%nat as -> by (unfold len; cbn [length]; lia). cbn [read_loop].
  step. rewrite Hst. change (STATUS_HANDSHAKE =? STATUS_HANDSHAKE) with true. cbv iota. unfold read_handshake. apply twp_bind. step.
  apply twp_bind. eapply twp_must; [reflexivity|]. rewrite Z.eqb_refl. cbn [negb]. step.
  set (s1 := s <| s_status := STATUS_HEADER |>). assert (slave_at (put_slave w id s1) id s1) as Hs1 by (by eapply put_slave_at).
  apply twp_bind. eapply (dispatch_queue_twp id s1 []); [done|cbn; congruence|cbn; by rewrite Hq|done|].
  intros w1 Hw1 Hh Hf Ha Htr. cbn [flat_map] in Htr. rewrite app_nil_r in Htr. rewrite len_cons, Z.add_simpl_l.
  assert (part id [] w1) as Hpart.
  { eexists. split; [exact Hw1|]. split; [exact Hz|]. left. split; [done|]. split; [done|]. split; [exact Hrd|]. by eexists. }
  assert (passed w [] w1) as Hpass.
  { apply passed_refl; [by rewrite Htr|by rewrite Ha|by rewrite Hh|]. rewrite Hf. by eapply put_slave_fds. }
  assert (∀ k, (length b < k)%nat → twp (read_loop k id fd b (len b)) (λ _, took id w1 more fs) w1) as Hloop.
  { intros k Hk. apply (read_loop_twp id fd more _ w1 [] b fs); [done..|by apply (passed_taken _ [] _ _ Hpass)|done]. }
  match goal with |- twp _ (λ o, twp _ ?Q') w1 => assert (∀ u w', took id w1 more fs w' → Q' u w') as Hend end.
  { intros _ w' Hw'. pose proof Hpass as [_ _ P3 P4].
    destruct (took_open own id fd [] _ _ _ _ Hw') as (dn & fs' & p' & E1 & E2 & [H1 H2 H3 H4 H5]); [by rewrite P4|congruence|by apply (passed_taken _ [] _ _ Hpass)|by rewrite Htr|].
    step. exists dn, fs', p'. split; [done|]. split; [done|]. split; [done..|].
    cbn [tell trace]. by rewrite sends_app, app_nil_r. }
  destruct (Z.eqb_spec (len b) 0) as [Z0|Z0].
  - apply twp_ret. eapply twp_mono; [apply Hloop; lia|exact Hend].
  - assert (length b < S (2 * length b + 4))%nat as Hk by lia. apply Hloop in Hk. cbn [read_loop] in Hk.
    apply (get_slave_inv _ _ _ _ _ Hw1) in Hk.
    cbn [s_status s1] in Hk. change (STATUS_HEADER =? STATUS_HANDSHAKE) with false in Hk.
    change (STATUS_HEADER =? STATUS_HEADER) with true in Hk. cbv iota in Hk.
    change (advance 1 (id :: b)) with b. apply twp_bind_inv in Hk.
    eapply twp_mono; [exact Hk|]. cbv beta. intros o w' H. eapply twp_mono; [exact H|exact Hend].
Qed.

(** The command for a connection that the other node opened, in a new service. *)
Lemma accept own id sl fd cmd source a fs : head cmd = Some 83 →
  scan_two (c_string (drop 2 cmd)) = (fd, id) → fd ≠ 0 → 0 < id < REMOTE_MAX →
  Forall (Z.le 0) a → (length fs ≤ length a)%nat →
  twp (harbor_command cmd source) (λ _ w', shaking own id fd w' fs) (World (harbor_create own sl) [] a).
Proof.
  intros Hc Hsc Hfd0 Hid Ha Hn. set (w := World (harbor_create own sl) [] a).
  pose proof (command_scan _ _ _ _ Hc Hsc Hfd0 Hid) as H2. unfold REMOTE_MAX in Hid.
  assert (∀ i, 0 ≤ i < 256 → slave_at w i slave_zero) as Hz.
  { intros i Hi. unfold slave_at. cbn [w hb harbor_create h_s]. unfold REMOTE_MAX.
    rewrite arr_get_nonneg by lia. apply lookup_replicate_2. lia. }
  pose proof (Hz id ltac:(lia)) as Hs.
  unfold harbor_command. rewrite Hc. change (default 0 (Some 83)) with 83. change (83 =? 78) with false. change ((83 =? 83) || (83 =? 65)) with true.
  change (83 =? 83) with true. cbv iota. rewrite (proj2 (Z.leb_le 0 (len cmd - 2))) by lia. cbn [require].
  step. rewrite Hsc. rewrite (proj2 (Z.eqb_neq fd 0)), (proj2 (Z.leb_gt id 0)), (proj2 (Z.leb_gt REMOTE_MAX id)) by (unfold REMOTE_MAX; lia).
  cbn [orb]. cbv iota. step. change (negb (s_fd slave_zero =? 0)) with false. cbv iota.
  step. step. unfold handshake. apply twp_bind. step. step. step. step.
  set (s1 := slave_zero <| s_fd := fd |>).
  eapply twp_set_slave; [by eapply tell_at, tell_at, put_slave_at|].
  eexists. split; [by eapply put_slave_at, tell_at, tell_at, put_slave_at|].
  split; [done|]. split; [done|]. split; [done|]. split; [done|]. split; [done|]. split; [|split; [done|]; split; [done|done]].
  cbn [put_slave tell hb h_s]. rewrite list_insert_insert_eq, list_fmap_insert.
  cbn [s_fd]. pose proof (arr_get_Some _ _ _ Hs) as Hr.
  change (map s_fd) with (fmap s_fd : list slave → list Z). cbn [w hb harbor_create h_s]. rewrite fmap_replicate.
  split; [lia|]. unfold REMOTE_MAX. split.
  - rewrite arr_get_nonneg by lia. apply list_lookup_insert_eq. rewrite length_replicate. lia.
  - intros i Hi Ei. rewrite arr_get_nonneg in Ei by lia. destruct (decide (i = id)) as [|Hne]; [done|].
    rewrite list_lookup_insert_ne in Ei by lia. apply lookup_replicate in Ei as [Ei _]. by cbn in Ei.
Qed.

(** ** The connection *)

Lemma packed_fit id x : letter_to id x → fit (packed x).
Proof.
  intros [Hs [Hh Ei] Ht _ Hd]. split; [|exact Hd]. unfold words, packed. cbn [hm_header rh_source rh_destination rh_session]. split; [done|]. split; [|apply u32_range].
  unfold word in *. unfold HANDLE_MASK, HANDLE_REMOTE_SHIFT in *. rewrite u32_small by (rewrite Z.shiftl_mul_pow2 by lia; lia).
  rewrite Z.lor_comm. change 0xffffff with (2 ^ 24 - 1). rewrite land_mask, Z.shiftl_mul_pow2 by lia.
  pose proof (Z.mod_pos_bound (l_handle x) (2 ^ 24) ltac:(lia)). rewrite lor_high by lia. lia.
Qed.

(** What the sender asked for. *)
Definition delivered (x : letter) : effect :=
  Send (l_source x) (l_handle x) (Z.lor (l_type x) PTYPE_TAG_DONTCOPY) (l_session x) (Some (l_data x)).

Lemma arrival_packed id x : letter_to id x → arrival id (packed x) = delivered x.
Proof.
  intros [Hs [Hh Ei] Ht Hn Hd]. unfold arrival, delivered, packed. cbn [hm_header hm_buffer rh_source rh_destination rh_session].
  unfold word in *. unfold HANDLE_MASK, HANDLE_REMOTE_SHIFT in *.
  rewrite (u32_small (Z.shiftl (l_type x) 24)) by (rewrite Z.shiftl_mul_pow2 by lia; lia).
  change 0xffffff with (2 ^ 24 - 1). rewrite (Z.lor_comm (Z.shiftl (l_type x) 24)), !land_mask, !Z.shiftl_mul_pow2 by lia.
  pose proof (Z.mod_pos_bound (l_handle x) (2 ^ 24) ltac:(lia)). rewrite (lor_high (l_handle x mod 2 ^ 24)) by lia.
  rewrite Z.shiftr_div_pow2 in * by lia. pose proof (Z.div_mod (l_handle x) (2 ^ 24) ltac:(lia)).
  assert (0 ≤ id < 256) by (subst id; split; [apply Z.div_pos|apply Z.div_lt_upper_bound]; lia).
  rewrite (u32_small id), (u32_small (id * 2 ^ 24)) by lia.
  rewrite Z.mod_add, Z.mod_mod, Z.div_add, Z.div_small, lor_high by lia.
  f_equal; [lia|]. unfold s32, u32. rewrite Zplus_mod_idemp_l.
  rewrite Z.mod_small by lia. lia.
Qed.


(** ** Runs *)

(** Two messages to a node, the second one after its connection. *)
Definition letters : list letter * list letter :=
  ([Letter 8 0x1000009 0x2000007 10 (str "yo")], [Letter (-9) 0x1000009 0x2000008 0 []]).

Definition opening : list (Z * Z * message) :=
  map posted letters.1 ++ (0, 0x1000004, Command (str "A 33 2")) :: map posted letters.2.

Definition opening_bytes : list Z :=
  match service_run opening (World (harbor_create 1 0x1000004) [] [0; 0; 0]) with Ok (_, w) => sent 33 (trace w) | _ => [] end.


(** A name of sixteen bytes. *)
Definition name16 (s : string) : list Z := str s ++ replicate (16 - length (str s)) 0.

(** A message that waits for a name goes to the queue of the connection when the name
    is known first: it leaves for handle 0 of the other node, not for the handle of
    the name. *)
Lemma name_queue_forgets_handle :
  match service_run [(7, 0x1000009, RemoteName (name16 "db") 10 (str "hi")); (0, 0x2000005, Command (str "N db"));
      (0, 0x1000004, Command (str "A 33 2"))] (World (harbor_create 1 0x1000004) [] [0; 0; 0]) with
  | Ok (_, w) => sent 33 (trace w) = 1 :: frame (HarborMsg (Header 0x1000009 (10 * 2 ^ 24) 7) (str "hi"))
  | _ => False
  end.
Proof. vm_compute. reflexivity. Qed.

(** With the connection first, it leaves for the handle. *)
Lemma name_queue_sends_handle :
  match service_run [(7, 0x1000009, RemoteName (name16 "db") 10 (str "hi")); (0, 0x1000004, Command (str "A 33 2"));
      (0, 0x2000005, Command (str "N db"))] (World (harbor_create 1 0x1000004) [] [0; 0; 0]) with
  | Ok (_, w) => sent 33 (trace w) = 1 :: frame (HarborMsg (Header 0x1000009 (10 * 2 ^ 24 + 5) 7) (str "hi"))
  | _ => False
  end.
Proof. vm_compute. reflexivity. Qed.

(** After a connection broke, a message to its node is written to the closed socket:
    the source gets no [PTYPE_ERROR]. *)
Lemma down_harbor_no_error :
  match service_run [(0, 0x1000004, Command (str "A 33 2")); (0, 0, SocketData 33 [1; 0; 0; 0]);
      (8, 0x1000009, RemoteHandle 0x2000007 10 (str "yo"))] (World (harbor_create 1 0x1000004) [] [0; 0; 0]) with
  | Ok (_, w) => sends (trace w) = [] ∧ SocketClose 33 ∈ trace w ∧ last (trace w) = Some (Free (str "yo")) ∧
      sent 33 (trace w) = 1 :: frame (HarborMsg (Header 0x1000009 (10 * 2 ^ 24 + 7) 8) (str "yo"))
  | _ => False
  end.
Proof. vm_compute. split; [done|]. split; [|done]. repeat constructor. Qed.

(** A message of fewer bytes than its header: the header is read from before the buffer. *)
Lemma short_message_aborts msg sz w : sz < HEADER_COOKIE_LENGTH → forward_local_messsage msg sz w = Abort.
Proof.
  intros H. unfold HEADER_COOKIE_LENGTH in *. unfold forward_local_messsage, bind, get_h, must, message_to_header, from_bigendian.
  assert (msg.[sz - 12] = None) as E.
  { destruct (msg.[sz - 12]) eqn:E; [|done]. apply arr_get_Some in E. lia. }
  unfold HEADER_COOKIE_LENGTH. by rewrite E.
Qed.

Lemma short_package_aborts : service_run [(0, 0x1000004, Command (str "A 33 2")); (0, 0, SocketData 33 [0; 0; 0; 4; 1; 2; 3; 4])]
  (World (harbor_create 1 0x1000004) [] [0; 0; 0]) = Abort.
Proof. vm_compute. reflexivity. Qed.
