(* ===== verification/Queues.v ===== *)
(** * What the queue operations do to every queue

    [MessageQueue] proves who may touch a queue; here each operation is
    described by its effect on a map from queues to what they hold, for the
    clients of the queues.  A waiting message carries a value of [X], which the
    client chooses (who owns its data, for instance). *)

From S2P Require Import Prelude MessageQueue.

Section Views.
Context {X : Type}.

Record view := View {
  qv_handle : Z;
  qv_release : Z;
  qv_msgs : list (skynet_message * X)
}.

Record views (q : message_queue) (v : view) : Prop := {
  vw_repr : mq_repr q (qv_msgs v).*1;
  vw_handle : mq_handle q = qv_handle v;
  vw_release : mq_release q = qv_release v
}.

(** The queues of the heap are those of [G]. *)
Definition shows (s : mq_state) (G : gmap positive view) : Prop :=
  ∀ p, option_Forall2 views (heap s !! p) (G !! p).

(** [D]: the (thread, queue) pairs; [l]: the global queue. *)
Record queues (s : mq_state) (D : gset (nat * positive)) (l : list positive) (G : gmap positive view) : Prop := {
  qs_inv : mq_inv (MQT s D) l;
  qs_shows : shows s G
}.

Lemma views_sim q q' v : mq_sim q q' → views q v → views q' v.
Proof.
  intros E [Hr Hh Hl]. pose proof E as E'. rewrite E in Hr. rewrite E'. split; simpl; [|done|done].
  by rewrite <- E'.
Qed.

Lemma shows_sim s s' G : heap_sim (heap s) (heap s') → shows s G → shows s' G.
Proof.
  intros Hsim HG p. specialize (HG p). specialize (Hsim p).
  inversion Hsim as [q q' Hs E1 E2|E1 E2]; rewrite <- E1 in HG; inversion HG; constructor.
  by eapply views_sim.
Qed.

Lemma shows_lookup s G p q : shows s G → heap s !! p = Some q → ∃ v, G !! p = Some v ∧ views q v.
Proof. intros HG E. specialize (HG p). rewrite E in HG. inversion HG; eauto. Qed.

Lemma shows_view s G p v : shows s G → G !! p = Some v → ∃ q, heap s !! p = Some q ∧ views q v.
Proof. intros HG E. specialize (HG p). rewrite E in HG. inversion HG; eauto. Qed.

Lemma shows_store s G p q v : shows s G → views q v → shows (store p q s) (<[p := v]> G).
Proof.
  intros HG Hv p'. simpl. destruct (decide (p = p')) as [<-|Hne].
  - rewrite !lookup_insert_eq. by constructor.
  - rewrite !lookup_insert_ne by done. apply HG.
Qed.

(** ** The operations *)

Lemma queues_create w s D l G handle :
  queues s D l G →
  ∃ p s', skynet_mq_create handle s = (p, s') ∧ G !! p = None
    ∧ queues s' ({[(w, p)]} ∪ D) l (<[p := View handle 0 []]> G).
Proof.
  intros [Hi HG]. eexists _, _. split; [done|]. split.
  - assert (heap s !! fresh (dom (heap s)) = None) as Hf by (apply not_elem_of_dom, is_fresh).
    specialize (HG (fresh (dom (heap s)))). rewrite Hf in HG. by inversion HG.
  - split; [by apply (inv_create w handle s D l)|]. apply shows_store; [done|].
    split; [apply mq_new_repr|done|done].
Qed.

Lemma queues_take w s D l G :
  queues s D l G →
  ∃ s', skynet_globalmq_pop s = Some (head l, s') ∧
    match l with
    | p :: l => queues s' ({[(w, p)]} ∪ D) l G
    | [] => s' = s
    end.
Proof.
  intros [Hi HG]. destruct (globalmq_pop_ok s l (inv_gq _ _ Hi)) as (s' & E & _ & Hs).
  exists s'. split; [done|]. destruct l as [|p l].
  - unfold skynet_globalmq_pop in E. destruct (gq_head s) eqn:Eh; [|by injection E].
    pose proof (gq_chain _ _ (inv_gq _ _ Hi)) as Hc. simpl in Hc. congruence.
  - split; [|by eapply shows_sim]. by apply (inv_take w s D (p :: l) p).
Qed.

Lemma queues_publish w p s D l G :
  queues s D l G → (w, p) ∈ D →
  ∃ s', skynet_globalmq_push p s = Some s' ∧ queues s' (D ∖ {[(w, p)]}) (l ++ [p]) G.
Proof.
  intros [Hi HG] Hw. destruct (inv_publish w p s D l Hi Hw) as (s' & E & Hi').
  exists s'. split; [done|]. split; [done|].
  destruct (inv_held _ _ Hi w p Hw) as [[q Hq] Hl].
  destruct (globalmq_push_ok s l p q (inv_gq _ _ Hi) Hl Hq) as (s2 & E2 & _ & Hs).
  rewrite E in E2. injection E2 as <-. by eapply shows_sim.
Qed.

Lemma queues_pop w p s D l G v :
  queues s D l G → (w, p) ∈ D → G !! p = Some v → qv_release v = 0 →
  ∃ s', match qv_msgs v with
        | m :: msgs => skynet_mq_pop p s = Some (0, Some m.1, s')
            ∧ queues s' D l (<[p := View (qv_handle v) 0 msgs]> G)
        | [] => skynet_mq_pop p s = Some (1, None, s') ∧ queues s' (D ∖ {[(w, p)]}) l G
        end.
Proof.
  intros [Hi HG] Hw Ev Er. destruct (shows_view _ _ _ _ HG Ev) as (q & Eq & [Hr Hh Hl]).
  assert (alive p s) as Ha by (exists q; split; [done|congruence]).
  destruct (inv_pop w p s D l Hi Hw Ha) as (r & m' & s' & E & Hpost).
  exists s'. pose proof E as E'. unfold skynet_mq_pop, deref in E'. rewrite Eq in E'.
  destruct v as [h rel [|[m x] msgs]]; cbn [qv_msgs qv_handle qv_release fmap list_fmap] in *.
  - destruct (mq_pop_repr_nil q Hr) as (q' & Ep & Hr' & _ & Hrel & _ & Hh' & _). rewrite Ep in E'.
    injection E' as <- <- <-. split; [done|]. split; [apply Hpost|].
    rewrite <- (insert_id G p (View h rel [])) by done. apply shows_store; [done|].
    split; [done|cbn; congruence|cbn; congruence].
  - destruct (mq_pop_repr_cons q m msgs.*1 Hr) as (q' & Ep & Hr' & _ & Hrel & _ & Hh' & _). rewrite Ep in E'.
    injection E' as <- <- <-. split; [done|]. split; [apply Hpost|].
    apply shows_store; [done|]. split; [done|cbn; congruence|cbn; congruence].
Qed.

Lemma queues_push p m x s D l G v :
  queues s D l G → G !! p = Some v → qv_release v = 0 → len (qv_msgs v) + 1 < 2 ^ 30 →
  ∃ s' l', skynet_mq_push p m s = Some s'
    ∧ queues s' D l' (<[p := View (qv_handle v) 0 (qv_msgs v ++ [(m, x)])]> G).
Proof.
  intros [Hi HG] Ev Er Hroom. destruct (shows_view _ _ _ _ HG Ev) as (q & Eq & [Hr Hh Hl]).
  assert (len (qv_msgs v).*1 = len (qv_msgs v)) as Hlen by (unfold len; by rewrite length_fmap).
  assert (alive p s) as Ha by (exists q; split; [done|congruence]).
  assert (has_room p s) as Hrm.
  { exists q. split; [done|]. pose proof (repr_len _ _ Hr). lia. }
  destruct (inv_push p m s D l Hi Ha Hrm) as (s' & l' & E & Hi').
  exists s', l'. split; [done|]. split; [done|].
  unfold skynet_mq_push, deref in E. rewrite Eq in E.
  destruct (mq_enqueue_repr q _ m Hr) as (q' & Ee & Hr' & _ & Hrel & _ & Hh'); [lia|]. rewrite Ee in E.
  assert (∀ f, shows (store p (q' <| mq_in_global := f |>) s)
      (<[p := View (qv_handle v) 0 (qv_msgs v ++ [(m, x)])]> G)) as Hsh.
  { intros f. apply shows_store; [done|]. split; cbn; [|congruence|congruence].
    rewrite fmap_app. destruct Hr' as [[] ? ?]. by do 2 (split; simpl; try done). }
  destruct (mq_in_global q' =? 0) eqn:Eg.
  - assert ((p ∉ l) ∧ ∃ s2, skynet_globalmq_push p (store p (q' <| mq_in_global := MQ_IN_GLOBAL |>) s) = Some s2
      ∧ heap_sim (heap (store p (q' <| mq_in_global := MQ_IN_GLOBAL |>) s)) (heap s2)) as (_ & s2 & E2 & Hs).
    { pose proof (inv_queues _ _ Hi p q Eq) as Hok.
      assert (p ∉ l) as Hpl.
      { intros Hx. apply (ok_idle _ _ Hok); [|congruence|by left].
        destruct (mq_enqueue_repr q _ m Hr) as (q2 & Ee2 & _ & Hg & _); [lia|].
        rewrite Ee in Ee2. injection Ee2 as <-. rewrite <- Hg. by apply Z.eqb_eq. }
      split; [done|].
      destruct (globalmq_push_ok (store p (q' <| mq_in_global := MQ_IN_GLOBAL |>) s) l p
        (q' <| mq_in_global := MQ_IN_GLOBAL |>)) as (s2 & E2 & _ & Hs); [|done|apply lookup_insert_eq|by exists s2].
      eapply gq_ok_store; [apply (inv_gq _ _ Hi)|done|].
      destruct (mq_enqueue_repr q _ m Hr) as (q2 & Ee2 & _ & _ & _ & Hnx & _); [lia|].
      rewrite Ee in Ee2. injection Ee2 as <-. done. }
    rewrite E in E2. injection E2 as <-. by eapply shows_sim.
  - injection E as <-. specialize (Hsh (mq_in_global q')). by destruct q'.
Qed.

Lemma queues_mark p s D l G v :
  queues s D l G → G !! p = Some v → qv_release v = 0 →
  ∃ s' l', skynet_mq_mark_release p s = Some s'
    ∧ queues s' D l' (<[p := View (qv_handle v) 1 (qv_msgs v)]> G).
Proof.
  intros [Hi HG] Ev Er. destruct (shows_view _ _ _ _ HG Ev) as (q & Eq & [Hr Hh Hl]).
  assert (alive p s) as Ha by (exists q; split; [done|congruence]).
  destruct (inv_mark p s D l Hi Ha) as (s' & l' & E & Hi').
  exists s', l'. split; [done|]. split; [done|].
  unfold skynet_mq_mark_release, deref in E. rewrite Eq, Hl, Er in E. cbn [Z.eqb] in E.
  assert (shows (store p (q <| mq_release := 1 |>) s) (<[p := View (qv_handle v) 1 (qv_msgs v)]> G)) as Hsh.
  { apply shows_store; [done|]. split; cbn; [|done|done].
    destruct Hr as [[] ? ?]. by do 2 (split; simpl; try done). }
  cbn in E. destruct (mq_in_global q =? MQ_IN_GLOBAL) eqn:Eg; cbn [negb] in E.
  - by injection E as <-.
  - pose proof (inv_queues _ _ Hi p q Eq) as Hok.
    assert (p ∉ l) as Hpl.
    { intros Hx. apply (ok_idle _ _ Hok); [|congruence|by left].
      destruct (ok_flag _ _ Hok) as [|Hf]; [done|]. rewrite Hf in Eg. done. }
    destruct (globalmq_push_ok (store p (q <| mq_release := 1 |>) s) l p (q <| mq_release := 1 |>))
      as (s2 & E2 & _ & Hs); [|done|apply lookup_insert_eq|].
    { eapply gq_ok_store; [apply (inv_gq _ _ Hi)|done|done]. }
    rewrite E in E2. injection E2 as <-. by eapply shows_sim.
Qed.

Lemma queues_release w p s D l G v :
  queues s D l G → (w, p) ∈ D → G !! p = Some v →
  ∃ s', (qv_release v = 1 ∧ skynet_mq_release p s = Some ((qv_msgs v).*1, s')
           ∧ queues s' (D ∖ {[(w, p)]}) l (delete p G)) ∨
        (qv_release v = 0 ∧ skynet_mq_release p s = Some ([], s')
           ∧ queues s' (D ∖ {[(w, p)]}) (l ++ [p]) G).
Proof.
  intros Hqs Hw Ev. pose proof Hqs as [Hi HG].
  destruct (shows_view _ _ _ _ HG Ev) as (q & Eq & [Hr Hh Hl]).
  destruct (inv_held _ _ Hi w p Hw) as [_ Hpl]. simpl in Hpl.
  pose proof (inv_queues _ _ Hi p q Eq) as Hok. destruct (ok_rel _ _ Hok) as [H0|H1].
  - destruct (queues_publish w p s D l G Hqs Hw) as (s' & E & Hqs').
    exists s'. right. split; [congruence|]. split; [|done].
    unfold skynet_mq_release, deref. rewrite Eq, H0. simpl. by rewrite E.
  - eexists. left. split; [congruence|].
    split; [eapply release_ok; [apply (inv_gq _ _ Hi)|done|done|done|done]|].
    split; [by apply inv_free|]. intros p'. simpl. destruct (decide (p = p')) as [<-|Hne].
    + rewrite !lookup_delete_eq. constructor.
    + rewrite !lookup_delete_ne by done. apply HG.
Qed.

Lemma queues_init : queues skynet_mq_init ∅ [] ∅.
Proof. split; [apply inv_init|]. intros p. simpl. rewrite !lookup_empty. constructor. Qed.

(** Writing fields of a queue that no one looks at. *)
Lemma queues_touch p (q q' : message_queue) s D l G :
  queues s D l G → heap s !! p = Some q → q' = q <| mq_overload := mq_overload q' |> →
  queues (store p q' s) D l G.
Proof.
  intros [Hi HG] Eq E. destruct (shows_lookup _ _ _ _ HG Eq) as (v & Ev & Hv). split.
  - pose proof (inv_queues _ _ Hi p q Eq) as Hok. rewrite E.
    eapply mq_inv_store; [done..| |done|done].
    destruct Hok as [(msgs & [[] ? ?] & ?) ? ? ? ?]. split; simpl; try done.
    exists msgs. split; [|done]. by do 2 (split; simpl; try done).
  - rewrite <- (insert_id G p v) by done. apply shows_store; [done|]. rewrite E.
    destruct Hv as [[[] ? ?] ? ?]. by do 3 (split; simpl; try done).
Qed.

(** A held queue is in the heap. *)
Lemma queues_held w p s D l G : queues s D l G → (w, p) ∈ D → ∃ v, G !! p = Some v.
Proof.
  intros [Hi HG] Hw. destruct (inv_held _ _ Hi w p Hw) as [[q Eq] _].
  destruct (shows_lookup _ _ _ _ HG Eq) as (v & ? & _). eauto.
Qed.

(** The length the code reads. *)
Lemma queues_length p v s D l G : queues s D l G → G !! p = Some v →
  ∃ q, heap s !! p = Some q ∧ skynet_mq_length q = len (qv_msgs v) ∧ mq_handle q = qv_handle v.
Proof.
  intros [Hi HG] Ev. destruct (shows_view _ _ _ _ HG Ev) as (q & Eq & [Hr Hh Hl]).
  exists q. split; [done|]. split; [|done]. rewrite <- (repr_len _ _ Hr). unfold len. by rewrite length_fmap.
Qed.

End Views.
Arguments view X : clear implicits.
