(* ===== verification/Server.v ===== *)
(** * Services: skynet-src/skynet_server.c

    The node's shared state and the functions of skynet_server.c as programs of
    atomic steps ([Threads]), together with what they call: skynet_handle.c and
    skynet_mq.c through [Handle] and [MessageQueue], skynet_harbor.c,
    skynet_error.c, skynet_env.c, skynet_monitor.c and the threads of
    skynet_start.c.  A step is one locked section, one atomic operation, or one
    access to fields only the running thread uses.

    The code of services is not skynet's: it is a [client], a tree of calls of
    the API; theorems quantify over it.  Messages point to blocks of a heap,
    which the state records so that a double free, or a use after free, aborts.

    The pointers of contexts, message blocks and log files are never given out twice, as in
    CompCert's memory.  The [N_launching], [N_logging] and [N_log] fields are not in
    the program: they record which contexts [skynet_context_new] has let go of and
    still reads, which log files [dispatch_message] has loaded and not yet
    written to, and which messages were sent and handled. *)

From stdpp Require Import gmultiset.
From S2P Require Import Prelude Kernel Threads Text MessageQueue Timer Handle.

Definition PTYPE_TEXT : Z := 0.
Definition PTYPE_CLIENT : Z := 3.
Definition PTYPE_SYSTEM : Z := 4.
Definition PTYPE_HARBOR : Z := 5.
Definition PTYPE_SOCKET : Z := 6.
Definition PTYPE_ERROR : Z := 7.
Definition PTYPE_TAG_DONTCOPY : Z := 0x10000.
Definition PTYPE_TAG_ALLOCSESSION : Z := 0x20000.
Definition MESSAGE_TYPE_MASK : Z := 2 ^ 56 - 1.
Definition GLOBALNAME_LENGTH : Z := 16.

(** ** The state *)

(** The fields of [struct skynet_context] besides [handle] and [ref]; [sv_queue]
    is [None] until [skynet_mq_create] has returned.  A callback with its
    user data is a number.  [sv_calling] is the lock of a CALLING_CHECK build. *)
Record service := Service {
  sv_queue : option positive;
  sv_cb : option Z;
  sv_logfile : option positive;
  sv_cpu_cost : Z;
  sv_cpu_start : Z;
  sv_result : cstring;
  sv_session_id : Z;
  sv_message_count : Z;
  sv_init : bool;
  sv_endless : bool;
  sv_profile : bool;
  sv_calling : bool
}.

#[export] Instance eta_service : Eta service := λ v,
  Service (sv_queue v) (sv_cb v) (sv_logfile v) (sv_cpu_cost v) (sv_cpu_start v) (sv_result v)
    (sv_session_id v) (sv_message_count v) (sv_init v) (sv_endless v) (sv_profile v) (sv_calling v).

(** [rn_name] is [None] where it is not initialised. *)
Record remote_name := RemoteName { rn_name : option cstring; rn_handle : Z }.

Record remote_message := RemoteMessage {
  rm_destination : remote_name;
  rm_message : Z;
  rm_sz : Z;
  rm_type : Z
}.

Record skynet_socket_message := SocketMessage {
  sm_type : Z;
  sm_id : Z;
  sm_ud : Z;
  sm_buffer : Z;
  sm_text : block
}.

(** What a pointer of a message leads to. *)
Inductive mblock :=
| Raw (b : block)
| Remote (r : remote_message)
| Socket (m : skynet_socket_message).

Definition SIZEOF_REMOTE_MESSAGE : Z := 48.
Definition SIZEOF_SOCKET_MESSAGE : Z := 24.

Definition block_size (b : mblock) : Z :=
  match b with
  | Raw b => len b
  | Remote _ => SIZEOF_REMOTE_MESSAGE
  | Socket m => SIZEOF_SOCKET_MESSAGE + len (sm_text m)
  end.

Record skynet_monitor := Monitor { mo_version : Z; mo_check_version : Z; mo_source : Z; mo_destination : Z }.

#[export] Instance eta_skynet_monitor : Eta skynet_monitor := λ m,
  Monitor (mo_version m) (mo_check_version m) (mo_source m) (mo_destination m).

(** A message sent to the service with this handle, and what became of it. *)
Inductive event :=
| Sent (handle : Z) (m : skynet_message)
| Called (handle : Z) (m : skynet_message)
| Discarded (handle : Z) (m : skynet_message)
| Dropped (handle : Z) (m : skynet_message).

(** [struct skynet_node G_NODE] is [N_total], [N_monitor_exit] and [N_profile]. *)
Record node := Node {
  N_hs : hs_state;
  N_mq : mq_state;
  N_sv : gmap positive service;
  N_next : positive;
  N_mem : gmap positive mblock;
  N_brk : positive;
  N_total : Z;
  N_monitor_exit : Z;
  N_profile : bool;
  N_HARBOR : Z;
  N_REMOTE : option positive;
  N_logger : Z;
  N_env : gmap cstring cstring;
  N_TI : timer;
  N_files : gset positive;
  N_file_next : positive;
  N_sm : gmap nat skynet_monitor;
  N_launching : gmultiset positive;
  N_logging : gmultiset positive;
  N_log : list event
}.

#[export] Instance eta_node : Eta node := λ n,
  Node (N_hs n) (N_mq n) (N_sv n) (N_next n) (N_mem n) (N_brk n) (N_total n) (N_monitor_exit n)
    (N_profile n) (N_HARBOR n) (N_REMOTE n) (N_logger n) (N_env n) (N_TI n) (N_files n)
    (N_file_next n) (N_sm n) (N_launching n) (N_logging n) (N_log n).

(** ** Steps *)

Definition in_hs {A} (f : hs_state → option (A * hs_state)) : M node A := λ n,
  match f (N_hs n) with Some (x, st) => Ok (x, n <| N_hs := st |>) | None => Abort end.

Definition in_mq {A} (f : mq_state → option (A * mq_state)) : M node A := λ n,
  match f (N_mq n) with Some (x, s) => Ok (x, n <| N_mq := s |>) | None => Abort end.

(** A function without a result. *)
Definition void {S} (f : S → option S) : S → option (unit * S) := λ s, s ← f s; Some (tt, s).

Definition read {A} (f : node → A) : M node A := λ n, Ok (f n, n).

Definition get_sv (p : positive) : M node service := λ n,
  match N_sv n !! p with Some v => Ok (v, n) | None => Abort end.

Definition set_sv (p : positive) (v : service) : M node unit := λ n,
  Ok (tt, n <| N_sv := <[p := v]> (N_sv n) |>).

Definition update_sv (p : positive) (f : service → service) : M node unit :=
  v ⟵ get_sv p; set_sv p (f v).

Definition record (e : event) : M node unit := λ n, Ok (tt, n <| N_log := N_log n ++ [e] |>).

Definition context_handle (p : positive) : M node Z :=
  in_hs (λ st, h ← skynet_context_handle p st; Some (h, st)).

(** ** Memory of messages *)

(** Both sizes of malloc's result that matter are those of the block. *)
Definition skynet_malloc (b : mblock) : M node Z := λ n,
  let p := N_brk n in
  let n := n <| N_mem := <[p := b]> (N_mem n) |> in
  Ok (Z.pos p, n <| N_brk := Pos.succ p |>).

Definition skynet_free (data : Z) : M node unit := λ n,
  match data with
  | Z0 => Ok (tt, n)
  | Zpos p => match N_mem n !! p with
              | Some _ => Ok (tt, n <| N_mem := delete p (N_mem n) |>)
              | None => Abort
              end
  | Zneg _ => Abort
  end.

(** What a callback can read behind its [msg]. *)
Definition contents (data : Z) : M node (option mblock) := λ n,
  match data with
  | Z0 => Ok (None, n)
  | Zpos p => match N_mem n !! p with Some b => Ok (Some b, n) | None => Abort end
  | Zneg _ => Abort
  end.

(** ** Contexts and their references *)

Definition context_inc : M node unit := λ n, Ok (tt, n <| N_total := N_total n + 1 |>).
Definition context_dec : M node unit := λ n, Ok (tt, n <| N_total := N_total n - 1 |>).

(** [ATOM_FDEC(&ctx->ref)]: the old value. *)
Definition ref_dec (p : positive) : M node Z := in_hs (λ st,
  c ← get_ctx p st;
  Some (ctx_ref c, set_ctx p (c <| ctx_ref := ctx_ref c - 1 |>) st)).

Definition fclose (f : positive) : M node unit := λ n,
  if decide (f ∈ N_files n) then Ok (tt, n <| N_files := N_files n ∖ {[f]} |>) else Abort.

Definition context_free (p : positive) : M node unit := λ n,
  match N_sv n !! p, get_ctx p (N_hs n) with
  | Some _, Some _ =>
      let n := n <| N_sv := delete p (N_sv n) |> in
      Ok (tt, n <| N_hs := HState (H (N_hs n)) (delete p (ctxs (N_hs n))) |>)
  | _, _ => Abort
  end.

(** [ctx->queue]. *)
Definition context_queue (p : positive) : M node positive := v ⟵ get_sv p; must (sv_queue v).

(** The release function of a module does not call back into the node. *)
Definition delete_context (p : positive) : prog node unit :=
  atomic (v ⟵ get_sv p;
    match sv_logfile v with
    | Some f => fclose f;; set_sv p (v <| sv_logfile := (None : option positive) |>)
    | None => ret tt
    end);;;
  atomic (q ⟵ context_queue p; in_mq (void (skynet_mq_mark_release q)));;;
  atomic (context_free p);;;
  atomic context_dec.

(** [dec] is the step that decrements the count. *)
Definition release_after (dec : M node Z) (p : positive) : prog node (option positive) :=
  old ⤆ atomic dec;
  if old =? 1 then delete_context p;;; Ret None else Ret (Some p).

Definition context_release (p : positive) : prog node (option positive) := release_after (ref_dec p) p.

Definition handle_grab (handle : Z) : M node (option positive) := in_hs (skynet_handle_grab handle).

(** [skynet_mq_push] on a queue of a service, with the record of the message. *)
Definition mq_push (p : positive) (m : skynet_message) : M node unit :=
  q ⟵ context_queue p;
  in_mq (void (skynet_mq_push q m));;
  h ⟵ context_handle p; record (Sent h m).

Definition skynet_context_push (handle : Z) (message : skynet_message) : prog node Z :=
  ctx ⤆ atomic (handle_grab handle);
  match ctx with
  | None => Ret (-1)
  | Some p => atomic (mq_push p message);;; context_release p;;; Ret 0
  end.

Definition skynet_context_endless (handle : Z) : prog node unit :=
  ctx ⤆ atomic (handle_grab handle);
  match ctx with
  | None => Ret tt
  | Some p => atomic (update_sv p (λ v, v <| sv_endless := true |>));;; context_release p;;; Ret tt
  end.

(** [skynet_handle_retire]: under the lock, then the release. *)
Definition handle_retire (handle : Z) : prog node Z :=
  ctx ⤆ atomic (in_hs (retire_slot handle));
  match ctx with
  | Some p => context_release p;;; Ret 1
  | None => Ret 0
  end.

(** Slot [i] of the table, if there is one: the handle of its context or 0. *)
Definition slot_handle (i : Z) : M node (option Z) := in_hs (λ st,
  if i <? slot_size (H st) then
    c ← (slot (H st)).[i];
    match c with
    | Some p => h ← skynet_context_handle p st; Some (Some h, st)
    | None => Some (Some 0, st)
    end
  else Some (None, st)).

(** Other threads may register services meanwhile, so the rounds of the loops
    are counted by [fuel]; a run that needs more is not considered. *)
Fixpoint retire_all_sweep (fuel : nat) (i n : Z) : prog node Z :=
  match fuel with
  | O => atomic stop
  | S fuel =>
      h ⤆ atomic (slot_handle i);
      match h with
      | None => Ret n
      | Some h =>
          if truth h then
            r ⤆ handle_retire h;
            retire_all_sweep fuel (i + 1) (if truth r then n + 1 else n)
          else retire_all_sweep fuel (i + 1) n
      end
  end.

Fixpoint handle_retireall (fuel : nat) : prog node unit :=
  match fuel with
  | O => atomic stop
  | S rounds =>
      n ⤆ retire_all_sweep fuel 0 0;
      if n =? 0 then Ret tt else handle_retireall rounds
  end.

(** ** skynet_harbor.c *)

Definition skynet_harbor_message_isremote (handle : Z) : M node bool :=
  harbor ⟵ read N_HARBOR;
  require (negb (harbor =? u32 (Z.lnot 0)));;
  let h := Z.land handle (u32 (Z.lnot HANDLE_MASK)) in
  ret (negb (h =? harbor) && negb (h =? 0)).

Definition skynet_context_send (p : positive) (msg sz source type session : Z) : M node unit :=
  mq_push p {| msg_source := source; msg_session := session; msg_data := msg;
               msg_sz := Z.lor sz (Z.shiftl type MESSAGE_TYPE_SHIFT) |}.

(** The test of the assertion; the name is skynet_harbor.c's. *)
Definition invalid_type (type : Z) : bool := negb (type =? PTYPE_SYSTEM) && negb (type =? PTYPE_HARBOR).

Definition skynet_harbor_send (rmsg : Z) (type source session : Z) : M node unit :=
  r ⟵ read N_REMOTE;
  require (invalid_type type);;
  p ⟵ must r;
  skynet_context_send p rmsg SIZEOF_REMOTE_MESSAGE source PTYPE_SYSTEM session.

Definition skynet_harbor_start (p : positive) : prog node unit :=
  atomic (in_hs (void (skynet_context_grab p)));;;
  atomic context_dec;;;
  atomic (λ n, Ok (tt, n <| N_REMOTE := Some p |>)).

Definition skynet_harbor_exit : prog node unit :=
  r ⤆ atomic (λ n, Ok (N_REMOTE n, n <| N_REMOTE := (None : option positive) |>));
  match r with Some p => context_release p;;; Ret tt | None => Ret tt end.

(** ** skynet_error.c *)

Definition LOG_MESSAGE_SIZE : Z := 256.

(** [for (;;) { max_size *= 2; ... }] until the text of [n] bytes fits. *)
Fixpoint error_size (fuel : nat) (max_size n : Z) : Z :=
  match fuel with
  | O => max_size
  | S fuel => let max_size := max_size * 2 in
              if n <? max_size then max_size else error_size fuel max_size n
  end.

(** vsnprintf returns an int, so 23 doublings of 256 suffice. *)
Definition error_data (text : cstring) : mblock :=
  if len text <? LOG_MESSAGE_SIZE then Raw (map Some (text ++ [0]))
  else
    let max_size := error_size 23 LOG_MESSAGE_SIZE (len text) in
    Raw (map Some (text ++ [0]) ++ replicate (Z.to_nat (max_size - len text - 1)) None).

(** [if (logger == 0) logger = skynet_handle_findname("logger")]. *)
Definition find_logger : M node Z :=
  logger ⟵ read N_logger;
  if logger =? 0 then
    h ⟵ in_hs (λ st, h ← skynet_handle_findname (str "logger") st; Some (h, st));
    (λ n, Ok (h, n <| N_logger := h |>))
  else ret logger.

(** [text] is what the format and its arguments print. *)
Definition skynet_error (context : option positive) (text : cstring) : prog node unit :=
  logger ⤆ atomic find_logger;
  if logger =? 0 then Ret tt
  else
    data ⤆ atomic (skynet_malloc (error_data text));
    source ⤆ match context with None => Ret 0 | Some p => atomic (context_handle p) end;
    skynet_context_push logger
      {| msg_source := source; msg_session := 0; msg_data := data;
         msg_sz := Z.lor (len text) (Z.shiftl PTYPE_TEXT MESSAGE_TYPE_SHIFT) |};;;
    Ret tt.

(** ** skynet_env.c *)

Definition skynet_getenv (key : cstring) : M node (option cstring) := read (λ n, N_env n !! key).

Definition skynet_setenv (key value : cstring) : M node unit :=
  old ⟵ skynet_getenv key;
  require (negb (bool_decide (is_Some old)));;
  (λ n, Ok (tt, n <| N_env := <[key := value]> (N_env n) |>)).

(** ** skynet_monitor.c *)

Definition monitor_of (sm : nat) (n : node) : skynet_monitor := default (Monitor 0 0 0 0) (N_sm n !! sm).
Definition set_monitor (sm : nat) (m : skynet_monitor) : M node unit := λ n,
  Ok (tt, n <| N_sm := <[sm := m]> (N_sm n) |>).

Definition skynet_monitor_trigger (sm : nat) (source destination : Z) : M node unit :=
  m ⟵ read (monitor_of sm);
  set_monitor sm {| mo_version := s32 (mo_version m + 1); mo_check_version := mo_check_version m;
                    mo_source := source; mo_destination := destination |}.

Definition endless_text (m : skynet_monitor) : cstring :=
  str "A message from [ :" ++ fmt_08x (mo_source m) ++ str " ] to [ :" ++ fmt_08x (mo_destination m) ++
  str " ] maybe in an endless loop (version = " ++ fmt_d (mo_version m) ++ str ")".

Definition skynet_monitor_check (sm : nat) : prog node unit :=
  m ⤆ atomic (read (monitor_of sm));
  if mo_version m =? mo_check_version m then
    if truth (mo_destination m) then
      skynet_context_endless (mo_destination m);;;
      skynet_error None (endless_text m)
    else Ret tt
  else atomic (set_monitor sm (m <| mo_check_version := mo_version m |>)).

(** ** Sending *)

(** [++ctx->session_id] as two's complement. *)
Definition skynet_context_newsession (p : positive) : M node Z :=
  v ⟵ get_sv p;
  let session := s32 (sv_session_id v + 1) in
  if session <=? 0 then set_sv p (v <| sv_session_id := 1 |>);; ret 1
  else set_sv p (v <| sv_session_id := session |>);; ret session.

(** The block of the copy: [sz] bytes and a terminator; a structure is copied as it is. *)
Definition copy_of (b : mblock) (sz : Z) : mblock :=
  match b with
  | Raw b => Raw (take (Z.to_nat sz) b ++ [Some 0])
  | b => b
  end.

(** [skynet_malloc(sz+1)] and the memcpy. *)
Definition copy_data (data sz : Z) : M node Z :=
  b ⟵ contents data;
  b ⟵ must b;
  require (sz <=? block_size b);;
  skynet_malloc (copy_of b sz).

Definition tag (type flag : Z) : bool := truth (Z.land type flag).

Definition _filter_args (context : option positive) (type session data sz : Z) : prog node (Z * Z * Z) :=
  let needcopy := negb (tag type PTYPE_TAG_DONTCOPY) in
  let allocsession := tag type PTYPE_TAG_ALLOCSESSION in
  let type := Z.land type 0xff in
  session ⤆ (if allocsession then
               atomic (require (session =? 0);; p ⟵ must context; skynet_context_newsession p)
             else Ret session);
  data ⤆ (if needcopy && truth data then atomic (copy_data data sz) else Ret data);
  Ret (session, data, Z.lor sz (Z.shiftl type MESSAGE_TYPE_SHIFT)).

(** [if (type & PTYPE_TAG_DONTCOPY) skynet_free(data)]. *)
Definition free_uncopied (type data : Z) : prog node unit :=
  if tag type PTYPE_TAG_DONTCOPY then atomic (skynet_free data) else Ret tt.

Definition source_or_self (context : option positive) (source : Z) : prog node Z :=
  if source =? 0 then atomic (p ⟵ must context; context_handle p) else Ret source.

Definition skynet_send (context : option positive) (source destination type session data sz : Z) : prog node Z :=
  if negb (Z.land sz MESSAGE_TYPE_MASK =? sz) then
    skynet_error context (str "The message to " ++ fmt_x destination ++ str " is too large");;;
    free_uncopied type data;;;
    Ret (-2)
  else
    '(session, data, sz) ⤆ _filter_args context type session data sz;
    source ⤆ source_or_self context source;
    if destination =? 0 then
      if truth data then
        skynet_error context (str "Destination address can't be 0");;;
        atomic (skynet_free data);;;
        Ret (-1)
      else Ret session
    else
      remote ⤆ atomic (skynet_harbor_message_isremote destination);
      if remote then
        let rmsg := {| rm_destination := {| rn_name := None; rn_handle := destination |};
                       rm_message := data;
                       rm_sz := Z.land sz MESSAGE_TYPE_MASK;
                       rm_type := Z.shiftr sz MESSAGE_TYPE_SHIFT |} in
        r ⤆ atomic (skynet_malloc (Remote rmsg));
        atomic (skynet_harbor_send r (rm_type rmsg) source session);;;
        Ret session
      else
        r ⤆ skynet_context_push destination
          {| msg_source := source; msg_session := session; msg_data := data; msg_sz := sz |};
        if truth r then atomic (skynet_free data);;; Ret (-1) else Ret session.

(** 16 bytes; there is no terminator when the name fills them. *)
Definition copy_name (addr : cstring) : cstring :=
  take 16 addr ++ replicate (16 - length (take 16 addr)) 0.

Definition findname (nm : cstring) : M node Z :=
  in_hs (λ st, h ← skynet_handle_findname nm st; Some (h, st)).

Definition skynet_sendname (context : option positive) (source : Z) (addr : cstring)
    (type session data sz : Z) : prog node Z :=
  source ⤆ source_or_self context source;
  if hd 0 addr =? 58 then
    skynet_send context source (u32 (strtoul 16 (tail addr))) type session data sz
  else if hd 0 addr =? 46 then
    des ⤆ atomic (findname (tail addr));
    if des =? 0 then free_uncopied type data;;; Ret (-1)
    else skynet_send context source des type session data sz
  else if negb (Z.land sz MESSAGE_TYPE_MASK =? sz) then
    skynet_error context (str "The message to " ++ addr ++ str " is too large");;;
    free_uncopied type data;;;
    Ret (-2)
  else
    '(session, data, sz) ⤆ _filter_args context type session data sz;
    let rmsg := {| rm_destination := {| rn_name := Some (copy_name addr); rn_handle := 0 |};
                   rm_message := data;
                   rm_sz := Z.land sz MESSAGE_TYPE_MASK;
                   rm_type := Z.shiftr sz MESSAGE_TYPE_SHIFT |} in
    r ⤆ atomic (skynet_malloc (Remote rmsg));
    atomic (skynet_harbor_send r (rm_type rmsg) source session);;;
    Ret session.

Definition drop_message (handle : Z) (msg : skynet_message) : prog node unit :=
  atomic (skynet_free (msg_data msg));;;
  atomic (require (truth handle));;;
  skynet_send None handle (msg_source msg) PTYPE_ERROR 0 0 0;;;
  Ret tt.

(** [skynet_mq_release(q, drop_message, &d)]: no other thread can reach the
    queue any more, so its messages are taken out first and then dropped. *)
Definition take_dropped (q : positive) (handle : Z) : M node (list skynet_message) :=
  l ⟵ in_mq (skynet_mq_release q);
  (λ n, Ok (l, n <| N_log := N_log n ++ map (Dropped handle) l |>)).

Definition release_queue (q : positive) (handle : Z) : prog node unit :=
  dropped ⤆ atomic (take_dropped q handle);
  for_each (drop_message handle) dropped.

(** ** Dispatching *)

(** What the callback [cb] of context [ctx] does with a message: its arguments,
    what [msg] points to, and a program that returns the callback's result. *)
Definition code : Type :=
  Z → positive → Z → Z → Z → Z → Z → option mblock → prog node Z.

(** One callback: the code, and the two readings of skynet_thread_time. *)
Record turn := Turn { tn_code : code; tn_start : Z; tn_end : Z }.

(** CHECKCALLING_BEGIN: [assert] that the lock was free. *)
Definition calling_begin (p : positive) : M node unit :=
  v ⟵ get_sv p; require (negb (sv_calling v));; set_sv p (v <| sv_calling := true |>).

Definition calling_end (p : positive) : M node unit :=
  update_sv p (λ v, v <| sv_calling := false |>).

(** The load of [ctx->logfile], and [skynet_log_output]. *)
Definition log_load (p : positive) : M node (option positive) :=
  v ⟵ get_sv p;
  match sv_logfile v with
  | Some f => (λ n, Ok (Some f, n <| N_logging := {[+ f +]} ⊎ N_logging n |>))
  | None => ret None
  end.

Definition log_write (f : positive) : M node unit := λ n,
  if decide (f ∈ N_files n) then Ok (tt, n <| N_logging := N_logging n ∖ {[+ f +]} |>) else Abort.

(** [++ctx->message_count], and the loads of [ctx->profile] and [ctx->cb]. *)
Definition count_message (p : positive) (msg : skynet_message) : M node service :=
  v ⟵ get_sv p;
  set_sv p (v <| sv_message_count := s32 (sv_message_count v + 1) |>);;
  h ⟵ context_handle p; record (Called h msg);;
  ret v.

Definition dispatch_message (p : positive) (msg : skynet_message) (t : turn) : prog node unit :=
  atomic (v ⟵ get_sv p; require (sv_init v));;;
  atomic (calling_begin p);;;
  let type := Z.shiftr (msg_sz msg) MESSAGE_TYPE_SHIFT in
  let sz := Z.land (msg_sz msg) MESSAGE_TYPE_MASK in
  (f ⤆ atomic (log_load p);
   match f with Some f => atomic (log_write f) | None => Ret tt end);;;
  v ⤆ atomic (count_message p msg);
  (if sv_profile v then atomic (update_sv p (λ v, v <| sv_cpu_start := tn_start t |>)) else Ret tt);;;
  b ⤆ atomic (contents (msg_data msg));
  reserve_msg ⤆ match sv_cb v with
                | Some cb => tn_code t cb p type (msg_session msg) (msg_source msg) (msg_data msg) sz b
                | None => atomic abort
                end;
  (if sv_profile v then
     atomic (update_sv p (λ v,
       v <| sv_cpu_cost := u64 (sv_cpu_cost v + u64 (tn_end t - sv_cpu_start v)) |>))
   else Ret tt);;;
  (if truth reserve_msg then Ret tt else atomic (skynet_free (msg_data msg)));;;
  atomic (calling_end p).

Definition mq_pop (q : positive) : M node (Z * option skynet_message) :=
  in_mq (λ s, '(r, m, s) ← skynet_mq_pop q s; Some (r, m, s)).

(** [while (!skynet_mq_pop(q,&msg)) dispatch_message(ctx, &msg)], one turn a message. *)
Fixpoint skynet_context_dispatchall (p : positive) (ts : list turn) : prog node unit :=
  q ⤆ atomic (context_queue p);
  '(_, msg) ⤆ atomic (mq_pop q);
  match msg, ts with
  | None, _ => Ret tt
  | Some msg, t :: ts => dispatch_message p msg t;;; skynet_context_dispatchall p ts
  | Some _, [] => atomic stop
  end.

Definition mq_overload_of (q : positive) : M node Z := in_mq (λ s,
  Q ← deref q s; let '(overload, Q) := skynet_mq_overload Q in Some (overload, store q Q s)).

Definition mq_length_of (q : positive) : M node Z := in_mq (λ s,
  Q ← deref q s; Some (skynet_mq_length Q, s)).

Definition overload_text (overload : Z) : cstring :=
  str "May overload, message queue length = " ++ fmt_d overload.

(** The round of the [for] loop with index [i]: the value of [n] after it, or
    [None] where the queue was empty. *)
Definition dispatch_round (sm : nat) (q p : positive) (handle weight : Z) (i n : Z) (t : turn)
    : prog node (option Z) :=
  '(_, msg) ⤆ atomic (mq_pop q);
  match msg with
  | None => Ret None
  | Some msg =>
      n ⤆ (if (i =? 0) && (0 <=? weight) then
             length ⤆ atomic (mq_length_of q); Ret (Z.shiftr length weight)
           else Ret n);
      overload ⤆ atomic (mq_overload_of q);
      (if truth overload then skynet_error (Some p) (overload_text overload) else Ret tt);;;
      atomic (skynet_monitor_trigger sm (msg_source msg) handle);;;
      v ⤆ atomic (get_sv p);
      match sv_cb v with
      | None => atomic (skynet_free (msg_data msg);; record (Discarded handle msg))
      | Some _ => dispatch_message p msg t
      end;;;
      atomic (skynet_monitor_trigger sm 0 0);;;
      Ret (Some n)
  end.

(** The rounds from [i] on; [None]: the queue ran empty. *)
Fixpoint dispatch_rounds (fuel : nat) (sm : nat) (q p : positive) (handle weight : Z) (i n : Z)
    (ts : nat → turn) : prog node (option unit) :=
  match fuel with
  | O => Ret (Some tt)
  | S fuel =>
      r ⤆ dispatch_round sm q p handle weight i n (ts (Z.to_nat i));
      match r with
      | None => Ret None
      | Some n => dispatch_rounds fuel sm q p handle weight (i + 1) n ts
      end
  end.

(** [for (i=0;i<n;i++)]: the first round sets [n] and the others leave it. *)
Definition dispatch_loop (sm : nat) (q p : positive) (handle weight : Z) (ts : nat → turn)
    : prog node (option unit) :=
  r ⤆ dispatch_round sm q p handle weight 0 1 (ts 0%nat);
  match r with
  | None => Ret None
  | Some n => dispatch_rounds (Z.to_nat (n - 1)) sm q p handle weight 1 n ts
  end.

(** [skynet_mq_handle]. *)
Definition mq_handle_of (q : positive) : M node Z := in_mq (λ s, Q ← deref q s; Some (mq_handle Q, s)).

Definition globalmq_pop : M node (option positive) := in_mq skynet_globalmq_pop.
Definition globalmq_push (q : positive) : M node unit := in_mq (void (skynet_globalmq_push q)).

Definition skynet_context_message_dispatch (sm : nat) (q : option positive) (weight : Z) (ts : nat → turn)
    : prog node (option positive) :=
  q ⤆ match q with None => atomic globalmq_pop | Some q => Ret (Some q) end;
  match q with
  | None => Ret None
  | Some q =>
      handle ⤆ atomic (mq_handle_of q);
      ctx ⤆ atomic (handle_grab handle);
      match ctx with
      | None => release_queue q handle;;; atomic globalmq_pop
      | Some p =>
          r ⤆ dispatch_loop sm q p handle weight ts;
          match r with
          | None => context_release p;;; atomic globalmq_pop
          | Some _ =>
              atomic (q' ⟵ context_queue p; require (bool_decide (q = q')));;;
              nq ⤆ atomic globalmq_pop;
              match nq with
              | Some nq => atomic (globalmq_push q);;; context_release p;;; Ret (Some nq)
              | None => context_release p;;; Ret (Some q)
              end
          end
      end
  end.

(** ** Launching *)

(** The context as it is set up before it is registered, and the step that
    registers it and assigns [ctx->handle]. *)
Definition new_service (profile : bool) : service :=
  {| sv_queue := None; sv_cb := None; sv_logfile := None; sv_cpu_cost := 0; sv_cpu_start := 0;
     sv_result := []; sv_session_id := 0; sv_message_count := 0; sv_init := false;
     sv_endless := false; sv_profile := profile; sv_calling := false |}.

Definition context_create : M node (positive * Z) := λ n,
  let p := N_next n in
  match context_register p (N_hs n) with
  | Some (handle, st) =>
      let n := n <| N_hs := st |> in
      let n := n <| N_sv := <[p := new_service (N_profile n)]> (N_sv n) |> in
      Ok ((p, handle), n <| N_next := Pos.succ p |>)
  | None => Abort
  end.

Definition queue_create (p : positive) : M node positive :=
  h ⟵ context_handle p;
  q ⟵ in_mq (λ s, Some (skynet_mq_create h s));
  update_sv p (λ v, v <| sv_queue := Some q |>);; ret q.

(** The last release of [skynet_context_new]: from here on other threads may
    free the context, which the launcher still uses if its pointer came back. *)
Definition release_launched (p : positive) : M node Z :=
  old ⟵ ref_dec p;
  (if old =? 1 then ret tt else (λ n, Ok (tt, n <| N_launching := {[+ p +]} ⊎ N_launching n |>)));;
  ret old.

(** The launcher has made its last access. *)
Definition launched (p : positive) : M node unit := λ n,
  Ok (tt, n <| N_launching := N_launching n ∖ {[+ p +]} |>).

(** [init]: what the init function of the module does with the new context; [None]
    where no module or no instance could be made. *)
Definition skynet_context_new (init : option (positive → prog node Z)) (name : cstring)
    (param : option cstring) : prog node (option positive) :=
  match init with
  | None => Ret None
  | Some init =>
      '(p, _) ⤆ atomic context_create;
      q ⤆ atomic (queue_create p);
      atomic context_inc;;;
      atomic (calling_begin p);;;
      r ⤆ init p;
      atomic (calling_end p);;;
      if r =? 0 then
        x ⤆ release_after (release_launched p) p;
        match x with
        | Some p =>
            atomic (update_sv p (λ v, v <| sv_init := true |>));;;
            atomic (globalmq_push q);;;
            skynet_error (Some p) (str "LAUNCH " ++ name ++ str " " ++ default [] param);;;
            Ret (Some p)
        | None => atomic (globalmq_push q);;; Ret None
        end
      else
        skynet_error (Some p) (str "FAILED launch " ++ name);;;
        handle ⤆ atomic (context_handle p);
        context_release p;;;
        handle_retire handle;;;
        release_queue q handle;;;
        Ret None
  end.

(** ** Text commands *)

(** [id_to_hex]: a colon and eight upper-case digits. *)
Definition hex_char (d : Z) : Z := if d <? 10 then 48 + d else 55 + d.
Definition id_to_hex (id : Z) : cstring :=
  58 :: map (λ i, hex_char (Z.land (Z.shiftr id ((7 - i) * 4)) 0xf)) [0; 1; 2; 3; 4; 5; 6; 7].

(** [sprintf(context->result, ...); return context->result;] *)
Definition set_result (p : positive) (s : cstring) : prog node (option cstring) :=
  atomic (update_sv p (λ v, v <| sv_result := s |>));;; Ret (Some s).

Definition skynet_queryname (context : option positive) (name : cstring) : prog node Z :=
  if hd 0 name =? 58 then Ret (u32 (strtoul 16 (tail name)))
  else if hd 0 name =? 46 then atomic (findname (tail name))
  else
    skynet_error context (str "Don't support query global name " ++ name);;;
    Ret 0.

Definition handle_exit (p : positive) (handle : Z) : prog node unit :=
  handle ⤆ (if handle =? 0 then
              h ⤆ atomic (context_handle p);
              skynet_error (Some p) (str "KILL self");;; Ret h
            else skynet_error (Some p) (str "KILL :" ++ fmt_x handle);;; Ret handle);
  monitor ⤆ atomic (read N_monitor_exit);
  (if truth monitor then
     skynet_send (Some p) handle monitor PTYPE_CLIENT 0 0 0;;; Ret tt
   else Ret tt);;;
  handle_retire handle;;;
  Ret tt.

(** [skynet_timeout] of skynet_timer.c. *)
Definition timeout (handle time session : Z) : prog node Z :=
  if time <=? 0 then
    r ⤆ skynet_context_push handle (timer_message {| ev_handle := handle; ev_session := session |}).2;
    Ret (if truth r then -1 else session)
  else
    atomic (λ n, match timer_add (N_TI n) {| ev_handle := handle; ev_session := session |} time with
                 | Some T => Ok (tt, n <| N_TI := T |>)
                 | None => Abort
                 end);;;
    Ret session.

(** A command that reads its parameter. *)
Definition with_param (param : option cstring) (f : cstring → prog node (option cstring))
    : prog node (option cstring) :=
  match param with Some s => f s | None => atomic abort end.

Definition cmd_timeout (p : positive) (param : option cstring) : prog node (option cstring) :=
  with_param param (λ s,
    let ti := s32 (strtol 10 s) in
    session ⤆ atomic (skynet_context_newsession p);
    h ⤆ atomic (context_handle p);
    timeout h ti session;;;
    set_result p (fmt_d session)).

(** [skynet_handle_namehandle]. *)
Definition namehandle (handle : Z) (nm : cstring) : prog node (option cstring) :=
  atomic (in_hs (skynet_handle_namehandle handle nm)).

Definition cmd_reg (p : positive) (param : option cstring) : prog node (option cstring) :=
  match param with
  | None | Some [] => h ⤆ atomic (context_handle p); set_result p (58 :: fmt_x h)
  | Some (c :: s) =>
      if c =? 46 then h ⤆ atomic (context_handle p); namehandle h s
      else skynet_error (Some p) (str "Can't register global name " ++ c :: s ++ str " in C");;; Ret None
  end.

Definition cmd_query (p : positive) (param : option cstring) : prog node (option cstring) :=
  with_param param (λ s,
    if hd 0 s =? 46 then
      h ⤆ atomic (findname (tail s));
      if truth h then set_result p (58 :: fmt_x h) else Ret None
    else Ret None).

(** The first word of [s] and the text behind it: what ["%s"] reads. *)
Fixpoint span_word (s : cstring) : cstring * cstring :=
  match s with
  | c :: s' => if is_space c then ([], s) else let '(w, r) := span_word s' in (c :: w, r)
  | [] => ([], [])
  end.
Definition scan_word (s : cstring) : cstring * cstring := span_word (skip_spaces s).

(** A word that sscanf did not find is an array that was never written. *)
Definition cmd_name (p : positive) (param : option cstring) : prog node (option cstring) :=
  with_param param (λ s,
    let '(name, s) := scan_word s in
    let '(handle, _) := scan_word s in
    match name, handle with
    | [], _ | _, [] => atomic abort
    | n0 :: name', h0 :: handle' =>
        if negb (h0 =? 58) then Ret None
        else
          let handle_id := u32 (strtoul 16 handle') in
          if handle_id =? 0 then Ret None
          else if n0 =? 46 then namehandle handle_id name'
          else skynet_error (Some p) (str "Can't set global name " ++ name ++ str " in C");;; Ret None
    end).

Definition cmd_exit (p : positive) (param : option cstring) : prog node (option cstring) :=
  handle_exit p 0;;; Ret None.

Definition tohandle (p : positive) (param : cstring) : prog node Z :=
  if hd 0 param =? 58 then Ret (u32 (strtoul 16 (tail param)))
  else if hd 0 param =? 46 then atomic (findname (tail param))
  else skynet_error (Some p) (str "Can't convert " ++ param ++ str " to handle");;; Ret 0.

Definition cmd_kill (p : positive) (param : option cstring) : prog node (option cstring) :=
  with_param param (λ s,
    h ⤆ tohandle p s;
    (if truth h then handle_exit p h else Ret tt);;;
    Ret None).

(** [strsep]: the text up to a delimiter, and what is behind that, if there is one. *)
Fixpoint strsep (delims : list Z) (s : cstring) : cstring * option cstring :=
  match s with
  | c :: s => if bool_decide (c ∈ delims) then ([], Some s) else let '(w, r) := strsep delims s in (c :: w, r)
  | [] => ([], None)
  end.

(** The module name and the arguments of LAUNCH. *)
Definition launch_args (param : cstring) : cstring * option cstring :=
  let '(mod_, args) := strsep [32; 9; 13; 10] param in
  (mod_, match args with Some args => Some (strsep [13; 10] args).1 | None => None end).

Definition cmd_launch (init : option (positive → prog node Z)) (p : positive) (param : option cstring)
    : prog node (option cstring) :=
  with_param param (λ s,
    let '(mod_, args) := launch_args s in
    inst ⤆ skynet_context_new init mod_ args;
    match inst with
    | None => Ret None
    | Some inst =>
        h ⤆ atomic (h ⟵ context_handle inst; launched inst;; ret h);
        set_result p (id_to_hex h)
    end).

Definition cmd_getenv (p : positive) (param : option cstring) : prog node (option cstring) :=
  with_param param (λ s, atomic (skynet_getenv s)).

(** The key up to the first space, and the value behind it. *)
Definition cmd_setenv (p : positive) (param : option cstring) : prog node (option cstring) :=
  with_param param (λ s,
    match strsep [32] s with
    | (key, Some value) => atomic (skynet_setenv key value);;; Ret None
    | (_, None) => Ret None
    end).

Definition cmd_starttime (p : positive) (param : option cstring) : prog node (option cstring) :=
  sec ⤆ atomic (read (λ n, starttime (N_TI n)));
  set_result p (fmt_u sec).

Definition cmd_abort (rounds : nat) (p : positive) (param : option cstring) : prog node (option cstring) :=
  handle_retireall rounds;;; Ret None.

Definition cmd_monitor (p : positive) (param : option cstring) : prog node (option cstring) :=
  match param with
  | None | Some [] =>
      m ⤆ atomic (read N_monitor_exit);
      if truth m then set_result p (58 :: fmt_x m) else Ret None
  | Some s =>
      h ⤆ tohandle p s;
      atomic (λ n, Ok (tt, n <| N_monitor_exit := h |>));;;
      Ret None
  end.

(** ["%lf"] of [us / 1000000.0]: exact to the six digits below 2^53 microseconds. *)
Definition fmt_microsec (us : Z) : cstring :=
  let frac := fmt_u (us mod 1000000) in
  fmt_u (us / 1000000) ++ [46] ++ replicate (6 - length frac) 48 ++ frac.

(** [now]: skynet_thread_time. *)
Definition cmd_stat (now : Z) (p : positive) (param : option cstring) : prog node (option cstring) :=
  with_param param (λ s,
    if bool_decide (s = str "mqlen") then
      n ⤆ atomic (q ⟵ context_queue p; mq_length_of q);
      set_result p (fmt_d n)
    else if bool_decide (s = str "endless") then
      v ⤆ atomic (get_sv p);
      if sv_endless v then
        atomic (update_sv p (λ v, v <| sv_endless := false |>));;; set_result p (str "1")
      else set_result p (str "0")
    else if bool_decide (s = str "cpu") then
      v ⤆ atomic (get_sv p); set_result p (fmt_microsec (sv_cpu_cost v))
    else if bool_decide (s = str "time") then
      v ⤆ atomic (get_sv p);
      set_result p (if sv_profile v then fmt_microsec (u64 (now - sv_cpu_start v)) else str "0")
    else if bool_decide (s = str "message") then
      v ⤆ atomic (get_sv p); set_result p (fmt_d (sv_message_count v))
    else set_result p []).

(** A new open file. *)
Definition fopen : M node positive := λ n,
  let f := N_file_next n in
  let n := n <| N_files := {[f]} ∪ N_files n |> in
  Ok (f, n <| N_file_next := Pos.succ f |>).

(** [skynet_log_open]: [opens] is the success of fopen. *)
Definition skynet_log_open (opens : bool) (p : positive) (handle : Z) : prog node (option positive) :=
  path ⤆ atomic (skynet_getenv (str "logpath"));
  match path with
  | None => Ret None
  | Some path =>
      let tmp := path ++ str "/" ++ fmt_08x handle ++ str ".log" in
      if opens then
        f ⤆ atomic fopen;
        skynet_error (Some p) (str "Open log file " ++ tmp);;;
        Ret (Some f)
      else skynet_error (Some p) (str "Open log file " ++ tmp ++ str " fail");;; Ret None
  end.

Definition skynet_log_close (p : positive) (f : positive) (handle : Z) : prog node unit :=
  skynet_error (Some p) (str "Close log file :" ++ fmt_08x handle);;;
  atomic (fclose f).

(** [ATOM_CAS_POINTER(&ctx->logfile, old, new)]. *)
Definition cas_logfile (p : positive) (old new : option positive) : M node bool :=
  v ⟵ get_sv p;
  if bool_decide (sv_logfile v = old) then set_sv p (v <| sv_logfile := new |>);; ret true
  else ret false.

(** A command on the context that its parameter names. *)
Definition on_context (p : positive) (param : option cstring) (f : positive → Z → cstring → prog node unit)
    : prog node (option cstring) :=
  with_param param (λ s,
    handle ⤆ tohandle p s;
    if handle =? 0 then Ret None
    else
      ctx ⤆ atomic (handle_grab handle);
      match ctx with
      | None => Ret None
      | Some x => f x handle s;;; context_release x;;; Ret None
      end).

Definition cmd_logon (opens : bool) (p : positive) (param : option cstring) : prog node (option cstring) :=
  on_context p param (λ x handle _,
    v ⤆ atomic (get_sv x);
    match sv_logfile v with
    | Some _ => Ret tt
    | None =>
        f ⤆ skynet_log_open opens p handle;
        match f with
        | Some f =>
            ok ⤆ atomic (cas_logfile x None (Some f));
            if ok : bool then Ret tt else atomic (fclose f)
        | None => Ret tt
        end
    end).

Definition cmd_logoff (p : positive) (param : option cstring) : prog node (option cstring) :=
  on_context p param (λ x handle _,
    v ⤆ atomic (get_sv x);
    match sv_logfile v with
    | Some f =>
        ok ⤆ atomic (cas_logfile x (Some f) None);
        if ok : bool then skynet_log_close p f handle else Ret tt
    | None => Ret tt
    end).

(** The signal function of a module does not call back into the node. *)
Definition cmd_signal (p : positive) (param : option cstring) : prog node (option cstring) :=
  on_context p param (λ _ _ _, Ret tt).

(** What a command needs from outside: whether LAUNCH finds its module and can make
    an instance, whether fopen succeeds, how many rounds
    [skynet_handle_retireall] gets, and the time. *)
Record outside := Outside {
  out_found : bool;
  out_opens : bool;
  out_rounds : nat;
  out_time : Z
}.

Definition cmd_funcs (init : positive → prog node Z) (o : outside)
    : list (cstring * (positive → option cstring → prog node (option cstring))) :=
  [(str "TIMEOUT", cmd_timeout); (str "REG", cmd_reg); (str "QUERY", cmd_query); (str "NAME", cmd_name);
   (str "EXIT", cmd_exit); (str "KILL", cmd_kill); (str "LAUNCH", cmd_launch (if out_found o then Some init else None));
   (str "GETENV", cmd_getenv); (str "SETENV", cmd_setenv); (str "STARTTIME", cmd_starttime);
   (str "ABORT", cmd_abort (out_rounds o)); (str "MONITOR", cmd_monitor);
   (str "STAT", cmd_stat (out_time o)); (str "LOGON", cmd_logon (out_opens o));
   (str "LOGOFF", cmd_logoff); (str "SIGNAL", cmd_signal)].

Fixpoint find_command {A} (cmd : cstring) (fs : list (cstring * A)) : option A :=
  match fs with
  | (name, f) :: fs => if strcmp cmd name =? 0 then Some f else find_command cmd fs
  | [] => None
  end.

Definition skynet_command (init : positive → prog node Z) (o : outside) (p : positive)
    (cmd : cstring) (param : option cstring) : prog node (option cstring) :=
  match find_command cmd (cmd_funcs init o) with
  | Some f => f p param
  | None => Ret None
  end.

(** ** Services *)

(** A call of the API by the code of a service. *)
Inductive api :=
| Send (source destination type session data sz : Z)
| SendName (source : Z) (addr : cstring) (type session data sz : Z)
| QueryName (name : cstring)
| Callback (cb : option Z)
| LogError (text : cstring)
| Alloc (b : mblock)
| Free (data : Z)
| HarborStart.

Definition run_api (p : positive) (a : api) : prog node Z :=
  match a with
  | Send source destination type session data sz =>
      skynet_send (Some p) source destination type session data sz
  | SendName source addr type session data sz =>
      skynet_sendname (Some p) source addr type session data sz
  | QueryName name => skynet_queryname (Some p) name
  | Callback cb => atomic (update_sv p (λ v, v <| sv_cb := cb |>));;; Ret 0
  | LogError text => skynet_error (Some p) text;;; Ret 0
  | Alloc b => atomic (skynet_malloc b)
  | Free data => atomic (skynet_free data);;; Ret 0
  | HarborStart => skynet_harbor_start p;;; Ret 0
  end.

(** The code of a service: it returns, calls the API, or gives a text command;
    [init] is the init function of the module that LAUNCH starts. *)
Inductive client :=
| Done (result : Z)
| Call (a : api) (k : Z → client)
| Command (cmd : cstring) (param : option cstring) (init : client) (o : outside)
    (k : option cstring → client).

Fixpoint run_client (p : positive) (c : client) : prog node Z :=
  match c with
  | Done r => Ret r
  | Call a k => r ⤆ run_api p a; run_client p (k r)
  | Command cmd param init o k =>
      r ⤆ skynet_command (λ p', run_client p' init) o p cmd param;
      run_client p (k r)
  end.

(** The code of all callbacks during one turn. *)
Definition client_code : Type := Z → Z → Z → Z → Z → Z → option mblock → client.

Definition turn_of (code : client_code) (t0 t1 : Z) : turn :=
  Turn (λ cb p type session source data sz b, run_client p (code cb type session source data sz b)) t0 t1.

(** ** The threads of skynet_start.c and skynet_socket.c *)

(** [while (!m->quit)] of thread_worker, for as many rounds as the list has. *)
Fixpoint thread_worker (id : nat) (weight : Z) (rounds : list (nat → turn)) (q : option positive)
    : prog node unit :=
  match rounds with
  | [] => Ret tt
  | ts :: rounds =>
      q ⤆ skynet_context_message_dispatch id q weight ts;
      thread_worker id weight rounds q
  end.

(** One time-out that [dispatch_list] of skynet_timer.c delivers. *)
Definition timer_dispatch (event : timer_event) : prog node unit :=
  skynet_context_push (ev_handle event) (timer_message event).2;;; Ret tt.

Definition signal_hup : prog node unit :=
  logger ⤆ atomic (findname (str "logger"));
  if truth logger then
    skynet_context_push logger
      {| msg_source := 0; msg_session := 0; msg_data := 0;
         msg_sz := Z.shiftl PTYPE_SYSTEM MESSAGE_TYPE_SHIFT |};;;
    Ret tt
  else Ret tt.

(** [data] is the buffer that the socket server hands over, or, with [padding],
    the text of at most 128 bytes that is copied behind the structure. *)
Definition forward_message (type : Z) (padding : bool) (opaque id ud data : Z) (text : cstring) : prog node unit :=
  let text := if padding then take 128 text else [] in
  let sm := {| sm_type := type; sm_id := id; sm_ud := ud;
               sm_buffer := if padding then 0 else data; sm_text := map Some text |} in
  let sz := SIZEOF_SOCKET_MESSAGE + len text in
  p ⤆ atomic (skynet_malloc (Socket sm));
  r ⤆ skynet_context_push (u32 opaque)
    {| msg_source := 0; msg_session := 0; msg_data := p;
       msg_sz := Z.lor sz (Z.shiftl PTYPE_SOCKET MESSAGE_TYPE_SHIFT) |};
  if truth r then atomic (skynet_free (sm_buffer sm));;; atomic (skynet_free p) else Ret tt.

(** A service started by the main thread: the logger, which gets its name, or
    the first service of [bootstrap]. *)
Definition main_launch (found logger : bool) (init : client) (name : cstring) (param : option cstring)
    : prog node unit :=
  x ⤆ skynet_context_new (if found then Some (λ p, run_client p init) else None) name param;
  match x with
  | None => Ret tt
  | Some p =>
      (if logger then h ⤆ atomic (context_handle p); namehandle h (str "logger");;; Ret tt else Ret tt);;;
      atomic (launched p)
  end.

(** What a thread does. *)
Inductive job :=
| Work (id : nat) (weight : Z) (rounds : list (nat → client_code * Z * Z))
| Timeouts (events : list timer_event)
| Hup
| Watch (ids : list nat)
| Received (type : Z) (padding : bool) (opaque id ud : Z) (buffer : block) (text : cstring)
| Main (found logger : bool) (init : client) (name : cstring) (param : option cstring).

Definition run_job (j : job) : prog node unit :=
  match j with
  | Work id weight rounds =>
      thread_worker id weight (map (λ ts i, let '(c, t0, t1) := ts i in turn_of c t0 t1) rounds) None
  | Timeouts events => for_each timer_dispatch events
  | Hup => signal_hup
  | Watch ids => for_each skynet_monitor_check ids
  | Received type padding opaque id ud buffer text =>
      if padding then forward_message type true opaque id ud 0 text
      else
        data ⤆ atomic (skynet_malloc (Raw buffer));
        forward_message type false opaque id ud data text
  | Main found logger init name param => main_launch found logger init name param
  end.

(** What skynet_start and skynet_main initialise. *)
Definition skynet_boot (harbor : Z) (profile : bool) (wall mono : timespec) (env : gmap cstring cstring) : node :=
  {| N_hs := HState (skynet_handle_init harbor) ∅;
     N_mq := skynet_mq_init;
     N_sv := ∅; N_next := 1;
     N_mem := ∅; N_brk := 1;
     N_total := 0; N_monitor_exit := 0; N_profile := profile;
     N_HARBOR := u32 (Z.shiftl (u32 harbor) HANDLE_REMOTE_SHIFT);
     N_REMOTE := None; N_logger := 0;
     N_env := env;
     N_TI := skynet_timer_init wall mono;
     N_files := ∅; N_file_next := 1;
     N_sm := ∅; N_launching := ∅; N_logging := ∅; N_log := [] |}.

(** ** Handles as text *)

Lemma digit_value_hex d : 0 ≤ d < 16 → digit_value (hex_char d) = Some d ∧ 48 ≤ hex_char d ∧ is_space (hex_char d) = false.
Proof.
  intros H. unfold digit_value, hex_char, is_space.
  destruct (Z.ltb_spec d 10); zcases; cbn; try lia; split_and!; try done; try lia; f_equal; lia.
Qed.

Lemma hex_numeral ds : Forall (λ d, 0 ≤ d < 16) ds → numeral 16 (map hex_char ds) ∧
  ∀ acc, value 16 acc (map hex_char ds) = fold_left (λ a d, a * 16 + d) ds acc.
Proof.
  induction 1 as [|d ds Hd _ [IH1 IH2]]; [split; [constructor|done]|].
  destruct (digit_value_hex d Hd) as (E & Hc & Hs). cbn. split; [constructor; [by exists d|done]|].
  intros acc. by rewrite E, IH2.
Qed.

Lemma nibble n a b : 0 < a → b = a * 16 → n / b * 16 + n / a mod 16 = n / a.
Proof. intros Ha ->. rewrite <- Z.div_div by lia. pose proof (Z.div_mod (n / a) 16). lia. Qed.

Lemma strtoul_hex id : 0 ≤ id < 2 ^ 32 → strtoul 16 (tail (id_to_hex id)) = id.
Proof.
  intros Hid. unfold id_to_hex. cbn [tail].
  set (dig := λ i, Z.land (Z.shiftr id ((7 - i) * 4)) 0xf).
  assert (∀ i, 0 ≤ i ≤ 7 → dig i = id / 2 ^ ((7 - i) * 4) mod 16) as Hd.
  { intros i Hi. unfold dig. change 0xf with (Z.ones 4). by rewrite Z.land_ones, Z.shiftr_div_pow2 by lia. }
  change (map (λ i, hex_char (Z.land (Z.shiftr id ((7 - i) * 4)) 0xf)) [0; 1; 2; 3; 4; 5; 6; 7])
    with (map hex_char (map dig [0; 1; 2; 3; 4; 5; 6; 7])).
  destruct (hex_numeral (map dig [0; 1; 2; 3; 4; 5; 6; 7])) as [Hn Hv].
  { cbn [map]. rewrite !Hd by lia. repeat constructor; apply Z.mod_pos_bound; lia. }
  specialize (Hv 0). cbn [map fold_left] in Hv. rewrite !Hd in Hv by lia. cbn [map] in Hn |- *.
  assert (value 16 0 (map hex_char (map dig [0; 1; 2; 3; 4; 5; 6; 7])) = id) as Ev.
  { cbn [map]. rewrite !Hd by lia. rewrite Hv.
    change (2 ^ ((7 - 0) * 4)) with 268435456. change (2 ^ ((7 - 1) * 4)) with 16777216.
    change (2 ^ ((7 - 2) * 4)) with 1048576. change (2 ^ ((7 - 3) * 4)) with 65536.
    change (2 ^ ((7 - 4) * 4)) with 4096. change (2 ^ ((7 - 5) * 4)) with 256.
    change (2 ^ ((7 - 6) * 4)) with 16. change (2 ^ ((7 - 7) * 4)) with 1.
    rewrite Z.mul_0_l, Z.add_0_l, (Z.mod_small (id / 268435456)) by (split; [apply Z.div_pos|apply Z.div_lt_upper_bound]; lia).
    rewrite !nibble by lia. apply Z.div_1_r. }
  cbn [map] in Ev. rewrite strtoul_numeral by (done || lia). done.
Qed.

(** The text that LAUNCH gives for a handle, and the shorter one of REG, QUERY and
    MONITOR, lead back to the handle: for [skynet_queryname] and for the commands
    that take one. *)
Theorem handle_text id ctx p s : 0 ≤ id < 2 ^ 32 → s = id_to_hex id ∨ s = 58 :: fmt_x id →
  skynet_queryname ctx s = Ret id ∧ tohandle p s = Ret id.
Proof.
  intros Hid Hs. assert (hd 0 s = 58 ∧ strtoul 16 (tail s) = id) as [E1 E2].
  { destruct Hs as [->| ->]; (split; [done|]); cbn [tail]; [by apply strtoul_hex|by apply strtoul_fmt_x]. }
  unfold skynet_queryname, tohandle. rewrite E1, E2, Z.eqb_refl. unfold u32. by rewrite Z.mod_small by lia.
Qed.

Lemma handle_text_witness : 0 ≤ 0x1000001f < 2 ^ 32 ∧ id_to_hex 0x1000001f = str ":1000001F" ∧
  skynet_queryname None (str ":1000001F") = Ret 0x1000001f.
Proof.
  split; [lia|]. split; [vm_compute; reflexivity|].
  exact (proj1 (handle_text 0x1000001f None 1 _ ltac:(lia) (or_introl eq_refl))).
Defined.
