(* ===== verification/ServerInv.v ===== *)
(** * The invariant of the node

    Tokens say what a thread may do: a reference to a context, the duty to
    delete one, the hold of a queue and how far its message has got, a block of
    message data, an open log file.  The invariant ties the tokens handed out
    to the state: reference counts count them, a queue is held once, a block
    has one owner, a service is in a callback exactly while some thread holds
    its queue for that, and the messages sent to a service are those handled,
    the one in hand, and those that wait, in order. *)

From stdpp Require Import gmultiset.
From S2P Require Import Prelude Kernel Threads Text MessageQueue Timer Handle Queues Server.

(** ** Tokens *)

(** How far the holder of a queue is: it launches service [p], outside or inside
    its init function; it knows nothing; it serves [p]; it has popped [m],
    has seen that there is a callback, has begun the call; it runs the callback. *)
Inductive stage :=
| Fresh (p : positive)
| Starting (p : positive)
| Idle
| Serving (p : positive)
| Taken (p : positive) (m : skynet_message)
| Ready (p : positive) (m : skynet_message)
| Begun (p : positive) (m : skynet_message)
| Calling (p : positive).

(** [Ref p]: a counted reference.  [New p]: the reference of the launcher of a
    context without a queue.  [Dead p marked]: the count is 0 and the holder
    deletes the context.  [Hold q h s]: queue [q] of handle [h].  [Block b n i
    k]: a block of [n] bytes that holds a pointer [i] to [k] bytes.  [Launch p]:
    the launcher of [p] has let go of it and still uses it.  [Writing f]: the
    holder is about to write to log file [f]. *)
Inductive token :=
| Ref (p : positive)
| New (p : positive)
| Dead (p : positive) (marked : bool)
| Hold (q : positive) (h : Z) (s : stage)
| Block (b : positive) (n i k : Z)
| File (f : positive)
| Launch (p : positive)
| Writing (f : positive).

#[export] Instance skynet_message_eq_dec : EqDecision skynet_message.
Proof. solve_decision. Defined.
#[export] Instance stage_eq_dec : EqDecision stage.
Proof. solve_decision. Defined.
#[export] Instance token_eq_dec : EqDecision token.
Proof. solve_decision. Defined.

Abbreviation stage_code := (nat * positive * (Z * Z * Z * Z))%type.

Definition encode_stage (s : stage) : stage_code :=
  match s with
  | Fresh p => (0%nat, p, (0, 0, 0, 0))
  | Starting p => (1%nat, p, (0, 0, 0, 0))
  | Idle => (2%nat, 1%positive, (0, 0, 0, 0))
  | Serving p => (3%nat, p, (0, 0, 0, 0))
  | Taken p m => (4%nat, p, (msg_source m, msg_session m, msg_data m, msg_sz m))
  | Ready p m => (5%nat, p, (msg_source m, msg_session m, msg_data m, msg_sz m))
  | Begun p m => (6%nat, p, (msg_source m, msg_session m, msg_data m, msg_sz m))
  | Calling p => (7%nat, p, (0, 0, 0, 0))
  end.

Definition decode_stage (c : stage_code) : stage :=
  match c with
  | (0%nat, p, _) => Fresh p
  | (1%nat, p, _) => Starting p
  | (2%nat, _, _) => Idle
  | (3%nat, p, _) => Serving p
  | (4%nat, p, (a, b, c, d)) => Taken p (Message a b c d)
  | (5%nat, p, (a, b, c, d)) => Ready p (Message a b c d)
  | (6%nat, p, (a, b, c, d)) => Begun p (Message a b c d)
  | (_, p, _) => Calling p
  end.

Lemma decode_encode_stage s : decode_stage (encode_stage s) = s.
Proof. by destruct s as [| | | |? []|? []|? []|]. Qed.

#[export] Instance stage_countable : Countable stage :=
  inj_countable' encode_stage decode_stage decode_encode_stage.

Abbreviation token_code := (nat * positive * stage * (Z * Z * Z))%type.

Definition encode_token (t : token) : token_code :=
  match t with
  | Ref p => (0%nat, p, Idle, (0, 0, 0))
  | New p => (1%nat, p, Idle, (0, 0, 0))
  | Dead p m => (2%nat, p, Idle, (of_bool m, 0, 0))
  | Hold q h s => (3%nat, q, s, (h, 0, 0))
  | Block b n i k => (4%nat, b, Idle, (n, i, k))
  | File f => (5%nat, f, Idle, (0, 0, 0))
  | Launch p => (6%nat, p, Idle, (0, 0, 0))
  | Writing f => (7%nat, f, Idle, (0, 0, 0))
  end.

Definition decode_token (c : token_code) : token :=
  match c with
  | (0%nat, p, _, _) => Ref p
  | (1%nat, p, _, _) => New p
  | (2%nat, p, _, (m, _, _)) => Dead p (truth m)
  | (3%nat, q, s, (h, _, _)) => Hold q h s
  | (4%nat, b, _, (n, i, k)) => Block b n i k
  | (5%nat, f, _, _) => File f
  | (6%nat, p, _, _) => Launch p
  | (_, f, _, _) => Writing f
  end.

Lemma decode_encode_token t : decode_token (encode_token t) = t.
Proof. destruct t as [p|p|p []|q h s|b n i k|f|p|f]; reflexivity. Qed.

#[export] Instance token_countable : Countable token :=
  inj_countable' encode_token decode_token decode_encode_token.

Abbreviation tokens := (gmultiset token).

(** ** Parts of the invariant look at one kind of token *)

Inductive kind := KRef | KHold | KBlock | KFile | KNote.

Definition kind_of (t : token) : kind :=
  match t with
  | Ref _ | New _ | Dead _ _ => KRef
  | Hold _ _ _ => KHold
  | Block _ _ _ _ => KBlock
  | File _ => KFile
  | Launch _ | Writing _ => KNote
  end.

Definition same (k : kind) (W W' : tokens) : Prop :=
  ∀ t, kind_of t = k → multiplicity t W = multiplicity t W'.

#[export] Instance same_equiv k : Equivalence (same k).
Proof.
  split.
  - by intros W t Ht.
  - intros W W' H t Ht. symmetry. by apply H.
  - intros W1 W2 W3 H1 H2 t Ht. by rewrite (H1 t Ht), (H2 t Ht).
Qed.

Lemma same_elem k W W' t : same k W W' → kind_of t = k → t ∈ W ↔ t ∈ W'.
Proof. intros H Ht. by rewrite !elem_of_multiplicity, (H t Ht). Qed.

Lemma same_hold W W' q h s : same KHold W W' → Hold q h s ∈ W ↔ Hold q h s ∈ W'.
Proof. intros E. by apply (same_elem KHold). Qed.

Lemma same_union k W1 W2 W1' W2' : same k W1 W1' → same k W2 W2' → same k (W1 ⊎ W2) (W1' ⊎ W2').
Proof. intros H1 H2 t Ht. by rewrite !multiplicity_disj_union, (H1 t Ht), (H2 t Ht). Qed.

Lemma same_other k t : kind_of t ≠ k → same k {[+ t +]} ∅.
Proof.
  intros Hk t' Ht. rewrite multiplicity_empty. apply multiplicity_singleton_ne. congruence.
Qed.

(** Tokens of other kinds do not count. *)
Lemma same_add k t W W' : kind_of t ≠ k → same k W W' → same k ({[+ t +]} ⊎ W) W'.
Proof.
  intros Ht H. rewrite <- (left_id_L ∅ (⊎) W'). by apply same_union; [apply same_other|].
Qed.

Ltac same := first
  [ reflexivity
  | apply same_add; [discriminate|]; same
  | symmetry; apply same_add; [discriminate|]; symmetry; same
  | apply same_union; [reflexivity|]; same ].

(** ** Handles and reference counts *)

Definition in_table (st : hs_state) (p : positive) : bool := bool_decide (Some p ∈ slot (H st)).

Lemma in_table_get st p : in_table st p = true ↔ ∃ i, (slot (H st)).[i] = Some (Some p).
Proof.
  unfold in_table. rewrite bool_decide_eq_true, list_elem_of_lookup. split.
  - intros [i E]. exists (Z.of_nat i). by rewrite arr_get_of_nat.
  - intros [i E]. exists (Z.to_nat i). pose proof (arr_get_Some _ _ _ E). by rewrite <- arr_get_nonneg by lia.
Qed.

(** [L]: references that nobody will give back. *)
Record handles_ok (W : tokens) (st : hs_state) (remote : option positive) (L : gmultiset positive)
    (next : positive) : Prop := {
  ha_slots : slots_ok st;
  ha_names : ∃ ns, names_repr (H st) ns;
  ha_ref p c : ctxs st !! p = Some c →
    ctx_ref c = of_bool (in_table st p) + Z.of_nat (multiplicity (Ref p) W)
                + Z.of_nat (multiplicity (New p) W) + of_bool (bool_decide (remote = Some p))
                + Z.of_nat (multiplicity p L);
  ha_dom p : Ref p ∈ W ∨ New p ∈ W ∨ remote = Some p ∨ p ∈ L → is_Some (ctxs st !! p);
  ha_dead p b : Dead p b ∈ W → ∃ c, ctxs st !! p = Some c ∧ ctx_ref c = 0;
  ha_dead_one p b : (multiplicity (Dead p b) W ≤ 1)%nat;
  ha_dead_same p b b' : Dead p b ∈ W → Dead p b' ∈ W → b = b';
  ha_zero p c : ctxs st !! p = Some c → ctx_ref c = 0 → ∃ b, Dead p b ∈ W;
  ha_next p c : ctxs st !! p = Some c → (p < next)%positive;
  ha_range p c : ctxs st !! p = Some c → 1 ≤ ctx_handle c - harbor (H st) < handle_index (H st);
  ha_inj p1 p2 c1 c2 : ctxs st !! p1 = Some c1 → ctxs st !! p2 = Some c2 →
    ctx_handle c1 = ctx_handle c2 → p1 = p2
}.

Lemma handles_same W W' st remote L next :
  same KRef W W' → handles_ok W st remote L next → handles_ok W' st remote L next.
Proof.
  intros E [Hs Hn Hr Hd Hx H1 Hss Hz Hnx Hra Hi]. split; try done.
  - intros p c Hc. rewrite (Hr p c Hc), (E (Ref p)), (E (New p)); done.
  - intros p Hp. apply Hd. by rewrite !(same_elem KRef W W') by done.
  - intros p b Hb. apply (Hx p b). by rewrite (same_elem KRef W W').
  - intros p b. by rewrite <- (E (Dead p b)).
  - intros p b b'. rewrite <- !(same_elem KRef W W') by done. apply Hss.
  - intros p c Hc H0. destruct (Hz p c Hc H0) as [b Hb]. exists b. by rewrite <- (same_elem KRef W W').
Qed.

(** ** Queues and who holds them *)

Record holds_ok (W : tokens) (s : mq_state) (D : gset (nat * positive)) (l : list positive)
    (G : gmap positive (view tokens)) : Prop := {
  ho_queues : queues s D l G;
  ho_held w q : (w, q) ∈ D ↔ w = 0%nat ∧ ∃ h s, Hold q h s ∈ W;
  ho_one q h s : (multiplicity (Hold q h s) W ≤ 1)%nat;
  ho_same q h s h' s' : Hold q h s ∈ W → Hold q h' s' ∈ W → h = h' ∧ s = s';
  ho_handle q h s : Hold q h s ∈ W → ∃ v, G !! q = Some v ∧ qv_handle v = h
}.

Lemma holds_same W W' s D l G : same KHold W W' → holds_ok W s D l G → holds_ok W' s D l G.
Proof.
  intros E [Hq Hh H1 Hs Hv]. split; [done| | | |].
  - intros w q. rewrite Hh. by setoid_rewrite (same_hold W W' _ _ _ E).
  - intros q h s'. by rewrite <- (E (Hold q h s')).
  - intros q h s1 h' s'. rewrite <- !(same_elem KHold W W') by done. apply Hs.
  - intros q h s' Hx. apply (Hv q h s'). by rewrite (same_elem KHold W W').
Qed.

(** ** The other fields of the contexts *)

Definition stage_of (s : stage) : option positive :=
  match s with
  | Fresh p | Starting p | Serving p | Taken p _ | Ready p _ | Begun p _ | Calling p => Some p
  | Idle => None
  end.

(** The service has been initialised; has a callback; is in its init function or
    callback; is being launched; the message popped and not yet handled. *)
Definition inited (s : stage) : bool :=
  match s with Serving _ | Taken _ _ | Ready _ _ | Begun _ _ | Calling _ => true | _ => false end.
Definition callable (s : stage) : bool := match s with Ready _ _ | Begun _ _ => true | _ => false end.
Definition running (s : stage) : bool := match s with Starting _ | Begun _ _ | Calling _ => true | _ => false end.
Definition launching (s : stage) : bool := match s with Fresh _ | Starting _ => true | _ => false end.
Definition hand (s : stage) : option skynet_message :=
  match s with Taken _ m | Ready _ m | Begun _ m => Some m | _ => None end.

(** The launcher of [p] holds [q]. *)
Definition launching_hold (W : tokens) (q p : positive) : Prop :=
  ∃ h s, Hold q h s ∈ W ∧ stage_of s = Some p ∧ launching s = true.

(** Some thread runs [p]'s init function or callback. *)
Definition running_hold (W : tokens) (q p : positive) : Prop :=
  ∃ h s, Hold q h s ∈ W ∧ stage_of s = Some p ∧ running s = true.

(** The queue of a context that is marked may be gone already. *)
Record links_ok (W : tokens) (st : hs_state) (sv : gmap positive service) (G : gmap positive (view tokens))
    (next : positive) : Prop := {
  ln_dom p : is_Some (sv !! p) ↔ is_Some (ctxs st !! p);
  ln_none p v : sv !! p = Some v → sv_queue v = None →
    New p ∈ W ∧ sv_init v = false ∧ sv_calling v = false;
  ln_new p : New p ∈ W → ∃ v, sv !! p = Some v ∧ sv_queue v = None;
  ln_queue p v q : sv !! p = Some v → sv_queue v = Some q → Dead p true ∉ W →
    ∃ w c, G !! q = Some w ∧ ctxs st !! p = Some c ∧ qv_handle w = ctx_handle c ∧ qv_release w = 0;
  ln_calling p v q : sv !! p = Some v → sv_queue v = Some q → Dead p true ∉ W →
    sv_calling v = true ↔ running_hold W q p;
  ln_init p v q : sv !! p = Some v → sv_queue v = Some q → Dead p true ∉ W → sv_init v = false →
    launching_hold W q p ∨ in_table st p = false;
  ln_stage q h s p : Hold q h s ∈ W → stage_of s = Some p →
    (p < next)%positive ∧ (∀ c, ctxs st !! p = Some c → ctx_handle c = h) ∧
    ∀ v, sv !! p = Some v →
      sv_queue v = Some q ∧ (inited s = true → sv_init v = true) ∧ (callable s = true → sv_cb v ≠ None);
  ln_own q w p v c : G !! q = Some w → ctxs st !! p = Some c → sv !! p = Some v →
    qv_handle w = ctx_handle c → sv_queue v = Some q;
  ln_range q w : G !! q = Some w → 1 ≤ qv_handle w - harbor (H st) < handle_index (H st);
  ln_inj q1 q2 w1 w2 : G !! q1 = Some w1 → G !! q2 = Some w2 → qv_handle w1 = qv_handle w2 → q1 = q2
}.

Lemma links_same W W' st sv G next :
  same KRef W W' → same KHold W W' → links_ok W st sv G next → links_ok W' st sv G next.
Proof.
  intros E E' [H1 H2 H3 H4 H5 H6 H7 H8 H9 H10]. split; try done.
  - intros p v. rewrite <- (same_elem KRef W W' (New p) E eq_refl). apply H2.
  - intros p. rewrite <- (same_elem KRef W W' (New p) E eq_refl). apply H3.
  - intros p v q Hv Hq Hd. apply (H4 p v q Hv Hq). by rewrite (same_elem KRef W W').
  - intros p v q Hv Hq Hd. rewrite (H5 p v q Hv Hq) by (by rewrite (same_elem KRef W W')). unfold running_hold.
    by setoid_rewrite (same_hold W W' _ _ _ E').
  - intros p v q Hv Hq Hd Hi. destruct (H6 p v q Hv Hq) as [Hl|?]; [by rewrite (same_elem KRef W W')|done|left|by right].
    unfold launching_hold in *. by setoid_rewrite <- (same_hold W W' _ _ _ E').
  - intros q h s p. rewrite <- (same_elem KHold W W' (Hold q h s) E' eq_refl). apply H7.
Qed.

(** ** Message data *)

(** The pointer inside a block and the bytes it promises. *)
Definition inner (B : mblock) : Z * Z :=
  match B with
  | Raw _ => (0, 0)
  | Remote r => if rm_message r =? 0 then (0, 0) else (rm_message r, rm_sz r)
  | Socket m => (sm_buffer m, 0)
  end.

(** [T] owns what [data] leads to, at least [sz] bytes. *)
Inductive owns : Z → Z → tokens → Prop :=
| owns_null sz : owns 0 sz ∅
| owns_block b n i k sz T : sz ≤ n → owns i k T → owns (Z.pos b) sz ({[+ Block b n i k +]} ⊎ T).

Record blocks_ok (all : tokens) (mem : gmap positive mblock) (brk : positive) : Prop := {
  bk_block b n i k : Block b n i k ∈ all →
    ∃ B, mem !! b = Some B ∧ block_size B = n ∧ inner B = (i, k);
  bk_one b n i k : (multiplicity (Block b n i k) all ≤ 1)%nat;
  bk_same b n i k n' i' k' : Block b n i k ∈ all → Block b n' i' k' ∈ all → n = n' ∧ i = i' ∧ k = k';
  bk_brk b B : mem !! b = Some B → (b < brk)%positive
}.

Lemma blocks_sub all all' mem brk :
  (∀ t, kind_of t = KBlock → (multiplicity t all' ≤ multiplicity t all)%nat) →
  blocks_ok all mem brk → blocks_ok all' mem brk.
Proof.
  intros Hs [H1 H2 H3 H4].
  assert (∀ b n i k, Block b n i k ∈ all' → Block b n i k ∈ all) as Hin.
  { intros b n i k. rewrite !elem_of_multiplicity. pose proof (Hs (Block b n i k) eq_refl). lia. }
  split; [eauto| |eauto|done].
  intros b n i k. pose proof (Hs (Block b n i k) eq_refl). pose proof (H2 b n i k). lia.
Qed.

(** The data of all waiting messages. *)
Definition msgs_tokens (l : list (skynet_message * tokens)) : tokens := ⋃+ (l.*2).
Definition queued (G : gmap positive (view tokens)) : tokens :=
  ⋃+ ((λ kv, msgs_tokens (qv_msgs kv.2)) <$> map_to_list G).

Lemma union_list_perm (l k : list tokens) : l ≡ₚ k → ⋃+ l = ⋃+ k.
Proof. induction 1; cbn; [done|congruence|multiset_solver|congruence]. Qed.

Lemma queued_insert G q v : G !! q = None → queued (<[q := v]> G) = msgs_tokens (qv_msgs v) ⊎ queued G.
Proof.
  intros Hq. unfold queued.
  rewrite (union_list_perm _ ((λ kv, msgs_tokens (qv_msgs kv.2)) <$> ((q, v) :: map_to_list G))).
  - by rewrite fmap_cons, gmultiset_disj_union_list_cons.
  - apply Permutation_map. by apply map_to_list_insert.
Qed.

Lemma queued_delete G q v : G !! q = Some v → queued G = msgs_tokens (qv_msgs v) ⊎ queued (delete q G).
Proof.
  intros Hq. rewrite <- (queued_insert (delete q G) q v) by apply lookup_delete_eq.
  by rewrite insert_delete_id.
Qed.

Lemma queued_update G q v w : G !! q = Some v →
  queued G = msgs_tokens (qv_msgs v) ⊎ queued (delete q G) ∧
  queued (<[q := w]> G) = msgs_tokens (qv_msgs w) ⊎ queued (delete q G).
Proof.
  intros Hq. split; [by apply queued_delete|].
  rewrite <- insert_delete_eq. apply queued_insert, lookup_delete_eq.
Qed.

Lemma msgs_tokens_app l k : msgs_tokens (l ++ k) = msgs_tokens l ⊎ msgs_tokens k.
Proof. unfold msgs_tokens. by rewrite fmap_app, gmultiset_disj_union_list_app. Qed.

Lemma msgs_tokens_cons m x l : msgs_tokens ((m, x) :: l) = x ⊎ msgs_tokens l.
Proof. done. Qed.

(** ** Which messages were sent and handled *)

Definition sent (h : Z) (log : list event) : list skynet_message :=
  omap (λ e, match e with Sent h' m => if h' =? h then Some m else None | _ => None end) log.

Definition handled (h : Z) (log : list event) : list skynet_message :=
  omap (λ e, match e with
             | Sent _ _ => None
             | Called h' m | Discarded h' m | Dropped h' m => if h' =? h then Some m else None
             end) log.

(** What the holder of [q] has popped and not yet handled. *)
Definition in_hand (W : tokens) (q : positive) (l : list skynet_message) : Prop :=
  (l = [] ∧ ∀ h s, Hold q h s ∈ W → hand s = None) ∨
  (∃ h s m, Hold q h s ∈ W ∧ hand s = Some m ∧ l = [m]).

Record log_ok (W : tokens) (G : gmap positive (view tokens)) (log : list event) : Prop := {
  lo_queue q v : G !! q = Some v → ∃ l, in_hand W q l ∧
    sent (qv_handle v) log = handled (qv_handle v) log ++ l ++ (qv_msgs v).*1;
  lo_gone h : (∀ q v, G !! q = Some v → qv_handle v ≠ h) → sent h log = handled h log
}.

Lemma in_hand_same W W' q l : same KHold W W' → in_hand W q l → in_hand W' q l.
Proof.
  intros E [[-> H]|(h & s & m & H & Hs & ->)].
  - left. split; [done|]. intros h s. rewrite <- (same_hold W W' q h s E). apply H.
  - right. exists h, s, m. by rewrite <- (same_hold W W' q h s E).
Qed.

Lemma log_same W W' G log : same KHold W W' → log_ok W G log → log_ok W' G log.
Proof.
  intros E [H1 H2]. split; [|done]. intros q v Hv. destruct (H1 q v Hv) as (l & Hl & ?).
  exists l. split; [by eapply in_hand_same|done].
Qed.

(** ** Log files *)

Record files_ok (W : tokens) (sv : gmap positive service) (files : gset positive) (next : positive) : Prop := {
  fl_token f : File f ∈ W → f ∈ files ∧ ∀ p v, sv !! p = Some v → sv_logfile v ≠ Some f;
  fl_one f : (multiplicity (File f) W ≤ 1)%nat;
  fl_service p v f : sv !! p = Some v → sv_logfile v = Some f → f ∈ files;
  fl_inj p1 p2 v1 v2 f : sv !! p1 = Some v1 → sv !! p2 = Some v2 →
    sv_logfile v1 = Some f → sv_logfile v2 = Some f → p1 = p2;
  fl_next f : f ∈ files → (f < next)%positive
}.

Lemma files_same W W' sv files next : same KFile W W' → files_ok W sv files next → files_ok W' sv files next.
Proof.
  intros E [H1 H2 H3 H4 H5]. split; try done.
  - intros f. rewrite <- (same_elem KFile W W' (File f) E eq_refl). apply H1.
  - intros f. by rewrite <- (E (File f)).
Qed.

(** ** What the node notes *)

Record noted (W : tokens) (launching logging : gmultiset positive) : Prop := {
  no_launching p : (multiplicity (Launch p) W ≤ multiplicity p launching)%nat;
  no_logging f : (multiplicity (Writing f) W ≤ multiplicity f logging)%nat
}.

Lemma noted_same W W' launching logging : same KNote W W' → noted W launching logging → noted W' launching logging.
Proof. intros E [H1 H2]. split; intros p; [rewrite <- (E (Launch p))|rewrite <- (E (Writing p))]; done. Qed.

(** ** The invariant *)

Section Invariant.

(** The harbor bits of the node, and whether services may address other
    nodes; if so, a harbor service has been started. *)
Context (harbor_id : Z) (remote_ok : bool).

Definition is_remote (handle : Z) : bool :=
  let h := Z.land handle (u32 (Z.lnot HANDLE_MASK)) in negb (h =? harbor_id) && negb (h =? 0).

Definition addressable (handle : Z) : Prop := remote_ok = true ∨ is_remote handle = false.

(** Every name stands for such a handle. *)
Definition named (s : handle_storage) : Prop :=
  ∃ ns, names_repr s ns ∧ ∀ nm h, HandleName nm h ∈ ns → addressable h.

Record mem_ok (W : tokens) (G : gmap positive (view tokens)) (mem : gmap positive mblock) (brk : positive) : Prop := {
  me_blocks : blocks_ok (W ⊎ queued G) mem brk;
  me_msgs q v m x : G !! q = Some v → (m, x) ∈ qv_msgs v →
    owns (msg_data m) (Z.land (msg_sz m) MESSAGE_TYPE_MASK) x ∧ addressable (msg_source m)
}.

Record inv_with (W : tokens) (n : node) (D : gset (nat * positive)) (l : list positive)
    (G : gmap positive (view tokens)) (L : gmultiset positive) : Prop := {
  iv_handles : handles_ok W (N_hs n) (N_REMOTE n) L (N_next n);
  iv_holds : holds_ok W (N_mq n) D l G;
  iv_links : links_ok W (N_hs n) (N_sv n) G (N_next n);
  iv_mem : mem_ok W G (N_mem n) (N_brk n);
  iv_log : log_ok W G (N_log n);
  iv_files : files_ok W (N_sv n) (N_files n) (N_file_next n);
  iv_noted : noted W (N_launching n) (N_logging n);
  iv_timer : wheel_shape (N_TI n);
  iv_names : named (H (N_hs n));
  iv_monitor : addressable (N_monitor_exit n);
  iv_harbor : N_HARBOR n = harbor_id ∧ harbor (H (N_hs n)) = harbor_id;
  iv_remote : remote_ok = true → N_REMOTE n ≠ None;
  iv_leaked : N_REMOTE n = None → L = ∅
}.

Definition inv (W : tokens) (n : node) : Prop := ∃ D l G L, inv_with W n D l G L.

(** The runs considered: a service whose launcher still uses it is not freed, and a
    log file is not closed between its load and the write; a
    service that is being set up is not yet addressed; the node does not
    run out of handles, names or room in its queues. *)
Record nominal (n : node) : Prop := {
  nm_launching p : p ∈ N_launching n → is_Some (N_sv n !! p);
  nm_logging f : f ∈ N_logging n → f ∈ N_files n;
  nm_new p v c : N_sv n !! p = Some v → ctxs (N_hs n) !! p = Some c → sv_queue v = None →
    ctx_ref c = 2 ∧ in_table (N_hs n) p = true;
  nm_handles : handle_index (H (N_hs n)) + 2 * slot_size (H (N_hs n)) ≤ 2 ^ 24;
  nm_names : name_count (H (N_hs n)) < 2 ^ 29;
  nm_room q Q : heap (N_mq n) !! q = Some Q → skynet_mq_length Q + 1 < 2 ^ 30
}.

End Invariant.
