(* ===== verification/ServerParts.v ===== *)
(** * How the parts of the node's invariant change

    One lemma for each part and each kind of change: a reference more or less, a
    hold that advances, a message that moves. *)

From stdpp Require Import gmultiset.
From S2P Require Import Prelude Kernel Threads Text MessageQueue Timer Handle Queues Server ServerInv.

(** ** Tokens in a union *)

Lemma here (t : token) (F : tokens) : t ∈ {[+ t +]} ⊎ F.
Proof. multiset_solver. Qed.

Lemma there (t t' : token) (F : tokens) : t ∈ F → t ∈ {[+ t' +]} ⊎ F.
Proof. multiset_solver. Qed.

Lemma in_add (t t' : token) (F : tokens) : t ∈ {[+ t' +]} ⊎ F ↔ t = t' ∨ t ∈ F.
Proof. multiset_solver. Qed.

Lemma mult_add (t t' : token) (F : tokens) :
  multiplicity t ({[+ t' +]} ⊎ F) = ((if decide (t = t') then 1 else 0) + multiplicity t F)%nat.
Proof. by rewrite multiplicity_disj_union, multiplicity_singleton. Qed.

Lemma mult_in (t : token) (F : tokens) : (0 < multiplicity t F)%nat ↔ t ∈ F.
Proof. by rewrite elem_of_multiplicity. Qed.

Lemma mult_out (t : token) (F : tokens) : multiplicity t F = 0%nat ↔ t ∉ F.
Proof. rewrite elem_of_multiplicity. lia. Qed.

(** Case analysis on the tokens of a membership in [{[+ t +]} ⊎ F]. *)
Ltac token_cases H := apply in_add in H as [H|H]; [try discriminate H; try (injection H; intros; subst; clear H)|].

(** ** Handles *)

Lemma live_in_table st h p : live st h p → in_table st p = true.
Proof. intros (i & c & Hi & _). apply in_table_get. by exists i. Qed.

Lemma in_table_live st p : slots_ok st → in_table st p = true → ∃ c, ctxs st !! p = Some c ∧ live st (ctx_handle c) p.
Proof.
  intros Hs [i Hi]%in_table_get. destruct (so_slot _ Hs i p Hi) as (c & low & Hc & _).
  exists c. split; [done|]. by exists i, c.
Qed.

(** Changing the count of one context. *)
Lemma slots_ref st p c r : slots_ok st → ctxs st !! p = Some c → (in_table st p = true → 1 ≤ r) →
  slots_ok (set_ctx p (Context (ctx_handle c) r) st).
Proof.
  intros [H1 H2 H3 H4 H5] Hc Hr. split; simpl; try done. intros i q Hq.
  destruct (H5 i q Hq) as (d & low & Hd & Hrd & Hlow & Eh & Em).
  destruct (decide (q = p)) as [->|Hne].
  - rewrite lookup_insert_eq. assert (d = c) as -> by congruence. eexists _, low.
    split; [done|]. split; [cbn; apply Hr, in_table_get; by exists i|done].
  - rewrite lookup_insert_ne by done. by exists d, low.
Qed.

(** What remains to be shown of the counts when one of them changes. *)
Lemma handles_ref W W' st remote remote' L L' next p c r :
  handles_ok W st remote L next → ctxs st !! p = Some c → 0 ≤ r →
  (∀ q, q ≠ p → multiplicity (Ref q) W' = multiplicity (Ref q) W
     ∧ multiplicity (New q) W' = multiplicity (New q) W
     ∧ (∀ b, multiplicity (Dead q b) W' = multiplicity (Dead q b) W)
     ∧ Z.of_nat (multiplicity q L') + of_bool (bool_decide (remote' = Some q))
       = Z.of_nat (multiplicity q L) + of_bool (bool_decide (remote = Some q))) →
  r = of_bool (in_table st p) + Z.of_nat (multiplicity (Ref p) W') + Z.of_nat (multiplicity (New p) W')
      + of_bool (bool_decide (remote' = Some p)) + Z.of_nat (multiplicity p L') →
  (∀ b, (multiplicity (Dead p b) W' ≤ 1)%nat) →
  (∀ b b', Dead p b ∈ W' → Dead p b' ∈ W' → b = b') →
  ((∃ b, Dead p b ∈ W') ↔ r = 0) →
  handles_ok W' (set_ctx p (Context (ctx_handle c) r) st) remote' L' next.
Proof.
  intros [Hs Hn Hr Hd Hx H1 Hss Hz Hnx Hra Hi] Hc Hr0 Ho Ep Hd1 Hd2 Hd0.
  assert (∀ q, q ≠ p → ∀ b, Dead q b ∈ W' ↔ Dead q b ∈ W) as HD.
  { intros q Hq b. rewrite <- !mult_in. destruct (Ho q Hq) as (_ & _ & E & _). by rewrite E. }
  split; cbn [set_ctx ctxs H]; try done.
  - apply slots_ref; [done|done|]. intros Et. rewrite Et in Ep. unfold of_bool in Ep. destruct (bool_decide (remote' = Some p)); lia.
  - intros q d Hq. destruct (decide (q = p)) as [->|Hne].
    + rewrite lookup_insert_eq in Hq. injection Hq as <-. exact Ep.
    + rewrite lookup_insert_ne in Hq by done. destruct (Ho q Hne) as (E1 & E2 & _ & E3).
      rewrite (Hr q d Hq), E1, E2. change (in_table (set_ctx p _ st) q) with (in_table st q). lia.
  - intros q Hq. destruct (decide (q = p)) as [->|Hne]; [by rewrite lookup_insert_eq|].
    rewrite lookup_insert_ne by done. apply Hd. rewrite <- !mult_in in *.
    destruct (Ho q Hne) as (E1 & E2 & _ & E3). rewrite E1, E2 in Hq.
    destruct Hq as [?|[?|Hq]]; [by left|by right; left|right; right].
    rewrite !elem_of_multiplicity in *.
    destruct (decide (remote = Some q)) as [|Hnr]; [by left|right].
    rewrite (bool_decide_eq_false_2 (remote = Some q)) in E3 by done. unfold of_bool in E3.
    destruct Hq as [->|Hq]; [rewrite bool_decide_eq_true_2 in E3 by done; lia|].
    destruct (bool_decide (remote' = Some q)); lia.
  - intros q b Hb. destruct (decide (q = p)) as [->|Hne].
    + rewrite lookup_insert_eq. eexists. split; [done|]. cbn. apply Hd0. by exists b.
    + rewrite lookup_insert_ne by done. apply (Hx q b). by apply HD.
  - intros q b. destruct (decide (q = p)) as [->|Hne]; [done|]. destruct (Ho q Hne) as (_ & _ & E & _). by rewrite E.
  - intros q b b'. destruct (decide (q = p)) as [->|Hne]; [apply Hd2|]. rewrite !HD by done. apply Hss.
  - intros q d Hq H0. destruct (decide (q = p)) as [->|Hne].
    + rewrite lookup_insert_eq in Hq. injection Hq as <-. by apply Hd0.
    + rewrite lookup_insert_ne in Hq by done. destruct (Hz q d Hq H0) as [b Hb]. exists b. by apply HD.
  - intros q d Hq. destruct (decide (q = p)) as [->|Hne]; [by eapply Hnx|].
    rewrite lookup_insert_ne in Hq by done. by eapply Hnx.
  - intros q d Hq. destruct (decide (q = p)) as [->|Hne].
    + rewrite lookup_insert_eq in Hq. injection Hq as <-. exact (Hra p c Hc).
    + rewrite lookup_insert_ne in Hq by done. exact (Hra q d Hq).
  - intros q1 q2 d1 d2 Hq1 Hq2 E.
    assert (∀ q d, <[p := Context (ctx_handle c) r]> (ctxs st) !! q = Some d →
      ∃ d0, ctxs st !! q = Some d0 ∧ ctx_handle d0 = ctx_handle d) as Hb.
    { intros q d Hq. destruct (decide (q = p)) as [->|Hne].
      - rewrite lookup_insert_eq in Hq. injection Hq as <-. by exists c.
      - rewrite lookup_insert_ne in Hq by done. by exists d. }
    destruct (Hb q1 d1 Hq1) as (e1 & He1 & E1). destruct (Hb q2 d2 Hq2) as (e2 & He2 & E2).
    eapply (Hi q1 q2 e1 e2); [done|done|congruence].
Qed.

(** Counting the tokens of a union. *)
Ltac counts := intros; rewrite ?mult_add; repeat case_decide; simplify_eq; try done; try lia.

Lemma handles_count W st remote L next p c : handles_ok W st remote L next → ctxs st !! p = Some c → 0 ≤ ctx_ref c.
Proof. intros Ha Hc. rewrite (ha_ref _ _ _ _ _ Ha p c Hc). unfold of_bool. repeat case_match; lia. Qed.

(** A context with a reference is not being deleted. *)
Lemma handles_alive W st remote L next p c b :
  handles_ok W st remote L next → ctxs st !! p = Some c →
  in_table st p = true ∨ Ref p ∈ W ∨ New p ∈ W ∨ remote = Some p → 1 ≤ ctx_ref c ∧ Dead p b ∉ W.
Proof.
  intros Ha Hc Hp. assert (1 ≤ ctx_ref c) as Hr.
  { rewrite (ha_ref _ _ _ _ _ Ha p c Hc). rewrite <- !mult_in in Hp. unfold of_bool.
    destruct Hp as [->|[?|[?| ->]]]; rewrite ?bool_decide_eq_true_2 by done; repeat case_match; lia. }
  split; [done|]. intros Hd. destruct (ha_dead _ _ _ _ _ Ha p b Hd) as (c' & Hc' & H0).
  assert (c' = c) as -> by congruence. lia.
Qed.

Lemma handles_grab W st remote L next p c :
  handles_ok W st remote L next → ctxs st !! p = Some c → in_table st p = true ∨ Ref p ∈ W →
  handles_ok ({[+ Ref p +]} ⊎ W) (set_ctx p (Context (ctx_handle c) (ctx_ref c + 1)) st) remote L next.
Proof.
  intros Ha Hc Hp. pose proof (ha_ref _ _ _ _ _ Ha p c Hc) as Er.
  destruct (handles_alive _ _ _ _ _ p c true Ha Hc) as [H1 _]; [tauto|].
  assert (∀ b, Dead p b ∉ W) as Hnd by (intros b; eapply handles_alive; [done..|tauto]).
  eapply handles_ref; [done|done|lia| | | | |].
  - intros q Hq. split_and!; [counts..|done].
  - counts.
  - intros b. rewrite mult_add, decide_False, (proj2 (mult_out _ _) (Hnd b)) by done. lia.
  - intros b b' Hb. token_cases Hb. by destruct (Hnd b).
  - split; [|lia]. intros [b Hb]. token_cases Hb. by destruct (Hnd b).
Qed.

(** The token of the thread that took a reference away. *)
Definition after_dec (p : positive) (old : Z) : tokens := if old =? 1 then {[+ Dead p false +]} else ∅.

Lemma handles_dec F st remote L next p :
  handles_ok ({[+ Ref p +]} ⊎ F) st remote L next →
  ∃ c, ctxs st !! p = Some c ∧ (ctx_ref c = 1 → in_table st p = false) ∧
    handles_ok (after_dec p (ctx_ref c) ⊎ F) (set_ctx p (Context (ctx_handle c) (ctx_ref c - 1)) st) remote L next.
Proof.
  intros Ha. destruct (ha_dom _ _ _ _ _ Ha p) as [c Hc]; [left; apply here|].
  exists c. split; [done|]. pose proof (ha_ref _ _ _ _ _ Ha p c Hc) as Er.
  destruct (handles_alive _ _ _ _ _ p c true Ha Hc) as [H1 _]; [right; left; apply here|].
  assert (∀ b, Dead p b ∉ F) as Hnd.
  { intros b Hb. eapply (handles_alive _ _ _ _ _ p c b Ha Hc); [right; left; apply here|by apply there]. }
  rewrite !mult_add in Er. rewrite decide_True in Er by done. rewrite decide_False in Er by done.
  split.
  { intros E1. destruct (in_table st p); [|done]. unfold of_bool in Er. case_match; lia. }
  assert (∀ t, t ≠ Dead p false → multiplicity t (after_dec p (ctx_ref c) ⊎ F) = multiplicity t F) as Hm.
  { intros t Ht. unfold after_dec. case_match; [|by rewrite (left_id_L ∅ (⊎))]. counts. }
  eapply handles_ref; [done|done|lia| | | | |].
  - intros q Hq. split_and!; [..|done]; intros; rewrite Hm by congruence; counts.
  - rewrite !Hm by done. lia.
  - intros [].
    + rewrite Hm, (proj2 (mult_out _ _) (Hnd true)) by done. lia.
    + pose proof (proj2 (mult_out _ _) (Hnd false)). unfold after_dec. case_match.
      * rewrite mult_add, decide_True by done. lia.
      * rewrite (left_id_L ∅ (⊎)). lia.
  - intros b b'. rewrite <- !mult_in. destruct b, b'; try done; intros Hb Hb'.
    + rewrite Hm, (proj2 (mult_out _ _) (Hnd true)) in Hb by done. lia.
    + rewrite Hm, (proj2 (mult_out _ _) (Hnd true)) in Hb' by done. lia.
  - unfold after_dec. destruct (Z.eqb_spec (ctx_ref c) 1) as [E1|E1].
    + split; [intros _; lia|]. intros _. exists false. apply here.
    + split; [|lia]. intros [b Hb]. rewrite (left_id_L ∅ (⊎)) in Hb. by destruct (Hnd b).
Qed.

(** Taking a context out of the table: its reference passes to the thread. *)
Lemma handles_retire W st st' remote L next p ns :
  handles_ok W st remote L next → in_table st p = true →
  slots_ok st' → names_repr (H st') ns → ctxs st' = ctxs st → harbor (H st') = harbor (H st) →
  handle_index (H st') = handle_index (H st) →
  (∀ q, in_table st' q = true ↔ q ≠ p ∧ in_table st q = true) →
  handles_ok ({[+ Ref p +]} ⊎ W) st' remote L next.
Proof.
  intros Ha Hp Hs' Hns Ec Eh Ei Ht. destruct Ha as [Hs Hn Hr Hd Hx H1 Hss Hz Hnx Hra Hi].
  destruct (in_table_live st p Hs Hp) as (c & Hc & _).
  split; try done; rewrite ?Ec, ?Eh, ?Ei; try done.
  - by exists ns.
  - intros q d Hq. rewrite (Hr q d Hq). rewrite !mult_add.
    destruct (decide (q = p)) as [->|Hne].
    + rewrite decide_True, decide_False, Hp by done.
      destruct (in_table st' p) eqn:E; [by apply Ht in E as [? _]|]. cbn [of_bool]. lia.
    + rewrite !decide_False by congruence. assert (in_table st' q = in_table st q) as ->; [|lia].
      apply eq_true_iff_eq. rewrite Ht. tauto.
  - intros q [Hq|[Hq|Hq]].
    + token_cases Hq; [by rewrite Hc|]. apply Hd. by left.
    + token_cases Hq. apply Hd. by right; left.
    + apply Hd. tauto.
  - intros q b Hb. token_cases Hb. by apply (Hx q b).
  - intros q b. counts. apply H1.
  - intros q b b' Hb Hb'. token_cases Hb. token_cases Hb'. by eapply Hss.
  - intros q d Hq H0. destruct (Hz q d Hq H0) as [b Hb]. exists b. by apply there.
Qed.

(** The deleter of a context is alone. *)
Lemma dead_once p b F st remote L next : handles_ok ({[+ Dead p b +]} ⊎ F) st remote L next → ∀ b', Dead p b' ∉ F.
Proof.
  intros Hh b' Hb. assert (b = b') as <- by (eapply (ha_dead_same _ _ _ _ _ Hh p); [apply here|by apply there]).
  pose proof (ha_dead_one _ _ _ _ _ Hh p b) as H1. rewrite mult_add, decide_True in H1 by done.
  apply mult_in in Hb. lia.
Qed.

Lemma handles_mark p F st remote L next :
  handles_ok ({[+ Dead p false +]} ⊎ F) st remote L next → handles_ok ({[+ Dead p true +]} ⊎ F) st remote L next.
Proof.
  intros Hh. pose proof (dead_once _ _ _ _ _ _ _ Hh) as Hnd.
  destruct Hh as [Hs Hns Hr Hd Hx H1 Hss Hz Hnx Hra Hij].
  assert (∀ t, (∀ b, t ≠ Dead p b) → multiplicity t ({[+ Dead p true +]} ⊎ F) = multiplicity t ({[+ Dead p false +]} ⊎ F)) as Hm.
  { intros t Ht. rewrite !mult_add, !decide_False by done. done. }
  assert (∀ t, (∀ b, t ≠ Dead p b) → t ∈ {[+ Dead p true +]} ⊎ F ↔ t ∈ {[+ Dead p false +]} ⊎ F) as Hin.
  { intros t Ht. by rewrite <- !mult_in, Hm. }
  split; try done.
  - intros x d Hd0. rewrite (Hr x d Hd0), !Hm by done. done.
  - intros x. rewrite !Hin by done. apply Hd.
  - intros x b Hb. destruct (decide (x = p)) as [->|Hne]; [apply (Hx p false), here|].
    rewrite Hin in Hb by congruence. by apply (Hx x b).
  - intros x b. destruct (decide (x = p)) as [->|Hne].
    + rewrite mult_add, (proj2 (mult_out _ _) (Hnd b)). case_decide; lia.
    + rewrite Hm by congruence. apply H1.
  - intros x b b' Hb Hb'. destruct (decide (x = p)) as [->|Hne].
    + token_cases Hb; [token_cases Hb'; [done|by destruct (Hnd b')]|by destruct (Hnd b)].
    + rewrite Hin in Hb, Hb' by congruence. by eapply Hss.
  - intros x d Hd0 H0. destruct (decide (x = p)) as [->|Hne]; [exists true; apply here|].
    destruct (Hz x d Hd0 H0) as [b Hb]. exists b. by rewrite Hin by congruence.
Qed.

Lemma handles_free F st remote L next p :
  handles_ok ({[+ Dead p true +]} ⊎ F) st remote L next →
  handles_ok F (HState (H st) (delete p (ctxs st))) remote L next ∧ in_table st p = false.
Proof.
  intros Ha. pose proof Ha as [Hs Hn Hr Hd Hx H1 Hss Hz Hnx Hra Hi].
  destruct (Hx p true) as (c & Hc & H0); [apply here|].
  pose proof (Hr p c Hc) as Er. rewrite H0 in Er. rewrite !mult_add in Er.
  rewrite !decide_False in Er by done.
  assert (in_table st p = false ∧ multiplicity (Ref p) F = 0%nat ∧ multiplicity (New p) F = 0%nat
    ∧ remote ≠ Some p ∧ multiplicity p L = 0%nat) as (Et & E1 & E2 & E3 & E4).
  { unfold of_bool in Er. destruct (in_table st p); [case_match; lia|].
    destruct (bool_decide_reflect (remote = Some p)); [lia|]. split_and!; [done|lia|lia|done|lia]. }
  split; [|done].
  assert (∀ i q, (slot (H st)).[i] = Some (Some q) → q ≠ p) as Hsl.
  { intros i q Hq ->. assert (in_table st p = true) as Ht by (apply in_table_get; by exists i). congruence. }
  assert (∀ b, Dead p b ∉ F) as Hnd.
  { intros b Hb. assert (true = b) as <- by (eapply (Hss p); [apply here|by apply there]).
    pose proof (H1 p true) as Hone. rewrite mult_add, decide_True in Hone by done.
    apply mult_in in Hb. lia. }
  split; cbn [H ctxs]; try done.
  - destruct Hs as [F1 F2 F3 F4 F5]. split; try done. cbn [H ctxs]. intros i q Hq.
    rewrite lookup_delete_ne by (apply not_eq_sym; by eapply Hsl). by apply F5.
  - intros q d [Hne Hq]%lookup_delete_Some. rewrite (Hr q d Hq). counts.
  - intros q Hq. assert (q ≠ p) as Hne.
    { intros ->. rewrite <- !mult_in in Hq. rewrite elem_of_multiplicity in Hq.
      destruct Hq as [?|[?|[?|?]]]; [lia|lia|done|lia]. }
    rewrite lookup_delete_ne by done. apply Hd.
    destruct Hq as [?|[?|?]]; [left; by apply there|right; left; by apply there|tauto].
  - intros q b Hb. rewrite lookup_delete_ne; [apply (Hx q b); by apply there|].
    intros ->. by destruct (Hnd b).
  - intros q b. pose proof (H1 q b) as Hq. rewrite mult_add in Hq. lia.
  - intros q b b' Hb Hb'. eapply Hss; by apply there.
  - intros q d [Hne Hq]%lookup_delete_Some H0'. destruct (Hz q d Hq H0') as [b Hb].
    exists b. token_cases Hb; [done|done].
  - intros q d [_ Hq]%lookup_delete_Some. by eapply Hnx.
  - intros q d [_ Hq]%lookup_delete_Some. by eapply Hra.
  - intros q1 q2 d1 d2 [_ Hq1]%lookup_delete_Some [_ Hq2]%lookup_delete_Some. by eapply Hi.
Qed.

Lemma handles_register W st st' remote L p h :
  handles_ok W st remote L p → ctxs st !! p = None →
  slots_ok st' → (∃ ns, names_repr (H st') ns) → ctxs st' = <[p := Context h 2]> (ctxs st) →
  harbor (H st') = harbor (H st) → handle_index (H st') = h - harbor (H st) + 1 →
  handle_index (H st) < handle_index (H st') → 1 ≤ h - harbor (H st) →
  (∀ q, in_table st' q = true ↔ q = p ∨ in_table st q = true) →
  handles_ok ({[+ New p +]} ⊎ W) st' remote L (Pos.succ p).
Proof.
  intros Ha Hp Hs' Hns Ec Eh Ei Hlt Hh1 Ht. destruct Ha as [Hs Hn Hr Hd Hx H1 Hss Hz Hnx Hra Hi].
  assert (∀ t, (t = Ref p ∨ t = New p ∨ (∃ b, t = Dead p b)) → t ∉ W) as Hno.
  { intros t Ht' Hin. destruct Ht' as [->|[->|[b ->]]].
    - destruct (Hd p); [by left|congruence].
    - destruct (Hd p); [by right; left|congruence].
    - destruct (Hx p b Hin) as (c & ? & _). congruence. }
  assert (remote ≠ Some p ∧ p ∉ L) as [Hrp HLp].
  { split; intros Hin; (destruct (Hd p) as [c Hc]; [tauto|congruence]). }
  split; try done; rewrite ?Ec, ?Eh; try done.
  - intros q d Hq. rewrite !mult_add. destruct (decide (q = p)) as [->|Hne].
    + rewrite lookup_insert_eq in Hq. injection Hq as <-. cbn [ctx_ref].
      rewrite (proj2 (mult_out (Ref p) W)) by (apply Hno; by left).
      rewrite (proj2 (mult_out (New p) W)) by (apply Hno; by right; left).
      rewrite (bool_decide_eq_false_2 _ Hrp), (proj2 (Ht p)) by (by left).
      rewrite decide_False, decide_True by done.
      assert (multiplicity p L = 0%nat) as ->; [|done]. rewrite elem_of_multiplicity in HLp. lia.
    + rewrite lookup_insert_ne in Hq by done. rewrite (Hr q d Hq), !decide_False by congruence.
      assert (in_table st' q = in_table st q) as ->; [|lia]. apply eq_true_iff_eq. rewrite Ht. tauto.
  - intros q Hq. destruct (decide (q = p)) as [->|Hne]; [by rewrite lookup_insert_eq|].
    rewrite lookup_insert_ne by done. apply Hd. rewrite !in_add in Hq.
    destruct Hq as [[?|?]|[[?|?]|?]]; simplify_eq; tauto.
  - intros q b Hb. token_cases Hb. destruct (Hx q b Hb) as (c & Hc & H0). exists c. split; [|done].
    rewrite lookup_insert_ne; [done|congruence].
  - intros q b. rewrite mult_add, decide_False by done. apply H1.
  - intros q b b' Hb Hb'. token_cases Hb. token_cases Hb'. by eapply Hss.
  - intros q d Hq H0. destruct (decide (q = p)) as [->|Hne].
    + rewrite lookup_insert_eq in Hq. by injection Hq as <-.
    + rewrite lookup_insert_ne in Hq by done. destruct (Hz q d Hq H0) as [b Hb]. exists b. by apply there.
  - intros q d Hq. destruct (decide (q = p)) as [->|Hne]; [lia|].
    rewrite lookup_insert_ne in Hq by done. pose proof (Hnx q d Hq). lia.
  - intros q d Hq. destruct (decide (q = p)) as [->|Hne].
    + rewrite lookup_insert_eq in Hq. injection Hq as <-. cbn [ctx_handle]. lia.
    + rewrite lookup_insert_ne in Hq by done. pose proof (Hra q d Hq). lia.
  - intros q1 q2 d1 d2 Hq1 Hq2 E.
    assert (∀ q d, ctxs st !! q = Some d → ctx_handle d ≠ h) as Hf.
    { intros q d Hq Eq. pose proof (Hra q _ Hq). rewrite Eq in *. lia. }
    destruct (decide (q1 = p)) as [->|Hn1], (decide (q2 = p)) as [->|Hn2]; [done| | |].
    + rewrite lookup_insert_eq in Hq1. rewrite lookup_insert_ne in Hq2 by done.
      injection Hq1 as <-. destruct (Hf q2 d2 Hq2). by rewrite <- E.
    + rewrite lookup_insert_ne in Hq1 by done. rewrite lookup_insert_eq in Hq2.
      injection Hq2 as <-. by destruct (Hf q1 d1 Hq1).
    + rewrite lookup_insert_ne in Hq1, Hq2 by done. by eapply Hi.
Qed.

(** The launcher's reference after the queue exists. *)
Lemma handles_ready F st remote L next p :
  handles_ok ({[+ New p +]} ⊎ F) st remote L next → handles_ok ({[+ Ref p +]} ⊎ F) st remote L next.
Proof.
  intros [Hs Hn Hr Hd Hx H1 Hss Hz Hnx Hra Hi]. split; try done.
  - intros q d Hq. rewrite (Hr q d Hq), !mult_add. repeat case_decide; simplify_eq; try lia; congruence.
  - intros q Hq. apply Hd. rewrite !in_add in *.
    destruct Hq as [[[= ->]|?]|[[?|?]|?]]; simplify_eq; tauto.
  - intros q b Hb. token_cases Hb. apply (Hx q b). by apply there.
  - intros q b. pose proof (H1 q b) as Hq. rewrite mult_add in *. by rewrite decide_False in * by done.
  - intros q b b' Hb Hb'. token_cases Hb. token_cases Hb'. eapply Hss; by apply there.
  - intros q d Hq H0. destruct (Hz q d Hq H0) as [b Hb]. exists b. token_cases Hb. by apply there.
Qed.

(** The reference of the harbor service; a former one is lost. *)
Definition lost (remote : option positive) : gmultiset positive :=
  match remote with Some p => {[+ p +]} | None => ∅ end.

Lemma handles_remote F st remote L next p :
  handles_ok ({[+ Ref p +]} ⊎ F) st remote L next → handles_ok F st (Some p) (lost remote ⊎ L) next.
Proof.
  intros [Hs Hn Hr Hd Hx H1 Hss Hz Hnx Hra Hi].
  assert (∀ q, Z.of_nat (multiplicity q (lost remote)) = of_bool (bool_decide (remote = Some q))) as Hl.
  { intros q. unfold lost. destruct remote as [x|]; [|by rewrite multiplicity_empty].
    rewrite multiplicity_singleton. case_decide as E.
    - subst. by rewrite bool_decide_eq_true_2.
    - rewrite bool_decide_eq_false_2; [done|congruence]. }
  split; try done.
  - intros q d Hq. rewrite (Hr q d Hq), !mult_add, multiplicity_disj_union, !Nat2Z.inj_add, Hl.
    destruct (decide (Ref q = Ref p)) as [[= ->]|Hne].
    + rewrite (bool_decide_eq_true_2 (Some p = Some p)), decide_False by done. cbn [of_bool]. lia.
    + rewrite (bool_decide_eq_false_2 (Some p = Some q)), decide_False by congruence. cbn [of_bool]. lia.
  - intros q Hq. apply Hd. rewrite !in_add.
    destruct Hq as [?|[?|[[= ->]|Hq]]]; [tauto|tauto|tauto|].
    apply gmultiset_elem_of_disj_union in Hq as [Hq|?]; [|tauto].
    right. right. left. unfold lost in Hq. destruct remote as [x|]; [|by apply gmultiset_elem_of_empty in Hq].
    apply gmultiset_elem_of_singleton in Hq. congruence.
  - intros q b Hb. apply (Hx q b). by apply there.
  - intros q b. pose proof (H1 q b) as Hq. rewrite mult_add in Hq. lia.
  - intros q b b' Hb Hb'. eapply Hss; by apply there.
  - intros q d Hq H0. destruct (Hz q d Hq H0) as [b Hb]. exists b. by token_cases Hb.
Qed.

(** ** Holds *)

Lemma holds_unique q h s F mq D l G :
  holds_ok ({[+ Hold q h s +]} ⊎ F) mq D l G → ∀ h' s', Hold q h' s' ∉ F.
Proof.
  intros [_ _ H1 Hs _] h' s' Hin. destruct (Hs q h s h' s') as [<- <-]; [apply here|by apply there|].
  pose proof (H1 q h s) as H. rewrite mult_add, decide_True in H by done. apply mult_in in Hin. lia.
Qed.

Lemma holds_mine q h s F mq D l G : holds_ok ({[+ Hold q h s +]} ⊎ F) mq D l G → (0%nat, q) ∈ D.
Proof. intros Hh. apply (ho_held _ _ _ _ _ Hh). split; [done|]. exists h, s. apply here. Qed.

(** New state of the queues, holders unchanged. *)
Lemma holds_queues W mq mq' D l l' G G' :
  holds_ok W mq D l G → queues mq' D l' G' →
  (∀ q v, G !! q = Some v → ∃ v', G' !! q = Some v' ∧ qv_handle v' = qv_handle v) →
  holds_ok W mq' D l' G'.
Proof.
  intros [Hq Hh H1 Hs Hv] Hq' HG. split; [done..|]. intros q h s Hin.
  destruct (Hv q h s Hin) as (v & Ev & <-). by apply HG.
Qed.

Lemma holds_stage q h s s' F mq D l G :
  holds_ok ({[+ Hold q h s +]} ⊎ F) mq D l G → holds_ok ({[+ Hold q h s' +]} ⊎ F) mq D l G.
Proof.
  intros Hh. pose proof (holds_unique _ _ _ _ _ _ _ _ Hh) as Hu. destruct Hh as [Hq Hh H1 Hs Hv]. split; [done| | | |].
  - intros w q'. rewrite Hh. apply and_iff_compat_l. split; intros (h' & s'' & Hin); token_cases Hin.
    + eexists _, _. apply here.
    + eexists _, _. by apply there.
    + eexists _, _. apply here.
    + eexists _, _. by apply there.
  - intros q' h' s''. rewrite mult_add. case_decide as E.
    + injection E as -> -> ->. rewrite (proj2 (mult_out _ _) (Hu h s')). lia.
    + pose proof (H1 q' h' s'') as Hq'. rewrite mult_add in Hq'. lia.
  - intros q' h1 s1 h2 s2 Hi1 Hi2. token_cases Hi1; token_cases Hi2; try done.
    + by destruct (Hu h2 s2).
    + by destruct (Hu h1 s1).
    + eapply Hs; by apply there.
  - intros q' h' s'' Hin. token_cases Hin; eapply Hv; [apply here|by apply there].
Qed.

Lemma holds_take q v W mq mq' D l l' G G' :
  holds_ok W mq D l G → (∀ h s, Hold q h s ∉ W) → queues mq' ({[(0%nat, q)]} ∪ D) l' G' → G' !! q = Some v →
  (∀ q' w, q' ≠ q → G !! q' = Some w → G' !! q' = Some w) →
  holds_ok ({[+ Hold q (qv_handle v) Idle +]} ⊎ W) mq' ({[(0%nat, q)]} ∪ D) l' G'.
Proof.
  intros [Hq Hh H1 Hs Hv] Hu Hq' Ev HG. split; [done| | | |].
  - intros w q'. rewrite elem_of_union, elem_of_singleton, Hh. split.
    + intros [[= -> ->]|(-> & h & s & Hin)]; (split; [done|]); eexists _, _; [apply here|by apply there].
    + intros (-> & h & s & Hin). token_cases Hin; [by left|right]. eauto.
  - intros q' h s. rewrite mult_add. case_decide as E; [|apply H1].
    injection E as -> -> ->. rewrite (proj2 (mult_out _ _) (Hu _ _)). lia.
  - intros q' h1 s1 h2 s2 Hi1 Hi2. token_cases Hi1; token_cases Hi2; try done.
    + by destruct (Hu h2 s2).
    + by destruct (Hu h1 s1).
    + by eapply Hs.
  - intros q' h s Hin. token_cases Hin; [by exists v|]. destruct (Hv q' h s Hin) as (w & Hw & Ew).
    exists w. split; [|done]. apply HG; [|done]. intros ->. by apply (Hu h s).
Qed.

Lemma holds_drop q h s F mq mq' D l l' G G' :
  holds_ok ({[+ Hold q h s +]} ⊎ F) mq D l G → queues mq' (D ∖ {[(0%nat, q)]}) l' G' →
  (∀ q' v, q' ≠ q → G !! q' = Some v → G' !! q' = Some v) →
  holds_ok F mq' (D ∖ {[(0%nat, q)]}) l' G'.
Proof.
  intros Hh Hq' HG. pose proof (holds_unique _ _ _ _ _ _ _ _ Hh) as Hu. destruct Hh as [Hq Hh H1 Hs Hv]. split; [done| | | |].
  - intros w q'. rewrite elem_of_difference, elem_of_singleton, Hh. split.
    + intros [(-> & h' & s' & Hin) Hne]. split; [done|]. token_cases Hin; [done|eauto].
    + intros (-> & h' & s' & Hin). split; [split; [done|]; exists h', s'; by apply there|].
      intros [= ->]. by destruct (Hu h' s').
  - intros q' h' s'. pose proof (H1 q' h' s') as Hx. rewrite mult_add in Hx. lia.
  - intros q' h1 s1 h2 s2 Hi1 Hi2. eapply Hs; by apply there.
  - intros q' h' s' Hin. destruct (Hv q' h' s') as (v & Ev & Eh); [by apply there|].
    exists v. split; [|done]. apply HG; [|done]. intros ->. by destruct (Hu h' s').
Qed.

(** A queue in the global queue is not held. *)
Lemma holds_global W mq D q l G h s : holds_ok W mq D l G → q ∈ l → Hold q h s ∉ W.
Proof.
  intros [Hq Hh _ _ _] Hl Hin. assert ((0%nat, q) ∈ D) as HD by (apply Hh; eauto).
  destruct (inv_held _ _ (qs_inv _ _ _ _ Hq) 0%nat q HD) as [_ Hx]. done.
Qed.

(** ** Links *)

(** The stage of the hold of [q] changes, and with it the fields of its service. *)
Lemma links_stage q h s s' F st sv sv' G next :
  links_ok ({[+ Hold q h s +]} ⊎ F) st sv G next → (∀ h' s'', Hold q h' s'' ∉ F) →
  (∀ p, is_Some (sv' !! p) ↔ is_Some (sv !! p)) →
  (∀ p v v', sv !! p = Some v → sv' !! p = Some v' → sv_queue v' = sv_queue v
     ∧ (sv_init v = true → sv_init v' = true)
     ∧ (sv_queue v ≠ Some q → sv_init v' = sv_init v ∧ sv_calling v' = sv_calling v)
     ∧ (sv_cb v ≠ None → sv_cb v' ≠ None)
     ∧ (sv_queue v = Some q → Dead p true ∉ F → (sv_calling v' = true ↔ stage_of s' = Some p ∧ running s' = true)
         ∧ (sv_init v' = false → (stage_of s' = Some p ∧ launching s' = true) ∨ in_table st p = false))) →
  (∀ p, stage_of s' = Some p →
     (p < next)%positive ∧ (∀ c, ctxs st !! p = Some c → ctx_handle c = h) ∧ ∀ v', sv' !! p = Some v' →
       sv_queue v' = Some q ∧ (inited s' = true → sv_init v' = true) ∧ (callable s' = true → sv_cb v' ≠ None)) →
  links_ok ({[+ Hold q h s' +]} ⊎ F) st sv' G next.
Proof.
  intros [H1 H2 H3 H4 H5 H6 H7 H8 H9 H10] Hu Hdom Hsv Hst.
  assert (∀ p v', sv' !! p = Some v' → ∃ v, sv !! p = Some v) as Hold0.
  { intros p v' Hv'. destruct (proj1 (Hdom p)) as [v Hv]; [by exists v'|by exists v]. }
  assert (∀ t, kind_of t = KRef → t ∈ {[+ Hold q h s' +]} ⊎ F ↔ t ∈ {[+ Hold q h s +]} ⊎ F) as Hk.
  { intros t Ht. rewrite !in_add. split; (intros [->|?]; [discriminate Ht|by right]). }
  assert (∀ q' h' s'', q' ≠ q → Hold q' h' s'' ∈ {[+ Hold q h s' +]} ⊎ F ↔ Hold q' h' s'' ∈ {[+ Hold q h s +]} ⊎ F) as Hk2.
  { intros q' h' s'' Hne. rewrite !in_add. split; (intros [[= ? ? ?]|?]; [done|by right]). }
  split; try done.
  - intros p. by rewrite Hdom.
  - intros p v' Hv' Hq. destruct (Hold0 p v' Hv') as [v Hv]. destruct (Hsv p v v' Hv Hv') as (Eq & _ & Hx & _).
    rewrite Hq in Eq. destruct Hx as [-> ->]; [congruence|]. rewrite Hk by done. by apply H2.
  - intros p Hn. rewrite Hk in Hn by done. destruct (H3 p Hn) as (v & Hv & Hq).
    destruct (proj2 (Hdom p)) as [v' Hv']; [by exists v|]. exists v'. split; [done|].
    destruct (Hsv p v v' Hv Hv') as (Eq & _). congruence.
  - intros p v' q' Hv' Hq Hd. destruct (Hold0 p v' Hv') as [v Hv]. destruct (Hsv p v v' Hv Hv') as (Eq & _).
    rewrite Hq in Eq. apply (H4 p v q' Hv (eq_sym Eq)). by rewrite <- Hk.
  - intros p v' q' Hv' Hq Hd. destruct (Hold0 p v' Hv') as [v Hv].
    destruct (Hsv p v v' Hv Hv') as (Eq & _ & Hne & _ & Heq). rewrite Hq in Eq. unfold running_hold.
    destruct (decide (q' = q)) as [->|Hq'].
    + destruct (Heq (eq_sym Eq)) as [-> _]; [intros ?; by apply Hd, there|]. split.
      * intros Hs. exists h, s'. split; [apply here|done].
      * intros (h' & s'' & Hin & Hs). token_cases Hin; [done|by destruct (Hu h' _ Hin)].
    + destruct Hne as [_ ->]; [congruence|]. rewrite (H5 p v q' Hv (eq_sym Eq)) by (by rewrite <- Hk). unfold running_hold.
      by setoid_rewrite (Hk2 q' _ _ Hq').
  - intros p v' q' Hv' Hq Hd Hi. destruct (Hold0 p v' Hv') as [v Hv].
    destruct (Hsv p v v' Hv Hv') as (Eq & _ & Hne & _ & Heq). rewrite Hq in Eq. unfold launching_hold.
    destruct (decide (q' = q)) as [->|Hq'].
    + destruct (Heq (eq_sym Eq)) as [_ Hc]; [intros ?; by apply Hd, there|]. destruct (Hc Hi) as [Hs|?]; [left|by right].
      exists h, s'. split; [apply here|done].
    + destruct Hne as [Ei _]; [congruence|]. rewrite Ei in Hi.
      destruct (H6 p v q' Hv (eq_sym Eq)) as [Hl|?]; [by rewrite <- Hk|done|left|by right].
      unfold launching_hold in Hl. by setoid_rewrite (Hk2 q' _ _ Hq').
  - intros q' h' s'' p Hin Hp. destruct (decide (q' = q)) as [->|Hq'].
    + token_cases Hin; [by apply Hst|]. by destruct (Hu h' s'').
    + rewrite Hk2 in Hin by done. destruct (H7 q' h' s'' p Hin Hp) as (Hlt & Hch & Hx). split; [done|].
      split; [done|]. intros v' Hv'. destruct (Hold0 p v' Hv') as [v Hv]. destruct (Hsv p v v' Hv Hv') as (Eq & Hii & _ & Hcb & _).
      rewrite Eq. destruct (Hx v Hv) as (? & Hy & Hz). split_and!; auto.
  - intros q' w p v' c Hw Hc Hv' Hh. destruct (Hold0 p v' Hv') as [v Hv].
    destruct (Hsv p v v' Hv Hv') as (-> & _). by eapply H8.
Qed.

(** The stage alone changes. *)
Lemma links_stage_only q h s s' F st sv G next :
  links_ok ({[+ Hold q h s +]} ⊎ F) st sv G next → (∀ h' s'', Hold q h' s'' ∉ F) →
  (∀ p v, sv !! p = Some v → sv_queue v = Some q → Dead p true ∉ F →
     (sv_calling v = true ↔ stage_of s' = Some p ∧ running s' = true)
     ∧ (sv_init v = false → (stage_of s' = Some p ∧ launching s' = true) ∨ in_table st p = false)) →
  (∀ p, stage_of s' = Some p →
     (p < next)%positive ∧ (∀ c, ctxs st !! p = Some c → ctx_handle c = h) ∧ ∀ v, sv !! p = Some v →
       sv_queue v = Some q ∧ (inited s' = true → sv_init v = true) ∧ (callable s' = true → sv_cb v ≠ None)) →
  links_ok ({[+ Hold q h s' +]} ⊎ F) st sv G next.
Proof.
  intros Hl Hu Hsv Hst. eapply links_stage; [done..| |done].
  intros p v v' Hv Hv'. assert (v' = v) as -> by congruence. split_and!; [done..|]. intros Hq Hd. by apply Hsv.
Qed.

(** Fields that the invariant does not mention. *)
Lemma links_fields p v v' W st sv G next :
  links_ok W st sv G next → sv !! p = Some v → sv_queue v' = sv_queue v → sv_init v' = sv_init v →
  sv_calling v' = sv_calling v → (sv_cb v ≠ None → sv_cb v' ≠ None) → links_ok W st (<[p := v']> sv) G next.
Proof.
  intros [H1 H2 H3 H4 H5 H6 H7 H8 H9 H10] Hv Eq Ei Ec Ecb.
  assert (∀ q x', <[p := v']> sv !! q = Some x' → ∃ x, sv !! q = Some x ∧ sv_queue x' = sv_queue x
    ∧ sv_init x' = sv_init x ∧ sv_calling x' = sv_calling x ∧ (sv_cb x ≠ None → sv_cb x' ≠ None)) as Hb.
  { intros q x' Hx. destruct (decide (q = p)) as [->|Hne].
    - rewrite lookup_insert_eq in Hx. injection Hx as <-. by exists v.
    - rewrite lookup_insert_ne in Hx by done. by exists x'. }
  split; try done.
  - intros q. rewrite <- H1. destruct (decide (q = p)) as [->|Hne].
    + rewrite lookup_insert_eq, Hv. split; intros _; by eexists.
    + by rewrite lookup_insert_ne.
  - intros q x' Hx Hq. destruct (Hb q x' Hx) as (x & Hx0 & E1 & -> & -> & _). rewrite E1 in Hq. by apply (H2 q x).
  - intros q Hn. destruct (H3 q Hn) as (x & Hx & Hq). destruct (decide (q = p)) as [->|Hne].
    + exists v'. rewrite lookup_insert_eq. split; [done|]. rewrite Eq. congruence.
    + exists x. by rewrite lookup_insert_ne.
  - intros q x' y Hx Hq Hd. destruct (Hb q x' Hx) as (x & Hx0 & E1 & _). rewrite E1 in Hq. by eapply H4.
  - intros q x' y Hx Hq Hd. destruct (Hb q x' Hx) as (x & Hx0 & E1 & _ & -> & _). rewrite E1 in Hq. by eapply H5.
  - intros q x' y Hx Hq Hd Hi. destruct (Hb q x' Hx) as (x & Hx0 & E1 & E2 & _). rewrite E1 in Hq. rewrite E2 in Hi.
    by eapply H6.
  - intros q h s x Hin Hs. destruct (H7 q h s x Hin Hs) as (Hlt & Hch & Hy). split; [done|]. split; [done|].
    intros x' Hx. destruct (Hb x x' Hx) as (x0 & Hx0 & -> & -> & _ & Hz).
    destruct (Hy x0 Hx0) as (? & ? & ?). split_and!; auto.
  - intros q w x x' c Hw Hc Hx Hh. destruct (Hb x x' Hx) as (x0 & Hx0 & -> & _). by eapply H8.
Qed.

(** The contexts and their tokens change, but not who is new or marked. *)
Lemma links_handles W W' st st' sv G next :
  links_ok W st sv G next → same KHold W W' →
  (∀ p, New p ∈ W' ↔ New p ∈ W) → (∀ p, Dead p true ∈ W' ↔ Dead p true ∈ W) →
  (∀ p, option_Forall2 (λ c c', ctx_handle c' = ctx_handle c) (ctxs st !! p) (ctxs st' !! p)) →
  (∀ p, in_table st' p = true → in_table st p = true) →
  harbor (H st') = harbor (H st) → handle_index (H st) ≤ handle_index (H st') →
  links_ok W' st' sv G next.
Proof.
  intros [H1 H2 H3 H4 H5 H6 H7 H8 H9 H10] E En Ed Ec Et Eh Ei.
  assert (∀ p c', ctxs st' !! p = Some c' → ∃ c, ctxs st !! p = Some c ∧ ctx_handle c' = ctx_handle c) as Hb.
  { intros p c' Hc'. specialize (Ec p). rewrite Hc' in Ec. inversion Ec; eauto. }
  split; try done.
  - intros p. rewrite H1. specialize (Ec p). by inversion Ec.
  - intros p v. rewrite En. apply H2.
  - intros p. rewrite En. apply H3.
  - intros p v q Hv Hq Hd. destruct (H4 p v q Hv Hq) as (w & c & Hw & Hc & Hh & Hr); [by rewrite <- Ed|].
    pose proof (Ec p) as Ep. rewrite Hc in Ep. inversion Ep as [? c' Ehc E1 E2|]. subst.
    exists w, c'. split_and!; [done..|congruence|done].
  - intros p v q Hv Hq Hd. rewrite (H5 p v q Hv Hq) by (by rewrite <- Ed). unfold running_hold.
    by setoid_rewrite (same_hold W W' _ _ _ E).
  - intros p v q Hv Hq Hd Hi. destruct (H6 p v q Hv Hq) as [Hl|Hx]; [by rewrite <- Ed|done|..].
    + left. unfold launching_hold in *. by setoid_rewrite <- (same_hold W W' _ _ _ E).
    + right. destruct (in_table st' p) eqn:Ex; [|done]. by rewrite Et in Hx.
  - intros q h s p Hin Hs. rewrite <- (same_hold W W' q h s E) in Hin. destruct (H7 q h s p Hin Hs) as (Hlt & Hch & Hx).
    split_and!; [done| |done]. intros c' Hc'. destruct (Hb p c' Hc') as (c & Hc & ->). by apply Hch.
  - intros q w p v c Hw Hc Hv Hh. destruct (Hb p c Hc) as (c0 & Hc0 & E0).
    eapply H8; [done|done|done|congruence].
  - intros q w Hw. rewrite Eh. pose proof (H9 q w Hw). lia.
Qed.

Definition same_view (v v' : view tokens) : Prop := qv_handle v' = qv_handle v ∧ qv_release v' = qv_release v.

(** Messages come and go. *)
Lemma links_queues W st sv G G' next :
  links_ok W st sv G next → (∀ q, option_Forall2 same_view (G !! q) (G' !! q)) → links_ok W st sv G' next.
Proof.
  intros [H1 H2 H3 H4 H5 H6 H7 H8 H9 H10] EG.
  assert (∀ q v', G' !! q = Some v' → ∃ v, G !! q = Some v ∧ qv_handle v' = qv_handle v) as Hb.
  { intros q v' Hv'. specialize (EG q). rewrite Hv' in EG. inversion EG as [? ? [? ?]|]; eauto. }
  split; try done.
  - intros p v q Hv Hq Hd. destruct (H4 p v q Hv Hq Hd) as (w & c & Hw & Hc & Hh & Hr).
    pose proof (EG q) as Eq. rewrite Hw in Eq. inversion Eq as [? w' [E1 E2] E3 E4|]. subst.
    exists w', c. split_and!; [done..|congruence|congruence].
  - intros q w p v c Hw Hc Hv Hh. destruct (Hb q w Hw) as (w0 & Hw0 & E0). eapply H8; [done|done|done|congruence].
  - intros q w Hw. destruct (Hb q w Hw) as (w0 & Hw0 & ->). by eapply H9.
  - intros q1 q2 w1 w2 Hw1 Hw2 Eh. destruct (Hb q1 w1 Hw1) as (x1 & Hx1 & E1).
    destruct (Hb q2 w2 Hw2) as (x2 & Hx2 & E2). eapply H10; [done|done|congruence].
Qed.

Lemma same_view_insert (G : gmap positive (view tokens)) q v l : G !! q = Some v → qv_release v = 0 →
  ∀ q', option_Forall2 same_view (G !! q') (<[q := View (qv_handle v) 0 l]> G !! q').
Proof.
  intros Hv Hr q'. destruct (decide (q' = q)) as [->|Hne].
  - rewrite lookup_insert_eq, Hv. by constructor.
  - rewrite lookup_insert_ne by done. destruct (G !! q'); by constructor.
Qed.

Lemma links_take q h W st sv G next : links_ok W st sv G next → links_ok ({[+ Hold q h Idle +]} ⊎ W) st sv G next.
Proof.
  intros [H1 H2 H3 H4 H5 H6 H7 H8 H9 H10].
  assert (∀ t, kind_of t = KRef → t ∈ {[+ Hold q h Idle +]} ⊎ W ↔ t ∈ W) as Hk.
  { intros t Ht. rewrite in_add. split; [intros [->|?]; [discriminate Ht|done]|by right]. }
  assert (∀ q' h' s' p, stage_of s' = Some p → Hold q' h' s' ∈ {[+ Hold q h Idle +]} ⊎ W ↔ Hold q' h' s' ∈ W) as Hs.
  { intros q' h' s' p Hs. rewrite in_add. split; [intros [[= ? ? ->]|?]; done|by right]. }
  split; try done.
  - intros p v. rewrite Hk by done. apply H2.
  - intros p. rewrite Hk by done. apply H3.
  - intros p v q' Hv Hq. rewrite Hk by done. by apply (H4 p v).
  - intros p v q' Hv Hq. rewrite Hk by done. intros Hd. rewrite (H5 p v q' Hv Hq Hd).
    split; intros (h' & s' & Hin & Hp & Hr'); exists h', s'; [by rewrite Hs|by rewrite Hs in Hin].
  - intros p v q' Hv Hq. rewrite Hk by done. intros Hd Hi.
    destruct (H6 p v q' Hv Hq Hd Hi) as [(h' & s' & Hin & Hp & Hr')|?]; [left|by right].
    exists h', s'. by rewrite Hs.
  - intros q' h' s' p Hin Hp. apply (H7 q' h' s' p); [|done]. by rewrite Hs in Hin.
Qed.

(** A hold without a launch or a callback in progress is given up. *)
Lemma links_drop q h s F st sv G next :
  links_ok ({[+ Hold q h s +]} ⊎ F) st sv G next → running s = false → launching s = false →
  links_ok F st sv G next.
Proof.
  intros [H1 H2 H3 H4 H5 H6 H7 H8 H9 H10] Hst Hst'.
  assert (∀ t, kind_of t = KRef → t ∈ {[+ Hold q h s +]} ⊎ F ↔ t ∈ F) as Hk.
  { intros t Ht. rewrite in_add. split; [intros [->|?]; [discriminate Ht|done]|by right]. }
  assert (∀ q' h' s', s' ≠ s → Hold q' h' s' ∈ {[+ Hold q h s +]} ⊎ F ↔ Hold q' h' s' ∈ F) as Hs.
  { intros q' h' s' Hs. rewrite in_add. split; [intros [[= ? ? ?]|?]; done|by right]. }
  split; try done.
  - intros p v. rewrite <- Hk by done. apply H2.
  - intros p. rewrite <- Hk by done. apply H3.
  - intros p v q' Hv Hq. rewrite <- Hk by done. by apply (H4 p v).
  - intros p v q' Hv Hq. rewrite <- Hk by done. intros Hd. rewrite (H5 p v q' Hv Hq Hd).
    split; intros (h' & s' & Hin & Hp & Hr'); exists h', s'; (assert (s' ≠ s) by congruence);
      [by rewrite <- Hs|by rewrite Hs].
  - intros p v q' Hv Hq. rewrite <- Hk by done. intros Hd Hi.
    destruct (H6 p v q' Hv Hq Hd Hi) as [(h' & s' & Hin & Hp & Hr')|?]; [left|by right].
    exists h', s'. assert (s' ≠ s) by congruence. by rewrite <- Hs.
  - intros q' h' s' p Hin. apply (H7 q' h' s' p). by apply there.
Qed.

(** [skynet_mq_mark_release] by the deleter. *)
Lemma links_mark p v q w F st sv G next :
  links_ok ({[+ Dead p false +]} ⊎ F) st sv G next →
  (∀ x c c', ctxs st !! x = Some c → ctxs st !! p = Some c' → ctx_handle c = ctx_handle c' → x = p) →
  sv !! p = Some v → sv_queue v = Some q → G !! q = Some w → Dead p true ∉ F →
  links_ok ({[+ Dead p true +]} ⊎ F) st sv (<[q := View (qv_handle w) 1 (qv_msgs w)]> G) next.
Proof.
  intros [H1 H2 H3 H4 H5 H6 H7 H8 H9 H10] Hinj Hpv Hpq Hqw Hnd.
  assert (∀ t, (∀ b, t ≠ Dead p b) → t ∈ {[+ Dead p true +]} ⊎ F ↔ t ∈ {[+ Dead p false +]} ⊎ F) as Hk.
  { intros t Ht. rewrite !in_add. pose proof (Ht true). pose proof (Ht false). tauto. }
  assert (∀ x y, <[q := View (qv_handle w) 1 (qv_msgs w)]> G !! x = Some y →
    ∃ z, G !! x = Some z ∧ qv_handle y = qv_handle z) as Hb.
  { intros x y Hx. destruct (decide (x = q)) as [->|Hne].
    - rewrite lookup_insert_eq in Hx. injection Hx as <-. by exists w.
    - rewrite lookup_insert_ne in Hx by done. by exists y. }
  split; try done.
  - intros x y. rewrite Hk by done. apply H2.
  - intros x. rewrite Hk by done. apply H3.
  - intros x y z Hy Hz Hd. assert (x ≠ p) as Hne by (intros ->; by apply Hd, here).
    rewrite Hk in Hd by congruence. destruct (H4 x y z Hy Hz Hd) as (u & c & Hu & Hc & Hh & Hr).
    assert (z ≠ q) as Hzq.
    { intros ->. destruct (H4 p v q Hpv Hpq) as (w' & c' & Hw' & Hc' & Hh' & _); [by intros [?|?]%in_add|].
      apply Hne. eapply Hinj; [done|done|congruence]. }
    exists u, c. by rewrite lookup_insert_ne.
  - intros x y z Hy Hz Hd. assert (x ≠ p) as Hne by (intros ->; by apply Hd, here).
    rewrite Hk in Hd by congruence. rewrite (H5 x y z Hy Hz Hd). unfold running_hold. by setoid_rewrite Hk.
  - intros x y z Hy Hz Hd Hi. assert (x ≠ p) as Hne by (intros ->; by apply Hd, here).
    rewrite Hk in Hd by congruence. destruct (H6 x y z Hy Hz Hd Hi) as [Hl|?]; [left|by right].
    unfold launching_hold in *. by setoid_rewrite Hk.
  - intros x h s y. rewrite Hk by done. apply H7.
  - intros x y z u c Hx Hc Hu Hh. destruct (Hb x y Hx) as (y0 & Hy0 & E). eapply H8; [done|done|done|congruence].
  - intros x y Hx. destruct (Hb x y Hx) as (y0 & Hy0 & ->). by eapply H9.
  - intros x1 x2 y1 y2 Hx1 Hx2 E. destruct (Hb x1 y1 Hx1) as (z1 & Hz1 & E1).
    destruct (Hb x2 y2 Hx2) as (z2 & Hz2 & E2). eapply H10; [done|done|congruence].
Qed.

(** The context is freed. *)
Lemma links_free p b F st sv G next :
  links_ok ({[+ Dead p b +]} ⊎ F) st sv G next → New p ∉ F → (∀ x, in_table st x = true → x ≠ p) →
  links_ok F (HState (H st) (delete p (ctxs st))) (delete p sv) G next.
Proof.
  intros [H1 H2 H3 H4 H5 H6 H7 H8 H9 H10] Hn Ht.
  assert (∀ t, (∀ b, t ≠ Dead p b) → t ∈ {[+ Dead p b +]} ⊎ F ↔ t ∈ F) as Hk.
  { intros t Hx. rewrite in_add. pose proof (Hx b). tauto. }
  split; cbn [H ctxs]; try done.
  - intros x. destruct (decide (x = p)) as [->|Hne].
    + rewrite !lookup_delete_eq. split; intros [? ?]; done.
    + by rewrite !lookup_delete_ne.
  - intros x v [_ Hv]%lookup_delete_Some. rewrite <- Hk by done. by apply H2.
  - intros x Hx. rewrite lookup_delete_ne by congruence. apply H3. by apply there.
  - intros x v q [Hne Hv]%lookup_delete_Some Hq Hd. destruct (H4 x v q Hv Hq) as (w & c & Hw & Hc & Hh & Hr).
    { by rewrite Hk by congruence. }
    exists w, c. by rewrite lookup_delete_ne.
  - intros x v q [Hne Hv]%lookup_delete_Some Hq Hd. rewrite (H5 x v q Hv Hq) by (by rewrite Hk by congruence).
    unfold running_hold. by setoid_rewrite Hk.
  - intros x v q [Hne Hv]%lookup_delete_Some Hq Hd Hi.
    destruct (H6 x v q Hv Hq) as [Hl|?]; [by rewrite Hk by congruence|done|left|by right].
    unfold launching_hold in *. by setoid_rewrite Hk in Hl.
  - intros q h s x Hin Hx. destruct (H7 q h s x) as (Hlt & Hch & Hy); [by apply there|done|].
    split_and!; [done|by intros c [_ Hc]%lookup_delete_Some; apply Hch|].
    intros v [_ Hv]%lookup_delete_Some. by apply Hy.
  - intros q w x v c Hw [_ Hc]%lookup_delete_Some [_ Hv]%lookup_delete_Some. by eapply H8.
Qed.

(** A queue that is marked is freed. *)
Lemma links_gone q W st sv G next :
  links_ok W st sv G next → (∀ p v, sv !! p = Some v → sv_queue v = Some q → Dead p true ∈ W) →
  links_ok W st sv (delete q G) next.
Proof.
  intros [H1 H2 H3 H4 H5 H6 H7 H8 H9 H10] Hno. split; try done.
  - intros p v q' Hv Hq Hd. destruct (H4 p v q' Hv Hq Hd) as (w & c & Hw & ?). exists w, c.
    rewrite lookup_delete_ne; [done|]. intros ->. by eapply Hd, Hno.
  - intros q' w p v c [_ Hw]%lookup_delete_Some. by apply H8.
  - intros q' w [_ Hw]%lookup_delete_Some. by eapply H9.
  - intros q1 q2 w1 w2 [_ Hw1]%lookup_delete_Some [_ Hw2]%lookup_delete_Some. by eapply H10.
Qed.

(** The new service gets its queue. *)
Lemma links_create p v c q F st sv G next :
  links_ok ({[+ New p +]} ⊎ F) st sv G next → New p ∉ F → (∀ b, Dead p b ∉ F) →
  (∀ h s, Hold q h s ∉ F) → (p < next)%positive →
  (∀ x d, ctxs st !! x = Some d → ctx_handle d = ctx_handle c → x = p) →
  1 ≤ ctx_handle c - harbor (H st) < handle_index (H st) →
  sv !! p = Some v → ctxs st !! p = Some c → G !! q = None → sv_queue v = None →
  links_ok ({[+ Hold q (ctx_handle c) (Fresh p) +]} ⊎ ({[+ Ref p +]} ⊎ F)) st
    (<[p := v <| sv_queue := Some q |>]> sv) (<[q := View (ctx_handle c) 0 []]> G) next.
Proof.
  intros [H1 H2 H3 H4 H5 H6 H7 H8 H9 H10] Hn Hd Hh Hlt Hinj Hrng Hv Hc Hq Hvq.
  set (v' := v <| sv_queue := Some q |>). set (W := {[+ Hold _ _ _ +]} ⊎ _).
  assert (∀ t, kind_of t ≠ KRef → t ∈ W ↔ t = Hold q (ctx_handle c) (Fresh p) ∨ t ∈ {[+ New p +]} ⊎ F) as Hk.
  { intros t Ht. unfold W. rewrite !in_add. split; intros [->|[->|?]]; try done; tauto. }
  assert (∀ x, x ≠ p → (New x ∈ W ↔ New x ∈ {[+ New p +]} ⊎ F)) as Hnew.
  { intros x Hx. unfold W. rewrite !in_add. split; [intros [?|[?|?]]; try done; by right|].
    intros [[= ->]|?]; [done|]. by right; right. }
  assert (∀ x, Dead x true ∈ W ↔ Dead x true ∈ {[+ New p +]} ⊎ F) as Hdead.
  { intros x. unfold W. rewrite !in_add. split; [intros [?|[?|?]]; try done; by right|].
    intros [?|?]; [done|]. by right; right. }
  assert (sv_init v = false ∧ sv_calling v = false) as [Ei Ec] by (by destruct (H2 p v Hv Hvq)).
  split.
  - intros x. rewrite <- H1. destruct (decide (x = p)) as [->|Hne].
    + rewrite lookup_insert_eq, Hv. split; intros _; by eexists.
    + by rewrite lookup_insert_ne.
  - intros x y Hx Hy. destruct (decide (x = p)) as [->|Hne].
    + rewrite lookup_insert_eq in Hx. by injection Hx as <-.
    + rewrite lookup_insert_ne in Hx by done. rewrite Hnew by done. by apply H2.
  - intros x Hx. destruct (decide (x = p)) as [->|Hne].
    + unfold W in Hx. token_cases Hx. token_cases Hx. done.
    + rewrite Hnew in Hx by done. rewrite lookup_insert_ne by done. by apply H3.
  - intros x y z Hx Hy Hdx. destruct (decide (x = p)) as [->|Hne].
    + rewrite lookup_insert_eq in Hx. injection Hx as <-. cbn in Hy. injection Hy as <-.
      eexists _, c. by rewrite lookup_insert_eq.
    + rewrite Hdead in Hdx. rewrite lookup_insert_ne in Hx by done.
      destruct (H4 x y z Hx Hy Hdx) as (w & d & Hw & Hd' & Hh' & Hr).
      exists w, d. by rewrite lookup_insert_ne by congruence.
  - intros x y z Hx Hy Hdx. destruct (decide (x = p)) as [->|Hne].
    + rewrite lookup_insert_eq in Hx. injection Hx as <-. cbn in *. injection Hy as <-. rewrite Ec.
      split; [done|]. intros (h & s & Hin & Hp & Hr). apply Hk in Hin as [[= -> ->]|Hin]; [done| |done].
      token_cases Hin. by destruct (Hh h _ Hin).
    + rewrite Hdead in Hdx. rewrite lookup_insert_ne in Hx by done. rewrite (H5 x y z Hx Hy Hdx). unfold running_hold.
      split; intros (h & s & Hin & Hp & Hr); exists h, s; (split; [|done]).
      * rewrite Hk by done. by right.
      * rewrite Hk in Hin by done. destruct Hin as [[= -> -> ->]|?]; done.
  - intros x y z Hx Hy Hdx Hi. destruct (decide (x = p)) as [->|Hne].
    + rewrite lookup_insert_eq in Hx. injection Hx as <-. cbn in Hy. injection Hy as <-.
      left. exists (ctx_handle c), (Fresh p). split; [apply here|done].
    + rewrite Hdead in Hdx. rewrite lookup_insert_ne in Hx by done.
      destruct (H6 x y z Hx Hy Hdx Hi) as [(h & s & Hin & Hs)|?]; [left|by right].
      exists h, s. split; [|done]. rewrite Hk by done. by right.
  - intros x h s y Hin Hs. apply Hk in Hin as [[= -> -> ->]|Hin]; [| |done].
    + injection Hs as <-. split; [done|]. split; [by intros d Hd0; congruence|].
      intros u Hu. rewrite lookup_insert_eq in Hu. by injection Hu as <-.
    + destruct (H7 x h s y Hin Hs) as (Hlt' & Hch & Hz). split; [done|]. split; [done|]. intros u Hu.
      destruct (decide (y = p)) as [->|Hne].
      * destruct (Hz v Hv) as [Hx _]. congruence.
      * rewrite lookup_insert_ne in Hu by done. by apply Hz.
  - intros x w y u d Hw Hd' Hu Hh'. destruct (decide (y = p)) as [->|Hne].
    + rewrite lookup_insert_eq in Hu. injection Hu as <-. cbn. f_equal.
      destruct (decide (x = q)) as [|Hxq]; [done|]. rewrite lookup_insert_ne in Hw by done.
      pose proof (H8 x w p v d Hw Hd' Hv Hh'). congruence.
    + rewrite lookup_insert_ne in Hu by done. destruct (decide (x = q)) as [->|Hxq].
      * rewrite lookup_insert_eq in Hw. injection Hw as <-. cbn in Hh'.
        destruct Hne. by eapply Hinj.
      * rewrite lookup_insert_ne in Hw by done. by eapply H8.
  - intros x w Hw. destruct (decide (x = q)) as [->|Hxq].
    + rewrite lookup_insert_eq in Hw. by injection Hw as <-.
    + rewrite lookup_insert_ne in Hw by done. by eapply H9.
  - assert (∀ x w, G !! x = Some w → qv_handle w ≠ ctx_handle c) as Hno.
    { intros x w Hw E. pose proof (H8 x w p v c Hw Hc Hv E). congruence. }
    intros x1 x2 w1 w2 Hw1 Hw2 E. destruct (decide (x1 = q)) as [->|Hn1], (decide (x2 = q)) as [->|Hn2]; [done| | |].
    + rewrite lookup_insert_eq in Hw1. rewrite lookup_insert_ne in Hw2 by done. injection Hw1 as <-.
      by destruct (Hno x2 w2 Hw2).
    + rewrite lookup_insert_ne in Hw1 by done. rewrite lookup_insert_eq in Hw2. injection Hw2 as <-.
      by destruct (Hno x1 w1 Hw1).
    + rewrite lookup_insert_ne in Hw1, Hw2 by done. by eapply H10.
Qed.

(** A context is registered. *)
Lemma links_register p v h W st st' sv G :
  links_ok W st sv G p → (∀ t, kind_of t = KRef → t ∈ W → t ≠ New p ∧ t ≠ Dead p true) →
  ctxs st !! p = None → ctxs st' = <[p := Context h 2]> (ctxs st) →
  sv_queue v = None → sv_init v = false → sv_calling v = false →
  (∀ q, in_table st' q = true ↔ q = p ∨ in_table st q = true) →
  harbor (H st') = harbor (H st) → handle_index (H st) ≤ handle_index (H st') →
  handle_index (H st) ≤ h - harbor (H st) →
  links_ok ({[+ New p +]} ⊎ W) st' (<[p := v]> sv) G (Pos.succ p).
Proof.
  intros [H1 H2 H3 H4 H5 H6 H7 H8 H9 H10] Hno Hc Ec Eq Ei Eca Et Eh Eix Hh.
  assert (sv !! p = None) as Hv.
  { destruct (sv !! p) eqn:E; [|done]. destruct (proj1 (H1 p)) as [? ?]; [by eexists|congruence]. }
  assert (∀ t, t ≠ New p → t ∈ {[+ New p +]} ⊎ W ↔ t ∈ W) as Hk.
  { intros t Ht. rewrite in_add. tauto. }
  split.
  - intros x. rewrite Ec. destruct (decide (x = p)) as [->|Hne].
    + rewrite !lookup_insert_eq. split; intros _; by eexists.
    + by rewrite !lookup_insert_ne.
  - intros x y Hx Hy. destruct (decide (x = p)) as [->|Hne].
    + rewrite lookup_insert_eq in Hx. injection Hx as <-. split_and!; [apply here|done|done].
    + rewrite lookup_insert_ne in Hx by done. rewrite Hk by congruence. by apply H2.
  - intros x Hx. destruct (decide (x = p)) as [->|Hne].
    + exists v. by rewrite lookup_insert_eq.
    + rewrite Hk in Hx by congruence. rewrite lookup_insert_ne by done. by apply H3.
  - intros x y z Hx Hy Hdx. destruct (decide (x = p)) as [->|Hne].
    + rewrite lookup_insert_eq in Hx. injection Hx as <-. congruence.
    + rewrite Hk in Hdx by done. rewrite lookup_insert_ne in Hx by done.
      rewrite Ec, lookup_insert_ne by done. by apply (H4 x y z Hx Hy).
  - intros x y z Hx Hy Hdx. destruct (decide (x = p)) as [->|Hne].
    + rewrite lookup_insert_eq in Hx. injection Hx as <-. congruence.
    + rewrite Hk in Hdx by done. rewrite lookup_insert_ne in Hx by done. rewrite (H5 x y z Hx Hy Hdx).
      unfold running_hold. by setoid_rewrite Hk.
  - intros x y z Hx Hy Hdx Hi. destruct (decide (x = p)) as [->|Hne].
    + rewrite lookup_insert_eq in Hx. injection Hx as <-. congruence.
    + rewrite Hk in Hdx by done. rewrite lookup_insert_ne in Hx by done. destruct (H6 x y z Hx Hy Hdx Hi) as [Hl|Hf].
      * left. unfold launching_hold in *. by setoid_rewrite Hk.
      * right. destruct (in_table st' x) eqn:E; [|done]. apply Et in E as [?|?]; [done|congruence].
  - intros q h' s y Hin Hs. rewrite Hk in Hin by done. destruct (H7 q h' s y Hin Hs) as (Hlt & Hch & Hz).
    split; [lia|]. split.
    + intros d Hd. rewrite Ec, lookup_insert_ne in Hd by lia. by apply Hch.
    + intros u Hu. rewrite lookup_insert_ne in Hu by lia. by apply Hz.
  - intros q w y u d Hw Hd Hu Hh'. destruct (decide (y = p)) as [->|Hne].
    + rewrite Ec, lookup_insert_eq in Hd. injection Hd as <-. cbn in Hh'. pose proof (H9 q w Hw). lia.
    + rewrite lookup_insert_ne in Hu by done. rewrite Ec, lookup_insert_ne in Hd by done. by eapply H8.
  - intros q w Hw. rewrite Eh. pose proof (H9 q w Hw). lia.
  - done.
Qed.

(** ** Message data *)

Lemma owns_blocks d sz x t : owns d sz x → t ∈ x → kind_of t = KBlock.
Proof.
  induction 1 as [|b n i k sz T Hsz _ IH]; intros Ht; [by apply gmultiset_elem_of_empty in Ht|].
  apply in_add in Ht as [->|Ht]; [done|by apply IH].
Qed.

Lemma owns_le d sz sz' x : owns d sz x → sz' ≤ sz → owns d sz' x.
Proof. intros H Hle. destruct H; constructor; [lia|done]. Qed.

Section Memory.
Context (harbor_id : Z) (remote_ok : bool).
#[local] Abbreviation mem_ok := (mem_ok harbor_id remote_ok).
#[local] Abbreviation addressable := (addressable harbor_id remote_ok).

(** Blocks change owners, and some are given up. *)
Lemma mem_move W W' G G' mem brk :
  mem_ok W G mem brk →
  (∀ t, kind_of t = KBlock → (multiplicity t (W' ⊎ queued G') ≤ multiplicity t (W ⊎ queued G))%nat) →
  (∀ q v m x, G' !! q = Some v → (m, x) ∈ qv_msgs v →
     owns (msg_data m) (Z.land (msg_sz m) MESSAGE_TYPE_MASK) x ∧ addressable (msg_source m)) →
  mem_ok W' G' mem brk.
Proof. intros [Hb Hm] Hs Hm'. split; [by eapply blocks_sub|done]. Qed.

Lemma mem_same W W' G mem brk : same KBlock W W' → mem_ok W G mem brk → mem_ok W' G mem brk.
Proof.
  intros E Hm. eapply mem_move; [done| |apply Hm].
  intros t Ht. by rewrite !multiplicity_disj_union, (E t Ht).
Qed.

Lemma mem_malloc W G mem brk B n i k :
  mem_ok W G mem brk → block_size B = n → inner B = (i, k) →
  mem_ok ({[+ Block brk n i k +]} ⊎ W) G (<[brk := B]> mem) (Pos.succ brk).
Proof.
  intros [[H1 H2 H3 H4] Hm] En Ei.
  assert (∀ n' i' k', Block brk n' i' k' ∉ W ⊎ queued G) as Hno.
  { intros n' i' k' Hin. destruct (H1 _ _ _ _ Hin) as (B' & HB & _). pose proof (H4 brk B' HB). lia. }
  split; [|done]. rewrite <- (assoc_L (⊎)). split.
  - intros b n' i' k' Hin. token_cases Hin; [exists B; by rewrite lookup_insert_eq|].
    rewrite lookup_insert_ne; [by apply H1|]. intros ->. by destruct (Hno n' i' k').
  - intros b n' i' k'. rewrite mult_add. case_decide as E; [|apply H2]. injection E as -> -> -> ->.
    rewrite (proj2 (mult_out _ _) (Hno _ _ _)). lia.
  - intros b n1 i1 k1 n2 i2 k2 Hi1 Hi2. token_cases Hi1; token_cases Hi2; try done.
    + by destruct (Hno n2 i2 k2).
    + by destruct (Hno n1 i1 k1).
    + by eapply H3.
  - intros b B' HB. destruct (decide (b = brk)) as [->|Hne]; [lia|].
    rewrite lookup_insert_ne in HB by done. pose proof (H4 b B' HB). lia.
Qed.

Lemma mem_free b n i k F G mem brk :
  mem_ok ({[+ Block b n i k +]} ⊎ F) G mem brk →
  (∃ B, mem !! b = Some B ∧ block_size B = n ∧ inner B = (i, k)) ∧ mem_ok F G (delete b mem) brk.
Proof.
  intros [[H1 H2 H3 H4] Hm]. rewrite <- (assoc_L (⊎)) in *.
  assert (∀ n' i' k', Block b n' i' k' ∉ F ⊎ queued G) as Hno.
  { intros n' i' k' Hin. destruct (H3 b n i k n' i' k') as (<- & <- & <-); [apply here|by apply there|].
    pose proof (H2 b n i k) as Hx. rewrite mult_add, decide_True in Hx by done. apply mult_in in Hin. lia. }
  split; [apply H1, here|]. split; [|done]. split.
  - intros b' n' i' k' Hin. rewrite lookup_delete_ne; [apply H1; by apply there|]. intros ->. by destruct (Hno n' i' k').
  - intros b' n' i' k'. pose proof (H2 b' n' i' k') as Hx. rewrite mult_add in Hx. lia.
  - intros b' n1 i1 k1 n2 i2 k2 Hi1 Hi2. eapply H3; by apply there.
  - intros b' B' [_ HB]%lookup_delete_Some. by eapply H4.
Qed.

Lemma mem_push q v m x F G mem brk :
  mem_ok (x ⊎ F) G mem brk → G !! q = Some v →
  owns (msg_data m) (Z.land (msg_sz m) MESSAGE_TYPE_MASK) x → addressable (msg_source m) →
  mem_ok F (<[q := View (qv_handle v) 0 (qv_msgs v ++ [(m, x)])]> G) mem brk.
Proof.
  intros Hm Hv Ho Ha. eapply mem_move; [done| |].
  - intros t _. destruct (queued_update G q v (View (qv_handle v) 0 (qv_msgs v ++ [(m, x)])) Hv) as [-> ->].
    cbn [qv_msgs]. rewrite msgs_tokens_app, msgs_tokens_cons, !multiplicity_disj_union.
    cbn. rewrite multiplicity_empty. lia.
  - intros q' v' m' x' Hq' Hin. destruct (decide (q' = q)) as [->|Hne].
    + rewrite lookup_insert_eq in Hq'. injection Hq' as <-. cbn in Hin.
      apply elem_of_app in Hin as [Hin|Hin]; [by eapply (me_msgs _ _ _ _ _ _ Hm)|].
      apply list_elem_of_singleton in Hin. by injection Hin as -> ->.
    + rewrite lookup_insert_ne in Hq' by done. by eapply (me_msgs _ _ _ _ _ _ Hm).
Qed.

Lemma mem_pop q v m x msgs W G mem brk :
  mem_ok W G mem brk → G !! q = Some v → qv_msgs v = (m, x) :: msgs →
  mem_ok (x ⊎ W) (<[q := View (qv_handle v) 0 msgs]> G) mem brk
  ∧ owns (msg_data m) (Z.land (msg_sz m) MESSAGE_TYPE_MASK) x ∧ addressable (msg_source m).
Proof.
  intros Hm Hv Hl. split; [|eapply (me_msgs _ _ _ _ _ _ Hm); [done|rewrite Hl; by left]].
  eapply mem_move; [done| |].
  - intros t _. destruct (queued_update G q v (View (qv_handle v) 0 msgs) Hv) as [-> ->].
    cbn [qv_msgs]. rewrite Hl, msgs_tokens_cons, !multiplicity_disj_union. lia.
  - intros q' v' m' x' Hq' Hin. destruct (decide (q' = q)) as [->|Hne].
    + rewrite lookup_insert_eq in Hq'. injection Hq' as <-.
      eapply (me_msgs _ _ _ _ _ _ Hm); [done|rewrite Hl; by right].
    + rewrite lookup_insert_ne in Hq' by done. by eapply (me_msgs _ _ _ _ _ _ Hm).
Qed.

Lemma mem_gone q v W G mem brk :
  mem_ok W G mem brk → G !! q = Some v →
  mem_ok (msgs_tokens (qv_msgs v) ⊎ W) (delete q G) mem brk
  ∧ Forall (λ mx, owns (msg_data mx.1) (Z.land (msg_sz mx.1) MESSAGE_TYPE_MASK) mx.2 ∧ addressable (msg_source mx.1))
      (qv_msgs v).
Proof.
  intros Hm Hv. split.
  - eapply mem_move; [done| |].
    + intros t _. rewrite (queued_delete G q v Hv), !multiplicity_disj_union. lia.
    + intros q' v' m' x' [_ Hq']%lookup_delete_Some. by eapply (me_msgs _ _ _ _ _ _ Hm).
  - apply Forall_forall. intros [m x] Hin. by eapply (me_msgs _ _ _ _ _ _ Hm).
Qed.

(** The messages stay. *)
Lemma mem_view q v h r W G mem brk :
  mem_ok W G mem brk → G !! q = Some v → mem_ok W (<[q := View h r (qv_msgs v)]> G) mem brk.
Proof.
  intros Hm Hv. eapply mem_move; [done| |].
  - intros t _. by destruct (queued_update G q v (View h r (qv_msgs v)) Hv) as [-> ->].
  - intros q' v' m' x' Hq' Hin. destruct (decide (q' = q)) as [->|Hne].
    + rewrite lookup_insert_eq in Hq'. injection Hq' as <-. by eapply (me_msgs _ _ _ _ _ _ Hm).
    + rewrite lookup_insert_ne in Hq' by done. by eapply (me_msgs _ _ _ _ _ _ Hm).
Qed.

Lemma mem_create q h W G mem brk :
  mem_ok W G mem brk → G !! q = None → mem_ok W (<[q := View h 0 []]> G) mem brk.
Proof.
  intros Hm Hv. eapply mem_move; [done| |].
  - intros t _. rewrite queued_insert by done. change (msgs_tokens _) with (∅ : tokens). by rewrite (left_id_L ∅ (⊎)).
  - intros q' v' m' x' Hq' Hin. destruct (decide (q' = q)) as [->|Hne].
    + rewrite lookup_insert_eq in Hq'. injection Hq' as <-. by apply elem_of_nil in Hin.
    + rewrite lookup_insert_ne in Hq' by done. by eapply (me_msgs _ _ _ _ _ _ Hm).
Qed.

End Memory.

(** ** The record of messages *)

Lemma sent_app h l k : sent h (l ++ k) = sent h l ++ sent h k.
Proof. apply omap_app. Qed.

Lemma handled_app h l k : handled h (l ++ k) = handled h l ++ handled h k.
Proof. apply omap_app. Qed.

Lemma in_hand_iff W W' q l :
  (∀ h s m, hand s = Some m → Hold q h s ∈ W ↔ Hold q h s ∈ W') → in_hand W q l → in_hand W' q l.
Proof.
  intros E [[-> H]|(h & s & m & H & Hs & ->)].
  - left. split; [done|]. intros h s Hin. destruct (hand s) as [m|] eqn:Hs; [|done].
    rewrite <- (E h s m Hs) in Hin. rewrite (H h s Hin) in Hs. done.
  - right. exists h, s, m. by rewrite <- (E h s m Hs).
Qed.

Lemma log_iff W W' G log :
  (∀ q h s m, hand s = Some m → Hold q h s ∈ W ↔ Hold q h s ∈ W') → log_ok W G log → log_ok W' G log.
Proof.
  intros E [H1 H2]. split; [|done]. intros q v Hv. destruct (H1 q v Hv) as (l & Hl & ?).
  exists l. split; [|done]. eapply in_hand_iff; [apply E|done].
Qed.

Lemma log_view q v r W G log :
  log_ok W G log → G !! q = Some v → log_ok W (<[q := View (qv_handle v) r (qv_msgs v)]> G) log.
Proof.
  intros [H1 H2] Hv. split.
  - intros q' v' Hq'. destruct (decide (q' = q)) as [->|Hne].
    + rewrite lookup_insert_eq in Hq'. injection Hq' as <-. exact (H1 q v Hv).
    + rewrite lookup_insert_ne in Hq' by done. by apply H1.
  - intros h Hh. apply H2. intros q' v' Hq'. destruct (decide (q' = q)) as [->|Hne].
    + assert (v' = v) as -> by congruence. exact (Hh q _ (lookup_insert_eq _ _ _)).
    + eapply (Hh q'). by rewrite lookup_insert_ne.
Qed.

Lemma log_create q h W G log :
  log_ok W G log → G !! q = None → (∀ q' v, G !! q' = Some v → qv_handle v ≠ h) →
  (∀ h' s, Hold q h' s ∉ W) → log_ok W (<[q := View h 0 []]> G) log.
Proof.
  intros [H1 H2] Hq Hh Hu. split.
  - intros q' v' Hq'. destruct (decide (q' = q)) as [->|Hne].
    + rewrite lookup_insert_eq in Hq'. injection Hq' as <-. exists []. split.
      { left. split; [done|]. intros h' s Hin. by destruct (Hu h' s). }
      cbn. rewrite (H2 h Hh). by rewrite app_nil_r.
    + rewrite lookup_insert_ne in Hq' by done. by apply H1.
  - intros h' Hh'. apply H2. intros q' v' Hq'. eapply (Hh' q'). rewrite lookup_insert_ne; [done|congruence].
Qed.

(** One queue changes, with events of its handle only. *)
Lemma log_queue q v v' es W W' G log :
  log_ok W G log → G !! q = Some v → qv_handle v' = qv_handle v →
  (∀ q1 q2 w1 w2, G !! q1 = Some w1 → G !! q2 = Some w2 → qv_handle w1 = qv_handle w2 → q1 = q2) →
  (∀ q' l, q' ≠ q → in_hand W q' l → in_hand W' q' l) →
  (∀ h, h ≠ qv_handle v → sent h es = [] ∧ handled h es = []) →
  (∀ l, in_hand W q l → sent (qv_handle v) log = handled (qv_handle v) log ++ l ++ (qv_msgs v).*1 →
     ∃ l', in_hand W' q l' ∧
       sent (qv_handle v) (log ++ es) = handled (qv_handle v) (log ++ es) ++ l' ++ (qv_msgs v').*1) →
  log_ok W' (<[q := v']> G) (log ++ es).
Proof.
  intros [H1 H2] Hv Eh Hinj Hoth Hes Hq. split.
  - intros q' w Hw. destruct (decide (q' = q)) as [->|Hne].
    + rewrite lookup_insert_eq in Hw. injection Hw as <-. rewrite Eh.
      destruct (H1 q v Hv) as (l & Hl & E). by apply (Hq l).
    + rewrite lookup_insert_ne in Hw by done. destruct (H1 q' w Hw) as (l & Hl & E).
      exists l. split; [by apply Hoth|]. rewrite sent_app, handled_app.
      destruct (Hes (qv_handle w)) as [-> ->].
      { intros Ex. apply Hne. by eapply Hinj. }
      by rewrite !app_nil_r.
  - intros h Hh. assert (h ≠ qv_handle v) as Hne.
    { intros ->. apply (Hh q v'); [by rewrite lookup_insert_eq|done]. }
    rewrite sent_app, handled_app. destruct (Hes h Hne) as [-> ->]. rewrite !app_nil_r. apply H2.
    intros q' w Hw Ex. destruct (decide (q' = q)) as [->|Hq']; [congruence|].
    apply (Hh q' w); [by rewrite lookup_insert_ne|done].
Qed.

(** ** Log files *)

Lemma files_sv W sv sv' files next :
  files_ok W sv files next →
  (∀ p v', sv' !! p = Some v' → sv_logfile v' = None ∨ ∃ v, sv !! p = Some v ∧ sv_logfile v' = sv_logfile v) →
  files_ok W sv' files next.
Proof.
  intros [H1 H2 H3 H4 H5] Hsv.
  assert (∀ p v' f, sv' !! p = Some v' → sv_logfile v' = Some f → ∃ v, sv !! p = Some v ∧ sv_logfile v = Some f) as Hb.
  { intros p v' f Hv Hf. destruct (Hsv p v' Hv) as [?|(v & ? & E)]; [congruence|]. exists v. split; congruence. }
  split; try done.
  - intros f Hf. destruct (H1 f Hf) as [Hin Hno]. split; [done|]. intros p v' Hv' Ef.
    destruct (Hb p v' f Hv' Ef) as (v & Hv & E). by apply (Hno p v).
  - intros p v' f Hv' Ef. destruct (Hb p v' f Hv' Ef) as (v & Hv & E). by eapply H3.
  - intros p1 p2 v1 v2 f Hv1 Hv2 E1 E2. destruct (Hb p1 v1 f Hv1 E1) as (w1 & Hw1 & F1).
    destruct (Hb p2 v2 f Hv2 E2) as (w2 & Hw2 & F2). by eapply H4.
Qed.

Lemma files_update W sv p v v' files next :
  files_ok W sv files next → sv !! p = Some v → sv_logfile v' = sv_logfile v →
  files_ok W (<[p := v']> sv) files next.
Proof.
  intros Hf Hv E. eapply files_sv; [done|]. intros q w Hw. destruct (decide (q = p)) as [->|Hne].
  - rewrite lookup_insert_eq in Hw. injection Hw as <-. right. by exists v.
  - rewrite lookup_insert_ne in Hw by done. right. by exists w.
Qed.

Lemma files_open W sv files next : files_ok W sv files next →
  files_ok ({[+ File next +]} ⊎ W) sv ({[next]} ∪ files) (Pos.succ next).
Proof.
  intros [H1 H2 H3 H4 H5].
  assert (next ∉ files) as Hn by (intros Hin; pose proof (H5 _ Hin); lia).
  assert (File next ∉ W) as Hw by (intros Hin; by destruct (H1 _ Hin)).
  split.
  - intros f Hf. token_cases Hf.
    + split; [set_solver|]. intros p v Hv Ef. by apply Hn, (H3 p v).
    + destruct (H1 f Hf). split; [set_solver|done].
  - intros f. rewrite mult_add. case_decide as E; [injection E as ->; rewrite (proj2 (mult_out _ _) Hw); lia|apply H2].
  - intros p v f Hv Ef. apply elem_of_union. right. by eapply H3.
  - done.
  - intros f [->%elem_of_singleton|Hf]%elem_of_union; [lia|]. pose proof (H5 f Hf). lia.
Qed.

Lemma files_fresh f F sv files next : files_ok ({[+ File f +]} ⊎ F) sv files next → File f ∉ F.
Proof.
  intros [_ H2 _ _ _] Hin. pose proof (H2 f) as H. rewrite mult_add, decide_True in H by done.
  apply mult_in in Hin. lia.
Qed.

Lemma files_close f F sv files next : files_ok ({[+ File f +]} ⊎ F) sv files next →
  f ∈ files ∧ files_ok F sv (files ∖ {[f]}) next.
Proof.
  intros Hf. pose proof (files_fresh _ _ _ _ _ Hf) as Hn. destruct Hf as [H1 H2 H3 H4 H5].
  destruct (H1 f) as [Hin Hno]; [apply here|]. split; [done|]. split.
  - intros g Hg. destruct (H1 g) as [? ?]; [by apply there|]. split; [|done]. apply elem_of_difference. split; [done|].
    intros ->%elem_of_singleton. done.
  - intros g. pose proof (H2 g) as H. rewrite mult_add in H. lia.
  - intros p v g Hv Eg. apply elem_of_difference. split; [by eapply H3|]. intros ->%elem_of_singleton. by apply (Hno p v).
  - done.
  - intros g [Hg _]%elem_of_difference. by apply H5.
Qed.

(** The file goes into the context, and back. *)
Lemma files_set f p v v' F sv files next : files_ok ({[+ File f +]} ⊎ F) sv files next →
  sv !! p = Some v → sv_logfile v' = Some f → files_ok F (<[p := v']> sv) files next.
Proof.
  intros Hf Hv Ev. pose proof (files_fresh _ _ _ _ _ Hf) as Hn. destruct Hf as [H1 H2 H3 H4 H5].
  destruct (H1 f) as [Hin Hno]; [apply here|].
  assert (∀ q w g, <[p := v']> sv !! q = Some w → sv_logfile w = Some g →
    (q = p ∧ g = f) ∨ (q ≠ p ∧ g ≠ f ∧ sv !! q = Some w)) as Hb.
  { intros q w g Hw Eg. destruct (decide (q = p)) as [->|Hne].
    - rewrite lookup_insert_eq in Hw. injection Hw as <-. left. split; congruence.
    - rewrite lookup_insert_ne in Hw by done. right. split; [done|]. split; [|done]. intros ->. by apply (Hno q w). }
  split.
  - intros g Hg. destruct (H1 g) as [? Hx]; [by apply there|]. split; [done|]. intros q w Hw Eg.
    destruct (Hb q w g Hw Eg) as [[_ E]|(_ & _ & Hw')]; [|by apply (Hx q w)]. by rewrite E in Hg.
  - intros g. pose proof (H2 g) as H. rewrite mult_add in H. lia.
  - intros q w g Hw Eg. destruct (Hb q w g Hw Eg) as [[_ E]|(_ & _ & Hw')]; [by rewrite E|by eapply H3].
  - intros q1 q2 w1 w2 g Hw1 Hw2 E1 E2.
    destruct (Hb q1 w1 g Hw1 E1) as [[? ?]|(? & ? & ?)], (Hb q2 w2 g Hw2 E2) as [[? ?]|(? & ? & ?)];
      [congruence..|by eapply H4].
  - done.
Qed.

Lemma files_clear f p v v' W sv files next : files_ok W sv files next →
  sv !! p = Some v → sv_logfile v = Some f → sv_logfile v' = None →
  files_ok ({[+ File f +]} ⊎ W) (<[p := v']> sv) files next.
Proof.
  intros Hf Hv Ev Ev'. assert (File f ∉ W) as Hn.
  { intros Hin. destruct (fl_token _ _ _ _ Hf f Hin) as [_ Hno]. by apply (Hno p v). }
  assert (files_ok W (<[p := v']> sv) files next) as [H1 H2 H3 H4 H5].
  { eapply files_sv; [done|]. intros q w Hw. destruct (decide (q = p)) as [->|Hne].
    - rewrite lookup_insert_eq in Hw. injection Hw as <-. by left.
    - rewrite lookup_insert_ne in Hw by done. right. by exists w. }
  split; try done.
  - intros g Hg. token_cases Hg; [|by apply H1]. split; [by eapply (fl_service _ _ _ _ Hf p v)|].
    intros q w Hw Eg. destruct (decide (q = p)) as [->|Hne].
    + rewrite lookup_insert_eq in Hw. congruence.
    + rewrite lookup_insert_ne in Hw by done. apply Hne. by eapply (fl_inj _ _ _ _ Hf q p).
  - intros g. rewrite mult_add. case_decide as E; [injection E as E; subst g; rewrite (proj2 (mult_out _ _) Hn); lia|apply H2].
Qed.
