(* ===== verification/ServerSteps.v ===== *)
(** * One step at a time

    What each atomic step of the node does with the tokens of the thread that
    makes it: the premises of the proofs of whole functions. *)

From stdpp Require Import gmultiset.
From S2P Require Import Prelude Kernel Threads Text MessageQueue Timer Handle Queues Server ServerInv ServerParts.

#[local] Arguments disj_union : simpl never.
#[local] Arguments singletonMS : simpl never.

(** All kinds but these. *)
Definition upto (ks : list kind) (T T' : tokens) : Prop := ∀ k, k ∉ ks → same k T T'.

Lemma upto_frame ks T T' F : upto ks T T' → upto ks (T ⊎ F) (T' ⊎ F).
Proof. intros H k Hk. by apply same_union; [apply H|]. Qed.

Lemma upto_refl ks T : upto ks T T.
Proof. by intros k _. Qed.

Lemma upto_add ks t T T' : kind_of t ∈ ks → upto ks T T' → upto ks ({[+ t +]} ⊎ T) T'.
Proof. intros Ht H k Hk. apply same_add; [congruence|by apply H]. Qed.

Lemma upto_sym ks T T' : upto ks T T' → upto ks T' T.
Proof. intros H k Hk. symmetry. by apply H. Qed.

Lemma upto_add_r ks t T T' : kind_of t ∈ ks → upto ks T T' → upto ks T ({[+ t +]} ⊎ T').
Proof. intros Ht H. by apply upto_sym, upto_add, upto_sym. Qed.

Lemma upto_one ks t : kind_of t ∈ ks → upto ks {[+ t +]} ∅.
Proof. intros Ht. rewrite <- (right_id_L ∅ (⊎) {[+ t +]}). by apply upto_add, upto_refl. Qed.

Lemma upto_trans ks T1 T2 T3 : upto ks T1 T2 → upto ks T2 T3 → upto ks T1 T3.
Proof. intros H1 H2 k Hk. transitivity T2; auto. Qed.

Lemma upto_ones ks t t' : kind_of t ∈ ks → kind_of t' ∈ ks → upto ks {[+ t +]} {[+ t' +]}.
Proof. intros Ht Ht'. eapply upto_trans; [by apply upto_one|]. by apply upto_sym, upto_one. Qed.

(** [kind_of t ∈ ks]. *)
Ltac kind_in := cbn [kind_of]; repeat constructor.

(** Tokens of kinds [ks] for tokens of kinds [ks]. *)
Ltac upto := repeat first
  [ apply upto_refl | apply upto_add; [kind_in|] | apply upto_add_r; [kind_in|]
  | apply upto_one; kind_in | apply upto_sym, upto_one; kind_in | apply upto_ones; kind_in ].

(** [same k] from [upto]. *)
Ltac same_by H := apply H; set_solver.

(** ** Tokens of one queue *)

Lemma swap (t t' : token) (F : tokens) : {[+ t +]} ⊎ ({[+ t' +]} ⊎ F) = {[+ t' +]} ⊎ ({[+ t +]} ⊎ F).
Proof. multiset_solver. Qed.

Lemma pair_swap (t t' : token) (F : tokens) : ({[+ t +]} ⊎ {[+ t' +]}) ⊎ F = {[+ t' +]} ⊎ ({[+ t +]} ⊎ F).
Proof. multiset_solver. Qed.

(** The only hold of a queue. *)
Lemma hold_only q h s (F : tokens) h' s' : (∀ h s, Hold q h s ∉ F) → Hold q h' s' ∈ {[+ Hold q h s +]} ⊎ F → s' = s ∧ h' = h.
Proof. intros Hn Hin. token_cases Hin; [done|]. by destruct (Hn h' s'). Qed.

Lemma held_services q h s F st sv G next p v :
  links_ok ({[+ Hold q h s +]} ⊎ F) st sv G next → (∀ h s, Hold q h s ∉ F) →
  sv !! p = Some v → sv_queue v = Some q → Dead p true ∉ F →
  (sv_calling v = true ↔ stage_of s = Some p ∧ running s = true) ∧
  (sv_init v = false → (stage_of s = Some p ∧ launching s = true) ∨ in_table st p = false).
Proof.
  intros Hl Hu Hv Hq Hd. assert (Dead p true ∉ {[+ Hold q h s +]} ⊎ F) as Hd' by (by intros [?|?]%in_add). split.
  - rewrite (ln_calling _ _ _ _ _ Hl p v q Hv Hq Hd'). split.
    + intros (h' & s' & Hin & E1 & E2). by destruct (hold_only _ _ _ _ _ _ Hu Hin) as [-> ->].
    + intros [E1 E2]. exists h, s. split; [apply here|done].
  - intros E. destruct (ln_init _ _ _ _ _ Hl p v q Hv Hq Hd' E) as [(h' & s' & Hin & E1 & E2)|]; [|by right].
    left. by destruct (hold_only _ _ _ _ _ _ Hu Hin) as [-> ->].
Qed.

Lemma unique_add q t (F : tokens) : (∀ h s, Hold q h s ∉ F) → kind_of t ≠ KHold → ∀ h s, Hold q h s ∉ {[+ t +]} ⊎ F.
Proof. intros Hu Ht h s Hin. token_cases Hin; [by subst t|]. by apply (Hu h s). Qed.

(** A stage with the same message in hand. *)
Lemma log_stage q h s s' F G log : hand s = hand s' → log_ok ({[+ Hold q h s +]} ⊎ F) G log →
  log_ok ({[+ Hold q h s' +]} ⊎ F) G log.
Proof.
  intros E [H1 H2]. split; [|done]. intros q' v Hv. destruct (H1 q' v Hv) as (l & Hl & Heq).
  exists l. split; [|done]. destruct Hl as [[-> Hn]|(h' & s0 & m & Hin & Em & ->)].
  - left. split; [done|]. intros h' s0 Hin. token_cases Hin; [|by apply (Hn h'), there].
    rewrite <- E. apply (Hn h), here.
  - right. token_cases Hin.
    + exists h, s', m. split; [apply here|]. split; [congruence|done].
    + exists h', s0, m. split; [by apply there|done].
Qed.

Section Steps.
Context (harbor_id : Z) (remote_ok : bool).

Abbreviation inv := (inv harbor_id remote_ok).
Abbreviation inv_with := (inv_with harbor_id remote_ok).
Abbreviation mem_ok := (mem_ok harbor_id remote_ok).
Abbreviation addressable := (addressable harbor_id remote_ok).
Abbreviation named := (named harbor_id remote_ok).
Abbreviation triple p T Q := (wpt inv nominal p Q T).

(** A computation that ends where the postcondition holds. *)
Lemma step_intro {A} (m : M node A) T Q :
  (∀ F n D l G L, inv_with (T ⊎ F) n D l G L → nominal n →
     Kernel.wp m (λ x n', ∃ T', inv (T' ⊎ F) n' ∧ Q x T') n) →
  triple (atomic m) T Q.
Proof.
  intros H. apply wpt_atomic. intros F n (D & l & G & L & Hi) Hn.
  specialize (H F n D l G L Hi Hn). unfold Kernel.wp in H. by destruct (m n) as [[x n']| |].
Qed.

(** ** Handles *)

Lemma inv_hs T T' F n D l G L st :
  inv_with (T ⊎ F) n D l G L → upto [KRef; KHold] T T' →
  handles_ok (T' ⊎ F) st (N_REMOTE n) L (N_next n) →
  holds_ok (T' ⊎ F) (N_mq n) D l G →
  links_ok (T' ⊎ F) st (N_sv n) G (N_next n) →
  log_ok (T' ⊎ F) G (N_log n) →
  harbor (H st) = harbor (H (N_hs n)) → named (H st) →
  inv (T' ⊎ F) (n <| N_hs := st |>).
Proof.
  intros Hi Ho Hh Hq Hl Hlog Hb Hna. exists D, l, G, L. destruct Hi. destruct n; cbn in *.
  pose proof (upto_frame _ T T' F Ho) as HW. split; cbn; try done.
  - eapply mem_same; [|done]. same_by HW.
  - eapply files_same; [|done]. same_by HW.
  - eapply noted_same; [|done]. same_by HW.
  - destruct iv_harbor. split; congruence.
Qed.

Lemma step_hs {A} (f : hs_state → option (A * hs_state)) T Q :
  (∀ F n D l G L, inv_with (T ⊎ F) n D l G L → nominal n →
     ∃ x st T', f (N_hs n) = Some (x, st) ∧ upto [KRef] T T'
       ∧ handles_ok (T' ⊎ F) st (N_REMOTE n) L (N_next n)
       ∧ links_ok (T' ⊎ F) st (N_sv n) G (N_next n)
       ∧ harbor (H st) = harbor (H (N_hs n)) ∧ named (H st) ∧ Q x T') →
  triple (atomic (in_hs f)) T Q.
Proof.
  intros H. apply step_intro. intros F n D l G L Hi Hn.
  destruct (H F n D l G L Hi Hn) as (x & st & T' & E & Ho & Hh & Hl & Hb & Hna & HQ).
  unfold Kernel.wp, in_hs. rewrite E. exists T'. split; [|done]. pose proof Hi as Hi'. destruct Hi'.
  assert (same KHold (T ⊎ F) (T' ⊎ F)) as HW by (apply (upto_frame _ _ _ _ Ho); set_solver).
  eapply inv_hs; try done.
  - intros k Hk. apply Ho. set_solver.
  - by eapply holds_same.
  - by eapply log_same.
Qed.

(** A thread that has one of these may use context [p]. *)
Definition has (p : positive) (T : tokens) : Prop :=
  Ref p ∈ T ∨ New p ∈ T ∨ (∃ b, Dead p b ∈ T) ∨ Launch p ∈ T.

Lemma has_sub p T F : has p T → has p (T ⊎ F).
Proof.
  intros [?|[?|[[b ?]|?]]]; [left|right; left|right; right; left; exists b|right; right; right]; multiset_solver.
Qed.

Lemma has_add p t T : has p T → has p ({[+ t +]} ⊎ T).
Proof. intros Hp. rewrite (comm_L (⊎)). by apply has_sub. Qed.

Lemma has_alive p W n D l G L : inv_with W n D l G L → nominal n → has p W →
  ∃ c v, ctxs (N_hs n) !! p = Some c ∧ N_sv n !! p = Some v.
Proof.
  intros Hi Hn Hp.
  assert (is_Some (ctxs (N_hs n) !! p)) as [c Hc].
  { destruct Hp as [Hp|[Hp|[[b Hp]|Hp]]].
    - apply (ha_dom _ _ _ _ _ (iv_handles _ _ _ _ _ _ _ _ Hi)). by left.
    - apply (ha_dom _ _ _ _ _ (iv_handles _ _ _ _ _ _ _ _ Hi)). by right; left.
    - destruct (ha_dead _ _ _ _ _ (iv_handles _ _ _ _ _ _ _ _ Hi) p b Hp) as (c & ? & _). eauto.
    - apply (ln_dom _ _ _ _ _ (iv_links _ _ _ _ _ _ _ _ Hi)), (nm_launching _ Hn).
      apply elem_of_multiplicity. apply mult_in in Hp. pose proof (no_launching _ _ _ (iv_noted _ _ _ _ _ _ _ _ Hi) p). lia. }
  destruct (proj2 (ln_dom _ _ _ _ _ (iv_links _ _ _ _ _ _ _ _ Hi) p)) as [v Hv]; [eauto|].
  by exists c, v.
Qed.

(** A handle of this node. *)
Definition local (h : Z) : Prop := truth h = true ∧ is_remote harbor_id h = false.

Lemma local_handle b h : 0 ≤ b < 256 → harbor_id = b * 2 ^ 24 → 1 ≤ h - harbor_id < 2 ^ 24 → local h.
Proof.
  intros Hb Eb. rewrite Eb. intros Hh. split; [unfold truth; apply negb_true_iff, Z.eqb_neq; lia|].
  unfold is_remote. rewrite Eb.
  assert (Z.land h (u32 (Z.lnot HANDLE_MASK)) = b * 2 ^ 24) as ->; [|by rewrite Z.eqb_refl].
  change (u32 (Z.lnot HANDLE_MASK)) with (Z.shiftl 255 24).
  set (low := h - b * 2 ^ 24) in *. replace h with (low + b * 2 ^ 24) by lia.
  replace (b * 2 ^ 24) with (Z.shiftl b 24) at 2 by (rewrite Z.shiftl_mul_pow2 by lia; lia).
  apply Z.bits_inj'. intros i Hi. rewrite Z.land_spec, !Z.shiftl_spec by lia. destruct (Z.ltb_spec i 24).
  - rewrite !(Z.testbit_neg_r _ (i - 24)) by lia. apply andb_false_r.
  - replace (Z.testbit (low + b * 2 ^ 24) i) with (Z.testbit b (i - 24)).
    + change 255 with (Z.ones 8). destruct (Z.ltb_spec (i - 24) 8).
      * rewrite Z.ones_spec_low by lia. apply andb_true_r.
      * rewrite Z.ones_spec_high by lia. rewrite andb_false_r. symmetry.
        destruct (Z.eq_dec b 0) as [->|]; [apply Z.bits_0|]. apply Z.bits_above_log2; [lia|].
        apply Z.lt_le_trans with 8; [|lia]. apply Z.log2_lt_pow2; lia.
    + replace i with ((i - 24) + 24) at 2 by lia.
      rewrite <- Z.div_pow2_bits by lia. f_equal. rewrite Z.div_add by lia. rewrite Z.div_small; lia.
Qed.

Lemma handle_local W n D l G L h : inv_with W n D l G L → nominal n →
  1 ≤ h - harbor (H (N_hs n)) < handle_index (H (N_hs n)) → local h.
Proof.
  intros Hi Hn Hr. pose proof (ha_slots _ _ _ _ _ (iv_handles _ _ _ _ _ _ _ _ Hi)) as Hs.
  destruct (so_harbor _ Hs) as (b & Hb & Eb). rewrite (proj2 (iv_harbor _ _ _ _ _ _ _ _ Hi)) in *.
  apply (local_handle b); [done|done|]. pose proof (nm_handles _ Hn). pose proof (size_bounds _ Hs). lia.
Qed.

Lemma ctx_local W n D l G L p c : inv_with W n D l G L → nominal n → ctxs (N_hs n) !! p = Some c → local (ctx_handle c).
Proof.
  intros Hi Hn Hc. eapply handle_local; [done|done|].
  by apply (ha_range _ _ _ _ _ (iv_handles _ _ _ _ _ _ _ _ Hi) p).
Qed.

Lemma step_context_handle p T : has p T →
  triple (atomic (context_handle p)) T (λ h T', T' = T ∧ local h ∧
    ∀ q h' s, Hold q h' s ∈ T → stage_of s = Some p → h = h').
Proof.
  intros Hp. apply step_hs. intros F n D l G L Hi Hn.
  pose proof (has_sub p T F Hp) as Hp'. destruct (has_alive _ _ _ _ _ _ _ Hi Hn Hp') as (c & v & Hc & Hv).
  exists (ctx_handle c), (N_hs n), T. unfold skynet_context_handle, get_ctx. rewrite Hc.
  split_and!; try done; [apply Hi|apply Hi|apply Hi|by eapply ctx_local|].
  intros q h' s Hq Es. destruct (ln_stage _ _ _ _ _ (iv_links _ _ _ _ _ _ _ _ Hi) q h' s p) as (_ & Hch & _);
    [multiset_solver|done|by apply Hch].
Qed.

Lemma set_ctx_handles st p c r : ctxs st !! p = Some c →
  ∀ q, option_Forall2 (λ c c', ctx_handle c' = ctx_handle c) (ctxs st !! q)
         (ctxs (set_ctx p (Context (ctx_handle c) r) st) !! q).
Proof.
  intros Hc q. cbn. destruct (decide (q = p)) as [->|Hne].
  - rewrite lookup_insert_eq, Hc. by constructor.
  - rewrite lookup_insert_ne by done. destruct (ctxs st !! q); by constructor.
Qed.

(** A count changes and nothing else of the handles. *)
Lemma links_count W W' st sv G next p c r :
  links_ok W st sv G next → upto [KRef] W W' → ctxs st !! p = Some c →
  (∀ p, New p ∈ W' ↔ New p ∈ W) → (∀ p, Dead p true ∈ W' ↔ Dead p true ∈ W) →
  links_ok W' (set_ctx p (Context (ctx_handle c) r) st) sv G next.
Proof.
  intros Hl Hu Hc H1 H2. eapply links_handles; try done; [same_by Hu|by apply set_ctx_handles].
Qed.

Lemma step_ref_dec p : triple (atomic (ref_dec p)) {[+ Ref p +]} (λ old T', T' = after_dec p old).
Proof.
  apply step_hs. intros F n D l G L Hi Hn.
  destruct (handles_dec _ _ _ _ _ _ (iv_handles _ _ _ _ _ _ _ _ Hi)) as (c & Hc & _ & Hh).
  exists (ctx_ref c), (set_ctx p (Context (ctx_handle c) (ctx_ref c - 1)) (N_hs n)), (after_dec p (ctx_ref c)).
  unfold get_ctx. rewrite Hc.
  assert (upto [KRef] {[+ Ref p +]} (after_dec p (ctx_ref c))) as Hu.
  { unfold after_dec. case_match; [|upto]. apply (upto_trans _ _ ∅); upto. }
  split_and!; try done; [|apply Hi]. eapply links_count; [apply Hi|by apply upto_frame|done|..]; intros q;
    unfold after_dec; case_match; rewrite ?(left_id_L ∅ (⊎)), !in_add; intuition congruence.
Qed.

(** What [handle_grab] does to the parts. *)
Lemma grab_parts W n D l G L h :
  inv_with W n D l G L →
  ∃ st, skynet_handle_grab h (N_hs n) = Some (hs_find (N_hs n) h, st) ∧ H st = H (N_hs n) ∧
    match hs_find (N_hs n) h with
    | Some p => in_table (N_hs n) p = true ∧ ∃ c, ctxs (N_hs n) !! p = Some c ∧ ctx_handle c = h
        ∧ st = set_ctx p (Context h (ctx_ref c + 1)) (N_hs n)
        ∧ handles_ok ({[+ Ref p +]} ⊎ W) st (N_REMOTE n) L (N_next n)
        ∧ links_ok ({[+ Ref p +]} ⊎ W) st (N_sv n) G (N_next n)
    | None => st = N_hs n
    end.
Proof.
  intros Hi. pose proof (ha_slots _ _ _ _ _ (iv_handles _ _ _ _ _ _ _ _ Hi)) as Hs.
  destruct (grab_ok h (N_hs n) Hs) as ([H' cs] & E & _ & EH & _ & Ec). exists (HState H' cs).
  split; [done|]. split; [done|]. cbn in EH, Ec. subst H'. destruct (hs_find (N_hs n) h) as [p|] eqn:Ef.
  - apply find_live in Ef; [|done]. split; [by eapply live_in_table|].
    destruct (live_slot _ _ _ Hs Ef) as (_ & c & Hc & _ & Hh & _). exists c. split; [done|]. split; [done|].
    assert (HState (H (N_hs n)) cs = set_ctx p (Context h (ctx_ref c + 1)) (N_hs n)) as ->.
    { unfold set_ctx. f_equal. rewrite Ec. apply map_eq. intros q. destruct (decide (q = p)) as [->|Hne].
      - by rewrite lookup_alter_eq, lookup_insert_eq, Hc, <- Hh.
      - by rewrite lookup_alter_ne, lookup_insert_ne by done. }
    split; [done|]. rewrite <- Hh. split.
    + apply handles_grab; [apply Hi|done|left; by eapply live_in_table].
    + eapply links_count; [apply Hi|upto|done|..]; intros q; rewrite in_add; intuition congruence.
  - rewrite Ec. by destruct (N_hs n).
Qed.

Lemma step_grab h : triple (atomic (handle_grab h)) ∅
  (λ o T', T' = match o with Some p => {[+ Ref p +]} | None => ∅ end).
Proof.
  apply step_hs. intros F n D l G L Hi Hn. rewrite (left_id_L ∅ (⊎)) in Hi.
  destruct (grab_parts _ _ _ _ _ _ h Hi) as (st & E & EH & Hm).
  exists (hs_find (N_hs n) h), st, (match hs_find (N_hs n) h with Some p => {[+ Ref p +]} | None => ∅ end).
  rewrite E. split; [done|]. rewrite EH.
  destruct (hs_find (N_hs n) h) as [p|].
  - destruct Hm as (_ & c & _ & _ & _ & Hh & Hl). by split_and!; [upto|..|apply Hi|].
  - subst st. split_and!; [upto|..|done|apply Hi|done]; rewrite (left_id_L ∅ (⊎)); apply Hi.
Qed.

(** No launch, no callback and no message depend on this stage. *)
Definition quiet (s : stage) : Prop := running s = false ∧ launching s = false ∧ hand s = None.

(** The holder of a queue that finds the context of its handle serves it. *)
Lemma step_grab_serving q h s : quiet s → triple (atomic (handle_grab h)) {[+ Hold q h s +]} (λ o T',
  T' = match o with
       | Some p => {[+ Ref p +]} ⊎ {[+ Hold q h (Serving p) +]}
       | None => {[+ Hold q h s +]}
       end).
Proof.
  intros (Hq1 & Hq2 & Hq3). apply step_intro. intros F n D l G L Hi Hn. unfold Kernel.wp, handle_grab, in_hs.
  destruct (grab_parts _ _ _ _ _ _ h Hi) as (st & -> & EH & Hm).
  destruct (hs_find (N_hs n) h) as [p|].
  - destruct Hm as (Ht & c & Hc & Ec & Est & Hh & Hl). eexists. split; [|done].
    pose proof (holds_unique _ _ _ _ _ _ _ _ (iv_holds _ _ _ _ _ _ _ _ Hi)) as Hu.
    rewrite swap in Hl, Hh.
    assert (∀ h s, Hold q h s ∉ {[+ Ref p +]} ⊎ F) as Hu' by by apply unique_add.
    eapply inv_hs; [done|..].
    + intros k Hk. rewrite (upto_ones [KRef; KHold] (Hold q h s) (Hold q h (Serving p)) ltac:(kind_in) ltac:(kind_in) k Hk).
      symmetry. apply same_add; [set_solver|reflexivity].
    + rewrite pair_swap. eapply handles_same; [|exact Hh]. same.
    + rewrite pair_swap. apply (holds_stage q h s). eapply holds_same; [|apply Hi]. same.
    + rewrite pair_swap. eapply links_stage_only; [exact Hl|done|..].
      * intros p' v Hv Hq Hd. destruct (held_services _ _ _ _ _ _ _ _ _ _ Hl Hu' Hv Hq Hd) as [H1 H2].
        split; [rewrite H1; cbn; intuition congruence|]. intros E. destruct (H2 E) as [[_ ?]|?]; [congruence|by right].
      * intros p' [= <-]. split; [by eapply (ha_next _ _ _ _ _ (iv_handles _ _ _ _ _ _ _ _ Hi))|].
        split; [intros c' Hc'; subst st; cbn in Hc'; rewrite lookup_insert_eq in Hc'; by injection Hc' as <-|].
        intros v Hv.
        destruct (ho_handle _ _ _ _ _ (iv_holds _ _ _ _ _ _ _ _ Hi) q h s) as (w & Hw & Ew); [apply here|].
        assert (sv_queue v = Some q) as Eq.
        { eapply (ln_own _ _ _ _ _ (iv_links _ _ _ _ _ _ _ _ Hi)); [done..|congruence]. }
        split; [done|]. split; [|done]. intros _. destruct (sv_init v) eqn:Ei; [done|].
        destruct (held_services _ _ _ _ _ _ _ _ _ _ Hl Hu' Hv Eq) as [_ H2].
        { intros Hd. destruct (handles_alive _ _ _ _ _ p (Context h (ctx_ref c + 1)) true Hh) as [_ Hx];
            [subst st; apply lookup_insert_eq|right; left; apply there, here|by apply Hx, there]. }
        destruct (H2 Ei) as [[_ ?]|Hf]; [congruence|]. subst st. change (in_table (set_ctx _ _ _) p) with (in_table (N_hs n) p) in Hf. congruence.
    + rewrite <- (assoc_L (⊎)). eapply log_same; [symmetry; apply same_add; [done|reflexivity]|].
      eapply log_stage; [|apply Hi]. done.
    + by rewrite EH.
    + rewrite EH. apply Hi.
  - subst st. eexists. split; [|done]. exists D, l, G, L. by destruct n.
Qed.

(** What [retire_slot] does to the parts: no context with this handle is in the table then. *)
Lemma retire_parts W n D l G L h :
  inv_with W n D l G L →
  ∃ o st, retire_slot h (N_hs n) = Some (o, st) ∧ harbor (H st) = harbor (H (N_hs n)) ∧
    named (H st) ∧ (∀ p c, ctxs st !! p = Some c → ctx_handle c = h → in_table st p = false) ∧
    let W' := match o with Some p => {[+ Ref p +]} ⊎ W | None => W end in
    handles_ok W' st (N_REMOTE n) L (N_next n) ∧ links_ok W' st (N_sv n) G (N_next n).
Proof.
  intros Hi. pose proof (iv_handles _ _ _ _ _ _ _ _ Hi) as Hh. pose proof (ha_slots _ _ _ _ _ Hh) as Hs.
  destruct (iv_names _ _ _ _ _ _ _ _ Hi) as (ns & Hns & Hadd). destruct (hs_find (N_hs n) h) as [p|] eqn:Ef.
  - pose proof Ef as Hl. apply find_live in Hl; [|done].
    destruct (retire_slot_live h (N_hs n) ns p Hs Hns Hl)
      as (st & E & Hs' & Ec & Hno & Hlive & Hns' & _ & Eidx & Ehb & _).
    assert (∀ x, in_table st x = true ↔ x ≠ p ∧ in_table (N_hs n) x = true) as Ht.
    { intros x. split.
      - intros Hx. destruct (in_table_live st x Hs' Hx) as (c & Hc & Hlx). apply Hlive in Hlx as [Hne Hlx].
        split; [|by eapply live_in_table]. intros ->. apply in_table_get in Hx as [i Hx]. by apply (Hno i).
      - intros [Hne Hx]. destruct (in_table_live _ x Hs Hx) as (c & Hc & Hlx).
        eapply live_in_table, Hlive. split; [|exact Hlx]. intros Eh. apply Hne.
        destruct Hl as (i & d & _ & Hd & Ed). eapply (ha_inj _ _ _ _ _ Hh); [done..|congruence]. }
    exists (Some p), st. split; [done|]. split; [done|]. split.
    { eexists. split; [done|]. intros nm x [_ Hin]%list_elem_of_filter. by eapply Hadd. }
    split.
    { intros x c Hx Eh. rewrite Ec in Hx. destruct (in_table st x) eqn:Ex; [|done].
      destruct (proj1 (Ht x) Ex) as [Hne _]. destruct Hne.
      destruct Hl as (i & d & _ & Hd & Ed). eapply (ha_inj _ _ _ _ _ Hh); [done..|congruence]. }
    split.
    + eapply handles_retire; [done|by eapply live_in_table|done..].
    + eapply links_handles; [apply Hi|..]; [same|intros x; rewrite in_add; intuition congruence..| | |done|lia].
      * intros x. rewrite Ec. destruct (ctxs (N_hs n) !! x); by constructor.
      * intros x Hx. by apply Ht.
  - exists None, (N_hs n). rewrite retire_slot_dead by done. split; [done|]. split; [done|]. split; [apply Hi|]. split; [|by split; apply Hi].
    intros p c Hc Eh. destruct (in_table (N_hs n) p) eqn:Et; [|done].
    destruct (in_table_live _ p Hs Et) as (d & Hd & Hl). assert (d = c) as -> by congruence.
    rewrite Eh in Hl. apply find_live in Hl; [congruence|done].
Qed.

Lemma step_retire h : triple (atomic (in_hs (retire_slot h))) ∅
  (λ o T', T' = match o with Some p => {[+ Ref p +]} | None => ∅ end).
Proof.
  apply step_hs. intros F n D l G L Hi Hn. rewrite (left_id_L ∅ (⊎)) in Hi.
  destruct (retire_parts _ _ _ _ _ _ h Hi) as (o & st & E & Hb & Hna & _ & Hh & Hl).
  exists o, st, (match o with Some p => {[+ Ref p +]} | None => ∅ end). split; [done|].
  destruct o as [p|]; split_and!; try done; [upto|by rewrite (left_id_L ∅ (⊎))..].
Qed.

(** A launcher that gives up: the queue has no context that may still be started. *)
Lemma step_retire_failed q h p : triple (atomic (in_hs (retire_slot h))) {[+ Hold q h (Fresh p) +]}
  (λ o T', T' = match o with Some x => {[+ Ref x +]} | None => ∅ end ⊎ {[+ Hold q h Idle +]}).
Proof.
  apply step_intro. intros F n D l G L Hi Hn. unfold Kernel.wp, in_hs.
  destruct (retire_parts _ _ _ _ _ _ h Hi) as (o & st & -> & Hb & Hna & Ht & Hh & Hl).
  pose proof (holds_unique _ _ _ _ _ _ _ _ (iv_holds _ _ _ _ _ _ _ _ Hi)) as Hu.
  set (X := match o with Some x => {[+ Ref x +]} | None => ∅ end : tokens).
  assert (∀ h s, Hold q h s ∉ X ⊎ F) as Hu'.
  { unfold X. destruct o; [by apply unique_add|]. by rewrite (left_id_L ∅ (⊎)). }
  assert (∀ s, match o with Some x => {[+ Ref x +]} ⊎ ({[+ Hold q h s +]} ⊎ F) | None => {[+ Hold q h s +]} ⊎ F end
    = {[+ Hold q h s +]} ⊎ (X ⊎ F)) as EX.
  { intros s. unfold X. destruct o; [by rewrite swap|]. by rewrite (left_id_L ∅ (⊎)). }
  assert (∀ s, (X ⊎ {[+ Hold q h s +]}) ⊎ F = {[+ Hold q h s +]} ⊎ (X ⊎ F)) as EX' by multiset_solver.
  cbv zeta in Hh, Hl. rewrite (EX (Fresh p)) in Hh, Hl. eexists. split; [|reflexivity].
  eapply inv_hs; [done|..]; rewrite ?EX'; [| | | | |done|done].
  - apply (upto_trans _ _ {[+ Hold q h Idle +]}); [upto|].
    unfold X. destruct o; [upto|]. rewrite (left_id_L ∅ (⊎)). upto.
  - eapply handles_same; [|exact Hh]. same.
  - apply (holds_stage q h (Fresh p)). eapply holds_same; [|apply Hi].
    apply same_union; [reflexivity|]. unfold X. destruct o; [same|]. by rewrite (left_id_L ∅ (⊎)).
  - eapply links_stage_only; [exact Hl|done|..|done].
    intros x v Hv Hq Hd. destruct (held_services _ _ _ _ _ _ _ _ _ _ Hl Hu' Hv Hq Hd) as [H1 H2].
    split; [rewrite H1; cbn; intuition congruence|]. intros E. right.
    destruct (ln_queue _ _ _ _ _ Hl x v q Hv Hq) as (w & c & Hw & Hc & Ec & _); [by intros [?|?]%in_add|]. apply (Ht x c Hc).
    destruct (ho_handle _ _ _ _ _ (iv_holds _ _ _ _ _ _ _ _ Hi) q h (Fresh p)) as (w' & Hw' & <-); [apply here|].
    congruence.
  - apply (log_stage q h (Fresh p)); [done|]. eapply log_same; [|apply Hi].
    apply same_union; [reflexivity|]. unfold X. destruct o; [same|]. by rewrite (left_id_L ∅ (⊎)).
Qed.

(** Steps on the handles that only read. *)
Lemma step_hs_read {A} (f : hs_state → option (A * hs_state)) T :
  (∀ W n D l G L, inv_with W n D l G L → nominal n → ∃ x, f (N_hs n) = Some (x, N_hs n)) →
  triple (atomic (in_hs f)) T (λ _ T', T' = T).
Proof.
  intros H. apply step_hs. intros F n D l G L Hi Hn. destruct (H _ _ _ _ _ _ Hi Hn) as [x E].
  exists x, (N_hs n), T. by split_and!; try done; apply Hi.
Qed.

Lemma step_slot_handle i T : 0 ≤ i → triple (atomic (slot_handle i)) T (λ _ T', T' = T).
Proof.
  intros H0. apply step_hs_read. intros W n D l G L Hi Hn.
  pose proof (ha_slots _ _ _ _ _ (iv_handles _ _ _ _ _ _ _ _ Hi)) as Hs.
  destruct (Z.ltb_spec i (slot_size (H (N_hs n)))) as [Hlt|]; [|eauto].
  destruct (arr_get_is_Some (slot (H (N_hs n))) i) as [o E]; [rewrite (so_len _ Hs); lia|].
  rewrite E. destruct o as [p|]; [|eauto].
  destruct (so_slot _ Hs i p E) as (c & low & Hc & _).
  unfold skynet_context_handle, get_ctx. rewrite Hc. eauto.
Qed.

Lemma step_findname nm T : triple (atomic (findname nm)) T (λ h T', T' = T ∧ addressable h).
Proof.
  apply step_hs. intros F n D l G L Hi Hn. destruct (iv_names _ _ _ _ _ _ _ _ Hi) as (ns & Hns & Hadd).
  destruct (names_ok nm 0 (N_hs n) ns Hns) as [E _]; [rewrite (nr_count _ _ Hns); apply Hn|].
  eexists _, (N_hs n), T. rewrite E. split_and!; try done; [apply Hi..|].
  destruct (names_map ns !! nm) as [h|] eqn:Em; cbn.
  - eapply Hadd. by apply (names_map_Some _ _ _ _ Hns).
  - right. unfold is_remote. cbn. by rewrite andb_false_r.
Qed.

(** The slots are the same. *)
Lemma handles_names W st st' remote L next ns :
  handles_ok W st remote L next → ctxs st' = ctxs st → same_slots (H st) (H st') → names_repr (H st') ns →
  handles_ok W st' remote L next.
Proof.
  intros [Hs Hn Hr Hd Hx H1 Hss Hz Hnx Hra Hi] Ec (E1 & E2 & E3 & E4) Hns.
  assert (∀ p, in_table st' p = in_table st p) as Et by (intros p; unfold in_table; by rewrite E4).
  split; rewrite ?Ec, ?E1, ?E2; try done; [|by exists ns|by setoid_rewrite Et].
  destruct Hs as [F1 F2 F3 F4 F5]. split; rewrite ?Ec, ?E1, ?E2, ?E3, ?E4; done.
Qed.

Lemma step_namehandle h nm T : addressable h →
  triple (atomic (in_hs (skynet_handle_namehandle h nm))) T (λ _ T', T' = T).
Proof.
  intros Hh. apply step_hs. intros F n D l G L Hi Hn.
  destruct (iv_names _ _ _ _ _ _ _ _ Hi) as (ns & Hns & Hadd).
  destruct (names_ok nm h (N_hs n) ns Hns) as (_ & r & st & ns' & E & Hns' & Ec & Hss & Hm).
  { rewrite (nr_count _ _ Hns). apply Hn. }
  pose proof Hss as (E1 & E2 & E3 & E4). exists r, st, T. split_and!; try done.
  - eapply handles_names; [apply Hi|done..].
  - eapply links_handles; [apply Hi|done..| | |done|lia].
    + intros p. rewrite Ec. destruct (ctxs (N_hs n) !! p); by constructor.
    + intros p. unfold in_table. by rewrite E4.
  - destruct (names_map ns !! nm) as [x|] eqn:Em; destruct Hm as [-> Hm]; [rewrite Hm; apply Hi|].
    exists ns'. split; [done|]. intros nm' x Hin. apply (names_map_Some _ _ _ _ Hns') in Hin. rewrite Hm in Hin.
    destruct (decide (nm' = nm)) as [->|Hne].
    + rewrite lookup_insert_eq in Hin. by injection Hin as <-.
    + rewrite lookup_insert_ne in Hin by done. apply (names_map_Some _ _ _ _ Hns) in Hin. by eapply Hadd.
Qed.

Lemma step_context_grab p T : Ref p ∈ T →
  triple (atomic (in_hs (void (skynet_context_grab p)))) T (λ _ T', T' = {[+ Ref p +]} ⊎ T).
Proof.
  intros Hp. apply step_hs. intros F n D l G L Hi Hn.
  assert (Ref p ∈ T ⊎ F) as Hp' by multiset_solver.
  destruct (has_alive p _ _ _ _ _ _ Hi Hn) as (c & v & Hc & Hv); [by left|].
  exists tt, (set_ctx p (Context (ctx_handle c) (ctx_ref c + 1)) (N_hs n)), ({[+ Ref p +]} ⊎ T).
  unfold void, skynet_context_grab, get_ctx. rewrite Hc. split_and!; try done; [upto|..|apply Hi].
  - rewrite <- (assoc_L (⊎)). apply handles_grab; [apply Hi|done|by right].
  - rewrite <- (assoc_L (⊎)). eapply links_count; [apply Hi|upto|done|..]; intros x; rewrite in_add; intuition congruence.
Qed.

(** ** The fields of the contexts *)

(** A step that leaves the state as it is. *)
Lemma step_same {A} (m : M node A) T Q :
  (∀ F n D l G L, inv_with (T ⊎ F) n D l G L → nominal n → Kernel.wp m (λ x n', n' = n ∧ Q x) n) →
  triple (atomic m) T (λ x T', T' = T ∧ Q x).
Proof.
  intros H. apply step_intro. intros F n D l G L Hi Hn. eapply Kernel.wp_mono; [by apply (H F n D l G L)|].
  intros x n' [-> HQ]. exists T. split; [|done]. by exists D, l, G, L.
Qed.

Lemma step_read {A} (f : node → A) T : triple (atomic (read f)) T (λ _ T', T' = T).
Proof. eapply wpt_mono; [apply (step_same _ T (λ _, True)); by intros|]. by intros x T' [-> _]. Qed.

(** A service that a thread may use. *)
Lemma step_has {A} (p : positive) T Q (m : M node A) :
  has p T →
  (∀ F n D l G L c v, inv_with (T ⊎ F) n D l G L → nominal n → ctxs (N_hs n) !! p = Some c → N_sv n !! p = Some v →
     Kernel.wp m (λ x n', ∃ T', inv (T' ⊎ F) n' ∧ Q x T') n) →
  triple (atomic m) T Q.
Proof.
  intros Hp H. apply step_intro. intros F n D l G L Hi Hn.
  destruct (has_alive _ _ _ _ _ _ _ Hi Hn (has_sub p T F Hp)) as (c & v & Hc & Hv). by eapply H.
Qed.

Lemma step_get_sv p T : has p T → triple (atomic (get_sv p)) T (λ _ T', T' = T).
Proof.
  intros Hp. eapply step_has; [done|]. intros F n D l G L c v Hi Hn Hc Hv.
  unfold Kernel.wp, get_sv. rewrite Hv. exists T. split; [|done]. by exists D, l, G, L.
Qed.

Lemma inv_sv_log T T' F n D l G L sv log :
  inv_with (T ⊎ F) n D l G L → upto [KHold; KFile] T T' →
  holds_ok (T' ⊎ F) (N_mq n) D l G → links_ok (T' ⊎ F) (N_hs n) sv G (N_next n) →
  log_ok (T' ⊎ F) G log → files_ok (T' ⊎ F) sv (N_files n) (N_file_next n) →
  inv (T' ⊎ F) (n <| N_sv := sv |> <| N_log := log |>).
Proof.
  intros Hi Ho Hh Hl Hlog Hf. exists D, l, G, L. destruct Hi. destruct n; cbn in *.
  pose proof (upto_frame _ T T' F Ho) as HW. split; cbn; try done.
  - eapply handles_same; [|done]. same_by HW.
  - eapply mem_same; [|done]. same_by HW.
  - eapply noted_same; [|done]. same_by HW.
Qed.

Lemma inv_sv T T' F n D l G L sv :
  inv_with (T ⊎ F) n D l G L → upto [KHold; KFile] T T' →
  holds_ok (T' ⊎ F) (N_mq n) D l G → links_ok (T' ⊎ F) (N_hs n) sv G (N_next n) →
  log_ok (T' ⊎ F) G (N_log n) → files_ok (T' ⊎ F) sv (N_files n) (N_file_next n) →
  inv (T' ⊎ F) (n <| N_sv := sv |>).
Proof.
  intros Hi Ho Hh Hl Hlog Hf. pose proof (inv_sv_log T T' F n D l G L sv (N_log n) Hi Ho Hh Hl Hlog Hf) as H.
  by destruct n.
Qed.

(** A change to fields that the invariant does not look at. *)
Definition harmless (v v' : service) : Prop :=
  sv_queue v' = sv_queue v ∧ sv_init v' = sv_init v ∧ sv_calling v' = sv_calling v
  ∧ (sv_cb v ≠ None → sv_cb v' ≠ None) ∧ sv_logfile v' = sv_logfile v.

Lemma inv_harmless W n D l G L p v v' : inv_with W n D l G L → N_sv n !! p = Some v → harmless v v' →
  inv W (n <| N_sv := <[p := v']> (N_sv n) |>).
Proof.
  intros Hi Hv (E1 & E2 & E3 & E4 & E5). rewrite <- (left_id_L ∅ (⊎) W) in *. pose proof Hi as Hi'. destruct Hi'.
  eapply inv_sv; try done; [by eapply links_fields|by eapply files_update].
Qed.

Lemma step_fields {A} (m : M node A) p T (Q : A → Prop) : has p T →
  (∀ n v, N_sv n !! p = Some v → ∃ x v', m n = Ok (x, n <| N_sv := <[p := v']> (N_sv n) |>) ∧ harmless v v' ∧ Q x) →
  triple (atomic m) T (λ x T', T' = T ∧ Q x).
Proof.
  intros Hp Hm. eapply step_has; [done|]. intros F n D l G L c v Hi Hn Hc Hv.
  destruct (Hm n v Hv) as (x & v' & E & Hf & HQ). unfold Kernel.wp. rewrite E. exists T. split; [|done].
  by eapply inv_harmless.
Qed.

Lemma step_update p f T : has p T → (∀ v, harmless v (f v)) → triple (atomic (update_sv p f)) T (λ _ T', T' = T).
Proof.
  intros Hp Hf. eapply wpt_mono; [apply (step_fields _ p T (λ _, True) Hp)|by intros ? ? [-> _]].
  intros n v Hv. exists tt, (f v). unfold update_sv, bind, get_sv. rewrite Hv. by split.
Qed.

Lemma step_newsession p T : has p T → triple (atomic (skynet_context_newsession p)) T (λ _ T', T' = T).
Proof.
  intros Hp. eapply wpt_mono; [apply (step_fields _ p T (λ _, True) Hp)|by intros ? ? [-> _]].
  intros n v Hv. unfold skynet_context_newsession, bind, get_sv, set_sv. rewrite Hv.
  case_match; eexists _, _; (split; [done|]); split; done.
Qed.

(** ** Stages *)

(** The holder of [p]'s queue goes on to stage [s'] and changes [p]'s fields accordingly. *)
Record advance (p : positive) (s s' : stage) (v v' : service) : Prop := {
  ad_stage : stage_of s' = Some p ∨ (s' = Idle ∧ sv_init v' = true);
  ad_queue : sv_queue v' = sv_queue v;
  ad_init : sv_init v = true → sv_init v' = true;
  ad_inited : sv_init v' = true ∨ launching s' = true;
  ad_once : inited s' = true → sv_init v' = true;
  ad_cb : sv_cb v ≠ None → sv_cb v' ≠ None;
  ad_callable : callable s' = true → sv_cb v' ≠ None;
  ad_logfile : sv_logfile v' = sv_logfile v
}.

Lemma stage_parts q h s s' F n D l G L p v v' :
  inv_with ({[+ Hold q h s +]} ⊎ F) n D l G L → N_sv n !! p = Some v → stage_of s = Some p →
  advance p s s' v v' → (Dead p true ∉ F → sv_calling v' = running s') →
  let W := {[+ Hold q h s' +]} ⊎ F in let sv := <[p := v']> (N_sv n) in
  holds_ok W (N_mq n) D l G ∧ links_ok W (N_hs n) sv G (N_next n) ∧ files_ok W sv (N_files n) (N_file_next n).
Proof.
  intros Hi Hv Es [A1 A3 A4 A5 A6 A7 A8 A10] A9. destruct Hi.
  pose proof (holds_unique _ _ _ _ _ _ _ _ iv_holds) as Hu.
  destruct (ln_stage _ _ _ _ _ iv_links q h s p (here _ _) Es) as (Hlt & Hch & Hs).
  destruct (Hs v Hv) as (Eq & _).
  cbv zeta. split; [by eapply holds_stage|]. split.
  - eapply links_stage; [done|done|..].
    + intros p'. destruct (decide (p' = p)) as [->|Hne].
      * rewrite lookup_insert_eq, Hv. by split; eauto.
      * by rewrite lookup_insert_ne.
    + intros p' w w' Hw Hw'. destruct (decide (p' = p)) as [->|Hne].
      * rewrite lookup_insert_eq in Hw'. injection Hw' as <-. assert (w = v) as -> by congruence.
        split_and!; try done. intros _ Hd. rewrite A9 by done. destruct A1 as [->|[-> E1]].
        -- split; [tauto|]. intros E. left. destruct A5 as [A5|A5]; [congruence|done].
        -- split; [cbn; intuition congruence|congruence].
      * rewrite lookup_insert_ne in Hw' by done. assert (w' = w) as -> by congruence.
        split_and!; try done. intros E Hd. destruct Hne.
        destruct (ln_queue _ _ _ _ _ iv_links p' w q Hw E) as (g & c & Hg & Hc & Eh & _); [by intros [?|?]%in_add|].
        destruct (proj1 (ln_dom _ _ _ _ _ iv_links p)) as [c' Hc']; [by exists v|].
        destruct (ho_handle _ _ _ _ _ iv_holds q h s (here _ _)) as (g' & Hg' & Eh').
        eapply (ha_inj _ _ _ _ _ iv_handles); [done..|]. rewrite (Hch c' Hc'). congruence.
    + intros p' E'. destruct A1 as [A1|[-> _]]; [|done]. assert (p' = p) as -> by congruence.
      split; [done|]. split; [done|]. intros w Hw. rewrite lookup_insert_eq in Hw. injection Hw as <-. by rewrite A3.
  - eapply files_update; [|done|done]. eapply files_same; [|done]. same.
Qed.

Lemma inv_stage q h s s' F n D l G L p v v' :
  inv_with ({[+ Hold q h s +]} ⊎ F) n D l G L → N_sv n !! p = Some v → stage_of s = Some p →
  advance p s s' v v' → (Dead p true ∉ F → sv_calling v' = running s') → hand s = hand s' →
  inv ({[+ Hold q h s' +]} ⊎ F) (n <| N_sv := <[p := v']> (N_sv n) |>).
Proof.
  intros Hi Hv Es Ha Hca Eh. destruct (stage_parts _ _ _ _ _ _ _ _ _ _ _ _ _ Hi Hv Es Ha Hca) as (H1 & H2 & H3).
  eapply inv_sv; [done|upto|done|done| |done]. eapply log_stage; [done|]. apply Hi.
Qed.

(** Tokens of a thread that holds the queue of [p] and refers to it. *)
Abbreviation serving p q h s := ({[+ Ref p +]} ⊎ {[+ Hold q h s +]} : tokens).

(** Whoever holds the queue of [p] knows its fields. *)
Lemma stage_fields q h s F n D l G L p v :
  inv_with ({[+ Hold q h s +]} ⊎ F) n D l G L → N_sv n !! p = Some v → stage_of s = Some p → Ref p ∈ F →
  sv_queue v = Some q ∧ sv_calling v = running s ∧ (inited s = true → sv_init v = true)
  ∧ (callable s = true → sv_cb v ≠ None).
Proof.
  intros Hi Hv Es Hp. pose proof (holds_unique _ _ _ _ _ _ _ _ (iv_holds _ _ _ _ _ _ _ _ Hi)) as Hu.
  destruct (ln_stage _ _ _ _ _ (iv_links _ _ _ _ _ _ _ _ Hi) q h s p (here _ _) Es) as (_ & _ & Hs).
  destruct (Hs v Hv) as (Eq & E1 & E2). split_and!; try done.
  destruct (held_services _ _ _ _ _ _ _ _ _ _ (iv_links _ _ _ _ _ _ _ _ Hi) Hu Hv Eq) as [Hc _].
  { destruct (proj1 (ln_dom _ _ _ _ _ (iv_links _ _ _ _ _ _ _ _ Hi) p)) as [c Hc]; [by exists v|].
    intros Hd. eapply (handles_alive _ _ _ _ _ p c true (iv_handles _ _ _ _ _ _ _ _ Hi)); [done| |by apply there].
    right; left. by apply there. }
  apply eq_true_iff_eq. rewrite Hc. intuition.
Qed.

Lemma step_serving {A} (m : M node A) p q h s T' Q : stage_of s = Some p →
  (∀ F n D l G L c v, inv_with ({[+ Hold q h s +]} ⊎ ({[+ Ref p +]} ⊎ F)) n D l G L → nominal n →
     ctxs (N_hs n) !! p = Some c → N_sv n !! p = Some v → sv_queue v = Some q → sv_calling v = running s →
     (inited s = true → sv_init v = true) → (callable s = true → sv_cb v ≠ None) →
     Kernel.wp m (λ x n', Q x ∧ inv (T' x ⊎ F) n') n) →
  triple (atomic m) (serving p q h s) (λ x T, T = T' x ∧ Q x).
Proof.
  intros Es H. apply (step_has p); [left; multiset_solver|]. intros F n D l G L c v Hi Hn Hc Hv. rewrite pair_swap in Hi.
  destruct (stage_fields _ _ _ _ _ _ _ _ _ _ _ Hi Hv Es (here _ _)) as (E1 & E2 & E3 & E4).
  eapply Kernel.wp_mono; [by eapply H|]. intros x n' [HQ Hi']. by exists (T' x).
Qed.

Lemma step_look p q h m : triple (atomic (get_sv p)) (serving p q h (Taken p m)) (λ v T,
  T = match sv_cb v with Some _ => serving p q h (Ready p m) | None => serving p q h (Taken p m) end ∧ sv_init v = true).
Proof.
  apply step_serving; [done|]. intros F n D l G L c v Hi Hn Hc Hv Eq Ec Ei _.
  unfold Kernel.wp, get_sv. rewrite Hv. split; [by apply Ei|].
  destruct (sv_cb v) as [cb|] eqn:Ecb; rewrite pair_swap; [|by exists D, l, G, L].
  assert (n = n <| N_sv := <[p := v]> (N_sv n) |>) as -> by (rewrite insert_id by done; by destruct n).
  eapply inv_stage; [done|done|done| |by rewrite Ec|done]. split; try done; [by left|..]; auto; congruence.
Qed.

Lemma step_advance (m : M node unit) p q h s s' : stage_of s = Some p → hand s = hand s' →
  (∀ n v, N_sv n !! p = Some v → sv_calling v = running s → (inited s = true → sv_init v = true) →
     (callable s = true → sv_cb v ≠ None) →
     ∃ v', m n = Ok (tt, n <| N_sv := <[p := v']> (N_sv n) |>) ∧ advance p s s' v v' ∧ sv_calling v' = running s') →
  triple (atomic m) (serving p q h s) (λ _ T, T = serving p q h s').
Proof.
  intros Es Eh H. eapply wpt_mono; [apply (step_serving m p q h s (λ _, serving p q h s') (λ _, True) Es)|by intros ? ? [-> _]].
  intros F n D l G L c v Hi Hn Hc Hv Eq Ec Ei Ecb. destruct (H n v Hv Ec Ei Ecb) as (v' & E & Ha & Hca).
  unfold Kernel.wp. rewrite E. split; [done|]. rewrite pair_swap. by eapply inv_stage.
Qed.

Lemma step_calling_begin p q h s s' :
  (∃ m, s = Ready p m ∧ s' = Begun p m) ∨ (s = Fresh p ∧ s' = Starting p) →
  triple (atomic (calling_begin p)) (serving p q h s) (λ _ T, T = serving p q h s').
Proof.
  intros Hs. apply step_advance; [by destruct Hs as [(? & -> & _)|[-> _]]|by destruct Hs as [(? & -> & ->)|[-> ->]]|].
  intros n v Hv Ec Ei Ecb. assert (running s = false) as Er by (by destruct Hs as [(? & -> & _)|[-> _]]).
  rewrite Er in Ec. exists (v <| sv_calling := true |>). split.
  - unfold calling_begin, bind, get_sv. by rewrite Hv, Ec.
  - destruct Hs as [(m & -> & ->)|[-> ->]]; (split; [split; cbn; auto|done]).
Qed.

Lemma step_calling_end p q h s s' :
  (s = Calling p ∧ s' = Serving p) ∨ (s = Starting p ∧ s' = Fresh p) →
  triple (atomic (calling_end p)) (serving p q h s) (λ _ T, T = serving p q h s').
Proof.
  intros Hs. apply step_advance; [by destruct Hs as [[-> _]|[-> _]]|by destruct Hs as [[-> ->]|[-> ->]]|].
  intros n v Hv Ec Ei Ecb. exists (v <| sv_calling := false |>). split.
  - unfold calling_end, update_sv, bind, get_sv. by rewrite Hv.
  - destruct Hs as [[-> ->]|[-> ->]]; (split; [split; cbn; auto|done]).
Qed.

(** The assertion on [init] in [dispatch_message]. *)
Lemma step_init p q h m :
  triple (atomic (v ⟵ get_sv p; require (sv_init v))) (serving p q h (Ready p m)) (λ _ T, T = serving p q h (Ready p m)).
Proof.
  eapply wpt_mono; [apply (step_serving _ p q h _ (λ _, serving p q h (Ready p m)) (λ _, True)); [done|]|by intros ? ? [-> _]].
  intros F n D l G L c v Hi Hn Hc Hv Eq Ec Ei Ecb.
  unfold Kernel.wp, bind, get_sv. rewrite Hv, Ei by done. split; [done|]. rewrite pair_swap. by exists D, l, G, L.
Qed.

(** ** Events *)

(** The message in hand is handled. *)
Lemma log_handled q h s s' m e F mq D l G log :
  holds_ok ({[+ Hold q h s +]} ⊎ F) mq D l G →
  (∀ q1 q2 w1 w2, G !! q1 = Some w1 → G !! q2 = Some w2 → qv_handle w1 = qv_handle w2 → q1 = q2) →
  hand s = Some m → hand s' = None → e = Called h m ∨ e = Discarded h m →
  log_ok ({[+ Hold q h s +]} ⊎ F) G log → log_ok ({[+ Hold q h s' +]} ⊎ F) G (log ++ [e]).
Proof.
  intros Hh Hinj Em Em' He Hl. pose proof (holds_unique _ _ _ _ _ _ _ _ Hh) as Hu.
  destruct (ho_handle _ _ _ _ _ Hh q h s (here _ _)) as (v & Hv & Eh).
  rewrite <- (insert_id G q v Hv). eapply log_queue; [exact Hl|done|done|exact Hinj|..].
  - intros q' l' Hne. apply in_hand_iff. intros h' s0 m' _. rewrite !in_add. intuition congruence.
  - intros h' Hne. destruct He as [-> | ->]; cbn; rewrite (proj2 (Z.eqb_neq h h')) by congruence; done.
  - intros l' Hl' Heq. exists []. split.
    + left. split; [done|]. intros h' s0 Hin. by destruct (hold_only _ _ _ _ _ _ Hu Hin) as [-> ->].
    + assert (l' = [m]) as ->.
      { destruct Hl' as [[_ Hn]|(h' & s0 & m' & Hin & Em0 & ->)].
        - rewrite (Hn h s) in Em by apply here. done.
        - destruct (hold_only _ _ _ _ _ _ Hu Hin) as [-> ->]. congruence. }
      rewrite sent_app, handled_app, Heq, Eh.
      destruct He as [-> | ->]; cbn; rewrite Z.eqb_refl, app_nil_r; by rewrite <- app_assoc.
Qed.

(** Two queues have different handles. *)
Lemma queues_inj W n D l G L q1 q2 w1 w2 : inv_with W n D l G L →
  G !! q1 = Some w1 → G !! q2 = Some w2 → qv_handle w1 = qv_handle w2 → q1 = q2.
Proof. intros Hi. apply (ln_inj _ _ _ _ _ (iv_links _ _ _ _ _ _ _ _ Hi)). Qed.

Lemma inv_handled q h s s' m e F n D l G L p v v' :
  inv_with ({[+ Hold q h s +]} ⊎ F) n D l G L → N_sv n !! p = Some v → stage_of s = Some p →
  advance p s s' v v' → (Dead p true ∉ F → sv_calling v' = running s') → hand s = Some m → hand s' = None → e = Called h m ∨ e = Discarded h m →
  inv ({[+ Hold q h s' +]} ⊎ F) (n <| N_sv := <[p := v']> (N_sv n) |> <| N_log := N_log n ++ [e] |>).
Proof.
  intros Hi Hv Es Ha Hca Eh Eh' He. destruct (stage_parts _ _ _ _ _ _ _ _ _ _ _ _ _ Hi Hv Es Ha Hca) as (H1 & H2 & H3).
  eapply inv_sv_log; [done|upto|done|done| |done].
  eapply log_handled; [apply Hi| |done..|apply Hi]. intros *. by eapply queues_inj.
Qed.

Lemma step_count p q h m : triple (atomic (count_message p m)) (serving p q h (Begun p m))
  (λ v T, T = serving p q h (Calling p) ∧ sv_cb v ≠ None).
Proof.
  apply (step_serving _ p q h _ (λ _, serving p q h (Calling p))); [done|].
  intros F n D l G L c v Hi Hn Hc Hv Eq Ec Ei Ecb.
  assert (ctx_handle c = h) as Eh.
  { destruct (ln_stage _ _ _ _ _ (iv_links _ _ _ _ _ _ _ _ Hi) q h (Begun p m) p (here _ _) eq_refl) as (_ & Hch & _).
    by apply Hch. }
  set (v' := v <| sv_message_count := s32 (sv_message_count v + 1) |>).
  assert (count_message p m n = Ok (v, n <| N_sv := <[p := v']> (N_sv n) |> <| N_log := N_log n ++ [Called h m] |>)) as E.
  { destruct n; cbn in Hv, Hc. unfold count_message, bind, get_sv, set_sv, context_handle, in_hs, record, ret. cbn.
    rewrite Hv. unfold skynet_context_handle, get_ctx. cbn. rewrite Hc. cbn. by rewrite Eh. }
  unfold Kernel.wp. rewrite E. split; [by apply Ecb|]. rewrite pair_swap.
  eapply inv_handled; [done|done|done| |intros _; exact Ec|done|done|by left]. split; cbn; auto.
Qed.

(** ** Message data *)

Lemma inv_mem T T' F n D l G L mem brk :
  inv_with (T ⊎ F) n D l G L → upto [KBlock] T T' → mem_ok (T' ⊎ F) G mem brk →
  inv (T' ⊎ F) (n <| N_mem := mem |> <| N_brk := brk |>).
Proof.
  intros Hi Ho Hm. exists D, l, G, L. destruct Hi. destruct n; cbn in *.
  pose proof (upto_frame _ T T' F Ho) as HW. split; cbn; try done.
  - eapply handles_same; [|done]. same_by HW.
  - eapply holds_same; [|done]. same_by HW.
  - eapply links_same; [| |done]; same_by HW.
  - eapply log_same; [|done]. same_by HW.
  - eapply files_same; [|done]. same_by HW.
  - eapply noted_same; [|done]. same_by HW.
Qed.

Lemma owns_upto d sz x : owns d sz x → upto [KBlock] x ∅.
Proof. induction 1; [apply upto_refl|]. by apply upto_add; [kind_in|]. Qed.

(** Data given up. *)
Lemma mem_leak x F G mem brk : mem_ok (x ⊎ F) G mem brk → mem_ok F G mem brk.
Proof.
  intros Hm. eapply mem_move; [done| |apply Hm]. intros t _. rewrite !multiplicity_disj_union. lia.
Qed.

Lemma step_malloc B : triple (atomic (skynet_malloc B)) ∅ (λ d T, ∃ b, d = Z.pos b ∧
  T = {[+ Block b (block_size B) (inner B).1 (inner B).2 +]}).
Proof.
  apply step_intro. intros F n D l G L Hi Hn. rewrite (left_id_L ∅ (⊎)) in Hi.
  assert (skynet_malloc B n = Ok (Z.pos (N_brk n), n <| N_mem := <[N_brk n := B]> (N_mem n) |> <| N_brk := Pos.succ (N_brk n) |>)) as E by done.
  unfold Kernel.wp. rewrite E. eexists. split; [|by eexists].
  eapply (inv_mem ∅); [by rewrite (left_id_L ∅ (⊎))|upto|].
  apply mem_malloc; [apply Hi|done|]. by destruct (inner B).
Qed.

(** The run of [skynet_free] on data that the thread owns. *)
Lemma free_run d sz x F n D l G L : inv_with (x ⊎ F) n D l G L → owns d sz x →
  ∃ mem, skynet_free d n = Ok (tt, n <| N_mem := mem |>) ∧ mem_ok F G mem (N_brk n).
Proof.
  intros Hi Ho. pose proof (iv_mem _ _ _ _ _ _ _ _ Hi) as Hm.
  destruct Ho as [sz|b m i k sz T Hsz Ho].
  - exists (N_mem n). split; [by destruct n|]. by rewrite (left_id_L ∅ (⊎)) in Hm.
  - rewrite <- (assoc_L (⊎)) in Hm. destruct (mem_free _ _ _ _ _ _ _ _ _ _ Hm) as [(B & HB & _) Hm'].
    exists (delete b (N_mem n)). unfold skynet_free. rewrite HB. split; [done|]. by eapply mem_leak.
Qed.

Lemma step_free d sz x : owns d sz x → triple (atomic (skynet_free d)) x (λ _ T, T = ∅).
Proof.
  intros Ho. apply step_intro. intros F n D l G L Hi Hn.
  destruct (free_run _ _ _ _ _ _ _ _ _ Hi Ho) as (mem & E & Hm). unfold Kernel.wp. rewrite E.
  exists ∅. split; [|done].
  assert (n <| N_mem := mem |> = n <| N_mem := mem |> <| N_brk := N_brk n |>) as -> by (by destruct n).
  eapply inv_mem; [done|by eapply owns_upto|]. by rewrite (left_id_L ∅ (⊎)).
Qed.

(** Free only the block [d] points to. *)
Lemma step_free_block b m i k : triple (atomic (skynet_free (Z.pos b))) {[+ Block b m i k +]} (λ _ T, T = ∅).
Proof.
  apply step_intro. intros F n D l G L Hi Hn.
  destruct (mem_free _ _ _ _ _ _ _ _ _ _ (iv_mem _ _ _ _ _ _ _ _ Hi)) as [(B & HB & _) Hm].
  unfold Kernel.wp, skynet_free. rewrite HB. exists ∅. split; [|done].
  assert (n <| N_mem := delete b (N_mem n) |> = n <| N_mem := delete b (N_mem n) |> <| N_brk := N_brk n |>) as -> by (by destruct n).
  eapply inv_mem; [done|upto|]. by rewrite (left_id_L ∅ (⊎)).
Qed.

(** What [contents] returns for data with tokens [x]. *)
Definition seen (d : Z) (b : option mblock) (x : tokens) : Prop :=
  match b with
  | None => d = 0
  | Some B => ∃ p, d = Z.pos p ∧ Block p (block_size B) (inner B).1 (inner B).2 ∈ x
  end.

Lemma block_run p m i k W n D l G L : inv_with W n D l G L → Block p m i k ∈ W →
  ∃ B, N_mem n !! p = Some B ∧ block_size B = m ∧ inner B = (i, k).
Proof.
  intros Hi Hb. apply (bk_block _ _ _ (me_blocks _ _ _ _ _ _ (iv_mem _ _ _ _ _ _ _ _ Hi))). multiset_solver.
Qed.

Lemma step_contents d sz x T : owns d sz x → x ⊆ T →
  triple (atomic (contents d)) T (λ b T', T' = T ∧ seen d b x).
Proof.
  intros Ho Hx. apply step_same. intros F n D l G L Hi Hn. destruct Ho as [sz|b m i k sz T' Hsz Ho].
  - by split.
  - destruct (block_run b m i k _ _ _ _ _ _ Hi) as (B & HB & Em & Ei); [multiset_solver|].
    unfold Kernel.wp, contents. rewrite HB. split; [done|]. exists b. split; [done|].
    rewrite Em, Ei. apply here.
Qed.

Lemma copy_size B sz : 0 ≤ sz ≤ block_size B → sz ≤ block_size (copy_of B sz).
Proof.
  intros H. destruct B as [b|r|m]; cbn in *; [|lia..]. unfold len in *.
  rewrite length_app, length_take. cbn. lia.
Qed.

Lemma copy_inner B sz k : inner B = (0, k) → (inner (copy_of B sz)).1 = 0.
Proof. intros E. destruct B; cbn in *; [done|by rewrite E|congruence]. Qed.

(** A copy of a block that holds no pointer. *)
Lemma step_copy p m k sz T : Block p m 0 k ∈ T → 0 ≤ sz ≤ m →
  triple (atomic (copy_data (Z.pos p) sz)) T (λ d T', ∃ x, owns d sz x ∧ T' = x ⊎ T).
Proof.
  intros Hb Hsz. apply step_intro. intros F n D l G L Hi Hn.
  destruct (block_run p m 0 k _ _ _ _ _ _ Hi) as (B & HB & Em & Ei); [multiset_solver|].
  unfold Kernel.wp, copy_data, bind, contents, must, require, ret. rewrite HB.
  rewrite (proj2 (Z.leb_le _ _)) by lia. cbn [skynet_malloc].
  set (C := copy_of B sz). exists ({[+ Block (N_brk n) (block_size C) (inner C).1 (inner C).2 +]} ⊎ T). split.
  - eapply inv_mem; [done|upto|]. rewrite <- (assoc_L (⊎)). apply mem_malloc; [apply Hi|done|]. by destruct (inner C).
  - eexists. split; [|done]. rewrite <- (right_id_L ∅ (⊎) {[+ _ +]}). constructor; [apply copy_size; lia|].
    unfold C. rewrite (copy_inner B sz k Ei). constructor.
Qed.

(** ** Queues *)

Lemma inv_mq_log T T' F n D l G L s D' l' G' log :
  inv_with (T ⊎ F) n D l G L → upto [KHold; KBlock] T T' →
  holds_ok (T' ⊎ F) s D' l' G' → links_ok (T' ⊎ F) (N_hs n) (N_sv n) G' (N_next n) →
  mem_ok (T' ⊎ F) G' (N_mem n) (N_brk n) → log_ok (T' ⊎ F) G' log →
  inv (T' ⊎ F) (n <| N_mq := s |> <| N_log := log |>).
Proof.
  intros Hi Ho Hh Hl Hm Hlog. exists D', l', G', L. destruct Hi. destruct n; cbn in *.
  pose proof (upto_frame _ T T' F Ho) as HW. split; cbn; try done.
  - eapply handles_same; [|done]. same_by HW.
  - eapply files_same; [|done]. same_by HW.
  - eapply noted_same; [|done]. same_by HW.
Qed.

Lemma inv_mq T T' F n D l G L s D' l' G' :
  inv_with (T ⊎ F) n D l G L → upto [KHold; KBlock] T T' →
  holds_ok (T' ⊎ F) s D' l' G' → links_ok (T' ⊎ F) (N_hs n) (N_sv n) G' (N_next n) →
  mem_ok (T' ⊎ F) G' (N_mem n) (N_brk n) → log_ok (T' ⊎ F) G' (N_log n) →
  inv (T' ⊎ F) (n <| N_mq := s |>).
Proof.
  intros Hi Ho Hh Hl Hm Hlog. pose proof (inv_mq_log T T' F n D l G L s D' l' G' (N_log n) Hi Ho Hh Hl Hm Hlog) as H.
  by destruct n.
Qed.

(** A context in use has a queue, which is not marked. *)
Lemma ref_queue W n D l G L p c v : inv_with W n D l G L → nominal n → ctxs (N_hs n) !! p = Some c →
  N_sv n !! p = Some v → Ref p ∈ W ∨ N_REMOTE n = Some p ∨ Dead p false ∈ W →
  ∃ q w, sv_queue v = Some q ∧ G !! q = Some w ∧ qv_handle w = ctx_handle c ∧ qv_release w = 0.
Proof.
  intros Hi Hn Hc Hv Hp. pose proof (iv_handles _ _ _ _ _ _ _ _ Hi) as Hh.
  destruct (sv_queue v) as [q|] eqn:Eq.
  - destruct (ln_queue _ _ _ _ _ (iv_links _ _ _ _ _ _ _ _ Hi) p v q Hv Eq) as (w & c' & Hw & Hc' & Eh & Er).
    { destruct Hp as [Hp|[Hp|Hp]]; [destruct (handles_alive _ _ _ _ _ p c true Hh Hc) as [_ Hx]; [tauto|done]..|].
      intros Hd. by pose proof (ha_dead_same _ _ _ _ _ Hh p _ _ Hp Hd). }
    assert (c' = c) as -> by congruence. by exists q, w.
  - exfalso. destruct (nm_new _ Hn p v c Hv Hc Eq) as [E2 Et].
    destruct (ln_none _ _ _ _ _ (iv_links _ _ _ _ _ _ _ _ Hi) p v Hv Eq) as (Hnew & _). apply mult_in in Hnew.
    pose proof (ha_ref _ _ _ _ _ Hh p c Hc) as Er. rewrite E2, Et in Er.
    destruct Hp as [Hp|[Hp|Hp]].
    + apply mult_in in Hp. unfold of_bool in Er. case_match; lia.
    + rewrite Hp, bool_decide_eq_true_2 in Er by done. unfold of_bool in Er. lia.
    + destruct (ha_dead _ _ _ _ _ Hh p false Hp) as (c' & Hc' & H0).
      assert (c' = c) as -> by congruence. lia.
Qed.

Lemma queues_of W n D l G L : inv_with W n D l G L → queues (N_mq n) D l G.
Proof. intros Hi. apply (iv_holds _ _ _ _ _ _ _ _ Hi). Qed.

(** Reading a queue that the thread holds. *)
Lemma step_mq_handle q h s : triple (atomic (mq_handle_of q)) {[+ Hold q h s +]}
  (λ h' T, T = {[+ Hold q h s +]} ∧ h' = h ∧ local h).
Proof.
  apply step_same. intros F n D l G L Hi Hn.
  destruct (ho_handle _ _ _ _ _ (iv_holds _ _ _ _ _ _ _ _ Hi) q h s (here _ _)) as (v & Hv & Eh).
  destruct (queues_length q v _ _ _ _ (queues_of _ _ _ _ _ _ Hi) Hv) as (Q & HQ & _ & EQ).
  unfold Kernel.wp, mq_handle_of, in_mq, deref. rewrite HQ. cbn. destruct n. split; [done|].
  split; [congruence|]. rewrite <- Eh. by eapply (handle_local _ _ _ _ _ _ _ Hi), (ln_range _ _ _ _ _ (iv_links _ _ _ _ _ _ _ _ Hi)).
Qed.

Lemma step_mq_length q h s : triple (atomic (mq_length_of q)) {[+ Hold q h s +]} (λ _ T, T = {[+ Hold q h s +]}).
Proof.
  eapply wpt_mono; [apply (step_same _ _ (λ _, True))|by intros ? ? [-> _]]. intros F n D l G L Hi Hn.
  destruct (ho_handle _ _ _ _ _ (iv_holds _ _ _ _ _ _ _ _ Hi) q h s (here _ _)) as (v & Hv & Eh).
  destruct (queues_length q v _ _ _ _ (queues_of _ _ _ _ _ _ Hi) Hv) as (Q & HQ & _ & EQ).
  unfold Kernel.wp, mq_length_of, in_mq, deref. rewrite HQ. cbn. by destruct n.
Qed.

Lemma step_stat_mqlen p T : Ref p ∈ T → triple (atomic (q ⟵ context_queue p; mq_length_of q)) T (λ _ T', T' = T).
Proof.
  intros Hp. apply (step_has p); [by left|]. intros F n D l G L c v Hi Hn Hc Hv.
  destruct (ref_queue _ _ _ _ _ _ p c v Hi Hn Hc Hv) as (q & w & Eq & Hw & _); [left; multiset_solver|].
  destruct (queues_length q w _ _ _ _ (queues_of _ _ _ _ _ _ Hi) Hw) as (Q & HQ & _ & EQ).
  unfold Kernel.wp, bind, context_queue, get_sv, must. unfold bind. rewrite Hv, Eq. unfold ret, mq_length_of, in_mq, deref. rewrite HQ.
  cbn. exists T. split; [|done]. exists D, l, G, L. by destruct n.
Qed.

Lemma step_mq_overload q h s : triple (atomic (mq_overload_of q)) {[+ Hold q h s +]} (λ _ T, T = {[+ Hold q h s +]}).
Proof.
  apply step_intro. intros F n D l G L Hi Hn.
  destruct (ho_handle _ _ _ _ _ (iv_holds _ _ _ _ _ _ _ _ Hi) q h s (here _ _)) as (v & Hv & Eh).
  destruct (queues_length q v _ _ _ _ (queues_of _ _ _ _ _ _ Hi) Hv) as (Q & HQ & _ & EQ).
  destruct (skynet_mq_overload Q) as [o Q'] eqn:Eo.
  assert (queues (store q Q' (N_mq n)) D l G) as Hqs.
  { eapply queues_touch; [apply Hi|done|]. unfold skynet_mq_overload in Eo. case_match; injection Eo as <- <-; by destruct Q. }
  unfold Kernel.wp, mq_overload_of, in_mq, deref. rewrite HQ. cbn [mbind option_bind]. rewrite Eo.
  eexists. split; [|done]. eapply (inv_mq {[+ Hold q h s +]}); [done|upto| |apply Hi|apply Hi|apply Hi].
  eapply holds_queues; [apply Hi|done|]. intros q' v' Hv'. by exists v'.
Qed.

(** A message into the queue of a context in use. *)
Lemma push_run p m x F n D l G L c v : inv_with (x ⊎ F) n D l G L → nominal n →
  ctxs (N_hs n) !! p = Some c → N_sv n !! p = Some v → Ref p ∈ F ∨ N_REMOTE n = Some p →
  owns (msg_data m) (Z.land (msg_sz m) MESSAGE_TYPE_MASK) x → addressable (msg_source m) →
  Kernel.wp (mq_push p m) (λ _ n', inv F n') n.
Proof.
  intros Hi Hn Hc Hv Hp Ho Ha.
  destruct (ref_queue _ _ _ _ _ _ p c v Hi Hn Hc Hv) as (q & w & Eq & Hw & Eh & Er).
  { destruct Hp as [Hp|Hp]; [left; multiset_solver|right; by left]. }
  destruct (queues_length q w _ _ _ _ (queues_of _ _ _ _ _ _ Hi) Hw) as (Q & HQ & EQ & _).
  destruct (queues_push q m x _ _ _ _ w (queues_of _ _ _ _ _ _ Hi) Hw Er) as (s & l' & E & Hqs).
  { pose proof (nm_room _ Hn q Q HQ). lia. }
  assert (mq_push p m n = Ok (tt, n <| N_mq := s |> <| N_log := N_log n ++ [Sent (ctx_handle c) m] |>)) as Em.
  { destruct n; cbn in *. unfold mq_push, context_queue, context_handle, in_mq, in_hs, void, bind, get_sv, must, ret, record.
    unfold skynet_context_handle, get_ctx. cbn. rewrite Hv. cbn. rewrite Eq. cbn. rewrite E. cbn. by rewrite Hc. }
  unfold Kernel.wp. rewrite Em. rewrite <- (left_id_L ∅ (⊎) F).
  assert (∀ k, k ≠ KBlock → same k (x ⊎ F) (∅ ⊎ F)) as HX.
  { intros k Hk. apply same_union; [|done]. apply (owns_upto _ _ _ Ho). set_solver. }
  eapply inv_mq_log; [exact Hi|..].
  - intros k Hk. apply (owns_upto _ _ _ Ho). set_solver.
  - eapply holds_same; [by apply HX|]. eapply holds_queues; [apply Hi|done|].
    intros q' u Hu'. destruct (decide (q' = q)) as [->|Hne].
    + rewrite lookup_insert_eq. eexists. split; [done|]. cbn. congruence.
    + rewrite lookup_insert_ne by done. by exists u.
  - eapply links_same; [by apply HX|by apply HX|]. eapply links_queues; [apply Hi|by apply same_view_insert].
  - rewrite (left_id_L ∅ (⊎)). eapply mem_push; [apply Hi|done|done|done].
  - eapply log_same; [by apply HX|]. eapply log_queue; [apply Hi|done|done|intros *; by eapply queues_inj|..].
    + done.
    + intros h Hne. cbn. rewrite (proj2 (Z.eqb_neq _ h)) by congruence. done.
    + intros k Hk Heq. exists k. split; [done|]. rewrite sent_app, handled_app, Heq, Eh.
      cbn. rewrite Z.eqb_refl, fmap_app, app_nil_r, !app_assoc. done.
Qed.

Lemma step_push p m x : owns (msg_data m) (Z.land (msg_sz m) MESSAGE_TYPE_MASK) x → addressable (msg_source m) →
  triple (atomic (mq_push p m)) ({[+ Ref p +]} ⊎ x) (λ _ T, T = {[+ Ref p +]}).
Proof.
  intros Ho Ha. apply (step_has p); [left; multiset_solver|]. intros F n D l G L c v Hi Hn Hc Hv.
  assert ({[+ Ref p +]} ⊎ x ⊎ F = x ⊎ ({[+ Ref p +]} ⊎ F)) as EX by multiset_solver. rewrite EX in Hi.
  eapply Kernel.wp_mono; [eapply push_run; try done; left; apply here|]. intros ? n' Hn'. by exists {[+ Ref p +]}.
Qed.

(** The data and the sender of message [m], with tokens [x]. *)
Definition carried (m : skynet_message) (x : tokens) : Prop :=
  owns (msg_data m) (Z.land (msg_sz m) MESSAGE_TYPE_MASK) x ∧ addressable (msg_source m).

(** The log when the holder of [q] pops. *)
Lemma log_pop q h s s' m v msgs F mq D l G log :
  holds_ok ({[+ Hold q h s +]} ⊎ F) mq D l G → G !! q = Some v →
  (∀ q1 q2 w1 w2, G !! q1 = Some w1 → G !! q2 = Some w2 → qv_handle w1 = qv_handle w2 → q1 = q2) →
  hand s = None → hand s' = Some m → (qv_msgs v).*1 = m :: msgs.*1 →
  log_ok ({[+ Hold q h s +]} ⊎ F) G log →
  log_ok ({[+ Hold q h s' +]} ⊎ F) (<[q := View (qv_handle v) 0 msgs]> G) log.
Proof.
  intros Hh Hv Hinj Em Em' Emsgs Hl. pose proof (holds_unique _ _ _ _ _ _ _ _ Hh) as Hu.
  rewrite <- (app_nil_r log). eapply log_queue; [exact Hl|done|done|exact Hinj|..].
  - intros q' l' Hne. apply in_hand_iff. intros h' s0 m' _. rewrite !in_add. intuition congruence.
  - done.
  - intros l' Hl' Heq. exists [m]. split.
    + right. exists h, s', m. split; [apply here|done].
    + assert (l' = []) as ->.
      { destruct Hl' as [[-> _]|(h' & s0 & m' & Hin & Em0 & ->)]; [done|].
        destruct (hold_only _ _ _ _ _ _ Hu Hin) as [-> ->]. congruence. }
      by rewrite app_nil_r, Heq, Emsgs.
Qed.

Lemma step_pop p q h : triple (atomic (mq_pop q)) (serving p q h (Serving p)) (λ r T,
  match r.2 with
  | Some m => ∃ x, T = x ⊎ serving p q h (Taken p m) ∧ carried m x
  | None => T = {[+ Ref p +]}
  end).
Proof.
  apply (step_has p); [left; multiset_solver|]. intros F n D l G L c v Hi Hn Hc Hv.
  pose proof Hi as Hi0. rewrite pair_swap in Hi0.
  destruct (stage_fields _ _ _ _ _ _ _ _ _ _ _ Hi0 Hv eq_refl (here _ _)) as (Eq & Ec & Ei & _).
  destruct (ref_queue _ _ _ _ _ _ p c v Hi Hn Hc Hv) as (q' & w & Eq' & Hw & Eh & Er); [left; multiset_solver|].
  assert (q' = q) as -> by congruence.
  pose proof (iv_holds _ _ _ _ _ _ _ _ Hi0) as Hho.
  destruct (queues_pop 0 q _ _ _ _ w (queues_of _ _ _ _ _ _ Hi) (holds_mine _ _ _ _ _ _ _ _ Hho) Hw Er) as (s & Hs).
  unfold Kernel.wp, mq_pop, in_mq. destruct (qv_msgs w) as [|[m x] msgs] eqn:Emsgs; destruct Hs as [-> Hqs]; cbn [mbind option_bind].
  - exists {[+ Ref p +]}. split; [|done]. eapply (inv_mq _ _ F); [done| | | |..].
    + intros k Hk. rewrite <- (right_id_L ∅ (⊎) {[+ Ref p +]}) at 2. apply same_union; [done|].
      by apply (upto_one [KHold; KBlock]); [kind_in|].
    + eapply holds_drop; [exact Hho|done|done].
    + eapply links_drop; [apply Hi0|done|done].
    + eapply mem_same; [|apply Hi0]. same.
    + eapply log_iff; [|apply Hi0]. intros q' h' s' m' Em'. rewrite in_add.
      split; [|by right]. intros [[= -> -> ->]|?]; done.
  - assert (carried m x ∧ mem_ok (x ⊎ ({[+ Hold q h (Serving p) +]} ⊎ ({[+ Ref p +]} ⊎ F)))
      (<[q := View (qv_handle w) 0 msgs]> G) (N_mem n) (N_brk n)) as [Hcar Hm].
    { destruct (mem_pop _ _ q w m x msgs _ _ _ _ (iv_mem _ _ _ _ _ _ _ _ Hi0) Hw Emsgs) as (Hm & Hca). by split. }
    eexists. split; [|by exists x].
    assert (∀ t, (x ⊎ serving p q h t) ⊎ F = {[+ Hold q h t +]} ⊎ (x ⊎ ({[+ Ref p +]} ⊎ F))) as EX by multiset_solver.
    assert (∀ k t F, k ≠ KBlock → same k ({[+ t +]} ⊎ F) ({[+ t +]} ⊎ (x ⊎ F))) as Hx.
    { intros k t F' Hk. apply same_union; [done|]. rewrite <- (left_id_L ∅ (⊎) F') at 1.
      apply same_union; [|done]. symmetry. apply (owns_upto _ _ _ (proj1 Hcar)). set_solver. }
    eapply (inv_mq _ _ F); [done|..]; rewrite ?EX.
    + intros k Hk. rewrite <- (left_id_L ∅ (⊎) (serving p q h (Serving p))). apply same_union.
      * symmetry. apply (owns_upto _ _ _ (proj1 Hcar)). set_solver.
      * apply same_union; [done|]. apply (upto_ones [KHold; KBlock]); [kind_in|kind_in|done].
    + eapply (holds_stage q h (Serving p)), holds_same; [apply Hx; done|]. eapply holds_queues; [exact Hho|done|].
      intros q' u Hu'. destruct (decide (q' = q)) as [->|Hne].
      * rewrite lookup_insert_eq. eexists. split; [done|]. cbn. congruence.
      * rewrite lookup_insert_ne by done. by exists u.
    + eapply links_same; [apply Hx; done|apply Hx; done|]. eapply links_queues; [|by apply same_view_insert].
      eapply links_stage_only; [apply Hi0|by eapply holds_unique|..].
      * intros p' v' Hv' Hq' Hd.
        destruct (held_services _ _ _ _ _ _ _ _ _ _ (iv_links _ _ _ _ _ _ _ _ Hi0)
          (holds_unique _ _ _ _ _ _ _ _ Hho) Hv' Hq' Hd) as [H1 H2].
        split; [rewrite H1; cbn; intuition congruence|]. intros E. destruct (H2 E) as [[_ ?]|?]; [done|by right].
      * intros p' [= <-]. split; [by eapply (ha_next _ _ _ _ _ (iv_handles _ _ _ _ _ _ _ _ Hi))|].
        split; [by apply (ln_stage _ _ _ _ _ (iv_links _ _ _ _ _ _ _ _ Hi0) q h (Serving p) p (here _ _) eq_refl)|].
        intros v' Hv'. assert (v' = v) as -> by congruence. by split_and!.
    + eapply mem_same; [|exact Hm]. intros t Ht. rewrite !multiplicity_disj_union, !multiplicity_singleton_ne; [done|intros ->; discriminate..].
    + eapply log_same; [apply Hx; done|]. eapply log_pop; [exact Hho|done|intros *; by eapply queues_inj|done|done|by rewrite Emsgs|apply Hi0].
Qed.

Lemma step_take : triple (atomic globalmq_pop) ∅ (λ o T,
  match o with Some q => ∃ h, T = {[+ Hold q h Idle +]} | None => T = ∅ end).
Proof.
  apply step_intro. intros F n D l G L Hi Hn. rewrite (left_id_L ∅ (⊎)) in Hi.
  pose proof (iv_holds _ _ _ _ _ _ _ _ Hi) as Hho.
  destruct (queues_take 0%nat _ _ _ _ (queues_of _ _ _ _ _ _ Hi)) as (s & E & Hs).
  unfold Kernel.wp, globalmq_pop, in_mq. rewrite E. destruct l as [|q l]; cbn [head].
  - subst s. exists ∅. split; [|done]. rewrite (left_id_L ∅ (⊎)). exists D, [], G, L. by destruct n.
  - destruct (queues_held 0%nat q _ _ _ _ Hs) as [v Hv]; [set_solver|].
    exists {[+ Hold q (qv_handle v) Idle +]}. split; [|by exists (qv_handle v)].
    assert (∀ h s', Hold q h s' ∉ F) as Hu by (intros h s'; eapply holds_global; [exact Hho|by left]).
    eapply (inv_mq ∅ _ F); [by rewrite (left_id_L ∅ (⊎))|upto| | | |].
    + by eapply holds_take.
    + apply links_take, Hi.
    + eapply mem_same; [|apply Hi]. same.
    + eapply log_iff; [|apply Hi]. intros q' h' s' m' Em'. rewrite in_add.
      split; [by right|]. intros [[= -> -> ->]|?]; done.
Qed.

Lemma step_publish q h s : quiet s →
  triple (atomic (globalmq_push q)) {[+ Hold q h s +]} (λ _ T, T = ∅).
Proof.
  intros (E1 & E2 & E3). apply step_intro. intros F n D l G L Hi Hn.
  pose proof (iv_holds _ _ _ _ _ _ _ _ Hi) as Hho.
  destruct (queues_publish 0%nat q _ _ _ _ (queues_of _ _ _ _ _ _ Hi) (holds_mine _ _ _ _ _ _ _ _ Hho)) as (s' & E & Hs).
  unfold Kernel.wp, globalmq_push, in_mq, void. rewrite E. exists ∅. split; [|done].
  eapply (inv_mq _ ∅ F); [done|upto|..]; rewrite (left_id_L ∅ (⊎)).
  - by eapply holds_drop.
  - by eapply links_drop; [apply Hi|..].
  - eapply mem_same; [|apply Hi]. same.
  - eapply log_iff; [|apply Hi]. intros q' h' s0 m' Em'. rewrite in_add.
    split; [|by right]. intros [[= -> -> ->]|?]; [congruence|done].
Qed.

(** The events of a released queue. *)
Lemma log_dropped q v W W' G log :
  log_ok W G log → G !! q = Some v →
  (∀ q1 q2 w1 w2, G !! q1 = Some w1 → G !! q2 = Some w2 → qv_handle w1 = qv_handle w2 → q1 = q2) →
  (∀ h s, Hold q h s ∈ W → hand s = None) →
  (∀ q' l, q' ≠ q → in_hand W q' l → in_hand W' q' l) →
  log_ok W' (delete q G) (log ++ map (Dropped (qv_handle v)) (qv_msgs v).*1).
Proof.
  intros [H1 H2] Hv Hinj Hno Hoth.
  assert (∀ h l, h ≠ qv_handle v → sent h (map (Dropped (qv_handle v)) l) = [] ∧ handled h (map (Dropped (qv_handle v)) l) = []) as Ho.
  { intros h l Hne. induction l as [|m l [IH1 IH2]]; [done|]. cbn. rewrite (proj2 (Z.eqb_neq _ h)) by congruence. done. }
  assert (∀ l, sent (qv_handle v) (map (Dropped (qv_handle v)) l) = [] ∧ handled (qv_handle v) (map (Dropped (qv_handle v)) l) = l) as Hs.
  { induction l as [|m l [IH1 IH2]]; [done|]. cbn. rewrite Z.eqb_refl. cbn. split; [done|]. f_equal. exact IH2. }
  split.
  - intros q' w [Hne Hw]%lookup_delete_Some. destruct (H1 q' w Hw) as (l & Hl & E).
    exists l. split; [by apply Hoth|]. rewrite sent_app, handled_app.
    destruct (Ho (qv_handle w) (qv_msgs v).*1) as [-> ->]; [|by rewrite !app_nil_r].
    intros Ex. apply Hne. by eapply Hinj.
  - intros h Hh. rewrite sent_app, handled_app. destruct (decide (h = qv_handle v)) as [->|Hne].
    + destruct (Hs (qv_msgs v).*1) as [-> ->]. destruct (H1 q v Hv) as (l & Hl & ->).
      destruct Hl as [[-> _]|(h' & s0 & m & Hin & Em & _)]; [by rewrite app_nil_r|].
      rewrite (Hno h' s0 Hin) in Em. done.
    + destruct (Ho h (qv_msgs v).*1 Hne) as [-> ->]. rewrite !app_nil_r. apply H2. intros q' w Hw Ex.
      destruct (decide (q' = q)) as [->|Hq']; [congruence|]. apply (Hh q' w); [|done]. by rewrite lookup_delete_ne.
Qed.

Lemma step_release q h s : quiet s → triple (atomic (take_dropped q h)) {[+ Hold q h s +]} (λ l T,
  ∃ xs, T = ⋃+ xs ∧ Forall2 carried l xs).
Proof.
  intros (Hq1 & Hq2 & Hq3). apply step_intro. intros F n D l G L Hi Hn.
  pose proof (iv_holds _ _ _ _ _ _ _ _ Hi) as Hho.
  pose proof (holds_unique _ _ _ _ _ _ _ _ Hho) as Hu.
  destruct (ho_handle _ _ _ _ _ Hho q h s (here _ _)) as (v & Hv & Eh).
  assert (∀ q' h' s' m', hand s' = Some m' → Hold q' h' s' ∈ {[+ Hold q h s +]} ⊎ F ↔ Hold q' h' s' ∈ F) as Hhand.
  { intros q' h' s' m' Em'. rewrite in_add. split; [|by right]. intros [[= -> -> ->]|?]; [congruence|done]. }
  destruct (queues_release 0%nat q _ _ _ _ v (queues_of _ _ _ _ _ _ Hi) (holds_mine _ _ _ _ _ _ _ _ Hho) Hv)
    as (s' & [(Er & E & Hs)|(Er & E & Hs)]); unfold Kernel.wp, take_dropped, bind, in_mq; rewrite E.
  - destruct (mem_gone _ _ q v _ _ _ _ (iv_mem _ _ _ _ _ _ _ _ Hi) Hv) as [Hm Hcar].
    exists (msgs_tokens (qv_msgs v)). split.
    + assert (upto [KBlock] (msgs_tokens (qv_msgs v)) ∅) as Hx.
      { clear -Hcar. induction (qv_msgs v) as [|[m x] msgs IH]; [apply upto_refl|]. inversion Hcar as [|? ? [Ho _] Hr]; subst.
        rewrite msgs_tokens_cons, <- (left_id_L ∅ (⊎) ∅). intros k Hk. apply same_union; [by eapply owns_upto|by apply IH]. }
      assert (∀ k F, k ≠ KBlock → same k F (msgs_tokens (qv_msgs v) ⊎ F)) as HX.
      { intros k F' Hk. rewrite <- (left_id_L ∅ (⊎) F') at 1. apply same_union; [|done]. symmetry. apply Hx. set_solver. }
      assert (Hd : map (Dropped h) (qv_msgs v).*1 = map (Dropped (qv_handle v)) (qv_msgs v).*1) by by rewrite Eh.
      rewrite Hd. change (N_log (n <| N_mq := s' |>)) with (N_log n).
      eapply (inv_mq_log {[+ Hold q h s +]}); [done|..].
      * intros k Hk. transitivity (∅ : tokens); [by apply (upto_one [KHold; KBlock]); [kind_in|]|]. symmetry. apply Hx. set_solver.
      * eapply holds_same; [by apply HX|]. eapply holds_drop; [exact Hho|done|]. intros q' u Hne. by rewrite lookup_delete_ne.
      * eapply links_same; [by apply HX|by apply HX|]. eapply links_gone; [by eapply links_drop; [apply Hi|..]|].
        intros p u Hp Eq. destruct (decide (Dead p true ∈ F)) as [Hdead|Hdead]; [done|].
        destruct (ln_queue _ _ _ _ _ (iv_links _ _ _ _ _ _ _ _ Hi) p u q Hp Eq) as (w & c & Hw & _ & _ & Erel);
          [by intros [?|?]%in_add|congruence].
      * eapply mem_same; [|exact Hm]. apply same_union; [done|same].
      * eapply log_dropped; [apply Hi|done|intros *; by eapply queues_inj|..].
        -- intros h' s0 Hin. destruct (hold_only _ _ _ _ _ _ Hu Hin) as [-> _]. done.
        -- intros q' k Hne Hk. eapply in_hand_same; [by apply HX|]. eapply in_hand_iff; [|exact Hk].
           intros h' s0 m' Em'. by eapply Hhand.
    + exists ((qv_msgs v).*2). split; [done|]. clear -Hcar.
      induction Hcar as [|[m x] msgs H _ IH]; constructor; done.
  - exists ∅. split; [|by exists []; split; [|constructor]].
    assert (n <| N_mq := s' |> <| N_log := N_log (n <| N_mq := s' |>) ++ map (Dropped h) [] |> = n <| N_mq := s' |>) as ->.
    { destruct n; cbn. by rewrite app_nil_r. }
    eapply (inv_mq _ ∅ F); [done|upto|..]; rewrite (left_id_L ∅ (⊎)).
    + by eapply holds_drop.
    + by eapply links_drop; [apply Hi|..].
    + eapply mem_same; [|apply Hi]. same.
    + eapply log_iff; [|apply Hi]. intros q' h' s0 m' Em'. by eapply Hhand.
Qed.

(** ** The end of a context *)

Lemma step_mark p : triple (atomic (q ⟵ context_queue p; in_mq (void (skynet_mq_mark_release q)))) {[+ Dead p false +]}
  (λ _ T, T = {[+ Dead p true +]}).
Proof.
  apply (step_has p); [right; right; left; exists false; multiset_solver|]. intros F n D l G L c v Hi Hn Hc Hv.
  pose proof (iv_handles _ _ _ _ _ _ _ _ Hi) as Hh.
  destruct (ref_queue _ _ _ _ _ _ p c v Hi Hn Hc Hv) as (q & w & Eq & Hw & Eh & Er); [right; right; apply here|].
  destruct (queues_mark q _ _ _ _ w (queues_of _ _ _ _ _ _ Hi) Hw Er) as (s & l' & E & Hqs).
  pose proof (dead_once _ _ _ _ _ _ _ Hh) as Hnd.
  assert (Kernel.wp (q ⟵ context_queue p; in_mq (void (skynet_mq_mark_release q)))
    (λ _ n', n' = n <| N_mq := s |>) n) as Hrun.
  { unfold Kernel.wp, bind, context_queue, get_sv, must. unfold bind. rewrite Hv, Eq. unfold ret, in_mq, void. by rewrite E. }
  eapply Kernel.wp_mono; [exact Hrun|]. intros _ n' ->. exists {[+ Dead p true +]}. split; [|done].
  exists D, l', (<[q := View (qv_handle w) 1 (qv_msgs w)]> G), L. destruct Hi. destruct n; cbn in *.
  assert (∀ k, k ≠ KRef → same k ({[+ Dead p false +]} ⊎ F) ({[+ Dead p true +]} ⊎ F)) as Hk.
  { intros k Hk. apply same_union; [|done]. apply (upto_ones [KRef]); [kind_in|kind_in|set_solver]. }
  split; cbn; try done.
  - by apply handles_mark.
  - eapply holds_same; [by apply Hk|]. eapply holds_queues; [done|done|].
    intros q' u Hu'. destruct (decide (q' = q)) as [->|Hne].
    + rewrite lookup_insert_eq. eexists. split; [done|]. cbn. congruence.
    + rewrite lookup_insert_ne by done. by exists u.
  - eapply links_mark; [done| |done|done|done|apply Hnd]. intros x d d' Hx Hp Ex. by eapply (ha_inj _ _ _ _ _ Hh).
  - eapply mem_view; [|done]. eapply mem_same; [|done]. by apply Hk.
  - eapply log_view; [|done]. eapply log_same; [|done]. by apply Hk.
  - eapply files_same; [|done]. by apply Hk.
  - eapply noted_same; [|done]. by apply Hk.
Qed.

Lemma step_context_free p : triple (atomic (context_free p)) {[+ Dead p true +]} (λ _ T, T = ∅).
Proof.
  apply (step_has p); [right; right; left; exists true; multiset_solver|]. intros F n D l G L c v Hi Hn Hc Hv.
  unfold Kernel.wp, context_free, get_ctx. rewrite Hv, Hc. exists ∅. split; [|done]. rewrite (left_id_L ∅ (⊎)).
  exists D, l, G, L. destruct Hi. destruct n; cbn in *.
  destruct (handles_free _ _ _ _ _ _ iv_handles) as [Hh Ht].
  assert (∀ k, k ≠ KRef → same k ({[+ Dead p true +]} ⊎ F) F) as Hk by (intros k Hk; by apply same_add).
  split; cbn; try done.
  - eapply holds_same; [by apply Hk|done].
  - eapply links_free; [exact iv_links| |].
    + intros Hin. destruct (handles_alive _ _ _ _ _ p c true iv_handles Hc) as [_ Hno].
      * right; right; left. by apply there.
      * apply Hno, here.
    + intros x Hx ->. congruence.
  - eapply mem_same; [by apply Hk|done].
  - eapply log_same; [by apply Hk|done].
  - eapply files_same; [by apply Hk|]. eapply files_sv; [done|]. intros x u [_ Hu]%lookup_delete_Some. right. by exists u.
  - eapply noted_same; [|done]. by apply Hk.
Qed.

(** ** Log files *)

Lemma inv_files T T' F n D l G L sv files next :
  inv_with (T ⊎ F) n D l G L → upto [KFile] T T' →
  links_ok (T ⊎ F) (N_hs n) sv G (N_next n) → files_ok (T' ⊎ F) sv files next →
  inv (T' ⊎ F) (n <| N_sv := sv |> <| N_files := files |> <| N_file_next := next |>).
Proof.
  intros Hi Ho Hl Hf. exists D, l, G, L. destruct Hi. destruct n; cbn in *.
  pose proof (upto_frame _ T T' F Ho) as HW. split; cbn; try done.
  - eapply handles_same; [|done]. same_by HW.
  - eapply holds_same; [|done]. same_by HW.
  - eapply links_same; [| |done]; same_by HW.
  - eapply mem_same; [|done]. same_by HW.
  - eapply log_same; [|done]. same_by HW.
  - eapply noted_same; [|done]. same_by HW.
Qed.

Lemma node_files n : n = n <| N_sv := N_sv n |> <| N_files := N_files n |> <| N_file_next := N_file_next n |>.
Proof. by destruct n. Qed.

Lemma step_open T : triple (atomic fopen) T (λ f T', T' = {[+ File f +]} ⊎ T).
Proof.
  apply step_intro. intros F n D l G L Hi Hn. unfold Kernel.wp, fopen. eexists. split; [|done].
  assert (∀ a b, n <| N_files := a |> <| N_file_next := b |> = n <| N_sv := N_sv n |> <| N_files := a |> <| N_file_next := b |>) as ->
    by (by destruct n).
  eapply inv_files; [done|upto|apply Hi|]. rewrite <- (assoc_L (⊎)). apply files_open, Hi.
Qed.

Lemma step_fclose f : triple (atomic (fclose f)) {[+ File f +]} (λ _ T, T = ∅).
Proof.
  apply step_intro. intros F n D l G L Hi Hn.
  destruct (files_close _ _ _ _ _ (iv_files _ _ _ _ _ _ _ _ Hi)) as [Hin Hf].
  unfold Kernel.wp, fclose. rewrite decide_True by done. exists ∅. split; [|done].
  assert (∀ a, n <| N_files := a |> = n <| N_sv := N_sv n |> <| N_files := a |> <| N_file_next := N_file_next n |>) as ->
    by (by destruct n).
  eapply inv_files; [done|upto|apply Hi|]. by rewrite (left_id_L ∅ (⊎)).
Qed.

Lemma step_close_log p T : has p T → triple (atomic (v ⟵ get_sv p;
    match sv_logfile v with
    | Some f => fclose f;; set_sv p (v <| sv_logfile := (None : option positive) |>)
    | None => ret tt
    end)) T (λ _ T', T' = T).
Proof.
  intros Hp. apply (step_has p); [done|]. intros F n D l G L c v Hi Hn Hc Hv.
  unfold Kernel.wp, bind, get_sv. rewrite Hv. destruct (sv_logfile v) as [f|] eqn:Ef.
  - set (v' := v <| sv_logfile := (None : option positive) |>).
    pose proof (files_clear f p v v' _ _ _ _ (iv_files _ _ _ _ _ _ _ _ Hi) Hv Ef eq_refl) as Hfl.
    destruct (files_close _ _ _ _ _ Hfl) as [Hin Hf].
    unfold fclose. rewrite decide_True by done. unfold set_sv. exists T. split; [|done].
    assert (n <| N_files := N_files n ∖ {[f]} |> <| N_sv := <[p := v']> (N_sv (n <| N_files := N_files n ∖ {[f]} |>)) |>
      = n <| N_sv := <[p := v']> (N_sv n) |> <| N_files := N_files n ∖ {[f]} |> <| N_file_next := N_file_next n |>) as ->
      by (by destruct n).
    eapply inv_files; [done|upto| |done]. by eapply links_fields; [apply Hi|..].
  - exists T. split; [|done]. by exists D, l, G, L.
Qed.

(** A log file goes into a context, or comes out. *)
Lemma step_set_logfile f x T : has x T →
  triple (atomic (cas_logfile x None (Some f))) ({[+ File f +]} ⊎ T) (λ ok T', T' = if ok then T else {[+ File f +]} ⊎ T).
Proof.
  intros Hp. apply (step_has x); [by apply has_add|].
  intros F n D l G L c v Hi Hn Hc Hv. unfold Kernel.wp, cas_logfile, bind, get_sv. rewrite Hv.
  case_bool_decide as Ef.
  - unfold set_sv, ret. exists T. split; [|done]. set (v' := v <| sv_logfile := Some f |>).
    rewrite <- (assoc_L (⊎)) in Hi. pose proof (files_set f x v v' _ _ _ _ (iv_files _ _ _ _ _ _ _ _ Hi) Hv eq_refl) as Hfl.
    assert (n <| N_sv := <[x := v']> (N_sv n) |> = n <| N_sv := <[x := v']> (N_sv n) |> <| N_files := N_files n |> <| N_file_next := N_file_next n |>) as ->
      by (by destruct n).
    eapply (inv_files ({[+ File f +]} ⊎ T)); [by rewrite <- (assoc_L (⊎))|upto| |done].
    rewrite <- (assoc_L (⊎)). by eapply links_fields; [apply Hi|..].
  - unfold ret. eexists. split; [|done]. by exists D, l, G, L.
Qed.

Lemma step_clear_logfile f x T : has x T →
  triple (atomic (cas_logfile x (Some f) None)) T (λ ok T', T' = if ok then {[+ File f +]} ⊎ T else T).
Proof.
  intros Hp. apply (step_has x); [done|].
  intros F n D l G L c v Hi Hn Hc Hv. unfold Kernel.wp, cas_logfile, bind, get_sv. rewrite Hv.
  case_bool_decide as Ef.
  - unfold set_sv, ret. eexists. split; [|done]. set (v' := v <| sv_logfile := (None : option positive) |>).
    pose proof (files_clear f x v v' _ _ _ _ (iv_files _ _ _ _ _ _ _ _ Hi) Hv Ef eq_refl) as Hfl.
    assert (n <| N_sv := <[x := v']> (N_sv n) |> = n <| N_sv := <[x := v']> (N_sv n) |> <| N_files := N_files n |> <| N_file_next := N_file_next n |>) as ->
      by (by destruct n).
    eapply inv_files; [done|upto| |]; [by eapply links_fields; [apply Hi|..]|by rewrite <- (assoc_L (⊎))].
  - unfold ret. eexists. split; [|done]. by exists D, l, G, L.
Qed.

(** ** Launching *)

Lemma register_table p h st st' : slots_ok st → slots_ok st' → hs_find st h = None →
  (∀ x, hs_find st' x = if x =? h then Some p else hs_find st x) →
  ∀ q, in_table st' q = true ↔ q = p ∨ in_table st q = true.
Proof.
  intros Hs Hs' Hn Hf q. split.
  - intros Hq. destruct (in_table_live st' q Hs' Hq) as (c & Hc & Hl). apply find_live in Hl; [|done].
    rewrite Hf in Hl. destruct (Z.eqb_spec (ctx_handle c) h); [left; congruence|]. right.
    apply find_live in Hl; [|done]. by eapply live_in_table.
  - intros [->|Hq].
    + eapply (live_in_table _ h). apply find_live; [done|]. by rewrite Hf, Z.eqb_refl.
    + destruct (in_table_live st q Hs Hq) as (c & Hc & Hl). eapply (live_in_table _ (ctx_handle c)).
      apply find_live; [done|]. rewrite Hf. apply find_live in Hl; [|done].
      destruct (Z.eqb_spec (ctx_handle c) h) as [E|]; [congruence|done].
Qed.

Lemma step_create : triple (atomic context_create) ∅ (λ r T, T = {[+ New r.1 +]}).
Proof.
  apply step_intro. intros F n D l G L Hi Hn. rewrite (left_id_L ∅ (⊎)) in Hi.
  pose proof (iv_handles _ _ _ _ _ _ _ _ Hi) as Hh. pose proof (ha_slots _ _ _ _ _ Hh) as Hs.
  set (p := N_next n).
  assert (ctxs (N_hs n) !! p = None) as Hp.
  { destruct (ctxs (N_hs n) !! p) eqn:E; [|done]. pose proof (ha_next _ _ _ _ _ Hh p _ E). lia. }
  destruct (register_ok p (N_hs n) Hs Hp (nm_handles _ Hn))
    as (h & st & E & Hs' & Hr & Ei & Hlt & Eb & Ec & Hf & Hf' & Hns).
  pose proof (register_table p h _ _ Hs Hs' Hf Hf') as Ht.
  unfold Kernel.wp, context_create. fold p. rewrite E. exists {[+ New p +]}. split; [|done].
  assert (∀ t, kind_of t = KRef → t ∈ F → t ≠ New p ∧ t ≠ Dead p true) as Hno.
  { intros t _ Hin. split; intros ->.
    - destruct (ha_dom _ _ _ _ _ Hh p) as [c Hc]; [by right; left|congruence].
    - destruct (ha_dead _ _ _ _ _ Hh p true Hin) as (c & Hc & _). congruence. }
  exists D, l, G, L. destruct Hi. destruct n; cbn in *.
  assert (∀ k, k ≠ KRef → same k F ({[+ New p +]} ⊎ F)) as Hk.
  { intros k Hk. symmetry. apply same_add; [done|reflexivity]. }
  split; cbn; try done.
  - destruct (ha_names _ _ _ _ _ Hh) as [ns Hx]. eapply handles_register; try done; [eauto|lia].
  - eapply holds_same; [by apply Hk|done].
  - eapply links_register; try done; lia.
  - eapply mem_same; [by apply Hk|done].
  - eapply log_same; [by apply Hk|done].
  - eapply files_same; [by apply Hk|]. eapply files_sv; [done|]. intros x u Hu.
    destruct (decide (x = p)) as [->|Hne].
    + rewrite lookup_insert_eq in Hu. injection Hu as <-. by left.
    + rewrite lookup_insert_ne in Hu by done. right. by exists u.
  - eapply noted_same; [|done]. by apply Hk.
  - destruct iv_names as (ns & Hx & Hadd). exists ns. split; [by apply Hns|done].
  - destruct iv_harbor. split; congruence.
Qed.

Lemma step_queue_create p : triple (atomic (queue_create p)) {[+ New p +]} (λ q T, ∃ h, T = serving p q h (Fresh p)).
Proof.
  apply (step_has p); [right; left; apply elem_of_multiplicity; rewrite multiplicity_singleton_eq; lia|].
  intros F n D l G L c v Hi Hn Hc Hv. pose proof (iv_handles _ _ _ _ _ _ _ _ Hi) as Hh.
  destruct (ln_new _ _ _ _ _ (iv_links _ _ _ _ _ _ _ _ Hi) p (here _ _)) as (v' & Hv' & Eq).
  assert (v' = v) as -> by congruence. destruct (nm_new _ Hn p v c Hv Hc Eq) as [E2 Et].
  pose proof (ha_ref _ _ _ _ _ Hh p c Hc) as Er. rewrite E2, Et in Er. rewrite !mult_add in Er.
  rewrite decide_False, decide_True in Er by done.
  assert (multiplicity (New p) F = 0%nat) as Hnew by (unfold of_bool in Er; case_match; lia).
  assert (∀ b, Dead p b ∉ F) as Hnd.
  { intros b Hb. destruct (handles_alive _ _ _ _ _ p c b Hh Hc) as [_ Hx]; [by left|]. by apply Hx, there. }
  destruct (queues_create 0%nat (N_mq n) D l G (ctx_handle c) (queues_of _ _ _ _ _ _ Hi)) as (q & s & E & HG & Hqs).
  assert (Kernel.wp (queue_create p) (λ q' n', q' = q ∧ n' = n <| N_mq := s |> <| N_sv := <[p := v <| sv_queue := Some q |>]> (N_sv n) |>) n) as Hrun.
  { assert (context_handle p n = Ok (ctx_handle c, n)) as E0.
    { unfold context_handle, in_hs, skynet_context_handle, get_ctx. rewrite Hc. by destruct n. }
    assert (in_mq (λ s, Some (skynet_mq_create (ctx_handle c) s)) n = Ok (q, n <| N_mq := s |>)) as E1.
    { unfold in_mq. by rewrite E. }
    unfold Kernel.wp, queue_create, bind. rewrite E0. rewrite E1. unfold update_sv, bind, get_sv.
    change (N_sv (n <| N_mq := s |>)) with (N_sv n). by rewrite Hv. }
  eapply Kernel.wp_mono; [exact Hrun|]. intros q' n' [-> ->]. eexists. split; [|by exists (ctx_handle c)].
  rewrite pair_swap. pose proof (iv_holds _ _ _ _ _ _ _ _ Hi) as Hho.
  assert (∀ h s, Hold q h s ∉ {[+ New p +]} ⊎ F) as Hu.
  { intros h0 s0 Hin. destruct (ho_handle _ _ _ _ _ Hho q h0 s0 Hin) as (w & Hw & _). congruence. }
  assert (∀ h s, Hold q h s ∉ F) as Hu' by (intros h0 s0 Hin; by apply (Hu h0 s0), there).
  exists ({[(0%nat, q)]} ∪ D), l, (<[q := View (ctx_handle c) 0 []]> G), L.
  assert (∀ q' w, G !! q' = Some w → qv_handle w ≠ ctx_handle c) as Hhan.
  { intros q' w Hw Ew. pose proof (ln_own _ _ _ _ _ (iv_links _ _ _ _ _ _ _ _ Hi) q' w p v c Hw Hc Hv Ew). congruence. }
  destruct Hi. destruct n; cbn in *.
  assert (∀ k, k ≠ KRef → k ≠ KHold → same k ({[+ New p +]} ⊎ F) ({[+ Hold q (ctx_handle c) (Fresh p) +]} ⊎ ({[+ Ref p +]} ⊎ F))) as Hk.
  { intros k H1 H2. rewrite swap. apply same_union; [by apply (upto_ones [KRef]); [kind_in|kind_in|set_solver]|].
    symmetry. by apply same_add. }
  assert (same KHold ({[+ New p +]} ⊎ F) F) as HF by same.
  split; cbn; try done.
  - eapply (handles_same ({[+ Ref p +]} ⊎ F)); [same|by apply handles_ready].
  - apply (holds_stage q _ Idle).
    eapply (holds_same ({[+ Hold q (qv_handle (View (ctx_handle c) 0 [])) Idle +]} ⊎ F)); [same|].
    eapply holds_take; [by eapply holds_same|done|done|apply lookup_insert_eq|].
    intros q' w Hne Hw. by rewrite lookup_insert_ne.
  - eapply links_create; try done.
    + intros Hin%mult_in. lia.
    + by eapply (ha_next _ _ _ _ _ Hh).
    + intros x d Hx Ex. by eapply (ha_inj _ _ _ _ _ Hh).
    + by eapply (ha_range _ _ _ _ _ Hh).
  - eapply mem_create; [|done]. eapply mem_same; [|done]. by apply Hk.
  - eapply (log_iff F); [|eapply log_create; [|done|done|done]; by eapply log_same].
    intros q' h' s0 m' Em'. rewrite !in_add. split; [by right; right|].
    intros [[= -> -> ->]|[?|?]]; done.
  - eapply files_same; [by apply Hk|]. by eapply files_update.
  - eapply noted_same; [|done]. by apply Hk.
Qed.

(** The launcher lets go of its service. *)
Lemma inv_launching T T' F n D l G L st x :
  inv_with (T ⊎ F) n D l G L → upto [KRef; KNote] T T' →
  handles_ok (T' ⊎ F) st (N_REMOTE n) L (N_next n) → links_ok (T' ⊎ F) st (N_sv n) G (N_next n) →
  H st = H (N_hs n) →
  noted (T' ⊎ F) x (N_logging n) →
  inv (T' ⊎ F) (n <| N_hs := st |> <| N_launching := x |>).
Proof.
  intros Hi Ho Hh Hl Hb Hx. exists D, l, G, L. destruct Hi. destruct n; cbn in *.
  pose proof (upto_frame _ T T' F Ho) as HW. split; cbn; try done.
  - eapply holds_same; [|done]. same_by HW.
  - eapply mem_same; [|done]. same_by HW.
  - eapply log_same; [|done]. same_by HW.
  - eapply files_same; [|done]. same_by HW.
  - by rewrite Hb.
  - by rewrite Hb.
Qed.

Lemma ref_dec_run p F n D l G L : inv_with ({[+ Ref p +]} ⊎ F) n D l G L →
  ∃ c st, ref_dec p n = Ok (ctx_ref c, n <| N_hs := st |>) ∧ ctxs (N_hs n) !! p = Some c
    ∧ H st = H (N_hs n) ∧ (ctx_ref c = 1 → in_table st p = false)
    ∧ handles_ok (after_dec p (ctx_ref c) ⊎ F) st (N_REMOTE n) L (N_next n)
    ∧ links_ok (after_dec p (ctx_ref c) ⊎ F) st (N_sv n) G (N_next n).
Proof.
  intros Hi. destruct (handles_dec _ _ _ _ _ _ (iv_handles _ _ _ _ _ _ _ _ Hi)) as (c & Hc & Ht & Hh).
  exists c, (set_ctx p (Context (ctx_handle c) (ctx_ref c - 1)) (N_hs n)).
  split; [by unfold ref_dec, in_hs, get_ctx; rewrite Hc|]. split_and!; try done.
  assert (upto [KRef] {[+ Ref p +]} (after_dec p (ctx_ref c))) as Hu.
  { unfold after_dec. case_match; [|upto]. apply (upto_trans _ _ ∅); upto. }
  eapply links_count; [apply Hi|by apply upto_frame|done|..]; intros q;
    unfold after_dec; case_match; rewrite ?(left_id_L ∅ (⊎)), !in_add; intuition congruence.
Qed.

Lemma after_one p : after_dec p 1 = {[+ Dead p false +]}.
Proof. done. Qed.

Lemma step_release_launched p q h : triple (atomic (release_launched p)) (serving p q h (Fresh p)) (λ old T,
  T = if old =? 1 then {[+ Dead p false +]} ⊎ {[+ Hold q h Idle +]} else {[+ Launch p +]} ⊎ {[+ Hold q h (Fresh p) +]}).
Proof.
  apply step_intro. intros F n D l G L Hi Hn. pose proof Hi as Hi0. rewrite <- (assoc_L (⊎)) in Hi0.
  destruct (ref_dec_run _ _ _ _ _ _ _ Hi0) as (c & st & E & Hc & EH & Ht & Hh & Hl).
  unfold Kernel.wp, release_launched, bind. rewrite E. clear E. destruct (Z.eqb_spec (ctx_ref c) 1) as [E1|E1]; unfold ret.
  - rewrite E1 in Hh, Hl. rewrite after_one in Hh, Hl. exists ({[+ Dead p false +]} ⊎ {[+ Hold q h Idle +]}).
    split; [|by rewrite E1].
    pose proof (iv_holds _ _ _ _ _ _ _ _ Hi) as Hho. rewrite pair_swap in Hho.
    pose proof (holds_unique _ _ _ _ _ _ _ _ Hho) as Hu.
    assert (∀ h s, Hold q h s ∉ {[+ Dead p false +]} ⊎ F) as Hu'.
    { apply unique_add; [|done]. intros h0 s0 Hin. by apply (Hu h0 s0), there. }
    rewrite swap in Hh, Hl.
    eapply inv_hs; [exact Hi|..]; rewrite ?(pair_swap (Dead p false)); [| | | | |by rewrite EH|rewrite EH; apply Hi].
    + apply (upto_trans _ _ {[+ Hold q h Idle +]}); [upto|]; upto.
    + eapply handles_same; [|exact Hh]. same.
    + apply (holds_stage q h (Fresh p)). eapply holds_same; [|exact Hho]. apply same_union; [done|]. same.
    + eapply links_stage_only; [exact Hl|done|..|done].
      intros x v Hv Hq Hd. destruct (held_services _ _ _ _ _ _ _ _ _ _ Hl Hu' Hv Hq Hd) as [H1 H2].
      split; [rewrite H1; cbn; intuition congruence|]. intros Ei. right.
      destruct (H2 Ei) as [[[= <-] _]|?]; [by apply Ht|done].
    + apply (log_stage q h (Fresh p)); [done|]. eapply log_same; [|apply Hi]. rewrite pair_swap. apply same_union; [done|]. same.
  - assert (after_dec p (ctx_ref c) = ∅) as E2 by (unfold after_dec; by rewrite (proj2 (Z.eqb_neq _ _))).
    rewrite E2, (left_id_L ∅ (⊎)) in Hh, Hl. eexists. split; [|rewrite (proj2 (Z.eqb_neq _ _)); done].
    eapply (inv_launching _ ({[+ Launch p +]} ⊎ {[+ Hold q h (Fresh p) +]})); [exact Hi|..]; rewrite <- ?(assoc_L (⊎)).
    + upto.
    + eapply handles_same; [|exact Hh]. same.
    + eapply links_same; [| |exact Hl]; same.
    + done.
    + destruct (iv_noted _ _ _ _ _ _ _ _ Hi0) as [H1 H2].
      split; intros x; [pose proof (H1 x) as Hx|pose proof (H2 x) as Hx];
        rewrite !mult_add, ?multiplicity_disj_union, ?multiplicity_singleton; rewrite !mult_add in Hx;
        [|repeat case_decide; simplify_eq; lia].
      change (N_launching (n <| N_hs := st |>)) with (N_launching n).
      repeat case_decide; simplify_eq; lia.
Qed.

Lemma step_launched p : triple (atomic (launched p)) {[+ Launch p +]} (λ _ T, T = ∅).
Proof.
  apply step_intro. intros F n D l G L Hi Hn. unfold Kernel.wp, launched. exists ∅. split; [|done].
  assert (∀ x, n <| N_launching := x |> = n <| N_hs := N_hs n |> <| N_launching := x |>) as -> by (by destruct n).
  eapply (inv_launching _ ∅); [exact Hi|upto|..]; rewrite ?(left_id_L ∅ (⊎)).
  - eapply handles_same; [|apply Hi]. same.
  - eapply links_same; [| |apply Hi]; same.
  - done.
  - destruct (iv_noted _ _ _ _ _ _ _ _ Hi) as [H1 H2].
    split; intros x; [pose proof (H1 x) as Hx|pose proof (H2 x) as Hx];
      rewrite mult_add in Hx; rewrite ?multiplicity_difference, ?multiplicity_singleton;
      repeat case_decide; simplify_eq; lia.
Qed.

(** [ctx->init = true]: from then on others may serve it. *)
Lemma step_started p q h : triple (atomic (update_sv p (λ v, v <| sv_init := true |>)))
  ({[+ Launch p +]} ⊎ {[+ Hold q h (Fresh p) +]}) (λ _ T, T = {[+ Launch p +]} ⊎ {[+ Hold q h Idle +]}).
Proof.
  apply (step_has p); [right; right; right; multiset_solver|]. intros F n D l G L c v Hi Hn Hc Hv.
  unfold Kernel.wp, update_sv, bind, get_sv. rewrite Hv. unfold set_sv. eexists. split; [|done].
  rewrite pair_swap in Hi |- *. pose proof (holds_unique _ _ _ _ _ _ _ _ (iv_holds _ _ _ _ _ _ _ _ Hi)) as Hu.
  destruct (ln_stage _ _ _ _ _ (iv_links _ _ _ _ _ _ _ _ Hi) q h (Fresh p) p (here _ _) eq_refl) as (_ & _ & Hs).
  destruct (Hs v Hv) as (Eq & _).
  eapply inv_stage; [exact Hi|done|done|split; cbn; auto| |done].
  intros Hd. destruct (held_services _ _ _ _ _ _ _ _ _ _ (iv_links _ _ _ _ _ _ _ _ Hi) Hu Hv Eq Hd) as [H1 _].
  cbn. destruct (sv_calling v); [|done]. by destruct (proj1 H1 eq_refl).
Qed.

(** ** The other parts of the state *)

(** States that the invariant does not tell apart. *)
Record alike (n n' : node) : Prop := {
  al_hs : N_hs n' = N_hs n; al_mq : N_mq n' = N_mq n; al_sv : N_sv n' = N_sv n; al_next : N_next n' = N_next n;
  al_mem : N_mem n' = N_mem n; al_brk : N_brk n' = N_brk n; al_harbor : N_HARBOR n' = N_HARBOR n;
  al_remote : N_REMOTE n' = N_REMOTE n; al_timer : N_TI n' = N_TI n; al_files : N_files n' = N_files n;
  al_file_next : N_file_next n' = N_file_next n; al_launching : N_launching n' = N_launching n; al_log : N_log n' = N_log n;
  al_logging : N_logging n' = N_logging n;
  al_monitor : N_monitor_exit n' = N_monitor_exit n
}.

Lemma step_alike {A} (m : M node A) T : (∀ n, Kernel.wp m (λ _ n', alike n n') n) → triple (atomic m) T (λ _ T', T' = T).
Proof.
  intros H. apply step_intro. intros F n D l G L Hi Hn. eapply Kernel.wp_mono; [apply H|].
  intros x n' [E1 E2 E3 E4 E5 E6 E7 E8 E9 E10 E11 E12 E13 E14 E15]. exists T. split; [|done]. exists D, l, G, L.
  destruct Hi. split; rewrite ?E1, ?E2, ?E3, ?E4, ?E5, ?E6, ?E7, ?E8, ?E9, ?E10, ?E11, ?E12, ?E13, ?E14, ?E15; done.
Qed.

Lemma step_find_logger T : triple (atomic find_logger) T (λ _ T', T' = T).
Proof.
  apply step_intro. intros F n D l G L Hi Hn. pose proof Hi as Hi0.
  destruct (ha_names _ _ _ _ _ (iv_handles _ _ _ _ _ _ _ _ Hi)) as [ns Hns].
  destruct (names_ok (str "logger") 0 (N_hs n) ns Hns) as [E _].
  { rewrite (nr_count _ _ Hns). apply Hn. }
  unfold Kernel.wp, find_logger, bind, read, in_hs. destruct (N_logger n =? 0).
  - rewrite E. cbn [mbind option_bind]. exists T. split; [|done]. exists D, l, G, L. destruct Hi. by split; destruct n.
  - exists T. split; [|done]. by exists D, l, G, L.
Qed.

Lemma step_timer e ti T : triple (atomic (λ n, match timer_add (N_TI n) e ti with
                 | Some x => Ok (tt, n <| N_TI := x |>)
                 | None => Abort
                 end)) T (λ _ T', T' = T).
Proof.
  apply step_intro. intros F n D l G L Hi Hn. unfold Kernel.wp, timer_add.
  rewrite add_node_put by apply Hi. exists T. split; [|done]. exists D, l, G, L. destruct Hi.
  destruct n; cbn in *. split; cbn; try done. apply put_shape; [done|]. apply slot_of_valid.
Qed.

Lemma step_remote h T : triple (atomic (skynet_harbor_message_isremote h)) T (λ r T', T' = T ∧ r = is_remote harbor_id h).
Proof.
  apply step_same. intros F n D l G L Hi Hn. destruct (iv_harbor _ _ _ _ _ _ _ _ Hi) as [E Eh].
  unfold Kernel.wp, skynet_harbor_message_isremote, bind, read. rewrite E.
  assert (negb (harbor_id =? u32 (Z.lnot 0)) = true) as ->.
  { destruct (so_harbor _ (ha_slots _ _ _ _ _ (iv_handles _ _ _ _ _ _ _ _ Hi))) as (b & Hb & Eb).
    rewrite <- Eh, Eb. apply negb_true_iff, Z.eqb_neq. change (u32 (Z.lnot 0)) with (2 ^ 32 - 1). lia. }
  done.
Qed.

(** A message to the harbor service. *)
Lemma step_harbor_send msg type source session x : remote_ok = true → invalid_type type = true →
  owns msg SIZEOF_REMOTE_MESSAGE x → addressable source →
  triple (atomic (skynet_harbor_send msg type source session)) x (λ _ T, T = ∅).
Proof.
  intros Hr Ht Ho Ha. apply step_intro. intros F n D l G L Hi Hn.
  pose proof (iv_remote _ _ _ _ _ _ _ _ Hi Hr) as Hrem. destruct (N_REMOTE n) as [p|] eqn:Ep; [|done].
  pose proof (iv_handles _ _ _ _ _ _ _ _ Hi) as Hh. rewrite Ep in Hh.
  destruct (ha_dom _ _ _ _ _ Hh p) as [c Hc]; [by right; right; left|].
  destruct (proj2 (ln_dom _ _ _ _ _ (iv_links _ _ _ _ _ _ _ _ Hi) p)) as [v Hv]; [by exists c|].
  unfold Kernel.wp, skynet_harbor_send, bind, read, require, must, ret. rewrite Ep, Ht.
  unfold skynet_context_send. eapply Kernel.wp_mono; [eapply push_run; [exact Hi|done|done|done|by right| |done]|].
  - cbn [msg_data msg_sz]. exact Ho.
  - intros ? n' Hn'. exists ∅. by rewrite (left_id_L ∅ (⊎)).
Qed.

Lemma step_harbor_start p : triple (atomic (λ n, Ok (tt, n <| N_REMOTE := Some p |>))) {[+ Ref p +]} (λ _ T, T = ∅).
Proof.
  apply step_intro. intros F n D l G L Hi Hn. unfold Kernel.wp. exists ∅. split; [|done]. rewrite (left_id_L ∅ (⊎)).
  exists D, l, G, (lost (N_REMOTE n) ⊎ L). destruct Hi. destruct n; cbn in *.
  assert (∀ k, k ≠ KRef → same k ({[+ Ref p +]} ⊎ F) F) as Hk by (intros k Hk; by apply same_add).
  split; cbn; try done.
  - by apply handles_remote.
  - eapply holds_same; [by apply Hk|done].
  - eapply links_handles; [done|by apply Hk| | | | |done|lia].
    + intros x. rewrite in_add. intuition congruence.
    + intros x. rewrite in_add. intuition congruence.
    + intros x. destruct (ctxs N_hs !! x); by constructor.
    + done.
  - eapply mem_same; [by apply Hk|done].
  - eapply log_same; [by apply Hk|done].
  - eapply files_same; [by apply Hk|done].
  - eapply noted_same; [|done]. by apply Hk.
Qed.

Lemma step_read_monitor T : triple (atomic (read N_monitor_exit)) T (λ h T', T' = T ∧ addressable h).
Proof.
  apply step_same. intros F n D l G L Hi Hn. unfold Kernel.wp, read. split; [done|apply Hi].
Qed.

Lemma step_set_monitor h T : addressable h →
  triple (atomic (λ n, Ok (tt, n <| N_monitor_exit := h |>))) T (λ _ T', T' = T).
Proof.
  intros Hh. apply step_intro. intros F n D l G L Hi Hn. unfold Kernel.wp. exists T. split; [|done].
  exists D, l, G, L. destruct Hi. by split; destruct n.
Qed.

(** ** Giving data up *)

Lemma inv_leak x F n : upto [KBlock] x ∅ → inv (x ⊎ F) n → inv F n.
Proof.
  intros Ho (D & l & G & L & Hi). rewrite <- (left_id_L ∅ (⊎) F).
  assert (n = n <| N_mem := N_mem n |> <| N_brk := N_brk n |>) as -> by (by destruct n).
  eapply inv_mem; [exact Hi|done|]. rewrite (left_id_L ∅ (⊎)). eapply mem_leak. apply Hi.
Qed.

(** After the step, and before it. *)
Lemma step_leak {A} (m : M node A) T Q :
  triple (atomic m) T (λ r T', Q r T' ∨ ∃ T1 x, T' = x ⊎ T1 ∧ upto [KBlock] x ∅ ∧ Q r T1) → triple (atomic m) T Q.
Proof.
  intros H F n Hi Hn. specialize (H F n Hi Hn). destruct (m n) as [[r n']| |]; [|done|done].
  destruct H as (T' & Hi' & [HQ|(T1 & x & -> & Ho & HQ)]); [by exists T'|].
  exists T1. split; [|done]. rewrite <- (assoc_L (⊎)) in Hi'. by eapply inv_leak.
Qed.

Lemma step_leaking {A} (m : M node A) x T Q : upto [KBlock] x ∅ → triple (atomic m) T Q → triple (atomic m) (x ⊎ T) Q.
Proof. intros Hx H F n Hi Hn. rewrite <- (assoc_L (⊎)) in Hi. apply H; [|done]. by eapply inv_leak. Qed.

(** The message of a service without a callback is freed. *)
Lemma step_discard p q h m x : carried m x →
  triple (atomic (skynet_free (msg_data m);; record (Discarded h m))) (x ⊎ serving p q h (Taken p m))
    (λ _ T, T = serving p q h (Serving p)).
Proof.
  intros [Ho Ha]. apply (step_has p); [left; multiset_solver|]. intros F n D l G L c v Hi Hn Hc Hv.
  rewrite <- (assoc_L (⊎)) in Hi. destruct (free_run _ _ _ _ _ _ _ _ _ Hi Ho) as (mem & E & Hm).
  unfold Kernel.wp, bind. rewrite E. unfold record. eexists. split; [|done]. rewrite pair_swap.
  assert (inv ({[+ Hold q h (Taken p m) +]} ⊎ ({[+ Ref p +]} ⊎ F)) (n <| N_mem := mem |>)) as (D1 & l1 & G1 & L1 & Hi1).
  { rewrite <- pair_swap, <- (left_id_L ∅ (⊎) (_ ⊎ F)).
    assert (n <| N_mem := mem |> = n <| N_mem := mem |> <| N_brk := N_brk n |>) as -> by (by destruct n).
    eapply inv_mem; [exact Hi|by eapply owns_upto|]. by rewrite (left_id_L ∅ (⊎)). }
  destruct (stage_fields _ _ _ _ _ _ _ _ _ _ _ Hi1 Hv eq_refl (here _ _)) as (E1 & E2 & E3 & E4).
  assert (∀ log, n <| N_mem := mem |> <| N_log := log |> =
    n <| N_mem := mem |> <| N_sv := <[p := v]> (N_sv (n <| N_mem := mem |>)) |> <| N_log := log |>) as ->.
  { intros log. change (N_sv (n <| N_mem := mem |>)) with (N_sv n). rewrite insert_id by done. by destruct n. }
  eapply inv_handled; [exact Hi1|done|done| |intros _; exact E2|done|done|by right].
  split; try done; [by left|left; by apply E3].
Qed.

(** [assert(q == ctx->queue)]. *)
Lemma step_check_queue p q h : triple (atomic (q' ⟵ context_queue p; require (bool_decide (q = q'))))
  (serving p q h (Serving p)) (λ _ T, T = serving p q h (Serving p)).
Proof.
  eapply wpt_mono; [apply (step_serving _ p q h (Serving p) (λ _, serving p q h (Serving p)) (λ _, True)); [done|]|by intros ? ? [-> _]].
  intros F n D l G L c v Hi Hn Hc Hv Eq _ _ _. unfold Kernel.wp, bind, context_queue, get_sv, must. unfold bind.
  rewrite Hv, Eq. unfold ret. rewrite bool_decide_eq_true_2 by done. split; [done|]. rewrite pair_swap. by exists D, l, G, L.
Qed.

(** A hold whose stage no longer matters. *)
Lemma step_publish_serving p q h : triple (atomic (globalmq_push q)) (serving p q h (Serving p)) (λ _ T, T = {[+ Ref p +]}).
Proof.
  rewrite (comm_L (⊎)). eapply wpt_mono; [by apply wpt_frame, step_publish|].
  intros _ T (T1 & -> & ->). by rewrite (left_id_L ∅ (⊎)).
Qed.

Lemma inv_logging T T' F n D l G L x :
  inv_with (T ⊎ F) n D l G L → upto [KNote] T T' → noted (T' ⊎ F) (N_launching n) x →
  inv (T' ⊎ F) (n <| N_logging := x |>).
Proof.
  intros Hi Ho Hx. exists D, l, G, L. destruct Hi. destruct n; cbn in *.
  pose proof (upto_frame _ T T' F Ho) as HW. split; cbn; try done.
  - eapply handles_same; [|done]. same_by HW.
  - eapply holds_same; [|done]. same_by HW.
  - eapply links_same; [| |done]; same_by HW.
  - eapply mem_same; [|done]. same_by HW.
  - eapply log_same; [|done]. same_by HW.
  - eapply files_same; [|done]. same_by HW.
Qed.

(** The log of a message: the file is open when it is loaded, and the runs
    considered are those where it still is at the write. *)
Lemma step_log_load p T : has p T → triple (atomic (log_load p)) T (λ o T',
  T' = match o with Some f => {[+ Writing f +]} ⊎ T | None => T end).
Proof.
  intros Hp. apply (step_has p); [done|]. intros F n D l G L c v Hi Hn Hc Hv.
  unfold Kernel.wp, log_load, bind, get_sv. rewrite Hv. destruct (sv_logfile v) as [f|].
  - eexists. split; [|done]. eapply inv_logging; [done|upto|].
    destruct (iv_noted _ _ _ _ _ _ _ _ Hi) as [H1 H2]. rewrite <- (assoc_L (⊎)).
    split; intros x; [pose proof (H1 x) as Hx|pose proof (H2 x) as Hx]; rewrite mult_add; rewrite !multiplicity_disj_union in *;
      rewrite ?multiplicity_singleton; repeat case_decide; simplify_eq; lia.
  - eexists. split; [|done]. by exists D, l, G, L.
Qed.

Lemma step_log_write f : triple (atomic (log_write f)) {[+ Writing f +]} (λ _ T, T = ∅).
Proof.
  apply step_intro. intros F n D l G L Hi Hn. destruct (iv_noted _ _ _ _ _ _ _ _ Hi) as [H1 H2].
  unfold Kernel.wp, log_write. rewrite decide_True.
  - exists ∅. split; [|done]. eapply inv_logging; [done|upto|]. rewrite (left_id_L ∅ (⊎)).
    split; intros x; [pose proof (H1 x) as Hx|pose proof (H2 x) as Hx];
      rewrite mult_add in Hx; rewrite ?multiplicity_difference, ?multiplicity_singleton;
      repeat case_decide; simplify_eq; lia.
  - apply (nm_logging _ Hn), elem_of_multiplicity. pose proof (H2 f) as Hx. rewrite mult_add, decide_True in Hx by done. lia.
Qed.

End Steps.
