(* ===== verification/ServerSpecs.v ===== *)
(** * Functions of the node and the tokens they use

    One triple for each function of [Server]: what a thread must own to call it
    and what it owns afterwards. *)

From stdpp Require Import gmultiset.
From S2P Require Import Prelude Kernel Threads Text MessageQueue Timer Handle Queues Server ServerInv ServerParts ServerSteps.

#[local] Arguments disj_union : simpl never.
#[local] Arguments singletonMS : simpl never.

Section Specs.
Context (harbor_id : Z) (remote_ok : bool).

Abbreviation inv := (inv harbor_id remote_ok).
Abbreviation addressable := (addressable harbor_id remote_ok).
Abbreviation carried := (carried harbor_id remote_ok).
Abbreviation local := (local harbor_id).
Abbreviation triple p T Q := (wpt inv nominal p Q T).
Abbreviation serving p q h s := ({[+ Ref p +]} ⊎ {[+ Hold q h s +]} : tokens).

(** The end of a program, a step on all tokens, a call on some of them. *)
Lemma triple_ret {A} (x : A) T (Q : A → tokens → Prop) : Q x T → triple (Ret x) T Q.
Proof. done. Qed.

Lemma triple_bind {A B} (p : prog node A) (f : A → prog node B) Q1 T Q :
  triple p T Q1 → (∀ x T', Q1 x T' → triple (f x) T' Q) → triple (pbind p f) T Q.
Proof. intros Hp Hf. apply wpt_bind. by eapply wpt_mono. Qed.

Lemma triple_call {A B} (p : prog node A) (f : A → prog node B) Q1 T T1 R Q :
  T = T1 ⊎ R → triple p T1 Q1 → (∀ x T', Q1 x T' → triple (f x) (T' ⊎ R) Q) → triple (pbind p f) T Q.
Proof. intros -> Hp Hf. by eapply wpt_call. Qed.

(** A step that keeps the tokens. *)
Lemma triple_keep {A B} (p : prog node A) (f : A → prog node B) T Q :
  triple p T (λ _ T', T' = T) → (∀ x, triple (f x) T Q) → triple (pbind p f) T Q.
Proof. intros Hp Hf. eapply triple_bind; [done|]. by intros x T' ->. Qed.

(** A call that needs no tokens. *)
Lemma triple_none {A B} (p : prog node A) (f : A → prog node B) Q1 T Q :
  triple p ∅ Q1 → (∀ x T', Q1 x T' → triple (f x) (T' ⊎ T) Q) → triple (pbind p f) T Q.
Proof. intros Hp Hf. eapply triple_call; [|done..]. by rewrite (left_id_L ∅ (⊎)). Qed.

Lemma triple_mono {A} (p : prog node A) T (Q Q' : A → tokens → Prop) :
  triple p T Q → (∀ x T, Q x T → Q' x T) → triple p T Q'.
Proof. apply wpt_mono. Qed.

(** The whole of a program that keeps the tokens. *)
Lemma triple_frame {A} (p : prog node A) R : triple p ∅ (λ _ T, T = ∅) → triple p R (λ _ T, T = R).
Proof.
  intros Hp. rewrite <- (left_id_L ∅ (⊎) R) at 1. eapply wpt_mono; [by apply wpt_frame|].
  intros x T (T1 & -> & ->). by rewrite (left_id_L ∅ (⊎)).
Qed.

(** ** Contexts *)

Lemma delete_context_ok p : triple (delete_context p) {[+ Dead p false +]} (λ _ T, T = ∅).
Proof.
  unfold delete_context. apply triple_keep.
  { apply step_close_log. right; right; left. exists false. apply gmultiset_elem_of_singleton. done. }
  intros _. eapply triple_bind; [by apply step_mark|]. intros _ T ->.
  eapply triple_bind; [by apply step_context_free|]. intros _ T ->.
  apply step_alike. intros n. by split; destruct n.
Qed.

Lemma release_after_ok dec p T R1 R2 :
  triple (atomic dec) T (λ old T', T' = if old =? 1 then {[+ Dead p false +]} ⊎ R1 else R2) →
  triple (release_after dec p) T (λ o T', (o = None ∧ T' = R1) ∨ (o = Some p ∧ T' = R2)).
Proof.
  intros Hd. unfold release_after. eapply triple_bind; [done|]. intros old T' ->. destruct (old =? 1).
  - eapply wpt_call; [apply delete_context_ok|]. intros _ T' ->. apply triple_ret. left. by rewrite (left_id_L ∅ (⊎)).
  - apply triple_ret. by right.
Qed.

Lemma context_release_ok p : triple (context_release p) {[+ Ref p +]} (λ _ T, T = ∅).
Proof.
  eapply triple_mono; [apply (release_after_ok _ _ _ ∅ ∅)|by intros o T [[_ ->]|[_ ->]]].
  eapply triple_mono; [by apply step_ref_dec|]. intros old T ->. unfold after_dec.
  case_match; [by rewrite (right_id_L ∅ (⊎))|done].
Qed.

Lemma skynet_context_push_ok h m x : carried m x →
  triple (skynet_context_push h m) x (λ r T, (truth r = false ∧ T = ∅) ∨ (truth r = true ∧ T = x)).
Proof.
  intros [Ho Ha]. eapply triple_none; [by apply step_grab|]. intros [p|] T' ->.
  - eapply triple_bind; [by apply step_push|]. intros _ T' ->.
    eapply triple_bind; [by apply context_release_ok|]. intros _ T' ->. by left.
  - right. by rewrite (left_id_L ∅ (⊎)).
Qed.

(** The same where a message that is not delivered leaks. *)
Lemma skynet_context_push_leak h m x : carried m x → triple (skynet_context_push h m) x (λ _ T, T = ∅).
Proof.
  intros [Ho Ha]. unfold skynet_context_push.
  eapply (triple_bind _ _ (λ o T, T = match o with Some p => {[+ Ref p +]} ⊎ x | None => ∅ end)).
  - apply step_leak. rewrite <- (left_id_L ∅ (⊎) x) at 1. eapply wpt_mono; [apply wpt_frame, step_grab|].
    intros [p|] T (T1 & -> & ->); [by left|]. right. exists ∅, x.
    split; [by rewrite (left_id_L ∅ (⊎)), (right_id_L ∅ (⊎))|]. split; [by eapply owns_upto|done].
  - intros [p|] T ->; [|done]. eapply triple_bind; [by apply step_push|]. intros _ T' ->.
    eapply triple_bind; [by apply context_release_ok|]. by intros _ T' ->.
Qed.

Lemma skynet_context_endless_ok h : triple (skynet_context_endless h) ∅ (λ _ T, T = ∅).
Proof.
  eapply triple_bind; [by apply step_grab|]. intros [p|] T' ->; [|done].
  apply triple_keep; [apply step_update; [left; multiset_solver|by intros v]|]. intros _.
  eapply triple_bind; [by apply context_release_ok|]. by intros _ T' ->.
Qed.

Lemma handle_retire_ok h : triple (handle_retire h) ∅ (λ _ T, T = ∅).
Proof.
  eapply triple_bind; [by apply step_retire|]. intros [p|] T' ->; [|done].
  eapply triple_bind; [by apply context_release_ok|]. by intros _ T' ->.
Qed.

Lemma triple_stop {A} T (Q : A → tokens → Prop) : triple (atomic stop) T Q.
Proof. by intros F n _ _. Qed.

Lemma retire_all_sweep_ok fuel i n : 0 ≤ i → triple (retire_all_sweep fuel i n) ∅ (λ _ T, T = ∅).
Proof.
  revert i n. induction fuel as [|fuel IH]; intros i n Hi; [apply triple_stop|]. cbn [retire_all_sweep].
  apply triple_keep; [by apply step_slot_handle|]. intros [h|]; [|done]. destruct (truth h).
  - eapply triple_keep; [by apply handle_retire_ok|]. intros r. apply IH. lia.
  - apply IH. lia.
Qed.

Lemma handle_retireall_ok fuel : triple (handle_retireall fuel) ∅ (λ _ T, T = ∅).
Proof.
  induction fuel as [|fuel IH]; [apply triple_stop|]. cbn [handle_retireall].
  apply triple_keep; [by apply retire_all_sweep_ok|]. intros n. by case_match.
Qed.

(** ** Messages *)

Lemma mask_le sz : 0 ≤ sz → 0 ≤ Z.land sz MESSAGE_TYPE_MASK ≤ sz.
Proof.
  intros H. unfold MESSAGE_TYPE_MASK. rewrite land_mask by lia.
  split; [apply Z.mod_pos_bound; lia|apply Z.mod_le; lia].
Qed.

(** A size and a type in one word. *)
Lemma size_type sz type : Z.land sz MESSAGE_TYPE_MASK = sz →
  Z.land (Z.lor sz (Z.shiftl type MESSAGE_TYPE_SHIFT)) MESSAGE_TYPE_MASK = sz ∧
  Z.shiftr (Z.lor sz (Z.shiftl type MESSAGE_TYPE_SHIFT)) MESSAGE_TYPE_SHIFT = type.
Proof.
  unfold MESSAGE_TYPE_MASK, MESSAGE_TYPE_SHIFT. intros Hm. rewrite land_mask in * by lia.
  assert (0 ≤ sz < 2 ^ 56) by (rewrite <- Hm; apply Z.mod_pos_bound; lia).
  rewrite Z.shiftl_mul_pow2, lor_high, Z.shiftr_div_pow2 by lia. split.
  - rewrite Z_mod_plus_full. by apply Z.mod_small.
  - rewrite Z.div_add by lia. rewrite Z.div_small; lia.
Qed.

Lemma error_block text : len text ≤ block_size (error_data text).
Proof.
  unfold error_data. assert (0 ≤ len text) by apply len_nonneg. case_match; cbn; unfold len in *.
  - rewrite length_map, length_app. cbn. lia.
  - rewrite length_app, length_map, length_app. cbn. lia.
Qed.

Lemma error_inner text : inner (error_data text) = (0, 0).
Proof. unfold error_data. by case_match. Qed.

(** The contexts a call mentions. *)
Definition uses (ctx : option positive) (T : tokens) : Prop := ∀ p, ctx = Some p → has p T.

Lemma uses_none T : uses None T.
Proof. by intros p. Qed.

Lemma uses_some p T : has p T → uses (Some p) T.
Proof. by intros H q [= <-]. Qed.

Lemma skynet_error_ok ctx text T : uses ctx T → triple (skynet_error ctx text) T (λ _ T', T' = T).
Proof.
  intros Hc. apply triple_keep; [by apply step_find_logger|]. intros logger. case_match; [done|].
  eapply triple_none; [by apply step_malloc|]. intros data ? (b & -> & ->). rewrite error_inner.
  set (x := {[+ Block b (block_size (error_data text)) 0 0 +]} : tokens). cbn [fst snd].
  eapply (triple_bind _ _ (λ source T', T' = x ⊎ T ∧ addressable source)).
  - destruct ctx as [p|].
    + eapply triple_mono; [apply (step_context_handle _ _ p)|].
      * rewrite (comm_L (⊎)). by apply has_sub, Hc.
      * intros h T' (-> & [_ Hl] & _). split; [done|by right].
    + split; [done|]. right. unfold is_remote. cbn. by rewrite andb_false_r.
  - intros source ? [-> Hs]. eapply (triple_call _ _ (λ _ T', T' = ∅)); [reflexivity| |].
    2: { intros r ? ->. apply triple_ret. by rewrite (left_id_L ∅ (⊎)). }
    apply skynet_context_push_leak. split; [|done]. cbn [msg_data msg_sz].
    unfold x. rewrite <- (right_id_L ∅ (⊎) {[+ _ +]}). constructor; [|constructor].
    assert (Z.lor (len text) (Z.shiftl PTYPE_TEXT MESSAGE_TYPE_SHIFT) = len text) as -> by (cbn; apply Z.lor_0_r).
    pose proof (mask_le (len text) (len_nonneg _)). pose proof (error_block text). lia.
Qed.

(** ** Sending *)

(** What a call with these arguments takes from [O], and that [O'] is left: the data
    itself, or, if it is to be copied, nothing; then it must hold no pointer. *)
Definition gives (type data sz : Z) (O O' : tokens) : Prop :=
  if tag type PTYPE_TAG_DONTCOPY then ∃ x, O = x ⊎ O' ∧ owns data sz x
  else O' = O ∧ (data = 0 ∨ ∃ b n k, data = Z.pos b ∧ Block b n 0 k ∈ O ∧ 0 ≤ sz ≤ n).

(** A new session is given only for session 0 and in a context. *)
Definition session_ok (inside : bool) (type session : Z) : Prop :=
  tag type PTYPE_TAG_ALLOCSESSION = true → session = 0 ∧ inside = true.

(** The call is made in a context. *)
Definition inside (ctx : option positive) : bool := match ctx with Some _ => true | None => false end.

Lemma uses_gives ctx type data sz O O' : gives type data sz O O' → uses ctx O' → uses ctx O.
Proof.
  unfold gives. intros Hg Hu p Hp. case_match; [|by destruct Hg as [-> _]; auto].
  destruct Hg as (x & -> & _). rewrite (comm_L (⊎)). by apply has_sub, Hu.
Qed.

Lemma free_uncopied_ok type data sz O O' : gives type data sz O O' →
  triple (free_uncopied type data) O (λ _ T, T = O').
Proof.
  unfold gives, free_uncopied. intros Hg. case_match; [|by destruct Hg as [-> _]].
  destruct Hg as (x & -> & Ho).
  eapply triple_mono; [apply wpt_frame; by eapply step_free|]. intros ? T (T1 & -> & ->). by rewrite (left_id_L ∅ (⊎)).
Qed.

Lemma filter_args_ok ctx type session data sz O O' :
  gives type data sz O O' → uses ctx O → session_ok (inside ctx) type session →
  triple (_filter_args ctx type session data sz) O (λ r T, ∃ session' data' x,
    r = (session', data', Z.lor sz (Z.shiftl (Z.land type 0xff) MESSAGE_TYPE_SHIFT)) ∧ T = x ⊎ O' ∧ owns data' sz x).
Proof.
  intros Hg Hu Hs. unfold _filter_args. apply triple_keep.
  - destruct (tag type PTYPE_TAG_ALLOCSESSION) eqn:Et; [|done]. destruct (Hs Et) as [-> Hc]. destruct ctx as [p|]; [|done].
    change (atomic (require (0 =? 0);; p0 ⟵ must (Some p); skynet_context_newsession p0))
      with (atomic (skynet_context_newsession p)).
    apply step_newsession. by apply Hu.
  - intros session'. unfold gives in Hg. destruct (tag type PTYPE_TAG_DONTCOPY); cbn [negb andb].
    + destruct Hg as (x & -> & Ho). apply triple_ret. by exists session', data, x.
    + destruct Hg as (-> & Hd). unfold truth. destruct Hd as [->|(b & n & k & -> & Hb & Hsz)]; cbn [Z.eqb negb].
      * apply triple_ret. exists session', 0, ∅. split; [done|]. split; [by rewrite (left_id_L ∅ (⊎))|constructor].
      * eapply triple_bind; [by eapply step_copy|]. intros data' T' (x & Ho & ->). apply triple_ret. by exists session', data', x.
Qed.

Lemma source_ok ctx source T : uses ctx T → inside ctx = true ∨ source ≠ 0 → source = 0 ∨ addressable source →
  triple (source_or_self ctx source) T (λ s T', T' = T ∧ addressable s ∧ (inside ctx = true ∨ s ≠ 0)).
Proof.
  intros Hu Hc Ha. unfold source_or_self. destruct (Z.eqb_spec source 0) as [->|Hne].
  - destruct ctx as [p|]; [|by destruct Hc].
    change (atomic (p0 ⟵ must (Some p); context_handle p0)) with (atomic (context_handle p)).
    eapply triple_mono; [apply step_context_handle; by apply Hu|]. intros h T' (-> & [_ Hl] & _). split; [done|]. split; [by right|by left].
  - apply triple_ret. split; [done|]. split; [by destruct Ha|by right].
Qed.

(** What a call of [skynet_send] needs: addresses of other nodes only where there is
    a harbor service, and with them no type that the harbor service reserves. *)
Record send_ok (inside : bool) (source destination type session sz : Z) : Prop := {
  so_size : 0 ≤ sz;
  so_session : session_ok inside type session;
  so_source : source = 0 ∨ addressable source;
  so_self : inside = true ∨ source ≠ 0;
  so_destination : addressable destination;
  so_type : is_remote harbor_id destination = true → invalid_type (Z.land type 0xff) = true
}.

Lemma skynet_send_ok ctx source destination type session data sz O O' :
  gives type data sz O O' → uses ctx O' → send_ok (inside ctx) source destination type session sz →
  triple (skynet_send ctx source destination type session data sz) O (λ _ T, T = O').
Proof.
  intros Hg Hu [Hsz Hses Hsrc Hself Hdst Htype]. unfold skynet_send.
  assert (uses ctx O) as Hu' by (by eapply uses_gives).
  destruct (Z.eqb_spec (Z.land sz MESSAGE_TYPE_MASK) sz) as [Em|Em]; cbn [negb].
  2: { apply triple_keep; [by apply skynet_error_ok|]. intros _.
       eapply triple_bind; [by eapply free_uncopied_ok|]. by intros _ T ->. }
  eapply triple_bind; [by eapply filter_args_ok|]. intros r T (session' & data' & x & -> & -> & Ho).
  assert (uses ctx (x ⊎ O')) as Hux by (intros p Hp; rewrite (comm_L (⊎)); by apply has_sub, Hu).
  destruct (size_type sz (Z.land type 0xff) Em) as [Esz Ety].
  eapply triple_bind; [by apply source_ok|]. intros src T (-> & Hasrc & _).
  destruct (Z.eqb_spec destination 0) as [->|Hd].
  - destruct (truth data') eqn:Ed.
    + apply triple_keep; [by apply skynet_error_ok|]. intros _.
      eapply triple_call; [done|by eapply step_free|]. intros _ T ->. apply triple_ret. by rewrite (left_id_L ∅ (⊎)).
    + apply triple_ret. unfold truth in Ed. apply negb_false_iff, Z.eqb_eq in Ed. subst data'.
      inversion Ho; subst. by rewrite (left_id_L ∅ (⊎)).
  - eapply triple_bind; [by apply step_remote|]. intros r T [-> ->].
    destruct (is_remote harbor_id destination) eqn:Er.
    + rewrite Esz, Ety. eapply triple_none; [by apply step_malloc|]. intros rp T (b & -> & ->).
      eapply (triple_call _ _ _ _ _ O'); [|eapply (step_harbor_send _ _ _ _ _ _ ({[+ _ +]} ⊎ x)); cbn [rm_type]|].
      * by rewrite (assoc_L (⊎)).
      * by destruct Hdst as [?|?]; [|congruence].
      * by apply Htype.
      * constructor; [done|]. cbn. destruct (Z.eqb_spec data' 0) as [->|_]; [|done]. inversion Ho; subst. constructor.
      * done.
      * intros _ T ->. apply triple_ret. by rewrite (left_id_L ∅ (⊎)).
    + eapply triple_call; [done|apply skynet_context_push_ok|].
      * split; [by cbn [msg_data msg_sz]; rewrite Esz|done].
      * intros r T [[-> ->]|[-> ->]].
        -- apply triple_ret. by rewrite (left_id_L ∅ (⊎)).
        -- eapply triple_call; [done|by eapply step_free|]. intros _ T ->. apply triple_ret. by rewrite (left_id_L ∅ (⊎)).
Qed.

(** [sendname_ok]: the handle a colon and digits give is one for [send_ok]; other
    names go to the harbor service. *)
Record sendname_ok (inside : bool) (source : Z) (addr : cstring) (type session sz : Z) : Prop := {
  sn_size : 0 ≤ sz;
  sn_session : session_ok inside type session;
  sn_source : source = 0 ∨ addressable source;
  sn_self : inside = true ∨ source ≠ 0;
  sn_handle : hd 0 addr = 58 → addressable (u32 (strtoul 16 (tail addr)));
  sn_remote : hd 0 addr ≠ 58 → hd 0 addr ≠ 46 → remote_ok = true;
  sn_type : remote_ok = true → invalid_type (Z.land type 0xff) = true
}.

Lemma addressable_type h type : addressable h → (remote_ok = true → invalid_type type = true) →
  is_remote harbor_id h = true → invalid_type type = true.
Proof. intros [Hr|Hl] H Hh; [by apply H|congruence]. Qed.

Lemma skynet_sendname_ok ctx source addr type session data sz O O' :
  gives type data sz O O' → uses ctx O' → sendname_ok (inside ctx) source addr type session sz →
  triple (skynet_sendname ctx source addr type session data sz) O (λ _ T, T = O').
Proof.
  intros Hg Hu [Hsz Hses Hsrc Hself Hh Hr Hty]. assert (uses ctx O) as Hu' by (by eapply uses_gives).
  eapply triple_bind; [by apply source_ok|]. intros src T (-> & Ha & Hs).
  assert (∀ d, addressable d → send_ok (inside ctx) src d type session sz) as Hsend.
  { intros d Hd. split; try done; [by right|by apply addressable_type]. }
  destruct (Z.eqb_spec (hd 0 addr) 58) as [E58|N58]; [by apply skynet_send_ok; auto|].
  destruct (Z.eqb_spec (hd 0 addr) 46) as [E46|N46].
  { eapply triple_bind; [by apply step_findname|]. intros des T [-> Hdes]. case_match; [|by apply skynet_send_ok; auto].
    eapply triple_bind; [by eapply free_uncopied_ok|]. by intros _ T ->. }
  destruct (Z.eqb_spec (Z.land sz MESSAGE_TYPE_MASK) sz) as [Em|Em]; cbn [negb].
  2: { apply triple_keep; [by apply skynet_error_ok|]. intros _.
       eapply triple_bind; [by eapply free_uncopied_ok|]. by intros _ T ->. }
  eapply triple_bind; [by eapply filter_args_ok|]. intros r T (session' & data' & x & -> & -> & Ho).
  destruct (size_type sz (Z.land type 0xff) Em) as [Esz Ety]. rewrite Esz, Ety. cbn [rm_type].
  eapply triple_none; [by apply step_malloc|]. intros rp T (b & -> & ->).
  eapply (triple_call _ _ _ _ _ O'); [|eapply (step_harbor_send _ _ _ _ _ _ ({[+ _ +]} ⊎ x))|].
  - by rewrite (assoc_L (⊎)).
  - by apply Hr.
  - by apply Hty, Hr.
  - constructor; [done|]. cbn. destruct (Z.eqb_spec data' 0) as [->|_]; [|done]. inversion Ho; subst. constructor.
  - done.
  - intros _ T ->. apply triple_ret. by rewrite (left_id_L ∅ (⊎)).
Qed.

(** [drop_message] and [skynet_mq_release]: every message is freed and its sender told. *)
Lemma drop_message_ok h m x : carried m x → truth h = true → is_remote harbor_id h = false →
  triple (drop_message h m) x (λ _ T, T = ∅).
Proof.
  intros [Ho Ha] Ht Hl. eapply triple_bind; [by eapply step_free|]. intros _ T ->.
  rewrite Ht. change (atomic (require true)) with (atomic (@ret node unit tt)).
  apply triple_keep; [by apply step_alike|]. intros _.
  eapply triple_bind; [apply (skynet_send_ok _ _ _ _ _ _ _ _ ∅)|by intros _ T ->].
  - split; [done|by left].
  - by apply uses_none.
  - split; try done; [by right; right|right; unfold truth in Ht; by apply negb_true_iff, Z.eqb_neq in Ht].
Qed.

Lemma release_queue_ok q h s : quiet s → truth h = true → is_remote harbor_id h = false →
  triple (release_queue q h) {[+ Hold q h s +]} (λ _ T, T = ∅).
Proof.
  intros Hs Ht Hl. eapply triple_bind; [by apply step_release|]. intros l T (xs & -> & Hc).
  clear q. induction Hc as [|m x l xs Hm _ IH]; [by apply triple_ret|]. cbn [for_each].
  rewrite gmultiset_disj_union_list_cons.
  eapply triple_call; [done|by apply drop_message_ok|]. intros _ T ->. by rewrite (left_id_L ∅ (⊎)).
Qed.

Lemma skynet_queryname_ok ctx name T : uses ctx T → triple (skynet_queryname ctx name) T (λ _ T', T' = T).
Proof.
  intros Hu. unfold skynet_queryname. case_match; [done|]. case_match.
  - eapply triple_mono; [by apply step_findname|]. by intros ? ? [-> _].
  - by apply triple_keep; [by apply skynet_error_ok|].
Qed.

(** ** Dispatching *)

(** [y] has the block that [data] points to. *)
Definition frees (data : Z) (y : tokens) : Prop := data = 0 ∨ ∃ b n i k, data = Z.pos b ∧ Block b n i k ∈ y.

Lemma upto_blocks_sub y z : upto [KBlock] (y ⊎ z) ∅ → upto [KBlock] y ∅ ∧ upto [KBlock] z ∅.
Proof.
  intros H. split; intros k Hk t Ht; specialize (H k Hk t Ht);
    rewrite multiplicity_empty in *; rewrite multiplicity_disj_union in H; lia.
Qed.

(** A callback may do what it likes with the data of its message, but what it does not
    reserve must still be there. *)
Definition code_ok (c : code) : Prop := ∀ cb p type session source data sz b x,
  owns data sz x → seen data b x → addressable source →
  triple (c cb p type session source data sz b) ({[+ Ref p +]} ⊎ x)
    (λ r T, ∃ y, T = {[+ Ref p +]} ⊎ y ∧ upto [KBlock] y ∅ ∧ (truth r = false → frees data y)).

Lemma handled_free T r data y :
  (truth r = false → frees data y) → upto [KBlock] y ∅ →
  triple (if truth r then Ret tt else atomic (skynet_free data)) (y ⊎ T) (λ _ T', ∃ y', T' = y' ⊎ T ∧ upto [KBlock] y' ∅).
Proof.
  intros Hf Hy. destruct (truth r); [by exists y|]. destruct (Hf eq_refl) as [->|(b & n & i & k & -> & Hb)].
  - rewrite <- (left_id_L ∅ (⊎) (y ⊎ T)).
    eapply triple_mono; [apply wpt_frame, (step_free _ _ 0 0 ∅), (owns_null 0)|].
    intros _ T' (T1 & -> & ->). exists y. by rewrite (left_id_L ∅ (⊎)).
  - pose proof (gmultiset_disj_union_difference' (Block b n i k) y Hb) as Ey. rewrite Ey, <- (assoc_L (⊎)).
    eapply triple_mono; [apply wpt_frame, step_free_block|].
    intros _ T' (T1 & -> & ->). eexists. split; [by rewrite (left_id_L ∅ (⊎))|].
    rewrite Ey in Hy. by apply upto_blocks_sub in Hy as [_ Hy].
Qed.

(** The load of the log file and the write. *)
Lemma write_log_ok p T : has p T →
  triple (f ⤆ atomic (log_load p); match f with Some f => atomic (log_write f) | None => Ret tt end) T (λ _ T', T' = T).
Proof.
  intros Hp. eapply triple_bind; [by apply step_log_load|]. intros [f|] T' ->; [|done].
  eapply triple_mono; [apply wpt_frame, step_log_write|]. intros _ T' (T1 & -> & ->). by rewrite (left_id_L ∅ (⊎)).
Qed.

Lemma dispatch_message_ok p q h m t x : code_ok (tn_code t) → carried m x →
  triple (dispatch_message p m t) (x ⊎ serving p q h (Ready p m)) (λ _ T, T = serving p q h (Serving p)).
Proof.
  intros Hcode [Ho Ha]. unfold dispatch_message.
  assert (∀ T', x ⊎ T' = T' ⊎ x) as Hcomm by (intros T'; apply (comm_L (⊎))).
  eapply (triple_call _ _ _ _ _ x); [apply Hcomm|by apply step_init|]. intros _ T ->.
  eapply triple_call; [done|apply (step_calling_begin _ _ p q h _ (Begun p m)); left; by exists m|]. intros _ T ->.
  apply triple_keep; [apply write_log_ok; left; multiset_solver|]. intros _.
  eapply triple_call; [done|by apply step_count|]. intros v T [-> Hcb].
  assert (has p (serving p q h (Calling p) ⊎ x)) as Hhas by (left; multiset_solver).
  apply triple_keep.
  { case_match; [|done]. by apply step_update. }
  intros _. eapply triple_bind; [eapply (step_contents _ _ _ _ x); [done|multiset_solver]|]. intros b T [-> Hb].
  destruct (sv_cb v) as [cb|]; [|done].
  eapply (triple_call _ _ _ _ ({[+ Ref p +]} ⊎ x) {[+ Hold q h (Calling p) +]}).
  { rewrite <- (assoc_L (⊎)), (comm_L (⊎) {[+ Hold q h (Calling p) +]}), (assoc_L (⊎)). done. }
  { by apply Hcode. }
  intros r T (y & -> & Hy & Hf). apply triple_keep.
  { case_match; [|done]. apply step_update; [left; multiset_solver|done]. }
  intros _. assert (({[+ Ref p +]} ⊎ y) ⊎ {[+ Hold q h (Calling p) +]} = y ⊎ serving p q h (Calling p)) as -> by multiset_solver.
  eapply triple_bind; [by apply handled_free|]. intros _ T (y' & -> & Hy').
  apply step_leaking; [done|]. apply step_calling_end. by left.
Qed.

Lemma monitor_trigger_ok sm source destination T : triple (atomic (skynet_monitor_trigger sm source destination)) T (λ _ T', T' = T).
Proof. apply step_alike. intros n. by split; destruct n. Qed.

(** A step on the hold alone. *)
Lemma triple_hold {A B} (p : prog node A) (f : A → prog node B) x q h s y Q :
  triple p {[+ Hold q h s +]} (λ _ T, T = {[+ Hold q h s +]}) →
  (∀ r, triple (f r) (y ⊎ serving x q h s) Q) → triple (pbind p f) (y ⊎ serving x q h s) Q.
Proof.
  intros Hp Hf. eapply (triple_call _ _ _ _ _ (y ⊎ {[+ Ref x +]})); [|done|].
  - multiset_solver.
  - intros r T ->. assert ({[+ Hold q h s +]} ⊎ (y ⊎ {[+ Ref x +]}) = y ⊎ serving x q h s) as -> by multiset_solver. apply Hf.
Qed.

Lemma dispatch_round_ok sm q p h weight i n t : code_ok (tn_code t) →
  triple (dispatch_round sm q p h weight i n t) (serving p q h (Serving p))
    (λ r T, T = match r with Some _ => serving p q h (Serving p) | None => {[+ Ref p +]} end).
Proof.
  intros Hcode. eapply triple_bind; [by apply step_pop|]. intros [r0 [m|]] T HT; cbn [snd] in HT; [|by rewrite HT].
  destruct HT as (x & -> & Hc). cbn [snd].
  eapply (triple_bind _ _ (λ _ T, T = x ⊎ serving p q h (Taken p m))).
  { case_match; [|done]. apply triple_hold; [by apply step_mq_length|]. by intros len. }
  intros n' T ->. apply triple_hold; [by apply step_mq_overload|]. intros overload.
  assert (uses (Some p) (x ⊎ serving p q h (Taken p m))) as Hu by (apply uses_some; left; multiset_solver).
  apply triple_keep; [case_match; [by apply skynet_error_ok|done]|]. intros _.
  apply triple_keep; [by apply monitor_trigger_ok|]. intros _.
  eapply triple_call; [apply (comm_L (⊎))|by apply step_look|]. intros v T [-> _].
  eapply (triple_bind _ _ (λ _ T, T = serving p q h (Serving p))).
  { rewrite (comm_L (⊎) _ x). destruct (sv_cb v); [by apply dispatch_message_ok|by apply step_discard]. }
  intros _ T ->. by apply triple_keep; [by apply monitor_trigger_ok|].
Qed.

Lemma dispatch_rounds_ok fuel sm q p h weight i n ts : (∀ j, code_ok (tn_code (ts j))) →
  triple (dispatch_rounds fuel sm q p h weight i n ts) (serving p q h (Serving p))
    (λ r T, T = match r with Some _ => serving p q h (Serving p) | None => {[+ Ref p +]} end).
Proof.
  intros Hcode. revert i n. induction fuel as [|fuel IH]; intros i n; [done|]. cbn [dispatch_rounds].
  eapply triple_bind; [by apply dispatch_round_ok|]. intros [n'|] T ->; [apply IH|done].
Qed.

Lemma dispatch_loop_ok sm q p h weight ts : (∀ j, code_ok (tn_code (ts j))) →
  triple (dispatch_loop sm q p h weight ts) (serving p q h (Serving p))
    (λ r T, T = match r with Some _ => serving p q h (Serving p) | None => {[+ Ref p +]} end).
Proof.
  intros Hcode. eapply triple_bind; [by apply dispatch_round_ok|]. intros [n|] T ->; [by apply dispatch_rounds_ok|done].
Qed.

(** What a worker holds between its rounds. *)
Definition held (q : option positive) (T : tokens) : Prop :=
  match q with Some q => ∃ h s, T = {[+ Hold q h s +]} ∧ quiet s | None => T = ∅ end.

Lemma take_ok T (Q : option positive → tokens → Prop) : (∀ o T', held o T' → Q o (T' ⊎ T)) → triple (atomic globalmq_pop) T Q.
Proof.
  intros HQ. rewrite <- (left_id_L ∅ (⊎) T). eapply triple_mono; [apply wpt_frame, step_take|].
  intros o T' (T1 & -> & H1). apply HQ. destruct o; [|done]. destruct H1 as [h ->]. by exists h, Idle.
Qed.

Lemma skynet_context_message_dispatch_ok sm q weight ts T : (∀ j, code_ok (tn_code (ts j))) → held q T →
  triple (skynet_context_message_dispatch sm q weight ts) T held.
Proof.
  intros Hcode Hq. unfold skynet_context_message_dispatch. eapply (triple_bind _ _ held).
  { destruct q; [done|]. rewrite Hq. apply take_ok. intros o T' Ho. by rewrite (right_id_L ∅ (⊎)). }
  clear q T Hq. intros [q|] T Hq; [|done]. destruct Hq as (h & s & -> & Hs).
  eapply triple_bind; [by apply step_mq_handle|]. intros h' T (-> & -> & [Ht Hl]).
  eapply triple_bind; [by apply (step_grab_serving _ _ _ _ s)|]. intros [p|] T ->.
  - eapply triple_bind; [by apply dispatch_loop_ok|]. intros [[]|] T ->.
    + apply triple_keep; [by apply step_check_queue|]. intros _.
      eapply (triple_bind _ _ (λ o T, ∃ T', held o T' ∧ T = T' ⊎ serving p q h (Serving p))).
      { apply take_ok. intros o T' Ho. by exists T'. }
      intros [nq|] T (T' & Ho & ->).
      * rewrite (comm_L (⊎)). eapply triple_call; [done|by apply step_publish_serving|]. intros _ T ->.
        eapply triple_call; [done|by apply context_release_ok|]. intros _ T ->. apply triple_ret. by rewrite (left_id_L ∅ (⊎)).
      * cbn in Ho. subst T'. rewrite (left_id_L ∅ (⊎)).
        eapply triple_call; [done|by apply context_release_ok|]. intros _ T ->. apply triple_ret.
        rewrite (left_id_L ∅ (⊎)). by exists h, (Serving p).
    + eapply triple_bind; [by apply context_release_ok|]. intros _ T ->.
      apply take_ok. intros o T' Ho. by rewrite (right_id_L ∅ (⊎)).
  - eapply triple_bind; [by apply release_queue_ok|]. intros _ T ->.
    apply take_ok. intros o T' Ho. by rewrite (right_id_L ∅ (⊎)).
Qed.

Lemma thread_worker_ok id weight rounds q T : Forall (λ ts : nat → turn, ∀ j, code_ok (tn_code (ts j))) rounds → held q T →
  triple (thread_worker id weight rounds q) T (λ _ T', ∃ q', held q' T').
Proof.
  intros Hr. revert q T. induction Hr as [|ts rounds Hts _ IH]; intros q T Hq; [by exists q|]. cbn [thread_worker].
  eapply triple_bind; [by apply skynet_context_message_dispatch_ok|]. intros q' T' Hq'. by apply IH.
Qed.

(** ** Launching *)

(** The init function of a module keeps the context. *)
Definition init_ok (init : positive → prog node Z) : Prop := ∀ p,
  triple (init p) {[+ Ref p +]} (λ _ T, ∃ y, T = {[+ Ref p +]} ⊎ y ∧ upto [KBlock] y ∅).

Lemma handle_retire_failed q h p :
  triple (handle_retire h) {[+ Hold q h (Fresh p) +]} (λ _ T, T = {[+ Hold q h Idle +]}).
Proof.
  eapply triple_bind; [by apply step_retire_failed|]. intros [x|] T ->.
  - eapply triple_call; [done|by apply context_release_ok|]. intros _ T ->. apply triple_ret. by rewrite (left_id_L ∅ (⊎)).
  - apply triple_ret. by rewrite (left_id_L ∅ (⊎)).
Qed.

Lemma idle_quiet : quiet Idle.
Proof. done. Qed.

Lemma skynet_context_new_ok init name param : (∀ f, init = Some f → init_ok f) →
  triple (skynet_context_new init name param) ∅
    (λ o T, T = match o with Some p => {[+ Launch p +]} | None => ∅ end).
Proof.
  intros Hinit. destruct init as [init|]; [|done]. specialize (Hinit init eq_refl). unfold skynet_context_new.
  eapply triple_bind; [by apply step_create|]. intros [p h0] T ->. cbn [fst].
  eapply triple_bind; [by apply step_queue_create|]. intros q T [h ->].
  apply triple_keep; [apply step_alike; intros n; by split; destruct n|]. intros _.
  eapply triple_bind; [apply (step_calling_begin _ _ p q h _ (Starting p)); by right|]. intros _ T ->.
  eapply triple_call; [done|by apply Hinit|]. intros r T (y & -> & Hy).
  assert (({[+ Ref p +]} ⊎ y) ⊎ {[+ Hold q h (Starting p) +]} = y ⊎ serving p q h (Starting p)) as -> by multiset_solver.
  eapply (triple_bind _ _ (λ _ T, T = serving p q h (Fresh p))).
  { apply step_leaking; [done|]. apply step_calling_end. by right. }
  intros _ T ->. destruct (r =? 0).
  - eapply triple_bind; [by apply (release_after_ok _ _ _ {[+ Hold q h Idle +]} ({[+ Launch p +]} ⊎ {[+ Hold q h (Fresh p) +]})), step_release_launched|].
    intros o T [[-> ->]|[-> ->]].
    + eapply triple_bind; [by apply step_publish, idle_quiet|]. intros _ T ->. by apply triple_ret.
    + eapply triple_bind; [by apply step_started|]. intros _ T ->. rewrite (comm_L (⊎)).
      eapply triple_call; [done|by apply step_publish, idle_quiet|]. intros _ T ->. rewrite (left_id_L ∅ (⊎)).
      apply triple_keep; [apply skynet_error_ok, uses_some; right; right; right; multiset_solver|]. by intros _.
  - apply triple_keep; [apply skynet_error_ok, uses_some; left; multiset_solver|]. intros _.
    eapply triple_bind; [apply (step_context_handle _ _ p); left; multiset_solver|]. intros h' T (-> & [Ht Hl] & Hh).
    assert (h' = h) as -> by (apply (Hh q h (Fresh p)); [multiset_solver|done]).
    eapply triple_call; [done|by apply context_release_ok|]. intros _ T ->. rewrite (left_id_L ∅ (⊎)).
    eapply triple_bind; [by apply handle_retire_failed|]. intros _ T ->.
    eapply triple_bind; [by apply release_queue_ok; [apply idle_quiet|..]|]. intros _ T ->. by apply triple_ret.
Qed.

(** ** Commands *)

Lemma set_result_ok p s T : has p T → triple (set_result p s) T (λ _ T', T' = T).
Proof. intros Hp. apply triple_keep; [by apply step_update|]. by intros _. Qed.

Lemma gives_nothing type sz O : tag type PTYPE_TAG_DONTCOPY = false → gives type 0 sz O O.
Proof. intros E. unfold gives. rewrite E. split; [done|by left]. Qed.

Lemma handle_exit_ok p h T : Ref p ∈ T → addressable h → triple (handle_exit p h) T (λ _ T', T' = T).
Proof.
  intros Hp Hh. assert (uses (Some p) T) as Hu by (apply uses_some; by left). unfold handle_exit.
  eapply (triple_bind _ _ (λ x T', T' = T ∧ addressable x)).
  { case_match.
    - eapply triple_bind; [apply (step_context_handle _ _ p); by left|]. intros x T' (-> & [_ Hl] & _).
      apply triple_keep; [by apply skynet_error_ok|]. intros _. split; [done|by right].
    - apply triple_keep; [by apply skynet_error_ok|]. intros _. by split. }
  intros x T' [-> Hx]. eapply triple_bind; [by apply step_read_monitor|]. intros monitor T' [-> Hm].
  apply triple_keep.
  { case_match; [|done]. apply triple_keep; [|done]. apply skynet_send_ok; [by apply gives_nothing|done|].
    split; try done; [by right|by left]. }
  intros _. apply triple_keep; [by apply triple_frame, handle_retire_ok|]. by intros _.
Qed.

Lemma addressable_0 : addressable 0.
Proof. right. unfold is_remote. cbn. by rewrite andb_false_r. Qed.

Lemma timer_carried h session : carried (timer_message {| ev_handle := h; ev_session := session |}).2 ∅.
Proof. split; [apply owns_null|apply addressable_0]. Qed.

Lemma timeout_ok h time session T : triple (timeout h time session) T (λ _ T', T' = T).
Proof.
  unfold timeout. case_match.
  - apply triple_keep; [|by intros r]. apply triple_frame. eapply triple_mono; [by apply skynet_context_push_ok, timer_carried|].
    by intros r T' [[_ ->]|[_ ->]].
  - apply triple_keep; [by apply step_timer|]. by intros _.
Qed.

(** The handle that a parameter names. *)
Definition param_ok (s : cstring) : Prop := hd 0 s = 58 → addressable (u32 (strtoul 16 (tail s))).

Lemma tohandle_ok p s T : Ref p ∈ T → triple (tohandle p s) T (λ h T', T' = T ∧ (param_ok s → addressable h)).
Proof.
  intros Hp. unfold tohandle. destruct (Z.eqb_spec (hd 0 s) 58) as [E|E].
  - split; [done|]. intros H. by apply H.
  - case_match.
    + eapply triple_mono; [by apply step_findname|]. by intros h T' [-> ?].
    + apply triple_keep; [apply skynet_error_ok, uses_some; by left|]. intros _. split; [done|]. intros _. apply addressable_0.
Qed.

(** A command on the context [p]: the tokens stay. *)
Definition command_safe (f : positive → option cstring → prog node (option cstring)) (p : positive)
    (param : option cstring) : Prop :=
  ∀ T, Ref p ∈ T → triple (f p param) T (λ _ T', T' = T).

Lemma with_param_ok param f T : (∀ s, param = Some s → triple (f s) T (λ _ T', T' = T)) → param ≠ None →
  triple (with_param param f) T (λ _ T', T' = T).
Proof. intros H Hn. destruct param as [s|]; [by apply H|done]. Qed.

Lemma cmd_timeout_ok p param : param ≠ None → command_safe cmd_timeout p param.
Proof.
  intros Hp T Hr. apply with_param_ok; [|done]. intros s _. assert (has p T) as Hh by by left.
  apply triple_keep; [by apply step_newsession|]. intros session.
  eapply triple_bind; [by apply (step_context_handle _ _ p)|]. intros h T' (-> & _).
  apply triple_keep; [by apply timeout_ok|]. intros _. by apply set_result_ok.
Qed.

Lemma namehandle_ok h nm T : addressable h → triple (namehandle h nm) T (λ _ T', T' = T).
Proof. apply step_namehandle. Qed.

Lemma cmd_reg_ok p param : command_safe cmd_reg p param.
Proof.
  intros T Hr. assert (has p T) as Hh by by left. unfold cmd_reg. destruct param as [[|c s]|].
  - eapply triple_bind; [by apply (step_context_handle _ _ p)|]. intros h T' (-> & _). by apply set_result_ok.
  - case_match.
    + eapply triple_bind; [by apply (step_context_handle _ _ p)|]. intros h T' (-> & [_ Hl] & _).
      apply namehandle_ok. by right.
    + by apply triple_keep; [by apply skynet_error_ok, uses_some|].
  - eapply triple_bind; [by apply (step_context_handle _ _ p)|]. intros h T' (-> & _). by apply set_result_ok.
Qed.

Lemma cmd_query_ok p param : param ≠ None → command_safe cmd_query p param.
Proof.
  intros Hp T Hr. apply with_param_ok; [|done]. intros s _. assert (has p T) as Hh by by left. case_match; [|done].
  eapply triple_bind; [by apply step_findname|]. intros h T' [-> _]. case_match; [|done]. by apply set_result_ok.
Qed.

(** NAME with two words, the second one for a handle that can be reached. *)
Definition name_ok (param : cstring) : Prop :=
  let '(name, s) := scan_word param in
  let '(handle, _) := scan_word s in
  name ≠ [] ∧ handle ≠ [] ∧ addressable (u32 (strtoul 16 (tail handle))).

Lemma cmd_name_ok p param : (∃ s, param = Some s ∧ name_ok s) → command_safe cmd_name p param.
Proof.
  intros (s & -> & Hs) T Hr. unfold cmd_name, with_param. unfold name_ok in Hs.
  destruct (scan_word s) as [name s'], (scan_word s') as [handle s2]. destruct Hs as (Hn & Hh & Ha).
  destruct name as [|n0 name]; [done|]. destruct handle as [|h0 handle]; [done|]. cbn [tail] in Ha.
  case_match; [done|]. cbv zeta. case_match; [done|]. case_match; [by apply namehandle_ok|].
  by apply triple_keep; [apply skynet_error_ok, uses_some; by left|].
Qed.

Lemma cmd_exit_ok p param : command_safe cmd_exit p param.
Proof. intros T Hr. by apply triple_keep; [by apply handle_exit_ok, addressable_0|]. Qed.

Lemma cmd_kill_ok p param : (∃ s, param = Some s ∧ param_ok s) → command_safe cmd_kill p param.
Proof.
  intros (s & -> & Hs) T Hr. eapply triple_bind; [by apply tohandle_ok|]. intros h T' [-> Ha].
  apply triple_keep; [|by intros _]. case_match; [|done]. by apply handle_exit_ok, Ha.
Qed.

Lemma launch_handle_ok p : triple (atomic (h ⟵ context_handle p; launched p;; ret h)) {[+ Launch p +]} (λ _ T, T = ∅).
Proof.
  apply wpt_atomic. intros F n Hi Hn.
  assert (has p {[+ Launch p +]}) as Hp by (right; right; right; by apply gmultiset_elem_of_singleton).
  pose proof (step_context_handle harbor_id remote_ok p {[+ Launch p +]} Hp F n Hi Hn) as H1. cbn in H1. unfold bind.
  destruct (context_handle p n) as [[h n']| |] eqn:E; [|done..]. destruct H1 as (T & Hi' & -> & _).
  assert (n' = n) as ->.
  { unfold context_handle, in_hs, skynet_context_handle in E.
    destruct (get_ctx p (N_hs n)); cbn in E; [|done]. injection E as _ <-. by destruct n. }
  pose proof (step_launched harbor_id remote_ok p F n Hi Hn) as H2. cbn in H2.
  destruct H2 as (T & Hi2 & ->). by exists ∅.
Qed.

Lemma cmd_launch_ok init p param : (∀ f, init = Some f → init_ok f) → param ≠ None → command_safe (cmd_launch init) p param.
Proof.
  intros Hinit Hp T Hr. apply with_param_ok; [|done]. intros s _. destruct (launch_args s) as [mod_ args].
  eapply triple_none; [by apply skynet_context_new_ok|]. intros [inst|] T' ->.
  - eapply triple_call; [done|by apply launch_handle_ok|]. intros h T' ->. rewrite (left_id_L ∅ (⊎)).
    apply set_result_ok. by left.
  - apply triple_ret. by rewrite (left_id_L ∅ (⊎)).
Qed.

Lemma cmd_getenv_ok p param : param ≠ None → command_safe cmd_getenv p param.
Proof. intros Hp T Hr. apply with_param_ok; [|done]. intros s _. apply step_read. Qed.

(** Setting a variable twice fails an assertion; only commands that set none are covered. *)
Lemma cmd_setenv_ok p param : (∃ s, param = Some s ∧ (strsep [32] s).2 = None) → command_safe cmd_setenv p param.
Proof. intros (s & -> & Hs) T Hr. unfold cmd_setenv, with_param. destruct (strsep [32] s) as [key [v|]]; [done|done]. Qed.

Lemma cmd_starttime_ok p param : command_safe cmd_starttime p param.
Proof. intros T Hr. apply triple_keep; [by apply step_read|]. intros sec. apply set_result_ok. by left. Qed.

Lemma cmd_abort_ok rounds p param : command_safe (cmd_abort rounds) p param.
Proof. intros T Hr. by apply triple_keep; [by apply triple_frame, handle_retireall_ok|]. Qed.

Lemma cmd_monitor_ok p param : (∀ s, param = Some s → param_ok s) → command_safe cmd_monitor p param.
Proof.
  intros Hs T Hr. unfold cmd_monitor.
  assert (triple (m ⤆ atomic (read N_monitor_exit); if truth m then set_result p (58 :: fmt_x m) else Ret None) T (λ _ T', T' = T)) as Hread.
  { apply triple_keep; [by apply step_read|]. intros m. case_match; [|done]. apply set_result_ok. by left. }
  destruct param as [[|c s]|]; [done| |done].
  eapply triple_bind; [by apply tohandle_ok|]. intros h T' [-> Ha].
  by apply triple_keep; [by apply step_set_monitor, Ha, Hs|].
Qed.

Lemma cmd_stat_ok now p param : param ≠ None → command_safe (cmd_stat now) p param.
Proof.
  intros Hp T Hr. apply with_param_ok; [|done]. intros s _. assert (has p T) as Hh by by left.
  case_match; [apply triple_keep; [by apply step_stat_mqlen|]; intros n; by apply set_result_ok|].
  case_match.
  { apply triple_keep; [by apply step_get_sv|]. intros v. case_match; [|by apply set_result_ok].
    apply triple_keep; [by apply step_update|]. intros _. by apply set_result_ok. }
  case_match; [apply triple_keep; [by apply step_get_sv|]; intros v; by apply set_result_ok|].
  case_match; [apply triple_keep; [by apply step_get_sv|]; intros v; by apply set_result_ok|].
  case_match; [apply triple_keep; [by apply step_get_sv|]; intros v; by apply set_result_ok|].
  by apply set_result_ok.
Qed.

Lemma skynet_log_open_ok opens p h T : Ref p ∈ T →
  triple (skynet_log_open opens p h) T (λ o T', T' = match o with Some f => {[+ File f +]} ⊎ T | None => T end).
Proof.
  intros Hr. apply triple_keep; [by apply step_read|]. intros [path|]; [|done]. case_match.
  - eapply triple_bind; [by apply step_open|]. intros f T' ->.
    apply triple_keep; [apply skynet_error_ok, uses_some, has_add; by left|]. by intros _.
  - by apply triple_keep; [apply skynet_error_ok, uses_some; by left|].
Qed.

(** The context that a parameter names is held while the command works on it. *)
Lemma on_context_ok p param f : param ≠ None →
  (∀ x h s T, Ref p ∈ T → Ref x ∈ T → triple (f x h s) T (λ _ T', T' = T)) →
  ∀ T, Ref p ∈ T → triple (on_context p param f) T (λ _ T', T' = T).
Proof.
  intros Hp Hf T Hr. apply with_param_ok; [|done]. intros s _.
  eapply triple_bind; [by apply tohandle_ok|]. intros h T' [-> _]. case_match; [done|].
  eapply triple_none; [by apply step_grab|]. intros [x|] T' ->; [|apply triple_ret; by rewrite (left_id_L ∅ (⊎))].
  apply triple_keep; [apply Hf; multiset_solver|]. intros _.
  eapply triple_call; [done|by apply context_release_ok|]. intros _ T' ->. apply triple_ret. by rewrite (left_id_L ∅ (⊎)).
Qed.

Lemma fclose_ok f T : triple (atomic (fclose f)) ({[+ File f +]} ⊎ T) (λ _ T', T' = T).
Proof.
  eapply triple_mono; [apply wpt_frame, step_fclose|]. intros _ T' (T1 & -> & ->). by rewrite (left_id_L ∅ (⊎)).
Qed.

Lemma cmd_logon_ok opens p param : param ≠ None → command_safe (cmd_logon opens) p param.
Proof.
  intros Hp. unfold command_safe. apply on_context_ok; [done|]. intros x h s T Hr Hx.
  apply triple_keep; [apply step_get_sv; by left|]. intros v. case_match; [done|].
  eapply triple_bind; [by apply skynet_log_open_ok|]. intros [f|] T' ->; [|done].
  eapply triple_bind; [apply step_set_logfile; by left|]. intros [] T' ->; [done|]. apply fclose_ok.
Qed.

Lemma cmd_logoff_ok p param : param ≠ None → command_safe cmd_logoff p param.
Proof.
  intros Hp. unfold command_safe. apply on_context_ok; [done|]. intros x h s T Hr Hx.
  apply triple_keep; [apply step_get_sv; by left|]. intros v. case_match; [|done].
  eapply triple_bind; [apply step_clear_logfile; by left|]. intros [] T' ->; [|done].
  apply triple_keep; [apply skynet_error_ok, uses_some, has_add; by left|]. intros _. apply fclose_ok.
Qed.

Lemma cmd_signal_ok p param : param ≠ None → command_safe cmd_signal p param.
Proof. intros Hp. unfold command_safe. by apply on_context_ok. Qed.

(** The parameters of the commands that the program reads without a check, and the handles
    it passes on. *)
Definition params_ok (cmd : cstring) (param : option cstring) : Prop :=
  if bool_decide (cmd = str "NAME") then ∃ s, param = Some s ∧ name_ok s
  else if bool_decide (cmd = str "KILL") then ∃ s, param = Some s ∧ param_ok s
  else if bool_decide (cmd = str "SETENV") then ∃ s, param = Some s ∧ (strsep [32] s).2 = None
  else if bool_decide (cmd = str "MONITOR") then ∀ s, param = Some s → param_ok s
  else cmd ∈ [str "REG"; str "EXIT"; str "STARTTIME"; str "ABORT"] ∨ param ≠ None.

Lemma find_command_in {A} cmd (fs : list (cstring * A)) f : find_command cmd fs = Some f → (cmd, f) ∈ fs.
Proof.
  induction fs as [|[name g] fs IH]; [done|]. cbn. destruct (Z.eqb_spec (strcmp cmd name) 0) as [E|E].
  - intros [= <-]. apply strcmp_eq in E as ->. by left.
  - intros H. right. by apply IH.
Qed.

Ltac decide_names H := repeat first
  [ rewrite bool_decide_eq_false_2 in H by discriminate | rewrite bool_decide_eq_true_2 in H by reflexivity ].

(** A command that is not among those whose parameter may be missing. *)
Ltac need_param H := destruct H as [H|H]; [apply (bool_decide_eq_true_2 (_ ∈ _)) in H; vm_compute in H|].

Lemma skynet_command_ok init o p cmd param : init_ok init → params_ok cmd param →
  command_safe (λ p, skynet_command init o p cmd) p param.
Proof.
  intros Hinit Hcmd T Hr. unfold skynet_command.
  destruct (find_command cmd (cmd_funcs init o)) as [f|] eqn:Ef; [|done].
  apply find_command_in in Ef. unfold cmd_funcs in Ef. unfold params_ok in Hcmd.
  assert (∀ g, (if out_found o then Some init else None) = Some g → init_ok g) as Hi.
  { intros g E. destruct (out_found o); [by injection E as <-|done]. }
  repeat (apply elem_of_cons in Ef as [[= -> ->]|Ef]); decide_names Hcmd.
  - apply cmd_timeout_ok; [by need_param Hcmd|done].
  - by apply cmd_reg_ok.
  - apply cmd_query_ok; [by need_param Hcmd|done].
  - by apply cmd_name_ok.
  - by apply cmd_exit_ok.
  - by apply cmd_kill_ok.
  - apply cmd_launch_ok; [done|by need_param Hcmd|done].
  - apply cmd_getenv_ok; [by need_param Hcmd|done].
  - by apply cmd_setenv_ok.
  - by apply cmd_starttime_ok.
  - by apply cmd_abort_ok.
  - by apply cmd_monitor_ok.
  - apply cmd_stat_ok; [by need_param Hcmd|done].
  - apply cmd_logon_ok; [by need_param Hcmd|done].
  - apply cmd_logoff_ok; [by need_param Hcmd|done].
  - apply cmd_signal_ok; [by need_param Hcmd|done].
  - by apply not_elem_of_nil in Ef.
Qed.

(** ** Services *)

(** The rules for the code of a service that owns the blocks [O]: what it frees or
    sends without a copy it must own, and no longer owns afterwards. *)
Definition api_ok (a : api) (O : tokens) (k : Z → tokens → Prop) : Prop :=
  match a with
  | Send source destination type session data sz =>
      send_ok true source destination type session sz ∧
      ∃ O', gives type data sz O O' ∧ ∀ r, k r O'
  | SendName source addr type session data sz =>
      sendname_ok true source addr type session sz ∧
      ∃ O', gives type data sz O O' ∧ ∀ r, k r O'
  | QueryName _ | LogError _ | HarborStart => ∀ r, k r O
  | Callback cb => cb ≠ None ∧ ∀ r, k r O
  | Alloc b => inner b = (0, 0) ∧ ∀ d, k (Z.pos d) ({[+ Block d (block_size b) 0 0 +]} ⊎ O)
  | Free data => (data = 0 ∧ ∀ r, k r O) ∨
      ∃ b n i j O', data = Z.pos b ∧ O = {[+ Block b n i j +]} ⊎ O' ∧ ∀ r, k r O'
  end.

Fixpoint client_ok (fin : Z → tokens → Prop) (c : client) (O : tokens) : Prop :=
  match c with
  | Done r => fin r O
  | Call a k => api_ok a O (λ r O', client_ok fin (k r) O')
  | Command cmd param init o k =>
      params_ok cmd param ∧ client_ok (λ _ _, True) init ∅ ∧ ∀ r, client_ok fin (k r) O
  end.

(** The rules for the callbacks. *)
Definition callbacks_ok (code : client_code) : Prop := ∀ cb type session source data sz b x,
  owns data sz x → seen data b x → addressable source →
  client_ok (λ r y, truth r = false → frees data y) (code cb type session source data sz b) x.

Lemma ref_pull (p : positive) (x O : tokens) : {[+ Ref p +]} ⊎ (x ⊎ O) = x ⊎ ({[+ Ref p +]} ⊎ O).
Proof. multiset_solver. Qed.

Lemma gives_ref p type data sz O O' : gives type data sz O O' → gives type data sz ({[+ Ref p +]} ⊎ O) ({[+ Ref p +]} ⊎ O').
Proof.
  unfold gives. case_match.
  - intros (x & -> & Ho). exists x. by rewrite ref_pull.
  - intros (-> & Hd). split; [done|]. destruct Hd as [?|(b & n & k & ? & ? & ?)]; [by left|right].
    exists b, n, k. split; [done|]. split; [by apply there|done].
Qed.

Lemma gives_blocks type data sz O O' : gives type data sz O O' → upto [KBlock] O ∅ → upto [KBlock] O' ∅.
Proof.
  unfold gives. case_match; [|by intros [-> _]]. intros (x & -> & _) HO. by apply upto_blocks_sub in HO as [_ HO'].
Qed.

Lemma skynet_harbor_start_ok p T : Ref p ∈ T → triple (skynet_harbor_start p) T (λ _ T', T' = T).
Proof.
  intros Hp. eapply triple_bind; [by apply (step_context_grab _ _ p)|]. intros _ T' ->.
  apply triple_keep; [apply step_alike; intros n; by split; destruct n|]. intros _.
  eapply triple_mono; [by apply wpt_frame, step_harbor_start|]. intros ? T' (T1 & -> & ->). by rewrite (left_id_L ∅ (⊎)).
Qed.

Lemma run_api_ok p a O (k : Z → tokens → Prop) : upto [KBlock] O ∅ → api_ok a O k →
  triple (run_api p a) ({[+ Ref p +]} ⊎ O) (λ r T, ∃ O', T = {[+ Ref p +]} ⊎ O' ∧ upto [KBlock] O' ∅ ∧ k r O').
Proof.
  intros HO Ha. assert (∀ O, has p ({[+ Ref p +]} ⊎ O)) as Hp by (intros ?; left; apply here).
  destruct a as [source destination type session data sz|source addr type session data sz|name|cb|text|b|data|];
    cbn [api_ok run_api] in *.
  - destruct Ha as (Hs & O' & Hg & Hk). eapply triple_mono; [eapply skynet_send_ok|]; [by apply gives_ref|by apply uses_some|done|].
    intros r T ->. exists O'. split; [done|]. split; [by eapply gives_blocks|apply Hk].
  - destruct Ha as (Hs & O' & Hg & Hk). eapply triple_mono; [eapply skynet_sendname_ok|]; [by apply gives_ref|by apply uses_some|done|].
    intros r T ->. exists O'. split; [done|]. split; [by eapply gives_blocks|apply Hk].
  - eapply triple_mono; [by apply skynet_queryname_ok, uses_some|]. intros r T ->. by exists O.
  - destruct Ha as [Hc Hk]. apply triple_keep; [by apply step_update|]. intros _. by exists O.
  - apply triple_keep; [by apply skynet_error_ok, uses_some|]. intros _. by exists O.
  - destruct Ha as [Hb Hk]. rewrite <- (left_id_L ∅ (⊎) (_ ⊎ O)).
    eapply triple_mono; [apply wpt_frame, step_malloc|]. intros d T (T1 & -> & (d0 & -> & ->)). rewrite Hb. cbn [fst snd].
    eexists. split; [by rewrite <- ref_pull|]. split; [by apply upto_add; [kind_in|]|apply Hk].
  - destruct Ha as [[-> Hk]|(b & n & i & j & O' & -> & -> & Hk)].
    + rewrite <- (left_id_L ∅ (⊎) (_ ⊎ O)). eapply triple_call; [done|apply (step_free _ _ 0 0 ∅), (owns_null 0)|].
      intros _ T ->. apply triple_ret. exists O. by rewrite !(left_id_L ∅ (⊎)).
    + rewrite ref_pull. eapply triple_call; [done|by apply step_free_block|]. intros _ T ->. apply triple_ret.
      exists O'. rewrite (left_id_L ∅ (⊎)). split; [done|]. by apply upto_blocks_sub in HO as [_ HO'].
  - apply triple_keep; [by apply skynet_harbor_start_ok, here|]. intros _. by exists O.
Qed.

Lemma run_client_ok c : ∀ p O fin, upto [KBlock] O ∅ → client_ok fin c O →
  triple (run_client p c) ({[+ Ref p +]} ⊎ O)
    (λ r T, ∃ y, T = {[+ Ref p +]} ⊎ y ∧ upto [KBlock] y ∅ ∧ fin r y).
Proof.
  induction c as [r|a k IH|cmd param init IHi o k IH]; intros p O fin HO Hc; cbn [client_ok run_client] in *.
  - by exists O.
  - eapply triple_bind; [by eapply run_api_ok|]. intros r T (O' & -> & HO' & Hk). by apply IH.
  - destruct Hc as (Hp & Hi & Hk). apply triple_keep.
    + apply skynet_command_ok; [|done|apply here]. intros p'.
      eapply triple_mono; [rewrite <- (right_id_L ∅ (⊎) {[+ Ref p' +]}); by apply IHi; [apply upto_refl|]|].
      intros r T (y & -> & Hy & _). by exists y.
    + intros r. by apply IH.
Qed.

Lemma turn_of_ok code t0 t1 : callbacks_ok code → code_ok (tn_code (turn_of code t0 t1)).
Proof.
  intros Hc cb p type session source data sz b x Ho Hb Ha. cbn [turn_of tn_code].
  apply run_client_ok; [by eapply owns_upto|by apply Hc].
Qed.

End Specs.
