(* ===== verification/ServerSafety.v ===== *)
(** * The node under every interleaving

    Threads that keep to the rules of the API, run from the state that
    skynet_start sets up, never fail an assertion and never use or free what is
    freed; each service handles its messages once and in the order in which they were
    sent; no reference is left over when the threads have ended.  All this is for
    the runs that [nominal] describes; [race_jobs] has one outside. *)

From stdpp Require Import gmultiset.
From S2P Require Import Prelude Kernel Threads Text MessageQueue Timer Handle Queues Server ServerInv ServerParts ServerSteps ServerSpecs.

#[local] Arguments disj_union : simpl never.
#[local] Arguments singletonMS : simpl never.

(** ** What the threads own *)

Section Jobs.
Context (harbor_id : Z) (remote_ok : bool).

Abbreviation inv := (inv harbor_id remote_ok).
Abbreviation triple p T Q := (wpt inv nominal p Q T).

Definition job_ok (j : job) : Prop :=
  match j with
  | Work id weight rounds => Forall (λ ts, ∀ i, callbacks_ok harbor_id remote_ok (ts i).1.1) rounds
  | Main found logger init name param => client_ok harbor_id remote_ok (λ _ _, True) init ∅
  | _ => True
  end.

(** What a thread may own when it has ended: a worker may still hold a queue. *)
Definition ended (T : tokens) : Prop := ∃ q, held q T.

Lemma ended_empty : ended ∅.
Proof. by exists None. Qed.

Lemma ends_empty (p : prog node unit) : triple p ∅ (λ _ T, T = ∅) → triple p ∅ (λ _ T, ended T).
Proof. intros H. eapply triple_mono; [done|]. intros _ T ->. apply ended_empty. Qed.

Lemma forward_message_ok type (padding : bool) opaque id ud data text x : owns (if padding then 0 else data) 0 x →
  triple (forward_message type padding opaque id ud data text) x (λ _ T, T = ∅).
Proof.
  intros Ho. unfold forward_message. set (text' := (if padding then take 128 text else []) : cstring).
  set (sm := {| sm_type := type; sm_id := id; sm_ud := ud; sm_buffer := if padding then 0 else data; sm_text := map Some text' |} : skynet_socket_message).
  eapply triple_none; [by apply step_malloc|]. intros p T (b & -> & ->).
  assert (carried harbor_id remote_ok {| msg_source := 0; msg_session := 0; msg_data := Z.pos b;
    msg_sz := Z.lor (SIZEOF_SOCKET_MESSAGE + len text') (Z.shiftl PTYPE_SOCKET MESSAGE_TYPE_SHIFT) |}
    ({[+ Block b (block_size (Socket sm)) (inner (Socket sm)).1 (inner (Socket sm)).2 +]} ⊎ x)) as Hc.
  { split; [|apply addressable_0]. cbn [msg_data msg_sz]. constructor; [|done].
    assert (len (map Some text') = len text') as El by (unfold len; by rewrite length_map).
    destruct (size_type (SIZEOF_SOCKET_MESSAGE + len text') PTYPE_SOCKET) as [-> _]; [|cbn [block_size sm sm_text]; lia].
    unfold MESSAGE_TYPE_MASK. rewrite land_mask by lia. apply Z.mod_small.
    pose proof (len_nonneg text'). assert (len text' ≤ 128) by (unfold text', len; destruct padding; [rewrite length_take; lia|cbn; lia]).
    unfold SIZEOF_SOCKET_MESSAGE. lia. }
  eapply triple_bind; [by apply skynet_context_push_ok|]. intros r T [[-> ->]|[-> ->]]; [done|].
  rewrite (comm_L (⊎)). eapply triple_call; [done|by eapply step_free|]. intros _ T ->. rewrite (left_id_L ∅ (⊎)).
  apply step_free_block.
Qed.

Lemma run_job_ok j : job_ok j → triple (run_job j) ∅ (λ _ T, ended T).
Proof.
  destruct j as [id weight rounds|events| |ids|type padding opaque id ud buffer text|found logger init name param];
    intros Hj; cbn [run_job job_ok] in *.
  - apply thread_worker_ok; [|done]. apply Forall_map. eapply Forall_impl; [exact Hj|]. intros ts Hts i.
    specialize (Hts i). cbn. destruct (ts i) as [[c t0] t1]. by apply turn_of_ok.
  - apply ends_empty.
    induction events as [|[h session] events IH]; [done|]. cbn [for_each]. apply triple_keep; [|by intros _].
    eapply triple_keep; [|done]. eapply triple_mono; [by apply skynet_context_push_ok, timer_carried|].
    by intros r T' [[_ ->]|[_ ->]].
  - apply ends_empty.
    unfold signal_hup. eapply triple_bind; [by apply step_findname|]. intros h T [-> _]. case_match; [|done].
    eapply triple_keep; [|done]. eapply triple_mono; [apply skynet_context_push_ok|by intros r T' [[_ ->]|[_ ->]]].
    split; [apply owns_null|apply addressable_0].
  - apply ends_empty.
    induction ids as [|sm ids IH]; [done|]. cbn [for_each]. apply triple_keep; [|by intros _].
    unfold skynet_monitor_check. apply triple_keep; [by apply step_read|]. intros m. case_match.
    + case_match; [|done]. apply triple_keep; [by apply skynet_context_endless_ok|]. intros _.
      by apply skynet_error_ok, uses_none.
    + apply step_alike. intros n. by split; destruct n.
  - apply ends_empty. destruct padding.
    + apply forward_message_ok, (owns_null 0).
    + eapply triple_bind; [by apply step_malloc|]. intros data T (b & -> & ->). apply forward_message_ok.
      rewrite <- (right_id_L ∅ (⊎) {[+ _ +]}). constructor; [apply len_nonneg|]. cbn. constructor.
  - apply ends_empty. unfold main_launch.
    eapply triple_bind; [apply skynet_context_new_ok|].
    + intros f. destruct found; [|done]. intros [= <-] p.
      eapply triple_mono; [rewrite <- (right_id_L ∅ (⊎) {[+ Ref p +]}); by apply run_client_ok; [apply upto_refl|]|].
      intros r T (y & -> & Hy & _). by exists y.
    + intros [p|] T ->; [|done].
      assert (has p {[+ Launch p +]}) as Hp by (right; right; right; by apply gmultiset_elem_of_singleton).
      apply triple_keep; [|intros _; apply step_launched]. case_match; [|done].
      eapply triple_bind; [by apply (step_context_handle _ _ p)|]. intros h T (-> & [_ Hl] & _).
      by apply triple_keep; [apply namehandle_ok; by right|].
Qed.

End Jobs.

(** ** The start *)

Definition harbor_bits (harbor : Z) : Z := u32 (Z.shiftl (u32 harbor) HANDLE_REMOTE_SHIFT).

Ltac absurd_token Hno := intros; match goal with H : _ ∈ _ |- _ => by destruct (Hno _ H) end.

Lemma boot_inv hb profile wall mono env : 0 ≤ hb < 256 →
  inv (harbor_bits hb) false ∅ (skynet_boot hb profile wall mono env).
Proof.
  intros Hh. destruct (Handle.init_ok hb) as [Hs Hn].
  assert (∀ t : token, multiplicity t (∅ : tokens) = 0%nat) as Hm by (intros; apply multiplicity_empty).
  assert (∀ t : token, t ∈ (∅ : tokens) → False) as Hno by multiset_solver.
  assert (∀ x, in_table (HState (skynet_handle_init hb) ∅) x = false) as Ht.
  { intros x. destruct (in_table _ x) eqn:E; [|done]. by destruct (in_table_live _ x Hs E) as (c & Hc & _). }
  assert (harbor (H (HState (skynet_handle_init hb) ∅)) = harbor_bits hb) as Eb.
  { cbn. unfold harbor_bits. f_equal. change 255 with (2 ^ 8 - 1). rewrite land_mask by lia. unfold u32.
    rewrite !Z.mod_small; lia. }
  exists ∅, [], ∅, ∅. split; cbn [skynet_boot N_hs N_mq N_sv N_next N_mem N_brk N_HARBOR N_REMOTE N_TI N_files N_file_next
    N_launching N_logging N_log N_monitor_exit].
  - split; try done; try absurd_token Hno.
    + by exists [].
    + intros p [H|[H|[?|?]]]; [by apply Hno in H..|done|multiset_solver].
    + intros p b. rewrite Hm. lia.
  - split; try absurd_token Hno; [apply queues_init| |].
    + intros w q. split; [set_solver|]. intros (_ & h & s & Hin). by apply Hno in Hin.
    + intros q h s. rewrite Hm. lia.
  - split; try done; try absurd_token Hno.
    intros p. cbn. rewrite !lookup_empty. split; intros [? ?]; done.
  - assert (queued (∅ : gmap positive (view tokens)) = ∅) as Eq by (unfold queued; by rewrite map_to_list_empty).
    split; [rewrite Eq, (left_id_L ∅ (⊎))|done]. split; try absurd_token Hno.
    + intros b n i k. rewrite Hm. lia.
    + intros b B Hb. by rewrite lookup_empty in Hb.
  - by split.
  - split; try done; try absurd_token Hno. intros f. rewrite Hm. lia.
  - split; intros x; rewrite Hm; lia.
  - destruct (wheel_is _ _ wheel_create) as [H1 H2 H3]. unfold skynet_timer_init. by destruct (systime wall).
  - exists []. split; [done|]. intros nm h Hin. by apply elem_of_nil in Hin.
  - apply addressable_0.
  - by split.
  - done.
  - done.
Qed.

(** ** The theorems *)

(** The threads [jobs] of a node that has just been set up, and the states they reach
    through nominal ones. *)
Definition start (hb : Z) (profile : bool) (wall mono : timespec) (env : gmap cstring cstring) (jobs : list job) : pool node :=
  (map run_job jobs, skynet_boot hb profile wall mono env).

Definition reaches (c c' : pool node) : Prop := rtc (nominal_step nominal) c c'.

Lemma reach_ok hb profile wall mono env jobs c : 0 ≤ hb < 256 →
  Forall (job_ok (harbor_bits hb) false) jobs → reaches (start hb profile wall mono env jobs) c →
  pool_ok (inv (harbor_bits hb) false) nominal ended c.
Proof.
  intros Hh Hj Hc. eapply pool_run_ok; [|exact Hc]. apply pool_ok_start; [by apply boot_inv|].
  apply Forall_map. eapply Forall_impl; [exact Hj|]. intros j. apply run_job_ok.
Qed.



(** C5: when all threads have ended, and no harbor service was started, every context
    left is in the table of handles and has exactly the table's reference. *)
Theorem node_settles hb profile wall mono env jobs c p x : 0 ≤ hb < 256 →
  Forall (job_ok (harbor_bits hb) false) jobs → reaches (start hb profile wall mono env jobs) c →
  Forall returned c.1 → N_REMOTE c.2 = None → ctxs (N_hs c.2) !! p = Some x →
  ctx_ref x = 1 ∧ in_table (N_hs c.2) p = true.
Proof.
  intros Hh Hj Hc Hr Hrem Hx. destruct (pool_ok_ended _ _ _ _ (reach_ok _ _ _ _ _ _ _ Hh Hj Hc) Hr)
    as (Ts & (D & l & G & L & Hi) & Hend).
  pose proof (iv_handles _ _ _ _ _ _ _ _ Hi) as Ha. rewrite Hrem in Ha.
  assert (L = ∅) as -> by (apply (iv_leaked _ _ _ _ _ _ _ _ Hi), Hrem).
  assert (∀ t, kind_of t = KRef → multiplicity t (⋃+ Ts) = 0%nat) as Hno.
  { intros t Ht. clear -Hend Ht. induction Hend as [|T Ts [q HT] _ IH]; [apply multiplicity_empty|].
    rewrite gmultiset_disj_union_list_cons, multiplicity_disj_union, IH. destruct q as [q|]; cbn in HT.
    - destruct HT as (h & s & -> & _). rewrite multiplicity_singleton_ne; [done|]. intros ->. done.
    - subst T. by rewrite multiplicity_empty. }
  pose proof (ha_ref _ _ _ _ _ Ha p x Hx) as Er. rewrite !Hno, multiplicity_empty in Er by done.
  assert (ctx_ref x ≠ 0) as H0.
  { intros E0. destruct (ha_zero _ _ _ _ _ Ha p x Hx E0) as [b Hb]. apply mult_in in Hb. rewrite Hno in Hb by done. lia. }
  unfold of_bool in Er. rewrite bool_decide_eq_false_2 in Er by done. change (Z.of_nat 0) with 0 in Er.
  case_match; [split; [lia|done]|lia].
Qed.

(** ** Runs that are computed *)

Definition nominalb (n : node) : bool :=
  forallb (λ p, bool_decide (is_Some (N_sv n !! p))) (elements (N_launching n)) &&
  forallb (λ f, bool_decide (f ∈ N_files n)) (elements (N_logging n)) &&
  forallb (λ '(p, v), match ctxs (N_hs n) !! p, sv_queue v with
                      | Some c, None => (ctx_ref c =? 2) && in_table (N_hs n) p
                      | _, _ => true
                      end) (map_to_list (N_sv n)) &&
  (handle_index (H (N_hs n)) + 2 * slot_size (H (N_hs n)) <=? 2 ^ 24) &&
  (name_count (H (N_hs n)) <? 2 ^ 29) &&
  forallb (λ '(q, Q), skynet_mq_length Q + 1 <? 2 ^ 30) (map_to_list (heap (N_mq n))).

Lemma nominalb_nominal n : nominalb n = true → nominal n.
Proof.
  unfold nominalb. rewrite !andb_true_iff, !forallb_forall, Z.leb_le, Z.ltb_lt. setoid_rewrite <- list_elem_of_In.
  intros [[[[[H1 H2] H3] H4] H5] H6]. split; [| | |done|done|].
  - intros p Hp. specialize (H1 p). rewrite gmultiset_elem_of_elements in H1. by apply H1, bool_decide_eq_true_1 in Hp.
  - intros f Hf. specialize (H2 f). rewrite gmultiset_elem_of_elements in H2. by apply H2, bool_decide_eq_true_1 in Hf.
  - intros p v c Hv Hc Hq. specialize (H3 (p, v)). rewrite elem_of_map_to_list in H3. specialize (H3 Hv).
    cbn in H3. rewrite Hc, Hq in H3. apply andb_true_iff in H3 as [?%Z.eqb_eq ?]. done.
  - intros q Q HQ. specialize (H6 (q, Q)). rewrite elem_of_map_to_list in H6. by apply H6, Z.ltb_lt in HQ.
Qed.

(** A logger that starts a child for what comes from a socket and asks it; the child
    answers and exits. *)
Definition demo_child : client := Call (Callback (Some 2)) (λ _, Done 0).

Definition demo_code : client_code := λ cb type session source data sz b,
  if cb =? 2 then
    Call (Alloc (Raw [Some 1; Some 2; Some 3])) (λ d, Call (Send 0 16777217 (Z.lor PTYPE_TAG_DONTCOPY 1) session d 3) (λ _,
      Command (str "EXIT") None (Done 0) (Outside true true 0 0) (λ _, Done 0)))
  else if type =? PTYPE_SOCKET then
    Command (str "LAUNCH") (Some (str "child x")) demo_child (Outside true true 0 0) (λ _,
      Call (Send 0 16777218 PTYPE_TAG_ALLOCSESSION 0 0 0) (λ _, Done 0))
  else Done 0.

Definition demo_jobs : list job :=
  [Main true true (Call (Callback (Some 1)) (λ _, Done 0)) (str "logger") None;
   Timeouts [TimerEvent 16777217 7; TimerEvent 16777217 8];
   Received 1 true 16777217 3 0 [] (str "127.0.0.1");
   Hup;
   Work 0 (-1) (replicate 12 (λ _, (demo_code, 0, 0)));
   Work 1 0 (replicate 12 (λ _, (demo_code, 0, 0)))].

Definition demo_ids : list nat :=
  replicate 30 0%nat ++ concat (replicate 30 [1;2;3;4;5]%nat) ++ concat (replicate 300 [4;5]%nat).

Definition demo_start : pool node := start 1 false (Timespec 0 0) (Timespec 0 0) ∅ demo_jobs.

Lemma demo_code_ok : callbacks_ok 16777216 false demo_code.
Proof.
  intros cb type session source data sz b x Ho Hb Ha.
  assert (frees data x) as Hx by (destruct Ho; [by left|right; do 4 eexists; split; [done|by apply here]]).
  unfold demo_code. case_match; [|case_match; [|by intros _]]; cbn [client_ok api_ok].
  - split; [done|]. intros d. split.
    + split; try done; try (by left); try by right.
    + exists x. split; [|intros _; split; [by left; right; left|by split; [|intros _]]].
      exists ({[+ Block d 3 0 0 +]} ⊎ ∅). split; [by rewrite (right_id_L ∅ (⊎))|]. constructor; [lia|constructor].
  - split; [by right|]. split; [split; [done|by intros _]|]. intros _. split.
    + split; try done; try (by left); try by right.
    + exists x. split; [|by intros _ _]. split; [done|by left].
Qed.

Lemma demo_jobs_ok : Forall (job_ok (harbor_bits 1) false) demo_jobs.
Proof.
  unfold demo_jobs. rewrite !Forall_cons, Forall_nil. cbn [job_ok client_ok api_ok].
  split_and!; try done; apply Forall_replicate; intros _; apply demo_code_ok.
Qed.

Definition pool_ended (c : pool node) : bool :=
  forallb (λ p, match p with Ret _ => true | Step _ _ => false end) c.1.

(** In the end the logger has handled seven messages and its child one, all threads
    have ended, and one context is left. *)
Definition demo_end (c : pool node) : bool :=
  pool_ended c && (length (handled 16777217 (N_log c.2)) =? 7)%nat && (length (handled 16777218 (N_log c.2)) =? 1)%nat &&
  match map_to_list (ctxs (N_hs c.2)), N_REMOTE c.2 with [(1%positive, _)], None => true | _, _ => false end.

Lemma ok_such_that {A} (o : outcome A) (f : A → bool) : match o with Ok x => f x | _ => false end = true → ∃ x, o = Ok x ∧ f x = true.
Proof. destruct o as [x| |]; [|done..]. intros Hf. by exists x. Qed.

Lemma demo_run : ∃ c, reaches demo_start c ∧ nominal c.2 ∧ demo_end c = true.
Proof.
  destruct (ok_such_that (schedule nominalb demo_ids demo_start) demo_end) as (c & E & He); [vm_compute; reflexivity|].
  destruct (schedule_steps _ nominal _ nominalb_nominal _ _ E) as [Hr Hn]. clear E. by exists c.
Qed.

(** ** The race at a launch *)

Definition race_code : client_code := λ cb type session source data sz b,
  Command (str "KILL") (Some (str ":1000002")) (Done 0) (Outside true true 0 0) (λ _, Done 0).

Definition race_jobs : list job :=
  [Main true true (Call (Callback (Some 1)) (λ _, Done 0)) (str "logger") None;
   Hup;
   Main true false (Call (Callback (Some 2)) (λ _, Done 0)) (str "child") None;
   Work 0 (-1) (replicate 6 (λ _, (race_code, 0, 0)))].

Definition race_ids : list nat :=
  replicate 30 0%nat ++ replicate 4 1%nat ++ replicate 7 2%nat ++ replicate 40 3%nat.

Definition race_start : pool node := start 1 false (Timespec 0 0) (Timespec 0 0) ∅ race_jobs.

Lemma race_jobs_ok : Forall (job_ok (harbor_bits 1) false) race_jobs.
Proof.
  unfold race_jobs. rewrite !Forall_cons, Forall_nil. cbn [job_ok client_ok api_ok].
  split_and!; try done; apply Forall_replicate; intros _ cb type session source data sz b x Ho _ _.
  cbn. split; [|split; [done|]]; [exists (str ":1000002"); split; [done|]; intros _; by right|].
  intros _ _. destruct Ho; [by left|right; do 4 eexists; split; [done|by apply here]].
Qed.

(** The child is in its launch, its context is freed, and the next step of the thread
    that launches it aborts. *)
Definition race_lost (c : pool node) : bool :=
  bool_decide (2%positive ∈ N_launching c.2) && match N_sv c.2 !! 2%positive with None => true | Some _ => false end &&
  match sched_step 2 c with Abort => true | _ => false end.

(** C37: a thread that kills a service while another launches it can make the launch
    use the context that is freed: [skynet_context_new] sets [init] after it has
    dropped its reference.  The threads keep to the rules of the API. *)
Theorem launch_race : Forall (job_ok (harbor_bits 1) false) race_jobs ∧
  ∃ c, rtc pool_step race_start c ∧ 2%positive ∈ N_launching c.2 ∧ N_sv c.2 !! 2%positive = None ∧ aborts c.
Proof.
  split; [apply race_jobs_ok|].
  destruct (ok_such_that (schedule (λ _, true) race_ids race_start) race_lost) as (c & E & Hl); [vm_compute; reflexivity|].
  destruct (schedule_steps _ (λ _, True) _ (λ _ _, I) _ _ E) as [Hr _]. clear E. exists c.
  apply andb_true_iff in Hl as [[H1%bool_decide_eq_true_1 H2]%andb_true_iff H3]. split; [|split; [done|]].
  - eapply rtc_subrel; [|exact Hr]. by intros ?? [_ ?].
  - destruct (N_sv c.2 !! 2%positive) eqn:E; [done|]. split; [done|]. apply (sched_step_abort 2). by destruct (sched_step 2 c).
Qed.

(** ** Witnesses *)



Lemma demo_settled c : demo_end c = true → Forall returned c.1 ∧ N_REMOTE c.2 = None ∧ ∃ x, ctxs (N_hs c.2) !! 1%positive = Some x.
Proof.
  unfold demo_end, pool_ended. rewrite !andb_true_iff, forallb_forall. intros [[[Hr _] _] Hx]. split.
  - apply Forall_forall. intros p Hp%list_elem_of_In%Hr. destruct p as [x|]; [by exists x|done].
  - destruct (map_to_list (ctxs (N_hs c.2))) as [|[p x] [|? ?]] eqn:E; [done| |by destruct p].
    destruct p; try done. destruct (N_REMOTE c.2); [done|]. split; [done|]. exists x.
    apply elem_of_map_to_list. rewrite E. by left.
Qed.

Lemma node_settles_witness : ∃ c x, reaches demo_start c ∧ ctxs (N_hs c.2) !! 1%positive = Some x ∧ ctx_ref x = 1.
Proof.
  destruct demo_run as (c & Hr & Hn & He). destruct (demo_settled c He) as (H1 & H2 & x & H3). exists c, x.
  split; [done|]. split; [done|].
  by apply (node_settles 1 false (Timespec 0 0) (Timespec 0 0) ∅ demo_jobs c 1 x ltac:(lia) demo_jobs_ok Hr H1 H2 H3).
Defined.
