(* ===== verification/SocketServer.v ===== *)
(** * The socket server: skynet-src/socket_server.c

    One thread, the socket thread, runs [socket_server_poll]; the workers put
    requests into a pipe, and may write to a socket themselves when nothing else
    waits to be written ([socket_server_send]).

    The operations are taken one at a time: a worker's call and one round of the
    poll loop are atomic, so the spin lock of a socket ([Lock]) is always free
    and [ATOM_CAS] does not fail.  The pipe is the queue of its requests, without
    their encoding.  Every call to the system takes the next of the [answers]
    and is recorded in [trace], as is every buffer that is freed and every line
    of [skynet_error].  A slot that was never used is [slot_unused]: its fields
    other than its type and lists are not initialised, and not read. *)

From S2P Require Import Prelude Kernel.

Definition MAX_SOCKET_P : Z := 16.
Definition MAX_EVENT : Z := 64.
Definition MIN_READ_BUFFER : Z := 64.
Definition SOCKET_TYPE_INVALID : Z := 0.
Definition SOCKET_TYPE_RESERVE : Z := 1.
Definition SOCKET_TYPE_PLISTEN : Z := 2.
Definition SOCKET_TYPE_LISTEN : Z := 3.
Definition SOCKET_TYPE_CONNECTING : Z := 4.
Definition SOCKET_TYPE_CONNECTED : Z := 5.
Definition SOCKET_TYPE_HALFCLOSE_READ : Z := 6.
Definition SOCKET_TYPE_HALFCLOSE_WRITE : Z := 7.
Definition SOCKET_TYPE_PACCEPT : Z := 8.
Definition SOCKET_TYPE_BIND : Z := 9.
Definition MAX_SOCKET : Z := Z.shiftl 1 MAX_SOCKET_P.

Definition HASH_ID (id : Z) : Z := u32 id mod MAX_SOCKET.
Definition ID_TAG16 (id : Z) : Z := Z.land (Z.shiftr id MAX_SOCKET_P) 0xffff.

Definition PROTOCOL_TCP : Z := 0.
Definition PROTOCOL_UDP : Z := 1.
Definition PROTOCOL_UDPv6 : Z := 2.
Definition PROTOCOL_UNKNOWN : Z := 255.
Definition UDP_ADDRESS_SIZE : Z := 19.
Definition MAX_UDP_PACKAGE : Z := 65535.
Definition WARNING_SIZE : Z := 1024 * 1024.

Definition SOCKET_DATA : Z := 0.
Definition SOCKET_CLOSE : Z := 1.
Definition SOCKET_OPEN : Z := 2.
Definition SOCKET_ACCEPT : Z := 3.
Definition SOCKET_ERR : Z := 4.
Definition SOCKET_EXIT : Z := 5.
Definition SOCKET_UDP : Z := 6.
Definition SOCKET_WARNING : Z := 7.
Definition SOCKET_RST : Z := 8.
Definition SOCKET_MORE : Z := 9.

(** The errors the code distinguishes, on Linux, where EWOULDBLOCK is EAGAIN. *)
Definition EINTR : Z := 4.
Definition EAGAIN : Z := 11.
Definition ENFILE : Z := 23.
Definition EMFILE : Z := 24.
Definition EINPROGRESS : Z := 115.

(** ** Data *)

(** A buffer to send: an address, the bytes it stands for, and whether it is a
    user object, whose bytes [soi.buffer] and [soi.size] give. *)
Record buf := Buf { b_ptr : Z; b_data : list Z; b_object : bool }.

Inductive sendbuffer_type := SOCKET_BUFFER_MEMORY | SOCKET_BUFFER_OBJECT | SOCKET_BUFFER_RAWPOINTER.

Record socket_sendbuffer := SendBuffer { sb_id : Z; sb_type : sendbuffer_type; sb_buffer : buf }.

(** [wb_ptr] is the offset of [ptr] in the data.  [wb_udp] is [None] in a buffer
    of SIZEOF_TCPBUFFER bytes, which has no room for an address. *)
Record write_buffer := WriteBuffer { wb_buffer : buf; wb_ptr : Z; wb_sz : Z; wb_udp : option (list Z) }.

Record socket_stat := Stat { st_rtime : Z; st_wtime : Z; st_read : Z; st_write : Z }.

(** The union [p]. *)
Inductive socket_p := Size (n : Z) | UdpAddress (a : list Z).

Record socket := Socket {
  s_opaque : Z;
  s_high : list write_buffer;
  s_low : list write_buffer;
  s_wb_size : Z;
  s_stat : socket_stat;
  s_sending : Z;
  s_fd : Z;
  s_id : Z;
  s_type : Z;
  s_protocol : Z;
  s_reading : bool;
  s_writing : bool;
  s_closing : bool;
  s_udpconnecting : Z;
  s_warn_size : Z;
  s_p : socket_p;
  s_dw_buffer : option buf;
  s_dw_offset : Z
}.

#[export] Instance eta_socket : Eta socket := λ s,
  Socket (s_opaque s) (s_high s) (s_low s) (s_wb_size s) (s_stat s) (s_sending s) (s_fd s) (s_id s) (s_type s)
    (s_protocol s) (s_reading s) (s_writing s) (s_closing s) (s_udpconnecting s) (s_warn_size s) (s_p s)
    (s_dw_buffer s) (s_dw_offset s).

Definition slot_unused : socket :=
  Socket 0 [] [] 0 (Stat 0 0 0 0) 0 0 0 SOCKET_TYPE_INVALID PROTOCOL_UNKNOWN false false false 0 0 (Size 0) None 0.

(** The requests, by the first byte of their header. *)
Inductive request :=
| R_resume (id opaque : Z)                      (* R *)
| R_pause (id opaque : Z)                       (* S *)
| R_bind (id fd opaque : Z)                     (* B *)
| R_listen (id fd opaque : Z)                   (* L *)
| R_close (id : Z) (shutdown : bool) (opaque : Z)  (* K *)
| R_open (id port opaque : Z) (host : list Z)   (* O *)
| R_exit                                        (* X *)
| R_trigger (id : Z)                            (* W *)
| R_send (high : bool) (id : Z) (buffer : buf)  (* D and P *)
| R_send_udp (id : Z) (buffer : buf) (address : list Z)  (* A *)
| R_set_udp (id : Z) (address : list Z)         (* C *)
| R_setopt (id what value : Z)                  (* T *)
| R_udp (id fd family opaque : Z).              (* U *)

(** The result of a poll.  [sm_data] is a text, the text of an error, a name
    of the system or the bytes received. *)
Inductive message_data := NoData | Text (s : string) | Strerror (e : Z) | Name (l : list Z) | Bytes (l : list Z).

Record socket_message := SM { sm_id : Z; sm_opaque : Z; sm_ud : Z; sm_data : message_data }.

Definition no_message : socket_message := SM 0 0 0 NoData.

(** [e_s] is the slot, or [None] for the pipe. *)
Record event := Event { e_s : option Z; e_read : bool; e_write : bool; e_error : bool; e_eof : bool }.

(** ** The system *)

(** The first argument of [Write] and [Sendto] is the socket the call is made for. *)
Inductive syscall :=
| Write (id fd : Z) (data : list Z)
| Sendto (id fd : Z) (data address : list Z)
| Read (fd n : Z)
| Recvfrom (fd n : Z)
| Close (fd : Z)
| Shutdown (fd : Z) (write : bool)
| SpAdd (fd : Z)
| SpDel (fd : Z)
| SpEnable (fd : Z) (read write : bool)
| SpWait
| GetAddrInfo (host : list Z) (port : Z)
| NewSocket (address : Z)
| Connect (fd address : Z)
| BindTo (fd address : Z)
| ListenOn (fd backlog : Z)
| Accept (fd : Z)
| NonBlocking (fd : Z)
| SetSockOpt (fd what value : Z)
| GetSockError (fd : Z)
| GetPeerName (fd : Z)
| InetNtop.

(** A return value, [errno], bytes (or the addresses of [getaddrinfo]), the port
    and address of a sender, and events. *)
Record answer := Answer { a_ret : Z; a_errno : Z; a_bytes : list Z; a_sender : list Z; a_events : list event }.

(** What the system may answer: a write takes no more than it is given, a read
    gives no more than it is asked for and less than a gigabyte, a name that is
    resolved has an address, an event belongs to a slot. *)
Definition answer_ok (c : syscall) (a : answer) : bool :=
  match c with
  | Write _ _ data => (-1 <=? a_ret a) && (a_ret a <=? len data)
  | Sendto _ _ data _ => (a_ret a =? -1) || (a_ret a =? len data)
  | Read _ n | Recvfrom _ n =>
      (a_ret a =? -1) || ((a_ret a =? len (a_bytes a)) && (a_ret a <=? n) && (a_ret a <? 2 ^ 30))
  | GetAddrInfo _ _ => truth (a_ret a) || negb (bool_decide (a_bytes a = []))
  | SpWait => (a_ret a <=? MAX_EVENT) && (Z.max 0 (a_ret a) =? len (a_events a)) &&
      forallb (λ e, match e_s e with Some i => (0 <=? i) && (i <? MAX_SOCKET) | None => true end) (a_events a)
  | _ => true
  end.

Inductive action := Sys (c : syscall) (a : answer) | Free (b : buf) | Log (msg : string).

Record server := Server {
  time : Z;
  checkctrl : bool;
  alloc_id : Z;
  event_index : Z;
  ev : list event;
  slots : gmap Z socket;
  pipe : list request;
  answers : list answer;
  trace : list action
}.

#[export] Instance eta_server : Eta server := λ ss,
  Server (time ss) (checkctrl ss) (alloc_id ss) (event_index ss) (ev ss) (slots ss) (pipe ss) (answers ss) (trace ss).

Abbreviation run := (M server).

Definition emit (x : action) : run unit := λ ss, Ok (tt, ss <| trace := trace ss ++ [x] |>).

Definition sys (c : syscall) : run answer := λ ss,
  match answers ss with
  | a :: rest =>
      if answer_ok c a then Ok (a, ss <| answers := rest |> <| trace := trace ss ++ [Sys c a] |>) else Stop
  | [] => Stop
  end.

Definition sys_ (c : syscall) : run unit := _ ⟵ sys c; ret tt.

(** [struct socket *s] is the index of its slot. *)
Definition load (i : Z) : run socket := λ ss, Ok (default slot_unused (slots ss !! i), ss).
Definition store (i : Z) (s : socket) : run unit := λ ss, Ok (tt, ss <| slots := <[i := s]> (slots ss) |>).

(** [write(pipe, request)]. *)
Definition send_request (r : request) : run unit := λ ss, Ok (tt, ss <| pipe := pipe ss ++ [r] |>).

Definition modify (i : Z) (f : socket → socket) : run unit := s ⟵ load i; store i (f s).
Definition log_error (msg : string) : run unit := emit (Log msg).
Definition now : run Z := λ ss, Ok (time ss, ss).

(** The room for calls a loop that makes one each round has left. *)
Definition calls_left : run nat := λ ss, Ok (S (length (answers ss)), ss).

(** ** Sockets *)

Definition socket_invalid (s : socket) (id : Z) : bool :=
  negb (s_id s =? id) || (s_type s =? SOCKET_TYPE_INVALID).

Definition write_buffer_free (wb : write_buffer) : run unit := emit (Free (wb_buffer wb)).

(** The slot of a new id. *)
Definition reserve_slot (s : socket) (id : Z) : socket :=
  {| s_opaque := s_opaque s; s_high := s_high s; s_low := s_low s; s_wb_size := s_wb_size s; s_stat := s_stat s;
     s_sending := s_sending s; s_fd := -1; s_id := id; s_type := SOCKET_TYPE_RESERVE;
     s_protocol := PROTOCOL_UNKNOWN; s_reading := s_reading s; s_writing := s_writing s; s_closing := s_closing s;
     s_udpconnecting := 0; s_warn_size := s_warn_size s; s_p := s_p s; s_dw_buffer := s_dw_buffer s;
     s_dw_offset := s_dw_offset s |}.

(** [ATOM_FINC(&ss->alloc_id)+1] keeps the low bits.  The slots are asked in
    turn; the model stops at the 2^31st id, where the ids start again. *)
Fixpoint reserve_loop (n : nat) : run Z :=
  match n with
  | O => ret (-1)
  | S n =>
      ss ⟵ get;
      let id := alloc_id ss + 1 in
      if INT_MAX <? id then stop else
      put (ss <| alloc_id := id |>);;
      let i := HASH_ID id in
      s ⟵ load i;
      if s_type s =? SOCKET_TYPE_INVALID then
        store i (reserve_slot s id);;
        ret id
      else reserve_loop n
  end.

Definition reserve_id : run Z := reserve_loop (Z.to_nat MAX_SOCKET).

(** [free_wb_list] on a list; the caller clears it. *)
Fixpoint free_wb_list (l : list write_buffer) : run unit :=
  match l with
  | [] => ret tt
  | wb :: l => write_buffer_free wb;; free_wb_list l
  end.

(** A raw pointer stays with its owner. *)
Definition free_buffer (b : socket_sendbuffer) : run unit :=
  match sb_type b with
  | SOCKET_BUFFER_MEMORY | SOCKET_BUFFER_OBJECT => emit (Free (sb_buffer b))
  | SOCKET_BUFFER_RAWPOINTER => ret tt
  end.

(** The copy of a raw pointer is a new block; [fresh] is its address. *)
Definition clone_buffer (b : socket_sendbuffer) (fresh : Z) : buf :=
  match sb_type b with
  | SOCKET_BUFFER_MEMORY => Buf (b_ptr (sb_buffer b)) (b_data (sb_buffer b)) false
  | SOCKET_BUFFER_OBJECT => Buf (b_ptr (sb_buffer b)) (b_data (sb_buffer b)) true
  | SOCKET_BUFFER_RAWPOINTER => Buf fresh (b_data (sb_buffer b)) false
  end.

Definition close_message (s : socket) : socket_message := SM (s_id s) (s_opaque s) 0 NoData.

Definition force_close (i : Z) : run socket_message :=
  s ⟵ load i;
  let type := s_type s in
  if type =? SOCKET_TYPE_INVALID then ret (close_message s)
  else
    require (negb (type =? SOCKET_TYPE_RESERVE));;
    free_wb_list (s_high s);;
    modify i (λ s, s <| s_high := ([] : list write_buffer) |>);;
    free_wb_list (s_low s);;
    modify i (λ s, s <| s_low := ([] : list write_buffer) |>);;
    sys_ (SpDel (s_fd s));;
    (if negb (type =? SOCKET_TYPE_BIND) then sys_ (Close (s_fd s)) else ret tt);;
    modify i (λ s, s <| s_type := SOCKET_TYPE_INVALID |>);;
    match s_dw_buffer s with
    | Some b => emit (Free b);; modify i (λ s, s <| s_dw_buffer := (None : option buf) |>)
    | None => ret tt
    end;;
    ret (close_message s).

Definition enable_write (i : Z) (enable : bool) : run Z :=
  s ⟵ load i;
  if negb (Bool.eqb (s_writing s) enable) then
    store i (s <| s_writing := enable |>);;
    a ⟵ sys (SpEnable (s_fd s) (s_reading s) enable);
    ret (a_ret a)
  else ret 0.

Definition enable_read (i : Z) (enable : bool) : run Z :=
  s ⟵ load i;
  if negb (Bool.eqb (s_reading s) enable) then
    store i (s <| s_reading := enable |>);;
    a ⟵ sys (SpEnable (s_fd s) enable (s_writing s));
    ret (a_ret a)
  else ret 0.

Definition set_type (i type : Z) : run unit := modify i (λ s, s <| s_type := type |>).

(** The slot, or [None] for NULL. *)
Definition new_fd (id fd protocol opaque : Z) (reading : bool) : run (option Z) :=
  let i := HASH_ID id in
  s ⟵ load i;
  require (s_type s =? SOCKET_TYPE_RESERVE);;
  a ⟵ sys (SpAdd fd);
  if truth (a_ret a) then set_type i SOCKET_TYPE_INVALID;; ret None
  else
    require (bool_decide (s_high s = []) && bool_decide (s_low s = []));;
    store i
      {| s_opaque := opaque; s_high := s_high s; s_low := s_low s; s_wb_size := 0; s_stat := Stat 0 0 0 0;
         s_sending := Z.lor (Z.shiftl (ID_TAG16 id) 16) 0; s_fd := fd; s_id := id; s_type := s_type s;
         s_protocol := protocol; s_reading := true; s_writing := false; s_closing := false;
         s_udpconnecting := s_udpconnecting s; s_warn_size := 0; s_p := Size MIN_READ_BUFFER;
         s_dw_buffer := None; s_dw_offset := s_dw_offset s |};;
    r ⟵ enable_read i reading;
    if truth r then set_type i SOCKET_TYPE_INVALID;; ret None
    else ret (Some i).

Definition stat_read (i n : Z) : run unit :=
  t ⟵ now;
  modify i (λ s, s <| s_stat := Stat t (st_wtime (s_stat s)) (u64 (st_read (s_stat s) + n)) (st_write (s_stat s)) |>).

Definition stat_write (i n : Z) : run unit :=
  t ⟵ now;
  modify i (λ s, s <| s_stat := Stat (st_rtime (s_stat s)) t (st_read (s_stat s)) (u64 (st_write (s_stat s) + n)) |>).

Definition report_error (i : Z) (err : message_data) : run (Z * socket_message) :=
  s ⟵ load i; ret (SOCKET_ERR, SM (s_id s) (s_opaque s) 0 err).

(** The first address a connection can be started to. *)
Fixpoint connect_loop (addresses : list Z) (err : Z) : run (option (Z * Z) * Z) :=
  match addresses with
  | [] => ret (None, err)
  | ai :: addresses =>
      sock ⟵ sys (NewSocket ai);
      if a_ret sock <? 0 then connect_loop addresses (a_errno sock)
      else
        sys_ (SetSockOpt (a_ret sock) 0 1);;
        sys_ (NonBlocking (a_ret sock));;
        c ⟵ sys (Connect (a_ret sock) ai);
        if truth (a_ret c) && negb (a_errno c =? EINPROGRESS) then
          sys_ (Close (a_ret sock));; connect_loop addresses (a_errno c)
        else ret (Some (a_ret sock, a_ret c), err)
  end.

Definition open_failed (id opaque : Z) (data : message_data) : run (Z * socket_message) :=
  set_type (HASH_ID id) SOCKET_TYPE_INVALID;;
  ret (SOCKET_ERR, SM id opaque 0 data).

Definition open_socket (id port opaque : Z) (host : list Z) : run (Z * socket_message) :=
  ai ⟵ sys (GetAddrInfo host port);
  if truth (a_ret ai) then open_failed id opaque (Strerror (a_ret ai))
  else
    '(sock, err) ⟵ connect_loop (a_bytes ai) 0;
    match sock with
    | None => open_failed id opaque (Strerror err)
    | Some (sock, status) =>
        ns ⟵ new_fd id sock PROTOCOL_TCP opaque true;
        match ns with
        | None => sys_ (Close sock);; open_failed id opaque (Text "reach skynet socket number limit")
        | Some ns =>
            if status =? 0 then
              set_type ns SOCKET_TYPE_CONNECTED;;
              a ⟵ sys InetNtop;
              ret (SOCKET_OPEN, SM id opaque 0 (if truth (a_ret a) then Name (a_bytes a) else NoData))
            else
              set_type ns SOCKET_TYPE_CONNECTING;;
              r ⟵ enable_write ns true;
              if truth r then open_failed id opaque (Text "enable write failed")
              else ret (-1, no_message)
        end
    end.

(** ** Sending *)

(** [e] is [errno] of the call that failed. *)
Definition close_write (i e : Z) : run (Z * socket_message) :=
  s ⟵ load i;
  if s_closing s then r ⟵ force_close i; ret (SOCKET_RST, r)
  else if s_type s =? SOCKET_TYPE_HALFCLOSE_READ then r ⟵ force_close i; ret (SOCKET_RST, r)
  else if s_type s =? SOCKET_TYPE_HALFCLOSE_WRITE then ret (SOCKET_RST, no_message)
  else
    set_type i SOCKET_TYPE_HALFCLOSE_WRITE;;
    sys_ (Shutdown (s_fd s) true);;
    _ ⟵ enable_write i false;
    report_error i (Strerror e).

Definition wb_list (high : bool) (s : socket) : list write_buffer := if high then s_high s else s_low s.
Definition set_wb_list (high : bool) (l : list write_buffer) (s : socket) : socket :=
  if high then s <| s_high := l |> else s <| s_low := l |>.

(** The bytes from [ptr] on. *)
Definition wb_rest (wb : write_buffer) : option (list Z) := mem_read (b_data (wb_buffer wb)) (wb_ptr wb) (wb_sz wb).

(** The loops of [send_list_tcp]: each round makes a call. *)
Fixpoint send_list_tcp_loop (fuel : nat) (i : Z) (high : bool) : run (Z * socket_message) :=
  match fuel with
  | O => abort
  | S fuel =>
      s ⟵ load i;
      match wb_list high s with
      | [] => ret (-1, no_message)
      | tmp :: next =>
          data ⟵ must (wb_rest tmp);
          a ⟵ sys (Write (s_id s) (s_fd s) data);
          let sz := a_ret a in
          if sz <? 0 then
            if a_errno a =? EINTR then send_list_tcp_loop fuel i high
            else if a_errno a =? EAGAIN then ret (-1, no_message)
            else close_write i (a_errno a)
          else
            stat_write i sz;;
            modify i (λ s, s <| s_wb_size := s_wb_size s - sz |>);;
            if negb (sz =? wb_sz tmp) then
              modify i (λ s, set_wb_list high
                (WriteBuffer (wb_buffer tmp) (wb_ptr tmp + sz) (wb_sz tmp - sz) (wb_udp tmp) :: next) s);;
              ret (-1, no_message)
            else
              modify i (λ s, set_wb_list high next s);;
              write_buffer_free tmp;;
              send_list_tcp_loop fuel i high
      end
  end.

Definition send_list_tcp (i : Z) (high : bool) : run (Z * socket_message) :=
  fuel ⟵ calls_left; send_list_tcp_loop fuel i high.

(** The address structure: the protocol, the port and the address, or 0. *)
Definition udp_socket_address (s : socket) (udp_address : list Z) : run (option (list Z)) :=
  type ⟵ must udp_address.[0];
  if negb (type =? s_protocol s) then ret None
  else if s_protocol s =? PROTOCOL_UDP then a ⟵ must (mem_read udp_address 0 7); ret (Some a)
  else if s_protocol s =? PROTOCOL_UDPv6 then a ⟵ must (mem_read udp_address 0 19); ret (Some a)
  else ret None.

Definition drop_udp (i : Z) (high : bool) (tmp : write_buffer) (next : list write_buffer) : run unit :=
  modify i (λ s, set_wb_list high next (s <| s_wb_size := s_wb_size s - wb_sz tmp |>));;
  write_buffer_free tmp.

Fixpoint send_list_udp_loop (fuel : nat) (i : Z) (high : bool) : run (Z * socket_message) :=
  match fuel with
  | O => abort
  | S fuel =>
      s ⟵ load i;
      match wb_list high s with
      | [] => ret (-1, no_message)
      | tmp :: next =>
          address ⟵ must (wb_udp tmp);
          sa ⟵ udp_socket_address s address;
          match sa with
          | None => log_error "socket-server : udp type mismatch.";; drop_udp i high tmp next;; ret (-1, no_message)
          | Some sa =>
              data ⟵ must (wb_rest tmp);
              a ⟵ sys (Sendto (s_id s) (s_fd s) data sa);
              if a_ret a <? 0 then
                if (a_errno a =? EINTR) || (a_errno a =? EAGAIN) then ret (-1, no_message)
                else
                  log_error "socket-server : udp sendto error.";; drop_udp i high tmp next;; ret (-1, no_message)
              else
                stat_write i (wb_sz tmp);;
                modify i (λ s, set_wb_list high next (s <| s_wb_size := s_wb_size s - wb_sz tmp |>));;
                write_buffer_free tmp;;
                send_list_udp_loop fuel i high
          end
      end
  end.

Definition send_list_udp (i : Z) (high : bool) : run (Z * socket_message) :=
  fuel ⟵ calls_left; send_list_udp_loop fuel i high.

Definition send_list (i : Z) (high : bool) : run (Z * socket_message) :=
  s ⟵ load i;
  if s_protocol s =? PROTOCOL_TCP then send_list_tcp i high else send_list_udp i high.

Definition list_uncomplete (l : list write_buffer) : bool :=
  match l with [] => false | wb :: _ => negb (wb_ptr wb =? 0) end.

Definition raise_uncomplete (i : Z) : run unit :=
  s ⟵ load i;
  match s_low s with
  | [] => abort
  | tmp :: next =>
      require (bool_decide (s_high s = []));;
      store i (s <| s_low := next |> <| s_high := [tmp] |>)
  end.

Definition send_buffer_empty (s : socket) : bool := bool_decide (s_high s = []) && bool_decide (s_low s = []).

(** Step 4 of [send_buffer_], with nothing left to send. *)
Definition send_finished (i : Z) : run (Z * socket_message) :=
  s ⟵ load i;
  require (send_buffer_empty s && (s_wb_size s =? 0));;
  if s_closing s then _ ⟵ force_close i; ret (-1, no_message)
  else
    err ⟵ enable_write i false;
    if truth err then report_error i (Text "disable write failed")
    else
      s ⟵ load i;
      if 0 <? s_warn_size s then
        store i (s <| s_warn_size := 0 |>);;
        ret (SOCKET_WARNING, close_message s)
      else ret (-1, no_message).

Definition send_buffer_ (i : Z) : run (Z * socket_message) :=
  s ⟵ load i;
  require (negb (list_uncomplete (s_low s)));;
  '(r, msg) ⟵ send_list i true;
  if negb (r =? -1) then ret (if r =? SOCKET_ERR then (SOCKET_ERR, msg) else (-1, msg))
  else
    s ⟵ load i;
    if bool_decide (s_high s = []) then
      if negb (bool_decide (s_low s = [])) then
        '(r, msg) ⟵ send_list i false;
        if negb (r =? -1) then ret (if r =? SOCKET_ERR then (SOCKET_ERR, msg) else (-1, msg))
        else
          s ⟵ load i;
          if list_uncomplete (s_low s) then raise_uncomplete i;; ret (-1, no_message)
          else if negb (bool_decide (s_low s = [])) then ret (-1, no_message)
          else send_finished i
      else send_finished i
    else ret (-1, no_message).

(** What a direct write left goes in front of the list. *)
Definition take_dw_buffer (i : Z) : run unit :=
  s ⟵ load i;
  match s_dw_buffer s with
  | Some b =>
      let wb := WriteBuffer b (s_dw_offset s) (len (b_data b) - s_dw_offset s) None in
      store i (s <| s_wb_size := s_wb_size s + wb_sz wb |> <| s_high := wb :: s_high s |> <| s_dw_buffer := (None : option buf) |>)
  | None => ret tt
  end.

Definition send_buffer (i : Z) : run (Z * socket_message) :=
  take_dw_buffer i;; send_buffer_ i.

(** The buffer of a request at the end of a list. *)
Definition append_sendbuffer_ (i : Z) (high : bool) (b : buf) (udp_address : option (list Z)) : run unit :=
  modify i (λ s,
    let wb := WriteBuffer b 0 (len (b_data b)) udp_address in
    set_wb_list high (wb_list high s ++ [wb]) (s <| s_wb_size := s_wb_size s + wb_sz wb |>)).

Definition append_sendbuffer_udp (i : Z) (high : bool) (b : buf) (udp_address : list Z) : run unit :=
  append_sendbuffer_ i high b (Some udp_address).
Definition append_sendbuffer (i : Z) (b : buf) : run unit := append_sendbuffer_ i true b None.
Definition append_sendbuffer_low (i : Z) (b : buf) : run unit := append_sendbuffer_ i false b None.

Definition trigger_write (id : Z) : run (Z * socket_message) :=
  let i := HASH_ID id in
  s ⟵ load i;
  if socket_invalid s id then ret (-1, no_message)
  else
    r ⟵ enable_write i true;
    if truth r then report_error i (Text "enable write failed") else ret (-1, no_message).

Definition p_address (s : socket) : option (list Z) :=
  match s_p s with UdpAddress a => Some a | Size _ => None end.

(** The end of [send_socket]: too much data waits. *)
Definition send_warning (i : Z) : run (Z * socket_message) :=
  s ⟵ load i;
  if (WARNING_SIZE <=? s_wb_size s) && (s_warn_size s <=? s_wb_size s) then
    store i (s <| s_warn_size := if s_warn_size s =? 0 then WARNING_SIZE * 2 else s_warn_size s * 2 |>);;
    let ud := if s_wb_size s mod 1024 =? 0 then s_wb_size s / 1024 else s_wb_size s / 1024 + 1 in
    ret (SOCKET_WARNING, SM (s_id s) (s_opaque s) (s32 ud) NoData)
  else ret (-1, no_message).

Definition send_socket (id : Z) (b : buf) (high : bool) (udp_address : option (list Z)) : run (Z * socket_message) :=
  let i := HASH_ID id in
  s ⟵ load i;
  let type := s_type s in
  if (type =? SOCKET_TYPE_INVALID) || negb (s_id s =? id) || (type =? SOCKET_TYPE_HALFCLOSE_WRITE)
     || (type =? SOCKET_TYPE_PACCEPT) || s_closing s then emit (Free b);; ret (-1, no_message)
  else if (type =? SOCKET_TYPE_PLISTEN) || (type =? SOCKET_TYPE_LISTEN) then
    log_error "socket-server: write to listen fd.";; emit (Free b);; ret (-1, no_message)
  else if send_buffer_empty s then
    let enable :=
      r ⟵ enable_write i true;
      if truth r then report_error i (Text "enable write failed") else send_warning i in
    if s_protocol s =? PROTOCOL_TCP then append_sendbuffer i b;; enable
    else
      address ⟵ must (match udp_address with Some a => Some a | None => p_address s end);
      sa ⟵ udp_socket_address s address;
      match sa with
      | None => log_error "socket-server: udp socket type mismatch.";; emit (Free b);; ret (-1, no_message)
      | Some sa =>
          a ⟵ sys (Sendto id (s_fd s) (b_data b) sa);
          if negb (a_ret a =? len (b_data b)) then append_sendbuffer_udp i high b address;; enable
          else stat_write i (a_ret a);; emit (Free b);; ret (-1, no_message)
      end
  else
    (if s_protocol s =? PROTOCOL_TCP then
       if high then append_sendbuffer i b else append_sendbuffer_low i b
     else
       address ⟵ must (match udp_address with Some a => Some a | None => p_address s end);
       append_sendbuffer_udp i high b address);;
    send_warning i.

(** ** Requests *)

Definition listen_socket (id fd opaque : Z) : run (Z * socket_message) :=
  s ⟵ new_fd id fd PROTOCOL_TCP opaque false;
  match s with
  | Some s => set_type s SOCKET_TYPE_PLISTEN;; ret (-1, no_message)
  | None =>
      sys_ (Close fd);;
      set_type (HASH_ID id) SOCKET_TYPE_INVALID;;
      ret (SOCKET_ERR, SM id opaque 0 (Text "reach skynet socket number limit"))
  end.

Definition nomore_sending_data (s : socket) : bool :=
  (send_buffer_empty s && negb (match s_dw_buffer s with Some _ => true | None => false end)
   && (Z.land (s_sending s) 0xffff =? 0))
  || (s_type s =? SOCKET_TYPE_HALFCLOSE_WRITE).

Definition close_read (i : Z) : run socket_message :=
  set_type i SOCKET_TYPE_HALFCLOSE_READ;;
  _ ⟵ enable_read i false;
  s ⟵ load i;
  sys_ (Shutdown (s_fd s) false);;
  ret (close_message s).

Definition halfclose_read (s : socket) : bool := s_type s =? SOCKET_TYPE_HALFCLOSE_READ.

Definition close_socket (id : Z) (shutdown : bool) (opaque : Z) : run (Z * socket_message) :=
  let i := HASH_ID id in
  s ⟵ load i;
  if socket_invalid s id then ret (-1, no_message)
  else
    let shutdown_read := halfclose_read s in
    if shutdown || nomore_sending_data s then
      r ⟵ force_close i;
      ret (if shutdown_read then -1 else SOCKET_CLOSE, r)
    else
      store i (s <| s_closing := true |>);;
      if negb shutdown_read then r ⟵ close_read i; ret (SOCKET_CLOSE, r)
      else ret (-1, no_message).

Definition bind_socket (id fd opaque : Z) : run (Z * socket_message) :=
  s ⟵ new_fd id fd PROTOCOL_TCP opaque true;
  match s with
  | None => ret (SOCKET_ERR, SM id opaque 0 (Text "reach skynet socket number limit"))
  | Some s =>
      sys_ (NonBlocking fd);;
      set_type s SOCKET_TYPE_BIND;;
      ret (SOCKET_OPEN, SM id opaque 0 (Text "binding"))
  end.

Definition resume_socket (id opaque : Z) : run (Z * socket_message) :=
  let i := HASH_ID id in
  let result data := SM id opaque 0 (Text data) in
  s ⟵ load i;
  if socket_invalid s id then ret (SOCKET_ERR, result "invalid socket"%string)
  else if halfclose_read s then ret (SOCKET_ERR, result "socket closed"%string)
  else
    r ⟵ enable_read i true;
    if truth r then ret (SOCKET_ERR, result "enable read failed"%string)
    else
      s ⟵ load i;
      let type := s_type s in
      if (type =? SOCKET_TYPE_PACCEPT) || (type =? SOCKET_TYPE_PLISTEN) then
        store i (s <| s_type := if type =? SOCKET_TYPE_PACCEPT then SOCKET_TYPE_CONNECTED else SOCKET_TYPE_LISTEN |>
                   <| s_opaque := opaque |>);;
        ret (SOCKET_OPEN, result "start"%string)
      else if type =? SOCKET_TYPE_CONNECTED then
        store i (s <| s_opaque := opaque |>);;
        ret (SOCKET_OPEN, result "transfer"%string)
      else ret (-1, no_message).

Definition pause_socket (id opaque : Z) : run (Z * socket_message) :=
  let i := HASH_ID id in
  s ⟵ load i;
  if socket_invalid s id then ret (-1, no_message)
  else
    r ⟵ enable_read i false;
    if truth r then report_error i (Text "enable read failed") else ret (-1, no_message).

Definition setopt_socket (id what value : Z) : run unit :=
  s ⟵ load (HASH_ID id);
  if socket_invalid s id then ret tt else sys_ (SetSockOpt (s_fd s) what value).

Definition AF_INET : Z := 2.
Definition AF_INET6 : Z := 10.

Definition add_udp_socket (id fd family opaque : Z) : run unit :=
  let protocol := if family =? AF_INET6 then PROTOCOL_UDPv6 else PROTOCOL_UDP in
  ns ⟵ new_fd id fd protocol opaque true;
  match ns with
  | None => sys_ (Close fd);; set_type (HASH_ID id) SOCKET_TYPE_INVALID
  | Some ns =>
      set_type ns SOCKET_TYPE_CONNECTED;;
      modify ns (λ s, s <| s_p := UdpAddress (replicate (Z.to_nat UDP_ADDRESS_SIZE) 0) |>)
  end.

Definition set_udp_address (id : Z) (address : list Z) : run (Z * socket_message) :=
  let i := HASH_ID id in
  s ⟵ load i;
  if socket_invalid s id then ret (-1, no_message)
  else
    type ⟵ must address.[0];
    if negb (type =? s_protocol s) then report_error i (Text "protocol mismatch")
    else
      old ⟵ must (p_address s);
      let n := if type =? PROTOCOL_UDP then 7 else 19 in
      new ⟵ must (x ← mem_read address 0 n; mem_write old 0 x);
      store i (s <| s_p := UdpAddress new |> <| s_udpconnecting := s_udpconnecting s - 1 |>);;
      ret (-1, no_message).

(** A full count waits until the socket thread takes requests, so the operation
    is not taken. *)
Definition inc_sending_ref (id : Z) : run unit :=
  let i := HASH_ID id in
  s ⟵ load i;
  if negb (s_protocol s =? PROTOCOL_TCP) then ret tt
  else if Z.shiftr (s_sending s) 16 =? ID_TAG16 id then
    if Z.land (s_sending s) 0xffff =? 0xffff then stop
    else store i (s <| s_sending := s_sending s + 1 |>)
  else ret tt.

Definition dec_sending_ref (id : Z) : run unit :=
  let i := HASH_ID id in
  s ⟵ load i;
  if (s_id s =? id) && (s_protocol s =? PROTOCOL_TCP) then
    require (truth (Z.land (s_sending s) 0xffff));;
    store i (s <| s_sending := s_sending s - 1 |>)
  else ret tt.

(** [ctrl_cmd] on the request it reads. *)
Definition do_request (r : request) : run (Z * socket_message) :=
  match r with
  | R_resume id opaque => resume_socket id opaque
  | R_pause id opaque => pause_socket id opaque
  | R_bind id fd opaque => bind_socket id fd opaque
  | R_listen id fd opaque => listen_socket id fd opaque
  | R_close id shutdown opaque => close_socket id shutdown opaque
  | R_open id port opaque host => open_socket id port opaque host
  | R_exit => ret (SOCKET_EXIT, no_message)
  | R_trigger id => trigger_write id
  | R_send high id b => r ⟵ send_socket id b high None; dec_sending_ref id;; ret r
  | R_send_udp id b address => send_socket id b true (Some address)
  | R_set_udp id address => set_udp_address id address
  | R_setopt id what value => setopt_socket id what value;; ret (-1, no_message)
  | R_udp id fd family opaque => add_udp_socket id fd family opaque;; ret (-1, no_message)
  end.

Definition ctrl_cmd : run (Z * socket_message) :=
  ss ⟵ get;
  match pipe ss with
  | [] => stop
  | r :: pipe' => put (ss <| pipe := pipe' |>);; do_request r
  end.

(** ** Events *)

Definition forward_message_tcp (i : Z) : run (Z * socket_message) :=
  s ⟵ load i;
  sz ⟵ must (match s_p s with Size n => Some n | UdpAddress _ => None end);
  a ⟵ sys (Read (s_fd s) sz);
  let n := a_ret a in
  if n <? 0 then
    if (a_errno a =? EINTR) || (a_errno a =? EAGAIN) then ret (-1, no_message)
    else report_error i (Strerror (a_errno a))
  else if n =? 0 then
    if s_closing s then
      (if nomore_sending_data s then _ ⟵ force_close i; ret tt else ret tt);;
      ret (-1, no_message)
    else if s_type s =? SOCKET_TYPE_HALFCLOSE_READ then ret (-1, no_message)
    else if s_type s =? SOCKET_TYPE_HALFCLOSE_WRITE then r ⟵ force_close i; ret (SOCKET_CLOSE, r)
    else r ⟵ close_read i; ret (SOCKET_CLOSE, r)
  else if halfclose_read s then ret (-1, no_message)
  else
    stat_read i n;;
    let result := SM (s_id s) (s_opaque s) n (Bytes (a_bytes a)) in
    if n =? sz then
      size ⟵ must (int_mul sz 2);
      modify i (λ s, s <| s_p := Size size |>);;
      ret (SOCKET_MORE, result)
    else
      (if (MIN_READ_BUFFER <? sz) && (n * 2 <? sz) then modify i (λ s, s <| s_p := Size (Z.quot sz 2) |>) else ret tt);;
      ret (SOCKET_DATA, result).

(** The protocol, then the port and the address. *)
Definition gen_udp_address (protocol : Z) (sa : list Z) : list Z := protocol :: sa.

(** The size of the sender's address tells its family: 6 bytes for IPv4. *)
Definition forward_message_udp (i : Z) : run (Z * socket_message) :=
  s ⟵ load i;
  a ⟵ sys (Recvfrom (s_fd s) MAX_UDP_PACKAGE);
  let n := a_ret a in
  if n <? 0 then
    if (a_errno a =? EINTR) || (a_errno a =? EAGAIN) then ret (-1, no_message)
    else
      r ⟵ force_close i;
      ret (SOCKET_ERR, SM (sm_id r) (sm_opaque r) (sm_ud r) (Strerror (a_errno a)))
  else
    stat_read i n;;
    let protocol := if len (a_sender a) =? 6 then PROTOCOL_UDP else PROTOCOL_UDPv6 in
    if negb (s_protocol s =? protocol) then ret (-1, no_message)
    else ret (SOCKET_UDP, SM (s_id s) (s_opaque s) n (Bytes (a_bytes a ++ gen_udp_address protocol (a_sender a)))).

Definition report_connect (i : Z) : run (Z * socket_message) :=
  s ⟵ load i;
  a ⟵ sys (GetSockError (s_fd s));
  if (a_ret a <? 0) || truth (a_errno a) then
    r ⟵ force_close i;
    ret (SOCKET_ERR, SM (sm_id r) (sm_opaque r) (sm_ud r) (Strerror (a_errno a)))
  else
    set_type i SOCKET_TYPE_CONNECTED;;
    s ⟵ load i;
    r ⟵ (if nomore_sending_data s then enable_write i false else ret 0);
    if truth r then
      r ⟵ force_close i;
      ret (SOCKET_ERR, SM (sm_id r) (sm_opaque r) (sm_ud r) (Text "disable write failed"))
    else
      let result data := SM (s_id s) (s_opaque s) 0 data in
      p ⟵ sys (GetPeerName (s_fd s));
      if a_ret p =? 0 then
        a ⟵ sys InetNtop;
        ret (SOCKET_OPEN, result (if truth (a_ret a) then Name (a_bytes a) else NoData))
      else ret (SOCKET_OPEN, result NoData).

(** The result of the function, then the message. *)
Definition report_accept (i : Z) : run (Z * socket_message) :=
  s ⟵ load i;
  a ⟵ sys (Accept (s_fd s));
  let client_fd := a_ret a in
  if client_fd <? 0 then
    if (a_errno a =? EMFILE) || (a_errno a =? ENFILE) then
      ret (-1, SM (s_id s) (s_opaque s) 0 (Strerror (a_errno a)))
    else ret (0, no_message)
  else
    id ⟵ reserve_id;
    if id <? 0 then sys_ (Close client_fd);; ret (0, no_message)
    else
      sys_ (SetSockOpt client_fd 0 1);;
      sys_ (NonBlocking client_fd);;
      ns ⟵ new_fd id client_fd PROTOCOL_TCP (s_opaque s) false;
      match ns with
      | None => sys_ (Close client_fd);; ret (0, no_message)
      | Some ns =>
          stat_read i 1;;
          set_type ns SOCKET_TYPE_PACCEPT;;
          n ⟵ sys InetNtop;
          ret (1, SM (s_id s) (s_opaque s) id (if truth (a_ret n) then Name (a_bytes n) else NoData))
      end.

(** The first event of a slot that [id] left is taken out. *)
Fixpoint clear_events (sl : gmap Z socket) (id : Z) (l : list event) : list event :=
  match l with
  | [] => []
  | e :: l =>
      match e_s e with
      | Some i =>
          let s := default slot_unused (sl !! i) in
          if socket_invalid s id && (s_id s =? id)
          then Event None (e_read e) (e_write e) (e_error e) (e_eof e) :: l
          else e :: clear_events sl id l
      | None => e :: clear_events sl id l
      end
  end.

Definition clear_closed_event (id type : Z) : run unit := λ ss,
  if (type =? SOCKET_CLOSE) || (type =? SOCKET_ERR) then
    let k := Z.to_nat (event_index ss) in
    Ok (tt, ss <| ev := take k (ev ss) ++ clear_events (slots ss) id (drop k (ev ss)) |>)
  else Ok (tt, ss).

(** [--ss->event_index], with [e->read = false] when [read] is false. *)
Definition again (e : event) (read : bool) : run unit :=
  ss ⟵ get;
  let k := event_index ss - 1 in
  let e := if read then e else Event (e_s e) false (e_write e) (e_error e) (e_eof e) in
  evs ⟵ must (ev ss).[k <- e];
  put (ss <| event_index := k |> <| ev := evs |>).

(** The events of a socket that is open.  [None] is the next round of the poll. *)
Definition poll_open (i : Z) (e : event) : run (option (Z * socket_message)) :=
  s ⟵ load i;
  if e_read e then
    '(type, result) ⟵ (if s_protocol s =? PROTOCOL_TCP then forward_message_tcp i else forward_message_udp i);
    if type =? SOCKET_MORE then again e true;; ret (Some (SOCKET_DATA, result))
    else if type =? SOCKET_UDP then again e true;; ret (Some (SOCKET_UDP, result))
    else
      (if e_write e && negb (type =? SOCKET_CLOSE) && negb (type =? SOCKET_ERR) then again e false else ret tt);;
      ret (if type =? -1 then None else Some (type, result))
  else if e_write e then
    '(type, result) ⟵ send_buffer i;
    ret (if type =? -1 then None else Some (type, result))
  else if e_error e then
    a ⟵ sys (GetSockError (s_fd s));
    r ⟵ report_error i (if truth (a_errno a) then Strerror (a_errno a) else Text "Unknown error");
    ret (Some r)
  else if e_eof e then
    r ⟵ force_close i;
    ret (if halfclose_read s then None else Some (SOCKET_CLOSE, r))
  else ret None.

Definition poll_event (e : event) : run (option (Z * socket_message)) :=
  match e_s e with
  | None => ret None
  | Some i =>
      s ⟵ load i;
      let type := s_type s in
      if type =? SOCKET_TYPE_CONNECTING then r ⟵ report_connect i; ret (Some r)
      else if type =? SOCKET_TYPE_LISTEN then
        '(ok, result) ⟵ report_accept i;
        ret (if 0 <? ok then Some (SOCKET_ACCEPT, result) else if ok <? 0 then Some (SOCKET_ERR, result) else None)
      else if type =? SOCKET_TYPE_INVALID then log_error "socket-server: invalid socket";; ret None
      else poll_open i e
  end.

(** [if (ss->event_index == ss->event_n)]: new events, [true] if there are none. *)
Definition poll_wait : run bool :=
  ss ⟵ get;
  if event_index ss =? len (ev ss) then
    a ⟵ sys SpWait;
    ss ⟵ get;
    put (ss <| ev := a_events a |> <| checkctrl := true |> <| event_index := 0 |>);;
    if a_ret a <=? 0 then
      (if negb (a_errno a =? EINTR) then log_error "socket-server" else ret tt);; ret true
    else ret false
  else ret false.

(** One round of the [for (;;)] of [socket_server_poll]; [None] is [continue]. *)
Definition socket_server_poll_round : run (option (Z * socket_message)) :=
  ss ⟵ get;
  if checkctrl ss && negb (bool_decide (pipe ss = [])) then
    '(type, result) ⟵ ctrl_cmd;
    if negb (type =? -1) then clear_closed_event (sm_id result) type;; ret (Some (type, result))
    else ret None
  else
    put (ss <| checkctrl := false |>);;
    none ⟵ poll_wait;
    if none : bool then ret None
    else
      ss ⟵ get;
      e ⟵ must (ev ss).[event_index ss];
      put (ss <| event_index := event_index ss + 1 |>);;
      poll_event e.

(** ** What the other threads call *)

Definition open_request (addr : list Z) : run Z :=
  if 256 <=? len addr + 24 then log_error "socket-server : Invalid addr.";; ret (-1)
  else reserve_id.

Definition socket_server_connect (opaque : Z) (addr : list Z) (port : Z) : run Z :=
  id ⟵ open_request addr;
  if id <? 0 then ret (-1)
  else send_request (R_open id port opaque addr);; ret id.

Definition can_direct_write (s : socket) (id : Z) : bool :=
  (s_id s =? id) && nomore_sending_data s && (s_type s =? SOCKET_TYPE_CONNECTED) && (s_udpconnecting s =? 0).

(** A send object is freed, a raw pointer is not. *)
Definition socket_server_send (b : socket_sendbuffer) (fresh : Z) : run Z :=
  let id := sb_id b in
  let i := HASH_ID id in
  let data := b_data (sb_buffer b) in
  s ⟵ load i;
  if socket_invalid s id || s_closing s then free_buffer b;; ret (-1)
  else if can_direct_write s id then
    n ⟵ (if s_protocol s =? PROTOCOL_TCP then
            a ⟵ sys (Write id (s_fd s) data); ret (Some (a_ret a))
          else
            address ⟵ must (p_address s);
            sa ⟵ udp_socket_address s address;
            match sa with
            | None => log_error "socket-server : set udp address first.";; free_buffer b;; ret None
            | Some sa => a ⟵ sys (Sendto id (s_fd s) data sa); ret (Some (a_ret a))
            end);
    match n with
    | None => ret (-1)
    | Some n =>
        let n := if n <? 0 then 0 else n in
        stat_write i n;;
        if n =? len data then free_buffer b;; ret 0
        else
          modify i (λ s, s <| s_dw_buffer := Some (clone_buffer b fresh) |> <| s_dw_offset := n |>);;
          inc_sending_ref id;;
          send_request (R_trigger id);;
          ret 0
    end
  else
    inc_sending_ref id;;
    send_request (R_send true id (clone_buffer b fresh));;
    ret 0.

Definition socket_server_send_lowpriority (b : socket_sendbuffer) (fresh : Z) : run Z :=
  let id := sb_id b in
  s ⟵ load (HASH_ID id);
  if socket_invalid s id then free_buffer b;; ret (-1)
  else
    inc_sending_ref id;;
    send_request (R_send false id (clone_buffer b fresh));;
    ret 0.

Definition socket_server_exit : run unit := send_request R_exit.
Definition socket_server_close (opaque id : Z) : run unit := send_request (R_close id false opaque).
Definition socket_server_shutdown (opaque id : Z) : run unit := send_request (R_close id true opaque).

(** The socket, or -1, and its family, which the address tells. *)
Definition do_bind (host : list Z) (port : Z) : run Z :=
  let host := match host with [] => [48; 46; 48; 46; 48; 46; 48] | _ => host end in
  ai ⟵ sys (GetAddrInfo host port);
  if truth (a_ret ai) then ret (-1)
  else
    address ⟵ must (head (a_bytes ai));
    fd ⟵ sys (NewSocket address);
    if a_ret fd <? 0 then ret (-1)
    else
      r ⟵ sys (SetSockOpt (a_ret fd) 2 1);
      if a_ret r =? -1 then sys_ (Close (a_ret fd));; ret (-1)
      else
        r ⟵ sys (BindTo (a_ret fd) address);
        if truth (a_ret r) then sys_ (Close (a_ret fd));; ret (-1) else ret (a_ret fd).

Definition do_listen (host : list Z) (port backlog : Z) : run Z :=
  fd ⟵ do_bind host port;
  if fd <? 0 then ret (-1)
  else
    r ⟵ sys (ListenOn fd backlog);
    if a_ret r =? -1 then sys_ (Close fd);; ret (-1) else ret fd.

Definition socket_server_listen (opaque : Z) (addr : list Z) (port backlog : Z) : run Z :=
  fd ⟵ do_listen addr port backlog;
  if fd <? 0 then ret (-1)
  else
    id ⟵ reserve_id;
    if id <? 0 then sys_ (Close fd);; ret id
    else send_request (R_listen id fd opaque);; ret id.

Definition socket_server_bind (opaque fd : Z) : run Z :=
  id ⟵ reserve_id;
  if id <? 0 then ret (-1) else send_request (R_bind id fd opaque);; ret id.

Definition socket_server_start (opaque id : Z) : run unit := send_request (R_resume id opaque).
Definition socket_server_pause (opaque id : Z) : run unit := send_request (R_pause id opaque).
Definition socket_server_updatetime (t : Z) : run unit := λ ss, Ok (tt, ss <| time := t |>).
Definition TCP_NODELAY : Z := 1.
Definition socket_server_nodelay (id : Z) : run unit := send_request (R_setopt id TCP_NODELAY 1).

(** Without an address and a port the socket is not bound. *)
Definition socket_server_udp (opaque : Z) (addr : option (list Z)) (port family : Z) : run Z :=
  fd ⟵ (if negb (port =? 0) || match addr with Some _ => true | None => false end
         then do_bind (default [] addr) port
         else a ⟵ sys (NewSocket AF_INET); ret (if a_ret a <? 0 then -1 else a_ret a));
  if fd <? 0 then ret (-1)
  else
    sys_ (NonBlocking fd);;
    id ⟵ reserve_id;
    if id <? 0 then sys_ (Close fd);; ret (-1)
    else send_request (R_udp id fd family opaque);; ret id.

Definition socket_server_udp_send (udp_address : list Z) (b : socket_sendbuffer) (fresh : Z) : run Z :=
  let id := sb_id b in
  let i := HASH_ID id in
  s ⟵ load i;
  if socket_invalid s id then free_buffer b;; ret (-1)
  else
    type ⟵ must udp_address.[0];
    if negb ((type =? PROTOCOL_UDP) || (type =? PROTOCOL_UDPv6)) then free_buffer b;; ret (-1)
    else
      let addrsz := if type =? PROTOCOL_UDP then 7 else 19 in
      let request :=
        address ⟵ must (mem_read udp_address 0 addrsz);
        send_request (R_send_udp id (clone_buffer b fresh) address);; ret 0 in
      if can_direct_write s id then
        sa ⟵ udp_socket_address s udp_address;
        match sa with
        | None => free_buffer b;; ret (-1)
        | Some sa =>
            a ⟵ sys (Sendto id (s_fd s) (b_data (sb_buffer b)) sa);
            if 0 <=? a_ret a then stat_write i (a_ret a);; free_buffer b;; ret 0 else request
        end
      else request.

(** The address of the first result of [getaddrinfo]: [a_sender] of the answer. *)
Definition socket_server_udp_connect (id : Z) (addr : list Z) (port : Z) : run Z :=
  let i := HASH_ID id in
  s ⟵ load i;
  if socket_invalid s id then ret (-1)
  else
    store i (s <| s_udpconnecting := s_udpconnecting s + 1 |>);;
    ai ⟵ sys (GetAddrInfo addr port);
    if truth (a_ret ai) then ret (-1)
    else if len (a_sender ai) =? 6 then
      send_request (R_set_udp id (gen_udp_address PROTOCOL_UDP (a_sender ai)));; ret 0
    else if len (a_sender ai) =? 18 then
      send_request (R_set_udp id (gen_udp_address PROTOCOL_UDPv6 (a_sender ai)));; ret 0
    else ret (-1).

(** Every slot is closed, except those a request in the pipe was to open. *)
Fixpoint release_loop (n : nat) (i : Z) : run unit :=
  match n with
  | O => ret tt
  | S n =>
      s ⟵ load i;
      (if negb (s_type s =? SOCKET_TYPE_RESERVE) then _ ⟵ force_close i; ret tt else ret tt);;
      release_loop n (i + 1)
  end.

Definition socket_server_release : run unit := release_loop (Z.to_nat MAX_SOCKET) 0.

Definition socket_server_create (now : Z) (kernel : list answer) : server :=
  Server now true 0 0 [] ∅ [] kernel [].
