(* ===== verification/SocketStreams.v ===== *)
(** * What the socket server sends through one socket

    The bytes written to a TCP socket are the buffers it took, one after the
    other, whatever the system takes of them at a time.  [L] is the list of those
    buffers, each with its priority; [sock_inv] ties it to the socket and to the
    bytes [w] that were written.  Each operation of [SocketServer] on one socket
    keeps [sock_inv] and does not abort; [SocketWorld] puts them together. *)

From S2P Require Import Prelude Kernel SocketServer.

(** ** Runs that change one slot *)

(** The bytes the system took for the socket [x]. *)
Definition written_by (x : Z) (a : action) : list Z :=
  match a with
  | Sys (Write id _ data) r => if id =? x then take (Z.to_nat (a_ret r)) data else []
  | _ => []
  end.
Definition written (x : Z) (tr : list action) : list Z := concat (map (written_by x) tr).
Arguments written : simpl never.

Definition slot (ss : server) (i : Z) : socket := default slot_unused (slots ss !! i).

Definition rest_of (ss : server) := (time ss, checkctrl ss, alloc_id ss, event_index ss, ev ss, pipe ss).

(** [ss] is [ss0] but for the socket [s] in slot [i], the bytes [w] written to
    [x], and the answers, [k] of which are left. *)
Record view (i x : Z) (ss0 : server) (s : socket) (w : list Z) (k : nat) (ss : server) : Prop := {
  vw_slot : slot ss i = s;
  vw_other j : j ≠ i → slot ss j = slot ss0 j;
  vw_written : written x (trace ss) = w;
  vw_silent y : y ≠ x → written y (trace ss) = written y (trace ss0);
  vw_answers : length (answers ss) = k;
  vw_rest : rest_of ss = rest_of ss0
}.

Lemma view_refl i x ss : view i x ss (slot ss i) (written x (trace ss)) (length (answers ss)) ss.
Proof. by split. Qed.

Lemma written_snoc x tr a : written x (tr ++ [a]) = written x tr ++ written_by x a.
Proof. unfold written. rewrite map_app, concat_app. cbn. by rewrite app_nil_r. Qed.

(** [wp] for a run that changes one slot: [Q] holds of the value, the socket,
    the bytes written and the number of answers left. *)
Definition wpi (i x : Z) {A} (m : run A) (Q : A → socket → list Z → nat → Prop) (s : socket) (w : list Z) (k : nat) : Prop :=
  ∀ ss0 ss, view i x ss0 s w k ss → wp m (λ r ss', ∃ s' w' k', view i x ss0 s' w' k' ss' ∧ Q r s' w' k') ss.

Definition is_write (c : syscall) : bool := match c with Write _ _ _ => true | _ => false end.

Section Rules.
Context (i x : Z).

Lemma wpi_ret {A} (r : A) Q s w k : Q r s w k → wpi i x (ret r) Q s w k.
Proof. intros HQ ss0 ss Hv. by exists s, w, k. Qed.

Lemma wpi_stop {A} (Q : A → socket → list Z → nat → Prop) s w k : wpi i x stop Q s w k.
Proof. done. Qed.

Lemma wpi_bind {A B} (m : run A) (f : A → run B) Q s w k :
  wpi i x m (λ r, wpi i x (f r) Q) s w k → wpi i x (bind m f) Q s w k.
Proof.
  intros H ss0 ss Hv. apply wp_bind. eapply wp_mono; [by apply H|].
  cbn. intros r ss' (s' & w' & k' & Hv' & HQ). by apply HQ.
Qed.

Lemma wpi_mono {A} (m : run A) Q Q' s w k :
  wpi i x m Q s w k → (∀ r s w k, Q r s w k → Q' r s w k) → wpi i x m Q' s w k.
Proof.
  intros H HQ ss0 ss Hv. eapply wp_mono; [by apply H|].
  cbn. intros r ss' (s' & w' & k' & Hv' & H'). exists s', w', k'. auto.
Qed.

Lemma wpi_load Q s w k : Q s s w k → wpi i x (load i) Q s w k.
Proof. intros HQ ss0 ss Hv. pose proof (vw_slot _ _ _ _ _ _ _ Hv) as <-. by exists (slot ss i), w, k. Qed.

Lemma wpi_store s' Q s w k : Q tt s' w k → wpi i x (store i s') Q s w k.
Proof.
  intros HQ ss0 ss [Hs Ho Hw Hl Ha Hr]. exists s', w, k. split; [|done]. split; try done.
  - unfold slot. cbn. by rewrite lookup_insert_eq.
  - intros j Hj. rewrite <- Ho by done. unfold slot. cbn. by rewrite lookup_insert_ne.
Qed.

Lemma wpi_modify f Q s w k : Q tt (f s) w k → wpi i x (modify i f) Q s w k.
Proof. intros HQ. apply wpi_bind, wpi_load, wpi_store, HQ. Qed.

Lemma wpi_sys_gen c Q s w k :
  (∀ y a, y ≠ x → written_by y (Sys c a) = []) →
  (∀ a k', answer_ok c a = true → k = S k' → Q a s (w ++ written_by x (Sys c a)) k') → wpi i x (sys c) Q s w k.
Proof.
  intros Hc HQ ss0 ss [Hs Ho Hw Hl Ha Hr]. unfold wp, sys. destruct (answers ss) as [|a rest] eqn:E; [done|].
  destruct (answer_ok c a) eqn:Hok; [|done]. eexists s, _, _. split; [|by eapply HQ].
  split; try done; cbn.
  - rewrite written_snoc. by f_equal.
  - intros y Hy. rewrite written_snoc, Hc, app_nil_r by done. by apply Hl.
Qed.

Lemma wpi_sys c Q s w k : is_write c = false →
  (∀ a k', answer_ok c a = true → k = S k' → Q a s w k') → wpi i x (sys c) Q s w k.
Proof.
  intros Hc HQ. apply wpi_sys_gen; [by destruct c|]. intros a k' Ha Hk.
  replace (written_by x (Sys c a)) with ([] : list Z) by (by destruct c). rewrite app_nil_r. auto.
Qed.

Lemma wpi_sys_ c Q s w k : is_write c = false → (∀ k', Q tt s w k') → wpi i x (sys_ c) Q s w k.
Proof. intros Hc HQ. apply wpi_bind, wpi_sys; [done|]. intros. by apply wpi_ret. Qed.

Lemma wpi_write fd data Q s w k :
  (∀ a k', -1 ≤ a_ret a ≤ len data → k = S k' → Q a s (w ++ take (Z.to_nat (a_ret a)) data) k') →
  wpi i x (sys (Write x fd data)) Q s w k.
Proof.
  intros HQ. apply wpi_sys_gen; [intros y a Hy; cbn; zcases; [lia|done]|].
  intros a k' Ha Hk. cbn in Ha |- *. rewrite Z.eqb_refl. apply HQ; [|done]. zcases; lia.
Qed.

Lemma wpi_emit a Q s w k : (∀ y, written_by y a = []) → Q tt s w k → wpi i x (emit a) Q s w k.
Proof.
  intros Hq HQ ss0 ss [Hs Ho Hw Hl Ha Hr]. exists s, w, k. split; [|done].
  split; try done; cbn; [|intros y Hy]; rewrite written_snoc, Hq, app_nil_r; auto.
Qed.

Lemma wpi_now Q s w k : (∀ t, Q t s w k) → wpi i x now Q s w k.
Proof. intros HQ ss0 ss Hv. by exists s, w, k. Qed.

Lemma wpi_calls_left Q s w k : Q (S k) s w k → wpi i x calls_left Q s w k.
Proof. intros HQ ss0 ss Hv. pose proof (vw_answers _ _ _ _ _ _ _ Hv) as <-. by exists s, w, (length (answers ss)). Qed.

Lemma wpi_must {A} (o : option A) v Q s w k : o = Some v → Q v s w k → wpi i x (must o) Q s w k.
Proof. intros ->. apply wpi_ret. Qed.

Lemma wpi_require b Q s w k : b = true → Q tt s w k → wpi i x (require b) Q s w k.
Proof. intros ->. apply wpi_ret. Qed.

End Rules.

(** One rule for the first call of a run. *)
Ltac step1 :=
  lazymatch goal with
  | |- wpi _ _ (bind _ _) _ _ _ _ => apply wpi_bind
  | |- wpi _ _ (ret _) _ _ _ _ => apply wpi_ret
  | |- wpi _ _ stop _ _ _ _ => apply wpi_stop
  | |- wpi _ _ (load _) _ _ _ _ => apply wpi_load
  | |- wpi _ _ (store _ _) _ _ _ _ => apply wpi_store
  | |- wpi _ _ (modify _ _) _ _ _ _ => apply wpi_modify
  | |- wpi _ _ (set_type _ _) _ _ _ _ => apply wpi_modify
  | |- wpi _ _ (sys_ _) _ _ _ _ => apply wpi_sys_; [done|intros ?]
  | |- wpi _ _ (sys _) _ _ _ _ => apply wpi_sys; [done|intros ? ? ? ->]
  | |- wpi _ _ (emit _) _ _ _ _ => apply wpi_emit; [done|]
  | |- wpi _ _ (log_error _) _ _ _ _ => apply wpi_emit; [done|]
  | |- wpi _ _ (write_buffer_free _) _ _ _ _ => apply wpi_emit; [done|]
  | |- wpi _ _ now _ _ _ _ => apply wpi_now; intros ?
  | |- wpi _ _ calls_left _ _ _ _ => apply wpi_calls_left
  | |- wpi _ _ (if ?b then _ else _) _ _ _ _ => destruct b eqn:?
  end; cbv beta zeta.
Ltac steps := repeat step1.

(** The conditions as propositions. *)
Ltac bools := repeat match goal with
  | H : negb _ = true |- _ => apply negb_true_iff in H
  | H : negb _ = false |- _ => apply negb_false_iff in H
  | H : bool_decide _ = true |- _ => apply bool_decide_eq_true in H
  | H : bool_decide _ = false |- _ => apply bool_decide_eq_false in H
  | H : _ || _ = false |- _ => apply orb_false_iff in H as [? ?]
  | H : _ && _ = true |- _ => apply andb_true_iff in H as [? ?]
  end.

(** ** Buffers in order *)

(** A buffer with its priority, [true] for high. *)
Abbreviation entry := (bool * list Z)%type.

Definition data_of (l : list entry) : list Z := concat (map snd l).
Definition wb_data (wb : write_buffer) : list Z := b_data (wb_buffer wb).

Definition wb_ok (wb : write_buffer) : Prop :=
  0 ≤ wb_ptr wb ∧ 0 ≤ wb_sz wb ∧ wb_ptr wb + wb_sz wb = len (wb_data wb).
Definition wb_whole (wb : write_buffer) : Prop := wb_ok wb ∧ wb_ptr wb = 0.
Definition wb_total (l : list write_buffer) : Z := fold_right (λ wb n, wb_sz wb + n) 0 l.
Arguments wb_total : simpl never.

(** Only the first buffer of a queue may be begun. *)
Definition queue_ok (q : list write_buffer) : Prop :=
  match q with [] => True | wb :: q => wb_ok wb ∧ Forall wb_whole q end.
Definition begun (q : list write_buffer) : nat :=
  match q with [] => 0%nat | wb :: _ => Z.to_nat (wb_ptr wb) end.

(** Of the buffers [L], those in the queue [q] are left; [w] is what is out. *)
Definition stream (L : list entry) (q : list write_buffer) (w : list Z) : Prop :=
  ∃ sent T, L = sent ++ T ∧ map snd T = map wb_data q ∧
    w = data_of sent ++ take (begun q) (concat (map wb_data q)).

(** Whole buffers, and a part of the next. *)
Definition cut_short (L : list entry) (w : list Z) : Prop :=
  ∃ sent rest n, L = sent ++ rest ∧ w = data_of sent ++ take n (data_of (take 1 rest)).

Lemma data_of_app l k : data_of (l ++ k) = data_of l ++ data_of k.
Proof. unfold data_of. by rewrite map_app, concat_app. Qed.

Lemma wb_total_cons wb l : wb_total (wb :: l) = wb_sz wb + wb_total l.
Proof. done. Qed.

Lemma wb_total_app l k : wb_total (l ++ k) = wb_total l + wb_total k.
Proof. induction l as [|wb l IH]; cbn; [done|]. rewrite !wb_total_cons, IH. lia. Qed.

Lemma stream_nil : stream [] [] [].
Proof. by exists [], []. Qed.

Lemma whole_begun q : Forall wb_whole q → begun q = 0%nat.
Proof. destruct q as [|wb q]; [done|]. intros [[_ Hp] _]%Forall_cons. cbn. by rewrite Hp. Qed.

Lemma whole_queue q : Forall wb_whole q → queue_ok q.
Proof. destruct q as [|wb q]; [done|]. intros [[? _] ?]%Forall_cons. done. Qed.

Lemma queue_tail wb q : queue_ok (wb :: q) → Forall wb_whole q.
Proof. by intros [_ H]. Qed.

Lemma begun_le wb q : wb_ok wb → (begun (wb :: q) ≤ length (wb_data wb))%nat.
Proof. intros (? & ? & ?). cbn. unfold len in *. lia. Qed.

Lemma wb_rest_eq wb : wb_ok wb → wb_rest wb = Some (drop (Z.to_nat (wb_ptr wb)) (wb_data wb)).
Proof.
  intros (H1 & H2 & H3). unfold wb_rest. fold (wb_data wb).
  rewrite <- (take_drop (Z.to_nat (wb_ptr wb)) (wb_data wb)) at 1.
  rewrite <- (app_nil_r (drop _ _)). rewrite mem_read_app; [by rewrite app_nil_r| |];
    unfold len in *; rewrite ?length_take, ?length_drop; lia.
Qed.

Lemma wb_rest_len wb : wb_ok wb → len (drop (Z.to_nat (wb_ptr wb)) (wb_data wb)) = wb_sz wb.
Proof. intros (H1 & H2 & H3). unfold len in *. rewrite length_drop. lia. Qed.

Lemma stream_cut L q w : queue_ok q → stream L q w → cut_short L w.
Proof.
  intros Hq (sent & T & -> & HT & ->). exists sent, T.
  destruct q as [|wb q], T as [|e T]; try done; cbn in *.
  - exists 0%nat. done.
  - injection HT as He HT. exists (Z.to_nat (wb_ptr wb)). split; [done|]. f_equal.
    unfold data_of. cbn. rewrite take_0. cbn. rewrite app_nil_r, He.
    apply take_app_le, (begun_le wb q), Hq.
Qed.

Definition sent_more (wb : write_buffer) (sz : Z) : write_buffer :=
  WriteBuffer (wb_buffer wb) (wb_ptr wb + sz) (wb_sz wb - sz) (wb_udp wb).

Lemma stream_write L wb q w sz : wb_ok wb → 0 ≤ sz ≤ wb_sz wb → stream L (wb :: q) w →
  stream L (sent_more wb sz :: q) (w ++ take (Z.to_nat sz) (drop (Z.to_nat (wb_ptr wb)) (wb_data wb))).
Proof.
  intros (H1 & H2 & H3) Hsz (sent & T & -> & HT & ->). exists sent, T. split; [done|]. split; [done|].
  rewrite <- app_assoc. f_equal. cbn. fold (wb_data wb).
  rewrite !take_app_le by (unfold len in *; change (wb_data (sent_more wb sz)) with (wb_data wb); lia).
  change (wb_data (sent_more wb sz)) with (wb_data wb). rewrite take_take_drop. f_equal. lia.
Qed.

Lemma stream_pop L wb q w : wb_ptr wb = len (wb_data wb) → begun q = 0%nat → stream L (wb :: q) w → stream L q w.
Proof.
  intros Hp Hq (sent & T & -> & HT & ->). destruct T as [|e T]; [done|]. injection HT as He HT.
  exists (sent ++ [e]), T. rewrite <- app_assoc. split; [done|]. split; [done|].
  rewrite Hq, take_0, app_nil_r, data_of_app. f_equal. cbn. unfold data_of. cbn. rewrite app_nil_r, He, Hp.
  rewrite take_app_le by (unfold len; lia). apply take_ge. unfold len. lia.
Qed.

(** A whole buffer is queued. *)
Lemma stream_ins L q1 q2 w p wb : wb_ptr wb = 0 → queue_ok (q1 ++ q2) → Forall wb_whole q2 →
  stream L (q1 ++ q2) w → stream (ins (len L - len q2) (p, wb_data wb) L) (q1 ++ wb :: q2) w.
Proof.
  intros Hp Hq Hw (sent & T & -> & HT & ->). rewrite map_app in HT.
  apply map_eq_app in HT as (T1 & T2 & -> & H1 & H2).
  exists sent, (T1 ++ (p, wb_data wb) :: T2). split; [|split].
  - unfold ins. replace (Z.to_nat _) with (length (sent ++ T1)).
    + rewrite app_assoc, take_app_length, drop_app_length. by rewrite <- app_assoc.
    + assert (length T2 = length q2) by (by rewrite <- (length_map snd), H2, length_map).
      unfold len. rewrite !length_app. lia.
  - rewrite !map_app. cbn. by rewrite H1, H2.
  - f_equal. destruct q1 as [|h q1]; cbn.
    + rewrite (whole_begun q2) by done. by rewrite Hp.
    + rewrite !map_app, !concat_app. pose proof (begun_le h (q1 ++ q2) (proj1 Hq)) as Hb. cbn in Hb.
      by rewrite !take_app_le.
Qed.

(** ** The invariant of a socket *)

(** The buffers of a socket in the order they go out. *)
Definition dw_list (s : socket) : list write_buffer :=
  match s_dw_buffer s with
  | Some b => [WriteBuffer b (s_dw_offset s) (len (b_data b) - s_dw_offset s) None]
  | None => []
  end.
Definition pend (s : socket) : list write_buffer := dw_list s ++ s_high s ++ s_low s.

Definition empty (s : socket) : Prop := s_high s = [] ∧ s_low s = [] ∧ s_dw_buffer s = None.
Definition is_open (type : Z) : Prop := type ≠ SOCKET_TYPE_INVALID ∧ type ≠ SOCKET_TYPE_RESERVE.
Definition read_size_ok (s : socket) : Prop := ∃ n, s_p s = Size n ∧ 1 ≤ n ≤ INT_MAX.

(** What does not depend on the type of the socket: the low list ends [L]. *)
Record queued (L : list entry) (s : socket) (w : list Z) : Prop := {
  qd_stream : stream L (pend s) w;
  qd_queue : queue_ok (pend s);
  qd_size : s_wb_size s = wb_total (s_high s) + wb_total (s_low s);
  qd_tags : Forall (λ e, e.1 = false) (advance (len L - len (s_low s)) L);
  qd_read : read_size_ok s
}.

Record live (x : Z) (L : list entry) (s : socket) (w : list Z) : Prop := {
  lv_id : s_id s = x;
  lv_type : is_open (s_type s);
  lv_tcp : s_protocol s = PROTOCOL_TCP;
  lv_low : Forall wb_whole (s_low s);
  lv_queued : queued L s w
}.

Record closed (x : Z) (L : list entry) (s : socket) (w : list Z) : Prop := {
  cl_id : s_id s = x;
  cl_type : s_type s = SOCKET_TYPE_INVALID;
  cl_empty : empty s;
  cl_cut : cut_short L w
}.

Record reserved (x : Z) (L : list entry) (s : socket) (w : list Z) : Prop := {
  rs_id : s_id s = x;
  rs_type : s_type s = SOCKET_TYPE_RESERVE;
  rs_protocol : s_protocol s = PROTOCOL_UNKNOWN;
  rs_empty : empty s;
  rs_none : L = [] ∧ w = []
}.

Definition sock_inv x L s w : Prop := live x L s w ∨ closed x L s w ∨ reserved x L s w.

(** What the queue depends on, and what a call for one socket leaves alone. *)
Definition core (s : socket) :=
  (s_id s, s_protocol s, s_high s, s_low s, s_wb_size s, s_p s, s_dw_buffer s, s_dw_offset s).
Definition frame (s : socket) := (s_id s, s_protocol s, s_sending s).

(** Open before, and open or closed after. *)
Definition kept (x : Z) (L : list entry) (s0 s : socket) (w : list Z) : Prop :=
  frame s = frame s0 ∧ (live x L s w ∨ closed x L s w).

Lemma queued_core L s s' w : core s' = core s → queued L s w → queued L s' w.
Proof.
  intros E [H1 H2 H3 H4 H5]. injection E as E1 E2 E3 E4 E5 E6 E7 E8.
  assert (Hp : pend s' = pend s) by (unfold pend, dw_list; by rewrite E3, E4, E7, E8).
  split; unfold read_size_ok in *; rewrite ?Hp, ?E3, ?E4, ?E5, ?E6; done.
Qed.

Lemma live_core x L s s' w : core s' = core s → is_open (s_type s') → live x L s w → live x L s' w.
Proof.
  intros E Ht [H1 H2 H3 H4 H5]. pose proof (queued_core _ _ _ _ E H5). injection E as E1 E2 E3 E4 _ _ _ _.
  split; congruence.
Qed.

Lemma live_cut x L s w : live x L s w → cut_short L w.
Proof. intros [_ _ _ _ [H1 H2 _ _ _]]. by eapply stream_cut. Qed.

Lemma sock_cut x L s w : sock_inv x L s w → cut_short L w.
Proof.
  intros [H|[[_ _ _ H]|[_ _ _ _ [-> ->]]]]; [by eapply live_cut|done|]. by exists [], [], 0%nat.
Qed.

Lemma sock_live x L s w : sock_inv x L s w → is_open (s_type s) → live x L s w.
Proof. intros [H|[[_ H _ _]|[_ H _ _ _]]] [? ?]; done. Qed.

Lemma queued_of q L s w : pend s = q → stream L q w → queue_ok q →
  s_wb_size s = wb_total (s_high s) + wb_total (s_low s) →
  Forall (λ e, e.1 = false) (advance (len L - len (s_low s)) L) → read_size_ok s → queued L s w.
Proof. intros <- ? ? ? ? ?. by split. Qed.

Lemma tags_shorter (L : list entry) a b : Forall (λ e, e.1 = false) (advance (len L - a) L) → b ≤ a →
  Forall (λ e, e.1 = false) (advance (len L - b) L).
Proof.
  unfold advance. intros H Hab.
  replace (Z.to_nat (len L - b)) with (Z.to_nat (len L - a) + (Z.to_nat (len L - b) - Z.to_nat (len L - a)))%nat by lia.
  rewrite <- drop_drop. by apply Forall_drop.
Qed.

(** The buffers of one priority, and a list that took one more in its order, or did not. *)
Definition by_prio (p : bool) (L : list entry) : list (list Z) := map snd (filter (λ e, e.1 = p) L).
Definition took (p : bool) (d : list Z) (L L' : list entry) : Prop :=
  L' = L ∨ ∀ q, by_prio q L' = by_prio q L ++ (if Bool.eqb q p then [d] else []).

Lemma by_prio_app p L K : by_prio p (L ++ K) = by_prio p L ++ by_prio p K.
Proof. unfold by_prio. by rewrite filter_app, map_app. Qed.

Lemma by_prio_low (L : list entry) : Forall (λ e, e.1 = false) L → by_prio true L = [].
Proof.
  induction 1 as [|[p d] L Hp _ IH]; [done|]. cbn in Hp. subst p. unfold by_prio in *.
  by rewrite filter_cons_False by done.
Qed.

Lemma by_prio_one p q d : by_prio q [(p, d)] = if Bool.eqb q p then [d] else [].
Proof. by destruct p, q. Qed.

(** A buffer that goes before low ones, or to the end. *)
Lemma ins_took (L : list entry) n p d : Forall (λ e, e.1 = false) (advance (len L - n) L) → p = true ∨ n = 0 →
  took p d L (ins (len L - n) (p, d) L).
Proof.
  intros Ht Hn. right. intros q. unfold ins, advance in *.
  change ((p, d) :: drop (Z.to_nat (len L - n)) L) with ([(p, d)] ++ drop (Z.to_nat (len L - n)) L).
  assert (E : by_prio q L = by_prio q (take (Z.to_nat (len L - n)) L) ++ by_prio q (drop (Z.to_nat (len L - n)) L))
    by by rewrite <- by_prio_app, take_drop.
  rewrite E, !by_prio_app, by_prio_one, <- app_assoc. f_equal.
  destruct Hn as [-> | ->].
  - destruct q; cbn; [by rewrite by_prio_low|by rewrite app_nil_r].
  - rewrite drop_ge by (unfold len; lia). cbn. by rewrite app_nil_r.
Qed.

Lemma pend_len L s w : queued L s w → 0 ≤ len (s_low s) ≤ len L.
Proof.
  intros [(sent & T & -> & HT & _) _ _ _ _]. apply (f_equal length) in HT. revert HT.
  unfold pend. rewrite !length_map, !length_app. unfold len. rewrite length_app. lia.
Qed.

Lemma ins_suffix (L : list entry) n e : 0 ≤ n ≤ len L →
  advance (len (ins (len L - n) e L) - n) (ins (len L - n) e L) = advance (len L - n) L.
Proof.
  intros Hn. rewrite len_ins by lia. unfold advance, ins.
  change (e :: drop (Z.to_nat (len L - n)) L) with ([e] ++ drop (Z.to_nat (len L - n)) L). rewrite app_assoc.
  apply drop_app_length'. rewrite length_app, length_take. cbn. unfold len in *. lia.
Qed.

Lemma ins_end (L : list entry) e n : 0 ≤ n ≤ len L →
  advance (len (ins (len L - 0) e L) - (n + 1)) (ins (len L - 0) e L) = advance (len L - n) L ++ [e].
Proof.
  intros Hn. rewrite len_ins by lia. unfold advance, ins.
  rewrite (take_ge L), (drop_ge L) by (unfold len; lia). replace (len L + 1 - (n + 1)) with (len L - n) by lia.
  apply drop_app_le. unfold len in *. lia.
Qed.

(** A buffer is put at the end of a list. *)
Definition low_part (high : bool) (s : socket) : list write_buffer := if high then s_low s else [].

Lemma queued_append high p b u L s w s' : queued L s w → Forall wb_whole (s_low s) →
  (high = false → p = false) →
  core s' = core (set_wb_list high (wb_list high s ++ [WriteBuffer b 0 (len (b_data b)) u])
                    (s <| s_wb_size := s_wb_size s + len (b_data b) |>)) →
  queued (ins (len L - len (low_part high s)) (p, b_data b) L) s' w.
Proof.
  intros Hq Hlow Hp Hc. pose proof (pend_len _ _ _ Hq) as Hle. destruct Hq as [H1 H2 H3 H4 H5].
  set (wb := WriteBuffer b 0 (len (b_data b)) u) in *. eapply queued_core; [exact Hc|].
  set (q1 := dw_list s ++ (if high then s_high s else s_high s ++ s_low s)).
  assert (Hpe : pend s = q1 ++ low_part high s).
  { unfold pend, q1, low_part. destruct high; cbn; rewrite <- ?app_assoc, ?app_nil_r; done. }
  rewrite Hpe in H1, H2.
  assert (Hpart : Forall wb_whole (low_part high s)) by (unfold low_part; destruct high; done).
  assert (Hwb : wb_whole wb) by (split; [split_and!; cbn; unfold wb_data; cbn; pose proof (len_nonneg (b_data b)); lia|done]).
  apply (queued_of (q1 ++ wb :: low_part high s)).
  - unfold pend, q1, low_part, dw_list. destruct high; cbn; rewrite <- ?app_assoc; done.
  - by apply (stream_ins _ _ _ _ p wb).
  - destruct q1 as [|h q1]; [by apply whole_queue, Forall_cons|]. cbn in H2 |- *. destruct H2 as [? Hw]. split; [done|].
    rewrite Forall_app in Hw |- *. rewrite Forall_cons. tauto.
  - destruct high; cbn; rewrite wb_total_app, wb_total_cons, H3; change (wb_total []) with 0; cbn; lia.
  - destruct high; cbn; [by rewrite ins_suffix|]. rewrite len_app. change (len [wb]) with 1. rewrite ins_end by done.
    apply Forall_app. rewrite Forall_singleton. auto.
  - destruct H5 as [n [? ?]]. exists n. by destruct high.
Qed.

Section Calls.
Context (i x : Z) (L : list entry).

(** *** Closing and switching *)

Lemma wpi_free_list l (Q : unit → socket → list Z → nat → Prop) s w k : Q tt s w k → wpi i x (free_wb_list l) Q s w k.
Proof. intros HQ. revert HQ. induction l as [|wb l IH]; intros HQ; cbn; steps; auto. Qed.

Lemma force_close_live s0 s w k : live x L s w → frame s = frame s0 →
  wpi i x (force_close i) (λ _ s' w' _, frame s' = frame s0 ∧ closed x L s' w') s w k.
Proof.
  intros Hl Hf. pose proof (live_cut _ _ _ _ Hl) as Hc. destruct Hl as [Hid [Ht1 Ht2] Htcp _ _].
  unfold force_close. steps; [lia|].
  apply wpi_require; [lia|]. steps. apply wpi_free_list. steps. apply wpi_free_list.
  destruct (s_dw_buffer s) eqn:Edw; steps; (split; [exact Hf|split; [exact Hid|done|split_and!; done|done]]).
Qed.
Lemma wpi_enable_write b (Q : Z → socket → list Z → nat → Prop) (s : socket) w k :
  (∀ r k', Q r (s <| s_writing := b |>) w k') → wpi i x (enable_write i b) Q s w k.
Proof.
  intros HQ. unfold enable_write. steps; [apply HQ|].
  replace s with (s <| s_writing := b |>) by (destruct s, b, s_writing; cbn in *; done). apply HQ.
Qed.

Lemma wpi_enable_read b (Q : Z → socket → list Z → nat → Prop) (s : socket) w k :
  (∀ r k', Q r (s <| s_reading := b |>) w k') → wpi i x (enable_read i b) Q s w k.
Proof.
  intros HQ. unfold enable_read. steps; [apply HQ|].
  replace s with (s <| s_reading := b |>) by (destruct s, b, s_reading; cbn in *; done). apply HQ.
Qed.

Lemma wpi_stat_read n (Q : unit → socket → list Z → nat → Prop) (s : socket) w k :
  (∀ st, Q tt (s <| s_stat := st |>) w k) → wpi i x (stat_read i n) Q s w k.
Proof. intros HQ. unfold stat_read. steps. apply HQ. Qed.

Lemma wpi_stat_write n (Q : unit → socket → list Z → nat → Prop) (s : socket) w k :
  (∀ st, Q tt (s <| s_stat := st |>) w k) → wpi i x (stat_write i n) Q s w k.
Proof. intros HQ. unfold stat_write. steps. apply HQ. Qed.

Lemma kept_core s0 s s' w : core s' = core s → s_sending s' = s_sending s → is_open (s_type s') →
  live x L s w → frame s = frame s0 → kept x L s0 s' w.
Proof.
  intros E Es Ht Hl Hf. split; [|left; by eapply live_core].
  rewrite <- Hf. unfold frame. injection E as -> -> _ _ _ _ _ _. by rewrite Es.
Qed.

Lemma force_close_kept s0 s w k : live x L s w → frame s = frame s0 →
  wpi i x (force_close i) (λ _ s' w' _, kept x L s0 s' w') s w k.
Proof.
  intros Hl Hf. eapply wpi_mono; [by eapply force_close_live|]. intros r s' w' k' [? ?]. split; auto.
Qed.

Lemma close_read_kept s0 s w k : live x L s w → frame s = frame s0 →
  wpi i x (close_read i) (λ _ s' w' _, kept x L s0 s' w') s w k.
Proof.
  intros Hl Hf. unfold close_read. steps. apply wpi_enable_read. intros r k'. steps.
  by eapply kept_core with (s := s).
Qed.

Lemma close_write_kept e s0 s w k : live x L s w → frame s = frame s0 →
  wpi i x (close_write i e) (λ r s' w' _, r.1 ≠ -1 ∧ kept x L s0 s' w') s w k.
Proof.
  intros Hl Hf. unfold close_write. steps.
  1,2: eapply wpi_mono; [by eapply force_close_kept|]; intros r s' w' k' Hk; by apply wpi_ret.
  - split; [done|]. eapply kept_core; [..|exact Hl|exact Hf]; [done..|apply Hl].
  - apply wpi_enable_write. intros r k''. unfold report_error. steps. split; [done|].
    by eapply kept_core with (s := s).
Qed.
(** *** Sending what is queued *)

(** [send_list] was called with the list [high], [s_high] empty if it is not the high one. *)
Definition turn (high : bool) (s : socket) : Prop := s_dw_buffer s = None ∧ (high = false → s_high s = []).

Definition rest_queue (high : bool) (next : list write_buffer) (s : socket) : list write_buffer :=
  next ++ if high then s_low s else [].

Lemma pend_turn high s tmp next : turn high s → wb_list high s = tmp :: next →
  pend s = tmp :: rest_queue high next s.
Proof.
  intros [Hd Hh] E. unfold pend, dw_list, rest_queue. rewrite Hd. destruct high; cbn in *; rewrite E; [done|].
  rewrite Hh by done. cbn. by rewrite app_nil_r.
Qed.

(** The socket after [sz] bytes of [tmp] went out; [l] is the list that is left. *)
Lemma queued_next high s tmp next l sz w w' s' : turn high s → wb_list high s = tmp :: next →
  queued L s w → core s' = core (set_wb_list high l (s <| s_wb_size := s_wb_size s - sz |>)) →
  wb_total l = wb_total (tmp :: next) - sz → (length l ≤ S (length next))%nat →
  stream L (rest_queue high l s) w' → queue_ok (rest_queue high l s) → queued L s' w'.
Proof.
  intros [Hd Hh] E [H1 H2 H3 H4 [n [Hn Hn']]] Hc Hl Hlen Hs Hq.
  assert (Hp : pend (set_wb_list high l (s <| s_wb_size := s_wb_size s - sz |>)) = rest_queue high l s).
  { unfold pend, dw_list, rest_queue. destruct high; cbn; rewrite Hd; [done|]. rewrite Hh by done. cbn. by rewrite app_nil_r. }
  eapply queued_core; [exact Hc|]. split; rewrite ?Hp; [done|done| | |].
  - destruct high; cbn in E |- *; rewrite E in H3; lia.
  - destruct high; cbn; [done|]. cbn in E. rewrite E in H4. eapply tags_shorter; [exact H4|]. unfold len. cbn. lia.
  - exists n. by destruct high.
Qed.

Lemma set_wb_frame high l s : frame (set_wb_list high l s) = frame s.
Proof. by destruct high. Qed.

Lemma set_wb_type high l s : s_type (set_wb_list high l s) = s_type s.
Proof. by destruct high. Qed.

Lemma set_wb_dw high l s : s_dw_buffer (set_wb_list high l s) = s_dw_buffer s.
Proof. by destruct high. Qed.

(** What a call of [send_list] that returns -1 leaves. *)
Record sent (high : bool) (s0 s : socket) (w : list Z) : Prop := {
  st_frame : frame s = frame s0;
  st_type : s_type s = s_type s0;
  st_turn : turn high s;
  st_low : high = true → Forall wb_whole (s_low s);
  st_queued : queued L s w
}.
Lemma live_sent high s w : live x L s w → turn high s → sent high s s w.
Proof. intros [H1 H2 H3 H4 H5] Ht. by split. Qed.

(** A write that took [sz] bytes of the first buffer. *)
Lemma queued_write high s tmp next sz w s' : turn high s → wb_list high s = tmp :: next →
  queued L s w → 0 ≤ sz ≤ wb_sz tmp →
  core s' = core (set_wb_list high (sent_more tmp sz :: next) (s <| s_wb_size := s_wb_size s - sz |>)) →
  queued L s' (w ++ take (Z.to_nat sz) (drop (Z.to_nat (wb_ptr tmp)) (wb_data tmp))).
Proof.
  intros Ht E Hq Hsz Hc. pose proof (pend_turn _ _ _ _ Ht E) as Hp. destruct Hq as [H1 H2 H3 H4 H5] eqn:Eq. clear Eq.
  rewrite Hp in H1, H2. destruct H2 as [Hw Hws].
  eapply (queued_next high s tmp next _ sz w); [done..|exact Hc| |cbn; lia| |].
  - rewrite !wb_total_cons. cbn. lia.
  - by apply (stream_write L tmp (rest_queue high next s)).
  - split; [|done]. destruct Hw as (? & ? & ?). split_and!; cbn; [lia..|].
    change (wb_data (sent_more tmp sz)) with (wb_data tmp). lia.
Qed.

(** The whole of the first buffer is out. *)
Lemma queued_pop high s tmp next w s' : turn high s → wb_list high s = tmp :: next →
  queued L s w →
  core s' = core (set_wb_list high next (s <| s_wb_size := s_wb_size s - wb_sz tmp |>)) →
  queued L s' (w ++ take (Z.to_nat (wb_sz tmp)) (drop (Z.to_nat (wb_ptr tmp)) (wb_data tmp))).
Proof.
  intros Ht E Hq Hc. pose proof (pend_turn _ _ _ _ Ht E) as Hp. destruct Hq as [H1 H2 H3 H4 H5] eqn:Eq. clear Eq.
  rewrite Hp in H1, H2. destruct H2 as [Hw Hws].
  eapply (queued_next high s tmp next _ (wb_sz tmp) w); [done..|exact Hc| |cbn; lia| |].
  - rewrite !wb_total_cons. lia.
  - destruct Hw as (? & ? & ?). eapply stream_pop; [| |apply stream_write; [split_and!; lia|lia|exact H1]].
    + cbn. change (wb_data (sent_more tmp (wb_sz tmp))) with (wb_data tmp). lia.
    + by apply whole_begun.
  - by apply whole_queue.
Qed.

Lemma send_tcp_loop high fuel : ∀ s0 s w k, (k < fuel)%nat → live x L s w → turn high s → frame s = frame s0 →
  s_type s = s_type s0 →
  wpi i x (send_list_tcp_loop fuel i high)
    (λ r s' w' _, (r.1 = -1 → sent high s0 s' w') ∧ (r.1 ≠ -1 → kept x L s0 s' w')) s w k.
Proof.
  induction fuel as [|fuel IH]; intros s0 s w k Hk Hl Ht Hf Hty; [lia|]. cbn [send_list_tcp_loop]. do 2 step1.
  pose proof (live_sent high _ _ Hl Ht) as Hs.
  destruct Hs as [_ _ _ Hlow Hq].
  destruct (wb_list high s) as [|tmp next] eqn:E.
  { steps. split; [|done]. intros _. by split. }
  pose proof (qd_queue _ _ _ Hq) as Hqo. rewrite (pend_turn _ _ _ _ Ht E) in Hqo. destruct Hqo as [Hw Hws].
  step1. eapply wpi_must; [by apply wb_rest_eq|]. step1.
  rewrite (lv_id _ _ _ _ Hl). apply wpi_write. intros a k' Ha Hk'. rewrite wb_rest_len in Ha by done.
  cbv zeta. step1.
  - replace (Z.to_nat (a_ret a)) with 0%nat by lia. rewrite take_0, app_nil_r. steps.
    + apply IH; try done. lia.
    + split; [|done]. intros _. by split.
    + eapply wpi_mono; [by apply close_write_kept|]. cbn. intros r s' w' ? [? ?]. done.
  - step1. apply wpi_stat_write. intros st. steps.
    + split; [|done]. intros _. split.
      * by rewrite set_wb_frame.
      * by rewrite set_wb_type.
      * destruct Ht as [Hd Hh]. split; [by rewrite set_wb_dw|]. intros ->. by apply Hh.
      * intros ->. by apply Hlow.
      * eapply queued_write; try done; [lia|]. by destruct high.
    + assert (a_ret a = wb_sz tmp) as -> by lia. apply IH; try done.
      * lia.
      * destruct Hl as [H1 H2 H3 H4 H5]. split.
        -- by destruct high.
        -- by rewrite set_wb_type.
        -- by destruct high.
        -- destruct high; [done|]. cbn in E |- *. rewrite E in H4. by apply Forall_cons in H4 as [_ ?].
        -- eapply queued_pop; try done. by destruct high.
      * destruct Ht as [Hd Hh]. split; [by rewrite set_wb_dw|]. intros ->. by apply Hh.
      * by rewrite set_wb_frame.
      * by rewrite set_wb_type.
Qed.
Lemma send_list_ok high s w k : live x L s w → turn high s →
  wpi i x (send_list i high) (λ r s' w' _, (r.1 = -1 → sent high s s' w') ∧ (r.1 ≠ -1 → kept x L s s' w')) s w k.
Proof.
  intros Hl Ht. unfold send_list. steps; [|pose proof (lv_tcp _ _ _ _ Hl); lia].
  unfold send_list_tcp. steps. apply send_tcp_loop; try done. lia.
Qed.

Lemma sent_live high s s' w w' : live x L s w → sent high s s' w' → Forall wb_whole (s_low s') → live x L s' w'.
Proof.
  intros [H1 H2 H3 _ _] [Hf Ht _ _ Hq] Hlow. injection Hf as E1 E2 E3. split; congruence.
Qed.

Lemma low_complete s w : queued L s w → dw_list s = [] → s_high s = [] → list_uncomplete (s_low s) = false →
  Forall wb_whole (s_low s).
Proof.
  intros Hq Hd Hh Hu. pose proof (qd_queue _ _ _ Hq) as H. unfold pend in H. rewrite Hd, Hh in H. cbn in H.
  destruct (s_low s) as [|wb q]; [done|]. destruct H as [Hw Hws]. cbn in Hu. apply Forall_cons. split; [|done].
  split; [done|lia].
Qed.

Lemma whole_complete l : Forall wb_whole l → list_uncomplete l = false.
Proof. destruct l as [|wb l]; [done|]. intros [[_ H] _]%Forall_cons. cbn. by rewrite H. Qed.

Lemma send_finished_ok s0 s w k : live x L s w → frame s = frame s0 → s_high s = [] → s_low s = [] →
  wpi i x (send_finished i) (λ _ s' w' _, kept x L s0 s' w') s w k.
Proof.
  intros Hl Hf Hh Hlo. unfold send_finished. do 3 step1. apply wpi_require.
  { pose proof (qd_size _ _ _ (lv_queued _ _ _ _ Hl)) as Hsz. unfold send_buffer_empty.
    rewrite Hsz, Hh, Hlo. done. }
  steps.
  - eapply wpi_mono; [by apply force_close_kept|]. cbn. intros. by apply wpi_ret.
  - apply wpi_enable_write. intros r k'. unfold report_error. steps.
    all: (eapply kept_core; [..|exact Hl|exact Hf]; [done..|apply Hl]).
Qed.

Lemma raise_uncomplete_ok s0 s w k : turn false s → queued L s w → list_uncomplete (s_low s) = true →
  s_id s = x → s_protocol s = PROTOCOL_TCP → is_open (s_type s) → frame s = frame s0 →
  wpi i x (raise_uncomplete i) (λ _ s' w' _, kept x L s0 s' w') s w k.
Proof.
  intros [Hd Hh] Hq Hu Hid Htcp Hty Hf. specialize (Hh eq_refl). unfold raise_uncomplete. do 2 step1.
  destruct (s_low s) as [|tmp next] eqn:E; [done|]. step1. apply wpi_require; [by rewrite Hh|]. steps.
  split; [exact Hf|]. left. destruct Hq as [H1 H2 H3 H4 H5].
  assert (Hp : pend s = tmp :: next) by (unfold pend, dw_list; by rewrite Hd, Hh, E).
  rewrite Hp in H1, H2. split; [done..| |]; [by destruct H2|].
  apply (queued_of (tmp :: next)); [unfold pend, dw_list; cbn; by rewrite Hd|done..| | |].
  - cbn. rewrite H3, Hh, E, !wb_total_cons. change (wb_total []) with 0. lia.
  - rewrite E in H4. eapply tags_shorter; [exact H4|]. rewrite len_cons. cbn. lia.
  - destruct H5 as [n [? ?]]. by exists n.
Qed.
Lemma send_buffer__ok s w k : live x L s w → s_dw_buffer s = None →
  wpi i x (send_buffer_ i) (λ _ s' w' _, kept x L s s' w') s w k.
Proof.
  intros Hl Hd. unfold send_buffer_. do 3 step1. apply wpi_require; [by rewrite whole_complete by apply Hl|].
  step1. eapply wpi_mono; [by apply send_list_ok|]. cbn. intros [r msg] s1 w1 k1 [H1 H2]. cbn in H1, H2. step1; [steps; apply H2; lia|].
  assert (r = -1) as -> by lia. specialize (H1 eq_refl).
  assert (Hl1 : live x L s1 w1) by (eapply sent_live; [exact Hl|exact H1|by apply H1]).
  pose proof (st_frame _ _ _ _ H1) as Hf. pose proof (proj1 (st_turn _ _ _ _ H1)) as Hd1.
  steps; bools; [|by apply send_finished_ok|by split; auto].
  eapply wpi_mono; [by apply send_list_ok|].
  clear H2. cbn. intros [r2 msg2] s2 w2 k2 [H2 H3]. cbn in H2, H3.
  assert (Hk : kept x L s1 s2 w2 → kept x L s s2 w2) by (intros [E ?]; split; [congruence|done]).
  step1; [steps; apply Hk, H3; lia|]; assert (r2 = -1) as -> by lia; specialize (H2 eq_refl);
    pose proof (st_frame _ _ _ _ H2) as Hf2; destruct (st_turn _ _ _ _ H2) as [Hd2 Hh2]. steps.
  - assert (frame s2 = frame s) by congruence. destruct H2 as [_ Hty2 Ht2 _ Hq2]. injection Hf2 as E1 E2 E3. destruct Hl1.
    eapply wpi_mono; [apply (raise_uncomplete_ok s); congruence|]. cbn. intros. by apply wpi_ret.
  - apply Hk. split; [done|]. left. eapply sent_live; [exact Hl1|exact H2|]. eapply low_complete; [apply H2|..];
    [by unfold dw_list; rewrite Hd2|by apply Hh2|done].
  - bools. apply send_finished_ok; [|congruence|by apply Hh2|done]. eapply sent_live; [exact Hl1|exact H2|].
    by replace (s_low s2) with ([] : list write_buffer) by done.
Qed.

Lemma take_dw_ok s w k (Q : unit → socket → list Z → nat → Prop) : live x L s w →
  (∀ s', live x L s' w → s_dw_buffer s' = None → frame s' = frame s → Q tt s' w k) →
  wpi i x (take_dw_buffer i) Q s w k.
Proof.
  intros Hl HQ. unfold take_dw_buffer. do 2 step1. destruct (s_dw_buffer s) as [b|] eqn:E; steps; [|by apply HQ].
  apply HQ; [|done..]. destruct Hl as [H1 H2 H3 H4 [H5 H6 H7 H8 H9]]. split; try done.
  apply (queued_of (pend s)); [unfold pend, dw_list; cbn; by rewrite E|done..| |done|done].
  cbn. rewrite wb_total_cons, H7. cbn. lia.
Qed.

Lemma send_buffer_ok s w k : live x L s w → wpi i x (send_buffer i) (λ _ s' w' _, kept x L s s' w') s w k.
Proof.
  intros Hl. unfold send_buffer. step1. apply take_dw_ok; [done|]. intros s' Hl' Hd Hf.
  eapply wpi_mono; [by apply send_buffer__ok|]. cbn. intros r s2 w2 k2 [E ?]. split; [congruence|done].
Qed.

End Calls.

Section Sends.
Context (i x : Z).

Lemma live_append high p b u L s w s' : live x L s w → (high = false → p = false) → p = true ∨ low_part high s = [] →
  core s' = core (set_wb_list high (wb_list high s ++ [WriteBuffer b 0 (len (b_data b)) u])
                    (s <| s_wb_size := s_wb_size s + len (b_data b) |>)) →
  s_type s' = s_type s → ∃ L', took p (b_data b) L L' ∧ live x L' s' w.
Proof.
  intros [H1 H2 H3 H4 H5] Hp Hlp Hc Hty. exists (ins (len L - len (low_part high s)) (p, b_data b) L). split.
  - apply ins_took.
    + unfold low_part. destruct high; [apply H5|]. unfold advance.
      rewrite drop_ge; [done|]. change (len []) with 0. unfold len. lia.
    + destruct Hlp as [?|E]; [by left|right]. by rewrite E.
  - pose proof (queued_append high p b u L s w s' H5 H4 Hp Hc) as Hq.
    injection Hc as E1 E2 E3 E4 E5 E6 E7 E8.
    split; [by rewrite E1; destruct high|by rewrite Hty|by rewrite E2; destruct high| |done].
    rewrite E4. destruct high; cbn; [done|]. apply Forall_app. split; [done|]. apply Forall_singleton.
    split; [|done]. split_and!; cbn; unfold wb_data; cbn; pose proof (len_nonneg (b_data b)); lia.
Qed.

Lemma send_warning_kept L s0 s w k : live x L s w → frame s = frame s0 →
  wpi i x (send_warning i) (λ _ s' w' _, kept x L s0 s' w') s w k.
Proof.
  intros Hl Hf. unfold send_warning. steps; (eapply kept_core; [..|exact Hl|exact Hf]; [done..|apply Hl]).
Qed.

(** The socket took the buffer, or did not. *)
Definition offered (p : bool) (d : list Z) (L : list entry) (s0 s : socket) (w : list Z) : Prop :=
  ∃ L', took p d L L' ∧ kept x L' s0 s w.

Lemma offered_kept p d L s0 s w : kept x L s0 s w → offered p d L s0 s w.
Proof. intros H. exists L. split; [by left|done]. Qed.

Lemma live_kept L s0 s w : live x L s w → frame s = frame s0 → kept x L s0 s w.
Proof. intros H E. split; auto. Qed.

Lemma send_enable_ok p b u high L s w k : live x L s w → (high = false → p = false) → p = true ∨ low_part high s = [] →
  wpi i x (append_sendbuffer_ i high b u;;
           r ⟵ enable_write i true;
           if truth r then report_error i (Text "enable write failed") else send_warning i)
    (λ _ s' w' _, offered p (b_data b) L s s' w') s w k.
Proof.
  intros Hl Hp Hlp. unfold append_sendbuffer_. do 3 step1. apply wpi_enable_write. intros r k'.
  set (s1 := set_wb_list high (wb_list high s ++ [WriteBuffer b 0 (len (b_data b)) u])
               (s <| s_wb_size := s_wb_size s + len (b_data b) |>)).
  destruct (live_append high p b u L s w (s1 <| s_writing := true |>)) as (L' & Ht & Hl'); try done; [by destruct high|].
  assert (Hf : frame (s1 <| s_writing := true |>) = frame s) by (by destruct high).
  unfold report_error. steps.
  - exists L'. split; [done|]. by apply live_kept.
  - eapply wpi_mono; [by apply send_warning_kept|]. intros r' s' w' k'' Hk. by exists L'.
Qed.
Lemma send_socket_ok p b L s w k : HASH_ID x = i → live x L s w →
  wpi i x (send_socket x b p None) (λ _ s' w' _, offered p (b_data b) L s s' w') s w k.
Proof.
  intros Hi Hl. unfold send_socket. rewrite Hi. do 2 step1.
  assert (Hkeep : offered p (b_data b) L s s w) by by apply offered_kept, live_kept.
  do 2 (step1; [by steps|]). step1.
  - apply andb_true_iff in Heqb2 as [Hh Hlo]. bools.
    step1; [|pose proof (lv_tcp _ _ _ _ Hl); lia]. unfold append_sendbuffer.
    apply send_enable_ok; [done..|]. by right.
  - step1. step1; [|pose proof (lv_tcp _ _ _ _ Hl); lia].
    assert (∃ s1 L1, (∀ (Q : unit → socket → list Z → nat → Prop), Q tt s1 w k →
        wpi i x (if p then append_sendbuffer i b else append_sendbuffer_low i b) Q s w k) ∧
        took p (b_data b) L L1 ∧ live x L1 s1 w ∧ frame s1 = frame s) as (s1 & L1 & HQ & Ht & Hl1 & Hf1).
    { unfold append_sendbuffer, append_sendbuffer_low, append_sendbuffer_.
      destruct (live_append p p b None L s w (set_wb_list p (wb_list p s ++ [WriteBuffer b 0 (len (b_data b)) None])
                 (s <| s_wb_size := s_wb_size s + len (b_data b) |>))) as (L1 & Ht & Hl1); try done; [by destruct p; auto|by destruct p|].
      eexists _, L1. split; [|split; [exact Ht|split; [exact Hl1|by destruct p]]].
      intros Q HQ. destruct p; apply wpi_modify, HQ. }
    apply HQ. eapply wpi_mono; [by apply send_warning_kept|]. intros r s' w' k' Hk. by exists L1.
Qed.

(** *** Requests *)

(** The request was for this socket and it was open, or nothing changed. *)
Definition stays (L : list entry) (s0 : socket) (w0 : list Z) (s : socket) (w : list Z) : Prop :=
  (s = s0 ∧ w = w0) ∨ (live x L s0 w0 ∧ kept x L s0 s w).

Lemma live_stays L s w s' : live x L s w → core s' = core s → s_sending s' = s_sending s → is_open (s_type s') →
  stays L s w s' w.
Proof. intros Hl Hc Hs Ht. right. split; [done|]. by eapply kept_core. Qed.

(** For another socket or a closed one nothing is done. *)
Lemma valid_live L id s w : sock_inv x L s w → (id = x → s_type s ≠ SOCKET_TYPE_RESERVE) → socket_invalid s id = false →
  live x L s w ∧ id = x.
Proof.
  intros Hs Hr Hv. unfold socket_invalid in Hv. apply orb_false_iff in Hv as [Hid Ht].
  assert (s_id s = x) by (by destruct Hs as [[]|[[]|[]]]). assert (id = x) by lia.
  split; [|done]. apply sock_live; [done|]. split; [lia|auto].
Qed.
End Sends.

(** ** Requests and events *)

Section Requests.
Context (i x id : Z) (L : list entry) (Hi : HASH_ID id = i).

(** A request for [id] starts from the socket its slot has. *)
Definition start (s : socket) (w : list Z) : Prop := sock_inv x L s w ∧ (id = x → s_type s ≠ SOCKET_TYPE_RESERVE).

Lemma same_stays s w : stays x L s w s w.
Proof. by left. Qed.

Lemma kept_stays s w s' w' : live x L s w → kept x L s s' w' → stays x L s w s' w'.
Proof. by right. Qed.

Hint Resolve same_stays kept_stays : core.

Lemma trigger_write_ok s w k : start s w → wpi i x (trigger_write id) (λ _ s' w' _, stays x L s w s' w') s w k.
Proof.
  intros [Hs Hr]. unfold trigger_write. rewrite Hi. do 3 step1; [by steps|].
  destruct (valid_live x L id s w) as [Hl _]; [done..|]. step1. apply wpi_enable_write. intros r k'. unfold report_error.
  steps; (eapply live_stays; [exact Hl|done..|apply Hl]).
Qed.

Lemma pause_socket_ok opaque s w k : start s w → wpi i x (pause_socket id opaque) (λ _ s' w' _, stays x L s w s' w') s w k.
Proof.
  intros [Hs Hr]. unfold pause_socket. rewrite Hi. do 3 step1; [by steps|].
  destruct (valid_live x L id s w) as [Hl _]; [done..|]. step1. apply wpi_enable_read. intros r k'. unfold report_error.
  steps; (eapply live_stays; [exact Hl|done..|apply Hl]).
Qed.

Lemma resume_socket_ok opaque s w k : start s w → wpi i x (resume_socket id opaque) (λ _ s' w' _, stays x L s w s' w') s w k.
Proof.
  intros [Hs Hr]. unfold resume_socket. rewrite Hi. do 3 step1; [by steps|].
  destruct (valid_live x L id s w) as [Hl _]; [done..|]. step1; [by steps|]. step1. apply wpi_enable_read. intros r k'.
  steps; (eapply live_stays; [exact Hl|done..|]; cbn; zcases; first [done|apply Hl]).
Qed.

Lemma setopt_socket_ok what v s w k : start s w → wpi i x (setopt_socket id what v) (λ _ s' w' _, stays x L s w s' w') s w k.
Proof. intros [Hs Hr]. unfold setopt_socket. rewrite Hi. steps; auto. Qed.

Lemma close_socket_ok shutdown opaque s w k : start s w →
  wpi i x (close_socket id shutdown opaque) (λ _ s' w' _, stays x L s w s' w') s w k.
Proof.
  intros [Hs Hr]. unfold close_socket. rewrite Hi. do 3 step1; [by steps|].
  destruct (valid_live x L id s w) as [Hl _]; [done..|]. step1.
  - step1. eapply wpi_mono; [by apply force_close_kept|]. cbn. intros. apply wpi_ret. auto.
  - do 2 step1. step1.
    + step1. eapply wpi_mono; [apply (close_read_kept i x L s); [|done]; eapply live_core; [..|exact Hl]; [done|apply Hl]|].
      cbn. intros. apply wpi_ret. auto.
    + steps. eapply live_stays; [exact Hl|done..|apply Hl].
Qed.
End Requests.

(** *** Opening *)

(** A socket a request has just filled in; the caller gives it its type. *)
Record new_socket (x : Z) (s : socket) (w : list Z) : Prop := {
  nw_id : s_id s = x;
  nw_tcp : s_protocol s = PROTOCOL_TCP;
  nw_empty : empty s;
  nw_size : s_wb_size s = 0;
  nw_read : read_size_ok s;
  nw_sending : s_sending s = ID_TAG16 x * 65536;
  nw_none : w = []
}.

(** What became of a slot that was reserved. *)
Definition opened (x : Z) (s : socket) (w : list Z) : Prop :=
  (s_protocol s = PROTOCOL_TCP → s_sending s = ID_TAG16 x * 65536) ∧ (live x [] s w ∨ closed x [] s w).

Section Opening.
Context (i x : Z).

Lemma new_queued s w : new_socket x s w → queued [] s w.
Proof.
  intros [H1 H2 (E1 & E2 & E3) H4 H5 H6 ->]. apply (queued_of []); [unfold pend, dw_list; by rewrite E1, E2, E3|
    exact stream_nil|done|by rewrite H4, E1, E2|rewrite E2; done|done].
Qed.

Lemma new_live s w s' : new_socket x s w → core s' = core s → s_sending s' = s_sending s → is_open (s_type s') → opened x s' w.
Proof.
  intros Hn E Es Ht. pose proof (queued_core _ _ _ _ E (new_queued _ _ Hn)) as Hq.
  destruct Hn as [H1 H2 (E1 & E2 & E3) H4 H5 H6 ->]. injection E as F1 F2 F3 F4 F5 F6 F7 F8.
  split; [congruence|]. left. split; [congruence|done|congruence| |done]. by rewrite F4, E2.
Qed.

Lemma new_closed s w s' : new_socket x s w → core s' = core s → s_sending s' = s_sending s →
  s_type s' = SOCKET_TYPE_INVALID → opened x s' w.
Proof.
  intros [H1 H2 (E1 & E2 & E3) H4 H5 H6 ->] E Es Ht. injection E as F1 F2 F3 F4 F5 F6 F7 F8.
  split; [congruence|]. right. split; [congruence|done| |by exists [], [], 0%nat]. split_and!; congruence.
Qed.

Lemma reserved_closed L s w : reserved x L s w → opened x (s <| s_type := SOCKET_TYPE_INVALID |>) w.
Proof.
  intros [H1 H2 H3 H4 [-> ->]]. split; [cbn; by rewrite H3|]. right. split; [done|done|done|by exists [], [], 0%nat].
Qed.

Lemma new_fd_ok fd opaque reading L s w k : HASH_ID x = i → reserved x L s w →
  wpi i x (new_fd x fd PROTOCOL_TCP opaque reading) (λ r s' w' _,
    match r with
    | Some j => j = i ∧ new_socket x s' w'
    | None => opened x s' w' ∧ s_type s' = SOCKET_TYPE_INVALID
    end) s w k.
Proof.
  intros Hi Hs. pose proof (reserved_closed _ _ _ Hs) as Hc. unfold new_fd. rewrite Hi.
  destruct Hs as [H1 H2 H3 (E1 & E2 & E3) [-> ->]]. do 3 step1. apply wpi_require; [by rewrite H2|].
  do 3 step1; [steps; done|]. step1. apply wpi_require; [by rewrite E1, E2|]. do 3 step1.
  assert (Hn : ∀ b, new_socket x (Socket opaque (s_high s) (s_low s) 0 (Stat 0 0 0 0) (Z.lor (Z.shiftl (ID_TAG16 x) 16) 0) fd x (s_type s)
           PROTOCOL_TCP b false false (s_udpconnecting s) 0 (Size MIN_READ_BUFFER) None (s_dw_offset s)) []).
  { intros b. split; try done; [by exists MIN_READ_BUFFER|]. cbn. by rewrite Z.lor_0_r, Z.shiftl_mul_pow2. }
  apply wpi_enable_read. intros r k2. steps.
  - split; [|done]. eapply new_closed; [apply (Hn true)|done..].
  - split; [done|]. apply (Hn reading).
Qed.
(** The slot may be marked free a second time. *)
Lemma opened_free s w : opened x s w → s_type s = SOCKET_TYPE_INVALID → opened x (s <| s_type := SOCKET_TYPE_INVALID |>) w.
Proof.
  intros [H1 [[_ [Ht _] _ _ _]|[H2 H3 H4 H5]]] E; [done|]. split; [exact H1|]. right. by split.
Qed.

Lemma listen_socket_ok fd opaque L s w k : HASH_ID x = i → reserved x L s w →
  wpi i x (listen_socket x fd opaque) (λ _ s' w' _, opened x s' w') s w k.
Proof.
  intros Hi Hs. unfold listen_socket. step1. eapply wpi_mono; [by eapply new_fd_ok|]. cbn. intros [j|] s' w' k'.
  - intros [-> Hn]. steps. by eapply new_live.
  - intros [Ho Ht]. rewrite Hi. steps. by apply opened_free.
Qed.

Lemma bind_socket_ok fd opaque L s w k : HASH_ID x = i → reserved x L s w →
  wpi i x (bind_socket x fd opaque) (λ _ s' w' _, opened x s' w') s w k.
Proof.
  intros Hi Hs. unfold bind_socket. step1. eapply wpi_mono; [by eapply new_fd_ok|]. cbn. intros [j|] s' w' k'.
  - intros [-> Hn]. steps. by eapply new_live.
  - intros [Ho Ht]. by steps.
Qed.

Lemma wpi_connect_loop l (Q : option (Z * Z) * Z → socket → list Z → nat → Prop) s w : ∀ err k,
  (∀ r k, Q r s w k) → wpi i x (connect_loop l err) Q s w k.
Proof.
  induction l as [|ai l IH]; intros err k HQ; cbn; [by steps|]. steps; auto.
Qed.

Lemma open_socket_ok port opaque host L s w k : HASH_ID x = i → reserved x L s w →
  wpi i x (open_socket x port opaque host) (λ _ s' w' _, opened x s' w') s w k.
Proof.
  intros Hi Hs. pose proof (reserved_closed _ _ _ Hs) as Hc. unfold open_socket, open_failed. rewrite Hi.
  step1. step1. step1; [by steps|]. step1. apply wpi_connect_loop. intros [[[sock status]|] err] k2; [|by steps].
  step1. eapply wpi_mono; [by eapply new_fd_ok|]. cbn. intros [j|] s' w' k3.
  - intros [-> Hn]. steps; [by eapply new_live|]. apply wpi_enable_write. intros r k4. steps.
    + by eapply new_closed.
    + by eapply new_live.
  - intros [Ho Ht]. steps. by apply opened_free.
Qed.
End Opening.

Section Events.
Context (i x : Z) (L : list entry).

Lemma read_size_kept s st n w : live x L s w → 1 ≤ n ≤ INT_MAX →
  kept x L s (s <| s_stat := st |> <| s_p := Size n |>) w.
Proof.
  intros [H1 H2 H3 H4 [H5 H6 H7 H8 H9]] Hn. split; [done|]. left. split; try done. split; try done. by exists n.
Qed.

Lemma forward_tcp_ok s w k : live x L s w →
  wpi i x (forward_message_tcp i) (λ _ s' w' _, kept x L s s' w') s w k.
Proof.
  intros Hl. destruct (qd_read _ _ _ (lv_queued _ _ _ _ Hl)) as (n & Hp & Hn). unfold forward_message_tcp.
  do 3 step1. eapply wpi_must; [by rewrite Hp|]. cbv beta. step1. apply wpi_sys; [done|]. intros a k1 Ha ->.
  assert (Hk : kept x L s s w) by by apply live_kept.
  cbn in Ha. unfold report_error. steps; try exact Hk.
  - eapply wpi_mono; [by apply force_close_kept|]. cbn. intros. by steps.
  - eapply wpi_mono; [by apply force_close_kept|]. cbn. intros. by steps.
  - eapply wpi_mono; [by apply close_read_kept|]. cbn. intros. by steps.
  - apply wpi_stat_read. intros st. assert (Hsz : 1 ≤ a_ret a ≤ n ∧ a_ret a < 2 ^ 30) by (zcases; lia). step1.
    + step1. eapply wpi_must; [apply int_chk_Some; unfold INT_MIN, INT_MAX; lia|]. steps. apply read_size_kept; [done|].
      unfold INT_MAX. lia.
    + steps; [|apply (kept_core x L s s); [done..|apply Hl|done|done]]. apply read_size_kept; [done|]. unfold MIN_READ_BUFFER in *.
      rewrite Z.quot_div_nonneg by lia. unfold INT_MAX in *.
      split; [apply Z.div_le_lower_bound; lia|apply Z.div_le_upper_bound; lia].
Qed.

Lemma report_connect_ok s w k : live x L s w →
  wpi i x (report_connect i) (λ _ s' w' _, kept x L s s' w') s w k.
Proof.
  intros Hl. unfold report_connect. do 4 step1. step1; [step1|].
  { eapply wpi_mono; [by apply force_close_kept|]. cbn. intros. by steps. }
  do 5 step1. apply wpi_mono with (λ _ s' w' _, live x L s' w' ∧ frame s' = frame s).
  - step1; [apply wpi_enable_write; intros r k3|steps]; (split; [|done]); (eapply live_core; [..|exact Hl]; done).
  - cbn. intros r s' w' k3 [Hl' Hf]. steps; try by apply live_kept.
    eapply wpi_mono; [by apply force_close_kept|]. cbn. intros. by steps.
Qed.
End Events.

(** *** A write from another thread *)

Section Direct.
Context (x : Z) (L : list entry).

Lemma direct_queued b s w n : queued L s w → empty s → 0 ≤ n ≤ len (b_data b) →
  let wb := WriteBuffer b n (len (b_data b) - n) None in
  took true (b_data b) L (ins (len L - 0) (true, b_data b) L) ∧
  stream (ins (len L - 0) (true, b_data b) L) [wb] (w ++ take (Z.to_nat n) (b_data b)) ∧ wb_ok wb.
Proof.
  intros [H1 _ _ _ _] (E1 & E2 & E3) Hn. unfold pend, dw_list in H1. rewrite E1, E2, E3 in H1. cbn in H1. split.
  - apply ins_took; [|by left]. unfold advance. rewrite drop_ge; [done|]. unfold len. lia.
  - set (wb := WriteBuffer b 0 (len (b_data b)) None).
    assert (Hw : wb_whole wb) by (split; [split_and!; cbn; unfold wb_data; cbn; pose proof (len_nonneg (b_data b)); lia|done]).
    split; [|split_and!; cbn; unfold wb_data; cbn; lia].
    pose proof (stream_write _ wb [] w n (proj1 Hw) Hn (stream_ins L [] [] w true wb eq_refl I (Forall_nil_2 _) H1)) as H.
    exact H.
Qed.

(** The system took the whole buffer. *)
Lemma direct_whole b s w s' : live x L s w → empty s → core s' = core s → s_type s' = s_type s →
  live x (ins (len L - 0) (true, b_data b) L) s' (w ++ b_data b).
Proof.
  intros [H1 H2 H3 H4 H5] He Hc Ht. destruct (direct_queued b s w (len (b_data b)) H5 He) as (_ & Hs & Hok);
    [pose proof (len_nonneg (b_data b)); lia|].
  pose proof Hc as Hc'. injection Hc as F1 F2 F3 F4 F5 F6 F7 F8. split; try congruence. eapply queued_core; [exact Hc'|].
  destruct H5 as [_ _ H7 _ H9]. destruct He as (E1 & E2 & E3).
  apply (queued_of []); [unfold pend, dw_list; by rewrite E1, E2, E3| |done|done| |done].
  - eapply stream_pop; [| |]; [| |rewrite take_ge in Hs by (unfold len; lia); exact Hs]; done.
  - rewrite E2. unfold advance. rewrite drop_ge; [done|]. change (len []) with 0. unfold len. lia.
Qed.

(** The rest waits in front of the lists. *)
Lemma direct_part b s w n s' : live x L s w → empty s → 0 ≤ n ≤ len (b_data b) →
  core s' = core (s <| s_dw_buffer := Some b |> <| s_dw_offset := n |>) → s_type s' = s_type s →
  live x (ins (len L - 0) (true, b_data b) L) s' (w ++ take (Z.to_nat n) (b_data b)).
Proof.
  intros [H1 H2 H3 H4 H5] He Hn Hc Ht. destruct (direct_queued b s w n H5 He Hn) as (_ & Hs & Hok).
  pose proof Hc as Hc'. injection Hc as F1 F2 F3 F4 F5 F6 F7 F8. split; try congruence. eapply queued_core; [exact Hc'|].
  destruct H5 as [_ _ H7 _ [m [Hm Hm']]]. destruct He as (E1 & E2 & E3).
  apply (queued_of [WriteBuffer b n (len (b_data b) - n) None]); [unfold pend, dw_list; cbn; by rewrite E1, E2|done|done|done| |by exists m].
  cbn. rewrite E2. unfold advance. rewrite drop_ge; [done|]. change (len []) with 0. unfold len. lia.
Qed.
End Direct.
