(* ===== verification/SocketWorld.v ===== *)
(** * What the socket server sends

    Programs of the worker threads' calls and of rounds of the poll loop, over
    any answers of the system: no assertion fails, and the bytes written to a
    socket are whole buffers its users sent, and a part of one more, in the
    order of the calls for each priority.  Sockets of UDP are left out. *)

From S2P Require Import Prelude Kernel SocketServer SocketStreams.

(** ** Programs of calls *)

Inductive op :=
| Connect (opaque : Z) (addr : list Z) (port : Z)
| Listen (opaque : Z) (addr : list Z) (port backlog : Z)
| Bind (opaque fd : Z)
| Start (opaque id : Z)
| Pause (opaque id : Z)
| Nodelay (id : Z)
| CloseSocket (opaque id : Z)
| ShutdownSocket (opaque id : Z)
| Send (b : socket_sendbuffer) (fresh : Z)
| SendLow (b : socket_sendbuffer) (fresh : Z)
| Exit
| UpdateTime (t : Z)
| Poll.

Definition exec (o : op) : run unit :=
  match o with
  | Connect opaque addr port => _ ⟵ socket_server_connect opaque addr port; ret tt
  | Listen opaque addr port backlog => _ ⟵ socket_server_listen opaque addr port backlog; ret tt
  | Bind opaque fd => _ ⟵ socket_server_bind opaque fd; ret tt
  | Start opaque id => socket_server_start opaque id
  | Pause opaque id => socket_server_pause opaque id
  | Nodelay id => socket_server_nodelay id
  | CloseSocket opaque id => socket_server_close opaque id
  | ShutdownSocket opaque id => socket_server_shutdown opaque id
  | Send b fresh => _ ⟵ socket_server_send b fresh; ret tt
  | SendLow b fresh => _ ⟵ socket_server_send_lowpriority b fresh; ret tt
  | Exit => socket_server_exit
  | UpdateTime t => socket_server_updatetime t
  | Poll => _ ⟵ socket_server_poll_round; ret tt
  end.

(** The event the next round takes. *)
Definition next_event (ss : server) : option event :=
  if event_index ss =? len (ev ss) then a ← head (answers ss); head (a_events a)
  else (ev ss).[event_index ss].

Definition is_reserve (ss : server) (i : Z) : bool := s_type (slot ss i) =? SOCKET_TYPE_RESERVE.

(** What the callers respect: an id is used after it was given out, a buffer is
    sent when the request that opens the socket has been taken, and no event
    comes for a slot that waits for its request. *)
Definition allowed (o : op) (ss : server) : bool :=
  match o with
  | Start _ id | Pause _ id | Nodelay id | CloseSocket _ id | ShutdownSocket _ id => id <=? alloc_id ss
  | Send b _ | SendLow b _ =>
      negb ((s_id (slot ss (HASH_ID (sb_id b))) =? sb_id b) && is_reserve ss (HASH_ID (sb_id b)))
  | Poll =>
      (checkctrl ss && negb (bool_decide (pipe ss = [])))
      || match next_event ss with Some (Event (Some i) _ _ _ _) => negb (is_reserve ss i) | _ => true end
  | _ => true
  end.

Fixpoint session (l : list op) : run unit :=
  match l with
  | [] => ret tt
  | o :: l => ss ⟵ get; if allowed o ss then exec o;; session l else stop
  end.

(** The buffers sent to [x] with priority [p], in the order of the calls. *)
Definition sends_of (x : Z) (p : bool) (l : list op) : list (list Z) :=
  omap (λ o, match o with
    | Send b _ => if (sb_id b =? x) && p then Some (b_data (sb_buffer b)) else None
    | SendLow b _ => if (sb_id b =? x) && negb p then Some (b_data (sb_buffer b)) else None
    | _ => None
    end) l.

(** ** The pipe *)

Definition id_of (r : request) : Z :=
  match r with
  | R_resume id _ | R_pause id _ | R_bind id _ _ | R_listen id _ _ | R_close id _ _ | R_open id _ _ _
  | R_trigger id | R_send _ id _ | R_send_udp id _ _ | R_set_udp id _ | R_setopt id _ _ | R_udp id _ _ _ => id
  | R_exit => 0
  end.

Definition is_tcp (r : request) : bool :=
  match r with R_send_udp _ _ _ | R_set_udp _ _ | R_udp _ _ _ _ => false | _ => true end.

Definition opening (r : request) : list Z :=
  match r with R_bind id _ _ | R_listen id _ _ | R_open id _ _ _ => [id] | _ => [] end.
Definition opens (l : list request) : list Z := concat (map opening l).

Definition sending (x : Z) (p : bool) (r : request) : list (list Z) :=
  match r with R_send q id b => if (id =? x) && Bool.eqb q p then [b_data b] else [] | _ => [] end.
Definition waiting (x : Z) (p : bool) (l : list request) : list (list Z) := concat (map (sending x p) l).

Definition counts (x : Z) (r : request) : Z :=
  match r with R_send _ id _ => if id =? x then 1 else 0 | _ => 0 end.
Definition npend (x : Z) (l : list request) : Z := fold_right (λ r n, counts x r + n) 0 l.

(** No request comes before the one that opens its socket. *)
Fixpoint ordered (l : list request) : Prop :=
  match l with [] => True | r :: l => (id_of r ∉ opens l) ∧ ordered l end.

Arguments opens : simpl never.
Arguments waiting : simpl never.
Arguments npend : simpl never.

Lemma npend_cons x r l : npend x (r :: l) = counts x r + npend x l.
Proof. done. Qed.

Lemma opens_cons r l : opens (r :: l) = opening r ++ opens l.
Proof. done. Qed.

Lemma waiting_cons x p r l : waiting x p (r :: l) = sending x p r ++ waiting x p l.
Proof. done. Qed.

Lemma opens_snoc l r : opens (l ++ [r]) = opens l ++ opening r.
Proof. unfold opens. rewrite map_app, concat_app. cbn. by rewrite app_nil_r. Qed.

Lemma waiting_snoc x p l r : waiting x p (l ++ [r]) = waiting x p l ++ sending x p r.
Proof. unfold waiting. rewrite map_app, concat_app. cbn. by rewrite app_nil_r. Qed.

Lemma npend_snoc x l r : npend x (l ++ [r]) = npend x l + counts x r.
Proof. induction l as [|r' l IH]; cbn; rewrite !npend_cons; [|rewrite IH]; change (npend x []) with 0; lia. Qed.

Lemma ordered_snoc l r : ordered l → Forall (λ r', id_of r' ∉ opening r) l → ordered (l ++ [r]).
Proof.
  induction l as [|r' l IH]; cbn; intros Ho Hr; [split; [set_solver|done]|].
  apply Forall_cons in Hr as [Hr' Hr]. destruct Ho as [Ho1 Ho2]. rewrite opens_snoc. split; [set_solver|auto].
Qed.

Lemma npend_pos x l : 0 ≤ npend x l.
Proof. induction l as [|r l IH]; [done|]. rewrite npend_cons. destruct r; cbn; try lia. case_match; lia. Qed.

(** ** The invariant of the server *)

(** The count of the buffers on their way: [n] are in the pipe. *)
Definition count_ok (n : Z) (s : socket) : Prop :=
  (s_type s = SOCKET_TYPE_RESERVE → n = 0) ∧
  (s_protocol s = PROTOCOL_TCP → ∃ c, n ≤ c ≤ 65535 ∧ s_sending s = ID_TAG16 (s_id s) * 65536 + c).

Definition is_reserved (ss : server) (x : Z) : Prop :=
  s_id (slot ss (HASH_ID x)) = x ∧ s_type (slot ss (HASH_ID x)) = SOCKET_TYPE_RESERVE.

Abbreviation in_range i := (0 ≤ i < MAX_SOCKET).

(** [Lm] gives the buffers each id took. *)
Record sockets (Lm : Z → list entry) (ss : server) : Prop := {
  so_alloc : 0 ≤ alloc_id ss ≤ INT_MAX;
  so_used i : in_range i →
    slot ss i = slot_unused ∨ (0 < s_id (slot ss i) ≤ alloc_id ss ∧ HASH_ID (s_id (slot ss i)) = i);
  so_inv i : in_range i →
    sock_inv (s_id (slot ss i)) (Lm (s_id (slot ss i))) (slot ss i) (written (s_id (slot ss i)) (trace ss));
  so_cut x : cut_short (Lm x) (written x (trace ss));
  so_none x : x ≤ 0 ∨ alloc_id ss < x → Lm x = [] ∧ written x (trace ss) = [];
  so_events : Forall (λ e, match e_s e with Some i => in_range i | None => True end) (ev ss);
  so_index : 0 ≤ event_index ss ≤ len (ev ss)
}.

(** The requests in the pipe.  The ids [es] are reserved by a call that has not
    put its request yet. *)
Record traffic (ops : list op) (es : list Z) (Lm : Z → list entry) (ss : server) : Prop := {
  tr_count i : in_range i → count_ok (npend (s_id (slot ss i)) (pipe ss)) (slot ss i);
  tr_ordered : ordered (pipe ss);
  tr_ids : Forall (λ r, id_of r ≤ alloc_id ss ∧ is_tcp r = true) (pipe ss);
  tr_opens x : is_reserved ss x ↔ x ∈ es ++ opens (pipe ss);
  tr_order x p : sublist (by_prio p (Lm x) ++ waiting x p (pipe ss)) (sends_of x p ops)
}.

Record world (ops : list op) (es : list Z) (Lm : Z → list entry) (ss : server) : Prop := {
  wd_sockets : sockets Lm ss;
  wd_traffic : traffic ops es Lm ss
}.

(** What [sockets] reads of the server. *)
Record similar (ss ss' : server) : Prop := {
  si_slot j : slot ss' j = slot ss j;
  si_written y : written y (trace ss') = written y (trace ss);
  si_alloc : alloc_id ss' = alloc_id ss
}.

Lemma HASH_range id : in_range (HASH_ID id).
Proof. apply Z.mod_pos_bound. done. Qed.

#[local] Opaque HASH_ID.

Lemma sockets_similar Lm ss ss' : sockets Lm ss → similar ss ss' →
  Forall (λ e, match e_s e with Some i => in_range i | None => True end) (ev ss') →
  0 ≤ event_index ss' ≤ len (ev ss') → sockets Lm ss'.
Proof.
  intros [H1 H2 H3 H4 H5 H6 H7] [E1 E2 E3] He Hi. split; try done.
  - by rewrite E3.
  - intros i Hr. rewrite E1, E3. auto.
  - intros i Hr. rewrite E1, E2. auto.
  - intros x. rewrite E2. auto.
  - intros x. rewrite E2, E3. auto.
Qed.

Lemma traffic_similar ops es Lm ss ss' : traffic ops es Lm ss → similar ss ss' → pipe ss' = pipe ss → traffic ops es Lm ss'.
Proof.
  intros [H1 H2 H3 H4 H5] [E1 E2 E3] Ep. split; rewrite ?Ep, ?E3; try done.
  - intros i Hr. rewrite E1. auto.
  - intros x. unfold is_reserved. rewrite E1. apply H4.
Qed.

(** Two used slots have different ids. *)
Lemma other_id Lm ss i j : sockets Lm ss → in_range i → in_range j → j ≠ i → 0 < s_id (slot ss i) →
  s_id (slot ss j) ≠ s_id (slot ss i).
Proof.
  intros Hs Hi Hj Hne Hpos E. destruct (so_used _ _ Hs j Hj) as [Hu|[_ Hu]].
  - rewrite Hu in E. cbn in E. lia.
  - destruct (so_used _ _ Hs i Hi) as [Hv|[_ Hv]]; [rewrite Hv in Hpos; cbn in Hpos; lia|]. congruence.
Qed.

(** One socket took the buffers [L']. *)
Lemma sockets_update Lm Lm' L' ss ss' i s' w' k : sockets Lm ss → in_range i → 0 < s_id (slot ss i) →
  view i (s_id (slot ss i)) ss s' w' k ss' → sock_inv (s_id (slot ss i)) L' s' w' →
  Lm' (s_id (slot ss i)) = L' → (∀ y, y ≠ s_id (slot ss i) → Lm' y = Lm y) → sockets Lm' ss'.
Proof.
  intros Hs Hi Hpos [V1 V2 V3 V4 V5 V6] Hinv HL HLm. pose proof Hs as [H1 H2 H3 H4 H5 H6 H7].
  injection V6 as E1 E2 E3 E4 E5 E6.
  assert (Hid : s_id s' = s_id (slot ss i)) by (by destruct Hinv as [[]|[[]|[]]]).
  destruct (H2 i Hi) as [Hu|[Hr Hh]]; [rewrite Hu in Hpos; cbn in Hpos; lia|].
  split; rewrite ?E3, ?E4, ?E5; try done.
  - intros j Hj. destruct (decide (j = i)) as [->|Hne]; [right; by rewrite V1, Hid|]. rewrite V2 by done. auto.
  - intros j Hj. destruct (decide (j = i)) as [->|Hne]; [by rewrite V1, Hid, V3, HL|].
    rewrite V2 by done. pose proof (other_id _ _ i j Hs Hi Hj Hne Hpos) as Hd. rewrite V4, HLm by done. auto.
  - intros x. destruct (decide (x = s_id (slot ss i))) as [->|Hne].
    + rewrite V3, HL. by eapply sock_cut.
    + rewrite V4, HLm by done. auto.
  - intros x Hx. rewrite V4, HLm by lia. auto.
Qed.

(** Counts, requests and reserved slots do not change. *)
Lemma traffic_frame ops es Lm Lm' ss ss' : traffic ops es Lm ss →
  (∀ j, frame (slot ss' j) = frame (slot ss j)) →
  (∀ j, s_type (slot ss' j) = SOCKET_TYPE_RESERVE ↔ s_type (slot ss j) = SOCKET_TYPE_RESERVE) →
  pipe ss' = pipe ss → alloc_id ss' = alloc_id ss → (∀ x p, by_prio p (Lm' x) = by_prio p (Lm x)) →
  traffic ops es Lm' ss'.
Proof.
  intros [H1 H2 H3 H4 H5] Hf Ht Ep Ea Hb. split; rewrite ?Ep, ?Ea; try done.
  - intros i Hi. specialize (Hf i). injection Hf as F1 F2 F3. destruct (H1 i Hi) as [C1 C2].
    split; rewrite F1; [rewrite Ht; auto|rewrite F2, F3; auto].
  - intros x. unfold is_reserved. specialize (Hf (HASH_ID x)). injection Hf as F1 F2 F3. rewrite F1, Ht. apply H4.
  - intros x p. rewrite Hb. apply H5.
Qed.

(** ** Calls for one socket *)

Lemma wp_view {A} i x (m : run A) Q (Q' : A → server → Prop) ss0 s w k ss : view i x ss0 s w k ss →
  wpi i x m Q s w k → (∀ r s' w' k' ss', view i x ss0 s' w' k' ss' → Q r s' w' k' → Q' r ss') → wp m Q' ss.
Proof.
  intros Hv Hm HQ. eapply wp_mono; [by apply Hm|]. cbn. intros r ss' (s' & w' & k' & Hv' & H). by eapply HQ.
Qed.

Abbreviation at_slot ss i := (s_id (slot ss i)).

Lemma view_similar i ss s' w' k ss' : view i (at_slot ss i) ss s' w' k ss' →
  s' = slot ss i → w' = written (at_slot ss i) (trace ss) → similar ss ss'.
Proof.
  intros [V1 V2 V3 V4 V5 V6] -> ->. injection V6 as E1 E2 E3 E4 E5 E6. split; [| |done].
  - intros j. destruct (decide (j = i)) as [->|?]; auto.
  - intros y. destruct (decide (y = at_slot ss i)) as [->|?]; auto.
Qed.

Lemma world_similar ops es Lm ss ss' : world ops es Lm ss → similar ss ss' → rest_of ss' = rest_of ss → world ops es Lm ss'.
Proof.
  intros [H1 H2] Hs Hr. injection Hr as E1 E2 E3 E4 E5 E6. split.
  - eapply sockets_similar; [done..| |]; rewrite ?E4, ?E5; apply H1.
  - by eapply traffic_similar.
Qed.

Lemma wp_emit_world ops es Lm ss a (Q : unit → server → Prop) : world ops es Lm ss → (∀ y, written_by y a = []) →
  (∀ ss', world ops es Lm ss' → similar ss ss' → rest_of ss' = rest_of ss → Q tt ss') → wp (emit a) Q ss.
Proof.
  intros Hw Ha HQ. assert (Hs : similar ss (ss <| trace := trace ss ++ [a] |>)).
  { split; [done| |done]. intros y. cbn. by rewrite written_snoc, Ha, app_nil_r. }
  apply HQ; [by eapply world_similar|done|done].
Qed.

Lemma open_used Lm ss i : sockets Lm ss → in_range i → s_type (slot ss i) ≠ SOCKET_TYPE_INVALID →
  0 < at_slot ss i ≤ alloc_id ss ∧ HASH_ID (at_slot ss i) = i.
Proof. intros Hs Hi Ht. destruct (so_used _ _ Hs i Hi) as [Hu|?]; [by rewrite Hu in Ht|done]. Qed.

Lemma kept_reserve x L s0 s w : kept x L s0 s w → s_type s ≠ SOCKET_TYPE_RESERVE.
Proof. intros [_ [[_ [_ ?] _ _ _]|[_ E _ _]]]; [done|]. by rewrite E. Qed.

Lemma kept_inv x L s0 s w : kept x L s0 s w → sock_inv x L s w.
Proof. intros [_ [?|?]]; [by left|by right; left]. Qed.

Lemma view_frame i x ss s' w' k ss' : view i x ss s' w' k ss' → frame s' = frame (slot ss i) →
  ∀ j, frame (slot ss' j) = frame (slot ss j).
Proof. intros [V1 V2 _ _ _ _] Hf j. destruct (decide (j = i)) as [->|?]; [by rewrite V1|by rewrite V2]. Qed.

Lemma view_reserve i x ss s' w' k ss' : view i x ss s' w' k ss' →
  s_type s' ≠ SOCKET_TYPE_RESERVE → s_type (slot ss i) ≠ SOCKET_TYPE_RESERVE →
  ∀ j, s_type (slot ss' j) = SOCKET_TYPE_RESERVE ↔ s_type (slot ss j) = SOCKET_TYPE_RESERVE.
Proof. intros [V1 V2 _ _ _ _] H1 H2 j. destruct (decide (j = i)) as [->|?]; [by rewrite V1|by rewrite V2]. Qed.

Lemma world_stays ops es Lm ss i s' w' k ss' : world ops es Lm ss → in_range i →
  view i (at_slot ss i) ss s' w' k ss' →
  stays (at_slot ss i) (Lm (at_slot ss i)) (slot ss i) (written (at_slot ss i) (trace ss)) s' w' → world ops es Lm ss'.
Proof.
  intros Hw Hi Hv [[Es Ew]|[Hl Hk]].
  - eapply world_similar; [done|by eapply view_similar|apply Hv].
  - destruct Hw as [Hs Ht]. pose proof (lv_type _ _ _ _ Hl) as [Ht1 Ht2].
    destruct (open_used _ _ _ Hs Hi Ht1) as [Hpos Hh]. pose proof (vw_rest _ _ _ _ _ _ _ Hv) as Hr.
    injection Hr as E1 E2 E3 E4 E5 E6. split.
    + eapply sockets_update; [done..|lia|done|by eapply kept_inv|done|done].
    + eapply traffic_frame; [done|eapply view_frame; [done|apply Hk]|eapply view_reserve; [done|by eapply kept_reserve|done]|done..].
Qed.

Lemma wp_stays {A} ops es Lm ss i (m : run A) Q : world ops es Lm ss → in_range i →
  wpi i (at_slot ss i) m (λ _ s' w' _, stays (at_slot ss i) (Lm (at_slot ss i)) (slot ss i) (written (at_slot ss i) (trace ss)) s' w')
    (slot ss i) (written (at_slot ss i) (trace ss)) (length (answers ss)) →
  (∀ r ss', world ops es Lm ss' → rest_of ss' = rest_of ss → Q r ss') → wp m Q ss.
Proof.
  intros Hw Hi Hm HQ. eapply wp_view; [apply view_refl|exact Hm|]. cbn. intros r s' w' k' ss' Hv Hs.
  apply HQ; [by eapply world_stays|apply Hv].
Qed.

Lemma world_start ops es Lm ss id : world ops es Lm ss → id ∉ es ++ opens (pipe ss) →
  let s := slot ss (HASH_ID id) in start (s_id s) id (Lm (s_id s)) s (written (s_id s) (trace ss)).
Proof.
  intros [Hs Ht] Hn. split; [apply Hs, HASH_range|]. intros E Hr. apply Hn, (tr_opens _ _ _ _ Ht). by split.
Qed.

Lemma wp_request {A} ops es Lm ss id (m : run A) Q : world ops es Lm ss → id ∉ es ++ opens (pipe ss) →
  (∀ x L s w k, start x id L s w → wpi (HASH_ID id) x m (λ _ s' w' _, stays x L s w s' w') s w k) →
  (∀ r ss', world ops es Lm ss' → rest_of ss' = rest_of ss → Q r ss') → wp m Q ss.
Proof.
  intros Hw Hn Hm HQ. eapply wp_stays; [done|apply HASH_range| |done]. apply Hm. by eapply world_start.
Qed.

(** *** A request that opens a socket *)

Lemma reserved_other i ss ss' y : (∀ j, j ≠ i → slot ss' j = slot ss j) → at_slot ss i ≠ y → at_slot ss' i ≠ y →
  is_reserved ss' y ↔ is_reserved ss y.
Proof.
  intros Ho H1 H2. unfold is_reserved. destruct (decide (HASH_ID y = i)) as [->|?]; [|by rewrite Ho].
  split; intros [E _]; [by destruct H2|by destruct H1].
Qed.

Lemma world_opened ops x Lm ss s' w' k ss' : world ops [x] Lm ss → x ∉ opens (pipe ss) →
  view (HASH_ID x) x ss s' w' k ss' → opened x s' w' → world ops [] Lm ss'.
Proof.
  intros [Hs Ht] Hx Hv Ho. assert (Hres : is_reserved ss x) by (apply (tr_opens _ _ _ _ Ht); set_solver).
  destruct Hres as [Hid Hty]. pose proof (HASH_range x) as Hi. pose proof (so_inv _ _ Hs _ Hi) as Hsi.
  rewrite Hid in Hsi. destruct Hsi as [[_ [_ ?] _ _ _]|[[_ E _ _]|[_ _ _ _ [HL _]]]]; [done|by rewrite E in Hty|].
  destruct (open_used _ _ _ Hs Hi) as [Hpos _]; [by rewrite Hty|]. rewrite Hid in Hpos.
  assert (Hinv : sock_inv x [] s' w') by (destruct Ho as [_ [?|?]]; [by left|by right; left]).
  assert (Hty' : s_type s' ≠ SOCKET_TYPE_RESERVE).
  { destruct Ho as [_ [[_ [_ ?] _ _ _]|[_ E _ _]]]; [done|by rewrite E]. }
  assert (Hid' : s_id s' = x) by (by destruct Ho as [_ [[]|[]]]).
  pose proof (vw_rest _ _ _ _ _ _ _ Hv) as Hr. injection Hr as E1 E2 E3 E4 E5 E6. split.
  - eapply (sockets_update Lm Lm []); [done|exact Hi|lia|by rewrite Hid|by rewrite Hid|by rewrite Hid|done].
  - destruct Ht as [H1 H2 H3 H4 H5]. destruct Hv as [V1 V2 V3 V4 V5 V6].
    split; rewrite ?E6, ?E3; try done.
    + intros j Hj. destruct (decide (j = HASH_ID x)) as [->|?]; [|rewrite V2 by done; auto].
      destruct (H1 _ Hi) as [C1 _]. rewrite Hid in C1. rewrite V1, Hid'. split; [done|]. intros Htcp.
      exists 0. rewrite C1 by done. split; [lia|]. rewrite Hid', (proj1 Ho Htcp). lia.
    + intros y. destruct (decide (y = x)) as [->|Hne].
      { split; [|set_solver]. intros [_ Hy]. by rewrite V1 in Hy. }
      rewrite (reserved_other (HASH_ID x) ss ss' y); [rewrite H4; set_solver|by apply V2| |];
        [by rewrite Hid|by rewrite V1, Hid'].
Qed.

Lemma wp_opening {A} ops x Lm ss (m : run A) Q : world ops [x] Lm ss → x ∉ opens (pipe ss) →
  (∀ L s w k, reserved x L s w → wpi (HASH_ID x) x m (λ _ s' w' _, opened x s' w') s w k) →
  (∀ r ss', world ops [] Lm ss' → rest_of ss' = rest_of ss → Q r ss') → wp m Q ss.
Proof.
  intros Hw Hx Hm HQ. pose proof Hw as [Hs Ht].
  assert (Hres : is_reserved ss x) by (apply (tr_opens _ _ _ _ Ht); set_solver). destruct Hres as [Hid Hty].
  pose proof (so_inv _ _ Hs _ (HASH_range x)) as Hsi. rewrite Hid in Hsi.
  destruct Hsi as [[_ [_ ?] _ _ _]|[[_ E _ _]|Hr]]; [done|by rewrite E in Hty|].
  pose proof (view_refl (HASH_ID x) x ss) as Hv. eapply wp_view; [exact Hv|by eapply Hm|]. cbn.
  intros r s' w' k' ss' Hv' Ho. apply HQ; [by eapply world_opened|apply Hv'].
Qed.

(** *** Requests into and out of the pipe *)

Definition plain (r : request) : bool :=
  match r with R_bind _ _ _ | R_listen _ _ _ | R_open _ _ _ _ | R_send _ _ _ => false | _ => true end.

Lemma plain_facts r : plain r = true → opening r = [] ∧ (∀ x p, sending x p r = []) ∧ ∀ x, counts x r = 0.
Proof. by destruct r. Qed.

Lemma pipe_similar ss P : similar ss (ss <| pipe := P |>).
Proof. by split. Qed.

Lemma sockets_pipe Lm ss P : sockets Lm ss → sockets Lm (ss <| pipe := P |>).
Proof. intros H. eapply sockets_similar; [done|apply pipe_similar|apply H..]. Qed.

Lemma world_pop ops Lm ss r P : world ops [] Lm ss → pipe ss = r :: P → plain r = true →
  world ops [] Lm (ss <| pipe := P |>) ∧ id_of r ∉ opens P.
Proof.
  intros [Hs [H1 H2 H3 H4 H5]] Ep Hr. destruct (plain_facts r Hr) as (F1 & F2 & F3). rewrite Ep in *.
  destruct H2 as [H2 H2']. split; [|done]. split; [by apply sockets_pipe|].
  apply Forall_cons in H3 as [_ H3]. split; cbn; try done.
  - intros i Hi. specialize (H1 i Hi). by rewrite npend_cons, F3 in H1.
  - intros x. specialize (H4 x). by rewrite opens_cons, F1 in H4.
  - intros x p. specialize (H5 x p). by rewrite waiting_cons, F2 in H5.
Qed.

Lemma world_pop_open ops Lm ss r x P : world ops [] Lm ss → pipe ss = r :: P → opening r = [x] →
  world ops [x] Lm (ss <| pipe := P |>) ∧ x ∉ opens P.
Proof.
  intros [Hs [H1 H2 H3 H4 H5]] Ep Hr. rewrite Ep in *.
  assert (id_of r = x ∧ (∀ x p, sending x p r = []) ∧ ∀ x, counts x r = 0) as (<- & F2 & F3)
    by (destruct r; try done; cbn in Hr; injection Hr as <-; done).
  destruct H2 as [H2 H2']. split; [|done]. split; [by apply sockets_pipe|].
  apply Forall_cons in H3 as [_ H3]. split; cbn; try done.
  - intros i Hi. specialize (H1 i Hi). by rewrite npend_cons, F3 in H1.
  - intros x. specialize (H4 x). by rewrite opens_cons, Hr in H4.
  - intros x p. specialize (H5 x p). by rewrite waiting_cons, F2 in H5.
Qed.

Lemma world_queue ops Lm ss r : world ops [] Lm ss → plain r = true → id_of r ≤ alloc_id ss → is_tcp r = true →
  world ops [] Lm (ss <| pipe := pipe ss ++ [r] |>).
Proof.
  intros [Hs [H1 H2 H3 H4 H5]] Hr Hid Htcp. destruct (plain_facts r Hr) as (F1 & F2 & F3).
  split; [by apply sockets_pipe|]. split; cbn.
  - intros i Hi. rewrite npend_snoc, F3, Z.add_0_r. by apply H1.
  - apply ordered_snoc; [done|]. rewrite F1. apply Forall_forall. set_solver.
  - apply Forall_app. split; [done|]. by apply Forall_singleton.
  - intros x. rewrite opens_snoc, F1, app_nil_r. apply H4.
  - intros x p. rewrite waiting_snoc, F2, app_nil_r. apply H5.
Qed.

Lemma world_push_open ops Lm ss r x : world ops [x] Lm ss → opening r = [x] → x ≤ alloc_id ss → is_tcp r = true →
  Forall (λ r', id_of r' < x) (pipe ss) → world ops [] Lm (ss <| pipe := pipe ss ++ [r] |>).
Proof.
  intros [Hs [H1 H2 H3 H4 H5]] Hr Hid Htcp Hnew.
  assert (id_of r = x ∧ (∀ x p, sending x p r = []) ∧ ∀ x, counts x r = 0) as (E & F2 & F3)
    by (destruct r; try done; cbn in Hr; injection Hr as <-; done).
  split; [by apply sockets_pipe|]. split; cbn.
  - intros i Hi. rewrite npend_snoc, F3, Z.add_0_r. by apply H1.
  - apply ordered_snoc; [done|]. rewrite Hr. eapply Forall_impl; [exact Hnew|]. cbn. intros r' Hlt Hin.
    apply list_elem_of_singleton in Hin. lia.
  - apply Forall_app. split; [done|]. apply Forall_singleton. rewrite E. done.
  - intros y. rewrite opens_snoc, Hr. etransitivity; [apply (H4 y)|]. set_solver.
  - intros y p. rewrite waiting_snoc, F2, app_nil_r. apply H5.
Qed.

(** *** New ids *)

Lemma wp_push r (Q : unit → server → Prop) ss : Q tt (ss <| pipe := pipe ss ++ [r] |>) → wp (send_request r) Q ss.
Proof. done. Qed.

Lemma wp_load_slot i (Q : socket → server → Prop) ss : Q (slot ss i) ss → wp (load i) Q ss.
Proof. done. Qed.

Lemma wp_store_slot i s (Q : unit → server → Prop) ss : Q tt (ss <| slots := <[i := s]> (slots ss) |>) → wp (store i s) Q ss.
Proof. done. Qed.

Lemma world_alloc ops es Lm ss : world ops es Lm ss → alloc_id ss + 1 ≤ INT_MAX →
  world ops es Lm (ss <| alloc_id := alloc_id ss + 1 |>).
Proof.
  intros [[H1 H2 H3 H4 H5 H6 H7] [T1 T2 T3 T4 T5]] Ha. split; split; cbn; try done.
  - lia.
  - intros i Hi. destruct (H2 i Hi) as [?|[? ?]]; [by left|right]. split; [|done]. unfold slot in *. cbn in *. lia.
  - intros x Hx. apply H5. lia.
  - eapply Forall_impl; [exact T3|]. cbn. intros r [? ?]. split; [lia|done].
Qed.

Lemma npend_fresh x l : Forall (λ r, id_of r < x) l → npend x l = 0.
Proof.
  induction 1 as [|r l Hr _ IH]; [done|]. rewrite npend_cons, IH. destruct r; cbn in *; try done. case_match; lia.
Qed.

Lemma opens_fresh x l : Forall (λ r, id_of r < x) l → x ∉ opens l.
Proof.
  induction 1 as [|r l Hr _ IH]; [set_solver|]. rewrite opens_cons. intros [Hin|?]%elem_of_app; [|done].
  destruct r; cbn in Hin, Hr; apply list_elem_of_In in Hin; cbn in Hin; destruct Hin; lia || done.
Qed.

(** The slot [i] was free and has the new id [x]. *)
Lemma world_reserve ops Lm ss ss' : let x := alloc_id ss + 1 in let i := HASH_ID x in
  world ops [] Lm ss → x ≤ INT_MAX → s_type (slot ss i) = SOCKET_TYPE_INVALID →
  slot ss' i = reserve_slot (slot ss i) x → (∀ j, j ≠ i → slot ss' j = slot ss j) → trace ss' = trace ss →
  alloc_id ss' = x → (event_index ss', ev ss', pipe ss') = (event_index ss, ev ss, pipe ss) →
  world ops [x] Lm ss' ∧ Forall (λ r', id_of r' < x) (pipe ss').
Proof.
  intros x i [[H1 H2 H3 H4 H5 H6 H7] [T1 T2 T3 T4 T5]] Hx Hty Hi Ho Et Ea Er. injection Er as E1 E2 E3.
  assert (Hr : in_range i) by apply HASH_range.
  assert (Hnew : Forall (λ r', id_of r' < x) (pipe ss)) by (eapply Forall_impl; [exact T3|]; cbn; intros r [? _]; unfold x; lia).
  destruct (H5 x) as [HL Hw]; [unfold x; lia|].
  assert (Hres : reserved x [] (slot ss' i) []).
  { rewrite Hi. destruct (H3 i Hr) as [[_ [? _] _ _ _]|[[_ _ He _]|[_ E _ _ _]]]; [done| |by rewrite E in Hty]. by split. }
  split; [|by rewrite E3]. split; split; rewrite ?E1, ?E2, ?E3, ?Et, ?Ea; try done.
  - unfold x in *. lia.
  - intros j Hj. destruct (decide (j = i)) as [->|Hne].
    + right. rewrite Hi. cbn. split; [unfold x; lia|done].
    + rewrite Ho by done. destruct (H2 j Hj) as [?|[? ?]]; [by left|right]. split; [unfold x; lia|done].
  - intros j Hj. destruct (decide (j = i)) as [->|Hne]; [|rewrite Ho by done; auto].
    replace (at_slot ss' i) with x by (by rewrite Hi). rewrite HL, Hw. by right; right.
  - intros y Hy. apply H5. unfold x in *. lia.
  - intros j Hj. destruct (decide (j = i)) as [->|Hne]; [|rewrite Ho by done; auto].
    replace (at_slot ss' i) with x by (by rewrite Hi). rewrite npend_fresh by done. rewrite Hi. split; [done|]. by intros.
  - eapply Forall_impl; [exact T3|]. cbn. intros r [? ?]. split; [unfold x; lia|done].
  - intros y. destruct (decide (y = x)) as [->|Hne].
    + split; [set_solver|]. intros _. split; fold i; rewrite Hi; done.
    + transitivity (is_reserved ss y); [|rewrite T4; set_solver]. unfold is_reserved.
      destruct (decide (HASH_ID y = i)) as [->|?]; [|by rewrite Ho]. rewrite Hi, Hty.
      split; [intros [E _]; cbn in E; congruence|intros [_ E]; done].
Qed.

(** What [reserve_id] leaves, from [ss]. *)
Definition reserve_post (ops : list op) (Lm : Z → list entry) (ss : server) (id : Z) (ss' : server) : Prop :=
  (id < 0 ∧ world ops [] Lm ss' ∨
   0 < id ≤ alloc_id ss' ∧ world ops [id] Lm ss' ∧ Forall (λ r, id_of r < id) (pipe ss')) ∧
  (∀ j, s_type (slot ss j) ≠ SOCKET_TYPE_INVALID → slot ss' j = slot ss j) ∧
  (event_index ss', ev ss') = (event_index ss, ev ss).

Lemma reserve_loop_ok ops Lm n : ∀ ss, world ops [] Lm ss → wp (reserve_loop n) (reserve_post ops Lm ss) ss.
Proof.
  induction n as [|n IH]; intros ss Hw; cbn [reserve_loop].
  { apply wp_ret. split; [left; split; [lia|done]|done]. }
  apply wp_bind, wp_get. cbv beta zeta. destruct (INT_MAX <? alloc_id ss + 1) eqn:Emax; [done|].
  set (id := alloc_id ss + 1) in *. set (ss1 := ss <| alloc_id := id |>).
  apply wp_bind, wp_put, wp_bind, wp_load_slot. cbv beta zeta.
  destruct (s_type (slot ss1 (HASH_ID id)) =? SOCKET_TYPE_INVALID) eqn:Ety.
  - apply wp_bind, wp_store_slot, wp_ret. set (ss' := ss1 <| slots := <[HASH_ID id := reserve_slot (slot ss1 (HASH_ID id)) id]> (slots ss1) |>).
    assert (Hs : slot ss' (HASH_ID id) = reserve_slot (slot ss (HASH_ID id)) id) by (unfold slot; cbn; by rewrite lookup_insert_eq).
    assert (Ho : ∀ j, j ≠ HASH_ID id → slot ss' j = slot ss j) by (intros j Hj; unfold slot; cbn; by rewrite lookup_insert_ne).
    assert (Hty : s_type (slot ss (HASH_ID id)) = SOCKET_TYPE_INVALID) by (apply Z.eqb_eq; exact Ety).
    destruct (world_reserve ops Lm ss ss' Hw) as [Hw' Hnew]; [fold id; lia|exact Hty|exact Hs|exact Ho|reflexivity..|].
    assert (Ha : 0 ≤ alloc_id ss) by apply Hw. split; [right; split; [|split; [exact Hw'|exact Hnew]]|split; [|reflexivity]].
    { change (alloc_id ss') with id. lia. }
    intros j Hj. apply Ho. intros ->. done.
  - eapply wp_mono; [apply IH, world_alloc; [done|lia]|]. cbn. intros id2 ss' (H1 & H2 & H3). split; [done|]. split; [|done].
    intros j Hj. by apply H2.
Qed.

Lemma wp_reserve ops Lm ss Q : world ops [] Lm ss → (∀ id ss', reserve_post ops Lm ss id ss' → Q id ss') → wp reserve_id Q ss.
Proof. intros Hw HQ. eapply wp_mono; [by apply reserve_loop_ok|]. auto. Qed.

(** *** A buffer out of the pipe *)

Definition dec_sending (id : Z) (s : socket) : socket :=
  if (s_id s =? id) && (s_protocol s =? PROTOCOL_TCP) then s <| s_sending := s_sending s - 1 |> else s.

Lemma wpi_dec id x (Q : unit → socket → list Z → nat → Prop) s w k :
  (s_id s = id → s_protocol s = PROTOCOL_TCP → Z.land (s_sending s) 0xffff ≠ 0) →
  Q tt (dec_sending id s) w k → wpi (HASH_ID id) x (dec_sending_ref id) Q s w k.
Proof.
  intros Hc HQ. unfold dec_sending_ref, dec_sending in *. do 2 step1. step1; [|by steps].
  apply andb_true_iff in Heqb as [H1 H2]. step1. apply wpi_require; [|by steps].
  unfold truth. apply negb_true_iff, Z.eqb_neq, Hc; lia.
Qed.

Lemma sock_inv_core x L s s' w : core s' = core s → s_type s' = s_type s → sock_inv x L s w → sock_inv x L s' w.
Proof.
  intros Hc Ht H. pose proof Hc as E. injection E as E1 E2 E3 E4 E5 E6 E7 E8. unfold sock_inv.
  destruct H as [H|[[H1 H2 (F1 & F2 & F3) H4]|[H1 H2 H3 (F1 & F2 & F3) H5]]].
  - left. eapply live_core; [exact Hc|rewrite Ht; apply H|exact H].
  - right; left. split; [congruence|congruence|split_and!; congruence|done].
  - right; right. split; [congruence|congruence|congruence|split_and!; congruence|done].
Qed.

Lemma dec_core id s : core (dec_sending id s) = core s ∧ s_type (dec_sending id s) = s_type s ∧ s_id (dec_sending id s) = s_id s.
Proof. unfold dec_sending. by case_match. Qed.

Lemma send_request_ok id x L p b s w k : start x id L s w →
  (s_id s = id → s_protocol s = PROTOCOL_TCP → Z.land (s_sending s) 0xffff ≠ 0) →
  wpi (HASH_ID id) x (r ⟵ send_socket id b p None; dec_sending_ref id;; ret r)
    (λ _ s' w' _, ∃ s1, s' = dec_sending id s1 ∧
       ((s1 = s ∧ w' = w) ∨ (live x L s w ∧ id = x ∧ offered x p (b_data b) L s s1 w'))) s w k.
Proof.
  intros [Hs Hr] Hc. step1.
  apply wpi_mono with (λ _ s1 w1 _, (s1 = s ∧ w1 = w) ∨ (live x L s w ∧ id = x ∧ offered x p (b_data b) L s s1 w1)).
  - destruct (socket_invalid s id) eqn:Hv.
    + unfold send_socket. do 2 step1. step1; [steps; by left|]. exfalso.
      apply orb_false_iff in Heqb0 as [Hf _]. do 2 apply orb_false_iff in Hf as [Hf _].
      apply orb_false_iff in Hf as [H1 H2]. unfold socket_invalid in Hv. rewrite H1, H2 in Hv. done.
    + destruct (valid_live x L id s w Hs Hr Hv) as [Hl <-].
      eapply wpi_mono; [by apply (send_socket_ok (HASH_ID id) id p b L)|]. cbn. intros. by right.
  - cbn. intros r s1 w1 k1 H1. step1. apply wpi_dec.
    + destruct H1 as [[-> ->]|(_ & _ & L' & _ & Hf & _)]; [done|]. injection Hf as E1 E2 E3. by rewrite E1, E2, E3.
    + apply wpi_ret. by exists s1.
Qed.

Lemma land_count t c : 0 ≤ c ≤ 65535 → Z.land (t * 65536 + c) 0xffff = c.
Proof.
  intros Hc. change 0xffff with (2 ^ 16 - 1). rewrite land_mask by lia. change (2 ^ 16) with 65536.
  rewrite Z.add_comm, Z.mod_add by lia. apply Z.mod_small. lia.
Qed.

Lemma count_mono n n' s : 0 ≤ n' ≤ n → count_ok n s → count_ok n' s.
Proof.
  intros Hn [C1 C2]. split; [intros Ht; specialize (C1 Ht); lia|].
  intros Ht. destruct (C2 Ht) as (c & Hc & E). exists c. split; [lia|done].
Qed.

Lemma counts_bound x r : 0 ≤ counts x r ≤ 1.
Proof. destruct r; cbn; try lia. case_match; lia. Qed.

Lemma traffic_sent ops Lm Lm' ss ss' p id b P : traffic ops [] Lm ss → pipe ss = R_send p id b :: P →
  pipe ss' = P → alloc_id ss' = alloc_id ss → (∀ j, j ≠ HASH_ID id → slot ss' j = slot ss j) →
  (∃ s1, slot ss' (HASH_ID id) = dec_sending id s1 ∧ frame s1 = frame (slot ss (HASH_ID id)) ∧
     (s_type s1 = SOCKET_TYPE_RESERVE ↔ s_type (slot ss (HASH_ID id)) = SOCKET_TYPE_RESERVE)) →
  (∀ y, y ≠ id → Lm' y = Lm y) → took p (b_data b) (Lm id) (Lm' id) → traffic ops [] Lm' ss'.
Proof.
  intros [H1 H2 H3 H4 H5] Ep Ep' Ea Ho (s1 & Es & Hf & Hr) HLm Ht. injection Hf as F1 F2 F3.
  destruct (dec_core id s1) as (_ & D2 & D3). rewrite Ep in *.
  destruct H2 as [_ H2]. apply Forall_cons in H3 as [_ H3]. split; rewrite ?Ep', ?Ea; try done.
  - intros i Hi. specialize (H1 i Hi). rewrite npend_cons in H1.
    destruct (decide (i = HASH_ID id)) as [->|Hne]; [|rewrite Ho by done; eapply count_mono; [|exact H1];
      pose proof (npend_pos (at_slot ss i) P); pose proof (counts_bound (at_slot ss i) (R_send p id b)); lia].
    rewrite Es. unfold dec_sending. rewrite F1, F2. cbn [counts] in H1. rewrite (Z.eqb_sym id) in H1.
    pose proof (npend_pos (at_slot ss (HASH_ID id)) P) as Hpos. destruct H1 as [C1 C2].
    destruct (Z.eqb_spec (at_slot ss (HASH_ID id)) id) as [E|Hne]; cbn [andb].
    + destruct (Z.eqb_spec (s_protocol (slot ss (HASH_ID id))) PROTOCOL_TCP) as [Htcp|Htcp]; cbn [andb].
      * split; cbn; rewrite ?F1; [intros Hty; rewrite Hr in Hty; specialize (C1 Hty); lia|].
        intros _. destruct (C2 Htcp) as (c & Hc & Hs). exists (c - 1). split; [lia|]. rewrite F3, Hs. lia.
      * split; rewrite F1; [intros Hty; rewrite Hr in Hty; specialize (C1 Hty); lia|]. by rewrite F2.
    + split; rewrite F1; [rewrite Hr; auto|]. rewrite F2, F3. auto.
  - intros y. etransitivity; [|by apply H4]. unfold is_reserved.
    destruct (decide (HASH_ID y = HASH_ID id)) as [->|?]; [|by rewrite Ho]. rewrite Es, D2, D3, F1, Hr. done.
  - intros y q. specialize (H5 y q). rewrite waiting_cons in H5. etransitivity; [|exact H5]. cbn [sending].
    destruct (decide (y = id)) as [->|Hne].
    + rewrite Z.eqb_refl. cbn [andb].
      destruct Ht as [->|Ht]; [apply sublist_app; [reflexivity|]; by apply sublist_inserts_l|].
      rewrite Ht, <- app_assoc. by destruct p, q.
    + rewrite HLm by done. apply sublist_app; [reflexivity|]. by apply sublist_inserts_l.
Qed.

Lemma wp_send_request ops Lm ss p id b P (Q : Z * socket_message → server → Prop) : world ops [] Lm ss →
  pipe ss = R_send p id b :: P →
  (∀ r ss' Lm', world ops [] Lm' ss' → rest_of ss' = rest_of (ss <| pipe := P |>) → Q r ss') →
  wp (r ⟵ send_socket id b p None; dec_sending_ref id;; ret r) Q (ss <| pipe := P |>).
Proof.
  intros [Hs Ht] Ep HQ. pose proof (HASH_range id) as Hi. set (i := HASH_ID id) in *. set (s := slot ss i).
  set (x := s_id s). set (ss1 := ss <| pipe := P |>).
  assert (Hst : start x id (Lm x) s (written x (trace ss))).
  { split; [by apply Hs|]. intros E Hr. pose proof (tr_ordered _ _ _ _ Ht) as Ho. rewrite Ep in Ho. apply (proj1 Ho).
    assert (Hres : is_reserved ss id) by (by split). apply (tr_opens _ _ _ _ Ht) in Hres. by rewrite Ep in Hres. }
  eapply (wp_view i x _ _ _ ss1); [apply (view_refl i x ss1)|apply (send_request_ok id x (Lm x) p b s); [done|]|].
  - intros E Htcp. destruct (tr_count _ _ _ _ Ht i Hi) as [_ C2]. destruct (C2 Htcp) as (c & Hc & Hsd).
    fold s in Hsd. rewrite Hsd, land_count.
    + rewrite Ep, npend_cons in Hc. fold s in Hc. cbn [counts] in Hc. rewrite E, Z.eqb_refl in Hc.
      pose proof (npend_pos id P). lia.
    + pose proof (npend_pos (s_id (slot ss i)) (pipe ss)). lia.
  - cbn. intros r s' w' k' ss' Hv (s1 & Es & Hc). pose proof (dec_core id s1) as (D1 & D2 & D3).
    pose proof (vw_rest _ _ _ _ _ _ _ Hv) as Hrest. injection Hrest as R1 R2 R3 R4 R5 R6.
    assert (Hs1 : sockets Lm ss1) by by apply sockets_pipe.
    destruct Hc as [[-> ->]|(Hl & Eid & L' & Htook & Hk)].
    + apply (HQ r ss' Lm); [|apply Hv]. split.
      * destruct (so_used _ _ Hs i Hi) as [Hu|[Hx _]].
        -- assert (Es' : s' = s) by (rewrite Es; unfold dec_sending, s; rewrite Hu; by destruct (_ =? id)).
           eapply sockets_similar; [exact Hs1|by eapply (view_similar i ss1)|rewrite R5; apply Hs1|rewrite R4, R5; apply Hs1].
        -- eapply (sockets_update Lm Lm (Lm x) ss1 ss' i s'); [done|done|apply Hx|exact Hv| |done|done].
           eapply sock_inv_core; [by rewrite Es|by rewrite Es|apply Hst].
      * eapply (traffic_sent _ Lm _ ss ss'); [done..| |exists s|done|by left]; [apply Hv|].
        split; [|done]. fold i. by rewrite (vw_slot _ _ _ _ _ _ _ Hv).
    + set (Lm' := λ y, if y =? x then L' else Lm y).
      pose proof (lv_type _ _ _ _ Hl) as [Hty1 Hty2]. destruct (open_used _ _ i Hs Hi Hty1) as [Hx _].
      assert (E1 : Lm' x = L') by (unfold Lm'; by rewrite Z.eqb_refl).
      assert (E2 : ∀ y, y ≠ x → Lm' y = Lm y) by (intros y Hy; unfold Lm'; by destruct (Z.eqb_spec y x)).
      apply (HQ r ss' Lm'); [|apply Hv]. split.
      * eapply (sockets_update Lm Lm' L' ss1 ss' i s'); [done|done|apply Hx|exact Hv| |done|done].
        eapply sock_inv_core; [by rewrite Es|by rewrite Es|by eapply kept_inv].
      * eapply (traffic_sent _ Lm _ ss ss'); [done..| |exists s1| |]; [apply Hv| | |].
        -- fold i. rewrite (vw_slot _ _ _ _ _ _ _ Hv). split; [done|]. split; [apply Hk|].
           apply kept_reserve in Hk. done.
        -- intros y Hy. apply E2. by rewrite <- Eid.
        -- by rewrite Eid, E1.
Qed.

(** ** The poll loop *)

(** The pending events, which a call does not touch. *)
Definition events_of (ss : server) := (event_index ss, ev ss).

Lemma rest_events ss ss' : rest_of ss' = rest_of ss → events_of ss' = events_of ss.
Proof. intros E. injection E as E1 E2 E3 E4 E5 E6. unfold events_of. congruence. Qed.

Lemma ctrl_cmd_ok ops Lm ss Q : world ops [] Lm ss →
  (∀ r ss' Lm', world ops [] Lm' ss' → events_of ss' = events_of ss → Q r ss') → wp ctrl_cmd Q ss.
Proof.
  intros Hw HQ. unfold ctrl_cmd. apply wp_bind, wp_get. destruct (pipe ss) as [|r P] eqn:Ep; [done|].
  apply wp_bind, wp_put. pose proof (tr_ids _ _ _ _ (wd_traffic _ _ _ _ Hw)) as Hids. rewrite Ep in Hids.
  apply Forall_cons in Hids as [[_ Htcp] _].
  assert (HQ1 : ∀ r ss', world ops [] Lm ss' → rest_of ss' = rest_of (ss <| pipe := P |>) → Q r ss').
  { intros r' ss' Hw' Hr. apply (HQ r' ss' Lm Hw'). by apply rest_events in Hr. }
  destruct (plain r) eqn:Hpl.
  - destruct (world_pop ops Lm ss r P Hw Ep Hpl) as [Hw1 Hid].
    destruct r; try done; cbn [do_request id_of] in *.
    + eapply (wp_request ops [] Lm _ id); [exact Hw1|exact Hid| |exact HQ1]. intros. by apply resume_socket_ok.
    + eapply (wp_request ops [] Lm _ id); [exact Hw1|exact Hid| |exact HQ1]. intros. by apply pause_socket_ok.
    + eapply (wp_request ops [] Lm _ id); [exact Hw1|exact Hid| |exact HQ1]. intros. by apply close_socket_ok.
    + apply wp_ret, HQ1; done.
    + eapply (wp_request ops [] Lm _ id); [exact Hw1|exact Hid| |exact HQ1]. intros. by apply trigger_write_ok.
    + apply wp_bind. eapply (wp_request ops [] Lm _ id); [exact Hw1|exact Hid| |]; [intros; by apply setopt_socket_ok|].
      intros _ ss' Hw' Hr. apply wp_ret, HQ1; done.
  - destruct r; try done; cbn [do_request] in *.
    + destruct (world_pop_open ops Lm ss _ id P Hw Ep eq_refl) as [Hw1 Hid].
      eapply (wp_opening ops id Lm); [exact Hw1|exact Hid| |exact HQ1]. intros. by eapply bind_socket_ok.
    + destruct (world_pop_open ops Lm ss _ id P Hw Ep eq_refl) as [Hw1 Hid].
      eapply (wp_opening ops id Lm); [exact Hw1|exact Hid| |exact HQ1]. intros. by eapply listen_socket_ok.
    + destruct (world_pop_open ops Lm ss _ id P Hw Ep eq_refl) as [Hw1 Hid].
      eapply (wp_opening ops id Lm); [exact Hw1|exact Hid| |exact HQ1]. intros. by eapply open_socket_ok.
    + eapply wp_send_request; [exact Hw|exact Ep|]. intros r ss' Lm' Hw' Hr. apply (HQ r ss' Lm' Hw').
      by apply rest_events in Hr.
Qed.

Definition events_ok (ss : server) : Prop :=
  Forall (λ e, match e_s e with Some i => in_range i | None => True end) (ev ss) ∧ 0 ≤ event_index ss ≤ len (ev ss).

(** Only the events change. *)
Lemma world_events ops es Lm ss ss' : world ops es Lm ss → similar ss ss' → pipe ss' = pipe ss → events_ok ss' → world ops es Lm ss'.
Proof.
  intros [Hs Ht] Hsim Hp [He Hi]. split; [by eapply sockets_similar|by eapply traffic_similar].
Qed.

Lemma clear_events_ok sl id l : Forall (λ e, match e_s e with Some i => in_range i | None => True end) l →
  Forall (λ e, match e_s e with Some i => in_range i | None => True end) (clear_events sl id l) ∧
  length (clear_events sl id l) = length l.
Proof.
  induction 1 as [|e l He Hl [IH1 IH2]]; [done|]. cbn. destruct (e_s e) as [i|] eqn:E.
  - case_match; cbn.
    + split; [|done]. by apply Forall_cons.
    + split; [|lia]. apply Forall_cons. by rewrite E.
  - cbn. split; [|lia]. apply Forall_cons. by rewrite E.
Qed.

Lemma clear_closed_ok ops es Lm id type ss Q : world ops es Lm ss →
  (∀ ss', world ops es Lm ss' → Q tt ss') → wp (clear_closed_event id type) Q ss.
Proof.
  intros Hw HQ. unfold clear_closed_event, wp. destruct (_ || _); [|by apply HQ]. apply HQ.
  pose proof (so_events _ _ (wd_sockets _ _ _ _ Hw)) as He. pose proof (so_index _ _ (wd_sockets _ _ _ _ Hw)) as Hi.
  set (k := Z.to_nat (event_index ss)). destruct (clear_events_ok (slots ss) id (drop k (ev ss))) as [H1 H2]; [by apply Forall_drop|].
  eapply world_events; [done|done|done|]. split; cbn.
  - apply Forall_app. split; [by apply Forall_take|done].
  - unfold len in *. rewrite length_app, H2, <- length_app, take_drop. done.
Qed.

Lemma wp_quiet ops es Lm ss c (Q : answer → server → Prop) : is_write c = false → world ops es Lm ss →
  (∀ a ss', answer_ok c a = true → similar ss ss' → rest_of ss' = rest_of ss → world ops es Lm ss' → Q a ss') →
  wp (sys c) Q ss.
Proof.
  intros Hc Hw HQ. eapply (wp_view 0 (at_slot ss 0)); [apply view_refl|apply wpi_sys; [exact Hc|]|].
  - intros a k' Ha Hk. instantiate (1 := λ a s' w' _, answer_ok c a = true ∧ s' = slot ss 0 ∧ w' = written (at_slot ss 0) (trace ss)).
    done.
  - cbn. intros a s' w' k' ss' Hv (Ha & Es & Ew). assert (Hsim : similar ss ss') by by eapply view_similar.
    pose proof (vw_rest _ _ _ _ _ _ _ Hv) as Hr. apply HQ; [done|done|done|by eapply world_similar].
Qed.

Lemma wp_quiet_ ops es Lm ss c (Q : unit → server → Prop) : is_write c = false → world ops es Lm ss →
  (∀ ss', similar ss ss' → rest_of ss' = rest_of ss → world ops es Lm ss' → Q tt ss') → wp (sys_ c) Q ss.
Proof. intros Hc Hw HQ. apply wp_bind. eapply wp_quiet; [done..|]. intros a ss' _ Hs Hr Hw'. by apply wp_ret, HQ. Qed.

Lemma similar_trans ss ss' ss'' : similar ss ss' → similar ss' ss'' → similar ss ss''.
Proof. intros [A1 A2 A3] [B1 B2 B3]. split; intros; congruence. Qed.

(** *** Accepting a connection *)

(** Another slot changes under a view. *)
Lemma view_base i j x ss0 s w k ss s' : i ≠ j → view j x ss0 s w k ss →
  view j x (ss0 <| slots := <[i := s']> (slots ss0) |>) s w k (ss <| slots := <[i := s']> (slots ss) |>).
Proof.
  intros Hij [V1 V2 V3 V4 V5 V6]. split; try done.
  - unfold slot. cbn. by rewrite lookup_insert_ne.
  - intros n Hn. unfold slot in *. cbn. destruct (decide (n = i)) as [->|?].
    + by rewrite !lookup_insert_eq.
    + rewrite !lookup_insert_ne by done. by apply V2.
Qed.

Lemma view_store i x ss s' : view i x ss s' (written x (trace ss)) (length (answers ss)) (ss <| slots := <[i := s']> (slots ss) |>).
Proof.
  split; try done.
  - unfold slot. cbn. by rewrite lookup_insert_eq.
  - intros j Hj. unfold slot. cbn. by rewrite lookup_insert_ne.
Qed.

(** A live socket keeps its place in the world when its stat changes. *)
Lemma world_stat ops es Lm ss i (st : socket_stat) : world ops es Lm ss → in_range i → is_open (s_type (slot ss i)) →
  world ops es Lm (ss <| slots := <[i := (slot ss i) <| s_stat := st |>]> (slots ss) |>).
Proof.
  intros Hw Hi Ho. eapply (world_stays _ _ _ _ i); [exact Hw|exact Hi|apply view_store|].
  pose proof (sock_live _ _ _ _ (so_inv _ _ (wd_sockets _ _ _ _ Hw) i Hi) Ho) as Hl.
  eapply live_stays; [exact Hl|done|done|apply Hl].
Qed.

Definition accept_rest (i id : Z) (s : socket) (ns : option Z) (client_fd : Z) : run (Z * socket_message) :=
  match ns with
  | None => sys_ (Close client_fd);; ret (0, no_message)
  | Some ns =>
      stat_read i 1;;
      set_type ns SOCKET_TYPE_PACCEPT;;
      n ⟵ sys InetNtop;
      ret (1, SM (s_id s) (s_opaque s) id (if truth (a_ret n) then Name (a_bytes n) else NoData))
  end.

Lemma accept_rest_ok ops Lm ss0 ss i id s ns fd s' w' k : world ops [id] Lm ss0 → id ∉ opens (pipe ss0) →
  in_range i → i ≠ HASH_ID id → is_open (s_type (slot ss0 i)) →
  view (HASH_ID id) id ss0 s' w' k ss →
  match ns with
  | Some j => j = HASH_ID id ∧ new_socket id s' w'
  | None => opened id s' w' ∧ s_type s' = SOCKET_TYPE_INVALID
  end →
  wp (accept_rest i id s ns fd) (λ _ ss', world ops [] Lm ss' ∧ events_of ss' = events_of ss0) ss.
Proof.
  intros Hw Hid Hi Hne Ho Hv Hns. unfold accept_rest. destruct ns as [j|].
  - destruct Hns as [-> Hn]. apply wp_bind. unfold stat_read. apply wp_bind. unfold now, wp at 1.
    unfold modify. apply wp_bind, wp_load_slot, wp_store_slot. rewrite (vw_other _ _ _ _ _ _ _ Hv) by done.
    set (st := Stat _ _ _ _). pose proof (world_stat ops [id] Lm ss0 i st Hw Hi Ho) as Hw1.
    pose proof (view_base i (HASH_ID id) id ss0 s' w' k ss ((slot ss0 i) <| s_stat := st |>) Hne Hv) as Hv1.
    set (ss1 := ss0 <| slots := <[i := (slot ss0 i) <| s_stat := st |>]> (slots ss0) |>) in *.
    eapply (wp_view (HASH_ID id) id _ (λ _ s2 w2 _, opened id s2 w2)); [exact Hv1| |].
    + steps. by eapply new_live.
    + cbn. intros r s2 w2 k2 ss2 Hv2 Ho2. split; [by eapply (world_opened ops id Lm ss1)|].
      apply vw_rest in Hv2. by apply rest_events in Hv2.
  - destruct Hns as [Hop Hty]. eapply (wp_view (HASH_ID id) id _ (λ _ s2 w2 _, opened id s2 w2)); [exact Hv|by steps|].
    cbn. intros r s2 w2 k2 ss2 Hv2 Ho2. split; [by eapply (world_opened ops id Lm ss0)|].
    apply vw_rest in Hv2. by apply rest_events in Hv2.
Qed.

Lemma report_accept_ok ops Lm ss i : world ops [] Lm ss → in_range i → is_open (s_type (slot ss i)) →
  wp (report_accept i) (λ _ ss', world ops [] Lm ss' ∧ events_of ss' = events_of ss) ss.
Proof.
  intros Hw Hi Ho. unfold report_accept. apply wp_bind, wp_load_slot, wp_bind.
  eapply wp_quiet; [done|exact Hw|]. intros a ss1 _ Hs1 Hr1 Hw1. apply rest_events in Hr1. cbv zeta.
  destruct (a_ret a <? 0); [destruct (_ || _); by apply wp_ret|].
  apply wp_bind. eapply wp_reserve; [exact Hw1|]. intros id ss2 (Hid & Hsame & He).
  assert (He2 : events_of ss2 = events_of ss) by (unfold events_of in *; congruence).
  destruct Hid as [[Hneg Hw2]|(Hpos & Hw2 & Hnew)].
  { destruct (Z.ltb_spec id 0); [|lia]. apply wp_bind. eapply wp_quiet_; [done|exact Hw2|].
    intros ss3 _ Hr3 Hw3. apply rest_events in Hr3. apply wp_ret. split; [done|congruence]. }
  destruct (Z.ltb_spec id 0); [lia|].
  apply wp_bind. eapply wp_quiet_; [done|exact Hw2|]. intros ss3 Hs3 Hr3 Hw3. apply wp_bind.
  eapply wp_quiet_; [done|exact Hw3|]. intros ss4 Hs4 Hr4 Hw4. pose proof (similar_trans _ _ _ Hs3 Hs4) as Hs.
  assert (Hp : pipe ss4 = pipe ss2) by (injection Hr3 as _ _ _ _ _ ?; injection Hr4 as _ _ _ _ _ ?; congruence).
  apply rest_events in Hr3, Hr4.
  assert (Hsi : slot ss4 i = slot ss i).
  { rewrite (si_slot _ _ Hs). rewrite Hsame; rewrite (si_slot _ _ Hs1); [done|apply Ho]. }
  assert (Hres : is_reserved ss4 id) by (apply (tr_opens _ _ _ _ (wd_traffic _ _ _ _ Hw4)); set_solver).
  assert (Hne : i ≠ HASH_ID id) by (intros ->; destruct Hres as [_ E]; rewrite Hsi in E; by destruct Ho).
  assert (Hop : id ∉ opens (pipe ss4)) by (rewrite Hp; by apply opens_fresh).
  pose proof (so_inv _ _ (wd_sockets _ _ _ _ Hw4) _ (HASH_range id)) as Hsv. destruct Hres as [Hrid Hrty]. rewrite Hrid in Hsv.
  destruct Hsv as [[_ [_ ?] _ _ _]|[[_ E _ _]|Hrs]]; [done|by rewrite E in Hrty|].
  apply wp_bind. eapply wp_view; [apply (view_refl (HASH_ID id) id)|by apply (new_fd_ok _ _ _ _ _ _ _ _ _ eq_refl Hrs)|].
  cbn. intros ns s' w' k' ss5 Hv Hns. fold (accept_rest i id (slot ss i) ns (a_ret a)).
  eapply wp_mono; [eapply (accept_rest_ok ops Lm ss4); [done..|by rewrite Hsi|exact Hv|exact Hns]|].
  cbn. intros _ ss6 [Hw6 He6]. split; [done|congruence].
Qed.

(** *** Events *)

Lemma wp_kept {A} ops Lm ss i (m : run A) (Q : A → server → Prop) : world ops [] Lm ss → in_range i → is_open (s_type (slot ss i)) →
  (∀ x L s w k, live x L s w → s = slot ss i → wpi i x m (λ _ s' w' _, kept x L s s' w') s w k) →
  (∀ r ss', world ops [] Lm ss' → events_of ss' = events_of ss → Q r ss') → wp m Q ss.
Proof.
  intros Hw Hi Ho Hm HQ.
  pose proof (sock_live _ _ _ _ (so_inv _ _ (wd_sockets _ _ _ _ Hw) i Hi) Ho) as Hl.
  eapply wp_stays; [exact Hw|exact Hi| |].
  - eapply wpi_mono; [by apply Hm|]. cbn. intros r s w k Hk. right. split; [done|exact Hk].
  - intros r ss' Hw' Hr. apply HQ; [done|by apply rest_events].
Qed.

Lemma again_ok ops Lm ss e b Q : world ops [] Lm ss → 1 ≤ event_index ss →
  match e_s e with Some i => in_range i | None => True end →
  (∀ ss', world ops [] Lm ss' → Q tt ss') → wp (again e b) Q ss.
Proof.
  intros Hw Hpos He HQ. unfold again. apply wp_bind, wp_get. cbv zeta.
  set (e' := if b then e else _). destruct (wd_sockets _ _ _ _ Hw) as [_ _ _ _ _ Hev Hix].
  destruct (arr_set_is_Some (ev ss) (event_index ss - 1) e') as [evs Hevs]; [lia|].
  apply wp_bind. eapply wp_must; [exact Hevs|]. apply wp_put, HQ. eapply world_events; [exact Hw|done|done|].
  pose proof (arr_set_len _ _ _ _ Hevs) as Hlen. split; cbn; [|lia].
  rewrite arr_set_Some in Hevs by lia. injection Hevs as <-.
  apply Forall_insert; [done|]. unfold e'. by destruct b.
Qed.

Lemma poll_open_ok ops Lm ss i e : world ops [] Lm ss → in_range i → is_open (s_type (slot ss i)) → 1 ≤ event_index ss →
  e_s e = Some i → wp (poll_open i e) (λ _ ss', world ops [] Lm ss') ss.
Proof.
  intros Hw Hi Ho Hpos He. unfold poll_open.
  assert (Hev : match e_s e with Some i => in_range i | None => True end) by by rewrite He.
  pose proof (sock_live _ _ _ _ (so_inv _ _ (wd_sockets _ _ _ _ Hw) i Hi) Ho) as Hl.
  apply wp_bind, wp_load_slot. destruct (e_read e).
  - apply wp_bind. rewrite (lv_tcp _ _ _ _ Hl). cbn [Z.eqb PROTOCOL_TCP].
    eapply (wp_kept ops Lm ss i); [done..|intros; by apply forward_tcp_ok|].
    intros [type result] ss1 Hw1 He1. assert (Hpos1 : 1 ≤ event_index ss1) by (injection He1 as -> _; done). cbn.
    destruct (type =? SOCKET_MORE); [apply wp_bind; eapply again_ok; [done..|]; intros ss2 Hw2; by apply wp_ret|].
    destruct (type =? SOCKET_UDP); [apply wp_bind; eapply again_ok; [done..|]; intros ss2 Hw2; by apply wp_ret|].
    apply wp_bind. destruct (_ && _); [eapply again_ok; [done..|]; intros ss2 Hw2|apply wp_ret];
      destruct (type =? -1); by apply wp_ret.
  - destruct (e_write e).
    { apply wp_bind. eapply (wp_kept ops Lm ss i); [done..|intros; by apply send_buffer_ok|].
      intros [type result] ss1 Hw1 _. by apply wp_ret. }
    destruct (e_error e).
    { apply wp_bind. eapply wp_quiet; [done|exact Hw|]. intros a ss1 _ _ _ Hw1. by apply wp_ret. }
    destruct (e_eof e); [|by apply wp_ret].
    apply wp_bind. eapply (wp_kept ops Lm ss i); [done..|intros; by apply force_close_kept|].
    intros r ss1 Hw1 _. by apply wp_ret.
Qed.

Lemma poll_event_ok ops Lm ss e : world ops [] Lm ss → 1 ≤ event_index ss →
  match e_s e with Some i => in_range i ∧ s_type (slot ss i) ≠ SOCKET_TYPE_RESERVE | None => True end →
  wp (poll_event e) (λ _ ss', world ops [] Lm ss') ss.
Proof.
  intros Hw Hpos He. unfold poll_event. destruct (e_s e) as [i|] eqn:Ee; [|by apply wp_ret]. destruct He as [Hi Hr].
  apply wp_bind, wp_load_slot. cbv zeta. destruct (_ =? SOCKET_TYPE_CONNECTING) eqn:E1.
  { apply wp_bind. eapply (wp_kept ops Lm ss i); [done..| |intros; by apply report_connect_ok|intros; by apply wp_ret].
    split; apply Z.eqb_eq in E1; by rewrite E1. }
  destruct (_ =? SOCKET_TYPE_LISTEN) eqn:E2.
  { apply wp_bind. eapply wp_mono; [apply report_accept_ok; [done..|]; split; apply Z.eqb_eq in E2; by rewrite E2|].
    cbn. intros [ok result] ss' [Hw' _]. by apply wp_ret. }
  destruct (_ =? SOCKET_TYPE_INVALID) eqn:E3.
  { apply wp_bind. eapply wp_emit_world; [exact Hw|done|]. intros. by apply wp_ret. }
  apply poll_open_ok; try done. split; [|done]. by apply Z.eqb_neq.
Qed.

Lemma event_range e : events_ok e → ∀ x k, (ev e).[k] = Some x → match e_s x with Some i => in_range i | None => True end.
Proof. intros [H _] x k Hx. exact (arr_get_Forall (λ x, match e_s x with Some i => in_range i | None => True end) (ev e) k x H Hx). Qed.

Lemma world_events_ok ops es Lm ss : world ops es Lm ss → events_ok ss.
Proof. intros [[_ _ _ _ _ He Hi] _]. by split. Qed.

Lemma wp_head c ss : wp (sys c) (λ a _, head (answers ss) = Some a) ss.
Proof. unfold wp, sys. destruct (answers ss) as [|a rest]; [done|]. by destruct (answer_ok c a). Qed.

(** The wait leaves the event the round takes, or none. *)
Lemma poll_wait_ok ops Lm ss (Q : bool → server → Prop) : world ops [] Lm ss →
  (∀ none ss', world ops [] Lm ss' → (∀ j, slot ss' j = slot ss j) →
     (none = false → event_index ss' < len (ev ss') ∧ (ev ss').[event_index ss'] = next_event ss) → Q none ss') →
  wp poll_wait Q ss.
Proof.
  intros Hw HQ. unfold poll_wait. apply wp_bind, wp_get. pose proof (world_events_ok _ _ _ _ Hw) as [_ Hix].
  destruct (Z.eqb_spec (event_index ss) (len (ev ss))) as [E|E].
  - apply wp_bind. eapply wp_mono; [apply wp_and; [by apply wp_head|]|].
    { eapply (wp_quiet ops [] Lm ss SpWait (λ a ss', answer_ok SpWait a = true ∧ similar ss ss' ∧ pipe ss' = pipe ss ∧ world ops [] Lm ss')); [done|exact Hw|].
      intros a ss1 Ha Hs1 Hr1 Hw1. injection Hr1 as _ _ _ _ _ Hp1. done. }
    cbn. intros a ss1 (Ea & Hok & Hs1 & Hp1 & Hw1). apply wp_bind, wp_get, wp_bind, wp_put.
    apply andb_true_iff in Hok as [Hok Hev]. apply andb_true_iff in Hok as [_ Hlen]. apply Z.eqb_eq in Hlen.
    set (ss2 := ss1 <| ev := a_events a |> <| checkctrl := true |> <| event_index := 0 |>).
    assert (Hw2 : world ops [] Lm ss2).
    { eapply world_events; [exact Hw1|done|done|]. split; cbn; [|pose proof (len_nonneg (a_events a)); lia].
      apply Forall_forall. intros e He. apply list_elem_of_In in He. rewrite forallb_forall in Hev. specialize (Hev e He).
      destruct (e_s e); [lia|done]. }
    destruct (Z.leb_spec (a_ret a) 0).
    + apply wp_bind. destruct (negb (a_errno a =? EINTR)); [|apply wp_ret, wp_ret, HQ; [done|apply Hs1|done]].
      eapply wp_emit_world; [exact Hw2|done|]. intros ss3 Hw3 Hs3 _. apply wp_ret, HQ; [done| |done].
      intros j. rewrite (si_slot _ _ Hs3). apply Hs1.
    + apply wp_ret, HQ; [done|apply Hs1|]. intros _. cbn. split; [lia|]. unfold next_event. rewrite E, Z.eqb_refl, Ea. cbn.
      by destruct (a_events a).
  - apply wp_ret, HQ; [done|done|]. intros _. split; [lia|]. unfold next_event. by destruct (Z.eqb_spec (event_index ss) (len (ev ss))).
Qed.

Lemma poll_round_ok ops Lm ss : world ops [] Lm ss → allowed Poll ss = true →
  wp socket_server_poll_round (λ _ ss', ∃ Lm', world ops [] Lm' ss') ss.
Proof.
  intros Hw Ha. unfold socket_server_poll_round. apply wp_bind, wp_get. cbn [allowed] in Ha.
  destruct (checkctrl ss && negb (bool_decide (pipe ss = []))) eqn:Ec.
  - apply wp_bind. eapply ctrl_cmd_ok; [exact Hw|]. intros [type result] ss1 Lm1 Hw1 _. cbn.
    destruct (negb (type =? -1)); [|apply wp_ret; by exists Lm1]. apply wp_bind. eapply clear_closed_ok; [exact Hw1|].
    intros ss2 Hw2. apply wp_ret. by exists Lm1.
  - cbn [orb] in Ha. apply wp_bind, wp_put, wp_bind. set (ss1 := ss <| checkctrl := false |>).
    assert (Hw1 : world ops [] Lm ss1) by (eapply world_events; [exact Hw|done|done|exact (world_events_ok _ _ _ _ Hw)]).
    eapply poll_wait_ok; [exact Hw1|]. intros none ss2 Hw2 Hslot Hnext. destruct none; [apply wp_ret; by exists Lm|].
    destruct Hnext as [Hlt He]; [done|]. apply wp_bind, wp_get. change (next_event ss1) with (next_event ss) in He.
    pose proof (world_events_ok _ _ _ _ Hw2) as Hev. destruct Hev as [Hev Hix].
    destruct (arr_get_is_Some (ev ss2) (event_index ss2)) as [e Hget]; [lia|].
    apply wp_bind. eapply wp_must; [exact Hget|]. apply wp_bind, wp_put.
    eapply wp_mono; [apply (poll_event_ok ops Lm)|intros r ss3 Hw3; by exists Lm].
    + eapply world_events; [exact Hw2|done|done|]. split; [done|cbn; lia].
    + cbn. lia.
    + rewrite <- He, Hget in Ha. pose proof (event_range ss2 (conj Hev Hix) e _ Hget) as Hr. destruct e as [[i|] ? ? ? ?]; [|done].
      cbn in Hr |- *. split; [done|]. unfold slot at 1. cbn. fold (slot ss2 i). rewrite Hslot.
      change (slot ss1 i) with (slot ss i). intros Hty. unfold is_reserve in Ha. by rewrite Hty in Ha.
Qed.

(** ** The calls of the workers *)

Lemma sends_of_snoc x p l o : sends_of x p (l ++ [o]) = sends_of x p l ++ sends_of x p [o].
Proof. apply omap_app. Qed.

Lemma world_ops ops es Lm ss o : world ops es Lm ss → world (ops ++ [o]) es Lm ss.
Proof.
  intros [Hs [H1 H2 H3 H4 H5]]. split; [done|]. split; try done. intros x p. rewrite sends_of_snoc.
  by apply sublist_inserts_r.
Qed.

Lemma wp_silent {A} ops es Lm ss (m : run A) (Q : A → server → Prop) : world ops es Lm ss →
  (∀ x s w k, wpi 0 x m (λ _ s' w' _, s' = s ∧ w' = w) s w k) →
  (∀ r ss', world ops es Lm ss' → Q r ss') → wp m Q ss.
Proof.
  intros Hw Hm HQ. eapply (wp_stays _ _ _ _ 0); [exact Hw|done| |by intros r ss' ? _; apply HQ].
  eapply wpi_mono; [apply Hm|]. cbn. intros r s w k H. by left.
Qed.

Lemma do_listen_silent host port backlog i x s w k : wpi i x (do_listen host port backlog) (λ _ s' w' _, s' = s ∧ w' = w) s w k.
Proof.
  unfold do_listen. step1. apply wpi_mono with (λ _ s' w' _, s' = s ∧ w' = w); [|cbn; intros fd s' w' k' [-> ->]; by steps].
  unfold do_bind. step1. apply wpi_sys; [done|]. intros a k' Ha ->. cbv beta zeta. step1; [by steps|].
  cbn in Ha. rewrite Heqb in Ha. cbn in Ha. destruct (a_bytes a) as [|address l]; [done|].
  step1. eapply wpi_must; [done|]. by steps.
Qed.

(** A new id and the request that opens it. *)
Lemma wp_reserve_push ops Lm ss (f : Z → request) (fail : Z → run Z) : world ops [] Lm ss →
  (∀ id, opening (f id) = [id]) → (∀ id, is_tcp (f id) = true) →
  (∀ id i x s w k, wpi i x (fail id) (λ _ s' w' _, s' = s ∧ w' = w) s w k) →
  wp (id ⟵ reserve_id; if id <? 0 then fail id else send_request (f id);; ret id) (λ _ ss', world ops [] Lm ss') ss.
Proof.
  intros Hw Hf Htcp Hfail. apply wp_bind. eapply wp_reserve; [exact Hw|]. intros id ss1 ([[Hneg Hw1]|(Hpos & Hw1 & Hnew)] & _ & _).
  - destruct (Z.ltb_spec id 0); [|lia]. eapply wp_silent; [exact Hw1|intros; apply Hfail|done].
  - destruct (Z.ltb_spec id 0); [lia|]. apply wp_bind, wp_push, wp_ret.
    eapply world_push_open; [exact Hw1|apply Hf|lia|apply Htcp|exact Hnew].
Qed.

Lemma connect_ok ops Lm ss opaque addr port : world ops [] Lm ss →
  wp (socket_server_connect opaque addr port) (λ _ ss', world ops [] Lm ss') ss.
Proof.
  intros Hw. unfold socket_server_connect, open_request. destruct (256 <=? len addr + 24).
  - apply wp_bind, wp_bind. eapply wp_emit_world; [exact Hw|done|]. intros ss' Hw' _ _. by apply wp_ret, wp_ret.
  - apply (wp_reserve_push _ _ _ (λ id, R_open id port opaque addr) (λ _, ret (-1))); try done. intros. by steps.
Qed.

Lemma listen_ok ops Lm ss opaque addr port backlog : world ops [] Lm ss →
  wp (socket_server_listen opaque addr port backlog) (λ _ ss', world ops [] Lm ss') ss.
Proof.
  intros Hw. unfold socket_server_listen. apply wp_bind. eapply wp_silent; [exact Hw|intros; apply do_listen_silent|].
  intros fd ss1 Hw1. destruct (fd <? 0); [by apply wp_ret|].
  apply (wp_reserve_push _ _ _ (λ id, R_listen id fd opaque) (λ id, sys_ (Close fd);; ret id)); try done. intros. by steps.
Qed.

Lemma bind_ok ops Lm ss opaque fd : world ops [] Lm ss → wp (socket_server_bind opaque fd) (λ _ ss', world ops [] Lm ss') ss.
Proof.
  intros Hw. unfold socket_server_bind.
  apply (wp_reserve_push _ _ _ (λ id, R_bind id fd opaque) (λ _, ret (-1))); try done. intros. by steps.
Qed.

Lemma push_ok ops Lm ss r (Q : unit → server → Prop) : world ops [] Lm ss → plain r = true → is_tcp r = true → id_of r ≤ alloc_id ss →
  (∀ ss', world ops [] Lm ss' → Q tt ss') → wp (send_request r) Q ss.
Proof. intros Hw Hr Htcp Hid HQ. apply HQ. by apply world_queue. Qed.

(** *** Sending *)

Lemma clone_data b fresh : b_data (clone_buffer b fresh) = b_data (sb_buffer b).
Proof. unfold clone_buffer. by destruct (sb_type b). Qed.

Lemma wpi_free_buffer i x b (Q : unit → socket → list Z → nat → Prop) s w k : Q tt s w k → wpi i x (free_buffer b) Q s w k.
Proof. intros HQ. unfold free_buffer. destruct (sb_type b); by steps. Qed.

Lemma npend_waiting x p l : npend x l = 0 → waiting x p l = [].
Proof.
  induction l as [|r l IH]; [done|]. rewrite npend_cons, waiting_cons. pose proof (npend_pos x l). pose proof (counts_bound x r).
  intros H1. rewrite IH by lia. destruct r; cbn in *; try done. destruct (_ =? x); [lia|done].
Qed.

Lemma shiftr_count t c : 0 ≤ c ≤ 65535 → Z.shiftr (t * 65536 + c) 16 = t.
Proof. intros Hc. rewrite Z.shiftr_div_pow2 by lia. change (2 ^ 16) with 65536. rewrite Z.div_add_l, Z.div_small by lia. lia. Qed.

(** The count goes up; a full one waits. *)
Lemma wpi_inc id x c (Q : unit → socket → list Z → nat → Prop) s w k : s_protocol s = PROTOCOL_TCP → 0 ≤ c ≤ 65535 →
  s_sending s = ID_TAG16 id * 65536 + c → (c < 65535 → Q tt (s <| s_sending := s_sending s + 1 |>) w k) →
  wpi (HASH_ID id) x (inc_sending_ref id) Q s w k.
Proof.
  intros Htcp Hc Hs HQ. unfold inc_sending_ref. do 2 step1. step1; [by rewrite Htcp in Heqb|].
  assert (E1 : Z.shiftr (s_sending s) 16 = ID_TAG16 id) by (rewrite Hs; by apply shiftr_count).
  assert (E2 : Z.land (s_sending s) 0xffff = c) by (rewrite Hs; by apply land_count).
  rewrite E1, Z.eqb_refl, E2. steps. apply HQ. lia.
Qed.

(** The socket of [id] is open, and its count is [c]. *)
Definition ready (Lm : Z → list entry) (ss : server) (id c : Z) : Prop :=
  let s := slot ss (HASH_ID id) in
  live id (Lm id) s (written id (trace ss)) ∧ 0 < id ≤ alloc_id ss ∧
  npend id (pipe ss) ≤ c ≤ 65535 ∧ s_sending s = ID_TAG16 id * 65536 + c.

Lemma world_ready ops Lm ss id : world ops [] Lm ss → socket_invalid (slot ss (HASH_ID id)) id = false →
  (s_id (slot ss (HASH_ID id)) =? id) && is_reserve ss (HASH_ID id) = false → ∃ c, ready Lm ss id c.
Proof.
  intros Hw Hv Hr. unfold socket_invalid in Hv. apply orb_false_iff in Hv as [Hid Hty]. apply negb_false_iff in Hid.
  rewrite Hid in Hr. cbn in Hr. unfold is_reserve in Hr. apply Z.eqb_eq in Hid. apply Z.eqb_neq in Hty, Hr.
  pose proof (HASH_range id) as Hi. pose proof (sock_live _ _ _ _ (so_inv _ _ (wd_sockets _ _ _ _ Hw) _ Hi) (conj Hty Hr)) as Hl.
  destruct (open_used _ _ _ (wd_sockets _ _ _ _ Hw) Hi Hty) as [Hpos _].
  destruct (tr_count _ _ _ _ (wd_traffic _ _ _ _ Hw) _ Hi) as [_ C2]. destruct (C2 (lv_tcp _ _ _ _ Hl)) as (c & Hc & Hs).
  rewrite Hid in *. by exists c.
Qed.

(** The socket [id] took what it was given, in its place. *)
Lemma world_change ops ops' Lm Lm' ss ss' id s' w' k c' P : world ops [] Lm ss → is_open (s_type (slot ss (HASH_ID id))) →
  at_slot ss (HASH_ID id) = id →
  view (HASH_ID id) id ss s' w' k ss' → live id (Lm' id) s' w' → (∀ y, y ≠ id → Lm' y = Lm y) →
  s_sending s' = ID_TAG16 id * 65536 + c' → npend id P ≤ c' ≤ 65535 →
  ordered P → Forall (λ r, id_of r ≤ alloc_id ss ∧ is_tcp r = true) P → opens P = opens (pipe ss) →
  (∀ y, y ≠ id → npend y P = npend y (pipe ss)) →
  (∀ x p, sublist (by_prio p (Lm' x) ++ waiting x p P) (sends_of x p ops')) →
  world ops' [] Lm' (ss' <| pipe := P |>).
Proof.
  intros [Hs Ht] Hop Hid Hv Hl HLm Hsd Hc Ho Hids Hopens Hn Hord. pose proof (HASH_range id) as Hi.
  destruct (open_used _ _ _ Hs Hi (proj1 Hop)) as [Hpos _]. rewrite Hid in Hpos.
  pose proof Hv as [V1 V2 V3 V4 V5 V6]. injection V6 as E1 E2 E3 E4 E5 E6.
  split.
  - apply sockets_pipe. eapply (sockets_update Lm Lm' (Lm' id)); [exact Hs|exact Hi|rewrite Hid; lia|rewrite Hid; exact Hv|
      rewrite Hid; by left|by rewrite Hid|by rewrite Hid].
  - split; cbn; rewrite ?E3; try done.
    + intros j Hj. destruct (decide (j = HASH_ID id)) as [->|Hne].
      * change (count_ok (npend (at_slot ss' (HASH_ID id)) P) (slot ss' (HASH_ID id))). rewrite V1, (lv_id _ _ _ _ Hl).
        split; [intros E; by destruct (lv_type _ _ _ _ Hl)|]. intros _. exists c'. by rewrite (lv_id _ _ _ _ Hl).
      * change (count_ok (npend (at_slot ss' j) P) (slot ss' j)). rewrite V2 by done.
        assert (at_slot ss j ≠ id) by (rewrite <- Hid; eapply (other_id Lm); [exact Hs|done|done|done|lia]).
        rewrite Hn by done. by apply Ht.
    + intros y. rewrite Hopens. etransitivity; [|apply (tr_opens _ _ _ _ Ht)].
      change (is_reserved ss' y ↔ is_reserved ss y).
      assert (Hty : ∀ j, s_type (slot ss' j) = SOCKET_TYPE_RESERVE ↔ s_type (slot ss j) = SOCKET_TYPE_RESERVE).
      { intros j. destruct (decide (j = HASH_ID id)) as [->|?]; [|by rewrite V2]. rewrite V1.
        pose proof (lv_type _ _ _ _ Hl) as [_ ?]. destruct Hop. done. }
      unfold is_reserved. rewrite Hty. destruct (decide (HASH_ID y = HASH_ID id)) as [E|?]; [|by rewrite V2].
      by rewrite E, V1, Hid, (lv_id _ _ _ _ Hl).
Qed.

Definition queue_sends (x : Z) (p : bool) (id : Z) (q : bool) (d : list Z) : list (list Z) :=
  if (id =? x) && Bool.eqb q p then [d] else [].

(** What an accepted call adds to the calls. *)
Lemma sends_of_send x p b fresh : sends_of x p [Send b fresh] = queue_sends x p (sb_id b) true (b_data (sb_buffer b)).
Proof. unfold sends_of, queue_sends. cbn. destruct (_ =? x), p; done. Qed.

Lemma sends_of_low x p b fresh : sends_of x p [SendLow b fresh] = queue_sends x p (sb_id b) false (b_data (sb_buffer b)).
Proof. unfold sends_of, queue_sends. cbn. destruct (_ =? x), p; done. Qed.

(** The buffer goes into the pipe. *)
Lemma queue_ok ops ops' Lm ss id c q b fresh : world ops [] Lm ss → ready Lm ss id c → sb_id b = id →
  (∀ x p, sends_of x p ops' = sends_of x p ops ++ queue_sends x p id q (b_data (sb_buffer b))) →
  wp (inc_sending_ref id;; send_request (R_send q id (clone_buffer b fresh));; ret 0) (λ _ ss', world ops' [] Lm ss') ss.
Proof.
  intros Hw (Hl & Hpos & Hc & Hsd) Hid Hops. set (i := HASH_ID id) in *. apply wp_bind.
  eapply wp_view; [apply (view_refl i id ss)| |].
  - apply (wpi_inc id id c (λ _ s' w' _, c < 65535 ∧ s' = (slot ss i) <| s_sending := s_sending (slot ss i) + 1 |> ∧
      w' = written id (trace ss))); [apply Hl|pose proof (npend_pos id (pipe ss)); lia|exact Hsd|by intros].
  - cbn beta. intros _ s' w' k' ss1 Hv (Hc1 & Es & Ew). apply wp_bind, wp_push, wp_ret.
    pose proof (vw_rest _ _ _ _ _ _ _ Hv) as Hr. injection Hr as R1 R2 R3 R4 R5 R6. rewrite R6.
    destruct (wd_traffic _ _ _ _ Hw) as [H1 H2 H3 H4 H5].
    eapply (world_change ops ops' Lm Lm ss ss1 id s' w' k' (c + 1)); [exact Hw|apply Hl|apply Hl|exact Hv| |done| | | | | | |].
    + rewrite Ew, Es. eapply live_core; [|apply Hl|exact Hl]. done.
    + rewrite Es. cbn. lia.
    + rewrite npend_snoc. cbn [counts]. rewrite Z.eqb_refl. lia.
    + apply ordered_snoc; [done|]. apply Forall_forall. cbn. set_solver.
    + apply Forall_app. split; [done|]. apply Forall_singleton. cbn. split; [lia|done].
    + rewrite opens_snoc. by rewrite app_nil_r.
    + intros y Hy. rewrite npend_snoc. cbn [counts]. destruct (Z.eqb_spec id y); [congruence|lia].
    + intros x p. rewrite waiting_snoc, Hops, app_assoc. apply sublist_app; [apply H5|].
      cbn [sending]. rewrite clone_data. unfold queue_sends. reflexivity.
Qed.

Lemma send_low_ok ops Lm ss b fresh : world ops [] Lm ss → allowed (SendLow b fresh) ss = true →
  wp (socket_server_send_lowpriority b fresh) (λ _ ss', world (ops ++ [SendLow b fresh]) [] Lm ss') ss.
Proof.
  intros Hw Ha. cbn [allowed] in Ha. apply negb_true_iff in Ha. unfold socket_server_send_lowpriority.
  apply wp_bind, wp_load_slot. destruct (socket_invalid _ _) eqn:Hv.
  - eapply wp_silent; [apply world_ops, Hw|intros|done]. step1. apply wpi_free_buffer. by steps.
  - destruct (world_ready _ _ _ _ Hw Hv Ha) as [c Hr]. eapply queue_ok; [exact Hw|exact Hr|done|].
    intros x p. by rewrite sends_of_snoc, sends_of_low.
Qed.

(** The system takes the first bytes of the buffer from the caller itself. *)
Lemma direct_ok ops Lm ss b fresh c s' w' k' ss' L' c' : world ops [] Lm ss → ready Lm ss (sb_id b) c →
  npend (sb_id b) (pipe ss) = 0 → view (HASH_ID (sb_id b)) (sb_id b) ss s' w' k' ss' →
  live (sb_id b) L' s' w' → took true (b_data (sb_buffer b)) (Lm (sb_id b)) L' →
  s_sending s' = ID_TAG16 (sb_id b) * 65536 + c' → 0 ≤ c' ≤ 65535 →
  ∃ Lm', world (ops ++ [Send b fresh]) [] Lm' ss'.
Proof.
  intros Hw (Hl & Hpos & Hc & Hsd) Hn Hv Hl' Ht Hsd' Hc'. set (id := sb_id b) in *.
  exists (λ y, if y =? id then L' else Lm y). destruct (wd_traffic _ _ _ _ Hw) as [H1 H2 H3 H4 H5].
  pose proof (vw_rest _ _ _ _ _ _ _ Hv) as Hr. injection Hr as R1 R2 R3 R4 R5 R6.
  assert (E : ss' = ss' <| pipe := pipe ss |>) by (rewrite <- R6; by destruct ss'). rewrite E.
  eapply (world_change ops _ Lm _ ss ss' id s' w' k' c'); [exact Hw|apply Hl|apply Hl|exact Hv| | |exact Hsd'|lia|done..|].
  - cbn. by rewrite Z.eqb_refl.
  - intros y Hy. cbn. by destruct (Z.eqb_spec y id).
  - intros x p. rewrite sends_of_snoc, sends_of_send. unfold queue_sends. fold id. specialize (H5 x p).
    destruct (Z.eqb_spec x id) as [->|Hne].
    + rewrite Z.eqb_refl. cbn [andb]. rewrite (npend_waiting id p _ Hn) in H5 |- *. rewrite app_nil_r in H5 |- *.
      destruct Ht as [->|Ht]; [by apply sublist_inserts_r|]. rewrite Ht. apply sublist_app; [done|]. by destruct p.
    + destruct (Z.eqb_spec id x); [congruence|]. cbn [andb]. by rewrite app_nil_r.
Qed.

Lemma can_direct s id : can_direct_write s id = true → empty s ∧ Z.land (s_sending s) 0xffff = 0.
Proof.
  unfold can_direct_write, nomore_sending_data, send_buffer_empty. intros H. bools.
  match goal with H : _ || _ = true |- _ => apply orb_true_iff in H as [H|H] end; bools.
  - split; [split_and!; [done..|by destruct (s_dw_buffer s)]|lia].
  - assert (s_type s = SOCKET_TYPE_CONNECTED) as E by lia. by rewrite E in *.
Qed.

(** What a write of [n] bytes by the caller leaves, before the count goes up. *)
Definition part_sent (b : buf) (n : Z) (s s' : socket) : Prop :=
  core s' = core (s <| s_dw_buffer := Some b |> <| s_dw_offset := n |>) ∧ s_type s' = s_type s ∧ s_sending s' = s_sending s.

Lemma direct_write_ok ops Lm ss b fresh c : world ops [] Lm ss → ready Lm ss (sb_id b) c →
  can_direct_write (slot ss (HASH_ID (sb_id b))) (sb_id b) = true →
  let s := slot ss (HASH_ID (sb_id b)) in let data := b_data (sb_buffer b) in let i := HASH_ID (sb_id b) in
  wp (a ⟵ sys (Write (sb_id b) (s_fd s) data);
      let n := if a_ret a <? 0 then 0 else a_ret a in
      stat_write i n;;
      if n =? len data then free_buffer b;; ret 0
      else
        modify i (λ s, s <| s_dw_buffer := Some (clone_buffer b fresh) |> <| s_dw_offset := n |>);;
        inc_sending_ref (sb_id b);;
        send_request (R_trigger (sb_id b));;
        ret 0) (λ _ ss', ∃ Lm', world (ops ++ [Send b fresh]) [] Lm' ss') ss.
Proof.
  intros Hw Hready Hcan s data i. pose proof Hready as (Hl & Hpos & Hc & Hsd). destruct (can_direct _ _ Hcan) as [He Hland].
  fold i s in Hl, Hsd, He, Hland. set (id := sb_id b) in *. pose proof (npend_pos id (pipe ss)) as Hnn.
  rewrite Hsd, land_count in Hland by lia. subst c.
  assert (Hn : npend id (pipe ss) = 0) by lia.
  set (L' := ins (len (Lm id) - 0) (true, data) (Lm id)).
  assert (Htook : took true data (Lm id) L').
  { eapply (direct_queued (Lm id) (sb_buffer b) s _ 0); [apply Hl|exact He|pose proof (len_nonneg (b_data (sb_buffer b))); lia]. }
  apply wp_bind. eapply wp_view; [apply (view_refl i id ss)|apply (wpi_write i id _ _ (λ a s' w' _, s' = s ∧ -1 ≤ a_ret a ≤ len data ∧
    w' = written id (trace ss) ++ take (Z.to_nat (a_ret a)) data)); by intros|].
  cbn beta zeta. intros a s1 w1 k1 ss1 Hv1 (-> & Ha & Hw1).
  set (n := if a_ret a <? 0 then 0 else a_ret a).
  assert (Hn2 : 0 ≤ n ≤ len data) by (unfold n; pose proof (len_nonneg data); destruct (Z.ltb_spec (a_ret a) 0); lia).
  replace (Z.to_nat (a_ret a)) with (Z.to_nat n) in Hw1 by (unfold n; destruct (Z.ltb_spec (a_ret a) 0); lia).
  apply wp_bind. eapply wp_view; [exact Hv1|apply wpi_stat_write; intros st; instantiate (1 := λ _ s' w' _,
    core s' = core s ∧ s_type s' = s_type s ∧ s_sending s' = s_sending s ∧ w' = w1); done|].
  cbn beta. intros _ s2 w2 k2 ss2 Hv2 (Hcore & Hty & Hsend & ->).
  destruct (Z.eqb_spec n (len data)) as [E|E].
  - apply wp_bind. eapply wp_view; [exact Hv2|apply wpi_free_buffer; instantiate (1 := λ _ s' w' _, s' = s2 ∧ w' = w1); done|].
    cbn beta. intros _ s3 w3 k3 ss3 Hv3 (-> & ->). apply wp_ret.
    eapply (direct_ok ops Lm ss b fresh 0 s2 w1 k3 ss3 L' 0); try done; [|by rewrite Hsend].
    rewrite Hw1, E, take_ge by (unfold len; lia). by eapply direct_whole.
  - apply wp_bind. eapply wp_view; [exact Hv2|apply wpi_modify; instantiate (1 := λ _ s' w' _, part_sent (clone_buffer b fresh) n s s' ∧ w' = w1)|].
    { split; [|done]. injection Hcore as C1 C2 C3 C4 C5 C6 C7 C8. split; [|done]. unfold core. cbn. congruence. }
    cbn beta. intros _ s3 w3 k3 ss3 Hv3 [(Hcore3 & Hty3 & Hsend3) ->]. apply wp_bind.
    assert (Hp3 : s_protocol s3 = PROTOCOL_TCP) by (injection Hcore3 as C1 C2 _ _ _ _ _ _; rewrite C2; apply Hl).
    eapply wp_view; [exact Hv3|apply (wpi_inc id id 0 (λ _ s' w' _, part_sent (clone_buffer b fresh) n s (s' <| s_sending := s_sending s |>) ∧
      s_sending s' = ID_TAG16 id * 65536 + 1 ∧ w' = w1)); [done|lia|by rewrite Hsend3|]|].
    { intros _. split; [done|]. split; [|done]. cbn [s_sending]. rewrite Hsend3. unfold s. fold i. lia. }
    cbn beta. intros _ s4 w4 k4 ss4 Hv4 ((Hcore4 & Hty4 & _) & Hsend4 & ->). apply wp_bind, wp_push, wp_ret.
    destruct (direct_ok ops Lm ss b fresh 0 s4 w1 k4 ss4 L' 1) as [Lm' Hw4]; try done.
    + rewrite Hw1. unfold L', data in *. rewrite <- (clone_data b fresh) in *. by eapply direct_part.
    + exists Lm'. apply world_queue; [done|done| |done]. cbn.
      pose proof (vw_rest _ _ _ _ _ _ _ Hv4) as Hr. injection Hr as _ _ -> _ _ _. lia.
Qed.

Lemma wp_assoc {A B C} (m : run A) (f : A → run B) (g : B → run C) Q ss :
  wp (bind m (λ x, bind (f x) g)) Q ss → wp (bind (bind m f) g) Q ss.
Proof. unfold wp, bind. by destruct (m ss) as [[x s']| |]. Qed.

Lemma send_ok ops Lm ss b fresh : world ops [] Lm ss → allowed (Send b fresh) ss = true →
  wp (socket_server_send b fresh) (λ _ ss', ∃ Lm', world (ops ++ [Send b fresh]) [] Lm' ss') ss.
Proof.
  intros Hw Ha. cbn [allowed] in Ha. apply negb_true_iff in Ha. unfold socket_server_send.
  apply wp_bind, wp_load_slot. cbv beta zeta. destruct (_ || _) eqn:Hv.
  { eapply wp_silent; [apply world_ops, Hw|intros; step1; apply wpi_free_buffer; by steps|]. intros r ss' Hw'. by exists Lm. }
  apply orb_false_iff in Hv as [Hv _]. destruct (world_ready _ _ _ _ Hw Hv Ha) as [c Hr].
  destruct (can_direct_write _ _) eqn:Hcan.
  - rewrite (lv_tcp _ _ _ _ (proj1 Hr)). cbn [Z.eqb PROTOCOL_TCP]. apply wp_assoc.
    exact (direct_write_ok ops Lm ss b fresh c Hw Hr Hcan).
  - eapply wp_mono; [eapply (queue_ok ops (ops ++ [Send b fresh]) Lm ss); [exact Hw|exact Hr|done|]|].
    + intros x p. by rewrite sends_of_snoc, sends_of_send.
    + cbn. intros _ ss' Hw'. by exists Lm.
Qed.

Lemma exec_ok ops Lm ss o : world ops [] Lm ss → allowed o ss = true →
  wp (exec o) (λ _ ss', ∃ Lm', world (ops ++ [o]) [] Lm' ss') ss.
Proof.
  intros Hw Ha. pose proof (world_ops _ _ _ _ o Hw) as Hw'.
  assert (Hpush : ∀ r, plain r = true → is_tcp r = true → id_of r ≤ alloc_id ss →
    wp (send_request r) (λ _ ss', ∃ Lm', world (ops ++ [o]) [] Lm' ss') ss).
  { intros r H1 H2 H3. eapply push_ok; [exact Hw'|done..|]. intros ss' H. by exists Lm. }
  assert (Hdone : ∀ (m : run Z), wp m (λ _ ss', world (ops ++ [o]) [] Lm ss') ss →
    wp (_ ⟵ m; ret tt) (λ _ ss', ∃ Lm', world (ops ++ [o]) [] Lm' ss') ss).
  { intros m Hm. apply wp_bind. eapply wp_mono; [exact Hm|]. cbn beta. intros _ ss' H. apply wp_ret. by exists Lm. }
  destruct o; cbn [exec allowed] in *.
  - by apply Hdone, connect_ok.
  - by apply Hdone, listen_ok.
  - by apply Hdone, bind_ok.
  - apply Hpush; [done|done|]. cbn. lia.
  - apply Hpush; [done|done|]. cbn. lia.
  - apply Hpush; [done|done|]. cbn. lia.
  - apply Hpush; [done|done|]. cbn. lia.
  - apply Hpush; [done|done|]. cbn. lia.
  - apply wp_bind. eapply wp_mono; [eapply send_ok; [exact Hw|exact Ha]|]. cbn beta. intros _ ss' H. by apply wp_ret.
  - apply Hdone. eapply send_low_ok; [exact Hw|exact Ha].
  - apply Hpush; [done|done|]. cbn. apply Hw.
  - exists Lm. eapply world_events; [exact Hw'|done|done|exact (world_events_ok _ _ _ _ Hw)].
  - apply wp_bind. eapply wp_mono; [eapply poll_round_ok; [exact Hw'|exact Ha]|]. cbn beta. intros _ ss' [Lm' H]. apply wp_ret. by exists Lm'.
Qed.

Lemma session_ok l : ∀ ops Lm ss, world ops [] Lm ss →
  wp (session l) (λ _ ss', ∃ Lm', world (ops ++ l) [] Lm' ss') ss.
Proof.
  induction l as [|o l IH]; intros ops Lm ss Hw; cbn [session].
  - apply wp_ret. exists Lm. by rewrite app_nil_r.
  - apply wp_bind, wp_get. destruct (allowed o ss) eqn:Ha; [|done]. apply wp_bind.
    eapply wp_mono; [by eapply exec_ok|]. cbn beta. intros _ ss' [Lm' Hw'].
    eapply wp_mono; [by eapply IH|]. cbn beta. intros _ ss'' [Lm'' Hw'']. exists Lm''. by rewrite <- app_assoc in Hw''.
Qed.

Lemma world_create now answers : world [] [] (λ _, []) (socket_server_create now answers).
Proof.
  assert (Hs : ∀ i, slot (socket_server_create now answers) i = slot_unused) by done.
  split; split; cbn; try done.
  - intros i _. by left.
  - intros i _. rewrite Hs. right; left. split; [done|done|done|by exists [], [], 0%nat].
  - intros x. by exists [], [], 0%nat.
  - intros x. unfold is_reserved. rewrite Hs. split; [by intros [_ ?]|set_solver].
Qed.

(** The bytes written to a socket are whole buffers that were sent to it and a
    part of one more; those of one priority are in the order of their calls. *)
Definition sent_in_order (l : list op) (ss : server) (x : Z) : Prop :=
  ∃ L, cut_short L (written x (trace ss)) ∧ ∀ p, sublist (by_prio p L) (sends_of x p l).


(** ** A session *)

(** An answer that says no more than its value. *)
Definition yes (r : Z) : answer := Answer r 0 [] [] [].
Definition bytes_of (n : Z) (l : list Z) : buf := Buf n l false.
Definition send_of (id n : Z) (l : list Z) : socket_sendbuffer := SendBuffer id SOCKET_BUFFER_MEMORY (bytes_of n l).

(** A connection that is made at once; the system takes two bytes of the first buffer, and the rest when
    the socket is writable. *)
Definition demo_ops : list op :=
  [Connect 7 [104] 80; Poll; Send (send_of 1 100 [1; 2; 3]) 0; SendLow (send_of 1 101 [4; 5]) 0;
   Send (send_of 1 102 [6]) 0; Poll; Poll; Poll; Poll].
Definition demo_answers : list answer :=
  [Answer 0 0 [9] [] []; yes 5; yes 0; yes 0; yes 0; yes 0; yes 0;   (* the connection *)
   yes 2;                                                            (* the first write *)
   yes 0;                                                            (* the request to write *)
   Answer 1 0 [] [] [Event (Some 1) false true false false];
   yes 1; yes 2; yes 1; yes 0].

(** The session ends, and the low buffer went out before a high one: it came to empty lists. *)
Example demo_session : ∃ ss, session demo_ops (socket_server_create 0 demo_answers) = Ok (tt, ss) ∧
  written 1 (trace ss) = [1; 2; 3; 4; 5; 6].
Proof. eexists. split; vm_compute; reflexivity. Qed.

